(* ===== verification/_CoqProject ===== *)
-Q . S2P
Prelude.v
Platform.v
Float64.v
Value.v
RowCodec.v
RowCodecSpec.v
ValueRef.v
ZSet.v
SnapshotHash.v
JsonText.v
SortKey.v
Index.v
Store.v
StoreFacts.v
Arena.v
RowTable.v
RowTableFacts.v
RowTableDelta.v
Checkpoint.v
CheckpointFacts.v
CheckpointChain.v
CheckpointLoad.v
RangeHash.v
Plan.v
Combinators.v
Convert.v
ConvertLaws.v
Print.v
ParseWords.v
ParseConds.v
ReadBack.v
Operator.v
Filter.v
LinearOps.v
Join.v
Witness.v
WitnessFacts.v
Presence.v
TopK.v
Window.v
IndexScan.v
Graph.v
IndexPlan.v
IndexOrder.v
GraphFacts.v
Exec.v
Denote.v
Support.v
IndexRead.v
PlanSound.v
Dag.v
DagFacts.v
Ids.v
RunStore.v
Workflow.v
WorkflowLogic.v
WorkflowInv.v
WorkflowSafe.v
WorkflowRuns.v
WorkflowLive.v
WorkflowRetry.v
WorkflowSpawn.v
Maintain.v
View.v
Circuit.v
Step.v
Register.v
Batch.v
Safeguards.v
Viewed.v
Correct.v
Reach.v
Lowered.v
QueryMeaning.v
Sharing.v
Reconcile.v
MergeKey.v
MergeSafe.v
Permission.v
Guarded.v
