(* ===== verification/Prelude.v ===== *)
(** * Sp00ky sync server: a verified model of the incremental view engine

    Sp00ky answers SurrealQL queries live: a client registers a query, the
    server keeps the answer current while rows change, and sends the client
    what changed. This development models the engine that does it
    ([packages/ssp]), the digests two copies of a table are compared by
    ([packages/ssp-protocol]), and the workflow scheduler of the same server
    ([packages/schedule-core]). Paths below are relative to the repository's
    source tree.

    ** Conventions

    Rust functions are Rocq functions of the same name, in a [Module] named
    after the type they are methods of. A [&mut self] method returns the new
    state. [option] is Rust's [Option] where the code returns one; elsewhere,
    in the execution of a circuit, [None] is a panic (an index out of range, a
    missing operator input), so that "returns [Some]" is freedom from panics.
    Integers are [Z] with the wrap-around of a release build written out
    ([wrap_i64], [wrap_u64], [saturating_add]); [f64] is its 64 bits (Float64).
    A string is its UTF-8 bytes. A hash map keyed by strings is a [gmap]; one
    whose iteration order matters (JSON objects) is an association list whose
    order stands for the unspecified order of the map, and what depends on it
    is proved independent of it. Code outside the repository is a class, with
    its documented behaviour as a class of laws: hashing and number formatting
    ([Hashing], [HashingLaws], [JsonLaws]), ordered sets with positional
    lookup ([OrdSet], [OrdSetLaws]), SHA-256 ([Sha256]), the order in which the
    database returns rows ([ScanOrder]). Platform gives instances; witnesses
    run on them.

    ** Data

    - Value: row keys, paths, dynamic values and their JSON form
      ([ssp/src/types/]).
    - RowCodec, RowCodecSpec: the flat row encoding
      ([circuit/row_codec.rs]); a record round-trips.
    - ValueRef: borrowed values over both representations and their comparison
      ([eval/value_ref.rs], [eval/value_ops.rs]); reading a field of the
      encoding refines reading it in memory.
    - ZSet: weighted sets ([algebra/]), an abelian group under wrapping addition.
    - SnapshotHash: content digests, canonical JSON, XOR set-hash
      ([ssp-protocol/src/snapshot_hash.rs]); a digest does not depend on the
      order of keys, and the two ways to compute one agree. JsonText: canonical
      text determines the value.
    - RangeHash: hashes of a table by ranges of ids
      ([ssp-protocol/src/range_hash.rs], [Collection::range_accs]): the
      accumulator of a range is that of its rows through inserts and deletes,
      two tables that differ differ in a reported range, and the wire form
      round-trips.

    ** The row store and its indexes

    - Store, StoreFacts: collections with digests, set-hash, membership and
      built indexes, and the overlay of rows deleted within a step
      ([circuit/store.rs]). [coll_inv] says that all of them are functions of
      the rows; every mutation keeps it, and index builds that are stepped
      between writes finish exact. A row is its value here; the table that
      holds its bytes is proved to implement that below.
    - SortKey, Index: sort keys, index keys and ordered indexes ([circuit/index.rs],
      [operator/top_k.rs]). The orders are total on safe integers only.

    ** Rows as bytes, and their checkpoints

    - Arena: the interface of append-only storage and the laws a table relies
      on; the heap arena implements it ([circuit/arena.rs]).
    - RowTable, RowTableFacts: a hash table of positions over an arena
      ([circuit/row_table.rs]) implements the map from ids to rows that Store
      keeps, over any arena with the laws and whatever ids collide. The hash
      table of the [hashbrown] crate is a class with its laws.
    - RowTableDelta: the watermark and the removals a table keeps for the next
      checkpoint are exactly what changed since the last one; with the one
      history in which a removal is missed.
    - Checkpoint: the files ([circuit/checkpoint.rs]): an image's layout, its
      writer, the readers of an image, of a base with its deltas, of a whole
      store and of the previous format. CheckpointFacts: what was
      written parses, and the two loops over an image give a table of the
      rows written. CheckpointChain, CheckpointLoad: a chain of files reads
      back to the rows the last was written from; a file that does not belong
      is refused and the files before it are kept; a store reads back whole.

    ** Plans and operators

    - Plan: plans and predicates ([operator/plan.rs], [operator/predicate.rs]).
    - Operator: the operator trait, and the contract [Incremental]: what a step
      emits is the difference of the snapshots before and after. Filter,
      LinearOps (scan, map, union, distinct), Join, Witness (semi- and
      anti-join) and TopK implement the operators; WitnessFacts, Presence
      and Window prove the contract of the hard ones.
    - IndexScan, IndexPlan: sources that read an index and the planner that
      chooses them ([operator/index_scan.rs], [circuit/index.rs]). IndexOrder,
      IndexRead and PlanSound prove that a plan with
      such a source answers as the plan as written.

    ** The circuit

    - Graph, GraphFacts: a plan becomes nodes, ordered by Kahn's algorithm
      ([circuit/graph.rs]). Exec: running a graph, for priming and
      for a batch of deltas. Denote is the specification: a plan evaluated over
      a store with no state. Support and Maintain: for the plans the engine
      maintains ([maintainable]: everything but the equi-join, which does not
      retract deleted rows), priming computes the specification and a delta
      pass the difference of two.
    - View, Circuit, Step, Register: views and their subquery sets, the circuit's
      state and safeguards, steps, reconciliation, store replacement,
      registration and sharing ([circuit/view.rs], [circuit/circuit.rs]).
    - Batch, Viewed, Correct, Reach: the correctness of all of it. A
      batch's deltas are exactly its change of membership; a step keeps every
      view equal to its specification; so every circuit that can be reached
      from the empty one ([reachable]) has only right views. Safeguards: row
      versions advance, opaque fields are never stored. Sharing: holders of a
      shared graph. Reconcile: reconciling a table.
    - MergeKey, MergeSafe: the key under which registrations share a graph
      ([merge_key.rs]) determines the plan and the value of every parameter it
      refers to, and these determine the answer; so a subscriber reads its own
      answer off its owner's view. The exception, references through [parent.],
      is proved to be one.

    ** Queries

    - Combinators: the string functions of the standard library that the parsers
      use, and the parser combinators of the [nom] crate, a class with its
      laws; the functions of its module [Spec] say what the crate documents.
    - Convert: the query converter ([converter.rs]), from text to the JSON of a
      plan and from that to the plan: the parser, the lowering of conditions
      with [IN (SELECT ...)] and the rewriting of record links to semi-joins.
      ConvertLaws: both recursions end, and over any
      combinators with the laws the parser is the one over [Spec].
    - Lowered, QueryMeaning: a converted query answers the rows its condition
      holds for, where a condition is read on its own: paths followed through
      links, subqueries asked. Two queries that are not answered are exhibited.
    - Print: conditions and queries as text. ParseWords, ParseConds,
      ReadBack: what is printed is converted
      to the plan of its parts, whatever follows it that does not go on with
      it; so the converter ignores what it cannot read.

    ** Permissions

    - Permission: the rules of the scanned tables put into a plan before it is
      registered, and the refusal of plans that evaluate a field the engine
      does not hold ([permission_inject.rs], [service.rs]); the theorems
      hold for any converter of rules. Guarded: an injected plan
      answers the query over the permitted rows alone, so every row a
      registered query shows, in every reachable circuit, is admitted by its
      table's rule. The records of subqueries are not covered, and one that
      leaks is exhibited, as are rules of which the converter reads a part.

    ** Workflow scheduling

    - Dag, DagFacts: validation, order and readiness of a workflow's steps
      ([schedule-core/src/dag.rs]). Ids: the ids rows and jobs get ([ids.rs]).
    - RunStore: the rows of a run and the statements over them, with the guard
      each statement has ([sql.rs]). Workflow: the passes over a run as
      programs of those statements ([workflow.rs]).
    - WorkflowLogic: any number of passes interleave statement by statement;
      statements fail with or without effect, passes die, jobs finish in
      between. WorkflowInv, WorkflowSafe, WorkflowRuns: what holds under every
      such interleaving (no step starts before its dependencies succeeded, a
      success is one). WorkflowLive: passes return, and finish
      the run once its jobs are done. WorkflowRetry, WorkflowSpawn: what a
      retry does, and that spawning writes the rows the other theorems start
      from.

    ** Bounds and fuel

    Kahn's algorithm runs with one unit of fuel per node and the workflow order
    with one per step; each node enters the queue at most once, so the fuel is
    enough ([topo_order_correct], [dag_validate_exact]). Decoders of the row
    encoding have the input's length as fuel, and each byte is read at most
    once. [workflow_ends] needs one pass more than the workflow has steps.
    Stepped index builds need no bound: every step makes progress
    ([build_index_step_progress]). A heap arena numbers its segments with 16
    bits: 64 GiB of appended records cannot use them up ([HEAP_ROOM]). A load
    that starts over after a refused delta reads fewer files, and the files
    before a refused one are all accepted, so one unit of fuel is enough
    ([load_refuses]). The query parser has a unit of fuel per byte, as every
    nested condition or query is inside a bracket, and the rewriting of links
    has the depth of the plan ([conversion_ends]). Theorems about windows ask for an end inside
    the machine word ([maintainable]); beyond it the code wraps
    ([window_end_wraps]).

    ** Not modelled

    - Circuits with declared indexes: the index-backed sources and the planner
      are, and their answers are proved; [Circuit] builds its graphs as the
      plans are written. Timings, and the change of circuits on save and
      restore.
    - Storage over file mappings ([MmapArena], [map_table]) and the writing of
      checkpoint files in the background: the file system decides them.
    - The aggregate operator: no plan builds one.
    - The list of allowed queries ([allowlist.rs]) and the clean-up of records
      ([sanitizer.rs]), checks at the door of the service.
    - In the scheduler: the firing of schedules, the recorded error texts and
      times, history rollups; retries are modelled alone and not under
      interleaving.
    - The services around the engine: nodes, the scheduler's routing, push,
      pools, maintenance, agent and command line, which are network, file and
      process I/O around these parts. *)

From stdpp Require Export prelude strings gmap sorting.
From Stdlib Require Export ZArith Lia.

(** ** Scope and shared notation *)

Declare Scope sp00ky_scope.
Delimit Scope sp00ky_scope with sp00ky.
Open Scope sp00ky_scope.

Create HintDb sp00ky.

(** Early return on [None], as Rust's [?] on an [Option]. *)
Notation "'let?' x := e 'in' k" :=
  (match e with Some x => k | None => None end)
  (at level 10, x pattern, e at level 200, k at level 200,
   format "'[v' 'let?'  x  :=  e  'in' '/' k ']'") : sp00ky_scope.

(** ** Machine integers *)

Definition two64 : Z := 18446744073709551616.
Definition two63 : Z := 9223372036854775808.
Definition two32 : Z := 4294967296.

(** [u64]/[usize] arithmetic without overflow checks (a release build). *)
Definition wrap_u64 (z : Z) : Z := (z mod two64)%Z.

(** [as u32]. *)
Definition wrap_u32 (z : Z) : Z := (z mod two32)%Z.

(** [i64] arithmetic without overflow checks: two's complement wrap-around. *)
Definition wrap_i64 (z : Z) : Z := ((z + two63) mod two64 - two63)%Z.

Definition i64_add (a b : Z) : Z := wrap_i64 (a + b).
Definition i64_sub (a b : Z) : Z := wrap_i64 (a - b).
Definition i64_mul (a b : Z) : Z := wrap_i64 (a * b).
Definition i64_neg (a : Z) : Z := wrap_i64 (- a).

Definition in_i64 (z : Z) : Prop := (- two63 <= z < two63)%Z.
Definition in_u64 (z : Z) : Prop := (0 <= z < two64)%Z.

(** [usize::saturating_add]. *)
Definition usize_max : Z := (two64 - 1)%Z.
Definition saturating_add (a b : Z) : Z := Z.min (a + b) usize_max.

#[global] Instance in_i64_dec z : Decision (in_i64 z).
Proof. unfold in_i64. apply _. Defined.

Lemma two63_two64 : (two64 = 2 * two63)%Z.
Proof. reflexivity. Qed.

Lemma two63_pos : (0 < two63)%Z.
Proof. reflexivity. Qed.

(** Unfolds the widths just enough for [lia]. *)
Ltac width_lia :=
  unfold i64_add, i64_sub, i64_mul, i64_neg, in_i64, in_u64, saturating_add,
    usize_max, two64, two63, two32 in *; try lia.

Lemma wrap_i64_range z : in_i64 (wrap_i64 z).
Proof.
  unfold wrap_i64. pose proof (Z.mod_pos_bound (z + two63) two64 eq_refl). width_lia.
Qed.

Lemma wrap_i64_id z : in_i64 z → wrap_i64 z = z.
Proof. intros H. unfold wrap_i64. rewrite Z.mod_small; width_lia. Qed.

(** [wrap_i64] is the canonical representative modulo 2^64: two numbers wrap
    to the same [i64] exactly when they are congruent. *)
Lemma wrap_i64_eq_mod a b :
  wrap_i64 a = wrap_i64 b ↔ (a mod two64 = b mod two64)%Z.
Proof.
  unfold wrap_i64. split; intros H.
  - assert ((a + two63) mod two64 = (b + two63) mod two64)%Z as H' by lia.
    replace a with (a + two63 - two63)%Z by lia.
    replace b with (b + two63 - two63)%Z by lia.
    rewrite Zminus_mod, H', <- Zminus_mod. reflexivity.
  - rewrite Zplus_mod, H, <- Zplus_mod. reflexivity.
Qed.

Lemma wrap_i64_mod z : (wrap_i64 z mod two64 = z mod two64)%Z.
Proof.
  apply wrap_i64_eq_mod. apply wrap_i64_id, wrap_i64_range.
Qed.

Lemma wrap_i64_idemp z : wrap_i64 (wrap_i64 z) = wrap_i64 z.
Proof. apply wrap_i64_id, wrap_i64_range. Qed.

Lemma wrap_add_l a b : wrap_i64 (wrap_i64 a + b) = wrap_i64 (a + b).
Proof. apply wrap_i64_eq_mod. now rewrite Zplus_mod, wrap_i64_mod, <- Zplus_mod. Qed.
Lemma wrap_add_r a b : wrap_i64 (a + wrap_i64 b) = wrap_i64 (a + b).
Proof. rewrite Z.add_comm, wrap_add_l. f_equal. lia. Qed.
Lemma wrap_sub_l a b : wrap_i64 (wrap_i64 a - b) = wrap_i64 (a - b).
Proof. apply wrap_i64_eq_mod. now rewrite Zminus_mod, wrap_i64_mod, <- Zminus_mod. Qed.
Lemma wrap_sub_r a b : wrap_i64 (a - wrap_i64 b) = wrap_i64 (a - b).
Proof. apply wrap_i64_eq_mod. now rewrite Zminus_mod, wrap_i64_mod, <- Zminus_mod. Qed.
Lemma wrap_mul_l a b : wrap_i64 (wrap_i64 a * b) = wrap_i64 (a * b).
Proof. apply wrap_i64_eq_mod. now rewrite Zmult_mod, wrap_i64_mod, <- Zmult_mod. Qed.
Lemma wrap_mul_r a b : wrap_i64 (a * wrap_i64 b) = wrap_i64 (a * b).
Proof. rewrite Z.mul_comm, wrap_mul_l. f_equal. lia. Qed.
Lemma wrap_opp a : wrap_i64 (- wrap_i64 a) = wrap_i64 (- a).
Proof. rewrite <- !Z.sub_0_l. apply wrap_sub_r. Qed.

Lemma wrap_add_ll a b c : wrap_i64 (wrap_i64 a + b + c) = wrap_i64 (a + b + c).
Proof. now rewrite <- !Z.add_assoc, wrap_add_l. Qed.
Lemma wrap_add_lr a b c : wrap_i64 (b + wrap_i64 a + c) = wrap_i64 (b + a + c).
Proof. rewrite (Z.add_comm b), wrap_add_ll. f_equal. lia. Qed.
Lemma wrap_add_rl a b c : wrap_i64 (c + (wrap_i64 a + b)) = wrap_i64 (c + (a + b)).
Proof. rewrite Z.add_comm, wrap_add_ll. f_equal. lia. Qed.
Lemma wrap_add_rr a b c : wrap_i64 (c + (b + wrap_i64 a)) = wrap_i64 (c + (b + a)).
Proof. rewrite Z.add_comm, wrap_add_lr. f_equal. lia. Qed.

(** The ring-homomorphism equations of [wrap_i64], as a rewrite set: nested
    wraps collapse to one outer wrap, then [ring_simplify]/[f_equal; lia]. *)
Create Rewrite HintDb wrap.
#[export] Hint Rewrite wrap_add_l wrap_add_r wrap_sub_l wrap_sub_r wrap_mul_l
  wrap_mul_r wrap_opp wrap_i64_idemp wrap_add_ll wrap_add_lr wrap_add_rl wrap_add_rr : wrap.

(** Closes an equation between [i64] expressions that holds in Z modulo 2^64. *)
Ltac wrap_solve :=
  unfold i64_add, i64_sub, i64_mul, i64_neg in *;
  autorewrite with wrap; try (f_equal; lia).

(** ** Lists *)

Section lists.
Context {A : Type}.

(** [iter().take(n)] / [skip(n)] for a [usize] count held in [Z]. *)
Definition ztake (n : Z) (l : list A) : list A :=
  if (Z.of_nat (length l) <=? n)%Z then l else take (Z.to_nat n) l.
Definition zdrop (n : Z) (l : list A) : list A :=
  if (Z.of_nat (length l) <=? n)%Z then [] else drop (Z.to_nat n) l.
Definition zlength (l : list A) : Z := Z.of_nat (length l).
Definition zlookup (l : list A) (i : Z) : option A :=
  if (i <? 0)%Z then None
  else if (zlength l <=? i)%Z then None else l !! Z.to_nat i.

Lemma ztake_spec n l : (0 <= n)%Z → ztake n l = take (Z.to_nat n) l.
Proof.
  intros Hn. unfold ztake. destruct (Z.leb_spec (Z.of_nat (length l)) n); [|done].
  symmetry. apply take_ge. lia.
Qed.

Lemma zdrop_spec n l : (0 <= n)%Z → zdrop n l = drop (Z.to_nat n) l.
Proof.
  intros Hn. unfold zdrop. destruct (Z.leb_spec (Z.of_nat (length l)) n); [|done].
  symmetry. apply drop_ge. lia.
Qed.

Lemma zlength_nonneg l : (0 <= zlength l)%Z.
Proof. unfold zlength. lia. Qed.

Lemma zlookup_spec l i : (0 <= i)%Z → zlookup l i = l !! Z.to_nat i.
Proof.
  intros Hi. unfold zlookup, zlength.
  destruct (Z.ltb_spec i 0); [lia|].
  destruct (Z.leb_spec (Z.of_nat (length l)) i); [|done].
  symmetry. apply lookup_ge_None. lia.
Qed.

(** [slice.get(from..to)]: [None] when the range is reversed or runs past
    the end. *)
Definition slice (from to : Z) (l : list A) : option (list A) :=
  if (0 <=? from)%Z && (from <=? to)%Z && (to <=? zlength l)%Z
  then Some (take (Z.to_nat (to - from)) (drop (Z.to_nat from) l)) else None.

(** [slice.get(from..)]. *)
Definition slice_from (from : Z) (l : list A) : option (list A) :=
  if (0 <=? from)%Z && (from <=? zlength l)%Z
  then Some (drop (Z.to_nat from) l) else None.

Lemma slice_from_app (l k : list A) n :
  n = zlength l → slice_from n (l ++ k) = Some k.
Proof.
  intros ->. unfold slice_from, zlength. rewrite length_app.
  destruct (Z.leb_spec 0 (Z.of_nat (length l))); [|lia].
  destruct (Z.leb_spec (Z.of_nat (length l)) (Z.of_nat (length l + length k))); [|lia].
  simpl. now rewrite Nat2Z.id, drop_app_length.
Qed.

Lemma slice_app (l k r : list A) n m :
  n = zlength l → m = (zlength l + zlength k)%Z →
  slice n m (l ++ k ++ r) = Some k.
Proof.
  intros -> ->. unfold slice, zlength. rewrite !length_app.
  rewrite !(proj2 (Z.leb_le _ _)) by lia. simpl.
  rewrite Nat2Z.id, drop_app_length.
  replace (Z.to_nat _) with (length k) by lia.
  now rewrite take_app_length.
Qed.

(** The first element's index satisfying a test: [iter().position]. *)
Fixpoint position (p : A → bool) (l : list A) : option nat :=
  match l with
  | [] => None
  | x :: l => if p x then Some 0 else S <$> position p l
  end.

(** [Vec::dedup] after a sort, and [retain(|t| seen.insert(t))]: keep the
    first occurrence of each element. *)
Fixpoint dedup_seen `{EqDecision A} (seen l : list A) : list A :=
  match l with
  | [] => []
  | x :: l =>
      if bool_decide (x ∈ seen) then dedup_seen seen l
      else x :: dedup_seen (x :: seen) l
  end.
Definition dedup_first `{EqDecision A} (l : list A) : list A := dedup_seen [] l.

Lemma elem_of_dedup_seen `{EqDecision A} (seen l : list A) x :
  x ∈ dedup_seen seen l ↔ x ∈ l ∧ x ∉ seen.
Proof.
  revert seen. induction l as [|y l IH]; intros seen; simpl; [set_solver|].
  case_bool_decide; [rewrite IH; set_solver|].
  rewrite elem_of_cons, IH. set_unfold.
  destruct (decide (x = y)); naive_solver.
Qed.

Lemma elem_of_dedup_first `{EqDecision A} (l : list A) x :
  x ∈ dedup_first l ↔ x ∈ l.
Proof. unfold dedup_first. rewrite elem_of_dedup_seen. set_solver. Qed.

Lemma NoDup_dedup_seen `{EqDecision A} (seen l : list A) : NoDup (dedup_seen seen l).
Proof.
  revert seen. induction l as [|y l IH]; intros seen; simpl; [constructor|].
  case_bool_decide; [done|]. constructor; [|done].
  rewrite elem_of_dedup_seen. set_solver.
Qed.

Lemma NoDup_dedup_first `{EqDecision A} (l : list A) : NoDup (dedup_first l).
Proof. apply NoDup_dedup_seen. Qed.
End lists.

Lemma perm_filter_bool {A} (f : A → bool) l k :
  l ≡ₚ k → List.filter f l ≡ₚ List.filter f k.
Proof.
  induction 1 as [|x l k _ IH|x y l|l1 l2 l3 _ IH1 _ IH2]; simpl; [done| | |by etrans].
  - destruct (f x); [by constructor|done].
  - destruct (f x), (f y); try constructor; done.
Qed.

Lemma length_concat_const {A} (ls : list (list A)) n :
  Forall (λ l, length l = n) ls → length (concat ls) = length ls * n.
Proof. induction 1 as [|l ls Hl _ IH]; simpl; [done|]. rewrite length_app. lia. Qed.

Lemma StronglySorted_lookup_lt {A} (R : relation A) l i j x y :
  StronglySorted R l → l !! i = Some x → l !! j = Some y → i < j → R x y.
Proof.
  intros Hs. revert i j. induction Hs as [|a l Hs IH Ha]; intros i j Hi Hj Hij; [done|].
  destruct j as [|j]; [lia|]. simpl in Hj. destruct i as [|i]; simpl in Hi.
  - injection Hi as <-. rewrite Forall_lookup in Ha. by eapply Ha.
  - eapply IH; [done|done|lia].
Qed.

(** A loop whose body may fail. *)
Fixpoint try_fold {A B} (f : A → B → option A) (acc : A) (l : list B) : option A :=
  match l with
  | [] => Some acc
  | x :: l => let? acc := f acc x in try_fold f acc l
  end.

(** ** Finite maps: a [for] loop over a hash map

    A Rust [for (k, v) in map] visits each entry once, in an unspecified
    order. The loops of the program touch, for entry [k], only the entry [k]
    of the map they update; such a loop is a [map_fold] whose body is a
    [partial_alter], and the lemma below gives its result pointwise, which in
    particular does not depend on the visiting order. *)
Section map_loops.
Context `{Countable K} {A B : Type}.

Definition for_each_entry (g : K → option B → A → option B)
    (acc : gmap K B) (m : gmap K A) : gmap K B :=
  map_fold (λ k a acc, partial_alter (λ o, g k o a) k acc) acc m.

Lemma lookup_for_each_entry g acc m k :
  for_each_entry g acc m !! k =
    match m !! k with Some a => g k (acc !! k) a | None => acc !! k end.
Proof.
  unfold for_each_entry. revert k.
  apply (map_fold_weak_ind (λ r m, ∀ k, r !! k =
    match m !! k with Some a => g k (acc !! k) a | None => acc !! k end)).
  - intros k. now rewrite lookup_empty.
  - intros i x m' r Hi IH k. destruct (decide (i = k)) as [->|Hne].
    + rewrite lookup_partial_alter_eq, lookup_insert_eq, IH, Hi. done.
    + rewrite lookup_partial_alter_ne, lookup_insert_ne by done. apply IH.
Qed.
End map_loops.

(** ** Sums over a map *)
Section map_sums.
Context `{Countable K} {A : Type}.

Definition msum (g : K → A → Z) (m : gmap K A) : Z := map_fold (λ k a acc, g k a + acc)%Z 0%Z m.

Lemma msum_empty g : msum g ∅ = 0%Z.
Proof. apply map_fold_empty. Qed.

Lemma msum_insert g m k a : m !! k = None → msum g (<[k := a]> m) = (g k a + msum g m)%Z.
Proof.
  intros Hk. unfold msum. rewrite map_fold_insert_L; [done| |done].
  intros. lia.
Qed.

Lemma msum_delete g m k :
  msum g m = (from_option (g k) 0 (m !! k) + msum g (delete k m))%Z.
Proof.
  destruct (m !! k) as [a|] eqn:E; simpl.
  - rewrite <- msum_insert by apply lookup_delete_eq. by rewrite insert_delete_id.
  - by rewrite delete_id.
Qed.

Lemma msum_insert_delete g m k a : msum g (<[k := a]> m) = (g k a + msum g (delete k m))%Z.
Proof. rewrite <- insert_delete_eq. apply msum_insert, lookup_delete_eq. Qed.

Lemma msum_nonneg g m : (∀ k a, m !! k = Some a → 0 <= g k a)%Z → (0 <= msum g m)%Z.
Proof.
  induction m as [|k a m Hk IH] using map_ind; intros Hg; [by rewrite msum_empty|].
  rewrite msum_insert by done.
  assert (0 <= g k a)%Z by (apply Hg, lookup_insert_eq).
  assert (0 <= msum g m)%Z; [|lia].
  apply IH. intros k' a' Hk'. apply Hg. rewrite lookup_insert_ne; [done|congruence].
Qed.

Lemma msum_le_size g m : (∀ k a, m !! k = Some a → g k a <= 1)%Z → (msum g m <= Z.of_nat (size m))%Z.
Proof.
  induction m as [|k a m Hk IH] using map_ind; intros Hg; [by rewrite msum_empty|].
  rewrite msum_insert, map_size_insert_None by done.
  assert (g k a <= 1)%Z by (apply Hg, lookup_insert_eq).
  assert (msum g m <= Z.of_nat (size m))%Z; [|lia].
  apply IH. intros k' a' Hk'. apply Hg. rewrite lookup_insert_ne; [done|congruence].
Qed.

Lemma msum_pos g m : (∀ k a, m !! k = Some a → 0 <= g k a)%Z →
  (0 < msum g m)%Z ↔ ∃ k a, m !! k = Some a ∧ (0 < g k a)%Z.
Proof.
  intros Hg. split.
  - induction m as [|k a m Hk IH] using map_ind; [by rewrite msum_empty|].
    rewrite msum_insert by done. intros Hpos.
    destruct (Z.lt_decidable 0 (g k a)) as [Hp|Hp].
    { exists k, a. split; [apply lookup_insert_eq|done]. }
    destruct IH as (k' & a' & Hk' & Hp'); [|lia|].
    { intros k' a' Hk'. apply Hg. rewrite lookup_insert_ne; [done|congruence]. }
    exists k', a'. split; [|done]. rewrite lookup_insert_ne; [done|congruence].
  - intros (k & a & Hk & Hp). rewrite (msum_delete g m k), Hk. simpl.
    assert (0 <= msum g (delete k m))%Z; [|lia].
    apply msum_nonneg. intros k' a' [_ Hk']%lookup_delete_Some. by apply Hg.
Qed.

Lemma msum_ext g g' m : (∀ k a, m !! k = Some a → g k a = g' k a) → msum g m = msum g' m.
Proof.
  induction m as [|k a m Hk IH] using map_ind; intros Hg; [by rewrite !msum_empty|].
  rewrite !msum_insert by done. rewrite IH, (Hg k a (lookup_insert_eq _ _ _)); [done|].
  intros k' a' Hk'. apply Hg. rewrite lookup_insert_ne; [done|congruence].
Qed.
End map_sums.

(** Membership of a computed map key list. *)
Definition keys_of `{Countable K} {A} (m : gmap K A) : list K := (map_to_list m).*1.

Lemma elem_of_keys_of `{Countable K} {A} (m : gmap K A) k :
  k ∈ keys_of m ↔ is_Some (m !! k).
Proof.
  unfold keys_of. rewrite list_elem_of_fmap. split.
  - intros [[k' a] [-> Hin%elem_of_map_to_list]]. eauto.
  - intros [a Ha]. exists (k, a). rewrite elem_of_map_to_list. eauto.
Qed.

Lemma NoDup_keys_of `{Countable K} {A} (m : gmap K A) : NoDup (keys_of m).
Proof. apply NoDup_fst_map_to_list. Qed.

(** ** Comparisons *)

Definition cmp_reverse (c : comparison) : comparison := CompOpp c.

(** [Ordering::then]. *)
Definition cmp_then (c d : comparison) : comparison :=
  match c with Eq => d | _ => c end.

#[global] Instance comparison_eq_dec : EqDecision comparison.
Proof. solve_decision. Defined.

(** A three-way comparison that is a total preorder on the elements that
    satisfy [P]: what Rust's [Ord] contract asks of [cmp]. *)
Record cmp_lawful {A} (P : A → Prop) (cmp : A → A → comparison) : Prop := {
  cmp_refl : ∀ x, P x → cmp x x = Eq;
  cmp_flip : ∀ x y, P x → P y → cmp y x = CompOpp (cmp x y);
  cmp_trans_lt : ∀ x y z, P x → P y → P z →
    cmp x y ≠ Gt → cmp y z ≠ Gt → cmp x z ≠ Gt;
  cmp_trans_eq : ∀ x y z, P x → P y → P z →
    cmp x y = Eq → cmp x z = cmp y z;
}.

(** String order as Rust's [str] has it: bytewise lexicographic. *)
Fixpoint string_cmp (a b : string) : comparison :=
  match a, b with
  | EmptyString, EmptyString => Eq
  | EmptyString, String _ _ => Lt
  | String _ _, EmptyString => Gt
  | String x a, String y b =>
      cmp_then (N.compare (Ascii.N_of_ascii x) (Ascii.N_of_ascii y)) (string_cmp a b)
  end.

Lemma string_cmp_eq a b : string_cmp a b = Eq ↔ a = b.
Proof.
  revert b. induction a as [|x a IH]; intros [|y b]; simpl; try done.
  destruct (N.compare_spec (Ascii.N_of_ascii x) (Ascii.N_of_ascii y)) as [E|E|E]; simpl.
  - rewrite IH. split; [|by intros [= -> ->]]. intros ->. f_equal.
    rewrite <- (Ascii.ascii_N_embedding x), <- (Ascii.ascii_N_embedding y). by f_equal.
  - split; [done|]. intros [= -> ->]. lia.
  - split; [done|]. intros [= -> ->]. lia.
Qed.

Lemma string_cmp_refl a : string_cmp a a = Eq.
Proof. by apply string_cmp_eq. Qed.

Lemma string_cmp_flip a b : string_cmp b a = CompOpp (string_cmp a b).
Proof.
  revert b. induction a as [|x a IH]; intros [|y b]; simpl; try done.
  rewrite (N.compare_antisym (Ascii.N_of_ascii x)), IH.
  destruct (N.compare _ _); done.
Qed.

Lemma string_cmp_trans a b c d :
  string_cmp a b = d → string_cmp b c = d → string_cmp a c = d.
Proof.
  destruct d.
  - rewrite !string_cmp_eq. congruence.
  - revert b c. induction a as [|x a IH]; intros [|y b] [|z c]; simpl; try done.
    destruct (N.compare_spec (Ascii.N_of_ascii x) (Ascii.N_of_ascii y));
      destruct (N.compare_spec (Ascii.N_of_ascii y) (Ascii.N_of_ascii z)); simpl;
      try done; intros H1 H2;
      destruct (N.compare_spec (Ascii.N_of_ascii x) (Ascii.N_of_ascii z)); simpl;
      try done; try lia. by eapply IH.
  - revert b c. induction a as [|x a IH]; intros [|y b] [|z c]; simpl; try done.
    destruct (N.compare_spec (Ascii.N_of_ascii x) (Ascii.N_of_ascii y));
      destruct (N.compare_spec (Ascii.N_of_ascii y) (Ascii.N_of_ascii z)); simpl;
      try done; intros H1 H2;
      destruct (N.compare_spec (Ascii.N_of_ascii x) (Ascii.N_of_ascii z)); simpl;
      try done; try lia. by eapply IH.
Qed.

(** A generic criterion for [cmp_lawful]: reflexivity, antisymmetry and the
    transitivity of [Lt] and [Eq] in every mixture, from a key into [Z]. *)
Lemma string_cmp_lawful P : cmp_lawful P string_cmp.
Proof.
  split.
  - intros x _. apply string_cmp_refl.
  - intros x y _ _. apply string_cmp_flip.
  - intros x y z _ _ _ H1 H2.
    destruct (string_cmp x y) eqn:E1; [|clear H1|done].
    + apply string_cmp_eq in E1 as ->. done.
    + destruct (string_cmp y z) eqn:E2; [|clear H2|done].
      * apply string_cmp_eq in E2 as <-. congruence.
      * by rewrite (string_cmp_trans _ _ _ _ E1 E2).
  - intros x y z _ _ _ ->%string_cmp_eq. done.
Qed.

(** ** Tactics *)

(** Case on the innermost boolean or option the goal branches on. *)
Ltac case_goal :=
  match goal with
  | |- context [match ?x with _ => _ end] => destruct x eqn:?
  | |- context [if ?x then _ else _] => destruct x eqn:?
  end.

Ltac split_andb :=
  repeat match goal with
  | H : _ && _ = true |- _ => apply andb_prop in H as [? H]
  | H : _ || _ = false |- _ => apply orb_false_elim in H as [? H]
  | H : negb _ = true |- _ => apply negb_true_iff in H
  | H : negb _ = false |- _ => apply negb_false_iff in H
  end.
