(* ===== verification/Platform.v ===== *)
(** * The code the engine calls but does not contain

    Third-party crates and the unspecified parts of the standard library, as
    classes: their operations are parameters of every definition that uses
    them, their documented behaviour is a class of laws. The last section
    gives a concrete instance, which the witnesses run on. *)

From S2P Require Import Prelude.

(** ** Hashing and number formatting

    [default_hash] is [std::hash::DefaultHasher] over the bytes fed to it
    (the algorithm is unspecified by the standard library); [blake3] the
    blake3 digest; [json_i64], [json_f64], [json_string] the text
    [serde_json::to_writer] emits for an [i64], a finite [f64] (by its bits)
    and a string; [display_f64] the text of a float's [Display]. *)
Class Hashing := {
  default_hash : list Z → Z;
  blake3 : list Z → list Z;
  json_i64 : Z → list Z;
  json_f64 : Z → list Z;
  json_string : string → list Z;
  display_f64 : Z → string;
}.

Class HashingLaws `{H : Hashing} := {
  default_hash_u64 : ∀ bs, in_u64 (default_hash bs);
  blake3_length : ∀ bs, length (blake3 bs) = 32;
  blake3_bytes : ∀ bs, Forall (λ b, 0 <= b < 256)%Z (blake3 bs);
}.

(** ** Ordered sets with positional access: [indexset::BTreeSet]

    Parametric in the element type and its [Ord::cmp], like the crate. The
    laws describe each operation by the sorted list of the elements, and only
    for elements on which [cmp] keeps [Ord]'s contract: under any other
    comparison the crate promises nothing. *)
Class OrdSet := {
  oset : Type → Type;
(** [BTreeSet::with_maximum_node_size]. *)
os_with_node_size : ∀ {A}, Z → oset A;
os_iter : ∀ {A}, oset A → list A;
os_insert : ∀ {A}, (A → A → comparison) → A → oset A → bool * oset A;
os_remove : ∀ {A}, (A → A → comparison) → A → oset A → bool * oset A;
os_pop_last : ∀ {A}, oset A → option A * oset A;
os_rank : ∀ {A}, (A → A → comparison) → A → oset A → Z;
}.

Section derived.
Context `{OS : OrdSet} {A : Type}.
Definition os_len (s : oset A) : Z := zlength (os_iter s).
Definition os_get_index (s : oset A) (i : Z) : option A := zlookup (os_iter s) i.
Definition os_last (s : oset A) : option A := last (os_iter s).
(** [clear] keeps the node size; the elements are all that is observable. *)
Definition os_clear (s : oset A) : oset A := os_with_node_size 0.
End derived.

(** Reference operations on sorted lists. *)
Section sorted_lists.
Context {A : Type} (cmp : A → A → comparison).

Fixpoint sl_insert (a : A) (l : list A) : list A :=
  match l with
  | [] => [a]
  | b :: l' =>
      match cmp a b with
      | Lt => a :: b :: l'
      | Eq => b :: l'
      | Gt => b :: sl_insert a l'
      end
  end.

Definition sl_mem (a : A) (l : list A) : bool :=
  existsb (λ b, match cmp a b with Eq => true | _ => false end) l.

Definition sl_remove (a : A) (l : list A) : list A :=
  List.filter (λ b, match cmp a b with Eq => false | _ => true end) l.

(** How many elements are below [a]. *)
Definition sl_rank (a : A) (l : list A) : Z :=
  zlength (List.filter (λ b, match cmp b a with Lt => true | _ => false end) l).

(** [slice::sort]: a stable sort (by insertion, as good as any other). *)
Fixpoint sort_insert (a : A) (l : list A) : list A :=
  match l with
  | [] => [a]
  | b :: l' => match cmp a b with Gt => b :: sort_insert a l' | _ => a :: b :: l' end
  end.
Definition sort_by (l : list A) : list A := foldr sort_insert [] l.

Definition sl_sorted (l : list A) : Prop := StronglySorted (λ a b, cmp a b = Lt) l.
End sorted_lists.

Class OrdSetLaws `{OS : OrdSet} := {
  os_new_iter : ∀ {A} n, os_iter (os_with_node_size n) = ([] : list A);
  os_insert_iter : ∀ {A} (P : A → Prop) cmp, cmp_lawful P cmp →
    ∀ a s, P a → Forall P (os_iter s) → sl_sorted cmp (os_iter s) →
    os_iter (os_insert cmp a s).2 = sl_insert cmp a (os_iter s) ∧
    (os_insert cmp a s).1 = negb (sl_mem cmp a (os_iter s));
  os_remove_iter : ∀ {A} (P : A → Prop) cmp, cmp_lawful P cmp →
    ∀ a s, P a → Forall P (os_iter s) → sl_sorted cmp (os_iter s) →
    os_iter (os_remove cmp a s).2 = sl_remove cmp a (os_iter s) ∧
    (os_remove cmp a s).1 = sl_mem cmp a (os_iter s);
  os_pop_last_iter : ∀ {A} (s : oset A),
    (os_pop_last s).1 = last (os_iter s) ∧
    os_iter (os_pop_last s).2 = removelast (os_iter s);
  os_rank_iter : ∀ {A} (P : A → Prop) cmp, cmp_lawful P cmp →
    ∀ a s, P a → Forall P (os_iter s) → sl_sorted cmp (os_iter s) →
    os_rank cmp a s = sl_rank cmp a (os_iter s);
}.

(** ** Facts about sorted insertion and removal *)

Section sorted_facts.
Context {A : Type} (P : A → Prop) (cmp : A → A → comparison).
Context (L : cmp_lawful P cmp).

Lemma cmp_lt_trans x y z :
  P x → P y → P z → cmp x y = Lt → cmp y z = Lt → cmp x z = Lt.
Proof.
  intros Px Py Pz H1 H2.
  destruct (cmp x z) eqn:E; [exfalso|done|exfalso].
  - pose proof (cmp_trans_eq _ _ L x z y Px Pz Py E) as H.
    rewrite H1, (cmp_flip _ _ L y z) in H by done. rewrite H2 in H. done.
  - apply (cmp_trans_lt _ _ L x y z); congruence.
Qed.

Lemma cmp_gt_lt x y : P x → P y → cmp x y = Gt ↔ cmp y x = Lt.
Proof.
  intros Px Py. rewrite (cmp_flip _ _ L x y) by done.
  destruct (cmp x y); naive_solver.
Qed.

Lemma elem_of_sl_insert a l x : x ∈ sl_insert cmp a l → x = a ∨ x ∈ l.
Proof using Type.
  clear L P.
  induction l as [|b l IH]; simpl; [set_solver|].
  destruct (cmp a b); set_solver.
Qed.

Lemma elem_of_sl_insert_old a l x : x ∈ l → x ∈ sl_insert cmp a l.
Proof using Type.
  clear L P.
  induction l as [|b l IH]; simpl; [set_solver|].
  destruct (cmp a b); set_solver.
Qed.

Lemma elem_of_sl_insert_new a l : sl_mem cmp a l = false → a ∈ sl_insert cmp a l.
Proof using Type.
  clear L P.
  induction l as [|b l IH]; simpl; [set_solver|].
  destruct (cmp a b); simpl; set_solver.
Qed.

Lemma Forall_sl_insert a l : P a → Forall P l → Forall P (sl_insert cmp a l).
Proof using P.
  clear L.
  rewrite !Forall_forall. intros Pa Pl x [->|?]%elem_of_sl_insert; auto.
Qed.

Lemma sl_sorted_insert a l :
  P a → Forall P l → sl_sorted cmp l → sl_sorted cmp (sl_insert cmp a l).
Proof.
  intros Pa Pl Hs. induction Hs as [|b l Hs IH Hb]; simpl.
  - repeat constructor.
  - apply Forall_cons_1 in Pl as [Pb Pl].
    destruct (cmp a b) eqn:E.
    + by constructor.
    + constructor; [by constructor|]. constructor; [done|].
      rewrite Forall_forall in Hb, Pl |- *. intros x Hx.
      apply (cmp_lt_trans a b x); auto.
    + constructor; [by apply IH|].
      rewrite Forall_forall in Hb |- *. intros x [->|Hx]%elem_of_sl_insert; [|auto].
      by apply cmp_gt_lt.
Qed.

Lemma elem_of_sl_remove a l x :
  x ∈ sl_remove cmp a l ↔ x ∈ l ∧ cmp a x ≠ Eq.
Proof.
  unfold sl_remove. rewrite !list_elem_of_In, filter_In.
  destruct (cmp a x); naive_solver.
Qed.

Lemma sl_sorted_filter f l : sl_sorted cmp l → sl_sorted cmp (List.filter f l).
Proof.
  induction 1 as [|b l Hs IH Hb]; simpl; [constructor|].
  destruct (f b); [|done]. constructor; [done|].
  rewrite Forall_forall in Hb |- *. intros x.
  rewrite list_elem_of_In, filter_In, <- list_elem_of_In. naive_solver.
Qed.

Lemma sl_sorted_remove a l : sl_sorted cmp l → sl_sorted cmp (sl_remove cmp a l).
Proof. apply sl_sorted_filter. Qed.

Lemma sl_sorted_NoDup l : Forall P l → sl_sorted cmp l → NoDup l.
Proof.
  intros Pl Hs. induction Hs as [|b l Hs IH Hb]; [constructor|].
  apply Forall_cons_1 in Pl as [Pb Pl]. constructor; [|auto].
  intros Hin. rewrite Forall_forall in Hb. specialize (Hb b Hin).
  by rewrite (cmp_refl _ _ L) in Hb.
Qed.

(** Two strictly sorted lists with the same elements are equal. *)
Lemma sl_sorted_ext l k :
  Forall P l → Forall P k → sl_sorted cmp l → sl_sorted cmp k →
  (∀ x, x ∈ l ↔ x ∈ k) → l = k.
Proof.
  intros Pl Pk Hl. revert k Pk. induction Hl as [|a l Hl IH Ha]; intros k Pk Hk Hx.
  - destruct k as [|b k]; [done|]. exfalso. specialize (Hx b). set_solver.
  - apply Forall_cons_1 in Pl as [Pa Pl].
    destruct Hk as [|b k Hk Hb]; [exfalso; specialize (Hx a); set_solver|].
    apply Forall_cons_1 in Pk as [Pb Pk].
    rewrite Forall_forall in Ha, Hb.
    assert (a = b) as ->.
    { assert (a ∈ b :: k) as [->|H1]%elem_of_cons by (apply Hx; set_solver); [done|].
      assert (b ∈ a :: l) as [->|H2]%elem_of_cons by (apply Hx; set_solver); [done|].
      specialize (Hb _ H1). specialize (Ha _ H2).
      rewrite (cmp_flip _ _ L a b), Ha in Hb by done. done. }
    f_equal. apply IH; [done|done|done|]. intros x. split; intros Hin.
    + assert (x ∈ b :: k) as [->|?]%elem_of_cons by (apply Hx; set_solver); [|done].
      exfalso. specialize (Ha _ Hin). by rewrite (cmp_refl _ _ L) in Ha.
    + assert (x ∈ b :: l) as [->|?]%elem_of_cons by (apply Hx; set_solver); [|done].
      exfalso. specialize (Hb _ Hin). by rewrite (cmp_refl _ _ L) in Hb.
Qed.

Lemma sort_insert_perm a l : sort_insert cmp a l ≡ₚ a :: l.
Proof using Type.
  clear L P. induction l as [|b l IH]; simpl; [done|].
  destruct (cmp a b); [done|done|]. rewrite IH. apply perm_swap.
Qed.

Lemma sort_by_perm l : sort_by cmp l ≡ₚ l.
Proof using Type.
  clear L P. induction l as [|a l IH]; simpl; [done|]. by rewrite sort_insert_perm, IH.
Qed.

Lemma sort_insert_sorted a l : P a → Forall P l → (∀ b, b ∈ l → cmp a b ≠ Eq) →
  sl_sorted cmp l → sl_sorted cmp (sort_insert cmp a l).
Proof.
  intros Pa Pl Hne Hs. induction Hs as [|b l Hs IH Hb]; simpl; [repeat constructor|].
  apply Forall_cons_1 in Pl as [Pb Pl].
  assert (cmp a b ≠ Eq) as Hab by (apply Hne; set_solver).
  destruct (cmp a b) eqn:E; [done| |].
  - constructor; [by constructor|]. constructor; [done|].
    rewrite Forall_forall in Hb, Pl |- *. intros x Hx. apply (cmp_lt_trans a b x); auto.
  - constructor; [apply IH; [done|set_solver]|].
    rewrite Forall_forall in Hb |- *. intros x Hx. rewrite sort_insert_perm in Hx.
    apply elem_of_cons in Hx as [->|Hx]; [by apply cmp_gt_lt|auto].
Qed.

(** Sorting elements no two of which tie gives a strictly sorted list. *)
Lemma sort_by_sorted l : Forall P l → NoDup l →
  (∀ a b, a ∈ l → b ∈ l → cmp a b = Eq → a = b) → sl_sorted cmp (sort_by cmp l).
Proof.
  induction l as [|a l IH]; simpl; intros Pl Hnd Htie; [constructor|].
  apply Forall_cons_1 in Pl as [Pa Pl]. apply NoDup_cons in Hnd as [Ha Hnd].
  apply sort_insert_sorted; [done|by rewrite sort_by_perm| |].
  - intros b Hb Hab. rewrite sort_by_perm in Hb.
    apply Htie in Hab; [subst; done|set_solver|set_solver].
  - apply IH; [done|done|]. intros x y Hx Hy. apply Htie; set_solver.
Qed.

Lemma sl_sorted_app l k : sl_sorted cmp l → sl_sorted cmp k →
  (∀ a b, a ∈ l → b ∈ k → cmp a b = Lt) → sl_sorted cmp (l ++ k).
Proof using Type.
  clear L P. intros Hl Hk Hx. induction Hl as [|a l Hl IH Ha]; simpl; [done|].
  constructor; [apply IH; set_solver|]. apply Forall_app. split; [done|].
  apply Forall_forall. set_solver.
Qed.
End sorted_facts.

(** ** A concrete instance

    Sorted lists for the ordered set; for the hashes, a toy mixing function
    with the right widths. The witnesses evaluate on it; the theorems hold
    for every instance of the classes. *)

Definition mix_hash (bs : list Z) : Z :=
  foldl (λ h b, wrap_u64 ((h * 1099511628211) + b + 1))%Z 14695981039346656037%Z bs.

Definition toy_digest (bs : list Z) : list Z :=
  (λ i : nat, (mix_hash (Z.of_nat i :: bs) / 65536) mod 256)%Z <$> seq 0 32.

(** Binary digits, least significant first. *)
Fixpoint toy_digits (p : positive) : list Z :=
  match p with
  | xH => [49%Z]
  | xO p => 48%Z :: toy_digits p
  | xI p => 49%Z :: toy_digits p
  end.

Definition toy_json_i64 (z : Z) : list Z :=
  match z with
  | Z0 => [48%Z]
  | Zpos p => toy_digits p
  | Zneg p => 45%Z :: toy_digits p
  end.

(** Two letters a byte, between quotes. *)
Definition toy_json_byte (a : Ascii.ascii) : list Z :=
  let b := Z.of_N (Ascii.N_of_ascii a) in [(65 + b / 16)%Z; (65 + b mod 16)%Z].

Fixpoint toy_json_string_rest (s : string) : list Z :=
  match s with
  | EmptyString => [34%Z]
  | String a s => toy_json_byte a ++ toy_json_string_rest s
  end.

Definition toy_json_string (s : string) : list Z := 34%Z :: toy_json_string_rest s.

#[export] Instance toy_hashing : Hashing := {|
  default_hash := mix_hash;
  blake3 := toy_digest;
  json_i64 := toy_json_i64;
  json_f64 := λ bits, 46%Z :: toy_json_i64 bits;
  json_string := toy_json_string;
  display_f64 := λ bits, String.string_of_list_ascii
    ((λ b, Ascii.ascii_of_N (Z.to_N b)) <$> toy_json_i64 bits);
|}.

#[export] Instance toy_hashing_laws : HashingLaws.
Proof.
  split.
  - intros bs. simpl. unfold mix_hash.
    assert (in_u64 14695981039346656037) as H by (unfold in_u64, two64; lia).
    revert H. generalize 14695981039346656037%Z.
    induction bs as [|b bs IH]; intros h Hh; simpl; [done|].
    apply IH. unfold in_u64, wrap_u64. apply Z.mod_pos_bound. done.
  - intros bs. unfold blake3, toy_hashing, toy_digest. by rewrite length_fmap, length_seq.
  - intros bs. unfold blake3, toy_hashing, toy_digest. apply Forall_fmap, Forall_true.
    intros i. unfold compose. apply Z.mod_pos_bound. lia.
Qed.

#[export] Instance list_oset : OrdSet := {|
  oset := list;
  os_with_node_size := λ A _, [];
  os_iter := λ A s, s;
  os_insert := λ A cmp a s, (negb (sl_mem cmp a s), sl_insert cmp a s);
  os_remove := λ A cmp a s, (sl_mem cmp a s, sl_remove cmp a s);
  os_pop_last := λ A s, (last s, removelast s);
  os_rank := λ A cmp a s, sl_rank cmp a s;
|}.

#[export] Instance list_oset_laws : OrdSetLaws.
Proof. split; done. Qed.
