(* ===== verification/Float64.v ===== *)
(** * [f64] by its bit pattern

    IEEE 754 binary64 as the 64 bits that store it, with the operations the
    engine uses: the two comparisons ([PartialOrd::partial_cmp] and
    [f64::total_cmp]), the classifications, [i64 as f64] and [f64 as i64].
    Binary64 values other than NaN are ordered like sign-and-magnitude
    integers, which is what makes the comparisons short. *)

From S2P Require Import Prelude.
Local Open Scope Z_scope.

Record f64 := F64 { f64_bits : Z }.

#[global] Instance f64_eq_dec : EqDecision f64.
Proof. solve_decision. Defined.

#[global] Instance f64_countable : Countable f64.
Proof. refine (inj_countable' f64_bits F64 _). by intros []. Defined.

Module F64.

Definition mag (f : f64) : Z := f64_bits f mod two63.
Definition sign (f : f64) : bool := Z.testbit (f64_bits f) 63.

(** The bits of infinity: exponent all ones, mantissa zero. *)
Definition inf_bits : Z := 2047 * 4503599627370496.

Definition is_nan (f : f64) : bool := inf_bits <? mag f.
Definition is_finite (f : f64) : bool := mag f <? inf_bits.

(** The sign-and-magnitude integer that orders the non-NaN values; both
    zeros are 0. *)
Definition key (f : f64) : Z := if sign f then - mag f else mag f.

(** [PartialOrd::partial_cmp]. *)
Definition partial_cmp (a b : f64) : option comparison :=
  if is_nan a || is_nan b then None else Some (Z.compare (key a) (key b)).

(** [f64::total_cmp]: the bits as an [i64], with every bit but the sign
    flipped for negative numbers, compared as integers. *)
Definition total_key (f : f64) : Z := if sign f then - mag f - 1 else mag f.
Definition total_cmp (a b : f64) : comparison := Z.compare (total_key a) (total_key b).

(** [f == 0.0]: true for both zeros. *)
Definition is_zero (f : f64) : bool := mag f =? 0.

(** [PartialEq::eq]. *)
Definition eqb (a b : f64) : bool :=
  match partial_cmp a b with Some Eq => true | _ => false end.

(** [n as f64] for a positive [n]: round to nearest, ties to even. A mantissa
    that rounds up to 2^53 carries into the exponent by the addition. *)
Definition of_pos_bits (n : Z) : Z :=
  let e := Z.log2 n in
  let m :=
    if e <=? 52 then Z.shiftl n (52 - e)
    else
      let sh := e - 52 in
      let q := Z.shiftr n sh in
      let r := n mod 2 ^ sh in
      let half := 2 ^ (sh - 1) in
      if (half <? r) || ((r =? half) && Z.odd q) then q + 1 else q in
  (e + 1023) * 4503599627370496 + (m - 4503599627370496).

Definition of_i64 (n : Z) : f64 :=
  if n =? 0 then F64 0
  else if n <? 0 then F64 (two63 + of_pos_bits (- n))
  else F64 (of_pos_bits n).

(** The value of a finite number is [mant * 2^ex]. *)
Definition mant (f : f64) : Z :=
  let e := mag f / 4503599627370496 in
  let m := mag f mod 4503599627370496 in
  if e =? 0 then m else m + 4503599627370496.
Definition ex (f : f64) : Z :=
  let e := mag f / 4503599627370496 in
  if e =? 0 then - 1074 else e - 1075.

(** [f.fract() == 0.0] for a finite [f]. *)
Definition is_integral (f : f64) : bool :=
  (0 <=? ex f) || (mant f mod 2 ^ (- ex f) =? 0).

(** [f as i64]: truncation towards zero, saturating, NaN to 0. *)
Definition to_i64 (f : f64) : Z :=
  if is_nan f then 0
  else
    let t := if 0 <=? ex f then Z.shiftl (mant f) (ex f)
             else Z.shiftr (mant f) (- ex f) in
    if sign f then Z.max (- two63) (- t) else Z.min (two63 - 1) t.

Definition pos_zero : f64 := F64 0.
Definition neg_zero : f64 := F64 two63.

(** ** Facts *)

Lemma mag_bound f : 0 <= mag f < two63.
Proof. apply Z.mod_pos_bound. reflexivity. Qed.

Lemma partial_cmp_flip a b :
  partial_cmp b a = CompOpp <$> partial_cmp a b.
Proof.
  unfold partial_cmp. rewrite (orb_comm (is_nan b)).
  destruct (_ || _); [done|]. simpl. by rewrite Z.compare_antisym.
Qed.

Lemma total_cmp_lawful P : cmp_lawful P total_cmp.
Proof.
  unfold total_cmp. split.
  - intros x _. apply Z.compare_refl.
  - intros x y _ _. apply Z.compare_antisym.
  - intros x y z _ _ _.
    destruct (Z.compare_spec (total_key x) (total_key y));
    destruct (Z.compare_spec (total_key y) (total_key z));
    destruct (Z.compare_spec (total_key x) (total_key z)); try done; lia.
  - intros x y z _ _ _ H%Z.compare_eq. by rewrite H.
Qed.

(** [i64 as f64] is exact up to 2^53 in magnitude. *)
Definition safe_int (n : Z) : Prop := - 9007199254740992 <= n <= 9007199254740992.

Lemma of_pos_bits_small n :
  0 < n <= 9007199254740992 →
  of_pos_bits n = (Z.log2 n + 1023) * 4503599627370496 +
    (n * 2 ^ (52 - Z.log2 n) - 4503599627370496) ∨
  n = 9007199254740992.
Proof.
  intros Hn. destruct (decide (n = 9007199254740992)) as [|Hne]; [by right|left].
  unfold of_pos_bits. assert (Z.log2 n <= 52) as Hl.
  { apply Z.lt_succ_r. apply Z.log2_lt_pow2; [lia|]. change (2 ^ Z.succ 52) with 9007199254740992. lia. }
  rewrite (proj2 (Z.leb_le _ _) Hl). rewrite Z.shiftl_mul_pow2 by lia. done.
Qed.

(** The rounded bits grow strictly with the integer while it is exact. *)
Lemma of_pos_bits_mono a b :
  0 < a → a < b → b <= 9007199254740992 → of_pos_bits a < of_pos_bits b.
Proof.
  intros Ha Hab Hb.
  pose proof (Z.log2_spec a Ha) as [La1 La2].
  assert (0 < b) as Hb0 by lia.
  pose proof (Z.log2_spec b Hb0) as [Lb1 Lb2].
  pose proof (Z.log2_nonneg a). pose proof (Z.log2_nonneg b).
  pose proof (Z.log2_le_mono a b ltac:(lia)) as Hle.
  destruct (of_pos_bits_small a ltac:(lia)) as [Ea|Ea]; [|lia].
  assert (Z.log2 a <= 52) as Hla.
  { apply Z.lt_succ_r. apply Z.log2_lt_pow2; [lia|]. change (2 ^ Z.succ 52) with 9007199254740992. lia. }
  assert (a * 2 ^ (52 - Z.log2 a) < 9007199254740992) as Hua.
  { apply Z.lt_le_trans with (2 ^ Z.succ (Z.log2 a) * 2 ^ (52 - Z.log2 a)).
    - apply Z.mul_lt_mono_pos_r; [apply Z.pow_pos_nonneg; lia|done].
    - rewrite <- Z.pow_add_r by lia.
      replace (Z.succ (Z.log2 a) + (52 - Z.log2 a)) with 53 by lia. done. }
  destruct (of_pos_bits_small b ltac:(lia)) as [Eb|Eb].
  - rewrite Ea, Eb. destruct (decide (Z.log2 a = Z.log2 b)) as [El|Nl].
    + rewrite <- El. pose proof (Z.pow_pos_nonneg 2 (52 - Z.log2 a)). nia.
    + assert (Z.log2 b <= 52) as Hlb.
      { apply Z.lt_succ_r. apply Z.log2_lt_pow2; [lia|]. change (2 ^ Z.succ 52) with 9007199254740992.
        destruct (decide (b = 9007199254740992)) as [->|]; [|lia].
        change (Z.log2 9007199254740992) with 53 in *.
        change (53 + 1023) with 1076 in Eb. change (52 - 53) with (-1) in Eb.
        change (of_pos_bits 9007199254740992) with 4845873199050653696 in Eb.
        change (2 ^ (-1)) with 0 in Eb. lia. }
      assert (4503599627370496 <= b * 2 ^ (52 - Z.log2 b)) as Hbl.
      { apply Z.le_trans with (2 ^ Z.log2 b * 2 ^ (52 - Z.log2 b)).
        - rewrite <- Z.pow_add_r by lia.
          replace (Z.log2 b + (52 - Z.log2 b)) with 52 by lia. done.
        - apply Z.mul_le_mono_nonneg_r; [apply Z.pow_nonneg; lia|done]. }
      nia.
  - rewrite Ea. subst b. change (of_pos_bits 9007199254740992) with 4845873199050653696. nia.
Qed.

Lemma of_pos_bits_range n :
  0 < n <= 9007199254740992 → 0 < of_pos_bits n < inf_bits.
Proof.
  intros Hn.
  assert (of_pos_bits 1 <= of_pos_bits n) as H1.
  { destruct (decide (n = 1)) as [->|]; [lia|]. apply Z.lt_le_incl, of_pos_bits_mono; lia. }
  assert (of_pos_bits n <= of_pos_bits 9007199254740992) as H2.
  { destruct (decide (n = 9007199254740992)) as [->|]; [lia|].
    apply Z.lt_le_incl, of_pos_bits_mono; lia. }
  change (of_pos_bits 1) with 4607182418800017408 in H1.
  change (of_pos_bits 9007199254740992) with 4845873199050653696 in H2.
  change inf_bits with 9218868437227405312. lia.
Qed.

Lemma sign_spec b : 0 <= b < two64 → sign (F64 b) = (two63 <=? b).
Proof.
  intros Hb. unfold sign. cbn [f64_bits]. rewrite Z.testbit_odd, Z.shiftr_div_pow2 by lia.
  change (2 ^ 63) with two63. destruct (Z.leb_spec two63 b).
  - replace (b / two63) with 1; [done|]. apply (Z.div_unique b two63 1 (b - two63));
      width_lia.
  - rewrite Z.div_small by lia. done.
Qed.

Lemma mag_of_i64 n :
  safe_int n → mag (of_i64 n) = (if n =? 0 then 0 else of_pos_bits (Z.abs n)) ∧
    sign (of_i64 n) = (n <? 0).
Proof.
  intros Hn. unfold safe_int in Hn. unfold of_i64, mag.
  destruct (Z.eqb_spec n 0) as [->|Hne]; [done|].
  destruct (Z.ltb_spec n 0); simpl.
  - pose proof (of_pos_bits_range (- n) ltac:(lia)) as Hr.
    change inf_bits with 9218868437227405312 in Hr.
    rewrite sign_spec by width_lia. replace (Z.abs n) with (- n) by lia. split.
    + symmetry. apply (Z.mod_unique _ _ 1); width_lia.
    + apply Z.leb_le. lia.
  - pose proof (of_pos_bits_range n ltac:(lia)) as Hr.
    change inf_bits with 9218868437227405312 in Hr.
    rewrite sign_spec by width_lia. replace (Z.abs n) with n by lia. split.
    + apply Z.mod_small. width_lia.
    + apply Z.leb_gt. width_lia.
Qed.

Lemma key_of_i64 n :
  safe_int n → key (of_i64 n) =
    if n =? 0 then 0 else if n <? 0 then - of_pos_bits (- n) else of_pos_bits n.
Proof.
  intros Hn. destruct (mag_of_i64 n Hn) as [Hm Hs]. unfold key. rewrite Hm, Hs.
  destruct (Z.eqb_spec n 0) as [->|]; [done|].
  destruct (Z.ltb_spec n 0).
  - by rewrite Z.abs_neq by lia.
  - by rewrite Z.abs_eq by lia.
Qed.

Lemma key_of_i64_lt a b :
  safe_int a → safe_int b → a < b → key (of_i64 a) < key (of_i64 b).
Proof.
  intros Ha Hb Hab. rewrite !key_of_i64 by done. unfold safe_int in *.
  assert (∀ x, 0 < x <= 9007199254740992 → 0 < of_pos_bits x) as Hpos.
  { intros x ?. by apply of_pos_bits_range. }
  destruct (Z.eqb_spec a 0), (Z.eqb_spec b 0), (Z.ltb_spec a 0), (Z.ltb_spec b 0);
    try lia.
  - pose proof (Hpos b). lia.
  - pose proof (Hpos (- a)). lia.
  - pose proof (of_pos_bits_mono (- b) (- a)). lia.
  - pose proof (Hpos b). pose proof (Hpos (- a)). lia.
  - pose proof (of_pos_bits_mono a b). lia.
Qed.

(** Comparing the conversions compares the integers. *)
Lemma key_of_i64_compare a b :
  safe_int a → safe_int b → Z.compare (key (of_i64 a)) (key (of_i64 b)) = Z.compare a b.
Proof.
  intros Ha Hb. destruct (Z.compare_spec a b) as [->|H|H]; [apply Z.compare_refl| |].
  - apply Z.compare_lt_iff. by apply key_of_i64_lt.
  - apply Z.compare_gt_iff. by apply key_of_i64_lt.
Qed.

(** Every [i64] converts to a finite number, zero only for zero. *)
Lemma of_pos_bits_i64 n : 0 < n <= two63 → 0 < of_pos_bits n < inf_bits.
Proof.
  intros Hn. pose proof (Z.log2_spec n ltac:(lia)) as [Hlo Hhi].
  pose proof (Z.log2_nonneg n) as He0.
  assert (Z.log2 n <= 63) as He.
  { change 63 with (Z.log2 two63). apply Z.log2_le_mono. lia. }
  unfold of_pos_bits. set (e := Z.log2 n) in *.
  match goal with |- context [if e <=? 52 then ?a else ?b] => set (m := if e <=? 52 then a else b) end.
  assert (4503599627370496 <= m <= 9007199254740992) as Hm.
  { unfold m. clear m. destruct (Z.leb_spec e 52) as [Hle|Hgt]; cbv zeta.
    - rewrite Z.shiftl_mul_pow2 by lia.
      assert (2 ^ e * 2 ^ (52 - e) = 4503599627370496) as Hp.
      { rewrite <- Z.pow_add_r by lia. replace (e + (52 - e)) with 52 by lia. done. }
      assert (0 < 2 ^ (52 - e)) by (apply Z.pow_pos_nonneg; lia).
      rewrite Z.pow_succ_r in Hhi by lia. nia.
    - rewrite Z.shiftr_div_pow2 by lia.
      assert (2 ^ e = 4503599627370496 * 2 ^ (e - 52)) as Hp.
      { change 4503599627370496 with (2 ^ 52). rewrite <- Z.pow_add_r by lia. f_equal. lia. }
      assert (0 < 2 ^ (e - 52)) as Hpos by (apply Z.pow_pos_nonneg; lia).
      assert (4503599627370496 <= n / 2 ^ (e - 52) < 9007199254740992) as Hq.
      { split; [apply Z.div_le_lower_bound; lia|]. apply Z.div_lt_upper_bound; [lia|].
        rewrite Z.pow_succ_r in Hhi by lia. lia. }
      destruct (_ || _); lia. }
  unfold inf_bits. nia.
Qed.

Lemma of_i64_facts n : in_i64 n →
  in_u64 (f64_bits (of_i64 n)) ∧ is_nan (of_i64 n) = false ∧ (key (of_i64 n) = 0 ↔ n = 0).
Proof.
  intros Hn. unfold in_i64 in Hn. unfold of_i64.
  destruct (Z.eqb_spec n 0) as [->|Hne]; [done|].
  assert (0 < of_pos_bits (Z.abs n) < inf_bits) as Hr by (apply of_pos_bits_i64; width_lia).
  assert (inf_bits < two63) as Hi by done.
  destruct (Z.ltb_spec n 0).
  - rewrite Z.abs_neq in Hr by lia.
    assert (mag (F64 (two63 + of_pos_bits (- n))) = of_pos_bits (- n)) as Hm.
    { unfold mag. cbn. symmetry. apply (Z.mod_unique _ _ 1); width_lia. }
    unfold is_nan, key. rewrite Hm, sign_spec by width_lia. cbn [f64_bits].
    rewrite (proj2 (Z.leb_le _ _)) by lia. split_and!; [width_lia| |lia].
    apply Z.ltb_ge. lia.
  - rewrite Z.abs_eq in Hr by lia.
    assert (mag (F64 (of_pos_bits n)) = of_pos_bits n) as Hm.
    { unfold mag. cbn. apply Z.mod_small. lia. }
    unfold is_nan, key. rewrite Hm, sign_spec by width_lia. cbn [f64_bits].
    rewrite (proj2 (Z.leb_gt _ _)) by lia. split_and!; [width_lia| |lia].
    apply Z.ltb_ge. lia.
Qed.

(** Away from zero, the sign and the magnitude give the bits. *)
Lemma key_inj a b : in_u64 (f64_bits a) → in_u64 (f64_bits b) →
  key a = key b → key a ≠ 0 → a = b.
Proof.
  destruct a as [a], b as [b]. cbn [f64_bits]. intros Ha Hb. unfold key.
  rewrite !sign_spec by done. unfold mag. cbn [f64_bits].
  assert (∀ x, in_u64 x → x mod two63 = if two63 <=? x then x - two63 else x) as Hmod.
  { intros x Hx. destruct (Z.leb_spec two63 x).
    - symmetry. apply (Z.mod_unique _ _ 1); width_lia.
    - apply Z.mod_small. width_lia. }
  rewrite !Hmod by done.
  destruct (Z.leb_spec two63 a), (Z.leb_spec two63 b); intros; f_equal; width_lia.
Qed.

Lemma key_zero a : in_u64 (f64_bits a) → key a = 0 → a = pos_zero ∨ a = neg_zero.
Proof.
  destruct a as [a]. cbn [f64_bits]. intros Ha. unfold key, pos_zero, neg_zero.
  rewrite sign_spec by done. unfold mag. cbn [f64_bits].
  destruct (Z.leb_spec two63 a).
  - assert (a mod two63 = a - two63) as ->.
    { symmetry. apply (Z.mod_unique _ _ 1); width_lia. }
    intros. right. f_equal. lia.
  - rewrite Z.mod_small by width_lia. intros. left. f_equal. lia.
Qed.

End F64.
