(* ===== verification/Value.v ===== *)
(** * Data: strings, row keys, paths and dynamic values

    Models [packages/ssp/src/types/] (key.rs, path.rs, value.rs) and
    [canonical_query_id] of lib.rs. Strings are byte strings; a
    [HashMap<String, _>] inside a value is an association list whose order
    stands for the map's unspecified iteration order ([value_equiv] below is
    the map's own equality). *)

From S2P Require Import Prelude Float64.

(** ** [str] operations *)

Definition colon : Ascii.ascii := Ascii.ascii_of_nat 58.
Definition dot : Ascii.ascii := Ascii.ascii_of_nat 46.

(** [s.split_once(c)]: around the first [c]. *)
Fixpoint split_once (c : Ascii.ascii) (s : string) : option (string * string) :=
  match s with
  | EmptyString => None
  | String a s =>
      if Ascii.eqb a c then Some (EmptyString, s)
      else match split_once c s with
           | Some (x, y) => Some (String a x, y)
           | None => None
           end
  end.

(** [s.split(c)]: never empty. *)
Fixpoint split (c : Ascii.ascii) (s : string) : list string :=
  match s with
  | EmptyString => [EmptyString]
  | String a s =>
      if Ascii.eqb a c then EmptyString :: split c s
      else match split c s with
           | x :: l => String a x :: l
           | [] => [String a EmptyString]
           end
  end.

(** [s.rsplit(c).next().unwrap_or(s)]: the part after the last [c]. *)
Definition rsplit_next (c : Ascii.ascii) (s : string) : string :=
  default s (last (split c s)).

Definition join (sep : string) (l : list string) : string := String.concat sep l.

Fixpoint contains_char (c : Ascii.ascii) (s : string) : bool :=
  match s with
  | EmptyString => false
  | String a s => Ascii.eqb a c || contains_char c s
  end.

(** [s.strip_prefix(p)]. *)
Fixpoint strip_prefix (p s : string) : option string :=
  match p, s with
  | EmptyString, _ => Some s
  | String a p, String b s => if Ascii.eqb a b then strip_prefix p s else None
  | String _ _, EmptyString => None
  end.

Definition starts_with (s p : string) : bool :=
  match strip_prefix p s with Some _ => true | None => false end.

Definition ascii_upper (a : Ascii.ascii) : Ascii.ascii :=
  let n := Ascii.nat_of_ascii a in
  if (97 <=? n) && (n <=? 122) then Ascii.ascii_of_nat (n - 32) else a.

Fixpoint to_ascii_uppercase (s : string) : string :=
  match s with
  | EmptyString => EmptyString
  | String a s => String (ascii_upper a) (to_ascii_uppercase s)
  end.

Definition eq_ignore_ascii_case (a b : string) : bool :=
  String.eqb (to_ascii_uppercase a) (to_ascii_uppercase b).

(** The bytes of a string, and back. *)
Definition byte_of_ascii (a : Ascii.ascii) : Z := Z.of_N (Ascii.N_of_ascii a).
Definition bytes_of (s : string) : list Z := byte_of_ascii <$> String.list_ascii_of_string s.
Definition string_of_bytes (bs : list Z) : string :=
  String.string_of_list_ascii ((λ b, Ascii.ascii_of_N (Z.to_N b)) <$> bs).

(** ** UTF-8 *)

Definition utf8_cont (b : Z) : bool := ((128 <=? b) && (b <=? 191))%Z.
Definition between (lo b hi : Z) : bool := ((lo <=? b) && (b <=? hi))%Z.

(** [std::str::from_utf8] accepts exactly the well-formed sequences of the
    Unicode standard. *)
Fixpoint utf8_valid (bs : list Z) : bool :=
  match bs with
  | [] => true
  | b :: r =>
      if (b <? 128)%Z then utf8_valid r
      else if between 194%Z b 223%Z then
        match r with c :: r => utf8_cont c && utf8_valid r | _ => false end
      else if between 224%Z b 239%Z then
        match r with
        | c :: d :: r =>
            (if (b =? 224)%Z then between 160%Z c 191%Z
             else if (b =? 237)%Z then between 128%Z c 159%Z else utf8_cont c)
            && utf8_cont d && utf8_valid r
        | _ => false
        end
      else if between 240%Z b 244%Z then
        match r with
        | c :: d :: e :: r =>
            (if (b =? 240)%Z then between 144%Z c 191%Z
             else if (b =? 244)%Z then between 128%Z c 143%Z else utf8_cont c)
            && utf8_cont d && utf8_cont e && utf8_valid r
        | _ => false
        end
      else false
  end.

(** ** Record keys: key.rs *)

(** [raw_id]. *)
Definition raw_id (id : string) : string :=
  match split_once colon id with Some (_, rest) => rest | None => id end.

Definition make_key (table id : string) : string :=
  let raw_id := match split_once colon id with Some (_, rest) => rest | None => id end in
  (table +:+ ":" +:+ raw_id)%string.

Definition parse_key (key : string) : option (string * string) := split_once colon key.

(** lib.rs. *)
Definition canonical_query_id (id : string) : string := rsplit_next colon id.

(** ** Paths: path.rs *)

Record Path := MkPath { segments : list string }.

#[global] Instance path_eq_dec : EqDecision Path.
Proof. solve_decision. Defined.

Definition Path_new (s : string) : Path :=
  if String.eqb s "" then MkPath [] else MkPath (split dot s).

Definition Path_as_str (p : Path) : string := join "." (segments p).

Definition Path_is_empty (p : Path) : bool :=
  match segments p with [] => true | _ => false end.

(** ** Association lists standing for hash maps *)

Section assoc.
Context {A : Type}.

Fixpoint assoc_get (k : string) (m : list (string * A)) : option A :=
  match m with
  | [] => None
  | (k', a) :: m => if String.eqb k k' then Some a else assoc_get k m
  end.

(** [HashMap::insert]: replaces the value in place or adds an entry. *)
Fixpoint assoc_insert (k : string) (a : A) (m : list (string * A)) : list (string * A) :=
  match m with
  | [] => [(k, a)]
  | (k', b) :: m => if String.eqb k k' then (k', a) :: m else (k', b) :: assoc_insert k a m
  end.

Definition assoc_remove (k : string) (m : list (string * A)) : list (string * A) :=
  List.filter (λ e, negb (String.eqb k e.1)) m.

(** [HashMap::extend], and [collect] into an empty map. *)
Definition assoc_extend (base incoming : list (string * A)) : list (string * A) :=
  foldl (λ m e, assoc_insert e.1 e.2 m) base incoming.

Definition assoc_collect (l : list (string * A)) : list (string * A) := assoc_extend [] l.
End assoc.

(** ** Dynamic values: value.rs *)

Inductive Sp00kyValue :=
  | Null
  | Bool (b : bool)
  | Int (i : Z)
  | Float (f : f64)
  | Str (s : string)
  | Array (items : list Sp00kyValue)
  | Object (map : list (string * Sp00kyValue)).

(** [serde_json::Value]; its object is an ordered map with unique keys. *)
Inductive Number :=
  | PosInt (n : Z)
  | NegInt (n : Z)
  | NFloat (f : f64).

Inductive Value :=
  | VNull
  | VBool (b : bool)
  | VNumber (n : Number)
  | VString (s : string)
  | VArray (l : list Value)
  | VObject (m : list (string * Value)).

Module Value.
(** [Number::as_i64], [Number::as_f64]. *)
Definition as_i64 (n : Number) : option Z :=
  match n with
  | PosInt n => if (n <? two63)%Z then Some n else None
  | NegInt n => Some n
  | NFloat _ => None
  end.
Definition as_f64 (n : Number) : option f64 :=
  match n with
  | PosInt n => Some (if (n =? 0)%Z then F64 0 else F64 (F64.of_pos_bits n))
  | NegInt n => Some (F64.of_i64 n)
  | NFloat f => Some f
  end.
Definition as_object (v : Value) : option (list (string * Value)) :=
  match v with VObject m => Some m | _ => None end.
Definition as_str (v : Value) : option string :=
  match v with VString s => Some s | _ => None end.
(** [value.get(key)]: [None] on anything but an object. *)
Definition get (v : Value) (k : string) : option Value :=
  let? m := as_object v in assoc_get k m.
End Value.

(** [impl From<Value> for Sp00kyValue]. *)
Fixpoint from_json (v : Value) : Sp00kyValue :=
  match v with
  | VNull => Null
  | VBool b => Bool b
  | VNumber n =>
      match Value.as_i64 n with
      | Some i => Int i
      | None => Float (default (F64 0) (Value.as_f64 n))
      end
  | VString s => Str s
  | VArray l => Array (map from_json l)
  | VObject m => Object (assoc_collect (map (λ e, match e with (k, v) => (k, from_json v) end) m))
  end.

(** [impl From<Sp00kyValue> for Value]: [json!(i)], [json!(f)] and, for a
    float JSON cannot hold, [null]. *)
Fixpoint to_json (v : Sp00kyValue) : Value :=
  match v with
  | Null => VNull
  | Bool b => VBool b
  | Int i => VNumber (if (i <? 0)%Z then NegInt i else PosInt i)
  | Float f => if F64.is_finite f then VNumber (NFloat f) else VNull
  | Str s => VString s
  | Array l => VArray (map to_json l)
  | Object m => VObject (assoc_collect (map (λ e, match e with (k, v) => (k, to_json v) end) m))
  end.

Module Sp00kyValue.
Definition as_str (v : Sp00kyValue) : option string :=
  match v with Str s => Some s | _ => None end.
Definition as_f64 (v : Sp00kyValue) : option f64 :=
  match v with Int i => Some (F64.of_i64 i) | Float f => Some f | _ => None end.
Definition as_i64 (v : Sp00kyValue) : option Z :=
  match v with
  | Int i => Some i
  | Float f => if F64.is_finite f && F64.is_integral f then Some (F64.to_i64 f) else None
  | _ => None
  end.
Definition as_bool (v : Sp00kyValue) : option bool :=
  match v with Bool b => Some b | _ => None end.
Definition as_object (v : Sp00kyValue) : option (list (string * Sp00kyValue)) :=
  match v with Object m => Some m | _ => None end.
Definition as_array (v : Sp00kyValue) : option (list Sp00kyValue) :=
  match v with Array l => Some l | _ => None end.
Definition get (v : Sp00kyValue) (key : string) : option Sp00kyValue :=
  let? m := as_object v in assoc_get key m.
Definition is_null (v : Sp00kyValue) : bool :=
  match v with Null => true | _ => false end.
Definition is_json_null (v : Sp00kyValue) : bool :=
  match v with
  | Null => true
  | Float f => negb (F64.is_finite f)
  | _ => false
  end.
End Sp00kyValue.

(** ** Facts on strings *)

Lemma ascii_eqb_refl a : Ascii.eqb a a = true.
Proof. apply Ascii.eqb_refl. Qed.

Lemma contains_split_once c s :
  contains_char c s = false ↔ split_once c s = None.
Proof.
  induction s as [|a s IH]; simpl; [done|].
  destruct (Ascii.eqb a c); simpl; [done|].
  rewrite IH. destruct (split_once c s) as [[]|]; done.
Qed.

Lemma string_app_inj_l p s t : (p +:+ s = p +:+ t)%string → s = t.
Proof. induction p as [|a p IH]; simpl; [done|]. intros [= ?]. auto. Qed.

Lemma split_once_app c t s :
  contains_char c t = false → split_once c (t +:+ String c s) = Some (t, s).
Proof.
  induction t as [|a t IH]; simpl; intros H.
  - by rewrite Ascii.eqb_refl.
  - split_andb. destruct (Ascii.eqb a c); [done|]. by rewrite IH.
Qed.

Lemma split_once_Some c s t u : split_once c s = Some (t, u) → s = (t +:+ String c u)%string.
Proof.
  revert t. induction s as [|a s IH]; intros t; simpl; [done|].
  destruct (Ascii.eqb_spec a c) as [->|]; [by intros [= <- <-]|].
  destruct (split_once c s) as [[t' u']|]; [|done]. intros [= <- <-]. by rewrite (IH t').
Qed.

Lemma split_no_sep c s : contains_char c s = false → split c s = [s].
Proof.
  induction s as [|a s IH]; simpl; [done|]. intros H. split_andb.
  destruct (Ascii.eqb a c); [done|]. by rewrite IH.
Qed.

Lemma split_nonempty c s : split c s ≠ [].
Proof.
  destruct s as [|a s]; simpl; [done|].
  destruct (Ascii.eqb a c); [done|]. by destruct (split c s).
Qed.

Lemma split_parts c s x : x ∈ split c s → contains_char c x = false.
Proof.
  revert x. induction s as [|a s IH]; intros x; simpl; [set_solver|].
  destruct (Ascii.eqb a c) eqn:E.
  - intros [->|H]%elem_of_cons; [done|auto].
  - destruct (split c s) as [|y l] eqn:Es; [by apply split_nonempty in Es|].
    intros [->|H]%elem_of_cons; simpl; [|apply IH; set_solver].
    rewrite E. apply IH. set_solver.
Qed.

Lemma split_app c t s :
  contains_char c t = false → split c (t +:+ String c s) = t :: split c s.
Proof.
  induction t as [|a t IH]; simpl; intros H.
  - by rewrite Ascii.eqb_refl.
  - split_andb. destruct (Ascii.eqb a c); [done|]. by rewrite IH.
Qed.

Lemma split_join c l :
  l ≠ [] → Forall (λ x, contains_char c x = false) l →
  split c (join (String c "") l) = l.
Proof.
  unfold join. induction l as [|x l IH]; [done|]. intros _ [Hx Hl]%Forall_cons_1.
  destruct l as [|y l]; [by apply split_no_sep|].
  change (String.concat _ (x :: y :: l)) with
    (x +:+ String c (String.concat (String c "") (y :: l))).
  rewrite split_app by done. f_equal. by apply IH.
Qed.

Lemma strip_prefix_app p s : strip_prefix p (p +:+ s) = Some s.
Proof. induction p as [|a p IH]; simpl; [done|]. by rewrite Ascii.eqb_refl. Qed.

Lemma strip_prefix_Some p s r : strip_prefix p s = Some r ↔ s = p +:+ r.
Proof.
  split; [|by intros ->; apply strip_prefix_app].
  revert s. induction p as [|a p IH]; intros s; simpl; [by intros [= ->]|].
  destruct s as [|b s]; [done|]. destruct (Ascii.eqb_spec a b) as [->|]; [|done].
  intros ?%IH. by subst.
Qed.

Lemma byte_of_ascii_range a : (0 <= byte_of_ascii a < 256)%Z.
Proof. unfold byte_of_ascii. pose proof (Ascii.N_ascii_bounded a). lia. Qed.

Lemma string_of_bytes_of s : string_of_bytes (bytes_of s) = s.
Proof.
  unfold string_of_bytes, bytes_of. rewrite <- list_fmap_compose.
  rewrite <- (String.string_of_list_ascii_of_string s) at 2. f_equal.
  rewrite <- (list_fmap_id (String.list_ascii_of_string s)) at 2.
  apply list_fmap_ext. intros _ a _. unfold compose, byte_of_ascii.
  rewrite N2Z.id. apply Ascii.ascii_N_embedding.
Qed.

Lemma length_bytes_of s : length (bytes_of s) = String.length s.
Proof.
  unfold bytes_of. rewrite length_fmap. induction s as [|a s IH]; simpl; [done|].
  by rewrite <- IH.
Qed.

Lemma bytes_of_inj s t : bytes_of s = bytes_of t → s = t.
Proof. intros H. by rewrite <- (string_of_bytes_of s), H, string_of_bytes_of. Qed.

(** ** Facts on association lists *)

Section assoc_facts.
Context {A : Type}.
Implicit Types m l : list (string * A).

Lemma assoc_get_insert k k' a m :
  assoc_get k (assoc_insert k' a m) = if String.eqb k k' then Some a else assoc_get k m.
Proof.
  induction m as [|[k1 b] m IH]; simpl.
  - by destruct (String.eqb_spec k k').
  - destruct (String.eqb_spec k' k1) as [->|Hne]; simpl.
    + by destruct (String.eqb_spec k k1).
    + rewrite IH. destruct (String.eqb_spec k k1), (String.eqb_spec k k'); congruence.
Qed.

Lemma assoc_get_remove k k' m :
  assoc_get k (assoc_remove k' m) = if String.eqb k k' then None else assoc_get k m.
Proof.
  unfold assoc_remove. induction m as [|[k1 b] m IH]; simpl.
  - by destruct (String.eqb k k').
  - destruct (String.eqb_spec k' k1) as [->|Hne]; simpl; rewrite IH.
    + by destruct (String.eqb_spec k k1).
    + destruct (String.eqb_spec k k1), (String.eqb_spec k k'); congruence.
Qed.

Lemma assoc_get_Some k a m : assoc_get k m = Some a → (k, a) ∈ m.
Proof.
  induction m as [|[k1 b] m IH]; simpl; [done|].
  destruct (String.eqb_spec k k1) as [->|]; [intros [= ->]; set_solver|].
  intros. apply elem_of_cons. auto.
Qed.

Lemma assoc_get_None k m : assoc_get k m = None ↔ k ∉ m.*1.
Proof.
  induction m as [|[k1 b] m IH]; simpl; [set_solver|].
  destruct (String.eqb_spec k k1) as [->|]; [set_solver|]. set_solver.
Qed.

Lemma assoc_get_elem k a m : NoDup m.*1 → (k, a) ∈ m → assoc_get k m = Some a.
Proof.
  induction m as [|[k1 b] m IH]; simpl; [set_solver|].
  intros [Hn Hd]%NoDup_cons [Heq|Hin]%elem_of_cons.
  - injection Heq as -> ->. by rewrite String.eqb_refl.
  - destruct (String.eqb_spec k k1) as [->|]; [|auto].
    exfalso. apply Hn. apply (list_elem_of_fmap_2 fst) in Hin. done.
Qed.

Lemma assoc_insert_keys k a m x : x ∈ (assoc_insert k a m).*1 ↔ x = k ∨ x ∈ m.*1.
Proof.
  induction m as [|[k1 b] m IH]; simpl; [set_solver|].
  destruct (String.eqb_spec k k1) as [->|]; simpl; set_solver.
Qed.

Lemma assoc_insert_NoDup k a m : NoDup m.*1 → NoDup (assoc_insert k a m).*1.
Proof.
  induction m as [|[k1 b] m IH]; simpl.
  - intros _. apply NoDup_singleton.
  - intros [Hn Hd]%NoDup_cons. destruct (String.eqb_spec k k1) as [->|]; simpl.
    + by constructor.
    + constructor; [|auto]. rewrite assoc_insert_keys. set_solver.
Qed.

Lemma assoc_insert_fresh k a m : k ∉ m.*1 → assoc_insert k a m = m ++ [(k, a)].
Proof.
  induction m as [|[k1 b] m IH]; simpl; [done|]. intros Hn.
  destruct (String.eqb_spec k k1) as [->|]; [set_solver|].
  rewrite IH by set_solver. done.
Qed.

Lemma assoc_extend_fresh m l :
  NoDup (m ++ l).*1 → assoc_extend m l = m ++ l.
Proof.
  revert m. induction l as [|[k a] l IH]; intros m Hn; simpl; [by rewrite app_nil_r|].
  rewrite assoc_insert_fresh.
  - rewrite IH; [by rewrite <- app_assoc|]. by rewrite <- app_assoc.
  - rewrite fmap_app in Hn. apply NoDup_app in Hn as [_ [Hn _]].
    intros Hin. apply (Hn k Hin). simpl. set_solver.
Qed.

Lemma assoc_collect_NoDup l : NoDup l.*1 → assoc_collect l = l.
Proof. intros. by apply (assoc_extend_fresh []). Qed.

Lemma assoc_extend_wf m l : NoDup m.*1 → NoDup (assoc_extend m l).*1.
Proof.
  revert m. induction l as [|[k a] l IH]; intros m Hm; simpl; [done|].
  by apply IH, assoc_insert_NoDup.
Qed.
End assoc_facts.

(** ** Induction and well-formedness *)

Section value_ind.
Context (P : Sp00kyValue → Prop).
Context (HNull : P Null) (HBool : ∀ b, P (Bool b)) (HInt : ∀ i, P (Int i))
  (HFloat : ∀ f, P (Float f)) (HStr : ∀ s, P (Str s))
  (HArray : ∀ l, Forall P l → P (Array l))
  (HObject : ∀ m, Forall (λ e, P e.2) m → P (Object m)).

Fixpoint value_ind' (v : Sp00kyValue) : P v :=
  match v with
  | Null => HNull | Bool b => HBool b | Int i => HInt i | Float f => HFloat f
  | Str s => HStr s
  | Array l => HArray l ((fix go (l : list Sp00kyValue) : Forall P l :=
      match l with [] => Forall_nil_2 _ | x :: l => Forall_cons_2 _ _ _ (value_ind' x) (go l) end) l)
  | Object m => HObject m ((fix go (m : list (string * Sp00kyValue)) : Forall (λ e, P e.2) m :=
      match m with
      | [] => Forall_nil_2 _
      | e :: m => Forall_cons_2 _ _ _ (match e as e return P e.2 with (k, x) => value_ind' x end) (go m)
      end) m)
  end.
End value_ind.

(** What the Rust types guarantee: integers and floats at their width,
    strings in UTF-8, object keys unique. *)
Inductive value_wf : Sp00kyValue → Prop :=
  | wf_null : value_wf Null
  | wf_bool b : value_wf (Bool b)
  | wf_int i : in_i64 i → value_wf (Int i)
  | wf_float f : in_u64 (f64_bits f) → value_wf (Float f)
  | wf_str s : utf8_valid (bytes_of s) = true → value_wf (Str s)
  | wf_array l : Forall value_wf l → value_wf (Array l)
  | wf_object m : NoDup m.*1 → Forall (λ e, value_wf e.2) m → value_wf (Object m).

(** Equality of values as Rust's maps have it: objects by lookup, whatever
    their iteration order. Floats by their bits. *)
Inductive value_equiv : Sp00kyValue → Sp00kyValue → Prop :=
  | ve_null : value_equiv Null Null
  | ve_bool b : value_equiv (Bool b) (Bool b)
  | ve_int i : value_equiv (Int i) (Int i)
  | ve_float f : value_equiv (Float f) (Float f)
  | ve_str s : value_equiv (Str s) (Str s)
  | ve_array l l' : Forall2 value_equiv l l' → value_equiv (Array l) (Array l')
  | ve_object m m' m'' : m ≡ₚ m'' →
      Forall2 (λ e e', e.1 = e'.1 ∧ value_equiv e.2 e'.2) m'' m' →
      value_equiv (Object m) (Object m').

#[export] Hint Constructors value_wf value_equiv : sp00ky.

Lemma value_equiv_refl v : value_equiv v v.
Proof.
  induction v using value_ind'; try constructor.
  - by apply Forall_Forall2_diag.
  - econstructor; [done|]. apply Forall_Forall2_diag.
    eapply Forall_impl; [done|]. naive_solver.
Qed.

(** ** Properties of the data layer *)

(** Converting a value to JSON and back gives the value again, integers
    included, as long as no float is an infinity or a NaN. *)
Inductive json_safe : Sp00kyValue → Prop :=
  | js_null : json_safe Null
  | js_bool b : json_safe (Bool b)
  | js_int i : json_safe (Int i)
  | js_float f : F64.is_finite f = true → json_safe (Float f)
  | js_str s : json_safe (Str s)
  | js_array l : Forall json_safe l → json_safe (Array l)
  | js_object m : Forall (λ e, json_safe e.2) m → json_safe (Object m).

Lemma from_json_pairs_keys (m : list (string * Value)) :
  (map (λ e, match e with (k, v) => (k, from_json v) end) m).*1 = m.*1.
Proof. induction m as [|[k v] m IH]; simpl; [done|]. by f_equal. Qed.

Lemma to_json_pairs_keys (m : list (string * Sp00kyValue)) :
  (map (λ e, match e with (k, v) => (k, to_json v) end) m).*1 = m.*1.
Proof. induction m as [|[k v] m IH]; simpl; [done|]. by f_equal. Qed.

Lemma json_roundtrip v : value_wf v → json_safe v → from_json (to_json v) = v.
Proof.
  induction v using value_ind'; intros Hw Hj; simpl; try done.
  - inversion Hw as [| |? Hi| | | |]; subst.
    destruct (Z.ltb_spec i 0); simpl; [done|].
    unfold in_i64 in Hi. rewrite (proj2 (Z.ltb_lt _ _)) by lia. done.
  - inversion Hj as [| | |? Hf| | |]; subst. rewrite Hf. done.
  - inversion Hw as [| | | | |? Hwl|]; inversion Hj as [| | | | |? Hjl|]; subst.
    f_equal. clear Hw Hj. induction H as [|x l Hx Hl IH]; simpl; [done|].
    apply Forall_cons_1 in Hwl as [? ?], Hjl as [? ?]. f_equal; auto.
  - inversion Hw as [| | | | | |? Hn Hwm]; inversion Hj as [| | | | | |? Hjm]; subst.
    rewrite (assoc_collect_NoDup (map _ m)) by (by rewrite to_json_pairs_keys).
    rewrite assoc_collect_NoDup by (by rewrite from_json_pairs_keys, to_json_pairs_keys).
    f_equal. clear Hw Hj Hn. induction H as [|[k x] l Hx Hl IH]; simpl; [done|].
    apply Forall_cons_1 in Hwm as [? ?], Hjm as [? ?]. simpl in *. f_equal; auto.
    f_equal; auto.
Qed.
