(* ===== verification/RowCodec.v ===== *)
(** * The flat row encoding

    Models [packages/ssp/src/circuit/row_codec.rs]: the field dictionary, the
    varint, the record head, the tag-prefixed value encoding, the structural
    reads (skip, object lookup by binary search) and the decoder. Bytes are
    integers in [0, 256); slices are the suffixes and sub-slices the code
    takes, with [slice.get]'s bounds checks. *)

From S2P Require Import Prelude Float64 Value.
Local Open Scope Z_scope.

Definition TAG_NULL : Z := 0.
Definition TAG_FALSE : Z := 1.
Definition TAG_TRUE : Z := 2.
Definition TAG_INT : Z := 3.
Definition TAG_FLOAT : Z := 4.
Definition TAG_STR : Z := 5.
Definition TAG_ARR : Z := 6.
Definition TAG_OBJ : Z := 7.

Definition RV_ABSENT : Z := - two63.

Definition DIGEST_LEN : Z := 32.
Definition HEAD_RV_OFFSET : Z := DIGEST_LEN.
Definition HEAD_BODY_REL_OFFSET : Z := HEAD_RV_OFFSET + 8.
Definition HEAD_BODY_LEN_OFFSET : Z := HEAD_BODY_REL_OFFSET + 4.
Definition HEAD_ID_OFFSET : Z := HEAD_BODY_LEN_OFFSET + 4.
Definition HEAD_MIN_LEN : Z := HEAD_ID_OFFSET + 1.

(** ** Little-endian integers (standard library) *)

Fixpoint le_split (n : nat) (z : Z) : list Z :=
  match n with
  | O => []
  | S n => z mod 256 :: le_split n (z / 256)
  end.

Fixpoint le_combine (bs : list Z) : Z :=
  match bs with
  | [] => 0
  | b :: bs => b + 256 * le_combine bs
  end.

Definition to_le_u32 (z : Z) : list Z := le_split 4 (wrap_u32 z).
Definition to_le_u64 (z : Z) : list Z := le_split 8 (wrap_u64 z).
(** [i64::to_le_bytes]: the bytes of the two's complement pattern. *)
Definition to_le_i64 (z : Z) : list Z := le_split 8 (wrap_u64 z).
Definition from_le_i64 (bs : list Z) : Z := wrap_i64 (le_combine bs).

Definition from_utf8 (bs : list Z) : option string :=
  if utf8_valid bs then Some (string_of_bytes bs) else None.

(** ** The field dictionary *)

Record FieldDict := MkFieldDict {
  fd_names : list string;
  fd_ids : gmap string Z;
}.

Module FieldDict.
Definition new : FieldDict := MkFieldDict [] ∅.

Definition intern (d : FieldDict) (name : string) : Z * FieldDict :=
  match fd_ids d !! name with
  | Some id => (id, d)
  | None =>
      let id := wrap_u32 (zlength (fd_names d)) in
      (id, MkFieldDict (fd_names d ++ [name]) (<[name := id]> (fd_ids d)))
  end.

Definition id_of (d : FieldDict) (name : string) : option Z := fd_ids d !! name.
Definition name (d : FieldDict) (id : Z) : option string := zlookup (fd_names d) id.
Definition len (d : FieldDict) : Z := zlength (fd_names d).

(** [None] when a name repeats. *)
Fixpoint from_names_loop (names : list string) (expected : Z) (d : FieldDict)
    : option FieldDict :=
  match names with
  | [] => Some d
  | n :: names =>
      let '(id, d) := intern d n in
      if id =? expected then from_names_loop names (expected + 1) d else None
  end.
Definition from_names (names : list string) : option FieldDict :=
  from_names_loop names 0 new.
End FieldDict.

(** ** Varints

    The writer's loop shifts a [u64] right by 7 until nothing is left: ten
    rounds at most, which is the fuel. *)
Fixpoint write_varint_fuel (fuel : nat) (v : Z) : list Z :=
  match fuel with
  | O => []
  | S f =>
      let byte := Z.land v 127 in
      let v := Z.shiftr v 7 in
      if v =? 0 then [byte] else Z.lor byte 128 :: write_varint_fuel f v
  end.
Definition write_varint (v : Z) : list Z := write_varint_fuel 10 v.

Fixpoint varint_len_fuel (fuel : nat) (n v : Z) : Z :=
  match fuel with
  | O => n
  | S f => if v =? 0 then n else varint_len_fuel f (n + 1) (Z.shiftr v 7)
  end.
Definition varint_len (v : Z) : Z := varint_len_fuel 10 1 (Z.shiftr v 7).

(** [(byte & 0x7f) as u64) << shift] drops the bits shifted past 64. *)
Fixpoint read_varint_loop (bytes : list Z) (result shift i : Z) : option (Z * Z) :=
  match bytes with
  | [] => None
  | byte :: bytes =>
      if 64 <=? shift then None
      else
        let result := Z.lor result (wrap_u64 (Z.shiftl (Z.land byte 127) shift)) in
        if Z.land byte 128 =? 0 then Some (result, i + 1)
        else read_varint_loop bytes result (shift + 7) (i + 1)
  end.
Definition read_varint (bytes : list Z) : option (Z * Z) := read_varint_loop bytes 0 0 0.

(** ** Encoding values *)

Definition encoder : Type := FieldDict → list Z * FieldDict.

Fixpoint encode_seq (encs : list encoder) (d : FieldDict) : list Z * FieldDict :=
  match encs with
  | [] => ([], d)
  | enc :: encs =>
      let '(bs, d) := enc d in
      let '(rest, d) := encode_seq encs d in
      (bs ++ rest, d)
  end.

(** Intern every field name, in the map's iteration order. *)
Fixpoint intern_entries {A} (m : list (string * A)) (d : FieldDict)
    : list (Z * A) * FieldDict :=
  match m with
  | [] => ([], d)
  | (name, a) :: m =>
      let '(id, d) := FieldDict.intern d name in
      let '(entries, d) := intern_entries m d in
      ((id, a) :: entries, d)
  end.

(** [sort_unstable_by_key(|(id, _)| *id)]; the ids are distinct. *)
Definition by_id {A} (a b : Z * A) : Prop := a.1 <= b.1.
#[global] Instance by_id_dec {A} : RelDecision (@by_id A).
Proof. intros a b. unfold by_id. apply _. Defined.
Definition sort_entries {A} (l : list (Z * A)) : list (Z * A) := merge_sort by_id l.

(** The entry table and the value region: each value's offset is the length
    of the values written before it ([base]), backfilled into its slot. *)
Fixpoint encode_entries (entries : list (Z * encoder)) (base : Z) (d : FieldDict)
    : list Z * list Z * FieldDict :=
  match entries with
  | [] => ([], [], d)
  | (id, enc) :: entries =>
      let '(bs, d) := enc d in
      let '(table, values, d) := encode_entries entries (base + zlength bs) d in
      (to_le_u32 id ++ to_le_u32 base ++ table, bs ++ values, d)
  end.

Fixpoint encode_value (v : Sp00kyValue) : encoder :=
  match v with
  | Null => λ d, ([TAG_NULL], d)
  | Bool false => λ d, ([TAG_FALSE], d)
  | Bool true => λ d, ([TAG_TRUE], d)
  | Int i => λ d, (TAG_INT :: to_le_i64 i, d)
  | Float f => λ d, (TAG_FLOAT :: to_le_u64 (f64_bits f), d)
  | Str s => λ d, (TAG_STR :: write_varint (zlength (bytes_of s)) ++ bytes_of s, d)
  | Array items => λ d,
      let '(bs, d) := encode_seq (map encode_value items) d in
      (TAG_ARR :: write_varint (zlength items) ++ bs, d)
  | Object m => λ d,
      let '(entries, d) :=
        intern_entries (map (λ e, match e with (k, v) => (k, encode_value v) end) m) d in
      let '(table, values, d) := encode_entries (sort_entries entries) 0 d in
      (TAG_OBJ :: write_varint (zlength m) ++ table ++ values, d)
  end.

(** ** Record heads *)

Definition encode_head (id : string) (digest : list Z) (rv body_rel body_len : Z) : list Z :=
  digest ++ to_le_i64 rv ++ to_le_u32 body_rel ++ to_le_u32 body_len ++
  write_varint (zlength (bytes_of id)) ++ bytes_of id.

Definition head_len_for (id : string) : Z :=
  HEAD_ID_OFFSET + varint_len (zlength (bytes_of id)) + zlength (bytes_of id).

(** The row version lifted into the head. *)
Definition record_rv (value : Sp00kyValue) : Z :=
  match Sp00kyValue.get value "_00_rv" with
  | Some (Int rv) => rv
  | _ => RV_ABSENT
  end.

(** Head then body; the head's [body_rel] is the head's own length. *)
Definition encode_record (id : string) (value : Sp00kyValue) (digest : list Z)
    (d : FieldDict) : list Z * Z * FieldDict :=
  let rv := record_rv value in
  let '(body, d) := encode_value value d in
  let head := encode_head id digest rv (head_len_for id) (zlength body) in
  (head ++ body, zlength head, d).

(** Copy a head with another [body_rel]. *)
Definition relink_head (head : list Z) (body_rel : Z) : list Z :=
  take (Z.to_nat HEAD_BODY_REL_OFFSET) head ++ to_le_u32 body_rel ++
  drop (Z.to_nat HEAD_BODY_LEN_OFFSET) head.

Definition head_len (bytes : list Z) : option Z :=
  let? tail := slice_from HEAD_ID_OFFSET bytes in
  let? (len, n) := read_varint tail in
  let e := HEAD_ID_OFFSET + n + len in
  if two64 <=? e then None else if e <=? zlength bytes then Some e else None.

Definition head_digest (head : list Z) : option (list Z) := slice 0 DIGEST_LEN head.

Definition head_rv_raw (head : list Z) : option Z :=
  let? bs := slice HEAD_RV_OFFSET (HEAD_RV_OFFSET + 8) head in
  Some (from_le_i64 bs).

Definition head_rv (head : list Z) : option Z :=
  let? raw := head_rv_raw head in
  if raw =? RV_ABSENT then None else Some raw.

Definition head_body_rel (head : list Z) : option Z :=
  let? bs := slice HEAD_BODY_REL_OFFSET (HEAD_BODY_REL_OFFSET + 4) head in
  Some (le_combine bs).

Definition head_body_len (head : list Z) : option Z :=
  let? bs := slice HEAD_BODY_LEN_OFFSET (HEAD_BODY_LEN_OFFSET + 4) head in
  Some (le_combine bs).

Definition head_id (head : list Z) : option string :=
  let? tail := slice_from HEAD_ID_OFFSET head in
  let? (len, n) := read_varint tail in
  let start := HEAD_ID_OFFSET + n in
  let e := start + len in
  if two64 <=? e then None else
  let? bs := slice start e head in
  from_utf8 bs.

Definition record_body (record : list Z) : list Z :=
  match head_body_rel record, head_body_len record with
  | Some rel, Some len => default [] (slice rel (rel + len) record)
  | _, _ => []
  end.

(** ** Structural reads

    Offsets are [usize]; their sums wrap. The fuel bounds the nesting depth,
    and the inner loop's its iterations: the input's length is enough for
    both whenever every element advances by at least a byte. *)

(** [for _ in 0..count { at += value_len(bytes.get(at..)?)?; }]. *)
Fixpoint skip_values (value_len : list Z → option Z) (bytes : list Z)
    (n : nat) (count at_ : Z) : option Z :=
  if count =? 0 then Some at_
  else match n with
       | O => None
       | S n =>
           let? rest := slice_from at_ bytes in
           let? l := value_len rest in
           skip_values value_len bytes n (count - 1) (wrap_u64 (at_ + l))
       end.

Fixpoint value_len (fuel : nat) (bytes : list Z) : option Z :=
  match fuel with
  | O => None
  | S f =>
      let? tag := head bytes in
      if (tag =? TAG_NULL) || (tag =? TAG_FALSE) || (tag =? TAG_TRUE) then Some 1
      else if (tag =? TAG_INT) || (tag =? TAG_FLOAT) then Some 9
      else if tag =? TAG_STR then
        let? (len, n) := read_varint (tail bytes) in
        Some (wrap_u64 (1 + n + len))
      else if tag =? TAG_ARR then
        let? (count, n) := read_varint (tail bytes) in
        skip_values (value_len f) bytes (S (length bytes)) count (1 + n)
      else if tag =? TAG_OBJ then
        let? (count, n) := read_varint (tail bytes) in
        skip_values (value_len f) bytes (S (length bytes)) count
          (wrap_u64 (1 + n + count * 8))
      else None
  end.

Record ObjParts := MkObjParts {
  op_table : list Z;
  op_values : list Z;
  op_count : Z;
}.

Definition obj_parts (bytes : list Z) : option ObjParts :=
  let? tag := head bytes in
  if negb (tag =? TAG_OBJ) then None else
  let? (count, n) := read_varint (tail bytes) in
  let table_start := 1 + n in
  let values_base := wrap_u64 (table_start + count * 8) in
  let? table := slice table_start values_base bytes in
  let? values := slice_from values_base bytes in
  Some (MkObjParts table values count).

(** The binary search halves [hi - lo], which starts below 2^64: 65 rounds. *)
Fixpoint obj_search (fuel : nat) (parts : ObjParts) (name_id lo hi : Z) : option (list Z) :=
  match fuel with
  | O => None
  | S f =>
      if lo <? hi then
        let mid := wrap_u64 (lo + hi) / 2 in
        let at_ := wrap_u64 (mid * 8) in
        let? idb := slice at_ (wrap_u64 (at_ + 4)) (op_table parts) in
        let id := le_combine idb in
        match Z.compare id name_id with
        | Lt => obj_search f parts name_id (mid + 1) hi
        | Gt => obj_search f parts name_id lo mid
        | Eq =>
            let? offb := slice (wrap_u64 (at_ + 4)) (wrap_u64 (at_ + 8)) (op_table parts) in
            slice_from (le_combine offb) (op_values parts)
        end
      else None
  end.

Definition obj_lookup (bytes : list Z) (name_id : Z) : option (list Z) :=
  let? parts := obj_parts bytes in
  obj_search 65 parts name_id 0 (op_count parts).

Definition obj_entry_at (bytes : list Z) (i : Z) : option (Z * list Z) :=
  let? parts := obj_parts bytes in
  if op_count parts <=? i then None else
  let at_ := wrap_u64 (i * 8) in
  let? idb := slice at_ (wrap_u64 (at_ + 4)) (op_table parts) in
  let? offb := slice (wrap_u64 (at_ + 4)) (wrap_u64 (at_ + 8)) (op_table parts) in
  let? v := slice_from (le_combine offb) (op_values parts) in
  Some (le_combine idb, v).

Definition str_bytes (bytes : list Z) : option string :=
  let? tag := head bytes in
  if negb (tag =? TAG_STR) then None else
  let? (len, n) := read_varint (tail bytes) in
  let? raw := slice (1 + n) (wrap_u64 (1 + n + len)) bytes in
  from_utf8 raw.

Definition arr_parts (bytes : list Z) : option (Z * list Z) :=
  let? tag := head bytes in
  if negb (tag =? TAG_ARR) then None else
  let? (count, n) := read_varint (tail bytes) in
  let? rest := slice_from (1 + n) bytes in
  Some (count, rest).

(** ** Decoding *)

(** The items of an array: decode one, skip it, go on. *)
Fixpoint decode_items (decode : list Z → option Sp00kyValue) (value_len : list Z → option Z)
    (rest : list Z) (n : nat) (count at_ : Z) : option (list Sp00kyValue) :=
  if count =? 0 then Some []
  else match n with
       | O => None
       | S n =>
           let? s := slice_from at_ rest in
           let? v := decode s in
           let? l := value_len s in
           let? vs := decode_items decode value_len rest n (count - 1) (wrap_u64 (at_ + l)) in
           Some (v :: vs)
       end.

(** The entries of an object, in table order. *)
Fixpoint decode_fields (decode : list Z → option Sp00kyValue) (d : FieldDict)
    (bytes : list Z) (count : Z) (n : nat) (i : Z) (m : list (string * Sp00kyValue))
    : option (list (string * Sp00kyValue)) :=
  if i =? count then Some m
  else match n with
       | O => None
       | S n =>
           let? (id, vb) := obj_entry_at bytes i in
           let? name := FieldDict.name d id in
           let? v := decode vb in
           decode_fields decode d bytes count n (i + 1) (assoc_insert name v m)
       end.

Fixpoint decode_fuel (fuel : nat) (d : FieldDict) (bytes : list Z) : option Sp00kyValue :=
  match fuel with
  | O => None
  | S f =>
      let? tag := head bytes in
      if tag =? TAG_NULL then Some Null
      else if tag =? TAG_FALSE then Some (Bool false)
      else if tag =? TAG_TRUE then Some (Bool true)
      else if tag =? TAG_INT then
        let? bs := slice 1 9 bytes in Some (Int (from_le_i64 bs))
      else if tag =? TAG_FLOAT then
        let? bs := slice 1 9 bytes in Some (Float (F64 (le_combine bs)))
      else if tag =? TAG_STR then
        let? s := str_bytes bytes in Some (Str s)
      else if tag =? TAG_ARR then
        let? (count, rest) := arr_parts bytes in
        let? vs := decode_items (decode_fuel f d) (value_len f) rest
                     (S (length bytes)) count 0 in
        Some (Array vs)
      else if tag =? TAG_OBJ then
        let? parts := obj_parts bytes in
        let? m := decode_fields (decode_fuel f d) d bytes (op_count parts)
                    (S (length bytes)) 0 [] in
        Some (Object m)
      else None
  end.

Definition decode_value (bytes : list Z) (d : FieldDict) : option Sp00kyValue :=
  decode_fuel (S (length bytes)) d bytes.
