(* ===== verification/RowCodecSpec.v ===== *)
(** * The flat row encoding round-trips

    Lemmas and theorems about RowCodec.v: little-endian integers, varints,
    record heads, and the encoding of values (skipping, decoding and field
    lookup all agree with what was encoded). The second part specifies what
    the encoding holds and proves the round trip of records. *)

From S2P Require Import Prelude Float64 Value RowCodec.
Local Open Scope Z_scope.

(** ** Little-endian integers *)

Lemma length_le_split n z : length (le_split n z) = n.
Proof. revert z. induction n as [|n IH]; intros z; simpl; [done|]. by rewrite IH. Qed.

Lemma zlength_le_split n z : zlength (le_split n z) = Z.of_nat n.
Proof. unfold zlength. by rewrite length_le_split. Qed.

Lemma le_combine_split n z :
  0 <= z < 2 ^ (8 * Z.of_nat n) → le_combine (le_split n z) = z.
Proof.
  revert z. induction n as [|n IH]; intros z Hz.
  - simpl. change (2 ^ (8 * Z.of_nat 0)) with 1 in Hz. lia.
  - cbn [le_split le_combine]. rewrite IH.
    + pose proof (Z.div_mod z 256). lia.
    + rewrite Nat2Z.inj_succ in Hz.
      replace (8 * Z.succ (Z.of_nat n)) with (8 + 8 * Z.of_nat n) in Hz by lia.
      rewrite Z.pow_add_r in Hz by lia. change (2 ^ 8) with 256 in Hz.
      split; [apply Z.div_pos; lia|]. apply Z.div_lt_upper_bound; lia.
Qed.

Lemma from_to_le_u32 z : 0 <= z < two32 → le_combine (to_le_u32 z) = z.
Proof.
  intros Hz. unfold to_le_u32, wrap_u32. rewrite Z.mod_small by done.
  by apply le_combine_split.
Qed.

Lemma from_to_le_u64 z : in_u64 z → le_combine (to_le_u64 z) = z.
Proof.
  intros Hz. unfold to_le_u64, wrap_u64. rewrite Z.mod_small by done.
  by apply le_combine_split.
Qed.

Lemma from_to_le_i64 z : in_i64 z → from_le_i64 (to_le_i64 z) = z.
Proof.
  intros Hz. unfold from_le_i64, to_le_i64. rewrite le_combine_split.
  - unfold wrap_u64. etrans; [|apply wrap_i64_id, Hz]. apply wrap_i64_eq_mod.
    by rewrite Zmod_mod.
  - change (2 ^ (8 * Z.of_nat 8)) with two64. by apply Z.mod_pos_bound.
Qed.

(** ** Varints *)

Lemma lor_shiftl_disjoint a b n :
  0 <= n → 0 <= a < 2 ^ n → 0 <= b → Z.lor a (Z.shiftl b n) = a + b * 2 ^ n.
Proof.
  intros Hn Ha Hb. rewrite <- Z.add_nocarry_lor; [by rewrite Z.shiftl_mul_pow2|].
  apply Z.bits_inj'. intros i Hi. rewrite Z.land_spec, Z.bits_0.
  destruct (decide (i < n)).
  - rewrite Z.shiftl_spec_low by lia. apply andb_false_r.
  - rewrite (proj1 (Z.bounded_iff_bits_nonneg n a Hn ltac:(lia))) by lia. done.
Qed.

Lemma land_127 v : Z.land v 127 = v mod 128.
Proof. exact (Z.land_ones v 7 ltac:(lia)). Qed.

Lemma varint_cont_byte b : 0 <= b < 128 →
  Z.land (Z.lor b 128) 127 = b ∧ Z.land (Z.lor b 128) 128 = 128 ∧ Z.land b 128 = 0.
Proof.
  intros Hb. assert (∀ n, 7 <= n → Z.testbit b n = false) as Hh.
  { apply (Z.bounded_iff_bits_nonneg 7); lia. }
  split_and!.
  - rewrite Z.land_lor_distr_l. change (Z.land 128 127) with 0.
    rewrite Z.lor_0_r, land_127. by apply Z.mod_small.
  - rewrite Z.land_lor_distr_l. change (Z.land 128 128) with 128.
    assert (Z.land b 128 = 0) as ->; [|done].
    apply Z.bits_inj'. intros i Hi. rewrite Z.land_spec, Z.bits_0.
    destruct (decide (i = 7)) as [->|]; [by rewrite Hh|].
    change 128 with (2 ^ 7). rewrite Z.pow2_bits_false by lia. apply andb_false_r.
  - apply Z.bits_inj'. intros i Hi. rewrite Z.land_spec, Z.bits_0.
    destruct (decide (i = 7)) as [->|]; [by rewrite Hh|].
    change 128 with (2 ^ 7). rewrite Z.pow2_bits_false by lia. apply andb_false_r.
Qed.

Lemma read_write_varint_loop fuel v result shift i rest :
  0 <= v < 2 ^ (7 * Z.of_nat fuel) → (0 < fuel)%nat →
  0 <= shift < 64 → 0 <= result < 2 ^ shift → v * 2 ^ shift < two64 →
  read_varint_loop (write_varint_fuel fuel v ++ rest) result shift i =
    Some (result + v * 2 ^ shift, i + zlength (write_varint_fuel fuel v)).
Proof.
  revert v result shift i. induction fuel as [|f IH]; intros v result shift i Hv Hf Hs Hr Ho;
    [lia|clear Hf].
  cbn [write_varint_fuel]. rewrite land_127, Z.shiftr_div_pow2 by lia.
  change (2 ^ 7) with 128.
  pose proof (Z.mod_pos_bound v 128 ltac:(lia)) as Hb.
  pose proof (Z.div_mod v 128 ltac:(lia)) as Hdm.
  assert (0 <= v / 128) as Hq by (apply Z.div_pos; lia).
  destruct (varint_cont_byte (v mod 128) Hb) as (Hc1 & Hc2 & Hc3).
  pose proof (Z.pow_pos_nonneg 2 shift ltac:(lia) ltac:(lia)) as Hp.
  assert (v mod 128 * 2 ^ shift < two64) as Ho1 by nia.
  assert (wrap_u64 (Z.shiftl (v mod 128) shift) = Z.shiftl (v mod 128) shift) as Hw.
  { unfold wrap_u64. apply Z.mod_small. rewrite Z.shiftl_mul_pow2 by lia.
    unfold two64 in *. nia. }
  destruct (Z.eqb_spec (v / 128) 0) as [Hz|Hz]; cbn [app read_varint_loop].
  - rewrite (proj2 (Z.leb_gt 64 shift)) by lia.
    rewrite Hc3, Z.eqb_refl. rewrite land_127, (Z.mod_small (v mod 128)) by done.
    rewrite Hw, lor_shiftl_disjoint by lia.
    unfold zlength. simpl. repeat f_equal; lia.
  - rewrite (proj2 (Z.leb_gt 64 shift)) by lia.
    rewrite Hc2. change (128 =? 0) with false. cbn iota.
    rewrite Hc1, Hw, lor_shiftl_disjoint by lia.
    assert (128 * 2 ^ shift <= v * 2 ^ shift) as Hge by nia.
    assert (shift + 7 < 64) as Hs'.
    { apply (Z.pow_lt_mono_r_iff 2); [lia|lia|]. rewrite Z.pow_add_r by lia.
      change (2 ^ 7) with 128. change (2 ^ 64) with two64. lia. }
    assert (2 ^ (shift + 7) = 2 ^ shift * 128) as Hpe.
    { rewrite Z.pow_add_r by lia. done. }
    destruct f as [|f].
    { change (2 ^ (7 * Z.of_nat 1)) with 128 in Hv.
      exfalso. apply Hz. apply Z.div_small. lia. }
    rewrite IH.
    + rewrite Hpe. unfold zlength. cbn [length].
      assert (v * 2 ^ shift = v mod 128 * 2 ^ shift + v / 128 * (2 ^ shift * 128)) as ->
        by (rewrite Hdm at 1; ring).
      f_equal. f_equal; lia.
    + split; [done|]. rewrite Nat2Z.inj_succ in Hv.
      replace (7 * Z.succ (Z.of_nat (S f))) with (7 + 7 * Z.of_nat (S f)) in Hv by lia.
      rewrite Z.pow_add_r in Hv by lia. change (2 ^ 7) with 128 in Hv.
      apply Z.div_lt_upper_bound; lia.
    + lia.
    + lia.
    + rewrite Hpe. nia.
    + rewrite Hpe. nia.
Qed.

Lemma read_write_varint v rest :
  in_u64 v → read_varint (write_varint v ++ rest) = Some (v, zlength (write_varint v)).
Proof.
  intros Hv. unfold read_varint, write_varint. unfold in_u64 in Hv.
  rewrite read_write_varint_loop; [f_equal; f_equal; lia|..]; try lia.
  - change (2 ^ (7 * Z.of_nat 10)) with 1180591620717411303424. unfold two64 in Hv. lia.
Qed.

Lemma write_varint_fuel_length fuel v :
  (0 < fuel)%nat → (1 <= length (write_varint_fuel fuel v) <= fuel)%nat.
Proof.
  revert v. induction fuel as [|f IH]; intros v Hf; [lia|]. cbn [write_varint_fuel].
  destruct (Z.shiftr v 7 =? 0); cbn [length]; [lia|].
  destruct f as [|f]; [simpl; lia|]. specialize (IH (Z.shiftr v 7)). lia.
Qed.

Lemma write_varint_len v : 1 <= zlength (write_varint v) <= 10.
Proof.
  unfold zlength, write_varint. pose proof (write_varint_fuel_length 10 v). lia.
Qed.

Lemma write_varint_fuel_eq f v : write_varint_fuel (S f) v =
  if Z.shiftr v 7 =? 0 then [Z.land v 127]
  else Z.lor (Z.land v 127) 128 :: write_varint_fuel f (Z.shiftr v 7).
Proof. done. Qed.

(** One round of fuel per seven bits is enough. *)
Lemma write_varint_fuel_enough f w :
  0 <= w < 2 ^ (7 * Z.of_nat f) → (0 < f)%nat →
  write_varint_fuel (S f) w = write_varint_fuel f w.
Proof.
  revert w. induction f as [|f IH]; intros w Hw Hf; [lia|].
  rewrite (write_varint_fuel_eq (S f) w), (write_varint_fuel_eq f w).
  destruct (Z.eqb_spec (Z.shiftr w 7) 0) as [|Hz]; [done|].
  rewrite Nat2Z.inj_succ in Hw.
  replace (7 * Z.succ (Z.of_nat f)) with (7 + 7 * Z.of_nat f) in Hw by lia.
  rewrite Z.pow_add_r in Hw by lia. change (2 ^ 7) with 128 in Hw.
  assert (0 <= Z.shiftr w 7 < 2 ^ (7 * Z.of_nat f)) as Hs.
  { rewrite Z.shiftr_div_pow2 by lia. change (2 ^ 7) with 128.
    split; [apply Z.div_pos; lia|]. apply Z.div_lt_upper_bound; lia. }
  destruct f as [|f].
  { exfalso. apply Hz. change (2 ^ (7 * Z.of_nat 0)) with 1 in Hs. lia. }
  rewrite IH; [done|done|lia].
Qed.

(** The length formula used to place a head's body. *)
Lemma varint_len_fuel_spec f n v :
  0 <= v < 2 ^ (7 * Z.of_nat f) → 
  varint_len_fuel f n v = n + (if v =? 0 then 0 else zlength (write_varint_fuel f v)).
Proof.
  revert n v. induction f as [|f IH]; intros n v Hv; cbn [varint_len_fuel].
  - change (2 ^ (7 * Z.of_nat 0)) with 1 in Hv. replace v with 0 by lia. simpl. lia.
  - destruct (Z.eqb_spec v 0) as [->|Hne]; [lia|].
    rewrite IH.
    + cbn [write_varint_fuel]. destruct (Z.shiftr v 7 =? 0) eqn:E.
      * unfold zlength. simpl. lia.
      * unfold zlength. cbn [length]. lia.
    + rewrite Z.shiftr_div_pow2 by lia. change (2 ^ 7) with 128.
      rewrite Nat2Z.inj_succ in Hv.
      replace (7 * Z.succ (Z.of_nat f)) with (7 + 7 * Z.of_nat f) in Hv by lia.
      rewrite Z.pow_add_r in Hv by lia. change (2 ^ 7) with 128 in Hv.
      split; [apply Z.div_pos; lia|]. apply Z.div_lt_upper_bound; lia.
Qed.

Lemma varint_len_spec v : in_u64 v → varint_len v = zlength (write_varint v).
Proof.
  intros Hv. unfold in_u64 in Hv. unfold varint_len, write_varint.
  assert (0 <= Z.shiftr v 7 < 2 ^ (7 * Z.of_nat 9)) as Hs.
  { rewrite Z.shiftr_div_pow2 by lia. change (2 ^ 7) with 128.
    split; [apply Z.div_pos; lia|]. apply Z.div_lt_upper_bound; [lia|].
    change (2 ^ (7 * Z.of_nat 9)) with two63. width_lia. }
  rewrite varint_len_fuel_spec.
  - change (write_varint_fuel 10 v) with
      (if Z.shiftr v 7 =? 0 then [Z.land v 127]
       else Z.lor (Z.land v 127) 128 :: write_varint_fuel 9 (Z.shiftr v 7)).
    destruct (Z.eqb_spec (Z.shiftr v 7) 0) as [Hz|Hz]; [done|].
    unfold zlength. cbn [length].
    enough (length (write_varint_fuel 10 (Z.shiftr v 7)) =
            length (write_varint_fuel 9 (Z.shiftr v 7))) as -> by lia.
    f_equal. apply write_varint_fuel_enough; [done|lia].
  - split; [lia|]. destruct Hs as [_ Hs]. eapply Z.lt_le_trans; [exact Hs|].
    apply Z.pow_le_mono_r; lia.
Qed.

(** ** Record heads *)

Lemma zlength_app {A} (l k : list A) : zlength (l ++ k) = zlength l + zlength k.
Proof. unfold zlength. rewrite length_app. lia. Qed.

Lemma zlength_cons {A} (x : A) l : zlength (x :: l) = 1 + zlength l.
Proof. unfold zlength. cbn [length]. lia. Qed.

Lemma zlength_to_le_u32 z : zlength (to_le_u32 z) = 4.
Proof. apply zlength_le_split. Qed.
Lemma zlength_to_le_u64 z : zlength (to_le_u64 z) = 8.
Proof. apply zlength_le_split. Qed.
Lemma zlength_to_le_i64 z : zlength (to_le_i64 z) = 8.
Proof. apply zlength_le_split. Qed.

(** Lengths of the encoded pieces, as a rewrite set. *)
Create Rewrite HintDb zlen.
#[export] Hint Rewrite @zlength_app @zlength_cons zlength_to_le_u32 zlength_to_le_u64
  zlength_to_le_i64 zlength_le_split : zlen.

(** A fixed-width field of a byte string, whatever surrounds it. *)
Lemma slice_field (pre field post : list Z) from to :
  zlength pre = from → to = from + zlength field →
  slice from to (pre ++ field ++ post) = Some field.
Proof. intros <- ->. by apply slice_app. Qed.

Lemma take_zlength {A} (l k : list A) n : zlength l = n → take (Z.to_nat n) (l ++ k) = l.
Proof. intros <-. unfold zlength. by rewrite Nat2Z.id, take_app_length. Qed.
Lemma drop_zlength {A} (l k : list A) n : zlength l = n → drop (Z.to_nat n) (l ++ k) = k.
Proof. intros <-. unfold zlength. by rewrite Nat2Z.id, drop_app_length. Qed.

Section head.
Context (id : string) (digest : list Z) (rv body_rel body_len : Z) (rest : list Z).
Context (Hd : zlength digest = DIGEST_LEN) (Hrv : in_i64 rv).
Context (Hrel : 0 <= body_rel < two32) (Hlen : 0 <= body_len < two32).
Context (Hid : zlength (bytes_of id) < two32).

Let h := encode_head id digest rv body_rel body_len.

Lemma id_len_u64 : in_u64 (zlength (bytes_of id)).
Proof. pose proof (zlength_nonneg (bytes_of id)). width_lia. Qed.

Lemma head_len_for_spec : zlength h = head_len_for id.
Proof.
  unfold h, encode_head, head_len_for. autorewrite with zlen.
  rewrite Hd, varint_len_spec by apply id_len_u64.
  unfold HEAD_ID_OFFSET, HEAD_BODY_LEN_OFFSET, HEAD_BODY_REL_OFFSET, HEAD_RV_OFFSET. lia.
Qed.

(** The parts of a head, by position. *)
Let fixed := digest ++ to_le_i64 rv ++ to_le_u32 body_rel ++ to_le_u32 body_len.
Lemma head_fixed : h = fixed ++ write_varint (zlength (bytes_of id)) ++ bytes_of id.
Proof. unfold h, fixed, encode_head. by rewrite <- !app_assoc. Qed.
Lemma zlength_fixed : zlength fixed = HEAD_ID_OFFSET.
Proof. unfold fixed. autorewrite with zlen. rewrite Hd. done. Qed.

Lemma head_tail : slice_from HEAD_ID_OFFSET (h ++ rest) =
  Some (write_varint (zlength (bytes_of id)) ++ bytes_of id ++ rest).
Proof.
  rewrite head_fixed, <- !app_assoc. apply slice_from_app. by rewrite zlength_fixed.
Qed.

Lemma head_len_encode : head_len (h ++ rest) = Some (zlength h).
Proof.
  unfold head_len. rewrite head_tail, read_write_varint by apply id_len_u64.
  pose proof (write_varint_len (zlength (bytes_of id))).
  pose proof (zlength_nonneg rest). pose proof (zlength_nonneg (bytes_of id)).
  rewrite zlength_app, head_fixed. autorewrite with zlen. rewrite zlength_fixed.
  change HEAD_ID_OFFSET with 48.
  rewrite (proj2 (Z.leb_gt two64 _)) by width_lia.
  rewrite (proj2 (Z.leb_le _ _)) by lia. f_equal. lia.
Qed.

Lemma head_digest_encode : head_digest (h ++ rest) = Some digest.
Proof.
  unfold head_digest, h, encode_head. rewrite <- !app_assoc.
  apply (slice_field []); [done|]. by rewrite Hd.
Qed.

Lemma head_rv_raw_encode : head_rv_raw (h ++ rest) = Some rv.
Proof.
  unfold head_rv_raw, h, encode_head. rewrite <- !app_assoc.
  rewrite (slice_field digest); [|by rewrite Hd|by autorewrite with zlen].
  f_equal. by apply from_to_le_i64.
Qed.

Lemma head_body_rel_encode : head_body_rel (h ++ rest) = Some body_rel.
Proof.
  unfold head_body_rel, h, encode_head. rewrite <- !app_assoc, (app_assoc digest).
  rewrite slice_field; [|by autorewrite with zlen; rewrite Hd|by autorewrite with zlen].
  f_equal. by apply from_to_le_u32.
Qed.

Lemma head_body_len_encode : head_body_len (h ++ rest) = Some body_len.
Proof.
  unfold head_body_len, h, encode_head.
  rewrite <- !app_assoc, (app_assoc digest), (app_assoc (_ ++ _)).
  rewrite slice_field; [|by autorewrite with zlen; rewrite Hd|by autorewrite with zlen].
  f_equal. by apply from_to_le_u32.
Qed.

Lemma head_id_encode :
  utf8_valid (bytes_of id) = true → head_id (h ++ rest) = Some id.
Proof.
  intros Hu. unfold head_id. rewrite head_tail, read_write_varint by apply id_len_u64.
  pose proof (write_varint_len (zlength (bytes_of id))).
  pose proof (zlength_nonneg (bytes_of id)).
  change HEAD_ID_OFFSET with 48.
  rewrite (proj2 (Z.leb_gt two64 _)) by width_lia.
  rewrite head_fixed, <- app_assoc, app_assoc, <- app_assoc.
  rewrite <- !app_assoc, (app_assoc fixed).
  rewrite slice_field.
  - unfold from_utf8. by rewrite Hu, string_of_bytes_of.
  - rewrite zlength_app, zlength_fixed. done.
  - lia.
Qed.

Lemma relink_encode new_rel : relink_head h new_rel = encode_head id digest rv new_rel body_len.
Proof.
  unfold relink_head, h, encode_head. set (tl := write_varint _ ++ bytes_of id).
  replace (digest ++ to_le_i64 rv ++ to_le_u32 body_rel ++ to_le_u32 body_len ++ tl)
    with (((digest ++ to_le_i64 rv) ++ to_le_u32 body_rel) ++ to_le_u32 body_len ++ tl)
    by (by rewrite <- !app_assoc).
  rewrite (drop_zlength (_ ++ to_le_u32 body_rel)) by (autorewrite with zlen; by rewrite Hd).
  rewrite <- (app_assoc (_ ++ to_le_i64 rv)).
  rewrite take_zlength by (autorewrite with zlen; by rewrite Hd).
  by rewrite <- !app_assoc.
Qed.
End head.

(** * The row encoding against its format

    [encodes d v bs] is the byte format as a relation: [bs] is one encoding of
    [v] under the dictionary [d]. The encoder of RowCodec.v produces it, and
    every reader (skip, decode, field lookup) agrees with it. *)

Local Open Scope Z_scope.

(** ** Dictionaries *)

Record dict_wf (d : FieldDict) : Prop := {
  dict_ids : ∀ n i, fd_ids d !! n = Some i ↔ 0 <= i ∧ FieldDict.name d i = Some n;
  dict_small : FieldDict.len d <= two32;
}.

(** The dictionary only grows. *)
Definition dict_le (d d' : FieldDict) : Prop := fd_names d `prefix_of` fd_names d'.

#[global] Instance dict_le_preorder : PreOrder dict_le.
Proof. split; red; unfold dict_le; intros; [done|]. by etrans. Qed.

Lemma dict_le_len d d' : dict_le d d' → FieldDict.len d <= FieldDict.len d'.
Proof.
  intros [k Hk]. unfold FieldDict.len. rewrite Hk, zlength_app. pose proof (zlength_nonneg k). lia.
Qed.

Lemma zlookup_Some_iff {A} (l : list A) i x :
  0 <= i → zlookup l i = Some x ↔ l !! Z.to_nat i = Some x.
Proof. intros. by rewrite zlookup_spec. Qed.

Lemma dict_le_id_of d d' n i :
  dict_wf d → dict_wf d' → dict_le d d' →
  FieldDict.id_of d n = Some i → FieldDict.id_of d' n = Some i.
Proof.
  unfold FieldDict.id_of. intros Hd Hd' Hle [Hi Hn]%(dict_ids _ Hd).
  apply (dict_ids _ Hd'). split; [done|]. unfold FieldDict.name in *.
  rewrite zlookup_spec in * by done. by eapply prefix_lookup_Some.
Qed.

Lemma dict_id_bound d n i : dict_wf d → FieldDict.id_of d n = Some i → 0 <= i < two32.
Proof.
  intros Hd [Hi Hn]%(dict_ids _ Hd). unfold FieldDict.name in Hn.
  rewrite zlookup_spec in Hn by done. apply lookup_lt_Some in Hn.
  pose proof (dict_small _ Hd). unfold FieldDict.len, zlength in *. lia.
Qed.

Lemma dict_id_inj d n n' i :
  dict_wf d → FieldDict.id_of d n = Some i → FieldDict.id_of d n' = Some i → n = n'.
Proof.
  intros Hd [_ H1]%(dict_ids _ Hd) [_ H2]%(dict_ids _ Hd). congruence.
Qed.

Lemma dict_new_wf : dict_wf FieldDict.new.
Proof.
  split; [|done]. intros n i. unfold FieldDict.name. simpl. rewrite lookup_empty.
  split; [done|]. intros [Hi H]. rewrite zlookup_spec in H by done. done.
Qed.

Lemma intern_le d n : dict_le d (FieldDict.intern d n).2.
Proof.
  unfold FieldDict.intern, dict_le. destruct (fd_ids d !! n); simpl; [done|].
  by apply prefix_app_r.
Qed.

Lemma intern_spec d n id d' :
  FieldDict.intern d n = (id, d') → dict_wf d → FieldDict.len d' <= two32 →
  dict_wf d' ∧ FieldDict.id_of d' n = Some id.
Proof.
  unfold FieldDict.intern, FieldDict.id_of. intros Hi Hd Hl.
  destruct (fd_ids d !! n) as [i|] eqn:En; [naive_solver|].
  injection Hi as <- <-. unfold FieldDict.len in Hl. cbn [fd_names] in Hl.
  rewrite zlength_app in Hl. change (zlength [n]) with 1 in Hl.
  pose proof (zlength_nonneg (fd_names d)) as H0.
  assert (wrap_u32 (zlength (fd_names d)) = zlength (fd_names d)) as Hw.
  { apply Z.mod_small. lia. }
  split; [|cbn [fd_ids]; by rewrite lookup_insert_eq]. rewrite Hw. split.
  - intros m i. unfold FieldDict.name. cbn [fd_names fd_ids].
    destruct (decide (m = n)) as [->|Hne].
    + rewrite lookup_insert_eq. split.
      * intros [= <-]. split; [done|]. rewrite zlookup_spec by done.
        apply lookup_app_Some. right. unfold zlength. by rewrite Nat2Z.id, Nat.sub_diag.
      * intros [Hi Hn]. rewrite zlookup_spec in Hn by done.
        apply lookup_app_Some in Hn as [Hn|[Hn1 Hn2]].
        -- exfalso. assert (fd_ids d !! n = Some i); [|congruence].
           apply (dict_ids _ Hd). split; [done|]. unfold FieldDict.name.
           by rewrite zlookup_spec.
        -- apply list_lookup_singleton_Some in Hn2 as [? _]. f_equal. unfold zlength. lia.
    + rewrite lookup_insert_ne by done. rewrite (dict_ids _ Hd). unfold FieldDict.name.
      split; intros [Hi Hn]; (split; [done|]); rewrite zlookup_spec in * by done.
      * by apply lookup_app_l_Some.
      * apply lookup_app_Some in Hn as [Hn|[_ Hn]]; [done|].
        apply list_lookup_singleton_Some in Hn as [_ ?]. congruence.
  - unfold FieldDict.len. cbn [fd_names]. rewrite zlength_app. done.
Qed.

(** ** The format *)

(** The entry table: ids with the offset of their value in the region. *)
Fixpoint entry_table (base : Z) (entries : list (Z * list Z)) : list Z :=
  match entries with
  | [] => []
  | (id, bs) :: entries =>
      to_le_u32 id ++ to_le_u32 base ++ entry_table (base + zlength bs) entries
  end.

Inductive encodes (d : FieldDict) : Sp00kyValue → list Z → Prop :=
  | e_null : encodes d Null [TAG_NULL]
  | e_false : encodes d (Bool false) [TAG_FALSE]
  | e_true : encodes d (Bool true) [TAG_TRUE]
  | e_int i : encodes d (Int i) (TAG_INT :: to_le_i64 i)
  | e_float f : encodes d (Float f) (TAG_FLOAT :: to_le_u64 (f64_bits f))
  | e_str s : encodes d (Str s) (TAG_STR :: write_varint (zlength (bytes_of s)) ++ bytes_of s)
  | e_array items bss : Forall2 (encodes d) items bss →
      encodes d (Array items) (TAG_ARR :: write_varint (zlength items) ++ concat bss)
  | e_object m es (ids : list (Z * list Z)) : m ≡ₚ es →
      Forall2 (λ e i, FieldDict.id_of d e.1 = Some i.1 ∧ encodes d e.2 i.2) es ids →
      StronglySorted Z.lt ids.*1 →
      encodes d (Object m)
        (TAG_OBJ :: write_varint (zlength m) ++ entry_table 0 ids ++ concat ids.*2).

Lemma Forall2_impl_l {A B} (P Q : A → B → Prop) l k :
  Forall2 P l k → Forall (λ x, ∀ y, P x y → Q x y) l → Forall2 Q l k.
Proof. induction 1; inversion 1; subst; constructor; auto. Qed.

Lemma encodes_mono d d' v bs :
  dict_wf d → dict_wf d' → dict_le d d' → encodes d v bs → encodes d' v bs.
Proof.
  intros Hd Hd' Hle. revert bs. induction v using value_ind'; intros bs He;
    inversion He as [| | | | | |? ? Hl|? ? ? Hp Hf]; subst; econstructor.
  - by eapply Forall2_impl_l.
  - done.
  - eapply Forall2_impl_l; [done|]. rewrite <- Hp. eapply Forall_impl; [done|].
    simpl. intros e IH i [Hid He']. eauto using dict_le_id_of.
  - done.
Qed.

Lemma encodes_nonempty d v bs : encodes d v bs → 1 <= zlength bs.
Proof.
  assert (∀ l : list Z, 0 <= zlength l) as H0 by (intros; apply zlength_nonneg).
  inversion 1; subst; rewrite zlength_cons; match goal with |- _ <= 1 + zlength ?l =>
    specialize (H0 l) end; lia.
Qed.

(** ** The encoder produces the format *)

Definition enc_ext (enc : encoder) : Prop := ∀ d, dict_le d (enc d).2.

Definition enc_ok (enc : encoder) (R : FieldDict → list Z → Prop) : Prop :=
  ∀ d bs d', enc d = (bs, d') → dict_wf d → FieldDict.len d' <= two32 →
    dict_wf d' ∧ R d' bs.

Lemma encode_seq_ext encs : Forall enc_ext encs → enc_ext (encode_seq encs).
Proof.
  unfold enc_ext. induction 1 as [|enc encs He _ IH]; intros d; simpl; [done|].
  specialize (He d). destruct (enc d) as [bs d1]. specialize (IH d1).
  destruct (encode_seq encs d1) as [rest d2]. simpl in *. by etrans.
Qed.

Lemma intern_entries_ext {A} (m : list (string * A)) d : dict_le d (intern_entries m d).2.
Proof.
  revert d. induction m as [|[n a] m IH]; intros d; simpl; [done|].
  pose proof (intern_le d n). destruct (FieldDict.intern d n) as [id d1].
  specialize (IH d1). destruct (intern_entries m d1). simpl in *. by etrans.
Qed.

Lemma encode_entries_ext entries base d :
  Forall (λ e, enc_ext e.2) entries → dict_le d (encode_entries entries base d).2.
Proof.
  intros H. revert base d. induction H as [|[id enc] entries He _ IH]; intros base d; simpl; [done|].
  specialize (He d). simpl in He. destruct (enc d) as [bs d1].
  specialize (IH (base + zlength bs) d1).
  destruct (encode_entries entries _ d1) as [[? ?] ?]. simpl in *. by etrans.
Qed.

Lemma intern_entries_Forall {A} (P : A → Prop) (m : list (string * A)) d :
  Forall (λ e, P e.2) m → Forall (λ e, P e.2) (intern_entries m d).1.
Proof.
  intros H. revert d. induction H as [|[n a] m Ha _ IH]; intros d; simpl; [constructor|].
  destruct (FieldDict.intern d n) as [id d1]. specialize (IH d1).
  destruct (intern_entries m d1). by constructor.
Qed.

Lemma sort_entries_Forall {A} (P : Z * A → Prop) l : Forall P l → Forall P (sort_entries l).
Proof. intros H. unfold sort_entries. by rewrite merge_sort_Permutation. Qed.

(** The loop over the entries of an object. *)
Lemma encode_value_ext v : enc_ext (encode_value v).
Proof.
  induction v using value_ind'; intros d; simpl; try done.
  - by destruct b.
  - assert (enc_ext (encode_seq (map encode_value l))) as He.
    { apply encode_seq_ext. rewrite Forall_map. done. }
    specialize (He d). by destruct (encode_seq _ d).
  - set (m' := map _ m).
    assert (Forall (λ e, enc_ext e.2) m') as Hm.
    { unfold m'. rewrite Forall_map. eapply Forall_impl; [done|]. by intros []. }
    pose proof (intern_entries_ext m' d) as H1.
    pose proof (intern_entries_Forall _ m' d Hm) as H2.
    destruct (intern_entries m' d) as [entries d1]. simpl in *.
    pose proof (encode_entries_ext (sort_entries entries) 0 d1) as H3.
    destruct (encode_entries _ _ d1) as [[? ?] ?]. simpl in *. etrans; [done|].
    by apply H3, sort_entries_Forall.
Qed.

Definition value_ok (v : Sp00kyValue) : Prop :=
  value_wf v → enc_ok (encode_value v) (λ d bs, encodes d v bs).

Lemma encode_seq_ok l d bs d' :
  Forall value_ok l → Forall value_wf l →
  encode_seq (map encode_value l) d = (bs, d') → dict_wf d → FieldDict.len d' <= two32 →
  dict_wf d' ∧ ∃ bss, bs = concat bss ∧ Forall2 (encodes d') l bss.
Proof.
  intros H. revert d bs d'. induction H as [|v l Hv _ IH]; intros d bs d' Hw He Hd Hl; simpl in He.
  - injection He as <- <-. split; [done|]. by exists [].
  - apply Forall_cons_1 in Hw as [Hwv Hwl].
    destruct (encode_value v d) as [b1 d1] eqn:E1.
    pose proof (encode_seq_ext (map encode_value l)) as Hx. unfold enc_ext in Hx.
    specialize (Hx ltac:(rewrite Forall_map; apply Forall_true, encode_value_ext) d1).
    destruct (encode_seq _ d1) as [b2 d2] eqn:E2. injection He as <- <-. simpl in Hx.
    destruct (Hv Hwv d b1 d1 E1 Hd) as [Hd1 He1].
    { etrans; [by apply dict_le_len|done]. }
    destruct (IH d1 b2 d2 Hwl E2 Hd1 Hl) as [Hd2 (bss & -> & Hf)].
    split; [done|]. exists (b1 :: bss). split; [done|]. constructor; [|done].
    by apply (encodes_mono d1).
Qed.

Lemma intern_entries_ok {A} (m : list (string * A)) d entries d' :
  intern_entries m d = (entries, d') → dict_wf d → FieldDict.len d' <= two32 →
  dict_wf d' ∧
  Forall2 (λ e en, FieldDict.id_of d' e.1 = Some en.1 ∧ en.2 = e.2) m entries.
Proof.
  revert d entries d'. induction m as [|[n a] m IH]; intros d entries d' He Hd Hl; simpl in He.
  - injection He as <- <-. by split.
  - destruct (FieldDict.intern d n) as [id d1] eqn:E1.
    pose proof (intern_entries_ext m d1) as Hx.
    destruct (intern_entries m d1) as [es d2] eqn:E2. injection He as <- <-. simpl in Hx.
    destruct (intern_spec d n id d1 E1 Hd) as [Hd1 Hn].
    { etrans; [by apply dict_le_len|done]. }
    destruct (IH d1 es d2 E2 Hd1 Hl) as [Hd2 Hf]. split; [done|].
    constructor; [|done]. split; [|done]. by apply (dict_le_id_of d1).
Qed.

Lemma encode_entries_ok es entries base d table values d' :
  Forall (λ e, value_ok e.2 ∧ value_wf e.2) es →
  Forall2 (λ e en, FieldDict.id_of d e.1 = Some en.1 ∧ en.2 = encode_value e.2) es entries →
  encode_entries entries base d = (table, values, d') →
  dict_wf d → FieldDict.len d' <= two32 →
  dict_wf d' ∧ ∃ ids, table = entry_table base ids ∧ values = concat ids.*2 ∧
    ids.*1 = entries.*1 ∧
    Forall2 (λ e i, FieldDict.id_of d' e.1 = Some i.1 ∧ encodes d' e.2 i.2) es ids.
Proof.
  revert entries base d table values d'.
  induction es as [|[n v] es IH]; intros entries base d table values d' Hok Hf He Hd Hl.
  - apply Forall2_nil_inv_l in Hf as ->. simpl in He. injection He as <- <- <-.
    split; [done|]. by exists [].
  - apply Forall2_cons_inv_l in Hf as ([id enc] & entries' & [Hid Henc] & Hf & ->).
    cbn [fst snd encode_entries] in *. subst enc. apply Forall_cons_1 in Hok as [[Hv Hw] Hok].
    destruct (encode_value v d) as [b1 d1] eqn:E1.
    assert (Forall (λ e, enc_ext e.2) entries') as Hx'.
    { eapply Forall2_Forall_r; [done|]. apply Forall_true.
      intros e en [_ ->]. apply encode_value_ext. }
    pose proof (encode_entries_ext entries' (base + zlength b1) d1 Hx') as Hx.
    pose proof (encode_value_ext v d) as Hx1. rewrite E1 in Hx1. simpl in Hx1.
    destruct (encode_entries entries' _ d1) as [[t2 v2] d2] eqn:E2.
    injection He as <- <- <-. simpl in Hx.
    destruct (Hv Hw d b1 d1 E1 Hd) as [Hd1 He1].
    { etrans; [by apply dict_le_len|done]. }
    assert (Forall2 (λ e en, FieldDict.id_of d1 e.1 = Some en.1 ∧ en.2 = encode_value e.2)
      es entries') as Hf1.
    { eapply Forall2_impl; [done|]. intros e en [? ?]. split; [|done].
      by eapply (dict_le_id_of d). }
    destruct (IH _ _ _ _ _ _ Hok Hf1 E2 Hd1 Hl) as [Hd2 (ids & -> & -> & Hk & Hf2)].
    split; [done|]. exists ((id, b1) :: ids). split_and!; [done|done|simpl; by f_equal|].
    constructor; [|done]. split.
    + apply (dict_le_id_of d1); [done..|]. by apply (dict_le_id_of d).
    + by apply (encodes_mono d1).
Qed.

Lemma Forall2_perm_r {A B} (P : A → B → Prop) l k k' :
  Forall2 P l k → k ≡ₚ k' → ∃ l', l ≡ₚ l' ∧ Forall2 P l' k'.
Proof.
  intros Hf Hp. revert l Hf. induction Hp as [|x k k' Hp IH|x y k|k k2 k3 H1 IH1 H2 IH2]; intros l Hf.
  - exists l. by apply Forall2_nil_inv_r in Hf as ->.
  - apply Forall2_cons_inv_r in Hf as (a & l' & Ha & Hf & ->).
    destruct (IH _ Hf) as (l2 & ? & ?). exists (a :: l2). split; [by constructor|by constructor].
  - apply Forall2_cons_inv_r in Hf as (a & l' & Ha & Hf & ->).
    apply Forall2_cons_inv_r in Hf as (b & l2 & Hb & Hf & ->).
    exists (b :: a :: l2). split; [constructor|]. by repeat constructor.
  - destruct (IH1 _ Hf) as (l2 & ? & Hf2). destruct (IH2 _ Hf2) as (l3 & ? & ?).
    exists l3. split; [by etrans|done].
Qed.

(** Distinct names have distinct ids, so the sorted ids grow strictly. *)
Lemma sorted_ids_strict {A} d (es : list (string * A)) (ids : list Z) :
  dict_wf d → NoDup es.*1 →
  Forall2 (λ e i, FieldDict.id_of d e.1 = Some i) es ids →
  StronglySorted Z.le ids → StronglySorted Z.lt ids.
Proof.
  intros Hd Hn Hf. induction Hf as [|e i es ids He Hf IH]; intros Hs; [constructor|].
  apply NoDup_cons in Hn as [Hn1 Hn2]. inversion Hs as [|? ? Hs1 Hs2]; subst.
  constructor; [auto|]. rewrite Forall_forall in Hs2 |- *. intros j Hj.
  specialize (Hs2 j Hj). assert (i ≠ j); [|lia]. intros <-. apply Hn1.
  apply list_elem_of_lookup in Hj as [k Hk].
  destruct (Forall2_lookup_r _ _ _ _ _ Hf Hk) as (e' & He' & Hid).
  rewrite (dict_id_inj d e.1 e'.1 i) by done.
  apply (list_elem_of_fmap_2 fst es e'). by eapply list_elem_of_lookup_2.
Qed.

Lemma sort_entries_sorted {A} (l : list (Z * A)) :
  StronglySorted Z.le (sort_entries l).*1.
Proof.
  assert (StronglySorted by_id (sort_entries l)) as H.
  { apply StronglySorted_merge_sort.
    - intros x y z. unfold by_id. lia.
    - intros x y. unfold by_id. lia. }
  induction H as [|e k H IH Hk]; simpl; [constructor|].
  constructor; [done|]. by rewrite Forall_fmap.
Qed.

Lemma encode_value_ok v : value_ok v.
Proof.
  induction v using value_ind'; intros Hw d bs d' He Hd Hl; simpl in He;
    try (injection He as <- <-; split; [done|constructor]).
  - destruct b; injection He as <- <-; (split; [done|constructor]).
  - destruct (encode_seq _ d) as [b1 d1] eqn:E. injection He as <- <-.
    inversion Hw; subst.
    destruct (encode_seq_ok l d b1 d1) as [Hd1 (bss & -> & Hf)]; try done.
    split; [done|]. by constructor.
  - inversion Hw as [| | | | | |? Hn Hwm]; subst. set (m' := map _ m) in He.
    pose proof (intern_entries_Forall (λ enc, enc_ext enc) m' d) as Hx.
    destruct (intern_entries m' d) as [entries d1] eqn:E1. simpl in Hx.
    assert (Forall (λ e, enc_ext e.2) (sort_entries entries)) as Hxs.
    { apply sort_entries_Forall, Hx. unfold m'. rewrite Forall_map. apply Forall_true.
      intros []. apply encode_value_ext. }
    pose proof (encode_entries_ext _ 0 d1 Hxs) as Hx2.
    destruct (encode_entries _ _ d1) as [[table values] d2] eqn:E2.
    injection He as <- <-. simpl in Hx2.
    destruct (intern_entries_ok _ _ _ _ E1 Hd) as [Hd1 Hf1].
    { etrans; [by apply dict_le_len|done]. }
    assert (Forall2 (λ e en, FieldDict.id_of d1 e.1 = Some en.1 ∧ en.2 = encode_value e.2)
      m entries) as Hf.
    { clear -Hf1. unfold m' in Hf1. revert entries Hf1.
      induction m as [|[n v] m IH]; intros entries Hf1; simpl in Hf1.
      - apply Forall2_nil_inv_l in Hf1 as ->. constructor.
      - apply Forall2_cons_inv_l in Hf1 as (? & ? & ? & ? & ->). constructor; auto. }
    destruct (Forall2_perm_r _ _ _ (sort_entries entries) Hf) as (es & Hp & Hfs).
    { unfold sort_entries. by rewrite merge_sort_Permutation. }
    assert (Forall (λ e, value_ok e.2 ∧ value_wf e.2) es) as Hok.
    { rewrite <- Hp. apply Forall_and. done. }
    destruct (encode_entries_ok es _ _ _ _ _ _ Hok Hfs E2 Hd1 Hl)
      as [Hd2 (ids & -> & -> & Hk & Hfi)].
    split; [done|]. econstructor; [exact Hp|done|].
    eapply (sorted_ids_strict d2 es); [done| | |].
    + by rewrite <- Hp.
    + apply Forall2_fmap_r. eapply Forall2_impl; [done|]. by intros ? ? [? ?].
    + rewrite Hk. apply sort_entries_sorted.
Qed.

(** ** Skipping: [value_len] *)

Lemma skip_values_ok vl bss pre rest n count at_ :
  count = zlength bss → at_ = zlength pre →
  Forall (λ bs, ∀ r, vl (bs ++ r) = Some (zlength bs)) bss →
  (length bss <= n)%nat → zlength pre + zlength (concat bss) < two64 →
  skip_values vl (pre ++ concat bss ++ rest) n count at_ =
    Some (zlength pre + zlength (concat bss)).
Proof.
  intros -> -> H. revert pre n. induction H as [|bs bss Hb _ IH]; intros pre n Hn Hs.
  - destruct n; simpl; f_equal; unfold zlength; simpl; lia.
  - destruct n as [|n]; [simpl in Hn; lia|]. cbn [skip_values concat].
    pose proof (zlength_nonneg bss). pose proof (zlength_nonneg pre).
    pose proof (zlength_nonneg bs). pose proof (zlength_nonneg (concat bss)).
    cbn [concat] in Hs. rewrite zlength_app in Hs. rewrite zlength_cons.
    rewrite (proj2 (Z.eqb_neq _ 0)) by lia.
    rewrite (slice_from_app pre) by done. rewrite <- app_assoc, Hb.
    unfold wrap_u64. rewrite Z.mod_small by lia.
    replace (1 + zlength bss - 1) with (zlength bss) by lia.
    rewrite (app_assoc pre), <- zlength_app.
    rewrite IH; [|simpl in Hn; lia|rewrite zlength_app; lia].
    rewrite !zlength_app. f_equal. lia.
Qed.

(** Each encoded value takes at least a byte. *)
Lemma count_le_concat {A} (R : A → list Z → Prop) l bss :
  (∀ a bs, R a bs → 1 <= zlength bs) → Forall2 R l bss →
  zlength l = zlength bss ∧ zlength bss <= zlength (concat bss).
Proof.
  intros HR Hf. induction Hf as [|a bs l bss Ha _ [IH1 IH2]]; [done|].
  apply HR in Ha. cbn [concat]. rewrite !zlength_cons, zlength_app. lia.
Qed.

Lemma zlength_entry_table base ids : zlength (entry_table base ids) = 8 * zlength ids.
Proof.
  revert base. induction ids as [|[id bs] ids IH]; intros base; [done|].
  cbn [entry_table]. autorewrite with zlen. rewrite IH. lia.
Qed.

Lemma entry_table_app base l k :
  entry_table base (l ++ k) =
    entry_table base l ++ entry_table (base + zlength (concat l.*2)) k.
Proof.
  revert base. induction l as [|[id bs] l IH]; intros base; cbn [app entry_table].
  - simpl. by rewrite Z.add_0_r.
  - rewrite IH, !fmap_cons. cbn [concat snd]. rewrite zlength_app, Z.add_assoc.
    by rewrite <- !app_assoc.
Qed.

Lemma elem_concat_le (bs : list Z) bss : bs ∈ bss → zlength bs <= zlength (concat bss).
Proof.
  induction bss as [|b bss IH]; [set_solver|]. cbn [concat]. rewrite zlength_app.
  pose proof (zlength_nonneg b). pose proof (zlength_nonneg (concat bss)).
  intros [->|Hb]%elem_of_cons; [lia|]. specialize (IH Hb). lia.
Qed.

Lemma zlength_length {A} (l : list A) : Z.to_nat (zlength l) = length l.
Proof. unfold zlength. lia. Qed.

(** A value nested in another is shorter than it. *)
Lemma nested_shorter (bs : list Z) bss (whole : list Z) fuel :
  bs ∈ bss → 1 + zlength (concat bss) <= zlength whole →
  (length whole < S fuel)%nat → zlength whole < two32 →
  (length bs < fuel)%nat ∧ zlength bs < two32.
Proof. intros H%elem_concat_le. unfold zlength in *. lia. Qed.

Lemma Forall2_elem_r {A B} (P : A → B → Prop) l k y :
  Forall2 P l k → y ∈ k → ∃ x, x ∈ l ∧ P x y.
Proof. induction 1; set_solver. Qed.

(** The branches of [value_len] that loop, by tag. *)
Lemma value_len_str f b : value_len (S f) (TAG_STR :: b) =
  let? (len, n) := read_varint b in Some (wrap_u64 (1 + n + len)).
Proof. done. Qed.
Lemma value_len_arr f b : value_len (S f) (TAG_ARR :: b) =
  let? (count, n) := read_varint b in
  skip_values (value_len f) (TAG_ARR :: b) (S (length (TAG_ARR :: b))) count (1 + n).
Proof. done. Qed.
Lemma value_len_obj f b : value_len (S f) (TAG_OBJ :: b) =
  let? (count, n) := read_varint b in
  skip_values (value_len f) (TAG_OBJ :: b) (S (length (TAG_OBJ :: b))) count
    (wrap_u64 (1 + n + count * 8)).
Proof. done. Qed.

Lemma value_len_encodes v d bs rest fuel :
  encodes d v bs → (length bs < fuel)%nat → zlength bs < two32 →
  value_len fuel (bs ++ rest) = Some (zlength bs).
Proof.
  revert bs rest fuel. induction v using value_ind'; intros bs rest fuel He Hf Hs;
    (destruct fuel as [|fuel]; [lia|]); inversion He as [| | | | |? Hu|? bss Hl|? es ids Hp Hfi Hst];
    subst; try done.
  - cbn [app]. rewrite value_len_str.
    rewrite zlength_cons, zlength_app in *. pose proof (zlength_nonneg (bytes_of s)).
    pose proof (write_varint_len (zlength (bytes_of s))).
    rewrite <- app_assoc, read_write_varint by width_lia.
    f_equal. unfold wrap_u64. rewrite Z.mod_small; width_lia.
  - cbn [app]. rewrite value_len_arr.
    destruct (count_le_concat _ _ _ (encodes_nonempty d) Hl) as [Hc1 Hc2].
    pose proof (zlength_nonneg bss). pose proof (write_varint_len (zlength l)).
    pose proof Hs as Hs'. rewrite zlength_cons, zlength_app in Hs'.
    rewrite <- app_assoc, read_write_varint by width_lia.
    rewrite app_comm_cons, skip_values_ok; [|done|by rewrite zlength_cons|..].
    + rewrite <- zlength_app. by rewrite app_comm_cons.
    + rewrite Forall_forall. intros b Hb r.
      destruct (Forall2_elem_r _ _ _ _ Hl Hb) as (x & Hx & Hex).
      rewrite Forall_forall in H. eapply nested_shorter in Hb as [? ?]; [|..|exact Hf|exact Hs]; [eauto|].
      rewrite zlength_cons, zlength_app. lia.
    + unfold zlength in *. rewrite length_app. cbn [length]. rewrite length_app. lia.
    + rewrite zlength_cons. unfold two64, two32 in *. lia.
  - cbn [app]. rewrite value_len_obj.
    assert (Forall2 (encodes d) es.*2 ids.*2) as Hl.
    { rewrite Forall2_fmap. eapply Forall2_impl; [done|]. by intros ? ? [? ?]. }
    destruct (count_le_concat _ _ _ (encodes_nonempty d) Hl) as [Hc1 Hc2].
    assert (zlength m = zlength ids.*2) as Hm.
    { rewrite <- Hc1. unfold zlength. by rewrite length_fmap, Hp. }
    assert (zlength ids.*2 = zlength ids) as Hi by (unfold zlength; by rewrite length_fmap).
    pose proof (zlength_nonneg ids). pose proof (write_varint_len (zlength m)).
    pose proof Hs as Hs'. rewrite zlength_cons, !zlength_app, zlength_entry_table in Hs'.
    rewrite <- !app_assoc, read_write_varint by width_lia.
    rewrite app_comm_cons, (app_assoc (_ :: _)).
    assert (wrap_u64 (1 + zlength (write_varint (zlength m)) + zlength m * 8) =
      zlength ((TAG_OBJ :: write_varint (zlength m)) ++ entry_table 0 ids)) as Hw.
    { unfold wrap_u64. rewrite zlength_app, zlength_cons, zlength_entry_table.
      rewrite Z.mod_small; width_lia. }
    rewrite skip_values_ok; [|done|done|..].
    + rewrite <- zlength_app. by rewrite <- app_assoc, app_comm_cons.
    + rewrite Forall_forall. intros b Hb r.
      destruct (Forall2_elem_r _ _ _ _ Hl Hb) as (x & Hx & Hex).
      apply list_elem_of_fmap in Hx as (e & -> & Hx).
      rewrite <- Hp in Hx. rewrite Forall_forall in H.
      eapply nested_shorter in Hb as [? ?]; [|..|exact Hf|exact Hs]; [eauto|].
      rewrite zlength_cons, !zlength_app. pose proof (zlength_nonneg (entry_table 0 ids)). lia.
    + unfold zlength in *. rewrite !length_app. cbn [length]. lia.
    + rewrite zlength_app, zlength_cons, zlength_entry_table. unfold two64, two32 in *. lia.
Qed.

(** ** The parts of an encoded object *)

Definition obj_bytes (ids : list (Z * list Z)) : list Z :=
  TAG_OBJ :: write_varint (zlength ids) ++ entry_table 0 ids ++ concat ids.*2.

Lemma obj_parts_ok ids rest :
  zlength (obj_bytes ids) < two32 →
  obj_parts (obj_bytes ids ++ rest) =
    Some (MkObjParts (entry_table 0 ids) (concat ids.*2 ++ rest) (zlength ids)).
Proof.
  unfold obj_bytes, obj_parts. intros Hs. cbn [app head tail].
  change (negb (TAG_OBJ =? TAG_OBJ)) with false. cbn iota.
  rewrite zlength_cons, !zlength_app, zlength_entry_table in Hs.
  pose proof (zlength_nonneg ids). pose proof (write_varint_len (zlength ids)).
  pose proof (zlength_nonneg (concat ids.*2)).
  rewrite <- app_assoc, read_write_varint by width_lia.
  assert (wrap_u64 (1 + zlength (write_varint (zlength ids)) + zlength ids * 8) =
    1 + zlength (write_varint (zlength ids)) + 8 * zlength ids) as ->.
  { unfold wrap_u64. rewrite Z.mod_small; width_lia. }
  rewrite <- app_assoc, app_comm_cons.
  rewrite slice_field; [|by rewrite zlength_cons|by rewrite zlength_entry_table].
  rewrite app_assoc, slice_from_app; [done|].
  by rewrite zlength_app, zlength_cons, zlength_entry_table.
Qed.

(** Entry [i] of the table, and where its value starts. *)
Lemma table_entry_ok (l k : list (Z * list Z)) id bs i :
  i = zlength l → zlength (entry_table 0 (l ++ (id, bs) :: k)) < two32 →
  let table := entry_table 0 (l ++ (id, bs) :: k) in
  slice (wrap_u64 (i * 8)) (wrap_u64 (wrap_u64 (i * 8) + 4)) table = Some (to_le_u32 id) ∧
  slice (wrap_u64 (wrap_u64 (i * 8) + 4)) (wrap_u64 (wrap_u64 (i * 8) + 8)) table =
    Some (to_le_u32 (zlength (concat l.*2))).
Proof.
  intros -> Hs. rewrite zlength_entry_table, zlength_app, zlength_cons in Hs.
  pose proof (zlength_nonneg l). pose proof (zlength_nonneg k).
  assert (wrap_u64 (zlength l * 8) = zlength l * 8) as Hw.
  { unfold wrap_u64. rewrite Z.mod_small; width_lia. }
  rewrite Hw. unfold wrap_u64. rewrite !(Z.mod_small (zlength l * 8 + _)) by width_lia.
  rewrite entry_table_app. cbn [entry_table]. rewrite Z.add_0_l. split.
  - apply slice_field; [|done]. rewrite zlength_entry_table. lia.
  - rewrite (app_assoc (entry_table 0 l)). apply slice_field.
    + rewrite zlength_app, zlength_entry_table, zlength_to_le_u32. lia.
    + rewrite zlength_to_le_u32. lia.
Qed.

Lemma concat_split {A} (l : list (Z * list A)) id bs k :
  concat (l ++ (id, bs) :: k).*2 = concat l.*2 ++ bs ++ concat k.*2.
Proof. rewrite fmap_app, fmap_cons, concat_app. done. Qed.

(** Reading the offset of an entry leads to its value. *)
Lemma value_at_ok (l k : list (Z * list Z)) id bs rest :
  zlength (concat l.*2) < two32 →
  slice_from (le_combine (to_le_u32 (zlength (concat l.*2))))
    (concat (l ++ (id, bs) :: k).*2 ++ rest) = Some (bs ++ concat k.*2 ++ rest).
Proof.
  intros Hs. rewrite from_to_le_u32 by (split; [apply zlength_nonneg|done]).
  rewrite concat_split, <- !app_assoc. by apply slice_from_app.
Qed.

Lemma obj_bytes_sizes (l k : list (Z * list Z)) id bs :
  zlength (obj_bytes (l ++ (id, bs) :: k)) < two32 →
  zlength (entry_table 0 (l ++ (id, bs) :: k)) < two32 ∧ zlength (concat l.*2) < two32 ∧
  zlength (l ++ (id, bs) :: k) < two32 ∧ 1 + zlength bs <= zlength (obj_bytes (l ++ (id, bs) :: k)).
Proof.
  unfold obj_bytes. rewrite zlength_cons, !zlength_app, concat_split, !zlength_app,
    zlength_entry_table, zlength_app, zlength_cons.
  pose proof (zlength_nonneg l). pose proof (zlength_nonneg k).
  pose proof (zlength_nonneg (concat l.*2)). pose proof (zlength_nonneg (concat k.*2)).
  pose proof (write_varint_len (zlength l + (1 + zlength k))). pose proof (zlength_nonneg bs).
  lia.
Qed.

Lemma obj_entry_at_ok (l k : list (Z * list Z)) id bs rest :
  0 <= id < two32 → zlength (obj_bytes (l ++ (id, bs) :: k)) < two32 →
  obj_entry_at (obj_bytes (l ++ (id, bs) :: k) ++ rest) (zlength l) =
    Some (id, bs ++ concat k.*2 ++ rest).
Proof.
  intros Hid Hs. destruct (obj_bytes_sizes _ _ _ _ Hs) as (Ht & Hc & _ & _).
  unfold obj_entry_at. rewrite obj_parts_ok by done. cbn [op_count op_table op_values].
  rewrite zlength_app, zlength_cons.
  pose proof (zlength_nonneg k). rewrite (proj2 (Z.leb_gt _ _)) by lia.
  destruct (table_entry_ok l k id bs (zlength l) eq_refl Ht) as [H1 H2].
  rewrite H1, H2, value_at_ok, from_to_le_u32 by done. done.
Qed.

(** ** Decoding *)

Lemma decode_items_ok dec vl pre bss vs rest n :
  Forall2 (λ bs v, ∀ r, dec (bs ++ r) = Some v ∧ vl (bs ++ r) = Some (zlength bs)) bss vs →
  (length bss <= n)%nat → zlength pre + zlength (concat bss) < two64 →
  decode_items dec vl (pre ++ concat bss ++ rest) n (zlength bss) (zlength pre) = Some vs.
Proof.
  intros H. revert pre n. induction H as [|bs v bss vs Hb _ IH]; intros pre n Hn Hs.
  - by destruct n.
  - destruct n as [|n]; [simpl in Hn; lia|]. cbn [decode_items concat].
    pose proof (zlength_nonneg bss). pose proof (zlength_nonneg pre).
    pose proof (zlength_nonneg bs). pose proof (zlength_nonneg (concat bss)).
    cbn [concat] in Hs. rewrite zlength_app in Hs. rewrite zlength_cons.
    rewrite (proj2 (Z.eqb_neq _ 0)) by lia.
    rewrite (slice_from_app pre) by done. rewrite <- app_assoc.
    destruct (Hb (concat bss ++ rest)) as [-> ->].
    unfold wrap_u64. rewrite Z.mod_small by lia.
    replace (1 + zlength bss - 1) with (zlength bss) by lia.
    rewrite (app_assoc pre), <- zlength_app.
    rewrite IH; [done|simpl in Hn; lia|rewrite zlength_app; lia].
Qed.

Lemma decode_fields_ok dec d l k vs m rest n :
  zlength (obj_bytes (l ++ k)) < two32 →
  Forall2 (λ i e, 0 <= i.1 < two32 ∧ FieldDict.name d i.1 = Some e.1 ∧
    ∀ r, dec (i.2 ++ r) = Some e.2) k vs →
  NoDup (m ++ vs).*1 → (length k <= n)%nat →
  decode_fields dec d (obj_bytes (l ++ k) ++ rest) (zlength (l ++ k)) n (zlength l) m =
    Some (m ++ vs).
Proof.
  intros Hs Hf. revert l m n Hs. induction Hf as [|[id bs] [name v] k vs (Hid & Hname & Hv) Hf IH];
    intros l m n Hs Hnd Hn.
  - rewrite !app_nil_r. destruct n; cbn [decode_fields]; by rewrite Z.eqb_refl.
  - destruct n as [|n]; [simpl in Hn; lia|]. cbn [decode_fields].
    rewrite zlength_app at 1. rewrite zlength_cons. pose proof (zlength_nonneg k).
    rewrite (proj2 (Z.eqb_neq _ _)) by lia.
    rewrite obj_entry_at_ok by done. cbn [fst snd] in *. rewrite Hname, Hv.
    assert (name ∉ m.*1) as Hfresh.
    { rewrite fmap_app in Hnd. apply NoDup_app in Hnd as (_ & Hnd & _).
      intros Hin. apply (Hnd _ Hin). simpl. set_solver. }
    rewrite assoc_insert_fresh by done.
    assert (l ++ (id, bs) :: k = (l ++ [(id, bs)]) ++ k) as Heq by (by rewrite <- app_assoc).
    rewrite Heq in *. replace (zlength l + 1) with (zlength (l ++ [(id, bs)])) by
      (by rewrite zlength_app).
    rewrite IH; [by rewrite <- app_assoc|done|by rewrite <- app_assoc|simpl in Hn; lia].
Qed.

Lemma decode_arr f d b : decode_fuel (S f) d (TAG_ARR :: b) =
  let? (count, rest) := arr_parts (TAG_ARR :: b) in
  let? vs := decode_items (decode_fuel f d) (value_len f) rest
               (S (length (TAG_ARR :: b))) count 0 in
  Some (Array vs).
Proof. done. Qed.
Lemma decode_obj f d b : decode_fuel (S f) d (TAG_OBJ :: b) =
  let? parts := obj_parts (TAG_OBJ :: b) in
  let? m := decode_fields (decode_fuel f d) d (TAG_OBJ :: b) (op_count parts)
              (S (length (TAG_OBJ :: b))) 0 [] in
  Some (Object m).
Proof. done. Qed.
Lemma decode_scalar8 f d b :
  decode_fuel (S f) d (TAG_INT :: b) =
    (let? bs := slice 1 9 (TAG_INT :: b) in Some (Int (from_le_i64 bs))) ∧
  decode_fuel (S f) d (TAG_FLOAT :: b) =
    (let? bs := slice 1 9 (TAG_FLOAT :: b) in Some (Float (F64 (le_combine bs)))) ∧
  decode_fuel (S f) d (TAG_STR :: b) =
    (let? s := str_bytes (TAG_STR :: b) in Some (Str s)).
Proof. done. Qed.

Lemma str_bytes_ok s rest :
  utf8_valid (bytes_of s) = true → zlength (bytes_of s) < two32 →
  str_bytes ((TAG_STR :: write_varint (zlength (bytes_of s)) ++ bytes_of s) ++ rest) = Some s.
Proof.
  intros Hu Hs. unfold str_bytes. cbn [app head tail].
  change (negb (TAG_STR =? TAG_STR)) with false. cbn iota.
  pose proof (zlength_nonneg (bytes_of s)). pose proof (write_varint_len (zlength (bytes_of s))).
  rewrite <- app_assoc, read_write_varint by width_lia.
  rewrite app_comm_cons. unfold wrap_u64. rewrite Z.mod_small by width_lia.
  rewrite slice_field; [|by rewrite zlength_cons|done].
  unfold from_utf8. by rewrite Hu, string_of_bytes_of.
Qed.

Lemma arr_parts_ok {A} (items : list A) b :
  zlength items < two32 →
  arr_parts (TAG_ARR :: write_varint (zlength items) ++ b) = Some (zlength items, b).
Proof.
  intros Hs. unfold arr_parts. cbn [head tail]. change (negb (TAG_ARR =? TAG_ARR)) with false.
  cbn iota. pose proof (zlength_nonneg items).
  rewrite read_write_varint by width_lia.
  rewrite app_comm_cons, slice_from_app; [done|]. by rewrite zlength_cons.
Qed.

(** Related lists, each pair having a common image. *)
Lemma Forall2_image {A B C} (R : A → B → Prop) (E : A → C → Prop) (D : B → C → Prop) l k :
  Forall2 R l k →
  (∀ a b, a ∈ l → b ∈ k → R a b → ∃ c, E a c ∧ D b c) →
  ∃ cs, Forall2 E l cs ∧ Forall2 D k cs.
Proof.
  induction 1 as [|a b l k Ha _ IH]; intros H.
  - exists []. by split.
  - destruct (H a b) as (c & ? & ?); [set_solver|set_solver|done|].
    destruct IH as (cs & ? & ?); [set_solver|]. exists (c :: cs). split; by constructor.
Qed.

Lemma slice_payload (tag : Z) payload rest :
  zlength payload = 8 → slice 1 9 ((tag :: payload) ++ rest) = Some payload.
Proof. intros Hp. apply (slice_field [tag]); [done|]. by rewrite Hp. Qed.

Lemma encoded_object d m bs :
  encodes d (Object m) bs → zlength bs < two32 →
  ∃ es ids, m ≡ₚ es ∧ bs = obj_bytes ids ∧ zlength m = zlength ids ∧
    Forall2 (λ e i, FieldDict.id_of d e.1 = Some i.1 ∧ encodes d e.2 i.2) es ids ∧
    StronglySorted Z.lt ids.*1.
Proof.
  inversion 1 as [| | | | | | |? es ids Hp Hf Hs]; subst. intros Hl. exists es, ids.
  assert (zlength m = zlength ids) as Hm.
  { unfold zlength. by rewrite Hp, (Forall2_length _ _ _ Hf). }
  split_and!; [done| |done|done|done]. unfold obj_bytes. by rewrite Hm.
Qed.

Lemma obj_bytes_content ids : 1 + zlength (concat ids.*2) <= zlength (obj_bytes ids).
Proof.
  unfold obj_bytes. rewrite zlength_cons, !zlength_app.
  pose proof (zlength_nonneg (entry_table 0 ids)). pose proof (write_varint_len (zlength ids)). lia.
Qed.

Lemma decode_encodes d v : dict_wf d → value_wf v → ∀ bs fuel,
  encodes d v bs → (length bs < fuel)%nat → zlength bs < two32 →
  ∃ v', value_equiv v v' ∧ ∀ rest, decode_fuel fuel d (bs ++ rest) = Some v'.
Proof.
  intros Hd. induction v using value_ind'; intros Hw bs fuel He Hf Hs;
    (destruct fuel as [|fuel]; [lia|]); inversion Hw as [| |? Hi|? Hfb|? Hu|? Hwl|? Hn Hwm]; subst.
  - inversion He; subst. eauto with sp00ky.
  - inversion He; subst; eauto with sp00ky.
  - inversion He; subst. exists (Int i). split; [constructor|]. intros rest.
    cbn [app]. rewrite (proj1 (decode_scalar8 _ _ _)), app_comm_cons, slice_payload by done.
    by rewrite from_to_le_i64.
  - inversion He; subst. exists (Float f). split; [constructor|]. intros rest.
    cbn [app]. rewrite (proj1 (proj2 (decode_scalar8 _ _ _))), app_comm_cons, slice_payload by done.
    rewrite from_to_le_u64 by done. by destruct f.
  - inversion He; subst. exists (Str s). split; [constructor|]. intros rest.
    rewrite zlength_cons, zlength_app in Hs. pose proof (zlength_nonneg (bytes_of s)).
    pose proof (write_varint_len (zlength (bytes_of s))).
    cbn [app]. rewrite (proj2 (proj2 (decode_scalar8 _ _ _))), app_comm_cons.
    by rewrite str_bytes_ok by (done || lia).
  - inversion He as [| | | | | |? bss Hl|]; subst.
    destruct (count_le_concat _ _ _ (encodes_nonempty d) Hl) as [Hc1 Hc2].
    pose proof Hs as Hs'. rewrite zlength_cons, zlength_app in Hs'.
    pose proof (zlength_nonneg bss). pose proof (write_varint_len (zlength l)).
    assert (∀ b, b ∈ bss → (length b < fuel)%nat ∧ zlength b < two32) as Hsz.
    { intros b Hb. eapply nested_shorter; [exact Hb| |exact Hf|exact Hs].
      rewrite zlength_cons, zlength_app. lia. }
    destruct (Forall2_image (encodes d) value_equiv
      (λ b v, ∀ r, decode_fuel fuel d (b ++ r) = Some v) l bss Hl) as (vs & Hv1 & Hv2).
    { rewrite Forall_forall in H, Hwl. intros x b Hx Hb Hex.
      destruct (Hsz b Hb). apply H; auto. }
    exists (Array vs). split; [by constructor|]. intros rest. cbn [app].
    rewrite decode_arr, <- app_assoc, arr_parts_ok by width_lia. rewrite Hc1.
    match goal with |- context [decode_items _ _ _ ?n _ _] =>
      pose proof (decode_items_ok (decode_fuel fuel d) (value_len fuel) [] bss vs rest n) as Hit end.
    change (zlength []) with 0 in Hit. cbn [app] in Hit. rewrite Hit; [done| | |].
    + eapply Forall2_impl_l; [exact Hv2|]. rewrite Forall_forall. intros b Hb v Hv r.
      split; [apply Hv|]. destruct (Forall2_elem_r _ _ _ _ Hl Hb) as (x & _ & Hex).
      destruct (Hsz b Hb). by eapply value_len_encodes.
    + unfold zlength in *. cbn [length]. rewrite !length_app. lia.
    + change (zlength []) with 0. unfold two64, two32 in *. lia.
  - destruct (encoded_object _ _ _ He Hs) as (es & ids & Hp & -> & Hm & Hfi & Hst).
    pose proof (obj_bytes_content ids) as Hct.
    assert (∀ i, i ∈ ids → (length i.2 < fuel)%nat ∧ zlength i.2 < two32) as Hsz.
    { intros i Hi. eapply nested_shorter; [|exact Hct|exact Hf|exact Hs].
      by apply (list_elem_of_fmap_2 snd). }
    assert (NoDup es.*1) as Hne by (by rewrite <- Hp).
    assert (Forall (λ e, value_wf e.2) es) as Hwe by (by rewrite <- Hp).
    rewrite Hp in H. rewrite Forall_forall in H, Hwe.
    destruct (Forall2_image _ (λ e e' : string * Sp00kyValue, e.1 = e'.1 ∧ value_equiv e.2 e'.2)
      (λ (i : Z * list Z) e, 0 <= i.1 < two32 ∧ FieldDict.name d i.1 = Some e.1 ∧
        ∀ r, decode_fuel fuel d (i.2 ++ r) = Some e.2) es ids Hfi) as (vs & Hv1 & Hv2).
    { intros e i Hei Hii [Hid Hex]. destruct (Hsz i Hii).
      destruct (H e Hei (Hwe e Hei) i.2 fuel Hex) as (v' & Hv & Hdec); [done|done|].
      exists (e.1, v'). split; [done|]. destruct (dict_id_bound _ _ _ Hd Hid).
      apply (dict_ids _ Hd) in Hid as [? ?]. done. }
    exists (Object vs). split; [by econstructor|]. intros rest.
    assert (obj_bytes ids = TAG_OBJ :: tail (obj_bytes ids)) as Hob by done.
    rewrite Hob at 1. cbn [app]. rewrite decode_obj, app_comm_cons, <- Hob.
    rewrite obj_parts_ok by done. cbn [op_count].
    match goal with |- context [decode_fields _ _ _ _ ?n _ _] =>
      pose proof (decode_fields_ok (decode_fuel fuel d) d [] ids vs [] rest n Hs Hv2) as Hit end.
    change (zlength []) with 0 in Hit. cbn [app] in Hit. rewrite Hit; [done| |].
    + simpl. assert (vs.*1 = es.*1) as ->; [|done].
      clear -Hv1. induction Hv1 as [|? ? ? ? [? _] _ IH]; simpl; by f_equal.
    + assert (zlength ids <= zlength (obj_bytes ids)).
      { unfold obj_bytes. rewrite zlength_cons, !zlength_app, zlength_entry_table.
        pose proof (zlength_nonneg (concat ids.*2)). pose proof (zlength_nonneg ids).
        pose proof (write_varint_len (zlength ids)). lia. }
      unfold zlength in *. rewrite length_app. lia.
Qed.

(** ** Field lookup by binary search *)

Section search.
Context (ids : list (Z * list Z)) (rest : list Z) (id : Z).
Context (Hsz : zlength (obj_bytes ids) < two32).
Context (Hids : Forall (λ i, 0 <= i.1 < two32) ids).
Context (Hsorted : StronglySorted Z.lt ids.*1).

Let parts := MkObjParts (entry_table 0 ids) (concat ids.*2 ++ rest) (zlength ids).

(** What the search must return: the value of the entry with the id. *)
Definition found (r : option (list Z)) : Prop :=
  (∀ l b k, ids = l ++ (id, b) :: k → r = Some (b ++ concat k.*2 ++ rest)) ∧
  (id ∉ ids.*1 → r = None).

Lemma ids_lt j j' x x' :
  ids !! j = Some x → ids !! j' = Some x' → (j < j')%nat → x.1 < x'.1.
Proof.
  intros H H' Hj. eapply (StronglySorted_lookup_lt Z.lt _ j j'); [exact Hsorted|..|done].
  - by rewrite list_lookup_fmap, H.
  - by rewrite list_lookup_fmap, H'.
Qed.

Lemma split_at j x : ids !! j = Some x →
  ∃ l k, ids = l ++ x :: k ∧ zlength l = Z.of_nat j.
Proof.
  intros H. exists (take j ids), (drop (S j) ids). split.
  - by rewrite take_drop_middle.
  - unfold zlength. rewrite length_take. apply lookup_lt_Some in H. lia.
Qed.

(** The id occurs at one position only. *)
Lemma found_at l b k r :
  ids = l ++ (id, b) :: k → r = Some (b ++ concat k.*2 ++ rest) → found r.
Proof.
  intros Heq ->. split.
  - intros l' b' k' Heq'.
    assert (ids !! length l = Some (id, b)) as H1 by (rewrite Heq; by apply list_lookup_middle).
    assert (ids !! length l' = Some (id, b')) as H2 by (rewrite Heq'; by apply list_lookup_middle).
    assert (length l = length l') as Hl.
    { destruct (Nat.lt_trichotomy (length l) (length l')) as [H|[H|H]]; [|done|].
      - pose proof (ids_lt _ _ _ _ H1 H2 H). simpl in *. lia.
      - pose proof (ids_lt _ _ _ _ H2 H1 H). simpl in *. lia. }
    rewrite Heq in Heq'. apply app_inj_1 in Heq' as [_ [= -> ->]]; done.
  - intros Hn. exfalso. apply Hn. rewrite Heq, fmap_app. simpl. set_solver.
Qed.

Lemma obj_search_ok n lo hi :
  0 <= lo → hi <= zlength ids → hi - lo < 2 ^ Z.of_nat n →
  (∀ j x, ids !! j = Some x → Z.of_nat j < lo → x.1 < id) →
  (∀ j x, ids !! j = Some x → hi <= Z.of_nat j → id < x.1) →
  found (obj_search (S n) parts id lo hi).
Proof.
  revert lo hi. induction n as [|n IH]; intros lo hi Hlo Hhi Hn Hlow Hhigh.
  - change (2 ^ Z.of_nat 0) with 1 in Hn. cbn [obj_search].
    rewrite (proj2 (Z.ltb_ge _ _)) by lia. split; [|done]. intros l b k Heq.
    assert (ids !! length l = Some (id, b)) as H1 by (rewrite Heq; by apply list_lookup_middle).
    destruct (Z.lt_ge_cases (Z.of_nat (length l)) lo) as [H|H].
    + specialize (Hlow _ _ H1 H). simpl in Hlow. lia.
    + specialize (Hhigh _ _ H1 ltac:(lia)). simpl in Hhigh. lia.
  - remember (S n) as m eqn:Em. cbn [obj_search]. subst m.
    destruct (Z.ltb_spec lo hi) as [Hlt|Hge].
    2:{ split; [|done]. intros l b k Heq.
        assert (ids !! length l = Some (id, b)) as H1 by (rewrite Heq; by apply list_lookup_middle).
        destruct (Z.lt_ge_cases (Z.of_nat (length l)) lo) as [H|H].
        - specialize (Hlow _ _ H1 H). simpl in Hlow. lia.
        - specialize (Hhigh _ _ H1 ltac:(lia)). simpl in Hhigh. lia. }
    assert (zlength ids < two32) as Hil.
    { unfold obj_bytes in Hsz. rewrite zlength_cons, !zlength_app, zlength_entry_table in Hsz.
      pose proof (zlength_nonneg ids). pose proof (zlength_nonneg (concat ids.*2)).
      pose proof (write_varint_len (zlength ids)). lia. }
    assert (wrap_u64 (lo + hi) = lo + hi) as ->.
    { unfold wrap_u64. apply Z.mod_small. width_lia. }
    set (mid := (lo + hi) / 2).
    assert (lo <= mid < hi) as Hmid.
    { unfold mid. split; [apply Z.div_le_lower_bound; lia|apply Z.div_lt_upper_bound; lia]. }
    assert (is_Some (ids !! Z.to_nat mid)) as [[i b] Hat].
    { apply lookup_lt_is_Some. unfold zlength in *. lia. }
    destruct (split_at _ _ Hat) as (l & k & Heq & Hl).
    rewrite Z2Nat.id in Hl by lia.
    pose proof Hsz as Hsz'. rewrite Heq in Hsz'.
    destruct (obj_bytes_sizes _ _ _ _ Hsz') as (Ht & Hc & _ & _).
    destruct (table_entry_ok l k i b mid (eq_sym Hl) Ht) as [H1 H2].
    subst parts. cbn [op_table op_values]. rewrite Heq at 1. rewrite H1.
    rewrite from_to_le_u32.
    2:{ rewrite Forall_lookup in Hids. apply (Hids _ _ Hat). }
    assert (2 ^ Z.of_nat (S n) = 2 * 2 ^ Z.of_nat n) as Hpow.
    { rewrite Nat2Z.inj_succ, Z.pow_succ_r; lia. }
    assert (2 * mid <= lo + hi < 2 * mid + 2) as Hm2.
    { unfold mid. pose proof (Z.div_mod (lo + hi) 2). pose proof (Z.mod_pos_bound (lo + hi) 2). lia. }
    destruct (Z.compare_spec i id) as [->|Hi|Hi].
    + rewrite Heq at 1. rewrite H2. rewrite Heq at 1. rewrite value_at_ok by done.
      by eapply found_at.
    + apply IH; [lia|lia|lia| |done]. intros j x Hj Hjm.
      destruct (decide (j = Z.to_nat mid)) as [->|Hne].
      * rewrite Hat in Hj. by injection Hj as <-.
      * pose proof (ids_lt _ _ _ _ Hj Hat ltac:(lia)). simpl in *. lia.
    + apply IH; [lia|lia|lia|done|]. intros j x Hj Hjm.
      destruct (decide (j = Z.to_nat mid)) as [->|Hne].
      * rewrite Hat in Hj. by injection Hj as <-.
      * pose proof (ids_lt _ _ _ _ Hat Hj ltac:(lia)). simpl in *. lia.
Qed.
End search.

Lemma obj_lookup_encodes d m bs name id rest :
  dict_wf d → NoDup m.*1 → encodes d (Object m) bs → zlength bs < two32 →
  FieldDict.id_of d name = Some id →
  match assoc_get name m with
  | Some v => ∃ vb rest', encodes d v vb ∧ zlength vb < two32 ∧
      obj_lookup (bs ++ rest) id = Some (vb ++ rest')
  | None => obj_lookup (bs ++ rest) id = None
  end.
Proof.
  intros Hd Hn He Hs Hid.
  destruct (encoded_object _ _ _ He Hs) as (es & ids & Hp & -> & Hm & Hf & Hst).
  assert (Forall (λ i, 0 <= i.1 < two32) ids) as Hb.
  { eapply Forall2_Forall_r; [exact Hf|]. apply Forall_true. intros e i [He' _].
    by eapply dict_id_bound. }
  unfold obj_lookup. rewrite obj_parts_ok by done. cbn [op_count].
  assert (found ids rest id (obj_search 65 (MkObjParts (entry_table 0 ids)
    (concat ids.*2 ++ rest) (zlength ids)) id 0 (zlength ids))) as [Hyes Hno].
  { apply obj_search_ok; [done|done|done|lia|lia| |lia|].
    - pose proof (obj_bytes_content ids). unfold obj_bytes in Hs.
      rewrite zlength_cons, !zlength_app, zlength_entry_table in Hs.
      pose proof (zlength_nonneg (concat ids.*2)). pose proof (zlength_nonneg ids).
      pose proof (write_varint_len (zlength ids)).
      assert (zlength ids < two32) as Hz by lia.
      apply Z.lt_trans with two32; [lia|done].
    - intros j x Hj Hlen. apply lookup_lt_Some in Hj. unfold zlength in Hlen. lia. }
  set (r := obj_search 65 _ _ _ _) in *. clearbody r.
  destruct (assoc_get name m) as [v|] eqn:E.
  - apply assoc_get_Some in E. rewrite Hp in E.
    apply list_elem_of_lookup in E as [j Hj].
    destruct (Forall2_lookup_l _ _ _ _ _ Hf Hj) as ([i vb] & Hji & [Hi Hev]). simpl in *.
    rewrite Hid in Hi. injection Hi as <-.
    pose proof (take_drop_middle _ _ _ Hji) as Heq. symmetry in Heq.
    exists vb, (concat (drop (S j) ids).*2 ++ rest). split_and!; [done| |by eapply Hyes].
    assert (vb ∈ ids.*2) as Hvb.
    { apply (list_elem_of_fmap_2 snd ids (id, vb)). by eapply list_elem_of_lookup_2. }
    apply elem_concat_le in Hvb. pose proof (obj_bytes_content ids). lia.
  - apply assoc_get_None in E. apply Hno. intros Hin. apply E. rewrite Hp.
    apply list_elem_of_fmap in Hin as ([i vb] & -> & Hin).
    apply list_elem_of_lookup in Hin as [j Hj]. simpl in *.
    destruct (Forall2_lookup_r _ _ _ _ _ Hf Hj) as ([n v] & Hjn & [Hi _]). simpl in Hi.
    rewrite (dict_id_inj d name n i Hd Hid Hi).
    apply (list_elem_of_fmap_2 fst es (n, v)). by eapply list_elem_of_lookup_2.
Qed.

(** ** Whole records *)

(** The row version [encode_record] lifts into the head. *)
Definition lifted_rv (v : Sp00kyValue) : option Z :=
  match Sp00kyValue.get v "_00_rv" with
  | Some (Int rv) => if rv =? RV_ABSENT then None else Some rv
  | _ => None
  end.

Lemma get_wf v k x : value_wf v → Sp00kyValue.get v k = Some x → value_wf x.
Proof.
  intros Hw. destruct Hw; try done. unfold Sp00kyValue.get. simpl.
  intros Hx%assoc_get_Some. rewrite Forall_forall in H0. apply (H0 _ Hx).
Qed.

Lemma encoded_rv v : value_wf v →
  in_i64 (record_rv v).
Proof.
  intros Hw. unfold record_rv. destruct (Sp00kyValue.get v "_00_rv") as [x|] eqn:E; [|done].
  pose proof (get_wf _ _ _ Hw E) as Hx. destruct x; try done. by inversion Hx.
Qed.

(** C21: A record written by [encode_record] reads back: the head gives the id, the
    digest, the lifted row version and the body's exact extent, and the body
    decodes to the value, under the dictionary the writer returned and under
    every later one. The decoder never runs out of fuel. *)
Theorem encode_record_roundtrip id v digest d rec hl d' :
  encode_record id v digest d = (rec, hl, d') →
  dict_wf d → value_wf v → utf8_valid (bytes_of id) = true → zlength digest = DIGEST_LEN →
  FieldDict.len d' <= two32 → zlength rec < two32 →
  dict_wf d' ∧ dict_le d d' ∧
  head_len rec = Some hl ∧ head_id rec = Some id ∧ head_digest rec = Some digest ∧
  head_rv rec = lifted_rv v ∧ record_body rec = drop (Z.to_nat hl) rec ∧
  ∀ d'', dict_wf d'' → dict_le d' d'' →
    ∃ v', decode_value (record_body rec) d'' = Some v' ∧ value_equiv v v'.
Proof.
  unfold encode_record. set (rv := record_rv v).
  destruct (encode_value v d) as [body d1] eqn:E. intros Heq Hd Hw Hu Hdig Hl Hs.
  injection Heq as <- <- <-.
  destruct (encode_value_ok v Hw d body d1 E Hd Hl) as [Hd1 He].
  pose proof (encode_value_ext v d) as Hx. rewrite E in Hx.
  assert (in_i64 rv) as Hrv by (by apply encoded_rv).
  set (h := encode_head id digest rv (head_len_for id) (zlength body)) in *.
  rewrite zlength_app in Hs. pose proof (zlength_nonneg h). pose proof (zlength_nonneg body).
  assert (zlength (bytes_of id) < two32) as Hid.
  { assert (zlength (bytes_of id) <= zlength h); [|lia].
    unfold h, encode_head. autorewrite with zlen.
    pose proof (write_varint_len (zlength (bytes_of id))). pose proof (zlength_nonneg digest). lia. }
  assert (zlength h = head_len_for id) as Hh by (by apply head_len_for_spec).
  assert (record_body (h ++ body) = body) as Hb.
  { unfold record_body, h. rewrite head_body_rel_encode, head_body_len_encode by (done || lia).
    fold h. rewrite <- Hh. rewrite <- (app_nil_r body) at 2. by rewrite slice_field. }
  split_and!; try done.
  - apply head_len_encode; done || lia.
  - apply head_id_encode; done || lia.
  - apply head_digest_encode; done || lia.
  - unfold head_rv, h. rewrite head_rv_raw_encode by (done || lia). unfold rv, record_rv, lifted_rv.
    destruct (Sp00kyValue.get v "_00_rv") as [[]|]; done.
  - rewrite Hb. by rewrite drop_zlength.
  - intros d'' Hd2 Hle. rewrite Hb. apply (encodes_mono d1 d'') in He; [|done..].
    destruct (decode_encodes d'' v Hd2 Hw body (S (length body)) He) as (v' & Hv & Hdec);
      [lia|lia|].
    exists v'. split; [|done]. unfold decode_value. by rewrite <- (app_nil_r body) at 2.
Qed.

Definition codec_sample : Sp00kyValue :=
  Object [("b", Array [Null; Bool true; Float (F64 4607182418800017408)]);
          ("_00_rv", Int 7); ("a", Object [("x", Str "hi"); ("b", Int (-2))])].

Definition sample_digest : list Z := List.repeat 7 32.

Lemma codec_sample_wf : value_wf codec_sample.
Proof.
  repeat first [constructor | by vm_compute | set_solver].
Qed.

Lemma encode_record_roundtrip_witness :
  let r := encode_record "u:1" codec_sample sample_digest FieldDict.new in
  head_len r.1.1 = Some r.1.2 ∧ head_id r.1.1 = Some "u:1" ∧ head_rv r.1.1 = Some 7 ∧
  ∃ v', decode_value (record_body r.1.1) r.2 = Some v' ∧ value_equiv codec_sample v'.
Proof.
  destruct (encode_record_roundtrip "u:1" codec_sample sample_digest FieldDict.new
    _ _ _ eq_refl dict_new_wf codec_sample_wf eq_refl eq_refl
    ltac:(vm_compute; discriminate) eq_refl)
    as (Hd & _ & Hl & Hi & _ & Hr & _ & Hdec).
  split; [exact Hl|]. split; [exact Hi|]. split; [exact Hr|].
  apply Hdec; [exact Hd|done].
Defined.
