(* ===== verification/ValueRef.v ===== *)
(** * Borrowed values: one read interface over two representations

    Models [packages/ssp/src/eval/value_ref.rs] and [value_ops.rs]. A
    [ValueRef] is a scalar, or a container in memory ([SMem], [OMem]) or in
    the flat encoding ([SFlat], [OFlat]). The last part proves that reading a
    field of an encoded row and reading it in memory cannot be told apart. *)

From S2P Require Import Prelude Platform Float64 Value RowCodec RowCodecSpec.
From stdpp Require Import pretty.
Local Open Scope Z_scope.

Record FlatRef := MkFlatRef { fr_bytes : list Z; fr_dict : FieldDict }.

Inductive SeqRef :=
  | SMem (items : list Sp00kyValue)
  | SFlat (f : FlatRef).

Inductive ObjRef :=
  | OMem (map : list (string * Sp00kyValue))
  | OFlat (f : FlatRef).

(** The constructors of the source's enum, with an [R] where a plain name is
    already a [Sp00kyValue]'s. *)
Inductive ValueRef :=
  | Missing
  | RNull
  | RBool (b : bool)
  | RInt (i : Z)
  | RFloat (f : f64)
  | RStr (s : string)
  | RArr (s : SeqRef)
  | RObj (o : ObjRef).

(** [FlatRef::value]: bytes that do not read are [Missing]. *)
Definition FlatRef_value (f : FlatRef) : ValueRef :=
  match head (fr_bytes f) with
  | None => Missing
  | Some tag =>
      if tag =? TAG_NULL then RNull
      else if tag =? TAG_FALSE then RBool false
      else if tag =? TAG_TRUE then RBool true
      else if tag =? TAG_INT then
        match slice 1 9 (fr_bytes f) with Some b => RInt (from_le_i64 b) | None => Missing end
      else if tag =? TAG_FLOAT then
        match slice 1 9 (fr_bytes f) with
        | Some b => RFloat (F64 (le_combine b)) | None => Missing end
      else if tag =? TAG_STR then
        match str_bytes (fr_bytes f) with Some s => RStr s | None => Missing end
      else if tag =? TAG_ARR then RArr (SFlat f)
      else if tag =? TAG_OBJ then RObj (OFlat f)
      else Missing
  end.

Module ValueRef.
Definition from_value (value : Sp00kyValue) : ValueRef :=
  match value with
  | Null => RNull
  | Bool b => RBool b
  | Int i => RInt i
  | Float f => RFloat f
  | Str s => RStr s
  | Array items => RArr (SMem items)
  | Object m => RObj (OMem m)
  end.

Definition from_opt (value : option Sp00kyValue) : ValueRef :=
  match value with Some v => from_value v | None => Missing end.

Definition is_missing (v : ValueRef) : bool :=
  match v with Missing => true | _ => false end.
Definition is_null (v : ValueRef) : bool :=
  match v with RNull => true | _ => false end.
Definition as_str (v : ValueRef) : option string :=
  match v with RStr s => Some s | _ => None end.
Definition as_f64 (v : ValueRef) : option f64 :=
  match v with RInt i => Some (F64.of_i64 i) | RFloat f => Some f | _ => None end.
Definition as_i64 (v : ValueRef) : option Z :=
  match v with
  | RInt i => Some i
  | RFloat f => if F64.is_finite f && F64.is_integral f then Some (F64.to_i64 f) else None
  | _ => None
  end.
Definition as_bool (v : ValueRef) : option bool :=
  match v with RBool b => Some b | _ => None end.

Definition get (v : ValueRef) (key : string) : ValueRef :=
  match v with
  | RObj (OMem m) => from_opt (assoc_get key m)
  | RObj (OFlat flat) =>
      match FieldDict.id_of (fr_dict flat) key with
      | None => Missing
      | Some id =>
          match obj_lookup (fr_bytes flat) id with
          | Some bytes => FlatRef_value (MkFlatRef bytes (fr_dict flat))
          | None => Missing
          end
      end
  | _ => Missing
  end.

Definition container_len (v : ValueRef) : Z :=
  match v with
  | RObj (OMem m) => zlength m
  | RArr (SMem items) => zlength items
  | RObj (OFlat f) => match obj_parts (fr_bytes f) with Some p => op_count p | None => 0 end
  | RArr (SFlat f) => match arr_parts (fr_bytes f) with Some (n, _) => n | None => 0 end
  | _ => 0
  end.

Definition is_record_ref (v : ValueRef) : bool :=
  match v with RStr s => contains_char colon s | _ => false end.

Definition rank (v : ValueRef) : Z :=
  match v with Missing => 0 | RNull => 1 | _ => 2 end.

Definition to_owned_value (v : ValueRef) : Sp00kyValue :=
  match v with
  | Missing | RNull => Null
  | RBool b => Bool b
  | RInt i => Int i
  | RFloat f => Float f
  | RStr s => Str s
  | RArr (SMem items) => Array items
  | RObj (OMem m) => Object m
  | RArr (SFlat f) | RObj (OFlat f) => default Null (decode_value (fr_bytes f) (fr_dict f))
  end.

Definition group_key_repr `{Hashing} (v : ValueRef) : string :=
  match v with
  | Missing => "missing"
  | RNull => "null"
  | RBool b => "b:" +:+ (if b then "true" else "false")
  | RInt i => "i:" +:+ pretty i
  | RFloat f => "f:" +:+ display_f64 (f64_bits f)
  | RStr s => "s:" +:+ s
  | RArr _ => "a:" +:+ pretty (container_len v)
  | RObj _ => "o:" +:+ pretty (container_len v)
  end%string.
End ValueRef.

(** ** value_ops.rs *)

Fixpoint resolve_segments (current : ValueRef) (segs : list string) : ValueRef :=
  match segs with
  | [] => current
  | segment :: segs =>
      if String.eqb segment "id" && ValueRef.is_record_ref current then current
      else
        let current := ValueRef.get current segment in
        if ValueRef.is_missing current then Missing else resolve_segments current segs
  end.

Definition resolve_field (value : ValueRef) (path : Path) : ValueRef :=
  if ValueRef.is_missing value then Missing else resolve_segments value (segments path).

Definition or_eq (o : option comparison) : comparison := default Eq o.

Definition bool_cmp (a b : bool) : comparison :=
  match a, b with
  | false, true => Lt
  | true, false => Gt
  | _, _ => Eq
  end.

Definition compare_values (a b : ValueRef) : comparison :=
  match Z.compare (ValueRef.rank a) (ValueRef.rank b) with
  | Eq =>
      match a, b with
      | RInt a, RInt b => Z.compare a b
      | RFloat a, RFloat b => or_eq (F64.partial_cmp a b)
      | RInt a, RFloat b => or_eq (F64.partial_cmp (F64.of_i64 a) b)
      | RFloat a, RInt b => or_eq (F64.partial_cmp a (F64.of_i64 b))
      | RStr a, RStr b => string_cmp a b
      | RBool a, RBool b => bool_cmp a b
      | _, _ => Eq
      end
  | non_equal => non_equal
  end.

(** The bytes each [Hash] implementation feeds to the hasher. *)
Definition hash_value `{Hashing} (value : ValueRef) : Z :=
  default_hash
    match value with
    | Missing | RNull => [0]
    | RBool b => [if b then 1 else 0]
    | RInt n => to_le_u64 (f64_bits (F64.of_i64 n))
    | RFloat n => to_le_u64 (f64_bits n)
    | RStr s => bytes_of s ++ [255]
    | RArr _ => [2]
    | RObj _ => [3]
    end.

Definition normalize_record_id_value (value : Sp00kyValue) : Sp00kyValue :=
  match value with
  | Str s => match split_once colon s with Some (_, id) => Str id | None => value end
  | _ => value
  end.

(** ** Flat reads agree with reads in memory *)

(** The same value in memory and in the flat encoding, as far as a reader
    can see. *)
Inductive ref_sim : ValueRef → ValueRef → Prop :=
  | sim_missing : ref_sim Missing Missing
  | sim_null : ref_sim RNull RNull
  | sim_bool b : ref_sim (RBool b) (RBool b)
  | sim_int i : ref_sim (RInt i) (RInt i)
  | sim_float f : ref_sim (RFloat f) (RFloat f)
  | sim_str s : ref_sim (RStr s) (RStr s)
  | sim_arr items d bs rest : dict_wf d → Forall value_wf items →
      encodes d (Array items) bs → zlength bs < two32 →
      ref_sim (RArr (SMem items)) (RArr (SFlat (MkFlatRef (bs ++ rest) d)))
  | sim_obj m d bs rest : dict_wf d → value_wf (Object m) →
      encodes d (Object m) bs → zlength bs < two32 →
      ref_sim (RObj (OMem m)) (RObj (OFlat (MkFlatRef (bs ++ rest) d))).

#[export] Hint Constructors ref_sim : sp00ky.

Lemma FlatRef_value_payload d b :
  FlatRef_value (MkFlatRef (TAG_INT :: b) d) =
    match slice 1 9 (TAG_INT :: b) with Some b => RInt (from_le_i64 b) | None => Missing end ∧
  FlatRef_value (MkFlatRef (TAG_FLOAT :: b) d) =
    match slice 1 9 (TAG_FLOAT :: b) with
    | Some b => RFloat (F64 (le_combine b)) | None => Missing end ∧
  FlatRef_value (MkFlatRef (TAG_STR :: b) d) =
    match str_bytes (TAG_STR :: b) with Some s => RStr s | None => Missing end.
Proof. done. Qed.

Lemma flat_value_sim d v bs rest :
  dict_wf d → value_wf v → encodes d v bs → zlength bs < two32 →
  ref_sim (ValueRef.from_value v) (FlatRef_value (MkFlatRef (bs ++ rest) d)).
Proof.
  intros Hd Hw He Hs. pose proof He as He'.
  inversion He as [| | |i|f|s|items bss Hl|m es ids Hp Hf Hst]; subst; try constructor;
    try done; cbn [app].
  - rewrite (proj1 (FlatRef_value_payload _ _)), app_comm_cons, slice_payload by done.
    inversion Hw; subst. rewrite from_to_le_i64 by done. constructor.
  - rewrite (proj1 (proj2 (FlatRef_value_payload _ _))), app_comm_cons, slice_payload by done.
    inversion Hw; subst. rewrite from_to_le_u64 by done. destruct f. constructor.
  - rewrite (proj2 (proj2 (FlatRef_value_payload _ _))), app_comm_cons. inversion Hw; subst.
    rewrite zlength_cons, zlength_app in Hs.
    pose proof (write_varint_len (zlength (bytes_of s))).
    rewrite str_bytes_ok by (done || lia). constructor.
  - by inversion Hw.
Qed.

Lemma sim_missing_iff a b : ref_sim a b → ValueRef.is_missing a = ValueRef.is_missing b.
Proof. by destruct 1. Qed.

Lemma sim_record_ref a b : ref_sim a b → ValueRef.is_record_ref a = ValueRef.is_record_ref b.
Proof. by destruct 1. Qed.

Lemma get_sim a b key : ref_sim a b → ref_sim (ValueRef.get a key) (ValueRef.get b key).
Proof.
  destruct 1 as [| | | | | | |m d bs rest Hd Hw He Hs]; try constructor.
  cbn [ValueRef.get fr_bytes fr_dict].
  assert (NoDup m.*1) as Hn by (by inversion Hw).
  destruct (FieldDict.id_of d key) as [id|] eqn:Hid.
  - pose proof (obj_lookup_encodes d m bs key id rest Hd Hn He Hs Hid) as Hl.
    destruct (assoc_get key m) as [v|] eqn:E.
    + destruct Hl as (vb & rest' & Hv & Hvs & ->). simpl.
      apply flat_value_sim; [done| |done|done].
      apply assoc_get_Some in E. inversion Hw as [| | | | | |? _ Hwm]; subst.
      rewrite Forall_forall in Hwm. by apply (Hwm _ E).
    + rewrite Hl. constructor.
  - assert (assoc_get key m = None) as ->; [|constructor].
    apply assoc_get_None. intros Hin.
    destruct (encoded_object _ _ _ He Hs) as (es & ids & Hp & _ & _ & Hf & _).
    rewrite Hp in Hin. apply list_elem_of_fmap in Hin as (e & -> & Hin).
    apply list_elem_of_lookup in Hin as [j Hj].
    destruct (Forall2_lookup_l _ _ _ _ _ Hf Hj) as (i & _ & Hi & _). congruence.
Qed.

Lemma resolve_segments_sim a b segs :
  ref_sim a b → ref_sim (resolve_segments a segs) (resolve_segments b segs).
Proof.
  revert a b. induction segs as [|seg segs IH]; intros a b H; simpl; [done|].
  rewrite (sim_record_ref a b H). destruct (String.eqb seg "id" && _); [done|].
  pose proof (get_sim a b seg H) as Hg. rewrite (sim_missing_iff _ _ Hg).
  destruct (ValueRef.is_missing _); [constructor|auto].
Qed.

(** Everything the engine observes of a resolved value. *)
Definition same_observations `{Hashing} (a b a' b' : ValueRef) : Prop :=
  compare_values a a' = compare_values b b' ∧ hash_value a = hash_value b ∧
  ValueRef.group_key_repr a = ValueRef.group_key_repr b ∧
  ValueRef.as_str a = ValueRef.as_str b ∧ ValueRef.as_f64 a = ValueRef.as_f64 b ∧
  ValueRef.as_i64 a = ValueRef.as_i64 b ∧ ValueRef.as_bool a = ValueRef.as_bool b ∧
  value_equiv (ValueRef.to_owned_value a) (ValueRef.to_owned_value b).

Lemma container_len_sim a b : ref_sim a b → ValueRef.container_len a = ValueRef.container_len b.
Proof.
  destruct 1 as [| | | | | |items d bs rest Hd Hw He Hs|m d bs rest Hd Hw He Hs]; try done;
    cbn [ValueRef.container_len fr_bytes].
  - inversion He as [| | | | | |? bss Hl|]; subst. cbn [app].
    destruct (count_le_concat _ _ _ (encodes_nonempty d) Hl) as [Hc1 Hc2].
    rewrite zlength_cons, zlength_app in Hs. pose proof (write_varint_len (zlength items)).
    rewrite <- app_assoc, arr_parts_ok by lia. done.
  - destruct (encoded_object _ _ _ He Hs) as (es & ids & Hp & -> & Hm & _ & _).
    by rewrite obj_parts_ok.
Qed.

Lemma to_owned_sim a b : ref_sim a b →
  value_equiv (ValueRef.to_owned_value a) (ValueRef.to_owned_value b).
Proof.
  destruct 1 as [| | | | | |items d bs rest Hd Hw He Hs|m d bs rest Hd Hw He Hs];
    try apply value_equiv_refl; cbn [ValueRef.to_owned_value fr_bytes fr_dict]; unfold decode_value.
  - destruct (decode_encodes d (Array items) Hd ltac:(by constructor) bs
      (S (length (bs ++ rest))) He) as (v' & Hv & Hdec); [rewrite length_app; lia|done|].
    by rewrite Hdec.
  - destruct (decode_encodes d (Object m) Hd Hw bs
      (S (length (bs ++ rest))) He) as (v' & Hv & Hdec); [rewrite length_app; lia|done|].
    by rewrite Hdec.
Qed.

Lemma sim_observations `{Hashing} a b a' b' :
  ref_sim a b → ref_sim a' b' → same_observations a b a' b'.
Proof.
  intros H1 H2. pose proof (container_len_sim a b H1) as Hc. pose proof (to_owned_sim a b H1).
  unfold same_observations. split_and!; try done.
  - by destruct H1, H2.
  - by destruct H1.
  - destruct H1; try done; unfold ValueRef.group_key_repr; by rewrite Hc.
  - by destruct H1.
  - by destruct H1.
  - by destruct H1.
  - by destruct H1.
Qed.

(** C22: Reading through the flat encoding refines reading in memory: for any
    path, resolving it in the encoded row and in the value it encodes gives
    results that no comparison, hash, grouping key or conversion of the
    engine tells apart (against any other such pair), whatever bytes follow
    the row in its buffer. *)
Theorem flat_read_refines_mem `{Hashing} d d' v bs rest (p p' : Path) :
  encode_value v d = (bs, d') → dict_wf d → value_wf v →
  FieldDict.len d' <= two32 → zlength bs < two32 →
  let mem q := resolve_field (ValueRef.from_value v) q in
  let flat q := resolve_field (FlatRef_value (MkFlatRef (bs ++ rest) d')) q in
  same_observations (mem p) (flat p) (mem p') (flat p').
Proof.
  intros E Hd Hw Hl Hs. destruct (encode_value_ok v Hw d bs d' E Hd Hl) as [Hd' He].
  pose proof (flat_value_sim d' v bs rest Hd' Hw He Hs) as H0.
  assert (∀ q, ref_sim (resolve_field (ValueRef.from_value v) q)
    (resolve_field (FlatRef_value (MkFlatRef (bs ++ rest) d')) q)) as H1.
  { intros q. unfold resolve_field. rewrite (sim_missing_iff _ _ H0).
    destruct (ValueRef.is_missing _); [constructor|]. by apply resolve_segments_sim. }
  by apply sim_observations.
Qed.

Lemma flat_read_refines_mem_witness :
  let '(bs, d') := encode_value codec_sample FieldDict.new in
  let mem q := resolve_field (ValueRef.from_value codec_sample) (Path_new q) in
  let flat q := resolve_field (FlatRef_value (MkFlatRef (bs ++ [1; 2]) d')) (Path_new q) in
  mem "a.x" = RStr "hi" ∧ flat "a.x" = RStr "hi" ∧
  same_observations (mem "b") (flat "b") (mem "a.zz") (flat "a.zz").
Proof.
  split; [vm_compute; reflexivity|]. split; [vm_compute; reflexivity|].
  apply (flat_read_refines_mem FieldDict.new _ codec_sample _ [1; 2] (Path_new "b") (Path_new "a.zz")
    eq_refl dict_new_wf codec_sample_wf); vm_compute; [discriminate|reflexivity].
Defined.
