(* ===== verification/ZSet.v ===== *)
(** * Weighted sets

    Models [packages/ssp/src/algebra/] (weight.rs, zset.rs): maps from row keys
    to [i64] weights. Weights wrap, as in a release build; a zero weight is
    not stored. *)

From S2P Require Import Prelude.
Local Open Scope Z_scope.

Abbreviation Weight := Z.
Abbreviation RowKey := string.
Abbreviation ZSet := (gmap string Z).

(** The weight of a key; an absent key weighs 0. *)
Definition weight (z : ZSet) (k : RowKey) : Weight := default 0 (z !! k).

Module ZSet.
Definition add (self other : ZSet) : ZSet :=
  for_each_entry (λ _ entry w,
    let entry := i64_add (default 0 entry) w in
    if entry =? 0 then None else Some entry) self other.

Definition diff (self other : ZSet) : ZSet :=
  let result := for_each_entry (λ key entry new_weight,
    let d := i64_sub new_weight (weight self key) in
    if d =? 0 then entry else Some d) ∅ other in
  for_each_entry (λ key entry old_weight,
    match other !! key with
    | Some _ => entry
    | None => Some (i64_neg old_weight)
    end) result self.

Definition negate (self : ZSet) : ZSet := i64_neg <$> self.

Definition positive (self : ZSet) : ZSet := filter (λ e, 0 < e.2) self.

Definition is_present (self : ZSet) (key : RowKey) : bool :=
  match self !! key with Some w => 0 <? w | None => false end.
End ZSet.

(** What every Z-set of the engine satisfies: weights in range, zeros absent. *)
Definition zset_wf (z : ZSet) : Prop := map_Forall (λ _ w, in_i64 w ∧ w ≠ 0) z.

Lemma weight_range z k : zset_wf z → in_i64 (weight z k).
Proof.
  intros Hz. unfold weight. destruct (z !! k) as [w|] eqn:E; simpl; [by apply (Hz k w)|].
  width_lia.
Qed.

Lemma weight_lookup (z : ZSet) k w : z !! k = Some w → weight z k = w.
Proof. intros E. unfold weight. by rewrite E. Qed.

Lemma weight_lookup_None (z : ZSet) k : z !! k = None → weight z k = 0.
Proof. intros E. unfold weight. by rewrite E. Qed.

Lemma weight_empty k : weight ∅ k = 0.
Proof. reflexivity. Qed.

Lemma zset_empty_wf : zset_wf ∅.
Proof. apply map_Forall_empty. Qed.

Lemma zset_insert_wf z k w : in_i64 w → w ≠ 0 → zset_wf z → zset_wf (<[k := w]> z).
Proof. intros. by apply map_Forall_insert_2. Qed.

Lemma lookup_weight z k : zset_wf z →
  z !! k = if weight z k =? 0 then None else Some (weight z k).
Proof.
  intros Hz. unfold weight. destruct (z !! k) as [w|] eqn:E; simpl; [|done].
  destruct (Hz _ _ E) as [_ Hne]. by rewrite (proj2 (Z.eqb_neq _ _)).
Qed.

(** Sparse Z-sets are determined by their weights. *)
Lemma zset_ext a b : zset_wf a → zset_wf b → (∀ k, weight a k = weight b k) → a = b.
Proof.
  intros Ha Hb H. apply map_eq. intros k. by rewrite (lookup_weight a), (lookup_weight b), H.
Qed.

Lemma weight_add a b k : zset_wf a → weight (ZSet.add a b) k = i64_add (weight a k) (weight b k).
Proof.
  intros Ha. unfold weight at 1, ZSet.add. rewrite lookup_for_each_entry.
  unfold weight. destruct (b !! k) as [w|]; simpl.
  - destruct (Z.eqb_spec (i64_add (default 0 (a !! k)) w) 0) as [->|]; done.
  - unfold i64_add. rewrite Z.add_0_r. symmetry. apply wrap_i64_id. by apply weight_range.
Qed.

Lemma add_wf a b : zset_wf a → zset_wf (ZSet.add a b).
Proof.
  intros Ha k w. unfold ZSet.add. rewrite lookup_for_each_entry.
  destruct (b !! k) as [wb|]; [|apply Ha].
  destruct (Z.eqb_spec (i64_add (default 0 (a !! k)) wb) 0); [done|].
  intros [= <-]. split; [apply wrap_i64_range|done].
Qed.

Lemma weight_negate a k : weight (ZSet.negate a) k = i64_neg (weight a k).
Proof.
  unfold weight, ZSet.negate. rewrite lookup_fmap. by destruct (a !! k).
Qed.

Lemma i64_neg_nonzero w : in_i64 w → w ≠ 0 → i64_neg w ≠ 0.
Proof.
  intros Hw Hn H. unfold i64_neg in H. change 0 with (wrap_i64 0) in H.
  apply (wrap_i64_eq_mod (- w) 0) in H. rewrite Z.mod_0_l in H by done.
  apply Z.mod_divide in H as [q Hq]; [|done]. unfold in_i64, two63, two64 in *. lia.
Qed.

Lemma negate_wf a : zset_wf a → zset_wf (ZSet.negate a).
Proof.
  intros Ha k w. unfold ZSet.negate. rewrite lookup_fmap.
  destruct (a !! k) as [x|] eqn:E; simpl; [|done]. intros [= <-].
  destruct (Ha _ _ E). split; [apply wrap_i64_range|by apply i64_neg_nonzero].
Qed.

Lemma lookup_diff a b k : ZSet.diff a b !! k =
  match b !! k with
  | Some w => let d := i64_sub w (weight a k) in if d =? 0 then None else Some d
  | None => i64_neg <$> a !! k
  end.
Proof.
  unfold ZSet.diff. rewrite !lookup_for_each_entry, lookup_empty.
  destruct (a !! k) as [x|] eqn:Ea, (b !! k) as [y|] eqn:Eb; simpl; try done.
Qed.

Lemma weight_diff a b k :
  weight (ZSet.diff a b) k = i64_sub (weight b k) (weight a k).
Proof.
  unfold weight at 1. rewrite lookup_diff. unfold weight.
  destruct (b !! k) as [y|] eqn:Eb; simpl.
  - destruct (Z.eqb_spec (i64_sub y (default 0 (a !! k))) 0) as [->|]; done.
  - by destruct (a !! k).
Qed.

Lemma diff_wf a b : zset_wf a → zset_wf b → zset_wf (ZSet.diff a b).
Proof.
  intros Ha Hb k w. rewrite lookup_diff.
  destruct (b !! k) as [y|] eqn:Eb; simpl.
  - destruct (Z.eqb_spec (i64_sub y (weight a k)) 0); [done|].
    intros [= <-]. split; [apply wrap_i64_range|done].
  - destruct (a !! k) as [x|] eqn:Ea; simpl; [|done]. intros [= <-].
    destruct (Ha _ _ Ea). split; [apply wrap_i64_range|by apply i64_neg_nonzero].
Qed.

Lemma lookup_positive z k :
  ZSet.positive z !! k = if 0 <? weight z k then Some (weight z k) else None.
Proof.
  unfold ZSet.positive, weight. destruct (z !! k) as [w|] eqn:E; simpl.
  - destruct (Z.ltb_spec 0 w).
    + by apply map_lookup_filter_Some.
    + apply map_lookup_filter_None. right. intros x. rewrite E. intros [= <-]. simpl. lia.
  - apply map_lookup_filter_None. by left.
Qed.

Lemma is_present_spec z k : ZSet.is_present z k = (0 <? weight z k).
Proof. unfold ZSet.is_present, weight. by destruct (z !! k). Qed.

#[export] Hint Resolve zset_empty_wf zset_insert_wf add_wf negate_wf diff_wf : sp00ky.

(** Z-sets form an abelian group under pointwise addition, [i64] overflow
    included, with [diff] as subtraction: [a + diff a b = b]. Every operation
    keeps weights in range and stores no zero. *)
Theorem zset_group (a b c : ZSet) : zset_wf a → zset_wf b → zset_wf c →
  zset_wf (ZSet.add a b) ∧ zset_wf (ZSet.negate a) ∧ zset_wf (ZSet.diff a b) ∧
  ZSet.add a b = ZSet.add b a ∧
  ZSet.add (ZSet.add a b) c = ZSet.add a (ZSet.add b c) ∧
  ZSet.add a ∅ = a ∧ ZSet.add a (ZSet.negate a) = ∅ ∧ ZSet.add a (ZSet.diff a b) = b.
Proof.
  intros Ha Hb Hc.
  assert (∀ x y, zset_wf x → zset_wf y → zset_wf (ZSet.add x y)) as Hadd.
  { intros. by apply add_wf. }
  split_and!; try (by eauto using negate_wf, diff_wf); apply zset_ext;
    eauto using negate_wf, diff_wf, zset_empty_wf; intros k;
    rewrite ?weight_add, ?weight_negate, ?weight_diff by eauto using diff_wf; try wrap_solve.
  - by rewrite Z.add_opp_diag_r.
  - rewrite <- (wrap_i64_id (weight b k)) at 2 by (by apply weight_range). f_equal. lia.
Qed.

Definition sample_zset_a : ZSet := <["t:1" := 1]> (<["t:2" := 9223372036854775807]> ∅).
Definition sample_zset_b : ZSet := <["t:2" := 1]> (<["t:3" := -2]> ∅).

Lemma zset_group_witness :
  ZSet.add sample_zset_a (ZSet.diff sample_zset_a sample_zset_b) = sample_zset_b ∧
  weight (ZSet.add sample_zset_a sample_zset_b) "t:2" = -9223372036854775808.
Proof.
  assert (zset_wf sample_zset_a) as Ha by (repeat apply zset_insert_wf; done).
  assert (zset_wf sample_zset_b) as Hb by (repeat apply zset_insert_wf; done).
  split; [|reflexivity].
  apply (zset_group sample_zset_a sample_zset_b ∅ Ha Hb zset_empty_wf).
Defined.
