(* ===== verification/SnapshotHash.v ===== *)
(** * Content hashes of rows and tables

    Models [packages/ssp-protocol/src/snapshot_hash.rs] and the canonical
    writers of [packages/ssp/src/types/value.rs]: canonical JSON, record
    digests, the XOR set-hash a collection maintains incrementally, and the
    sorted table hash. *)

From S2P Require Import Prelude Platform Float64 Value.
Local Open Scope Z_scope.

(** ** Canonical JSON *)

(** [keys.sort()] on the keys of a map, each with what belongs to it. *)
Definition by_key {A} (a b : string * A) : Prop := string_cmp a.1 b.1 ≠ Gt.
#[global] Instance by_key_dec {A} : RelDecision (@by_key A).
Proof. intros a b. unfold by_key. apply _. Defined.
Definition sort_by_key {A} (l : list (string * A)) : list (string * A) := merge_sort by_key l.

(** A byte between two elements. *)
Fixpoint separated (sep : Z) (l : list (list Z)) : list Z :=
  match l with
  | [] => []
  | [x] => x
  | x :: l => x ++ sep :: separated sep l
  end.

Definition ascii_bytes (s : string) : list Z := bytes_of s.

(** [{"k":v,...}] over entries whose values are written already. *)
Definition write_object `{Hashing} (entries : list (string * list Z)) : list Z :=
  123 :: separated 44 (map (λ e, json_string e.1 ++ 58 :: e.2) (sort_by_key entries)) ++ [125].

Definition write_array (items : list (list Z)) : list Z := 91 :: separated 44 items ++ [93].

(** snapshot_hash.rs, over [serde_json::Value]. *)
Fixpoint canonical_json `{Hashing} (value : Value) : list Z :=
  match value with
  | VObject m => write_object (map (λ e, match e with (k, v) => (k, canonical_json v) end) m)
  | VArray arr => write_array (map canonical_json arr)
  | VNull => bytes_of "null"
  | VBool b => bytes_of (if b then "true" else "false")
  | VNumber (PosInt n) | VNumber (NegInt n) => json_i64 n
  | VNumber (NFloat f) => json_f64 (f64_bits f)
  | VString s => json_string s
  end.

Definition is_reserved_key (key : string) : bool := starts_with key "_00_".

(** The code points U+27E8, U+27E9 (three bytes each in UTF-8) and the
    backtick are dropped. *)
Fixpoint drop_escapes (bs : list Z) : list Z :=
  match bs with
  | [] => []
  | b :: r =>
      if b =? 96 then drop_escapes r
      else match b, r with
           | 226, 159 :: c :: r' =>
               if (c =? 168) || (c =? 169) then drop_escapes r' else b :: drop_escapes r
           | _, _ => b :: drop_escapes r
           end
  end.

(** [id.contains(U+27E8)] on UTF-8 bytes. *)
Fixpoint contains_open_bracket (bs : list Z) : bool :=
  match bs with
  | 226 :: (159 :: 168 :: _) as r => true
  | _ :: r => contains_open_bracket r
  | [] => false
  end.

Definition normalize_record_id (id : string) : string :=
  if contains_open_bracket (bytes_of id) || contains_char (Ascii.ascii_of_nat 96) id
  then string_of_bytes (drop_escapes (bytes_of id))
  else id.

Definition is_vnull (v : Value) : bool := match v with VNull => true | _ => false end.

Definition strip_reserved_keys (value : Value) : Value :=
  match value with
  | VObject m => VObject (map
      (λ e, match e with
            | (k, v) =>
                if String.eqb k "id" then
                  match v with VString s => (k, VString (normalize_record_id s)) | _ => (k, v) end
                else (k, v)
            end)
      (List.filter (λ e, negb (is_reserved_key e.1) && negb (is_vnull e.2)) m))
  | other => other
  end.

(** value.rs: the same bytes without building the JSON tree. *)
Definition write_json_f64 `{Hashing} (f : f64) : list Z :=
  if F64.is_finite f then json_f64 (f64_bits f) else bytes_of "null".

Fixpoint write_canonical `{Hashing} (value : Sp00kyValue) : list Z :=
  match value with
  | Null => bytes_of "null"
  | Bool true => bytes_of "true"
  | Bool false => bytes_of "false"
  | Int i => json_i64 i
  | Float f => write_json_f64 f
  | Str s => json_string s
  | Array items => write_array (map write_canonical items)
  | Object m => write_object (map (λ e, match e with (k, v) => (k, write_canonical v) end) m)
  end.

Definition write_canonical_record `{Hashing} (value : Sp00kyValue) : list Z :=
  match value with
  | Object m => write_object (map
      (λ e, match e with
            | (k, v) =>
                (k, if String.eqb k "id" then
                      match v with
                      | Str s => json_string (normalize_record_id s)
                      | _ => write_canonical v
                      end
                    else write_canonical v)
            end)
      (List.filter (λ e, negb (is_reserved_key e.1) && negb (Sp00kyValue.is_json_null e.2)) m))
  | _ => write_canonical value
  end.

(** ** Digests *)

Definition digest_from_canonical `{Hashing} (raw_id : string) (canonical : list Z) : list Z :=
  blake3 (bytes_of raw_id ++ 0 :: canonical).

Definition record_digest `{Hashing} (raw_id : string) (value : Value) : list Z :=
  digest_from_canonical raw_id (canonical_json (strip_reserved_keys value)).

(** [Sp00kyValue::record_digest_into]. *)
Definition record_digest_into `{Hashing} (value : Sp00kyValue) (raw_id : string) : list Z :=
  digest_from_canonical raw_id (write_canonical_record value).

Definition xor_digest (acc digest : list Z) : list Z := zip_with Z.lxor acc digest.
Definition xor_in `{Hashing} (acc : list Z) (raw_id : string) (value : Value) : list Z :=
  xor_digest acc (record_digest raw_id value).
Definition xor_out `{Hashing} (acc : list Z) (raw_id : string) (value : Value) : list Z :=
  xor_in acc raw_id value.
Definition xor_empty : list Z := List.repeat 0 32.

(** ** Hexadecimal spellings *)

Definition hex_digit (n : Z) : Ascii.ascii :=
  Ascii.ascii_of_N (Z.to_N (if n <? 10 then 48 + n else 87 + n)).

(** [{:02x}] of a byte. *)
Definition hex_byte (b : Z) : string :=
  String (hex_digit (b / 16)) (String (hex_digit (b mod 16)) EmptyString).

Definition to_hex (bs : list Z) : string := String.concat "" (map hex_byte bs).

Definition XOR_PREFIX : string := "x3:".
Definition HASH_PREFIX : string := "b3:".

Definition xor_acc_to_hex (acc : list Z) : string := (XOR_PREFIX +:+ to_hex acc)%string.
Definition xor_empty_table_hash : string := xor_acc_to_hex xor_empty.

(** A computation that can stop the thread. *)
Inductive outcome (A : Type) := Done (a : A) | Panic.
Arguments Done {A} a.
Arguments Panic {A}.

(** A hex digit's value, either case. *)
Definition hex_value (c : Z) : option Z :=
  if between 48 c 57 then Some (c - 48)
  else if between 97 c 102 then Some (c - 87)
  else if between 65 c 70 then Some (c - 55)
  else None.

(** [u8::from_str_radix(s, 16)] on a string of two bytes: a leading plus
    sign is allowed. *)
Definition u8_from_hex2 (a b : Z) : option Z :=
  if a =? 43 then hex_value b
  else let? x := hex_value a in let? y := hex_value b in Some (16 * x + y).

(** The loop over the 32 pairs: slicing a string off a character boundary
    panics. [bs] starts at a boundary. *)
Fixpoint parse_hex_pairs (n : nat) (bs : list Z) : outcome (option (list Z)) :=
  match n with
  | O => Done (Some [])
  | S n =>
      match bs with
      | a :: b :: rest =>
          match head rest with
          | Some c => if utf8_cont c then Panic else
              match u8_from_hex2 a b with
              | None => Done None
              | Some x =>
                  match parse_hex_pairs n rest with
                  | Done (Some l) => Done (Some (x :: l)) | r => r end
              end
          | None =>
              match u8_from_hex2 a b with
              | None => Done None
              | Some x =>
                  match parse_hex_pairs n rest with
                  | Done (Some l) => Done (Some (x :: l)) | r => r end
              end
          end
      | _ => Panic
      end
  end.

Definition xor_acc_from_hex (s : string) : outcome (option (list Z)) :=
  match strip_prefix XOR_PREFIX s with
  | None => Done None
  | Some hex =>
      let bs := bytes_of hex in
      if negb (zlength bs =? 64) then Done None else parse_hex_pairs 32 bs
  end.

(** ** Table hashes *)

Definition xor_table_hash `{Hashing} (records : list (string * Value)) : string :=
  xor_acc_to_hex (foldl (λ acc r, xor_in acc r.1 r.2) xor_empty records).

(** The framed bytes of the sorted hash. *)
Definition framed (pairs : list (string * list Z)) : list Z :=
  concat (map (λ p, bytes_of p.1 ++ 0 :: p.2 ++ [0]) pairs).

Definition hash_table `{Hashing} (records : list (string * Value)) : string :=
  let pairs := map (λ r, (normalize_record_id r.1, strip_reserved_keys r.2)) records in
  let pairs := sort_by_key pairs in
  (HASH_PREFIX +:+ to_hex (blake3 (framed (map (λ p, (p.1, canonical_json p.2)) pairs))))%string.

Definition empty_table_hash `{Hashing} : string := hash_table [].

(** [TableHasher]: records reduced to bytes as they arrive. *)
Module TableHasher.
Definition t : Type := list (string * list Z).
Definition new : t := [].
Definition add `{Hashing} (h : t) (raw_id : string) (value : Value) : t :=
  h ++ [(normalize_record_id raw_id, canonical_json (strip_reserved_keys value))].
Definition len (h : t) : Z := zlength h.
Definition finish `{Hashing} (h : t) : string :=
  (HASH_PREFIX +:+ to_hex (blake3 (framed (sort_by_key h))))%string.
End TableHasher.

Definition empty_hash_like `{Hashing} (like : string) : string :=
  if starts_with like XOR_PREFIX then xor_empty_table_hash else empty_table_hash.

Record TableHashMismatch := MkMismatch { mm_table : string; mm_a : string; mm_b : string }.

(** Over two [BTreeMap]s: one row per table that disagrees. The order is the
    tables' (a [BTreeSet] of the keys of both). *)
Definition diff_table_hashes `{Hashing} (a b : gmap string string) : list TableHashMismatch :=
  let all := merge_sort (λ x y, string_cmp x y ≠ Gt) (elements (dom a ∪ dom b)) in
  omap (λ table,
    let? (av, bv) := match a !! table, b !! table with
      | Some av, Some bv => Some (av, bv)
      | Some av, None => Some (av, empty_hash_like av)
      | None, Some bv => Some (empty_hash_like bv, bv)
      | None, None => None
      end in
    if String.eqb av bv then None else Some (MkMismatch table av bv)) all.

(** ** Canonical order *)

Lemma by_key_total {A} : Total (@by_key A).
Proof.
  intros x y. unfold by_key. rewrite (string_cmp_flip x.1 y.1).
  destruct (string_cmp x.1 y.1); auto.
Qed.

Lemma by_key_trans {A} : Transitive (@by_key A).
Proof.
  intros x y z. unfold by_key.
  apply (cmp_trans_lt _ _ (string_cmp_lawful (λ _, True))); done.
Qed.

Lemma by_key_antisym {A} (x y : string * A) : by_key x y → by_key y x → x.1 = y.1.
Proof.
  unfold by_key. rewrite (string_cmp_flip x.1 y.1). intros H1 H2. apply string_cmp_eq.
  destruct (string_cmp x.1 y.1); done.
Qed.

(** With unique keys, sorting forgets the order of the entries. *)
Lemma sort_by_key_perm {A} (l k : list (string * A)) :
  NoDup l.*1 → l ≡ₚ k → sort_by_key l = sort_by_key k.
Proof.
  intros Hn Hp. unfold sort_by_key.
  pose proof (@by_key_total A). pose proof (@by_key_trans A).
  apply (StronglySorted_unique_strong by_key).
  - intros x y Hx Hy Hxy Hyx. rewrite !merge_sort_Permutation in *. rewrite <- Hp in Hy.
    destruct x as [n a], y as [n' b].
    pose proof (by_key_antisym _ _ Hxy Hyx) as Heq. simpl in Heq. subst n'.
    apply (assoc_get_elem _ _ _ Hn) in Hx, Hy. congruence.
  - by apply StronglySorted_merge_sort.
  - by apply StronglySorted_merge_sort.
  - by rewrite !merge_sort_Permutation.
Qed.

Section canonical.
Context `{Hashing}.

Let pairs {A B} (f : A → B) (m : list (string * A)) : list (string * B) :=
  map (λ e, match e with (k, v) => (k, f v) end) m.

Lemma pairs_keys {A B} (f : A → B) m :
  (map (λ e : string * A, match e with (k, v) => (k, f v) end) m).*1 = m.*1.
Proof. induction m as [|[k v] m IH]; simpl; [done|]. by f_equal. Qed.

Lemma pairs_ext {A B C} (f : A → C) (g : B → C) (h : A → B) m :
  Forall (λ e, f e.2 = g (h e.2)) m → pairs f m = pairs g (pairs h m).
Proof.
  induction 1 as [|[k v] m Hv _ IH]; simpl; [done|]. f_equal; [|done]. by f_equal.
Qed.

Lemma write_object_perm (l k : list (string * list Z)) :
  NoDup l.*1 → l ≡ₚ k → write_object l = write_object k.
Proof. intros Hn Hp. unfold write_object. by rewrite (sort_by_key_perm _ _ Hn Hp). Qed.

(** Not building the JSON tree changes no byte. *)
Lemma write_canonical_json v : value_wf v → write_canonical v = canonical_json (to_json v).
Proof.
  induction v using value_ind'; intros Hw; inversion Hw as [| | | | |? Hwl|? Hn Hwm]; subst;
    simpl; try done.
  - by destruct b.
  - by destruct (i <? 0).
  - unfold write_json_f64. by destruct (F64.is_finite f).
  - f_equal. rewrite map_map. apply map_ext_Forall.
    rewrite Forall_forall in H0, Hwl |- *. auto.
  - rewrite assoc_collect_NoDup by (by rewrite to_json_pairs_keys). f_equal.
    apply pairs_ext. rewrite Forall_forall in H0, Hwm |- *. auto.
Qed.

Lemma is_vnull_to_json v : is_vnull (to_json v) = Sp00kyValue.is_json_null v.
Proof. destruct v; simpl; try done. by destruct (F64.is_finite f). Qed.

(** C28: A row's digest computed straight off the stored value is the digest
    the snapshot hash computes from its JSON: the stripping of reserved and
    null fields, the id normalisation and the key order agree byte for byte. *)
Theorem record_digest_agrees v raw_id :
  value_wf v → record_digest_into v raw_id = record_digest raw_id (to_json v).
Proof.
  intros Hw. unfold record_digest_into, record_digest. f_equal.
  destruct v as [| |i|f| | |m]; try exact (write_canonical_json _ Hw).
  { simpl. unfold write_json_f64. by destruct (F64.is_finite f). }
  inversion Hw as [| | | | | |? Hn Hwm]; subst. simpl.
  rewrite assoc_collect_NoDup by (by rewrite to_json_pairs_keys). f_equal.
  clear Hn Hw. induction Hwm as [|[k v] m Hv _ IH]; simpl; [done|].
  rewrite is_vnull_to_json.
  destruct (negb (is_reserved_key k) && negb (Sp00kyValue.is_json_null v)); simpl; [|done].
  rewrite IH. f_equal. destruct (String.eqb k "id"); [|by rewrite write_canonical_json].
  pose proof (write_canonical_json v Hv) as Hc. simpl in Hv.
  destruct v; try done; simpl in *; rewrite ?Hc; try done. unfold write_json_f64 in *. by destruct (F64.is_finite f).
Qed.

Lemma write_canonical_equiv v v' :
  value_wf v → value_equiv v v' → write_canonical v = write_canonical v'.
Proof.
  revert v'. induction v using value_ind'; intros v' Hw He;
    inversion He as [| | | | |? l' Hl|? m' m'' Hp Hf]; subst; try done;
    inversion Hw as [| | | | |? Hwl|? Hn Hwm]; subst; simpl.
  - f_equal. clear He Hw. revert H0 Hwl. induction Hl as [|x y l l' Hx _ IH]; intros IHs Hwl; [done|].
    apply Forall_cons_1 in IHs as [? ?], Hwl as [? ?]. simpl. f_equal; auto.
  - rewrite (write_object_perm _ (map (λ e, match e with (k, v) => (k, write_canonical v) end) m'')).
    2:{ by rewrite pairs_keys. }
    2:{ by apply Permutation_map. }
    f_equal. rewrite Hp in H0, Hwm. clear He Hw Hn Hp. revert H0 Hwm.
    induction Hf as [|[k x] [k' y] m1 m2 [Hk Hx] _ IH]; intros IHs Hwm; [done|].
    apply Forall_cons_1 in IHs as [? ?], Hwm as [? ?]. simpl in *. subst k'.
    f_equal; [|auto]. f_equal. auto.
Qed.

(** The entries of a record that reach the digest, with their bytes. *)
Definition record_entries (m : list (string * Sp00kyValue)) : list (string * list Z) :=
  map (λ e, match e with
            | (k, v) =>
                (k, if String.eqb k "id" then
                      match v with
                      | Str s => json_string (normalize_record_id s)
                      | _ => write_canonical v
                      end
                    else write_canonical v)
            end)
    (List.filter (λ e, negb (is_reserved_key e.1) && negb (Sp00kyValue.is_json_null e.2)) m).

Lemma record_entries_perm m m' : m ≡ₚ m' → record_entries m ≡ₚ record_entries m'.
Proof. intros Hp. unfold record_entries. apply Permutation_map. by apply perm_filter_bool. Qed.

Lemma record_entries_keys m : NoDup m.*1 → NoDup (record_entries m).*1.
Proof.
  intros Hn. unfold record_entries.
  assert (∀ l : list (string * Sp00kyValue), (map (λ e, match e with (k, v) =>
    (k, if String.eqb k "id" then
          match v with Str s => json_string (normalize_record_id s) | _ => write_canonical v end
        else write_canonical v) end) l).*1 = l.*1) as ->.
  { induction l as [|[k v] l IH]; simpl; [done|]. by f_equal. }
  induction m as [|[k v] m IH]; simpl; [constructor|].
  apply NoDup_cons in Hn as [Hk Hn]. specialize (IH Hn).
  destruct (_ && _); simpl; [|done]. apply NoDup_cons. split; [|done]. intros Hin. apply Hk.
  apply list_elem_of_fmap in Hin as (e & -> & He).
  apply list_elem_of_In, filter_In in He as [He _].
  apply (list_elem_of_fmap_2 fst m e), list_elem_of_In, He.
Qed.

Lemma record_entries_equiv m m' :
  Forall (λ e, value_wf e.2) m →
  Forall2 (λ e e', e.1 = e'.1 ∧ value_equiv e.2 e'.2) m m' →
  record_entries m = record_entries m'.
Proof.
  intros Hw Hf. induction Hf as [|[k x] [k' y] m m' [Hk Hx] _ IH]; [done|].
  apply Forall_cons_1 in Hw as [Hwx Hw]. simpl in Hk, Hx, Hwx. subst k'.
  unfold record_entries. simpl.
  assert (Sp00kyValue.is_json_null x = Sp00kyValue.is_json_null y) as -> by (by destruct Hx).
  specialize (IH Hw). unfold record_entries in IH.
  destruct (negb (is_reserved_key k) && _); [|done]. simpl. rewrite IH. f_equal. f_equal.
  pose proof (write_canonical_equiv _ _ Hwx Hx) as Hc.
  destruct (String.eqb k "id"); [|done]. by destruct Hx.
Qed.

(** A digest does not see the iteration order of any map in the row,
    and it does not see top-level reserved ([_00_]) or null fields: what
    makes two independent producers of a row agree. *)
Theorem record_digest_insensitive v v' raw_id :
  value_wf v → value_equiv v v' →
  record_digest_into v raw_id = record_digest_into v' raw_id ∧
  ∀ m k x, v = Object m → is_reserved_key k || Sp00kyValue.is_json_null x = true →
    record_digest_into (Object (m ++ [(k, x)])) raw_id = record_digest_into v' raw_id.
Proof.
  intros Hw He.
  assert (record_digest_into v raw_id = record_digest_into v' raw_id) as Heq.
  { unfold record_digest_into. f_equal.
    destruct He as [| | | | |l l' Hl|m m' m'' Hp Hf]; try done.
    - by apply write_canonical_equiv; [|constructor].
    - inversion Hw as [| | | | | |? Hn Hwm]; subst.
      change (write_object (record_entries m) = write_object (record_entries m')).
      rewrite <- (record_entries_equiv m'' m'); [|by rewrite <- Hp|done].
      apply write_object_perm; [by apply record_entries_keys|by apply record_entries_perm]. }
  split; [done|]. intros m k x -> Hk. rewrite <- Heq. unfold record_digest_into. f_equal.
  change (write_object (record_entries (m ++ [(k, x)])) = write_object (record_entries m)).
  f_equal. unfold record_entries. f_equal. rewrite List.filter_app. simpl.
  rewrite <- negb_orb, Hk. simpl. by rewrite app_nil_r.
Qed.
End canonical.

Lemma record_digest_agrees_witness :
  record_digest_into (Object [("x", Int 1); ("id", Str "a:b"); ("_00_rv", Int 2)]) "b" =
  record_digest "b" (VObject [("x", VNumber (PosInt 1)); ("id", VString "a:b"); ("_00_rv", VNumber (PosInt 2))]).
Proof.
  apply (record_digest_agrees (Object [("x", Int 1); ("id", Str "a:b"); ("_00_rv", Int 2)]) "b").
  repeat first [constructor | by vm_compute | set_solver].
Defined.

Lemma record_digest_insensitive_witness :
  record_digest_into (Object [("x", Int 1); ("y", Str "q")]) "b" =
    record_digest_into (Object [("y", Str "q"); ("x", Int 1)]) "b" ∧
  record_digest_into (Object [("x", Int 1); ("y", Str "q"); ("_00_rv", Int 3)]) "b" =
    record_digest_into (Object [("y", Str "q"); ("x", Int 1)]) "b".
Proof.
  destruct (record_digest_insensitive (Object [("x", Int 1); ("y", Str "q")])
    (Object [("y", Str "q"); ("x", Int 1)]) "b") as [H1 H2].
  - repeat first [constructor | by vm_compute | set_solver].
  - apply (ve_object _ _ [("y", Str "q"); ("x", Int 1)]); [constructor|].
    repeat constructor.
  - split; [exact H1|]. exact (H2 [("x", Int 1); ("y", Str "q")] "_00_rv" (Int 3) eq_refl eq_refl).
Defined.

(** ** The XOR accumulator *)

Definition acc_wf (acc : list Z) : Prop := length acc = 32%nat ∧ Forall (λ b, 0 <= b < 256) acc.

Lemma xor_empty_wf : acc_wf xor_empty.
Proof. split; [done|]. repeat constructor; done. Qed.

Lemma lxor_byte a b : 0 <= a < 256 → 0 <= b < 256 → 0 <= Z.lxor a b < 256.
Proof.
  intros Ha Hb. split; [apply Z.lxor_nonneg; lia|].
  destruct (Z.eq_dec (Z.lxor a b) 0) as [->|Hne]; [lia|].
  apply (Z.log2_lt_pow2 _ 8); [assert (0 <= Z.lxor a b) by (apply Z.lxor_nonneg; lia); lia|].
  eapply Z.le_lt_trans; [apply Z.log2_lxor; lia|]. apply Z.max_lub_lt.
  - destruct (Z.eq_dec a 0) as [->|]; [done|]. apply Z.log2_lt_pow2; [lia|]. change (2 ^ 8) with 256. lia.
  - destruct (Z.eq_dec b 0) as [->|]; [done|]. apply Z.log2_lt_pow2; [lia|]. change (2 ^ 8) with 256. lia.
Qed.

Lemma xor_digest_wf a b : acc_wf a → acc_wf b → acc_wf (xor_digest a b).
Proof.
  intros [Ha1 Ha2] [Hb1 Hb2]. split; [unfold xor_digest; rewrite length_zip_with; lia|].
  unfold xor_digest. clear Ha1 Hb1. revert b Hb2.
  induction Ha2 as [|x a Hx _ IH]; intros b Hb; [constructor|].
  destruct Hb as [|y b Hy Hb]; constructor; [by apply lxor_byte|by apply IH].
Qed.

Lemma xor_digest_comm a b : xor_digest a b = xor_digest b a.
Proof.
  unfold xor_digest. revert b. induction a as [|x a IH]; intros [|y b]; simpl; try done.
  by rewrite Z.lxor_comm, IH.
Qed.

Lemma xor_digest_assoc a b c : xor_digest (xor_digest a b) c = xor_digest a (xor_digest b c).
Proof.
  unfold xor_digest. revert b c.
  induction a as [|x a IH]; intros [|y b] [|z c]; simpl; try done.
  by rewrite Z.lxor_assoc, IH.
Qed.

Lemma xor_digest_cancel a b : length a = length b → xor_digest (xor_digest a b) b = a.
Proof.
  unfold xor_digest. revert b. induction a as [|x a IH]; intros [|y b] Hl; simpl in *; try lia; [done|].
  by rewrite Z.lxor_assoc, Z.lxor_nilpotent, Z.lxor_0_r, IH by lia.
Qed.

Lemma xor_digest_left_comm a b c : xor_digest a (xor_digest b c) = xor_digest b (xor_digest a c).
Proof. by rewrite <- !xor_digest_assoc, (xor_digest_comm a b). Qed.

Lemma blake3_acc_wf `{HashingLaws} bs : acc_wf (blake3 bs).
Proof. split; [apply blake3_length|apply blake3_bytes]. Qed.

(** ** The hex spelling of an accumulator *)

Lemma bytes_of_app s t : bytes_of (s +:+ t) = bytes_of s ++ bytes_of t.
Proof.
  induction s as [|a s IH]; [done|].
  change (bytes_of (String a s +:+ t)) with (byte_of_ascii a :: bytes_of (s +:+ t)).
  by rewrite IH.
Qed.

Lemma string_app_nil_r s : s +:+ "" = s.
Proof. apply bytes_of_inj. by rewrite bytes_of_app, app_nil_r. Qed.

Definition hex_code (n : Z) : Z := if n <? 10 then 48 + n else 87 + n.

Lemma byte_of_hex_digit n : 0 <= n < 16 → byte_of_ascii (hex_digit n) = hex_code n.
Proof.
  intros Hn. unfold byte_of_ascii, hex_digit. fold (hex_code n).
  assert (0 <= hex_code n < 256) by (unfold hex_code; destruct (n <? 10); lia).
  rewrite Ascii.N_ascii_embedding by lia. lia.
Qed.

Lemma hex_value_code n : 0 <= n < 16 →
  hex_value (hex_code n) = Some n ∧ hex_code n <> 43 ∧ utf8_cont (hex_code n) = false.
Proof.
  intros Hn. unfold hex_value, hex_code, between, utf8_cont.
  destruct (Z.ltb_spec n 10).
  - rewrite !(proj2 (Z.leb_le _ _)) by lia. simpl. split_and!; [f_equal; lia|lia|].
    rewrite (proj2 (Z.leb_gt 128 _)) by lia. done.
  - rewrite (proj2 (Z.leb_gt (87 + n) 57)) by lia. rewrite andb_false_r.
    rewrite !(proj2 (Z.leb_le _ _)) by lia. simpl. split_and!; [f_equal; lia|lia|].
    rewrite (proj2 (Z.leb_gt 128 _)) by lia. done.
Qed.

Lemma bytes_of_to_hex bs : Forall (λ b, 0 <= b < 256) bs →
  bytes_of (to_hex bs) = concat (map (λ b, [hex_code (b / 16); hex_code (b mod 16)]) bs).
Proof.
  unfold to_hex. induction 1 as [|b bs Hb _ IH]; [done|].
  assert (∀ x l, String.concat "" (x :: l) = x +:+ String.concat "" l) as Hc.
    { intros x [|y l]; [|done]. exact (eq_sym (string_app_nil_r x)). }
  cbn [map]. rewrite Hc, bytes_of_app, IH. cbn [concat]. f_equal.
  unfold hex_byte, bytes_of. simpl.
  assert (0 <= b / 16 < 16) by (split; [apply Z.div_pos; lia|apply Z.div_lt_upper_bound; lia]).
  assert (0 <= b mod 16 < 16) by (apply Z.mod_pos_bound; lia).
  by rewrite !byte_of_hex_digit.
Qed.

Lemma parse_hex_pairs_ok bs : Forall (λ b, 0 <= b < 256) bs →
  parse_hex_pairs (length bs)
    (concat (map (λ b, [hex_code (b / 16); hex_code (b mod 16)]) bs)) = Done (Some bs).
Proof.
  induction 1 as [|b bs Hb Hbs IH]; [done|]. cbn [length map concat app parse_hex_pairs].
  assert (0 <= b / 16 < 16) as H1 by (split; [apply Z.div_pos; lia|apply Z.div_lt_upper_bound; lia]).
  assert (0 <= b mod 16 < 16) as H2 by (apply Z.mod_pos_bound; lia).
  destruct (hex_value_code _ H1) as (E1 & N1 & _), (hex_value_code _ H2) as (E2 & _ & _).
  assert (u8_from_hex2 (hex_code (b / 16)) (hex_code (b mod 16)) = Some b) as ->.
  { unfold u8_from_hex2. rewrite (proj2 (Z.eqb_neq _ 43)) by done. rewrite E1, E2.
    f_equal. symmetry. apply Z.div_mod. lia. }
  rewrite IH. destruct Hbs as [|c bs Hc Hbs]; [done|]. cbn [map concat app head].
  assert (0 <= c / 16 < 16) as H3 by (split; [apply Z.div_pos; lia|apply Z.div_lt_upper_bound; lia]).
  destruct (hex_value_code _ H3) as (_ & _ & E3). by rewrite E3.
Qed.

(** An accumulator survives its [x3:] spelling: formatting and parsing give it
    back, and parsing does not panic on what formatting wrote. *)
Theorem xor_acc_hex_roundtrip acc :
  acc_wf acc → xor_acc_from_hex (xor_acc_to_hex acc) = Done (Some acc).
Proof.
  intros [Hl Hb]. unfold xor_acc_from_hex, xor_acc_to_hex. rewrite strip_prefix_app.
  rewrite (bytes_of_to_hex acc Hb).
  assert (zlength (concat (map (λ b, [hex_code (b / 16); hex_code (b mod 16)]) acc)) = 64) as ->.
  { unfold zlength. rewrite (length_concat_const _ 2).
    - rewrite length_map. lia.
    - rewrite Forall_map. by apply Forall_true. }
  cbn [negb Z.eqb Pos.eqb]. rewrite <- Hl. by apply parse_hex_pairs_ok.
Qed.

Lemma xor_acc_hex_roundtrip_witness :
  xor_acc_from_hex (xor_acc_to_hex (blake3 [1])) = Done (Some (blake3 [1])).
Proof. apply xor_acc_hex_roundtrip, blake3_acc_wf. Defined.

(** A value that is not well formed can panic the parser instead of giving
    [None]: a two-byte character straddling two digit positions. And a plus
    sign passes for a digit. *)
Definition straddling : string :=
  string_of_bytes (bytes_of "x3:a" ++ concat (List.repeat [195; 169] 31) ++ [97]).

Lemma xor_acc_from_hex_panics :
  utf8_valid (bytes_of straddling) = true ∧ xor_acc_from_hex straddling = Panic ∧
  xor_acc_from_hex (string_of_bytes (bytes_of "x3:+a" ++ List.repeat 48 62)) =
    Done (Some (10 :: List.repeat 0 31)).
Proof. by vm_compute. Qed.
