(* ===== verification/JsonText.v ===== *)
(** * Canonical JSON text is unambiguous

    Two JSON values with the same canonical text ([canonical_json] of
    packages/ssp-protocol/src/snapshot_hash.rs) are equal up to the order of
    their objects' keys. How strings and numbers are written is serde_json's;
    what is used of it is the class [JsonLaws]. *)

From S2P Require Import Prelude Platform Float64 Value SnapshotHash.
Local Open Scope Z_scope.

(** A byte of a number's text. *)
Definition number_byte (b : Z) : bool :=
  between 48 b 57 || (b =? 45) || (b =? 43) || (b =? 46) || (b =? 101) || (b =? 69).

(** What serde_json writes for a string is quoted and has its control
    characters escaped, and where it ends can be told from the text; different
    numbers, and an integer and a float, are written differently. *)
Class JsonLaws `{Hashing} := {
  js_string_quoted : ∀ s, ∃ r, json_string s = 34 :: r;
  js_string_printable : ∀ s, Forall (λ b, 32 <= b) (json_string s);
  js_string_prefix : ∀ s s' r r', json_string s ++ r = json_string s' ++ r' → s = s' ∧ r = r';
  js_i64_bytes : ∀ n, json_i64 n ≠ [] ∧ Forall (λ b, number_byte b = true) (json_i64 n);
  js_f64_bytes : ∀ n, json_f64 n ≠ [] ∧ Forall (λ b, number_byte b = true) (json_f64 n);
  js_i64_inj : ∀ n n', json_i64 n = json_i64 n' → n = n';
  js_f64_inj : ∀ f f', F64.is_finite f = true → F64.is_finite f' = true →
    json_f64 (f64_bits f) = json_f64 (f64_bits f') → f = f';
  js_i64_f64 : ∀ n b, json_i64 n ≠ json_f64 b;
}.

(** ** Values *)

Section json_ind.
Context (P : Value → Prop).
Context (Hnull : P VNull) (Hbool : ∀ b, P (VBool b)) (Hnumber : ∀ n, P (VNumber n)) (Hstring : ∀ s, P (VString s)).
Context (Harray : ∀ l, Forall P l → P (VArray l)) (Hobject : ∀ m, Forall (λ e : string * Value, P e.2) m → P (VObject m)).

Definition json_ind : ∀ v, P v :=
  fix go v := match v with
  | VNull => Hnull
  | VBool b => Hbool b
  | VNumber n => Hnumber n
  | VString s => Hstring s
  | VArray l => Harray l ((fix all l : Forall P l :=
      match l with [] => Forall_nil_2 P | v :: l => Forall_cons_2 P v l (go v) (all l) end) l)
  | VObject m => Hobject m ((fix all m : Forall (λ e : string * Value, P e.2) m :=
      match m with [] => Forall_nil_2 _ | e :: m => Forall_cons_2 (λ e : string * Value, P e.2) e m (go e.2) (all m) end) m)
  end.
End json_ind.

Definition number_wf (n : Number) : Prop :=
  match n with PosInt n => 0 <= n | NegInt n => n < 0 | NFloat f => F64.is_finite f = true end.

(** What [serde_json::Value] holds: numbers of one kind, unique keys. *)
Inductive json_wf : Value → Prop :=
  | jw_null : json_wf VNull
  | jw_bool b : json_wf (VBool b)
  | jw_number n : number_wf n → json_wf (VNumber n)
  | jw_string s : json_wf (VString s)
  | jw_array l : Forall json_wf l → json_wf (VArray l)
  | jw_object m : NoDup m.*1 → Forall (λ e, json_wf e.2) m → json_wf (VObject m).
#[export] Hint Constructors json_wf : sp00ky.

(** Keys sorted at every depth. *)
Fixpoint norm (v : Value) : Value :=
  match v with
  | VArray l => VArray (map norm l)
  | VObject m => VObject (sort_by_key (map (λ e, match e with (k, v) => (k, norm v) end) m))
  | _ => v
  end.

Definition norm_entries (m : list (string * Value)) : list (string * Value) :=
  map (λ e, match e with (k, v) => (k, norm v) end) m.

Lemma norm_entries_keys m : (norm_entries m).*1 = m.*1.
Proof. apply pairs_keys. Qed.

Lemma sort_by_key_keys {A} (m : list (string * A)) : NoDup m.*1 → NoDup (sort_by_key m).*1.
Proof. intros Hn. unfold sort_by_key. by rewrite (merge_sort_Permutation by_key m). Qed.

Lemma assoc_get_perm {A} (m m' : list (string * A)) k : NoDup m.*1 → m ≡ₚ m' → assoc_get k m = assoc_get k m'.
Proof.
  intros Hn Hp. assert (NoDup m'.*1) as Hn' by (by rewrite <- Hp). destruct (assoc_get k m') as [v|] eqn:E.
  - apply assoc_get_elem; [done|]. rewrite Hp. by apply assoc_get_Some.
  - destruct (assoc_get k m) as [v|] eqn:E'; [|done]. apply assoc_get_Some in E'. rewrite Hp in E'.
    by rewrite (assoc_get_elem _ _ _ Hn' E') in E.
Qed.

Lemma assoc_get_norm m k : assoc_get k (norm_entries m) = norm <$> assoc_get k m.
Proof. induction m as [|[k' v] m IH]; [done|]. cbn. by destruct (String.eqb k k'). Qed.

(** Sorting keys loses nothing that can be looked up. *)
Lemma get_norm v k : json_wf v → Value.get (norm v) k = norm <$> Value.get v k.
Proof.
  intros Hw. destruct Hw as [| | | | |m Hn _]; try done. unfold Value.get. cbn. rewrite <- assoc_get_norm. symmetry.
  apply assoc_get_perm; [by rewrite norm_entries_keys|]. unfold sort_by_key. by rewrite (merge_sort_Permutation by_key).
Qed.

(** ** Text *)

Section text.
Context `{Hashing}.

(** The text of a value, its keys in the order they have. *)
Fixpoint json_text (v : Value) : list Z :=
  match v with
  | VObject m =>
      123 :: separated 44 (map (λ e, match e with (k, v) => json_string k ++ 58 :: json_text v end) m) ++ [125]
  | VArray l => write_array (map json_text l)
  | VNull => bytes_of "null"
  | VBool b => bytes_of (if b then "true" else "false")
  | VNumber (PosInt n) | VNumber (NegInt n) => json_i64 n
  | VNumber (NFloat f) => json_f64 (f64_bits f)
  | VString s => json_string s
  end.

(** Sorting by key commutes with a change of the values. *)
Lemma sort_by_key_map {A B} (f : string → A → B) (m : list (string * A)) : NoDup m.*1 →
  sort_by_key (map (λ e, (e.1, f e.1 e.2)) m) = map (λ e, (e.1, f e.1 e.2)) (sort_by_key m).
Proof.
  intros Hn. pose proof (@by_key_total A). pose proof (@by_key_trans A). pose proof (@by_key_total B). pose proof (@by_key_trans B).
  unfold sort_by_key. apply (StronglySorted_unique_strong by_key).
  - intros [k x] [k' y] Hx Hy Hxy Hyx. pose proof (by_key_antisym _ _ Hxy Hyx) as E. cbn in E. subst k'.
    rewrite merge_sort_Permutation in Hx.
    apply list_elem_of_In, in_map_iff in Hx as ([k1 a] & [= <- <-] & Ha%list_elem_of_In).
    apply list_elem_of_In, in_map_iff in Hy as ([k2 b] & [= <- <-] & Hb%list_elem_of_In).
    rewrite merge_sort_Permutation in Hb. apply (assoc_get_elem _ _ _ Hn) in Ha, Hb. cbn in *. congruence.
  - by apply StronglySorted_merge_sort.
  - pose proof (StronglySorted_merge_sort by_key m) as Hs. induction Hs as [|[k a] l _ IH Hl]; [constructor|]. cbn. constructor; [done|].
    rewrite Forall_map. eapply Forall_impl; [exact Hl|]. intros [k' b] Hb. exact Hb.
  - rewrite merge_sort_Permutation. by rewrite (merge_sort_Permutation by_key m).
Qed.

Lemma canonical_text v : json_wf v → canonical_json v = json_text (norm v).
Proof.
  induction v as [| | | |l IH|m IH] using json_ind; intros Hw; inversion Hw as [| | | |? Hl|? Hn Hm]; subst; [done..| |]; cbn.
  - f_equal. rewrite map_map. apply map_ext_Forall. rewrite Forall_forall in IH, Hl |- *. auto.
  - unfold write_object. do 3 f_equal.
    rewrite (map_ext_Forall _ (λ e : string * Value, (e.1, json_text (norm e.2)))); cycle 1.
    { rewrite Forall_forall in IH, Hm |- *. intros [k v] Hin. cbn. f_equal. by apply (IH (k, v)), (Hm (k, v)). }
    assert (map (λ e : string * Value, match e with (k, v) => (k, norm v) end) m = map (λ e, (e.1, norm e.2)) m) as -> by (apply map_ext; by intros []).
    rewrite (sort_by_key_map (λ _ v, json_text (norm v))), (sort_by_key_map (λ _ v, norm v)) by done.
    rewrite !map_map. apply map_ext. by intros [].
Qed.

(** *** Where a text ends *)

(** What may follow a value: nothing, a comma or a closing bracket. *)
Definition ends (r : list Z) : Prop := match r with [] => True | b :: _ => b = 44 ∨ b = 93 ∨ b = 125 end.

Lemma ends_not_number b r : ends (b :: r) → number_byte b = true → False.
Proof. intros [-> |[-> | ->]]; done. Qed.

Lemma number_prefix a a' r r' : Forall (λ b, number_byte b = true) a → Forall (λ b, number_byte b = true) a' →
  ends r → ends r' → a ++ r = a' ++ r' → a = a' ∧ r = r'.
Proof.
  intros Ha. revert a'. induction Ha as [|b a Hb Ha IH]; intros a' Ha' Hr Hr' E; destruct Ha' as [|b' a' Hb' Ha']; cbn in E.
  - done.
  - subst r. by destruct (ends_not_number _ _ Hr Hb').
  - subst r'. by destruct (ends_not_number _ _ Hr' Hb).
  - injection E as -> E. by destruct (IH a' Ha' Hr Hr' E) as [-> ->].
Qed.

(** The items of a list or an object, up to its closing bracket. *)
Lemma items_prefix {A} (f : A → list Z) (c : Z) (P : A → Prop) l : c = 93 ∨ c = 125 → (∀ x r, head (f x ++ r) ≠ Some c) →
  (∀ x, x ∈ l → ∀ x' r r', P x' → ends r → ends r' → f x ++ r = f x' ++ r' → x = x' ∧ r = r') →
  ∀ l' r r', Forall P l' → separated 44 (map f l) ++ c :: r = separated 44 (map f l') ++ c :: r' → l = l' ∧ r = r'.
Proof.
  intros Hc Hhead. set (rest l r := match l with [] => c :: r | _ => 44 :: separated 44 (map f l) ++ c :: r end).
  assert (∀ x l r, separated 44 (map f (x :: l)) ++ c :: r = f x ++ rest l r) as Hcons.
  { intros x [|y l'] r; [done|]. cbn. by rewrite <- app_assoc. }
  assert (∀ l r, ends (rest l r)) as Hends by (intros [|y l'] r; cbn; [by right|by left]).
  induction l as [|x l IH]; intros Hf l' r r' HP E.
  - destruct l' as [|x' l']; [by injection E as ->|]. rewrite Hcons in E. cbn in E. exfalso. apply (Hhead x' (rest l' r')). by rewrite <- E.
  - destruct l' as [|x' l'].
    { rewrite Hcons in E. cbn in E. exfalso. apply (Hhead x (rest l r)). by rewrite E. }
    rewrite !Hcons in E. apply Forall_cons in HP as [Hx' HP].
    destruct (Hf x ltac:(by left) x' _ _ Hx' (Hends l r) (Hends l' r') E) as [-> Er].
    assert (separated 44 (map f l) ++ c :: r = separated 44 (map f l') ++ c :: r') as E2.
    { destruct l as [|y l], l' as [|y' l']; cbn [rest] in Er; [by injection Er as ->|injection Er; destruct Hc; lia..|by injection Er as ?]. }
    destruct (IH ltac:(intros; eapply Hf; [by right|done..]) l' r r' HP E2) as [-> ->]. done.
Qed.

(** The first byte of a value's text tells its kind. *)
Definition head_ok (v : Value) (b : Z) : Prop :=
  match v with
  | VNull => b = 110
  | VBool true => b = 116
  | VBool false => b = 102
  | VNumber _ => number_byte b = true
  | VString _ => b = 34
  | VArray _ => b = 91
  | VObject _ => b = 123
  end.
End text.

Section unambiguous.
Context `{JsonLaws}.

Lemma number_text n : json_text (VNumber n) ≠ [] ∧ Forall (λ b, number_byte b = true) (json_text (VNumber n)).
Proof. destruct n; cbn; [apply js_i64_bytes..|apply js_f64_bytes]. Qed.

Lemma text_head v : ∃ b r, json_text v = b :: r ∧ head_ok v b.
Proof.
  destruct v as [|[]|n|s|l|m]; try (eexists _, _; split; [reflexivity|reflexivity]).
  - destruct (number_text n) as [Hne Hn]. destruct Hn as [|b r Hb _]; [done|]. by exists b, r.
  - destruct (js_string_quoted s) as [r E]. exists 34, r. cbn. by rewrite E.
Qed.

Lemma text_not_closing v r c : c = 93 ∨ c = 125 → head (json_text v ++ r) ≠ Some c.
Proof.
  intros Hc E. destruct (text_head v) as (b & t & Et & Hb). rewrite Et in E. injection E as ->.
  destruct v as [|[]|n|s|l|m]; cbn in Hb; destruct Hc as [-> | ->]; done.
Qed.

Lemma number_text_inj n n' : number_wf n → number_wf n' → json_text (VNumber n) = json_text (VNumber n') → n = n'.
Proof.
  destruct n as [n|n|f], n' as [n'|n'|f']; cbn; intros Hw Hw' E;
    try (apply js_i64_inj in E; subst; first [done|lia]); try (by apply js_i64_f64 in E); try (symmetry in E; by apply js_i64_f64 in E).
  f_equal. by apply js_f64_inj.
Qed.

(** Equal texts start alike, so the values are of one kind. *)
Definition same_shape (v v' : Value) : Prop := ∃ b, head_ok v b ∧ head_ok v' b.

Lemma text_same_shape v v' r r' : json_text v ++ r = json_text v' ++ r' → same_shape v v'.
Proof.
  destruct (text_head v) as (b & t & -> & Hb), (text_head v') as (b' & t' & -> & Hb'). intros E. injection E as <- _. by exists b.
Qed.

(** An entry of an object. *)
Definition entry_text (e : string * Value) : list Z := json_string e.1 ++ 58 :: json_text e.2.

Lemma entry_not_closing e r : head (entry_text e ++ r) ≠ Some 125.
Proof. unfold entry_text. destruct (js_string_quoted e.1) as [t ->]. done. Qed.

Lemma object_text m : json_text (VObject m) = 123 :: separated 44 (map entry_text m) ++ [125].
Proof. cbn. do 3 f_equal. apply map_ext. by intros []. Qed.

(** The text of a value and what follows it determine the value. *)
Lemma text_prefix v : json_wf v → ∀ v' r r', json_wf v' → ends r → ends r' →
  json_text v ++ r = json_text v' ++ r' → v = v' ∧ r = r'.
Proof.
  induction v as [| | | |l IH|m IH] using json_ind; intros Hw v' r r' Hw' Hr Hr' E;
    destruct (text_same_shape _ _ _ _ E) as (c & Hc & Hc').
  - destruct v' as [|[]|n'|s'|l'|m']; cbn in Hc, Hc'; subst c; try done. by apply app_inv_head in E.
  - destruct b, v' as [|[]|n'|s'|l'|m']; cbn in Hc, Hc'; subst c; try done; by apply app_inv_head in E.
  - destruct v' as [|[]|n'|s'|l'|m']; cbn in Hc, Hc'; try (subst c; done).
    inversion Hw; inversion Hw'; subst. apply number_prefix in E as [E ->]; [|apply number_text..|done|done].
    apply number_text_inj in E; [|done..]. by subst.
  - destruct v' as [|[]|n'|s'|l'|m']; cbn in Hc, Hc'; subst c; try done. by apply js_string_prefix in E as [-> ->].
  - destruct v' as [|[]|n'|s'|l'|m']; cbn in Hc, Hc'; subst c; try done. inversion Hw as [| | | |? Hl|]; inversion Hw' as [| | | |? Hl'|]; subst.
    cbn in E. injection E as E. rewrite <- !app_assoc in E.
    apply (items_prefix json_text 93 json_wf) in E as [-> ->]; [done|by left|intros; apply text_not_closing; by left| |done].
    rewrite Forall_forall in IH, Hl. intros x Hx x' t t' Hx'. apply IH; [done|by apply Hl|done].
  - destruct v' as [|[]|n'|s'|l'|m']; cbn in Hc, Hc'; subst c; try done.
    inversion Hw as [| | | | |? Hn Hm]; inversion Hw' as [| | | | |? Hn' Hm']; subst. rewrite !object_text in E.
    cbn [app] in E. injection E as E. rewrite <- !app_assoc in E.
    apply (items_prefix entry_text 125 (λ e, json_wf e.2)) in E as [-> ->]; [done|by right|intros; apply entry_not_closing| |done].
    rewrite Forall_forall in IH, Hm. intros [k x] Hx [k' x'] t t' Hx' Ht Ht' E'. unfold entry_text in E'. cbn [fst snd] in *.
    rewrite <- !app_assoc in E'. apply js_string_prefix in E' as [-> E']. cbn in E'. injection E' as E'.
    pose proof (IH _ Hx (Hm _ Hx) x' t t' Hx' Ht Ht' E') as [Ex ->]. cbn in Ex. by subst.
Qed.

Lemma norm_wf v : json_wf v → json_wf (norm v).
Proof.
  induction v as [| | | |l IH|m IH] using json_ind; intros Hw; inversion Hw as [| | | |? Hl|? Hn Hm]; subst; cbn; constructor; try done.
  - rewrite Forall_map. rewrite Forall_forall in IH, Hl |- *. auto.
  - apply sort_by_key_keys. by rewrite pairs_keys.
  - unfold sort_by_key. rewrite (merge_sort_Permutation by_key). rewrite Forall_map, Forall_forall in *. intros [k v] Hin. by apply (IH (k, v)), (Hm (k, v)).
Qed.

(** Canonical text determines the value up to the order of its keys. *)
Lemma canonical_inj v v' : json_wf v → json_wf v' → canonical_json v = canonical_json v' → norm v = norm v'.
Proof.
  intros Hw Hw' E. rewrite !canonical_text in E by done.
  apply (text_prefix (norm v) (norm_wf v Hw) (norm v') [] [] (norm_wf v' Hw') I I). by rewrite !app_nil_r.
Qed.

(** Canonical text has no control character, in particular no NUL. *)
Lemma separated_all (P : Z → Prop) sep l : P sep → Forall (Forall P) l → Forall P (separated sep l).
Proof.
  intros Hs. induction 1 as [|x l Hx Hl IH]; [constructor|]. destruct l; [done|]. cbn. apply Forall_app. by split; [|constructor].
Qed.

Lemma number_byte_printable b : number_byte b = true → 32 <= b.
Proof. unfold number_byte, between. intros Hb. repeat (apply orb_prop in Hb as [Hb|Hb]); lia. Qed.

Lemma text_printable v : Forall (λ b, 32 <= b) (json_text v).
Proof.
  induction v as [|[]|n|s|l IH|m IH] using json_ind.
  - by repeat constructor.
  - by repeat constructor.
  - by repeat constructor.
  - eapply Forall_impl; [apply number_text|]. intros b. apply number_byte_printable.
  - apply js_string_printable.
  - cbn. constructor; [done|]. apply Forall_app. split; [|by repeat constructor]. apply separated_all; [done|]. by rewrite Forall_map.
  - rewrite object_text. constructor; [done|]. apply Forall_app. split; [|by repeat constructor]. apply separated_all; [done|].
    rewrite Forall_map. eapply Forall_impl; [exact IH|]. intros [k x] Hx. unfold entry_text. apply Forall_app.
    split; [apply js_string_printable|by constructor].
Qed.

Lemma canonical_printable v : json_wf v → Forall (λ b, 32 <= b) (canonical_json v).
Proof. intros Hw. rewrite canonical_text by done. apply text_printable. Qed.
End unambiguous.

(** ** The concrete instance keeps the laws *)

Lemma toy_byte_inj a b : toy_json_byte a = toy_json_byte b → a = b.
Proof.
  unfold toy_json_byte. intros [= E1 E2].
  assert (Z.of_N (Ascii.N_of_ascii a) = Z.of_N (Ascii.N_of_ascii b)) as E%N2Z.inj.
  { rewrite (Z.div_mod (Z.of_N (Ascii.N_of_ascii a)) 16), (Z.div_mod (Z.of_N (Ascii.N_of_ascii b)) 16) by done. lia. }
  by rewrite <- (Ascii.ascii_N_embedding a), E, Ascii.ascii_N_embedding.
Qed.

Lemma toy_byte_letters a : ∃ x y, toy_json_byte a = [x; y] ∧ 65 <= x ∧ 65 <= y.
Proof.
  eexists _, _. split; [reflexivity|]. assert (0 <= Z.of_N (Ascii.N_of_ascii a)) by lia.
  pose proof (Z.div_pos (Z.of_N (Ascii.N_of_ascii a)) 16). pose proof (Z.mod_pos_bound (Z.of_N (Ascii.N_of_ascii a)) 16). lia.
Qed.

Lemma toy_rest_printable s : Forall (λ b, 32 <= b) (toy_json_string_rest s).
Proof.
  induction s as [|a s IH]; [by repeat constructor|]. cbn [toy_json_string_rest].
  destruct (toy_byte_letters a) as (x & y & -> & ? & ?). repeat (constructor; [lia|]). exact IH.
Qed.

Lemma toy_rest_prefix s : ∀ s' r r', toy_json_string_rest s ++ r = toy_json_string_rest s' ++ r' → s = s' ∧ r = r'.
Proof.
  induction s as [|a s IH]; intros [|a' s'] r r'; cbn [toy_json_string_rest].
  - by intros [= ->].
  - destruct (toy_byte_letters a') as (x & y & -> & ? & ?). intros [= E _]. lia.
  - destruct (toy_byte_letters a) as (x & y & -> & ? & ?). intros [= E _]. lia.
  - rewrite <- !app_assoc. destruct (toy_byte_letters a) as (x & y & E & _), (toy_byte_letters a') as (x' & y' & E' & _).
    rewrite E, E'. intros [= -> -> Er]. assert (a = a') as -> by (apply toy_byte_inj; congruence). by destruct (IH _ _ _ Er) as [-> ->].
Qed.

Lemma toy_digits_bytes p : toy_digits p ≠ [] ∧ Forall (λ b, number_byte b = true) (toy_digits p).
Proof. induction p as [p [_ IH]|p [_ IH]|]; cbn; (split; [done|by repeat constructor]). Qed.

Lemma toy_digits_inj p p' : toy_digits p = toy_digits p' → p = p'.
Proof.
  revert p'. induction p as [p IH|p IH|]; intros [p'|p'|]; cbn; try done; intros [= E]; try (f_equal; by apply IH).
  - by destruct (proj1 (toy_digits_bytes p)).
  - by destruct (proj1 (toy_digits_bytes p')).
Qed.

Lemma toy_digits_head p : ∃ b z, toy_digits p = b :: z ∧ 48 <= b.
Proof. destruct p; eexists _, _; (split; [reflexivity|lia]). Qed.

Lemma toy_i64_bytes n : toy_json_i64 n ≠ [] ∧ Forall (λ b, number_byte b = true) (toy_json_i64 n).
Proof. destruct n as [|p|p]; [by repeat constructor|apply toy_digits_bytes|]. cbn. split; [done|]. constructor; [done|]. apply toy_digits_bytes. Qed.

Lemma toy_zero_digits p : [48] ≠ toy_digits p.
Proof. destruct p as [p|p|]; cbn; try done. intros [= E]. by destruct (proj1 (toy_digits_bytes p)). Qed.

Lemma toy_i64_inj n n' : toy_json_i64 n = toy_json_i64 n' → n = n'.
Proof.
  assert (∀ p p', toy_digits p ≠ 45 :: toy_digits p') as Hsign.
  { intros p p'. destruct (toy_digits_head p) as (b & z & -> & ?). intros [= E _]. lia. }
  destruct n as [|p|p], n' as [|p'|p']; cbn; intros E; try discriminate E; try done.
  - by destruct (toy_zero_digits p').
  - by destruct (toy_zero_digits p).
  - f_equal. by apply toy_digits_inj.
  - by destruct (Hsign p p').
  - by destruct (Hsign p' p).
  - injection E as E. f_equal. by apply toy_digits_inj.
Qed.

#[export] Instance toy_json_laws : JsonLaws.
Proof.
  split; cbn [json_string json_i64 json_f64 toy_hashing].
  - intros s. by eexists.
  - intros s. constructor; [done|apply toy_rest_printable].
  - intros s s' r r' [= E]. by apply toy_rest_prefix.
  - apply toy_i64_bytes.
  - intros n. split; [done|]. constructor; [done|]. apply toy_i64_bytes.
  - apply toy_i64_inj.
  - intros [f] [f'] _ _ [= E]. by apply toy_i64_inj in E as ->.
  - intros n b. destruct n as [|p|p]; cbn; try done. destruct (toy_digits_head p) as (x & z & -> & ?). intros [= E _]. lia.
Qed.
