(* ===== verification/SortKey.v ===== *)
(** * Sort keys

    Models the ordering part of [packages/ssp/src/operator/top_k.rs] that the
    windows and the secondary indexes share: scalars, their order across
    types, the per-field direction, and lexicographic keys. *)

From S2P Require Import Prelude Platform Float64 Value RowCodec RowCodecSpec ValueRef.
Local Open Scope Z_scope.

(** The source's constructors, with an [S] where a plain name is taken. *)
Inductive Scalar :=
  | SNull
  | SBool (b : bool)
  | SInt (i : Z)
  | SFloat (f : f64)
  | SStr (s : string)
  | STop.

#[global] Instance scalar_eq_dec : EqDecision Scalar.
Proof. solve_decision. Defined.

Module Scalar.
Definition rank (s : Scalar) : Z :=
  match s with
  | SNull => 0
  | SBool _ => 1
  | SInt _ | SFloat _ => 2
  | SStr _ => 3
  | STop => 255
  end.

(** [Ord::cmp]. *)
Definition cmp (self other : Scalar) : comparison :=
  match Z.compare (rank self) (rank other) with
  | Eq =>
      match self, other with
      | SNull, SNull => Eq
      | SBool a, SBool b => bool_cmp a b
      | SInt a, SInt b => Z.compare a b
      | SFloat a, SFloat b => F64.total_cmp a b
      | SInt a, SFloat b => F64.total_cmp (F64.of_i64 a) b
      | SFloat a, SInt b => F64.total_cmp a (F64.of_i64 b)
      | SStr a, SStr b => string_cmp a b
      | STop, STop => Eq
      | _, _ => Eq
      end
  | non_equal => non_equal
  end.
End Scalar.

Record SortableValue := MkSortable { sv_scalar : Scalar; sv_descending : bool }.

#[global] Instance sortable_eq_dec : EqDecision SortableValue.
Proof. solve_decision. Defined.

Module SortableValue.
Definition cmp (self other : SortableValue) : comparison :=
  let base := Scalar.cmp (sv_scalar self) (sv_scalar other) in
  if sv_descending self then cmp_reverse base else base.

Definition from_value (val : ValueRef) (descending : bool) : SortableValue :=
  let scalar := match val with
    | Missing | RNull => SNull
    | RBool b => SBool b
    | RInt i => SInt i
    | RFloat f => SFloat f
    | RStr s => SStr s
    | _ => SNull
    end in
  MkSortable scalar descending.

Definition is_orderable (val : ValueRef) : bool :=
  match val with RBool _ | RInt _ | RFloat _ | RStr _ => true | _ => false end.
End SortableValue.

Abbreviation SortKey := (list SortableValue).

(** The lexicographic order of slices, shorter prefixes first. *)
Fixpoint list_cmp {A} (cmp : A → A → comparison) (l k : list A) : comparison :=
  match l, k with
  | [], [] => Eq
  | [], _ :: _ => Lt
  | _ :: _, [] => Gt
  | x :: l, y :: k => cmp_then (cmp x y) (list_cmp cmp l k)
  end.

(** The order of a buffer's [(SortKey, RowKey)] pairs. *)
Definition entry_cmp (a b : SortKey * string) : comparison :=
  cmp_then (list_cmp SortableValue.cmp a.1 b.1) (string_cmp a.2 b.2).

(** The order of an index's [(IndexKey, RowKey)] pairs. *)
Definition index_entry_cmp (a b : list Scalar * string) : comparison :=
  cmp_then (list_cmp Scalar.cmp a.1 b.1) (string_cmp a.2 b.2).

(** ** Lawful comparisons *)

(** A comparison through a key. *)
Lemma lawful_via {A B} (P : A → Prop) (Q : B → Prop) (f : A → B) cmp cmp' :
  cmp_lawful Q cmp → (∀ x, P x → Q (f x)) →
  (∀ x y, P x → P y → cmp' x y = cmp (f x) (f y)) → cmp_lawful P cmp'.
Proof.
  intros L HP Hc. split.
  - intros x Px. rewrite Hc by done. apply (cmp_refl _ _ L); auto.
  - intros x y Px Py. rewrite !Hc by done. apply (cmp_flip _ _ L); auto.
  - intros x y z Px Py Pz. rewrite !Hc by done. apply (cmp_trans_lt _ _ L); auto.
  - intros x y z Px Py Pz. rewrite !Hc by done. apply (cmp_trans_eq _ _ L); auto.
Qed.

Lemma Zcompare_lawful P : cmp_lawful P Z.compare.
Proof.
  split.
  - intros x _. apply Z.compare_refl.
  - intros x y _ _. apply Z.compare_antisym.
  - intros x y z _ _ _. destruct (Z.compare_spec x y), (Z.compare_spec y z),
      (Z.compare_spec x z); try done; lia.
  - intros x y z _ _ _ H%Z.compare_eq. by subst.
Qed.

Lemma lawful_reverse {A} (P : A → Prop) cmp :
  cmp_lawful P cmp → cmp_lawful P (λ x y, cmp_reverse (cmp x y)).
Proof.
  intros L. unfold cmp_reverse. split.
  - intros x Px. by rewrite (cmp_refl _ _ L).
  - intros x y Px Py. by rewrite (cmp_flip _ _ L x y).
  - intros x y z Px Py Pz H1 H2.
    rewrite <- (cmp_flip _ _ L) in H1, H2 |- * by done.
    by apply (cmp_trans_lt _ _ L z y x).
  - intros x y z Px Py Pz H. f_equal. apply (cmp_trans_eq _ _ L); try done.
    by destruct (cmp x y).
Qed.

Lemma cmp_eq_r {A} (P : A → Prop) cmp x y z : cmp_lawful P cmp → P x → P y → P z →
  cmp y z = Eq → cmp x y = cmp x z.
Proof.
  intros L Px Py Pz H. rewrite (cmp_flip _ _ L y x), (cmp_flip _ _ L z x) by done. f_equal.
  apply (cmp_trans_eq _ _ L); auto.
Qed.

Lemma lawful_then {A} (P : A → Prop) (c1 c2 : A → A → comparison) :
  cmp_lawful P c1 → cmp_lawful P c2 →
  cmp_lawful P (λ x y, cmp_then (c1 x y) (c2 x y)).
Proof.
  intros L1 L2. split.
  - intros x Px. rewrite (cmp_refl _ _ L1) by done. by apply (cmp_refl _ _ L2).
  - intros x y Px Py. rewrite (cmp_flip _ _ L1 x y), (cmp_flip _ _ L2 x y) by done.
    by destruct (c1 x y).
  - intros x y z Px Py Pz H1 H2.
    destruct (c1 x y) eqn:E1; simpl in H1; [| |done].
    + rewrite (cmp_trans_eq _ _ L1 x y z) by done.
      destruct (c1 y z) eqn:E2; simpl in *; [|done..]. by apply (cmp_trans_lt _ _ L2 x y z).
    + destruct (c1 y z) eqn:E2; simpl in H2; [| |done].
      * by rewrite <- (cmp_eq_r P c1 x y z), E1.
      * by rewrite (cmp_lt_trans P c1 L1 x y z).
  - intros x y z Px Py Pz H.
    destruct (c1 x y) eqn:E1; simpl in H; [|done..].
    rewrite (cmp_trans_eq _ _ L1 x y z) by done. f_equal. by apply (cmp_trans_eq _ _ L2).
Qed.

(** Lexicographic comparison of lists whose elements satisfy a property that
    may depend on the position. *)
Lemma lawful_list {A D} (P : D → A → Prop) (cmp : A → A → comparison) (ds : list D) :
  (∀ d, cmp_lawful (P d) cmp) → cmp_lawful (Forall2 P ds) (list_cmp cmp).
Proof.
  intros L. induction ds as [|d ds IH].
  - split; intros; repeat match goal with H : Forall2 _ [] _ |- _ =>
      apply Forall2_nil_inv_l in H as -> end; done.
  - split.
    + intros x (a & l & Ha & Hl & ->)%Forall2_cons_inv_l. simpl.
      rewrite (cmp_refl _ _ (L d)) by done. by apply (cmp_refl _ _ IH).
    + intros x y (a & l & Ha & Hl & ->)%Forall2_cons_inv_l (b & k & Hb & Hk & ->)%Forall2_cons_inv_l.
      simpl. rewrite (cmp_flip _ _ (L d) a b), (cmp_flip _ _ IH l k) by done. by destruct (cmp a b).
    + intros x y z (a & l & Ha & Hl & ->)%Forall2_cons_inv_l
        (b & k & Hb & Hk & ->)%Forall2_cons_inv_l (c & r & Hc & Hr & ->)%Forall2_cons_inv_l.
      simpl. intros H1 H2. destruct (cmp a b) eqn:E1; simpl in H1; [| |done].
      * rewrite (cmp_trans_eq _ _ (L d) a b c) by done.
        destruct (cmp b c) eqn:E2; simpl in *; [|done..]. by apply (cmp_trans_lt _ _ IH l k r).
      * destruct (cmp b c) eqn:E2; simpl in H2; [| |done].
        -- by rewrite <- (cmp_eq_r (P d) cmp a b c), E1.
        -- by rewrite (cmp_lt_trans (P d) cmp (L d) a b c).
    + intros x y z (a & l & Ha & Hl & ->)%Forall2_cons_inv_l
        (b & k & Hb & Hk & ->)%Forall2_cons_inv_l (c & r & Hc & Hr & ->)%Forall2_cons_inv_l.
      simpl. intros H. destruct (cmp a b) eqn:E1; simpl in H; [|done..].
      rewrite (cmp_trans_eq _ _ (L d) a b c) by done. f_equal. by apply (cmp_trans_eq _ _ IH).
Qed.

(** The same for lists of any length over one property. *)
Lemma lawful_list_any {A} (P : A → Prop) (cmp : A → A → comparison) :
  cmp_lawful P cmp → cmp_lawful (Forall P) (list_cmp cmp).
Proof.
  intros L. split.
  - induction 1 as [|a l Ha _ IH]; simpl; [done|]. by rewrite (cmp_refl _ _ L).
  - intros x y Hx. revert y. induction Hx as [|a l Ha _ IH]; intros y Hy;
      destruct Hy as [|b k Hb Hk]; simpl; try done.
    rewrite (cmp_flip _ _ L a b), IH by done. by destruct (cmp a b).
  - intros x y z Hx. revert y z. induction Hx as [|a l Ha _ IH]; intros y z Hy Hz H1 H2;
      destruct Hy as [|b k Hb Hk], Hz as [|c r Hc Hr]; simpl in *; try done.
    destruct (cmp a b) eqn:E1; simpl in H1; [| |done].
    + rewrite (cmp_trans_eq _ _ L a b c) by done.
      destruct (cmp b c) eqn:E2; simpl in *; [|done..]. by apply (IH k r).
    + destruct (cmp b c) eqn:E2; simpl in H2; [| |done].
      * by rewrite <- (cmp_eq_r P cmp a b c), E1.
      * by rewrite (cmp_lt_trans P cmp L a b c).
  - intros x y z Hx. revert y z. induction Hx as [|a l Ha _ IH]; intros y z Hy Hz H;
      destruct Hy as [|b k Hb Hk], Hz as [|c r Hc Hr]; simpl in *; try done.
    destruct (cmp a b) eqn:E1; simpl in H; [|done..].
    rewrite (cmp_trans_eq _ _ L a b c) by done. f_equal. by apply (IH k r).
Qed.

(** ** The scalar order *)

(** Integers that [i64 as f64] keeps exact. *)
Definition scalar_safe (s : Scalar) : Prop :=
  match s with SInt i => F64.safe_int i | _ => True end.

(** Where a number stands among all numbers. *)
Definition num_key (s : Scalar) : Z :=
  match s with
  | SInt i => F64.total_key (F64.of_i64 i)
  | SFloat f => F64.total_key f
  | SBool true => 1
  | _ => 0
  end.

Definition str_key (s : Scalar) : string :=
  match s with SStr s => s | _ => "" end.

Lemma total_key_of_i64 n : F64.safe_int n →
  F64.total_key (F64.of_i64 n) = F64.key (F64.of_i64 n) - (if n <? 0 then 1 else 0).
Proof.
  intros Hn. destruct (F64.mag_of_i64 n Hn) as [_ Hs].
  unfold F64.total_key, F64.key. rewrite Hs. destruct (n <? 0); lia.
Qed.

Lemma total_key_compare a b : F64.safe_int a → F64.safe_int b →
  Z.compare (F64.total_key (F64.of_i64 a)) (F64.total_key (F64.of_i64 b)) = Z.compare a b.
Proof.
  intros Ha Hb. rewrite !total_key_of_i64 by done.
  pose proof (F64.key_of_i64_lt a b Ha Hb). pose proof (F64.key_of_i64_lt b a Hb Ha).
  destruct (Z.compare_spec a b) as [->|Hab|Hab].
  - apply Z.compare_refl.
  - apply Z.compare_lt_iff. destruct (Z.ltb_spec a 0), (Z.ltb_spec b 0); lia.
  - apply Z.compare_gt_iff. destruct (Z.ltb_spec a 0), (Z.ltb_spec b 0); lia.
Qed.

Lemma scalar_cmp_key a b : scalar_safe a → scalar_safe b →
  Scalar.cmp a b = cmp_then (Z.compare (Scalar.rank a) (Scalar.rank b))
    (cmp_then (Z.compare (num_key a) (num_key b)) (string_cmp (str_key a) (str_key b))).
Proof.
  intros Ha Hb. unfold Scalar.cmp.
  destruct a as [|[]|i|f|s|], b as [|[]|j|g|t|]; try done;
    cbn [Scalar.rank num_key str_key cmp_then Z.compare Pos.compare Pos.compare_cont];
    cbn [scalar_safe] in *; rewrite ?total_key_compare by done;
    unfold F64.total_cmp; try (by destruct (Z.compare _ _)); try done.
Qed.

Lemma scalar_cmp_lawful : cmp_lawful scalar_safe Scalar.cmp.
Proof.
  apply (lawful_via _ scalar_safe id (λ a b, cmp_then (Z.compare (Scalar.rank a) (Scalar.rank b))
    (cmp_then (Z.compare (num_key a) (num_key b)) (string_cmp (str_key a) (str_key b))))).
  - apply lawful_then; [|apply lawful_then].
    + by apply (lawful_via _ (λ _, True) Scalar.rank Z.compare); [apply Zcompare_lawful|..].
    + by apply (lawful_via _ (λ _, True) num_key Z.compare); [apply Zcompare_lawful|..].
    + by apply (lawful_via _ (λ _, True) str_key string_cmp); [apply string_cmp_lawful|..].
  - done.
  - intros. by apply scalar_cmp_key.
Qed.

(** Past 2^53 the order is not transitive: two different integers both
    compare equal to the same float. *)
Lemma scalar_cmp_not_transitive :
  let a := SInt 9007199254740993 in
  let b := SFloat (F64.of_i64 9007199254740992) in
  let c := SInt 9007199254740992 in
  Scalar.cmp a b = Eq ∧ Scalar.cmp b c = Eq ∧ Scalar.cmp a c = Gt.
Proof. by vm_compute. Qed.

(** Sort keys of one [ORDER BY]: the same directions, position by position. *)
Definition sort_key_ok (dirs : list bool) (k : SortKey) : Prop :=
  Forall2 (λ d sv, sv_descending sv = d ∧ scalar_safe (sv_scalar sv)) dirs k.

Lemma sortable_cmp_lawful d :
  cmp_lawful (λ sv, sv_descending sv = d ∧ scalar_safe (sv_scalar sv)) SortableValue.cmp.
Proof.
  destruct d.
  - apply (lawful_via _ scalar_safe sv_scalar (λ x y, cmp_reverse (Scalar.cmp x y))).
    + apply lawful_reverse, scalar_cmp_lawful.
    + naive_solver.
    + intros x y [Hx _] _. unfold SortableValue.cmp. by rewrite Hx.
  - apply (lawful_via _ scalar_safe sv_scalar Scalar.cmp).
    + apply scalar_cmp_lawful.
    + naive_solver.
    + intros x y [Hx _] _. unfold SortableValue.cmp. by rewrite Hx.
Qed.

Lemma entry_cmp_lawful dirs : cmp_lawful (λ e, sort_key_ok dirs e.1) entry_cmp.
Proof.
  apply lawful_then.
  - apply (lawful_via _ (sort_key_ok dirs) fst (list_cmp SortableValue.cmp)); [|done..].
    unfold sort_key_ok. apply lawful_list. apply sortable_cmp_lawful.
  - apply (lawful_via _ (λ _, True) snd string_cmp); [apply string_cmp_lawful|done..].
Qed.

Lemma entry_cmp_eq_key a b : entry_cmp a b = Eq → a.2 = b.2.
Proof.
  unfold entry_cmp. destruct (list_cmp _ _ _); simpl; [|done..]. by intros ->%string_cmp_eq.
Qed.

Lemma index_entry_cmp_lawful : cmp_lawful (λ e, Forall scalar_safe e.1) index_entry_cmp.
Proof.
  apply lawful_then.
  - apply (lawful_via _ (Forall scalar_safe) fst (list_cmp Scalar.cmp)); [|done..].
    apply lawful_list_any, scalar_cmp_lawful.
  - apply (lawful_via _ (λ _, True) snd string_cmp); [apply string_cmp_lawful|done..].
Qed.

(** C27: With integers within 2^53 and any floats (NaN and the signed zeros
    included), the orders of the window buffers and of the secondary indexes
    keep the contract of [Ord]: total preorders, mixed directions included,
    that never merge two different rows. Past 2^53 the scalar order is not
    transitive. *)
Theorem sort_orders_lawful :
  (∀ dirs, cmp_lawful (λ e, sort_key_ok dirs e.1) entry_cmp) ∧
  cmp_lawful (λ e, Forall scalar_safe e.1) index_entry_cmp ∧
  (∀ a b, entry_cmp a b = Eq → a.2 = b.2) ∧
  ∃ a b c, Scalar.cmp (SInt a) (SFloat b) = Eq ∧ Scalar.cmp (SFloat b) (SInt c) = Eq ∧
    Scalar.cmp (SInt a) (SInt c) = Gt.
Proof.
  split; [apply entry_cmp_lawful|]. split; [apply index_entry_cmp_lawful|].
  split; [apply entry_cmp_eq_key|].
  exists 9007199254740993, (F64.of_i64 9007199254740992), 9007199254740992.
  apply scalar_cmp_not_transitive.
Qed.
