(* ===== verification/Index.v ===== *)
(** * Secondary indexes

    Models the index itself from [packages/ssp/src/circuit/index.rs]: every
    row of a table keyed by its indexed values and then its row key, in an
    ordered set with positional lookup, possibly built step by step. The
    planner of the same file is in IndexPlan.v. *)

From S2P Require Import Prelude Platform Float64 Value RowCodec RowCodecSpec ValueRef SortKey.
Local Open Scope Z_scope.

Record IndexDef := MkIndexDef { idx_name : string; idx_fields : list string }.

#[global] Instance index_def_eq_dec : EqDecision IndexDef.
Proof. solve_decision. Defined.

Definition IndexDef_paths (d : IndexDef) : list Path := map Path_new (idx_fields d).

Abbreviation IndexKey := (list Scalar).

Definition SMOL_INLINE : Z := 22.
Definition SHARE_DISTINCT : Z := 4096.

Record OrderedIndex `{OrdSet} := MkOrderedIndex {
  oi_def : IndexDef;
  oi_paths : list Path;
  oi_entries : oset (IndexKey * string);
  oi_heap : Z;
  oi_idle_since : option Z;
  oi_pending : option (list string);
}.

Definition scalar_heap (v : Scalar) : Z :=
  match v with
  | SStr s => if SMOL_INLINE <? zlength (bytes_of s) then zlength (bytes_of s) + 16 else 0
  | _ => 0
  end.

Definition entry_heap (key : IndexKey) (row : string) : Z :=
  foldr Z.add 0 (map scalar_heap key) + zlength (bytes_of row) + 16.

Module OrderedIndex.
Section operations.
Context `{OrdSet}.

Definition new (def : IndexDef) : OrderedIndex :=
  MkOrderedIndex _ def (IndexDef_paths def) (os_with_node_size 1024) 0 None None.

Definition with_entries (i : OrderedIndex) (entries : oset (IndexKey * string)) (heap : Z) : OrderedIndex :=
  MkOrderedIndex _ (oi_def i) (oi_paths i) entries heap (oi_idle_since i) (oi_pending i).
Definition with_idle (i : OrderedIndex) (idle : option Z) : OrderedIndex :=
  MkOrderedIndex _ (oi_def i) (oi_paths i) (oi_entries i) (oi_heap i) idle (oi_pending i).
Definition with_pending (i : OrderedIndex) (pending : option (list string)) : OrderedIndex :=
  MkOrderedIndex _ (oi_def i) (oi_paths i) (oi_entries i) (oi_heap i) (oi_idle_since i) pending.

Definition is_complete (i : OrderedIndex) : bool :=
  match oi_pending i with None => true | Some _ => false end.

Definition key_of (i : OrderedIndex) (row : ValueRef) : IndexKey :=
  map (λ path, sv_scalar (SortableValue.from_value (resolve_field row path) false)) (oi_paths i).

(** [key_of] sharing the allocation of long strings through [seen]. *)
Fixpoint key_of_shared_paths (paths : list Path) (row : ValueRef) (seen : gmap string string)
    : IndexKey * gmap string string :=
  match paths with
  | [] => ([], seen)
  | path :: paths =>
      let '(scalar, seen) :=
        match resolve_field row path with
        | RStr s =>
            if SMOL_INLINE <? zlength (bytes_of s) then
              match seen !! s with
              | Some shared => (SStr shared, seen)
              | None =>
                  (SStr s, if Z.of_nat (size seen) <? SHARE_DISTINCT
                           then <[s := s]> seen else seen)
              end
            else (SStr s, seen)
        | value => (sv_scalar (SortableValue.from_value value false), seen)
        end in
      let '(key, seen) := key_of_shared_paths paths row seen in
      (scalar :: key, seen)
  end.
Definition key_of_shared (i : OrderedIndex) (row : ValueRef) (seen : gmap string string)
    : IndexKey * gmap string string :=
  key_of_shared_paths (oi_paths i) row seen.

Definition insert (i : OrderedIndex) (key : IndexKey) (row : string) : OrderedIndex :=
  let heap := entry_heap key row in
  let '(inserted, entries) := os_insert index_entry_cmp (key, row) (oi_entries i) in
  with_entries i entries (if inserted : bool then oi_heap i + heap else oi_heap i).

Definition remove (i : OrderedIndex) (key : IndexKey) (row : string) : OrderedIndex :=
  let heap := entry_heap key row in
  let '(removed, entries) := os_remove index_entry_cmp (key, row) (oi_entries i) in
  with_entries i entries (if removed : bool then Z.max 0 (oi_heap i - heap) else oi_heap i).

Definition insert_all (i : OrderedIndex) (entries : list (IndexKey * string)) : OrderedIndex :=
  foldl (λ i e, insert i e.1 e.2) i entries.

Definition entry_le (a b : IndexKey * string) : Prop := index_entry_cmp a b ≠ Gt.
#[global] Instance entry_le_dec : RelDecision entry_le.
Proof. intros a b. unfold entry_le. apply _. Defined.

(** Sorted first, so the B-tree is filled front to back. *)
Definition fill (i : OrderedIndex) (entries : list (IndexKey * string)) : OrderedIndex :=
  insert_all i (merge_sort entry_le entries).

Definition len (i : OrderedIndex) : Z := os_len (oi_entries i).
Definition is_empty (i : OrderedIndex) : bool := len i =? 0.

Definition prefix_range (i : OrderedIndex) (prefix : list Scalar) : Z * Z :=
  let lo_key := prefix in
  let hi_key := lo_key ++ [STop] in
  let lo := os_rank index_entry_cmp (lo_key, ""%string) (oi_entries i) in
  let hi := os_rank index_entry_cmp (hi_key, ""%string) (oi_entries i) in
  (lo, Z.max hi lo).

Definition row_at (i : OrderedIndex) (position : Z) : option string :=
  snd <$> os_get_index (oi_entries i) position.

Definition group_of (i : OrderedIndex) (position fields : Z) : option (Z * Z) :=
  let? (values, _) := os_get_index (oi_entries i) position in
  Some (prefix_range i (ztake fields values)).
End operations.
End OrderedIndex.

(** ** The sharing build files the same keys *)

Lemma key_of_shared_spec `{OrdSet} (i : OrderedIndex) row seen :
  map_Forall (λ s s', s = s') seen →
  (OrderedIndex.key_of_shared i row seen).1 = OrderedIndex.key_of i row ∧
  map_Forall (λ s s', s = s') (OrderedIndex.key_of_shared i row seen).2.
Proof.
  unfold OrderedIndex.key_of_shared, OrderedIndex.key_of. revert seen.
  induction (oi_paths i) as [|path paths IH]; intros seen Hs; [done|]. simpl.
  destruct (resolve_field row path) as [| |b|n|f|s|?|?] eqn:E; simpl;
    try (destruct (IH seen Hs) as [IH1 IH2];
         destruct (OrderedIndex.key_of_shared_paths paths row seen); simpl in *; by rewrite IH1).
  destruct (SMOL_INLINE <? zlength (bytes_of s)) eqn:El.
  - destruct (seen !! s) as [s'|] eqn:Es.
    + apply Hs in Es as <-. destruct (IH seen Hs) as [IH1 IH2].
      destruct (OrderedIndex.key_of_shared_paths paths row seen). simpl in *. by rewrite IH1.
    + set (seen' := if Z.of_nat (size seen) <? SHARE_DISTINCT then <[s:=s]> seen else seen).
      assert (map_Forall (λ s s', s = s') seen') as Hs'.
      { unfold seen'. destruct (Z.of_nat _ <? _); [|done]. by apply map_Forall_insert_2. }
      destruct (IH seen' Hs') as [IH1 IH2].
      destruct (OrderedIndex.key_of_shared_paths paths row seen'). simpl in *. by rewrite IH1.
  - destruct (IH seen Hs) as [IH1 IH2].
    destruct (OrderedIndex.key_of_shared_paths paths row seen). simpl in *. by rewrite IH1.
Qed.

(** ** Positions of a prefix *)

Section prefix.
(** How the leading values compare with a prefix. *)
Definition lead_cmp (prefix key : IndexKey) : comparison :=
  list_cmp Scalar.cmp (take (length prefix) key) prefix.

Definition key_ok (key : IndexKey) : Prop := Forall (λ s, scalar_safe s ∧ s ≠ STop) key.

Lemma cmp_top s : s ≠ STop → Scalar.cmp s STop = Lt.
Proof. by destruct s. Qed.

Lemma string_cmp_empty row : string_cmp row "" ≠ Lt.
Proof. by destruct row. Qed.

(** An entry is below the lower bound exactly when its leading values are
    below the prefix. *)
Lemma cmp_lo_bound prefix key row :
  (length prefix <= length key)%nat →
  index_entry_cmp (key, row) (prefix, ""%string) = Lt ↔ lead_cmp prefix key = Lt.
Proof.
  unfold index_entry_cmp, lead_cmp. simpl. revert key.
  induction prefix as [|p prefix IH]; intros key Hl; simpl.
  - destruct key as [|k key]; simpl; [|done]. pose proof (string_cmp_empty row). naive_solver.
  - destruct key as [|k key]; simpl in *; [lia|]. specialize (IH key ltac:(lia)).
    destruct (Scalar.cmp k p); simpl; done.
Qed.

(** ... and below the upper bound exactly when they are not above it. *)
Lemma cmp_hi_bound prefix key row :
  key_ok key → (length prefix <= length key)%nat →
  index_entry_cmp (key, row) (prefix ++ [STop], ""%string) = Lt ↔ lead_cmp prefix key ≠ Gt.
Proof.
  unfold index_entry_cmp, lead_cmp. simpl. intros Hk. revert prefix.
  induction Hk as [|k key [Hs Ht] Hk IH]; intros prefix Hl.
  - destruct prefix; simpl in *; [done|lia].
  - destruct prefix as [|p prefix]; simpl.
    + by rewrite cmp_top.
    + specialize (IH prefix ltac:(simpl in Hl; lia)). destruct (Scalar.cmp k p); simpl; done.
Qed.
End prefix.

(** The rank of a bound splits a sorted list. *)
Lemma sl_rank_lookup {A} (P : A → Prop) cmp a l i x :
  cmp_lawful P cmp → P a → Forall P l → sl_sorted cmp l → l !! i = Some x →
  Z.of_nat i < sl_rank cmp a l ↔ cmp x a = Lt.
Proof.
  intros L Pa Pl Hs. unfold sl_rank, zlength. revert i.
  induction Hs as [|b l Hs IH Hb]; intros i Hi; [done|].
  apply Forall_cons_1 in Pl as [Pb Pl]. specialize (IH Pl). simpl.
  destruct (cmp b a) eqn:Eb.
  2:{ destruct i as [|i]; simpl in Hi.
      - injection Hi as <-. cbn [length]. split; [done|lia].
      - rewrite <- (IH i) by done. cbn [length]. lia. }
  all: assert (∀ y, y ∈ b :: l → cmp y a ≠ Lt) as Hno; [
    intros y [->|Hy]%elem_of_cons Hya; [congruence|];
    rewrite Forall_forall in Hb, Pl;
    rewrite (cmp_lt_trans P cmp L b y a Pb (Pl _ Hy) Pa (Hb _ Hy) Hya) in Eb; done|].
  all: assert (List.filter (λ b, match cmp b a with Lt => true | _ => false end) l = []) as ->;
    [|split; [simpl; lia|intros Hx; exfalso; apply (Hno x); [by eapply list_elem_of_lookup_2|done]]].
  all: assert (∀ y, y ∈ l → cmp y a ≠ Lt) as Hno' by (intros; apply Hno; set_solver);
    clear -Hno'; induction l as [|y l IH]; simpl; [done|];
    destruct (cmp y a) eqn:E; [apply IH; set_solver|exfalso; apply (Hno' y); set_solver|apply IH; set_solver].
Qed.

Section index_facts.
Context `{OrdSetLaws}.

(** What every index of a table satisfies: sorted, keys of the index's
    width, only values a row can hold, read by the definition's paths. *)
Record index_wf (i : OrderedIndex) : Prop := {
  iw_sorted : sl_sorted index_entry_cmp (os_iter (oi_entries i));
  iw_keys : Forall (λ e, key_ok e.1 ∧ length e.1 = length (oi_paths i)) (os_iter (oi_entries i));
  iw_paths : oi_paths i = IndexDef_paths (oi_def i);
}.

Lemma key_ok_safe key : key_ok key → Forall scalar_safe key.
Proof. intros Hk. eapply Forall_impl; [done|]. naive_solver. Qed.

Lemma index_wf_safe i : index_wf i → Forall (λ e, Forall scalar_safe e.1) (os_iter (oi_entries i)).
Proof. intros Hi. eapply Forall_impl; [apply (iw_keys _ Hi)|]. naive_solver eauto using key_ok_safe. Qed.

Lemma new_wf def : index_wf (OrderedIndex.new def).
Proof. split; unfold OrderedIndex.new; simpl; [rewrite os_new_iter; constructor..|done]. Qed.

Lemma insert_iter i key row : index_wf i → key_ok key →
  os_iter (oi_entries (OrderedIndex.insert i key row)) =
    sl_insert index_entry_cmp (key, row) (os_iter (oi_entries i)).
Proof.
  intros Hi Hk. unfold OrderedIndex.insert.
  pose proof (os_insert_iter _ _ index_entry_cmp_lawful (key, row) (oi_entries i)
    (key_ok_safe _ Hk) (index_wf_safe i Hi) (iw_sorted _ Hi)) as [H1 _].
  destruct (os_insert _ _ _) as [b entries]. done.
Qed.

Lemma remove_iter i key row : index_wf i → key_ok key →
  os_iter (oi_entries (OrderedIndex.remove i key row)) =
    sl_remove index_entry_cmp (key, row) (os_iter (oi_entries i)).
Proof.
  intros Hi Hk. unfold OrderedIndex.remove.
  pose proof (os_remove_iter _ _ index_entry_cmp_lawful (key, row) (oi_entries i)
    (key_ok_safe _ Hk) (index_wf_safe i Hi) (iw_sorted _ Hi)) as [H1 _].
  destruct (os_remove _ _ _) as [b entries]. done.
Qed.

Lemma insert_paths i key row : oi_paths (OrderedIndex.insert i key row) = oi_paths i.
Proof. unfold OrderedIndex.insert. by destruct (os_insert _ _ _). Qed.
Lemma remove_paths i key row : oi_paths (OrderedIndex.remove i key row) = oi_paths i.
Proof. unfold OrderedIndex.remove. by destruct (os_remove _ _ _). Qed.

Lemma insert_def i key row : oi_def (OrderedIndex.insert i key row) = oi_def i.
Proof. unfold OrderedIndex.insert. by destruct (os_insert _ _ _). Qed.
Lemma remove_def i key row : oi_def (OrderedIndex.remove i key row) = oi_def i.
Proof. unfold OrderedIndex.remove. by destruct (os_remove _ _ _). Qed.

Lemma insert_wf i key row :
  index_wf i → key_ok key → length key = length (oi_paths i) →
  index_wf (OrderedIndex.insert i key row).
Proof.
  intros Hi Hk Hl. split.
  - rewrite insert_iter by done.
    eapply (sl_sorted_insert _ _ index_entry_cmp_lawful); [by apply key_ok_safe| |apply Hi].
    by apply index_wf_safe.
  - rewrite insert_paths, insert_iter by done. rewrite Forall_forall.
    intros e [->|He]%elem_of_sl_insert; [done|]. pose proof (iw_keys _ Hi) as Hf.
    rewrite Forall_forall in Hf. auto.
  - rewrite insert_paths, insert_def. apply Hi.
Qed.

Lemma remove_wf i key row : index_wf i → key_ok key → index_wf (OrderedIndex.remove i key row).
Proof.
  intros Hi Hk. split.
  - rewrite remove_iter by done. apply sl_sorted_remove, Hi.
  - rewrite remove_paths, remove_iter by done. rewrite Forall_forall.
    intros e [He _]%elem_of_sl_remove. pose proof (iw_keys _ Hi) as Hf.
    rewrite Forall_forall in Hf. auto.
  - rewrite remove_paths, remove_def. apply Hi.
Qed.

(** The rank range of a prefix holds exactly the entries whose leading
    values equal the prefix: position [p] is inside [[lo, hi)] if and only
    if the entry at [p] starts with it. *)
Lemma prefix_range_spec i prefix p key row :
  index_wf i → Forall scalar_safe prefix → (length prefix <= length (oi_paths i))%nat →
  os_get_index (oi_entries i) p = Some (key, row) →
  let '(lo, hi) := OrderedIndex.prefix_range i prefix in
  (lo <= p < hi ↔ lead_cmp prefix key = Eq) ∧ 0 <= lo <= hi.
Proof.
  intros Hi Hp Hl Hg. unfold OrderedIndex.prefix_range.
  pose proof (index_wf_safe i Hi) as Hs. pose proof (iw_sorted _ Hi) as Hsort.
  rewrite !(os_rank_iter _ _ index_entry_cmp_lawful); try done.
  2:{ simpl. apply Forall_app. split; [done|]. by repeat constructor. }
  unfold os_get_index, zlookup in Hg.
  destruct (Z.ltb_spec p 0) as [|Hp0]; [done|]. destruct (zlength _ <=? p); [done|].
  assert ((key, row) ∈ os_iter (oi_entries i)) as Hin by (by eapply list_elem_of_lookup_2).
  pose proof (iw_keys _ Hi) as Hk. rewrite Forall_forall in Hk.
  destruct (Hk _ Hin) as [Hok Hlen]. simpl in Hok, Hlen.
  pose proof (sl_rank_lookup _ _ (prefix, ""%string) _ _ _ index_entry_cmp_lawful Hp Hs Hsort Hg) as Hlo.
  assert (Forall scalar_safe (prefix ++ [STop])) as Hp'.
  { apply Forall_app. split; [done|]. by repeat constructor. }
  pose proof (sl_rank_lookup _ _ (prefix ++ [STop], ""%string) _ _ _ index_entry_cmp_lawful Hp' Hs Hsort Hg) as Hhi.
  rewrite Z2Nat.id in Hlo, Hhi by lia. rewrite cmp_lo_bound in Hlo by lia.
  rewrite cmp_hi_bound in Hhi by (done || lia).
  assert (0 <= sl_rank index_entry_cmp (prefix, ""%string) (os_iter (oi_entries i))).
  { unfold sl_rank. apply zlength_nonneg. }
  split; [|lia]. destruct (lead_cmp prefix key); split; intros; try done; try lia.
  - split; [|]; [destruct (Z.lt_ge_cases p (sl_rank index_entry_cmp (prefix, ""%string) (os_iter (oi_entries i)))); [|lia]|].
    + assert (Eq = Lt) by naive_solver. done.
    + assert (p < sl_rank index_entry_cmp (prefix ++ [STop], ""%string) (os_iter (oi_entries i))) by naive_solver. lia.
  - assert (p < sl_rank index_entry_cmp (prefix, ""%string) (os_iter (oi_entries i))) by naive_solver. lia.
  - assert (¬ p < sl_rank index_entry_cmp (prefix ++ [STop], ""%string) (os_iter (oi_entries i))) by naive_solver.
    assert (¬ p < sl_rank index_entry_cmp (prefix, ""%string) (os_iter (oi_entries i))) by naive_solver. lia.
Qed.

(** The rank range of a prefix holds exactly the entries whose leading
    values equal the prefix: position [p] is inside [[lo, hi)] if and only
    if the entry at [p] starts with it. *)
Theorem prefix_range_exact i prefix p key row :
  index_wf i → Forall scalar_safe prefix → (length prefix <= length (oi_paths i))%nat →
  os_get_index (oi_entries i) p = Some (key, row) →
  let '(lo, hi) := OrderedIndex.prefix_range i prefix in
  (lo <= p < hi ↔ lead_cmp prefix key = Eq) ∧ 0 <= lo <= hi.
Proof. apply prefix_range_spec. Qed.
End index_facts.

Definition sample_def : IndexDef := MkIndexDef "by_owner" ["owner"; "at"].

Definition sample_index : OrderedIndex :=
  OrderedIndex.insert_all (OrderedIndex.new sample_def)
    [([SStr "b"; SInt 2], "g:3"); ([SStr "a"; SInt 9], "g:1"); ([SStr "b"; SInt 1], "g:2")].

Lemma sample_index_wf : index_wf sample_index.
Proof.
  unfold sample_index, OrderedIndex.insert_all, foldl.
  repeat apply insert_wf; simpl; try apply new_wf; try done;
    repeat constructor; done.
Qed.

Lemma prefix_range_exact_witness :
  OrderedIndex.prefix_range sample_index [SStr "b"] = (1, 3) ∧
  (1 <= 2 < 3 ↔ lead_cmp [SStr "b"] [SStr "b"; SInt 2] = Eq).
Proof.
  split; [reflexivity|].
  exact (proj1 (prefix_range_exact sample_index [SStr "b"] 2 [SStr "b"; SInt 2] "g:3"
    sample_index_wf ltac:(repeat constructor) ltac:(simpl; lia) eq_refl)).
Defined.
