(* ===== verification/Store.v ===== *)
(** * The row store

    Models [packages/ssp/src/circuit/store.rs]: collections (the rows of a
    table, their membership Z-set, XOR set-hash, projection and built
    indexes), the store over them with its overlay of rows deleted in the
    current step, changes and operations. A row is its value and the digest
    kept in its record head; that reading the flat record gives this value is
    [ValueRef.flat_read_refines_mem] and [RowCodecSpec.encode_record_roundtrip]. *)

From S2P Require Import Prelude Platform Float64 Value RowCodec RowCodecSpec ValueRef ZSet SnapshotHash SortKey Index.
Local Open Scope Z_scope.

(** ** Rows *)

Record StoredRow := MkStoredRow { sr_value : Sp00kyValue; sr_digest : list Z }.

Abbreviation Rows := (gmap string StoredRow).

Definition rows_get (rows : Rows) (id : string) : ValueRef :=
  ValueRef.from_opt (sr_value <$> rows !! id).
Definition rows_contains (rows : Rows) (id : string) : bool :=
  match rows !! id with Some _ => true | None => false end.
Definition rows_digest_of (rows : Rows) (id : string) : option (list Z) :=
  sr_digest <$> rows !! id.
(** The row version as the record head has it. *)
Definition rows_rv_of (rows : Rows) (id : string) : option Z :=
  let? r := rows !! id in lifted_rv (sr_value r).

(** ** Changes *)

Inductive Operation := Create | Update | Merge | Delete.

#[global] Instance operation_eq_dec : EqDecision Operation.
Proof. solve_decision. Defined.

Module Operation.
Definition weight (op : Operation) : Z :=
  match op with Create => 1 | Update | Merge => 0 | Delete => -1 end.
Definition changes_content (op : Operation) : bool :=
  match op with Create | Update | Merge => true | Delete => false end.
Definition from_str (s : string) : option Operation :=
  let u := to_ascii_uppercase s in
  if String.eqb u "CREATE" then Some Create
  else if String.eqb u "UPDATE" then Some Update
  else if String.eqb u "MERGE" then Some Merge
  else if String.eqb u "DELETE" then Some Delete
  else None.
End Operation.

Record Change := MkChange {
  ch_table : string; ch_op : Operation; ch_id : string; ch_data : Sp00kyValue }.

Module Change.
Definition create (table id : string) (data : Sp00kyValue) : Change := MkChange table Create id data.
Definition update (table id : string) (data : Sp00kyValue) : Change := MkChange table Update id data.
Definition merge (table id : string) (data : Sp00kyValue) : Change := MkChange table Merge id data.
Definition delete (table id : string) : Change := MkChange table Delete id Null.
End Change.

Record ChangeSet := MkChangeSet { changes : list Change }.

(** A record for bulk loading. *)
Record BulkRecord := MkBulkRecord { br_table : string; br_id : string; br_data : Sp00kyValue }.

Record Applied := MkApplied { ap_key : string; ap_weight : Z; ap_content_changed : bool }.

Definition ALWAYS_RETAINED : list string := ["id"; "_00_rv"].
Definition INDEX_STEP_ROWS : Z := 512.

(** [s.split('.').next()]. *)
Definition field_root (field : string) : string := default field (head (split dot field)).

(** ** Collections *)

Record Collection `{OrdSet} := MkCollection {
  c_name : string;
  c_rows : Rows;
  c_membership : option ZSet;
  c_catchup_xor : list Z;
  c_retained : option (gset string);
  c_indexes : gmap string OrderedIndex;
  c_writes : Z;
}.

Section setters.
Context `{OrdSet}.

Definition set_rows (rows : Rows) (c : Collection) : Collection :=
  MkCollection _ (c_name c) rows (c_membership c) (c_catchup_xor c) (c_retained c) (c_indexes c) (c_writes c).
Definition set_membership (m : option ZSet) (c : Collection) : Collection :=
  MkCollection _ (c_name c) (c_rows c) m (c_catchup_xor c) (c_retained c) (c_indexes c) (c_writes c).
Definition set_catchup_xor (acc : list Z) (c : Collection) : Collection :=
  MkCollection _ (c_name c) (c_rows c) (c_membership c) acc (c_retained c) (c_indexes c) (c_writes c).
Definition set_retained (r : option (gset string)) (c : Collection) : Collection :=
  MkCollection _ (c_name c) (c_rows c) (c_membership c) (c_catchup_xor c) r (c_indexes c) (c_writes c).
Definition set_indexes (i : gmap string OrderedIndex) (c : Collection) : Collection :=
  MkCollection _ (c_name c) (c_rows c) (c_membership c) (c_catchup_xor c) (c_retained c) i (c_writes c).
Definition bump_writes (c : Collection) : Collection :=
  MkCollection _ (c_name c) (c_rows c) (c_membership c) (c_catchup_xor c) (c_retained c) (c_indexes c)
    (wrap_u64 (c_writes c + 1)).

(** Work spent building indexes; the time is not modelled. *)
Record IndexBuildStats := MkStats { indexes_built : Z; rows_indexed : Z }.

(** The key of a stored row: the table, a colon, the id as it is stored. *)
Definition row_key (name id : string) : string := (name +:+ ":" +:+ id)%string.

End setters.

Module Collection.
Section operations.
Context `{Hashing} `{OrdSet}.

Definition from_rows (name : string) (rows : Rows) (catchup_xor : list Z) : Collection :=
  MkCollection _ name rows None catchup_xor None ∅ 0.

Definition new (name : string) : Collection := from_rows name ∅ xor_empty.

(** The Z-set of all rows, from the rows. *)
Definition build_membership (name : string) (rows : Rows) : ZSet :=
  list_to_map ((λ id, (row_key name id, 1)) <$> keys_of rows).

(** [membership()]: built on first use, kept. *)
Definition membership (c : Collection) : ZSet * Collection :=
  match c_membership c with
  | Some z => (z, c)
  | None => let z := build_membership (c_name c) (c_rows c) in (z, set_membership (Some z) c)
  end.
Definition has_key (c : Collection) (key : string) : bool := rows_contains (c_rows c) (raw_id key).
Definition membership_built (c : Collection) : bool :=
  match c_membership c with Some _ => true | None => false end.
Definition release_membership (c : Collection) : Collection := set_membership None c.

Definition bump_membership (key : string) (weight : Z) (c : Collection) : Collection :=
  match c_membership c with
  | None => c
  | Some zset =>
      let entry := i64_add (default 0 (zset !! key)) weight in
      set_membership (Some (if entry =? 0 then delete key zset else <[key := entry]> zset)) c
  end.

(** *** Indexes *)

Definition build_index (def : IndexDef) (c : Collection) : OrderedIndex * Collection :=
  let index := OrderedIndex.new def in
  let '(_, c) := membership c in
  let entries := fst (foldl (λ '(acc, seen) (e : string * StoredRow),
      let '(key, seen) := OrderedIndex.key_of_shared index (ValueRef.from_value (sr_value e.2)) seen in
      (acc ++ [(key, row_key (c_name c) e.1)], seen)) ([], ∅) (map_to_list (c_rows c))) in
  (OrderedIndex.fill index entries, c).

(** The entries of the ids a stepped build reads next; ids gone meanwhile
    are skipped. *)
Definition pending_entries (c : Collection) (index : OrderedIndex) (ids : list string)
    : list (IndexKey * string) :=
  fst (foldl (λ '(acc, seen) id,
    match c_rows c !! id with
    | None => (acc, seen)
    | Some r =>
        let '(key, seen) := OrderedIndex.key_of_shared index (ValueRef.from_value (sr_value r)) seen in
        (acc ++ [(key, row_key (c_name c) id)], seen)
    end) ([], ∅) ids).

Definition fill_pending (c : Collection) (index : OrderedIndex) (max_rows : Z) : Z * OrderedIndex :=
  match oi_pending index with
  | None => (0, index)
  | Some pending =>
      let take := Z.min (zlength pending) max_rows in
      let ids := zdrop (zlength pending - take) pending in
      let pending := ztake (zlength pending - take) pending in
      let index := OrderedIndex.with_pending index
        (match pending with [] => None | _ => Some pending end) in
      (take, OrderedIndex.fill index (pending_entries c index ids))
  end.

(** An index built under the same name from another definition goes. *)
Definition drop_outdated (def : IndexDef) (slots : gmap string OrderedIndex)
    : gmap string OrderedIndex :=
  match slots !! idx_name def with
  | Some built => if bool_decide (oi_def built = def) then slots else delete (idx_name def) slots
  | None => slots
  end.

(** [with_index_timed] up to the call of [f]: the index [f] sees, the work
    done, and the collection with the index in its slot. *)
Definition with_index (def : IndexDef) (c : Collection)
    : OrderedIndex * IndexBuildStats * Collection :=
  let slots := drop_outdated def (c_indexes c) in
  let '(index, stats, c) :=
    match slots !! idx_name def with
    | Some index => (index, MkStats 0 0, set_indexes slots c)
    | None =>
        let '(index, c) := build_index def (set_indexes slots c) in
        (index, MkStats 1 (Z.of_nat (size (c_rows c))), c)
    end in
  let '(index, stats) :=
    if OrderedIndex.is_complete index then (index, stats)
    else
      let '(n, index) := fill_pending c index usize_max in
      (index, MkStats (indexes_built stats + 1) (rows_indexed stats + n)) in
  (index, stats, set_indexes (<[idx_name def := index]> (c_indexes c)) c).

Definition prewarm_index (def : IndexDef) (c : Collection) : IndexBuildStats * Collection :=
  let '(_, stats, c) := with_index def c in (stats, c).

(** The rounds of one build step: at least one, then on while the clock
    ([over_budget] after so many rounds) allows. Each round takes at least
    one id off the list, which bounds the rounds. *)
Fixpoint build_rounds (fuel n : nat) (over_budget : nat → bool) (c : Collection)
    (index : OrderedIndex) (rows : Z) : OrderedIndex * Z :=
  let '(k, index) := fill_pending c index INDEX_STEP_ROWS in
  let rows := rows + k in
  if OrderedIndex.is_complete index || over_budget n then (index, rows)
  else match fuel with
       | O => (index, rows)
       | S fuel => build_rounds fuel (S n) over_budget c index rows
       end.

Definition build_index_step (def : IndexDef) (over_budget : nat → bool) (c : Collection)
    : bool * IndexBuildStats * Collection :=
  let slots := drop_outdated def (c_indexes c) in
  let index := match slots !! idx_name def with
    | Some index => index
    | None => OrderedIndex.with_pending (OrderedIndex.new def) (Some (keys_of (c_rows c)))
    end in
  let index := OrderedIndex.with_idle index None in
  if OrderedIndex.is_complete index then
    (true, MkStats 0 0, set_indexes (<[idx_name def := index]> slots) c)
  else
    let '(index, rows) := build_rounds (length (default [] (oi_pending index))) 0
      over_budget c index 0 in
    let done := OrderedIndex.is_complete index in
    (done, MkStats (if done then 1 else 0) rows, set_indexes (<[idx_name def := index]> slots) c).

(** Time as milliseconds; [duration_since] saturates at zero. *)
Definition release_indexes (used defined : gset string) (now grace : Z) (c : Collection) : Collection :=
  set_indexes (map_imap (λ name index,
    if bool_decide (name ∈ used) then Some (OrderedIndex.with_idle index None)
    else if negb (bool_decide (name ∈ defined)) then None
    else
      let since := default now (oi_idle_since index) in
      if Z.max 0 (now - since) <? grace
      then Some (OrderedIndex.with_idle index (Some since)) else None) (c_indexes c)) c.

Definition unindex_row (id key : string) (c : Collection) : Collection :=
  match c_rows c !! id with
  | None => c
  | Some r =>
      set_indexes ((λ index,
        OrderedIndex.remove index
          (OrderedIndex.key_of index (ValueRef.from_value (sr_value r))) key) <$> c_indexes c) c
  end.

Definition index_row (row : Sp00kyValue) (key : string) (c : Collection) : Collection :=
  set_indexes ((λ index,
    OrderedIndex.insert index (OrderedIndex.key_of index (ValueRef.from_value row)) key)
    <$> c_indexes c) c.

(** *** Mutations *)

Definition keeps (keep : gset string) (k : string) : bool :=
  bool_decide (k ∈ keep) || bool_decide (k ∈ ALWAYS_RETAINED).

Definition project (c : Collection) (value : Sp00kyValue) : Sp00kyValue :=
  match c_retained c, value with
  | Some keep, Object m => Object (List.filter (λ e, keeps keep e.1) m)
  | _, value => value
  end.

Definition compact (c : Collection) : Collection :=
  let c := match c_retained c with
    | Some keep => set_indexes (filter (λ e,
        Forall (λ field, keeps keep (field_root field) = true) (idx_fields (oi_def e.2)))
        (c_indexes c)) c
    | None => c
    end in
  let c := bump_writes c in
  let rows := map_imap (λ id r,
    let value := project c (sr_value r) in
    Some (MkStoredRow value (record_digest_into value id))) (c_rows c) in
  let acc := map_fold (λ _ r acc, xor_digest acc (sr_digest r)) xor_empty rows in
  set_catchup_xor acc (set_rows rows c).

Definition reseed_catchup_xor (c : Collection) : Collection :=
  set_catchup_xor (map_fold (λ _ r acc, xor_digest acc (sr_digest r)) xor_empty (c_rows c)) c.

(** The value a mutation stores, before projection. *)
Definition merged (op : Operation) (stored : option StoredRow) (data : Sp00kyValue) : Sp00kyValue :=
  match op, stored with
  | Merge, Some r =>
      match sr_value r, data with
      | Object base, Object incoming => Object (assoc_extend base incoming)
      | _, incoming => incoming
      end
  | _, _ => data
  end.

Definition apply (op : Operation) (id : string) (data : Sp00kyValue) (c : Collection)
    : Applied * Collection :=
  let normalized := raw_id id in
  let key := make_key (c_name c) id in
  let present := rows_contains (c_rows c) normalized in
  if bool_decide (op = Delete) then
    if negb present then (MkApplied key 0 false, c)
    else
      let c := match rows_digest_of (c_rows c) normalized with
        | Some d => set_catchup_xor (xor_digest (c_catchup_xor c) d) c
        | None => c
        end in
      let c := unindex_row normalized key c in
      let c := set_rows (delete normalized (c_rows c)) c in
      let c := bump_membership key (-1) c in
      (MkApplied key (-1) true, bump_writes c)
  else
    let data := merged op (c_rows c !! normalized) data in
    let data := project c data in
    let incoming := record_digest_into data normalized in
    if present && bool_decide (rows_digest_of (c_rows c) normalized = Some incoming)
    then (MkApplied key 0 false, c)
    else
      let c := match rows_digest_of (c_rows c) normalized with
        | Some d => set_catchup_xor (xor_digest (c_catchup_xor c) d) c
        | None => c
        end in
      let c := set_catchup_xor (xor_digest (c_catchup_xor c) incoming) c in
      let c := unindex_row normalized key c in
      let c := set_rows (<[normalized := MkStoredRow data incoming]> (c_rows c)) c in
      let c := index_row data key c in
      let c := bump_writes c in
      let weight := if present then 0 else 1 in
      let c := if weight =? 0 then c else bump_membership key weight c in
      (MkApplied key weight true, c).

Definition apply_mutation (op : Operation) (id : string) (data : Sp00kyValue) (c : Collection)
    : string * Z * Collection :=
  let '(applied, c) := apply op id data c in (ap_key applied, ap_weight applied, c).

(** *** Reads *)

Definition get_row (c : Collection) (id : string) : ValueRef := rows_get (c_rows c) (raw_id id).
Definition has_row (c : Collection) (id : string) : bool := rows_contains (c_rows c) (raw_id id).
Definition get_record_version (c : Collection) (id : string) : option Z :=
  rows_rv_of (c_rows c) (raw_id id).

Definition version_diff_in (c : Collection) (listing : list (string * option Z))
    (listed_part : string → bool) : list string * list string :=
  let listed := map (λ e, raw_id e.1) listing in
  let fetch := map fst (List.filter (λ e,
      negb (rows_contains (c_rows c) e.1) || negb (bool_decide (rows_rv_of (c_rows c) e.1 = e.2)))
    (map (λ e, (raw_id e.1, e.2)) listing)) in
  let stale := List.filter (λ id, listed_part id && negb (bool_decide (id ∈ listed)))
    (keys_of (c_rows c)) in
  (fetch, stale).

Definition version_diff (c : Collection) (listing : list (string * option Z))
    : list string * list string :=
  version_diff_in c listing (λ _, true).
End operations.
End Collection.

(** ** The store *)

Record Store `{OrdSet} := MkStore {
  collections : gmap string Collection;
  pending_deleted_rows : gmap string Sp00kyValue;
}.

Definition set_collections `{OrdSet} (m : gmap string Collection) (s : Store) : Store :=
  MkStore _ m (pending_deleted_rows s).
Definition set_pending `{OrdSet} (m : gmap string Sp00kyValue) (s : Store) : Store :=
  MkStore _ (collections s) m.

Module Store.
Section operations.
Context `{Hashing} `{OrdSet}.

Definition new : Store := MkStore _ ∅ ∅.

(** [ensure_collection]: the entry, created when it is missing. *)
Definition ensured (name : string) (s : Store) : Collection :=
  default (Collection.new name) (collections s !! name).
Definition get_collection (s : Store) (name : string) : option Collection := collections s !! name.

Definition apply_owned (table : string) (op : Operation) (id : string) (data : Sp00kyValue)
    (s : Store) : Applied * Store :=
  let '(applied, c) := Collection.apply op id data (ensured table s) in
  (applied, set_collections (<[table := c]> (collections s)) s).

Definition set_retained_fields (table : string) (fields : option (gset string)) (s : Store) : Store :=
  set_collections (<[table := set_retained fields (ensured table s)]> (collections s)) s.

Definition apply_change (ch : Change) (s : Store) : string * Z * Store :=
  let '(applied, s) := apply_owned (ch_table ch) (ch_op ch) (ch_id ch) (ch_data ch) s in
  (ap_key applied, ap_weight applied, s).

Definition get_row_by_key (s : Store) (key : string) : ValueRef :=
  match parse_key key with
  | None => Missing
  | Some (table, id) =>
      match collections s !! table with
      | None => Missing
      | Some coll =>
          let by_raw := rows_get (c_rows coll) id in
          if ValueRef.is_missing by_raw then rows_get (c_rows coll) key else by_raw
      end
  end.

Definition get_row_by_key_or_deleted (s : Store) (key : string) : ValueRef :=
  let live := get_row_by_key s key in
  if ValueRef.is_missing live then ValueRef.from_opt (pending_deleted_rows s !! key) else live.

Definition stage_deleted_row (table id : string) (s : Store) : Store :=
  let key := make_key table id in
  let row := get_row_by_key s key in
  if ValueRef.is_missing row then s
  else set_pending (<[key := ValueRef.to_owned_value row]> (pending_deleted_rows s)) s.

Definition clear_pending_deleted_rows (s : Store) : Store := set_pending ∅ s.

Definition get_record_version_by_key (s : Store) (key : string) : option Z :=
  let? (table, id) := parse_key key in
  let? c := collections s !! table in
  Collection.get_record_version c id.
End operations.
End Store.
