(* ===== verification/StoreFacts.v ===== *)
(** * The row store keeps its promises

    The invariant of a collection (digests, XOR set-hash, membership, built
    indexes all functions of the rows), its preservation by every mutation,
    and what each mutation does. *)

From S2P Require Import Prelude Platform Float64 Value RowCodec RowCodecSpec ValueRef ZSet SnapshotHash SortKey Index Store.
Local Open Scope Z_scope.

(** ** Values whose integers sort soundly *)

Definition safe_intb (i : Z) : bool := (-9007199254740992 <=? i) && (i <=? 9007199254740992).

Fixpoint ints_safe (v : Sp00kyValue) : bool :=
  match v with
  | Int i => safe_intb i
  | Array l => forallb ints_safe l
  | Object m => forallb (λ e, match e with (k, x) => ints_safe x end) m
  | _ => true
  end.

Lemma safe_intb_spec i : safe_intb i = true → F64.safe_int i.
Proof. unfold safe_intb, F64.safe_int. intros [?%Z.leb_le ?%Z.leb_le]%andb_prop. done. Qed.

Lemma ints_safe_object m : ints_safe (Object m) = true ↔ ∀ k x, (k, x) ∈ m → ints_safe x = true.
Proof.
  simpl. rewrite forallb_forall. split.
  - intros H k x Hin%list_elem_of_In. apply (H _ Hin).
  - intros H [k x] Hin%list_elem_of_In. by apply (H k).
Qed.

Lemma elem_of_assoc_insert {A} k (x : A) m k' x' :
  (k', x') ∈ assoc_insert k x m → x' = x ∨ (k', x') ∈ m.
Proof.
  induction m as [|[k1 b] m IH]; simpl.
  - intros [= -> ->]%list_elem_of_singleton. auto.
  - destruct (String.eqb k k1).
    + intros [[= -> ->]|Hin]%elem_of_cons; [auto|]. right. set_solver.
    + intros [->|Hin]%elem_of_cons; [right; set_solver|].
      destruct (IH Hin); [auto|]. right. set_solver.
Qed.

Definition ref_safe (r : ValueRef) : Prop :=
  match r with
  | RInt i => F64.safe_int i
  | RArr (SFlat _) | RObj (OFlat _) => False
  | RObj (OMem m) => ints_safe (Object m) = true
  | _ => True
  end.

Lemma ref_safe_value v : ints_safe v = true → ref_safe (ValueRef.from_value v).
Proof. destruct v; simpl; try done. apply safe_intb_spec. Qed.

Lemma ref_safe_get r k : ref_safe r → ref_safe (ValueRef.get r k).
Proof.
  destruct r as [| | | | | |?|[m|f]]; simpl; try done.
  intros Hs. destruct (assoc_get k m) as [x|] eqn:E; simpl; [|done].
  apply ref_safe_value. apply assoc_get_Some in E. by eapply ints_safe_object.
Qed.

Lemma ref_safe_resolve r p : ref_safe r → ref_safe (resolve_field r p).
Proof.
  unfold resolve_field. destruct (ValueRef.is_missing r); [done|].
  revert r. induction (segments p) as [|s segs IH]; intros r Hr; simpl; [done|].
  destruct (_ && _); [done|]. pose proof (ref_safe_get r s Hr).
  destruct (ValueRef.is_missing _); [done|auto].
Qed.

Lemma sort_value_ok r d : ref_safe r →
  scalar_safe (sv_scalar (SortableValue.from_value r d)) ∧
  sv_scalar (SortableValue.from_value r d) ≠ STop.
Proof. destruct r; done. Qed.

Lemma key_of_ok `{OrdSet} i v : ints_safe v = true →
  key_ok (OrderedIndex.key_of i (ValueRef.from_value v)) ∧
  length (OrderedIndex.key_of i (ValueRef.from_value v)) = length (oi_paths i).
Proof.
  intros Hv. unfold OrderedIndex.key_of. split; [|apply length_map].
  unfold key_ok. rewrite Forall_map. apply Forall_true. intros p.
  by apply sort_value_ok, ref_safe_resolve, ref_safe_value.
Qed.

(** ** Row keys *)

#[global] Instance row_key_inj name : Inj (=) (=) (row_key name).
Proof. intros s t H. unfold row_key in H. by do 2 apply string_app_inj_l in H. Qed.

Lemma make_key_row_key name id : make_key name id = row_key name (raw_id id).
Proof. done. Qed.

(** ** The XOR of a table's digests *)

Definition xor_rows (rows : Rows) : list Z :=
  map_fold (λ _ r acc, xor_digest acc (sr_digest r)) xor_empty rows.

Lemma xor_rows_insert id r rows :
  rows !! id = None → xor_rows (<[id := r]> rows) = xor_digest (xor_rows rows) (sr_digest r).
Proof.
  intros Hi. unfold xor_rows. rewrite map_fold_insert_L; [done| |done].
  intros. by rewrite !xor_digest_assoc, (xor_digest_comm (sr_digest _)).
Qed.

Lemma xor_rows_length rows :
  map_Forall (λ _ r, length (sr_digest r) = 32%nat) rows → length (xor_rows rows) = 32%nat.
Proof.
  induction rows as [|id r rows Hi IH] using map_ind; intros Hr; [done|].
  rewrite xor_rows_insert by done. apply map_Forall_insert in Hr as [Hd Hr]; [|done].
  unfold xor_digest. rewrite length_zip_with, (IH Hr). lia.
Qed.

Lemma xor_rows_delete id r rows :
  map_Forall (λ _ r, length (sr_digest r) = 32%nat) rows → rows !! id = Some r →
  xor_rows (delete id rows) = xor_digest (xor_rows rows) (sr_digest r).
Proof.
  intros Hr Hi. rewrite <- (insert_delete_id rows id r) at 2 by done.
  rewrite xor_rows_insert by apply lookup_delete_eq.
  rewrite xor_digest_cancel; [done|]. rewrite xor_rows_length.
  - symmetry. by apply (Hr id r).
  - by apply map_Forall_delete.
Qed.

(** ** Membership *)

Lemma build_membership_kmap name rows :
  Collection.build_membership name rows = kmap (row_key name) ((λ _, 1) <$> rows).
Proof.
  unfold Collection.build_membership, kmap, keys_of. apply list_to_map_proper.
  - rewrite <- !list_fmap_compose.
    change (NoDup (row_key name ∘ fst <$> map_to_list rows)).
    rewrite list_fmap_compose. apply NoDup_fmap_2; [apply _|].
    apply NoDup_fst_map_to_list.
  - rewrite map_to_list_fmap, <- !list_fmap_compose.
    erewrite list_fmap_ext; [done|]. by intros ? [].
Qed.

Lemma build_membership_insert name id r rows :
  Collection.build_membership name (<[id := r]> rows) =
    <[row_key name id := 1]> (Collection.build_membership name rows).
Proof. rewrite !build_membership_kmap, fmap_insert. by rewrite kmap_insert by apply _. Qed.

Lemma build_membership_delete name id rows :
  Collection.build_membership name (delete id rows) =
    delete (row_key name id) (Collection.build_membership name rows).
Proof. rewrite !build_membership_kmap, fmap_delete. by rewrite kmap_delete by apply _. Qed.

Lemma lookup_build_membership name id rows :
  Collection.build_membership name rows !! row_key name id = (λ _, 1) <$> rows !! id.
Proof. rewrite build_membership_kmap, lookup_kmap by apply _. by rewrite lookup_fmap. Qed.

Lemma elem_of_membership name rows k w :
  Collection.build_membership name rows !! k = Some w ↔
    w = 1 ∧ ∃ id, k = row_key name id ∧ is_Some (rows !! id).
Proof.
  rewrite build_membership_kmap, lookup_kmap_Some by apply _. split.
  - intros (id & -> & H). rewrite lookup_fmap, fmap_Some in H.
    destruct H as (r & Hr & ->). eauto.
  - intros (-> & id & -> & [r Hr]). exists id. rewrite lookup_fmap, Hr. done.
Qed.

(** ** Built indexes follow the rows *)

Section index.
Context `{OrdSetLaws}.

Definition pending_id (i : OrderedIndex) (id : string) : Prop :=
  match oi_pending i with Some ids => id ∈ ids | None => False end.
#[global] Instance pending_id_dec i id : Decision (pending_id i id).
Proof. unfold pending_id. destruct (oi_pending i); apply _. Defined.

(** An index of the table's rows: it holds only current entries (values
    equal in the index's order), and every row not still to be read. *)
Record index_inv (name : string) (rows : Rows) (i : OrderedIndex) : Prop := {
  ii_wf : index_wf i;
  ii_sound : ∀ k r, (k, r) ∈ os_iter (oi_entries i) →
    ∃ id row, rows !! id = Some row ∧ r = row_key name id ∧
      list_cmp Scalar.cmp (OrderedIndex.key_of i (ValueRef.from_value (sr_value row))) k = Eq;
  ii_complete : ∀ id row, rows !! id = Some row → ¬ pending_id i id →
    ∃ k, (k, row_key name id) ∈ os_iter (oi_entries i);
}.

Lemma remove_keeps i key row :
  oi_paths (OrderedIndex.remove i key row) = oi_paths i ∧
  oi_def (OrderedIndex.remove i key row) = oi_def i ∧
  oi_pending (OrderedIndex.remove i key row) = oi_pending i.
Proof. unfold OrderedIndex.remove. by destruct (os_remove _ _ _). Qed.

Lemma insert_keeps i key row :
  oi_paths (OrderedIndex.insert i key row) = oi_paths i ∧
  oi_def (OrderedIndex.insert i key row) = oi_def i ∧
  oi_pending (OrderedIndex.insert i key row) = oi_pending i.
Proof. unfold OrderedIndex.insert. by destruct (os_insert _ _ _). Qed.

Lemma key_of_paths i j r : oi_paths i = oi_paths j →
  OrderedIndex.key_of i r = OrderedIndex.key_of j r.
Proof. unfold OrderedIndex.key_of. by intros ->. Qed.

Lemma not_pending i j id : oi_pending j = oi_pending i → ¬ pending_id j id → ¬ pending_id i id.
Proof. unfold pending_id. by intros ->. Qed.

(** Taking a row out of the table and the index. *)
Lemma unindex_inv name rows i id r :
  index_inv name rows i → rows !! id = Some r → ints_safe (sr_value r) = true →
  index_inv name (delete id rows)
    (OrderedIndex.remove i (OrderedIndex.key_of i (ValueRef.from_value (sr_value r))) (row_key name id)).
Proof.
  intros [Hw Hs Hc] Hid Hsafe. destruct (key_of_ok i _ Hsafe) as [Hok Hlen].
  set (key := OrderedIndex.key_of i _) in *.
  destruct (remove_keeps i key (row_key name id)) as (Hp & _ & Hpend).
  split.
  - by apply remove_wf.
  - intros k rk. rewrite remove_iter by done. intros [Hin Hne]%elem_of_sl_remove.
    destruct (Hs _ _ Hin) as (id' & row & Hrow & -> & Hk).
    exists id', row. split_and!; [|done|by rewrite (key_of_paths _ i)].
    rewrite lookup_delete_ne; [done|]. intros <-. apply Hne.
    rewrite Hid in Hrow. injection Hrow as <-. unfold index_entry_cmp. simpl.
    fold key in Hk. rewrite Hk. apply string_cmp_refl.
  - intros id' row Hrow Hn. apply lookup_delete_Some in Hrow as [Hne Hrow].
    destruct (Hc id' row Hrow) as [k Hk]; [by eapply not_pending|].
    exists k. rewrite remove_iter by done. apply elem_of_sl_remove. split; [done|].
    unfold index_entry_cmp. simpl. intros Heq. destruct (list_cmp _ _ _); simpl in Heq; [|done..].
    apply string_cmp_eq in Heq. by apply (inj (row_key name)) in Heq.
Qed.

Lemma sl_mem_true {A} (cmp : A → A → comparison) a l :
  sl_mem cmp a l = true → ∃ b, b ∈ l ∧ cmp a b = Eq.
Proof.
  unfold sl_mem. rewrite existsb_exists. intros (b & Hb & Heq).
  exists b. split; [by apply list_elem_of_In|]. by destruct (cmp a b).
Qed.

(** Filing a row: a new entry, or an equal one is there already. *)
Lemma filed_inv name rows i id r v :
  index_inv name rows i → rows !! id = Some r → sr_value r = v → ints_safe v = true →
  let i' := OrderedIndex.insert i (OrderedIndex.key_of i (ValueRef.from_value v)) (row_key name id) in
  index_inv name rows i' ∧ ∃ k, (k, row_key name id) ∈ os_iter (oi_entries i').
Proof.
  intros [Hw Hs Hc] Hid Hv Hsafe i'. destruct (key_of_ok i _ Hsafe) as [Hok Hlen].
  set (key := OrderedIndex.key_of i _) in *.
  destruct (insert_keeps i key (row_key name id)) as (Hp & _ & Hpend).
  assert (∃ k, (k, row_key name id) ∈ os_iter (oi_entries i')) as Hex.
  { unfold i'. rewrite insert_iter by done.
    destruct (sl_mem index_entry_cmp (key, row_key name id) (os_iter (oi_entries i))) eqn:E.
    - apply sl_mem_true in E as ([k rk] & Hin & Heq). unfold index_entry_cmp in Heq. simpl in Heq.
      destruct (list_cmp _ _ _); simpl in Heq; [|done..]. apply string_cmp_eq in Heq as <-.
      exists k. by apply elem_of_sl_insert_old.
    - exists key. by apply elem_of_sl_insert_new. }
  split; [|done]. split.
  - by apply insert_wf.
  - intros k rk. unfold i'. rewrite insert_iter by done. intros [Heq|Hin]%elem_of_sl_insert.
    + injection Heq as -> ->. exists id, r. split_and!; [done|done|].
      rewrite (key_of_paths _ i) by done. rewrite Hv. fold key.
      apply (cmp_refl _ _ (lawful_list_any _ _ scalar_cmp_lawful)). by apply key_ok_safe.
    + destruct (Hs _ _ Hin) as (id' & row & ? & ? & ?). exists id', row.
      split_and!; [done|done|]. by rewrite (key_of_paths _ i).
  - intros id' row Hrow Hn. destruct (Hc id' row Hrow) as [k Hk]; [by eapply not_pending|].
    exists k. unfold i'. rewrite insert_iter by done. by apply elem_of_sl_insert_old.
Qed.

Lemma index_inv_rows name rows i id r :
  index_inv name rows i → rows !! id = None →
  (∀ k, (k, row_key name id) ∈ os_iter (oi_entries i) → False) ∧
  ∀ k rk, (k, rk) ∈ os_iter (oi_entries i) →
    ∃ id' row, <[id := r]> rows !! id' = Some row ∧ rk = row_key name id' ∧
      list_cmp Scalar.cmp (OrderedIndex.key_of i (ValueRef.from_value (sr_value row))) k = Eq.
Proof.
  intros [Hw Hs Hc] Hid. split.
  - intros k Hk. destruct (Hs _ _ Hk) as (id' & row & Hrow & Heq & _).
    apply (inj (row_key name)) in Heq as <-. congruence.
  - intros k rk Hk. destruct (Hs _ _ Hk) as (id' & row & Hrow & -> & Hc').
    exists id', row. split_and!; [|done|done]. rewrite lookup_insert_ne; [done|congruence].
Qed.

(** Putting a new row into the table and the index. *)
Lemma index_row_inv name rows i id r :
  index_inv name rows i → rows !! id = None → ints_safe (sr_value r) = true →
  index_inv name (<[id := r]> rows)
    (OrderedIndex.insert i (OrderedIndex.key_of i (ValueRef.from_value (sr_value r))) (row_key name id)).
Proof.
  intros Hi Hid Hsafe. destruct (key_of_ok i _ Hsafe) as [Hok Hlen].
  destruct (index_inv_rows name rows i id r Hi Hid) as [Hno Hs].
  destruct Hi as [Hw _ Hc].
  destruct (insert_keeps i (OrderedIndex.key_of i (ValueRef.from_value (sr_value r))) (row_key name id))
    as (Hp & _ & Hpend).
  set (key := OrderedIndex.key_of i _) in *.
  assert (∃ k, (k, row_key name id) ∈ os_iter (oi_entries (OrderedIndex.insert i key (row_key name id)))) as Hex.
  { exists key. rewrite insert_iter by done. apply elem_of_sl_insert_new.
    destruct (sl_mem _ _ _) eqn:E; [|done]. exfalso.
    apply sl_mem_true in E as ([k rk] & Hin & Heq). unfold index_entry_cmp in Heq. simpl in Heq.
    destruct (list_cmp _ _ _); simpl in Heq; [|done..]. apply string_cmp_eq in Heq as <-.
    by apply (Hno k). }
  split.
  - by apply insert_wf.
  - intros k rk. rewrite insert_iter by done. intros [Heq|Hin]%elem_of_sl_insert.
    + injection Heq as -> ->. exists id, r. rewrite lookup_insert_eq. split_and!; [done|done|].
      rewrite (key_of_paths _ i) by done. fold key.
      apply (cmp_refl _ _ (lawful_list_any _ _ scalar_cmp_lawful)). by apply key_ok_safe.
    + destruct (Hs _ _ Hin) as (id' & row & ? & ? & ?). exists id', row.
      split_and!; [done|done|]. by rewrite (key_of_paths _ i).
  - intros id' row Hrow Hn. destruct (decide (id = id')) as [<-|Hne]; [done|].
    rewrite lookup_insert_ne in Hrow by done.
    destruct (Hc id' row Hrow) as [k Hk]; [by eapply not_pending|].
    exists k. rewrite insert_iter by done. by apply elem_of_sl_insert_old.
Qed.
End index.

(** ** Building an index, at once or step by step *)

Section build.
Context `{OrdSetLaws}.

Lemma insert_with_pending i p k r :
  OrderedIndex.insert (OrderedIndex.with_pending i p) k r =
    OrderedIndex.with_pending (OrderedIndex.insert i k r) p.
Proof. unfold OrderedIndex.insert. simpl. by destruct (os_insert _ _ _). Qed.

Lemma insert_all_with_pending i p es :
  OrderedIndex.insert_all (OrderedIndex.with_pending i p) es =
    OrderedIndex.with_pending (OrderedIndex.insert_all i es) p.
Proof.
  revert i. induction es as [|e es IH]; intros i; [done|].
  unfold OrderedIndex.insert_all in *. simpl. by rewrite insert_with_pending, IH.
Qed.

Lemma insert_all_keeps i es :
  oi_paths (OrderedIndex.insert_all i es) = oi_paths i ∧
  oi_def (OrderedIndex.insert_all i es) = oi_def i ∧
  oi_pending (OrderedIndex.insert_all i es) = oi_pending i.
Proof.
  revert i. induction es as [|e es IH]; intros i; [done|]. unfold OrderedIndex.insert_all in *.
  simpl. destruct (IH (OrderedIndex.insert i e.1 e.2)) as (-> & -> & ->). apply insert_keeps.
Qed.

(** An entry that files a row of the table. *)
Definition files (name : string) (rows : Rows) (i : OrderedIndex) (e : IndexKey * string) : Prop :=
  ∃ id r, rows !! id = Some r ∧ ints_safe (sr_value r) = true ∧
    e = (OrderedIndex.key_of i (ValueRef.from_value (sr_value r)), row_key name id).

Lemma files_insert name rows i k r es :
  Forall (files name rows i) es → Forall (files name rows (OrderedIndex.insert i k r)) es.
Proof.
  intros Hf. eapply Forall_impl; [exact Hf|]. intros e (id & row & ? & ? & ->).
  exists id, row. split_and!; [done|done|]. f_equal. apply key_of_paths.
  by destruct (insert_keeps i k r) as (-> & _).
Qed.

Lemma insert_all_old name rows i es x :
  index_inv name rows i → Forall (files name rows i) es → x ∈ os_iter (oi_entries i) →
  x ∈ os_iter (oi_entries (OrderedIndex.insert_all i es)).
Proof.
  unfold OrderedIndex.insert_all. revert i.
  induction es as [|e es IH]; intros i Hi Hf Hx; simpl; [done|].
  apply Forall_cons_1 in Hf as [(id & r & Hid & Hsafe & ->) Hf]. apply IH.
  - by eapply filed_inv.
  - by apply files_insert.
  - simpl. rewrite insert_iter; [by apply elem_of_sl_insert_old|apply Hi|by apply key_of_ok].
Qed.

Lemma insert_all_inv name rows i es :
  index_inv name rows i → Forall (files name rows i) es →
  index_inv name rows (OrderedIndex.insert_all i es) ∧
  ∀ e, e ∈ es → ∃ k, (k, e.2) ∈ os_iter (oi_entries (OrderedIndex.insert_all i es)).
Proof.
  revert i. induction es as [|e es IH]; intros i Hi Hf; [split; [done|set_solver]|].
  apply Forall_cons_1 in Hf as [(id & r & Hid & Hsafe & ->) Hf].
  destruct (filed_inv name rows i id r _ Hi Hid eq_refl Hsafe) as [Hi' [k Hk]].
  apply (files_insert _ _ _ (OrderedIndex.key_of i (ValueRef.from_value (sr_value r))) (row_key name id)) in Hf.
  destruct (IH _ Hi' Hf) as [IH1 IH2]. split; [exact IH1|].
  intros e [->|He]%elem_of_cons; [|by apply IH2]. exists k.
  change (OrderedIndex.insert_all i (?e :: es)) with
    (OrderedIndex.insert_all (OrderedIndex.insert i e.1 e.2) es).
  by eapply insert_all_old.
Qed.

(** What the loop over the ids to read collects. *)
Lemma pending_entries_spec c i ids :
  Collection.pending_entries c i ids =
    omap (λ id, (λ r, (OrderedIndex.key_of i (ValueRef.from_value (sr_value r)),
                       row_key (c_name c) id)) <$> c_rows c !! id) ids.
Proof.
  unfold Collection.pending_entries.
  assert (∀ acc seen, map_Forall (λ s s', s = s') seen →
    (foldl (λ '(acc, seen) id,
      match c_rows c !! id with
      | None => (acc, seen)
      | Some r =>
          let '(key, seen) := OrderedIndex.key_of_shared i (ValueRef.from_value (sr_value r)) seen in
          (acc ++ [(key, row_key (c_name c) id)], seen)
      end) (acc, seen) ids).1 = acc ++ omap (λ id, (λ r, (OrderedIndex.key_of i (ValueRef.from_value (sr_value r)),
                       row_key (c_name c) id)) <$> c_rows c !! id) ids) as Hgen.
  { induction ids as [|id ids IH]; intros acc seen Hs; simpl; [by rewrite app_nil_r|].
    destruct (c_rows c !! id) as [r|]; simpl; [|by apply IH].
    destruct (key_of_shared_spec i (ValueRef.from_value (sr_value r)) seen Hs) as [H1 H2].
    destruct (OrderedIndex.key_of_shared i _ seen) as [key seen']. simpl in *. subst key.
    rewrite IH by done. by rewrite <- app_assoc. }
  apply Hgen. apply map_Forall_empty.
Qed.

Lemma pending_entries_files c i ids :
  map_Forall (λ _ r, ints_safe (sr_value r) = true) (c_rows c) →
  Forall (files (c_name c) (c_rows c) i) (Collection.pending_entries c i ids).
Proof.
  intros Hsafe. rewrite pending_entries_spec, Forall_forall.
  intros e (id & Hin & He)%list_elem_of_omap.
  apply fmap_Some in He as (r & Hr & ->). exists id, r.
  split_and!; [done|by eapply Hsafe|done].
Qed.

Lemma pending_entries_filed c i ids id r :
  c_rows c !! id = Some r → id ∈ ids →
  ∃ k, (k, row_key (c_name c) id) ∈ Collection.pending_entries c i ids.
Proof.
  intros Hr Hin. exists (OrderedIndex.key_of i (ValueRef.from_value (sr_value r))).
  rewrite pending_entries_spec. apply list_elem_of_omap. exists id. split; [done|].
  by rewrite Hr.
Qed.

Lemma files_sorted name rows i es :
  Forall (files name rows i) es → Forall (files name rows i) (merge_sort OrderedIndex.entry_le es).
Proof. intros Hf. by rewrite merge_sort_Permutation. Qed.

(** One round of a stepped build. *)
Lemma fill_pending_inv c i max :
  index_inv (c_name c) (c_rows c) i → 0 <= max →
  map_Forall (λ _ r, ints_safe (sr_value r) = true) (c_rows c) →
  let i' := (Collection.fill_pending c i max).2 in
  index_inv (c_name c) (c_rows c) i' ∧ oi_def i' = oi_def i ∧
  oi_pending i' = (let? p := oi_pending i in
    match ztake (zlength p - Z.min (zlength p) max) p with [] => None | l => Some l end).
Proof.
  intros Hi Hmax Hsafe. unfold Collection.fill_pending.
  destruct (oi_pending i) as [p|] eqn:Ep; [|done]. cbn zeta.
  set (n := zlength p - Z.min (zlength p) max).
  assert (0 <= n) by lia.
  set (p' := match ztake n p with [] => None | _ => Some (ztake n p) end).
  set (i1 := OrderedIndex.with_pending i p').
  set (es := merge_sort OrderedIndex.entry_le (Collection.pending_entries c i1 (zdrop n p))).
  cbn [snd]. unfold OrderedIndex.fill. fold es.
  assert (Forall (files (c_name c) (c_rows c) i) es) as Hes.
  { apply files_sorted. apply (pending_entries_files c i1 _ Hsafe). }
  unfold i1 at 1 2 3. rewrite insert_all_with_pending.
  destruct (insert_all_keeps i es) as (Hk1 & Hk2 & Hk3).
  destruct (insert_all_inv _ _ _ _ Hi Hes) as [[Hw Hs Hc] Hfiled].
  split_and!; [|done|simpl; unfold p'; generalize (ztake n p); by intros []].
  split; [by split; apply Hw|exact Hs|]. intros id r Hr Hn.
  destruct (decide (pending_id i id)) as [Hp|Hp]; [|apply (Hc id r Hr); unfold pending_id in *; by rewrite Hk3].
  unfold pending_id in Hp. rewrite Ep in Hp. rewrite <- (take_drop (Z.to_nat n) p) in Hp.
  rewrite <- ztake_spec, <- zdrop_spec in Hp by done. apply elem_of_app in Hp as [Hp|Hp].
  - exfalso. apply Hn. unfold pending_id. simpl. unfold p'.
    revert Hp. generalize (ztake n p). intros [|? ?] Hp; [by apply not_elem_of_nil in Hp|exact Hp].
  - destruct (pending_entries_filed c i1 (zdrop n p) id r Hr Hp) as [k Hk].
    destruct (Hfiled (k, row_key (c_name c) id)) as [k' Hk'].
    { unfold es. by rewrite merge_sort_Permutation. }
    exists k'. exact Hk'.
Qed.
End build.

Section fresh.
Context `{OrdSetLaws}.

Lemma index_inv_done name rows i p :
  index_inv name rows i →
  (∀ id r, rows !! id = Some r → ∃ k, (k, row_key name id) ∈ os_iter (oi_entries i)) →
  index_inv name rows (OrderedIndex.with_pending i p).
Proof. intros [Hw Hs _] Hall. split; [by split; apply Hw|exact Hs|]. eauto. Qed.

Lemma index_inv_idle name rows i t :
  index_inv name rows i → index_inv name rows (OrderedIndex.with_idle i t).
Proof. intros [Hw Hs Hc]. split; [by split; apply Hw|exact Hs|exact Hc]. Qed.

Lemma fresh_inv name rows def :
  index_inv name rows (OrderedIndex.with_pending (OrderedIndex.new def) (Some (keys_of rows))).
Proof.
  destruct (new_wf def) as [Hw1 Hw2]. split.
  - by split.
  - intros k r. simpl. rewrite os_new_iter. set_solver.
  - intros id r Hr Hn. exfalso. apply Hn. unfold pending_id. simpl.
    apply elem_of_keys_of. eauto.
Qed.

(** The one-pass build collects the entries of all rows. *)
Lemma build_entries_spec `{Hashing} c i (l : list (string * StoredRow)) :
  (foldl (λ '(acc, seen) (e : string * StoredRow),
      let '(key, seen) := OrderedIndex.key_of_shared i (ValueRef.from_value (sr_value e.2)) seen in
      (acc ++ [(key, row_key (c_name c) e.1)], seen)) ([], ∅) l).1 =
    map (λ e, (OrderedIndex.key_of i (ValueRef.from_value (sr_value e.2)), row_key (c_name c) e.1)) l.
Proof.
  assert (∀ acc seen, map_Forall (λ s s', s = s') seen →
    (foldl (λ '(acc, seen) (e : string * StoredRow),
      let '(key, seen) := OrderedIndex.key_of_shared i (ValueRef.from_value (sr_value e.2)) seen in
      (acc ++ [(key, row_key (c_name c) e.1)], seen)) (acc, seen) l).1 =
    acc ++ map (λ e, (OrderedIndex.key_of i (ValueRef.from_value (sr_value e.2)), row_key (c_name c) e.1)) l)
    as Hgen.
  { induction l as [|e l IH]; intros acc seen Hs; simpl; [by rewrite app_nil_r|].
    destruct (key_of_shared_spec i (ValueRef.from_value (sr_value e.2)) seen Hs) as [H1 H2].
    destruct (OrderedIndex.key_of_shared i _ seen) as [key seen']. simpl in *. subst key.
    rewrite IH by done. by rewrite <- app_assoc. }
  apply Hgen. apply map_Forall_empty.
Qed.

Lemma build_index_inv `{Hashing} def c :
  map_Forall (λ _ r, ints_safe (sr_value r) = true) (c_rows c) →
  let '(i, c') := Collection.build_index def c in
  index_inv (c_name c) (c_rows c) i ∧ oi_def i = def ∧ oi_pending i = None ∧
  c' = (Collection.membership c).2.
Proof.
  intros Hsafe. unfold Collection.build_index.
  destruct (Collection.membership c) as [z c'] eqn:Ec.
  assert (c_name c' = c_name c ∧ c_rows c' = c_rows c) as [Hn Hr].
  { unfold Collection.membership in Ec. destruct (c_membership c); by injection Ec as <- <-. }
  rewrite Hr, <- Hn, build_entries_spec, Hn. unfold OrderedIndex.fill.
  set (es := merge_sort _ _).
  assert (Forall (files (c_name c) (c_rows c) (OrderedIndex.new def)) es) as Hes.
  { apply files_sorted. rewrite Forall_map, Forall_forall. intros [id r] Hin%elem_of_map_to_list.
    exists id, r. split_and!; [done|by eapply Hsafe|done]. }
  destruct (insert_all_keeps (OrderedIndex.new def) es) as (_ & Hk2 & Hk3).
  split_and!; [|done|done|done].
  destruct (insert_all_inv _ _ _ es (fresh_inv (c_name c) (c_rows c) def)) as [Hi Hf].
  { exact Hes. }
  rewrite insert_all_with_pending in Hi, Hf.
  apply (index_inv_done _ _ _ None) in Hi.
  - destruct (OrderedIndex.insert_all _ es); simpl in *; by subst.
  - intros id r Hr'. apply (Hf (OrderedIndex.key_of (OrderedIndex.new def) (ValueRef.from_value (sr_value r)), row_key (c_name c) id)).
    unfold es. rewrite merge_sort_Permutation. apply list_elem_of_fmap.
    exists (id, r). split; [done|]. by apply elem_of_map_to_list.
Qed.
End fresh.

(** ** The invariant of a collection *)

Section collection.
Context `{HashingLaws} `{OrdSetLaws}.

Record coll_inv (c : Collection) : Prop := {
  ci_safe : map_Forall (λ _ r, ints_safe (sr_value r) = true) (c_rows c);
  ci_digest : map_Forall (λ id r, sr_digest r = record_digest_into (sr_value r) id) (c_rows c);
  ci_xor : c_catchup_xor c = xor_rows (c_rows c);
  ci_membership : ∀ z, c_membership c = Some z → z = Collection.build_membership (c_name c) (c_rows c);
  ci_index : map_Forall (λ n i, idx_name (oi_def i) = n ∧ index_inv (c_name c) (c_rows c) i) (c_indexes c);
}.

Lemma new_inv name : coll_inv (Collection.new name).
Proof.
  split; [apply map_Forall_empty|apply map_Forall_empty|reflexivity|intros z [=]|
    apply map_Forall_empty].
Qed.

Lemma digest_lengths c : coll_inv c → map_Forall (λ _ r, length (sr_digest r) = 32%nat) (c_rows c).
Proof.
  intros Hc id r Hr. rewrite (ci_digest _ Hc id r Hr).
  unfold record_digest_into, digest_from_canonical. apply blake3_length.
Qed.

Lemma ints_safe_project c v : ints_safe v = true → ints_safe (Collection.project c v) = true.
Proof.
  unfold Collection.project. destruct (c_retained c) as [keep|]; [|by destruct v].
  destruct v; try done. rewrite !ints_safe_object. intros Hs k x Hin.
  apply list_elem_of_In, filter_In in Hin as [Hin _]. apply (Hs k). by apply list_elem_of_In.
Qed.

Lemma ints_safe_extend base incoming :
  ints_safe (Object base) = true → ints_safe (Object incoming) = true →
  ints_safe (Object (assoc_extend base incoming)) = true.
Proof.
  revert base. induction incoming as [|[k x] incoming IH]; intros base Hb Hi; simpl; [done|].
  rewrite ints_safe_object in Hi. apply IH.
  - rewrite ints_safe_object in Hb |- *. intros k' x' Hin.
    destruct (elem_of_assoc_insert _ _ _ _ _ Hin) as [->|Hin']; [|by apply (Hb k')].
    apply (Hi k). set_solver.
  - rewrite ints_safe_object. intros k' x' Hin. apply (Hi k'). set_solver.
Qed.

Lemma ints_safe_merged op stored v :
  (∀ r, stored = Some r → ints_safe (sr_value r) = true) → ints_safe v = true →
  ints_safe (Collection.merged op stored v) = true.
Proof.
  intros Hr Hv. unfold Collection.merged. destruct op, stored as [r|]; try done.
  specialize (Hr r eq_refl). destruct (sr_value r) eqn:E; try done. destruct v; try done.
  by apply ints_safe_extend.
Qed.

(** *** The pieces of a mutation *)

Lemma rows_contains_spec rows id : rows_contains rows id = true ↔ is_Some (rows !! id).
Proof. unfold rows_contains. destruct (rows !! id); naive_solver. Qed.

Lemma bump_none key w c : c_membership c = None → Collection.bump_membership key w c = c.
Proof. unfold Collection.bump_membership. by intros ->. Qed.

Lemma unindex_absent id key c : c_rows c !! id = None → Collection.unindex_row id key c = c.
Proof. unfold Collection.unindex_row. by intros ->. Qed.

(** The indexes once the row is out. *)
Lemma unindex_map_inv name rows (ixs : gmap string OrderedIndex) id r :
  map_Forall (λ n i, idx_name (oi_def i) = n ∧ index_inv name rows i) ixs →
  rows !! id = Some r → ints_safe (sr_value r) = true →
  map_Forall (λ n i, idx_name (oi_def i) = n ∧ index_inv name (delete id rows) i)
    ((λ index, OrderedIndex.remove index
        (OrderedIndex.key_of index (ValueRef.from_value (sr_value r))) (row_key name id)) <$> ixs).
Proof.
  intros Hix Hr Hs n i'. rewrite lookup_fmap, fmap_Some. intros (i & Hi & ->).
  destruct (Hix n i Hi) as [Hn Hinv]. split; [|by apply unindex_inv].
  by destruct (remove_keeps i (OrderedIndex.key_of i (ValueRef.from_value (sr_value r)))
    (row_key name id)) as (_ & -> & _).
Qed.

Lemma index_map_inv name rows (ixs : gmap string OrderedIndex) id r :
  map_Forall (λ n i, idx_name (oi_def i) = n ∧ index_inv name rows i) ixs →
  rows !! id = None → ints_safe (sr_value r) = true →
  map_Forall (λ n i, idx_name (oi_def i) = n ∧ index_inv name (<[id := r]> rows) i)
    ((λ index, OrderedIndex.insert index
        (OrderedIndex.key_of index (ValueRef.from_value (sr_value r))) (row_key name id)) <$> ixs).
Proof.
  intros Hix Hr Hs n i'. rewrite lookup_fmap, fmap_Some. intros (i & Hi & ->).
  destruct (Hix n i Hi) as [Hn Hinv]. split; [|by apply index_row_inv].
  by destruct (insert_keeps i (OrderedIndex.key_of i (ValueRef.from_value (sr_value r)))
    (row_key name id)) as (_ & -> & _).
Qed.

(** Deleting a stored row. *)
Lemma apply_delete_present id data c r :
  coll_inv c → c_rows c !! raw_id id = Some r →
  let '(a, c') := Collection.apply Delete id data c in
  coll_inv c' ∧ c_name c' = c_name c ∧ c_retained c' = c_retained c ∧
  c_rows c' = delete (raw_id id) (c_rows c) ∧
  a = MkApplied (make_key (c_name c) id) (-1) true.
Proof.
  intros Hc Hr. unfold Collection.apply. cbn [bool_decide decide_rel].
  rewrite (bool_decide_eq_true_2 (Delete = Delete)) by done.
  rewrite (proj2 (rows_contains_spec _ _)) by eauto. cbn [negb].
  unfold rows_digest_of. rewrite Hr. cbn [fmap option_fmap option_map].
  unfold Collection.unindex_row. cbn [c_rows set_catchup_xor]. rewrite Hr.
  unfold Collection.bump_membership. cbn.
  assert (∀ z, c_membership c = Some z → (i64_add (default 0 (z !! make_key (c_name c) id)) (-1) =? 0) = true ∧
    delete (make_key (c_name c) id) z = Collection.build_membership (c_name c) (delete (raw_id id) (c_rows c))) as Hm.
  { intros z Hz. rewrite (ci_membership _ Hc z Hz), make_key_row_key, lookup_build_membership, Hr.
    split; [done|]. by rewrite build_membership_delete. }
  destruct (c_membership c) as [z|] eqn:Ez; [destruct (Hm z eq_refl) as [-> Hz]|];
    (split_and!; try done; split; cbn;
     [by apply map_Forall_delete, Hc
     |by apply map_Forall_delete, Hc
     |rewrite (ci_xor _ Hc); symmetry; apply xor_rows_delete; [by apply digest_lengths|done]
     |
     |apply unindex_map_inv; [apply Hc|done|by apply (ci_safe _ Hc _ _ Hr)]]).
  - by intros z' [= <-].
  - congruence.
Qed.

(** Writing a row whose digest is not the stored one. *)
Lemma apply_write op id data c :
  coll_inv c → op ≠ Delete → ints_safe data = true →
  let normalized := raw_id id in
  let v := Collection.project c (Collection.merged op (c_rows c !! normalized) data) in
  let r := MkStoredRow v (record_digest_into v normalized) in
  let '(a, c') := Collection.apply op id data c in
  coll_inv c' ∧ c_name c' = c_name c ∧ c_retained c' = c_retained c ∧
  (if bool_decide (sr_digest <$> c_rows c !! normalized = Some (sr_digest r))
   then c' = c ∧ a = MkApplied (make_key (c_name c) id) 0 false
   else c_rows c' = <[normalized := r]> (c_rows c) ∧
        a = MkApplied (make_key (c_name c) id)
              (if rows_contains (c_rows c) normalized then 0 else 1) true).
Proof.
  intros Hc Hop Hsafe normalized v r. unfold Collection.apply.
  rewrite (bool_decide_eq_false_2 (op = Delete)) by done. fold normalized v.
  assert (ints_safe v = true) as Hv.
  { apply ints_safe_project, ints_safe_merged; [|done]. intros r' Hr'. by eapply (ci_safe _ Hc). }
  unfold rows_digest_of, rows_contains. cbn [sr_digest r].
  destruct (c_rows c !! normalized) as [r0|] eqn:Er; cbn [fmap option_fmap option_map andb].
  - destruct (bool_decide (Some (sr_digest r0) = Some (record_digest_into v normalized))) eqn:Ed;
      [done|]. cbn [Z.eqb].
    unfold Collection.unindex_row. cbn [c_rows set_catchup_xor]. rewrite Er.
    split_and!; try done. split; cbn.
    + apply map_Forall_insert_2; [done|apply Hc].
    + apply map_Forall_insert_2; [done|apply Hc].
    + rewrite <- insert_delete_eq, xor_rows_insert by apply lookup_delete_eq.
      rewrite (xor_rows_delete _ r0) by (done || by apply digest_lengths).
      by rewrite (ci_xor _ Hc).
    + intros z Hz. rewrite (ci_membership _ Hc z Hz), build_membership_insert.
      rewrite insert_id; [done|]. by rewrite lookup_build_membership, Er.
    + rewrite <- insert_delete_eq.
      apply (index_map_inv _ _ _ normalized r); [|apply lookup_delete_eq|done].
      apply unindex_map_inv; [apply Hc|done|by apply (ci_safe _ Hc _ _ Er)].
  - rewrite bool_decide_eq_false_2 by done. cbn [Z.eqb].
    rewrite unindex_absent by done. unfold Collection.bump_membership. cbn.
    assert (∀ z, c_membership c = Some z →
      i64_add (default 0 (z !! make_key (c_name c) id)) 1 = 1 ∧
      <[make_key (c_name c) id := 1]> z =
        Collection.build_membership (c_name c) (<[normalized := r]> (c_rows c))) as Hm.
    { intros z Hz. rewrite (ci_membership _ Hc z Hz), make_key_row_key, lookup_build_membership.
      fold normalized. rewrite Er. split; [done|]. by rewrite build_membership_insert. }
    destruct (c_membership c) as [z|] eqn:Ez; [destruct (Hm z eq_refl) as [-> Hz]; cbn [Z.eqb]|];
      (split_and!; try done; split; cbn;
       [apply map_Forall_insert_2; [done|apply Hc]
       |apply map_Forall_insert_2; [done|apply Hc]
       |rewrite xor_rows_insert by done; by rewrite (ci_xor _ Hc)
       |
       |apply (index_map_inv _ _ _ normalized r); [apply Hc|done|done]]).
    + by intros z' [= <-].
    + congruence.
Qed.

Definition present_weight (rows : Rows) (id : string) : Z :=
  if rows_contains rows id then 1 else 0.

(** The row a mutation leaves under its id. *)
Definition row_after (op : Operation) (normalized : string) (data : Sp00kyValue) (c : Collection)
    : option StoredRow :=
  match op with
  | Delete => None
  | _ =>
      let v := Collection.project c (Collection.merged op (c_rows c !! normalized) data) in
      let r := MkStoredRow v (record_digest_into v normalized) in
      if bool_decide (sr_digest <$> c_rows c !! normalized = Some (sr_digest r))
      then c_rows c !! normalized else Some r
  end.

Lemma apply_cases op id data c :
  coll_inv c → ints_safe data = true →
  let '(a, c') := Collection.apply op id data c in
  coll_inv c' ∧ c_name c' = c_name c ∧ c_retained c' = c_retained c ∧
  ap_key a = make_key (c_name c) id ∧
  ap_weight a = present_weight (c_rows c') (raw_id id) - present_weight (c_rows c) (raw_id id) ∧
  c_rows c' !! raw_id id = row_after op (raw_id id) data c ∧
  (∀ id', id' ≠ raw_id id → c_rows c' !! id' = c_rows c !! id') ∧
  (if ap_content_changed a then c_rows c' ≠ c_rows c else c' = c).
Proof.
  intros Hc Hs. destruct (decide (op = Delete)) as [->|Hop].
  - destruct (c_rows c !! raw_id id) as [r|] eqn:Er.
    + pose proof (apply_delete_present id data c r Hc Er) as Ha.
      destruct (Collection.apply Delete id data c) as [a c'].
      destruct Ha as (Hc' & Hn & Hre & Hrows & ->). unfold present_weight, rows_contains.
      rewrite Hrows, lookup_delete_eq, Er. split_and!; try done.
      * intros id' Hne. by apply lookup_delete_ne.
      * simpl. intros Heq. by rewrite <- Heq, lookup_delete_eq in Er.
    + unfold Collection.apply. rewrite (bool_decide_eq_true_2 (Delete = Delete)) by done.
      unfold present_weight, rows_contains. rewrite Er. simpl. rewrite Er. done.
  - pose proof (apply_write op id data c Hc Hop Hs) as Ha. cbv zeta in Ha.
    destruct (Collection.apply op id data c) as [a c'].
    destruct Ha as (Hc' & Hn & Hre & Hcase). cbn [sr_digest] in Hcase.
    assert (row_after op (raw_id id) data c =
      (let v := Collection.project c (Collection.merged op (c_rows c !! raw_id id) data) in
       if bool_decide (sr_digest <$> c_rows c !! raw_id id = Some (record_digest_into v (raw_id id)))
       then c_rows c !! raw_id id
       else Some (MkStoredRow v (record_digest_into v (raw_id id))))) as -> by (by destruct op).
    cbv zeta. case_bool_decide as Ed.
    + destruct Hcase as [-> ->]. split_and!; try done. simpl. lia.
    + destruct Hcase as [Hrows ->]. unfold present_weight.
      rewrite Hrows, lookup_insert_eq.
      rewrite (proj2 (rows_contains_spec (<[raw_id id := _]> (c_rows c)) (raw_id id)))
        by (rewrite lookup_insert_eq; eauto).
      split_and!; try done.
      * simpl. destruct (rows_contains (c_rows c) (raw_id id)); lia.
      * intros id' Hne. apply lookup_insert_ne. by apply not_eq_sym.
      * simpl. intros Heq. apply Ed.
        rewrite <- Heq at 1. by rewrite lookup_insert_eq.
Qed.

(** C20: A mutation is driven by presence, not by its verb, and keeps every
    derived structure in step. Create, Update and Merge store the projected
    row (nothing when its digest is the stored one), Delete removes it,
    other rows stay as they are; the reported weight is the change in
    presence, "content changed" is false exactly when nothing at all was
    written; and the digests, the XOR set-hash, the membership Z-set and
    every built index (half-built ones too) are those of the new rows. *)
Theorem apply_spec op id data c :
  coll_inv c → ints_safe data = true →
  let '(a, c') := Collection.apply op id data c in
  coll_inv c' ∧
  ap_key a = make_key (c_name c) id ∧
  ap_weight a = present_weight (c_rows c') (raw_id id) - present_weight (c_rows c) (raw_id id) ∧
  c_rows c' !! raw_id id = row_after op (raw_id id) data c ∧
  (∀ id', id' ≠ raw_id id → c_rows c' !! id' = c_rows c !! id') ∧
  (if ap_content_changed a then c_rows c' ≠ c_rows c else c' = c).
Proof.
  intros Hc Hs. pose proof (apply_cases op id data c Hc Hs) as Ha.
  destruct (Collection.apply op id data c). tauto.
Qed.

(** *** Repeating a mutation *)

Lemma assoc_insert_same {A} k (x : A) m : assoc_get k m = Some x → assoc_insert k x m = m.
Proof.
  induction m as [|[k' y] m IH]; simpl; [done|].
  destruct (String.eqb k k'); [by intros [= ->]|]. intros Hx. by rewrite IH.
Qed.

Lemma assoc_get_extend {A} k (b i : list (string * A)) :
  NoDup i.*1 → assoc_get k (assoc_extend b i) = match assoc_get k i with Some x => Some x | None => assoc_get k b end.
Proof.
  revert b. induction i as [|[k' x] i IH]; intros b Hn; [done|].
  apply NoDup_cons in Hn as [Hk Hn]. simpl. rewrite (IH _ Hn), assoc_get_insert.
  destruct (String.eqb_spec k k') as [->|]; [|done].
  by rewrite (proj2 (assoc_get_None k' i)).
Qed.

Lemma assoc_extend_same {A} (m i : list (string * A)) :
  (∀ k x, (k, x) ∈ i → assoc_get k m = Some x) → assoc_extend m i = m.
Proof.
  revert m. induction i as [|[k x] i IH]; intros m Hm; [done|]. simpl.
  rewrite assoc_insert_same by (apply Hm; set_solver). apply IH. intros. apply Hm. set_solver.
Qed.

Lemma project_idem c v : Collection.project c (Collection.project c v) = Collection.project c v.
Proof.
  unfold Collection.project. destruct (c_retained c) as [keep|]; [|by destruct v].
  destruct v as [| | | | | |m]; try done. f_equal.
  induction m as [|e m IH]; simpl; [done|]. destruct (Collection.keeps keep e.1) eqn:E; simpl; [|done].
  by rewrite E, IH.
Qed.

Lemma assoc_get_filter {A} (f : string → bool) (m : list (string * A)) k :
  assoc_get k (List.filter (λ e, f e.1) m) = if f k then assoc_get k m else None.
Proof.
  induction m as [|[k' x] m IH]; simpl; [by destruct (f k)|].
  destruct (String.eqb_spec k k') as [->|Hne].
  - destruct (f k') eqn:E; simpl; [by rewrite String.eqb_refl|]. rewrite IH. by rewrite ?E.
  - destruct (f k'); simpl; [|done]. rewrite (proj2 (String.eqb_neq _ _)) by done. done.
Qed.

Lemma extend_filtered (f : string → bool) (b i : list (string * Sp00kyValue)) :
  NoDup i.*1 →
  List.filter (λ e, f e.1) (assoc_extend (List.filter (λ e, f e.1) (assoc_extend b i)) i) =
    List.filter (λ e, f e.1) (assoc_extend b i).
Proof.
  intros Hn. set (m := List.filter (λ e, f e.1) (assoc_extend b i)).
  assert (∀ l : list (string * Sp00kyValue), (∀ k x, (k, x) ∈ l → f k = true → assoc_get k m = Some x) →
    List.filter (λ e, f e.1) (assoc_extend m l) = m) as Hgen.
  { assert (List.filter (λ e, f e.1) m = m) as Hm.
    { unfold m. clear. induction (assoc_extend b i) as [|e l IH]; simpl; [done|].
      destruct (f e.1) eqn:E; simpl; [|done]. by rewrite E, IH. }
    intros l. enough (∀ l m', List.filter (λ e, f e.1) m' = m →
      (∀ k x, (k, x) ∈ l → f k = true → assoc_get k m' = Some x) →
      List.filter (λ e, f e.1) (assoc_extend m' l) = m) as Hg by auto.
    clear -Hm. induction l as [|[k x] l IH]; intros m' Hm' Hl; simpl; [done|].
    assert (List.filter (λ e, f e.1) (assoc_insert k x m') = m) as Hi.
    { destruct (f k) eqn:E.
      - by rewrite assoc_insert_same by (apply Hl; [set_solver|done]).
      - rewrite <- Hm'. clear -E. induction m' as [|[k' y] m' IH]; simpl; [by rewrite E|].
        destruct (String.eqb_spec k k') as [->|]; simpl; [by rewrite E|]. by rewrite IH. }
    apply IH; [done|]. intros k' x' Hin Hf. rewrite assoc_get_insert.
    destruct (String.eqb_spec k' k) as [->|].
    - pose proof (Hl k x ltac:(set_solver) Hf). pose proof (Hl k x' ltac:(set_solver) Hf). congruence.
    - apply Hl; [set_solver|done]. }
  apply Hgen. intros k x Hin Hf. unfold m. rewrite assoc_get_filter, Hf.
  rewrite assoc_get_extend by done. by rewrite (assoc_get_elem _ _ _ Hn Hin).
Qed.

Lemma filter_true {A} (l : list A) : List.filter (λ _, true) l = l.
Proof. induction l as [|x l IH]; simpl; [done|]. by rewrite IH. Qed.

Lemma project_retained c c' v : c_retained c' = c_retained c →
  Collection.project c' v = Collection.project c v.
Proof. unfold Collection.project. by intros ->. Qed.

(** Merging again into what a merge stored changes nothing. *)
Lemma merge_again c stored data d :
  value_wf data →
  let v := Collection.project c (Collection.merged Merge stored data) in
  Collection.project c (Collection.merged Merge (Some (MkStoredRow v d)) data) = v.
Proof.
  intros Hw v. destruct data as [| | | | | |i];
    try (unfold v, Collection.merged, Collection.project;
         destruct stored as [[[] ?]|]; simpl; by destruct (c_retained c)).
  assert (NoDup i.*1) as Hn by (by inversion Hw).
  assert (∃ b, v = Collection.project c (Object (assoc_extend b i))) as [b Hv].
  { unfold v, Collection.merged. destruct stored as [[x ?]|]; simpl.
    - destruct x; try (exists []; by rewrite (assoc_collect_NoDup i Hn : assoc_extend [] i = i)). eauto.
    - exists []. by rewrite (assoc_collect_NoDup i Hn : assoc_extend [] i = i). }
  rewrite Hv. unfold Collection.merged, Collection.project. simpl.
  destruct (c_retained c) as [keep|]; simpl; f_equal.
  - by apply extend_filtered.
  - pose proof (extend_filtered (λ _, true) b i Hn) as He. by rewrite !filter_true in He.
Qed.

(** Every mutation is idempotent: applying it a second time writes
    nothing, reports weight 0 and no content change. *)
Theorem apply_idempotent op id data c :
  coll_inv c → ints_safe data = true → value_wf data →
  let '(a1, c1) := Collection.apply op id data c in
  let '(a2, c2) := Collection.apply op id data c1 in
  c2 = c1 ∧ ap_weight a2 = 0 ∧ ap_content_changed a2 = false ∧ ap_key a2 = ap_key a1.
Proof.
  intros Hc Hs Hw. pose proof (apply_cases op id data c Hc Hs) as Hfirst.
  destruct (Collection.apply op id data c) as [a1 c1].
  destruct Hfirst as (Hc1 & Hn1 & Hre & Hk & _ & Hrow & _ & _).
  pose proof (apply_cases op id data c1 Hc1 Hs) as Hsecond.
  destruct (decide (op = Delete)) as [->|Hop].
  - simpl in Hrow. unfold Collection.apply. rewrite (bool_decide_eq_true_2 (Delete = Delete)) by done.
    unfold rows_contains. rewrite Hrow. simpl. by rewrite Hk, Hn1.
  - pose proof (apply_write op id data c1 Hc1 Hop Hs) as Ha. cbv zeta in Ha.
    destruct (Collection.apply op id data c1) as [a2 c2]. destruct Ha as (_ & _ & _ & Hcase).
    rewrite bool_decide_eq_true_2 in Hcase.
    { destruct Hcase as [-> ->]. split_and!; try done. simpl. by rewrite Hk, Hn1. }
    cbn [sr_digest]. rewrite Hrow.
    set (v := Collection.project c (Collection.merged op (c_rows c !! raw_id id) data)).
    assert (row_after op (raw_id id) data c =
       if bool_decide (sr_digest <$> c_rows c !! raw_id id = Some (record_digest_into v (raw_id id)))
       then c_rows c !! raw_id id
       else Some (MkStoredRow v (record_digest_into v (raw_id id)))) as -> by (by destruct op).
    destruct (decide (sr_digest <$> c_rows c !! raw_id id = Some (record_digest_into v (raw_id id))))
      as [Ed|Ed]; [rewrite !(bool_decide_eq_true_2 (_ = Some (record_digest_into v _))) by done
                  |rewrite !(bool_decide_eq_false_2 (_ = Some (record_digest_into v _))) by done].
    + rewrite Ed. rewrite (project_retained c c1) by done. done.
    + cbn [fmap option_fmap option_map sr_digest]. do 2 f_equal.
      rewrite (project_retained c c1) by done.
      destruct op; [done|done| |done]. symmetry. by apply merge_again.
Qed.

(** *** Index lookups *)

Lemma drop_outdated_inv name rows def ixs :
  map_Forall (λ n i, idx_name (oi_def i) = n ∧ index_inv name rows i) ixs →
  map_Forall (λ n i, idx_name (oi_def i) = n ∧ index_inv name rows i) (Collection.drop_outdated def ixs) ∧
  ∀ i, Collection.drop_outdated def ixs !! idx_name def = Some i → ixs !! idx_name def = Some i ∧ oi_def i = def.
Proof.
  intros Hix. unfold Collection.drop_outdated.
  destruct (ixs !! idx_name def) as [i|] eqn:Ei; [|by rewrite Ei].
  case_bool_decide as Ed.
  - split; [done|]. rewrite Ei. by intros ? [= <-].
  - split; [by apply map_Forall_delete|]. by rewrite lookup_delete_eq.
Qed.

Lemma set_index_inv c n i :
  coll_inv c → idx_name (oi_def i) = n → index_inv (c_name c) (c_rows c) i →
  coll_inv (set_indexes (<[n := i]> (c_indexes c)) c).
Proof.
  intros Hc Hn Hi. split; try apply Hc. cbn. apply map_Forall_insert_2; [done|apply Hc].
Qed.

Lemma membership_inv c : coll_inv c → coll_inv (Collection.membership c).2.
Proof.
  intros Hc. unfold Collection.membership. destruct (c_membership c) eqn:E; [done|].
  split; try apply Hc. cbn. by intros z [= <-].
Qed.

(** The index a lookup gets is exactly the table. *)
Lemma complete_index_rows name rows i :
  map_Forall (λ _ r, ints_safe (sr_value r) = true) rows →
  index_inv name rows i → oi_pending i = None →
  NoDup (os_iter (oi_entries i)).*2 ∧
  ∀ rk, rk ∈ (os_iter (oi_entries i)).*2 ↔ ∃ id, rk = row_key name id ∧ is_Some (rows !! id).
Proof.
  intros Hrows Hi Hp. split.
  - pose proof (iw_sorted _ (ii_wf _ _ _ Hi)) as Hsort.
    pose proof (index_wf_safe i (ii_wf _ _ _ Hi)) as Hsafe.
    pose proof (ii_sound _ _ _ Hi) as Hs.
    assert (∀ e, e ∈ os_iter (oi_entries i) → ∃ id row, rows !! id = Some row ∧ e.2 = row_key name id ∧
      list_cmp Scalar.cmp (OrderedIndex.key_of i (ValueRef.from_value (sr_value row))) e.1 = Eq) as Hs'.
    { intros [k r] He. by apply Hs. }
    clear Hs. induction Hsort as [|e l Hsort IH He]; simpl; [constructor|].
    apply Forall_cons_1 in Hsafe as [Hse Hsl]. apply NoDup_cons. split; [|apply IH; [done|set_solver]].
    intros (e' & Heq & Hin)%list_elem_of_fmap.
    destruct (Hs' e) as (id & row & Hr & Hid & Hk); [set_solver|].
    destruct (Hs' e') as (id' & row' & Hr' & Hid' & Hk'); [set_solver|].
    assert (id = id') as <- by (apply (inj (row_key name)); congruence).
    rewrite Hr in Hr'. injection Hr' as <-.
    rewrite Forall_forall in He, Hsl. specialize (He _ Hin). unfold index_entry_cmp in He.
    rewrite <- Heq, string_cmp_refl in He.
    rewrite <- (cmp_trans_eq _ _ (lawful_list_any _ _ scalar_cmp_lawful)
      (OrderedIndex.key_of i (ValueRef.from_value (sr_value row)))), Hk' in He; try done; [|by apply Hsl].
    apply key_ok_safe, key_of_ok. by apply (Hrows id).
  - intros rk. split.
    + intros ([k r] & -> & Hin)%list_elem_of_fmap.
      destruct (ii_sound _ _ _ Hi _ _ Hin) as (id & row & Hr & Hid & _). eauto.
    + intros (id & -> & [row Hr]). destruct (ii_complete _ _ _ Hi id row Hr) as [k Hk].
      { unfold pending_id. rewrite Hp. tauto. }
      by apply (list_elem_of_fmap_2 snd) in Hk.
Qed.

(** The finished index a lookup gets. *)
Lemma with_index_spec def c :
  coll_inv c →
  (∀ i p, c_indexes c !! idx_name def = Some i → oi_pending i = Some p → zlength p <= usize_max) →
  let '(i, _, c') := Collection.with_index def c in
  coll_inv c' ∧ c_rows c' = c_rows c ∧ c_indexes c' !! idx_name def = Some i ∧
  oi_def i = def ∧ OrderedIndex.is_complete i = true ∧
  index_inv (c_name c) (c_rows c) i ∧ NoDup (os_iter (oi_entries i)).*2 ∧
  ∀ rk, rk ∈ (os_iter (oi_entries i)).*2 ↔ ∃ id, rk = row_key (c_name c) id ∧ is_Some (c_rows c !! id).
Proof.
  intros Hc Hp. unfold Collection.with_index.
  destruct (drop_outdated_inv _ _ def _ (ci_index _ Hc)) as [Hd1 Hd2].
  set (slots := Collection.drop_outdated def (c_indexes c)) in *.
  assert (coll_inv (set_indexes slots c)) as Hc0 by (split; [apply Hc..|exact Hd1]).
  assert (∀ i c1, coll_inv c1 → c_name c1 = c_name c → c_rows c1 = c_rows c →
    index_inv (c_name c) (c_rows c) i → oi_def i = def → oi_pending i = None →
    let c' := set_indexes (<[idx_name def := i]> (c_indexes c1)) c1 in
    coll_inv c' ∧ c_rows c' = c_rows c ∧ c_indexes c' !! idx_name def = Some i ∧
    oi_def i = def ∧ OrderedIndex.is_complete i = true ∧
    index_inv (c_name c) (c_rows c) i ∧ NoDup (os_iter (oi_entries i)).*2 ∧
    ∀ rk, rk ∈ (os_iter (oi_entries i)).*2 ↔ ∃ id, rk = row_key (c_name c) id ∧ is_Some (c_rows c !! id))
    as Hfin.
  { intros i c1 Hc1 Hn1 Hr1 Hi Hdef Hpend c'.
    destruct (complete_index_rows _ _ _ (ci_safe _ Hc) Hi Hpend) as [Hnd Hmem].
    split_and!; try done.
    - apply set_index_inv; [done|by rewrite Hdef|by rewrite Hn1, Hr1].
    - cbn. apply lookup_insert_eq.
    - unfold OrderedIndex.is_complete. by rewrite Hpend. }
  destruct (slots !! idx_name def) as [i|] eqn:Ei.
  - destruct (Hd2 i eq_refl) as [Hi0 Hdef]. destruct (Hd1 _ _ Ei) as [_ Hi].
    unfold OrderedIndex.is_complete at 1. destruct (oi_pending i) as [p|] eqn:Ep.
    + specialize (Hp i p Hi0 Ep).
      pose proof (fill_pending_inv (set_indexes slots c) i usize_max Hi ltac:(done) (ci_safe _ Hc)) as Hf.
      destruct (Collection.fill_pending _ i usize_max) as [n i'] eqn:Ef. cbn [snd] in Hf.
      destruct Hf as (Hi' & Hdef' & Hpend'). rewrite Ep in Hpend'.
      replace (zlength p - zlength p `min` usize_max) with 0 in Hpend' by lia.
      rewrite ztake_spec in Hpend' by lia. apply Hfin; try done. by rewrite Hdef'.
    + by apply Hfin.
  - pose proof (build_index_inv def (set_indexes slots c) (ci_safe _ Hc)) as Hb.
    destruct (Collection.build_index def (set_indexes slots c)) as [i c1] eqn:Eb.
    destruct Hb as (Hi & Hdef & Hpend & ->).
    unfold OrderedIndex.is_complete at 1. rewrite Hpend.
    apply Hfin; try done; [by apply membership_inv|..];
      unfold Collection.membership; by destruct (c_membership _).
Qed.

(** A lookup gets a finished index of exactly the table, whatever it found in
    its slot: nothing, an index of an older definition, or one a stepped
    build left part done while writes went on. It is complete, of the
    requested definition, and holds one current entry per stored row and
    nothing else; the rows are not touched. *)
Theorem with_index_exact def c :
  coll_inv c →
  (∀ i p, c_indexes c !! idx_name def = Some i → oi_pending i = Some p → zlength p <= usize_max) →
  let '(i, _, c') := Collection.with_index def c in
  coll_inv c' ∧ c_rows c' = c_rows c ∧ c_indexes c' !! idx_name def = Some i ∧
  oi_def i = def ∧ OrderedIndex.is_complete i = true ∧
  index_inv (c_name c) (c_rows c) i ∧ NoDup (os_iter (oi_entries i)).*2 ∧
  ∀ rk, rk ∈ (os_iter (oi_entries i)).*2 ↔ ∃ id, rk = row_key (c_name c) id ∧ is_Some (c_rows c !! id).
Proof. apply with_index_spec. Qed.

(** *** Stepped builds *)

Definition pending_len (i : OrderedIndex) : Z :=
  match oi_pending i with Some p => zlength p | None => 0 end.

Lemma fill_round c i :
  coll_inv c → index_inv (c_name c) (c_rows c) i → is_Some (oi_pending i) →
  let i' := (Collection.fill_pending c i INDEX_STEP_ROWS).2 in
  index_inv (c_name c) (c_rows c) i' ∧ oi_def i' = oi_def i ∧
  (OrderedIndex.is_complete i' = true ∨
   pending_len i' = pending_len i - INDEX_STEP_ROWS ∧ is_Some (oi_pending i')).
Proof.
  intros Hc Hi [p Hp].
  destruct (fill_pending_inv c i INDEX_STEP_ROWS Hi ltac:(done) (ci_safe _ Hc)) as (H1' & H2' & H3').
  cbv zeta. set (i' := (Collection.fill_pending c i INDEX_STEP_ROWS).2) in *.
  split_and!; [done|done|]. unfold OrderedIndex.is_complete, pending_len. rewrite H3', Hp.
  pose proof (zlength_nonneg p). unfold INDEX_STEP_ROWS.
  rewrite ztake_spec by lia. set (n := Z.to_nat _).
  destruct (take n p) as [|x l] eqn:E; [by left|]. right. split; [|eauto]. rewrite <- E.
  unfold zlength. rewrite length_take.
  assert (length (take n p) ≠ 0%nat) as Hne by (by rewrite E).
  rewrite length_take in Hne. unfold n, zlength in *. lia.
Qed.

Lemma build_rounds_inv c over fuel n i rows :
  coll_inv c → index_inv (c_name c) (c_rows c) i → is_Some (oi_pending i) →
  let '(i', _) := Collection.build_rounds fuel n over c i rows in
  index_inv (c_name c) (c_rows c) i' ∧ oi_def i' = oi_def i ∧
  (OrderedIndex.is_complete i' = true ∨ pending_len i' <= pending_len i - INDEX_STEP_ROWS) ∧
  ((∀ k, over k = false) → pending_len i <= Z.of_nat fuel → OrderedIndex.is_complete i' = true).
Proof.
  intros Hc. revert n i rows. induction fuel as [|fuel IH]; intros n i rows Hi Hp;
    cbn [Collection.build_rounds];
    destruct (fill_round c i Hc Hi Hp) as (Hi1 & Hd1 & Hcase);
    destruct (Collection.fill_pending c i INDEX_STEP_ROWS) as [k i1]; cbn [snd] in *.
  - assert (index_inv (c_name c) (c_rows c) i1 ∧ oi_def i1 = oi_def i ∧
      (OrderedIndex.is_complete i1 = true ∨ pending_len i1 <= pending_len i - INDEX_STEP_ROWS) ∧
      ((∀ k, over k = false) → pending_len i <= Z.of_nat 0 → OrderedIndex.is_complete i1 = true)) as Hfin.
    { split_and!; [done|done|destruct Hcase as [|[? _]]; [auto|right; lia]|].
      intros _ Hl. destruct Hcase as [|[Hl' _]]; [done|]. exfalso.
      assert (0 <= pending_len i1) by (unfold pending_len; destruct (oi_pending i1); [apply zlength_nonneg|lia]).
      unfold INDEX_STEP_ROWS in *. lia. }
    by destruct (_ || _).
  - destruct (OrderedIndex.is_complete i1) eqn:Ec; cbn [orb].
    { split_and!; auto. }
    destruct Hcase as [|[Hl Hp1]]; [done|].
    destruct (over n) eqn:Eo.
    { split_and!; [done|done|right; lia|]. intros Hov. by rewrite Hov in Eo. }
    specialize (IH (S n) i1 (rows + k) Hi1 Hp1).
    destruct (Collection.build_rounds fuel (S n) over c i1 (rows + k)) as [i2 r2].
    destruct IH as (Hi2 & Hd2 & Hcase2 & Hterm). split_and!; [done|by rewrite Hd2| |].
    + destruct Hcase2; [auto|]. right. unfold INDEX_STEP_ROWS in *. lia.
    + intros Hov Hlen. apply Hterm; [done|]. unfold INDEX_STEP_ROWS in *. lia.
Qed.

(** The work left before a step. *)
Definition left_before (def : IndexDef) (c : Collection) : Z :=
  match Collection.drop_outdated def (c_indexes c) !! idx_name def with
  | Some i => pending_len i
  | None => Z.of_nat (size (c_rows c))
  end.

(** A stepped build is safe to interrupt and always ends: every step leaves
    a correct (possibly half-built) index in the slot, reports completion
    exactly, and, when it does not finish, takes at least 512 ids off the
    list whatever the clock says; with time left it finishes at once. *)
Theorem build_index_step_progress def over c :
  coll_inv c →
  let '(finished, _, c') := Collection.build_index_step def over c in
  coll_inv c' ∧ c_rows c' = c_rows c ∧
  ∃ i, c_indexes c' !! idx_name def = Some i ∧ oi_def i = def ∧
    finished = OrderedIndex.is_complete i ∧ index_inv (c_name c) (c_rows c) i ∧
    (finished = false → left_before def c' <= left_before def c - INDEX_STEP_ROWS) ∧
    ((∀ k, over k = false) → finished = true).
Proof.
  intros Hc. unfold Collection.build_index_step, left_before.
  destruct (drop_outdated_inv _ _ def _ (ci_index _ Hc)) as [Hd1 Hd2].
  set (slots := Collection.drop_outdated def (c_indexes c)) in *.
  set (start := match slots !! idx_name def with Some i => i | None =>
    OrderedIndex.with_pending (OrderedIndex.new def) (Some (keys_of (c_rows c))) end).
  assert (index_inv (c_name c) (c_rows c) start ∧ oi_def start = def ∧
    pending_len start = match slots !! idx_name def with Some i => pending_len i
      | None => Z.of_nat (size (c_rows c)) end) as (Hi & Hdef & Hlen).
  { unfold start. destruct (slots !! idx_name def) as [i|] eqn:Ei.
    - destruct (Hd2 i eq_refl) as [_ Hdef]. destruct (Hd1 _ _ Ei) as [_ Hi]. done.
    - split_and!; [apply fresh_inv|done|]. unfold pending_len. simpl.
      unfold zlength, keys_of. by rewrite length_fmap, length_map_to_list. }
  rewrite <- Hlen. clearbody start.
  set (i0 := OrderedIndex.with_idle start None).
  apply (index_inv_idle _ _ _ None) in Hi. fold i0 in Hi.
  assert (∀ i, index_inv (c_name c) (c_rows c) i → oi_def i = def →
    let c' := set_indexes (<[idx_name def := i]> slots) c in
    coll_inv c' ∧ c_rows c' = c_rows c ∧ c_indexes c' !! idx_name def = Some i ∧
    Collection.drop_outdated def (c_indexes c') !! idx_name def = Some i) as Hfin.
  { intros i Hi' Hdef' c'. split_and!; [|done|cbn; apply lookup_insert_eq|].
    - split; [apply Hc..|]. cbn. apply map_Forall_insert_2; [by rewrite Hdef'|done].
    - unfold Collection.drop_outdated. cbn. rewrite lookup_insert_eq.
      rewrite bool_decide_eq_true_2 by done. apply lookup_insert_eq. }
  destruct (OrderedIndex.is_complete i0) eqn:Ec.
  - destruct (Hfin i0 Hi Hdef) as (F1 & F2 & F3 & F4). split_and!; [done|done|].
    exists i0. by rewrite Ec.
  - assert (is_Some (oi_pending i0)) as Hp.
    { unfold OrderedIndex.is_complete in Ec. destruct (oi_pending i0); [eauto|done]. }
    pose proof (build_rounds_inv c over (length (default [] (oi_pending i0))) 0 i0 0 Hc Hi Hp) as Hb.
    destruct (Collection.build_rounds _ _ _ _ _ _) as [i r].
    destruct Hb as (Hi1 & Hdef1 & Hcase & Hterm).
    assert (oi_def i = def) as Hdef2 by (by rewrite Hdef1).
    destruct (Hfin i Hi1 Hdef2) as (F1 & F2 & F3 & F4). split_and!; [done|done|].
    exists i. split_and!; [done|done|done|done| |].
    + intros Hn. rewrite F4. destruct Hcase as [|Hle]; [congruence|exact Hle].
    + intros Hov. apply Hterm; [done|]. unfold pending_len. destruct Hp as [p ->].
      unfold zlength. simpl. lia.
Qed.
End collection.

(** ** A concrete collection *)

Definition sample_row (owner : string) (at_ : Z) : Sp00kyValue :=
  Object [("owner", Str owner); ("at", Int at_); ("_00_rv", Int 1)].

Definition sample_coll : Collection :=
  (Collection.apply Create "g:2" (sample_row "b" 1)
    (Collection.apply Create "1" (sample_row "a" 5) (Collection.new "g")).2).2.

Lemma apply_inv op id data c :
  coll_inv c → ints_safe data = true → coll_inv (Collection.apply op id data c).2.
Proof.
  intros Hc Hs. pose proof (apply_cases op id data c Hc Hs) as Ha.
  destruct (Collection.apply op id data c). apply Ha.
Qed.

Lemma sample_coll_inv : coll_inv sample_coll.
Proof. by repeat apply apply_inv. Qed.

Lemma sample_row_wf o a : utf8_valid (bytes_of o) = true → in_i64 a → value_wf (sample_row o a).
Proof.
  intros Ho Ha. apply wf_object.
  - repeat (apply NoDup_cons; split; [set_solver|]). constructor.
  - repeat (apply Forall_cons; split; [simpl; by constructor|]). constructor.
Qed.

Lemma apply_spec_witness :
  let r := Collection.apply Merge "g:1" (Object [("at", Int 7)]) sample_coll in
  coll_inv r.2 ∧ ap_weight r.1 = 0 ∧ ap_content_changed r.1 = true ∧
  (c_rows r.2 !! "1" ≫= λ r, Sp00kyValue.get (sr_value r) "at") = Some (Int 7).
Proof.
  split; [|vm_compute; done].
  pose proof (apply_spec Merge "g:1" (Object [("at", Int 7)]) sample_coll sample_coll_inv eq_refl) as Ha.
  destruct (Collection.apply Merge "g:1" (Object [("at", Int 7)]) sample_coll). apply Ha.
Defined.

Lemma apply_idempotent_witness :
  let r := Collection.apply Update "g:1" (sample_row "c" 9) sample_coll in
  (Collection.apply Update "g:1" (sample_row "c" 9) r.2).2 = r.2.
Proof.
  pose proof (apply_idempotent Update "g:1" (sample_row "c" 9) sample_coll sample_coll_inv eq_refl
    (sample_row_wf "c" 9 eq_refl ltac:(done))) as Ha.
  destruct (Collection.apply Update "g:1" (sample_row "c" 9) sample_coll) as [a1 c1]. simpl.
  destruct (Collection.apply Update "g:1" (sample_row "c" 9) c1). apply Ha.
Defined.

Lemma with_index_exact_witness :
  let r := Collection.with_index sample_def sample_coll in
  (os_iter (oi_entries r.1.1)).*2 = ["g:1"; "g:2"] ∧ OrderedIndex.is_complete r.1.1 = true.
Proof.
  split; [vm_compute; reflexivity|].
  pose proof (with_index_exact sample_def sample_coll sample_coll_inv
    ltac:(intros i p Hi; vm_compute in Hi; discriminate)) as Ha.
  destruct (Collection.with_index sample_def sample_coll) as [[i s] c']. apply Ha.
Defined.

Lemma build_index_step_progress_witness :
  let r := Collection.build_index_step sample_def (λ _, false) sample_coll in
  r.1.1 = true ∧ coll_inv r.2.
Proof.
  split; [vm_compute; reflexivity|].
  pose proof (build_index_step_progress sample_def (λ _, false) sample_coll sample_coll_inv) as Ha.
  destruct (Collection.build_index_step sample_def (λ _, false) sample_coll) as [[f s] c']. apply Ha.
Defined.
