(* ===== verification/Arena.v ===== *)
(** * Where row bytes live

    Models [packages/ssp/src/circuit/arena.rs]: append-only byte storage
    addressed by spans, as an interface with its laws, and the heap arena,
    which implements it. The file-backed arena of the same file implements the
    interface over memory mappings and is not modelled. Allocated capacity is
    not modelled either: it only appears in a size report. *)

From S2P Require Import Prelude Platform Value RowCodec RowCodecSpec.
Local Open Scope Z_scope.

(** ** Spans and cursors *)

Record Span := MkSpan { sp_seg : Z; sp_off : Z; sp_len : Z }.
Record Cursor := MkCursor { cu_seg : Z; cu_off : Z }.

#[global] Instance cursor_eq_dec : EqDecision Cursor.
Proof. solve_decision. Defined.

Definition Span_start (s : Span) : Cursor := MkCursor (sp_seg s) (sp_off s).

(** The derived order: segment, then offset. *)
Definition cursor_lt (a b : Cursor) : bool :=
  (cu_seg a <? cu_seg b) || ((cu_seg a =? cu_seg b) && (cu_off a <? cu_off b)).
Definition cursor_le (a b : Cursor) : bool := negb (cursor_lt b a).

Lemma cursor_lt_spec a b : cursor_lt a b = true ↔ cu_seg a < cu_seg b ∨ (cu_seg a = cu_seg b ∧ cu_off a < cu_off b).
Proof.
  unfold cursor_lt. rewrite orb_true_iff, andb_true_iff, !Z.ltb_lt, Z.eqb_eq. done.
Qed.

Lemma cursor_le_spec a b : cursor_le a b = true ↔ cu_seg a < cu_seg b ∨ (cu_seg a = cu_seg b ∧ cu_off a <= cu_off b).
Proof.
  unfold cursor_le. rewrite negb_true_iff, <- not_true_iff_false, cursor_lt_spec. lia.
Qed.

Lemma cursor_le_refl a : cursor_le a a = true.
Proof. apply cursor_le_spec. lia. Qed.

Lemma cursor_le_trans a b c : cursor_le a b = true → cursor_le b c = true → cursor_le a c = true.
Proof. rewrite !cursor_le_spec. lia. Qed.

Lemma cursor_lt_le_trans a b c : cursor_lt a b = true → cursor_le b c = true → cursor_lt a c = true.
Proof. rewrite !cursor_lt_spec, cursor_le_spec. lia. Qed.

Lemma cursor_le_not_lt a b : cursor_le a b = true → cursor_lt b a = false.
Proof. unfold cursor_le. by rewrite negb_true_iff. Qed.

(** ** The interface: [trait Arena] *)

Class Arena (A : Type) := {
  arena_append : list Z → A → Span * A;
  arena_get : A → Span → list Z;
  arena_free : Span → A → A;
  arena_adopt : Z → A → A;
  arena_live_bytes : A → Z;
  arena_dead_bytes : A → Z;
  arena_end_cursor : A → Cursor;
  arena_clear : A → A;
}.

(** What a row table relies on. [arena_ok] holds from the start on and is kept;
    [arena_room] says that an append's position still fits the widths of a
    span. *)
Class ArenaLaws (A : Type) `{Arena A} := {
  arena_ok : A → Prop;
  arena_room : A → list Z → Prop;
  append_ok a bs : arena_ok a → arena_room a bs → arena_ok (arena_append bs a).2;
  free_ok a s : arena_ok a → arena_ok (arena_free s a);
  adopt_ok a n : arena_ok a → arena_ok (arena_adopt n a);
  clear_ok a : arena_ok a → arena_ok (arena_clear a);
  (** What was appended reads back, whole or in part; *)
  append_len a bs : arena_room a bs → sp_len (arena_append bs a).1 = zlength bs;
  append_get a bs i n : arena_ok a → arena_room a bs → 0 <= i → 0 <= n → i + n <= zlength bs →
    let s := (arena_append bs a).1 in
    arena_get (arena_append bs a).2 (MkSpan (sp_seg s) (sp_off s + i) n) = take (Z.to_nat n) (drop (Z.to_nat i) bs);
  (** its positions are 32-bit numbers; *)
  append_off a bs : arena_ok a → arena_room a bs → 0 <= sp_off (arena_append bs a).1 ∧ sp_off (arena_append bs a).1 + zlength bs < two32;
  (** and what was readable stays so. *)
  append_keeps a bs s : arena_ok a → arena_room a bs → arena_get a s ≠ [] → arena_get (arena_append bs a).2 s = arena_get a s;
  free_keeps a s s' : arena_get (arena_free s a) s' = arena_get a s';
  adopt_keeps a n s : arena_get (arena_adopt n a) s = arena_get a s;
  (** Appends land at or past the end cursor, and move it on. *)
  append_start a bs : arena_ok a → arena_room a bs → cursor_le (arena_end_cursor a) (Span_start (arena_append bs a).1) = true;
  append_end a bs : arena_ok a → arena_room a bs → bs ≠ [] →
    cursor_lt (Span_start (arena_append bs a).1) (arena_end_cursor (arena_append bs a).2) = true;
  free_cursor a s : arena_end_cursor (arena_free s a) = arena_end_cursor a;
  adopt_cursor a n : arena_end_cursor (arena_adopt n a) = arena_end_cursor a;
}.

(** ** The heap arena *)

Definition HEAP_SEGMENT_BYTES : Z := 4194304.

Record HeapArena := MkHeapArena {
  ha_segs : list (list Z);
  ha_sealed : nat;
  ha_live : Z;
  ha_dead : Z;
}.

Definition saturating_sub (a b : Z) : Z := Z.max 0 (a - b).

Module HeapArena.
Definition new : HeapArena := MkHeapArena [] 0 0 0.

Definition with_capacity (bytes : Z) : HeapArena := MkHeapArena [[]] 0 0 0.

(** A checkpoint image adopted as segment 0. *)
Definition from_buf (buf : list Z) (live : Z) : HeapArena :=
  MkHeapArena [buf] 1 live (saturating_sub (zlength buf) live).

Definition segment_count (self : HeapArena) : Z := zlength (ha_segs self).

(** The last segment takes the bytes: it is not an image, and empty or not full. *)
Definition open (self : HeapArena) (incoming : Z) : bool :=
  bool_decide (ha_sealed self < length (ha_segs self))%nat &&
  match last (ha_segs self) with
  | Some seg => bool_decide (seg = []) || (zlength seg + incoming <=? HEAP_SEGMENT_BYTES)
  | None => false
  end.

Definition writable (incoming : Z) (self : HeapArena) : nat * HeapArena :=
  let segs := if open self incoming then ha_segs self else ha_segs self ++ [[]] in
  ((length segs - 1)%nat, MkHeapArena segs (ha_sealed self) (ha_live self) (ha_dead self)).

Definition append (bytes : list Z) (self : HeapArena) : Span * HeapArena :=
  let '(idx, self) := writable (zlength bytes) self in
  let seg := default [] (ha_segs self !! idx) in
  let off := wrap_u32 (zlength seg) in
  (MkSpan (Z.of_nat idx mod 65536) off (wrap_u32 (zlength bytes)),
   MkHeapArena (<[idx := seg ++ bytes]> (ha_segs self)) (ha_sealed self)
     (wrap_u64 (ha_live self + zlength bytes)) (ha_dead self)).

Definition get (self : HeapArena) (span : Span) : list Z :=
  let start := sp_off span in
  let e := saturating_add start (sp_len span) in
  default [] (let? seg := zlookup (ha_segs self) (sp_seg span) in slice start e seg).

Definition free (span : Span) (self : HeapArena) : HeapArena :=
  MkHeapArena (ha_segs self) (ha_sealed self) (saturating_sub (ha_live self) (sp_len span))
    (wrap_u64 (ha_dead self + sp_len span)).

Definition adopt (bytes : Z) (self : HeapArena) : HeapArena :=
  MkHeapArena (ha_segs self) (ha_sealed self) (wrap_u64 (ha_live self + bytes)) (saturating_sub (ha_dead self) bytes).

Definition end_cursor (self : HeapArena) : Cursor :=
  match last (ha_segs self) with
  | None => MkCursor 0 0
  | Some seg =>
      if bool_decide (length (ha_segs self) <= ha_sealed self)%nat
      then MkCursor (Z.of_nat (length (ha_segs self)) mod 65536) 0
      else MkCursor ((Z.of_nat (length (ha_segs self)) - 1) mod 65536) (wrap_u32 (zlength seg))
  end.

Definition clear (self : HeapArena) : HeapArena := MkHeapArena [] 0 0 0.

#[global] Instance heap_arena : Arena HeapArena := {|
  arena_append := append;
  arena_get := get;
  arena_free := free;
  arena_adopt := adopt;
  arena_live_bytes := ha_live;
  arena_dead_bytes := ha_dead;
  arena_end_cursor := end_cursor;
  arena_clear := clear;
|}.
End HeapArena.

(** ** The heap arena implements the interface *)

(** The segments appends go to, and what they hold. *)
Definition appended (a : HeapArena) : list (list Z) := drop (ha_sealed a) (ha_segs a).

Definition appended_bytes (a : HeapArena) : Z := zlength (concat (appended a)).

(** A segment is opened when the one before it and the bytes to come would not
    fit one, so two neighbours hold more than one's worth. *)
Record heap_ok (a : HeapArena) : Prop := {
  ho_one : (ha_sealed a <= 1)%nat;
  ho_sealed : (ha_sealed a <= length (ha_segs a))%nat;
  ho_fill : HEAP_SEGMENT_BYTES * (zlength (appended a) - 1) + zlength (default [] (last (appended a))) <= 2 * appended_bytes a;
}.

(** Segments are numbered with 16 bits: 64 GiB of records cannot use them up. *)
Definition HEAP_ROOM : Z := 68719476736.

Definition heap_room (a : HeapArena) (bs : list Z) : Prop :=
  zlength bs < two32 ∧ appended_bytes a + zlength bs <= HEAP_ROOM.

Lemma heap_count a n : heap_ok a → 0 <= n → appended_bytes a + n <= HEAP_ROOM → zlength (ha_segs a) < 65536.
Proof.
  intros [H1 H2 Hf] Hn Hr. pose proof (zlength_nonneg (default [] (last (appended a)))).
  assert (zlength (ha_segs a) <= zlength (appended a) + 1) by (unfold appended, zlength; rewrite length_drop; lia).
  unfold HEAP_ROOM, HEAP_SEGMENT_BYTES in *. lia.
Qed.

Lemma zlength_nil_lt {A} (l : list A) : l ≠ [] → 0 < zlength l.
Proof. destruct l; [done|]. intros _. unfold zlength. cbn. lia. Qed.

Lemma open_spec a n : HeapArena.open a n = true → ∃ pre seg, ha_segs a = pre ++ [seg] ∧ (ha_sealed a <= length pre)%nat ∧
  (seg = [] ∨ zlength seg + n <= HEAP_SEGMENT_BYTES).
Proof.
  unfold HeapArena.open. rewrite andb_true_iff, bool_decide_eq_true. intros [Hs Hl].
  destruct (last (ha_segs a)) as [seg|] eqn:E; [|done]. apply last_Some in E as [pre E]. exists pre, seg.
  rewrite E, length_app in Hs. cbn in Hs. split_and!; [done|lia|].
  apply orb_true_iff in Hl as [Hl%bool_decide_eq_true|Hl%Z.leb_le]; auto.
Qed.

Lemma last_drop {A} (l : list A) n : (n < length l)%nat → last (drop n l) = last l.
Proof. intros Hn. rewrite !last_lookup, lookup_drop, length_drop. f_equal. lia. Qed.

Lemma not_open a n : HeapArena.open a n = false → HEAP_SEGMENT_BYTES < zlength (default [] (last (appended a))) + n ∨ appended a = [].
Proof.
  unfold HeapArena.open, appended. destruct (bool_decide_reflect (ha_sealed a < length (ha_segs a))%nat) as [Hlt|Hge]; cbn [andb].
  - intros Ho. left. rewrite last_drop by done. destruct (last (ha_segs a)) as [seg|] eqn:E.
    + apply orb_false_iff in Ho as [_ Ho%Z.leb_gt]. exact Ho.
    + apply last_None in E. rewrite E in Hlt. cbn in Hlt. lia.
  - intros _. right. apply drop_ge. lia.
Qed.

(** An append writes at the end of the last segment, or opens one. *)
Lemma append_spec a bs : heap_ok a → heap_room a bs → ∃ pre seg,
  (ha_segs a = pre ++ [seg] ∨ ha_segs a = pre ∧ seg = []) ∧
  (ha_sealed a <= length pre)%nat ∧ zlength pre < 65536 ∧ zlength seg + zlength bs < two32 ∧
  (ha_segs a = pre → HEAP_SEGMENT_BYTES < zlength (default [] (last (appended a))) + zlength bs ∨ appended a = []) ∧
  HeapArena.append bs a = (MkSpan (zlength pre) (zlength seg) (zlength bs),
    MkHeapArena (pre ++ [seg ++ bs]) (ha_sealed a) (wrap_u64 (ha_live a + zlength bs)) (ha_dead a)).
Proof.
  intros Ha [Hb Hroom]. pose proof (zlength_nonneg bs). pose proof (heap_count a (zlength bs) Ha ltac:(done) Hroom) as Hc.
  destruct Ha as [Hone Hsl Hf]. unfold HeapArena.append, HeapArena.writable.
  assert (∀ pre seg, zlength pre < 65536 → zlength seg + zlength bs < two32 →
    (let segs := pre ++ [seg] in let idx := (length segs - 1)%nat in let s := default [] (segs !! idx) in
     (MkSpan (Z.of_nat idx mod 65536) (wrap_u32 (zlength s)) (wrap_u32 (zlength bs)),
      MkHeapArena (<[idx := s ++ bs]> segs) (ha_sealed a) (wrap_u64 (ha_live a + zlength bs)) (ha_dead a))) =
    (MkSpan (zlength pre) (zlength seg) (zlength bs),
     MkHeapArena (pre ++ [seg ++ bs]) (ha_sealed a) (wrap_u64 (ha_live a + zlength bs)) (ha_dead a))) as Hpush.
  { intros pre seg Hp Hs. cbv zeta. rewrite length_app. cbn [length]. replace (length pre + 1 - 1)%nat with (length pre) by lia.
    rewrite list_lookup_middle by done. cbn [default]. rewrite insert_app_r_alt, Nat.sub_diag by lia. cbn.
    pose proof (zlength_nonneg seg). pose proof (zlength_nonneg pre). unfold wrap_u32.
    rewrite !Z.mod_small by (unfold two32 in *; unfold zlength in *; lia). done. }
  destruct (HeapArena.open a (zlength bs)) eqn:Ho.
  - destruct (open_spec _ _ Ho) as (pre & seg & E & Hpre & Hseg). exists pre, seg. rewrite E in *.
    unfold zlength in Hc. rewrite length_app in Hc. cbn in Hc.
    assert (zlength pre < 65536) by (unfold zlength; lia).
    assert (zlength seg + zlength bs < two32).
    { destruct Hseg as [->|]; [unfold zlength at 1; cbn; lia|]. unfold HEAP_SEGMENT_BYTES, two32 in *. lia. }
    split; [by left|]. split_and!; [done|done|done| |by apply Hpush].
    intros E2%(f_equal length). rewrite length_app in E2. cbn in E2. lia.
  - exists (ha_segs a), []. assert (zlength (@nil Z) = 0) as E0 by done.
    split; [by right|]. split_and!; [done|done|by rewrite E0|intros _|apply Hpush; [done|by rewrite E0]].
    by apply not_open.
Qed.

Lemma slice_app_l {A} (l k : list A) i j : slice i j l ≠ None → slice i j (l ++ k) = slice i j l.
Proof.
  unfold slice. destruct (Z.leb_spec 0 i), (Z.leb_spec i j), (Z.leb_spec j (zlength l)); cbn; try done. intros _.
  rewrite (proj2 (Z.leb_le j _)) by (rewrite zlength_app; pose proof (zlength_nonneg k); lia). cbn.
  f_equal. rewrite skipn_app, take_app_le; [done|]. rewrite length_drop. unfold zlength in *. lia.
Qed.

Lemma get_kept pre seg bs sealed live dead live' dead' s segs :
  segs = pre ++ [seg] ∨ segs = pre →
  HeapArena.get (MkHeapArena segs sealed live dead) s ≠ [] →
  HeapArena.get (MkHeapArena (pre ++ [seg ++ bs]) sealed live' dead') s = HeapArena.get (MkHeapArena segs sealed live dead) s.
Proof.
  unfold HeapArena.get. cbn [ha_segs]. intros Hsegs.
  destruct (zlookup segs (sp_seg s)) as [x|] eqn:E; [|done].
  assert (0 <= sp_seg s) as Hs by (unfold zlookup in E; destruct (Z.ltb_spec (sp_seg s) 0); [done|lia]).
  rewrite zlookup_spec in E |- * by done. destruct (slice (sp_off s) _ x) as [y|] eqn:Ey; [|done]. intros _.
  assert ((pre ++ [seg ++ bs]) !! Z.to_nat (sp_seg s) = Some x ∨ (pre ++ [seg ++ bs]) !! Z.to_nat (sp_seg s) = Some (x ++ bs)) as Hx.
  { destruct Hsegs as [-> | ->].
    - apply lookup_app_Some in E as [E|[Hge E]]; [left; by apply lookup_app_l_Some|right].
      apply list_lookup_singleton_Some in E as [E0 ->]. rewrite lookup_app_r by done. by rewrite E0.
    - left. by apply lookup_app_l_Some. }
  destruct Hx as [-> | ->]; cbn [default].
  - by rewrite Ey.
  - rewrite slice_app_l; [by rewrite Ey|by rewrite Ey].
Qed.

Lemma heap_append_get a bs i n : heap_ok a → heap_room a bs → 0 <= i → 0 <= n → i + n <= zlength bs →
  let s := (HeapArena.append bs a).1 in
  HeapArena.get (HeapArena.append bs a).2 (MkSpan (sp_seg s) (sp_off s + i) n) = take (Z.to_nat n) (drop (Z.to_nat i) bs).
Proof.
  intros Ha Hr Hi Hn Hin. destruct (append_spec a bs Ha Hr) as (pre & seg & _ & _ & Hp & Hs & Hnew & ->).
  cbv zeta. cbn [fst snd sp_seg sp_off]. unfold HeapArena.get. cbn [ha_segs sp_seg sp_off sp_len].
  pose proof (zlength_nonneg pre). pose proof (zlength_nonneg seg). pose proof (zlength_nonneg bs).
  rewrite zlookup_spec by done. unfold zlength at 1. rewrite Nat2Z.id, list_lookup_middle by done.
  assert (saturating_add (zlength seg + i) n = zlength seg + i + n) as ->.
  { unfold saturating_add, usize_max, two64. unfold two32 in Hs. lia. }
  assert (bs = take (Z.to_nat i) bs ++ take (Z.to_nat n) (drop (Z.to_nat i) bs) ++ drop (Z.to_nat n) (drop (Z.to_nat i) bs)) as E
    by (by rewrite take_drop, take_drop).
  rewrite E at 1. rewrite app_assoc. rewrite (slice_app (seg ++ take (Z.to_nat i) bs)); [done|..].
  - unfold zlength in *. rewrite length_app, length_take. lia.
  - unfold zlength in *. rewrite length_app, !length_take, length_drop. lia.
Qed.

Lemma heap_new_ok : heap_ok HeapArena.new.
Proof. split; cbn; [lia|lia|done]. Qed.

Lemma appended_append a bs : heap_ok a → heap_room a bs → appended_bytes (HeapArena.append bs a).2 = appended_bytes a + zlength bs.
Proof.
  intros Ha Hr. destruct (append_spec a bs Ha Hr) as (pre & seg & Hsegs & Hpre & _ & _ & _ & ->). unfold appended_bytes, appended. cbn [snd ha_sealed ha_segs].
  rewrite drop_app_le, concat_app, zlength_app by lia. cbn. rewrite app_nil_r, zlength_app.
  destruct Hsegs as [-> | [-> ->]]; [|change (zlength (@nil Z)) with 0; lia]. rewrite drop_app_le, concat_app, zlength_app by lia. cbn. rewrite app_nil_r. lia.
Qed.

Lemma heap_append_ok a bs : heap_ok a → heap_room a bs → heap_ok (HeapArena.append bs a).2.
Proof.
  intros Ha Hr. pose proof (appended_append a bs Ha Hr) as Hbytes.
  destruct (append_spec a bs Ha Hr) as (pre & seg & Hsegs & Hpre & Hp & Hs & Hnew & Happ). rewrite Happ in *. cbn [snd] in *. destruct Ha as [H1 H2 H4].
  split.
  - done.
  - cbn. rewrite length_app. lia.
  - rewrite Hbytes. unfold appended. cbn [ha_sealed ha_segs]. rewrite drop_app_le by lia. rewrite last_snoc, !zlength_app. cbn [default].
    change (zlength [seg ++ bs]) with 1. pose proof (zlength_nonneg bs). destruct Hsegs as [E | [E ->]].
    + unfold appended in H4. rewrite E, drop_app_le in H4 by lia. rewrite last_snoc, zlength_app in H4. cbn [default] in H4.
      change (zlength [seg]) with 1 in H4. unfold id, HEAP_SEGMENT_BYTES in *. rewrite zlength_app. lia.
    + change (zlength (@nil Z)) with 0. fold (appended a) in *. rewrite <- E. fold (appended a). destruct (Hnew E) as [Hf|Hn].
      * unfold id, HEAP_SEGMENT_BYTES in *. change ([] ++ bs) with bs. lia.
      * unfold appended_bytes. rewrite Hn. change (zlength (@nil (list Z))) with 0. change (zlength (concat (@nil (list Z)))) with 0.
        change ([] ++ bs) with bs. unfold id, HEAP_SEGMENT_BYTES. lia.
Qed.

#[global] Arguments HeapArena.append : simpl never.
#[global] Arguments HeapArena.get : simpl never.
#[global] Arguments HeapArena.end_cursor : simpl never.

#[global] Program Instance heap_arena_laws : ArenaLaws HeapArena := {|
  arena_ok := heap_ok;
  arena_room := heap_room;
|}.
Next Obligation.
  intros a bs Ha Hr. apply (heap_append_ok a bs Ha Hr).
Qed.
Next Obligation. intros a s [H1 H2 H4]. by split. Qed.
Next Obligation. intros a s [H1 H2 H4]. by split. Qed.
Next Obligation. intros a _. exact heap_new_ok. Qed.
Next Obligation.
  intros a bs [Hb _]. cbn. unfold HeapArena.append. destruct (HeapArena.writable _ a). cbn.
  unfold wrap_u32. apply Z.mod_small. pose proof (zlength_nonneg bs). done.
Qed.
Next Obligation. intros. by apply heap_append_get. Qed.
Next Obligation.
  intros a bs Ha Hr. cbn. destruct (append_spec a bs Ha Hr) as (pre & seg & _ & _ & _ & Hs & Hnew & ->). cbn. split; [apply zlength_nonneg|done].
Qed.
Next Obligation.
  intros a bs s Ha Hr. cbn. destruct (append_spec a bs Ha Hr) as (pre & seg & Hsegs & _ & _ & _ & Hnew & ->). cbn [snd].
  destruct a as [segs sealed live dead]. cbn in Hsegs. intros Hg. apply get_kept; [|done].
  destruct Hsegs as [->|[-> ->]]; [by left|by right].
Qed.
Next Obligation. done. Qed.
Next Obligation. done. Qed.
Next Obligation.
  intros a bs Ha Hr. cbn. destruct (append_spec a bs Ha Hr) as (pre & seg & Hsegs & Hpre & Hp & Hs & Hnew & ->). cbn [fst].
  unfold Span_start. cbn [sp_seg sp_off]. apply cursor_le_spec. unfold HeapArena.end_cursor.
  pose proof (zlength_nonneg pre). pose proof (zlength_nonneg seg). pose proof (zlength_nonneg bs).
  destruct Hsegs as [-> | [-> ->]].
  - rewrite last_snoc, bool_decide_eq_false_2 by (rewrite length_app; cbn; lia). cbn. right.
    unfold wrap_u32, zlength in *. rewrite length_app. cbn. rewrite !Z.mod_small by (unfold two32 in *; lia). lia.
  - destruct (last pre) as [x|] eqn:E; cbn.
    + destruct (bool_decide_reflect (length pre <= ha_sealed a)%nat) as [Hle|Hlt]; cbn.
      * right. unfold zlength in *. rewrite Z.mod_small by lia. cbn. lia.
      * left. apply last_Some in E as [l E]. unfold zlength in *. rewrite E, length_app in *. cbn in *. rewrite Z.mod_small by lia. lia.
    + apply last_None in E as ->. cbn. lia.
Qed.
Next Obligation.
  intros a bs Ha Hr Hbs. cbn. destruct (append_spec a bs Ha Hr) as (pre & seg & Hsegs & Hpre & Hp & Hs & Hnew & ->). cbn [fst snd].
  unfold Span_start. cbn [sp_seg sp_off]. apply cursor_lt_spec. unfold HeapArena.end_cursor. cbn [ha_segs ha_sealed].
  pose proof (zlength_nonneg pre). pose proof (zlength_nonneg seg). pose proof (zlength_nil_lt bs Hbs).
  rewrite last_snoc, bool_decide_eq_false_2 by (rewrite length_app; cbn; lia). cbn. right.
  rewrite zlength_app. unfold wrap_u32, zlength in *. rewrite length_app. cbn. rewrite !Z.mod_small by (unfold two32 in *; lia). lia.
Qed.
Next Obligation. done. Qed.
Next Obligation. done. Qed.

Lemma heap_from_buf_ok buf live : heap_ok (HeapArena.from_buf buf live).
Proof. split; [cbn; lia|cbn; lia|vm_compute; discriminate]. Qed.

(** An adopted image reads as it is. *)
Lemma from_buf_get buf live off n : 0 <= off → 0 <= n → off + n <= zlength buf → off + n < two64 →
  HeapArena.get (HeapArena.from_buf buf live) (MkSpan 0 off n) = take (Z.to_nat n) (drop (Z.to_nat off) buf).
Proof.
  intros Ho Hn Hle Hb. unfold HeapArena.get. cbn [HeapArena.from_buf ha_segs sp_seg sp_off sp_len].
  assert (saturating_add off n = off + n) as -> by (unfold saturating_add, usize_max; lia).
  change (zlookup [buf] 0) with (Some buf). unfold slice.
  rewrite (proj2 (Z.leb_le 0 off)), (proj2 (Z.leb_le off (off + n))), (proj2 (Z.leb_le (off + n) (zlength buf))) by lia.
  cbn. do 2 f_equal. lia.
Qed.
