(* ===== verification/RowTable.v ===== *)
(** * A table's rows as bytes behind an index

    Models [packages/ssp/src/circuit/row_table.rs]: rows are records in an
    arena, found through a hash table that holds nothing but where their heads
    lie; and what a checkpoint needs to know of a table: what changed since the
    last one, and how a table is built from an image or takes in a delta. The
    reused encode buffer is left out. A slice [block[a..b]] whose bounds were
    checked before is [take]/[drop]. *)

From S2P Require Import Prelude Platform Value RowCodec RowCodecSpec ValueRef SnapshotHash Store Arena.
Local Open Scope Z_scope.

(** ** Outside: the hash function and the hash table of the [hashbrown] crate *)

Class IdHash := id_hash : string → Z.

(** A [HashTable] stores elements under hashes its user computes. [ht_items]
    lists them in the order of its iterator, each with the hash it was put in
    under. *)
Class HashTable := {
  htable : Type → Type;
  ht_new : ∀ {A}, htable A;
  ht_items : ∀ {A}, htable A → list (Z * A);
  ht_find : ∀ {A}, Z → (A → bool) → htable A → option A;
  ht_replace : ∀ {A}, Z → (A → bool) → A → htable A → option (A * htable A);
  ht_insert_unique : ∀ {A}, Z → A → (A → Z) → htable A → htable A;
  ht_remove : ∀ {A}, Z → (A → bool) → htable A → option (A * htable A);
}.

(** A lookup compares every element of its hash, and may compare others. An
    insertion may rehash, and asks that the closure it is given agree with the
    hashes the elements were put in under. *)
Class HashTableLaws `{HashTable} := {
  ht_new_items : ∀ A, ht_items (@ht_new _ A) = [];
  ht_find_Some : ∀ A h (p : A → bool) t a, ht_find h p t = Some a → p a = true ∧ ∃ h', (h', a) ∈ ht_items t;
  ht_find_None : ∀ A h (p : A → bool) t a, ht_find h p t = None → (h, a) ∈ ht_items t → p a = false;
  ht_replace_Some : ∀ A h (p : A → bool) b t a t', ht_replace h p b t = Some (a, t') →
    p a = true ∧ ∃ h' l l', ht_items t = l ++ (h', a) :: l' ∧ ht_items t' = l ++ (h', b) :: l';
  ht_replace_None : ∀ A h (p : A → bool) b t a, ht_replace h p b t = None → (h, a) ∈ ht_items t → p a = false;
  ht_insert_items : ∀ A h (a : A) f t, (∀ h' a', (h', a') ∈ ht_items t → f a' = h') →
    ht_items (ht_insert_unique h a f t) ≡ₚ (h, a) :: ht_items t;
  ht_remove_Some : ∀ A h (p : A → bool) t a t', ht_remove h p t = Some (a, t') →
    p a = true ∧ ∃ h', ht_items t ≡ₚ (h', a) :: ht_items t';
  ht_remove_None : ∀ A h (p : A → bool) t a, ht_remove h p t = None → (h, a) ∈ ht_items t → p a = false;
}.

(** ** The table *)

(** Why an image could not be indexed. *)
Inductive BlockError :=
  | Truncated
  | BadRecord (n : Z)
  | DuplicateId (n : Z)
  | TrailingBytes
  | TooManyRows
  | TooLarge
  | BadBody (n : Z)
  | Tombstone (n : Z).

Record CheckpointMark := MkMark { cm_epoch : Z; cm_cursor : Cursor; cm_tombstones : nat }.

Inductive AbsorbInto := Segment (seg : Z) | Copy.

Record Absorbed := MkAbsorbed { ab_xor : list Z; ab_upserts : Z; ab_tombstones : Z; ab_tombstones_absent : Z }.

Abbreviation RowSlot := Span.

Definition MAX_TOMBSTONES : Z := 1048576.

(** Where a head's body lies: in the same segment, [body_rel] bytes on. *)
Definition body_of (head : list Z) (slot : RowSlot) : option Span :=
  let? rel := head_body_rel head in
  let? len := head_body_len head in
  if len =? 0 then None
  else if two32 <=? sp_off slot + rel then None else Some (MkSpan (sp_seg slot) (sp_off slot + rel) len).

(** The id stored in the head a slot points at, within one block. *)
Definition id_in (block : list Z) (slot : RowSlot) : option string :=
  let? head := slice (sp_off slot) (sp_off slot + sp_len slot) block in head_id head.

Definition is_id (id : string) (o : option string) : bool :=
  match o with Some x => String.eqb x id | None => false end.

Record IndexedHeads `{HashTable} := MkIndexed { ih_index : htable RowSlot; ih_xor : list Z; ih_live : Z }.

Record RowTable `{HashTable} (A : Type) := MkTable {
  rt_dict : FieldDict;
  rt_index : htable RowSlot;
  rt_arena : A;
  rt_epoch : Z;
  rt_persisted : option Cursor;
  rt_tombstones : list string;
}.
Arguments MkTable {_} {A}.
Arguments rt_dict {_} {A}.
Arguments rt_index {_} {A}.
Arguments rt_arena {_} {A}.
Arguments rt_epoch {_} {A}.
Arguments rt_persisted {_} {A}.
Arguments rt_tombstones {_} {A}.

Definition with_index `{HashTable} {A} (index : htable RowSlot) (t : RowTable A) : RowTable A :=
  MkTable (rt_dict t) index (rt_arena t) (rt_epoch t) (rt_persisted t) (rt_tombstones t).
Definition with_arena `{HashTable} {A} (arena : A) (t : RowTable A) : RowTable A :=
  MkTable (rt_dict t) (rt_index t) arena (rt_epoch t) (rt_persisted t) (rt_tombstones t).
Definition with_dict `{HashTable} {A} (dict : FieldDict) (t : RowTable A) : RowTable A :=
  MkTable dict (rt_index t) (rt_arena t) (rt_epoch t) (rt_persisted t) (rt_tombstones t).
Definition with_marks `{HashTable} {A} (persisted : option Cursor) (tombstones : list string) (t : RowTable A) : RowTable A :=
  MkTable (rt_dict t) (rt_index t) (rt_arena t) (rt_epoch t) persisted tombstones.

Module RowTable.
Section operations.
Context `{IdHash} `{HashTable} {A : Type} `{Arena A}.
Implicit Types (self t : RowTable A).

(** [epoch] is the next one of a counter of the process. *)
Definition from_parts (epoch : Z) (dict : FieldDict) (index : htable RowSlot) (arena : A) : RowTable A :=
  MkTable dict index arena epoch None [].

Definition over_arena (epoch : Z) (arena : A) : RowTable A := from_parts epoch FieldDict.new ht_new arena.

(** ** Reading *)

Definition slot_id (arena : A) (slot : RowSlot) : option string := head_id (arena_get arena slot).

Definition slot_hash (arena : A) (slot : RowSlot) : Z := match slot_id arena slot with Some id => id_hash id | None => 0 end.

Definition items (self : RowTable A) : list RowSlot := (ht_items (rt_index self)).*2.

Definition find_slot (self : RowTable A) (id : string) : option RowSlot :=
  ht_find (id_hash id) (λ slot, is_id id (slot_id (rt_arena self) slot)) (rt_index self).

Definition len (self : RowTable A) : Z := zlength (items self).
Definition is_empty (self : RowTable A) : bool := len self =? 0.
Definition contains_key (self : RowTable A) (id : string) : bool := match find_slot self id with Some _ => true | None => false end.
Definition keys (self : RowTable A) : list string := omap (slot_id (rt_arena self)) (items self).

Definition head_at (self : RowTable A) (slot : RowSlot) : list Z := arena_get (rt_arena self) slot.

Definition body (self : RowTable A) (slot : RowSlot) : list Z :=
  match body_of (head_at self slot) slot with Some span => arena_get (rt_arena self) span | None => [] end.

Definition get (self : RowTable A) (id : string) : ValueRef :=
  match find_slot self id with
  | None => Missing
  | Some slot =>
      let body := body self slot in
      if bool_decide (body = []) then Missing else FlatRef_value (MkFlatRef body (rt_dict self))
  end.

Definition head (self : RowTable A) (id : string) : option (list Z) :=
  let? slot := find_slot self id in
  let head := head_at self slot in
  if bool_decide (head = []) then None else Some head.

Definition digest_of (self : RowTable A) (id : string) : option (list Z) :=
  let? head := head self id in head_digest head.

Definition rv_of (self : RowTable A) (id : string) : option Z :=
  let? head := head self id in head_rv head.

Definition max_rv (self : RowTable A) : option Z :=
  foldl (λ acc rv, Some (match acc with Some m => Z.max m rv | None => rv end)) None
    (omap (λ slot, head_rv (head_at self slot)) (items self)).

Definition heads (self : RowTable A) : list (list Z) :=
  List.filter (λ head, negb (bool_decide (head = []))) (map (head_at self) (items self)).

(** The head and body of a slot: what [records] yields of it. *)
Definition record_of (self : RowTable A) (slot : RowSlot) : option (list Z * list Z) :=
  let head := head_at self slot in
  if bool_decide (head = []) then None
  else let? span := body_of head slot in Some (head, arena_get (rt_arena self) span).

Definition records (self : RowTable A) : list (list Z * list Z) := omap (record_of self) (items self).

Definition iter (self : RowTable A) : list (string * ValueRef) :=
  omap (λ slot,
    let head := head_at self slot in
    let? id := head_id head in
    let? span := body_of head slot in
    Some (id, FlatRef_value (MkFlatRef (arena_get (rt_arena self) span) (rt_dict self)))) (items self).

(** ** Writing *)

Definition append_record (record : list Z) (head_len : Z) (self : RowTable A) : RowSlot * RowTable A :=
  let '(span, arena) := arena_append record (rt_arena self) in
  (MkSpan (sp_seg span) (sp_off span) (wrap_u32 head_len), with_arena arena self).

Definition free_slot (slot : RowSlot) (self : RowTable A) : RowTable A :=
  let body := body_of (head_at self slot) slot in
  let arena := arena_free slot (rt_arena self) in
  with_arena (match body with Some span => arena_free span arena | None => arena end) self.

Definition place (id : string) (slot : RowSlot) (self : RowTable A) : bool * RowTable A :=
  let hash := id_hash id in
  let arena := rt_arena self in
  match ht_replace hash (λ s, is_id id (slot_id arena s)) slot (rt_index self) with
  | Some (old, index) => (true, free_slot old (with_index index self))
  | None => (false, with_index (ht_insert_unique hash slot (slot_hash arena) (rt_index self)) self)
  end.

Definition insert (id : string) (value : Sp00kyValue) (digest : list Z) (self : RowTable A) : RowSlot * RowTable A :=
  let '(record, head_len, dict) := encode_record id value digest (rt_dict self) in
  let '(slot, self) := append_record record head_len (with_dict dict self) in
  (slot, (place id slot self).2).

Definition insert_raw (id : string) (digest : list Z) (rv : Z) (body : list Z) (self : RowTable A) : RowSlot * bool * RowTable A :=
  let head := encode_head id digest rv (wrap_u32 (head_len_for id)) (wrap_u32 (zlength body)) in
  let '(slot, self) := append_record (head ++ body) (zlength head) self in
  let '(replaced, self) := place id slot self in
  (slot, replaced, self).

Definition remove_slot (id : string) (self : RowTable A) : bool * RowTable A :=
  match ht_remove (id_hash id) (λ s, is_id id (slot_id (rt_arena self) s)) (rt_index self) with
  | None => (false, self)
  | Some (slot, index) => (true, free_slot slot (with_index index self))
  end.

Definition remove (id : string) (self : RowTable A) : bool * RowTable A :=
  let '(removed, self) := remove_slot id self in
  if negb removed then (false, self)
  else match rt_persisted self with
    | None => (true, self)
    | Some _ =>
        let tombstones := rt_tombstones self ++ [id] in
        if MAX_TOMBSTONES <? zlength tombstones then (true, with_marks None [] self)
        else (true, with_marks (rt_persisted self) tombstones self)
    end.

Definition clear (epoch : Z) (self : RowTable A) : RowTable A :=
  MkTable FieldDict.new ht_new (arena_clear (rt_arena self)) epoch None [].

Definition restore_dict (names : list string) (self : RowTable A) : bool * RowTable A :=
  if negb (is_empty self) || negb (FieldDict.len (rt_dict self) =? 0) then (false, self)
  else match FieldDict.from_names names with
    | Some dict => (true, with_dict dict self)
    | None => (false, self)
    end.

(** ** What a checkpoint needs to know *)

Definition checkpoint_mark (self : RowTable A) : CheckpointMark :=
  MkMark (rt_epoch self) (arena_end_cursor (rt_arena self)) (length (rt_tombstones self)).

Definition records_since_persisted (self : RowTable A) : list (list Z * list Z) :=
  omap (λ slot,
    if match rt_persisted self with Some cursor => cursor_lt (Span_start slot) cursor | None => false end then None
    else record_of self slot) (items self).

(** The first occurrence of each. *)
Fixpoint firsts (seen : list string) (l : list string) : list string :=
  match l with
  | [] => []
  | id :: l => if bool_decide (id ∈ seen) then firsts seen l else id :: firsts (id :: seen) l
  end.

Definition tombstones_pending (self : RowTable A) : list string :=
  List.filter (λ id, negb (contains_key self id)) (firsts [] (rt_tombstones self)).

Definition mark_persisted (mark : CheckpointMark) (self : RowTable A) : bool * RowTable A :=
  if negb (cm_epoch mark =? rt_epoch self) then (false, self)
  else (true, with_marks (Some (cm_cursor mark)) (drop (Nat.min (cm_tombstones mark) (length (rt_tombstones self))) (rt_tombstones self)) self).

Definition set_persisted_at_end (self : RowTable A) : RowTable A :=
  with_marks (Some (arena_end_cursor (rt_arena self))) [] self.

(** [false] leaves the names interned so far. *)
Fixpoint extend_dict (names : list string) (self : RowTable A) : bool * RowTable A :=
  match names with
  | [] => (true, self)
  | name :: names =>
      let expected := wrap_u32 (FieldDict.len (rt_dict self)) in
      let '(id, dict) := FieldDict.intern (rt_dict self) name in
      let self := with_dict dict self in
      if id =? expected then extend_dict names self else (false, self)
  end.

(** ** Images *)

(** A head as the two loops over an image read it: its length, its bytes, the
    id, the digest, and where its body is said to be. *)
Record HeadRead := MkHeadRead {
  hr_len : Z; hr_head : list Z; hr_id : string; hr_digest : list Z; hr_rel : Z; hr_body_len : Z }.

Definition read_head (n : Z) (bytes : list Z) : BlockError + HeadRead :=
  match head_len bytes with
  | None => inl Truncated
  | Some head_len =>
      let head := take (Z.to_nat head_len) bytes in
      match head_id head, head_digest head, head_body_rel head, head_body_len head with
      | Some id, Some digest, Some rel, Some len => inr (MkHeadRead head_len head id digest rel len)
      | _, _, _, _ => inl (BadRecord n)
      end
  end.

(** The ranges are in order and inside the image, its offsets fit 32 bits, and
    so many heads fit the heads region. *)
Definition check_regions (image : list Z) (heads bodies : Z * Z) (rows : Z) : option BlockError :=
  if (heads.2 <? heads.1) || (bodies.1 <? heads.2) || (bodies.2 <? bodies.1) || (zlength image <? bodies.2) then Some Truncated
  else if two32 - 1 <? bodies.2 then Some TooLarge
  else if (heads.2 - heads.1) / HEAD_MIN_LEN <? rows then Some TooManyRows
  else None.

Definition bad_body (at_ next_body bodies_end : Z) (h : HeadRead) : bool :=
  (hr_rel h <? hr_len h) || negb (at_ + hr_rel h =? next_body) || (bodies_end <? next_body + hr_body_len h).

(** A head without a body removes its row. *)
Definition absorb_tombstone (id : string) (self : RowTable A) (out : Absorbed) : RowTable A * Absorbed :=
  match digest_of self id with
  | Some old =>
      ((remove_slot id self).2,
       MkAbsorbed (xor_digest (ab_xor out) old) (ab_upserts out) (ab_tombstones out + 1) (ab_tombstones_absent out))
  | None => (self, MkAbsorbed (ab_xor out) (ab_upserts out) (ab_tombstones out) (ab_tombstones_absent out + 1))
  end.

(** A head with a body replaces or adds its row. *)
Definition absorb_row (image : list Z) (at_ next_body : Z) (h : HeadRead) (into : AbsorbInto) (self : RowTable A) (out : Absorbed)
    : RowTable A * Absorbed :=
  let xor := match digest_of self (hr_id h) with Some old => xor_digest (ab_xor out) old | None => ab_xor out end in
  let xor := xor_digest xor (hr_digest h) in
  let '(slot, self) :=
    match into with
    | Segment seg =>
        (MkSpan seg (wrap_u32 at_) (wrap_u32 (hr_len h)),
         with_arena (arena_adopt (hr_len h + hr_body_len h) (rt_arena self)) self)
    | Copy =>
        let body := take (Z.to_nat (hr_body_len h)) (drop (Z.to_nat next_body) image) in
        append_record (relink_head (hr_head h) (wrap_u32 (hr_len h)) ++ body) (hr_len h) self
    end in
  ((place (hr_id h) slot self).2, MkAbsorbed xor (ab_upserts out + 1) (ab_tombstones out) (ab_tombstones_absent out)).

Fixpoint absorb_rows (image : list Z) (heads_end bodies_end : Z) (into : AbsorbInto) (rows : nat) (n at_ next_body : Z)
    (self : RowTable A) (out : Absorbed) : RowTable A * (BlockError + (Z * Z * Absorbed)) :=
  match rows with
  | O => (self, inr (at_, next_body, out))
  | S rows =>
      match read_head n (drop (Z.to_nat at_) (take (Z.to_nat heads_end) image)) with
      | inl e => (self, inl e)
      | inr h =>
          if hr_body_len h =? 0 then
            let '(self, out) := absorb_tombstone (hr_id h) self out in
            absorb_rows image heads_end bodies_end into rows (n + 1) (at_ + hr_len h) next_body self out
          else if bad_body at_ next_body bodies_end h then (self, inl (BadBody n))
          else
            let '(self, out) := absorb_row image at_ next_body h into self out in
            absorb_rows image heads_end bodies_end into rows (n + 1) (at_ + hr_len h) (next_body + hr_body_len h) self out
      end
  end.

(** On an error the table keeps what was absorbed before it. *)
Definition absorb (image : list Z) (heads bodies : Z * Z) (rows : Z) (into : AbsorbInto) (self : RowTable A)
    : RowTable A * (BlockError + Absorbed) :=
  match check_regions image heads bodies rows with
  | Some e => (self, inl e)
  | None =>
      match absorb_rows image heads.2 bodies.2 into (Z.to_nat rows) 0 heads.1 bodies.1 self (MkAbsorbed xor_empty 0 0 0) with
      | (self, inl e) => (self, inl e)
      | (self, inr (at_, next_body, out)) =>
          if negb (at_ =? heads.2) || negb (next_body =? bodies.2) then (self, inl TrailingBytes) else (self, inr out)
      end
  end.

Definition block_hash (block : list Z) (slot : RowSlot) : Z := match id_in block slot with Some id => id_hash id | None => 0 end.

Fixpoint index_rows (block : list Z) (heads_end bodies_end seg : Z) (rows : nat) (n at_ next_body : Z) (ix : IndexedHeads)
    : BlockError + (Z * Z * IndexedHeads) :=
  match rows with
  | O => inr (at_, next_body, ix)
  | S rows =>
      match read_head n (drop (Z.to_nat at_) (take (Z.to_nat heads_end) block)) with
      | inl e => inl e
      | inr h =>
          if hr_body_len h =? 0 then inl (Tombstone n)
          else if bad_body at_ next_body bodies_end h then inl (BadBody n)
          else
            let slot := MkSpan seg (wrap_u32 at_) (wrap_u32 (hr_len h)) in
            match ht_find (id_hash (hr_id h)) (λ s, is_id (hr_id h) (id_in block s)) (ih_index ix) with
            | Some _ => inl (DuplicateId n)
            | None =>
                let ix := MkIndexed _ (ht_insert_unique (id_hash (hr_id h)) slot (block_hash block) (ih_index ix))
                  (xor_digest (ih_xor ix) (hr_digest h)) (ih_live ix + (hr_len h + hr_body_len h)) in
                index_rows block heads_end bodies_end seg rows (n + 1) (at_ + hr_len h) (next_body + hr_body_len h) ix
            end
      end
  end.

Definition index_heads (block : list Z) (heads bodies : Z * Z) (rows seg : Z) : BlockError + IndexedHeads :=
  match check_regions block heads bodies rows with
  | Some e => inl e
  | None =>
      match index_rows block heads.2 bodies.2 seg (Z.to_nat rows) 0 heads.1 bodies.1 (MkIndexed _ ht_new xor_empty 0) with
      | inl e => inl e
      | inr (at_, next_body, ix) =>
          if negb (at_ =? heads.2) || negb (next_body =? bodies.2) then inl TrailingBytes else inr ix
      end
  end.
End operations.

(** [new] and [clone] use the heap. *)
Section heap.
Context `{IdHash} `{HashTable}.

Definition new (epoch : Z) : RowTable HeapArena := over_arena epoch HeapArena.new.

Definition clone `{Arena A} (epoch : Z) (self : RowTable A) : RowTable HeapArena :=
  foldl (λ out (e : list Z * list Z),
    match head_id e.1, head_digest e.1, decode_value e.2 (rt_dict self) with
    | Some id, Some digest, Some value => (insert id value digest out).2
    | _, _, _ => out
    end) (new epoch) (records self).
End heap.
End RowTable.
