(* ===== verification/RowTableFacts.v ===== *)
(** * A row table is a map from ids to rows

    What a table's index and bytes stand for ([represents]), and that every
    operation does to it what it should do to a map, whatever ids hash to. *)

From S2P Require Import Prelude Platform Value RowCodec RowCodecSpec ValueRef SnapshotHash Store StoreFacts Arena.
From S2P Require Import RowTable.
Local Open Scope Z_scope.

(** A row as bytes. *)
Record RawRow := MkRawRow { rr_digest : list Z; rr_rv : Z; rr_body : list Z }.

Record raw_wf (r : RawRow) : Prop := {
  rw_digest : acc_wf (rr_digest r);
  rw_rv : in_i64 (rr_rv r);
  rw_body : 0 < zlength (rr_body r) < two32;
}.

Definition id_wf (id : string) : Prop := utf8_valid (bytes_of id) = true ∧ zlength (bytes_of id) < two32.

(** The head of a row whose body lies [rel] bytes on. *)
Definition row_head (id : string) (r : RawRow) (rel : Z) : list Z :=
  encode_head id (rr_digest r) (rr_rv r) rel (zlength (rr_body r)).

Lemma digest_length r : raw_wf r → zlength (rr_digest r) = DIGEST_LEN.
Proof. intros [[Hd _] _ _]. unfold zlength. by rewrite Hd. Qed.

Section head.
Context (id : string) (r : RawRow) (rel : Z) (Hid : id_wf id) (Hr : raw_wf r) (Hrel : 0 <= rel < two32).

Lemma body_bounds : 0 <= zlength (rr_body r) < two32.
Proof. destruct Hr as [_ _ Hb]. lia. Qed.

Lemma row_head_len : zlength (row_head id r rel) = head_len_for id.
Proof. apply head_len_for_spec; [by apply digest_length|apply Hid]. Qed.

Lemma row_head_long : HEAD_MIN_LEN <= zlength (row_head id r rel).
Proof.
  unfold row_head, encode_head. autorewrite with zlen. rewrite digest_length by done.
  pose proof (write_varint_len (zlength (bytes_of id))). pose proof (zlength_nonneg (bytes_of id)).
  change HEAD_MIN_LEN with 49. change DIGEST_LEN with 32. lia.
Qed.

Lemma row_head_nonempty : row_head id r rel ≠ [].
Proof. pose proof row_head_long as Hl. intros E. rewrite E in Hl. by apply Hl. Qed.

Lemma row_head_id rest : head_id (row_head id r rel ++ rest) = Some id.
Proof. apply head_id_encode; [by apply digest_length|apply Hid|apply Hid]. Qed.
Lemma row_head_digest rest : head_digest (row_head id r rel ++ rest) = Some (rr_digest r).
Proof. apply head_digest_encode. by apply digest_length. Qed.
Lemma row_head_rv rest : head_rv (row_head id r rel ++ rest) = if rr_rv r =? RV_ABSENT then None else Some (rr_rv r).
Proof. unfold head_rv. unfold row_head. rewrite head_rv_raw_encode; [done|by apply digest_length|by destruct Hr]. Qed.
Lemma row_head_rel rest : head_body_rel (row_head id r rel ++ rest) = Some rel.
Proof. apply head_body_rel_encode; [by apply digest_length|done]. Qed.
Lemma row_head_body_len rest : head_body_len (row_head id r rel ++ rest) = Some (zlength (rr_body r)).
Proof. apply head_body_len_encode; [by apply digest_length|apply body_bounds]. Qed.
Lemma row_head_read rest : head_len (row_head id r rel ++ rest) = Some (zlength (row_head id r rel)).
Proof. apply head_len_encode; [by apply digest_length|apply Hid]. Qed.
Lemma row_head_relink rel' : relink_head (row_head id r rel) rel' = row_head id r rel'.
Proof. apply relink_encode. by apply digest_length. Qed.
End head.

Lemma Forall2_elem_l {A B} (P : A → B → Prop) l k x : Forall2 P l k → x ∈ l → ∃ y, y ∈ k ∧ P x y.
Proof.
  intros Hf [i Hi]%list_elem_of_lookup. destruct (Forall2_lookup_l _ _ _ _ _ Hf Hi) as (y & Hy & Hp).
  exists y. split; [by eapply list_elem_of_lookup_2|done].
Qed.

(** ** A row in the arena *)

Section table.
Context `{IdHash} `{HashTableLaws} {A : Type} `{ArenaLaws A}.
Implicit Types (a : A) (t : RowTable A) (m : gmap string RawRow) (id : string) (r : RawRow).

(** The slot points at the head of row [r] of [id], and the head at its body. *)
Record stored a (s : Span) id r : Prop := {
  so_id : id_wf id;
  so_row : raw_wf r;
  so_off : 0 <= sp_off s;
  so_bytes : ∃ rel, 0 <= rel < two32 ∧ sp_off s + rel < two32 ∧ arena_get a s = row_head id r rel ∧
    arena_get a (MkSpan (sp_seg s) (sp_off s + rel) (zlength (rr_body r))) = rr_body r;
}.

Lemma body_nonempty r : raw_wf r → rr_body r ≠ [].
Proof. intros [_ _ [Hb _]] E. rewrite E in Hb. by apply Z.lt_irrefl in Hb. Qed.

Lemma stored_kept a a' s id r : stored a s id r → (∀ s, arena_get a s ≠ [] → arena_get a' s = arena_get a s) → stored a' s id r.
Proof.
  intros [Hid Hr Ho (rel & Hrel & Hsum & Hh & Hb)] Hk. split; try done. exists rel.
  rewrite (Hk s), (Hk (MkSpan _ _ _)); [done|..].
  - rewrite Hb. by apply body_nonempty.
  - rewrite Hh. by apply row_head_nonempty.
Qed.

Lemma stored_slot_id a s id r : stored a s id r → RowTable.slot_id a s = Some id.
Proof.
  intros [Hid Hr _ (rel & Hrel & _ & Hh & _)]. unfold RowTable.slot_id. rewrite Hh, <- (app_nil_r (row_head _ _ _)). by apply row_head_id.
Qed.

Lemma stored_is_id a s id r x : stored a s id r → is_id x (RowTable.slot_id a s) = String.eqb id x.
Proof. intros Hs. by rewrite (stored_slot_id _ _ _ _ Hs). Qed.

Lemma stored_body_of a s id r : stored a s id r →
  ∃ span, body_of (arena_get a s) s = Some span ∧ arena_get a span = rr_body r.
Proof.
  intros [Hid Hr Ho (rel & Hrel & Hsum & Hh & Hb)]. unfold body_of. rewrite Hh, <- (app_nil_r (row_head _ _ _)).
  rewrite row_head_rel, row_head_body_len by done. cbn.
  destruct Hr as [_ _ Hl]. rewrite (proj2 (Z.eqb_neq _ 0)) by lia. rewrite (proj2 (Z.leb_gt _ _)) by lia.
  eexists. split; [done|exact Hb].
Qed.

(** ** What a table stands for *)

Definition slot_of a (it : Z * Span) (e : string * RawRow) : Prop :=
  it.1 = id_hash e.1 ∧ stored a it.2 e.1 e.2 ∧ cursor_lt (Span_start it.2) (arena_end_cursor a) = true.

Record represents t m : Prop := {
  rp_arena : arena_ok (rt_arena t);
  rp_items : ∃ ents, Forall2 (slot_of (rt_arena t)) (ht_items (rt_index t)) ents ∧ NoDup ents.*1 ∧ m = list_to_map ents;
}.

Lemma slot_of_kept a a' it e : slot_of a it e → (∀ s, arena_get a s ≠ [] → arena_get a' s = arena_get a s) →
  cursor_le (arena_end_cursor a) (arena_end_cursor a') = true → slot_of a' it e.
Proof. intros (Hh & Hs & Hc) Hk Hle. split_and!; [done|by eapply stored_kept|by eapply cursor_lt_le_trans]. Qed.

Lemma slots_kept a a' items ents : Forall2 (slot_of a) items ents →
  (∀ s, arena_get a s ≠ [] → arena_get a' s = arena_get a s) →
  cursor_le (arena_end_cursor a) (arena_end_cursor a') = true → Forall2 (slot_of a') items ents.
Proof. intros Hf Hk Hle. eapply Forall2_impl; [exact Hf|]. intros it e Hit. by eapply slot_of_kept. Qed.

(** The rehash closures agree with the hashes entries were put in under. *)
Lemma slot_hash_ok a items ents h s : Forall2 (slot_of a) items ents → (h, s) ∈ items → RowTable.slot_hash a s = h.
Proof.
  intros Hf Hin. destruct (Forall2_elem_l _ _ _ _ Hf Hin) as (e & _ & He & Hs & _). unfold RowTable.slot_hash.
  cbn in He, Hs. by rewrite (stored_slot_id _ _ _ _ Hs).
Qed.

Lemma ents_lookup (ents : list (string * RawRow)) id r : NoDup ents.*1 → (list_to_map ents : gmap string RawRow) !! id = Some r ↔ (id, r) ∈ ents.
Proof. intros Hn. by rewrite elem_of_list_to_map. Qed.

Lemma find_slot_Some t m id s : represents t m → RowTable.find_slot t id = Some s → ∃ r, m !! id = Some r ∧ stored (rt_arena t) s id r.
Proof.
  intros [_ (ents & Hf & Hn & ->)] Hfind. apply ht_find_Some in Hfind as [Hp (h & Hin)].
  destruct (Forall2_elem_l _ _ _ _ Hf Hin) as ([id' r] & He & _ & Hs & _). cbn in Hs.
  rewrite (stored_is_id _ _ _ _ _ Hs) in Hp. apply String.eqb_eq in Hp as ->. exists r. split; [by apply ents_lookup|done].
Qed.

Lemma find_slot_None t m id : represents t m → RowTable.find_slot t id = None → m !! id = None.
Proof.
  intros [_ (ents & Hf & Hn & ->)] Hfind. destruct (_ !! id) as [r|] eqn:E; [|done]. apply ents_lookup in E; [|done].
  destruct (Forall2_elem_r _ _ _ _ Hf E) as ([h s] & Hin & Hh & Hs & _). cbn in Hh, Hs. subst h.
  pose proof (ht_find_None _ _ _ _ _ Hfind Hin) as Hp. cbn in Hp. rewrite (stored_is_id _ _ _ _ _ Hs), String.eqb_refl in Hp. done.
Qed.

Lemma contains_key_spec t m id : represents t m → RowTable.contains_key t id = bool_decide (is_Some (m !! id)).
Proof.
  intros Hr. unfold RowTable.contains_key. destruct (RowTable.find_slot t id) as [s|] eqn:E.
  - destruct (find_slot_Some _ _ _ _ Hr E) as (r & -> & _). symmetry. by apply bool_decide_eq_true_2.
  - rewrite (find_slot_None _ _ _ Hr E). symmetry. apply bool_decide_eq_false_2. by intros [].
Qed.

(** ** Reading *)

Lemma get_present t m id r : represents t m → m !! id = Some r → RowTable.get t id = FlatRef_value (MkFlatRef (rr_body r) (rt_dict t)).
Proof.
  intros Hr Hm. unfold RowTable.get. destruct (RowTable.find_slot t id) as [s|] eqn:E.
  - destruct (find_slot_Some _ _ _ _ Hr E) as (r' & Hm' & Hs). assert (r' = r) as -> by congruence.
    destruct (stored_body_of _ _ _ _ Hs) as (span & Hspan & Hb). unfold RowTable.body, RowTable.head_at. rewrite Hspan, Hb.
    rewrite bool_decide_eq_false_2; [done|]. apply body_nonempty. by destruct Hs.
  - by rewrite (find_slot_None _ _ _ Hr E) in Hm.
Qed.

Lemma get_absent t m id : represents t m → m !! id = None → RowTable.get t id = Missing.
Proof.
  intros Hr Hm. unfold RowTable.get. destruct (RowTable.find_slot t id) as [s|] eqn:E; [|done].
  destruct (find_slot_Some _ _ _ _ Hr E) as (r & Hm' & _). congruence.
Qed.

Lemma head_present t m id r : represents t m → m !! id = Some r → ∃ rel, 0 <= rel < two32 ∧ id_wf id ∧ raw_wf r ∧
  RowTable.head t id = Some (row_head id r rel ++ []).
Proof.
  intros Hr Hm. unfold RowTable.head. destruct (RowTable.find_slot t id) as [s|] eqn:E; [|by rewrite (find_slot_None _ _ _ Hr E) in Hm].
  destruct (find_slot_Some _ _ _ _ Hr E) as (r' & Hm' & [Hid Hw _ (rel & Hrel & _ & Hh & _)]). assert (r' = r) as -> by congruence.
  exists rel. split_and!; [lia|lia|done|done|]. unfold RowTable.head_at. rewrite Hh, app_nil_r.
  rewrite bool_decide_eq_false_2; [done|]. by apply row_head_nonempty.
Qed.

Lemma head_absent t m id : represents t m → m !! id = None → RowTable.head t id = None.
Proof.
  intros Hr Hm. unfold RowTable.head. destruct (RowTable.find_slot t id) as [s|] eqn:E; [|done].
  destruct (find_slot_Some _ _ _ _ Hr E) as (r & Hm' & _). congruence.
Qed.

Lemma digest_of_spec t m id : represents t m → RowTable.digest_of t id = rr_digest <$> m !! id.
Proof.
  intros Hr. unfold RowTable.digest_of. destruct (m !! id) as [r|] eqn:E; cbn.
  - destruct (head_present _ _ _ _ Hr E) as (rel & Hrel & Hid & Hw & ->). by apply row_head_digest.
  - by rewrite (head_absent _ _ _ Hr E).
Qed.

Definition raw_rv r : option Z := if rr_rv r =? RV_ABSENT then None else Some (rr_rv r).

Lemma rv_of_spec t m id : represents t m → RowTable.rv_of t id = m !! id ≫= raw_rv.
Proof.
  intros Hr. unfold RowTable.rv_of. destruct (m !! id) as [r|] eqn:E; cbn.
  - destruct (head_present _ _ _ _ Hr E) as (rel & Hrel & Hid & Hw & ->). by apply row_head_rv.
  - by rewrite (head_absent _ _ _ Hr E).
Qed.

Lemma len_spec t m : represents t m → RowTable.len t = Z.of_nat (size m).
Proof.
  intros [_ (ents & Hf & Hn & ->)]. unfold RowTable.len, RowTable.items, zlength. rewrite length_fmap, (Forall2_length _ _ _ Hf).
  f_equal. rewrite <- (length_fmap fst ents). rewrite <- (size_list_to_set (C:=gset string) _ Hn). rewrite <- size_dom. f_equal.
  apply set_eq. intros id. by rewrite dom_list_to_map_L.
Qed.

(** ** Writing *)

Lemma forall2_replace {B C} (P : B → C → Prop) l x l' k : Forall2 P (l ++ x :: l') k →
  ∃ k1 y k2, k = k1 ++ y :: k2 ∧ P x y ∧ Forall2 P l k1 ∧ Forall2 P l' k2.
Proof.
  intros (k1 & k' & Hk1 & Hk & ->)%Forall2_app_inv_l. apply Forall2_cons_inv_l in Hk as (y & k2 & Hy & Hk2 & ->).
  by exists k1, y, k2.
Qed.

Lemma insert_middle (k1 k2 : list (string * RawRow)) id r r' : NoDup (k1 ++ (id, r) :: k2).*1 →
  (list_to_map (k1 ++ (id, r') :: k2) : gmap string RawRow) = <[id := r']> (list_to_map (k1 ++ (id, r) :: k2)).
Proof.
  intros Hn. rewrite fmap_app in Hn. cbn in Hn. apply NoDup_app in Hn as (_ & Hx & _). induction k1 as [|[id1 r1] k1 IH]; cbn.
  - by rewrite insert_insert_eq.
  - rewrite IH by (intros x Hin; apply Hx; by right). apply insert_insert_ne. intros E. apply (Hx id1); [by left|rewrite E; by left].
Qed.

(** Pointing an id at a stored row puts the row into the map. *)
(** A slot for an id the table does not have. *)
Lemma insert_unique_spec t m id s r (f : Span → Z) : represents t m → stored (rt_arena t) s id r →
  cursor_lt (Span_start s) (arena_end_cursor (rt_arena t)) = true → m !! id = None → (∀ h x, (h, x) ∈ ht_items (rt_index t) → f x = h) →
  represents (with_index (ht_insert_unique (id_hash id) s f (rt_index t)) t) (<[id := r]> m).
Proof.
  intros [Ha (ents & Hf & Hn & ->)] Hs Hc Hnone Hh. split; [done|].
  pose proof (ht_insert_items _ (id_hash id) s f (rt_index t) Hh) as Hp.
  assert (Forall2 (slot_of (rt_arena t)) ((id_hash id, s) :: ht_items (rt_index t)) ((id, r) :: ents)) as Hf'
    by (constructor; [by split_and!|done]).
  destruct (Permutation_Forall2 (Permutation_sym Hp) Hf') as (ents' & Hp2 & Hf2). exists ents'. cbn [with_index rt_index rt_arena].
  assert (NoDup ((id, r) :: ents).*1) as Hn2.
  { cbn. constructor; [|done]. intros Hin. apply list_elem_of_fmap in Hin as ([id' r'] & -> & Hin). apply ents_lookup in Hin; [cbn in Hnone; congruence|done]. }
  split_and!; [done|by rewrite <- Hp2|]. rewrite <- (list_to_map_proper _ _ Hn2 Hp2). done.
Qed.

Lemma place_spec t m id s r : represents t m → stored (rt_arena t) s id r → cursor_lt (Span_start s) (arena_end_cursor (rt_arena t)) = true →
  (RowTable.place id s t).1 = bool_decide (is_Some (m !! id)) ∧ represents (RowTable.place id s t).2 (<[id := r]> m).
Proof.
  intros Hr Hs Hc. pose proof Hr as [Ha (ents & Hf & Hn & ->)]. unfold RowTable.place.
  destruct (ht_replace _ _ _ _) as [[old index]|] eqn:E.
  - apply ht_replace_Some in E as [Hp (h & l & l' & Hl & Hl')]. rewrite Hl in Hf.
    destruct (forall2_replace _ _ _ _ _ Hf) as (k1 & [id' r'] & k2 & -> & (Hh & Hold & _) & Hf1 & Hf2). cbn in Hh, Hold.
    rewrite (stored_is_id _ _ _ _ _ Hold) in Hp. apply String.eqb_eq in Hp as ->. cbn [fst snd]. split.
    + symmetry. apply bool_decide_eq_true_2. exists r'. apply ents_lookup; [done|]. apply elem_of_app. right. by left.
    + assert (∀ s0, arena_get (rt_arena (RowTable.free_slot old (with_index index t))) s0 = arena_get (rt_arena t) s0) as Hg.
      { intros s0. unfold RowTable.free_slot. cbn. destruct (body_of _ _); cbn; by rewrite ?free_keeps. }
      assert (arena_end_cursor (rt_arena (RowTable.free_slot old (with_index index t))) = arena_end_cursor (rt_arena t)) as Hcur.
      { unfold RowTable.free_slot. cbn. destruct (body_of _ _); cbn; by rewrite ?free_cursor. }
      split.
      * unfold RowTable.free_slot. cbn. destruct (body_of _ _); cbn; repeat apply free_ok; done.
      * exists (k1 ++ (id, r) :: k2). split_and!.
        -- cbn [RowTable.free_slot with_arena with_index rt_index]. rewrite Hl'.
           eapply slots_kept; [|intros; apply Hg|rewrite Hcur; apply cursor_le_refl].
           apply Forall2_app; [done|]. constructor; [|done]. by split_and!.
        -- by rewrite fmap_app in *.
        -- symmetry. by apply insert_middle.
  - assert ((list_to_map ents : gmap string RawRow) !! id = None) as Hnone.
    { destruct (_ !! id) as [r'|] eqn:E'; [|done]. apply ents_lookup in E'; [|done].
      destruct (Forall2_elem_r _ _ _ _ Hf E') as ([h s'] & Hin & Hh & Hs' & _). cbn in Hh, Hs'. subst h.
      pose proof (ht_replace_None _ _ _ _ _ _ E Hin) as Hp. cbn in Hp. by rewrite (stored_is_id _ _ _ _ _ Hs'), String.eqb_refl in Hp. }
    cbn [fst snd]. split; [symmetry; apply bool_decide_eq_false_2; rewrite Hnone; by intros []|].
    apply insert_unique_spec; try done. intros h x. by eapply slot_hash_ok.
Qed.

Lemma free_slot_get t s s0 : arena_get (rt_arena (RowTable.free_slot s t)) s0 = arena_get (rt_arena t) s0.
Proof. unfold RowTable.free_slot. cbn. destruct (body_of _ _); cbn; by rewrite ?free_keeps. Qed.

Lemma free_slot_cursor t s : arena_end_cursor (rt_arena (RowTable.free_slot s t)) = arena_end_cursor (rt_arena t).
Proof. unfold RowTable.free_slot. cbn. destruct (body_of _ _); cbn; by rewrite ?free_cursor. Qed.

Lemma free_slot_ok t s : arena_ok (rt_arena t) → arena_ok (rt_arena (RowTable.free_slot s t)).
Proof. intros Ha. unfold RowTable.free_slot. cbn. destruct (body_of _ _); cbn; repeat apply free_ok; done. Qed.

Lemma remove_slot_spec t m id : represents t m →
  (RowTable.remove_slot id t).1 = bool_decide (is_Some (m !! id)) ∧ represents (RowTable.remove_slot id t).2 (delete id m).
Proof.
  intros Hr. pose proof Hr as [Ha (ents & Hf & Hn & ->)]. unfold RowTable.remove_slot.
  destruct (ht_remove _ _ _) as [[old index]|] eqn:E.
  - apply ht_remove_Some in E as [Hp (h & Hperm)].
    destruct (Permutation_Forall2 Hperm Hf) as (ents' & Hp2 & Hf2). inversion Hf2 as [|? [id' r'] ? ents2 (Hh & Hold & _) Hf3]; subst.
    cbn in Hold. rewrite (stored_is_id _ _ _ _ _ Hold) in Hp. apply String.eqb_eq in Hp as ->.
    assert (NoDup ((id, r') :: ents2).*1) as Hn2 by (by rewrite <- Hp2). pose proof Hn2 as [Hid Hn3]%NoDup_cons. cbn [fst snd]. split.
    + symmetry. apply bool_decide_eq_true_2. exists r'. apply ents_lookup; [done|]. rewrite Hp2. by left.
    + split; [by apply free_slot_ok|]. exists ents2. split_and!; [|done|].
      * cbn [RowTable.free_slot with_arena with_index rt_index].
        eapply slots_kept; [exact Hf3|intros; by rewrite free_slot_get|rewrite free_slot_cursor; apply cursor_le_refl].
      * rewrite (list_to_map_proper _ _ Hn Hp2). cbn. rewrite delete_insert_id; [done|]. by apply not_elem_of_list_to_map_1.
  - assert ((list_to_map ents : gmap string RawRow) !! id = None) as Hnone.
    { destruct (_ !! id) as [r'|] eqn:E'; [|done]. apply ents_lookup in E'; [|done].
      destruct (Forall2_elem_r _ _ _ _ Hf E') as ([h s'] & Hin & Hh & Hs' & _). cbn in Hh, Hs'. subst h.
      pose proof (ht_remove_None _ _ _ _ _ E Hin) as Hp. cbn in Hp. by rewrite (stored_is_id _ _ _ _ _ Hs'), String.eqb_refl in Hp. }
    cbn [fst snd]. split; [symmetry; apply bool_decide_eq_false_2; rewrite Hnone; by intros []|].
    by rewrite delete_id.
Qed.

(** An appended record is stored where the returned slot says. *)
Lemma append_record_spec t m id r : represents t m → id_wf id → raw_wf r →
  let record := row_head id r (head_len_for id) ++ rr_body r in
  arena_room (rt_arena t) record →
  let '(s, t') := RowTable.append_record record (head_len_for id) t in
  represents t' m ∧ stored (rt_arena t') s id r ∧
  cursor_le (arena_end_cursor (rt_arena t)) (Span_start s) = true ∧
  cursor_lt (Span_start s) (arena_end_cursor (rt_arena t')) = true ∧
  cursor_le (arena_end_cursor (rt_arena t)) (arena_end_cursor (rt_arena t')) = true ∧
  rt_index t' = rt_index t ∧ rt_dict t' = rt_dict t ∧ rt_epoch t' = rt_epoch t ∧ rt_persisted t' = rt_persisted t ∧ rt_tombstones t' = rt_tombstones t ∧
  ∀ s0, arena_get (rt_arena t) s0 ≠ [] → arena_get (rt_arena t') s0 = arena_get (rt_arena t) s0.
Proof.
  intros [Ha (ents & Hf & Hn & ->)] Hid Hr record Hroom. unfold RowTable.append_record.
  pose proof (append_ok _ _ Ha Hroom) as Ha'. pose proof (append_off _ _ Ha Hroom) as [Ho1 Ho2].
  assert (∀ s0, arena_get (rt_arena t) s0 ≠ [] → arena_get (arena_append record (rt_arena t)).2 s0 = arena_get (rt_arena t) s0) as Hk by (intros s0; by apply append_keeps). pose proof (append_start _ _ Ha Hroom) as Hst.
  assert (0 <= head_len_for id < two32) as Hhl.
  { pose proof (zlength_nonneg (rr_body r)). rewrite <- (row_head_len id r 0) by done. pose proof (zlength_nonneg (row_head id r 0)).
    assert (zlength (row_head id r (head_len_for id)) = zlength (row_head id r 0)) by (by rewrite !row_head_len).
    assert (zlength record < two32) by lia. unfold record in *. rewrite zlength_app in *. lia. }
  assert (zlength record = head_len_for id + zlength (rr_body r)) as Hrec.
  { unfold record. by rewrite zlength_app, row_head_len. }
  pose proof (zlength_nonneg (rr_body r)).
  assert (record ≠ []) as Hne.
  { unfold record. intros E%app_eq_nil. destruct E as [E _]. by apply row_head_nonempty in E. }
  pose proof (append_end _ _ Ha Hroom Hne) as Hend.
  pose proof (append_get _ _ 0 (head_len_for id) Ha Hroom ltac:(lia) ltac:(lia) ltac:(lia)) as Hg1.
  pose proof (append_get _ _ (head_len_for id) (zlength (rr_body r)) Ha Hroom ltac:(lia) ltac:(lia) ltac:(lia)) as Hg2.
  destruct (arena_append record (rt_arena t)) as [span arena]. cbn [fst snd] in *. cbn [with_arena rt_arena rt_index rt_dict rt_epoch rt_persisted rt_tombstones].
  assert (cursor_le (arena_end_cursor (rt_arena t)) (arena_end_cursor arena) = true) as Hle.
  { eapply cursor_le_trans; [exact Hst|]. apply cursor_le_spec. apply cursor_lt_spec in Hend. lia. }
  split_and!; try done.
  - split; [done|]. exists ents. split_and!; [by eapply slots_kept|done|done].
  - split; [done|done|done|]. exists (head_len_for id). cbn [sp_off sp_seg]. unfold record in Hg1, Hg2.
    rewrite Z.add_0_r in Hg1. change (Z.to_nat 0) with 0%nat in Hg1. rewrite drop_0, take_zlength in Hg1 by (by apply row_head_len).
    rewrite drop_zlength, take_ge in Hg2 by (by apply row_head_len || (unfold zlength; lia)).
    unfold wrap_u32. rewrite Z.mod_small by done. split_and!; [lia|lia|lia|done|done].
Qed.

(** What placing an appended row leaves, the row's slot being past the old end. *)
Record placed t t' (s : Span) : Prop := {
  pl_dict : rt_dict t' = rt_dict t;
  pl_epoch : rt_epoch t' = rt_epoch t;
  pl_persisted : rt_persisted t' = rt_persisted t;
  pl_tombstones : rt_tombstones t' = rt_tombstones t;
  pl_past : cursor_le (arena_end_cursor (rt_arena t)) (Span_start s) = true;
  pl_end : cursor_le (arena_end_cursor (rt_arena t)) (arena_end_cursor (rt_arena t')) = true;
  pl_items : ∀ h s', (h, s') ∈ ht_items (rt_index t') → s' = s ∨ (h, s') ∈ ht_items (rt_index t);
  pl_get : ∀ s0, arena_get (rt_arena t) s0 ≠ [] → arena_get (rt_arena t') s0 = arena_get (rt_arena t) s0;
}.

Lemma place_items id s t h s' : (∀ h x, (h, x) ∈ ht_items (rt_index t) → RowTable.slot_hash (rt_arena t) x = h) →
  (h, s') ∈ ht_items (rt_index (RowTable.place id s t).2) → s' = s ∨ (h, s') ∈ ht_items (rt_index t).
Proof.
  intros Hh. unfold RowTable.place. destruct (ht_replace _ _ _ _) as [[old index]|] eqn:E.
  - apply ht_replace_Some in E as [_ (h' & l & l' & -> & Hl')]. cbn [fst snd RowTable.free_slot with_arena with_index rt_index]. rewrite Hl'.
    rewrite !elem_of_app, !elem_of_cons. intros [?|[[= _ ->]|?]]; auto.
  - cbn [fst snd with_index rt_index]. intros Hin. rewrite ht_insert_items in Hin by (intros h' x Hx; by apply Hh).
    apply elem_of_cons in Hin as [[= _ ->]|?]; auto.
Qed.

Lemma place_same id s t : let t' := (RowTable.place id s t).2 in
  rt_dict t' = rt_dict t ∧ rt_epoch t' = rt_epoch t ∧ rt_persisted t' = rt_persisted t ∧ rt_tombstones t' = rt_tombstones t ∧
  arena_end_cursor (rt_arena t') = arena_end_cursor (rt_arena t) ∧ ∀ s0, arena_get (rt_arena t') s0 = arena_get (rt_arena t) s0.
Proof.
  unfold RowTable.place. destruct (ht_replace _ _ _ _) as [[old index]|]; cbn [fst snd]; split_and!; try done.
  - by rewrite free_slot_cursor.
  - intros s0. by rewrite free_slot_get.
Qed.

Lemma hashes_ok t m : represents t m → ∀ h x, (h, x) ∈ ht_items (rt_index t) → RowTable.slot_hash (rt_arena t) x = h.
Proof. intros [_ (ents & Hf & _)] h x Hin. by eapply slot_hash_ok. Qed.

(** Appending a record of a row and pointing its id there. *)
Lemma append_place_spec t m id r : represents t m → id_wf id → raw_wf r →
  let record := row_head id r (head_len_for id) ++ rr_body r in
  arena_room (rt_arena t) record →
  let '(s, t1) := RowTable.append_record record (head_len_for id) t in
  let '(replaced, t') := RowTable.place id s t1 in
  replaced = bool_decide (is_Some (m !! id)) ∧ represents t' (<[id := r]> m) ∧ placed t t' s.
Proof.
  intros Hr Hid Hw record Hroom. pose proof (append_record_spec t m id r Hr Hid Hw Hroom) as Ha.
  destruct (RowTable.append_record _ _ t) as [s t1]. destruct Ha as (Hr1 & Hs & Hst & Hlt & Hle & Hi & Hd & He & Hp & Ht & Hg).
  pose proof (place_spec t1 m id s r Hr1 Hs Hlt) as [Hb Hr2]. pose proof (place_same id s t1) as (Hd2 & He2 & Hp2 & Ht2 & Hc2 & Hg2).
  pose proof (place_items id s t1) as Hi2. destruct (RowTable.place id s t1) as [replaced t']. cbn [fst snd] in *.
  split_and!; [by rewrite Hb|done|]. split; [congruence|congruence|congruence|congruence|done|by rewrite Hc2|..].
  - intros h s' Hin. rewrite <- Hi. by eapply Hi2, Hin; eapply hashes_ok.
  - intros s0 Hs0. rewrite Hg2. by apply Hg.
Qed.

Lemma head_len_small t id (record : list Z) n : arena_ok (rt_arena t) → arena_room (rt_arena t) record →
  zlength record = head_len_for id + n → 0 <= n → 0 <= head_len_for id → wrap_u32 (head_len_for id) = head_len_for id ∧ head_len_for id < two32.
Proof.
  intros Ha Hroom Hl Hn Hh. pose proof (append_off _ _ Ha Hroom). unfold wrap_u32. split; [apply Z.mod_small|]; lia.
Qed.

Lemma head_len_for_pos id : 0 <= zlength (bytes_of id) < two32 → 0 <= head_len_for id.
Proof.
  intros Hb. unfold head_len_for. rewrite varint_len_spec by (unfold in_u64, two64; unfold two32 in *; lia).
  pose proof (write_varint_len (zlength (bytes_of id))). change HEAD_ID_OFFSET with 48. lia.
Qed.

Lemma insert_raw_spec t m id digest rv body : represents t m → id_wf id → raw_wf (MkRawRow digest rv body) →
  arena_room (rt_arena t) (row_head id (MkRawRow digest rv body) (head_len_for id) ++ body) →
  let '(s, replaced, t') := RowTable.insert_raw id digest rv body t in
  replaced = bool_decide (is_Some (m !! id)) ∧ represents t' (<[id := MkRawRow digest rv body]> m) ∧ placed t t' s.
Proof.
  intros Hr Hid Hw Hroom. unfold RowTable.insert_raw. pose proof (zlength_nonneg (bytes_of id)). destruct Hid as [Hu Hl].
  pose proof (head_len_for_pos id ltac:(lia)) as Hpos. pose proof (rw_body _ Hw) as Hb. cbn [rr_body] in Hb.
  assert (wrap_u32 (zlength body) = zlength body) as -> by (unfold wrap_u32; apply Z.mod_small; lia).
  assert (∀ rel, 0 <= rel < two32 → zlength (row_head id (MkRawRow digest rv body) rel) = head_len_for id) as Hlen
    by (intros; by apply row_head_len).
  assert (∃ n, 0 <= n ∧ zlength (row_head id (MkRawRow digest rv body) (head_len_for id) ++ body) = head_len_for id + n) as (n & Hn & Hrec).
  { exists (zlength body). split; [lia|]. rewrite zlength_app. f_equal. unfold row_head, encode_head. autorewrite with zlen.
    specialize (Hlen 0 ltac:(unfold two32; lia)). unfold row_head, encode_head in Hlen. revert Hlen. by autorewrite with zlen. }
  pose proof (head_len_small t id _ n (rp_arena _ _ Hr) Hroom Hrec Hn Hpos) as [-> Hsmall].
  change (encode_head id digest rv (head_len_for id) (zlength body)) with (row_head id (MkRawRow digest rv body) (head_len_for id)).
  rewrite Hlen by lia. change (row_head id _ _ ++ body) with (row_head id (MkRawRow digest rv body) (head_len_for id) ++ rr_body (MkRawRow digest rv body)) in *.
  pose proof (append_place_spec t m id _ Hr (conj Hu Hl) Hw Hroom) as Hap.
  destruct (RowTable.append_record _ _ t) as [s t1]. by destruct (RowTable.place id s t1).
Qed.

(** ** Rows of values *)

(** The bytes of a row are those of a stored value, under any later dictionary. *)
Definition row_is (d : FieldDict) r (sr : StoredRow) : Prop :=
  rr_digest r = sr_digest sr ∧ rr_rv r = record_rv (sr_value sr) ∧ value_wf (sr_value sr) ∧ encodes d (sr_value sr) (rr_body r).

Lemma row_is_mono d d' r sr : dict_wf d → dict_wf d' → dict_le d d' → row_is d r sr → row_is d' r sr.
Proof. intros Hd Hd' Hle (? & ? & ? & He). split_and!; try done. exact (encodes_mono d d' _ _ Hd Hd' Hle He). Qed.

(** The table implements a map from ids to rows, as the row store keeps it. *)
Record refines t (rows : Rows) : Prop := {
  rf_dict : dict_wf (rt_dict t);
  rf_rows : ∃ m, represents t m ∧ ∀ id, option_Forall2 (row_is (rt_dict t)) (m !! id) (rows !! id);
}.

Lemma insert_spec t m id v digest : represents t m → dict_wf (rt_dict t) → id_wf id → value_wf v → acc_wf digest →
  let '(record, _, dict) := encode_record id v digest (rt_dict t) in
  arena_room (rt_arena t) record → FieldDict.len dict <= two32 →
  let '(s, t') := RowTable.insert id v digest t in
  ∃ r, row_is (rt_dict t') r (MkStoredRow v digest) ∧ represents t' (<[id := r]> m) ∧ placed (with_dict dict t) t' s ∧
    dict_wf (rt_dict t') ∧ dict_le (rt_dict t) (rt_dict t').
Proof.
  intros Hr Hd Hid Hv Hg. unfold RowTable.insert, encode_record.
  destruct (encode_value v (rt_dict t)) as [body dict] eqn:Ev. intros Hroom Hlen.
  destruct (encode_value_ok v Hv _ _ _ Ev Hd Hlen) as [Hd' He]. pose proof (encode_value_ext v (rt_dict t)) as Hx. rewrite Ev in Hx.
  set (r := MkRawRow digest (record_rv v) body).
  assert (represents (with_dict dict t) m) as Hr' by (destruct Hr; by split).
  pose proof (append_off _ _ (rp_arena _ _ Hr) Hroom) as [Ho1 Ho2]. rewrite zlength_app in Ho2.
  pose proof (zlength_nonneg (encode_head id digest (record_rv v) (head_len_for id) (zlength body))).
  pose proof (encodes_nonempty _ _ _ He).
  assert (raw_wf r) as Hw by (split; [done|exact (encoded_rv v Hv)|cbn; lia]).
  assert (zlength (encode_head id digest (record_rv v) (head_len_for id) (zlength body)) = head_len_for id) as Hl.
  { apply head_len_for_spec; [by destruct Hg as [Hg _]; unfold zlength; rewrite Hg|apply Hid]. }
  rewrite Hl. change (encode_head id digest (record_rv v) (head_len_for id) (zlength body)) with (row_head id r (head_len_for id)) in *.
  change (row_head id r (head_len_for id) ++ body) with (row_head id r (head_len_for id) ++ rr_body r) in *.
  pose proof (append_place_spec (with_dict dict t) m id r Hr' Hid Hw Hroom) as Hap.
  destruct (RowTable.append_record _ _ _) as [s t1]. destruct (RowTable.place id s t1) as [replaced t']. cbn [snd].
  destruct Hap as (_ & Hr2 & Hp). exists r. rewrite (pl_dict _ _ _ Hp). by split_and!.
Qed.

(** Room for the record of a value. *)
Definition value_room t id v digest : Prop :=
  let '(record, _, dict) := encode_record id v digest (rt_dict t) in arena_room (rt_arena t) record ∧ FieldDict.len dict <= two32.

Lemma refines_insert t rows id v digest : refines t rows → id_wf id → value_wf v → acc_wf digest → value_room t id v digest →
  refines (RowTable.insert id v digest t).2 (<[id := MkStoredRow v digest]> rows).
Proof.
  intros [Hd (m & Hr & Hm)] Hid Hv Hg Hroom. pose proof (insert_spec t m id v digest Hr Hd Hid Hv Hg) as Hi. unfold value_room in Hroom.
  destruct (encode_record id v digest (rt_dict t)) as [[record hl] dict]. specialize (Hi (proj1 Hroom) (proj2 Hroom)).
  destruct (RowTable.insert id v digest t) as [s t']. destruct Hi as (r & Hrow & Hr' & _ & Hd' & Hle). cbn [snd].
  split; [done|]. exists (<[id := r]> m). split; [done|]. intros id'. destruct (decide (id = id')) as [<-|Hne].
  - rewrite !lookup_insert_eq. by constructor.
  - rewrite !lookup_insert_ne by done. destruct (Hm id'); constructor. eapply row_is_mono; [exact Hd|exact Hd'|exact Hle|done].
Qed.

Lemma remove_rows id t : let t' := (RowTable.remove_slot id t).2 in
  rt_dict t' = rt_dict t ∧ rt_epoch t' = rt_epoch t ∧ rt_persisted t' = rt_persisted t ∧ rt_tombstones t' = rt_tombstones t ∧
  arena_end_cursor (rt_arena t') = arena_end_cursor (rt_arena t) ∧ ∀ s0, arena_get (rt_arena t') s0 = arena_get (rt_arena t) s0.
Proof.
  unfold RowTable.remove_slot. destruct (ht_remove _ _ _) as [[old index]|]; cbn [fst snd]; split_and!; try done.
  - by rewrite free_slot_cursor.
  - intros s0. by rewrite free_slot_get.
Qed.

Lemma remove_spec t m id : represents t m →
  (RowTable.remove id t).1 = bool_decide (is_Some (m !! id)) ∧ represents (RowTable.remove id t).2 (delete id m) ∧
  rt_dict (RowTable.remove id t).2 = rt_dict t.
Proof.
  intros Hr. unfold RowTable.remove. pose proof (remove_slot_spec t m id Hr) as [Hb Hr']. pose proof (remove_rows id t) as (Hd & _).
  destruct (RowTable.remove_slot id t) as [removed t']. cbn [fst snd] in *. subst removed.
  destruct (bool_decide_reflect (is_Some (m !! id))) as [Hs|Hs]; cbn [negb].
  - destruct (rt_persisted t'); [|done]. destruct (_ <? _); cbn [fst snd]; split_and!; try done; by destruct Hr'.
  - by split_and!.
Qed.
End table.

Section refinement.
Context `{IdHash} `{HashTableLaws} {A : Type} `{ArenaLaws A}.

Lemma represents_empty (epoch : Z) (a : A) d : arena_ok a → represents (RowTable.from_parts epoch d ht_new a) ∅.
Proof. intros Ha. split; [done|]. exists []. cbn. rewrite ht_new_items. split_and!; [constructor|constructor|done]. Qed.

Lemma refines_empty (epoch : Z) (a : A) : arena_ok a → refines (RowTable.over_arena epoch a) ∅.
Proof.
  intros Ha. split; [apply dict_new_wf|]. exists ∅. split; [by apply represents_empty|]. intros id. rewrite !lookup_empty. constructor.
Qed.

Lemma lifted_raw d r sr : row_is d r sr → raw_rv r = lifted_rv (sr_value sr).
Proof.
  intros (_ & E & _). unfold raw_rv. rewrite E. unfold record_rv, lifted_rv. destruct (Sp00kyValue.get (sr_value sr) "_00_rv") as [[]|]; done.
Qed.

(** C16: The row table implements the map from ids to rows the row
    store is written against, in whichever arena its bytes live and however
    ids collide: what it reads of a row (its value up to how it is stored, its
    digest, its version), which ids it has and how many; and inserting,
    replacing, removing and clearing leave tables that implement the changed
    map. *)
Theorem table_refines (t : RowTable A) (rows : Rows) (Hr : refines t rows) :
  (∀ id, ref_sim (rows_get rows id) (RowTable.get t id) ∧ RowTable.digest_of t id = rows_digest_of rows id ∧
    RowTable.rv_of t id = rows_rv_of rows id ∧ RowTable.contains_key t id = rows_contains rows id) ∧
  RowTable.len t = Z.of_nat (size rows) ∧
  (∀ id v digest, id_wf id → value_wf v → acc_wf digest → value_room t id v digest →
    refines (RowTable.insert id v digest t).2 (<[id := MkStoredRow v digest]> rows)) ∧
  (∀ id, (RowTable.remove id t).1 = rows_contains rows id ∧ refines (RowTable.remove id t).2 (delete id rows)) ∧
  (∀ epoch, refines (RowTable.clear epoch t) ∅).
Proof.
  pose proof Hr as [Hd (m & Hm & Hrows)]. split_and!.
  - intros id. unfold rows_get, rows_digest_of, rows_rv_of, rows_contains.
    rewrite (digest_of_spec _ _ _ Hm), (rv_of_spec _ _ _ Hm), (contains_key_spec _ _ _ Hm).
    specialize (Hrows id). destruct (m !! id) as [r|] eqn:E, (rows !! id) as [sr|] eqn:E'; inversion Hrows as [? ? Hrow|]; subst.
    + rewrite (get_present _ _ _ _ Hm E). cbn. split_and!; [|f_equal; apply Hrow|by eapply lifted_raw|done].
      destruct Hrow as (_ & _ & Hv & He). rewrite <- (app_nil_r (rr_body r)). apply flat_value_sim; try done.
      destruct Hm as [_ (ents & Hf & Hn & ->)]. apply ents_lookup in E; [|done].
      destruct (Forall2_elem_r _ _ _ _ Hf E) as (it & _ & _ & [_ [_ _ Hb] _ _] & _). cbn in Hb. lia.
    + rewrite (get_absent _ _ _ Hm E). cbn. split_and!; [constructor|done|done|done].
  - rewrite (len_spec _ _ Hm). f_equal. rewrite <- !(size_dom (D:=gset string)). f_equal. apply set_eq. intros id. rewrite !elem_of_dom.
    specialize (Hrows id). inversion Hrows; split; intros []; done.
  - intros. by apply refines_insert.
  - intros id. destruct (remove_spec t m id Hm) as (-> & Hm' & Hd'). split.
    + unfold rows_contains. specialize (Hrows id). inversion Hrows; [by apply bool_decide_eq_true_2|]. apply bool_decide_eq_false_2. by intros [].
    + split; [by rewrite Hd'|]. exists (delete id m). split; [done|]. intros id'. rewrite Hd'. destruct (decide (id = id')) as [<-|Hne].
      * rewrite !lookup_delete_eq. constructor.
      * by rewrite !lookup_delete_ne.
  - intros epoch. unfold RowTable.clear. apply (refines_empty epoch (arena_clear (rt_arena t))). apply clear_ok. by destruct Hm.
Qed.
End refinement.

(** ** A hash table that is a list *)

Fixpoint list_find {A} (h : Z) (p : A → bool) (l : list (Z * A)) : option A :=
  match l with [] => None | (h', a) :: l => if (h' =? h) && p a then Some a else list_find h p l end.

Fixpoint list_replace {A} (h : Z) (p : A → bool) (b : A) (l : list (Z * A)) : option (A * list (Z * A)) :=
  match l with
  | [] => None
  | (h', a) :: l => if (h' =? h) && p a then Some (a, (h', b) :: l) else let? (x, l) := list_replace h p b l in Some (x, (h', a) :: l)
  end.

Fixpoint list_remove_hash {A} (h : Z) (p : A → bool) (l : list (Z * A)) : option (A * list (Z * A)) :=
  match l with
  | [] => None
  | (h', a) :: l => if (h' =? h) && p a then Some (a, l) else let? (x, l) := list_remove_hash h p l in Some (x, (h', a) :: l)
  end.

#[export] Instance list_hash_table : HashTable := {|
  htable := λ A, list (Z * A);
  ht_new := λ A, [];
  ht_items := λ A l, l;
  ht_find := λ A, list_find;
  ht_replace := λ A, list_replace;
  ht_insert_unique := λ A h a _ l, (h, a) :: l;
  ht_remove := λ A, list_remove_hash;
|}.

#[export] Instance list_hash_table_laws : HashTableLaws.
Proof.
  split; cbn [ht_new ht_items ht_find ht_replace ht_insert_unique ht_remove list_hash_table]; intros A.
  - done.
  - intros h p l a. induction l as [|[h' x] l IH]; [done|]. cbn. destruct ((h' =? h) && p x) eqn:E.
    + intros [= ->]. apply andb_true_iff in E as [_ E]. split; [done|]. exists h'. by left.
    + intros Hl. destruct (IH Hl) as [? (h2 & ?)]. split; [done|]. exists h2. by right.
  - intros h p l a. induction l as [|[h' x] l IH]; [intros _ Hin; by apply elem_of_nil in Hin|]. cbn. destruct ((h' =? h) && p x) eqn:E; [done|].
    intros Hl [Hx|Hin]%elem_of_cons; [|by apply IH]. injection Hx as <- <-. by rewrite Z.eqb_refl in E.
  - intros h p b l. induction l as [|[h' x] l IH]; [done|]. intros a l'. cbn. destruct ((h' =? h) && p x) eqn:E.
    + intros [= <- <-]. apply andb_true_iff in E as [_ E]. split; [done|]. by exists h', [], l.
    + destruct (list_replace h p b l) as [[y k]|] eqn:El; [|done]. intros [= -> <-].
      destruct (IH _ _ eq_refl) as [? (h2 & l1 & l2 & -> & ->)]. split; [done|]. by exists h2, ((h', x) :: l1), l2.
  - intros h p b l a. induction l as [|[h' x] l IH]; [intros _ Hin; by apply elem_of_nil in Hin|]. cbn. destruct ((h' =? h) && p x) eqn:E; [done|].
    destruct (list_replace h p b l) as [[y k]|]; [done|]. intros _ [Hx|Hin]%elem_of_cons; [|by apply IH]. injection Hx as <- <-. by rewrite Z.eqb_refl in E.
  - done.
  - intros h p l. induction l as [|[h' x] l IH]; [done|]. intros a l'. cbn. destruct ((h' =? h) && p x) eqn:E.
    + intros [= <- <-]. apply andb_true_iff in E as [_ E]. split; [done|]. by exists h'.
    + destruct (list_remove_hash h p l) as [[y k]|] eqn:El; [|done]. intros [= -> <-].
      destruct (IH _ _ eq_refl) as [? (h2 & Hp)]. split; [done|]. exists h2. rewrite Hp. apply Permutation_swap.
  - intros h p l a. induction l as [|[h' x] l IH]; [intros _ Hin; by apply elem_of_nil in Hin|]. cbn. destruct ((h' =? h) && p x) eqn:E; [done|].
    destruct (list_remove_hash h p l) as [[y k]|]; [done|]. intros _ [Hx|Hin]%elem_of_cons; [|by apply IH]. injection Hx as <- <-. by rewrite Z.eqb_refl in E.
Qed.

(** Every id in one bucket. *)
Definition one_bucket : IdHash := λ _, 0.

Section sample.
#[local] Existing Instance one_bucket.

Definition titled (title : string) : Sp00kyValue := Object [("title", Str title); ("_00_rv", Int 3)].

Definition sample_table : RowTable HeapArena :=
  (RowTable.insert "b" (titled "two") (blake3 [2]) (RowTable.insert "a" (titled "one") (blake3 [1]) (RowTable.new 7)).2).2.

Lemma titled_wf title : utf8_valid (bytes_of title) = true → zlength (bytes_of title) < two32 → value_wf (titled title).
Proof.
  intros Hu Hl. constructor.
  - apply (bool_decide_unpack (NoDup _)). vm_compute. exact I.
  - repeat constructor; try done.
Qed.

Lemma sample_table_refines : refines sample_table (<["b" := MkStoredRow (titled "two") (blake3 [2])]>
  (<["a" := MkStoredRow (titled "one") (blake3 [1])]> ∅)).
Proof.
  assert (∀ bs, acc_wf (blake3 bs)) as Hb by (intros; apply blake3_acc_wf).
  apply refines_insert; [apply refines_insert; [apply refines_empty, heap_new_ok|..]|..];
    try (split; vm_compute; reflexivity); try apply Hb; try (apply titled_wf; vm_compute; reflexivity).
  - split; [split|]; vm_compute; [reflexivity|discriminate|discriminate].
  - split; [split|]; vm_compute; [reflexivity|discriminate|discriminate].
Qed.

Lemma table_refines_witness :
  RowTable.rv_of sample_table "a" = Some 3 ∧ RowTable.contains_key sample_table "c" = false ∧
  ValueRef.get (RowTable.get sample_table "b") "title" = RStr "two" ∧
  (RowTable.remove "a" sample_table).1 = true ∧ RowTable.contains_key (RowTable.remove "a" sample_table).2 "b" = true ∧
  refines (RowTable.remove "a" sample_table).2 (delete "a" (<["b" := MkStoredRow (titled "two") (blake3 [2])]>
    (<["a" := MkStoredRow (titled "one") (blake3 [1])]> ∅))).
Proof.
  split; [vm_compute; reflexivity|]. split; [vm_compute; reflexivity|]. split; [vm_compute; reflexivity|].
  split; [vm_compute; reflexivity|]. split; [vm_compute; reflexivity|].
  destruct (table_refines _ _ sample_table_refines) as (_ & _ & _ & Hrem & _). apply Hrem.
Defined.
End sample.
