(* ===== verification/RowTableDelta.v ===== *)
(** * What changed since the last checkpoint

    A table keeps a watermark, the end of its arena when the last checkpoint
    was taken, and the ids removed since. Proves that the rows past the
    watermark and the ids removed are exactly what turns the rows of that
    checkpoint into the present ones; and shows a removal that is missed. *)

From S2P Require Import Prelude Platform Value RowCodec RowCodecSpec ValueRef SnapshotHash Store StoreFacts Arena.
From S2P Require Import RowTable RowTableFacts.
Local Open Scope Z_scope.

(** ** The records of a table *)

(** A record as a checkpoint copies it. *)
Definition record_is (e : string * RawRow) (rec : list Z * list Z) : Prop :=
  id_wf e.1 ∧ raw_wf e.2 ∧ ∃ rel, 0 <= rel < two32 ∧ rec.1 = row_head e.1 e.2 rel ∧ rec.2 = rr_body e.2.

(** A checkpoint's entries, applied in order: a row, or a removal. *)
Definition apply_entry (m : gmap string RawRow) (e : string * option RawRow) : gmap string RawRow :=
  match e.2 with Some r => <[e.1 := r]> m | None => delete e.1 m end.
Definition apply_entries (m : gmap string RawRow) (l : list (string * option RawRow)) : gmap string RawRow := foldl apply_entry m l.

Definition upserts (l : list (string * RawRow)) : list (string * option RawRow) := map (λ e, (e.1, Some e.2)) l.
Definition removals (l : list string) : list (string * option RawRow) := map (λ id, (id, None)) l.

Lemma Forall2_elem_zip {A B} (P : A → B → Prop) l k y : Forall2 P l k → y ∈ k → ∃ x, (x, y) ∈ zip l k ∧ x ∈ l ∧ P x y.
Proof.
  induction 1 as [|x y' l k Hp Hf IH]; [intros Hn; by apply elem_of_nil in Hn|]. intros [->|Hin]%elem_of_cons.
  - exists x. split_and!; [by left|by left|done].
  - destruct (IH Hin) as (x' & ? & ? & ?). exists x'. split_and!; [by right|by right|done].
Qed.

Section delta.
Context `{IdHash} `{HashTableLaws} {A : Type} `{ArenaLaws A}.
Implicit Types (a : A) (t : RowTable A) (m base : gmap string RawRow) (id : string) (r : RawRow).

Lemma record_of_slot t s e : stored (rt_arena t) s e.1 e.2 → ∃ rec, RowTable.record_of t s = Some rec ∧ record_is e rec.
Proof.
  intros Hs. destruct (stored_body_of _ _ _ _ Hs) as (span & Hspan & Hb). destruct Hs as [Hid Hr _ (rel & Hrel & _ & Hh & _)].
  unfold RowTable.record_of, RowTable.head_at. rewrite Hspan, Hb, Hh.
  rewrite bool_decide_eq_false_2 by (by apply row_head_nonempty). eexists. split; [done|]. split_and!; [done|done|]. by exists rel.
Qed.

(** The entries of the slots that pass a test, with their records. *)
Lemma records_where t (p : Span → bool) items ents : Forall2 (slot_of (rt_arena t)) items ents →
  ∃ ups, Forall2 record_is ups (omap (λ s, if p s then None else RowTable.record_of t s) items.*2) ∧ ups `sublist_of` ents ∧
    ∀ it e, (it, e) ∈ zip items ents → p it.2 = false → e ∈ ups.
Proof.
  induction 1 as [|it e items ents (Hh & Hs & Hc) _ (ups & Hf & Hsub & Hin)].
  - exists []. split_and!; [constructor|done|]. intros it e Hin. by apply elem_of_nil in Hin.
  - destruct (record_of_slot _ _ _ Hs) as (rec & Hrec & His). cbn. destruct (p it.2) eqn:Ep.
    + exists ups. split_and!; [done|by apply sublist_cons|]. intros it' e' [[= -> ->]|Hz]%elem_of_cons Hp; [congruence|by eapply Hin].
    + rewrite Hrec. exists (e :: ups). split_and!; [by constructor|by apply sublist_skip|].
      intros it' e' [[= -> ->]|Hz]%elem_of_cons Hp; [by left|right; by eapply Hin].
Qed.

Lemma stored_functional a s id r id' r' : stored a s id r → stored a s id' r' → id = id' ∧ r = r'.
Proof.
  intros Hs Hs'. pose proof (stored_slot_id _ _ _ _ Hs) as Hid. rewrite (stored_slot_id _ _ _ _ Hs') in Hid. injection Hid as ->. split; [done|].
  destruct (stored_body_of _ _ _ _ Hs) as (span & Hspan & Hb). destruct (stored_body_of _ _ _ _ Hs') as (span' & Hspan' & Hb').
  assert (span' = span) as -> by congruence.
  destruct Hs as [Hid Hr _ (rel & Hrel & _ & Hh & _)], Hs' as [_ Hr' _ (rel' & Hrel' & _ & Hh' & _)]. rewrite Hh in Hh'.
  pose proof (row_head_digest id r rel Hr []) as D. pose proof (row_head_digest id r' rel' Hr' []) as D'.
  assert (head_rv_raw (row_head id r rel ++ []) = Some (rr_rv r)) as V by (apply head_rv_raw_encode; [by apply digest_length|by destruct Hr]).
  assert (head_rv_raw (row_head id r' rel' ++ []) = Some (rr_rv r')) as V' by (apply head_rv_raw_encode; [by apply digest_length|by destruct Hr']).
  rewrite Hh' in D, V. destruct r, r'. cbn in *. congruence.
Qed.

Lemma slot_row t m h s id r : represents t m → (h, s) ∈ ht_items (rt_index t) → stored (rt_arena t) s id r → m !! id = Some r.
Proof.
  intros [_ (ents & Hf & Hn & ->)] Hin Hs. destruct (Forall2_elem_l _ _ _ _ Hf Hin) as ([id' r'] & He & _ & Hs' & _). cbn in Hs'.
  destruct (stored_functional _ _ _ _ _ _ Hs Hs') as [-> ->]. by apply ents_lookup.
Qed.

(** ** The watermark *)

(** The rows below [cur] are those of [base], and the rows of [base] that are
    gone are among [tombs]. *)
Record tracked (cur : Cursor) (tombs : list string) base t m : Prop := {
  tk_rep : represents t m;
  tk_cur : cursor_le cur (arena_end_cursor (rt_arena t)) = true;
  tk_old : ∀ h s id r, (h, s) ∈ ht_items (rt_index t) → stored (rt_arena t) s id r → cursor_lt (Span_start s) cur = true → base !! id = Some r;
  tk_gone : ∀ id, is_Some (base !! id) → m !! id = None → id ∈ tombs;
  tk_ids : Forall id_wf tombs;
}.

Lemma represents_id t m id : represents t m → is_Some (m !! id) → id_wf id.
Proof.
  intros [_ (ents & Hf & Hn & ->)] [r E]. apply ents_lookup in E; [|done]. destruct (Forall2_elem_r _ _ _ _ Hf E) as (it & _ & _ & [Hid _ _ _] & _). exact Hid.
Qed.

(** The table's own watermark is that of a checkpoint of [base]. *)
Definition watermark base t m : Prop := ∃ cur, rt_persisted t = Some cur ∧ tracked cur (rt_tombstones t) base t m.

Lemma tracked_here t m : represents t m → tracked (arena_end_cursor (rt_arena t)) [] m t m.
Proof.
  intros Hr. split; [done|apply cursor_le_refl| | |constructor].
  - intros h s id r Hin Hs _. by eapply slot_row.
  - intros id [r E] E'. congruence.
Qed.

Lemma tracked_placed cur tombs base t t' m s id r : tracked cur tombs base t m → represents t' (<[id := r]> m) → placed t t' s →
  tracked cur tombs base t' (<[id := r]> m).
Proof.
  intros [Hrep Hcur Hold Hgone Hids] Hrep' [_ _ _ _ Hpast Hend Hitems Hget]. split; [done|by eapply cursor_le_trans| | |done].
  - intros h s' id' r' Hin Hs' Hlt. destruct (Hitems h s' Hin) as [->|Hin'].
    + exfalso. rewrite cursor_le_not_lt in Hlt; [done|]. by eapply cursor_le_trans.
    + destruct Hrep as [_ (ents & Hf & _)]. destruct (Forall2_elem_l _ _ _ _ Hf Hin') as ([id2 r2] & _ & _ & Hs2 & _). cbn in Hs2.
      assert (stored (rt_arena t') s' id2 r2) as Hs2' by (by eapply stored_kept).
      destruct (stored_functional _ _ _ _ _ _ Hs' Hs2') as [-> ->]. by eapply Hold.
  - intros id' Hb Hm. apply Hgone; [done|]. by apply lookup_insert_None in Hm as [Hm _].
Qed.

Lemma remove_slot_items id t h s : (h, s) ∈ ht_items (rt_index (RowTable.remove_slot id t).2) → (h, s) ∈ ht_items (rt_index t).
Proof.
  unfold RowTable.remove_slot. destruct (ht_remove _ _ _) as [[old index]|] eqn:E; [|done]. cbn [fst snd RowTable.free_slot with_arena with_index rt_index].
  apply ht_remove_Some in E as [_ (h' & Hp)]. intros Hin. rewrite Hp. by right.
Qed.

Lemma tracked_removed cur tombs base t m id : tracked cur tombs base t m →
  tracked cur (if bool_decide (is_Some (m !! id)) then tombs ++ [id] else tombs) base (RowTable.remove_slot id t).2 (delete id m).
Proof.
  intros [Hrep Hcur Hold Hgone Hids]. pose proof (remove_slot_spec t m id Hrep) as [_ Hrep'].
  pose proof (remove_rows id t) as (_ & _ & _ & _ & Hend & Hget). split; [done|by rewrite Hend| | |].
  - intros h s id' r' Hin Hs Hlt. apply remove_slot_items in Hin. apply (Hold h s); [done| |done].
    eapply stored_kept; [exact Hs|]. intros s0 _. by rewrite Hget.
  - intros id' Hb Hm. destruct (decide (id = id')) as [<-|Hne].
    + destruct (bool_decide_reflect (is_Some (m !! id))) as [_|Hn]; [apply elem_of_app; right; by left|].
      apply Hgone; [done|]. by apply eq_None_not_Some.
    + rewrite lookup_delete_ne in Hm by done. specialize (Hgone id' Hb Hm). case_bool_decide; [apply elem_of_app; by left|done].
  - case_bool_decide as Hs; [|done]. apply Forall_app. split; [done|]. constructor; [exact (represents_id t m id Hrep Hs)|constructor].
Qed.

(** ** What a delta holds *)

Lemma apply_upserts (ups : list (string * RawRow)) base id : NoDup ups.*1 →
  apply_entries base (upserts ups) !! id = match (list_to_map ups : gmap string RawRow) !! id with Some r => Some r | None => base !! id end.
Proof.
  unfold apply_entries. revert base. induction ups as [|[k r] ups IH]; intros base; cbn; [by rewrite lookup_empty|].
  intros [Hk Hn]%NoDup_cons. rewrite IH by done. unfold apply_entry. cbn. destruct (decide (k = id)) as [->|Hne].
  - rewrite (not_elem_of_list_to_map_1 ups id Hk), !lookup_insert_eq. done.
  - by rewrite !lookup_insert_ne.
Qed.

Lemma apply_removals (l : list string) m id :
  apply_entries m (removals l) !! id = if bool_decide (id ∈ l) then None else m !! id.
Proof.
  unfold apply_entries. revert m. induction l as [|k l IH]; intros m; [done|]. cbn. rewrite IH. unfold apply_entry. cbn.
  destruct (decide (k = id)) as [->|Hne].
  - rewrite lookup_delete_eq. rewrite (bool_decide_eq_true_2 (id ∈ id :: l)) by left. by case_bool_decide.
  - rewrite lookup_delete_ne by done. case_bool_decide as Hin.
    + by rewrite bool_decide_eq_true_2 by by right.
    + rewrite bool_decide_eq_false_2; [done|]. by intros [?|?]%elem_of_cons.
Qed.

Lemma elem_of_firsts seen l id : id ∈ RowTable.firsts seen l ↔ id ∈ l ∧ id ∉ seen.
Proof.
  revert seen. induction l as [|k l IH]; intros seen; cbn.
  - split; [intros Hn; by apply elem_of_nil in Hn|intros [Hn _]; by apply elem_of_nil in Hn].
  - case_bool_decide as Hk; rewrite ?elem_of_cons, IH; [|rewrite elem_of_cons].
    + split; [intros []; auto|]. intros [[->|?] ?]; [done|auto].
    + destruct (decide (id = k)) as [->|]; [split; auto|]. split; [intros [?|[? Hno]]; [done|]|intros [[?|?] ?]; [done|right]]; split; auto.
      intros [?|?]; auto.
Qed.

Lemma elem_of_pending t m id : represents t m → id ∈ RowTable.tombstones_pending t ↔ id ∈ rt_tombstones t ∧ m !! id = None.
Proof.
  intros Hr. unfold RowTable.tombstones_pending. rewrite list_elem_of_In, filter_In, <- list_elem_of_In, elem_of_firsts.
  rewrite (contains_key_spec _ _ _ Hr), negb_true_iff, bool_decide_eq_false, <- eq_None_not_Some.
  split; [intros [[? _] ?]; done|]. intros [? ?]. split_and!; [done| |done]. by intros Hn%elem_of_nil.
Qed.

(** The rows past the watermark, and the removals. *)
Lemma delta_exact t m base : watermark base t m → ∃ ups, Forall2 record_is ups (RowTable.records_since_persisted t) ∧ NoDup ups.*1 ∧
  apply_entries base (upserts ups ++ removals (RowTable.tombstones_pending t)) = m.
Proof.
  intros (cur & Hp & [Hrep _ Hold Hgone _]). pose proof Hrep as [Ha (ents & Hf & Hn & Hm)].
  destruct (records_where t (λ s, cursor_lt (Span_start s) cur) _ _ Hf) as (ups & Hups & Hsub & Hin).
  assert (NoDup ups.*1) as Hnd by (eapply sublist_NoDup; [exact Hn|]; by apply fmap_sublist).
  exists ups. split_and!; [|done|].
  - unfold RowTable.records_since_persisted, RowTable.items. by rewrite Hp.
  - apply map_eq. intros id. unfold apply_entries. rewrite foldl_app. fold (apply_entries base (upserts ups)).
    fold (apply_entries (apply_entries base (upserts ups)) (removals (RowTable.tombstones_pending t))).
    rewrite apply_removals, apply_upserts by done.
    assert (∀ r, (list_to_map ups : gmap string RawRow) !! id = Some r → m !! id = Some r) as Hu.
    { intros r Hr. apply (ents_lookup ups) in Hr; [|done]. subst m. apply ents_lookup; [done|]. by eapply elem_of_sublist. }
    destruct (m !! id) as [r|] eqn:Em.
    + rewrite bool_decide_eq_false_2 by (rewrite elem_of_pending by done; rewrite Em; by intros []).
      destruct (list_to_map ups !! id) as [r'|] eqn:El; [specialize (Hu _ eq_refl); congruence|].
      assert ((id, r) ∈ ents) as He by (apply ents_lookup; [done|]; by rewrite <- Hm).
      destruct (Forall2_elem_zip _ _ _ _ Hf He) as ([h s] & Hz & Hit & _ & Hst & _). cbn in *.
      destruct (cursor_lt (Span_start s) cur) eqn:Ec; [by eapply Hold|].
      specialize (Hin _ _ Hz Ec). apply (ents_lookup ups) in Hin; [|done]. congruence.
    + destruct (list_to_map ups !! id) as [r'|] eqn:El; [by specialize (Hu _ eq_refl)|].
      destruct (base !! id) as [r|] eqn:Eb; [|by case_bool_decide].
      rewrite bool_decide_eq_true_2; [done|]. apply (elem_of_pending t m); [done|]. split; [apply Hgone; by rewrite ?Eb|done].
Qed.

(** ** Writes between checkpoints *)

(** One write, with what the table stands for before and after. *)
Inductive write : RowTable A * gmap string RawRow → RowTable A * gmap string RawRow → Prop :=
  | write_value t m t' s id v digest r : dict_wf (rt_dict t) → id_wf id → value_wf v → acc_wf digest → value_room t id v digest →
      RowTable.insert id v digest t = (s, t') → row_is (rt_dict t') r (MkStoredRow v digest) → represents t' (<[id := r]> m) →
      write (t, m) (t', <[id := r]> m)
  | write_raw t m id r : id_wf id → raw_wf r → arena_room (rt_arena t) (row_head id r (head_len_for id) ++ rr_body r) →
      write (t, m) ((RowTable.insert_raw id (rr_digest r) (rr_rv r) (rr_body r) t).2, <[id := r]> m)
  | write_remove t m id : write (t, m) ((RowTable.remove id t).2, delete id m).

(** Inserting a value is such a write. *)
Lemma insert_writes t m id v digest : represents t m → dict_wf (rt_dict t) → id_wf id → value_wf v → acc_wf digest → value_room t id v digest →
  ∃ r, write (t, m) ((RowTable.insert id v digest t).2, <[id := r]> m).
Proof.
  intros Hr Hd Hid Hv Hg Hroom. pose proof (insert_spec t m id v digest Hr Hd Hid Hv Hg) as Hi. pose proof Hroom as Hroom'. unfold value_room in Hroom'.
  destruct (encode_record id v digest (rt_dict t)) as [[record hl] dict]. specialize (Hi (proj1 Hroom') (proj2 Hroom')).
  destruct (RowTable.insert id v digest t) as [s t'] eqn:E. destruct Hi as (r & Hrow & Hr' & _). exists r. cbn [snd]. by eapply write_value.
Qed.

Lemma insert_placed t m id v digest s t' : represents t m → dict_wf (rt_dict t) → id_wf id → value_wf v → acc_wf digest → value_room t id v digest →
  RowTable.insert id v digest t = (s, t') → ∃ d, placed (with_dict d t) t' s.
Proof.
  intros Hr Hd Hid Hv Hg Hroom E. pose proof (insert_spec t m id v digest Hr Hd Hid Hv Hg) as Hi. unfold value_room in Hroom.
  destruct (encode_record id v digest (rt_dict t)) as [[record hl] dict]. specialize (Hi (proj1 Hroom) (proj2 Hroom)). rewrite E in Hi.
  destruct Hi as (r & _ & _ & Hp & _). by exists dict.
Qed.

Lemma tracked_dict cur tombs base t m d : tracked cur tombs base t m → tracked cur tombs base (with_dict d t) m.
Proof. intros [Hrep Hcur Hold Hgone Hids]. split; [|done|done|done|done]. by destruct Hrep. Qed.

Lemma remove_cases id t : (RowTable.remove id t).2 = (RowTable.remove_slot id t).2 ∨
  (∃ p l, (RowTable.remove id t).2 = with_marks p l (RowTable.remove_slot id t).2).
Proof.
  unfold RowTable.remove. destruct (RowTable.remove_slot id t) as [[] t']; cbn [negb fst snd].
  - destruct (rt_persisted t') as [c|]; [|by left]. right. destruct (_ <? _); by do 2 eexists.
  - unfold RowTable.remove_slot in *. by left.
Qed.

Lemma tracked_marks cur tombs base t m p l : tracked cur tombs base t m → tracked cur tombs base (with_marks p l t) m.
Proof. intros [Hrep Hcur Hold Hgone Hids]. split; [|done|done|done|done]. by destruct Hrep. Qed.

(** The tombstones a removal adds, while the watermark stays. *)
Lemma remove_tombs t m id : represents t m → rt_persisted (RowTable.remove id t).2 ≠ None →
  rt_persisted (RowTable.remove id t).2 = rt_persisted t ∧
  rt_tombstones (RowTable.remove id t).2 = rt_tombstones t ++ (if bool_decide (is_Some (m !! id)) then [id] else []) ∧
  rt_epoch (RowTable.remove id t).2 = rt_epoch t.
Proof.
  intros Hr. unfold RowTable.remove. pose proof (remove_slot_spec t m id Hr) as [Hb _].
  pose proof (remove_rows id t) as (_ & He & Hp & Ht & _). destruct (RowTable.remove_slot id t) as [removed t']. cbn [fst snd] in *. subst removed.
  destruct (bool_decide (is_Some (m !! id))); cbn [negb fst snd]; [|intros _; by rewrite app_nil_r].
  destruct (rt_persisted t') as [c|] eqn:Ep; [|done]. destruct (_ <? _); cbn [snd with_marks rt_persisted rt_tombstones rt_epoch]; [done|]. intros _.
  by rewrite Ht.
Qed.

(** A write keeps the books, as long as the table keeps its watermark. *)
Lemma tracked_write cur tombs base t m t' m' : tracked cur tombs base t m → write (t, m) (t', m') →
  rt_persisted t' ≠ None → rt_persisted t' = rt_persisted t ∧ rt_epoch t' = rt_epoch t ∧
  ∃ more, rt_tombstones t' = rt_tombstones t ++ more ∧ tracked cur (tombs ++ more) base t' m'.
Proof.
  intros Ht Hw. pose proof (tk_rep _ _ _ _ _ Ht) as Hr. inversion Hw; subst.
  - destruct (insert_placed t m id v digest s t') as (d & Hp); try done. intros _.
    split_and!; [apply (pl_persisted _ _ _ Hp)|apply (pl_epoch _ _ _ Hp)|]. exists []. rewrite !app_nil_r. split; [apply (pl_tombstones _ _ _ Hp)|].
    eapply (tracked_placed _ _ _ (with_dict d t)); [by apply tracked_dict|done|exact Hp].
  - pose proof (insert_raw_spec t m id (rr_digest r) (rr_rv r) (rr_body r) Hr) as Hi. destruct r as [dg rv b]. cbn [rr_digest rr_rv rr_body] in *.
    specialize (Hi ltac:(done) ltac:(done) ltac:(done)). destruct (RowTable.insert_raw id dg rv b t) as [[s rep] t']. destruct Hi as (_ & Hr' & Hp). cbn [snd].
    intros _. split_and!; [apply Hp|apply Hp|]. exists []. rewrite !app_nil_r. split; [apply Hp|]. by eapply tracked_placed.
  - intros Hp. destruct (remove_tombs t m id Hr Hp) as (-> & Htt & ->). split_and!; [done|done|]. eexists. split; [exact Htt|].
    assert (tracked cur (tombs ++ (if bool_decide (is_Some (m !! id)) then [id] else [])) base (RowTable.remove_slot id t).2 (delete id m)) as Hk.
    { pose proof (tracked_removed cur tombs base t m id Ht) as Hk. case_bool_decide; by rewrite ?app_nil_r. }
    destruct (remove_cases id t) as [->|(p & l & ->)]; [done|by apply tracked_marks].
Qed.

Lemma persisted_write t m t' m' : represents t m → write (t, m) (t', m') → rt_persisted t = None → rt_persisted t' = None.
Proof.
  intros Hr Hw E. destruct (rt_persisted t') as [c|] eqn:E'; [|done]. exfalso.
  destruct (tracked_write _ _ _ _ _ _ _ (tracked_here _ _ Hr) Hw) as (Hp & _); congruence.
Qed.

Lemma write_represents t m t' m' : represents t m → write (t, m) (t', m') → represents t' m'.
Proof.
  intros Hr Hw. inversion Hw; subst; [done| |by apply remove_spec].
  destruct r as [dg rv b]. pose proof (insert_raw_spec t m id dg rv b Hr) as Hi. cbn [rr_digest rr_rv rr_body] in *.
  specialize (Hi ltac:(done) ltac:(done) ltac:(done)). destruct (RowTable.insert_raw id dg rv b t) as [[s rep] t']. apply Hi.
Qed.

Definition writes := rtc write.

Lemma writes_represents x y : writes x y → represents x.1 x.2 → represents y.1 y.2.
Proof. induction 1 as [|[t m] [t' m'] z Hw _ IH]; [done|]. intros Hr. apply IH. by eapply write_represents. Qed.

Lemma writes_persisted x y : writes x y → represents x.1 x.2 → rt_persisted x.1 = None → rt_persisted y.1 = None.
Proof.
  induction 1 as [|[t m] [t' m'] z Hw _ IH]; [done|]. intros Hr E. apply IH; [by eapply write_represents|by eapply persisted_write].
Qed.

Lemma tracked_writes cur base x y : writes x y → ∀ tombs, tracked cur tombs base x.1 x.2 → rt_persisted y.1 ≠ None →
  rt_persisted y.1 = rt_persisted x.1 ∧ rt_epoch y.1 = rt_epoch x.1 ∧
  ∃ more, rt_tombstones y.1 = rt_tombstones x.1 ++ more ∧ tracked cur (tombs ++ more) base y.1 y.2.
Proof.
  induction 1 as [x|[t m] [t' m'] z Hw Hws IH]; intros tombs Ht Hp.
  - split_and!; [done|done|]. exists []. by rewrite !app_nil_r.
  - cbn [fst snd] in *. pose proof (tk_rep _ _ _ _ _ Ht) as Hr.
    assert (rt_persisted t' ≠ None) as Hp'.
    { intros E. apply Hp. eapply (writes_persisted _ _ Hws); [by eapply write_represents|done]. }
    destruct (tracked_write _ _ _ _ _ _ _ Ht Hw Hp') as (E1 & E2 & more & Em & Ht').
    destruct (IH _ Ht' Hp) as (E3 & E4 & more' & Em' & Ht''). split_and!; [congruence|congruence|].
    exists (more ++ more'). rewrite !app_assoc. split; [congruence|done].
Qed.

Lemma watermark_writes base t m t' m' : watermark base t m → writes (t, m) (t', m') → rt_persisted t' ≠ None → watermark base t' m'.
Proof.
  intros (cur & Hp & Ht) Hw Hp'. destruct (tracked_writes cur base _ _ Hw _ Ht Hp') as (E & _ & more & Em & Ht'). cbn in E, Em, Ht'.
  exists cur. split; [congruence|]. by rewrite Em.
Qed.

(** A checkpoint of the table as it was, marked once its file is in place. *)
Lemma mark_watermark t m t' m' : represents t m → writes (t, m) (t', m') → (t', m') = (t, m) ∨ rt_persisted t' ≠ None →
  let '(marked, t2) := RowTable.mark_persisted (RowTable.checkpoint_mark t) t' in marked = true ∧ watermark m t2 m' ∧ rt_persisted t2 ≠ None.
Proof.
  intros Hr Hw Hp. unfold RowTable.mark_persisted, RowTable.checkpoint_mark. cbn [cm_epoch cm_cursor cm_tombstones].
  assert (rt_epoch t' = rt_epoch t ∧ ∃ more, rt_tombstones t' = rt_tombstones t ++ more ∧ tracked (arena_end_cursor (rt_arena t)) more m t' m') as (He & more & Em & Ht).
  { destruct Hp as [[= -> ->]|Hp].
    - split; [done|]. exists []. rewrite app_nil_r. split; [done|by apply tracked_here].
    - destruct (tracked_writes _ _ _ _ Hw _ (tracked_here _ _ Hr) Hp) as (_ & He & more & Em & Ht). split; [done|]. by exists more. }
  rewrite He, Z.eqb_refl. cbn [negb]. split_and!; [done| |done]. eexists. split; [done|]. apply tracked_marks. cbn [with_marks rt_tombstones].
  rewrite Em, length_app, Nat.min_l by lia. by rewrite drop_app_length.
Qed.

(** C17: Once the checkpoint of a table is marked as being in
    place, with any writes in between (as long as they left the table a
    watermark) and any writes after, what the next delta would hold, the rows
    past the watermark and the ids removed, is exactly what turns the rows of
    that checkpoint into the present ones. *)
Theorem watermark_exact (t t1 : RowTable A) (m m1 : gmap string RawRow) (Hr : represents t m) (Hw : writes (t, m) (t1, m1))
  (Hkept : (t1, m1) = (t, m) ∨ rt_persisted t1 ≠ None) :
  let '(marked, t') := RowTable.mark_persisted (RowTable.checkpoint_mark t) t1 in
  marked = true ∧
  ∀ t2 m2, writes (t', m1) (t2, m2) → rt_persisted t2 ≠ None →
    ∃ ups, Forall2 record_is ups (RowTable.records_since_persisted t2) ∧
      apply_entries m (upserts ups ++ removals (RowTable.tombstones_pending t2)) = m2.
Proof.
  pose proof (mark_watermark t m t1 m1 Hr Hw Hkept) as Hm. destruct (RowTable.mark_persisted _ _) as [marked t']. destruct Hm as (-> & Hm & _).
  split; [done|]. intros t2 m2 Hw2 Hp2. destruct (delta_exact t2 m2 m) as (ups & Hups & _ & E); [by eapply watermark_writes|]. by exists ups.
Qed.
End delta.

Section sample.
#[local] Existing Instance one_bucket.

Definition raw_row (n : Z) : RawRow := MkRawRow (blake3 [n]) n [n].

Definition raw_insert (id : string) (n : Z) (t : RowTable HeapArena) : RowTable HeapArena :=
  (RowTable.insert_raw id (rr_digest (raw_row n)) (rr_rv (raw_row n)) (rr_body (raw_row n)) t).2.

Definition first_table : RowTable HeapArena := raw_insert "b" 2 (raw_insert "a" 1 (RowTable.new 7)).
Definition first_rows : gmap string RawRow := <["b" := raw_row 2]> (<["a" := raw_row 1]> ∅).

Lemma raw_row_wf n : 0 <= n < 256 → raw_wf (raw_row n).
Proof. intros Hn. split; [apply blake3_acc_wf|cbn; unfold in_i64, two63; lia|by vm_compute]. Qed.

Lemma raw_insert_writes t m id n : 0 <= n < 256 → id_wf id → heap_room (rt_arena t) (row_head id (raw_row n) (head_len_for id) ++ [n]) →
  write (t, m) (raw_insert id n t, <[id := raw_row n]> m).
Proof. intros Hn Hid Hroom. apply write_raw; [done|by apply raw_row_wf|exact Hroom]. Qed.

Lemma first_writes : writes (RowTable.new 7, ∅) (first_table, first_rows).
Proof.
  eapply rtc_l; [apply (raw_insert_writes _ _ "a" 1)|apply rtc_once, (raw_insert_writes _ _ "b" 2)];
    try lia; split; vm_compute; first [reflexivity|discriminate].
Qed.

Lemma first_represents : represents first_table first_rows.
Proof. apply (writes_represents _ _ first_writes). cbn. apply represents_empty, heap_new_ok. Qed.

(** The rows written, one removed and one replaced after a first checkpoint. *)
Definition later_table : RowTable HeapArena :=
  raw_insert "b" 4 (RowTable.remove "a" (RowTable.mark_persisted (RowTable.checkpoint_mark first_table) first_table).2).2.

Lemma watermark_exact_witness :
  RowTable.tombstones_pending later_table = ["a"] ∧ length (RowTable.records_since_persisted later_table) = 1%nat ∧
  ∃ ups, Forall2 record_is ups (RowTable.records_since_persisted later_table) ∧
    apply_entries first_rows (upserts ups ++ removals (RowTable.tombstones_pending later_table)) =
      <["b" := raw_row 4]> (delete "a" first_rows).
Proof.
  split; [vm_compute; reflexivity|]. split; [vm_compute; reflexivity|].
  pose proof (watermark_exact first_table first_table first_rows first_rows first_represents (rtc_refl _ _) (or_introl eq_refl)) as Hx.
  destruct (RowTable.mark_persisted _ _) as [marked t'] eqn:E. destruct Hx as [_ Hx]. apply Hx.
  - unfold later_table. rewrite E. cbn [snd]. eapply rtc_l; [apply write_remove|]. apply rtc_once.
    apply raw_insert_writes; [lia|split; vm_compute; reflexivity|]. replace t' with (RowTable.mark_persisted (RowTable.checkpoint_mark first_table) first_table).2 by by rewrite E.
    split; vm_compute; [reflexivity|discriminate].
  - vm_compute. discriminate.
Defined.

(** A row removed while the first checkpoint is on its way to disk: the table
    has no watermark yet and records nothing, and the watermark it then gets
    makes the removal one the next delta does not hold. *)
Lemma removal_missed :
  let removed := (RowTable.remove "a" first_table).2 in
  let '(marked, t') := RowTable.mark_persisted (RowTable.checkpoint_mark first_table) removed in
  marked = true ∧ rt_persisted t' ≠ None ∧ RowTable.contains_key t' "a" = false ∧
  RowTable.records_since_persisted t' = [] ∧ RowTable.tombstones_pending t' = [].
Proof. vm_compute. split_and!; [reflexivity|discriminate|reflexivity|reflexivity|reflexivity]. Qed.
End sample.
