(* ===== verification/Checkpoint.v ===== *)
(** * Checkpoints of a table's rows

    Models [packages/ssp/src/circuit/checkpoint.rs]: the file format, its
    writer, the readers of one image, of a base image with its deltas, and of
    a whole store, and the reader of the previous format. A file is its bytes.
    An error is its text without the numbers in it; mapped files, timings and
    the errors of the file system are left out, as are the parts of a
    collection that are derived from its rows. *)

From S2P Require Import Prelude Platform Value RowCodec ValueRef SnapshotHash Store Arena RowTable.
Local Open Scope Z_scope.

(** Early return on an error. *)
Notation "'let!' x := e 'in' k" :=
  (match e with inr x => k | inl err => inl err end)
  (at level 10, x pattern, e at level 200, k at level 200, format "'[v' 'let!'  x  :=  e  'in' '/' k ']'") : sp00ky_scope.

Definition MAGIC : list Z := bytes_of "SPKYROWS".
Definition FORMAT : Z := 2.
Definition RECORD_FORMAT : Z := 2.
Definition MAX_CHUNK : Z := Z.shiftl 256 20.
Definition XOR_LEN : Z := 32.
Definition HASH_LEN : Z := 32.
Definition TRAILER_LEN : Z := 2 * HASH_LEN.
Definition FIXED_PREFIX_LEN : Z := 8 + 4 + 4 + 8 + 4.
Definition MIN_IMAGE_LEN : Z := FIXED_PREFIX_LEN + 4 + XOR_LEN + XOR_LEN + 4 + 8 + 8 + 8 + TRAILER_LEN.

Inductive CheckpointError :=
  | InvalidInput (why : string)
  | Invalid (why : string)
  | InvalidBlock (why : BlockError).

(** A collection, as far as a checkpoint goes. *)
Record TableColl `{HashTable} (A : Type) := MkTableColl { tc_name : string; tc_rows : RowTable A; tc_catchup_xor : list Z }.
Arguments MkTableColl {_} {A}.
Arguments tc_name {_} {A}.
Arguments tc_rows {_} {A}.
Arguments tc_catchup_xor {_} {A}.

(** ** Writing *)

Record Written := MkWritten {
  wr_rows : Z; wr_tombstones : Z; wr_bytes : Z; wr_heads_bytes : Z; wr_bodies_bytes : Z; wr_image_id : Z; wr_seq : Z; wr_mark : CheckpointMark }.

Record ImageHeader := MkImageHeader {
  hd_name : string; hd_image_id : Z; hd_seq : Z; hd_catchup_xor : list Z; hd_prev_xor : list Z; hd_field_names : list string }.

Inductive Rec := RecRow (head body : list Z) | RecTombstone (id : string).

Definition write_chunk (bytes : list Z) : CheckpointError + list Z :=
  if MAX_CHUNK <? zlength bytes then inl (InvalidInput "checkpoint chunk too large") else inr (to_le_u32 (zlength bytes) ++ bytes).

Fixpoint write_chunks (chunks : list (list Z)) : CheckpointError + list Z :=
  match chunks with
  | [] => inr []
  | c :: chunks => let! b := write_chunk c in let! bs := write_chunks chunks in inr (b ++ bs)
  end.

Definition rec_head_len (r : Rec) : Z := match r with RecRow head _ => zlength head | RecTombstone id => head_len_for id end.
Definition rec_body (r : Rec) : list Z := match r with RecRow _ body => body | RecTombstone _ => [] end.
Definition rec_tombstone (r : Rec) : bool := match r with RecRow _ _ => false | RecTombstone _ => true end.
Definition sum_z (l : list Z) : Z := foldr Z.add 0 l.

(** What comes before the rows. *)
Definition write_header (h : ImageHeader) (rows heads_len bodies_len : Z) : CheckpointError + list Z :=
  let! name := write_chunk (bytes_of (hd_name h)) in
  let! fields := write_chunks (map bytes_of (hd_field_names h)) in
  inr (MAGIC ++ to_le_u32 FORMAT ++ to_le_u32 RECORD_FORMAT ++ to_le_u64 (hd_image_id h) ++ to_le_u32 (hd_seq h) ++ name ++
    hd_catchup_xor h ++ hd_prev_xor h ++ to_le_u32 (zlength (hd_field_names h)) ++ fields ++
    to_le_u64 rows ++ to_le_u64 heads_len ++ to_le_u64 bodies_len).

(** A head as the file has it, [body_rel] bytes before its body. *)
Definition rec_head (r : Rec) (body_rel : Z) : list Z :=
  match r with
  | RecRow head _ => relink_head head (wrap_u32 body_rel)
  | RecTombstone id => encode_head id (replicate (Z.to_nat DIGEST_LEN) 0) RV_ABSENT 0 0
  end.

(** The heads, the next one at [head_at] and the next body at [body_at]. *)
Fixpoint write_heads (head_at body_at : Z) (recs : list Rec) : list Z :=
  match recs with
  | [] => []
  | r :: recs =>
      let head := rec_head r (body_at - head_at) in
      head ++ write_heads (head_at + zlength head) (body_at + zlength (rec_body r)) recs
  end.

Section writing.
Context `{Hashing} `{IdHash} `{HashTable} {A : Type} `{Arena A}.

(** The mark is filled in by the callers. *)
Definition write_image (header : ImageHeader) (records : list Rec) (mark : CheckpointMark) : CheckpointError + (list Z * Written) :=
  let heads_len := sum_z (map rec_head_len records) in
  let bodies_len := sum_z (map (λ r, zlength (rec_body r)) records) in
  let! prefix := write_header header (zlength records) heads_len bodies_len in
  let heads_off := zlength prefix in
  let bodies_off := heads_off + heads_len in
  if two32 - 1 <? bodies_off + bodies_len then inl (InvalidInput "checkpoint image would exceed 4 GiB")
  else
    let top := prefix ++ write_heads heads_off bodies_off records in
    let bodies := concat (map rec_body records) in
    inr (top ++ bodies ++ blake3 top ++ blake3 bodies,
      MkWritten (zlength records) (zlength (List.filter rec_tombstone records)) (zlength top + zlength bodies + TRAILER_LEN) heads_len bodies_len
        (hd_image_id header) (hd_seq header) mark).

Definition rec_row (r : list Z * list Z) : Rec := RecRow r.1 r.2.

Definition write_collection (coll : TableColl A) (image_id : Z) : CheckpointError + (list Z * Written) :=
  let header := MkImageHeader (tc_name coll) image_id 0 (tc_catchup_xor coll) xor_empty (fd_names (rt_dict (tc_rows coll))) in
  write_image header (map rec_row (RowTable.records (tc_rows coll))) (RowTable.checkpoint_mark (tc_rows coll)).

Definition write_delta (coll : TableColl A) (base seq : Z) (prev_xor : list Z) : CheckpointError + (list Z * Written) :=
  if seq =? 0 then inl (InvalidInput "a delta's seq starts at 1")
  else match rt_persisted (tc_rows coll) with
  | None => inl (InvalidInput "the table has no checkpoint to extend")
  | Some _ =>
      let header := MkImageHeader (tc_name coll) base seq (tc_catchup_xor coll) prev_xor (fd_names (rt_dict (tc_rows coll))) in
      write_image header
        (map rec_row (RowTable.records_since_persisted (tc_rows coll)) ++ map RecTombstone (RowTable.tombstones_pending (tc_rows coll)))
        (RowTable.checkpoint_mark (tc_rows coll))
  end.

(** The first eight bytes of a hash. *)
Definition content_image_id (coll : TableColl A) : Z :=
  le_combine (take 8 (blake3 (bytes_of "spky-row-image" ++ [0] ++ bytes_of (tc_name coll) ++ tc_catchup_xor coll))).
End writing.

(** ** Bounds-checked reads *)

Record ByteCursor := MkByteCursor { bc_bytes : list Z; bc_at : Z }.

Module ByteCursor.
Definition bytes (self : ByteCursor) (n : Z) : CheckpointError + (list Z * ByteCursor) :=
  let e := bc_at self + n in
  if two64 <=? e then inl (Invalid "length overflows the file")
  else match slice (bc_at self) e (bc_bytes self) with
    | Some out => inr (out, MkByteCursor (bc_bytes self) e)
    | None => inl (Invalid "truncated header")
    end.

Definition u32 (self : ByteCursor) : CheckpointError + (Z * ByteCursor) := let! (b, self) := bytes self 4 in inr (le_combine b, self).
Definition u64 (self : ByteCursor) : CheckpointError + (Z * ByteCursor) := let! (b, self) := bytes self 8 in inr (le_combine b, self).
Definition hash (self : ByteCursor) : CheckpointError + (list Z * ByteCursor) := bytes self HASH_LEN.

Definition chunk (self : ByteCursor) : CheckpointError + (list Z * ByteCursor) :=
  let! (len, self) := u32 self in
  if MAX_CHUNK <? len then inl (Invalid "chunk too large") else bytes self len.

Definition str_chunk (self : ByteCursor) (what : string) : CheckpointError + (string * ByteCursor) :=
  let! (b, self) := chunk self in
  match from_utf8 b with
  | Some s => inr (s, self)
  | None => inl (Invalid (what ++ " is not UTF-8"))
  end.

Fixpoint str_chunks (self : ByteCursor) (what : string) (n : nat) : CheckpointError + (list string * ByteCursor) :=
  match n with
  | O => inr ([], self)
  | S n =>
      let! (s, self) := str_chunk self what in
      let! (l, self) := str_chunks self what n in
      inr (s :: l, self)
  end.
End ByteCursor.

(** ** One image *)

Record Image := MkImage {
  im_name : string; im_record_format : Z; im_image_id : Z; im_seq : Z; im_stored_xor : list Z; im_prev_xor : list Z;
  im_field_names : list string; im_rows : Z; im_heads : Z * Z; im_bodies : Z * Z; im_bodies_hash : list Z }.

Record ImageIdentity := MkImageIdentity { id_format : Z; id_record_format : Z; id_image_id : Z; id_seq : Z }.

Definition has_magic (magic bytes : list Z) : bool := bool_decide (take (length magic) bytes = magic).

Definition parse_identity (bytes : list Z) : CheckpointError + ImageIdentity :=
  if zlength bytes <? FIXED_PREFIX_LEN then inl (Invalid "too short to be a row checkpoint")
  else if negb (has_magic MAGIC bytes) then inl (Invalid "not a row checkpoint")
  else
    let c := MkByteCursor bytes (zlength MAGIC) in
    let! (format, c) := ByteCursor.u32 c in
    let! (record_format, c) := ByteCursor.u32 c in
    let! (image_id, c) := ByteCursor.u64 c in
    let! (seq, c) := ByteCursor.u32 c in
    inr (MkImageIdentity format record_format image_id seq).

(** The end of a region of [len] bytes that starts at [start]. *)
Definition region_end (start len : Z) (what : string) : CheckpointError + Z :=
  if two64 <=? start + len then inl (Invalid (what ++ " length overflows the file")) else inr (start + len).

Definition parse_header (bytes : list Z) : CheckpointError + Image :=
  if zlength bytes <? MIN_IMAGE_LEN then inl (Invalid "too short to be a row checkpoint")
  else
    let! identity := parse_identity bytes in
    if negb (id_format identity =? FORMAT) then inl (Invalid "checkpoint format")
    else
      let c := MkByteCursor bytes FIXED_PREFIX_LEN in
      let! (name, c) := ByteCursor.str_chunk c "table name" in
      let! (stored_xor, c) := ByteCursor.hash c in
      let! (prev_xor, c) := ByteCursor.hash c in
      let! (fields, c) := ByteCursor.u32 c in
      let! (field_names, c) := ByteCursor.str_chunks c "field name" (Z.to_nat fields) in
      let! (rows, c) := ByteCursor.u64 c in
      let! (heads_len, c) := ByteCursor.u64 c in
      let! (bodies_len, c) := ByteCursor.u64 c in
      let heads_start := bc_at c in
      let! heads_end := region_end heads_start heads_len "heads" in
      let! bodies_end := region_end heads_end bodies_len "bodies" in
      if (two64 <=? bodies_end + TRAILER_LEN) || negb (bodies_end + TRAILER_LEN =? zlength bytes) then
        inl (Invalid "the lengths do not account for every byte")
      else
        inr (MkImage name (id_record_format identity) (id_image_id identity) (id_seq identity) stored_xor prev_xor field_names rows
          (heads_start, heads_end) (heads_end, bodies_end) (drop (Z.to_nat (bodies_end + HASH_LEN)) bytes)).

Section reading.
Context `{Hashing} `{IdHash} `{HashTable}.

Definition heads_verified (bytes : list Z) (image : Image) : bool :=
  bool_decide (blake3 (take (Z.to_nat (im_heads image).2) bytes) = take (Z.to_nat HASH_LEN) (drop (Z.to_nat (im_bodies image).2) bytes)).

Definition check_heads (bytes : list Z) (image : Image) : option CheckpointError :=
  if negb (im_record_format image =? RECORD_FORMAT) then Some (Invalid "record format")
  else if negb (heads_verified bytes image) then Some (Invalid "heads checksum mismatch")
  else None.

Definition parse_image (bytes : list Z) : CheckpointError + Image :=
  let! image := parse_header bytes in
  match check_heads bytes image with Some e => inl e | None => inr image end.

Record Indexed := MkIndexedImage {
  ix_name : string; ix_dict : FieldDict; ix_heads : IndexedHeads; ix_image_id : Z; ix_bodies : Z * Z; ix_bodies_hash : list Z; ix_stored_xor : list Z }.

Definition index_parsed (bytes : list Z) (image : Image) : CheckpointError + Indexed :=
  match check_heads bytes image with
  | Some e => inl e
  | None =>
      if negb (im_seq image =? 0) then inl (Invalid "a delta checkpoint, not a base image")
      else match FieldDict.from_names (im_field_names image) with
      | None => inl (Invalid "field dictionary repeats a name")
      | Some dict =>
          match RowTable.index_heads bytes (im_heads image) (im_bodies image) (im_rows image) 0 with
          | inl e => inl (InvalidBlock e)
          | inr heads =>
              if negb (bool_decide (ih_xor heads = im_stored_xor image)) then inl (Invalid "rows do not add up to the stored catch-up hash")
              else inr (MkIndexedImage (im_name image) dict heads (im_image_id image) (im_bodies image) (im_bodies_hash image) (im_stored_xor image))
          end
      end
  end.

Definition index_image (bytes : list Z) : CheckpointError + Indexed :=
  let! image := parse_header bytes in index_parsed bytes image.

(** [epoch] is the next one of a counter of the process. *)
Definition assemble {A} (epoch : Z) (ix : Indexed) (arena : A) : TableColl A :=
  MkTableColl (ix_name ix) (RowTable.from_parts epoch (ix_dict ix) (ih_index (ix_heads ix)) arena) (ix_stored_xor ix).

Definition bodies_verified (bytes : list Z) (bodies : Z * Z) (hash : list Z) : bool :=
  bool_decide (blake3 (take (Z.to_nat (bodies.2 - bodies.1)) (drop (Z.to_nat bodies.1) bytes)) = hash).

End reading.

(** ** The previous format *)

Module legacy.
Definition FORMAT_V1 : Z := 1.
Definition RECORD_FORMAT_V1 : Z := 1.
Definition TRAILER_LEN : Z := 32.
Definition RV_OFFSET : Z := DIGEST_LEN.
Definition ID_OFFSET : Z := DIGEST_LEN + 8.
Definition MIN_FRAMED : Z := ID_OFFSET + 2 + 4.
Definition MIN_LEN : Z := 8 + 4 + 4 + 4 + 32 + 4 + 8 + TRAILER_LEN.

(** A record's digest, version and id, and its value. *)
Definition read_record (record : list Z) : option (list Z * Z * string * list Z) :=
  let? digest := slice 0 DIGEST_LEN record in
  let? rv := slice RV_OFFSET ID_OFFSET record in
  let? rest := slice_from ID_OFFSET record in
  let? (id_len, n_prefix) := read_varint rest in
  let id_start := ID_OFFSET + n_prefix in
  let id_end := id_start + id_len in
  if two64 <=? id_end then None
  else
    let? id := slice id_start id_end record in
    let? id := from_utf8 id in
    Some (digest, from_le_i64 rv, id, drop (Z.to_nat id_end) record).

Section legacy.
Context `{Hashing} `{IdHash} `{HashTable}.

Fixpoint read_records (n : nat) (c : ByteCursor) (rows : RowTable HeapArena) (xor : list Z)
    : CheckpointError + (ByteCursor * RowTable HeapArena * list Z) :=
  match n with
  | O => inr (c, rows, xor)
  | S n =>
      let! (record, c) := ByteCursor.chunk c in
      match read_record record with
      | None => inl (Invalid "record has no readable id")
      | Some (digest, rv, id, value) =>
          if bool_decide (value = []) then inl (Invalid "record has no value")
          else
            let '(_, replaced, rows) := RowTable.insert_raw id digest rv value rows in
            if replaced : bool then inl (Invalid "record carries an id stored twice")
            else read_records n c rows (xor_digest xor digest)
      end
  end.

Definition read_v1 (epoch : Z) (bytes : list Z) : CheckpointError + TableColl HeapArena :=
  if zlength bytes <? MIN_LEN then inl (Invalid "too short to be a row checkpoint")
  else if negb (has_magic MAGIC bytes) then inl (Invalid "not a row checkpoint")
  else
    let body := take (Z.to_nat (zlength bytes - TRAILER_LEN)) bytes in
    let trailer := drop (Z.to_nat (zlength bytes - TRAILER_LEN)) bytes in
    if negb (bool_decide (blake3 body = trailer)) then inl (Invalid "checksum mismatch")
    else
      let c := MkByteCursor body (zlength MAGIC) in
      let! (format, c) := ByteCursor.u32 c in
      if negb (format =? FORMAT_V1) then inl (Invalid "checkpoint format is not the previous one") else
      let! (record_format, c) := ByteCursor.u32 c in
      if negb (record_format =? RECORD_FORMAT_V1) then inl (Invalid "record format is not the previous one") else
      let! (name, c) := ByteCursor.str_chunk c "table name" in
      let! (stored_xor, c) := ByteCursor.hash c in
      let! (fields, c) := ByteCursor.u32 c in
      let! (names, c) := ByteCursor.str_chunks c "field name" (Z.to_nat fields) in
      let! (rows, c) := ByteCursor.u64 c in
      if (zlength body - bc_at c) / MIN_FRAMED <? rows then inl (Invalid "declares more rows than the file holds")
      else
        let '(restored, table) := RowTable.restore_dict names (RowTable.new epoch) in
        if negb restored then inl (Invalid "field dictionary repeats a name")
        else
          let! (c, table, xor) := read_records (Z.to_nat rows) c table xor_empty in
          if negb (bc_at c =? zlength body) then inl (Invalid "bytes after the declared rows")
          else if negb (bool_decide (xor = stored_xor)) then inl (Invalid "rows do not add up to the stored catch-up hash")
          else inr (MkTableColl name table xor).

(** A record of the previous format: the head without its body pointer, and
    the body. *)
Definition record_v1 (r : list Z * list Z) : list Z :=
  take (Z.to_nat HEAD_BODY_REL_OFFSET) r.1 ++ drop (Z.to_nat HEAD_ID_OFFSET) r.1 ++ r.2.

Definition write_v1 {A} `{Arena A} (coll : TableColl A) : CheckpointError + list Z :=
  let! name := write_chunk (bytes_of (tc_name coll)) in
  let names := fd_names (rt_dict (tc_rows coll)) in
  let! fields := write_chunks (map bytes_of names) in
  let records := RowTable.records (tc_rows coll) in
  let! rows := write_chunks (map record_v1 records) in
  let out := MAGIC ++ to_le_u32 FORMAT_V1 ++ to_le_u32 RECORD_FORMAT_V1 ++ name ++ tc_catchup_xor coll ++ to_le_u32 (zlength names) ++ fields ++
    to_le_u64 (zlength records) ++ rows in
  inr (out ++ blake3 out).
End legacy.
End legacy.

(** ** Readers of whole files *)

Section files.
Context `{Hashing} `{IdHash} `{HashTable}.

Definition read_image (epoch : Z) (bytes : list Z) : CheckpointError + TableColl HeapArena :=
  let! identity := parse_identity bytes in
  if id_format identity =? legacy.FORMAT_V1 then legacy.read_v1 epoch bytes
  else
    let! ix := index_image bytes in
    if negb (bodies_verified bytes (ix_bodies ix) (ix_bodies_hash ix)) then inl (Invalid "bodies checksum mismatch")
    else inr (assemble epoch ix (HeapArena.from_buf bytes (ih_live (ix_heads ix)))).

End files.

(** Where a chain of files stands. *)
Record Chain := MkChain { ch_name : string; ch_image_id : Z; ch_seq : Z; ch_xor : list Z; ch_field_names : list string }.

Module Chain.
Section chain.
Context `{Hashing}.

Definition from_base (image : Image) : Chain := MkChain (im_name image) (im_image_id image) 0 (im_stored_xor image) (im_field_names image).

Definition extends (names known : list string) : bool := bool_decide (take (length known) names = known).

(** The delta is the next link. *)
Definition check (self : Chain) (bytes : list Z) : CheckpointError + Image :=
  let! identity := parse_identity bytes in
  if negb (id_format identity =? FORMAT) then inl (Invalid "delta of checkpoint format")
  else
    let! image := parse_image bytes in
    if negb (String.eqb (im_name image) (ch_name self)) then inl (Invalid "delta of another table")
    else if negb (im_image_id image =? ch_image_id self) then inl (Invalid "delta of another base image")
    else if negb (im_seq image =? wrap_u32 (ch_seq self + 1)) then inl (Invalid "delta seq")
    else if negb (bool_decide (im_prev_xor image = ch_xor self)) then inl (Invalid "delta does not chain to the file before it")
    else if negb (extends (im_field_names image) (ch_field_names self)) then inl (Invalid "delta dictionary does not extend the base's")
    else inr image.

Definition advance (image : Image) (self : Chain) : Chain :=
  MkChain (ch_name self) (ch_image_id self) (im_seq image) (im_stored_xor image) (im_field_names image).
End chain.
End Chain.

Section chains.
Context `{Hashing} `{IdHash} `{HashTable}.

(** The rows and the hash are changed in place, also on an error. *)
Definition absorb_delta `{Arena A} (rows : RowTable A) (xor bytes : list Z) (image : Image) (into : AbsorbInto)
    : RowTable A * list Z * option CheckpointError :=
  let known := Z.to_nat (FieldDict.len (rt_dict rows)) in
  let '(extended, rows) := RowTable.extend_dict (drop known (im_field_names image)) rows in
  if negb extended then (rows, xor, Some (Invalid "delta dictionary repeats a name"))
  else match RowTable.absorb bytes (im_heads image) (im_bodies image) (im_rows image) into rows with
  | (rows, inl e) => (rows, xor, Some (InvalidBlock e))
  | (rows, inr absorbed) =>
      let xor := xor_digest xor (ab_xor absorbed) in
      if negb (bool_decide (xor = im_stored_xor image)) then (rows, xor, Some (Invalid "rows do not add up to the delta's stored catch-up hash"))
      else (rows, xor, None)
  end.

Record ChainEnd := MkChainEnd { ce_image_id : Z; ce_seq : Z; ce_xor : list Z }.

(** One delta: checked, verified and absorbed. [None] goes on. [damaged] says
    that its bodies are. *)
Definition apply_delta (damaged : string) (chain : Chain) (rows : RowTable HeapArena) (xor delta : list Z)
    : Chain * RowTable HeapArena * list Z * option CheckpointError :=
  match Chain.check chain delta with
  | inl e => (chain, rows, xor, Some e)
  | inr image =>
      if negb (bodies_verified delta (im_bodies image) (im_bodies_hash image)) then (chain, rows, xor, Some (Invalid damaged))
      else match absorb_delta rows xor delta image Copy with
      | (rows, xor, Some e) => (chain, rows, xor, Some e)
      | (rows, xor, None) => (Chain.advance image chain, rows, xor, None)
      end
  end.

Fixpoint apply_deltas (chain : Chain) (rows : RowTable HeapArena) (xor : list Z) (deltas : list (list Z))
    : CheckpointError + (Chain * RowTable HeapArena * list Z) :=
  match deltas with
  | [] => inr (chain, rows, xor)
  | delta :: deltas =>
      match apply_delta "delta bodies checksum mismatch" chain rows xor delta with
      | (_, _, _, Some e) => inl e
      | (chain, rows, xor, None) => apply_deltas chain rows xor deltas
      end
  end.

(** The base image of a chain: what is read of it. *)
Definition read_base (epoch : Z) (base : list Z) (header : Image) : CheckpointError + TableColl HeapArena :=
  let! ix := index_parsed base header in
  if negb (bodies_verified base (ix_bodies ix) (ix_bodies_hash ix)) then inl (Invalid "bodies checksum mismatch")
  else inr (assemble epoch ix (HeapArena.from_buf base (ih_live (ix_heads ix)))).

Definition read_table_bytes (epoch : Z) (base : list Z) (deltas : list (list Z)) : CheckpointError + (TableColl HeapArena * ChainEnd) :=
  let! identity := parse_identity base in
  if negb (id_format identity =? FORMAT) then inl (Invalid "not a current-format base image")
  else
    let! header := parse_header base in
    if negb (im_seq header =? 0) then inl (Invalid "a delta where the base image belongs")
    else
      let! coll := read_base epoch base header in
      let! (chain, rows, xor) := apply_deltas (Chain.from_base header) (tc_rows coll) (tc_catchup_xor coll) deltas in
      inr (MkTableColl (tc_name coll) (RowTable.set_persisted_at_end rows) xor, MkChainEnd (im_image_id header) (ch_seq chain) xor).

(** What [load_table] gives: the deltas applied, with their lengths, and the
    first one refused. *)
Record TableLoad := MkTableLoad {
  tl_collection : TableColl HeapArena; tl_image_id : Z; tl_base_bytes : Z; tl_deltas : list (Z * Z); tl_refused : option (nat * CheckpointError) }.

(** The loop over the deltas: until one is refused. *)
Fixpoint load_deltas (chain : Chain) (rows : RowTable HeapArena) (xor : list Z) (applied : list (Z * Z)) (k : nat) (deltas : list (list Z))
    : Chain * RowTable HeapArena * list Z * list (Z * Z) * option (nat * CheckpointError) :=
  match deltas with
  | [] => (chain, rows, xor, applied, None)
  | delta :: deltas =>
      match apply_delta "bodies checksum mismatch" chain rows xor delta with
      | (chain, rows, xor, Some e) => (chain, rows, xor, applied, Some (k, e))
      | (chain, rows, xor, None) => load_deltas chain rows xor (applied ++ [(ch_seq chain, zlength delta)]) (S k) deltas
      end
  end.

(** [read_table], as a heap-backed process loads. A delta whose rows do not
    add up has it start over with the files before it: fewer files, which is
    what [fuel] counts. *)
Fixpoint read_table (fuel : nat) (epoch : Z) (base : list Z) (deltas : list (list Z)) : CheckpointError + TableLoad :=
  let! identity := parse_identity base in
  if id_format identity =? legacy.FORMAT_V1 then
    let! collection := legacy.read_v1 epoch base in
    inr (MkTableLoad collection 0 (zlength base) []
      (match deltas with [] => None | _ => Some (O, Invalid "a legacy image cannot be extended by deltas") end))
  else
    let! header := parse_header base in
    let! coll := read_base epoch base header in
    let '(chain, rows, xor, applied, refused) := load_deltas (Chain.from_base header) (tc_rows coll) (tc_catchup_xor coll) [] 0 deltas in
    let done_ := inr (MkTableLoad (MkTableColl (tc_name coll) (RowTable.set_persisted_at_end rows) xor) (im_image_id header) (zlength base) applied refused) in
    match refused, fuel with
    | Some (k, e), S fuel =>
        if bool_decide (xor = ch_xor chain) then done_
        else
          let! shorter := read_table fuel (epoch + 1) base (take k deltas) in
          inr (MkTableLoad (tl_collection shorter) (tl_image_id shorter) (tl_base_bytes shorter) (tl_deltas shorter) (Some (k, e)))
    | _, _ => done_
    end.

(** ** Store containers *)

Definition STORE_MAGIC : list Z := bytes_of "SPKYSTOR".
Definition STORE_FORMAT : Z := 1.

Fixpoint write_tables `{Arena A} (colls : list (string * TableColl A)) : CheckpointError + list Z :=
  match colls with
  | [] => inr []
  | (_, coll) :: colls =>
      let! (image, _) := write_collection coll (content_image_id coll) in
      let! rest := write_tables colls in
      inr (to_le_u64 (zlength image) ++ image ++ rest)
  end.

Definition write_store `{Arena A} (collections : gmap string (TableColl A)) : CheckpointError + list Z :=
  let! tables := write_tables (sort_by_key (map_to_list collections)) in
  inr (STORE_MAGIC ++ to_le_u32 STORE_FORMAT ++ to_le_u32 (Z.of_nat (size collections)) ++ tables).

Fixpoint read_tables (n : nat) (epoch : Z) (c : ByteCursor) (collections : gmap string (TableColl HeapArena))
    : CheckpointError + (ByteCursor * gmap string (TableColl HeapArena)) :=
  match n with
  | O => inr (c, collections)
  | S n =>
      let! (len, c) := ByteCursor.u64 c in
      let! (image, c) := ByteCursor.bytes c len in
      let! coll := read_image epoch image in
      match collections !! tc_name coll with
      | Some _ => inl (Invalid "a table appears twice")
      | None => read_tables n (epoch + 1) c (<[tc_name coll := coll]> collections)
      end
  end.

Definition read_store (epoch : Z) (bytes : list Z) : CheckpointError + gmap string (TableColl HeapArena) :=
  if (zlength bytes <? 8 + 4 + 4) || negb (has_magic STORE_MAGIC bytes) then inl (Invalid "not a store snapshot")
  else
    let c := MkByteCursor bytes (zlength STORE_MAGIC) in
    let! (format, c) := ByteCursor.u32 c in
    if negb (format =? STORE_FORMAT) then inl (Invalid "store format")
    else
      let! (tables, c) := ByteCursor.u32 c in
      let! (c, collections) := read_tables (Z.to_nat tables) epoch c ∅ in
      if negb (bc_at c =? zlength bytes) then inl (Invalid "bytes after the last table") else inr collections.
End chains.
