(* ===== verification/CheckpointFacts.v ===== *)
(** * What was written reads back

    The header, the regions and the checksums of a written file, as the reader
    finds them; then what the loops over an image build of its rows. *)

From S2P Require Import Prelude Platform Value RowCodec RowCodecSpec ValueRef SnapshotHash Store StoreFacts Arena.
From S2P Require Import RowTable RowTableFacts RowTableDelta Checkpoint.
Local Open Scope Z_scope.

(** ** Reading what comes next *)

(** The cursor before [rest], the last part of [file]. *)
Definition cursor_at (file rest : list Z) : ByteCursor := MkByteCursor file (zlength file - zlength rest).

Lemma suffix_rest {A} (b rest file : list A) : (b ++ rest) `suffix_of` file → rest `suffix_of` file.
Proof. intros Hs. etrans; [|exact Hs]. by apply suffix_app_r. Qed.

Section reads.
Context (file : list Z) (Hfile : zlength file < two64).

Lemma read_bytes b rest n : (b ++ rest) `suffix_of` file → zlength b = n → ByteCursor.bytes (cursor_at file (b ++ rest)) n = inr (b, cursor_at file rest).
Proof.
  intros [pre E] <-. unfold ByteCursor.bytes, cursor_at. cbn [bc_at bc_bytes].
  assert (zlength file - zlength (b ++ rest) = zlength pre) as -> by (rewrite E, !zlength_app; lia).
  assert (zlength file = zlength pre + zlength b + zlength rest) as El by (rewrite E, !zlength_app; lia).
  pose proof (zlength_nonneg rest). rewrite (proj2 (Z.leb_gt two64 _)) by lia.
  rewrite E at 1. rewrite slice_app by done. do 3 f_equal. lia.
Qed.

Lemma read_u32 z rest : (to_le_u32 z ++ rest) `suffix_of` file → 0 <= z < two32 →
  ByteCursor.u32 (cursor_at file (to_le_u32 z ++ rest)) = inr (z, cursor_at file rest).
Proof. intros Hs Hz. unfold ByteCursor.u32. rewrite read_bytes; [|done|apply zlength_to_le_u32]. by rewrite from_to_le_u32. Qed.

Lemma read_u64 z rest : (to_le_u64 z ++ rest) `suffix_of` file → in_u64 z →
  ByteCursor.u64 (cursor_at file (to_le_u64 z ++ rest)) = inr (z, cursor_at file rest).
Proof. intros Hs Hz. unfold ByteCursor.u64. rewrite read_bytes; [|done|apply zlength_to_le_u64]. by rewrite from_to_le_u64. Qed.

Lemma read_chunk b out rest : write_chunk b = inr out → (out ++ rest) `suffix_of` file →
  ByteCursor.chunk (cursor_at file (out ++ rest)) = inr (b, cursor_at file rest).
Proof.
  unfold write_chunk. destruct (MAX_CHUNK <? zlength b) eqn:E; [done|]. intros <-%(inj inr). rewrite <- app_assoc. intros Hs.
  pose proof (zlength_nonneg b). pose proof (proj1 (Z.ltb_ge _ _) E) as E'. change MAX_CHUNK with 268435456 in E'.
  unfold ByteCursor.chunk. rewrite read_u32; [|done|unfold two32; lia]. rewrite E. apply read_bytes; [|done]. by eapply suffix_rest.
Qed.

Lemma read_str s out rest what : write_chunk (bytes_of s) = inr out → (out ++ rest) `suffix_of` file → utf8_valid (bytes_of s) = true →
  ByteCursor.str_chunk (cursor_at file (out ++ rest)) what = inr (s, cursor_at file rest).
Proof.
  intros Hw Hs Hu. unfold ByteCursor.str_chunk. rewrite (read_chunk _ _ _ Hw Hs). unfold from_utf8. rewrite Hu.
  by rewrite string_of_bytes_of.
Qed.

Lemma read_strs what l : ∀ out rest, write_chunks (map bytes_of l) = inr out → (out ++ rest) `suffix_of` file →
  Forall (λ s, utf8_valid (bytes_of s) = true) l →
  ByteCursor.str_chunks (cursor_at file (out ++ rest)) what (length l) = inr (l, cursor_at file rest).
Proof.
  induction l as [|s l IH]; intros out rest; cbn [map write_chunks length ByteCursor.str_chunks]; [by intros [= <-]|].
  destruct (write_chunk (bytes_of s)) as [|b] eqn:Eb; [done|]. destruct (write_chunks (map bytes_of l)) as [|bs] eqn:Ebs; [done|].
  intros <-%(inj inr). rewrite <- app_assoc. intros Hs [Hu Hus]%Forall_cons. rewrite (read_str _ _ _ _ Eb Hs Hu).
  by rewrite (IH bs rest eq_refl (suffix_rest _ _ _ Hs) Hus).
Qed.
End reads.

(** ** The header *)

Record header_wf (h : ImageHeader) : Prop := {
  hw_name : utf8_valid (bytes_of (hd_name h)) = true;
  hw_fields : Forall (λ s, utf8_valid (bytes_of s) = true) (hd_field_names h);
  hw_count : zlength (hd_field_names h) < two32;
  hw_image : in_u64 (hd_image_id h);
  hw_seq : 0 <= hd_seq h < two32;
  hw_xor : zlength (hd_catchup_xor h) = XOR_LEN;
  hw_prev : zlength (hd_prev_xor h) = XOR_LEN;
}.

(** What the reader makes of a header: the regions follow it. *)
Definition image_of (h : ImageHeader) (rows heads_at heads_end bodies_end : Z) (bodies_hash : list Z) : Image :=
  MkImage (hd_name h) RECORD_FORMAT (hd_image_id h) (hd_seq h) (hd_catchup_xor h) (hd_prev_xor h) (hd_field_names h) rows
    (heads_at, heads_end) (heads_end, bodies_end) bodies_hash.

Lemma to_nat_zlength {B} (l : list B) : Z.to_nat (zlength l) = length l.
Proof. unfold zlength. apply Nat2Z.id. Qed.

Lemma write_chunk_len b out : write_chunk b = inr out → 4 <= zlength out.
Proof.
  unfold write_chunk. destruct (_ <? _); [done|]. intros <-%(inj inr). rewrite zlength_app, zlength_to_le_u32. pose proof (zlength_nonneg b). lia.
Qed.

Section header.
Context (h : ImageHeader) (rows heads_len bodies_len : Z) (prefix heads bodies h1 h2 : list Z).
Context (Hh : header_wf h) (Hrows : in_u64 rows) (Hw : write_header h rows heads_len bodies_len = inr prefix).
Context (Hheads : zlength heads = heads_len) (Hbodies : zlength bodies = bodies_len) (H1 : zlength h1 = HASH_LEN) (H2 : zlength h2 = HASH_LEN).
Context (Hsmall : zlength prefix + heads_len + bodies_len < two32).

Let file := prefix ++ heads ++ bodies ++ h1 ++ h2.

Lemma header_parts : ∃ name fields, write_chunk (bytes_of (hd_name h)) = inr name ∧ write_chunks (map bytes_of (hd_field_names h)) = inr fields ∧
  prefix = MAGIC ++ to_le_u32 FORMAT ++ to_le_u32 RECORD_FORMAT ++ to_le_u64 (hd_image_id h) ++ to_le_u32 (hd_seq h) ++ name ++
    hd_catchup_xor h ++ hd_prev_xor h ++ to_le_u32 (zlength (hd_field_names h)) ++ fields ++ to_le_u64 rows ++ to_le_u64 heads_len ++ to_le_u64 bodies_len.
Proof.
  revert Hw. unfold write_header. destruct (write_chunk _) as [|name]; [done|]. destruct (write_chunks _) as [|fields]; [done|].
  intros E%(inj inr). by exists name, fields.
Qed.

Lemma file_len : zlength file = zlength prefix + heads_len + bodies_len + TRAILER_LEN.
Proof. unfold file. rewrite !zlength_app, Hheads, Hbodies, H1, H2. change TRAILER_LEN with (HASH_LEN + HASH_LEN). lia. Qed.

Lemma file_small : zlength file < two64.
Proof. rewrite file_len. change TRAILER_LEN with 64. unfold two64, two32 in *. lia. Qed.

Lemma parse_identity_ok : parse_identity file = inr (MkImageIdentity FORMAT RECORD_FORMAT (hd_image_id h) (hd_seq h)).
Proof.
  destruct header_parts as (name & fields & _ & _ & E). pose proof file_small as Hf. unfold parse_identity.
  set (rest := name ++ hd_catchup_xor h ++ hd_prev_xor h ++ to_le_u32 (zlength (hd_field_names h)) ++ fields ++ to_le_u64 rows ++
    to_le_u64 heads_len ++ to_le_u64 bodies_len ++ heads ++ bodies ++ h1 ++ h2).
  assert (file = MAGIC ++ to_le_u32 FORMAT ++ to_le_u32 RECORD_FORMAT ++ to_le_u64 (hd_image_id h) ++ to_le_u32 (hd_seq h) ++ rest) as Ef
    by (unfold file, rest; rewrite E, <- !app_assoc; done).
  pose proof (zlength_nonneg rest).
  assert (zlength file = 28 + zlength rest) as El by (rewrite Ef; autorewrite with zlen; change (zlength MAGIC) with 8; lia).
  rewrite (proj2 (Z.ltb_ge _ _)) by (change FIXED_PREFIX_LEN with 28; lia).
  assert (has_magic MAGIC file = true) as -> by (apply bool_decide_eq_true_2; by rewrite Ef, take_app_length). cbn [negb].
  assert (MkByteCursor file (zlength MAGIC) = cursor_at file (to_le_u32 FORMAT ++ to_le_u32 RECORD_FORMAT ++ to_le_u64 (hd_image_id h) ++ to_le_u32 (hd_seq h) ++ rest)) as ->.
  { unfold cursor_at. f_equal. rewrite Ef, (zlength_app MAGIC). lia. }
  assert (Hs : (to_le_u32 FORMAT ++ to_le_u32 RECORD_FORMAT ++ to_le_u64 (hd_image_id h) ++ to_le_u32 (hd_seq h) ++ rest) `suffix_of` file)
    by (rewrite Ef; by apply suffix_app_r).
  rewrite (read_u32 file Hf); [|done|done]. apply suffix_rest in Hs. rewrite (read_u32 file Hf); [|done|done]. apply suffix_rest in Hs.
  rewrite (read_u64 file Hf); [|done|apply Hh]. apply suffix_rest in Hs. by rewrite (read_u32 file Hf); [|done|apply Hh].
Qed.

Lemma parse_header_ok :
  parse_header file = inr (image_of h rows (zlength prefix) (zlength prefix + heads_len) (zlength prefix + heads_len + bodies_len) h2).
Proof.
  destruct header_parts as (name & fields & En & Ef & E). pose proof file_small as Hf. pose proof file_len as Hl. unfold parse_header.
  pose proof (write_chunk_len _ _ En) as Hname. pose proof (zlength_nonneg fields) as Hfields.
  pose proof (zlength_nonneg heads). pose proof (zlength_nonneg bodies).
  assert (zlength prefix = 28 + zlength name + 64 + 4 + zlength fields + 24) as Hp.
  { rewrite E. autorewrite with zlen. rewrite (hw_xor _ Hh), (hw_prev _ Hh). change (zlength MAGIC) with 8. unfold XOR_LEN. lia. }
  rewrite (proj2 (Z.ltb_ge _ _)) by (change MIN_IMAGE_LEN with 188; rewrite Hl; change TRAILER_LEN with 64; lia).
  rewrite parse_identity_ok. cbn [id_format id_record_format id_image_id id_seq]. rewrite Z.eqb_refl. cbn [negb].
  set (tail := heads ++ bodies ++ h1 ++ h2).
  assert (MkByteCursor file FIXED_PREFIX_LEN = cursor_at file (name ++ hd_catchup_xor h ++ hd_prev_xor h ++ to_le_u32 (zlength (hd_field_names h)) ++
    fields ++ to_le_u64 rows ++ to_le_u64 heads_len ++ to_le_u64 bodies_len ++ tail)) as ->.
  { unfold cursor_at. f_equal. unfold file. fold tail. rewrite E, <- !app_assoc. autorewrite with zlen. change (zlength MAGIC) with 8. change FIXED_PREFIX_LEN with 28. lia. }
  assert (Hs : (name ++ hd_catchup_xor h ++ hd_prev_xor h ++ to_le_u32 (zlength (hd_field_names h)) ++
    fields ++ to_le_u64 rows ++ to_le_u64 heads_len ++ to_le_u64 bodies_len ++ tail) `suffix_of` file).
  { unfold file. fold tail. rewrite E, <- !app_assoc. do 5 apply suffix_app_r. done. }
  rewrite (read_str file Hf _ _ _ _ En); [|done|apply Hh]. apply suffix_rest in Hs.
  unfold ByteCursor.hash. rewrite (read_bytes file Hf); [|done|apply Hh]. apply suffix_rest in Hs.
  rewrite (read_bytes file Hf); [|done|apply Hh]. apply suffix_rest in Hs.
  pose proof (zlength_nonneg (hd_field_names h)). pose proof (hw_count _ Hh).
  rewrite (read_u32 file Hf); [|done|lia]. apply suffix_rest in Hs.
  rewrite to_nat_zlength, (read_strs file Hf _ _ _ _ Ef); [|done|apply Hh]. apply suffix_rest in Hs.
  assert (in_u64 heads_len ∧ in_u64 bodies_len) as [Hhl Hbl] by (unfold in_u64, two64, two32 in *; lia).
  rewrite (read_u64 file Hf); [|done|done]. apply suffix_rest in Hs. rewrite (read_u64 file Hf); [|done|done]. apply suffix_rest in Hs.
  rewrite (read_u64 file Hf); [|done|done]. apply suffix_rest in Hs.
  assert (bc_at (cursor_at file tail) = zlength prefix) as -> by (cbn; unfold file; fold tail; rewrite zlength_app; lia).
  unfold region_end. rewrite !(proj2 (Z.leb_gt two64 _)) by (change TRAILER_LEN with 64 in *; lia). rewrite Hl, Z.eqb_refl. cbn [orb negb].
  unfold image_of. do 2 f_equal.
  assert (file = (prefix ++ heads ++ bodies ++ h1) ++ h2) as Ef2 by (unfold file; by rewrite <- !app_assoc).
  rewrite Ef2. apply drop_zlength. rewrite !zlength_app, Hheads, Hbodies, H1. lia.
Qed.
End header.

(** ** The regions *)

(** A record written for an entry. *)
Definition rec_ok (r : Rec) (e : string * option RawRow) : Prop :=
  match r, e.2 with
  | RecRow head body, Some row => record_is (e.1, row) (head, body)
  | RecTombstone id, None => id = e.1 ∧ id_wf id
  | _, _ => False
  end.

(** The row a tombstone's head is that of. *)
Definition gone : RawRow := MkRawRow (replicate (Z.to_nat DIGEST_LEN) 0) RV_ABSENT [].

Definition entry_head (e : string * option RawRow) (rel : Z) : list Z :=
  match e.2 with Some row => row_head e.1 row rel | None => row_head e.1 gone 0 end.

Definition entry_body (e : string * option RawRow) : list Z := match e.2 with Some row => rr_body row | None => [] end.

Lemma gone_head_len id : id_wf id → zlength (row_head id gone 0) = head_len_for id.
Proof. intros [_ Hid]. apply head_len_for_spec; [done|]. exact Hid. Qed.

Lemma entry_head_len r e rel : rec_ok r e → 0 <= rel < two32 → zlength (entry_head e rel) = head_len_for e.1 ∧ rec_head_len r = head_len_for e.1.
Proof.
  destruct e as [id [row|]], r as [head body|id']; try done; unfold rec_ok, entry_head; cbn.
  - intros (Hid & Hr & rel' & Hrel' & Eh & _) Hrel. cbn in *. subst head. split; by apply row_head_len.
  - intros [-> Hid] _. split; [by apply gone_head_len|done].
Qed.

Lemma rec_head_entry r e rel : rec_ok r e → 0 <= rel < two32 → rec_head r rel = entry_head e rel.
Proof.
  destruct e as [id [row|]], r as [head body|id']; try done; unfold rec_ok, entry_head; cbn.
  - intros (Hid & Hr & rel' & Hrel' & Eh & _) Hrel. cbn in *. subst head. unfold wrap_u32. rewrite Z.mod_small by done. by apply row_head_relink.
  - intros [-> Hid] _. done.
Qed.

Lemma rec_body_entry r e : rec_ok r e → rec_body r = entry_body e.
Proof. destruct e as [id [row|]], r as [head body|id']; try done. intros (_ & _ & rel & _ & _ & E). exact E. Qed.

Lemma rec_head_len_min r e : rec_ok r e → HEAD_MIN_LEN <= rec_head_len r.
Proof.
  intros Hr. destruct (entry_head_len r e 0 Hr ltac:(done)) as [_ ->].
  assert (id_wf e.1) as [_ Hid] by (destruct e as [id [row|]], r; try done; [apply Hr|destruct Hr as [<- ?]; done]).
  pose proof (zlength_nonneg (bytes_of e.1)). unfold head_len_for. rewrite varint_len_spec by (unfold in_u64, two64; unfold two32 in *; lia).
  pose proof (write_varint_len (zlength (bytes_of e.1))). change HEAD_MIN_LEN with 49. change HEAD_ID_OFFSET with 48. lia.
Qed.

Definition heads_total (recs : list Rec) : Z := sum_z (map rec_head_len recs).
Definition bodies_total (recs : list Rec) : Z := sum_z (map (λ r, zlength (rec_body r)) recs).

Lemma heads_total_cons r recs : heads_total (r :: recs) = rec_head_len r + heads_total recs.
Proof. done. Qed.
Lemma bodies_total_cons r recs : bodies_total (r :: recs) = zlength (rec_body r) + bodies_total recs.
Proof. done. Qed.

Lemma bodies_total_concat recs : zlength (concat (map rec_body recs)) = bodies_total recs.
Proof. induction recs as [|r recs IH]; [done|]. cbn [map concat]. by rewrite zlength_app, IH, bodies_total_cons. Qed.

Lemma bodies_total_nonneg recs : 0 <= bodies_total recs.
Proof. rewrite <- bodies_total_concat. apply zlength_nonneg. Qed.

Lemma heads_total_rows recs ents : Forall2 rec_ok recs ents → HEAD_MIN_LEN * zlength recs <= heads_total recs.
Proof.
  induction 1 as [|r e recs ents Hr _ IH]; [done|]. rewrite heads_total_cons, zlength_cons. pose proof (rec_head_len_min _ _ Hr). lia.
Qed.

(** The heads written from [head_at], the bodies from [body_at] on. *)
Lemma write_heads_cons r e recs head_at body_at : rec_ok r e → 0 <= body_at - head_at < two32 →
  write_heads head_at body_at (r :: recs) = entry_head e (body_at - head_at) ++
    write_heads (head_at + head_len_for e.1) (body_at + zlength (entry_body e)) recs.
Proof.
  intros Hr Hrel. cbn [write_heads]. rewrite (rec_head_entry _ e) by done. destruct (entry_head_len r e _ Hr Hrel) as [-> _].
  by rewrite (rec_body_entry _ _ Hr).
Qed.

Lemma write_heads_len recs ents : Forall2 rec_ok recs ents → ∀ head_at body_at,
  0 <= head_at → head_at + heads_total recs <= body_at → body_at + bodies_total recs < two32 →
  zlength (write_heads head_at body_at recs) = heads_total recs.
Proof.
  induction 1 as [|r e recs ents Hr Hrs IH]; intros head_at body_at Hh Hle Hb; [done|].
  pose proof (rec_head_len_min _ _ Hr) as Hmin. change HEAD_MIN_LEN with 49 in Hmin. pose proof (heads_total_rows _ _ Hrs). pose proof (zlength_nonneg recs).
  change HEAD_MIN_LEN with 49 in *. rewrite heads_total_cons in *. rewrite bodies_total_cons in Hb. pose proof (zlength_nonneg (rec_body r)).
  pose proof (bodies_total_nonneg recs) as Hbn. cbn [write_heads].
  assert (0 <= body_at - head_at < two32) as Hrel by (unfold two32 in *; lia).
  destruct (entry_head_len r e _ Hr Hrel) as [El Er]. rewrite (rec_head_entry _ e) by done. rewrite zlength_app, El, <- Er, IH; [lia|lia|lia|lia].
Qed.

(** Where the loops over an image are: the next head at [at_], the next body at
    [nb], and the records not read yet. *)
Record layout (image : list Z) (recs : list Rec) (at_ nb he be : Z) : Prop := {
  ly_parts : ∃ pre mid post, image = pre ++ write_heads at_ nb recs ++ mid ++ concat (map rec_body recs) ++ post ∧
    zlength pre = at_ ∧ nb = at_ + heads_total recs + zlength mid;
  ly_heads : he = at_ + heads_total recs;
  ly_bodies : be = nb + bodies_total recs;
  ly_small : be < two32;
}.

(** What is read of the next record, and what is left. *)
Record next_of (image : list Z) (e : string * option RawRow) (recs : list Rec) (at_ nb he be : Z) : Prop := {
  nx_at : 0 <= at_;
  nx_rel : head_len_for e.1 <= nb - at_ < two32;
  nx_body_end : nb + zlength (entry_body e) <= be;
  nx_total : head_len_for e.1 + heads_total recs = he - at_ ∧ zlength (entry_body e) + bodies_total recs = be - nb;
  nx_read : ∃ more, drop (Z.to_nat at_) (take (Z.to_nat he) image) = entry_head e (nb - at_) ++ more;
  nx_head : take (length (entry_head e (nb - at_))) (drop (Z.to_nat at_) image) = entry_head e (nb - at_);
  nx_body : take (length (entry_body e)) (drop (Z.to_nat nb) image) = entry_body e;
  nx_left : layout image recs (at_ + head_len_for e.1) (nb + zlength (entry_body e)) he be;
}.

Lemma layout_next image r e recs ents at_ nb he be : rec_ok r e → Forall2 rec_ok recs ents → layout image (r :: recs) at_ nb he be →
  next_of image e recs at_ nb he be.
Proof.
  intros Hr Hrs [(pre & mid & post & Himage & Hpre & Hnb) Hhe Hbe Hsm].
  pose proof (zlength_nonneg pre) as Hp0. pose proof (zlength_nonneg mid) as Hm0. pose proof (heads_total_rows _ _ Hrs) as Hrows. pose proof (zlength_nonneg recs).
  change HEAD_MIN_LEN with 49 in Hrows. pose proof (bodies_total_nonneg recs) as Hb0. pose proof (zlength_nonneg (rec_body r)) as Hb1.
  rewrite heads_total_cons in *. rewrite bodies_total_cons in Hbe. pose proof (rec_head_len_min _ _ Hr) as Hmin. change HEAD_MIN_LEN with 49 in Hmin.
  assert (0 <= nb - at_ < two32) as Hrel by (unfold two32 in *; lia). destruct (entry_head_len r e _ Hr Hrel) as [Hel Hrl].
  pose proof (rec_body_entry _ _ Hr) as Hbody. rewrite Hrl in *. rewrite Hbody in *.
  pose proof (write_heads_cons r e recs at_ nb Hr Hrel) as Hw. rewrite Hw in Himage. cbn [map concat] in Himage. rewrite Hbody in Himage.
  assert (zlength (write_heads (at_ + head_len_for e.1) (nb + zlength (entry_body e)) recs) = heads_total recs) as Hwl
    by (eapply write_heads_len; [exact Hrs|lia|lia|lia]).
  set (head := entry_head e (nb - at_)) in *. set (more := write_heads _ _ recs) in *. set (bodies := concat (map rec_body recs)) in *.
  split; try lia.
  - exists more. assert (image = (pre ++ head ++ more) ++ mid ++ (entry_body e ++ bodies) ++ post) as -> by (rewrite Himage, <- !app_assoc; done).
    rewrite take_zlength by (rewrite !zlength_app; lia). by apply drop_zlength.
  - rewrite Himage. rewrite drop_zlength by done. rewrite <- app_assoc. by rewrite take_app_length.
  - assert (image = (pre ++ head ++ more ++ mid) ++ entry_body e ++ bodies ++ post) as -> by (rewrite Himage, <- !app_assoc; done).
    rewrite drop_zlength by (rewrite !zlength_app; lia). by rewrite take_app_length.
  - split; [|lia|lia|done]. exists (pre ++ head), (mid ++ entry_body e), post. fold more bodies. rewrite !zlength_app, Hel.
    split_and!; [rewrite Himage, <- !app_assoc; done|lia|lia].
Qed.

Lemma layout_len image recs at_ nb he be ents : Forall2 rec_ok recs ents → 0 <= at_ → layout image recs at_ nb he be → be <= zlength image.
Proof.
  intros Hrs Hat [(pre & mid & post & -> & Hpre & Hnb) _ -> Hsm]. pose proof (zlength_nonneg mid). pose proof (zlength_nonneg post).
  rewrite !zlength_app, bodies_total_concat. rewrite (write_heads_len _ _ Hrs at_ nb Hat); lia.
Qed.

(** * What absorbing and indexing a written image gives

    Two loops walk an image's heads: one indexes a base image as it lies, one
    takes a delta's rows and tombstones into a table. Each ends in a table of
    the rows the entries written stand for, and folds their hash. *)

Local Open Scope Z_scope.

(** ** The hash of a table's rows *)

Definition digest_only (r : RawRow) : StoredRow := MkStoredRow Null (rr_digest r).

Definition raw_xor (m : gmap string RawRow) : list Z := xor_rows (digest_only <$> m).

Definition raws_wf (m : gmap string RawRow) : Prop := map_Forall (λ _ r, raw_wf r) m.

Lemma raws_lengths m : raws_wf m → map_Forall (λ _ r, length (sr_digest r) = 32%nat) (digest_only <$> m).
Proof. intros Hm id sr Hs. apply lookup_fmap_Some in Hs as (r & <- & Hr). apply (Hm id r Hr). Qed.

Lemma raw_xor_delete m id r : raws_wf m → m !! id = Some r → raw_xor (delete id m) = xor_digest (raw_xor m) (rr_digest r).
Proof.
  intros Hm Hr. unfold raw_xor. rewrite fmap_delete. apply (xor_rows_delete id (digest_only r)); [by apply raws_lengths|]. by rewrite lookup_fmap, Hr.
Qed.

Lemma raw_xor_new m id r : m !! id = None → raw_xor (<[id := r]> m) = xor_digest (raw_xor m) (rr_digest r).
Proof. intros Hr. unfold raw_xor. rewrite fmap_insert. apply (xor_rows_insert id (digest_only r)). by rewrite lookup_fmap, Hr. Qed.

Lemma raws_delete m id : raws_wf m → raws_wf (delete id m).
Proof. apply map_Forall_delete. Qed.

Lemma raws_insert m id r : raws_wf m → raw_wf r → raws_wf (<[id := r]> m).
Proof. intros. by apply map_Forall_insert_2. Qed.

Lemma raw_xor_insert m id r : raws_wf m →
  raw_xor (<[id := r]> m) = xor_digest (match m !! id with Some r0 => xor_digest (raw_xor m) (rr_digest r0) | None => raw_xor m end) (rr_digest r).
Proof.
  intros Hm. destruct (m !! id) as [r0|] eqn:E; [|by apply raw_xor_new].
  rewrite <- insert_delete_eq, raw_xor_new by apply lookup_delete_eq. by rewrite (raw_xor_delete _ _ _ Hm E).
Qed.

Lemma raw_xor_empty : raw_xor ∅ = xor_empty.
Proof. unfold raw_xor. rewrite fmap_empty. apply map_fold_empty. Qed.

(** Folding into an accumulator [acc] that makes [X] the hash of the rows. *)
Lemma fold_in X acc total d : xor_digest X acc = total → xor_digest X (xor_digest acc d) = xor_digest total d.
Proof. intros <-. by rewrite xor_digest_assoc. Qed.

(** ** A head as it is read *)

Section head.
Context (id : string) (digest : list Z) (rv rel len : Z) (Hid : id_wf id).
Context (Hd : zlength digest = DIGEST_LEN) (Hrv : in_i64 rv) (Hrel : 0 <= rel < two32) (Hlen : 0 <= len < two32).

Lemma read_head_ok n more : let h := encode_head id digest rv rel len in
  RowTable.read_head n (h ++ more) = inr (RowTable.MkHeadRead (head_len_for id) h id digest rel len).
Proof.
  cbv zeta. pose proof (head_len_for_spec id digest rv rel len Hd (proj2 Hid)) as Hl. unfold RowTable.read_head.
  rewrite (head_len_encode id digest rv rel len more Hd (proj2 Hid)), Hl.
  rewrite (take_zlength (encode_head id digest rv rel len) more) by exact Hl.
  rewrite <- (app_nil_r (encode_head id digest rv rel len)). rewrite (head_id_encode id digest rv rel len [] Hd (proj2 Hid) (proj1 Hid)).
  rewrite (head_digest_encode id digest rv rel len [] Hd), (head_body_rel_encode id digest rv rel len [] Hd Hrel).
  rewrite (head_body_len_encode id digest rv rel len [] Hd Hlen). done.
Qed.
End head.

Lemma read_row_head id r rel n more : id_wf id → raw_wf r → 0 <= rel < two32 →
  RowTable.read_head n (row_head id r rel ++ more) = inr (RowTable.MkHeadRead (head_len_for id) (row_head id r rel) id (rr_digest r) rel (zlength (rr_body r))).
Proof.
  intros Hid Hr Hrel. apply read_head_ok; [done|by apply digest_length|done|]. destruct Hr as [_ _ Hb]. lia.
Qed.

Lemma read_gone_head id n more : id_wf id →
  RowTable.read_head n (row_head id gone 0 ++ more) = inr (RowTable.MkHeadRead (head_len_for id) (row_head id gone 0) id (rr_digest gone) 0 0).
Proof. intros Hid. by apply (read_head_ok id (rr_digest gone) RV_ABSENT 0 0). Qed.

(** ** Taking in a delta *)

Section absorb.
Context `{IdHash} `{HashTableLaws}.
Implicit Types (t : RowTable HeapArena) (m : gmap string RawRow).

Lemma represents_raws t m : represents t m → raws_wf m.
Proof.
  intros [_ (ents & Hf & Hn & ->)] id r E. apply ents_lookup in E; [|done]. destruct (Forall2_elem_r _ _ _ _ Hf E) as (it & _ & _ & [_ Hr _ _] & _). exact Hr.
Qed.

Lemma place_appended id s t : appended_bytes (rt_arena (RowTable.place id s t).2) = appended_bytes (rt_arena t).
Proof.
  unfold RowTable.place. destruct (ht_replace _ _ _ _) as [[old index]|]; [|done]. unfold RowTable.free_slot. cbn. by destruct (body_of _ _).
Qed.

Lemma remove_slot_appended id t : appended_bytes (rt_arena (RowTable.remove_slot id t).2) = appended_bytes (rt_arena t).
Proof.
  unfold RowTable.remove_slot. destruct (ht_remove _ _ _) as [[old index]|]; [|done]. unfold RowTable.free_slot. cbn. by destruct (body_of _ _).
Qed.

(** What absorbing keeps: the rows, and the hash folded so far. *)
Record absorbing (X : list Z) t m (out : Absorbed) : Prop := {
  ag_rep : represents t m;
  ag_xor : xor_digest X (ab_xor out) = raw_xor m;
}.

Lemma absorb_tombstone_ok X t m out id : absorbing X t m out →
  let '(t', out') := RowTable.absorb_tombstone id t out in
  absorbing X t' (delete id m) out' ∧ rt_dict t' = rt_dict t ∧ appended_bytes (rt_arena t') = appended_bytes (rt_arena t).
Proof.
  intros [Hr Hx]. unfold RowTable.absorb_tombstone. rewrite (digest_of_spec _ _ _ Hr). destruct (m !! id) as [r|] eqn:E; cbn [fmap option_fmap option_map].
  - split_and!; [split|by apply remove_rows|apply remove_slot_appended]; [by apply remove_slot_spec|]. cbn [ab_xor].
    rewrite (raw_xor_delete _ _ r); [by apply fold_in|by eapply represents_raws|done].
  - split_and!; [split|done|done]; by rewrite delete_id.
Qed.

Lemma absorb_row_ok X t m out image at_ next_body id r rel : absorbing X t m out → id_wf id → raw_wf r → 0 <= rel < two32 →
  let record := row_head id r (head_len_for id) ++ rr_body r in
  heap_room (rt_arena t) record → take (length (rr_body r)) (drop (Z.to_nat next_body) image) = rr_body r →
  let h := RowTable.MkHeadRead (head_len_for id) (row_head id r rel) id (rr_digest r) rel (zlength (rr_body r)) in
  let '(t', out') := RowTable.absorb_row image at_ next_body h Copy t out in
  absorbing X t' (<[id := r]> m) out' ∧ rt_dict t' = rt_dict t ∧ appended_bytes (rt_arena t') = appended_bytes (rt_arena t) + zlength record.
Proof.
  intros [Hr Hx] Hid Hw Hrel record Hroom Hbody h. unfold RowTable.absorb_row, h. cbn [RowTable.hr_id RowTable.hr_digest RowTable.hr_len RowTable.hr_head RowTable.hr_body_len].
  rewrite to_nat_zlength, Hbody, (digest_of_spec _ _ _ Hr). pose proof (head_len_for_pos id) as Hpos. destruct Hid as [Hu Hl].
  pose proof (zlength_nonneg (bytes_of id)). specialize (Hpos ltac:(lia)).
  pose proof (head_len_small t id record (zlength (rr_body r)) (rp_arena _ _ Hr) Hroom) as Hsmall.
  assert (zlength (row_head id r 0) = head_len_for id) as Hlen0 by by apply row_head_len.
  assert (zlength record = head_len_for id + zlength (rr_body r)) as Hrec.
  { unfold record. rewrite zlength_app, <- Hlen0. f_equal. unfold row_head, encode_head. by autorewrite with zlen. }
  destruct (Hsmall Hrec (zlength_nonneg _) Hpos) as [-> Hlt]. rewrite row_head_relink by done. fold record.
  pose proof (append_place_spec t m id r Hr (conj Hu Hl) Hw Hroom) as Hap. pose proof (appended_append (rt_arena t) record (rp_arena _ _ Hr) Hroom) as Hbytes.
  fold record in Hap. destruct (RowTable.append_record record (head_len_for id) t) as [s t1] eqn:E1.
  assert (appended_bytes (rt_arena t1) = appended_bytes (rt_arena t) + zlength record) as Hb1.
  { unfold RowTable.append_record in E1. cbn [arena_append HeapArena.heap_arena] in E1. destruct (HeapArena.append record (rt_arena t)) as [sp a'].
    injection E1 as <- <-. exact Hbytes. }
  pose proof (place_appended id s t1) as Hb2. destruct (RowTable.place id s t1) as [replaced t']. cbn [snd] in *. destruct Hap as (_ & Hr' & Hp).
  split_and!; [split|apply Hp|lia]; [done|]. cbn [ab_xor]. rewrite (raw_xor_insert _ _ _ (represents_raws _ _ Hr)).
  apply fold_in. destruct (m !! id); cbn; [by apply fold_in|done].
Qed.

(** The loop. *)
Lemma absorb_rows_ok X image he be recs ents : Forall2 rec_ok recs ents → ∀ n at_ nb t m out, layout image recs at_ nb he be →
  absorbing X t m out → appended_bytes (rt_arena t) + heads_total recs + bodies_total recs <= HEAP_ROOM →
  ∃ t' out', RowTable.absorb_rows image he be Copy (length recs) n at_ nb t out = (t', inr (he, be, out')) ∧
    absorbing X t' (apply_entries m ents) out' ∧ rt_dict t' = rt_dict t ∧
    appended_bytes (rt_arena t') <= appended_bytes (rt_arena t) + heads_total recs + bodies_total recs.
Proof.
  induction 1 as [|r e recs ents Hr Hrs IH]; intros n at_ nb t m out Hly Hag Hroom.
  - destruct Hly as [_ -> -> _]. change (heads_total []) with 0. change (bodies_total []) with 0. exists t, out. rewrite !Z.add_0_r. split_and!; [done|done|done|lia].
  - destruct (layout_next _ _ _ _ _ _ _ _ _ Hr Hrs Hly) as [Hat Hrel Hend [Hth Htb] (more & Hread) _ Hbody Hleft].
    pose proof (ly_small _ _ _ _ _ _ Hly) as Hsm. pose proof (ly_heads _ _ _ _ _ _ Hly) as Hhe. pose proof (ly_bodies _ _ _ _ _ _ Hly) as Hbe.
    rewrite heads_total_cons in Hroom, Hhe |- *. rewrite bodies_total_cons in Hroom, Hbe |- *. cbn [length RowTable.absorb_rows]. rewrite Hread.
    rewrite (rec_body_entry _ _ Hr) in *. pose proof (zlength_nonneg (entry_body e)) as Hb0.
    assert (0 <= rec_head_len r) as Hh0 by (pose proof (rec_head_len_min _ _ Hr) as Hm; change HEAD_MIN_LEN with 49 in Hm; lia).
    assert (rec_head_len r = head_len_for e.1) as Hrl by (apply (entry_head_len r e 0); done). rewrite Hrl in *.
    destruct e as [id [row|]], r as [head body|id']; try done; unfold rec_ok in Hr; cbn [fst snd entry_head entry_body] in *.
    + destruct Hr as (Hid & Hw & _). cbn [fst snd] in Hid, Hw.
      rewrite (read_row_head id row (nb - at_) n more Hid Hw) by (unfold head_len_for in *; lia).
      cbn [RowTable.hr_body_len RowTable.hr_len RowTable.hr_id]. pose proof (rw_body _ Hw) as Hwb.
      rewrite (proj2 (Z.eqb_neq _ 0)) by lia. unfold RowTable.bad_body. cbn [RowTable.hr_body_len RowTable.hr_len RowTable.hr_rel].
      rewrite (proj2 (Z.ltb_ge _ _)) by lia. rewrite (proj2 (Z.eqb_eq _ _)) by lia. rewrite (proj2 (Z.ltb_ge _ _)) by lia. cbn [orb negb].
      assert (zlength (row_head id row (head_len_for id) ++ rr_body row) = head_len_for id + zlength (rr_body row)) as Hrec.
      { rewrite zlength_app. f_equal. apply row_head_len; try done; lia. }
      pose proof (absorb_row_ok X t m out image at_ nb id row (nb - at_) Hag Hid Hw ltac:(lia)) as Ha. cbv zeta in Ha.
      pose proof (bodies_total_nonneg recs). pose proof (heads_total_rows _ _ Hrs) as Hrows. pose proof (zlength_nonneg recs). change HEAD_MIN_LEN with 49 in Hrows.
      specialize (Ha ltac:(split; rewrite Hrec; lia) Hbody). destruct (RowTable.absorb_row _ _ _ _ _ _ _) as [t1 out1]. destruct Ha as (Hag1 & Hd1 & Ha1).
      rewrite Hrec in Ha1. destruct (IH (n + 1) _ _ t1 _ out1 Hleft Hag1 ltac:(lia)) as (t' & out' & E & Hag' & Hd' & Ha').
      exists t', out'. split_and!; [exact E|exact Hag'|congruence|lia].
    + destruct Hr as [-> Hid]. rewrite (read_gone_head id n more Hid). cbn [RowTable.hr_body_len RowTable.hr_len RowTable.hr_id]. cbn [Z.eqb].
      pose proof (absorb_tombstone_ok X t m out id Hag) as Ha. destruct (RowTable.absorb_tombstone id t out) as [t1 out1]. destruct Ha as (Hag1 & Hd1 & Ha1).
      change (zlength (@nil Z)) with 0 in *. rewrite Z.add_0_r in Hleft.
      destruct (IH (n + 1) _ _ t1 _ out1 Hleft Hag1 ltac:(lia)) as (t' & out' & E & Hag' & Hd' & Ha').
      exists t', out'. split_and!; [exact E|exact Hag'|congruence|lia].
Qed.
End absorb.

(** ** Indexing a base image *)

Section index.
Context `{IdHash} `{HashTableLaws}.
Context (image : list Z) (live epoch : Z) (dict : FieldDict) (Himage : zlength image < two64 - 1).

Let arena := HeapArena.from_buf image live.

Lemma from_buf_slice s : arena_get arena s ≠ [] → slice (sp_off s) (sp_off s + sp_len s) image = Some (arena_get arena s).
Proof.
  cbn [arena_get HeapArena.heap_arena]. unfold HeapArena.get, arena. cbn [HeapArena.from_buf ha_segs]. intros Hg.
  destruct (Z.ltb_spec (sp_seg s) 0) as [Hneg|Hpos].
  { exfalso. apply Hg. unfold zlookup. by rewrite (proj2 (Z.ltb_lt _ _) Hneg). }
  rewrite zlookup_spec in Hg |- * by done. destruct (Z.to_nat (sp_seg s)) as [|k]; [|by destruct Hg]. change ([image] !! 0%nat) with (Some image) in *.
  unfold saturating_add in *. destruct (Z.le_gt_cases usize_max (sp_off s + sp_len s)) as [Hle|Hgt].
  - exfalso. apply Hg. rewrite Z.min_r by done. unfold slice. rewrite (proj2 (Z.leb_gt usize_max _)); [by rewrite andb_false_r|]. unfold usize_max. lia.
  - rewrite Z.min_l in * by lia. by destruct (slice _ _ image).
Qed.

Lemma id_in_stored s id r : stored arena s id r → id_in image s = Some id.
Proof.
  intros Hs. pose proof (stored_slot_id _ _ _ _ Hs) as Hid. destruct Hs as [Hwf Hr _ (rel & Hrel & _ & Hh & _)]. unfold id_in.
  rewrite from_buf_slice; [exact Hid|]. rewrite Hh. by apply row_head_nonempty.
Qed.

Definition indexed (index : htable Span) (m : gmap string RawRow) : Prop := represents (RowTable.from_parts epoch dict index arena) m.

Lemma indexed_hashes index m : indexed index m → ∀ h s, (h, s) ∈ ht_items index → RowTable.block_hash image s = h.
Proof.
  intros [_ (ents & Hf & _)] h s Hin. destruct (Forall2_elem_l _ _ _ _ Hf Hin) as (e & _ & Hh & Hs & _). cbn in Hh, Hs.
  unfold RowTable.block_hash. by rewrite (id_in_stored _ _ _ Hs).
Qed.

Lemma indexed_find index m id : indexed index m → m !! id = None → ht_find (id_hash id) (λ s, is_id id (id_in image s)) index = None.
Proof.
  intros [_ (ents & Hf & Hn & ->)] Hm. destruct (ht_find _ _ _) as [s|] eqn:E; [|done]. exfalso.
  apply ht_find_Some in E as [Hp (h & Hin)]. destruct (Forall2_elem_l _ _ _ _ Hf Hin) as ([id' r] & He & _ & Hs & _). cbn in Hs.
  rewrite (id_in_stored _ _ _ Hs) in Hp. apply String.eqb_eq in Hp as ->. apply ents_lookup in He; [congruence|done].
Qed.

(** A row's slot is where its head lies in the image. *)
Lemma indexed_slot id r at_ nb : id_wf id → raw_wf r → 0 <= at_ → head_len_for id <= nb - at_ → nb + zlength (rr_body r) <= zlength image →
  nb + zlength (rr_body r) < two32 → take (length (row_head id r (nb - at_))) (drop (Z.to_nat at_) image) = row_head id r (nb - at_) →
  take (length (rr_body r)) (drop (Z.to_nat nb) image) = rr_body r → stored arena (MkSpan 0 at_ (head_len_for id)) id r.
Proof.
  intros Hid Hr Hat Hle Hlen Hsm Hhead Hbody. pose proof (rw_body _ Hr) as Hb. pose proof (head_len_for_pos id) as Hpos. destruct (Hid) as [_ Hl].
  pose proof (zlength_nonneg (bytes_of id)). specialize (Hpos ltac:(lia)).
  assert (zlength (row_head id r (nb - at_)) = head_len_for id) as El by (apply row_head_len; try done; lia).
  split; [done|done|done|]. exists (nb - at_). cbn [sp_off sp_seg arena_get HeapArena.heap_arena]. unfold arena.
  rewrite !from_buf_get by (unfold two64, two32 in *; lia). replace (at_ + (nb - at_)) with nb by lia.
  rewrite to_nat_zlength, <- El, to_nat_zlength. split_and!; [lia|lia|lia|done|done].
Qed.

Lemma index_rows_ok he be recs ups : Forall2 rec_ok recs (upserts ups) → ∀ n at_ nb ix m, 0 <= at_ → layout image recs at_ nb he be →
  indexed (ih_index ix) m → ih_xor ix = raw_xor m → NoDup ups.*1 → Forall (λ id, m !! id = None) ups.*1 →
  ∃ ix', RowTable.index_rows image he be 0 (length recs) n at_ nb ix = inr (he, be, ix') ∧
    indexed (ih_index ix') (apply_entries m (upserts ups)) ∧ ih_xor ix' = raw_xor (apply_entries m (upserts ups)).
Proof.
  revert recs. induction ups as [|[id row] ups IH]; intros recs Hf; inversion Hf as [|r e recs' ents Hr Hrs]; subst; intros n at_ nb ix m Hat Hly Hix Hx Hn Hm.
  - destruct Hly as [_ -> -> _]. change (heads_total []) with 0. change (bodies_total []) with 0. exists ix. by rewrite !Z.add_0_r.
  - pose proof (layout_len _ _ _ _ _ _ _ Hf Hat Hly) as Hlen. pose proof (ly_small _ _ _ _ _ _ Hly) as Hsm.
    destruct (layout_next _ _ _ _ _ _ _ _ _ Hr Hrs Hly) as [_ Hrel Hend _ (more & Hread) Hhead Hbody Hleft].
    cbn [length RowTable.index_rows]. rewrite Hread. destruct r as [head body|]; [|done]. destruct Hr as (Hid & Hw & _).
    cbn [fst snd entry_head entry_body upserts map] in *. pose proof (rw_body _ Hw) as Hwb. pose proof (head_len_for_pos id) as Hpos.
    destruct (Hid) as [_ Hl]. pose proof (zlength_nonneg (bytes_of id)). specialize (Hpos ltac:(lia)).
    rewrite (read_row_head id row (nb - at_) n more Hid Hw) by lia. cbn [RowTable.hr_body_len RowTable.hr_len RowTable.hr_id RowTable.hr_digest].
    rewrite (proj2 (Z.eqb_neq _ 0)) by lia. unfold RowTable.bad_body. cbn [RowTable.hr_body_len RowTable.hr_len RowTable.hr_rel].
    rewrite (proj2 (Z.ltb_ge _ _)) by lia. rewrite (proj2 (Z.eqb_eq _ _)) by lia. rewrite (proj2 (Z.ltb_ge _ _)) by lia. cbn [orb negb].
    apply NoDup_cons in Hn as [Hni Hn]. apply Forall_cons in Hm as [Hmi Hm]. cbn [fst] in Hmi, Hni. rewrite (indexed_find _ _ _ Hix Hmi).
    unfold wrap_u32. rewrite !Z.mod_small by lia.
    match goal with |- context [RowTable.index_rows _ _ _ _ _ _ _ _ ?next] =>
      apply (IH recs' Hrs (n + 1) (at_ + head_len_for id) (nb + zlength (rr_body row)) next (<[id := row]> m)) end;
      [lia|exact Hleft| | |done| ].
    + cbn [ih_index]. apply (insert_unique_spec (RowTable.from_parts epoch dict (ih_index ix) arena)); [done| |done|done|by eapply indexed_hashes].
      apply (indexed_slot id row at_ nb); try done; lia.
    + cbn [ih_xor]. by rewrite Hx, raw_xor_new.
    + apply Forall_forall. intros id' Hid'. rewrite lookup_insert_ne; [|by intros ->]. by apply (Forall_forall _ _) with (1 := Hm).
Qed.
End index.
