(* ===== verification/CheckpointChain.v ===== *)
(** * A base image and its deltas read back

    Proves that the files a table's checkpoints write, a base image and then
    one delta after another, read back to a table of the rows the last of them
    was written from. *)

From S2P Require Import Prelude Platform Value RowCodec RowCodecSpec ValueRef SnapshotHash Store StoreFacts Arena.
From S2P Require Import RowTable RowTableFacts RowTableDelta Checkpoint CheckpointFacts.
Local Open Scope Z_scope.

(** ** One file *)

Section file.
Context `{HashingLaws}.

Lemma blake3_zlength bs : zlength (blake3 bs) = HASH_LEN.
Proof. unfold zlength. by rewrite blake3_length. Qed.

(** What a written file is to its reader. *)
Record written_file (h : ImageHeader) (recs : list Rec) (file : list Z) (im : Image) : Prop := {
  wf_identity : parse_identity file = inr (MkImageIdentity FORMAT RECORD_FORMAT (hd_image_id h) (hd_seq h));
  wf_header : parse_header file = inr im;
  wf_heads : check_heads file im = None;
  wf_bodies : bodies_verified file (im_bodies im) (im_bodies_hash im) = true;
  wf_image : ∃ ha he be hash, im = image_of h (zlength recs) ha he be hash ∧ 0 <= ha ∧ layout file recs ha he he be;
  wf_regions : RowTable.check_regions file (im_heads im) (im_bodies im) (im_rows im) = None;
  wf_small : zlength file < two32 + TRAILER_LEN;
  wf_total : heads_total recs + bodies_total recs <= zlength file;
}.

Lemma write_image_ok h recs ents mark file w : header_wf h → Forall2 rec_ok recs ents → write_image h recs mark = inr (file, w) →
  ∃ im, written_file h recs file im.
Proof.
  intros Hh Hrs. unfold write_image. fold (heads_total recs) (bodies_total recs).
  destruct (write_header _ _ _ _) as [|prefix] eqn:Ew; [done|]. destruct (_ <? _) eqn:Esm; [done|]. apply Z.ltb_ge in Esm.
  pose proof (heads_total_rows _ _ Hrs) as Hrows. change HEAD_MIN_LEN with 49 in Hrows. pose proof (zlength_nonneg recs). pose proof (zlength_nonneg prefix).
  pose proof (bodies_total_nonneg recs) as Hb0. set (hl := heads_total recs) in *. set (bl := bodies_total recs) in *.
  set (heads := write_heads (zlength prefix) (zlength prefix + hl) recs). set (bodies := concat (map rec_body recs)). cbv zeta.
  assert (zlength heads = hl) as Hhl by (eapply write_heads_len; [exact Hrs|lia|lia|lia]).
  assert (zlength bodies = bl) as Hbl by apply bodies_total_concat.
  set (h1 := blake3 (prefix ++ heads)). set (h2 := blake3 bodies). rewrite <- app_assoc. intros [= <- _].
  assert (zlength h1 = HASH_LEN) as Hl1 by apply blake3_zlength. assert (zlength h2 = HASH_LEN) as Hl2 by apply blake3_zlength.
  assert (in_u64 (zlength recs)) as Hr64 by (unfold in_u64, two64, two32 in *; lia). assert (zlength prefix + hl + bl < two32) as Hsm by lia.
  exists (image_of h (zlength recs) (zlength prefix) (zlength prefix + hl) (zlength prefix + hl + bl) h2).
  pose proof (file_len hl bl prefix heads bodies h1 h2 Hhl Hbl Hl1 Hl2) as Hfl. change TRAILER_LEN with 64 in Hfl.
  set (file := prefix ++ heads ++ bodies ++ h1 ++ h2) in *.
  assert (file = (prefix ++ heads) ++ bodies ++ h1 ++ h2) as Ef by (unfold file; by rewrite <- !app_assoc).
  assert (zlength (prefix ++ heads) = zlength prefix + hl) as Htop by (rewrite zlength_app; lia).
  split.
  - by eapply parse_identity_ok.
  - by eapply parse_header_ok.
  - unfold check_heads, heads_verified, image_of. cbn [im_record_format im_heads im_bodies snd]. rewrite Z.eqb_refl. cbn [negb].
    rewrite bool_decide_eq_true_2; [done|]. rewrite Ef. rewrite take_zlength by done.
    assert ((prefix ++ heads) ++ bodies ++ h1 ++ h2 = ((prefix ++ heads) ++ bodies) ++ h1 ++ h2) as -> by (by rewrite <- !app_assoc).
    rewrite drop_zlength by (rewrite zlength_app; lia). by rewrite take_zlength.
  - apply bool_decide_eq_true_2. cbn [im_bodies im_bodies_hash image_of fst snd]. rewrite Ef, drop_zlength by done. rewrite take_zlength; [done|lia].
  - exists (zlength prefix), (zlength prefix + hl), (zlength prefix + hl + bl), h2. split_and!; [done|done|]. split; [|done|done|done].
    exists prefix, [], (h1 ++ h2). split_and!; [|done|change (zlength (@nil Z)) with 0; fold hl; lia]. cbn [app]. done.
  - unfold RowTable.check_regions. cbn [im_heads im_bodies im_rows image_of fst snd]. rewrite !(proj2 (Z.ltb_ge _ _)); [done|..]; try lia.
    apply Z.div_le_lower_bound; change HEAD_MIN_LEN with 49; lia.
  - change TRAILER_LEN with 64. lia.
  - fold hl bl. lia.
Qed.
End file.

(** ** Dictionaries *)

Lemma dict_eq d d' : dict_wf d → dict_wf d' → fd_names d = fd_names d' → d = d'.
Proof.
  intros Hd Hd' En. destruct d as [names ids], d' as [names' ids']. cbn in En. subst names'. f_equal.
  apply map_eq. intros n. apply option_eq. intros i. rewrite (dict_ids _ Hd n i), (dict_ids _ Hd' n i). done.
Qed.

Lemma dict_names_nodup d : dict_wf d → NoDup (fd_names d).
Proof.
  intros Hd. apply NoDup_alt. intros i j n Hi Hj.
  assert (∀ k, fd_names d !! k = Some n → fd_ids d !! n = Some (Z.of_nat k)) as Hk.
  { intros k Hk. apply (dict_ids _ Hd). split; [lia|]. unfold FieldDict.name. rewrite zlookup_spec by lia. by rewrite Nat2Z.id. }
  pose proof (Hk _ Hi) as E. rewrite (Hk _ Hj) in E. injection E. lia.
Qed.

Lemma intern_new d n : dict_wf d → n ∉ fd_names d → FieldDict.len d < two32 →
  ∃ d', FieldDict.intern d n = (FieldDict.len d, d') ∧ dict_wf d' ∧ fd_names d' = fd_names d ++ [n].
Proof.
  intros Hd Hn Hl. destruct (FieldDict.intern d n) as [i d'] eqn:E. pose proof (intern_spec d n i d' E Hd) as Hs. unfold FieldDict.intern in E.
  destruct (fd_ids d !! n) as [k|] eqn:Ek.
  - exfalso. apply Hn. apply (dict_ids _ Hd) in Ek as [Hk Ek]. unfold FieldDict.name in Ek. rewrite zlookup_spec in Ek by done. by eapply list_elem_of_lookup_2.
  - injection E as <- <-. pose proof (zlength_nonneg (fd_names d)). unfold FieldDict.len in *. cbn [fd_names] in *.
    rewrite zlength_app in Hs. change (zlength [n]) with 1 in Hs. unfold wrap_u32 in *. rewrite Z.mod_small in * by lia.
    eexists. split_and!; [done|apply Hs; lia|done].
Qed.

Lemma from_names_ok names : ∀ d, dict_wf d → NoDup (fd_names d ++ names) → zlength (fd_names d ++ names) <= two32 →
  ∃ d', FieldDict.from_names_loop names (FieldDict.len d) d = Some d' ∧ dict_wf d' ∧ fd_names d' = fd_names d ++ names.
Proof.
  induction names as [|n names IH]; intros d Hd Hn Hl; cbn [FieldDict.from_names_loop]; [exists d; by rewrite app_nil_r|].
  pose proof (zlength_nonneg names). rewrite zlength_app, zlength_cons in Hl.
  destruct (intern_new d n Hd) as (d1 & -> & Hd1 & En).
  { apply NoDup_app in Hn as (_ & Hn & _). intros Hin. apply (Hn n Hin). by left. }
  { unfold FieldDict.len. lia. }
  rewrite Z.eqb_refl. assert (FieldDict.len d + 1 = FieldDict.len d1) as -> by (unfold FieldDict.len; rewrite En, zlength_app; done).
  destruct (IH d1 Hd1) as (d' & E & Hd' & En'); [by rewrite En, <- app_assoc|rewrite En, <- app_assoc, zlength_app; cbn; rewrite zlength_cons; lia|].
  exists d'. rewrite E, En', En, <- app_assoc. done.
Qed.

(** The names a dictionary lists give it back. *)
Lemma from_names_back d : dict_wf d → FieldDict.from_names (fd_names d) = Some d.
Proof.
  intros Hd. destruct (from_names_ok (fd_names d) FieldDict.new) as (d' & E & Hd' & En); [apply dict_new_wf|by apply dict_names_nodup|apply Hd|].
  unfold FieldDict.from_names. change 0 with (FieldDict.len FieldDict.new). rewrite E. f_equal. by apply dict_eq.
Qed.

Section extend.
Context `{HashTable} {A : Type}.
Implicit Types (t : RowTable A).

Lemma with_dict_twice d d' t : with_dict d' (with_dict d t) = with_dict d' t.
Proof. done. Qed.

Lemma extend_dict_ok names : ∀ t, dict_wf (rt_dict t) → NoDup (fd_names (rt_dict t) ++ names) → zlength (fd_names (rt_dict t) ++ names) <= two32 →
  ∃ d', RowTable.extend_dict names t = (true, with_dict d' t) ∧ dict_wf d' ∧ fd_names d' = fd_names (rt_dict t) ++ names.
Proof.
  induction names as [|n names IH]; intros t Hd Hn Hl; cbn [RowTable.extend_dict]; [exists (rt_dict t); rewrite app_nil_r; by destruct t|].
  pose proof (zlength_nonneg names). pose proof (zlength_nonneg (fd_names (rt_dict t))). rewrite zlength_app, zlength_cons in Hl.
  destruct (intern_new (rt_dict t) n Hd) as (d1 & -> & Hd1 & En).
  { apply NoDup_app in Hn as (_ & Hn & _). intros Hin. apply (Hn n Hin). by left. }
  { unfold FieldDict.len. lia. }
  unfold wrap_u32. rewrite Z.mod_small by (unfold FieldDict.len; lia). rewrite Z.eqb_refl.
  destruct (IH (with_dict d1 t) Hd1) as (d' & E & Hd' & En'); cbn [with_dict rt_dict] in *;
    [by rewrite En, <- app_assoc|rewrite En, <- app_assoc, zlength_app; cbn; rewrite zlength_cons; lia|].
  exists d'. rewrite E, En', En, <- app_assoc. done.
Qed.

(** A dictionary is extended to any it is the beginning of. *)
Lemma extend_dict_to t d : dict_wf (rt_dict t) → dict_wf d → dict_le (rt_dict t) d →
  RowTable.extend_dict (drop (Z.to_nat (FieldDict.len (rt_dict t))) (fd_names d)) t = (true, with_dict d t).
Proof.
  intros Ht Hd [k Ek]. unfold FieldDict.len. rewrite to_nat_zlength, Ek, drop_app_length.
  destruct (extend_dict_ok k t Ht) as (d' & E & Hd' & En'); [rewrite <- Ek; by apply dict_names_nodup|rewrite <- Ek; apply Hd|].
  rewrite E. do 2 f_equal. apply dict_eq; [done|done|congruence].
Qed.
End extend.

(** ** Collections *)

Lemma xor_digest_empty l : length l = 32%nat → xor_digest l xor_empty = l.
Proof.
  unfold xor_digest, xor_empty. intros <-. induction l as [|b l IH]; [done|]. cbn [length List.repeat zip_with]. by rewrite IH, Z.lxor_0_r.
Qed.

Lemma raw_xor_length m : raws_wf m → length (raw_xor m) = 32%nat.
Proof. intros Hm. apply xor_rows_length. by apply raws_lengths. Qed.

Section collections.
Context `{HashingLaws} `{IdHash} `{HashTableLaws} {A : Type} `{ArenaLaws A}.

(** A collection of rows [m], its hash and its dictionary in order. *)
Record coll_ok (coll : TableColl A) (m : gmap string RawRow) : Prop := {
  co_rep : represents (tc_rows coll) m;
  co_xor : tc_catchup_xor coll = raw_xor m;
  co_dict : dict_wf (rt_dict (tc_rows coll));
  co_fields : FieldDict.len (rt_dict (tc_rows coll)) < two32;
  co_names : Forall (λ s, utf8_valid (bytes_of s) = true) (fd_names (rt_dict (tc_rows coll)));
  co_name : utf8_valid (bytes_of (tc_name coll)) = true;
}.

Lemma represents_wf (t : RowTable A) m : represents t m → raws_wf m.
Proof.
  intros [_ (ents & Hf & Hn & ->)] id r E. apply ents_lookup in E; [|done]. destruct (Forall2_elem_r _ _ _ _ Hf E) as (it & _ & _ & [_ Hr _ _] & _). exact Hr.
Qed.

Lemma upserts_ok ups recs : Forall2 record_is ups recs → Forall2 rec_ok (map rec_row recs) (upserts ups).
Proof. induction 1 as [|[id r] [head body] ups recs Hr _ IH]; constructor; [exact Hr|exact IH]. Qed.

Lemma removals_ok ids : Forall id_wf ids → Forall2 rec_ok (map RecTombstone ids) (removals ids).
Proof. induction 1 as [|id ids Hid _ IH]; constructor; [done|exact IH]. Qed.

(** Every record of a table. *)
Lemma records_exact (t : RowTable A) m : represents t m → ∃ ups, Forall2 record_is ups (RowTable.records t) ∧ NoDup ups.*1 ∧ apply_entries ∅ (upserts ups) = m.
Proof.
  intros Hr. pose proof Hr as [_ (ents & Hf & Hn & Hm)]. destruct (records_where t (λ _, false) _ _ Hf) as (ups & Hups & Hsub & Hin).
  assert (NoDup ups.*1) as Hnd by (eapply sublist_NoDup; [exact Hn|]; by apply fmap_sublist).
  exists ups. split_and!; [exact Hups|done|]. apply map_eq. intros id. rewrite apply_upserts, lookup_empty by done. subst m.
  destruct (list_to_map ups !! id) as [r|] eqn:El.
  - apply (ents_lookup ups) in El; [|done]. symmetry. apply ents_lookup; [done|]. by eapply elem_of_sublist.
  - symmetry. apply eq_None_not_Some. intros [r E]. apply ents_lookup in E; [|done].
    destruct (Forall2_elem_zip _ _ _ _ Hf E) as (it & Hz & _). specialize (Hin _ _ Hz eq_refl). apply (ents_lookup ups) in Hin; [congruence|done].
Qed.

Lemma coll_header coll m image_id seq prev : coll_ok coll m → in_u64 image_id → 0 <= seq < two32 → zlength prev = XOR_LEN →
  header_wf (MkImageHeader (tc_name coll) image_id seq (tc_catchup_xor coll) prev (fd_names (rt_dict (tc_rows coll)))).
Proof.
  intros [Hr Hx Hd Hf Hns Hn] Hid Hseq Hp. split; cbn; try done. rewrite Hx. unfold zlength. by rewrite (raw_xor_length _ (represents_wf _ _ Hr)).
Qed.

(** A base image and its header. *)
Lemma write_collection_ok coll m image_id file w : coll_ok coll m → in_u64 image_id → write_collection coll image_id = inr (file, w) →
  ∃ ups im, Forall2 rec_ok (map rec_row (RowTable.records (tc_rows coll))) (upserts ups) ∧ NoDup ups.*1 ∧ apply_entries ∅ (upserts ups) = m ∧
    written_file (MkImageHeader (tc_name coll) image_id 0 (tc_catchup_xor coll) xor_empty (fd_names (rt_dict (tc_rows coll))))
      (map rec_row (RowTable.records (tc_rows coll))) file im.
Proof.
  intros Hc Hid Hw. destruct (records_exact _ _ (co_rep _ _ Hc)) as (ups & Hf & Hn & Hm). apply upserts_ok in Hf.
  destruct (write_image_ok _ _ _ _ _ _ (coll_header coll m image_id 0 xor_empty Hc Hid ltac:(done) ltac:(done)) Hf Hw) as (im & Him).
  by exists ups, im.
Qed.

(** A delta, what it holds and its header. *)
Lemma write_delta_ok coll m base image_id seq prev file w : coll_ok coll m → watermark base (tc_rows coll) m → in_u64 image_id → 0 <= seq < two32 →
  zlength prev = XOR_LEN → write_delta coll image_id seq prev = inr (file, w) →
  ∃ recs ents im, Forall2 rec_ok recs ents ∧ apply_entries base ents = m ∧
    written_file (MkImageHeader (tc_name coll) image_id seq (tc_catchup_xor coll) prev (fd_names (rt_dict (tc_rows coll)))) recs file im.
Proof.
  intros Hc Hwm Hid Hseq Hprev. unfold write_delta. destruct (seq =? 0); [done|]. destruct (rt_persisted (tc_rows coll)) as [cur|] eqn:Ep; [|done]. intros Hw.
  destruct (delta_exact _ _ _ Hwm) as (ups & Hf & _ & Hm). apply upserts_ok in Hf. destruct Hwm as (cur' & _ & Ht).
  assert (Forall id_wf (RowTable.tombstones_pending (tc_rows coll))) as Hids.
  { apply Forall_forall. intros id Hin%(elem_of_pending _ _ _ (co_rep _ _ Hc)). exact (proj1 (Forall_forall _ _) (tk_ids _ _ _ _ _ Ht) id (proj1 Hin)). }
  pose proof (Forall2_app Hf (removals_ok _ Hids)) as Hall.
  destruct (write_image_ok _ _ _ _ _ _ (coll_header coll m image_id seq prev Hc Hid Hseq Hprev) Hall Hw) as (im & Him).
  do 2 eexists. exists im. split_and!; [exact Hall|exact Hm|exact Him].
Qed.
End collections.

(** ** The files of a chain *)

Section chain.
Context `{HashingLaws} `{IdHash} `{HashTableLaws}.

Lemma absorb_ok X t m out image recs ents ha he be : Forall2 rec_ok recs ents → layout image recs ha he he be →
  RowTable.check_regions image (ha, he) (he, be) (zlength recs) = None → X = raw_xor m → represents t m →
  appended_bytes (rt_arena t) + heads_total recs + bodies_total recs <= HEAP_ROOM → out = MkAbsorbed xor_empty 0 0 0 →
  ∃ t' out', RowTable.absorb image (ha, he) (he, be) (zlength recs) Copy t = (t', inr out') ∧
    represents t' (apply_entries m ents) ∧ xor_digest X (ab_xor out') = raw_xor (apply_entries m ents) ∧ rt_dict t' = rt_dict t ∧
    appended_bytes (rt_arena t') <= appended_bytes (rt_arena t) + heads_total recs + bodies_total recs.
Proof.
  intros Hf Hly Hreg -> Hr Hroom ->. unfold RowTable.absorb. rewrite Hreg. cbn [fst snd]. rewrite to_nat_zlength.
  assert (absorbing (raw_xor m) t m (MkAbsorbed xor_empty 0 0 0)) as Hag.
  { split; [done|]. cbn. apply xor_digest_empty, raw_xor_length. by eapply represents_raws. }
  destruct (absorb_rows_ok _ _ _ _ _ _ Hf 0 _ _ _ _ _ Hly Hag Hroom) as (t' & out' & -> & [Hr' Hx'] & Hd & Hb).
  rewrite !Z.eqb_refl. cbn [negb orb]. exists t', out'. by split_and!.
Qed.

(** The base image read. *)
Lemma read_base_ok epoch (h : ImageHeader) d recs ups file im : Forall2 rec_ok recs (upserts ups) → NoDup ups.*1 → written_file h recs file im →
  hd_seq h = 0 → dict_wf d → hd_field_names h = fd_names d → hd_catchup_xor h = raw_xor (apply_entries ∅ (upserts ups)) →
  ∃ t, read_base epoch file im = inr (MkTableColl (hd_name h) t (hd_catchup_xor h)) ∧ represents t (apply_entries ∅ (upserts ups)) ∧
    rt_dict t = d ∧ appended_bytes (rt_arena t) = 0.
Proof.
  intros Hf Hn [_ _ Hheads Hbodies (ha & he & be & hash & -> & Ha & Hly) Hreg Hsm _] Hseq Hd En Hx. unfold read_base, index_parsed. rewrite Hheads.
  cbn [image_of im_seq im_field_names im_heads im_bodies im_rows im_stored_xor im_name im_image_id im_bodies_hash] in *.
  rewrite Hseq, Z.eqb_refl. cbn [negb]. rewrite En, (from_names_back d Hd). unfold RowTable.index_heads. rewrite Hreg. cbn [fst snd]. rewrite to_nat_zlength.
  assert (zlength file < two64 - 1) as Hfl by (change TRAILER_LEN with 64 in Hsm; unfold two64, two32 in *; lia).
  assert (Forall (λ id, (∅ : gmap string RawRow) !! id = None) ups.*1) as Hnone by (apply Forall_forall; intros; apply lookup_empty).
  assert (represents (RowTable.from_parts epoch d ht_new (HeapArena.from_buf file 0)) ∅) as Hempty by (apply represents_empty, heap_from_buf_ok).
  destruct (index_rows_ok file 0 epoch d Hfl he be _ ups Hf 0 ha he (MkIndexed _ (@ht_new _ Span) xor_empty 0) ∅ Ha Hly
    Hempty (eq_sym raw_xor_empty) Hn Hnone) as (ix & -> & Hix & Hxx).
  rewrite !Z.eqb_refl. cbn [negb orb]. rewrite Hxx, <- Hx, bool_decide_eq_true_2 by done. cbn [negb ix_bodies ix_bodies_hash]. rewrite Hbodies. cbn [negb].
  eexists. split; [reflexivity|]. split_and!; [|done|done]. destruct Hix as [_ (ents & Hents & Hnd & Hm)]. split; [apply heap_from_buf_ok|].
  exists ents. split_and!; [|done|done]. eapply slots_kept; [exact Hents|intros; reflexivity|apply cursor_le_refl].
Qed.
End chain.

(** ** Chains *)

Section chains.
Context `{HashingLaws} `{IdHash} `{HashTableLaws} {A : Type} `{ArenaLaws A}.

(** The files written so far of base image [image_id]: the base, the deltas,
    the number of the last one, and the collection and the rows it was written
    from. *)
Inductive chain_written (image_id : Z) : list Z → list (list Z) → Z → TableColl A → gmap string RawRow → Prop :=
  | base_written coll m base w : coll_ok coll m → write_collection coll image_id = inr (base, w) →
      chain_written image_id base [] 0 coll m
  | delta_written base deltas seq coll m coll' m' delta w : chain_written image_id base deltas seq coll m →
      coll_ok coll' m' → tc_name coll' = tc_name coll → dict_le (rt_dict (tc_rows coll)) (rt_dict (tc_rows coll')) →
      watermark m (tc_rows coll') m' → seq + 1 < two32 → write_delta coll' image_id (seq + 1) (tc_catchup_xor coll) = inr (delta, w) →
      chain_written image_id base (deltas ++ [delta]) (seq + 1) coll' m'.

(** What a reader that has applied a chain's files holds. *)
Record caught_up (image_id seq : Z) (coll : TableColl A) (m : gmap string RawRow) (chain : Chain) (t : RowTable HeapArena) (xor : list Z) : Prop := {
  cu_rep : represents t m;
  cu_xor : xor = tc_catchup_xor coll;
  cu_dict : rt_dict t = rt_dict (tc_rows coll);
  cu_chain : chain = MkChain (tc_name coll) image_id seq (tc_catchup_xor coll) (fd_names (rt_dict (tc_rows coll)));
}.

Lemma chain_coll image_id base deltas seq coll m : chain_written image_id base deltas seq coll m → coll_ok coll m ∧ 0 <= seq.
Proof.
  induction 1 as [coll m base w Hok Hw|base deltas seq coll m coll' m' delta w Hc IH Hok En Hle Hwm Hs Hw]; [done|].
  split; [done|]. destruct IH as [_ IH]. lia.
Qed.

Lemma apply_delta_ok damaged image_id seq (coll coll' : TableColl A) m m' chain t xor delta w :
  caught_up image_id seq coll m chain t xor → coll_ok coll m → coll_ok coll' m' → tc_name coll' = tc_name coll →
  dict_le (rt_dict (tc_rows coll)) (rt_dict (tc_rows coll')) → watermark m (tc_rows coll') m' → in_u64 image_id → 0 <= seq → seq + 1 < two32 →
  write_delta coll' image_id (seq + 1) (tc_catchup_xor coll) = inr (delta, w) → appended_bytes (rt_arena t) + zlength delta <= HEAP_ROOM →
  ∃ chain' t' xor', apply_delta damaged chain t xor delta = (chain', t', xor', None) ∧ caught_up image_id (seq + 1) coll' m' chain' t' xor' ∧
    appended_bytes (rt_arena t') <= appended_bytes (rt_arena t) + zlength delta.
Proof.
  intros [Hr -> Ed ->] Hc Hc' En Hle Hwm Hid Hseq Hs32 Hw Hroom.
  assert (zlength (tc_catchup_xor coll) = XOR_LEN) as Hprev.
  { rewrite (co_xor _ _ Hc). unfold zlength. by rewrite (raw_xor_length _ (represents_wf _ _ (co_rep _ _ Hc))). }
  assert (0 <= seq + 1 < two32) as Hsq by lia.
  destruct (write_delta_ok _ _ _ _ _ _ _ _ Hc' Hwm Hid Hsq Hprev Hw) as (recs & ents & im & Hf & Hm & [Hi Hhd Hheads Hbodies (ha & he & be & hash & -> & Ha & Hly) Hreg _ Htot]).
  unfold apply_delta, Chain.check, parse_image. rewrite Hi, Hhd. cbn [id_format]. rewrite Z.eqb_refl. cbn [negb]. rewrite Hheads.
  cbn [image_of im_name im_image_id im_seq im_prev_xor im_field_names im_bodies im_bodies_hash im_heads im_rows im_stored_xor
    hd_name hd_image_id hd_seq hd_prev_xor hd_field_names hd_catchup_xor ch_name ch_image_id ch_seq ch_xor ch_field_names] in *.
  rewrite En, String.eqb_refl, Z.eqb_refl. unfold wrap_u32. rewrite Z.mod_small, Z.eqb_refl by lia. rewrite bool_decide_eq_true_2 by done.
  assert (Chain.extends (fd_names (rt_dict (tc_rows coll'))) (fd_names (rt_dict (tc_rows coll))) = true) as ->.
  { destruct Hle as [k ->]. apply bool_decide_eq_true_2. by rewrite take_app_length. }
  cbn [negb image_of im_bodies im_bodies_hash]. rewrite Hbodies. cbn [negb]. unfold absorb_delta.
  cbn [image_of im_field_names im_heads im_bodies im_rows im_stored_xor hd_field_names hd_catchup_xor].
  rewrite (extend_dict_to t (rt_dict (tc_rows coll'))); [|rewrite Ed; apply Hc|apply Hc'|by rewrite Ed]. cbn [negb].
  assert (represents (with_dict (rt_dict (tc_rows coll')) t) m) as Hr2 by (by destruct Hr).
  destruct (absorb_ok (tc_catchup_xor coll) _ _ _ _ _ _ _ _ _ Hf Hly Hreg (co_xor _ _ Hc) Hr2 ltac:(cbn [with_dict rt_arena]; lia) eq_refl)
    as (t' & out' & -> & Hr' & Hx' & Hd' & Hb').
  rewrite Hx', Hm, (co_xor _ _ Hc'), bool_decide_eq_true_2 by done. cbn [negb]. do 3 eexists. split; [reflexivity|]. cbn [with_dict rt_arena rt_dict] in *. split; [|lia].
  split; [by rewrite <- Hm|symmetry; apply Hc'|done|]. unfold Chain.advance. cbn. by rewrite En, (co_xor _ _ Hc').
Qed.

Lemma apply_deltas_snoc chain (t : RowTable HeapArena) xor deltas delta chain1 t1 xor1 :
  apply_deltas chain t xor deltas = inr (chain1, t1, xor1) →
  apply_deltas chain t xor (deltas ++ [delta]) =
    match apply_delta "delta bodies checksum mismatch" chain1 t1 xor1 delta with (_, _, _, Some e) => inl e | (chain, t, xor, None) => inr (chain, t, xor) end.
Proof.
  revert chain t xor. induction deltas as [|d deltas IH]; intros chain t xor; cbn [app apply_deltas].
  - intros [= <- <- <-]. by destruct (apply_delta _ chain t xor delta) as [[[? ?] ?] [e|]].
  - destruct (apply_delta _ chain t xor d) as [[[chain2 t2] xor2] [e|]]; [done|]. apply IH.
Qed.

Lemma sum_z_snoc l x : sum_z (l ++ [x]) = sum_z l + x.
Proof. induction l as [|y l IH]; cbn; [lia|]. unfold sum_z in *. rewrite IH. lia. Qed.

(** The chain read: its base image, then its deltas. *)
Lemma read_chain image_id base deltas seq coll m epoch : chain_written image_id base deltas seq coll m → in_u64 image_id →
  sum_z (map zlength deltas) <= HEAP_ROOM →
  ∃ header coll0 chain t xor, parse_identity base = inr (MkImageIdentity FORMAT RECORD_FORMAT image_id 0) ∧ parse_header base = inr header ∧
    im_seq header = 0 ∧ im_image_id header = image_id ∧ read_base epoch base header = inr coll0 ∧ tc_name coll0 = tc_name coll ∧
    apply_deltas (Chain.from_base header) (tc_rows coll0) (tc_catchup_xor coll0) deltas = inr (chain, t, xor) ∧
    caught_up image_id seq coll m chain t xor ∧ appended_bytes (rt_arena t) <= sum_z (map zlength deltas).
Proof.
  intros Hc Hid. induction Hc as [coll m base w Hok Hw|base deltas seq coll m coll' m' delta w Hc IH Hok En Hle Hwm Hs Hw]; intros Hroom.
  - destruct (write_collection_ok _ _ _ _ _ Hok Hid Hw) as (ups & im & Hf & Hn & Hm & Hfile). pose proof Hfile as [Hi Hhd _ _ (ha & he & be & hash & Eim & _) _ _ _].
    destruct (read_base_ok epoch _ (rt_dict (tc_rows coll)) _ _ _ _ Hf Hn Hfile) as (t & Hb & Hr & Hd & Ha); [done|apply Hok|done|by rewrite Hm; apply Hok|].
    rewrite Hm in Hr. exists im. do 4 eexists. split_and!; [exact Hi|exact Hhd|by rewrite Eim|by rewrite Eim|exact Hb|done|reflexivity| |cbn; by rewrite Ha].
    split; [done|done|done|]. by rewrite Eim.
  - rewrite map_app in *. assert (sum_z (map zlength deltas ++ [zlength delta]) = sum_z (map zlength deltas) + zlength delta) as Es. by apply sum_z_snoc.
    cbn [map] in *. rewrite Es in *. pose proof (zlength_nonneg delta). destruct IH as (header & coll0 & chain & t & xor & Hi1 & Hi2 & Hi3 & Hi4 & Hi5 & Hi6 & Happ & Hcu & Hb); [lia|].
    destruct (chain_coll _ _ _ _ _ _ Hc) as [Hok0 Hseq].
    destruct (apply_delta_ok "delta bodies checksum mismatch" _ _ _ _ _ _ _ _ _ _ _ Hcu Hok0 Hok En Hle Hwm Hid Hseq Hs Hw ltac:(lia)) as (chain' & t' & xor' & Hstep & Hcu' & Hb').
    exists header, coll0, chain', t', xor'. split_and!; [done|done|done|done|done|by rewrite En| |exact Hcu'|lia].
    rewrite (apply_deltas_snoc _ _ _ _ _ _ _ _ Happ). by rewrite Hstep.
Qed.

(** C15: What a table's checkpoints write, a base image and any
    number of deltas each written from a later state of the table, reads back:
    the reader accepts every file and ends with the name, the dictionary and
    the hash of the last state, a table of exactly its rows, the place in the
    chain the next delta has to take, and a watermark that makes that delta
    hold exactly what changes from here. *)
Theorem chain_reads_back image_id base deltas seq coll m epoch (Hc : chain_written image_id base deltas seq coll m) (Hid : in_u64 image_id)
  (Hroom : sum_z (map zlength deltas) <= HEAP_ROOM) :
  ∃ t, read_table_bytes epoch base deltas =
      inr (MkTableColl (tc_name coll) t (tc_catchup_xor coll), MkChainEnd image_id seq (tc_catchup_xor coll)) ∧
    represents t m ∧ rt_dict t = rt_dict (tc_rows coll) ∧ watermark m t m.
Proof.
  destruct (read_chain _ _ _ _ _ _ epoch Hc Hid Hroom) as (header & coll0 & chain & t & xor & Hi & Hh & Hs & Him & Hb & En & Happ & [Hr -> Hd ->] & _).
  unfold read_table_bytes. rewrite Hi, Hh. cbn [id_format]. rewrite Z.eqb_refl. cbn [negb]. rewrite Hs. cbn [Z.eqb negb]. rewrite Hb, Happ, En, Him. cbn [ch_seq].
  eexists. split; [reflexivity|]. split_and!; [by destruct Hr|done|]. exists (arena_end_cursor (rt_arena t)). split; [done|].
  apply (tracked_marks _ [] _ t), tracked_here, Hr.
Qed.
End chains.

(** ** A chain of two files *)

Section sample.
#[local] Existing Instance one_bucket.

Definition file_of (r : CheckpointError + (list Z * Written)) : list Z := match r with inr (file, _) => file | inl _ => [] end.

Definition succeeded {E B} (r : E + B) : bool := match r with inr _ => true | inl _ => false end.

Lemma file_of_inr r : succeeded r = true → ∃ w, r = inr (file_of r, w).
Proof. destruct r as [|[file w]]; [done|]. intros _. by exists w. Qed.

Definition first_coll : TableColl HeapArena := MkTableColl "t" first_table (raw_xor first_rows).
Definition later_rows : gmap string RawRow := <["b" := raw_row 4]> (delete "a" first_rows).
Definition later_coll : TableColl HeapArena := MkTableColl "t" later_table (raw_xor later_rows).

Definition sample_base : list Z := file_of (write_collection first_coll 5).
Definition sample_delta : list Z := file_of (write_delta later_coll 5 1 (tc_catchup_xor first_coll)).

Lemma first_coll_ok : coll_ok first_coll first_rows.
Proof. split; cbn; [apply first_represents|done|apply dict_new_wf|done|constructor|done]. Qed.

Lemma later_watermark : watermark first_rows later_table later_rows.
Proof.
  pose proof (mark_watermark first_table first_rows first_table first_rows first_represents (rtc_refl _ _) (or_introl eq_refl)) as Hm.
  destruct (RowTable.mark_persisted _ _) as [marked t'] eqn:E. destruct Hm as (_ & Hm & _). eapply watermark_writes; [exact Hm| |vm_compute; discriminate].
  unfold later_table, later_rows. rewrite E. cbn [snd]. eapply rtc_l; [apply write_remove|]. apply rtc_once.
  apply raw_insert_writes; [lia|split; vm_compute; reflexivity|].
  replace t' with (RowTable.mark_persisted (RowTable.checkpoint_mark first_table) first_table).2 by by rewrite E.
  split; vm_compute; [reflexivity|discriminate].
Qed.

Lemma later_dict : rt_dict (tc_rows later_coll) = FieldDict.new.
Proof. vm_compute. reflexivity. Qed.

Lemma later_coll_ok : coll_ok later_coll later_rows.
Proof.
  destruct later_watermark as (cur & _ & [Hr _ _ _ _]). split; [exact Hr|done| | | |done].
  - rewrite later_dict. apply dict_new_wf.
  - vm_compute. reflexivity.
  - rewrite later_dict. constructor.
Qed.

Lemma sample_chain : chain_written 5 sample_base [sample_delta] 1 later_coll later_rows.
Proof.
  destruct (file_of_inr (write_collection first_coll 5)) as [w Eb]; [vm_compute; reflexivity|].
  destruct (file_of_inr (write_delta later_coll 5 1 (tc_catchup_xor first_coll))) as [w' Ed]; [vm_compute; reflexivity|].
  apply (delta_written 5 sample_base [] 0 first_coll first_rows later_coll later_rows sample_delta w').
  - eapply base_written; [apply first_coll_ok|exact Eb].
  - apply later_coll_ok.
  - done.
  - rewrite later_dict. by exists [].
  - apply later_watermark.
  - done.
  - exact Ed.
Qed.

Lemma chain_reads_back_witness :
  zlength sample_base = 291 ∧ zlength sample_delta = 290 ∧
  ∃ t, read_table_bytes 9 sample_base [sample_delta] =
      inr (MkTableColl "t" t (tc_catchup_xor later_coll), MkChainEnd 5 1 (tc_catchup_xor later_coll)) ∧
    represents t later_rows ∧ rt_dict t = rt_dict (tc_rows later_coll) ∧ watermark later_rows t later_rows.
Proof.
  split; [vm_compute; reflexivity|]. split; [vm_compute; reflexivity|].
  apply (chain_reads_back 5 sample_base [sample_delta] 1 later_coll later_rows 9 sample_chain); [done|vm_compute; discriminate].
Defined.
End sample.
