(* ===== verification/CheckpointLoad.v ===== *)
(** * Damaged chains, and whole stores

    Proves what a load makes of a delta it refuses, that a store written whole
    reads back, and shows a refused delta that is not left out whole. *)

From S2P Require Import Prelude Platform Value RowCodec RowCodecSpec ValueRef SnapshotHash Store StoreFacts Arena.
From S2P Require Import RowTable RowTableFacts RowTableDelta Checkpoint CheckpointFacts CheckpointChain.
Local Open Scope Z_scope.

(** ** Deltas that are refused *)

Section load.
Context `{HashingLaws} `{IdHash} `{HashTableLaws} {A : Type} `{ArenaLaws A}.

(** The message apart, a delta is taken in the same way everywhere. *)
Lemma apply_delta_damaged damaged damaged' chain (t : RowTable HeapArena) xor delta chain' t' xor' :
  apply_delta damaged chain t xor delta = (chain', t', xor', None) → apply_delta damaged' chain t xor delta = (chain', t', xor', None).
Proof.
  unfold apply_delta. destruct (Chain.check chain delta); [done|]. by destruct (negb _).
Qed.

Lemma load_deltas_app chain (t : RowTable HeapArena) xor deltas rest : ∀ chain1 t1 xor1 applied k,
  apply_deltas chain t xor deltas = inr (chain1, t1, xor1) →
  ∃ more, length more = length deltas ∧
    load_deltas chain t xor applied k (deltas ++ rest) = load_deltas chain1 t1 xor1 (applied ++ more) (k + length deltas) rest.
Proof.
  revert chain t xor. induction deltas as [|d deltas IH]; intros chain t xor chain1 t1 xor1 applied k; cbn [app apply_deltas load_deltas length].
  - intros [= <- <- <-]. exists []. by rewrite app_nil_r, Nat.add_0_r.
  - destruct (apply_delta _ chain t xor d) as [[[chain2 t2] xor2] [e|]] eqn:Ea; [done|]. intros Hd. rewrite (apply_delta_damaged _ _ _ _ _ _ _ _ _ Ea).
    destruct (IH chain2 t2 xor2 chain1 t1 xor1 (applied ++ [(ch_seq chain2, zlength d)]) (S k) Hd) as (more & Hl & ->).
    exists ((ch_seq chain2, zlength d) :: more). cbn. rewrite Hl. split; [done|]. rewrite <- app_assoc. f_equal. lia.
Qed.

(** A file that is not the next delta: its header or the place it takes in the
    chain is wrong, its bodies are damaged, or its rows do not add up. *)
Definition chain_of (coll : TableColl A) (image_id seq : Z) : Chain :=
  MkChain (tc_name coll) image_id seq (tc_catchup_xor coll) (fd_names (rt_dict (tc_rows coll))).

Inductive refused (chain : Chain) (m : gmap string RawRow) (d : FieldDict) (bad : list Z) (e : CheckpointError) : Prop :=
  | refused_check : Chain.check chain bad = inl e → refused chain m d bad e
  | refused_bodies im : Chain.check chain bad = inr im → bodies_verified bad (im_bodies im) (im_bodies_hash im) = false →
      e = Invalid "bodies checksum mismatch" → refused chain m d bad e
  | refused_rows : (∀ t : RowTable HeapArena, represents t m → rt_dict t = d →
      ∃ chain' t' xor', apply_delta "bodies checksum mismatch" chain t (ch_xor chain) bad = (chain', t', xor', Some e) ∧ xor' ≠ ch_xor chain') → refused chain m d bad e.

Lemma refused_apply chain m d bad e (t : RowTable HeapArena) : refused chain m d bad e → represents t m → rt_dict t = d →
  ∃ chain' t' xor', apply_delta "bodies checksum mismatch" chain t (ch_xor chain) bad = (chain', t', xor', Some e) ∧
    (xor' ≠ ch_xor chain' ∨ t' = t ∧ xor' = ch_xor chain' ∧ chain' = chain).
Proof.
  intros [Hc|im Hc Hb ->|Hr] Ht Hd.
  - exists chain, t, (ch_xor chain). unfold apply_delta. rewrite Hc. split; [done|]. by right.
  - exists chain, t, (ch_xor chain). unfold apply_delta. rewrite Hc, Hb. split; [done|]. by right.
  - destruct (Hr t Ht Hd) as (chain' & t' & xor' & E & Hne). exists chain', t', xor'. split; [done|]. by left.
Qed.

Lemma persisted_end (t : RowTable HeapArena) m : represents t m → represents (RowTable.set_persisted_at_end t) m ∧ watermark m (RowTable.set_persisted_at_end t) m.
Proof.
  intros Hr. split; [by destruct Hr|]. exists (arena_end_cursor (rt_arena t)). split; [done|]. apply (tracked_marks _ [] _ t), tracked_here, Hr.
Qed.

Definition loaded (coll : TableColl A) (m : gmap string RawRow) (image_id : Z) (base : list Z) (n : nat) (why : option CheckpointError)
    (r : CheckpointError + TableLoad) : Prop :=
  ∃ t applied, r = inr (MkTableLoad (MkTableColl (tc_name coll) t (tc_catchup_xor coll)) image_id (zlength base) applied ((λ e, (n, e)) <$> why)) ∧
    length applied = n ∧ represents t m ∧ rt_dict t = rt_dict (tc_rows coll) ∧ watermark m t m.

(** A chain read to its end. *)
Lemma load_whole image_id base deltas seq coll m fuel epoch : chain_written image_id base deltas seq coll m → in_u64 image_id →
  sum_z (map zlength deltas) <= HEAP_ROOM → loaded coll m image_id base (length deltas) None (read_table fuel epoch base deltas).
Proof.
  intros Hc Hid Hroom. destruct (read_chain _ _ _ _ _ _ epoch Hc Hid Hroom) as (header & coll0 & chain & t & xor & Hi & Hh & Hs & Him & Hb & En & Happ & [Hr -> Hd ->] & _).
  destruct (load_deltas_app _ _ _ _ [] _ _ _ [] 0 Happ) as (more & Hl & Hload). rewrite app_nil_r in Hload. cbn [app] in Hload.
  destruct (persisted_end t m Hr) as [Hr' Hw'].
  exists (RowTable.set_persisted_at_end t), more. split_and!; [|done|exact Hr'|exact Hd|exact Hw'].
  destruct fuel; cbn [read_table]; rewrite Hi; cbn [id_format]; change (FORMAT =? legacy.FORMAT_V1) with false; cbn iota; rewrite Hh, Hb, Hload, En, Him; done.
Qed.

(** C18: A load of a chain whose next file is damaged, of another
    chain, out of order, or does not add up to the hash it declares, followed
    by whatever else: it succeeds with exactly the rows, the dictionary and the
    hash of the files before that one, names the file and the reason, and sets
    the watermark there; without such a file it takes in the whole chain. *)
Theorem load_refuses image_id base deltas seq coll m bad rest e fuel epoch (Hc : chain_written image_id base deltas seq coll m) (Hid : in_u64 image_id)
  (Hroom : sum_z (map zlength deltas) <= HEAP_ROOM)
  (Hbad : refused (chain_of coll image_id seq) m (rt_dict (tc_rows coll)) bad e) :
  loaded coll m image_id base (length deltas) (Some e) (read_table (S fuel) epoch base (deltas ++ bad :: rest)) ∧
  loaded coll m image_id base (length deltas) None (read_table (S fuel) epoch base deltas).
Proof.
  split; [|by eapply load_whole].
  destruct (read_chain _ _ _ _ _ _ epoch Hc Hid Hroom) as (header & coll0 & chain & t & xor & Hi & Hh & Hs & Him & Hb & En & Happ & [Hr -> Hd Ech] & _).
  destruct (load_deltas_app _ _ _ _ (bad :: rest) _ _ _ [] 0 Happ) as (more & Hl & Hload). cbn [app load_deltas] in Hload. fold (chain_of coll image_id seq) in Ech.
  subst chain. destruct (refused_apply _ _ _ _ _ t Hbad Hr Hd) as (chain' & t' & xor' & Ha & Hcase). change (ch_xor (chain_of coll image_id seq)) with (tc_catchup_xor coll) in Ha.
  rewrite Ha in Hload. cbn [read_table]. rewrite Hi. cbn [id_format]. change (FORMAT =? legacy.FORMAT_V1) with false. cbn iota. rewrite Hh, Hb, Hload, En, Him. cbn iota zeta.
  change (0 + length deltas)%nat with (length deltas). destruct Hcase as [Hne|(-> & Hx & ->)].
  - rewrite bool_decide_eq_false_2 by done. rewrite take_app_length.
    destruct (load_whole _ _ _ _ _ _ fuel (epoch + 1) Hc Hid Hroom) as (t2 & applied & -> & Hl2 & Hr2 & Hd2 & Hw2). exists t2, applied. by split_and!.
  - rewrite Hx, bool_decide_eq_true_2 by done. destruct (persisted_end t m Hr) as [Hr' Hw']. exists (RowTable.set_persisted_at_end t), more. by split_and!.
Qed.
End load.

(** ** Stores *)

Lemma le_combine_bound bs : Forall (λ b, 0 <= b < 256) bs → 0 <= le_combine bs < 256 ^ zlength bs.
Proof.
  induction 1 as [|b bs Hb _ IH]; [done|]. cbn [le_combine]. rewrite zlength_cons, Z.pow_add_r, Z.pow_1_r by (pose proof (zlength_nonneg bs); lia). lia.
Qed.

Section store.
Context `{HashingLaws} `{IdHash} `{HashTableLaws} {A : Type} `{ArenaLaws A}.
Implicit Types (colls : gmap string (TableColl A)) (l : list (string * TableColl A)).

Lemma content_image_id_u64 (coll : TableColl A) : in_u64 (content_image_id coll).
Proof.
  unfold content_image_id. set (d := blake3 _). pose proof (blake3_bytes (bytes_of "spky-row-image" ++ [0] ++ bytes_of (tc_name coll) ++ tc_catchup_xor coll)) as Hb.
  fold d in Hb. pose proof (le_combine_bound (take 8 d) (Forall_take _ 8 _ Hb)) as Hl.
  assert (zlength (take 8 d) = 8) as E by (unfold zlength, d; rewrite length_take, blake3_length; done). rewrite E in Hl. exact Hl.
Qed.

(** The same rows, under the same name, dictionary and hash. *)
Definition same_coll (coll : TableColl A) (coll' : TableColl HeapArena) : Prop :=
  tc_name coll' = tc_name coll ∧ ∃ m, coll_ok coll m ∧ coll_ok coll' m ∧ rt_dict (tc_rows coll') = rt_dict (tc_rows coll).

Lemma read_image_ok epoch (coll : TableColl A) m image_id file w : coll_ok coll m → in_u64 image_id → write_collection coll image_id = inr (file, w) →
  ∃ coll', read_image epoch file = inr coll' ∧ same_coll coll coll'.
Proof.
  intros Hc Hid Hw. destruct (write_collection_ok _ _ _ _ _ Hc Hid Hw) as (ups & im & Hf & Hn & Hm & Hfile). pose proof Hfile as [Hi Hhd _ _ _ _ _ _].
  destruct (read_base_ok epoch _ (rt_dict (tc_rows coll)) _ _ _ _ Hf Hn Hfile) as (t & Hb & Hr & Hd & _); [done|apply Hc|done|by rewrite Hm; apply Hc|].
  unfold read_image. rewrite Hi. cbn [id_format]. change (FORMAT =? legacy.FORMAT_V1) with false. cbn iota. unfold index_image. rewrite Hhd.
  unfold read_base in Hb. rewrite Hb. eexists. split; [reflexivity|]. split; [done|]. exists m. rewrite Hm in Hr. destruct Hc as [Hr0 Hx Hdw Hfl Hns Hnm].
  split_and!; [by split|split; cbn [tc_rows tc_catchup_xor tc_name hd_name hd_catchup_xor]; by rewrite ?Hd|exact Hd].
Qed.

Lemma read_tables_ok file : zlength file < two64 → ∀ l out rest epoch (acc : gmap string (TableColl HeapArena)),
  write_tables l = inr out → (out ++ rest) `suffix_of` file → NoDup l.*1 → Forall (λ k, acc !! k = None) l.*1 →
  Forall (λ e : string * TableColl A, tc_name e.2 = e.1 ∧ ∃ m, coll_ok e.2 m) l →
  ∃ acc', read_tables (length l) epoch (cursor_at file (out ++ rest)) acc = inr (cursor_at file rest, acc') ∧
    (∀ k coll, (k, coll) ∈ l → ∃ coll', acc' !! k = Some coll' ∧ same_coll coll coll') ∧
    (∀ k, k ∉ l.*1 → acc' !! k = acc !! k).
Proof.
  intros Hfile. induction l as [|[k coll] l IH]; intros out rest epoch acc Hw Hs Hn Hacc Hl; cbn [write_tables length read_tables] in *.
  - injection Hw as <-. exists acc. split_and!; [done|intros k coll Hin; by apply elem_of_nil in Hin|done].
  - destruct (write_collection coll (content_image_id coll)) as [|[image w]] eqn:Ec; [done|]. destruct (write_tables l) as [|more] eqn:El; [done|].
    apply (inj inr) in Hw as <-. rewrite <- !app_assoc in *. apply Forall_cons in Hl as [[En (m & Hc)] Hl]. apply NoDup_cons in Hn as [Hk Hn].
    apply Forall_cons in Hacc as [Hka Hacc]. cbn [fst snd] in *.
    assert (in_u64 (zlength image)) as Hil.
    { pose proof (zlength_nonneg image). destruct Hs as [pre E]. rewrite E, !zlength_app in Hfile. pose proof (zlength_nonneg pre). pose proof (zlength_nonneg more).
      pose proof (zlength_nonneg rest). pose proof (zlength_nonneg (to_le_u64 (zlength image))). unfold in_u64. lia. }
    rewrite (read_u64 file Hfile) by done. pose proof (suffix_rest _ _ _ Hs) as Hs1. rewrite (read_bytes file Hfile) by done. apply suffix_rest in Hs1.
    destruct (read_image_ok epoch _ _ _ _ _ Hc (content_image_id_u64 coll) Ec) as (coll' & -> & Hsame). pose proof Hsame as [En' _]. rewrite En', En, Hka.
    destruct (IH more rest (epoch + 1) (<[k := coll']> acc) eq_refl Hs1 Hn) as (acc' & E & Hin & Hout); [|done|].
    { apply Forall_forall. intros k' Hk'. rewrite lookup_insert_ne by (by intros ->). exact (proj1 (Forall_forall _ _) Hacc k' Hk'). }
    exists acc'. split_and!; [exact E| |].
    + intros k' c [[= -> ->]|Hin']%elem_of_cons; [|by apply Hin]. exists coll'. rewrite Hout by done. by rewrite lookup_insert_eq.
    + intros k' Hk'. rewrite fmap_cons in Hk'. apply not_elem_of_cons in Hk' as [Hne Hk']. rewrite Hout by done. by rewrite lookup_insert_ne.
Qed.

(** C19: A store written whole reads back table for table: the
    same names, each table with the same rows, dictionary and hash. *)
Theorem store_reads_back colls bytes epoch (Hok : map_Forall (λ k coll, tc_name coll = k ∧ ∃ m, coll_ok coll m) colls)
  (Hsize : Z.of_nat (size colls) < two32) (Hw : write_store colls = inr bytes) (Hlen : zlength bytes < two64) :
  ∃ colls' : gmap string (TableColl HeapArena), read_store epoch bytes = inr colls' ∧ ∀ k, option_Forall2 same_coll (colls !! k) (colls' !! k).
Proof.
  unfold write_store in Hw. destruct (write_tables _) as [|tables] eqn:Et; [done|]. apply (inj inr) in Hw.
  set (l := sort_by_key (map_to_list colls)) in *. assert (l ≡ₚ map_to_list colls) as Hperm by apply merge_sort_Permutation.
  assert (zlength l = Z.of_nat (size colls)) as Ell by (unfold zlength; rewrite Hperm; by rewrite length_map_to_list).
  assert (bytes = STORE_MAGIC ++ to_le_u32 STORE_FORMAT ++ to_le_u32 (zlength l) ++ tables ++ []) as Eb.
  { by rewrite <- Hw, app_nil_r, Ell. }
  destruct (read_tables_ok bytes Hlen l tables [] epoch ∅ Et) as (colls' & Hr & Hin & Hout).
  { rewrite Eb. do 3 apply suffix_app_r. done. }
  { rewrite Hperm. apply NoDup_fst_map_to_list. }
  { apply Forall_forall. intros. apply lookup_empty. }
  { apply Forall_forall. intros [k coll] Hkc. rewrite Hperm in Hkc. apply elem_of_map_to_list in Hkc. by apply (Hok k coll). }
  exists colls'. split.
  - pose proof (zlength_nonneg tables). assert (zlength bytes = 16 + zlength tables) as El by (rewrite Eb, app_nil_r; autorewrite with zlen; change (zlength STORE_MAGIC) with 8; lia).
    unfold read_store. rewrite (proj2 (Z.ltb_ge _ _)) by lia. assert (has_magic STORE_MAGIC bytes = true) as -> by (apply bool_decide_eq_true_2; by rewrite Eb, take_app_length).
    cbn [orb negb]. set (file := bytes) in Hlen, Hr |- *.
    assert (MkByteCursor file (zlength STORE_MAGIC) = cursor_at file (to_le_u32 STORE_FORMAT ++ to_le_u32 (zlength l) ++ tables ++ [])) as ->.
    { unfold cursor_at. f_equal. unfold file. rewrite El, app_nil_r. autorewrite with zlen. change (zlength STORE_MAGIC) with 8. lia. }
    assert (Hs : (to_le_u32 STORE_FORMAT ++ to_le_u32 (zlength l) ++ tables ++ []) `suffix_of` file) by (unfold file; rewrite Eb; by apply suffix_app_r).
    pose proof (zlength_nonneg l). rewrite (read_u32 file Hlen); [|done|done]. apply suffix_rest in Hs. rewrite Z.eqb_refl. cbn [negb].
    rewrite (read_u32 file Hlen); [|done|lia]. rewrite to_nat_zlength, Hr. cbn [cursor_at bc_at]. change (zlength (@nil Z)) with 0. rewrite Z.sub_0_r, Z.eqb_refl. done.
  - intros k. destruct (colls !! k) as [coll|] eqn:Ek.
    + destruct (Hin k coll) as (coll' & -> & Hsame); [rewrite Hperm; by apply elem_of_map_to_list|]. by constructor.
    + rewrite Hout, lookup_empty; [constructor|]. rewrite Hperm. intros Hk%list_elem_of_fmap. destruct Hk as ([k' coll] & -> & Hk). apply elem_of_map_to_list in Hk. cbn in Ek. congruence.
Qed.
End store.

(** ** Samples *)

Section sample.
#[local] Existing Instance one_bucket.

(** The delta twice: the second is out of order. *)
Lemma load_refuses_witness :
  loaded later_coll later_rows 5 sample_base 1 (Some (Invalid "delta seq")) (read_table 1 9 sample_base [sample_delta; sample_delta; []]) ∧
  loaded later_coll later_rows 5 sample_base 1 None (read_table 1 9 sample_base [sample_delta]).
Proof.
  apply (load_refuses 5 sample_base [sample_delta] 1 later_coll later_rows sample_delta [[]] (Invalid "delta seq") 0 9 sample_chain).
  - done.
  - vm_compute. discriminate.
  - apply refused_check. vm_compute. reflexivity.
Defined.

Definition sample_store : gmap string (TableColl HeapArena) := {["t" := first_coll]}.

Definition store_file (r : CheckpointError + list Z) : list Z := match r with inr file => file | inl _ => [] end.

Lemma store_reads_back_witness :
  zlength (store_file (write_store sample_store)) = 315 ∧
  ∃ colls', read_store 9 (store_file (write_store sample_store)) = inr colls' ∧ ∀ k, option_Forall2 same_coll (sample_store !! k) (colls' !! k).
Proof.
  split; [vm_compute; reflexivity|]. apply (store_reads_back sample_store).
  - apply map_Forall_singleton. split; [reflexivity|]. exists first_rows. apply first_coll_ok.
  - vm_compute. reflexivity.
  - vm_compute. reflexivity.
  - vm_compute. reflexivity.
Defined.

(** A sealed delta whose second head claims a longer body than there is. *)
Definition spoiled_delta : list Z :=
  file_of (write_image (MkImageHeader "t" 5 1 (raw_xor first_rows) (raw_xor first_rows) [])
    [RecRow (row_head "a" (raw_row 9) 0) [9]; RecRow (row_head "b" (MkRawRow (blake3 [8]) 8 [8; 8]) 0) [8]] (MkMark 0 (MkCursor 0 0) 0)).

(** It is refused, but the row before the bad head stays, under the hash of the
    files before it. *)
Lemma refused_delta_kept :
  match read_table 1 9 sample_base [spoiled_delta] with
  | inr load =>
      tl_refused load = Some (0%nat, InvalidBlock (BadBody 1)) ∧ tc_catchup_xor (tl_collection load) = tc_catchup_xor first_coll ∧
      RowTable.rv_of (tc_rows (tl_collection load)) "a" = Some 9 ∧ RowTable.rv_of (tc_rows first_coll) "a" = Some 1
  | inl _ => False
  end.
Proof. vm_compute. by split_and!. Qed.
End sample.
