(* ===== verification/RangeHash.v ===== *)
(** * Hashes of a table by ranges of its record ids

    Models [packages/ssp-protocol/src/range_hash.rs] and
    [Collection::range_accs] of store.rs: a table cut into ranges of string
    keys with an XOR accumulator and a row count each, so that two sides that
    disagree about a table can tell where. Strings are UTF-8 bytes, and so is
    their order. *)

From stdpp Require Import pretty.
From S2P Require Import Prelude Platform Value SnapshotHash Store StoreFacts.

Definition RANGE_ROWS : Z := 1000.
Definition MAX_RANGES : Z := 1024.
Definition OVERGROWN_FACTOR : Z := 4.

(** [s.strip_suffix(p)]. *)
Fixpoint strip_suffix (p s : string) : option string :=
  if String.eqb s p then Some ""
  else match s with
       | EmptyString => None
       | String a s => let? r := strip_suffix p s in Some (String a r)
       end.

Definition strip_quotes (l r raw : string) : option string :=
  let? rest := strip_prefix l raw in strip_suffix r rest.

Definition is_digit (b : Z) : bool := between 48 b 57.
Definition plain_byte (b : Z) : bool :=
  between 97 b 122 || between 65 b 90 || is_digit b || (b =? 95)%Z || (b =? 45)%Z.

Definition is_empty_string (s : string) : bool := match s with EmptyString => true | _ => false end.

(** The string a raw record id keys on, when it is a plain string key. *)
Definition string_key (raw : string) : option string :=
  let '(key, quoted) :=
    match strip_quotes "`" "`" raw with
    | Some inner => (inner, true)
    | None => match strip_quotes "⟨" "⟩" raw with
              | Some inner => (inner, true)
              | None => (raw, false)
              end
    end in
  let plain := negb (is_empty_string key) && forallb plain_byte (bytes_of key) in
  let digits := default key (strip_prefix "-" key) in
  let numeric := negb quoted && negb (is_empty_string digits) && forallb is_digit (bytes_of digits) in
  if plain && negb numeric then Some key else None.

(** ** Statements *)

Definition range_target (table : string) (lo hi : option string) : string :=
  match lo, hi with
  | None, None => table
  | Some lo, None => table +:+ ":⟨" +:+ lo +:+ "⟩.."
  | None, Some hi => table +:+ ":..⟨" +:+ hi +:+ "⟩"
  | Some lo, Some hi => table +:+ ":⟨" +:+ lo +:+ "⟩..⟨" +:+ hi +:+ "⟩"
  end.

Definition range_target_after (table after : string) (hi : option string) : string :=
  match hi with
  | None => table +:+ ":⟨" +:+ after +:+ "⟩>.."
  | Some hi => table +:+ ":⟨" +:+ after +:+ "⟩>..⟨" +:+ hi +:+ "⟩"
  end.

Definition boundary_query_every (table : string) (rows : Z) : string :=
  let rows := Z.max rows 1 in
  "RETURN array::clump((SELECT VALUE id FROM " +:+ table +:+ "), " +:+ pretty rows +:+ ").map(|$c| $c[0])".

Definition boundary_query (table : string) : string := boundary_query_every table RANGE_ROWS.

(** ** The ranges of a table *)

Record RangeHashes := MkRanges { rh_starts : list string; rh_accs : list (list Z); rh_counts : list Z }.

(** One table's ranges on the wire. *)
Record TableRanges := MkTableRanges {
  tr_table : string;
  tr_hash : string;
  tr_starts : list string;
  tr_hashes : list string;
  tr_counts : list Z;
}.

Definition string_lt (a b : string) : bool := match string_cmp a b with Lt => true | _ => false end.
Definition string_le (a b : string) : bool := negb (string_lt b a).

(** [windows(2).all(|w| w[0] < w[1])]. *)
Fixpoint increasing (l : list string) : bool :=
  match l with
  | a :: (b :: _) as l' => string_lt a b && increasing l'
  | _ => true
  end.

(** [partition_point]: on a list of which the predicate holds for a prefix. *)
Fixpoint partition_point {A} (pred : A → bool) (l : list A) : nat :=
  match l with
  | [] => 0
  | x :: l => if pred x then S (partition_point pred l) else 0
  end.

(** [step_by(S step)], [wait] elements before the next one. *)
Fixpoint step_by {A} (step wait : nat) (l : list A) : list A :=
  match l, wait with
  | [], _ => []
  | x :: l, O => x :: step_by step step l
  | _ :: l, S wait => step_by step wait l
  end.

Module RangeHashes.
Definition len (self : RangeHashes) : nat := length (rh_starts self).
Definition is_empty (self : RangeHashes) : bool := Nat.eqb (length (rh_starts self)) 0.
Definition starts (self : RangeHashes) : list string := rh_starts self.
(** [None] is an index out of range. *)
Definition count (self : RangeHashes) (i : nat) : option Z := rh_counts self !! i.
Definition acc (self : RangeHashes) (i : nat) : option (list Z) := rh_accs self !! i.
Definition rows (self : RangeHashes) : Z := foldr (λ c n, wrap_u64 (c + n)) 0%Z (rh_counts self).

Definition with_starts (starts : list string) : option RangeHashes :=
  let starts := match starts with [] => [""] | _ :: l => "" :: l end in
  let keys := forallb (λ s, bool_decide (string_key s = Some s)) (drop 1 starts) in
  if negb (increasing starts) || negb keys then None
  else Some (MkRanges starts (replicate (length starts) xor_empty) (replicate (length starts) 0%Z)).

Definition from_boundaries (keys : list string) : option RangeHashes :=
  let step := Z.to_nat (Z.max ((zlength keys + MAX_RANGES - 1) / MAX_RANGES) 1) in
  with_starts (step_by (pred step) 0 keys).

Definition range_of_key (self : RangeHashes) (key : string) : nat :=
  partition_point (λ s, string_le s key) (rh_starts self) - 1.

Definition range_of (self : RangeHashes) (raw_id : string) : option nat :=
  range_of_key self <$> string_key raw_id.

Definition bounds (self : RangeHashes) (i : nat) : option string * option string :=
  ((if 0 <? i then rh_starts self !! i else None)%nat, rh_starts self !! S i).

Definition target (self : RangeHashes) (table : string) (i : nat) : string :=
  let '(lo, hi) := bounds self i in range_target table lo hi.

Definition add_at (i : nat) (digest : list Z) (self : RangeHashes) : RangeHashes :=
  MkRanges (rh_starts self) (alter (λ acc, xor_digest acc digest) i (rh_accs self))
    (alter (λ c, wrap_u64 (c + 1)) i (rh_counts self)).

Definition remove_at (i : nat) (digest : list Z) (self : RangeHashes) : RangeHashes :=
  MkRanges (rh_starts self) (alter (λ acc, xor_digest acc digest) i (rh_accs self))
    (alter (λ c, Z.max 0 (c - 1)) i (rh_counts self)).

Definition total (self : RangeHashes) : list Z := foldl xor_digest xor_empty (rh_accs self).

Fixpoint accumulate_into (self : RangeHashes) (accs : list (list Z)) (rows : list (string * list Z)) : option (list (list Z)) :=
  match rows with
  | [] => Some accs
  | (id, digest) :: rows =>
      let? i := range_of self id in
      accumulate_into self (alter (λ acc, xor_digest acc digest) i accs) rows
  end.

Definition accumulate (self : RangeHashes) (rows : list (string * list Z)) : option (list (list Z)) :=
  accumulate_into self (replicate (len self) xor_empty) rows.

Definition differing (self : RangeHashes) (other : list (list Z)) : list nat :=
  List.filter (λ i, negb (bool_decide (other !! i = rh_accs self !! i))) (seq 0 (len self)).

Definition overgrown (self : RangeHashes) : bool :=
  let share := Z.max (rows self / MAX_RANGES) RANGE_ROWS in
  existsb (λ c, OVERGROWN_FACTOR * share <? c)%Z (rh_counts self).

Definition to_wire (table : string) (self : RangeHashes) : TableRanges :=
  MkTableRanges table (xor_acc_to_hex (total self)) (rh_starts self) (map xor_acc_to_hex (rh_accs self)) (rh_counts self).

(** Parsing a hash can panic, see [SnapshotHash.xor_acc_from_hex_panics]. *)
Fixpoint parse_hashes (l : list string) : outcome (option (list (list Z))) :=
  match l with
  | [] => Done (Some [])
  | h :: l =>
      match xor_acc_from_hex h with
      | Done (Some acc) =>
          match parse_hashes l with
          | Done (Some accs) => Done (Some (acc :: accs))
          | r => r
          end
      | Done None => Done None
      | Panic => Panic
      end
  end.

Definition from_wire (wire : TableRanges) : outcome (option RangeHashes) :=
  let n := length (tr_starts wire) in
  if Nat.eqb n 0 || negb (Nat.eqb (length (tr_hashes wire)) n) || negb (Nat.eqb (length (tr_counts wire)) n)
     || negb (is_empty_string (default "" (head (tr_starts wire)))) then Done None
  else match with_starts (tr_starts wire) with
  | None => Done None
  | Some ranges =>
      match parse_hashes (tr_hashes wire) with
      | Done (Some accs) =>
          let ranges := MkRanges (rh_starts ranges) accs (tr_counts wire) in
          Done (if String.eqb (xor_acc_to_hex (total ranges)) (tr_hash wire) then Some ranges else None)
      | Done None => Done None
      | Panic => Panic
      end
  end.
End RangeHashes.

(** [Collection::range_accs] of store.rs. *)
Definition range_accs `{OrdSet} (ranges : RangeHashes) (self : Collection) : option (list (list Z)) :=
  RangeHashes.accumulate ranges (omap (λ id, (λ d, (id, d)) <$> rows_digest_of (c_rows self) id) (map_to_list (c_rows self)).*1).

(** ** Folding digests *)

Definition xors (l : list (list Z)) : list Z := foldl xor_digest xor_empty l.

Lemma foldl_xor_r a d l : foldl xor_digest (xor_digest a d) l = xor_digest (foldl xor_digest a l) d.
Proof.
  revert a. induction l as [|x l IH]; intros a; [done|]. cbn. rewrite <- IH. f_equal.
  by rewrite !xor_digest_assoc, (xor_digest_comm d).
Qed.

Lemma foldl_xor_perm a l l' : l ≡ₚ l' → foldl xor_digest a l = foldl xor_digest a l'.
Proof.
  intros Hp. revert a. induction Hp as [|x l l' _ IH|x y l|l1 l2 l3 _ IH1 _ IH2]; intros a; cbn; [done|apply IH| |].
  - f_equal. by rewrite !xor_digest_assoc, (xor_digest_comm x).
  - by rewrite IH1.
Qed.

Lemma foldl_xor_wf a l : acc_wf a → Forall acc_wf l → acc_wf (foldl xor_digest a l).
Proof. intros Ha Hl. revert a Ha. induction Hl as [|x l Hx _ IH]; intros a Ha; [done|]. by apply IH, xor_digest_wf. Qed.

Lemma foldl_xor_alter a d i accs : i < length accs →
  foldl xor_digest a (alter (λ acc, xor_digest acc d) i accs) = xor_digest (foldl xor_digest a accs) d.
Proof.
  revert a i. induction accs as [|x accs IH]; intros a [|i] Hi; cbn in *; try lia.
  - by rewrite <- foldl_xor_r, xor_digest_assoc.
  - by rewrite IH by lia.
Qed.

Lemma foldl_xor_zeros n : foldl xor_digest xor_empty (replicate n xor_empty) = xor_empty.
Proof. induction n as [|n IH]; [done|]. cbn [replicate foldl]. by change (xor_digest xor_empty xor_empty) with xor_empty. Qed.

(** ** Every key is in exactly one range *)

Lemma string_le_refl a : string_le a a = true.
Proof. unfold string_le, string_lt. by rewrite string_cmp_refl. Qed.

Lemma string_lt_le_trans a b c : string_lt a b = true → string_le b c = true → string_lt a c = true.
Proof.
  unfold string_le, string_lt. intros H1 H2. rewrite (string_cmp_flip b c) in H2.
  destruct (string_cmp a b) eqn:E1; try done. destruct (string_cmp b c) eqn:E2; try done.
  - by apply string_cmp_eq in E2 as <-; rewrite E1.
  - by rewrite (string_cmp_trans _ _ _ _ E1 E2).
Qed.

Lemma string_le_lt_trans a b c : string_le a b = true → string_lt b c = true → string_lt a c = true.
Proof.
  unfold string_le, string_lt. intros H1 H2. rewrite (string_cmp_flip a b) in H1.
  destruct (string_cmp b c) eqn:E2; try done. destruct (string_cmp a b) eqn:E1; try done.
  - by apply string_cmp_eq in E1 as ->; rewrite E2.
  - by rewrite (string_cmp_trans _ _ _ _ E1 E2).
Qed.

Lemma increasing_lt l i j a b : increasing l = true → i < j → l !! i = Some a → l !! j = Some b → string_lt a b = true.
Proof.
  revert i j a. induction l as [|x l IH]; intros i j a Hl Hij Ha Hb; [done|].
  destruct l as [|y l]; [destruct j as [|[]]; cbn in Hb; lia || done|]. cbn [increasing] in Hl. apply andb_true_iff in Hl as [Hxy Hl].
  destruct j as [|j]; [lia|]. destruct i as [|i]; cbn in Ha; [|by eapply (IH i j); [|lia| |]].
  injection Ha as <-. destruct j as [|j]; [by injection Hb as <-|].
  eapply string_lt_le_trans; [exact Hxy|]. unfold string_le. apply negb_true_iff.
  assert (string_lt y b = true) as Hyb by (by apply (IH 0 (S j)); [|lia| |]).
  unfold string_lt in *. rewrite string_cmp_flip. by destruct (string_cmp y b).
Qed.

Lemma partition_point_spec {A} (pred : A → bool) l :
  partition_point pred l <= length l ∧
  (∀ i x, l !! i = Some x → i < partition_point pred l → pred x = true) ∧
  (∀ x, l !! partition_point pred l = Some x → pred x = false).
Proof.
  induction l as [|x l (H1 & H2 & H3)]; cbn; [done|]. destruct (pred x) eqn:E; cbn.
  - split; [lia|]. split; [|done]. intros [|i] y Hy Hi; [by injection Hy as <-|]. eapply H2; [done|lia].
  - split; [lia|]. split; [lia|]. by intros y [= <-].
Qed.

Record ranges_wf (r : RangeHashes) : Prop := {
  rw_first : rh_starts r !! 0 = Some "";
  rw_increasing : increasing (rh_starts r) = true;
}.

(** The key is within the bounds the range is read with. *)
Definition within (r : RangeHashes) (i : nat) (key : string) : Prop :=
  i < RangeHashes.len r ∧
  (∀ lo, (RangeHashes.bounds r i).1 = Some lo → string_le lo key = true) ∧
  (∀ hi, (RangeHashes.bounds r i).2 = Some hi → string_lt key hi = true).

Lemma range_of_key_within r key i : ranges_wf r → RangeHashes.range_of_key r key = i ↔ within r i key.
Proof.
  intros [H0 Hinc]. unfold RangeHashes.range_of_key, within, RangeHashes.bounds, RangeHashes.len. cbn [fst snd].
  destruct (partition_point_spec (λ s, string_le s key) (rh_starts r)) as (Hle & Hbelow & Hat).
  set (p := partition_point _ (rh_starts r)) in *.
  assert (0 < p) as Hp.
  { destruct p eqn:Ep; [|lia]. specialize (Hat "" H0). unfold string_le, string_lt in Hat. by destruct key. }
  split.
  - intros <-. split; [lia|]. split.
    + intros lo Hlo. case_match; [|done]. eapply Hbelow; [exact Hlo|lia].
    + intros hi Hhi. replace (S (p - 1)) with p in Hhi by lia. specialize (Hat hi Hhi). unfold string_le in Hat.
      by apply negb_false_iff in Hat.
  - intros (Hi & Hlo & Hhi). destruct (lt_eq_lt_dec (p - 1) i) as [[Hlt|Heq]|Hgt]; [exfalso|done|exfalso].
    + destruct (lookup_lt_is_Some_2 (rh_starts r) p ltac:(lia)) as [x Hx]. specialize (Hat x Hx).
      destruct (lookup_lt_is_Some_2 (rh_starts r) i Hi) as [lo Hx']. replace (0 <? i) with true in Hlo by (symmetry; apply Nat.ltb_lt; lia).
      specialize (Hlo lo Hx'). unfold string_le in Hat. apply negb_false_iff in Hat.
      destruct (decide (p = i)) as [->|Hne].
      * assert (x = lo) as -> by congruence. unfold string_le in Hlo. by rewrite Hat in Hlo.
      * pose proof (increasing_lt _ p i x lo Hinc ltac:(lia) Hx Hx') as Hxl.
        pose proof (string_lt_le_trans _ _ _ Hxl Hlo) as Hxk. unfold string_lt in *. rewrite string_cmp_flip in Hxk.
        by destruct (string_cmp key x).
    + destruct (lookup_lt_is_Some_2 (rh_starts r) (S i) ltac:(lia)) as [hi Hx]. specialize (Hhi hi Hx).
      pose proof (Hbelow (S i) hi Hx ltac:(lia)) as Hb. unfold string_le in Hb. by rewrite Hhi in Hb.
Qed.

Lemma with_starts_wf starts r : RangeHashes.with_starts starts = Some r → ranges_wf r.
Proof.
  unfold RangeHashes.with_starts. intros Hw. case_match; [done|]. injection Hw as <-.
  split; cbn [rh_starts]; [by destruct starts|].
  by match goal with H : negb _ || negb _ = false |- _ => apply orb_false_iff in H as [?%negb_false_iff _] end.
Qed.

(** ** What the accumulators hold *)

(** The rows of one range. *)
Definition in_range (r : RangeHashes) (i : nat) (rows : list (string * list Z)) : list (string * list Z) :=
  List.filter (λ e : string * list Z, bool_decide (RangeHashes.range_of r e.1 = Some i)) rows.

(** The ranges hold exactly these rows: every row's id has a range, and each
    range has the XOR of its rows' digests and their number. *)
Record tracks (r : RangeHashes) (rows : list (string * list Z)) : Prop := {
  tk_wf : ranges_wf r;
  tk_accs_len : length (rh_accs r) = RangeHashes.len r;
  tk_counts_len : length (rh_counts r) = RangeHashes.len r;
  tk_rows : Forall (λ e : string * list Z, is_Some (RangeHashes.range_of r e.1) ∧ acc_wf e.2) rows;
  tk_accs : ∀ i, i < RangeHashes.len r → rh_accs r !! i = Some (xors (in_range r i rows).*2);
  tk_counts : ∀ i, i < RangeHashes.len r → rh_counts r !! i = Some (zlength (in_range r i rows));
}.

Lemma range_of_lt r id i : ranges_wf r → RangeHashes.range_of r id = Some i → i < RangeHashes.len r.
Proof.
  intros Hw. unfold RangeHashes.range_of. destruct (string_key id) as [k|]; [|done]. intros [= E].
  by apply (range_of_key_within r k i Hw) in E as [? _].
Qed.

Lemma in_range_cons r i id d rows :
  in_range r i ((id, d) :: rows) = if decide (RangeHashes.range_of r id = Some i) then (id, d) :: in_range r i rows else in_range r i rows.
Proof. unfold in_range. cbn. by case_decide; [rewrite bool_decide_true|rewrite bool_decide_false]. Qed.

Lemma in_range_perm r i rows rows' : rows ≡ₚ rows' → in_range r i rows ≡ₚ in_range r i rows'.
Proof.
  induction 1 as [|x l l' _ IH|x y l|l1 l2 l3 _ IH1 _ IH2]; cbn; [done| | |by etrans].
  - destruct (bool_decide _); [by constructor|done].
  - destruct (bool_decide (RangeHashes.range_of r x.1 = _)), (bool_decide (RangeHashes.range_of r y.1 = _)); [constructor|done..].
Qed.

Lemma in_range_wf r i rows : Forall (λ e : string * list Z, is_Some (RangeHashes.range_of r e.1) ∧ acc_wf e.2) rows →
  Forall acc_wf (in_range r i rows).*2.
Proof.
  induction 1 as [|[id d] rows [_ Hd] _ IH]; [constructor|]. cbn. destruct (bool_decide _); [by constructor|done].
Qed.

Lemma xors_wf l : Forall acc_wf l → acc_wf (xors l).
Proof. apply foldl_xor_wf, xor_empty_wf. Qed.

Lemma in_range_le r i rows : (zlength (in_range r i rows) <= zlength rows)%Z.
Proof. unfold zlength, in_range. apply inj_le, filter_length_le. Qed.

Lemma tracks_perm r rows rows' : rows ≡ₚ rows' → tracks r rows → tracks r rows'.
Proof.
  intros Hp [Hw Ha Hc Hr Haccs Hcounts]. split; [done..| | |].
  - by rewrite <- Hp.
  - intros i Hi. rewrite Haccs by done. f_equal. apply foldl_xor_perm. by rewrite (in_range_perm _ _ _ _ Hp).
  - intros i Hi. rewrite Hcounts by done. unfold zlength. by rewrite (in_range_perm _ _ _ _ Hp).
Qed.

Lemma tracks_new starts r : RangeHashes.with_starts starts = Some r → tracks r [].
Proof.
  intros Hr. pose proof (with_starts_wf _ _ Hr) as Hw. unfold RangeHashes.with_starts in Hr. case_match; [done|].
  injection Hr as <-. split; [done|apply length_replicate|apply length_replicate|constructor| |]; intros i Hi;
    by apply lookup_replicate_2.
Qed.

Lemma tracks_add r rows id d i : tracks r rows → RangeHashes.range_of r id = Some i → acc_wf d → (zlength rows + 1 < two64)%Z →
  tracks (RangeHashes.add_at i d r) ((id, d) :: rows).
Proof.
  intros [Hw Ha Hc Hr Haccs Hcounts] Hi Hd Hlen. split.
  - by destruct Hw.
  - cbn. by rewrite length_alter.
  - cbn. by rewrite length_alter.
  - constructor; [|done]. split; [by exists i|done].
  - intros j Hj. change (in_range (RangeHashes.add_at i d r)) with (in_range r). rewrite in_range_cons. cbn [RangeHashes.add_at rh_accs].
    destruct (decide _) as [E|E].
    + assert (i = j) as -> by congruence. rewrite list_lookup_alter, decide_True, Haccs by done.
      change (Some (xor_digest (xors (in_range r j rows).*2) d) = Some (foldl xor_digest (xor_digest xor_empty d) (in_range r j rows).*2)).
      by rewrite foldl_xor_r.
    + rewrite list_lookup_alter, decide_False by congruence. by apply Haccs.
  - intros j Hj. change (in_range (RangeHashes.add_at i d r)) with (in_range r). rewrite in_range_cons. cbn [RangeHashes.add_at rh_counts].
    destruct (decide _) as [E|E].
    + assert (i = j) as -> by congruence. rewrite list_lookup_alter, decide_True, Hcounts by done. cbn. f_equal.
      pose proof (in_range_le r j rows). unfold zlength in *. cbn [length]. unfold wrap_u64. rewrite Z.mod_small; lia.
    + rewrite list_lookup_alter, decide_False by congruence. by apply Hcounts.
Qed.

Lemma tracks_remove r rows id d i : tracks r ((id, d) :: rows) → RangeHashes.range_of r id = Some i →
  tracks (RangeHashes.remove_at i d r) rows.
Proof.
  intros [Hw Ha Hc Hr Haccs Hcounts] Hi. apply Forall_cons in Hr as [[_ Hd] Hr]. split.
  - by destruct Hw.
  - cbn. by rewrite length_alter.
  - cbn. by rewrite length_alter.
  - done.
  - intros j Hj. specialize (Haccs j Hj). rewrite in_range_cons in Haccs. cbn [RangeHashes.remove_at rh_accs].
    change (in_range (RangeHashes.remove_at i d r)) with (in_range r).
    destruct (decide _) as [E|E]; [|rewrite list_lookup_alter, decide_False by congruence; done].
    assert (i = j) as -> by congruence. rewrite list_lookup_alter, decide_True, Haccs by done.
    change (Some (xor_digest (foldl xor_digest (xor_digest xor_empty d) (in_range r j rows).*2) d) = Some (xors (in_range r j rows).*2)).
    rewrite foldl_xor_r. f_equal. apply xor_digest_cancel.
    destruct (xors_wf _ (in_range_wf r j rows Hr)) as [Hx _]. destruct Hd as [Hd _]. exact (eq_trans Hx (eq_sym Hd)).
  - intros j Hj. specialize (Hcounts j Hj). rewrite in_range_cons in Hcounts. cbn [RangeHashes.remove_at rh_counts].
    change (in_range (RangeHashes.remove_at i d r)) with (in_range r).
    destruct (decide _) as [E|E]; [|rewrite list_lookup_alter, decide_False by congruence; done].
    assert (i = j) as -> by congruence. rewrite list_lookup_alter, decide_True, Hcounts by done. cbn. f_equal.
    unfold zlength. cbn. lia.
Qed.

(** Accumulating folds every digest into the accumulator of its row's range. *)
Lemma accumulate_into_spec r accs rows accs' : RangeHashes.accumulate_into r accs rows = Some accs' →
  length accs' = length accs ∧ Forall (λ e : string * list Z, is_Some (RangeHashes.range_of r e.1)) rows ∧
  ∀ i, accs' !! i = (λ acc, foldl xor_digest acc (in_range r i rows).*2) <$> accs !! i.
Proof.
  revert accs. induction rows as [|[id d] rows IH]; intros accs; cbn [RangeHashes.accumulate_into].
  { intros [= <-]. split; [done|]. split; [constructor|]. intros i. by destruct (accs !! i). }
  destruct (RangeHashes.range_of r id) as [i|] eqn:Ei; [|done]. intros (Hl & Hr & Hi)%IH. rewrite length_alter in Hl.
  split; [done|]. split; [by constructor; [exists i|]|]. intros j. rewrite Hi, in_range_cons, list_lookup_alter, Ei.
  destruct (decide (i = j)) as [->|Hne]; [rewrite decide_True by done|rewrite decide_False by congruence; done].
  by destruct (accs !! j).
Qed.

Lemma accumulate_total r rows : ranges_wf r → ∀ accs accs' a, length accs = RangeHashes.len r →
  RangeHashes.accumulate_into r accs rows = Some accs' →
  foldl xor_digest a accs' = foldl xor_digest (foldl xor_digest a accs) rows.*2.
Proof.
  intros Hw. induction rows as [|[id d] rows IH]; intros accs accs' a Hl; cbn [RangeHashes.accumulate_into]; [by intros [= <-]|].
  destruct (RangeHashes.range_of r id) as [i|] eqn:Ei; [|done]. intros E.
  rewrite (IH _ accs' a (eq_trans (length_alter _ _ _) Hl) E). rewrite fmap_cons. cbn [foldl snd]. f_equal. apply foldl_xor_alter. rewrite Hl. by eapply range_of_lt.
Qed.

(** What is tracked is what accumulating the rows gives. *)
Lemma tracks_accumulate r rows : tracks r rows → RangeHashes.accumulate r rows = Some (rh_accs r).
Proof.
  intros [Hw Ha Hc Hr Haccs Hcounts]. unfold RangeHashes.accumulate.
  assert (∃ accs, RangeHashes.accumulate_into r (replicate (RangeHashes.len r) xor_empty) rows = Some accs) as [accs E].
  { generalize (replicate (RangeHashes.len r) xor_empty). clear Haccs Hcounts. induction Hr as [|[id d] rows [[i Hi] _] _ IH]; intros accs; [by eexists|].
    cbn [RangeHashes.accumulate_into]. cbn [fst] in Hi. rewrite Hi. apply IH. }
  rewrite E. f_equal. destruct (accumulate_into_spec _ _ _ _ E) as (Hl & _ & Hlook). rewrite length_replicate in Hl.
  apply list_eq. intros i. rewrite Hlook. destruct (decide (i < RangeHashes.len r)) as [Hi|Hi].
  - by rewrite lookup_replicate_2, Haccs by done.
  - rewrite !lookup_ge_None_2; [done|lia|rewrite length_replicate; lia].
Qed.

Lemma tracks_total r rows : tracks r rows → RangeHashes.total r = xors rows.*2.
Proof.
  intros Ht. pose proof (tracks_accumulate r rows Ht) as E. unfold RangeHashes.total.
  rewrite (accumulate_total r rows (tk_wf _ _ Ht) _ _ xor_empty (length_replicate _ _) E). by rewrite foldl_xor_zeros.
Qed.

Lemma differing_same r other i : i < RangeHashes.len r → i ∉ RangeHashes.differing r other → other !! i = rh_accs r !! i.
Proof.
  intros Hi Hn. destruct (decide (other !! i = rh_accs r !! i)) as [E|E]; [done|]. exfalso. apply Hn.
  apply list_elem_of_In, filter_In. split; [apply in_seq; lia|]. by rewrite bool_decide_false.
Qed.

(** ** The wire form *)

(** What [from_wire] checks beyond the hash. *)
Definition wire_ok (r : RangeHashes) : Prop :=
  RangeHashes.with_starts (rh_starts r) =
    Some (MkRanges (rh_starts r) (replicate (RangeHashes.len r) xor_empty) (replicate (RangeHashes.len r) 0%Z)) ∧
  length (rh_accs r) = RangeHashes.len r ∧ length (rh_counts r) = RangeHashes.len r ∧ Forall acc_wf (rh_accs r).

Lemma parse_hashes_ok accs : Forall acc_wf accs → RangeHashes.parse_hashes (map xor_acc_to_hex accs) = Done (Some accs).
Proof.
  induction 1 as [|acc accs Ha _ IH]; [done|]. cbn [map RangeHashes.parse_hashes]. by rewrite xor_acc_hex_roundtrip, IH.
Qed.

Lemma with_starts_first starts r : RangeHashes.with_starts starts = Some r → ∃ l, rh_starts r = "" :: l.
Proof. unfold RangeHashes.with_starts. case_match; [done|]. intros [= <-]. destruct starts as [|s l]; by eexists. Qed.

Lemma from_to_wire table r : wire_ok r → RangeHashes.from_wire (RangeHashes.to_wire table r) = Done (Some r).
Proof.
  intros (Hs & Ha & Hc & Hwf). destruct (with_starts_first _ _ Hs) as [l El]. cbn in El.
  destruct r as [starts accs counts]. unfold RangeHashes.len in *. cbn [rh_starts rh_accs rh_counts] in *. subst starts.
  unfold RangeHashes.from_wire, RangeHashes.to_wire. cbn [tr_starts tr_hashes tr_counts tr_hash rh_starts rh_accs rh_counts].
  rewrite length_map, Ha, Hc, !Nat.eqb_refl, Hs, parse_hashes_ok by done.
  cbn [length Nat.eqb negb orb default head is_empty_string rh_starts]. by rewrite String.eqb_refl.
Qed.

(** What is tracked can be sent. *)
Lemma tracks_wire_ok starts r0 r rows : RangeHashes.with_starts starts = Some r0 → rh_starts r = rh_starts r0 →
  tracks r rows → wire_ok r.
Proof.
  intros Hw Es Ht. split; [|split; [apply (tk_accs_len _ _ Ht)|split; [apply (tk_counts_len _ _ Ht)|]]].
  - unfold RangeHashes.len. rewrite Es. unfold RangeHashes.with_starts in *. destruct (negb _ || negb _) eqn:E; [done|].
    injection Hw as <-. cbn [rh_starts] in *. assert (∀ l : list string, match l with [] => [""] | _ :: l => "" :: l end =
      match (match l with [] => [""] | _ :: l => "" :: l end) with [] => [""] | _ :: l => "" :: l end) as Hid by (by intros []).
    rewrite <- Hid, E. done.
  - apply Forall_lookup. intros i acc Ei. pose proof (lookup_lt_Some _ _ _ Ei) as Hi. rewrite (tk_accs_len _ _ Ht) in Hi.
    rewrite (tk_accs _ _ Ht i Hi) in Ei. injection Ei as <-. apply xors_wf, in_range_wf, (tk_rows _ _ Ht).
Qed.

Lemma parse_hashes_length l accs : RangeHashes.parse_hashes l = Done (Some accs) → length accs = length l.
Proof.
  revert accs. induction l as [|h l IH]; intros accs; cbn [RangeHashes.parse_hashes]; [by intros [= <-]|].
  destruct (xor_acc_from_hex h) as [[acc|]|]; [|done..]. destruct (RangeHashes.parse_hashes l) as [[accs'|]|]; [|done..].
  intros [= <-]. cbn. f_equal. by apply IH.
Qed.

Lemma with_starts_keeps starts r : RangeHashes.with_starts starts = Some r → head starts = Some "" → rh_starts r = starts.
Proof. unfold RangeHashes.with_starts. case_match; [done|]. intros [= <-] Hh. destruct starts as [|s l]; [done|]. by injection Hh as ->. Qed.

(** The ranges of a table survive the wire, hash check
    included; and whatever else is accepted from the wire is well formed: its
    bounds are the ones sent, increasing from the empty string, with one
    accumulator and one count each, and its accumulators fold to the table
    hash it was sent with. *)
Theorem wire_roundtrip :
  (∀ table r, wire_ok r → RangeHashes.from_wire (RangeHashes.to_wire table r) = Done (Some r)) ∧
  (∀ wire r, RangeHashes.from_wire wire = Done (Some r) →
    ranges_wf r ∧ rh_starts r = tr_starts wire ∧ rh_counts r = tr_counts wire ∧
    length (rh_accs r) = RangeHashes.len r ∧ length (rh_counts r) = RangeHashes.len r ∧
    xor_acc_to_hex (RangeHashes.total r) = tr_hash wire).
Proof.
  split; [apply from_to_wire|]. intros wire r. unfold RangeHashes.from_wire.
  destruct (Nat.eqb (length (tr_starts wire)) 0 || _ || _ || _) eqn:E; [done|]. apply orb_false_iff in E as [E Hfirst].
  apply orb_false_iff in E as [E Hc%negb_false_iff%Nat.eqb_eq]. apply orb_false_iff in E as [Hn Ha%negb_false_iff%Nat.eqb_eq].
  destruct (RangeHashes.with_starts (tr_starts wire)) as [r0|] eqn:Es; [|done].
  destruct (RangeHashes.parse_hashes (tr_hashes wire)) as [[accs|]|] eqn:Ep; [|done..].
  destruct (String.eqb_spec (xor_acc_to_hex (RangeHashes.total (MkRanges (rh_starts r0) accs (tr_counts wire)))) (tr_hash wire)) as [Eh|]; [|done].
  intros [= <-]. apply parse_hashes_length in Ep.
  assert (head (tr_starts wire) = Some "") as Hh.
  { destruct (tr_starts wire) as [|s l]; [done|]. by destruct s. }
  pose proof (with_starts_keeps _ _ Es Hh) as Ek. unfold RangeHashes.len. cbn [rh_starts rh_accs rh_counts].
  destruct (with_starts_wf _ _ Es) as [H0 Hi]. rewrite Ek in *. split_and!; [by split|done|done|congruence|done|done].
Qed.

(** C29: Every key is in exactly one range, the one within whose
    bounds it is read. Ranges that hold the rows of a table fold to its hash,
    and hold the rows it then has after a row is added or removed. *)
Theorem ranges_exact r rows (Ht : tracks r rows) :
  (∀ key i, RangeHashes.range_of_key r key = i ↔ within r i key) ∧
  RangeHashes.total r = xors rows.*2 ∧
  (∀ id d i, RangeHashes.range_of r id = Some i → acc_wf d → (zlength rows + 1 < two64)%Z →
    tracks (RangeHashes.add_at i d r) ((id, d) :: rows)) ∧
  (∀ id d i rows', rows ≡ₚ (id, d) :: rows' → RangeHashes.range_of r id = Some i → tracks (RangeHashes.remove_at i d r) rows').
Proof.
  split; [intros; apply range_of_key_within, (tk_wf _ _ Ht)|]. split; [by apply tracks_total|].
  split; [intros; by apply tracks_add|]. intros id d i rows' Hp Hi. eapply tracks_remove; [|exact Hi]. by eapply tracks_perm.
Qed.

(** ** Against the rows of the engine *)

Section engine.
Context `{HashingLaws} `{OrdSetLaws}.

(** The raw ids of a collection with the digests stored for them. *)
Definition table_rows (c : Collection) : list (string * list Z) :=
  (λ e : string * StoredRow, (e.1, sr_digest e.2)) <$> map_to_list (c_rows c).

Lemma range_accs_rows r c : range_accs r c = RangeHashes.accumulate r (table_rows c).
Proof.
  unfold range_accs, table_rows. f_equal.
  assert (∀ e, e ∈ map_to_list (c_rows c) → rows_digest_of (c_rows c) e.1 = Some (sr_digest e.2)) as Hd.
  { intros [id row] E%elem_of_map_to_list. unfold rows_digest_of. cbn in *. by rewrite E. }
  induction (map_to_list (c_rows c)) as [|e l IH]; [done|]. cbn. rewrite Hd by (by left). cbn. f_equal.
  apply IH. intros; apply Hd. by right.
Qed.

Lemma table_rows_xor c : xors (table_rows c).*2 = xor_rows (c_rows c).
Proof.
  unfold xor_rows, table_rows, xors. rewrite map_fold_foldr. induction (map_to_list (c_rows c)) as [|[id row] l IH]; [done|].
  rewrite !fmap_cons. cbn [foldl foldr fst snd uncurry]. by rewrite foldl_xor_r, IH.
Qed.

(** Comparing a collection with another side's ranges finds
    where they differ. The collection's accumulators fold to its table hash;
    in a range that is not reported both sides have the same XOR of digests;
    when the table hashes differ some range is reported; and none is when the
    rows are the same. *)
Theorem ranges_locate r rows c accs (Hc : coll_inv c) (Ht : tracks r rows) (Haccs : range_accs r c = Some accs) :
  xors accs = c_catchup_xor c ∧
  (∀ i, i < RangeHashes.len r → i ∉ RangeHashes.differing r accs →
    xors (in_range r i rows).*2 = xors (in_range r i (table_rows c)).*2) ∧
  (RangeHashes.total r ≠ c_catchup_xor c → RangeHashes.differing r accs ≠ []) ∧
  (rows ≡ₚ table_rows c → RangeHashes.differing r accs = []).
Proof.
  rewrite range_accs_rows in Haccs. pose proof (accumulate_into_spec _ _ _ _ Haccs) as (Hl & _ & Hlook). rewrite length_replicate in Hl.
  assert (xors accs = c_catchup_xor c) as Hx.
  { rewrite (ci_xor _ Hc), <- table_rows_xor. unfold xors at 1.
    rewrite (accumulate_total r _ (tk_wf _ _ Ht) _ _ xor_empty (length_replicate _ _) Haccs). by rewrite foldl_xor_zeros. }
  split; [done|]. split; [|split].
  - intros i Hi Hn. pose proof (differing_same r accs i Hi Hn) as E. rewrite (tk_accs _ _ Ht i Hi), Hlook, lookup_replicate_2 in E by done.
    by injection E.
  - intros Hne Hd. apply Hne. rewrite <- Hx. unfold RangeHashes.total, xors. f_equal. symmetry. apply list_eq. intros i.
    destruct (decide (i < RangeHashes.len r)) as [Hi|Hi]; [apply differing_same; [done|by rewrite Hd; apply not_elem_of_nil]|].
    pose proof (tk_accs_len _ _ Ht). rewrite !lookup_ge_None_2; [done|lia..].
  - intros Hp. pose proof (tracks_accumulate _ _ (tracks_perm _ _ _ Hp Ht)) as E. rewrite Haccs in E. injection E as ->.
    unfold RangeHashes.differing. induction (seq 0 (RangeHashes.len r)) as [|i l IH]; [done|]. cbn. by rewrite bool_decide_true.
Qed.
End engine.

(** ** Two ranges and one row *)

Definition sample_digest : list Z := blake3 [7%Z].
Definition two_ranges : RangeHashes := MkRanges [""; "m"] [xor_empty; xor_empty] [0%Z; 0%Z].
Definition one_row : RangeHashes := RangeHashes.add_at 0 sample_digest two_ranges.

Lemma two_ranges_new : RangeHashes.with_starts [""; "m"] = Some two_ranges.
Proof. vm_compute. reflexivity. Qed.

Lemma one_row_tracks : tracks one_row [("abc", sample_digest)].
Proof.
  apply tracks_add; [exact (tracks_new _ _ two_ranges_new)|vm_compute; reflexivity|apply blake3_acc_wf|].
  unfold two64. vm_compute. reflexivity.
Qed.

Lemma ranges_exact_witness : RangeHashes.range_of_key one_row "abc" = 0 ∧ RangeHashes.total one_row = sample_digest.
Proof.
  destruct (ranges_exact one_row [("abc", sample_digest)] one_row_tracks) as (Hkey & Htotal & _). split.
  - apply Hkey. split; [vm_compute; lia|]. split; [by intros lo [=]|]. intros hi [= <-]. reflexivity.
  - rewrite Htotal. vm_compute. reflexivity.
Defined.

Lemma wire_roundtrip_witness : RangeHashes.from_wire (RangeHashes.to_wire "game" one_row) = Done (Some one_row).
Proof.
  apply (proj1 wire_roundtrip). exact (tracks_wire_ok _ _ one_row _ two_ranges_new eq_refl one_row_tracks).
Defined.

Lemma ranges_locate_witness : ∃ accs, range_accs one_row (Collection.new "game") = Some accs ∧
  RangeHashes.differing one_row accs ≠ [].
Proof.
  exists [xor_empty; xor_empty]. split; [reflexivity|].
  apply (proj1 (proj2 (proj2 (ranges_locate one_row _ (Collection.new "game") [xor_empty; xor_empty]
    (new_inv "game") one_row_tracks eq_refl)))).
  vm_compute. discriminate.
Defined.
