(* ===== verification/Plan.v ===== *)
(** * Query plans

    Models [packages/ssp/src/operator/predicate.rs] and [plan.rs]: the trees
    the query converter hands to the engine, and the questions the engine asks
    of a plan (its tables, the fields it evaluates, its subqueries). How a tree is
    written as JSON is in MergeKey. *)

From S2P Require Import Prelude Value.

(** ** Predicates *)

Inductive Predicate :=
  | PTrue
  | PFalse
  | PEq (field : Path) (value : Value)
  | PNeq (field : Path) (value : Value)
  | PGt (field : Path) (value : Value)
  | PGte (field : Path) (value : Value)
  | PLt (field : Path) (value : Value)
  | PLte (field : Path) (value : Value)
  | PPrefix (field : Path) (pre : string)
  | PParamEq (param : string) (value : Value)
  | PParamNeq (param : string) (value : Value)
  | PParamGt (param : string) (value : Value)
  | PParamGte (param : string) (value : Value)
  | PParamLt (param : string) (value : Value)
  | PParamLte (param : string) (value : Value)
  | PAnd (predicates : list Predicate)
  | POr (predicates : list Predicate).

(** [path.segments().first()], pushed when it is there. *)
Definition path_root (p : Path) : list string :=
  match segments p with root :: _ => [root] | [] => [] end.

Fixpoint field_roots (p : Predicate) : list string :=
  match p with
  | PEq field _ | PNeq field _ | PGt field _ | PGte field _ | PLt field _ | PLte field _
  | PPrefix field _ => path_root field
  | PAnd predicates | POr predicates => flat_map field_roots predicates
  | PTrue | PFalse | PParamEq _ _ | PParamNeq _ _ | PParamGt _ _ | PParamGte _ _
  | PParamLt _ _ | PParamLte _ _ => []
  end.

(** ** Operator plans *)

Record JoinCondition := MkJoinCondition { left_field : Path; right_field : Path }.
Record OrderSpec := MkOrderSpec { os_field : Path; os_direction : string }.
Record SubqueryParentKey := MkParentKey { child_field : string; parent_field : string }.

#[global] Instance join_condition_eq_dec : EqDecision JoinCondition.
Proof. solve_decision. Defined.
#[global] Instance order_spec_eq_dec : EqDecision OrderSpec.
Proof. solve_decision. Defined.
#[global] Instance parent_key_eq_dec : EqDecision SubqueryParentKey.
Proof. solve_decision. Defined.

Inductive OperatorPlan :=
  | OpScan (table : string)
  | OpFilter (input : OperatorPlan) (predicate : Predicate)
  | OpJoin (left right : OperatorPlan) (on : JoinCondition)
  | OpSemiJoin (left right : OperatorPlan) (on : JoinCondition)
  | OpAntiJoin (left right : OperatorPlan) (on : JoinCondition)
  | OpUnion (left right : OperatorPlan)
  | OpDistinct (input : OperatorPlan)
  | OpProject (input : OperatorPlan) (projections : list Projection)
  | OpLimit (input : OperatorPlan) (limit start : Z) (order_by : option (list OrderSpec))
with Projection :=
  | PAll
  | PField (field : Path) (alias : option string)
  | PSubquery (alias : string) (plan : OperatorPlan) (parent_key : option SubqueryParentKey).

Record QueryPlan := MkQueryPlan { qp_id : string; qp_root : OperatorPlan }.

Fixpoint collect_tables (p : OperatorPlan) : list string :=
  match p with
  | OpScan table => [table]
  | OpFilter input _ | OpLimit input _ _ _ | OpDistinct input => collect_tables input
  | OpProject input projections =>
      collect_tables input ++
      flat_map (λ proj, match proj with
        | PSubquery _ plan _ => collect_tables plan
        | PAll | PField _ _ => []
        end) projections
  | OpJoin l r _ | OpSemiJoin l r _ | OpAntiJoin l r _ | OpUnion l r =>
      collect_tables l ++ collect_tables r
  end.

Definition referenced_tables (p : OperatorPlan) : list string := dedup_first (collect_tables p).

(** The table a field of this node's clauses is attributed to. *)
Definition owner (p : OperatorPlan) : option string := head (referenced_tables p).

Fixpoint collect_evaluated_field_refs (p : OperatorPlan) : list (string * string) :=
  match p with
  | OpScan _ => []
  | OpFilter input predicate =>
      match owner input with
      | Some table => map (λ field, (table, field)) (field_roots predicate)
      | None => []
      end ++ collect_evaluated_field_refs input
  | OpLimit input _ _ order_by =>
      match owner input, order_by with
      | Some table, Some specs =>
          flat_map (λ spec, map (λ root, (table, root)) (path_root (os_field spec))) specs
      | _, _ => []
      end ++ collect_evaluated_field_refs input
  | OpDistinct input => collect_evaluated_field_refs input
  | OpProject input projections =>
      collect_evaluated_field_refs input ++
      flat_map (λ proj, match proj with
        | PSubquery _ plan parent_key =>
            match parent_key with
            | Some key =>
                match owner plan with Some t => [(t, child_field key)] | None => [] end ++
                match owner input with Some t => [(t, parent_field key)] | None => [] end
            | None => []
            end ++ collect_evaluated_field_refs plan
        | PAll | PField _ _ => []
        end) projections
  | OpJoin l r on | OpSemiJoin l r on | OpAntiJoin l r on =>
      match owner l with
      | Some t => map (λ root, (t, root)) (path_root (left_field on)) | None => [] end ++
      match owner r with
      | Some t => map (λ root, (t, root)) (path_root (right_field on)) | None => [] end ++
      collect_evaluated_field_refs l ++ collect_evaluated_field_refs r
  | OpUnion l r =>
      collect_evaluated_field_refs l ++ collect_evaluated_field_refs r
  end.

Definition evaluated_field_refs (p : OperatorPlan) : list (string * string) :=
  dedup_first (collect_evaluated_field_refs p).

Fixpoint collect_subquery_tables (p : OperatorPlan) : list string :=
  match p with
  | OpScan _ => []
  | OpFilter input _ | OpLimit input _ _ _ | OpDistinct input => collect_subquery_tables input
  | OpProject input projections =>
      collect_subquery_tables input ++
      flat_map (λ proj, match proj with
        | PSubquery _ plan _ => collect_tables plan
        | PAll | PField _ _ => []
        end) projections
  | OpJoin l r _ | OpSemiJoin l r _ | OpAntiJoin l r _ | OpUnion l r =>
      collect_subquery_tables l ++ collect_subquery_tables r
  end.

Definition subquery_tables (p : OperatorPlan) : list string := dedup_first (collect_subquery_tables p).

(** (alias, table, parent key, parent table) *)
Record SubqueryInfo := MkSubqueryInfo {
  si_alias : string; si_table : string;
  si_parent_key : option SubqueryParentKey; si_parent_table : option string;
}.

Fixpoint collect_subquery_projection_info (p : OperatorPlan) (parent_table : option string)
    : list SubqueryInfo :=
  match p with
  | OpScan _ => []
  | OpFilter input _ | OpLimit input _ _ _ | OpDistinct input =>
      collect_subquery_projection_info input parent_table
  | OpProject input projections =>
      collect_subquery_projection_info input parent_table ++
      flat_map (λ proj, match proj with
        | PSubquery alias plan parent_key =>
            match head (referenced_tables plan) with
            | Some table =>
                MkSubqueryInfo alias table parent_key parent_table ::
                collect_subquery_projection_info plan (Some table)
            | None => []
            end
        | PAll | PField _ _ => []
        end) projections
  | OpJoin l r _ | OpSemiJoin l r _ | OpAntiJoin l r _ | OpUnion l r =>
      collect_subquery_projection_info l parent_table ++
      collect_subquery_projection_info r parent_table
  end.

Definition subquery_projection_info (p : OperatorPlan) : list SubqueryInfo :=
  collect_subquery_projection_info p None.

(** ** Facts *)

(** Every plan reads at least one table, so [owner] is always defined. *)
Lemma collect_tables_nonempty p : collect_tables p ≠ [].
Proof.
  induction p; simpl; try done; intros H; apply app_eq_nil in H as [? _]; done.
Qed.

Lemma owner_Some p : is_Some (owner p).
Proof.
  unfold owner. destruct (collect_tables p) as [|t l] eqn:E.
  { by destruct (collect_tables_nonempty p). }
  assert (t ∈ referenced_tables p) as Hin.
  { unfold referenced_tables. apply elem_of_dedup_first. rewrite E. set_solver. }
  destruct (referenced_tables p); [set_solver|]. by eexists.
Qed.

Lemma elem_of_referenced_tables p t : t ∈ referenced_tables p ↔ t ∈ collect_tables p.
Proof. apply elem_of_dedup_first. Qed.
