(* ===== verification/Combinators.v ===== *)
(** * Text and its parsers

    The parts of Rust's [str] and [char] that the query converter and the
    permissions use, on the bytes of a text; then the combinators its parsers
    are written with. *)

From S2P Require Import Prelude Platform Value.
From Stdlib Require Import FunctionalExtensionality.
Local Open Scope Z_scope.

(** What follows a whitespace character at the start of a text, by the
    property [White_Space] of Unicode. *)
Definition ws_char (bs : list Z) : option (list Z) :=
  match bs with
  | 194 :: (133 | 160) :: r => Some r
  | 225 :: 154 :: 128 :: r => Some r
  | 226 :: 128 :: b :: r =>
      if ((128 <=? b) && (b <=? 138)) || (b =? 168) || (b =? 169) || (b =? 175) then Some r else None
  | 226 :: 129 :: 159 :: r => Some r
  | 227 :: 128 :: 128 :: r => Some r
  | b :: r => if ((9 <=? b) && (b <=? 13)) || (b =? 32) then Some r else None
  | [] => None
  end.

(** Whitespace is skipped character by character: a byte of fuel each. *)
Fixpoint skip_ws (fuel : nat) (bs : list Z) : list Z :=
  match fuel with
  | O => bs
  | S fuel => match ws_char bs with Some r => skip_ws fuel r | None => bs end
  end.
Definition trim_start (bs : list Z) : list Z := skip_ws (length bs) bs.

Fixpoint trim_end_fuel (fuel : nat) (bs : list Z) : list Z :=
  match fuel with
  | O => []
  | S fuel =>
      match bs with
      | [] => []
      | b :: r => if bool_decide (trim_start bs = []) then [] else b :: trim_end_fuel fuel r
      end
  end.
Definition trim (s : string) : string :=
  let bs := trim_start (bytes_of s) in string_of_bytes (trim_end_fuel (length bs) bs).

(** What follows [p] at the start of [bs]. *)
Fixpoint strip_bytes (p bs : list Z) : option (list Z) :=
  match p, bs with
  | [], _ => Some bs
  | a :: p, b :: bs => if a =? b then strip_bytes p bs else None
  | _ :: _, [] => None
  end.

Fixpoint contains_bytes (p bs : list Z) : bool :=
  match strip_bytes p bs with
  | Some _ => true
  | None => match bs with [] => false | _ :: bs => contains_bytes p bs end
  end.
Definition contains (s p : string) : bool := contains_bytes (bytes_of p) (bytes_of s).

Definition lower_byte (b : Z) : Z := if (65 <=? b) && (b <=? 90) then b + 32 else b.

(** [s.trim_end_matches(c)] for an ASCII character. *)
Fixpoint drop_while (p : Z → bool) (bs : list Z) : list Z :=
  match bs with b :: r => if p b then drop_while p r else bs | [] => [] end.
Definition trim_end_matches (c : Z) (bs : list Z) : list Z := reverse (drop_while (λ b, b =? c) (reverse bs)).

Definition ends_with (c : Z) (bs : list Z) : bool := bool_decide (last bs = Some c).

(** [to_uppercase] of an ASCII text. *)
Definition upper_byte (b : Z) : Z := if (97 <=? b) && (b <=? 122) then b - 32 else b.

(** The first character of a text, and the length of its encoding. *)
Definition next_char (bs : list Z) : option (Z * nat) :=
  match bs with
  | b :: c :: d :: e :: _ =>
      if 240 <=? b then Some ((b - 240) * 262144 + (c - 128) * 4096 + (d - 128) * 64 + (e - 128), 4%nat)
      else if 224 <=? b then Some ((b - 224) * 4096 + (c - 128) * 64 + (d - 128), 3%nat)
      else if 192 <=? b then Some ((b - 192) * 64 + (c - 128), 2%nat)
      else Some (b, 1%nat)
  | b :: c :: d :: _ =>
      if 224 <=? b then Some ((b - 224) * 4096 + (c - 128) * 64 + (d - 128), 3%nat)
      else if 192 <=? b then Some ((b - 192) * 64 + (c - 128), 2%nat)
      else Some (b, 1%nat)
  | b :: c :: _ => if 192 <=? b then Some ((b - 192) * 64 + (c - 128), 2%nat) else Some (b, 1%nat)
  | [b] => Some (b, 1%nat)
  | [] => None
  end.

Definition is_alpha (b : Z) : bool := between 65 b 90 || between 97 b 122.
Definition is_digit (b : Z) : bool := between 48 b 57.

(** [char::is_alphanumeric]: beyond ASCII, the tables of the Unicode standard. *)
Class UnicodeTables := { wide_alphanumeric : Z → bool }.

Definition is_alphanumeric `{UnicodeTables} (c : Z) : bool :=
  if c <? 128 then is_alpha c || is_digit c else wide_alphanumeric c.

(** Latin letters with diacritics, for the samples. *)
#[export] Instance latin_tables : UnicodeTables := {| wide_alphanumeric := λ c, between 192 c 591 |}.

(** [s.parse()] of a text of digits, into integers below [bound]. *)
Definition digits_value (bs : list Z) : Z := foldl (λ n b, n * 10 + (b - 48)) 0 bs.
Definition parse_digits (bound : Z) (bs : list Z) : option Z :=
  if digits_value bs <? bound then Some (digits_value bs) else None.

(** * Parser combinators

    The combinators of the [nom] crate (7.1, on complete input) that the query
    converter is written with. They are parameters, [Ops]; [Laws] says that
    they do what the crate documents, which the functions named after them
    below spell out. An error is recoverable ([Error]: an alternative is
    tried) or not ([Failure]); what it reports is left out. *)

Local Open Scope Z_scope.

Inductive IResult (O : Type) := Done (rest : list Z) (output : O) | Error | Failure.
Arguments Done {O} _ _.
Arguments Error {O}.
Arguments Failure {O}.

Definition Parser (O : Type) := list Z → IResult O.

(** Rust's [?] on a result. *)
Notation "'let!' i , x ':=' e 'in' k" :=
  (match e with Done i x => k | Error => Error | Failure => Failure end)
  (at level 10, i name, x pattern, e at level 200, k at level 200) : sp00ky_scope.

Module Spec.
Definition tag (t : list Z) : Parser (list Z) :=
  λ i, match strip_bytes t i with Some r => Done r t | None => Error end.

(** The text as it is written, whatever its case. *)
Definition tag_no_case (t : list Z) : Parser (list Z) :=
  λ i, if bool_decide (map lower_byte (take (length t) i) = map lower_byte t)
       then Done (drop (length t) i) (take (length t) i) else Error.

Fixpoint span_char (p : Z → bool) (fuel : nat) (i : list Z) : nat :=
  match fuel with
  | O => O
  | S fuel =>
      match next_char i with
      | Some (c, n) => if p c then n + span_char p fuel (drop n i) else O
      | None => O
      end
  end%nat.

Definition take_while (p : Z → bool) : Parser (list Z) :=
  λ i, let n := span_char p (length i) i in Done (drop n i) (take n i).

(** One character at least: the ones on ASCII go by bytes. *)
Fixpoint span (p : Z → bool) (i : list Z) : list Z * list Z :=
  match i with
  | b :: r => if p b then (b :: (span p r).1, (span p r).2) else ([], i)
  | [] => ([], [])
  end.
Definition span1 (p : Z → bool) : Parser (list Z) :=
  λ i, match span p i with ([], _) => Error | (t, r) => Done r t end.

Definition is_not (c : Z) : Parser (list Z) := span1 (λ b, negb (b =? c)).
Definition alpha1 : Parser (list Z) := span1 is_alpha.
Definition digit1 : Parser (list Z) := span1 is_digit.

Definition is_multispace (b : Z) : bool := (b =? 32) || (b =? 9) || (b =? 13) || (b =? 10).
Definition multispace0 : Parser (list Z) :=
  λ i, Done (span is_multispace i).2 (span is_multispace i).1.

Definition char (c : Z) : Parser Z :=
  λ i, match i with b :: r => if b =? c then Done r c else Error | [] => Error end.

Fixpoint alt {A} (ps : list (Parser A)) : Parser A :=
  λ i, match ps with
       | [] => Error
       | p :: ps => match p i with Error => alt ps i | r => r end
       end.

Definition opt {A} (p : Parser A) : Parser (option A) :=
  λ i, match p i with Done r a => Done r (Some a) | Error => Done i None | Failure => Failure end.

Definition map_res {A B} (p : Parser A) (f : A → option B) : Parser B :=
  λ i, match p i with
       | Done r a => match f a with Some b => Done r b | None => Error end
       | Error => Error
       | Failure => Failure
       end.
Definition map {A B} (p : Parser A) (f : A → B) : Parser B := map_res p (λ a, Some (f a)).
Definition value {A B} (b : B) (p : Parser A) : Parser B := map p (λ _, b).

Definition cut {A} (p : Parser A) : Parser A := λ i, match p i with Error => Failure | r => r end.

Definition recognize {A} (p : Parser A) : Parser (list Z) :=
  λ i, match p i with
       | Done r _ => Done r (take (length i - length r) i)
       | Error => Error
       | Failure => Failure
       end.

Definition pair {A B} (p : Parser A) (q : Parser B) : Parser (A * B) :=
  λ i, match p i with
       | Done r a => match q r with Done r b => Done r (a, b) | Error => Error | Failure => Failure end
       | Error => Error
       | Failure => Failure
       end.
Definition preceded {A B} (p : Parser A) (q : Parser B) : Parser B := map (pair p q) snd.
Definition delimited {A B C} (p : Parser A) (q : Parser B) (s : Parser C) : Parser B :=
  map (pair p (pair q s)) (λ r, r.2.1).
Definition tuple3 {A B C} (p : Parser A) (q : Parser B) (s : Parser C) : Parser (A * B * C) :=
  map (pair p (pair q s)) (λ r, (r.1, r.2.1, r.2.2)).

(** The items after the first: a separator that consumes nothing is an error,
    one that no item follows is given back. *)
Fixpoint more {A B} (sep : Parser A) (p : Parser B) (fuel : nat) (i : list Z) : IResult (list B) :=
  match fuel with
  | O => Done i []
  | S fuel =>
      match sep i with
      | Error => Done i []
      | Failure => Failure
      | Done r _ =>
          if (length r =? length i)%nat then Error
          else match p r with
          | Error => Done i []
          | Failure => Failure
          | Done r b =>
              match more sep p fuel r with
              | Done r bs => Done r (b :: bs)
              | Error => Error
              | Failure => Failure
              end
          end
      end
  end.
Definition separated_list1 {A B} (sep : Parser A) (p : Parser B) : Parser (list B) :=
  λ i, match p i with
       | Done r b =>
           match more sep p (S (length r)) r with
           | Done r bs => Done r (b :: bs)
           | Error => Error
           | Failure => Failure
           end
       | Error => Error
       | Failure => Failure
       end.
End Spec.

Module Nom.
(** What is left of a parser's input is the end of it. *)
Definition leaves_suffix {A} (p : Parser A) : Prop := ∀ i r a, p i = Done r a → r `suffix_of` i.

Class Ops := {
  tag : list Z → Parser (list Z);
  tag_no_case : list Z → Parser (list Z);
  take_while : (Z → bool) → Parser (list Z);
  is_not : Z → Parser (list Z);
  alpha1 : Parser (list Z);
  digit1 : Parser (list Z);
  multispace0 : Parser (list Z);
  char : Z → Parser Z;
  alt : ∀ {A}, list (Parser A) → Parser A;
  opt : ∀ {A}, Parser A → Parser (option A);
  map_res : ∀ {A B}, Parser A → (A → option B) → Parser B;
  map : ∀ {A B}, Parser A → (A → B) → Parser B;
  value : ∀ {A B}, B → Parser A → Parser B;
  cut : ∀ {A}, Parser A → Parser A;
  recognize : ∀ {A}, Parser A → Parser (list Z);
  pair : ∀ {A B}, Parser A → Parser B → Parser (A * B);
  preceded : ∀ {A B}, Parser A → Parser B → Parser B;
  delimited : ∀ {A B C}, Parser A → Parser B → Parser C → Parser B;
  tuple3 : ∀ {A B C}, Parser A → Parser B → Parser C → Parser (A * B * C);
  separated_list1 : ∀ {A B}, Parser A → Parser B → Parser (list B);
}.

(** The letters whose case is ignored have no other case outside ASCII: any
    letter but K. *)
Definition plain_letters (t : list Z) : Prop := Forall (λ b, 0 <= b < 128 ∧ lower_byte b ≠ 107) t.

Class Laws `{Ops} : Prop := {
  tag_law t i : tag t i = Spec.tag t i;
  tag_no_case_law t i : plain_letters t → tag_no_case t i = Spec.tag_no_case t i;
  take_while_law p i : take_while p i = Spec.take_while p i;
  is_not_law c i : is_not c i = Spec.is_not c i;
  alpha1_law i : alpha1 i = Spec.alpha1 i;
  digit1_law i : digit1 i = Spec.digit1 i;
  multispace0_law i : multispace0 i = Spec.multispace0 i;
  char_law c i : char c i = Spec.char c i;
  alt_law {A} (ps : list (Parser A)) i : alt ps i = Spec.alt ps i;
  opt_law {A} (p : Parser A) i : opt p i = Spec.opt p i;
  map_res_law {A B} (p : Parser A) (f : A → option B) i : map_res p f i = Spec.map_res p f i;
  map_law {A B} (p : Parser A) (f : A → B) i : map p f i = Spec.map p f i;
  value_law {A B} (b : B) (p : Parser A) i : value b p i = Spec.value b p i;
  cut_law {A} (p : Parser A) i : cut p i = Spec.cut p i;
  recognize_law {A} (p : Parser A) i : leaves_suffix p → recognize p i = Spec.recognize p i;
  pair_law {A B} (p : Parser A) (q : Parser B) i : pair p q i = Spec.pair p q i;
  preceded_law {A B} (p : Parser A) (q : Parser B) i : preceded p q i = Spec.preceded p q i;
  delimited_law {A B C} (p : Parser A) (q : Parser B) (s : Parser C) i : delimited p q s i = Spec.delimited p q s i;
  tuple3_law {A B C} (p : Parser A) (q : Parser B) (s : Parser C) i : tuple3 p q s i = Spec.tuple3 p q s i;
  separated_list1_law {A B} (sep : Parser A) (p : Parser B) i :
    leaves_suffix sep → leaves_suffix p → separated_list1 sep p i = Spec.separated_list1 sep p i;
}.

End Nom.

#[export] Instance spec_ops : Nom.Ops := {|
  Nom.tag := Spec.tag; Nom.tag_no_case := Spec.tag_no_case; Nom.take_while := Spec.take_while; Nom.is_not := Spec.is_not;
  Nom.alpha1 := Spec.alpha1; Nom.digit1 := Spec.digit1; Nom.multispace0 := Spec.multispace0; Nom.char := Spec.char;
  Nom.alt := @Spec.alt; Nom.opt := @Spec.opt; Nom.map_res := @Spec.map_res; Nom.map := @Spec.map; Nom.value := @Spec.value;
  Nom.cut := @Spec.cut; Nom.recognize := @Spec.recognize; Nom.pair := @Spec.pair; Nom.preceded := @Spec.preceded;
  Nom.delimited := @Spec.delimited; Nom.tuple3 := @Spec.tuple3; Nom.separated_list1 := @Spec.separated_list1;
|}.

#[export] Instance spec_laws : Nom.Laws.
Proof. by split. Qed.
