(* ===== verification/Convert.v ===== *)
(** * From SurrealQL to plans

    Models [packages/ssp/src/converter.rs]: the parser of the queries clients
    register and of the rules of tables, and the lowering of record links and
    of [IN (SELECT ...)] to joins. The JSON it builds is the tree of its tags:
    [Cond] for what becomes a predicate, with the two markers that do not,
    [JPlan] for plans; [read_plan] is what serde reads it as. *)

From S2P Require Import Prelude Platform Value Combinators Plan.
Local Open Scope Z_scope.

Abbreviation LinkMap := (gmap string (gmap string string)).

(** ** The JSON the converter builds *)

Inductive CmpType := TEq | TNeq | TGt | TGte | TLt | TLte.

Inductive Cond :=
  | CmpField (type : CmpType) (field : string) (value : Value)
  | CmpPrefix (field prefix : string)
  | CmpParam (type : CmpType) (param : string) (value : Value)
  | JoinCandidate (left right : string)
  | InSubquery (left proj table : string) (where_ : option Cond)
  | CAnd (predicates : list Cond)
  | COr (predicates : list Cond).

Record ParentKey := MkKey { pk_child_field : string; pk_parent_field : string }.

Inductive JPlan :=
  | JScan (table : string)
  | JFilter (predicate : Cond) (input : JPlan)
  | JJoin (left right : JPlan) (left_field right_field : string)
  | JSemiJoin (left right : JPlan) (left_field right_field : string)
  | JUnion (left right : JPlan)
  | JDistinct (input : JPlan)
  | JProject (projections : list JProj) (input : JPlan)
  | JLimit (limit start : Z) (order_by : option (list (string * string))) (input : JPlan)
with JProj :=
  | JAll
  | JField (name : string)
  | JSubquery (alias : string) (plan : JPlan) (parent_key : option ParentKey).

(** *** What it is read as *)

Definition field_predicate (t : CmpType) (field : string) (value : Value) : Predicate :=
  match t with
  | TEq => PEq (Path_new field) value
  | TNeq => PNeq (Path_new field) value
  | TGt => PGt (Path_new field) value
  | TGte => PGte (Path_new field) value
  | TLt => PLt (Path_new field) value
  | TLte => PLte (Path_new field) value
  end.
Definition param_predicate (t : CmpType) (param : string) (value : Value) : Predicate :=
  match t with
  | TEq => PParamEq param value
  | TNeq => PParamNeq param value
  | TGt => PParamGt param value
  | TGte => PParamGte param value
  | TLt => PParamLt param value
  | TLte => PParamLte param value
  end.

(** The markers are no variants of [Predicate]. *)
Fixpoint read_predicate (c : Cond) : option Predicate :=
  let all := fix all (l : list Cond) : option (list Predicate) :=
    match l with
    | [] => Some []
    | c :: l => let? p := read_predicate c in let? ps := all l in Some (p :: ps)
    end in
  match c with
  | CmpField t field value => Some (field_predicate t field value)
  | CmpPrefix field pre => Some (PPrefix (Path_new field) pre)
  | CmpParam t param value => Some (param_predicate t param value)
  | JoinCandidate _ _ | InSubquery _ _ _ _ => None
  | CAnd l => let? ps := all l in Some (PAnd ps)
  | COr l => let? ps := all l in Some (POr ps)
  end.

Definition read_key (k : ParentKey) : SubqueryParentKey := MkParentKey (pk_child_field k) (pk_parent_field k).
Definition read_order (o : string * string) : OrderSpec := MkOrderSpec (Path_new o.1) o.2.
Definition read_on (left_field right_field : string) : JoinCondition :=
  MkJoinCondition (Path_new left_field) (Path_new right_field).

Fixpoint read_plan (p : JPlan) : option OperatorPlan :=
  match p with
  | JScan table => Some (OpScan table)
  | JFilter c input => let? i := read_plan input in let? p := read_predicate c in Some (OpFilter i p)
  | JJoin l r lf rf => let? l := read_plan l in let? r := read_plan r in Some (OpJoin l r (read_on lf rf))
  | JSemiJoin l r lf rf => let? l := read_plan l in let? r := read_plan r in Some (OpSemiJoin l r (read_on lf rf))
  | JUnion l r => let? l := read_plan l in let? r := read_plan r in Some (OpUnion l r)
  | JDistinct input => let? i := read_plan input in Some (OpDistinct i)
  | JProject projs input =>
      let? i := read_plan input in
      let? ps := (fix all (l : list JProj) : option (list Projection) :=
        match l with
        | [] => Some []
        | proj :: l =>
            let? q := match proj with
              | JAll => Some PAll
              | JField name => Some (PField (Path_new name) None)
              | JSubquery alias plan key => let? q := read_plan plan in Some (PSubquery alias q (read_key <$> key))
              end in
            let? qs := all l in Some (q :: qs)
        end) projs in
      Some (OpProject i ps)
  | JLimit limit start order_by input =>
      let? i := read_plan input in Some (OpLimit i limit start (map read_order <$> order_by))
  end.

(** ** Parsing *)

Definition kw (s : string) : list Z := bytes_of s.

Inductive ParsedValue := VJson (v : Value) | VIdentifier (s : string) | VPrefix (s : string).

(** [op.eq_ignore_ascii_case]. *)
Definition same_word (op : list Z) (w : string) : bool := bool_decide (map upper_byte op = kw w).

(** [op.to_uppercase()] matched against the operators. *)
Definition cmp_type (op : list Z) : option CmpType :=
  if same_word op "=" then Some TEq
  else if same_word op "!=" then Some TNeq
  else if same_word op ">" then Some TGt
  else if same_word op ">=" then Some TGte
  else if same_word op "<" then Some TLt
  else if same_word op "<=" then Some TLte
  else None.

Definition is_in_word (op : list Z) : bool := same_word op "INSIDE" || same_word op "IN".

Section parsers.
Context `{UnicodeTables} `{Nom.Ops}.

Definition ws {O} (inner : Parser O) : Parser O := Nom.delimited Nom.multispace0 inner Nom.multispace0.

(** [_], [:] and [.]. *)
Definition identifier_char (c : Z) : bool := is_alphanumeric c || (c =? 95) || (c =? 58) || (c =? 46).

Definition parse_identifier : Parser string :=
  Nom.map (Nom.recognize (Nom.pair (Nom.alt [Nom.alpha1; Nom.tag (kw "_")]) (Nom.take_while identifier_char))) string_of_bytes.

(** *** Values *)

Definition parse_content (delimiter : Z) : Parser (list Z) :=
  Nom.delimited (Nom.char delimiter) (Nom.is_not delimiter) (Nom.char delimiter).

Definition parse_string_literal : Parser ParsedValue :=
  Nom.map (Nom.alt [parse_content 39; parse_content 34]) (λ s,
    if ends_with 42 s then VPrefix (string_of_bytes (trim_end_matches 42 s))
    else VJson (VString (string_of_bytes s))).

Definition param_json (s : string) : Value := VObject [("$param", VString s)].

Definition parse_value_entry : Parser ParsedValue :=
  Nom.alt [parse_string_literal;
       Nom.map (Nom.preceded (Nom.char 36) parse_identifier) (λ s, VJson (param_json s));
       Nom.value (VJson (VBool true)) (Nom.tag_no_case (kw "true"));
       Nom.value (VJson (VBool false)) (Nom.tag_no_case (kw "false"));
       Nom.map_res Nom.digit1 (λ s, let? n := parse_digits two63 s in Some (VJson (VNumber (PosInt n))));
       Nom.map parse_identifier VIdentifier].

(** *** Conditions *)

Definition parse_cmp_op : Parser (list Z) :=
  Nom.alt [Nom.tag (kw ">="); Nom.tag (kw "<="); Nom.tag (kw "!="); Nom.tag (kw "="); Nom.tag (kw ">"); Nom.tag (kw "<");
       Nom.tag_no_case (kw "CONTAINS"); Nom.tag_no_case (kw "INSIDE")].

Definition parse_param_cmp_op : Parser (list Z) :=
  Nom.alt [Nom.tag (kw ">="); Nom.tag (kw "<="); Nom.tag (kw "!="); Nom.tag (kw "="); Nom.tag (kw ">"); Nom.tag (kw "<");
       Nom.tag_no_case (kw "INSIDE"); Nom.tag_no_case (kw "IN")].

Definition json_items (items : list ParsedValue) : option (list Value) :=
  mapM (λ item, match item with VJson v => Some v | _ => None end) items.

Definition parse_string_array : Parser (list Value) := λ input,
  let! input, _ := ws (Nom.char 91) input in
  let! input, items := Nom.separated_list1 (ws (Nom.char 44)) (ws parse_string_literal) input in
  let! input, _ := ws (Nom.char 93) input in
  match json_items items with Some values => Done input values | None => Error end.

Definition parse_leaf_param_lhs : Parser Cond := λ input,
  let! input, _ := ws (Nom.char 36) input in
  let! input, param := parse_identifier input in
  let! input, op := ws parse_param_cmp_op input in
  if is_in_word op then
    let! input, values := ws parse_string_array input in
    Done input (match map (CmpParam TEq param) values with
                | [p] => p
                | predicates => COr predicates
                end)
  else
    let! input, value := ws parse_value_entry input in
    match cmp_type op, value with
    | Some t, VJson v => Done input (CmpParam t param v)
    | _, _ => Error
    end.

Definition parse_leaf_field_lhs : Parser Cond := λ input,
  let! input, (field, op, value) := Nom.tuple3 (ws parse_identifier) (ws parse_cmp_op) (ws parse_value_entry) input in
  Done input (match value with
    | VJson v => CmpField (default TEq (cmp_type op)) field v
    | VPrefix v => CmpPrefix field v
    | VIdentifier right_field => JoinCandidate field right_field
    end).

Definition parse_leaf_predicate : Parser Cond := Nom.alt [parse_leaf_param_lhs; parse_leaf_field_lhs].

(** What follows needs conditions inside conditions: the parser of those is
    an argument. *)
Definition parse_in_subquery_leaf (parse_where_logic : Parser Cond) : Parser Cond := λ input,
  let! input, path := ws parse_identifier input in
  let! input, _ := ws (Nom.alt [Nom.tag_no_case (kw "INSIDE"); Nom.tag_no_case (kw "IN")]) input in
  let! input, _ := ws (Nom.char 40) input in
  let! input, _ := ws (Nom.tag_no_case (kw "SELECT")) input in
  let! input, _ := ws (Nom.tag_no_case (kw "VALUE")) input in
  let! input, proj := ws parse_identifier input in
  let! input, _ := ws (Nom.tag_no_case (kw "FROM")) input in
  let! input, table := ws parse_identifier input in
  let! input, where_logic := Nom.opt (ws parse_where_logic) input in
  let! input, _ := ws (Nom.char 41) input in
  Done input (InSubquery path proj table where_logic).

Definition where_logic (parse_or_expression : Parser Cond) : Parser Cond :=
  Nom.preceded (Nom.tag_no_case (kw "WHERE")) (Nom.cut parse_or_expression).

Definition parse_term (parse_or_expression : Parser Cond) : Parser Cond :=
  Nom.alt [parse_in_subquery_leaf (where_logic parse_or_expression);
       Nom.delimited (ws (Nom.char 40)) parse_or_expression (ws (Nom.char 41));
       parse_leaf_predicate].

Definition parse_and_expression (parse_or_expression : Parser Cond) : Parser Cond := λ input,
  let! input, terms := Nom.separated_list1 (ws (Nom.tag_no_case (kw "AND"))) (parse_term parse_or_expression) input in
  Done input (match terms with [t] => t | _ => CAnd terms end).

(** A nested condition is shorter by its bracket: a byte of fuel each. *)
Fixpoint parse_or_fuel (fuel : nat) : Parser Cond := λ input,
  match fuel with
  | O => Error
  | S fuel =>
      let! input, terms :=
        Nom.separated_list1 (ws (Nom.tag_no_case (kw "OR"))) (parse_and_expression (parse_or_fuel fuel)) input in
      Done input (match terms with [t] => t | _ => COr terms end)
  end.
Definition parse_or_expression : Parser Cond := λ input, parse_or_fuel (S (length input)) input.

Definition parse_where_logic : Parser Cond := where_logic parse_or_expression.

(** *** Clauses *)

Definition parse_usize : Parser Z := Nom.map_res Nom.digit1 (parse_digits two64).

Definition parse_limit_clause : Parser Z := Nom.preceded (Nom.tag_no_case (kw "LIMIT")) (ws parse_usize).
Definition parse_start_clause : Parser Z := Nom.preceded (Nom.tag_no_case (kw "START")) (ws parse_usize).

Definition single_order : Parser (string * string) :=
  Nom.map (Nom.pair (ws parse_identifier) (Nom.opt (ws (Nom.alt [Nom.tag_no_case (kw "ASC"); Nom.tag_no_case (kw "DESC")]))))
    (λ r, (r.1, string_of_bytes (map upper_byte (default (kw "ASC") r.2)))).
Definition parse_order_clause : Parser (list (string * string)) :=
  Nom.preceded (Nom.tag_no_case (kw "ORDER BY")) (Nom.separated_list1 (ws (Nom.char 44)) single_order).

(** *** The correlation of a subquery with its parent *)

Fixpoint extract_parent_key_from_predicate (predicate : Cond) : option ParentKey :=
  let first := fix first (l : list Cond) : option ParentKey :=
    match l with
    | [] => None
    | p :: l => match extract_parent_key_from_predicate p with Some k => Some k | None => first l end
    end in
  match predicate with
  | CAnd preds | COr preds => first preds
  | CmpField _ child_field value =>
      let? param := Value.get value "$param" ≫= Value.as_str in
      let? parent_field := strip_prefix "parent." param in
      Some (MkKey child_field parent_field)
  | _ => None
  end.

Fixpoint extract_parent_key (plan : JPlan) : option ParentKey :=
  match plan with
  | JFilter predicate _ => extract_parent_key_from_predicate predicate
  | JLimit _ _ _ input | JProject _ input => extract_parent_key input
  | _ => None
  end.

(** *** Lowering of [IN (SELECT ...)] *)

Fixpoint where_contains_subquery (expr : Cond) : bool :=
  match expr with
  | InSubquery _ _ _ _ => true
  | CAnd l | COr l => existsb where_contains_subquery l
  | _ => false
  end.

Definition semijoin_for_subquery (base : JPlan) (left_ proj table : string) (where_ : option Cond) : JPlan :=
  let inner_scan := JScan table in
  let inner_scan := match where_ with Some w => JFilter w inner_scan | None => inner_scan end in
  match split_once dot proj with
  | Some (link, field) => JSemiJoin base (JSemiJoin (JScan link) inner_scan "id" link) left_ field
  | None => JSemiJoin base inner_scan left_ proj
  end.

(** One conjunct stands for itself. *)
Definition conjunction (preds : list Cond) : Cond := match preds with [p] => p | _ => CAnd preds end.
Definition filtered (preds : list Cond) (base : JPlan) : JPlan :=
  match preds with [] => base | _ => JFilter (conjunction preds) base end.

Definition union_all (scan : JPlan) (plans : list JPlan) : JPlan :=
  match plans with first :: plans => JDistinct (foldl JUnion first plans) | [] => JDistinct scan end.

Fixpoint lower_where_to_plan (scan : JPlan) (expr : Cond) : JPlan :=
  match expr with
  | COr branches => union_all scan (map (lower_where_to_plan scan) branches)
  | CAnd list =>
      foldl (λ base sub,
        if where_contains_subquery sub then
          match sub with
          | InSubquery left_ proj table where_ => semijoin_for_subquery base left_ proj table where_
          | _ => lower_where_to_plan base sub
          end
        else base)
        (filtered (List.filter (λ p, negb (where_contains_subquery p)) list) scan) list
  | InSubquery left_ proj table where_ => semijoin_for_subquery scan left_ proj table where_
  | _ => JFilter expr scan
  end.

(** *** Joins between fields *)

Definition is_join (p : Cond) : bool := match p with JoinCandidate _ _ => true | _ => false end.

Definition apply_join (current_op : JPlan) (join_pred : Cond) : JPlan :=
  match join_pred with
  | JoinCandidate left_field right_full =>
      let '(r_table, r_col) := match split dot right_full with
        | r_table :: r_col :: _ => (r_table, r_col)
        | _ => (right_full, "id"%string)
        end in
      JJoin current_op (JScan r_table) left_field r_col
  | _ => current_op
  end.

Definition wrap_conditions (input_op : JPlan) (predicate : Cond) : JPlan :=
  let list := match predicate with CAnd list => list | p => [p] end in
  let joins := List.filter is_join list in
  let filters := List.filter (λ p, negb (is_join p)) list in
  filtered filters (foldl apply_join input_op joins).

(** *** Queries *)

Definition parse_index : Parser Z := Nom.delimited (Nom.char 91) parse_usize (Nom.char 93).

Definition parse_subquery_projection (parse_full_query : Parser JPlan) : Parser JProj := λ input,
  let! input, sub_plan := Nom.delimited (ws (Nom.char 40)) parse_full_query (ws (Nom.char 41)) input in
  let! input, _ := Nom.opt (ws parse_index) input in
  let! input, _ := ws (Nom.tag_no_case (kw "AS")) input in
  let! input, alias := ws parse_identifier input in
  Done input (JSubquery alias sub_plan (extract_parent_key sub_plan)).

Definition parse_field_projection : Parser JProj :=
  Nom.alt [Nom.map (Nom.tag (kw "*")) (λ _, JAll); Nom.map parse_identifier JField].

Definition parse_projection_item (parse_full_query : Parser JPlan) : Parser JProj :=
  Nom.alt [parse_subquery_projection parse_full_query; parse_field_projection].

Definition is_all (p : JProj) : bool := match p with JAll => true | _ => false end.

(** The plan of the parts of a query. *)
Definition query_tree (fields : list JProj) (table : string) (where_logic : option Cond)
    (order_by : option (list (string * string))) (limit start : option Z) : JPlan :=
  let current_op := JScan table in
  let current_op := match where_logic with
    | Some logic =>
        if where_contains_subquery logic then lower_where_to_plan current_op logic
        else wrap_conditions current_op logic
    | None => current_op
    end in
  let needs_projection := (1 <? zlength fields) || negb (from_option is_all false (head fields)) in
  let current_op := if needs_projection then JProject fields current_op else current_op in
  match limit with
  | Some l => JLimit l (default 0 start) order_by current_op
  | None => current_op
  end.

(** A nested query is shorter by its bracket: a byte of fuel each. *)
Fixpoint parse_query_fuel (fuel : nat) : Parser JPlan := λ input,
  match fuel with
  | O => Error
  | S fuel =>
      let! input, _ := ws (Nom.tag_no_case (kw "SELECT")) input in
      let! input, fields :=
        Nom.separated_list1 (ws (Nom.char 44)) (parse_projection_item (parse_query_fuel fuel)) input in
      let! input, _ := ws (Nom.tag_no_case (kw "FROM")) input in
      let! input, table := ws parse_identifier input in
      let! input, where_logic := Nom.opt (ws parse_where_logic) input in
      let! input, order_by := Nom.opt (ws parse_order_clause) input in
      let! input, limit := Nom.opt (ws parse_limit_clause) input in
      let! input, start := Nom.opt (ws parse_start_clause) input in
      Done input (query_tree fields table where_logic order_by limit start)
  end.
Definition parse_full_query : Parser JPlan := λ input, parse_query_fuel (S (length input)) input.
End parsers.

(** ** Record links *)

Section links.
Context (links : LinkMap).

Definition link_target (table link : string) : option string := let? m := links !! table in m !! link.

Definition is_link_leaf (leaf : Cond) (table : string) : bool :=
  match leaf with
  | CmpField TEq field _ =>
      match split dot field with
      | link :: rest :: segs =>
          bool_decide (is_Some (link_target table link)) &&
          negb (bool_decide (segs = []) && String.eqb rest "id")
      | _ => false
      end
  | _ => false
  end.

(** [link.rest = v] becomes [link IN (SELECT VALUE id FROM target WHERE rest = v)]. *)
Definition link_leaf_to_marker (leaf : Cond) (table : string) : Cond :=
  match leaf with
  | CmpField _ field value =>
      let '(link, rest) := default (field, "id"%string) (split_once dot field) in
      InSubquery link "id" (default ""%string (link_target table link)) (Some (CmpField TEq rest value))
  | _ => leaf
  end.

Definition is_subquery_marker (leaf : Cond) : bool := match leaf with InSubquery _ _ _ _ => true | _ => false end.
Definition is_marker_leaf (leaf : Cond) (table : string) : bool := is_subquery_marker leaf || is_link_leaf leaf table.
Definition to_marker (leaf : Cond) (table : string) : Cond :=
  if is_subquery_marker leaf then leaf else link_leaf_to_marker leaf table.

Fixpoint contains_marker (expr : Cond) (table : string) : bool :=
  is_marker_leaf expr table ||
  match expr with
  | CAnd l | COr l => existsb (λ p, contains_marker p table) l
  | _ => false
  end.

Fixpoint predicate_contains_link_leaf (expr : Cond) (table : string) : bool :=
  match expr with
  | CAnd l | COr l => existsb (λ p, predicate_contains_link_leaf p table) l
  | _ => is_link_leaf expr table
  end.

Definition semijoin_for_marker (base : JPlan) (marker : Cond) : JPlan :=
  match marker with
  | InSubquery left_ proj table where_ => semijoin_for_subquery base left_ proj table where_
  | _ => base
  end.

Fixpoint lower_predicate_to_plan (scan : JPlan) (expr : Cond) (table : string) : JPlan :=
  match expr with
  | COr branches => union_all scan (map (λ b, lower_predicate_to_plan scan b table) branches)
  | CAnd list =>
      let base := filtered (List.filter (λ p, negb (contains_marker p table)) list) scan in
      let base := foldl (λ base p, if is_marker_leaf p table then semijoin_for_marker base (to_marker p table) else base)
        base list in
      foldl (λ base p,
        if contains_marker p table && negb (is_marker_leaf p table) then lower_predicate_to_plan base p table else base)
        base list
  | InSubquery left_ proj table where_ => semijoin_for_subquery scan left_ proj table where_
  | _ =>
      if is_link_leaf expr table then semijoin_for_marker scan (link_leaf_to_marker expr table)
      else JFilter expr scan
  end.

(** The table of a filter right above a scan. *)
Definition scanned_table (input : JPlan) : option string :=
  match input with JScan table => Some table | _ => None end.

(** A rewritten plan is rewritten again. *)
Fixpoint lower_link_traversals (fuel : nat) (plan : JPlan) : JPlan :=
  match fuel with
  | O => plan
  | S fuel =>
      let lower := lower_link_traversals fuel in
      if bool_decide (links = ∅) then plan
      else match plan with
      | JScan _ => plan
      | JFilter pred input =>
          let input := lower input in
          match scanned_table input with
          | Some table =>
              if predicate_contains_link_leaf pred table
              then lower (lower_predicate_to_plan input pred table)
              else JFilter pred input
          | None => JFilter pred input
          end
      | JJoin l r lf rf => JJoin (lower l) (lower r) lf rf
      | JSemiJoin l r lf rf => JSemiJoin (lower l) (lower r) lf rf
      | JUnion l r => JUnion (lower l) (lower r)
      | JDistinct input => JDistinct (lower input)
      | JProject projs input =>
          JProject (map (λ p, match p with JSubquery alias plan key => JSubquery alias (lower plan) key | p => p end) projs)
            (lower input)
      | JLimit l s o input => JLimit l s o (lower input)
      end
  end.
End links.

(** How often a plan is rewritten: a condition counts what its lowering can
    grow to, a path one more for each link it may hold. *)
Fixpoint cond_weight (c : Cond) : nat :=
  match c with
  | CmpField _ field _ => 4 * S (String.length field)
  | CAnd l | COr l => 2 + sum_list_with (λ c, 2 + cond_weight c) l
  | InSubquery _ _ _ where_ => 8 + from_option cond_weight 0 where_
  | _ => 1
  end%nat.

Fixpoint plan_depth (p : JPlan) : nat :=
  match p with
  | JScan _ => 1
  | JFilter c input => 1 + plan_depth input + cond_weight c
  | JJoin l r _ _ | JSemiJoin l r _ _ | JUnion l r => 1 + Nat.max (plan_depth l) (plan_depth r)
  | JDistinct input | JLimit _ _ _ input => 1 + plan_depth input
  | JProject projs input =>
      1 + Nat.max (plan_depth input)
        (max_list (map (λ p, match p with JSubquery _ plan _ => plan_depth plan | _ => 0 end) projs))
  end%nat.

(** ** The converter *)

Section convert.
Context `{UnicodeTables} `{Nom.Ops}.

Definition convert_surql_to_dbsp_with_links (sql : string) (links : LinkMap) : option JPlan :=
  let clean_sql := trim_end_matches 59 (bytes_of (trim sql)) in
  match parse_full_query clean_sql with
  | Done _ plan => Some (lower_link_traversals links (plan_depth plan) plan)
  | _ => None
  end.

Definition convert_surql_to_dbsp (sql : string) : option JPlan := convert_surql_to_dbsp_with_links sql ∅.

(** The plan, as its readers get it. *)
Definition converted (sql : string) (links : LinkMap) : option OperatorPlan :=
  convert_surql_to_dbsp_with_links sql links ≫= read_plan.
End convert.

(** ** Samples *)

Example convert_sample :
  converted "SELECT *, (SELECT * FROM user WHERE id=$parent.author LIMIT 1)[0] AS author FROM thread WHERE title = 'a*' ORDER BY created_at desc, id LIMIT 10 START 5;" ∅ =
    Some (OpLimit
      (OpProject (OpFilter (OpScan "thread") (PPrefix (Path_new "title") "a"))
        [PAll;
         PSubquery "author"
           (OpLimit (OpFilter (OpScan "user") (PEq (Path_new "id") (param_json "parent.author"))) 1 0 None)
           (Some (MkParentKey "id" "author"))])
      10 5 (Some [MkOrderSpec (Path_new "created_at") "DESC"; MkOrderSpec (Path_new "id") "ASC"])).
Proof. vm_compute. reflexivity. Qed.
