(* ===== verification/ConvertLaws.v ===== *)
(** * The converter's parser

    What a parser leaves is the end of its input, a bracket makes the rest
    shorter; so the fuel of the two recursive parsers is enough. And whatever
    combinators obey the laws, the parser is the one over their documented
    behaviour. The rewriting of record links ends too. *)

From S2P Require Import Prelude Platform Value Plan Combinators Convert.
From Stdlib Require Import FunctionalExtensionality.
Local Open Scope Z_scope.

(** ** What is left *)

Lemma done_inj {A} (r r' : list Z) (a a' : A) : Done r a = Done r' a' → r = r' ∧ a = a'.
Proof. by intros [=]. Qed.

(** Destructs what a [let!] ran. *)
Ltac step_parser H :=
  match type of H with
  | match ?e with Done _ _ => _ | Error => _ | Failure => _ end = Done _ _ =>
      let E := fresh "E" in destruct e eqn:E; [|discriminate H|discriminate H]
  end.

Section suffix.
Import Nom.

Lemma strip_bytes_suffix t i r : strip_bytes t i = Some r → i = t ++ r.
Proof.
  revert i. induction t as [|a t IH]; intros [|b i] H; cbn in H; try by simplify_eq.
  destruct (Z.eqb_spec a b) as [->|]; [|done]. cbn. f_equal. by apply IH.
Qed.

Lemma span_app p i : (Spec.span p i).1 ++ (Spec.span p i).2 = i.
Proof. induction i as [|b i IH]; cbn; [done|]. destruct (p b); cbn; [by rewrite IH|done]. Qed.

Lemma suffix_drop n (i : list Z) : drop n i `suffix_of` i.
Proof. exists (take n i). by rewrite take_drop. Qed.

Lemma tag_suffix t : leaves_suffix (Spec.tag t).
Proof.
  intros i r a. unfold Spec.tag. destruct (strip_bytes t i) eqn:E; intros [= <- <-].
  apply strip_bytes_suffix in E as ->. by exists t.
Qed.
Lemma tag_no_case_suffix t : leaves_suffix (Spec.tag_no_case t).
Proof. intros i r a. unfold Spec.tag_no_case. case_bool_decide; intros [= <- <-]. apply suffix_drop. Qed.
Lemma take_while_suffix p : leaves_suffix (Spec.take_while p).
Proof. intros i r a [= <- <-]. apply suffix_drop. Qed.
Lemma span1_suffix p : leaves_suffix (Spec.span1 p).
Proof.
  intros i r a. unfold Spec.span1. destruct (Spec.span p i) as [t s] eqn:E. intros H.
  exists t. assert (s = r) as <- by (by destruct t; simplify_eq). by rewrite <- (span_app p i), E.
Qed.
Lemma is_not_suffix c : leaves_suffix (Spec.is_not c).
Proof. apply span1_suffix. Qed.
Lemma alpha1_suffix : leaves_suffix Spec.alpha1.
Proof. apply span1_suffix. Qed.
Lemma digit1_suffix : leaves_suffix Spec.digit1.
Proof. apply span1_suffix. Qed.
Lemma multispace0_suffix : leaves_suffix Spec.multispace0.
Proof. intros i r a [= <- <-]. eexists. symmetry. apply span_app. Qed.
Lemma char_suffix c : leaves_suffix (Spec.char c).
Proof. intros [|b i] r a; cbn; [done|]. destruct (b =? c); intros [= <- <-]. by exists [b]. Qed.
Lemma alt_suffix {A} (ps : list (Parser A)) : Forall leaves_suffix ps → leaves_suffix (Spec.alt ps).
Proof.
  induction 1 as [|p ps Hp _ IH]; intros i r a; cbn; [done|].
  destruct (p i) eqn:E; [|apply IH|done]. intros [= <- <-]. by eapply Hp.
Qed.
Lemma opt_suffix {A} (p : Parser A) : leaves_suffix p → leaves_suffix (Spec.opt p).
Proof. intros Hp i r a. unfold Spec.opt. destruct (p i) eqn:E; intros [= <- <-]; [by eapply Hp|done]. Qed.
Lemma map_res_suffix {A B} (p : Parser A) (f : A → option B) : leaves_suffix p → leaves_suffix (Spec.map_res p f).
Proof.
  intros Hp i r a. unfold Spec.map_res. destruct (p i) eqn:E; [|done..].
  destruct (f output); intros [= <- <-]. by eapply Hp.
Qed.
Lemma map_suffix {A B} (p : Parser A) (f : A → B) : leaves_suffix p → leaves_suffix (Spec.map p f).
Proof. apply map_res_suffix. Qed.
Lemma value_suffix {A B} (b : B) (p : Parser A) : leaves_suffix p → leaves_suffix (Spec.value b p).
Proof. apply map_suffix. Qed.
Lemma cut_suffix {A} (p : Parser A) : leaves_suffix p → leaves_suffix (Spec.cut p).
Proof. intros Hp i r a. unfold Spec.cut. destruct (p i) eqn:E; intros [= <- <-]. by eapply Hp. Qed.
Lemma recognize_suffix {A} (p : Parser A) : leaves_suffix p → leaves_suffix (Spec.recognize p).
Proof. intros Hp i r a. unfold Spec.recognize. destruct (p i) eqn:E; intros [= <- <-]. by eapply Hp. Qed.
Lemma pair_suffix {A B} (p : Parser A) (q : Parser B) : leaves_suffix p → leaves_suffix q → leaves_suffix (Spec.pair p q).
Proof.
  intros Hp Hq i r a. unfold Spec.pair. destruct (p i) eqn:E; [|done..].
  destruct (q rest) eqn:E'; intros [= <- <-]. etrans; [by eapply Hq|by eapply Hp].
Qed.
Lemma preceded_suffix {A B} (p : Parser A) (q : Parser B) :
  leaves_suffix p → leaves_suffix q → leaves_suffix (Spec.preceded p q).
Proof. intros. by apply map_suffix, pair_suffix. Qed.
Lemma delimited_suffix {A B C} (p : Parser A) (q : Parser B) (s : Parser C) :
  leaves_suffix p → leaves_suffix q → leaves_suffix s → leaves_suffix (Spec.delimited p q s).
Proof. intros. by apply map_suffix, pair_suffix, pair_suffix. Qed.
Lemma tuple3_suffix {A B C} (p : Parser A) (q : Parser B) (s : Parser C) :
  leaves_suffix p → leaves_suffix q → leaves_suffix s → leaves_suffix (Spec.tuple3 p q s).
Proof. intros. by apply map_suffix, pair_suffix, pair_suffix. Qed.

Lemma more_suffix {A B} (sep : Parser A) (p : Parser B) fuel :
  leaves_suffix sep → leaves_suffix p → leaves_suffix (Spec.more sep p fuel).
Proof.
  intros Hs Hp. induction fuel as [|fuel IH]; intros i r l; cbn; [by intros [= <- <-]|].
  destruct (sep i) eqn:E; [|by intros [= <- <-]|done]. destruct (_ =? _)%nat; [done|].
  destruct (p rest) eqn:E'; [|by intros [= <- <-]|done].
  destruct (Spec.more sep p fuel rest0) eqn:E''; [|done..]. intros [= <- <-].
  etrans; [by eapply IH|]. etrans; [by eapply Hp|by eapply Hs].
Qed.
Lemma separated_list1_suffix {A B} (sep : Parser A) (p : Parser B) :
  leaves_suffix sep → leaves_suffix p → leaves_suffix (Spec.separated_list1 sep p).
Proof.
  intros Hs Hp i r l. unfold Spec.separated_list1. destruct (p i) eqn:E; [|done..].
  destruct (Spec.more _ _ _ _) eqn:E'; [|done..]. intros [= <- <-].
  etrans; [exact (more_suffix _ _ _ Hs Hp _ _ _ E')|by eapply Hp].
Qed.
End suffix.

Create HintDb suffix discriminated.
#[export] Hint Resolve tag_suffix tag_no_case_suffix take_while_suffix is_not_suffix alpha1_suffix digit1_suffix multispace0_suffix char_suffix
  alt_suffix opt_suffix map_res_suffix map_suffix value_suffix cut_suffix recognize_suffix pair_suffix
  preceded_suffix delimited_suffix tuple3_suffix separated_list1_suffix : suffix.
#[export] Hint Constructors Forall : suffix.

(** ** The parsers *)

(** The combinators of [spec_ops] by name. *)
Ltac by_name := cbv [Nom.tag Nom.tag_no_case Nom.take_while Nom.is_not Nom.alpha1 Nom.digit1 Nom.multispace0 Nom.char
  Nom.alt Nom.opt Nom.map_res Nom.map Nom.value Nom.cut Nom.recognize Nom.pair Nom.preceded Nom.delimited Nom.tuple3
  Nom.separated_list1 spec_ops].

Section parsers.
Context `{UnicodeTables}.
Import Nom.

Lemma ws_suffix {A} (p : Parser A) : leaves_suffix p → leaves_suffix (ws p).
Proof. intros. unfold ws. by_name. auto with suffix. Qed.
#[local] Hint Resolve ws_suffix : suffix.

Lemma parse_identifier_suffix : leaves_suffix parse_identifier.
Proof. unfold parse_identifier. by_name. auto 10 with suffix. Qed.
#[local] Hint Resolve parse_identifier_suffix : suffix.

Lemma parse_string_literal_suffix : leaves_suffix parse_string_literal.
Proof. unfold parse_string_literal, parse_content. by_name. auto 10 with suffix. Qed.
#[local] Hint Resolve parse_string_literal_suffix : suffix.

Lemma parse_value_entry_suffix : leaves_suffix parse_value_entry.
Proof. unfold parse_value_entry. by_name. auto 12 with suffix. Qed.
#[local] Hint Resolve parse_value_entry_suffix : suffix.

Lemma parse_cmp_op_suffix : leaves_suffix parse_cmp_op.
Proof. unfold parse_cmp_op. by_name. auto 12 with suffix. Qed.
Lemma parse_param_cmp_op_suffix : leaves_suffix parse_param_cmp_op.
Proof. unfold parse_param_cmp_op. by_name. auto 12 with suffix. Qed.
#[local] Hint Resolve parse_cmp_op_suffix parse_param_cmp_op_suffix : suffix.

Lemma bind_suffix {A B} (p : Parser A) (f : list Z → A → IResult B) :
  leaves_suffix p → (∀ a, leaves_suffix (λ i, f i a)) →
  leaves_suffix (λ i, let! i, a := p i in f i a).
Proof. intros Hp Hf i r b Hb. step_parser Hb. etrans; [by eapply Hf|by eapply Hp]. Qed.
Lemma done_suffix {A} (a : A) : leaves_suffix (λ i, Done i a).
Proof. by intros i r b [= <- <-]. Qed.
Lemma error_suffix {A} : leaves_suffix (λ _, @Error A).
Proof. done. Qed.
#[local] Hint Resolve done_suffix error_suffix : suffix.

(** One [let!] after the other. *)
Ltac binds := repeat (apply bind_suffix; [by_name; auto 12 with suffix|intros ?]).

Lemma parse_string_array_suffix : leaves_suffix parse_string_array.
Proof. unfold parse_string_array. binds. destruct (json_items _); auto with suffix. Qed.
#[local] Hint Resolve parse_string_array_suffix : suffix.

Lemma parse_leaf_param_lhs_suffix : leaves_suffix parse_leaf_param_lhs.
Proof.
  unfold parse_leaf_param_lhs. binds. destruct (is_in_word _); binds; [auto with suffix|].
  destruct (cmp_type _); [|auto with suffix]. case_match; auto with suffix.
Qed.
Lemma parse_leaf_field_lhs_suffix : leaves_suffix parse_leaf_field_lhs.
Proof. unfold parse_leaf_field_lhs. binds. destruct a as [[??]?]. auto with suffix. Qed.
#[local] Hint Resolve parse_leaf_param_lhs_suffix parse_leaf_field_lhs_suffix : suffix.
Lemma parse_leaf_predicate_suffix : leaves_suffix parse_leaf_predicate.
Proof. unfold parse_leaf_predicate. by_name. auto with suffix. Qed.
#[local] Hint Resolve parse_leaf_predicate_suffix : suffix.

Section conditions.
Context (parse_or : Parser Cond) (parse_or_suffix : leaves_suffix parse_or).
#[local] Hint Resolve parse_or_suffix : suffix.

Lemma where_logic_suffix : leaves_suffix (where_logic parse_or).
Proof. unfold where_logic. by_name. auto with suffix. Qed.
#[local] Hint Resolve where_logic_suffix : suffix.
Lemma parse_in_subquery_leaf_suffix : leaves_suffix (parse_in_subquery_leaf (where_logic parse_or)).
Proof. unfold parse_in_subquery_leaf. binds. auto with suffix. Qed.
#[local] Hint Resolve parse_in_subquery_leaf_suffix : suffix.
Lemma parse_term_suffix : leaves_suffix (parse_term parse_or).
Proof. unfold parse_term. by_name. auto 10 with suffix. Qed.
#[local] Hint Resolve parse_term_suffix : suffix.
Lemma parse_and_expression_suffix : leaves_suffix (parse_and_expression parse_or).
Proof. unfold parse_and_expression. binds. auto with suffix. Qed.
End conditions.
#[local] Hint Resolve where_logic_suffix parse_and_expression_suffix : suffix.

Lemma parse_or_fuel_suffix fuel : leaves_suffix (parse_or_fuel fuel).
Proof. induction fuel as [|fuel IH]; cbn [parse_or_fuel]; [done|]. binds. auto with suffix. Qed.
#[local] Hint Resolve parse_or_fuel_suffix : suffix.
Lemma parse_or_expression_suffix : leaves_suffix parse_or_expression.
Proof. intros i r c H'. by eapply parse_or_fuel_suffix. Qed.
#[local] Hint Resolve parse_or_expression_suffix : suffix.
Lemma parse_where_logic_suffix : leaves_suffix parse_where_logic.
Proof. unfold parse_where_logic. auto with suffix. Qed.
#[local] Hint Resolve parse_where_logic_suffix : suffix.

Lemma parse_usize_suffix : leaves_suffix parse_usize.
Proof. unfold parse_usize. by_name. auto with suffix. Qed.
#[local] Hint Resolve parse_usize_suffix : suffix.
Lemma parse_limit_clause_suffix : leaves_suffix parse_limit_clause.
Proof. unfold parse_limit_clause. by_name. auto 10 with suffix. Qed.
Lemma parse_start_clause_suffix : leaves_suffix parse_start_clause.
Proof. unfold parse_start_clause. by_name. auto 10 with suffix. Qed.
Lemma single_order_suffix : leaves_suffix single_order.
Proof. unfold single_order. by_name. auto 10 with suffix. Qed.
#[local] Hint Resolve parse_limit_clause_suffix parse_start_clause_suffix single_order_suffix : suffix.
Lemma parse_order_clause_suffix : leaves_suffix parse_order_clause.
Proof. unfold parse_order_clause. by_name. auto 10 with suffix. Qed.
#[local] Hint Resolve parse_order_clause_suffix : suffix.

Lemma parse_index_suffix : leaves_suffix parse_index.
Proof. unfold parse_index. by_name. auto 10 with suffix. Qed.
#[local] Hint Resolve parse_index_suffix : suffix.
Lemma parse_field_projection_suffix : leaves_suffix parse_field_projection.
Proof. unfold parse_field_projection. by_name. auto 10 with suffix. Qed.
#[local] Hint Resolve parse_field_projection_suffix : suffix.
Lemma parse_subquery_projection_suffix (p : Parser JPlan) : leaves_suffix p → leaves_suffix (parse_subquery_projection p).
Proof. intros Hp. unfold parse_subquery_projection. binds. auto with suffix. Qed.
#[local] Hint Resolve parse_subquery_projection_suffix : suffix.
Lemma parse_projection_item_suffix (p : Parser JPlan) : leaves_suffix p → leaves_suffix (parse_projection_item p).
Proof. intros Hp. unfold parse_projection_item. by_name. auto 10 with suffix. Qed.
#[local] Hint Resolve parse_projection_item_suffix : suffix.
Lemma parse_query_fuel_suffix fuel : leaves_suffix (parse_query_fuel fuel).
Proof. induction fuel as [|fuel IH]; cbn [parse_query_fuel]; [done|]. binds. auto with suffix. Qed.

(** ** Fuel *)

(** Two parsers that agree on the inputs shorter than [n]. *)
Definition agree {A} (n : nat) (p q : Parser A) : Prop := ∀ i, (length i < n)%nat → p i = q i.

Lemma suffix_shorter {A} (p : Parser A) i r a : leaves_suffix p → p i = Done r a → (length r ≤ length i)%nat.
Proof. intros Hp Hi. by eapply suffix_length, Hp. Qed.

Lemma agree_le {A} n m (p q : Parser A) : (m ≤ n)%nat → agree n p q → agree m p q.
Proof. intros Hle Hpq i Hi. apply Hpq. lia. Qed.

Lemma pair_agree {A B} n (p p' : Parser A) (q q' : Parser B) :
  leaves_suffix p → agree n p p' → agree n q q' → agree n (Spec.pair p q) (Spec.pair p' q').
Proof.
  intros Hp Hpp Hqq i Hi. unfold Spec.pair. rewrite <- Hpp by done. destruct (p i) eqn:E; [|done..].
  rewrite <- Hqq; [done|]. apply suffix_shorter in E; [lia|done].
Qed.
Lemma map_agree {A B} n (p q : Parser A) (f : A → B) : agree n p q → agree n (Spec.map p f) (Spec.map q f).
Proof. intros Hpq i Hi. unfold Spec.map, Spec.map_res. by rewrite Hpq. Qed.
Lemma cut_agree {A} n (p q : Parser A) : agree n p q → agree n (Spec.cut p) (Spec.cut q).
Proof. intros Hpq i Hi. unfold Spec.cut. by rewrite Hpq. Qed.
Lemma opt_agree {A} n (p q : Parser A) : agree n p q → agree n (Spec.opt p) (Spec.opt q).
Proof. intros Hpq i Hi. unfold Spec.opt. by rewrite Hpq. Qed.
Lemma parser_agree_refl {A} n (p : Parser A) : agree n p p.
Proof. done. Qed.

Lemma more_agree {A B} n (sep : Parser A) (p q : Parser B) fuel :
  leaves_suffix sep → leaves_suffix p → agree n p q → agree n (Spec.more sep p fuel) (Spec.more sep q fuel).
Proof.
  intros Hs Hp Hpq. induction fuel as [|fuel IH]; intros i Hi; cbn; [done|].
  destruct (sep i) as [r a| |] eqn:E; [|done..]. destruct (_ =? _)%nat; [done|].
  apply suffix_shorter in E; [|done]. rewrite <- Hpq by lia. destruct (p r) eqn:E'; [|done..].
  apply suffix_shorter in E'; [|done]. rewrite IH by lia. done.
Qed.
Lemma separated_list1_agree {A B} n (sep : Parser A) (p q : Parser B) :
  leaves_suffix sep → leaves_suffix p → agree n p q → agree n (Spec.separated_list1 sep p) (Spec.separated_list1 sep q).
Proof.
  intros Hs Hp Hpq i Hi. unfold Spec.separated_list1. rewrite <- Hpq by done. destruct (p i) eqn:E; [|done..].
  apply suffix_shorter in E; [|done]. rewrite (more_agree n sep p q) by (done || lia). done.
Qed.
Lemma alt_agree {A} n (ps qs : list (Parser A)) : Forall2 (agree n) ps qs → agree n (Spec.alt ps) (Spec.alt qs).
Proof. induction 1 as [|p q ps qs Hpq _ IH]; intros i Hi; cbn; [done|]. by rewrite Hpq, IH. Qed.

Lemma ws_agree {A} n (p q : Parser A) : leaves_suffix p → agree n p q → agree n (ws p) (ws q).
Proof.
  intros Hp Hpq. unfold ws. by_name. apply map_agree, pair_agree; [auto with suffix|apply parser_agree_refl|].
  apply pair_agree; [done|done|apply parser_agree_refl].
Qed.

(** A bracket is a byte. *)
Lemma ws_char_shorter c i r a : ws (Nom.char c) i = Done r a → (length r < length i)%nat.
Proof.
  unfold ws. by_name. unfold Spec.delimited, Spec.map, Spec.map_res, Spec.pair, Spec.multispace0.
  pose proof (span_app Spec.is_multispace i) as Hi. apply (f_equal length) in Hi. rewrite length_app in Hi.
  destruct (Spec.char c _) as [r' a'| |] eqn:E; [|done..]. intros [= <- <-].
  pose proof (span_app Spec.is_multispace r') as Hr. apply (f_equal length) in Hr. rewrite length_app in Hr.
  destruct (Spec.span Spec.is_multispace i).2 as [|b s]; cbn in E; [done|]. destruct (b =? c); [|done].
  injection E as -> _. cbn in Hi. lia.
Qed.

(** What follows a bracket may agree on shorter inputs only. *)
Lemma bracket_agree {A B} n c (p p' : Parser A) (s : Parser B) : leaves_suffix p → agree n p p' →
  agree (S n) (Nom.delimited (ws (Nom.char c)) p s) (Nom.delimited (ws (Nom.char c)) p' s).
Proof.
  intros Hp Hpp. apply map_agree. intros i Hi. unfold Spec.pair at 1. unfold Spec.pair at 2.
  destruct (ws (Nom.char c) i) as [r a| |] eqn:E; [|done..]. apply ws_char_shorter in E.
  rewrite (pair_agree n p p' s s Hp Hpp (parser_agree_refl n s)) by lia. done.
Qed.

Lemma where_logic_agree n (p q : Parser Cond) : agree n p q → agree n (where_logic p) (where_logic q).
Proof.
  intros Hpq. unfold where_logic. by_name. apply map_agree, pair_agree; [auto with suffix|apply parser_agree_refl|].
  by apply cut_agree.
Qed.

Lemma parse_in_subquery_leaf_agree n (p q : Parser Cond) : leaves_suffix p → agree n p q →
  agree (S n) (parse_in_subquery_leaf (where_logic p)) (parse_in_subquery_leaf (where_logic q)).
Proof.
  intros Hp Hpq i Hi. unfold parse_in_subquery_leaf.
  destruct (ws parse_identifier i) as [i1 path| |] eqn:E1; [|done..].
  apply suffix_shorter in E1; [|auto with suffix].
  destruct (ws (Nom.alt _) i1) as [i2 x2| |] eqn:E2; [|done..].
  apply suffix_shorter in E2; [|by_name; auto 10 with suffix].
  destruct (ws (Nom.char 40) i2) as [i3 x3| |] eqn:E3; [|done..]. apply ws_char_shorter in E3.
  destruct (ws (Nom.tag_no_case (kw "SELECT")) i3) as [i4 x4| |] eqn:E4; [|done..].
  apply suffix_shorter in E4; [|by_name; auto with suffix].
  destruct (ws (Nom.tag_no_case (kw "VALUE")) i4) as [i5 x5| |] eqn:E5; [|done..].
  apply suffix_shorter in E5; [|by_name; auto with suffix].
  destruct (ws parse_identifier i5) as [i6 proj| |] eqn:E6; [|done..].
  apply suffix_shorter in E6; [|auto with suffix].
  destruct (ws (Nom.tag_no_case (kw "FROM")) i6) as [i7 x7| |] eqn:E7; [|done..].
  apply suffix_shorter in E7; [|by_name; auto with suffix].
  destruct (ws parse_identifier i7) as [i8 table| |] eqn:E8; [|done..].
  apply suffix_shorter in E8; [|auto with suffix].
  assert (Nom.opt (ws (where_logic p)) i8 = Nom.opt (ws (where_logic q)) i8) as ->; [|done].
  apply (opt_agree n); [|lia]. apply ws_agree; [auto with suffix|]. by apply where_logic_agree.
Qed.

Lemma parse_and_expression_agree n (p q : Parser Cond) : leaves_suffix p → agree n p q →
  agree (S n) (parse_and_expression p) (parse_and_expression q).
Proof.
  intros Hp Hpq i Hi. unfold parse_and_expression.
  assert (agree (S n) (parse_term p) (parse_term q)) as Ht.
  { apply alt_agree. constructor; [by apply parse_in_subquery_leaf_agree|].
    constructor; [by apply bracket_agree|]. constructor; [apply parser_agree_refl|constructor]. }
  assert (Nom.separated_list1 (ws (Nom.tag_no_case (kw "AND"))) (parse_term p) i =
          Nom.separated_list1 (ws (Nom.tag_no_case (kw "AND"))) (parse_term q) i) as ->; [|done].
  apply (separated_list1_agree (S n)); [by_name; auto with suffix|by apply parse_term_suffix|done|done].
Qed.

Lemma parse_or_fuel_enough f g i : (length i < f)%nat → (length i < g)%nat → parse_or_fuel f i = parse_or_fuel g i.
Proof.
  revert g i. induction f as [|f IH]; intros [|g] i Hf Hg; [lia..|]. cbn [parse_or_fuel].
  assert (Nom.separated_list1 (ws (Nom.tag_no_case (kw "OR"))) (parse_and_expression (parse_or_fuel f)) i =
    Nom.separated_list1 (ws (Nom.tag_no_case (kw "OR"))) (parse_and_expression (parse_or_fuel g)) i) as ->; [|done].
  apply (separated_list1_agree (S (Nat.min f g))); [by_name; auto with suffix|auto with suffix| |lia].
  apply parse_and_expression_agree; [auto with suffix|]. intros j Hj. apply IH; lia.
Qed.

Lemma parse_projection_item_agree n (p q : Parser JPlan) : leaves_suffix p → agree n p q →
  agree (S n) (parse_projection_item p) (parse_projection_item q).
Proof.
  intros Hp Hpq. apply alt_agree. constructor; [|constructor; [apply parser_agree_refl|constructor]].
  intros i Hi. unfold parse_subquery_projection.
  assert (Nom.delimited (ws (Nom.char 40)) p (ws (Nom.char 41)) i =
          Nom.delimited (ws (Nom.char 40)) q (ws (Nom.char 41)) i) as ->; [|done].
  by apply (bracket_agree n).
Qed.

Lemma parse_query_fuel_enough f g i : (length i < f)%nat → (length i < g)%nat →
  parse_query_fuel f i = parse_query_fuel g i.
Proof.
  revert g i. induction f as [|f IH]; intros [|g] i Hf Hg; [lia..|]. cbn [parse_query_fuel].
  destruct (ws (Nom.tag_no_case (kw "SELECT")) i) as [j x| |] eqn:E; [|done..].
  apply suffix_shorter in E; [|by_name; auto with suffix].
  assert (Nom.separated_list1 (ws (Nom.char 44)) (parse_projection_item (parse_query_fuel f)) j =
    Nom.separated_list1 (ws (Nom.char 44)) (parse_projection_item (parse_query_fuel g)) j) as ->; [|done].
  apply (separated_list1_agree (S (Nat.min f g))); [by_name; auto with suffix| | |lia].
  - apply parse_projection_item_suffix, parse_query_fuel_suffix.
  - apply parse_projection_item_agree; [apply parse_query_fuel_suffix|]. intros k Hk. apply IH; lia.
Qed.
End parsers.

#[export] Hint Resolve ws_suffix parse_identifier_suffix parse_string_literal_suffix parse_value_entry_suffix
  parse_cmp_op_suffix parse_param_cmp_op_suffix parse_string_array_suffix parse_leaf_param_lhs_suffix
  parse_leaf_field_lhs_suffix parse_leaf_predicate_suffix where_logic_suffix parse_in_subquery_leaf_suffix
  parse_term_suffix parse_and_expression_suffix parse_or_fuel_suffix parse_or_expression_suffix
  parse_where_logic_suffix parse_usize_suffix parse_limit_clause_suffix parse_start_clause_suffix single_order_suffix
  parse_order_clause_suffix parse_index_suffix parse_field_projection_suffix parse_subquery_projection_suffix
  parse_projection_item_suffix parse_query_fuel_suffix : suffix.

(** * Rewriting of record links ends

    A rewritten plan is rewritten again, and a disjunction copies the plan it
    is put over; but every rewriting takes a link off a path. The depth that
    [plan_depth] counts pays for all of it. *)

Local Open Scope nat_scope.

Lemma cond_ind' (P : Cond → Prop) :
  (∀ t f v, P (CmpField t f v)) → (∀ f p, P (CmpPrefix f p)) → (∀ t p v, P (CmpParam t p v)) →
  (∀ l r, P (JoinCandidate l r)) →
  (∀ l p t w, (∀ c, w = Some c → P c) → P (InSubquery l p t w)) →
  (∀ l, Forall P l → P (CAnd l)) → (∀ l, Forall P l → P (COr l)) → ∀ c, P c.
Proof.
  intros Hf Hp Hm Hj Hs Ha Ho. fix IH 1. intros [t f v|f p|t p v|l r|l p t [w|]|cs|cs];
    [apply Hf|apply Hp|apply Hm|apply Hj|..].
  - apply Hs. intros c [= <-]. apply IH.
  - apply Hs. clear IH. done.
  - apply Ha. by induction cs; constructor.
  - apply Ho. by induction cs; constructor.
Qed.

Lemma plan_depth_pos p : 1 ≤ plan_depth p.
Proof. destruct p; cbn; lia. Qed.

Definition weights (l : list Cond) : nat := sum_list_with (λ c, 2 + cond_weight c) l.

Lemma weights_cons c l : weights (c :: l) = 2 + cond_weight c + weights l.
Proof. done. Qed.
Lemma weights_app l k : weights (l ++ k) = weights l + weights k.
Proof. apply sum_list_with_app. Qed.

Lemma weights_length l : 2 * length l ≤ weights l.
Proof. induction l as [|c l IH]; [done|]. rewrite weights_cons. cbn [length]. lia. Qed.

Lemma cond_weight_in c l : c ∈ l → cond_weight c + 2 * length l ≤ weights l.
Proof.
  intros (l1 & l2 & ->)%list_elem_of_split. pose proof (weights_length l1). pose proof (weights_length l2).
  rewrite weights_app, weights_cons, length_app. cbn [length]. lia.
Qed.

Lemma split_once_shorter c s x y : split_once c s = Some (x, y) → S (String.length y) ≤ String.length s.
Proof.
  revert x. induction s as [|a s IH]; intros x; cbn; [done|]. destruct (Ascii.eqb a c); [intros [= _ <-]; lia|].
  destruct (split_once c s) as [[x' y']|]; intros [= _ <-]. specialize (IH _ eq_refl). lia.
Qed.

Lemma union_depth n first plans : plan_depth first ≤ n → Forall (λ p, plan_depth p ≤ n) plans →
  plan_depth (foldl JUnion first plans) ≤ n + length plans.
Proof.
  revert first n. induction plans as [|p plans IH]; intros first n Hf Hps; cbn; [lia|].
  inversion Hps; subst. specialize (IH (JUnion first p) (S n)). cbn [plan_depth] in IH.
  assert (Forall (λ p, plan_depth p ≤ S n) plans) by (eapply Forall_impl; [done|]; cbn; lia).
  etrans; [apply IH; [lia|done]|lia].
Qed.

Lemma union_all_depth n scan plans : Forall (λ p, plan_depth p ≤ n) plans → plan_depth scan ≤ n →
  plan_depth (union_all scan plans) ≤ n + S (length plans).
Proof.
  intros Hps Hs. destruct plans as [|p plans]; cbn; [lia|]. inversion Hps; subst.
  pose proof (union_depth n p plans ltac:(done) ltac:(done)). cbn. lia.
Qed.

Lemma conjunction_weight preds : cond_weight (conjunction preds) ≤ 2 + weights preds.
Proof. destruct preds as [|p [|q preds]]; cbn [conjunction]; [done|rewrite weights_cons; lia|done]. Qed.

Lemma filtered_depth preds base :
  plan_depth (filtered preds base) ≤ plan_depth base + (if preds is [] then 0 else 3 + weights preds).
Proof. pose proof (conjunction_weight preds). destruct preds; cbn [filtered plan_depth]; lia. Qed.

Lemma semijoin_depth base l p t w :
  plan_depth (semijoin_for_subquery base l p t w) ≤ plan_depth base + 3 + from_option cond_weight 0 w + 1.
Proof.
  pose proof (plan_depth_pos base). unfold semijoin_for_subquery. destruct (split_once dot p) as [[link f]|], w; cbn; lia.
Qed.

Section depth.
Context (links : LinkMap).

Lemma marker_depth base p t : is_marker_leaf links p t = true →
  plan_depth (semijoin_for_marker base (to_marker links p t)) ≤ plan_depth base + cond_weight p.
Proof.
  unfold is_marker_leaf, to_marker. destruct (is_subquery_marker p) eqn:Hm; cbn.
  - intros _. destruct p as [| | | |l pr tb w| |]; try done. cbn [semijoin_for_marker cond_weight].
    pose proof (semijoin_depth base l pr tb w). lia.
  - intros Hl. destruct p as [ty f v| | | | | |]; try done. cbn [link_leaf_to_marker].
    assert (∃ x y, split_once dot f = Some (x, y)) as (x & y & Hf).
    { destruct ty; try done. cbn in Hl. destruct (split_once dot f) as [[x y]|] eqn:E; [by eauto|]. exfalso.
      assert (split dot f = [f]) as Hs; [|by rewrite Hs in Hl].
      clear Hl. induction f as [|a f IH]; [done|]. cbn in *. destruct (Ascii.eqb a dot); [done|].
      destruct (split_once dot f) as [[]|]; [done|]. by rewrite IH. }
    rewrite Hf. change (default (f, "id"%string) (Some (x, y))) with (x, y). cbn [semijoin_for_marker]. apply split_once_shorter in Hf.
    pose proof (semijoin_depth base x "id" (default ""%string (link_target links t x)) (Some (CmpField TEq y v))) as Hd.
    cbn [from_option cond_weight] in Hd |- *. lia.
Qed.

(** A fold that puts one join for each chosen conjunct. *)
Lemma fold_depth (chosen : Cond → bool) (f : JPlan → Cond → JPlan) l base :
  Forall (λ p, chosen p = true → ∀ b, plan_depth (f b p) ≤ plan_depth b + cond_weight p) l →
  plan_depth (foldl (λ base p, if chosen p then f base p else base) base l) ≤
    plan_depth base + sum_list_with (λ p, if chosen p then cond_weight p else 0) l.
Proof.
  intros Hl. revert base. induction Hl as [|p l Hp _ IH]; intros base; cbn [foldl sum_list_with]; [lia|].
  etrans; [apply IH|]. destruct (chosen p); [|lia]. specialize (Hp eq_refl base). lia.
Qed.

Lemma marker_contains p t : is_marker_leaf links p t = true → contains_marker links p t = true.
Proof. intros Hp. destruct p; cbn [contains_marker]; by rewrite Hp. Qed.

Lemma link_contains e t : predicate_contains_link_leaf links e t = true → contains_marker links e t = true.
Proof.
  assert (∀ l, Forall (λ e, predicate_contains_link_leaf links e t = true → contains_marker links e t = true) l →
    existsb (λ p, predicate_contains_link_leaf links p t) l = true → existsb (λ p, contains_marker links p t) l = true) as Hl.
  { intros l IH Hex. apply existsb_exists in Hex as (p & Hin & Hp). apply existsb_exists. exists p. split; [done|].
    apply list_elem_of_In in Hin. by apply (proj1 (Forall_forall _ _) IH). }
  induction e using cond_ind'; cbn [predicate_contains_link_leaf]; intros Hp; try (apply marker_contains; unfold is_marker_leaf; by rewrite Hp, orb_true_r).
  - by apply Hl.
  - by apply Hl.
Qed.

(** What the conjuncts of each kind weigh together. *)
Lemma conjunct_weights t l :
  let preds := List.filter (λ p, negb (contains_marker links p t)) l in
  (if preds is [] then 0 else weights preds) +
    sum_list_with (λ p, if is_marker_leaf links p t then cond_weight p else 0) l +
    sum_list_with (λ p, if contains_marker links p t && negb (is_marker_leaf links p t) then cond_weight p else 0) l +
    (if existsb (λ p, contains_marker links p t) l then 2 else 0) ≤ weights l.
Proof.
  cbv zeta.
  assert (∀ preds, (if preds is [] then 0 else weights preds) = weights preds) as -> by (by intros []).
  induction l as [|p l IH]; [done|]. cbn [List.filter sum_list_with existsb]. rewrite weights_cons.
  destruct (contains_marker links p t) eqn:Hc; cbn [negb andb orb].
  - destruct (is_marker_leaf links p t); cbn [negb]; destruct (existsb _ l); lia.
  - destruct (is_marker_leaf links p t) eqn:Hm; [by rewrite (marker_contains p t Hm) in Hc|].
    rewrite weights_cons. destruct (existsb _ l); lia.
Qed.

Lemma lower_predicate_depth t e scan :
  plan_depth (lower_predicate_to_plan links scan e t) ≤ plan_depth scan + cond_weight e + 1 ∧
  (contains_marker links e t = true → plan_depth (lower_predicate_to_plan links scan e t) ≤ plan_depth scan + cond_weight e).
Proof.
  revert scan. induction e as [ty f v|f p|ty p v|l r|l p tb w _|l IH|l IH] using cond_ind'; intros scan.
  - assert (contains_marker links (CmpField ty f v) t = is_link_leaf links (CmpField ty f v) t) as ->
      by (cbn [contains_marker]; unfold is_marker_leaf; cbn; by rewrite orb_false_r).
    cbn [lower_predicate_to_plan]. destruct (is_link_leaf links (CmpField ty f v) t) eqn:Hl.
    + pose proof (marker_depth scan (CmpField ty f v) t) as Hm. unfold is_marker_leaf, to_marker in Hm. cbn [is_subquery_marker] in Hm.
      rewrite Hl in Hm. specialize (Hm eq_refl). lia.
    + cbn [plan_depth]. split; [lia|done].
  - cbn. split; [lia|done].
  - cbn. split; [lia|done].
  - cbn. split; [lia|done].
  - pose proof (semijoin_depth scan l p tb w). cbn [lower_predicate_to_plan cond_weight]. lia.
  - cbn [lower_predicate_to_plan cond_weight]. fold (weights l).
    set (preds := List.filter _ l). set (base0 := filtered preds scan).
    assert (∀ b, plan_depth (foldl (λ base p, if is_marker_leaf links p t
      then semijoin_for_marker base (to_marker links p t) else base) b l) ≤
      plan_depth b + sum_list_with (λ p, if is_marker_leaf links p t then cond_weight p else 0) l) as H1.
    { intros b. apply (fold_depth (λ p, is_marker_leaf links p t)).
      apply Forall_forall. intros p _ Hp b'. by apply marker_depth. }
    assert (∀ b, plan_depth (foldl (λ base p, if contains_marker links p t && negb (is_marker_leaf links p t)
      then lower_predicate_to_plan links base p t else base) b l) ≤
      plan_depth b + sum_list_with (λ p, if contains_marker links p t && negb (is_marker_leaf links p t)
        then cond_weight p else 0) l) as H2.
    { intros b. apply (fold_depth (λ p, contains_marker links p t && negb (is_marker_leaf links p t))
        (λ base p, lower_predicate_to_plan links base p t)).
      eapply Forall_impl; [exact IH|]. cbn. intros p Hp [Hc _]%andb_true_iff b'. by apply Hp. }
    pose proof (conjunct_weights t l) as Hw. cbv zeta in Hw. fold preds in Hw.
    pose proof (filtered_depth preds scan) as Hf. fold base0 in Hf. specialize (H1 base0).
    specialize (H2 (foldl (λ base p, if is_marker_leaf links p t
      then semijoin_for_marker base (to_marker links p t) else base) base0 l)).
    assert (contains_marker links (CAnd l) t = existsb (λ p, contains_marker links p t) l) as -> by done.
    destruct preds; destruct (existsb _ l); lia.
  - cbn [lower_predicate_to_plan cond_weight]. fold (weights l).
    set (plans := map _ l).
    assert (Forall (λ p, plan_depth p ≤ plan_depth scan + 1 + (weights l - 2 * length l)) plans) as Hps.
    { apply Forall_forall. intros p (b & -> & Hb)%list_elem_of_fmap.
      pose proof (proj1 (Forall_forall _ _) IH b Hb scan) as [Hd _]. pose proof (cond_weight_in b l Hb). cbn in Hd. lia. }
    apply (union_all_depth _ scan) in Hps; [|lia]. pose proof (weights_length l).
    assert (length plans = length l) as Hlen by apply length_map. lia.
Qed.

Lemma max_list_in n l : n ∈ l → n ≤ max_list l.
Proof. intros Hn. by apply max_list_elem_of_le. Qed.

Lemma lower_links_enough f g p : plan_depth p ≤ f → plan_depth p ≤ g →
  lower_link_traversals links f p = lower_link_traversals links g p.
Proof.
  revert g p. induction f as [|f IH]; intros [|g] p Hf Hg; try (pose proof (plan_depth_pos p); lia).
  cbn [lower_link_traversals]. case_bool_decide; [done|].
  destruct p as [t|c i|l r lf rf|l r lf rf|l r|i|ps i|n s o i]; cbn [plan_depth] in Hf, Hg.
  - done.
  - rewrite (IH g i) by lia. destruct (lower_link_traversals links g i) as [t| | | | | | |] eqn:Ei; cbn [scanned_table]; try done.
    destruct (predicate_contains_link_leaf links c t) eqn:Hc; [|done].
    pose proof (plan_depth_pos i). pose proof (lower_predicate_depth t c (JScan t)) as [_ Hd].
    specialize (Hd (link_contains c t Hc)). cbn [plan_depth] in Hd. apply IH; lia.
  - by rewrite (IH g l), (IH g r) by lia.
  - by rewrite (IH g l), (IH g r) by lia.
  - by rewrite (IH g l), (IH g r) by lia.
  - by rewrite (IH g i) by lia.
  - rewrite (IH g i) by lia. f_equal. apply map_ext_in. intros [| |alias q key] Hin; [done..|]. f_equal.
    assert (plan_depth q ≤ max_list (map (λ p, match p with JSubquery _ plan _ => plan_depth plan | _ => 0 end) ps)).
    { apply max_list_in. apply list_elem_of_fmap. exists (JSubquery alias q key). split; [done|]. by apply list_elem_of_In. }
    apply IH; lia.
  - by rewrite (IH g i) by lia.
Qed.
End depth.

(** * The converter over any lawful combinators

    The parser built from combinators that obey the laws is the parser built
    from their documented behaviour: what is proved of the one holds of the
    other. *)

Local Open Scope Z_scope.

Section transfer.
Context `{UnicodeTables} (O : Nom.Ops) (L : @Nom.Laws O).

Ltac by_law law := repeat (apply functional_extensionality_dep; intros ?); apply (law O L).

Lemma tag_eq : @Nom.tag O = Spec.tag. Proof. by_law @Nom.tag_law. Qed.
Lemma take_while_eq : @Nom.take_while O = Spec.take_while. Proof. by_law @Nom.take_while_law. Qed.
Lemma is_not_eq : @Nom.is_not O = Spec.is_not. Proof. by_law @Nom.is_not_law. Qed.
Lemma alpha1_eq : @Nom.alpha1 O = Spec.alpha1. Proof. by_law @Nom.alpha1_law. Qed.
Lemma digit1_eq : @Nom.digit1 O = Spec.digit1. Proof. by_law @Nom.digit1_law. Qed.
Lemma multispace0_eq : @Nom.multispace0 O = Spec.multispace0. Proof. by_law @Nom.multispace0_law. Qed.
Lemma char_eq : @Nom.char O = Spec.char. Proof. by_law @Nom.char_law. Qed.
Lemma alt_eq : @Nom.alt O = @Spec.alt. Proof. by_law @Nom.alt_law. Qed.
Lemma opt_eq : @Nom.opt O = @Spec.opt. Proof. by_law @Nom.opt_law. Qed.
Lemma map_res_eq : @Nom.map_res O = @Spec.map_res. Proof. by_law @Nom.map_res_law. Qed.
Lemma nom_map_eq : @Nom.map O = @Spec.map. Proof. by_law @Nom.map_law. Qed.
Lemma value_eq : @Nom.value O = @Spec.value. Proof. by_law @Nom.value_law. Qed.
Lemma cut_eq : @Nom.cut O = @Spec.cut. Proof. by_law @Nom.cut_law. Qed.
Lemma pair_eq : @Nom.pair O = @Spec.pair. Proof. by_law @Nom.pair_law. Qed.
Lemma preceded_eq : @Nom.preceded O = @Spec.preceded. Proof. by_law @Nom.preceded_law. Qed.
Lemma delimited_eq : @Nom.delimited O = @Spec.delimited. Proof. by_law @Nom.delimited_law. Qed.
Lemma tuple3_eq : @Nom.tuple3 O = @Spec.tuple3. Proof. by_law @Nom.tuple3_law. Qed.
Lemma tag_no_case_eq t : bool_decide (Nom.plain_letters t) = true → @Nom.tag_no_case O t = Spec.tag_no_case t.
Proof.
  intros Ht%bool_decide_eq_true_1. apply functional_extensionality. intros i. by apply (@Nom.tag_no_case_law O L).
Qed.
Lemma recognize_eq {A} (p : Parser A) : Nom.leaves_suffix p → @Nom.recognize O A p = Spec.recognize p.
Proof. intros Hp. apply functional_extensionality. intros i. by apply (@Nom.recognize_law O L). Qed.
Lemma separated_list1_eq {A B} (sep : Parser A) (p : Parser B) : Nom.leaves_suffix sep → Nom.leaves_suffix p →
  @Nom.separated_list1 O A B sep p = Spec.separated_list1 sep p.
Proof. intros Hs Hp. apply functional_extensionality. intros i. by apply (@Nom.separated_list1_law O L). Qed.

Ltac transfer := rewrite ?tag_eq, ?take_while_eq, ?is_not_eq, ?alpha1_eq, ?digit1_eq, ?multispace0_eq, ?char_eq, ?alt_eq,
  ?opt_eq, ?map_res_eq, ?nom_map_eq, ?value_eq, ?cut_eq, ?pair_eq, ?preceded_eq, ?delimited_eq, ?tuple3_eq;
  repeat (rewrite tag_no_case_eq by (vm_compute; reflexivity)).

Lemma ws_eq {A} (p : Parser A) : @ws O A p = @ws spec_ops A p.
Proof. unfold ws. by transfer. Qed.
Lemma parse_identifier_eq : @parse_identifier _ O = @parse_identifier _ spec_ops.
Proof. unfold parse_identifier. transfer. rewrite recognize_eq; [done|]. auto 10 with suffix. Qed.
Lemma parse_string_literal_eq : @parse_string_literal O = @parse_string_literal spec_ops.
Proof. unfold parse_string_literal, parse_content. by transfer. Qed.
Lemma parse_value_entry_eq : @parse_value_entry _ O = @parse_value_entry _ spec_ops.
Proof. unfold parse_value_entry. transfer. by rewrite parse_identifier_eq, parse_string_literal_eq. Qed.
Lemma parse_cmp_op_eq : @parse_cmp_op O = @parse_cmp_op spec_ops.
Proof. unfold parse_cmp_op. by transfer. Qed.
Lemma parse_param_cmp_op_eq : @parse_param_cmp_op O = @parse_param_cmp_op spec_ops.
Proof. unfold parse_param_cmp_op. by transfer. Qed.

Lemma parse_string_array_eq : @parse_string_array O = @parse_string_array spec_ops.
Proof.
  unfold parse_string_array. transfer. rewrite !ws_eq, parse_string_literal_eq, separated_list1_eq; [done|..];
    auto with suffix.
Qed.
Lemma parse_leaf_predicate_eq : @parse_leaf_predicate _ O = @parse_leaf_predicate _ spec_ops.
Proof.
  unfold parse_leaf_predicate, parse_leaf_param_lhs, parse_leaf_field_lhs. transfer.
  by rewrite !ws_eq, parse_identifier_eq, parse_cmp_op_eq, parse_param_cmp_op_eq, parse_value_entry_eq, parse_string_array_eq.
Qed.

Lemma parse_term_eq p : @parse_term _ O p = @parse_term _ spec_ops p.
Proof.
  unfold parse_term, parse_in_subquery_leaf, where_logic. transfer. by rewrite !ws_eq, parse_identifier_eq, parse_leaf_predicate_eq.
Qed.
Lemma parse_and_expression_eq p : Nom.leaves_suffix p → @parse_and_expression _ O p = @parse_and_expression _ spec_ops p.
Proof.
  intros Hp. unfold parse_and_expression. transfer. rewrite !ws_eq, parse_term_eq, separated_list1_eq; [done|..];
    auto with suffix.
Qed.
Lemma parse_or_fuel_eq fuel : @parse_or_fuel _ O fuel = @parse_or_fuel _ spec_ops fuel.
Proof.
  induction fuel as [|fuel IH]; [done|]. cbn [parse_or_fuel]. rewrite IH. transfer.
  rewrite !ws_eq, parse_and_expression_eq, separated_list1_eq; [done|..]; auto with suffix.
Qed.
Lemma parse_where_logic_eq : @parse_where_logic _ O = @parse_where_logic _ spec_ops.
Proof.
  unfold parse_where_logic, where_logic. transfer.
  assert (@parse_or_expression _ O = @parse_or_expression _ spec_ops) as ->; [|done].
  unfold parse_or_expression. apply functional_extensionality. intros i. by rewrite parse_or_fuel_eq.
Qed.

Lemma parse_usize_eq : @parse_usize O = @parse_usize spec_ops.
Proof. unfold parse_usize. by transfer. Qed.
Lemma parse_limit_clause_eq : @parse_limit_clause O = @parse_limit_clause spec_ops.
Proof. unfold parse_limit_clause. transfer. by rewrite !ws_eq, parse_usize_eq. Qed.
Lemma parse_start_clause_eq : @parse_start_clause O = @parse_start_clause spec_ops.
Proof. unfold parse_start_clause. transfer. by rewrite !ws_eq, parse_usize_eq. Qed.
Lemma parse_order_clause_eq : @parse_order_clause _ O = @parse_order_clause _ spec_ops.
Proof.
  unfold parse_order_clause. assert (@single_order _ O = @single_order _ spec_ops) as ->.
  { unfold single_order. transfer. by rewrite !ws_eq, parse_identifier_eq. }
  transfer. rewrite !ws_eq, separated_list1_eq; [done|..]; auto with suffix.
Qed.

Lemma parse_projection_item_eq p : @parse_projection_item _ O p = @parse_projection_item _ spec_ops p.
Proof.
  unfold parse_projection_item, parse_subquery_projection, parse_field_projection, parse_index. transfer.
  by rewrite !ws_eq, parse_identifier_eq, parse_usize_eq.
Qed.
Lemma parse_query_fuel_eq fuel : @parse_query_fuel _ O fuel = @parse_query_fuel _ spec_ops fuel.
Proof.
  induction fuel as [|fuel IH]; [done|]. cbn [parse_query_fuel]. rewrite IH. transfer.
  rewrite !ws_eq, parse_identifier_eq, parse_where_logic_eq, parse_order_clause_eq, parse_limit_clause_eq,
    parse_start_clause_eq, parse_projection_item_eq, separated_list1_eq; [done|..]; auto with suffix.
Qed.

Lemma converted_eq sql links : @converted _ O sql links = @converted _ spec_ops sql links.
Proof. unfold converted, convert_surql_to_dbsp_with_links, parse_full_query. by rewrite parse_query_fuel_eq. Qed.

(** C14: Converting a query ends, over any combinators that obey the laws: a
    byte of the text is fuel enough for every level of nested queries and
    conditions, and the depth of the plan for every rewriting of a record link,
    so more fuel changes nothing. *)
Theorem conversion_ends (links : LinkMap) i f plan g :
  (length i < f)%nat → (plan_depth plan ≤ g)%nat →
  @parse_query_fuel _ O f i = @parse_full_query _ O i ∧ @parse_or_fuel _ O f i = @parse_or_expression _ O i ∧
  lower_link_traversals links g plan = lower_link_traversals links (plan_depth plan) plan.
Proof.
  intros Hf Hg. unfold parse_full_query, parse_or_expression. rewrite !parse_query_fuel_eq, !parse_or_fuel_eq.
  split; [apply parse_query_fuel_enough; lia|]. split; [apply parse_or_fuel_enough; lia|]. by apply lower_links_enough.
Qed.
End transfer.

(** A nested query, with as much fuel as it has bytes, and more. *)
Definition nested_text : list Z := kw "SELECT (SELECT id FROM a WHERE (x = 1 OR (y = 2))) AS b FROM c".

Lemma conversion_ends_witness :
  parse_query_fuel 100 nested_text = parse_full_query nested_text ∧ parse_or_fuel 100 nested_text = parse_or_expression nested_text ∧
  lower_link_traversals ∅ 50 (JScan "c") = lower_link_traversals ∅ (plan_depth (JScan "c")) (JScan "c").
Proof. apply (conversion_ends spec_ops spec_laws ∅ nested_text 100 (JScan "c") 50); vm_compute; lia. Defined.
