(* ===== verification/Print.v ===== *)
(** * Queries as text

    Conditions and queries written out, a space after every token, brackets
    where a conjunction or disjunction stands inside another; and which can be
    written: names that are identifiers, values that the parser has a form
    for. *)

From S2P Require Import Prelude Platform Value Combinators Plan Convert.
Local Open Scope Z_scope.

Definition tok (t : list Z) : list Z := t ++ [32].
Definition word (s : string) : list Z := tok (kw s).
Definition name (s : string) : list Z := tok (bytes_of s).

(** ** Numbers *)

Fixpoint digits_fuel (fuel : nat) (n : Z) : list Z :=
  match fuel with
  | O => []
  | S fuel => if n <? 10 then [48 + n] else digits_fuel fuel (n / 10) ++ [48 + n mod 10]
  end.
Definition digits (n : Z) : list Z := digits_fuel (S (Z.to_nat (Z.log2 n))) n.

(** ** Values and names *)

Definition quoted (s : list Z) : list Z := 39 :: s ++ [39].

Definition print_value (v : Value) : list Z :=
  match v with
  | VBool true => kw "true"
  | VBool false => kw "false"
  | VNumber (PosInt n) => digits n
  | VString s => quoted (bytes_of s)
  | VObject ((_, VString p) :: _) => 36 :: bytes_of p
  | _ => []
  end.

(** An identifier of ASCII letters, digits and [_:.]. *)
Definition ident_byte (b : Z) : bool := is_alpha b || is_digit b || (b =? 95) || (b =? 58) || (b =? 46).
Definition ident_bytes (s : list Z) : bool :=
  match s with b :: _ => (is_alpha b || (b =? 95)) && forallb ident_byte s | [] => false end.
Definition ident (s : string) : bool := ident_bytes (bytes_of s).

Definition quotable (s : list Z) : bool := forallb (λ b, negb (b =? 39)) s.

Definition value_ok (v : Value) : bool :=
  match v with
  | VBool _ => true
  | VNumber (PosInt n) => (0 <=? n) && (n <? two63)
  | VString s => negb (String.eqb s "") && quotable (bytes_of s) && negb (ends_with 42 (bytes_of s))
  | VObject [(k, VString p)] => String.eqb k "$param" && ident p
  | _ => false
  end.

(** A name that is read as a value must not start like [true] or [false]. *)
Definition starts_no_case (t s : list Z) : bool := bool_decide (map lower_byte (take (length t) s) = map lower_byte t).
Definition value_ident (s : string) : bool :=
  ident s && negb (starts_no_case (kw "true") (bytes_of s)) && negb (starts_no_case (kw "false") (bytes_of s)).

(** ** Conditions *)

Definition cmp_text (t : CmpType) : string :=
  match t with TEq => "=" | TNeq => "!=" | TGt => ">" | TGte => ">=" | TLt => "<" | TLte => "<=" end.
Definition print_op (t : CmpType) : list Z := word (cmp_text t).

Definition bracketed (b : bool) (t : list Z) : list Z := if b then word "(" ++ t ++ word ")" else t.

Fixpoint separated (sep : list Z) (ts : list (list Z)) : list Z :=
  match ts with
  | [] => []
  | [t] => t
  | t :: ts => t ++ sep ++ separated sep ts
  end.

(** Where a condition stands: by itself, among disjuncts, among conjuncts. *)
Inductive Place := Alone | Disjunct | Conjunct.

Fixpoint print_cond (place : Place) (c : Cond) : list Z :=
  match c with
  | CmpField t field value => name field ++ print_op t ++ tok (print_value value)
  | CmpPrefix field pre => name field ++ word "=" ++ tok (quoted (bytes_of pre ++ [42]))
  | CmpParam t param value => tok (36 :: bytes_of param) ++ print_op t ++ tok (print_value value)
  | JoinCandidate l r => name l ++ word "=" ++ name r
  | InSubquery left_ proj table where_ =>
      name left_ ++ word "IN" ++ word "(" ++ word "SELECT" ++ word "VALUE" ++ name proj ++ word "FROM" ++ name table ++
      match where_ with Some w => word "WHERE" ++ print_cond Alone w | None => [] end ++ word ")"
  | CAnd l =>
      bracketed (match place with Conjunct => true | _ => false end) (separated (word "AND") (map (print_cond Conjunct) l))
  | COr l =>
      bracketed (match place with Alone => false | _ => true end) (separated (word "OR") (map (print_cond Disjunct) l))
  end.

Definition many {A} (l : list A) : bool := match l with _ :: _ :: _ => true | _ => false end.

(** Conditions with a form: those the parser can give back. *)
Fixpoint printable (c : Cond) : bool :=
  match c with
  | CmpField _ field value => ident field && value_ok value
  | CmpPrefix field pre => ident field && quotable (bytes_of pre) && negb (ends_with 42 (bytes_of pre))
  | CmpParam _ param value => ident param && value_ok value
  | JoinCandidate l r => ident l && value_ident r
  | InSubquery left_ proj table where_ =>
      ident left_ && ident proj && ident table && match where_ with Some w => printable w | None => true end
  | CAnd l | COr l => many l && forallb printable l
  end.

(** ** Queries *)

(** A query as its parts. *)
Inductive Query :=
  | MkQuery (fields : list Item) (table : string) (where_ : option Cond)
      (order_by : option (list (string * string))) (limit start : option Z)
with Item :=
  | IAll
  | IField (field : string)
  | ISubquery (alias : string) (query : Query).

Fixpoint query_plan (q : Query) : JPlan :=
  match q with
  | MkQuery fields table where_ order_by limit start =>
      query_tree (map (λ i, match i with
        | IAll => JAll
        | IField f => JField f
        | ISubquery alias q => JSubquery alias (query_plan q) (extract_parent_key (query_plan q))
        end) fields) table where_ order_by limit start
  end.

Definition print_order (o : string * string) : list Z := name o.1 ++ word o.2.

Fixpoint print_query (q : Query) : list Z :=
  match q with
  | MkQuery fields table where_ order_by limit start =>
      word "SELECT" ++ separated (word ",") (map (λ i, match i with
        | IAll => word "*"
        | IField f => name f
        | ISubquery alias q => word "(" ++ print_query q ++ word ")" ++ word "AS" ++ name alias
        end) fields) ++
      word "FROM" ++ name table ++
      match where_ with Some c => word "WHERE" ++ print_cond Alone c | None => [] end ++
      match order_by with Some l => word "ORDER BY" ++ separated (word ",") (map print_order l) | None => [] end ++
      match limit with Some n => word "LIMIT" ++ tok (digits n) | None => [] end ++
      match start with Some n => word "START" ++ tok (digits n) | None => [] end
  end.

Definition usize (n : Z) : bool := (0 <=? n) && (n <? two64).
Definition direction (s : string) : bool := String.eqb s "ASC" || String.eqb s "DESC".

Fixpoint query_ok (q : Query) : bool :=
  match q with
  | MkQuery fields table where_ order_by limit start =>
      negb (bool_decide (length fields = 0%nat)) &&
      forallb (λ i, match i with
        | IAll => true
        | IField f => ident f
        | ISubquery alias q => ident alias && query_ok q
        end) fields &&
      ident table &&
      match where_ with Some c => printable c | None => true end &&
      match order_by with
      | Some l => negb (bool_decide (length l = 0%nat)) && forallb (λ o, ident o.1 && direction o.2) l
      | None => true
      end &&
      match limit with Some n => usize n | None => true end &&
      match start with Some n => usize n | None => true end
  end.

(** ** A sample *)

Definition sample_query : Query :=
  MkQuery [IAll; ISubquery "author" (MkQuery [IField "name"] "user"
      (Some (CmpField TEq "id" (param_json "parent.author"))) None (Some 1) None)]
    "thread" (Some (COr [CmpField TGte "votes" (VNumber (PosInt 10));
      CAnd [CmpPrefix "title" "a"; COr [CmpField TEq "open" (VBool true); CmpParam TNeq "access" (VString "x")]]]))
    (Some [("created_at", "DESC")]) (Some 20) (Some 40).

Example sample_printed : string_of_bytes (print_query sample_query) =
  "SELECT * , ( SELECT name FROM user WHERE id = $parent.author LIMIT 1 ) AS author FROM thread WHERE votes >= 10 OR title = 'a*' AND ( open = true OR $access != 'x' ) ORDER BY created_at DESC LIMIT 20 START 40 ".
Proof. vm_compute. reflexivity. Qed.

Example sample_parsed : query_ok sample_query = true ∧ parse_full_query (print_query sample_query) = Done [] (query_plan sample_query).
Proof. split; vm_compute; reflexivity. Qed.
