(* ===== verification/ParseWords.v ===== *)
(** * Reading words back

    The single tokens of the language, each followed by a space: what reads
    them, and what does not; then values, operators and the conditions without
    others inside. *)

From S2P Require Import Prelude Platform Value Plan Combinators Convert ConvertLaws Print.
Local Open Scope Z_scope.

(** What is left once spaces are skipped. *)
Definition skip (i : list Z) : list Z := (Spec.span Spec.is_multispace i).2.

Lemma skip_space i : skip (32 :: i) = skip i.
Proof. done. Qed.

Lemma skip_byte b i : Spec.is_multispace b = false → skip (b :: i) = b :: i.
Proof. intros Hb. unfold skip. cbn. by rewrite Hb. Qed.

(** A text that starts with no space. *)
Definition dense (i : list Z) : Prop := skip i = i.

Lemma dense_nil : dense [].
Proof. done. Qed.
Lemma dense_byte b i : Spec.is_multispace b = false → dense (b :: i).
Proof. apply skip_byte. Qed.
Lemma dense_app t i : t ≠ [] → dense t → dense (t ++ i).
Proof.
  destruct t as [|b t]; [done|]. intros _ Ht. cbn. apply dense_byte. unfold dense, skip in Ht. cbn in Ht.
  destruct (Spec.is_multispace b); [|done]. cbn in Ht. pose proof (span_app Spec.is_multispace t) as Hs.
  apply (f_equal length) in Hs. apply (f_equal length) in Ht. rewrite length_app in Hs. cbn in Ht. lia.
Qed.

Section words.
Context `{UnicodeTables}.

Lemma ws_eq_spec {A} (p : Parser A) i :
  ws p i = match p (skip i) with Done r a => Done (skip r) a | Error => Error | Failure => Failure end.
Proof.
  unfold ws. cbv [Nom.delimited Nom.multispace0 spec_ops].
  unfold Spec.delimited, Spec.map, Spec.map_res, Spec.pair, Spec.multispace0, skip. by destruct (p _).
Qed.

Lemma ws_done {A} (p : Parser A) i r a : p (skip i) = Done r a → ws p i = Done (skip r) a.
Proof. intros Hp. by rewrite ws_eq_spec, Hp. Qed.
Lemma ws_error {A} (p : Parser A) i : p (skip i) = Error → ws p i = Error.
Proof. intros Hp. by rewrite ws_eq_spec, Hp. Qed.

(** *** Tags *)

Lemma strip_bytes_app t r : strip_bytes t (t ++ r) = Some r.
Proof. induction t as [|a t IH]; cbn; [done|]. by rewrite Z.eqb_refl. Qed.

Lemma tag_done t r : Spec.tag t (t ++ r) = Done r t.
Proof. unfold Spec.tag. by rewrite strip_bytes_app. Qed.

Lemma tag_no_case_done t r : Spec.tag_no_case t (t ++ r) = Done r t.
Proof.
  unfold Spec.tag_no_case. rewrite take_app_length, bool_decide_true by done. by rewrite drop_app_length.
Qed.

(** The first letters differ. *)
Lemma tag_no_case_error t i : match t, i with a :: _, b :: _ => lower_byte a ≠ lower_byte b | _ :: _, [] => True | [], _ => False end →
  Spec.tag_no_case t i = Error.
Proof.
  intros Hne. unfold Spec.tag_no_case. rewrite bool_decide_false; [done|]. destruct t as [|a t], i as [|b i]; try done.
  cbn. intros [= Heq _]. congruence.
Qed.

(** *** Identifiers *)

Lemma span_all p s b r : forallb p s = true → p b = false → Spec.span p (s ++ b :: r) = (s, b :: r).
Proof.
  intros Hs Hb. induction s as [|a s IH]; cbn in *; [by rewrite Hb|]. apply andb_true_iff in Hs as [Ha Hs].
  by rewrite Ha, IH.
Qed.

Lemma next_char_ascii b r : b < 128 → next_char (b :: r) = Some (b, 1%nat).
Proof.
  intros Hb. assert (240 <=? b = false ∧ 224 <=? b = false ∧ 192 <=? b = false) as (H1 & H2 & H3)
    by (split; [|split]; apply Z.leb_gt; lia).
  destruct r as [|c [|d [|e r]]]; cbn; by rewrite ?H1, ?H2, ?H3.
Qed.

Lemma ident_byte_ascii b : ident_byte b = true → b < 128 ∧ identifier_char b = true.
Proof.
  unfold ident_byte, identifier_char, is_alphanumeric, is_alpha, is_digit, between. intros Hb.
  assert (b < 128) as Hlt by (repeat (apply orb_true_iff in Hb as [Hb|Hb]; try (apply andb_true_iff in Hb as [_ Hb%Z.leb_le]; lia));
    apply Z.eqb_eq in Hb; lia).
  split; [done|]. destruct (Z.ltb_spec b 128); [done|lia].
Qed.

Lemma span_char_ident s r fuel : forallb ident_byte s = true → (length s < fuel)%nat →
  Spec.span_char identifier_char fuel (s ++ 32 :: r) = length s.
Proof.
  revert fuel. induction s as [|b s IH]; intros [|fuel] Hs Hf; cbn in Hf; [lia| |lia|].
  - cbn [app Spec.span_char]. rewrite next_char_ascii by lia. done.
  - cbn in Hs. apply andb_true_iff in Hs as [Hb Hs]. apply ident_byte_ascii in Hb as [Hlt Hb].
    cbn [app Spec.span_char]. rewrite next_char_ascii, Hb by done. cbn. by rewrite drop_0, IH by (done || lia).
Qed.

Lemma span_app_stop p s b r : p b = false →
  Spec.span p (s ++ b :: r) = ((Spec.span p s).1, (Spec.span p s).2 ++ b :: r).
Proof. intros Hb. induction s as [|a s IH]; cbn; [by rewrite Hb|]. destruct (p a); cbn; [by rewrite IH|done]. Qed.

Lemma forallb_suffix (p : Z → bool) s t : forallb p (s ++ t) = true → forallb p t = true.
Proof. rewrite forallb_app. by intros [_ ?]%andb_true_iff. Qed.

Lemma take_while_ident s r : forallb ident_byte s = true →
  Spec.take_while identifier_char (s ++ 32 :: r) = Done (32 :: r) s.
Proof.
  intros Hs. unfold Spec.take_while. rewrite span_char_ident; [|done|rewrite length_app; cbn; lia].
  by rewrite drop_app_length, take_app_length.
Qed.

(** The head of an identifier. *)
Lemma ident_head s r : ident_bytes s = true →
  ∃ h t, s = h ++ t ∧ Spec.alt [Spec.alpha1; Spec.tag (kw "_")] (s ++ 32 :: r) = Done (t ++ 32 :: r) h.
Proof.
  intros Hs. destruct s as [|b s]; [done|]. cbn [ident_bytes] in Hs. apply andb_true_iff in Hs as [Hb Hs].
  destruct (is_alpha b) eqn:Ha.
  - pose proof (span_app is_alpha (b :: s)) as Hsp. pose proof (span_app_stop is_alpha (b :: s) 32 r eq_refl) as Hst.
    exists (Spec.span is_alpha (b :: s)).1, (Spec.span is_alpha (b :: s)).2. split; [done|].
    cbn [Spec.alt]. unfold Spec.alpha1, Spec.span1. rewrite Hst. cbn. by rewrite Ha.
  - apply Z.eqb_eq in Hb as ->. exists [95], s. done.
Qed.

Lemma parse_identifier_done s r : ident_bytes s = true →
  parse_identifier (s ++ 32 :: r) = Done (32 :: r) (string_of_bytes s).
Proof.
  intros Hs. destruct (ident_head s r Hs) as (h & t & -> & Hh).
  assert (forallb ident_byte (h ++ t) = true) as Hi by (destruct (h ++ t); [done|]; by apply andb_true_iff in Hs as [_ Hs]).
  unfold parse_identifier. cbv [Nom.map Nom.recognize Nom.pair Nom.alt Nom.alpha1 Nom.tag Nom.take_while spec_ops].
  unfold Spec.map, Spec.map_res, Spec.recognize, Spec.pair. rewrite Hh.
  rewrite take_while_ident by (by eapply forallb_suffix).
  f_equal. f_equal. rewrite length_app, Nat.add_sub. apply take_app_length.
Qed.

(** A byte that starts no identifier. *)
Lemma parse_identifier_error b r : is_alpha b = false → b ≠ 95 → parse_identifier (b :: r) = Error.
Proof.
  intros Ha Hb. unfold parse_identifier.
  cbv [Nom.map Nom.recognize Nom.pair Nom.alt Nom.alpha1 Nom.tag Nom.take_while spec_ops].
  unfold Spec.map, Spec.map_res, Spec.recognize, Spec.pair. cbn [Spec.alt]. unfold Spec.alpha1, Spec.span1, Spec.tag.
  cbn [Spec.span]. rewrite Ha. cbn. destruct b as [|p|p]; try done. by repeat (destruct p as [p|p|]; try done).
Qed.

Lemma parse_identifier_nil : parse_identifier [] = Error.
Proof. done. Qed.

Lemma ident_dense s r : ident_bytes s = true → dense (s ++ r).
Proof.
  intros Hs. destruct s as [|b s]; [done|]. apply dense_byte. apply andb_true_iff in Hs as [Hb _].
  unfold is_alpha, between in Hb. unfold Spec.is_multispace.
  destruct (Z.eqb_spec b 32) as [->|]; [done|]. destruct (Z.eqb_spec b 9) as [->|]; [done|].
  destruct (Z.eqb_spec b 13) as [->|]; [done|]. destruct (Z.eqb_spec b 10) as [->|]; [done|]. done.
Qed.

(** ** Tokens *)

Lemma ws_tok {A} (p : Parser A) t a r : dense (t ++ 32 :: r) → p (t ++ 32 :: r) = Done (32 :: r) a →
  ws p (tok t ++ r) = Done (skip r) a.
Proof. intros Hd Hp. unfold tok. rewrite <- app_assoc. cbn [app]. by erewrite ws_done; [|by rewrite Hd]. Qed.

Lemma ws_identifier s r : ident s = true → ws parse_identifier (name s ++ r) = Done (skip r) s.
Proof.
  intros Hs. unfold name. erewrite ws_tok; [|by apply ident_dense|by apply parse_identifier_done].
  by rewrite string_of_bytes_of.
Qed.

Lemma ws_keyword s r : dense (kw s ++ 32 :: r) → ws (Nom.tag_no_case (kw s)) (word s ++ r) = Done (skip r) (kw s).
Proof. intros Hd. unfold word. apply ws_tok; [done|]. apply (tag_no_case_done (kw s) (32 :: r)). Qed.

Lemma ws_char_done c r : Spec.is_multispace c = false → ws (Nom.char c) (tok [c] ++ r) = Done (skip r) c.
Proof. intros Hc. apply ws_tok; [by apply dense_byte|]. cbn. by rewrite Z.eqb_refl. Qed.

Lemma ws_char_error c b r : Spec.is_multispace b = false → b ≠ c → ws (Nom.char c) (b :: r) = Error.
Proof.
  intros Hb Hc. apply ws_error. rewrite skip_byte by done. cbn. destruct (Z.eqb_spec b c); done.
Qed.
End words.

(** * Values and operators read back

    Every condition that can be written is read back from its text, whatever
    follows it that does not go on with it. *)

Local Open Scope Z_scope.

(** ** Numbers *)

Lemma digits_value_snoc l x : digits_value (l ++ [x]) = digits_value l * 10 + (x - 48).
Proof. unfold digits_value. by rewrite foldl_app. Qed.

Lemma digits_fuel_spec fuel n : 0 <= n < 2 ^ Z.of_nat fuel →
  digits_value (digits_fuel fuel n) = n ∧ forallb is_digit (digits_fuel fuel n) = true.
Proof.
  revert n. induction fuel as [|fuel IH]; intros n Hn; cbn [digits_fuel].
  - cbn in *. split; [lia|done].
  - destruct (Z.ltb_spec n 10).
    + unfold digits_value, is_digit, between. cbn. split; [lia|]. rewrite andb_true_r. apply andb_true_iff. split; apply Z.leb_le; lia.
    + rewrite Nat2Z.inj_succ, Z.pow_succ_r in Hn by lia. pose proof (Z.div_mod n 10). pose proof (Z.mod_pos_bound n 10).
      destruct (IH (n / 10)) as [Hv Hd]; [split; [apply Z.div_pos; lia|apply Z.div_lt_upper_bound; lia]|].
      rewrite digits_value_snoc, Hv, forallb_app, Hd. split; [lia|]. cbn. rewrite andb_true_r. unfold is_digit, between.
      apply andb_true_iff. split; apply Z.leb_le; lia.
Qed.

Lemma digits_spec n : 0 <= n → digits_value (digits n) = n ∧ forallb is_digit (digits n) = true ∧ digits n ≠ [].
Proof.
  intros Hn. unfold digits. set (fuel := S (Z.to_nat (Z.log2 n))).
  destruct (digits_fuel_spec fuel n) as [Hv Hd].
  - split; [done|]. destruct (Z.eq_dec n 0) as [->|]; [unfold fuel; cbn; lia|].
    pose proof (Z.log2_spec n). pose proof (Z.log2_nonneg n). replace (Z.of_nat fuel) with (Z.succ (Z.log2 n)) by lia. lia.
  - split; [done|]. split; [done|]. unfold fuel. cbn [digits_fuel]. destruct (n <? 10); [done|]. by intros [_ ?]%app_nil.
Qed.

Lemma digit1_done s b r : forallb is_digit s = true → s ≠ [] → is_digit b = false →
  Spec.digit1 (s ++ b :: r) = Done (b :: r) s.
Proof. intros Hs Hne Hb. unfold Spec.digit1, Spec.span1. rewrite span_all by done. by destruct s. Qed.

Lemma usize_done n r bound : 0 <= n < bound →
  Spec.map_res Spec.digit1 (parse_digits bound) (digits n ++ 32 :: r) = Done (32 :: r) n.
Proof.
  intros Hn. destruct (digits_spec n) as (Hv & Hd & Hne); [lia|]. unfold Spec.map_res. rewrite digit1_done by done.
  unfold parse_digits. rewrite Hv. destruct (Z.ltb_spec n bound); [done|lia].
Qed.

Lemma digits_head n : 0 <= n → ∃ b s, digits n = b :: s ∧ is_digit b = true.
Proof.
  intros Hn. destruct (digits_spec n Hn) as (_ & Hd & Hne). destruct (digits n) as [|b s]; [done|]. exists b, s.
  by apply andb_true_iff in Hd as [Hd _].
Qed.

Section values.
Context `{UnicodeTables}.

(** *** Values *)

Definition literal (s : list Z) : ParsedValue :=
  if ends_with 42 s then VPrefix (string_of_bytes (trim_end_matches 42 s)) else VJson (VString (string_of_bytes s)).

Lemma string_literal_done s r : s ≠ [] → quotable s = true → parse_string_literal (quoted s ++ r) = Done r (literal s).
Proof.
  intros Hs Hq. unfold parse_string_literal, parse_content, quoted.
  cbv [Nom.map Nom.alt Nom.delimited Nom.char Nom.is_not spec_ops].
  unfold Spec.map at 1, Spec.map_res at 1. cbn [Spec.alt].
  assert (Spec.delimited (Spec.char 39) (Spec.is_not 39) (Spec.char 39) ((39 :: s ++ [39]) ++ r) = Done r s) as ->; [|done].
  unfold Spec.delimited, Spec.map, Spec.map_res, Spec.pair. cbn [app Spec.char Z.eqb Pos.eqb].
  unfold Spec.is_not, Spec.span1. rewrite <- app_assoc. cbn [app]. rewrite span_all by done.
  destruct s; [done|]. cbn. done.
Qed.

Lemma string_literal_error b r : b ≠ 39 → b ≠ 34 → parse_string_literal (b :: r) = Error.
Proof.
  intros H1 H2. unfold parse_string_literal, parse_content.
  cbv [Nom.map Nom.alt Nom.delimited Nom.char Nom.is_not spec_ops].
  unfold Spec.map, Spec.map_res. cbn [Spec.alt]. unfold Spec.delimited, Spec.map, Spec.map_res, Spec.pair, Spec.char.
  destruct (Z.eqb_spec b 39); [done|]. by destruct (Z.eqb_spec b 34).
Qed.

Lemma alt_error {A} (p : Parser A) ps i : p i = Error → Spec.alt (p :: ps) i = Spec.alt ps i.
Proof. intros Hp. cbn. by rewrite Hp. Qed.
Lemma alt_done {A} (p : Parser A) ps i r a : p i = Done r a → Spec.alt (p :: ps) i = Done r a.
Proof. intros Hp. cbn. by rewrite Hp. Qed.
Lemma dollar_error {A} (p : Parser A) b r : b ≠ 36 → Spec.preceded (Spec.char 36) p (b :: r) = Error.
Proof.
  intros Hb. unfold Spec.preceded, Spec.map, Spec.map_res, Spec.pair, Spec.char. by destruct (Z.eqb_spec b 36).
Qed.
Lemma map_error {A B} (p : Parser A) (f : A → B) i : p i = Error → Spec.map p f i = Error.
Proof. intros Hp. unfold Spec.map, Spec.map_res. by rewrite Hp. Qed.
Lemma map_done {A B} (p : Parser A) (f : A → B) i r a : p i = Done r a → Spec.map p f i = Done r (f a).
Proof. intros Hp. unfold Spec.map, Spec.map_res. by rewrite Hp. Qed.

(** An alternative that fails, and the one that does not. *)
Ltac not_this := rewrite alt_error.
Ltac this := apply alt_done.

Lemma word_error t b r : match t with a :: _ => lower_byte a ≠ lower_byte b | [] => False end →
  Spec.tag_no_case t (b :: r) = Error.
Proof. intros Ht. apply tag_no_case_error. by destruct t. Qed.

Lemma digit_lower b : is_digit b = true → lower_byte b = b ∧ 48 <= b <= 57.
Proof.
  unfold is_digit, between, lower_byte. intros [H1%Z.leb_le H2%Z.leb_le]%andb_true_iff. split; [|lia].
  destruct (Z.leb_spec 65 b); [lia|done].
Qed.

Lemma value_done v r : value_ok v = true → parse_value_entry (print_value v ++ 32 :: r) = Done (32 :: r) (VJson v).
Proof.
  intros Hv. unfold parse_value_entry. by_name. destruct v as [|b|n|s|l|m]; cbn [value_ok] in Hv; try done.
  - destruct b; vm_compute; reflexivity.
  - destruct n as [n| |]; try done. apply andb_true_iff in Hv as [Hn%Z.leb_le Hlt%Z.ltb_lt]. cbn [print_value].
    destruct (digits_head n Hn) as (b & s & Hd & Hb). pose proof (usize_done n r two63 (conj Hn Hlt)) as Hu. rewrite Hd in *.
    cbn [app] in *. apply digit_lower in Hb as [Hlow Hb].
    not_this; [|by apply string_literal_error; lia].
    not_this; [|by apply map_error, dollar_error; lia].
    not_this; [|apply map_error, word_error; rewrite Hlow; change (116 ≠ b); lia].
    not_this; [|apply map_error, word_error; rewrite Hlow; change (102 ≠ b); lia].
    this. unfold Spec.map_res in *. destruct (Spec.digit1 _); [|done..].
    destruct (parse_digits _ _) as [x|]; [|done]. by injection Hu as -> ->.
  - apply andb_true_iff in Hv as [[Hne Hq]%andb_true_iff He]. apply negb_true_iff in He, Hne. cbn [print_value].
    this. rewrite string_literal_done; [|by destruct s|done]. unfold literal. by rewrite He, string_of_bytes_of.
  - destruct m as [|[k v] m]; [done|]. destruct v as [| | |p| |]; try done. destruct m; [|done].
    apply andb_true_iff in Hv as [Hk%String.eqb_eq Hp]. subst k. cbn [print_value app].
    not_this; [|by apply string_literal_error; lia].
    this. apply (map_done _ (λ s, VJson (param_json s)) _ _ p). unfold Spec.preceded.
    rewrite (map_done _ _ _ (32 :: r) (36, p)); [done|]. unfold Spec.pair. cbn [Spec.char Z.eqb Pos.eqb].
    rewrite parse_identifier_done by done. by rewrite string_of_bytes_of.
Qed.

Lemma prefix_done pre r : quotable (bytes_of pre) = true → ends_with 42 (bytes_of pre) = false →
  parse_value_entry (quoted (bytes_of pre ++ [42]) ++ r) = Done r (VPrefix pre).
Proof.
  intros Hq He. unfold parse_value_entry. by_name. this. rewrite string_literal_done.
  - unfold literal, ends_with. rewrite last_snoc, bool_decide_true by done. f_equal. f_equal.
    unfold trim_end_matches. rewrite reverse_app. cbn [reverse app]. 
    assert (drop_while (λ b, b =? 42) (reverse [42] ++ reverse (bytes_of pre)) = reverse (bytes_of pre)) as ->;
      [|by rewrite reverse_involutive, string_of_bytes_of].
    cbn. unfold ends_with in He. destruct (reverse (bytes_of pre)) as [|b l] eqn:E; [done|]. cbn.
    destruct (Z.eqb_spec b 42) as [->|]; [|done]. exfalso. apply bool_decide_eq_false_1 in He. apply He.
    rewrite <- (reverse_involutive (bytes_of pre)), E, reverse_cons. apply last_snoc.
  - by intros [_ ?]%app_nil.
  - unfold quotable. rewrite forallb_app. unfold quotable in Hq. by rewrite Hq.
Qed.

Lemma starts_no_case_app t s r : starts_no_case t (s ++ 32 :: r) = true → Forall (λ b, lower_byte b ≠ 32) t →
  starts_no_case t s = true.
Proof.
  unfold starts_no_case. intros Ht%bool_decide_eq_true_1 Hsp. apply bool_decide_eq_true_2.
  revert s Ht. induction Hsp as [|a t Ha _ IH]; intros s; cbn; [done|].
  destruct s as [|b s]; cbn; [intros [= Hb _]; change (32 = lower_byte a) in Hb; congruence|].
  intros [= Hb Ht]. f_equal; [done|by apply IH].
Qed.

Lemma word_error_starts t s r : starts_no_case t s = false → Forall (λ b, lower_byte b ≠ 32) t →
  Spec.tag_no_case t (s ++ 32 :: r) = Error.
Proof.
  intros Hs Ht. unfold Spec.tag_no_case. destruct (bool_decide _) eqn:E; [|done].
  apply starts_no_case_app in E; [congruence|done].
Qed.

Lemma ident_value_done s r : value_ident s = true → parse_value_entry (bytes_of s ++ 32 :: r) = Done (32 :: r) (VIdentifier s).
Proof.
  intros [[Hi Ht%negb_true_iff]%andb_true_iff Hf%negb_true_iff]%andb_true_iff. unfold parse_value_entry. by_name.
  assert (∃ b l, bytes_of s = b :: l ∧ is_digit b = false ∧ b ≠ 39 ∧ b ≠ 34 ∧ b ≠ 36) as (b & l & Hb & Hd & H1 & H2 & H3).
  { unfold ident, ident_bytes in Hi. destruct (bytes_of s) as [|b l]; [done|]. exists b, l. split; [done|].
    apply andb_true_iff in Hi as [Hi _]. unfold is_alpha, is_digit, between in *.
    destruct (Z.leb_spec 48 b), (Z.leb_spec b 57), (Z.leb_spec 65 b), (Z.leb_spec b 90), (Z.leb_spec 97 b), (Z.leb_spec b 122),
      (Z.eqb_spec b 95); cbn in *; try done; repeat split; lia. }
  not_this; [|rewrite Hb; by apply string_literal_error].
  not_this; [|rewrite Hb; by apply map_error, dollar_error].
  not_this; [|apply map_error, word_error_starts; [done|apply (bool_decide_unpack _); vm_compute; exact I]].
  not_this; [|apply map_error, word_error_starts; [done|apply (bool_decide_unpack _); vm_compute; exact I]].
  not_this; [|rewrite Hb; unfold Spec.map_res, Spec.digit1, Spec.span1; cbn; by rewrite Hd].
  this. apply (map_done _ VIdentifier). rewrite parse_identifier_done by done. by rewrite string_of_bytes_of.
Qed.

(** *** Operators *)

Lemma print_op_dense t r : dense (print_op t ++ r).
Proof. by destruct t. Qed.

Lemma cmp_op_done t r : ws parse_cmp_op (print_op t ++ r) = Done (skip r) (kw (cmp_text t)).
Proof. apply (ws_done _ _ (32 :: r)). by destruct t. Qed.

Lemma param_op_done t r : ws parse_param_cmp_op (print_op t ++ r) = Done (skip r) (kw (cmp_text t)).
Proof. apply (ws_done _ _ (32 :: r)). by destruct t. Qed.

Lemma cmp_type_text t : cmp_type (kw (cmp_text t)) = Some t ∧ is_in_word (kw (cmp_text t)) = false.
Proof. by destruct t. Qed.
End values.

(** * Leaves read back

    Every condition that can be written is read back from its text, whatever
    follows it that does not go on with it. *)

Local Open Scope Z_scope.

Section leaves.
Context `{UnicodeTables}.

Lemma value_head v r : value_ok v = true → dense (print_value v ++ 32 :: r).
Proof.
  intros Hv. destruct v as [|b|n|s|l|m]; cbn [value_ok] in Hv; try done.
  - by destruct b.
  - destruct n as [n| |]; try done. apply andb_true_iff in Hv as [Hn%Z.leb_le _]. cbn [print_value].
    destruct (digits_head n Hn) as (b & s & -> & Hb). apply dense_byte. apply digit_lower in Hb as [_ Hb]. unfold Spec.is_multispace.
    destruct (Z.eqb_spec b 32); [lia|]. destruct (Z.eqb_spec b 9); [lia|]. destruct (Z.eqb_spec b 13); [lia|].
    destruct (Z.eqb_spec b 10); [lia|done].
  - destruct m as [|[k [| | |p| |]] [|]]; done.
Qed.

Lemma ws_value v r : value_ok v = true → ws parse_value_entry (tok (print_value v) ++ r) = Done (skip r) (VJson v).
Proof. intros Hv. apply ws_tok; [by apply value_head|by apply value_done]. Qed.

Lemma name_dense s r : ident s = true → dense (name s ++ r).
Proof. intros Hs. unfold name, tok. rewrite <- app_assoc. by apply ident_dense. Qed.

(** [?] on a parser that is done. *)
Ltac then_ H := rewrite H.

(** A field compared with what [parse_value_entry] reads as [v]. *)
Lemma field_leaf f t value v r : ident f = true → ws parse_value_entry (value ++ r) = Done (skip r) v → dense (value ++ r) →
  parse_leaf_field_lhs (name f ++ print_op t ++ value ++ r) = Done (skip r)
    (match v with
     | VJson v => CmpField t f v
     | VPrefix v => CmpPrefix f v
     | VIdentifier right_field => JoinCandidate f right_field
     end).
Proof.
  intros Hf Hv Hd. unfold parse_leaf_field_lhs. change (@Nom.tuple3 spec_ops) with (@Spec.tuple3).
  unfold Spec.tuple3, Spec.map, Spec.map_res, Spec.pair. rewrite ws_identifier by done.
  rewrite print_op_dense, cmp_op_done. cbn beta iota zeta. rewrite Hd, Hv. cbn [fst snd]. rewrite (proj1 (cmp_type_text t)). by destruct v.
Qed.

Lemma param_leaf p t v r : ident p = true → value_ok v = true →
  parse_leaf_param_lhs (tok (36 :: bytes_of p) ++ print_op t ++ tok (print_value v) ++ r) = Done (skip r) (CmpParam t p v).
Proof.
  intros Hp Hv. unfold parse_leaf_param_lhs. unfold tok at 1. rewrite <- !app_assoc. cbn [app].
  rewrite (ws_done _ _ (bytes_of p ++ 32 :: print_op t ++ tok (print_value v) ++ r) 36) by done.
  rewrite (ident_dense (bytes_of p)) by done. rewrite parse_identifier_done by done.
  assert (ws parse_param_cmp_op (32 :: print_op t ++ tok (print_value v) ++ r) =
    Done (skip (tok (print_value v) ++ r)) (kw (cmp_text t))) as ->.
  { rewrite <- param_op_done. by rewrite !ws_eq_spec, skip_space. }
  destruct (cmp_type_text t) as [Ht ->]. rewrite string_of_bytes_of.
  assert (skip (tok (print_value v) ++ r) = tok (print_value v) ++ r) as ->.
  { unfold tok. rewrite <- app_assoc. by apply value_head. }
  by rewrite ws_value, Ht.
Qed.

(** What is no [IN (SELECT ...)]. *)
Lemma no_subquery_here w f b r : ident f = true → Spec.is_multispace b = false → lower_byte b ≠ 105 →
  parse_in_subquery_leaf w (name f ++ b :: r) = Error.
Proof.
  intros Hf Hb Hi. unfold parse_in_subquery_leaf. rewrite ws_identifier, skip_byte by done.
  rewrite (ws_error (Nom.alt _)); [done|]. rewrite skip_byte by done. by_name. cbn [Spec.alt].
  by rewrite !word_error.
Qed.

Lemma no_subquery_byte w b r : is_alpha b = false → b ≠ 95 → Spec.is_multispace b = false →
  parse_in_subquery_leaf w (b :: r) = Error.
Proof.
  intros Ha Hb Hs. unfold parse_in_subquery_leaf. rewrite ws_error; [done|]. rewrite skip_byte by done.
  by apply parse_identifier_error.
Qed.

Lemma no_bracket {A} (p : Parser A) b r : Spec.is_multispace b = false → b ≠ 40 →
  Spec.delimited (ws (Nom.char 40)) p (ws (Nom.char 41)) (b :: r) = Error.
Proof. intros Hs Hb. unfold Spec.delimited. apply map_error. unfold Spec.pair. by rewrite ws_char_error. Qed.

Lemma no_bracket_name {A} (p : Parser A) f r : ident f = true →
  Spec.delimited (ws (Nom.char 40)) p (ws (Nom.char 41)) (name f ++ r) = Error.
Proof.
  intros Hf. pose proof (name_dense f r Hf) as Hd. unfold name, tok in *. unfold ident, ident_bytes in Hf.
  destruct (bytes_of f) as [|b s]; [done|]. cbn [app] in *. apply no_bracket.
  - unfold dense, skip in Hd. cbn in Hd. destruct (Spec.is_multispace b); [|done].
    pose proof (span_app Spec.is_multispace ((s ++ [32]) ++ r)) as Hs. apply (f_equal length) in Hs, Hd.
    rewrite length_app in Hs. cbn in Hd. lia.
  - intros ->. done.
Qed.

Lemma no_param f r : ident f = true → parse_leaf_param_lhs (name f ++ r) = Error.
Proof.
  intros Hf. pose proof (name_dense f r Hf) as Hd. unfold parse_leaf_param_lhs. rewrite ws_error; [done|]. rewrite Hd.
  unfold name, tok. unfold ident, ident_bytes in Hf. destruct (bytes_of f) as [|b s]; [done|]. cbn.
  destruct (Z.eqb_spec b 36) as [->|]; done.
Qed.

Definition is_leaf (c : Cond) : bool := match c with InSubquery _ _ _ _ | CAnd _ | COr _ => false | _ => true end.

(** A term by its alternatives. *)
Lemma term_leaf_field p f x r c : ident f = true → (∃ b y, x = b :: y ∧ Spec.is_multispace b = false ∧ lower_byte b ≠ 105) →
  parse_leaf_field_lhs (name f ++ x) = Done r c → parse_term p (name f ++ x) = Done r c.
Proof.
  intros Hf (b & y & -> & Hb & Hi) Hc. unfold parse_term. by_name.
  rewrite alt_error by by apply no_subquery_here. rewrite alt_error by by apply no_bracket_name.
  apply alt_done. unfold parse_leaf_predicate. by_name. rewrite alt_error by by apply no_param. by apply alt_done.
Qed.

Lemma print_op_head t x : ∃ b y, print_op t ++ x = b :: y ∧ Spec.is_multispace b = false ∧ lower_byte b ≠ 105.
Proof. destruct t; by eexists _, _. Qed.

Lemma leaf_done p c r : is_leaf c = true → printable c = true →
  parse_term p (print_cond Conjunct c ++ r) = Done (skip r) c.
Proof.
  intros Hl Hc. destruct c as [t f v|f pre|t pa v|x y|l pr tb w|l|l]; try done; cbn [printable print_cond] in *;
    apply andb_true_iff in Hc as [Hf Hv]; rewrite <- !app_assoc.
  - apply term_leaf_field; [done|apply print_op_head|].
    apply (field_leaf f t (tok (print_value v)) (VJson v)); [done|by apply ws_value|].
    unfold tok. rewrite <- app_assoc. by apply value_head.
  - apply andb_true_iff in Hf as [Hf Hq]. apply negb_true_iff in Hv. apply term_leaf_field; [done|apply (print_op_head TEq)|].
    apply (field_leaf f TEq (tok (quoted (bytes_of pre ++ [42]))) (VPrefix pre)); [done|apply ws_tok; [done|by apply prefix_done]|done].
  - unfold parse_term. by_name. rewrite alt_error by by apply no_subquery_byte.
    rewrite alt_error by by apply no_bracket. apply alt_done. unfold parse_leaf_predicate. by_name. apply alt_done.
    by apply param_leaf.
  - apply term_leaf_field; [done|apply (print_op_head TEq)|].
    assert (ident y = true) as Hi by (apply andb_true_iff in Hv as [[? _]%andb_true_iff _]; done).
    apply (field_leaf x TEq (name y) (VIdentifier y)); [done| |by apply name_dense].
    apply ws_tok; [by apply ident_dense|by apply ident_value_done].
Qed.
End leaves.
