(* ===== verification/ParseConds.v ===== *)
(** * Conditions read back

    Every condition that has a form is read back from its text, whatever
    follows it that cannot go on with it: lists first, then by induction. *)

From S2P Require Import Prelude Platform Value Plan Combinators Convert ConvertLaws Print ParseWords.
Local Open Scope Z_scope.

(** ** Lists *)

Section lists.
Context `{UnicodeTables}.

Lemma skip_suffix i : skip i `suffix_of` i.
Proof. eexists. symmetry. apply (span_app Spec.is_multispace). Qed.
Lemma skip_length i : (length (skip i) ≤ length i)%nat.
Proof. apply suffix_length, skip_suffix. Qed.
Lemma skip_skip i : skip (skip i) = skip i.
Proof.
  induction i as [|b i IH]; [done|]. unfold skip in *. cbn. destruct (Spec.is_multispace b) eqn:E; cbn; [done|]. by rewrite E.
Qed.

Lemma separated_cons sp t ts : separated sp (t :: ts) = t ++ concat (map (app sp) ts).
Proof.
  revert t. induction ts as [|u ts IH]; intros t; cbn; [by rewrite app_nil_r|]. by rewrite <- app_assoc, <- IH.
Qed.

Context {A B} (sep : Parser A) (p : Parser B) (sp : list Z) (ok : list Z → Prop).
Context (sp_nonempty : sp ≠ []) (sp_dense : ∀ r, dense (sp ++ r)) (sp_ok : ∀ r, ok (sp ++ r)).
Context (sep_done : ∀ r, ∃ a, sep (sp ++ r) = Done (skip r) a).

(** An item reads as its value before what may follow it. *)
Definition item_read (x : list Z * B) : Prop := ∀ r, ok r → dense (x.1 ++ r) ∧ p (x.1 ++ r) = Done (skip r) x.2.

(** Nothing more of the list. *)
Definition list_ends (r : list Z) : Prop := ok r ∧ ∀ fuel, Spec.more sep p (S fuel) (skip r) = Done (skip r) [].

Lemma items_ok (xs : list (list Z * B)) r : ok r → ok (concat (map (app sp) (map fst xs)) ++ r).
Proof. destruct xs as [|x xs]; [done|]. intros _. cbn. rewrite <- !app_assoc. apply sp_ok. Qed.

Lemma more_done (xs : list (list Z * B)) r fuel : Forall item_read xs → list_ends r →
  (length (skip (concat (map (app sp) (map fst xs)) ++ r)) < fuel)%nat →
  Spec.more sep p fuel (skip (concat (map (app sp) (map fst xs)) ++ r)) = Done (skip r) (map snd xs).
Proof.
  intros Hxs [Hok Hr]. revert fuel. induction Hxs as [|x xs Hx _ IH]; intros [|fuel] Hf; [lia|apply Hr|lia|].
  cbn [map concat] in *. rewrite <- !app_assoc, sp_dense in *. cbn [Spec.more].
  destruct (Hx (concat (map (app sp) (map fst xs)) ++ r)) as [Hd Hp]; [by apply items_ok|].
  destruct (sep_done (x.1 ++ concat (map (app sp) (map fst xs)) ++ r)) as [a ->]. rewrite Hd.
  rewrite (length_app sp) in *. assert (0 < length sp)%nat by (destruct sp; [done|cbn; lia]). set (n := length (x.1 ++ _)) in *.
  destruct (Nat.eqb_spec n (length sp + n)); [lia|]. rewrite Hp, IH; [done|].
  pose proof (skip_length (concat (map (app sp) (map fst xs)) ++ r)). subst n. rewrite length_app in Hf. lia.
Qed.

Lemma separated_done x xs r : Forall item_read (x :: xs) → list_ends r →
  Spec.separated_list1 sep p (separated sp (map fst (x :: xs)) ++ r) = Done (skip r) (map snd (x :: xs)).
Proof.
  intros [Hx Hxs]%Forall_cons Hr. cbn [map]. rewrite separated_cons, <- app_assoc. unfold Spec.separated_list1.
  destruct (Hx (concat (map (app sp) (map fst xs)) ++ r)) as [_ ->]; [by apply items_ok, Hr|].
  rewrite more_done by (done || lia). done.
Qed.

(** The items as what is written of them and what it is read as. *)
Lemma separated_values {C} (text : C → list Z) (val : C → B) x xs r :
  Forall (λ c, ∀ r, ok r → dense (text c ++ r) ∧ p (text c ++ r) = Done (skip r) (val c)) (x :: xs) → list_ends r →
  Spec.separated_list1 sep p (separated sp (map text (x :: xs)) ++ r) = Done (skip r) (map val (x :: xs)).
Proof.
  intros Hxs Hr. pose proof (separated_done (text x, val x) (map (λ c, (text c, val c)) xs) r) as Hs.
  change (_ :: map _ xs) with (map (λ c, (text c, val c)) (x :: xs)) in Hs. rewrite !map_map in Hs. cbn [fst snd] in Hs.
  apply Hs; [|done]. apply Forall_map. exact Hxs.
Qed.

Lemma separated_texts (text : B → list Z) x xs r :
  Forall (λ c, ∀ r, ok r → dense (text c ++ r) ∧ p (text c ++ r) = Done (skip r) c) (x :: xs) → list_ends r →
  Spec.separated_list1 sep p (separated sp (map text (x :: xs)) ++ r) = Done (skip r) (x :: xs).
Proof. intros Hxs Hr. rewrite <- (map_id (x :: xs)) at 2. by apply separated_values. Qed.
End lists.

(** ** Where a condition ends *)

Section ends.
Context `{UnicodeTables}.

(** What may follow a condition: nothing that starts like [AND] or [OR], or
    the clause [ORDER BY]. *)
Definition after_condition (r : list Z) : Prop :=
  match skip r with
  | [] => True
  | b :: _ => (lower_byte b ≠ 97 ∧ lower_byte b ≠ 111) ∨ ∃ r', skip r = word "ORDER BY" ++ r'
  end.

Definition no_and (r : list Z) : Prop := Spec.tag_no_case (kw "AND") (skip r) = Error.

Lemma after_no_and r : after_condition r → no_and r.
Proof.
  unfold after_condition, no_and. destruct (skip r) as [|b s]; [done|]. intros [[Ha _]|[r' ->]]; [by apply word_error|done].
Qed.

Lemma ws_keyword_error k i : Spec.tag_no_case (kw k) (skip i) = Error → ws (Nom.tag_no_case (kw k)) i = Error.
Proof. intros Hk. by apply ws_error. Qed.

(** [ORDER BY] reads as [OR], with no condition behind it. *)
Lemma order_by_no_leaf r : parse_leaf_field_lhs (name "DER" ++ word "BY" ++ r) = Error.
Proof.
  unfold parse_leaf_field_lhs. change (@Nom.tuple3 spec_ops) with (@Spec.tuple3).
  unfold Spec.tuple3, Spec.map, Spec.map_res, Spec.pair. rewrite ws_identifier by done.
  rewrite ws_error; [done|]. unfold parse_cmp_op. by_name.
  by repeat (rewrite alt_error by done).
Qed.

Lemma order_by_no_term p r : parse_term p (name "DER" ++ word "BY" ++ r) = Error.
Proof.
  unfold parse_term. by_name. rewrite alt_error by by apply (no_subquery_here _ "DER" 66 (89 :: 32 :: r)).
  rewrite alt_error by by apply no_bracket_name. rewrite alt_error; [done|]. unfold parse_leaf_predicate. by_name.
  rewrite alt_error by by apply no_param. by rewrite alt_error by apply order_by_no_leaf.
Qed.

Lemma or_ends r : after_condition r →
  list_ends (ws (Nom.tag_no_case (kw "OR"))) (parse_and_expression parse_or_expression) no_and r.
Proof.
  intros Hr. split; [by apply after_no_and|]. intros fuel. cbn [Spec.more]. unfold after_condition in Hr.
  destruct (skip r) as [|b s] eqn:E; [done|]. destruct Hr as [[_ Ho]|[r' Hs]].
  - rewrite ws_keyword_error; [done|]. rewrite <- E, skip_skip, E. by apply word_error.
  - rewrite Hs. change (word "ORDER BY" ++ r') with (kw "OR" ++ name "DER" ++ word "BY" ++ r').
    assert (ws (Nom.tag_no_case (kw "OR")) (kw "OR" ++ name "DER" ++ word "BY" ++ r') =
      Done (name "DER" ++ word "BY" ++ r') (kw "OR")) as ->; [done|].
    destruct (Nat.eqb_spec (length (name "DER" ++ word "BY" ++ r')) (length (kw "OR" ++ name "DER" ++ word "BY" ++ r')));
      [rewrite (length_app (kw "OR")) in *; cbn in *; lia|].
    unfold parse_and_expression. change (@Nom.separated_list1 spec_ops) with (@Spec.separated_list1).
    unfold Spec.separated_list1. by rewrite order_by_no_term.
Qed.

Lemma and_ends r : no_and r → list_ends (ws (Nom.tag_no_case (kw "AND"))) (parse_term parse_or_expression) (λ _, True) r.
Proof.
  intros Hr. split; [done|]. intros fuel. cbn [Spec.more]. by rewrite ws_keyword_error by by rewrite skip_skip.
Qed.
End ends.

(** * Conditions read back, whole

    By induction on the condition: as a term, among conjuncts, by itself. *)

Local Open Scope Z_scope.

Section conditions.
Context `{UnicodeTables}.

(** The parser without its fuel. *)
Lemma parse_or_unfold i : parse_or_expression i =
  let! r, terms := Spec.separated_list1 (ws (Nom.tag_no_case (kw "OR"))) (parse_and_expression parse_or_expression) i in
  Done r (match terms with [t] => t | _ => COr terms end).
Proof.
  unfold parse_or_expression at 1. cbn [parse_or_fuel]. change (@Nom.separated_list1 spec_ops) with (@Spec.separated_list1).
  rewrite (separated_list1_agree (S (length i)) _ _ (parse_and_expression parse_or_expression)); [done| | | |lia].
  - apply ws_suffix. apply tag_no_case_suffix.
  - apply parse_and_expression_suffix, parse_or_fuel_suffix.
  - apply parse_and_expression_agree; [apply parse_or_fuel_suffix|]. intros j Hj. apply parse_or_fuel_enough; lia.
Qed.

Lemma print_word_dense k r : dense (kw k ++ 32 :: r) → skip (word k ++ r) = word k ++ r.
Proof. unfold word, tok. by rewrite <- app_assoc. Qed.

(** *** Space before a condition *)

Lemma ws_space {A} (p : Parser A) i : ws p (32 :: i) = ws p i.
Proof. by rewrite !ws_eq_spec, skip_space. Qed.

Lemma in_subquery_space w i : parse_in_subquery_leaf w (32 :: i) = parse_in_subquery_leaf w i.
Proof. unfold parse_in_subquery_leaf. by rewrite ws_space. Qed.
Lemma bracket_space {A B C} (p : Parser A) (q : Parser B) (s : Parser C) i :
  Spec.delimited (ws p) q s (32 :: i) = Spec.delimited (ws p) q s i.
Proof. unfold Spec.delimited, Spec.map, Spec.map_res. unfold Spec.pair at 1 3. by rewrite ws_space. Qed.
Lemma param_lhs_space i : parse_leaf_param_lhs (32 :: i) = parse_leaf_param_lhs i.
Proof. unfold parse_leaf_param_lhs. by rewrite ws_space. Qed.
Lemma field_lhs_space i : parse_leaf_field_lhs (32 :: i) = parse_leaf_field_lhs i.
Proof.
  unfold parse_leaf_field_lhs. change (@Nom.tuple3 spec_ops) with (@Spec.tuple3).
  unfold Spec.tuple3, Spec.map, Spec.map_res. unfold Spec.pair at 1 3. by rewrite ws_space.
Qed.

Lemma term_space p i : parse_term p (32 :: i) = parse_term p i.
Proof.
  unfold parse_term, parse_leaf_predicate. change (@Nom.alt spec_ops) with (@Spec.alt).
  change (@Nom.delimited spec_ops) with (@Spec.delimited). cbn [Spec.alt].
  by rewrite in_subquery_space, bracket_space, param_lhs_space, field_lhs_space.
Qed.

Lemma or_space i : parse_or_expression (32 :: i) = parse_or_expression i.
Proof.
  rewrite !parse_or_unfold. unfold Spec.separated_list1, parse_and_expression.
  change (@Nom.separated_list1 spec_ops) with (@Spec.separated_list1). unfold Spec.separated_list1. by rewrite term_space.
Qed.

(** *** How a condition starts *)

Lemma cond_dense place c r : printable c = true → dense (print_cond place c ++ r).
Proof.
  revert place r. induction c as [t f v|f p|t p v|x y|x p t w _|l IH|l IH] using cond_ind'; intros place r Hc;
    cbn [printable print_cond] in *; rewrite <- ?app_assoc; try (by apply dense_byte);
    try (apply name_dense; by repeat apply andb_true_iff in Hc as [Hc _]).
  - destruct place; try (by apply dense_byte); cbn [bracketed]; destruct IH as [|c l Hh _]; [done| |done|];
      apply andb_true_iff in Hc as [_ [Hc _]%andb_true_iff]; cbn [map]; rewrite separated_cons, <- app_assoc; by apply Hh.
  - destruct place; try (by apply dense_byte); cbn [bracketed]; destruct IH as [|c l Hh _]; [done|];
      apply andb_true_iff in Hc as [_ [Hc _]%andb_true_iff]; cbn [map]; rewrite separated_cons, <- app_assoc; by apply Hh.
Qed.

(** ** The three places *)

Definition reads_term (c : Cond) : Prop :=
  ∀ r, parse_term parse_or_expression (print_cond Conjunct c ++ r) = Done (skip r) c.
Definition reads_conjuncts (c : Cond) : Prop :=
  ∀ r, no_and r → parse_and_expression parse_or_expression (print_cond Disjunct c ++ r) = Done (skip r) c.
Definition reads_alone (c : Cond) : Prop :=
  ∀ r, after_condition r → parse_or_expression (print_cond Alone c ++ r) = Done (skip r) c.

Lemma and_separated x xs r : Forall (λ c, printable c = true ∧ reads_term c) (x :: xs) → no_and r →
  parse_and_expression parse_or_expression (separated (word "AND") (map (print_cond Conjunct) (x :: xs)) ++ r) =
    Done (skip r) (match x :: xs with [t] => t | _ => CAnd (x :: xs) end).
Proof.
  intros Hl Hr. unfold parse_and_expression. change (@Nom.separated_list1 spec_ops) with (@Spec.separated_list1).
  rewrite (separated_texts _ _ (word "AND") (λ _, True)); [done|done|done|done|by eexists| |by apply and_ends].
  eapply Forall_impl; [exact Hl|]. intros c [Hc Hread] s _. split; [by apply cond_dense|apply Hread].
Qed.

Lemma or_separated x xs r : Forall (λ c, printable c = true ∧ reads_conjuncts c) (x :: xs) → after_condition r →
  parse_or_expression (separated (word "OR") (map (print_cond Disjunct) (x :: xs)) ++ r) =
    Done (skip r) (match x :: xs with [t] => t | _ => COr (x :: xs) end).
Proof.
  intros Hl Hr. rewrite parse_or_unfold.
  rewrite (separated_texts _ _ (word "OR") no_and); [done|done|done|done|by eexists| |by apply or_ends].
  eapply Forall_impl; [exact Hl|]. intros c [Hc Hread] s Hs. split; [by apply cond_dense|by apply Hread].
Qed.

(** A term is a conjunction of one, a conjunction a disjunction of one. *)
Lemma term_conjuncts c : printable c = true → print_cond Disjunct c = print_cond Conjunct c → reads_term c → reads_conjuncts c.
Proof. intros Hc He Ht r Hr. rewrite He. apply (and_separated c []); [|done]. by repeat constructor. Qed.
Lemma conjuncts_alone c : printable c = true → print_cond Alone c = print_cond Disjunct c → reads_conjuncts c → reads_alone c.
Proof. intros Hc He Ha r Hr. rewrite He. apply (or_separated c []); [|done]. by repeat constructor. Qed.

Lemma closed_after r : after_condition (word ")" ++ r).
Proof. by left. Qed.

Lemma no_subquery_bracket w r : parse_in_subquery_leaf w (word "(" ++ r) = Error.
Proof. by apply no_subquery_byte. Qed.

Lemma bracket_done {A} (p : Parser A) t r a : dense (t ++ word ")" ++ r) → p (t ++ word ")" ++ r) = Done (word ")" ++ r) a →
  Spec.delimited (ws (Nom.char 40)) p (ws (Nom.char 41)) (word "(" ++ t ++ word ")" ++ r) = Done (skip r) a.
Proof.
  intros Hd Hp. unfold Spec.delimited, Spec.map, Spec.map_res, Spec.pair.
  change (word "(") with (tok [40]). rewrite ws_char_done by done. rewrite Hd, Hp.
  change (word ")") with (tok [41]). by rewrite ws_char_done by done.
Qed.

(** In brackets, what reads alone reads as a term. *)
Lemma bracketed_term c t r : dense (t ++ word ")" ++ r) → parse_or_expression (t ++ word ")" ++ r) = Done (word ")" ++ r) c →
  parse_term parse_or_expression (bracketed true t ++ r) = Done (skip r) c.
Proof.
  intros Hd Hc. cbn [bracketed]. rewrite <- !app_assoc. unfold parse_term. change (@Nom.alt spec_ops) with (@Spec.alt).
  rewrite alt_error by apply no_subquery_bracket. apply alt_done. by apply bracket_done.
Qed.

(** *** [WHERE] *)

(** A clause that is there, and one that is not. *)
Definition where_text (w : option Cond) : list Z := match w with Some c => word "WHERE" ++ print_cond Alone c | None => [] end.

Lemma where_done w r : (∀ c, w = Some c → reads_alone c) → after_condition r →
  Spec.tag_no_case (kw "WHERE") (skip r) = Error →
  Spec.opt (ws parse_where_logic) (skip (where_text w ++ r)) = Done (skip r) w.
Proof.
  intros Hw Hr Hn. unfold Spec.opt. rewrite ws_eq_spec, skip_skip. unfold parse_where_logic, where_logic.
  change (@Nom.preceded spec_ops) with (@Spec.preceded). change (@Nom.tag_no_case spec_ops) with Spec.tag_no_case.
  change (@Nom.cut spec_ops) with (@Spec.cut). unfold Spec.preceded, Spec.map, Spec.map_res, Spec.pair, Spec.cut.
  destruct w as [c|]; cbn [where_text app]; [|by rewrite Hn].
  unfold word, tok. rewrite <- !app_assoc. change (skip (kw "WHERE" ++ ?x)) with (kw "WHERE" ++ x).
  rewrite tag_no_case_done. cbn [app]. rewrite or_space, Hw by done. cbn. by rewrite skip_skip.
Qed.

Lemma in_subquery_done l p t w r : ident l = true → ident p = true → ident t = true →
  (∀ c, w = Some c → printable c = true ∧ reads_alone c) →
  parse_in_subquery_leaf parse_where_logic (print_cond Conjunct (InSubquery l p t w) ++ r) = Done (skip r) (InSubquery l p t w).
Proof.
  intros Hl Hp Ht Hw. cbn [print_cond]. fold (where_text w). rewrite <- !app_assoc. unfold parse_in_subquery_leaf.
  rewrite ws_identifier by done.
  assert (∀ x, ws (Nom.alt [Nom.tag_no_case (kw "INSIDE"); Nom.tag_no_case (kw "IN")]) (skip (word "IN" ++ word "(" ++ x)) =
    Done (skip (word "(" ++ x)) (kw "IN")) as -> by done.
  change (skip (word "(" ++ ?x)) with (tok [40] ++ x). rewrite ws_char_done by done.
  rewrite (print_word_dense "SELECT"), ws_keyword by done. rewrite (print_word_dense "VALUE"), ws_keyword by done.
  rewrite name_dense, ws_identifier by done. rewrite (print_word_dense "FROM"), ws_keyword by done.
  rewrite name_dense, ws_identifier by done. change (@Nom.opt spec_ops) with (@Spec.opt).
  rewrite where_done; [|by intros; apply Hw|apply closed_after|done].
  change (skip (word ")" ++ r)) with (tok [41] ++ r). by rewrite ws_char_done by done.
Qed.

(** ** Every condition *)

Lemma leaf_places c : is_leaf c = true → print_cond Alone c = print_cond Conjunct c ∧ print_cond Disjunct c = print_cond Conjunct c.
Proof. by destruct c. Qed.

Lemma cond_reads c : printable c = true → reads_term c ∧ reads_conjuncts c ∧ reads_alone c.
Proof.
  (* from a term on *)
  assert (∀ c, printable c = true → print_cond Disjunct c = print_cond Conjunct c → print_cond Alone c = print_cond Disjunct c →
    reads_term c → reads_term c ∧ reads_conjuncts c ∧ reads_alone c) as Hterm.
  { intros c' Hc Hd Ha Ht. pose proof (term_conjuncts c' Hc Hd Ht). by auto using conjuncts_alone. }
  induction c as [t f v|f p|t p v|x y|x p t w IH|l IH|l IH] using cond_ind'; intros Hc;
    try (apply Hterm; [done..|]; intros r; by apply leaf_done).
  - apply Hterm; [done..|]. intros r. cbn [printable] in Hc. apply andb_true_iff in Hc as [[[Hx Hp]%andb_true_iff Ht]%andb_true_iff Hw].
    unfold parse_term. change (@Nom.alt spec_ops) with (@Spec.alt). apply alt_done. apply in_subquery_done; [done..|].
    intros c ->. split; [done|]. by apply IH.
  - destruct l as [|c [|c' l]]; try done. cbn [printable] in Hc. apply andb_true_iff in Hc as [_ Hl].
    assert (reads_conjuncts (CAnd (c :: c' :: l))) as Ha.
    { intros r Hr. cbn [print_cond bracketed]. rewrite and_separated; [done| |done].
      apply Forall_forall. intros d Hd. rewrite Forall_forall in IH. rewrite forallb_forall in Hl.
      assert (printable d = true) by (apply Hl, list_elem_of_In; done). split; [done|]. by apply IH. }
    assert (printable (CAnd (c :: c' :: l)) = true) as Hp by done.
    pose proof (conjuncts_alone _ Hp eq_refl Ha) as Ho. split; [|done].
    intros r. apply (bracketed_term _ (separated (word "AND") (map (print_cond Conjunct) (c :: c' :: l)))).
    + by apply (cond_dense Alone (CAnd (c :: c' :: l))).
    + apply Ho, closed_after.
  - destruct l as [|c [|c' l]]; try done. cbn [printable] in Hc. apply andb_true_iff in Hc as [_ Hl].
    assert (reads_alone (COr (c :: c' :: l))) as Ho.
    { intros r Hr. cbn [print_cond bracketed]. rewrite or_separated; [done| |done].
      apply Forall_forall. intros d Hd. rewrite Forall_forall in IH. rewrite forallb_forall in Hl.
      assert (printable d = true) by (apply Hl, list_elem_of_In; done). split; [done|]. by apply IH. }
    assert (printable (COr (c :: c' :: l)) = true) as Hp by done.
    assert (reads_term (COr (c :: c' :: l))) as Ht.
    { intros r. apply (bracketed_term _ (separated (word "OR") (map (print_cond Disjunct) (c :: c' :: l)))).
      - by apply (cond_dense Alone (COr (c :: c' :: l))).
      - apply Ho, closed_after. }
    split; [done|]. split; [|done]. by apply term_conjuncts.
Qed.
End conditions.
