(* ===== verification/ReadBack.v ===== *)
(** * Queries read back

    A query written out is read as its parts, whatever follows it that does
    not start like a clause. *)

From S2P Require Import Prelude Platform Value Plan Combinators Convert ConvertLaws Print ParseWords ParseConds.
Local Open Scope Z_scope.

Section clauses.
Context `{UnicodeTables}.

(** ** What follows *)

(** The text does not go on with one of these bytes, whatever their case. *)
Definition starts_not (bs : list Z) (r : list Z) : bool :=
  match skip r with [] => true | b :: _ => negb (existsb (Z.eqb (lower_byte b)) bs) end.

(** What may follow a query: what starts with a comma, like a clause or like
    [AND] or [OR], goes on with it. *)
Definition after_query (r : list Z) : bool := starts_not (kw "aowls,") r.

Lemma starts_not_sub bs bs' r : forallb (λ b, existsb (Z.eqb b) bs) bs' = true → starts_not bs r = true → starts_not bs' r = true.
Proof.
  unfold starts_not. destruct (skip r) as [|b s]; [done|]. intros Hsub Hn. apply negb_true_iff in Hn. apply negb_true_iff.
  apply not_true_iff_false. intros (x & Hx & Heq%Z.eqb_eq)%existsb_exists. rewrite forallb_forall in Hsub.
  specialize (Hsub x Hx). rewrite <- Heq in Hsub. congruence.
Qed.

Lemma starts_not_keyword k r : starts_not (map lower_byte (take 1 (kw k))) r = true → kw k ≠ [] →
  Spec.tag_no_case (kw k) (skip r) = Error.
Proof.
  unfold starts_not. destruct (kw k) as [|a t] eqn:Ek; [done|]. intros Hn _. destruct (skip r) as [|b s]; [done|].
  apply word_error. intros Heq. cbn in Hn. by rewrite Heq, Z.eqb_refl in Hn.
Qed.

Lemma starts_not_after r : starts_not (kw "ao") r = true → after_condition r.
Proof.
  unfold starts_not, after_condition. destruct (skip r) as [|b s]; [done|]. intros Hn%negb_true_iff. left. cbn in Hn.
  apply orb_false_iff in Hn as [Ha%Z.eqb_neq Hn]. rewrite orb_false_r in Hn. by apply Z.eqb_neq in Hn.
Qed.

(** *** An optional clause *)

Lemma clause_done {A} k (p : Parser A) x r a : dense (kw k ++ 32 :: x) → p (32 :: x) = Done (skip r) a →
  Spec.opt (ws (Nom.preceded (Nom.tag_no_case (kw k)) p)) (skip (word k ++ x)) = Done (skip r) (Some a).
Proof.
  intros Hd Hp. unfold Spec.opt. rewrite ws_eq_spec, skip_skip, print_word_dense by done.
  change (@Nom.preceded spec_ops) with (@Spec.preceded). change (@Nom.tag_no_case spec_ops) with Spec.tag_no_case.
  unfold Spec.preceded, Spec.map, Spec.map_res, Spec.pair, word, tok. rewrite <- app_assoc, tag_no_case_done. cbn [app].
  rewrite Hp. cbn. by rewrite skip_skip.
Qed.

Lemma clause_none {A} k (p : Parser A) r : starts_not (map lower_byte (take 1 (kw k))) r = true → kw k ≠ [] →
  Spec.opt (ws (Nom.preceded (Nom.tag_no_case (kw k)) p)) (skip r) = Done (skip r) None.
Proof.
  intros Hn Hk. unfold Spec.opt. rewrite ws_error; [done|]. rewrite skip_skip.
  change (@Nom.preceded spec_ops) with (@Spec.preceded). change (@Nom.tag_no_case spec_ops) with Spec.tag_no_case.
  unfold Spec.preceded, Spec.map, Spec.map_res, Spec.pair. by rewrite starts_not_keyword.
Qed.

(** ** [LIMIT] and [START] *)

Definition limit_text (n : option Z) : list Z := match n with Some n => word "LIMIT" ++ tok (digits n) | None => [] end.
Definition start_text (n : option Z) : list Z := match n with Some n => word "START" ++ tok (digits n) | None => [] end.

Lemma digits_dense n r : 0 <= n → dense (digits n ++ r).
Proof.
  intros Hn. destruct (digits_head n Hn) as (b & s & -> & Hb). apply dense_byte. apply digit_lower in Hb as [_ Hb].
  unfold Spec.is_multispace. destruct (Z.eqb_spec b 32); [lia|]. destruct (Z.eqb_spec b 9); [lia|].
  destruct (Z.eqb_spec b 13); [lia|]. destruct (Z.eqb_spec b 10); [lia|done].
Qed.

Lemma ws_usize n r : usize n = true → ws parse_usize (32 :: tok (digits n) ++ r) = Done (skip r) n.
Proof.
  intros [Hn%Z.leb_le Hlt%Z.ltb_lt]%andb_true_iff. rewrite ws_space. apply ws_tok; [by apply digits_dense|].
  unfold parse_usize. change (@Nom.map_res spec_ops) with (@Spec.map_res). by apply usize_done.
Qed.

Lemma start_done n r : (∀ m, n = Some m → usize m = true) → starts_not (kw "s") r = true →
  Spec.opt (ws parse_start_clause) (skip (start_text n ++ r)) = Done (skip r) n.
Proof.
  intros Hn Hr. unfold parse_start_clause. destruct n as [n|]; cbn [start_text app]; [|by apply clause_none].
  rewrite <- app_assoc. apply clause_done; [done|]. by apply ws_usize, Hn.
Qed.
Lemma limit_done n r : (∀ m, n = Some m → usize m = true) → starts_not (kw "l") r = true →
  Spec.opt (ws parse_limit_clause) (skip (limit_text n ++ r)) = Done (skip r) n.
Proof.
  intros Hn Hr. unfold parse_limit_clause. destruct n as [n|]; cbn [limit_text app]; [|by apply clause_none].
  rewrite <- app_assoc. apply clause_done; [done|]. by apply ws_usize, Hn.
Qed.

(** ** [ORDER BY] *)

Definition order_text (l : option (list (string * string))) : list Z :=
  match l with Some l => word "ORDER BY" ++ separated (word ",") (map print_order l) | None => [] end.

Lemma order_dense o r : ident o.1 = true → dense (print_order o ++ r).
Proof. intros Ho. unfold print_order. rewrite <- app_assoc. by apply name_dense. Qed.

Lemma single_order_done o r : ident o.1 = true → direction o.2 = true → single_order (print_order o ++ r) = Done (skip r) o.
Proof.
  destruct o as [f d]. cbn [fst snd]. intros Hf Hd. unfold single_order, print_order. cbn [fst snd]. rewrite <- app_assoc.
  change (@Nom.map spec_ops) with (@Spec.map). change (@Nom.pair spec_ops) with (@Spec.pair).
  change (@Nom.opt spec_ops) with (@Spec.opt). unfold Spec.map, Spec.map_res, Spec.pair. rewrite ws_identifier by done.
  unfold Spec.opt. apply orb_true_iff in Hd as [->%String.eqb_eq| ->%String.eqb_eq].
  - by assert (ws (Nom.alt [Nom.tag_no_case (kw "ASC"); Nom.tag_no_case (kw "DESC")]) (skip (word "ASC" ++ r)) =
      Done (skip r) (kw "ASC")) as -> by done.
  - by assert (ws (Nom.alt [Nom.tag_no_case (kw "ASC"); Nom.tag_no_case (kw "DESC")]) (skip (word "DESC" ++ r)) =
      Done (skip r) (kw "DESC")) as -> by done.
Qed.

Lemma single_order_space i : single_order (32 :: i) = single_order i.
Proof.
  unfold single_order. change (@Nom.map spec_ops) with (@Spec.map). change (@Nom.pair spec_ops) with (@Spec.pair).
  unfold Spec.map, Spec.map_res, Spec.pair. by rewrite ws_space.
Qed.

Lemma comma_ends {A} (p : Parser A) r : starts_not (kw ",") r = true → list_ends (ws (Nom.char 44)) p (λ _, True) r.
Proof.
  intros Hr. split; [done|]. intros fuel. cbn [Spec.more]. unfold starts_not in Hr.
  rewrite ws_error; [done|]. rewrite skip_skip. destruct (skip r) as [|b s]; [done|]. cbn in *.
  destruct (Z.eqb_spec b 44) as [->|]; [done|]. done.
Qed.

Lemma orders_done x xs r : forallb (λ o, ident o.1 && direction o.2) (x :: xs) = true → starts_not (kw ",") r = true →
  Spec.separated_list1 (ws (Nom.char 44)) single_order (separated (word ",") (map print_order (x :: xs)) ++ r) =
    Done (skip r) (x :: xs).
Proof.
  intros Hl Hr. apply (separated_texts _ _ (word ",") (λ _, True)); [done|done|done|by eexists| |by apply comma_ends].
  apply Forall_forall. intros o Ho s _. rewrite forallb_forall in Hl. specialize (Hl o (proj1 (list_elem_of_In _ _) Ho)).
  apply andb_true_iff in Hl as [Hf Hd]. split; [by apply order_dense|by apply single_order_done].
Qed.

Definition order_ok (l : option (list (string * string))) : bool :=
  match l with
  | Some l => negb (bool_decide (length l = 0%nat)) && forallb (λ o, ident o.1 && direction o.2) l
  | None => true
  end.

Lemma order_done l r : order_ok l = true → starts_not (kw "o,") r = true →
  Spec.opt (ws parse_order_clause) (skip (order_text l ++ r)) = Done (skip r) l.
Proof.
  intros Hl Hr. unfold parse_order_clause. destruct l as [l|]; cbn [order_text app].
  - apply andb_true_iff in Hl as [Hne Hl]. destruct l as [|x xs]; [done|]. rewrite <- app_assoc. apply clause_done; [done|].
    change (@Nom.separated_list1 spec_ops) with (@Spec.separated_list1).
    rewrite <- (orders_done x xs) by (done || by eapply starts_not_sub; [|exact Hr]).
    unfold Spec.separated_list1. by rewrite single_order_space.
  - apply clause_none; [|done]. by eapply starts_not_sub; [|exact Hr].
Qed.
End clauses.

(** * Queries read back, whole *)

Local Open Scope Z_scope.

Section queries.
Context `{UnicodeTables}.

(** The parser without its fuel. *)
Lemma parse_query_unfold i : parse_full_query i =
  let! input, _ := ws (Nom.tag_no_case (kw "SELECT")) i in
  let! input, fields := Spec.separated_list1 (ws (Nom.char 44)) (parse_projection_item parse_full_query) input in
  let! input, _ := ws (Nom.tag_no_case (kw "FROM")) input in
  let! input, table := ws parse_identifier input in
  let! input, where_logic := Spec.opt (ws parse_where_logic) input in
  let! input, order_by := Spec.opt (ws parse_order_clause) input in
  let! input, limit := Spec.opt (ws parse_limit_clause) input in
  let! input, start := Spec.opt (ws parse_start_clause) input in
  Done input (query_tree fields table where_logic order_by limit start).
Proof.
  unfold parse_full_query at 1. cbn [parse_query_fuel]. destruct (ws _ i) as [j x| |] eqn:E; [|done..].
  apply suffix_shorter in E; [|apply ws_suffix, tag_no_case_suffix].
  change (@Nom.separated_list1 spec_ops) with (@Spec.separated_list1). change (@Nom.opt spec_ops) with (@Spec.opt).
  rewrite (separated_list1_agree (S (length i)) _ _ (parse_projection_item parse_full_query)); [done| | | |lia].
  - apply ws_suffix, char_suffix.
  - apply parse_projection_item_suffix, parse_query_fuel_suffix.
  - apply parse_projection_item_agree; [apply parse_query_fuel_suffix|]. intros k Hk. apply parse_query_fuel_enough; lia.
Qed.

(** ** Items *)

(** A parser, and the space after it. *)
Definition skipping {A} (p : Parser A) : Parser A := λ i, let! r, a := p i in Done (skip r) a.

Lemma ws_skip {A} (p : Parser A) i j : skip i = skip j → ws p i = ws p j.
Proof. intros Hij. by rewrite !ws_eq_spec, Hij. Qed.

Lemma more_skipping {A} (p : Parser A) c fuel i j : skip i = skip j →
  (let! r, a := Spec.more (ws (Nom.char c)) p fuel i in Done (skip r) a) =
  (let! r, a := Spec.more (ws (Nom.char c)) (skipping p) fuel j in Done (skip r) a).
Proof.
  revert i j. induction fuel as [|fuel IH]; intros i j Hij; cbn [Spec.more]; [by rewrite Hij|].
  rewrite (ws_skip _ i j) by done. destruct (ws (Nom.char c) j) as [r x| |] eqn:E; [|by rewrite Hij|done].
  pose proof (ws_char_shorter _ _ _ _ E) as Hj. rewrite <- (ws_skip _ i j) in E by done.
  pose proof (ws_char_shorter _ _ _ _ E) as Hi. rewrite !(proj2 (Nat.eqb_neq _ _)) by lia. unfold skipping at 1.
  destruct (p r) as [r' a| |]; [|by rewrite Hij|done]. specialize (IH r' (skip r') (eq_sym (skip_skip r'))).
  destruct (Spec.more _ p fuel r'), (Spec.more _ (skipping p) fuel (skip r')); congruence.
Qed.

(** The text of an item, and what it stands for. *)
Definition item_text (i : Item) : list Z :=
  match i with
  | IAll => word "*"
  | IField f => name f
  | ISubquery alias q => word "(" ++ print_query q ++ word ")" ++ word "AS" ++ name alias
  end.
Definition item_proj (i : Item) : JProj :=
  match i with
  | IAll => JAll
  | IField f => JField f
  | ISubquery alias q => JSubquery alias (query_plan q) (extract_parent_key (query_plan q))
  end.
Definition item_ok (i : Item) : bool :=
  match i with IAll => true | IField f => ident f | ISubquery alias q => ident alias && query_ok q end.

Definition reads_query (q : Query) : Prop :=
  ∀ r, after_query r = true → parse_full_query (print_query q ++ r) = Done (skip r) (query_plan q).

Lemma query_dense q r : dense (print_query q ++ r).
Proof. by destruct q. Qed.

Lemma subquery_error p b r : Spec.is_multispace b = false → b ≠ 40 → parse_subquery_projection p (b :: r) = Error.
Proof.
  intros Hs Hb. unfold parse_subquery_projection. change (@Nom.delimited spec_ops) with (@Spec.delimited).
  by rewrite no_bracket.
Qed.
Lemma subquery_error_name p f r : ident f = true → parse_subquery_projection p (name f ++ r) = Error.
Proof.
  intros Hf. unfold parse_subquery_projection. change (@Nom.delimited spec_ops) with (@Spec.delimited).
  by rewrite no_bracket_name.
Qed.

Lemma no_star f r : ident f = true → Spec.tag (kw "*") (bytes_of f ++ r) = Error.
Proof.
  intros Hf. unfold ident, ident_bytes in Hf. destruct (bytes_of f) as [|b s]; [done|]. unfold Spec.tag.
  change (kw "*") with [42]. cbn [app strip_bytes]. destruct (Z.eqb_spec 42 b) as [<-|]; [discriminate Hf|reflexivity].
Qed.

Lemma item_reads i r : item_ok i = true → match i with ISubquery _ q => reads_query q | _ => True end →
  dense (item_text i ++ r) ∧ skipping (parse_projection_item parse_full_query) (item_text i ++ r) = Done (skip r) (item_proj i).
Proof.
  intros Hok Hq. unfold skipping, parse_projection_item. change (@Nom.alt spec_ops) with (@Spec.alt).
  destruct i as [|f|alias q]; cbn [item_ok item_text item_proj] in *.
  - split; [done|]. by rewrite alt_error by by apply subquery_error.
  - split; [by apply name_dense|]. rewrite alt_error by by apply subquery_error_name. cbn [Spec.alt].
    unfold parse_field_projection. change (@Nom.alt spec_ops) with (@Spec.alt). change (@Nom.map spec_ops) with (@Spec.map).
    unfold name, tok. rewrite <- app_assoc. cbn [app].
    rewrite alt_error by by apply map_error, no_star.
    erewrite alt_done; [|apply map_done, parse_identifier_done, Hok]. by rewrite string_of_bytes_of.
  - apply andb_true_iff in Hok as [Ha _]. split; [done|].
    rewrite (alt_done _ _ _ (skip r) (item_proj (ISubquery alias q))); [by rewrite skip_skip|]. cbn [item_proj].
    unfold parse_subquery_projection. rewrite <- !app_assoc.
    change (@Nom.delimited spec_ops) with (@Spec.delimited). change (@Nom.opt spec_ops) with (@Spec.opt).
    rewrite (bracket_done _ _ _ (query_plan q)); [|by apply query_dense|by rewrite Hq].
    unfold Spec.opt. rewrite ws_error by done. rewrite print_word_dense, ws_keyword by done.
    by rewrite name_dense, ws_identifier by done.
Qed.

Lemma items_read x xs r :
  Forall (λ i, item_ok i = true ∧ match i with ISubquery _ q => reads_query q | _ => True end) (x :: xs) →
  starts_not (kw ",") r = true →
  ∃ r', skip r' = skip r ∧
    Spec.separated_list1 (ws (Nom.char 44)) (parse_projection_item parse_full_query)
      (separated (word ",") (map item_text (x :: xs)) ++ r) = Done r' (map item_proj (x :: xs)).
Proof.
  intros Hl Hr.
  apply Forall_cons in Hl as [[Hx Hqx] Hl]. cbn [map]. rewrite separated_cons, <- app_assoc. unfold Spec.separated_list1.
  destruct (item_reads x (concat (map (app (word ",")) (map item_text xs)) ++ r) Hx Hqx) as [_ Hi]. unfold skipping in Hi.
  destruct (parse_projection_item parse_full_query _) as [r1 a| |]; [|done..]. apply done_inj in Hi as [Hr1 ->].
  pose proof (more_done (ws (Nom.char 44)) (skipping (parse_projection_item parse_full_query)) (word ",") (λ _, True)
    ltac:(done) ltac:(done) ltac:(done) ltac:(by eexists) (map (λ i, (item_text i, item_proj i)) xs) r (S (length r1))) as Hm.
  rewrite !(map_map (λ i, (item_text i, item_proj i))) in Hm. cbn [fst snd] in Hm.
  change (λ x, item_text x) with item_text in Hm. rewrite <- Hr1 in Hm.
  pose proof (more_skipping (parse_projection_item parse_full_query) 44 (S (length r1)) r1 (skip r1) (eq_sym (skip_skip r1))) as He.
  rewrite Hm in He; [|by apply Forall_map; eapply Forall_impl; [exact Hl|]; intros i [Hok Hq] s _; apply item_reads|
    by apply comma_ends|pose proof (skip_length r1); lia].
  destruct (Spec.more _ _ _ r1) as [r2 bs| |]; [|done..]. injection He as He ->. exists r2. by rewrite He, skip_skip.
Qed.

(** ** Queries *)

Lemma query_ind' (P : Query → Prop) :
  (∀ fields t w o l s, Forall (λ i, match i with ISubquery _ q => P q | _ => True end) fields → P (MkQuery fields t w o l s)) →
  ∀ q, P q.
Proof.
  intros Hq. fix IH 1. intros [fields t w o l s]. apply Hq. induction fields as [|i fields IHf]; constructor; [|done].
  destruct i; [done..|]. apply IH.
Qed.

Lemma print_query_eq fields t w o l s : print_query (MkQuery fields t w o l s) =
  word "SELECT" ++ separated (word ",") (map item_text fields) ++ word "FROM" ++ name t ++ where_text w ++ order_text o ++
  limit_text l ++ start_text s.
Proof. done. Qed.
Lemma query_plan_eq fields t w o l s : query_plan (MkQuery fields t w o l s) = query_tree (map item_proj fields) t w o l s.
Proof. done. Qed.

Definition from_ok {A} (p : A → bool) (o : option A) : bool := match o with Some a => p a | None => true end.

Lemma query_ok_eq fields t w o l s : query_ok (MkQuery fields t w o l s) =
  negb (bool_decide (length fields = 0%nat)) && forallb item_ok fields && ident t && from_ok printable w && order_ok o &&
  from_ok usize l && from_ok usize s.
Proof. done. Qed.

(** *** What follows each clause *)

Lemma limit_starts n r bs : forallb (λ b, negb (b =? 108)) bs = true → starts_not bs r = true → starts_not bs (limit_text n ++ r) = true.
Proof.
  intros Hbs Hr. destruct n as [n|]; [|done]. unfold starts_not. cbn. apply negb_true_iff, not_true_iff_false.
  intros (x & Hx & Heq%Z.eqb_eq)%existsb_exists. rewrite forallb_forall in Hbs. specialize (Hbs x Hx). subst x. done.
Qed.
Lemma start_starts n r bs : forallb (λ b, negb (b =? 115)) bs = true → starts_not bs r = true → starts_not bs (start_text n ++ r) = true.
Proof.
  intros Hbs Hr. destruct n as [n|]; [|done]. unfold starts_not. cbn. apply negb_true_iff, not_true_iff_false.
  intros (x & Hx & Heq%Z.eqb_eq)%existsb_exists. rewrite forallb_forall in Hbs. specialize (Hbs x Hx). subst x. done.
Qed.

Lemma order_after l r : order_ok l = true → starts_not (kw "aow") r = true →
  after_condition (order_text l ++ r) ∧ Spec.tag_no_case (kw "WHERE") (skip (order_text l ++ r)) = Error.
Proof.
  intros Hl Hr. destruct l as [l|]; cbn [order_text app].
  - rewrite <- app_assoc. split; [|done]. right. by eexists.
  - split; [apply starts_not_after|apply starts_not_keyword]; (by eapply starts_not_sub; [|exact Hr]) || done.
Qed.

Lemma items_dense x xs r : item_ok x = true → dense (separated (word ",") (map item_text (x :: xs)) ++ r).
Proof.
  intros Hx. cbn [map]. rewrite separated_cons, <- app_assoc. destruct x; [done|by apply name_dense|done].
Qed.

Lemma query_reads q : query_ok q = true → reads_query q.
Proof.
  induction q as [fields t w o l s IH] using query_ind'. rewrite query_ok_eq. intros Hok r Hr.
  apply andb_true_iff in Hok as [[[[[[Hne Hf]%andb_true_iff Ht]%andb_true_iff Hw]%andb_true_iff Ho]%andb_true_iff Hl]%andb_true_iff Hs].
  rewrite print_query_eq, query_plan_eq, parse_query_unfold, <- !app_assoc. rewrite ws_keyword by done.
  destruct fields as [|x xs]; [done|]. set (tail := where_text w ++ order_text o ++ limit_text l ++ start_text s ++ r).
  assert (item_ok x = true) as Hx by (by apply andb_true_iff in Hf as [? _]). rewrite items_dense by done.
  destruct (items_read x xs (word "FROM" ++ name t ++ tail)) as (r' & Hr' & ->); [|done|].
  { clear -Hf IH. induction IH as [|i l' Hi _ IHl]; [constructor|]. apply andb_true_iff in Hf as [Hi' Hf].
    constructor; [|by apply IHl]. split; [done|]. destruct i; [done..|]. apply andb_true_iff in Hi' as [_ ?]. by apply Hi. }
  rewrite (ws_skip _ r' (word "FROM" ++ name t ++ tail)), ws_keyword by done.
  rewrite name_dense, ws_identifier by done. subst tail.
  assert (∀ bs, forallb (λ b, existsb (Z.eqb b) (kw "aowls,")) bs = true → starts_not bs r = true) as Hbs
    by (intros bs Hbs; by eapply starts_not_sub; [|exact Hr]).
  destruct (order_after o (limit_text l ++ start_text s ++ r)) as [Ha Hn]; [done|by apply limit_starts, start_starts, Hbs|].
  rewrite where_done; [|by intros c ->; apply cond_reads|done..].
  rewrite order_done; [|done|by apply limit_starts, start_starts, Hbs].
  rewrite limit_done; [|by intros m ->|by apply start_starts, Hbs].
  by rewrite start_done by (done || (by intros m ->) || by apply Hbs).
Qed.
End queries.

(** ** Through the converter *)

Section texts.

Lemma ends_with_tail c b r : ends_with c (b :: r) = true → b ≠ c → ends_with c r = true.
Proof.
  unfold ends_with. intros Hl%bool_decide_eq_true_1 Hb. apply bool_decide_eq_true_2. destruct r; [|done]. cbn in Hl. congruence.
Qed.

(** What ends with a semicolon has no space to trim at its end. *)
Lemma ws_char_semicolon bs r : ws_char bs = Some r → ends_with 59 bs = true → ends_with 59 r = true.
Proof.
  intros Hw Hl. destruct bs as [|b bs]; [done|]. unfold ws_char in Hw. repeat (case_match; simplify_eq; try done);
    repeat match goal with
    | H : ends_with 59 (?x :: _) = true |- _ => apply ends_with_tail in H; [|intros Heq; rewrite ?Heq in *; discriminate]
    end; done.
Qed.

Lemma trim_start_semicolon bs : ends_with 59 bs = true → ends_with 59 (trim_start bs) = true.
Proof.
  unfold trim_start. generalize (length bs). intros n. revert bs. induction n as [|n IH]; intros bs Hl; cbn; [done|].
  destruct (ws_char bs) eqn:E; [|done]. apply IH. by eapply ws_char_semicolon.
Qed.

Lemma trim_end_semicolon n bs : (length bs ≤ n)%nat → ends_with 59 bs = true → trim_end_fuel n bs = bs.
Proof.
  revert bs. induction n as [|n IH]; intros [|b bs] Hn Hl; cbn in Hn; [done|lia|done|]. cbn [trim_end_fuel].
  rewrite bool_decide_false; [|intros E; pose proof (trim_start_semicolon _ Hl) as Ht; by rewrite E in Ht]. f_equal.
  destruct bs as [|c bs]; [by destruct n|]. apply IH; [cbn in *; lia|]. unfold ends_with in *. done.
Qed.

Lemma trim_done sql b bs : bytes_of sql = b :: bs → ws_char (b :: bs) = None → ends_with 59 (b :: bs) = true → trim sql = sql.
Proof.
  intros Hs Hb Hl. unfold trim. rewrite Hs. unfold trim_start. cbn [length skip_ws]. rewrite Hb, trim_end_semicolon by done.
  by rewrite <- Hs, string_of_bytes_of.
Qed.

Lemma trim_semicolon bs : ends_with 59 bs = false → trim_end_matches 59 (bs ++ [59]) = bs.
Proof.
  intros Hl. unfold trim_end_matches. rewrite reverse_snoc. cbn. unfold ends_with in Hl. apply bool_decide_eq_false_1 in Hl.
  destruct (reverse bs) as [|b s] eqn:E; cbn.
  - apply (f_equal reverse) in E. by rewrite reverse_involutive in E.
  - apply (f_equal reverse) in E. rewrite reverse_involutive, reverse_cons in E. subst bs. rewrite last_snoc in Hl.
    destruct (Z.eqb_spec b 59) as [->|]; [done|].
    change (reverse (b :: s) = reverse s ++ [b]). by rewrite reverse_cons.
Qed.

End texts.

(** C7: A query written out, [SELECT] to [START], nested queries and
    conditions in it, is converted to the plan of its parts; and so is the text
    with anything behind it that does not start with a comma or like a clause,
    [AND], [OR] or [AS]: the converter does not look at it. *)
Theorem query_reads_back `{UnicodeTables} {O : Nom.Ops} {L : Nom.Laws} q r sql (links : LinkMap) :
  query_ok q = true → after_query r = true → ends_with 59 r = false →
  bytes_of sql = print_query q ++ 32 :: r ++ [59] →
  @convert_surql_to_dbsp_with_links _ O sql links = Some (lower_link_traversals links (plan_depth (query_plan q)) (query_plan q)).
Proof.
  intros Hq Hr Hl Hs. destruct q as [fields t w o l s]. set (q := MkQuery fields t w o l s) in *.
  assert (ends_with 59 (print_query q ++ 32 :: r) = false) as He.
  { unfold ends_with. change (32 :: r) with ([32] ++ r). unfold ends_with in Hl. destruct r as [|b r] using rev_ind.
    - by rewrite app_nil_r, last_snoc.
    - by rewrite !app_assoc, last_snoc in *. }
  assert (bytes_of sql = (print_query q ++ 32 :: r) ++ [59]) as Hs' by (by rewrite Hs, <- app_assoc).
  unfold convert_surql_to_dbsp_with_links.
  rewrite (trim_done sql 83 (drop 1 (print_query q ++ 32 :: r) ++ [59])); [|by rewrite Hs'|done|].
  - rewrite Hs', trim_semicolon by done. unfold parse_full_query. rewrite (parse_query_fuel_eq O L).
    fold (@parse_full_query _ spec_ops (print_query q ++ 32 :: r)).
    by rewrite (query_reads q Hq (32 :: r) Hr).
  - unfold ends_with. by rewrite app_comm_cons, last_snoc.
Qed.

Definition loose_text : list Z := kw "&& archived = false".

Lemma query_reads_back_witness :
  convert_surql_to_dbsp_with_links (string_of_bytes (print_query sample_query ++ 32 :: loose_text ++ [59])) ∅ =
    Some (lower_link_traversals ∅ (plan_depth (query_plan sample_query)) (query_plan sample_query)).
Proof. apply (query_reads_back sample_query loose_text); vm_compute; reflexivity. Defined.
