(* ===== verification/Operator.v ===== *)
(** * The operator interface

    Models [packages/ssp/src/operator/mod.rs]: the trait every node of a
    circuit implements, with its default methods, and the contract the engine
    relies on, stated once for all operators: [Incremental] says that stepping
    by a delta changes the output by exactly the difference of the snapshots.

    The engine passes as many inputs as the operator's arity; an input read
    out of range (a panic in the code) reads as the empty Z-set here. *)

From S2P Require Import Prelude Platform Value ZSet SortKey Index Store.
Local Open Scope Z_scope.

(** [inputs[i]]. *)
Definition input (inputs : list ZSet) (i : nat) : ZSet := default ∅ (inputs !! i).

(** [input_evals.get(i).copied().unwrap_or(false)]. *)
Definition input_eval (evals : list bool) (i : nat) : bool := default false (evals !! i).

Section interface.
Context `{Hashing} `{OrdSet}.

Class Operator (Op : Type) := {
  snapshot : Op → list ZSet → Store → option Sp00kyValue → ZSet;
  step : Op → list ZSet → Store → option Sp00kyValue → ZSet * Op;
  note_content_updates : Op → list RowKey → Op;
  integrated_input_weight : Op → nat → RowKey → option Z;
  arity : Op → nat;
  reset : Op → Op;
  needs_rebuild : Op → bool;
  op_collections : Op → list string;
  initial_input : Op → Store → option Sp00kyValue → option ZSet;
  index_uses : Op → list (string * string);
  evaluate_key : Op → RowKey → list bool → Store → option Sp00kyValue → bool;
  reorder_key : Op → RowKey → bool → Store → option Sp00kyValue → option (ZSet * Op);
}.

(** The default methods of the trait. *)
Definition default_note_content_updates {Op} (op : Op) (_ : list RowKey) : Op := op.
Definition default_integrated_input_weight {Op} (_ : Op) (_ : nat) (_ : RowKey) : option Z := None.
Definition default_needs_rebuild {Op} (_ : Op) : bool := false.
Definition default_collections {Op} (_ : Op) : list string := [].
Definition default_initial_input {Op} (_ : Op) (_ : Store) (_ : option Sp00kyValue) : option ZSet := None.
Definition default_index_uses {Op} (_ : Op) : list (string * string) := [].
Definition default_evaluate_key {Op} (_ : Op) (_ : RowKey) (_ : list bool) (_ : Store)
    (_ : option Sp00kyValue) : bool := false.
Definition default_reorder_key {Op} (_ : Op) (_ : RowKey) (_ : bool) (_ : Store)
    (_ : option Sp00kyValue) : option (ZSet * Op) := None.

(** The contract. [op_tracks op inputs] says the operator's state is the
    integral of what it was fed; [op_stable] is what an operator needs of
    the store's change under it (how far it may go without a delta).
    An operator that satisfies the contract, fed a delta, returns the
    difference between its snapshots before and after. *)
Class Incremental (Op : Type) `{Operator Op} := {
  op_tracks : Op → Store → option Sp00kyValue → list ZSet → Prop;
  op_stable : Op → Store → Store → option Sp00kyValue → list ZSet → list ZSet → Prop;
  incremental_step : ∀ op store store' ctx inputs deltas,
    op_tracks op store ctx inputs →
    Forall zset_wf inputs → Forall zset_wf deltas →
    length inputs = arity op →
    length deltas = length inputs →
    op_stable op store store' ctx inputs deltas →
    let '(out, op') := step op deltas store' ctx in
    let inputs' := zip_with ZSet.add inputs deltas in
    zset_wf out ∧
    snapshot op' inputs' store' ctx = ZSet.add (snapshot op inputs store ctx) out ∧
    op_tracks op' store' ctx inputs';
}.
End interface.
