(* ===== verification/Filter.v ===== *)
(** * Predicates and the filter

    Models [packages/ssp/src/operator/filter.rs]: how a predicate is decided
    for a row key against the store and a registration's parameters, and the
    stateless operator that keeps the keys it holds for. *)

From S2P Require Import Prelude Platform Value ValueRef ZSet SortKey Index Store Operator Plan.
Local Open Scope Z_scope.

Definition strip_parent (path : string) : string := default path (strip_prefix "parent." path).

Definition or_missing (resolved : ValueRef) : option Sp00kyValue :=
  if ValueRef.is_missing resolved then None else Some (ValueRef.to_owned_value resolved).

Definition resolve_predicate_value (value : Value) (ctx : option Sp00kyValue) : option Sp00kyValue :=
  match Value.as_object value with
  | Some obj =>
      match assoc_get "$param" obj with
      | Some param_path =>
          let? ctx := ctx in
          let path_str := default "" (Value.as_str param_path) in
          or_missing (resolve_field (ValueRef.from_value ctx) (Path_new (strip_parent path_str)))
      | None => Some (from_json value)
      end
  | None => Some (from_json value)
  end.

Definition resolve_param_lookup (param : string) (ctx : option Sp00kyValue) : option Sp00kyValue :=
  let? ctx := ctx in
  or_missing (resolve_field (ValueRef.from_value ctx) (Path_new (strip_parent param))).

Definition same_kind (a b : ValueRef) : bool :=
  match a, b with
  | Missing, Missing => true
  | RNull, RNull => true
  | RBool _, RBool _ => true
  | RInt _, RInt _ | RInt _, RFloat _ | RFloat _, RInt _ | RFloat _, RFloat _ => true
  | RStr _, RStr _ => true
  | RArr _, RArr _ => true
  | RObj _, RObj _ => true
  | _, _ => false
  end.

(** The one-segment path [id] names the record key, not a field. *)
Definition is_id_field (field : Path) : bool :=
  match segments field with [s] => String.eqb s "id" | _ => false end.

Section check.
Context `{Hashing} `{OrdSet}.

(** The shared part of the six field comparisons: the operand and the field
    are read, then [f] decides. *)
Definition check_field (f : ValueRef → ValueRef → comparison → bool) (field : Path) (value : Value)
    (key : RowKey) (store : Store) (ctx : option Sp00kyValue) : bool :=
  match resolve_predicate_value value ctx with
  | None => false
  | Some target =>
      let actual := if is_id_field field then RStr key
        else resolve_field (Store.get_row_by_key_or_deleted store key) field in
      if ValueRef.is_missing actual then false
      else
        let target := ValueRef.from_value target in
        f actual target (compare_values actual target)
  end.

Definition check_param (f : comparison → bool) (param : string) (value : Value)
    (ctx : option Sp00kyValue) : bool :=
  match resolve_param_lookup param ctx with
  | None => false
  | Some l =>
      match resolve_predicate_value value ctx with
      | None => false
      | Some r => f (compare_values (ValueRef.from_value l) (ValueRef.from_value r))
      end
  end.

Definition cmp_is (c : comparison) (ord : comparison) : bool := bool_decide (ord = c).

Fixpoint check_predicate_recursive (pred : Predicate) (key : RowKey) (store : Store)
    (ctx : option Sp00kyValue) : bool :=
  match pred with
  | PTrue => true
  | PFalse => false
  | PAnd predicates => forallb (λ p, check_predicate_recursive p key store ctx) predicates
  | POr predicates => existsb (λ p, check_predicate_recursive p key store ctx) predicates
  | PPrefix field pre =>
      if is_id_field field then starts_with key pre
      else
        match ValueRef.as_str (resolve_field (Store.get_row_by_key_or_deleted store key) field) with
        | Some s => starts_with s pre
        | None => false
        end
  | PEq field value =>
      check_field (λ a t ord, cmp_is Eq ord && same_kind a t) field value key store ctx
  | PNeq field value =>
      check_field (λ a t ord, negb (cmp_is Eq ord) || negb (same_kind a t)) field value key store ctx
  | PGt field value => check_field (λ _ _ ord, cmp_is Gt ord) field value key store ctx
  | PGte field value => check_field (λ _ _ ord, negb (cmp_is Lt ord)) field value key store ctx
  | PLt field value => check_field (λ _ _ ord, cmp_is Lt ord) field value key store ctx
  | PLte field value => check_field (λ _ _ ord, negb (cmp_is Gt ord)) field value key store ctx
  | PParamEq param value => check_param (cmp_is Eq) param value ctx
  | PParamNeq param value => check_param (λ ord, negb (cmp_is Eq ord)) param value ctx
  | PParamGt param value => check_param (cmp_is Gt) param value ctx
  | PParamGte param value => check_param (λ ord, negb (cmp_is Lt ord)) param value ctx
  | PParamLt param value => check_param (cmp_is Lt) param value ctx
  | PParamLte param value => check_param (λ ord, negb (cmp_is Gt ord)) param value ctx
  end.
End check.

(** ** The operator *)

(** The entries whose key passes a test: the loop of [snapshot]. *)
Definition filter_keys (p : RowKey → bool) (z : ZSet) : ZSet := filter (λ e, p e.1 = true) z.

Record Filter := MkFilter { predicate : Predicate }.

Module FilterOp.
Section operations.
Context `{Hashing} `{OrdSet}.

Definition check_predicate (self : Filter) (key : RowKey) (store : Store)
    (ctx : option Sp00kyValue) : bool :=
  check_predicate_recursive (predicate self) key store ctx.

Definition snapshot (self : Filter) (inputs : list ZSet) (store : Store)
    (ctx : option Sp00kyValue) : ZSet :=
  filter_keys (λ key, check_predicate self key store ctx) (input inputs 0).

Definition step (self : Filter) (input_deltas : list ZSet) (store : Store)
    (ctx : option Sp00kyValue) : ZSet * Filter :=
  (snapshot self input_deltas store ctx, self).

Definition evaluate_key (self : Filter) (key : RowKey) (input_evals : list bool) (store : Store)
    (ctx : option Sp00kyValue) : bool :=
  input_eval input_evals 0 && check_predicate self key store ctx.

#[global] Instance filter_operator : Operator Filter := {|
  Operator.snapshot := snapshot;
  Operator.step := step;
  note_content_updates := default_note_content_updates;
  integrated_input_weight := default_integrated_input_weight;
  arity := λ _, 1%nat;
  reset := λ self, self;
  needs_rebuild := default_needs_rebuild;
  op_collections := default_collections;
  initial_input := default_initial_input;
  index_uses := default_index_uses;
  Operator.evaluate_key := evaluate_key;
  reorder_key := default_reorder_key;
|}.
End operations.
End FilterOp.

(** ** Facts *)

(** A filter by a key test, weight by weight. *)
Lemma weight_filter_key (p : RowKey → bool) (z : ZSet) k :
  weight (filter_keys p z) k = if p k then weight z k else 0.
Proof.
  unfold weight, filter_keys. rewrite map_lookup_filter. simpl.
  destruct (z !! k) as [w|]; simpl; [|by destruct (p k)].
  destruct (p k); simpl; reflexivity.
Qed.

Lemma filter_keys_ext (f g : RowKey → bool) z : (∀ k, f k = g k) → filter_keys f z = filter_keys g z.
Proof. intros Hfg. unfold filter_keys. apply map_filter_ext. intros k w _. cbn. by rewrite Hfg. Qed.

Lemma filter_key_wf (p : RowKey → bool) (z : ZSet) : zset_wf z → zset_wf (filter_keys p z).
Proof. intros Hz k w [Hk _]%map_lookup_filter_Some. by apply (Hz k). Qed.

(** Equal weights up to wrapping: [if p then a + b] splits. *)
Lemma if_i64_add (p q : bool) a b : in_i64 a → (a ≠ 0 → p = q) →
  (if q then i64_add a b else 0) = i64_add (if p then a else 0) (if q then b else 0).
Proof.
  intros Ha Hpq. destruct (Z.eq_dec a 0) as [->|Hne].
  - destruct p, q; done.
  - rewrite Hpq by done. destruct q; [done|]. reflexivity.
Qed.

#[export] Hint Resolve filter_key_wf : sp00ky.

Section facts.
Context `{Hashing} `{OrdSet}.

(** A predicate reads the row of its key and nothing else of the store. *)
Lemma check_predicate_row pred key store store' ctx :
  Store.get_row_by_key_or_deleted store key = Store.get_row_by_key_or_deleted store' key →
  check_predicate_recursive pred key store ctx = check_predicate_recursive pred key store' ctx.
Proof.
  intros Hrow. revert pred. fix IH 1.
  intros [| | | | | | | | | | | | | | |ps|ps]; simpl; unfold check_field; rewrite ?Hrow; try done.
  - induction ps as [|p ps IHps]; simpl; [done|]. by rewrite (IH p), IHps.
  - induction ps as [|p ps IHps]; simpl; [done|]. by rewrite (IH p), IHps.
Qed.

(** Rows of held keys read the same before and after: what a filter needs.
    A deleted row is still read from the overlay of the step. *)
Definition held_rows_stable (store store' : Store) (z : ZSet) : Prop :=
  ∀ k, weight z k ≠ 0 →
    Store.get_row_by_key_or_deleted store k = Store.get_row_by_key_or_deleted store' k.

#[global] Program Instance filter_incremental : Incremental Filter := {|
  op_tracks := λ _ _ _ _, True;
  op_stable := λ _ store store' _ inputs _, held_rows_stable store store' (input inputs 0);
|}.
Next Obligation.
  intros [pred] store store' ctx inputs deltas _ Hi Hd Hlen Hlen' Hst. simpl in *.
  destruct inputs as [|a [|? ?]]; simpl in *; try lia.
  destruct deltas as [|d [|? ?]]; simpl in *; try lia.
  apply Forall_cons_1 in Hi as [Ha _], Hd as [Hd _].
  unfold FilterOp.snapshot, FilterOp.check_predicate, input in *. simpl in *.
  assert (zset_wf (ZSet.add a d)) by eauto with sp00ky.
  split_and!; [by apply filter_key_wf| |done].
  apply zset_ext; [eauto with sp00ky.. |]. intros k.
  rewrite weight_add, !weight_filter_key, weight_add by eauto with sp00ky.
  apply if_i64_add; [by apply weight_range|].
  intros Hne. by apply check_predicate_row, Hst.
Qed.
End facts.
