(* ===== verification/LinearOps.v ===== *)
(** * Scan, Map, Union and Distinct

    Models [packages/ssp/src/operator/] scan.rs, map.rs, union.rs and
    distinct.rs. Each has its contract [Incremental] (the scan's delta comes
    from outside, its law is [StoreFacts.apply_spec]'s membership clause). *)

From S2P Require Import Prelude Platform Value ZSet SortKey Index Store Operator Plan.
Local Open Scope Z_scope.

(** ** Scan *)

Record Scan := MkScan { scan_table : string }.

Module ScanOp.
Section operations.
Context `{Hashing} `{OrdSet}.

(** The membership of a table, empty when there is no such collection. *)
Definition table_membership (store : Store) (table : string) : ZSet :=
  match Store.get_collection store table with
  | Some c => (Collection.membership c).1
  | None => ∅
  end.

Definition snapshot (self : Scan) (_ : list ZSet) (store : Store) (_ : option Sp00kyValue) : ZSet :=
  table_membership store (scan_table self).

Definition step (self : Scan) (input_deltas : list ZSet) (_ : Store) (_ : option Sp00kyValue)
    : ZSet * Scan :=
  (default ∅ (head input_deltas), self).

Definition evaluate_key (self : Scan) (key : RowKey) (_ : list bool) (store : Store)
    (_ : option Sp00kyValue) : bool :=
  match Store.get_collection store (scan_table self) with
  | Some c => Collection.has_key c key
  | None => false
  end.

#[global] Instance scan_operator : Operator Scan := {|
  Operator.snapshot := snapshot;
  Operator.step := step;
  note_content_updates := default_note_content_updates;
  integrated_input_weight := default_integrated_input_weight;
  arity := λ _, 0%nat;
  reset := λ self, self;
  needs_rebuild := default_needs_rebuild;
  op_collections := λ self, [scan_table self];
  initial_input := default_initial_input;
  index_uses := default_index_uses;
  Operator.evaluate_key := evaluate_key;
  reorder_key := default_reorder_key;
|}.
End operations.
End ScanOp.

(** ** Map *)

Record Map := MkMap { map_projections : list Projection }.

Module MapOp.
Section operations.
Context `{Hashing} `{OrdSet}.

Definition snapshot (_ : Map) (inputs : list ZSet) (_ : Store) (_ : option Sp00kyValue) : ZSet :=
  input inputs 0.

Definition step (self : Map) (input_deltas : list ZSet) (_ : Store) (_ : option Sp00kyValue)
    : ZSet * Map :=
  (input input_deltas 0, self).

Definition evaluate_key (_ : Map) (_ : RowKey) (input_evals : list bool) (_ : Store)
    (_ : option Sp00kyValue) : bool := input_eval input_evals 0.

#[global] Instance map_operator : Operator Map := {|
  Operator.snapshot := snapshot;
  Operator.step := step;
  note_content_updates := default_note_content_updates;
  integrated_input_weight := default_integrated_input_weight;
  arity := λ _, 1%nat;
  reset := λ self, self;
  needs_rebuild := default_needs_rebuild;
  op_collections := default_collections;
  initial_input := default_initial_input;
  index_uses := default_index_uses;
  Operator.evaluate_key := evaluate_key;
  reorder_key := default_reorder_key;
|}.
End operations.
End MapOp.

(** ** Union *)

Inductive Union := MkUnion.

Module UnionOp.
Section operations.
Context `{Hashing} `{OrdSet}.

Definition snapshot (_ : Union) (inputs : list ZSet) (_ : Store) (_ : option Sp00kyValue) : ZSet :=
  ZSet.add (ZSet.add ∅ (input inputs 0)) (input inputs 1).

Definition step (self : Union) (input_deltas : list ZSet) (store : Store) (ctx : option Sp00kyValue)
    : ZSet * Union :=
  (snapshot self input_deltas store ctx, self).

Definition evaluate_key (_ : Union) (_ : RowKey) (input_evals : list bool) (_ : Store)
    (_ : option Sp00kyValue) : bool := existsb (λ b, b) input_evals.

#[global] Instance union_operator : Operator Union := {|
  Operator.snapshot := snapshot;
  Operator.step := step;
  note_content_updates := default_note_content_updates;
  integrated_input_weight := default_integrated_input_weight;
  arity := λ _, 2%nat;
  reset := λ self, self;
  needs_rebuild := default_needs_rebuild;
  op_collections := default_collections;
  initial_input := default_initial_input;
  index_uses := default_index_uses;
  Operator.evaluate_key := evaluate_key;
  reorder_key := default_reorder_key;
|}.
End operations.
End UnionOp.

(** ** Distinct *)

Record Distinct := MkDistinct { integrated : ZSet }.

Module DistinctOp.
Section operations.
Context `{Hashing} `{OrdSet}.

Definition new : Distinct := MkDistinct ∅.

Definition threshold (zset : ZSet) : ZSet := (λ _, 1) <$> filter (λ e, 0 < e.2) zset.

Definition snapshot (_ : Distinct) (inputs : list ZSet) (_ : Store) (_ : option Sp00kyValue) : ZSet :=
  threshold (input inputs 0).

(** The loop writes [output] and [integrated] at the delta's keys only. *)
Definition step (self : Distinct) (input_deltas : list ZSet) (_ : Store) (_ : option Sp00kyValue)
    : ZSet * Distinct :=
  let deltas := input input_deltas 0 in
  let output := for_each_entry (λ key entry delta,
    let old := weight (integrated self) key in
    let new := i64_add old delta in
    if xorb (0 <? old) (0 <? new) then Some (if 0 <? new then 1 else -1) else entry) ∅ deltas in
  let integrated := for_each_entry (λ _ entry delta,
    let new := i64_add (default 0 entry) delta in
    if new =? 0 then None else Some new) (integrated self) deltas in
  (output, MkDistinct integrated).

Definition evaluate_key (_ : Distinct) (_ : RowKey) (input_evals : list bool) (_ : Store)
    (_ : option Sp00kyValue) : bool := input_eval input_evals 0.

#[global] Instance distinct_operator : Operator Distinct := {|
  Operator.snapshot := snapshot;
  Operator.step := step;
  note_content_updates := default_note_content_updates;
  integrated_input_weight := default_integrated_input_weight;
  arity := λ _, 1%nat;
  reset := λ _, new;
  needs_rebuild := default_needs_rebuild;
  op_collections := default_collections;
  initial_input := default_initial_input;
  index_uses := default_index_uses;
  Operator.evaluate_key := evaluate_key;
  reorder_key := default_reorder_key;
|}.
End operations.
End DistinctOp.

(** ** The contract *)

(** Whether a weight counts as present, as a weight. *)
Definition present01 (w : Z) : Z := if 0 <? w then 1 else 0.

Lemma weight_threshold z k : weight (DistinctOp.threshold z) k = present01 (weight z k).
Proof.
  unfold weight, DistinctOp.threshold, present01. rewrite lookup_fmap, map_lookup_filter.
  destruct (z !! k) as [w|]; simpl; [|done].
  destruct (Z.ltb_spec 0 w); case_guard; simpl; lia || done.
Qed.

Lemma threshold_wf z : zset_wf (DistinctOp.threshold z).
Proof.
  intros k w. unfold DistinctOp.threshold. rewrite lookup_fmap_Some.
  intros (x & <- & _). split; [width_lia|done].
Qed.

Lemma present01_diff old new :
  i64_add (present01 old)
    (if xorb (0 <? old) (0 <? new) then if 0 <? new then 1 else -1 else 0) = present01 new.
Proof. unfold present01. by destruct (0 <? old), (0 <? new). Qed.

#[export] Hint Resolve threshold_wf : sp00ky.

(** Splits the inputs and deltas of an [Incremental] law by arity. *)
Ltac split_inputs :=
  intros; simpl in *;
  repeat match goal with
  | H : length ?l = S _ |- _ => destruct l as [|? l]; simpl in H; [lia|injection H as H]
  | H : length ?l = 0%nat |- _ => apply nil_length_inv in H; subst
  | H : length ?l = length [] |- _ => simpl in H; apply nil_length_inv in H; subst
  | H : length ?l = length (_ :: _) |- _ => simpl in H
  | H : Forall _ (_ :: _) |- _ => apply Forall_cons_1 in H as [? H]
  end; unfold input in *; simpl in *.

Section contract.
Context `{Hashing} `{OrdSet}.

#[global] Program Instance map_incremental : Incremental Map := {|
  op_tracks := λ _ _ _ _, True;
  op_stable := λ _ _ _ _ _ _, True;
|}.
Next Obligation. split_inputs. by split_and!. Qed.

#[global] Program Instance union_incremental : Incremental Union := {|
  op_tracks := λ _ _ _ _, True;
  op_stable := λ _ _ _ _ _ _, True;
|}.
Next Obligation.
  split_inputs. unfold UnionOp.snapshot, input. simpl.
  split_and!; [by eauto with sp00ky| |done].
  apply zset_ext; [by eauto 8 with sp00ky..|]. intros k.
  rewrite !weight_add, !weight_empty by eauto 8 with sp00ky. wrap_solve.
Qed.

#[global] Program Instance distinct_incremental : Incremental Distinct := {|
  op_tracks := λ op _ _ inputs, integrated op = input inputs 0;
  op_stable := λ _ _ _ _ _ _, True;
|}.
Next Obligation.
  split_inputs. subst. unfold DistinctOp.snapshot, input. simpl.
  match goal with |- zset_wf ?o ∧ _ => set (out := o) end.
  match goal with op : Distinct |- _ => destruct op as [i]; simpl in * end.
  match goal with |- context [for_each_entry _ i ?z] => rename z into d end.
  assert (∀ k, out !! k = match d !! k with
    | Some w => let n := i64_add (weight i k) w in
        if xorb (0 <? weight i k) (0 <? n) then Some (if 0 <? n then 1 else -1) else None
    | None => None end) as Hout.
  { intros k. unfold out. rewrite lookup_for_each_entry, lookup_empty. by destruct (d !! k). }
  assert (zset_wf out) as Hwf.
  { intros k w. rewrite Hout. destruct (d !! k); [|done]. simpl.
    destruct (xorb _ _); [|done]. intros [= <-].
    destruct (0 <? _); split; try done; width_lia. }
  split_and!; [done| |done].
  assert (∀ k, weight out k = let n := i64_add (weight i k) (weight d k) in
    if xorb (0 <? weight i k) (0 <? n) then if 0 <? n then 1 else -1 else 0) as Hw.
  { intros k. unfold weight at 1. rewrite Hout.
    destruct (d !! k) as [w|] eqn:Ed; simpl.
    - rewrite (weight_lookup d k w Ed). by destruct (xorb _ _).
    - rewrite (weight_lookup_None d k Ed). unfold i64_add. rewrite !Z.add_0_r.
      rewrite (wrap_i64_id (weight i k)) by (by apply weight_range).
      by destruct (0 <? weight i k). }
  apply zset_ext; [by eauto with sp00ky..|]. intros k.
  rewrite weight_add, !weight_threshold, weight_add, Hw by eauto with sp00ky.
  simpl. by rewrite present01_diff.
Qed.
End contract.
