(* ===== verification/Join.v ===== *)
(** * The equi-join

    Models [packages/ssp/src/operator/join.rs]: a hash join whose output keeps
    the left keys with the product of the weights, and its three-term delta
    rule. The last part proves the delta rule in the wrapping ring of [i64]. *)

From S2P Require Import Prelude Platform Value ValueRef ZSet SortKey Index Store Operator Plan LinearOps.
Local Open Scope Z_scope.

(** ** Sums over a Z-set

    What a loop [for (k, w) in zset { acc += f(k) * w }] computes. *)
Definition zset_sum (f : RowKey → bool) (z : ZSet) : Z :=
  map_fold (λ k w acc, (if f k then w else 0) + acc) 0 z.

Definition keys_sum (f : RowKey → bool) (z : ZSet) (ks : list RowKey) : Z :=
  foldr (λ k acc, (if f k then weight z k else 0) + acc) 0 ks.

Lemma keys_sum_perm f z ks ks' : ks ≡ₚ ks' → keys_sum f z ks = keys_sum f z ks'.
Proof. unfold keys_sum. induction 1; simpl; lia. Qed.

Lemma keys_sum_ext (f g : RowKey → bool) (z z' : ZSet) (ks : list RowKey) :
  (∀ k, k ∈ ks → (if f k then weight z k else 0) = (if g k then weight z' k else 0)) →
  keys_sum f z ks = keys_sum g z' ks.
Proof.
  unfold keys_sum. induction ks as [|k ks IH]; simpl; intros Hk; [done|].
  rewrite (Hk k), IH; [done| |]; set_solver.
Qed.

Lemma zset_sum_keys f z ks :
  NoDup ks → (∀ k, is_Some (z !! k) → k ∈ ks) → zset_sum f z = keys_sum f z ks.
Proof.
  unfold zset_sum. revert ks. induction z as [|k w z Hk Hfst IH] using map_first_key_ind;
    intros ks Hnd Hin.
  - rewrite map_fold_empty. clear Hnd Hin. unfold keys_sum.
    induction ks as [|k ks IH]; simpl; [done|]. rewrite <- IH, weight_empty. by destruct (f k).
  - rewrite map_fold_insert_first_key by done.
    assert (k ∈ ks) as Hks by (apply Hin; rewrite lookup_insert_eq; eauto).
    apply elem_of_Permutation in Hks as [ks' Hp].
    rewrite (keys_sum_perm _ _ _ _ Hp). rewrite Hp in Hnd.
    apply NoDup_cons in Hnd as [Hnk Hnd]. simpl.
    unfold weight at 1. rewrite lookup_insert_eq. simpl. f_equal.
    rewrite (IH ks' Hnd).
    + apply keys_sum_ext. intros k' Hk'. unfold weight.
      rewrite lookup_insert_ne; [done|]. intros ->. done.
    + intros k' Hk'. assert (k ≠ k') as Hne by (intros ->; destruct Hk'; congruence).
      specialize (Hin k'). rewrite lookup_insert_ne in Hin by done. apply Hin in Hk'.
      rewrite Hp in Hk'. set_solver.
Qed.

(** The keys two Z-sets hold between them. *)
Definition joint_keys (a b : ZSet) : list RowKey := elements (dom a ∪ dom b : gset RowKey).

Lemma joint_keys_NoDup a b : NoDup (joint_keys a b).
Proof. apply NoDup_elements. Qed.

Lemma elem_of_joint_keys a b k : k ∈ joint_keys a b ↔ is_Some (a !! k) ∨ is_Some (b !! k).
Proof. unfold joint_keys. rewrite elem_of_elements, elem_of_union, !elem_of_dom. done. Qed.

Lemma zset_sum_add f a b : zset_wf a →
  wrap_i64 (zset_sum f (ZSet.add a b)) = wrap_i64 (zset_sum f a + zset_sum f b).
Proof.
  intros Ha. pose proof (joint_keys_NoDup a b) as Hnd.
  rewrite (zset_sum_keys f (ZSet.add a b) (joint_keys a b)), (zset_sum_keys f a (joint_keys a b)),
    (zset_sum_keys f b (joint_keys a b)); try done.
  - clear Hnd. unfold keys_sum. induction (joint_keys a b) as [|k ks IH]; simpl; [done|].
    rewrite <- wrap_add_r, IH. autorewrite with wrap. rewrite weight_add by done.
    destruct (f k); [unfold i64_add; autorewrite with wrap|]; f_equal; lia.
  - intros k Hk. apply elem_of_joint_keys. by right.
  - intros k Hk. apply elem_of_joint_keys. by left.
  - intros k [w Hk]. apply elem_of_joint_keys. unfold ZSet.add in Hk.
    rewrite lookup_for_each_entry in Hk. destruct (b !! k) eqn:E; [right|left]; eauto.
Qed.

Lemma zset_sum_ext f g z :
  (∀ k, weight z k ≠ 0 → f k = g k) → zset_sum f z = zset_sum g z.
Proof.
  intros Hfg.
  assert (∀ k, is_Some (z !! k) → k ∈ joint_keys z z) as Hin.
  { intros k Hk. apply elem_of_joint_keys. by left. }
  rewrite !(zset_sum_keys _ z (joint_keys z z)) by (try apply joint_keys_NoDup; done).
  apply keys_sum_ext. intros k _. destruct (Z.eq_dec (weight z k) 0) as [->|Hne].
  - by destruct (f k), (g k).
  - by rewrite Hfg.
Qed.

(** ** The operator *)

Record Join := MkJoin { join_on : JoinCondition; left_state : ZSet; right_state : ZSet }.

Module JoinOp.
Section operations.
Context `{Hashing} `{OrdSet}.

Definition new (condition : JoinCondition) : Join := MkJoin condition ∅ ∅.

Definition join_field (store : Store) (field : Path) (key : RowKey) : ValueRef :=
  resolve_field (Store.get_row_by_key store key) field.

(** The index on the right side: bucket by hash of the join field. *)
Definition right_index (right : ZSet) (condition : JoinCondition) (store : Store)
    : gmap Z (list (RowKey * Z * ValueRef)) :=
  map_fold (λ r_key r_weight index,
    let r_field := join_field store (right_field condition) r_key in
    if ValueRef.is_missing r_field then index
    else
      let hash := hash_value r_field in
      <[hash := default [] (index !! hash) ++ [(r_key, r_weight, r_field)]]> index) ∅ right.

Definition probe (index : gmap Z (list (RowKey * Z * ValueRef))) (condition : JoinCondition)
    (store : Store) (l_key : RowKey) (entry : option Z) (l_weight : Z) : option Z :=
  let l_field := join_field store (left_field condition) l_key in
  if ValueRef.is_missing l_field then entry
  else
    match index !! hash_value l_field with
    | None => entry
    | Some matches =>
        foldl (λ entry m,
          let '(_, r_weight, r_field) := m in
          if bool_decide (compare_values l_field r_field = Eq)
          then Some (i64_add (default 0 entry) (i64_mul l_weight r_weight))
          else entry) entry matches
    end.

Definition hash_join (left_ right : ZSet) (condition : JoinCondition) (store : Store) : ZSet :=
  if bool_decide (left_ = ∅) || bool_decide (right = ∅) then ∅
  else
    let index := right_index right condition store in
    let out := for_each_entry (probe index condition store) ∅ left_ in
    filter (λ e, e.2 ≠ 0) out.

Definition snapshot (self : Join) (inputs : list ZSet) (store : Store) (_ : option Sp00kyValue)
    : ZSet :=
  hash_join (input inputs 0) (input inputs 1) (join_on self) store.

Definition step (self : Join) (input_deltas : list ZSet) (store : Store) (_ : option Sp00kyValue)
    : ZSet * Join :=
  let delta_a := input input_deltas 0 in
  let delta_b := input input_deltas 1 in
  let term1 := hash_join delta_a (right_state self) (join_on self) store in
  let term2 := hash_join (left_state self) delta_b (join_on self) store in
  let term3 := hash_join delta_a delta_b (join_on self) store in
  (ZSet.add (ZSet.add term1 term2) term3,
   MkJoin (join_on self) (ZSet.add (left_state self) delta_a) (ZSet.add (right_state self) delta_b)).

#[global] Instance join_operator : Operator Join := {|
  Operator.snapshot := snapshot;
  Operator.step := step;
  note_content_updates := default_note_content_updates;
  integrated_input_weight := default_integrated_input_weight;
  arity := λ _, 2%nat;
  reset := λ self, new (join_on self);
  needs_rebuild := default_needs_rebuild;
  op_collections := default_collections;
  initial_input := default_initial_input;
  index_uses := default_index_uses;
  evaluate_key := default_evaluate_key;
  reorder_key := default_reorder_key;
|}.
End operations.
End JoinOp.

(** ** The hash join, weight by weight *)
Section facts.
Context `{Hashing} `{OrdSet}.

(** Whether a left and a right row meet: both have the join field, in the
    same hash bucket, and compare equal. *)
Definition rows_join (condition : JoinCondition) (store : Store) (l_key r_key : RowKey) : bool :=
  let l_field := JoinOp.join_field store (left_field condition) l_key in
  let r_field := JoinOp.join_field store (right_field condition) r_key in
  negb (ValueRef.is_missing l_field) && negb (ValueRef.is_missing r_field) &&
  bool_decide (hash_value l_field = hash_value r_field) &&
  bool_decide (compare_values l_field r_field = Eq).

(** What a probe adds up in a bucket. *)
Definition bucket_sum (l_field : ValueRef) (matches : list (RowKey * Z * ValueRef)) : Z :=
  foldr (λ m acc, (if bool_decide (compare_values l_field m.2 = Eq) then m.1.2 else 0) + acc) 0 matches.

Lemma bucket_sum_app f a b : bucket_sum f (a ++ b) = bucket_sum f a + bucket_sum f b.
Proof. unfold bucket_sum. induction a as [|m a IH]; simpl; [done|]. rewrite IH. lia. Qed.

Lemma right_index_sum right condition store l_key :
  let l_field := JoinOp.join_field store (left_field condition) l_key in
  ValueRef.is_missing l_field = false →
  bucket_sum l_field (default [] (JoinOp.right_index right condition store !! hash_value l_field)) =
  zset_sum (rows_join condition store l_key) right.
Proof.
  intros l_field Hl. unfold JoinOp.right_index, zset_sum.
  induction right as [|k w z Hk Hfst IH] using map_first_key_ind; [done|].
  rewrite !map_fold_insert_first_key by done. rewrite <- IH. clear IH.
  set (index := map_fold _ _ z). simpl.
  unfold rows_join at 1. fold l_field. rewrite Hl. simpl.
  set (r_field := JoinOp.join_field store (right_field condition) k).
  destruct (ValueRef.is_missing r_field) eqn:Hr; simpl; [done|].
  destruct (decide (hash_value l_field = hash_value r_field)) as [Hh|Hh].
  - rewrite (bool_decide_eq_true_2 _ Hh). simpl. rewrite Hh, lookup_insert_eq. simpl.
    rewrite bucket_sum_app. simpl. destruct (bool_decide _); lia.
  - rewrite (bool_decide_eq_false_2 _ Hh). simpl.
    by rewrite lookup_insert_ne by congruence.
Qed.

Lemma probe_sum l_field matches entry l_weight :
  wrap_i64 (default 0 (foldl (λ entry (m : RowKey * Z * ValueRef),
      let '(_, r_weight, r_field) := m in
      if bool_decide (compare_values l_field r_field = Eq)
      then Some (i64_add (default 0 entry) (i64_mul l_weight r_weight))
      else entry) entry matches)) =
  wrap_i64 (default 0 entry + l_weight * bucket_sum l_field matches).
Proof.
  revert entry. induction matches as [|[[rk rw] rf] ms IH]; intros entry; simpl.
  - f_equal. lia.
  - rewrite IH. simpl. destruct (bool_decide _); simpl.
    + unfold i64_add, i64_mul. autorewrite with wrap. f_equal. lia.
    + f_equal; lia.
Qed.

Lemma probe_range l_field matches entry l_weight : in_i64 (default 0 entry) →
  in_i64 (default 0 (foldl (λ entry (m : RowKey * Z * ValueRef),
      let '(_, r_weight, r_field) := m in
      if bool_decide (compare_values l_field r_field = Eq)
      then Some (i64_add (default 0 entry) (i64_mul l_weight r_weight))
      else entry) entry matches)).
Proof.
  revert entry. induction matches as [|[[rk rw] rf] ms IH]; intros entry He; simpl; [done|].
  apply IH. destruct (bool_decide _); [apply wrap_i64_range|done].
Qed.

Lemma hash_join_spec left_ right condition store k :
  in_i64 (weight (JoinOp.hash_join left_ right condition store) k) ∧
  weight (JoinOp.hash_join left_ right condition store) k =
  wrap_i64 (weight left_ k * zset_sum (rows_join condition store k) right).
Proof.
  unfold JoinOp.hash_join.
  destruct (decide (left_ = ∅)) as [->|Hl].
  { simpl. rewrite weight_empty. by split. }
  rewrite (bool_decide_eq_false_2 _ Hl). simpl.
  destruct (decide (right = ∅)) as [->|Hr].
  { rewrite (bool_decide_eq_true_2 _ eq_refl), weight_empty.
    unfold zset_sum. rewrite map_fold_empty, Z.mul_0_r. by split. }
  rewrite (bool_decide_eq_false_2 _ Hr).
  set (out := for_each_entry _ ∅ left_).
  assert (∀ k, out !! k = match left_ !! k with
    | Some w => JoinOp.probe (JoinOp.right_index right condition store) condition store k None w
    | None => None end) as Hout.
  { intros k'. unfold out. by rewrite lookup_for_each_entry, lookup_empty. }
  assert (∀ z : ZSet, weight (filter (λ e, e.2 ≠ 0) z) k = weight z k) as Hret.
  { intros z. unfold weight. rewrite map_lookup_filter.
    destruct (z !! k) as [w|]; simpl; [|done]. case_guard; simpl; lia. }
  rewrite Hret. unfold weight. rewrite Hout. destruct (left_ !! k) as [w|] eqn:Ew; simpl; [|by split].
  unfold JoinOp.probe.
  set (l_field := JoinOp.join_field store (left_field condition) k).
  destruct (ValueRef.is_missing l_field) eqn:Hm; simpl.
  - rewrite (zset_sum_ext _ (λ _, false)).
    2: { intros k' _. unfold rows_join. fold l_field. by rewrite Hm. }
    replace (zset_sum (λ _, false) right) with 0; [by rewrite Z.mul_0_r; split|].
    unfold zset_sum. clear. induction right as [|k w z Hk Hfst IH] using map_first_key_ind; [done|].
    by rewrite map_fold_insert_first_key.
  - rewrite <- (right_index_sum right condition store k Hm). fold l_field.
    destruct (_ !! hash_value l_field) as [ms|] eqn:Em; simpl; [|by rewrite Z.mul_0_r; split].
    split; [by apply probe_range|].
    rewrite <- (Z.add_0_l (w * _)). change 0 with (default 0 (@None Z)).
    rewrite <- probe_sum. symmetry. apply wrap_i64_id. by apply probe_range.
Qed.

Lemma weight_hash_join left_ right condition store k :
  weight (JoinOp.hash_join left_ right condition store) k =
  wrap_i64 (weight left_ k * zset_sum (rows_join condition store k) right).
Proof. apply hash_join_spec. Qed.

Lemma hash_join_wf left_ right condition store :
  zset_wf (JoinOp.hash_join left_ right condition store).
Proof.
  intros k w Hk. split.
  - pose proof (hash_join_spec left_ right condition store k) as [Hr _].
    by rewrite (weight_lookup _ _ _ Hk) in Hr.
  - unfold JoinOp.hash_join in Hk. destruct (_ || _); [done|].
    by apply map_lookup_filter_Some in Hk as [_ ?].
Qed.

#[local] Hint Resolve hash_join_wf : sp00ky.

(** What the delta rule needs: the join fields of rows already integrated
    read the same. A row deleted in this step does not (the join reads the
    live store only), so its retraction is not covered. *)
Definition join_rows_stable (condition : JoinCondition) (store store' : Store) (a b : ZSet) : Prop :=
  (∀ k, weight a k ≠ 0 → JoinOp.join_field store (left_field condition) k =
                         JoinOp.join_field store' (left_field condition) k) ∧
  (∀ k, weight b k ≠ 0 → JoinOp.join_field store (right_field condition) k =
                         JoinOp.join_field store' (right_field condition) k).

#[global] Program Instance join_incremental : Incremental Join := {|
  op_tracks := λ op _ _ inputs,
    left_state op = input inputs 0 ∧ right_state op = input inputs 1;
  op_stable := λ op store store' _ inputs _,
    join_rows_stable (join_on op) store store' (input inputs 0) (input inputs 1);
|}.
Next Obligation.
  split_inputs. destruct op as [on a b]; simpl in *. unfold JoinOp.snapshot, input; simpl in *.
  match goal with H : _ ∧ _ |- _ => destruct H; subst end.
  match goal with H : join_rows_stable _ _ _ _ _ |- _ => destruct H as [Hl Hr] end.
  split_and!; [by eauto with sp00ky| |done|done].
  apply zset_ext; [by eauto 8 with sp00ky..|]. intros k.
  rewrite !weight_add by eauto 8 with sp00ky.
  rewrite !weight_hash_join, weight_add by done.
  unfold i64_add. rewrite <- wrap_mul_r, zset_sum_add by done. autorewrite with wrap.
  match goal with |- context [weight ?a k * zset_sum (rows_join on store k) ?b] =>
    replace (weight a k * zset_sum (rows_join on store k) b)
      with (weight a k * zset_sum (rows_join on store' k) b)
  end.
  { f_equal. lia. }
  destruct (Z.eq_dec (weight g k) 0) as [->|Hne]; [by rewrite !Z.mul_0_l|].
  f_equal. apply zset_sum_ext. intros k' Hk'. unfold rows_join.
  by rewrite (Hl k), (Hr k').
Qed.
End facts.
