(* ===== verification/Witness.v ===== *)
(** * Presence joins: the witness index

    Models [packages/ssp/src/operator/] witness.rs, semi_join.rs and
    anti_join.rs: the joins that keep or drop a left row by whether some right
    row has an equal join value. [WitnessState] keeps what each input row had
    when it was last read, an index of the left rows by hash, and counts of the
    right rows' values; a step re-reads only changed rows and rechecks only the
    left rows of buckets whose witnesses came or went. *)

From S2P Require Import Prelude Platform Float64 Value ValueRef ZSet SortKey Index Store Operator Plan LinearOps Join.
Local Open Scope Z_scope.

(** ** Saved join values *)

(** [WitnessValue], up to its own equality: containers are kept by kind. *)
Inductive WitnessValue :=
  | WNull
  | WBool (b : bool)
  | WInt (i : Z)
  | WFloat (f : f64)
  | WStr (s : string)
  | WArray
  | WObject.

#[global] Instance witness_value_eq_dec : EqDecision WitnessValue.
Proof. solve_decision. Defined.

#[global] Instance witness_value_countable : Countable WitnessValue.
Proof.
  refine (inj_countable'
    (λ w, match w with
      | WNull => inl (inl 0%nat) | WArray => inl (inl 1%nat) | WObject => inl (inl 2%nat)
      | WBool b => inl (inr b) | WInt i => inr (inl i) | WFloat f => inr (inr (inl f))
      | WStr s => inr (inr (inr s)) end)
    (λ s, match s with
      | inl (inl 0%nat) => WNull | inl (inl 1%nat) => WArray | inl (inl _) => WObject
      | inl (inr b) => WBool b | inr (inl i) => WInt i | inr (inr (inl f)) => WFloat f
      | inr (inr (inr s)) => WStr s end) _).
  by intros [].
Defined.

Module WitnessValue.
Definition as_ref (w : WitnessValue) : ValueRef :=
  match w with
  | WNull => RNull
  | WBool b => RBool b
  | WInt i => RInt i
  | WFloat f => RFloat f
  | WStr s => RStr s
  | WArray => RArr (SMem [])
  | WObject => RObj (OMem [])
  end.

Definition kind (w : WitnessValue) : nat :=
  match w with
  | WNull => 0 | WBool _ => 1 | WInt _ => 2 | WFloat _ => 3 | WStr _ => 4 | WArray => 5 | WObject => 6
  end%nat.

Definition is_nan (w : WitnessValue) : bool :=
  match w with WFloat v => F64.is_nan v | _ => false end.

(** The representation [InputRow::read] keeps of a value. *)
Definition of_ref (v : ValueRef) : option WitnessValue :=
  match v with
  | Missing => None
  | RNull => Some WNull
  | RBool b => Some (WBool b)
  | RInt i => Some (WInt i)
  | RFloat f => Some (WFloat f)
  | RStr s => Some (WStr s)
  | RArr _ => Some WArray
  | RObj _ => Some WObject
  end.
End WitnessValue.

Record InputRow := MkInputRow { ir_weight : Z; ir_exists : bool; ir_value : option WitnessValue }.

Record WitnessState := MkWitnessState {
  ws_left : gmap string InputRow;
  ws_right : gmap string InputRow;
  left_by_hash : gmap Z (gset string);
  right_by_hash : gmap Z (gmap WitnessValue Z);
  right_kind_counts : list Z;
  right_nan_count : Z;
  ws_output : gset string;
  content_updates : gset string;
}.

(** [(x as i64 + delta) as usize]. *)
Definition usize_add (x delta : Z) : Z := wrap_u64 (i64_add (wrap_i64 x) delta).

Module WitnessState.
Section operations.
Context `{Hashing} `{OrdSet}.

Definition empty : WitnessState := MkWitnessState ∅ ∅ ∅ ∅ [0; 0; 0; 0; 0; 0; 0] 0 ∅ ∅.

Definition read (key : RowKey) (weight : Z) (field : Path) (store : Store) : InputRow :=
  let row := Store.get_row_by_key store key in
  let value := resolve_field row field in
  MkInputRow weight (negb (ValueRef.is_missing row))
    (if (weight <=? 0) || ValueRef.is_missing value then None else WitnessValue.of_ref value).

Definition hash (row : InputRow) : option Z := hash_value ∘ WitnessValue.as_ref <$> ir_value row.

Definition remove_bucket (buckets : gmap Z (gset string)) (h : Z) (key : RowKey) : gmap Z (gset string) :=
  match buckets !! h with
  | Some bucket =>
      let bucket := bucket ∖ {[key]} in
      if bool_decide (bucket = ∅) then delete h buckets else <[h := bucket]> buckets
  | None => buckets
  end.

Definition note_content_updates (self : WitnessState) (keys : list RowKey) : WitnessState :=
  MkWitnessState (ws_left self) (ws_right self) (left_by_hash self) (right_by_hash self)
    (right_kind_counts self) (right_nan_count self) (ws_output self)
    (content_updates self ∪ list_to_set keys).

Definition integrated_weight (self : WitnessState) (port : nat) (key : RowKey) : Z :=
  let rows := match port with O => ws_left self | _ => ws_right self end in
  from_option ir_weight 0 (rows !! key).

(** [has_witness], against the index it reads. *)
Definition bucket_has (right_by_hash : gmap Z (gmap WitnessValue Z)) (value : ValueRef) : bool :=
  if ValueRef.is_missing value then false
  else
    match right_by_hash !! hash_value value with
    | Some bucket =>
        existsb (λ e : WitnessValue * Z,
          bool_decide (compare_values value (WitnessValue.as_ref e.1) = Eq)) (map_to_list bucket)
    | None => false
    end.
Definition has_witness (self : WitnessState) (value : ValueRef) : bool :=
  bucket_has (right_by_hash self) value.

Definition has_point_witness (self : WitnessState) (value : ValueRef) : bool :=
  let counts i := nth i (right_kind_counts self) 0 in
  let scalar_count := wrap_u64 (foldr Z.add 0 (drop 1 (right_kind_counts self))) in
  let numeric_count := wrap_u64 (counts 2%nat + counts 3%nat) in
  match value with
  | Missing => false
  | RNull => 0 <? counts 0%nat
  | RBool _ => (counts 1%nat <? scalar_count) || has_witness self value
  | RStr _ => (counts 4%nat <? scalar_count) || has_witness self value
  | RArr _ | RObj _ => 0 <? scalar_count
  | RInt _ | RFloat _ =>
      let is_nan := match value with RFloat v => F64.is_nan v | _ => false end in
      let is_zero := match value with
        | RInt n => n =? 0 | RFloat v => F64.eqb v F64.pos_zero | _ => false end in
      (numeric_count <? scalar_count)
      || (0 <? right_nan_count self)
      || is_nan && (0 <? numeric_count)
      || has_witness self value
      || is_zero && (has_witness self (RFloat F64.pos_zero) || has_witness self (RFloat F64.neg_zero))
  end.

(** *** One step *)

(** The loop over the changed left keys. *)
Definition left_visit (delta : ZSet) (field : Path) (store : Store)
    (acc : gmap string InputRow * gmap Z (gset string)) (key : RowKey)
    : gmap string InputRow * gmap Z (gset string) :=
  let '(left_, by_hash) := acc in
  let old := left_ !! key in
  let left_ := delete key left_ in
  let w := i64_add (from_option ir_weight 0 old) (weight delta key) in
  let by_hash := match old ≫= hash with
    | Some h => remove_bucket by_hash h key
    | None => by_hash
    end in
  if w =? 0 then (left_, by_hash)
  else
    let row := read key w field store in
    let by_hash := match hash row with
      | Some h => <[h := default ∅ (by_hash !! h) ∪ {[key]}]> by_hash
      | None => by_hash
      end in
    (<[key := row]> left_, by_hash).

Definition bump (value : WitnessValue) (d : Z) (deltas : gmap WitnessValue Z) : gmap WitnessValue Z :=
  <[value := i64_add (default 0 (deltas !! value)) d]> deltas.

(** The loop over the changed right keys. *)
Definition right_visit (delta : ZSet) (field : Path) (store : Store)
    (acc : gmap string InputRow * gmap WitnessValue Z) (key : RowKey)
    : gmap string InputRow * gmap WitnessValue Z :=
  let '(right_, wd) := acc in
  let old := right_ !! key in
  let right_ := delete key right_ in
  let w := i64_add (from_option ir_weight 0 old) (weight delta key) in
  let wd := match old ≫= ir_value with
    | Some value => bump value (-1) wd
    | None => wd
    end in
  if w =? 0 then (right_, wd)
  else
    let row := read key w field store in
    let wd := match ir_value row with Some value => bump value 1 wd | None => wd end in
    (<[key := row]> right_, wd).

Record Net := MkNet {
  nt_kinds : list Z; nt_nan : Z; nt_by_hash : gmap Z (gmap WitnessValue Z); nt_changed : gset Z }.

(** The loop over the net witness changes. *)
Definition net_visit (acc : Net) (e : WitnessValue * Z) : Net :=
  let '(value, delta) := e in
  if delta =? 0 then acc
  else
    let kinds := alter (λ c, usize_add c delta) (WitnessValue.kind value) (nt_kinds acc) in
    let nan := if WitnessValue.is_nan value then usize_add (nt_nan acc) delta else nt_nan acc in
    let h := hash_value (WitnessValue.as_ref value) in
    let bucket := default ∅ (nt_by_hash acc !! h) in
    let old := default 0 (bucket !! value) in
    let new := usize_add old delta in
    let changed := if xorb (0 <? old) (0 <? new) then nt_changed acc ∪ {[h]} else nt_changed acc in
    let by_hash :=
      if new =? 0 then
        let bucket := delete value bucket in
        if bool_decide (bucket = ∅) then delete h (nt_by_hash acc) else <[h := bucket]> (nt_by_hash acc)
      else <[h := <[value := new]> bucket]> (nt_by_hash acc) in
    MkNet kinds nan by_hash changed.

Definition row_present (anti : bool) (by_hash : gmap Z (gmap WitnessValue Z)) (row : InputRow) : bool :=
  (0 <? ir_weight row) && ir_exists row &&
  xorb anti (match ir_value row with
             | Some v => bucket_has by_hash (WitnessValue.as_ref v) | None => false end).

(** The loop over the affected left keys. *)
Definition emit_visit (present : RowKey → bool) (acc : ZSet * gset string) (key : RowKey)
    : ZSet * gset string :=
  let '(out, held) := acc in
  let now := present key in
  if Bool.eqb now (bool_decide (key ∈ held)) then (out, held)
  else if now then (<[key := 1]> out, held ∪ {[key]})
  else (<[key := -1]> out, held ∖ {[key]}).

Definition step (self : WitnessState) (deltas : list ZSet) (store : Store) (condition : JoinCondition)
    (anti : bool) : ZSet * WitnessState :=
  let d0 := input deltas 0 in
  let d1 := input deltas 1 in
  let held rows := filter (λ key, is_Some (rows !! key)) (content_updates self) in
  let left_keys : gset string := dom d0 ∪ held (ws_left self) in
  let right_keys : gset string := dom d1 ∪ held (ws_right self) in
  let '(left_, l_by_hash) :=
    foldl (left_visit d0 (left_field condition) store) (ws_left self, left_by_hash self)
      (elements left_keys) in
  let '(right_, wd) :=
    foldl (right_visit d1 (right_field condition) store) (ws_right self, ∅) (elements right_keys) in
  let net := foldl net_visit
    (MkNet (right_kind_counts self) (right_nan_count self) (right_by_hash self) ∅)
    (map_to_list wd) in
  let affected : gset string := left_keys ∪
    ⋃ ((λ h, default ∅ (l_by_hash !! h)) <$> elements (nt_changed net)) in
  let present key :=
    match left_ !! key with Some row => row_present anti (nt_by_hash net) row | None => false end in
  let '(out, held) := foldl (emit_visit present) (∅, ws_output self) (elements affected) in
  (out, MkWitnessState left_ right_ l_by_hash (nt_by_hash net) (nt_kinds net) (nt_nan net) held ∅).
End operations.
End WitnessState.

(** ** The two operators *)

Record SemiJoin := MkSemiJoin { semi_on : JoinCondition; semi_state : WitnessState }.
Record AntiJoin := MkAntiJoin { anti_on : JoinCondition; anti_state : WitnessState }.

Section snapshots.
Context `{Hashing} `{OrdSet}.

(** The join values of the live right rows, by hash. *)
Definition right_present (right_ : ZSet) (condition : JoinCondition) (store : Store)
    : gmap Z (list ValueRef) :=
  map_fold (λ r_key r_weight index,
    if r_weight <=? 0 then index
    else
      let r_field := JoinOp.join_field store (right_field condition) r_key in
      if ValueRef.is_missing r_field then index
      else <[hash_value r_field := default [] (index !! hash_value r_field) ++ [r_field]]> index)
    ∅ right_.

Definition has_match (index : gmap Z (list ValueRef)) (l_field : ValueRef) : bool :=
  match index !! hash_value l_field with
  | Some matches => existsb (λ m, bool_decide (compare_values l_field m = Eq)) matches
  | None => false
  end.
End snapshots.

Module SemiJoinOp.
Section operations.
Context `{Hashing} `{OrdSet}.

Definition new (condition : JoinCondition) : SemiJoin := MkSemiJoin condition WitnessState.empty.

Definition semi_join (left_ right_ : ZSet) (condition : JoinCondition) (store : Store) : ZSet :=
  if bool_decide (left_ = ∅) then ∅
  else
    let index := right_present right_ condition store in
    if bool_decide (index = ∅) then ∅
    else
      for_each_entry (λ l_key entry l_weight,
        if l_weight <=? 0 then entry
        else
          let l_field := JoinOp.join_field store (left_field condition) l_key in
          if ValueRef.is_missing l_field then entry
          else if has_match index l_field then Some 1 else entry) ∅ left_.

Definition snapshot (self : SemiJoin) (inputs : list ZSet) (store : Store) (_ : option Sp00kyValue)
    : ZSet := semi_join (input inputs 0) (input inputs 1) (semi_on self) store.

Definition step (self : SemiJoin) (input_deltas : list ZSet) (store : Store) (_ : option Sp00kyValue)
    : ZSet * SemiJoin :=
  let '(out, state) := WitnessState.step (semi_state self) input_deltas store (semi_on self) false in
  (out, MkSemiJoin (semi_on self) state).

Definition evaluate_key (self : SemiJoin) (key : RowKey) (input_evals : list bool) (store : Store)
    (_ : option Sp00kyValue) : bool :=
  if negb (input_eval input_evals 0) then false
  else if bool_decide (left_field (semi_on self) = Path_new "id") &&
          bool_decide (right_field (semi_on self) = Path_new "id")
  then input_eval input_evals 1
  else
    let l_field := JoinOp.join_field store (left_field (semi_on self)) key in
    if ValueRef.is_missing l_field then false
    else WitnessState.has_point_witness (semi_state self) l_field.

#[global] Instance semi_join_operator : Operator SemiJoin := {|
  Operator.snapshot := snapshot;
  Operator.step := step;
  note_content_updates := λ self keys,
    MkSemiJoin (semi_on self) (WitnessState.note_content_updates (semi_state self) keys);
  integrated_input_weight := λ self port key,
    Some (WitnessState.integrated_weight (semi_state self) port key);
  arity := λ _, 2%nat;
  reset := λ self, new (semi_on self);
  needs_rebuild := default_needs_rebuild;
  op_collections := default_collections;
  initial_input := default_initial_input;
  index_uses := default_index_uses;
  Operator.evaluate_key := evaluate_key;
  reorder_key := default_reorder_key;
|}.
End operations.
End SemiJoinOp.

Module AntiJoinOp.
Section operations.
Context `{Hashing} `{OrdSet}.

Definition new (condition : JoinCondition) : AntiJoin := MkAntiJoin condition WitnessState.empty.

Definition anti_join (left_ right_ : ZSet) (condition : JoinCondition) (store : Store) : ZSet :=
  if bool_decide (left_ = ∅) then ∅
  else
    let index := right_present right_ condition store in
    for_each_entry (λ l_key entry l_weight,
      if l_weight <=? 0 then entry
      else
        let row := Store.get_row_by_key store l_key in
        if ValueRef.is_missing row then entry
        else
          let l_field := resolve_field row (left_field condition) in
          if ValueRef.is_missing l_field then Some 1
          else if negb (has_match index l_field) then Some 1 else entry) ∅ left_.

Definition snapshot (self : AntiJoin) (inputs : list ZSet) (store : Store) (_ : option Sp00kyValue)
    : ZSet := anti_join (input inputs 0) (input inputs 1) (anti_on self) store.

Definition step (self : AntiJoin) (input_deltas : list ZSet) (store : Store) (_ : option Sp00kyValue)
    : ZSet * AntiJoin :=
  let '(out, state) := WitnessState.step (anti_state self) input_deltas store (anti_on self) true in
  (out, MkAntiJoin (anti_on self) state).

Definition evaluate_key (self : AntiJoin) (key : RowKey) (input_evals : list bool) (store : Store)
    (_ : option Sp00kyValue) : bool :=
  if negb (input_eval input_evals 0) then false
  else
    let row := Store.get_row_by_key store key in
    if ValueRef.is_missing row then false
    else
      let l_field := resolve_field row (left_field (anti_on self)) in
      if ValueRef.is_missing l_field then true
      else negb (WitnessState.has_point_witness (anti_state self) l_field).

#[global] Instance anti_join_operator : Operator AntiJoin := {|
  Operator.snapshot := snapshot;
  Operator.step := step;
  note_content_updates := λ self keys,
    MkAntiJoin (anti_on self) (WitnessState.note_content_updates (anti_state self) keys);
  integrated_input_weight := λ self port key,
    Some (WitnessState.integrated_weight (anti_state self) port key);
  arity := λ _, 2%nat;
  reset := λ self, new (anti_on self);
  needs_rebuild := default_needs_rebuild;
  op_collections := default_collections;
  initial_input := default_initial_input;
  index_uses := default_index_uses;
  Operator.evaluate_key := evaluate_key;
  reorder_key := default_reorder_key;
|}.
End operations.
End AntiJoinOp.
