(* ===== verification/WitnessFacts.v ===== *)
(** * The witness index computes the presence joins

    Proves that [WitnessState.step] keeps its index exact and returns the
    difference of the join's snapshots, for the semi-join and the anti-join,
    whatever changed in the store, as long as changed rows are announced; and
    that the point lookup by summaries is the search it replaces. *)

From S2P Require Import Prelude Platform Float64 Value ValueRef ZSet SortKey Index Store Operator Plan LinearOps Join Witness.
Local Open Scope Z_scope.

Section facts.
Context `{Hashing} `{OrdSet}.
Implicit Types (v w : WitnessValue) (rows : gmap string InputRow).

(** ** Saved values stand for the values read *)

Lemma of_ref_hash x w : WitnessValue.of_ref x = Some w →
  hash_value x = hash_value (WitnessValue.as_ref w).
Proof. destruct x; intros [= <-]; done. Qed.

Lemma of_ref_compare x y w u :
  WitnessValue.of_ref x = Some w → WitnessValue.of_ref y = Some u →
  compare_values x y = compare_values (WitnessValue.as_ref w) (WitnessValue.as_ref u).
Proof. destruct x; intros [= <-]; destruct y; intros [= <-]; done. Qed.

Lemma of_ref_compare_l x w u : WitnessValue.of_ref x = Some w →
  compare_values x (WitnessValue.as_ref u) =
  compare_values (WitnessValue.as_ref w) (WitnessValue.as_ref u).
Proof. destruct x; intros [= <-]; destruct u; done. Qed.

Lemma of_ref_missing x : ValueRef.is_missing x = match WitnessValue.of_ref x with Some _ => false | None => true end.
Proof. by destruct x. Qed.

Lemma as_ref_not_missing w : ValueRef.is_missing (WitnessValue.as_ref w) = false.
Proof. by destruct w. Qed.

(** ** Counting the right rows *)

Definition ind (P : WitnessValue → bool) (row : InputRow) : Z :=
  match ir_value row with Some v => if P v then 1 else 0 | None => 0 end.

Definition count (P : WitnessValue → bool) rows : Z := msum (λ _, ind P) rows.

Definition is_value v w : bool := bool_decide (w = v).

Lemma ind_range P row : 0 <= ind P row <= 1.
Proof. unfold ind. destruct (ir_value row) as [v|]; [destruct (P v)|]; lia. Qed.

Lemma count_range P rows : 0 <= count P rows <= Z.of_nat (size rows).
Proof.
  split; [apply msum_nonneg|apply msum_le_size]; intros k row _; apply ind_range.
Qed.

Lemma count_pos P rows : 0 < count P rows ↔
  ∃ k row v, rows !! k = Some row ∧ ir_value row = Some v ∧ P v = true.
Proof.
  unfold count. rewrite msum_pos by (intros; apply ind_range). split.
  - intros (k & row & Hk & Hp). unfold ind in Hp.
    destruct (ir_value row) as [v|] eqn:Ev; [|lia]. destruct (P v) eqn:EP; [|lia]. eauto 6.
  - intros (k & row & v & Hk & Hv & HP). exists k, row. split; [done|].
    unfold ind. rewrite Hv, HP. lia.
Qed.

Lemma count_value_pos v rows :
  0 < count (is_value v) rows ↔ ∃ k row, rows !! k = Some row ∧ ir_value row = Some v.
Proof.
  rewrite count_pos. unfold is_value. split.
  - intros (k & row & u & Hk & Hu & ->%bool_decide_eq_true_1). eauto.
  - intros (k & row & Hk & Hv). exists k, row, v. rewrite bool_decide_eq_true_2; auto.
Qed.

(** ** Wrapping counters *)

Lemma wrap_u64_i64 a b : wrap_u64 (i64_add (wrap_i64 a) b) = wrap_u64 (a + b).
Proof.
  unfold wrap_u64, i64_add. rewrite wrap_add_l. apply wrap_i64_mod.
Qed.

Lemma usize_add_spec x d : usize_add x d = wrap_u64 (x + d).
Proof. apply wrap_u64_i64. Qed.

Lemma wrap_u64_id x : in_u64 x → wrap_u64 x = x.
Proof. intros Hx. unfold wrap_u64. apply Z.mod_small. width_lia. Qed.

Lemma wrap_u64_range x : in_u64 (wrap_u64 x).
Proof. unfold wrap_u64, in_u64. by apply Z.mod_pos_bound. Qed.

Lemma wrap_u64_wrap_i64 a b : wrap_u64 (a + wrap_i64 b) = wrap_u64 (a + b).
Proof.
  unfold wrap_u64. by rewrite Zplus_mod, wrap_i64_mod, <- Zplus_mod.
Qed.

Lemma wrap_u64_add_l a b : wrap_u64 (wrap_u64 a + b) = wrap_u64 (a + b).
Proof. unfold wrap_u64. by rewrite Zplus_mod_idemp_l. Qed.

(** ** The loop over the left rows *)

(** What a visited key holds afterwards. *)
Definition refreshed (delta : ZSet) (field : Path) (store : Store) rows (key : RowKey)
    : option InputRow :=
  let w := i64_add (from_option ir_weight 0 (rows !! key)) (weight delta key) in
  if w =? 0 then None else Some (WitnessState.read key w field store).

Definition bucket_inv rows (by_hash : gmap Z (gset string)) : Prop :=
  ∀ h k, k ∈ default ∅ (by_hash !! h) ↔ (rows !! k ≫= WitnessState.hash) = Some h.

Lemma remove_bucket_spec by_hash h key h' k :
  k ∈ default ∅ (WitnessState.remove_bucket by_hash h key !! h') ↔
  k ∈ default ∅ (by_hash !! h') ∧ ¬ (h' = h ∧ k = key).
Proof.
  unfold WitnessState.remove_bucket. destruct (by_hash !! h) as [b|] eqn:E.
  - destruct (decide (h' = h)) as [->|Hne].
    + rewrite E. simpl. case_bool_decide as Hb.
      * rewrite lookup_delete_eq. simpl. set_solver.
      * rewrite lookup_insert_eq. simpl. set_solver.
    + case_bool_decide; rewrite ?lookup_delete_ne, ?lookup_insert_ne by done; naive_solver.
  - destruct (decide (h' = h)) as [->|Hne]; [|naive_solver]. rewrite E. simpl. set_solver.
Qed.

Lemma insert_bucket_spec (by_hash : gmap Z (gset string)) h key h' k :
  k ∈ default ∅ (<[h := default ∅ (by_hash !! h) ∪ {[key]}]> by_hash !! h') ↔
  k ∈ default ∅ (by_hash !! h') ∨ (h' = h ∧ k = key).
Proof.
  destruct (decide (h' = h)) as [->|Hne].
  - rewrite lookup_insert_eq. simpl. set_solver.
  - rewrite lookup_insert_ne by done. naive_solver.
Qed.

Lemma left_visit_rows delta field store rows by_hash key k :
  (WitnessState.left_visit delta field store (rows, by_hash) key).1 !! k =
  if bool_decide (k = key) then refreshed delta field store rows key else rows !! k.
Proof.
  unfold WitnessState.left_visit, refreshed. case_bool_decide as E; [subst|];
    destruct (_ =? 0); simpl;
    rewrite ?lookup_delete_eq, ?lookup_insert_eq, ?lookup_insert_ne, ?lookup_delete_ne by done; done.
Qed.

Lemma left_visit_buckets delta field store rows by_hash key :
  bucket_inv rows by_hash →
  bucket_inv (WitnessState.left_visit delta field store (rows, by_hash) key).1
    (WitnessState.left_visit delta field store (rows, by_hash) key).2.
Proof.
  unfold bucket_inv. intros Hinv h k. rewrite left_visit_rows. unfold WitnessState.left_visit, refreshed.
  set (w := i64_add _ _). set (row := WitnessState.read key w field store).
  set (by1 := match rows !! key ≫= WitnessState.hash with
    | Some h => WitnessState.remove_bucket by_hash h key | None => by_hash end).
  assert (∀ h k, k ∈ default ∅ (by1 !! h) ↔
    k ≠ key ∧ (rows !! k ≫= WitnessState.hash) = Some h) as H1.
  { intros h' k'. unfold by1. destruct (rows !! key ≫= _) as [h0|] eqn:E.
    - rewrite remove_bucket_spec, Hinv. destruct (decide (k' = key)) as [->|]; [|naive_solver].
      rewrite E. naive_solver.
    - rewrite Hinv. destruct (decide (k' = key)) as [->|]; [|naive_solver].
      rewrite E. naive_solver. }
  case_bool_decide as E.
  - subst k. destruct (w =? 0); simpl; [rewrite H1; naive_solver|].
    destruct (WitnessState.hash row) as [h0|] eqn:Eh; simpl;
      [rewrite insert_bucket_spec, H1|rewrite H1]; naive_solver.
  - destruct (w =? 0); simpl; [rewrite H1; naive_solver|].
    destruct (WitnessState.hash row) as [h0|] eqn:Eh; simpl;
      [rewrite insert_bucket_spec, H1|rewrite H1]; naive_solver.
Qed.

Lemma left_loop delta field store ks rows by_hash :
  NoDup ks → bucket_inv rows by_hash →
  let '(rows', by_hash') := foldl (WitnessState.left_visit delta field store) (rows, by_hash) ks in
  bucket_inv rows' by_hash' ∧
  ∀ k, rows' !! k = if bool_decide (k ∈ ks) then refreshed delta field store rows k else rows !! k.
Proof.
  revert rows by_hash. induction ks as [|key ks IH]; intros rows by_hash Hnd Hinv; [done|].
  apply NoDup_cons in Hnd as [Hk Hnd]. cbn [foldl].
  pose proof (left_visit_buckets delta field store rows by_hash key Hinv) as Hinv'.
  pose proof (left_visit_rows delta field store rows by_hash key) as Hrows.
  destruct (WitnessState.left_visit _ _ _ _ _) as [rows1 by1]. simpl in *.
  specialize (IH rows1 by1 Hnd Hinv'). set (r := foldl _ _ ks) in *. destruct r as [rows2 by2].
  destruct IH as [Hb Hr]. split; [done|]. intros k. rewrite Hr. unfold refreshed.
  rewrite !Hrows. destruct (decide (k = key)) as [->|Hne].
  - rewrite (bool_decide_eq_false_2 (key ∈ ks)), (bool_decide_eq_true_2 (key ∈ key :: ks)),
      bool_decide_eq_true_2 by set_solver. done.
  - rewrite (bool_decide_eq_false_2 (k = key)) by done.
    rewrite (bool_decide_ext (k ∈ ks) (k ∈ key :: ks)); [done|set_solver].
Qed.

(** ** The loop over the right rows *)

Definition deltas_sum (P : WitnessValue → bool) (wd : gmap WitnessValue Z) : Z :=
  msum (λ v d, if P v then d else 0) wd.

Lemma bump_sum P v d wd :
  wrap_i64 (deltas_sum P (WitnessState.bump v d wd)) =
  wrap_i64 (deltas_sum P wd + if P v then d else 0).
Proof.
  unfold deltas_sum, WitnessState.bump.
  rewrite msum_insert_delete, (msum_delete _ wd v).
  destruct (P v); [|f_equal; destruct (wd !! v); simpl; lia].
  unfold i64_add. rewrite wrap_add_l. f_equal. destruct (wd !! v); simpl; lia.
Qed.

(** The net changes against the rows the loop started from. *)
Definition net_inv rows0 rows (wd : gmap WitnessValue Z) : Prop :=
  (∀ P, wrap_i64 (deltas_sum P wd) = wrap_i64 (count P rows - count P rows0)) ∧
  map_Forall (λ _ d, in_i64 d) wd.

Lemma bump_range v d wd :
  map_Forall (λ _ d, in_i64 d) wd → map_Forall (λ _ d, in_i64 d) (WitnessState.bump v d wd).
Proof. intros Hwd. apply map_Forall_insert_2; [apply wrap_i64_range|done]. Qed.

Lemma right_visit_rows delta field store rows wd key k :
  (WitnessState.right_visit delta field store (rows, wd) key).1 !! k =
  if bool_decide (k = key) then refreshed delta field store rows key else rows !! k.
Proof.
  unfold WitnessState.right_visit, refreshed. case_bool_decide as E; [subst|];
    destruct (_ =? 0); simpl;
    rewrite ?lookup_delete_eq, ?lookup_insert_eq, ?lookup_insert_ne, ?lookup_delete_ne by done; done.
Qed.

Lemma right_visit_net delta field store rows0 rows wd key :
  net_inv rows0 rows wd →
  net_inv rows0 (WitnessState.right_visit delta field store (rows, wd) key).1
    (WitnessState.right_visit delta field store (rows, wd) key).2.
Proof.
  intros [Hsum Hr]. unfold WitnessState.right_visit. set (w := i64_add _ _).
  set (row := WitnessState.read key w field store).
  set (wd1 := match rows !! key ≫= ir_value with
    | Some v => WitnessState.bump v (-1) wd | None => wd end).
  assert (net_inv rows0 (delete key rows) wd1) as [Hsum1 Hr1].
  { split.
    - intros P. specialize (Hsum P). unfold count in *.
      rewrite (msum_delete _ rows key) in Hsum. unfold wd1.
      destruct (rows !! key) as [r|]; simpl in *; [|rewrite Hsum; f_equal; lia].
      unfold ind at 1 in Hsum. destruct (ir_value r) as [v|]; simpl in *; [|rewrite Hsum; f_equal; lia].
      rewrite bump_sum, <- wrap_add_l, Hsum, wrap_add_l. f_equal. destruct (P v); lia.
    - unfold wd1. destruct (_ ≫= ir_value); [by apply bump_range|done]. }
  destruct (w =? 0); cbn [fst snd]; [by split|]. split.
  - intros P. unfold count. rewrite msum_insert by apply lookup_delete_eq.
    specialize (Hsum1 P). unfold count in Hsum1. unfold ind at 1.
    destruct (ir_value row) as [v|]; [|rewrite Hsum1; f_equal; lia].
    rewrite bump_sum, <- wrap_add_l, Hsum1, wrap_add_l. f_equal. destruct (P v); lia.
  - destruct (ir_value row); [by apply bump_range|done].
Qed.

Lemma right_loop delta field store rows0 ks rows wd :
  NoDup ks → net_inv rows0 rows wd →
  let '(rows', wd') := foldl (WitnessState.right_visit delta field store) (rows, wd) ks in
  net_inv rows0 rows' wd' ∧
  ∀ k, rows' !! k = if bool_decide (k ∈ ks) then refreshed delta field store rows k else rows !! k.
Proof.
  revert rows wd. induction ks as [|key ks IH]; intros rows wd Hnd Hinv; [done|].
  apply NoDup_cons in Hnd as [Hk Hnd]. cbn [foldl].
  pose proof (right_visit_net delta field store rows0 rows wd key Hinv) as Hinv'.
  pose proof (right_visit_rows delta field store rows wd key) as Hrows.
  destruct (WitnessState.right_visit _ _ _ _ _) as [rows1 wd1]. simpl in *.
  specialize (IH rows1 wd1 Hnd Hinv'). set (r := foldl _ _ ks) in *. destruct r as [rows2 wd2].
  destruct IH as [Hb Hr]. split; [done|]. intros k. rewrite Hr. unfold refreshed.
  rewrite !Hrows. destruct (decide (k = key)) as [->|Hne].
  - rewrite (bool_decide_eq_false_2 (key ∈ ks)), (bool_decide_eq_true_2 (key ∈ key :: ks)),
      bool_decide_eq_true_2 by set_solver. done.
  - rewrite (bool_decide_eq_false_2 (k = key)) by done.
    rewrite (bool_decide_ext (k ∈ ks) (k ∈ key :: ks)); [done|set_solver].
Qed.

Lemma net_inv_value rows0 rows wd v : net_inv rows0 rows wd →
  default 0 (wd !! v) = wrap_i64 (count (is_value v) rows - count (is_value v) rows0).
Proof.
  intros [Hsum Hr]. rewrite <- Hsum. unfold deltas_sum. rewrite (msum_delete _ wd v).
  rewrite (msum_ext _ (λ _ _, 0)).
  2: { intros u d [Hu _]%lookup_delete_Some. unfold is_value. by rewrite bool_decide_eq_false_2. }
  assert (msum (λ (_ : WitnessValue) (_ : Z), 0) (delete v wd) = 0) as ->.
  { apply Z.le_antisymm; [|by apply msum_nonneg].
    assert (¬ 0 < msum (λ (_ : WitnessValue) (_ : Z), 0) (delete v wd)); [|lia].
    rewrite msum_pos by done. naive_solver lia. }
  destruct (wd !! v) as [d|] eqn:E; simpl; [|done].
  unfold is_value. rewrite bool_decide_eq_true_2, Z.add_0_r by done.
  symmetry. apply wrap_i64_id, (Hr v d E).
Qed.

(** ** The loop over the net changes *)

(** The hash buckets hold exactly the counted values, each under its hash. *)
Definition hash_inv (by_hash : gmap Z (gmap WitnessValue Z)) (f : WitnessValue → Z) : Prop :=
  ∀ h v, default ∅ (by_hash !! h) !! v =
    if bool_decide (h = hash_value (WitnessValue.as_ref v)) && (0 <? f v) then Some (f v) else None.

Definition bumped (f : WitnessValue → Z) (v : WitnessValue) (d : Z) (u : WitnessValue) : Z :=
  if bool_decide (u = v) then usize_add (f v) d else f u.

Lemma net_visit_hash acc f v d :
  (∀ u, in_u64 (f u)) → hash_inv (WitnessState.nt_by_hash acc) f →
  hash_inv (WitnessState.nt_by_hash (WitnessState.net_visit acc (v, d))) (bumped f v d) ∧
  ∀ h, h ∈ WitnessState.nt_changed (WitnessState.net_visit acc (v, d)) ↔
    h ∈ WitnessState.nt_changed acc ∨
    (h = hash_value (WitnessValue.as_ref v) ∧ (0 <? f v) ≠ (0 <? bumped f v d v)).
Proof.
  intros Hf Hinv. unfold WitnessState.net_visit. unfold bumped at 2.
  rewrite (bool_decide_eq_true_2 (v = v)) by done.
  set (h0 := hash_value (WitnessValue.as_ref v)).
  destruct (Z.eqb_spec d 0) as [->|Hd].
  { rewrite usize_add_spec, Z.add_0_r, wrap_u64_id by done. split; [|naive_solver].
    intros h u. rewrite Hinv. unfold bumped. case_bool_decide as E1; destruct (decide (u = v)) as [->|];
    rewrite ?(bool_decide_eq_true_2 (v = v)), ?(bool_decide_eq_false_2 (u = v)),
      ?usize_add_spec, ?Z.add_0_r, ?wrap_u64_id by done; done. }
  assert (default 0 (default ∅ (WitnessState.nt_by_hash acc !! h0) !! v) = f v) as Hold.
  { rewrite Hinv. rewrite bool_decide_eq_true_2 by done. simpl.
    destruct (Z.ltb_spec 0 (f v)); simpl; [done|]. specialize (Hf v). width_lia. }
  simpl. rewrite Hold. set (new := usize_add (f v) d).
  assert (0 <= new) as Hnew by (unfold new; rewrite usize_add_spec; apply wrap_u64_range).
  split.
  - intros h u. set (b := default ∅ (WitnessState.nt_by_hash acc !! h0)).
    assert (∀ m : gmap WitnessValue Z, default ∅
      ((if bool_decide (m = ∅) then delete h0 (WitnessState.nt_by_hash acc)
        else <[h0 := m]> (WitnessState.nt_by_hash acc)) !! h) !! u =
      if bool_decide (h = h0) then m !! u else default ∅ (WitnessState.nt_by_hash acc !! h) !! u) as Hput.
    { intros m. destruct (decide (h = h0)) as [->|Hne].
      - rewrite (bool_decide_eq_true_2 (h0 = h0)) by done.
        case_bool_decide as Em; [subst|]; rewrite ?lookup_delete_eq, ?lookup_insert_eq; done.
      - rewrite (bool_decide_eq_false_2 (h = h0)) by done.
        case_bool_decide; rewrite ?lookup_delete_ne, ?lookup_insert_ne by done; done. }
    assert (default ∅ ((if new =? 0 then
          if bool_decide (delete v b = ∅) then delete h0 (WitnessState.nt_by_hash acc)
          else <[h0 := delete v b]> (WitnessState.nt_by_hash acc)
        else <[h0 := <[v := new]> b]> (WitnessState.nt_by_hash acc)) !! h) !! u =
      if bool_decide (h = h0) then (if new =? 0 then delete v b else <[v := new]> b) !! u
      else default ∅ (WitnessState.nt_by_hash acc !! h) !! u) as ->.
    { destruct (new =? 0); [apply Hput|].
      specialize (Hput (<[v := new]> b)).
      by rewrite bool_decide_eq_false_2 in Hput by apply insert_non_empty. }
    unfold bumped. destruct (decide (u = v)) as [->|Hne].
    + rewrite (bool_decide_eq_true_2 (v = v)) by done. fold new h0.
      case_bool_decide as Eh.
      * destruct (Z.eqb_spec new 0) as [E|E];
          rewrite ?lookup_delete_eq, ?lookup_insert_eq; simpl;
          [rewrite E; done|]. by rewrite (proj2 (Z.ltb_lt 0 new)) by lia.
      * rewrite Hinv. by rewrite bool_decide_eq_false_2.
    + rewrite (bool_decide_eq_false_2 (u = v)) by done. case_bool_decide as Eh.
      * subst h. rewrite <- Hinv. fold b.
        destruct (new =? 0); rewrite ?lookup_delete_ne, ?lookup_insert_ne by done; done.
      * apply Hinv.
  - intros h. destruct (0 <? f v), (0 <? new); simpl; set_solver.
Qed.

Lemma bumped_range f v d : (∀ u, in_u64 (f u)) → ∀ u, in_u64 (bumped f v d u).
Proof.
  intros Hf u. unfold bumped. case_bool_decide; [|done].
  rewrite usize_add_spec. apply wrap_u64_range.
Qed.

(** What a list of net changes adds to a value's count. *)
Definition list_delta (l : list (WitnessValue * Z)) (v : WitnessValue) : Z :=
  foldr (λ e acc, (if bool_decide (e.1 = v) then e.2 else 0) + acc) 0 l.

Lemma list_delta_notin l v : v ∉ l.*1 → list_delta l v = 0.
Proof.
  unfold list_delta. induction l as [|[u d] l IH]; simpl; [done|]. intros Hv.
  rewrite bool_decide_eq_false_2 by set_solver. rewrite IH; set_solver.
Qed.

Lemma net_loop_hash l acc f :
  NoDup l.*1 → (∀ u, in_u64 (f u)) → hash_inv (WitnessState.nt_by_hash acc) f →
  let acc' := foldl WitnessState.net_visit acc l in
  let f' u := usize_add (f u) (list_delta l u) in
  hash_inv (WitnessState.nt_by_hash acc') f' ∧
  ∀ v, (0 <? f v) ≠ (0 <? f' v) →
    hash_value (WitnessValue.as_ref v) ∈ WitnessState.nt_changed acc'.
Proof.
  revert acc f. induction l as [|[v d] l IH]; intros acc f Hnd Hf Hinv; cbn [foldl].
  - assert (∀ u, usize_add (f u) (list_delta [] u) = f u) as Hid.
    { intros u. rewrite usize_add_spec. simpl. by rewrite Z.add_0_r, wrap_u64_id. }
    split; [intros h u; by rewrite Hinv, Hid|]. intros u. by rewrite Hid.
  - apply NoDup_cons in Hnd as [Hv Hnd].
    destruct (net_visit_hash acc f v d Hf Hinv) as [Hinv1 Hch1].
    set (acc1 := WitnessState.net_visit acc (v, d)) in *.
    specialize (IH acc1 (bumped f v d) Hnd (bumped_range f v d Hf) Hinv1) as [Hinv2 Hch2].
    assert (∀ u, usize_add (bumped f v d u) (list_delta l u) =
                 usize_add (f u) (list_delta ((v, d) :: l) u)) as Hstep.
    { intros u. unfold bumped. simpl. destruct (decide (u = v)) as [->|Hne].
      - rewrite !bool_decide_eq_true_2, !usize_add_spec, wrap_u64_add_l by done. f_equal. lia.
      - rewrite !bool_decide_eq_false_2 by congruence. f_equal; lia. }
    split; [intros h u; by rewrite Hinv2, Hstep|].
    intros u Hu. rewrite <- Hstep in Hu. destruct (decide (u = v)) as [->|Hne].
    + destruct (decide ((0 <? f v) = (0 <? bumped f v d v))) as [E|E].
      * apply Hch2. by rewrite <- E.
      * assert (∀ l acc h, h ∈ WitnessState.nt_changed acc →
          h ∈ WitnessState.nt_changed (foldl WitnessState.net_visit acc l)) as Hmono.
        { clear. induction l as [|[v d] l IH]; intros acc h Hh; cbn [foldl]; [done|].
          apply IH. unfold WitnessState.net_visit. destruct (d =? 0); [done|]. simpl.
          destruct (xorb _ _); set_solver. }
        apply Hmono, Hch1. by right.
    + apply Hch2. intros E. apply Hu. rewrite <- E. unfold bumped.
      by rewrite bool_decide_eq_false_2.
Qed.

Lemma net_loop_kinds l acc i :
  length (WitnessState.nt_kinds acc) = 7%nat →
  length (WitnessState.nt_kinds (foldl WitnessState.net_visit acc l)) = 7%nat ∧
  wrap_u64 (nth i (WitnessState.nt_kinds (foldl WitnessState.net_visit acc l)) 0) =
  wrap_u64 (nth i (WitnessState.nt_kinds acc) 0 +
    foldr (λ e acc, (if bool_decide (WitnessValue.kind e.1 = i) then e.2 else 0) + acc) 0 l).
Proof.
  revert acc. induction l as [|[v d] l IH]; intros acc Hlen; cbn [foldl foldr fst snd].
  { by rewrite Z.add_0_r. }
  set (acc1 := WitnessState.net_visit acc (v, d)).
  assert (length (WitnessState.nt_kinds acc1) = 7%nat ∧
    wrap_u64 (nth i (WitnessState.nt_kinds acc1) 0) =
    wrap_u64 (nth i (WitnessState.nt_kinds acc) 0 +
      if bool_decide (WitnessValue.kind v = i) then d else 0)) as [Hlen1 H1].
  { unfold acc1, WitnessState.net_visit. destruct (Z.eqb_spec d 0) as [->|Hd].
    { split; [done|]. destruct (bool_decide _); f_equal; lia. }
    cbn [WitnessState.nt_kinds]. split; [by rewrite length_alter|].
    rewrite !nth_lookup. case_bool_decide as E.
    - subst i. rewrite list_lookup_alter_eq.
      destruct (WitnessState.nt_kinds acc !! WitnessValue.kind v) as [c|] eqn:Ec; simpl.
      + rewrite usize_add_spec. unfold wrap_u64. by rewrite Zmod_mod.
      + exfalso. apply lookup_ge_None in Ec. rewrite Hlen in Ec. destruct v; simpl in Ec; lia.
    - rewrite list_lookup_alter_ne by done. f_equal; lia. }
  destruct (IH acc1 Hlen1) as [Hlen2 H2]. split; [done|]. rewrite H2.
  rewrite <- wrap_u64_add_l, H1, wrap_u64_add_l. f_equal. lia.
Qed.

Lemma net_loop_nan l acc :
  wrap_u64 (WitnessState.nt_nan (foldl WitnessState.net_visit acc l)) =
  wrap_u64 (WitnessState.nt_nan acc +
    foldr (λ e acc, (if WitnessValue.is_nan e.1 then e.2 else 0) + acc) 0 l).
Proof.
  revert acc. induction l as [|[v d] l IH]; intros acc; cbn [foldl foldr fst snd].
  { by rewrite Z.add_0_r. }
  rewrite IH. unfold WitnessState.net_visit at 1. destruct (Z.eqb_spec d 0) as [->|Hd].
  { destruct (WitnessValue.is_nan v); f_equal; lia. }
  cbn [WitnessState.nt_nan]. destruct (WitnessValue.is_nan v); [|done].
  rewrite usize_add_spec, wrap_u64_add_l. f_equal. lia.
Qed.

(** The counters stay in range. *)
Lemma net_loop_range l acc :
  Forall in_u64 (WitnessState.nt_kinds acc) → in_u64 (WitnessState.nt_nan acc) →
  Forall in_u64 (WitnessState.nt_kinds (foldl WitnessState.net_visit acc l)) ∧
  in_u64 (WitnessState.nt_nan (foldl WitnessState.net_visit acc l)).
Proof.
  revert acc. induction l as [|[v d] l IH]; intros acc Hk Hn; cbn [foldl]; [done|].
  apply IH; unfold WitnessState.net_visit; destruct (d =? 0); try done;
    cbn [WitnessState.nt_kinds WitnessState.nt_nan].
  - apply Forall_alter; [done|]. intros x _ _. rewrite usize_add_spec. apply wrap_u64_range.
  - destruct (WitnessValue.is_nan v); [|done]. rewrite usize_add_spec. apply wrap_u64_range.
Qed.

Lemma deltas_sum_list P wd :
  deltas_sum P wd = foldr (λ e acc, (if P e.1 then e.2 else 0) + acc) 0 (map_to_list wd).
Proof.
  unfold deltas_sum, msum. rewrite map_fold_foldr. by apply foldr_ext; [intros [??] ?|..].
Qed.

(** ** Looking for a witness *)

Lemma bucket_has_spec by_hash f x : hash_inv by_hash f →
  WitnessState.bucket_has by_hash x = true ↔
  ValueRef.is_missing x = false ∧ ∃ v, 0 < f v ∧
    hash_value x = hash_value (WitnessValue.as_ref v) ∧
    compare_values x (WitnessValue.as_ref v) = Eq.
Proof.
  intros Hinv. unfold WitnessState.bucket_has.
  destruct (ValueRef.is_missing x); [naive_solver|].
  pose proof (Hinv (hash_value x)) as Hx.
  destruct (by_hash !! hash_value x) as [b|]; simpl in Hx.
  - rewrite existsb_exists. setoid_rewrite <- list_elem_of_In.
    split.
    + intros ([v c] & Hin%elem_of_map_to_list & Hc%bool_decide_eq_true_1).
      split; [done|]. exists v. rewrite Hx in Hin.
      destruct (bool_decide _) eqn:Eh; [|done]. apply bool_decide_eq_true_1 in Eh.
      destruct (Z.ltb_spec 0 (f v)); done.
    + intros (_ & v & Hf & Hh & Hc). exists (v, f v).
      split; [|by rewrite bool_decide_eq_true_2]. apply elem_of_map_to_list. rewrite Hx.
      rewrite bool_decide_eq_true_2 by done. by rewrite (proj2 (Z.ltb_lt _ _)).
  - split; [done|]. intros (_ & v & Hf & Hh & Hc). specialize (Hx v).
    rewrite lookup_empty, bool_decide_eq_true_2, (proj2 (Z.ltb_lt _ _)) in Hx by done. done.
Qed.

(** ** The loop over the affected keys *)

Lemma emit_loop present ks out held :
  NoDup ks → (∀ k, k ∈ ks → out !! k = None) →
  let '(out', held') := foldl (WitnessState.emit_visit present) (out, held) ks in
  (∀ k, out' !! k = if bool_decide (k ∈ ks) then
      (if Bool.eqb (present k) (bool_decide (k ∈ held)) then None
       else Some (if present k then 1 else -1)) else out !! k) ∧
  (∀ k, k ∈ held' ↔ if bool_decide (k ∈ ks) then present k = true else k ∈ held).
Proof.
  revert out held. induction ks as [|key ks IH]; intros out held Hnd Hout; [done|].
  apply NoDup_cons in Hnd as [Hk Hnd]. cbn [foldl].
  destruct (WitnessState.emit_visit present (out, held) key) as [out1 held1] eqn:E.
  assert (∀ k, out1 !! k = if bool_decide (k = key) then
      (if Bool.eqb (present k) (bool_decide (k ∈ held)) then None
       else Some (if present k then 1 else -1)) else out !! k) as Hout1.
  { intros k. unfold WitnessState.emit_visit in E. destruct (decide (k = key)) as [->|Hne].
    - rewrite (bool_decide_eq_true_2 (key = key)) by done.
      destruct (Bool.eqb _ _); [injection E as <- <-; apply Hout; set_solver|].
      destruct (present key); injection E as <- <-; by rewrite lookup_insert_eq.
    - rewrite (bool_decide_eq_false_2 (k = key)) by done.
      destruct (Bool.eqb _ _); [by injection E as <- <-|].
      destruct (present key); injection E as <- <-; by rewrite lookup_insert_ne. }
  assert (∀ k, k ∈ held1 ↔ if bool_decide (k = key) then present k = true else k ∈ held) as Hheld1.
  { intros k. unfold WitnessState.emit_visit in E. clear Hout1 IH Hout.
    destruct (decide (k = key)) as [->|Hne].
    - rewrite (bool_decide_eq_true_2 (key = key)) by done.
      destruct (present key) eqn:Ep, (bool_decide (key ∈ held)) eqn:Eb; simpl in E;
        injection E as <- <-; try apply bool_decide_eq_true_1 in Eb;
        try apply bool_decide_eq_false_1 in Eb; set_solver.
    - rewrite (bool_decide_eq_false_2 (k = key)) by done.
      destruct (Bool.eqb _ _); [by injection E as <- <-|].
      destruct (present key); injection E as <- <-; set_solver. }
  specialize (IH out1 held1 Hnd). set (r := foldl _ _ ks) in *. destruct r as [out2 held2].
  destruct IH as [Ho Hh].
  { intros k Hin. rewrite Hout1, bool_decide_eq_false_2 by set_solver. apply Hout. set_solver. }
  assert (∀ k, k ∈ ks → (k ∈ held1 ↔ k ∈ held)) as Hsame.
  { intros k Hin. rewrite Hheld1, bool_decide_eq_false_2; [done|set_solver]. }
  split; intros k.
  - rewrite Ho. destruct (decide (k ∈ ks)) as [Hin|Hin].
    + rewrite (bool_decide_eq_true_2 (k ∈ ks) Hin), (bool_decide_eq_true_2 (k ∈ key :: ks)) by set_solver.
      by rewrite (bool_decide_ext (k ∈ held1) (k ∈ held)) by (by apply Hsame).
    + rewrite (bool_decide_eq_false_2 (k ∈ ks)) by done. rewrite Hout1.
      rewrite (bool_decide_ext (k = key) (k ∈ key :: ks)) by set_solver. done.
  - rewrite Hh. destruct (decide (k ∈ ks)) as [Hin|Hin].
    + rewrite (bool_decide_eq_true_2 (k ∈ ks) Hin), (bool_decide_eq_true_2 (k ∈ key :: ks)) by set_solver. done.
    + rewrite (bool_decide_eq_false_2 (k ∈ ks)) by done. rewrite Hheld1.
      rewrite (bool_decide_ext (k = key) (k ∈ key :: ks)) by set_solver. done.
Qed.

(** ** The invariant *)

(** What the state keeps of a key of an integrated input. *)
Definition row_at (field : Path) (store : Store) (z : ZSet) (k : RowKey) : option InputRow :=
  if weight z k =? 0 then None else Some (WitnessState.read k (weight z k) field store).

(** Whether the join keeps a left row: the row is there, and has a match or
    (anti) has none. *)
Definition witnessed (condition : JoinCondition) (store : Store) (right_ : ZSet) (k : RowKey) : Prop :=
  ∃ r, 0 < weight right_ r ∧ rows_join condition store k r = true.

Definition kept (anti : bool) (condition : JoinCondition) (store : Store) (left_ right_ : ZSet)
    (k : RowKey) : Prop :=
  0 < weight left_ k ∧ ValueRef.is_missing (Store.get_row_by_key store k) = false ∧
  if anti then ¬ witnessed condition store right_ k else witnessed condition store right_ k.

Record ws_inv (st : WitnessState) (condition : JoinCondition) (anti : bool) (store : Store)
    (left_ right_ : ZSet) : Prop := {
  wi_left : ∀ k, ws_left st !! k = row_at (left_field condition) store left_ k;
  wi_right : ∀ k, ws_right st !! k = row_at (right_field condition) store right_ k;
  wi_buckets : bucket_inv (ws_left st) (left_by_hash st);
  wi_hash : hash_inv (right_by_hash st) (λ v, count (is_value v) (ws_right st));
  wi_len : length (right_kind_counts st) = 7%nat;
  wi_kinds : ∀ i, (i < 7)%nat → nth i (right_kind_counts st) 0 =
    count (λ v, bool_decide (WitnessValue.kind v = i)) (ws_right st);
  wi_nan : right_nan_count st = count WitnessValue.is_nan (ws_right st);
  wi_output : ∀ k, k ∈ ws_output st ↔ kept anti condition store left_ right_ k;
}.

(** Rows that are neither in the delta nor announced read as they did; the
    right side has fewer than 2^63 keys. *)
Definition witness_stable (st : WitnessState) (condition : JoinCondition) (store store' : Store)
    (left_ right_ d0 d1 : ZSet) : Prop :=
  (∀ k, weight left_ k ≠ 0 → d0 !! k = None → k ∉ content_updates st →
    WitnessState.read k (weight left_ k) (left_field condition) store =
    WitnessState.read k (weight left_ k) (left_field condition) store') ∧
  (∀ k, weight right_ k ≠ 0 → d1 !! k = None → k ∉ content_updates st →
    WitnessState.read k (weight right_ k) (right_field condition) store =
    WitnessState.read k (weight right_ k) (right_field condition) store') ∧
  Z.of_nat (size right_) < two63 ∧ Z.of_nat (size (ZSet.add right_ d1)) < two63.

Lemma row_at_size field store z rows : (∀ k, rows !! k = row_at field store z k) →
  Z.of_nat (size rows) <= Z.of_nat (size z).
Proof.
  intros Hrows. rewrite <- !(size_dom (D := gset string)).
  apply inj_le, subseteq_size. intros k. rewrite !elem_of_dom, Hrows. unfold row_at, weight.
  destruct (z !! k); [by eexists|]. simpl. by intros [].
Qed.

Lemma row_at_value field store z k v :
  (∃ row, row_at field store z k = Some row ∧ ir_value row = Some v) ↔
  0 < weight z k ∧ WitnessValue.of_ref (JoinOp.join_field store field k) = Some v.
Proof.
  unfold row_at, WitnessState.read. fold (JoinOp.join_field store field k). split.
  - intros (row & Hrow & Hv). destruct (Z.eqb_spec (weight z k) 0); [done|].
    injection Hrow as <-. simpl in Hv. destruct (Z.leb_spec (weight z k) 0); [done|].
    simpl in Hv. by destruct (ValueRef.is_missing _).
  - intros [Hp Hv]. rewrite (proj2 (Z.eqb_neq _ _)) by lia. eexists; split; [done|]. simpl.
    rewrite (proj2 (Z.leb_gt _ _)) by lia. rewrite of_ref_missing, Hv. done.
Qed.

(** The row test against the index is the specification. *)
Lemma row_present_spec anti condition store left_ right_ rows by_hash k :
  (∀ k, rows !! k = row_at (right_field condition) store right_ k) →
  hash_inv by_hash (λ v, count (is_value v) rows) →
  match row_at (left_field condition) store left_ k with
  | Some row => WitnessState.row_present anti by_hash row | None => false end = true ↔
  kept anti condition store left_ right_ k.
Proof.
  intros Hrows Hinv. unfold kept.
  assert (∀ u, WitnessState.bucket_has by_hash (WitnessValue.as_ref u) = true ↔
    ∃ r w, 0 < weight right_ r ∧
      WitnessValue.of_ref (JoinOp.join_field store (right_field condition) r) = Some w ∧
      hash_value (WitnessValue.as_ref u) = hash_value (WitnessValue.as_ref w) ∧
      compare_values (WitnessValue.as_ref u) (WitnessValue.as_ref w) = Eq) as Hb.
  { intros u. rewrite (bucket_has_spec _ _ _ Hinv), as_ref_not_missing.
    setoid_rewrite count_value_pos. setoid_rewrite Hrows.
    split.
    - intros (_ & w & (r & row & Hr & Hv) & Hh & Hc).
      destruct (proj1 (row_at_value (right_field condition) store right_ r w)) as [??]; eauto 8.
    - intros (r & w & Hp & Hv & Hh & Hc). split; [done|]. exists w. split; [|done].
      destruct (proj2 (row_at_value (right_field condition) store right_ r w)) as (row & ? & ?); eauto. }
  assert (∀ u, WitnessValue.of_ref (JoinOp.join_field store (left_field condition) k) = Some u →
    (WitnessState.bucket_has by_hash (WitnessValue.as_ref u) = true ↔
     witnessed condition store right_ k)) as Hw.
  { intros u Hu. rewrite Hb. unfold witnessed, rows_join. split.
    - intros (r & w & Hp & Hv & Hh & Hc). exists r. split; [done|].
      rewrite !of_ref_missing, Hu, Hv. simpl.
      rewrite (of_ref_hash _ _ Hu), (of_ref_hash _ _ Hv), (of_ref_compare _ _ _ _ Hu Hv).
      by rewrite !bool_decide_eq_true_2.
    - intros (r & Hp & Hj). apply andb_prop in Hj as [Hj Hc%bool_decide_eq_true_1].
      apply andb_prop in Hj as [Hj Hh%bool_decide_eq_true_1].
      apply andb_prop in Hj as [_ Hm%negb_true_iff]. rewrite of_ref_missing in Hm.
      destruct (WitnessValue.of_ref (JoinOp.join_field store (right_field condition) r)) as [w|] eqn:Hv; [|done].
      exists r, w. split_and!; [done|done|..].
      + by rewrite <- (of_ref_hash _ _ Hu), <- (of_ref_hash _ _ Hv).
      + by rewrite <- (of_ref_compare _ _ _ _ Hu Hv). }
  assert (WitnessValue.of_ref (JoinOp.join_field store (left_field condition) k) = None →
    ¬ witnessed condition store right_ k) as Hnone.
  { intros Hn (r & _ & Hj). unfold rows_join in Hj. by rewrite of_ref_missing, Hn in Hj. }
  unfold row_at. destruct (Z.eqb_spec (weight left_ k) 0) as [Ew|Ew]; [split; [done|lia]|].
  unfold WitnessState.row_present, WitnessState.read. cbn [ir_weight ir_exists ir_value].
  fold (JoinOp.join_field store (left_field condition) k).
  destruct (Z.ltb_spec 0 (weight left_ k)) as [Hp|Hp]; [|split; [done|lia]].
  rewrite (proj2 (Z.leb_gt _ _)) by lia. simpl. rewrite (of_ref_missing (JoinOp.join_field _ _ _)).
  destruct (ValueRef.is_missing (Store.get_row_by_key store k)); simpl; [naive_solver|].
  destruct (WitnessValue.of_ref (JoinOp.join_field store (left_field condition) k)) as [u|] eqn:Eu.
  - specialize (Hw u eq_refl). destruct (WitnessState.bucket_has _ _), anti; simpl; naive_solver.
  - specialize (Hnone eq_refl). destruct anti; simpl; naive_solver.
Qed.

(** ** One step *)

(** Refreshing the changed and announced keys re-establishes [row_at]. *)
Lemma refreshed_row_at field store store' z d rows (updates keys : gset string) :
  zset_wf z → (∀ k, rows !! k = row_at field store z k) →
  (∀ k, k ∈ keys ↔ k ∈ dom d ∨ k ∈ updates ∧ is_Some (rows !! k)) →
  (∀ k, weight z k ≠ 0 → d !! k = None → k ∉ updates →
    WitnessState.read k (weight z k) field store = WitnessState.read k (weight z k) field store') →
  ∀ k, (if bool_decide (k ∈ elements keys) then refreshed d field store' rows k else rows !! k) =
    row_at field store' (ZSet.add z d) k.
Proof.
  intros Hz Hrows Hkeys Hst k. unfold row_at. rewrite weight_add by done.
  rewrite (bool_decide_ext (k ∈ elements keys) (k ∈ keys)) by apply elem_of_elements.
  case_bool_decide as Hk.
  - unfold refreshed. assert (from_option ir_weight 0 (rows !! k) = weight z k) as ->; [|done].
    rewrite Hrows. unfold row_at. destruct (Z.eqb_spec (weight z k) 0) as [->|]; done.
  - rewrite Hkeys in Hk. assert (d !! k = None) as Hd by (apply not_elem_of_dom; naive_solver).
    rewrite (weight_lookup_None d k Hd). unfold i64_add.
    rewrite Z.add_0_r, wrap_i64_id by (by apply weight_range).
    rewrite Hrows. unfold row_at. destruct (Z.eqb_spec (weight z k) 0) as [|Hne]; [done|].
    f_equal. apply Hst; [done|done|]. intros Hu. apply Hk. right. split; [done|].
    rewrite Hrows. unfold row_at. by rewrite (proj2 (Z.eqb_neq _ _)).
Qed.

(** What the net changes make of the counters of the right side. *)
Lemma net_loop_counts st rows rows' wd :
  Z.of_nat (size rows) < two63 → Z.of_nat (size rows') < two63 → net_inv rows rows' wd →
  hash_inv (right_by_hash st) (λ v, count (is_value v) rows) →
  length (right_kind_counts st) = 7%nat →
  (∀ i, (i < 7)%nat → nth i (right_kind_counts st) 0 =
    count (λ v, bool_decide (WitnessValue.kind v = i)) rows) →
  right_nan_count st = count WitnessValue.is_nan rows →
  let net := foldl WitnessState.net_visit
    (WitnessState.MkNet (right_kind_counts st) (right_nan_count st) (right_by_hash st) ∅)
    (map_to_list wd) in
  hash_inv (WitnessState.nt_by_hash net) (λ v, count (is_value v) rows') ∧
  length (WitnessState.nt_kinds net) = 7%nat ∧
  (∀ i, (i < 7)%nat → nth i (WitnessState.nt_kinds net) 0 =
    count (λ v, bool_decide (WitnessValue.kind v = i)) rows') ∧
  WitnessState.nt_nan net = count WitnessValue.is_nan rows' ∧
  ∀ v, (0 <? count (is_value v) rows) ≠ (0 <? count (is_value v) rows') →
    hash_value (WitnessValue.as_ref v) ∈ WitnessState.nt_changed net.
Proof.
  intros Hs Hs' [Hsum Hwd] Hh Hlen Hk Hn net.
  assert (∀ P, in_u64 (count P rows)) as Hr.
  { intros P. pose proof (count_range P rows). width_lia. }
  assert (∀ P, in_u64 (count P rows')) as Hr'.
  { intros P. pose proof (count_range P rows'). width_lia. }
  assert (∀ P, wrap_u64 (count P rows + deltas_sum P wd) = count P rows') as Hnet.
  { intros P. rewrite <- wrap_u64_wrap_i64, Hsum, wrap_u64_wrap_i64.
    transitivity (wrap_u64 (count P rows')); [f_equal; lia|by apply wrap_u64_id]. }
  destruct (net_loop_hash (map_to_list wd)
    (WitnessState.MkNet (right_kind_counts st) (right_nan_count st) (right_by_hash st) ∅)
    (λ v, count (is_value v) rows)) as [Hh' Hch]; [apply NoDup_fst_map_to_list|done|done|].
  fold net in Hh', Hch.
  assert (∀ v, usize_add (count (is_value v) rows) (list_delta (map_to_list wd) v) =
               count (is_value v) rows') as Hcnt.
  { intros v. rewrite usize_add_spec, <- Hnet, deltas_sum_list. done. }
  assert (Forall in_u64 (right_kind_counts st)) as Hkr.
  { apply Forall_lookup. intros i x Hi. assert (i < 7)%nat as Hi7.
    { rewrite <- Hlen. by apply lookup_lt_Some in Hi. }
    specialize (Hk i Hi7). rewrite nth_lookup, Hi in Hk. simpl in Hk. rewrite Hk. apply Hr. }
  assert (in_u64 (right_nan_count st)) as Hnr by (rewrite Hn; apply Hr).
  destruct (net_loop_range (map_to_list wd)
    (WitnessState.MkNet (right_kind_counts st) (right_nan_count st) (right_by_hash st) ∅)
    Hkr Hnr) as [Hkr' Hnr']. fold net in Hkr', Hnr'.
  split_and!.
  - intros h v. by rewrite Hh', Hcnt.
  - by apply (net_loop_kinds _ _ 0).
  - intros i Hi. destruct (net_loop_kinds (map_to_list wd)
      (WitnessState.MkNet (right_kind_counts st) (right_nan_count st) (right_by_hash st) ∅) i Hlen)
      as [Hl Hki]. fold net in Hl, Hki. cbn [WitnessState.nt_kinds] in Hki.
    pose proof (Hnet (λ v, bool_decide (WitnessValue.kind v = i))) as HN.
    rewrite deltas_sum_list in HN. rewrite (Hk i Hi) in Hki.
    etransitivity; [|exact HN]. etransitivity; [|exact Hki]. symmetry. apply wrap_u64_id.
    destruct (lookup_lt_is_Some_2 (WitnessState.nt_kinds net) i) as [x Hx]; [by rewrite Hl|].
    rewrite nth_lookup, Hx. by apply (Forall_lookup_1 _ _ _ _ Hkr' Hx).
  - pose proof (net_loop_nan (map_to_list wd)
      (WitnessState.MkNet (right_kind_counts st) (right_nan_count st) (right_by_hash st) ∅)) as Hnn.
    fold net in Hnn. cbn [WitnessState.nt_nan] in Hnn.
    rewrite Hn in Hnn. rewrite <- Hnet, deltas_sum_list. etransitivity; [|exact Hnn].
    symmetry. by apply wrap_u64_id.
  - intros v Hv. apply Hch. by rewrite Hcnt.
Qed.

(** A key outside the affected set keeps its verdict: its row is unchanged
    and so are the witnesses of its bucket. *)
Lemma unaffected_present anti by_hash by_hash' rows rows' row :
  hash_inv by_hash (λ v, count (is_value v) rows) →
  hash_inv by_hash' (λ v, count (is_value v) rows') →
  (∀ v, WitnessState.hash row = Some (hash_value (WitnessValue.as_ref v)) →
    (0 <? count (is_value v) rows) = (0 <? count (is_value v) rows')) →
  WitnessState.row_present anti by_hash row = WitnessState.row_present anti by_hash' row.
Proof.
  intros Hi Hi' Hsame. unfold WitnessState.row_present. f_equal. f_equal.
  destruct (ir_value row) as [u|] eqn:Eu; [|done]. apply eq_true_iff_eq.
  rewrite (bucket_has_spec _ _ _ Hi), (bucket_has_spec _ _ _ Hi').
  assert (∀ v, hash_value (WitnessValue.as_ref u) = hash_value (WitnessValue.as_ref v) →
    (0 < count (is_value v) rows ↔ 0 < count (is_value v) rows')) as Hv.
  { intros v Hh. rewrite <- !Z.ltb_lt. rewrite Hsame; [done|].
    unfold WitnessState.hash. rewrite Eu. simpl. by rewrite Hh. }
  split; intros (Hm & v & Hp & Hh & Hc); (split; [done|]); exists v;
    (split; [by apply Hv|done]).
Qed.

Lemma witness_step st condition anti store store' left_ right_ d0 d1 :
  ws_inv st condition anti store left_ right_ → zset_wf left_ → zset_wf right_ →
  witness_stable st condition store store' left_ right_ d0 d1 →
  let '(out, st') := WitnessState.step st [d0; d1] store' condition anti in
  ws_inv st' condition anti store' (ZSet.add left_ d0) (ZSet.add right_ d1) ∧
  ∀ k, out !! k =
    if bool_decide (k ∈ ws_output st') then (if bool_decide (k ∈ ws_output st) then None else Some 1)
    else (if bool_decide (k ∈ ws_output st) then Some (-1) else None).
Proof.
  intros Hinv Hl Hr (Hsl & Hsr & Hs0 & Hs1).
  destruct Hinv as [Il Ir Ib Ih Ilen Ik In Io].
  unfold WitnessState.step, input. cbn [lookup list_lookup default from_option id].
  set (left_keys := dom d0 ∪ _). set (right_keys := dom d1 ∪ _).
  pose proof (left_loop d0 (left_field condition) store' (elements left_keys) _ _
    (NoDup_elements _) Ib) as HL.
  destruct (foldl (WitnessState.left_visit _ _ _) _ _) as [rowsl byl]. destruct HL as [Hb' Hrl].
  pose proof (right_loop d1 (right_field condition) store' (ws_right st) (elements right_keys)
    (ws_right st) ∅ (NoDup_elements _)) as HR.
  destruct (foldl (WitnessState.right_visit _ _ _) _ _) as [rowsr wd].
  destruct HR as [Hnet Hrr].
  { split; [|apply map_Forall_empty]. intros P. unfold deltas_sum. rewrite msum_empty. f_equal. lia. }
  assert (∀ k, rowsl !! k = row_at (left_field condition) store' (ZSet.add left_ d0) k) as Il'.
  { intros k. rewrite Hrl. apply (refreshed_row_at _ store _ _ _ _ (content_updates st)); try done.
    intros k'. unfold left_keys. rewrite elem_of_union, elem_of_filter. naive_solver. }
  assert (∀ k, rowsr !! k = row_at (right_field condition) store' (ZSet.add right_ d1) k) as Ir'.
  { intros k. rewrite Hrr. apply (refreshed_row_at _ store _ _ _ _ (content_updates st)); try done.
    intros k'. unfold right_keys. rewrite elem_of_union, elem_of_filter. naive_solver. }
  pose proof (row_at_size _ _ _ _ Ir) as Hz. pose proof (row_at_size _ _ _ _ Ir') as Hz'.
  destruct (net_loop_counts st (ws_right st) rowsr wd) as (Hh' & Hlen' & Hk' & Hn' & Hch);
    [lia|lia|done..|].
  set (net := foldl WitnessState.net_visit _ _) in *.
  set (affected := left_keys ∪ _).
  set (present := λ key, match rowsl !! key with
    | Some row => WitnessState.row_present anti (WitnessState.nt_by_hash net) row | None => false end).
  pose proof (emit_loop present (elements affected) ∅ (ws_output st) (NoDup_elements _)) as HE.
  destruct (foldl (WitnessState.emit_visit present) _ _) as [out held]. destruct HE as [Hout Hheld].
  { intros k _. apply lookup_empty. }
  assert (∀ k, present k = true ↔ kept anti condition store' (ZSet.add left_ d0) (ZSet.add right_ d1) k)
    as Hpres.
  { intros k. unfold present. rewrite Il'.
    by apply (row_present_spec anti condition store' _ _ rowsr). }
  assert (∀ k, k ∉ affected → (k ∈ ws_output st ↔ present k = true)) as Hun.
  { intros k Hk. rewrite Io, <- (row_present_spec anti condition store left_ right_ (ws_right st)
      (right_by_hash st)) by done. rewrite <- Il. unfold present.
    assert (k ∉ left_keys) as Hkl by set_solver.
    assert (rowsl !! k = ws_left st !! k) as Hsame.
    { rewrite Hrl, bool_decide_eq_false_2; [done|]. by rewrite elem_of_elements. }
    rewrite Hsame. destruct (ws_left st !! k) as [row|] eqn:Erow; [|done].
    rewrite (unaffected_present anti (right_by_hash st) (WitnessState.nt_by_hash net)
      (ws_right st) rowsr row); [done|done|done|].
    intros v Hv. destruct (decide ((0 <? count (is_value v) (ws_right st)) =
      (0 <? count (is_value v) rowsr))) as [|Hne]; [done|]. exfalso.
    apply Hch in Hne. apply Hk. unfold affected. apply elem_of_union_r.
    apply elem_of_union_list. exists (default ∅ (byl !! hash_value (WitnessValue.as_ref v))).
    split; [apply list_elem_of_fmap; eexists; split; [done|by apply elem_of_elements]|].
    apply Hb'. rewrite Hsame. done. }
  assert (∀ k, k ∈ held ↔ present k = true) as Hheld'.
  { intros k. rewrite Hheld. case_bool_decide as Ha; [done|].
    rewrite elem_of_elements in Ha. by apply Hun. }
  split.
  - split; cbn; try done. intros k. by rewrite Hheld', Hpres.
  - cbn. intros k. rewrite Hout, lookup_empty.
    rewrite (bool_decide_ext (k ∈ held) (present k = true)) by apply Hheld'.
    case_bool_decide as Ha.
    + destruct (present k); rewrite ?(bool_decide_eq_true_2 (true = true)),
        ?(bool_decide_eq_false_2 (false = true)) by done;
        by destruct (bool_decide (k ∈ ws_output st)).
    + rewrite elem_of_elements in Ha. apply Hun in Ha.
      rewrite (bool_decide_ext (k ∈ ws_output st) (present k = true)) by done.
      by destruct (bool_decide (present k = true)).
Qed.

(** ** Snapshots *)

Lemma right_present_spec right_ condition store x :
  has_match (right_present right_ condition store) x = true ↔
  ∃ r, 0 < weight right_ r ∧
    let y := JoinOp.join_field store (right_field condition) r in
    ValueRef.is_missing y = false ∧ hash_value x = hash_value y ∧ compare_values x y = Eq.
Proof.
  unfold right_present.
  induction right_ as [|k w z Hk Hfst IH] using map_first_key_ind.
  { rewrite map_fold_empty. split; [done|]. intros (r & Hr & _). by rewrite weight_empty in Hr. }
  rewrite map_fold_insert_first_key by done. set (index := map_fold _ _ z) in *.
  assert (∀ Q : RowKey → Prop, (∃ r, 0 < weight (<[k := w]> z) r ∧ Q r) ↔
    (0 < w ∧ Q k) ∨ ∃ r, 0 < weight z r ∧ Q r) as Hsplit.
  { intros Q. unfold weight. split.
    - intros (r & Hr & HQ). destruct (decide (r = k)) as [->|Hne].
      + rewrite lookup_insert_eq in Hr. by left.
      + rewrite lookup_insert_ne in Hr by done. right. eauto.
    - intros [[Hw HQ]|(r & Hr & HQ)].
      + exists k. by rewrite lookup_insert_eq.
      + exists r. assert (k ≠ r) by (intros ->; by rewrite Hk in Hr).
        by rewrite lookup_insert_ne. }
  rewrite (Hsplit (λ r, _ ∧ _ ∧ _)). rewrite <- IH. clear IH Hsplit. simpl.
  set (y := JoinOp.join_field store (right_field condition) k).
  destruct (Z.leb_spec w 0) as [Hw|Hw]; [naive_solver lia|].
  destruct (ValueRef.is_missing y) eqn:Em; [naive_solver|].
  unfold has_match. destruct (decide (hash_value x = hash_value y)) as [Eh|Eh].
  - rewrite <- Eh, lookup_insert_eq, existsb_app. simpl. rewrite orb_false_r, orb_true_iff.
    rewrite bool_decide_eq_true. destruct (index !! hash_value x); simpl; naive_solver.
  - rewrite lookup_insert_ne by congruence. naive_solver.
Qed.

Lemma rows_join_right condition store k :
  let x := JoinOp.join_field store (left_field condition) k in
  ValueRef.is_missing x = false →
  ∀ right_, has_match (right_present right_ condition store) x = true ↔
    witnessed condition store right_ k.
Proof.
  intros x Hx right_. rewrite right_present_spec. unfold witnessed, rows_join. fold x.
  rewrite Hx. simpl. apply exist_proper. intros r.
  rewrite !andb_true_iff, negb_true_iff, !bool_decide_eq_true. naive_solver.
Qed.

Lemma witnessed_missing condition store right_ k :
  ValueRef.is_missing (JoinOp.join_field store (left_field condition) k) = true →
  ¬ witnessed condition store right_ k.
Proof. intros Hm (r & _ & Hj). unfold rows_join in Hj. by rewrite Hm in Hj. Qed.

Lemma missing_row_field store field k :
  ValueRef.is_missing (Store.get_row_by_key store k) = true →
  ValueRef.is_missing (JoinOp.join_field store field k) = true.
Proof. intros Hm. unfold JoinOp.join_field, resolve_field. by rewrite Hm. Qed.

(** Both snapshots hold each kept left key with weight one, and nothing else. *)
Definition presence_join (anti : bool) (left_ right_ : ZSet) (condition : JoinCondition)
    (store : Store) : ZSet :=
  if anti then AntiJoinOp.anti_join left_ right_ condition store
  else SemiJoinOp.semi_join left_ right_ condition store.

Lemma presence_join_spec anti left_ right_ condition store k :
  presence_join anti left_ right_ condition store !! k = Some 1 ∧
    kept anti condition store left_ right_ k ∨
  presence_join anti left_ right_ condition store !! k = None ∧
    ¬ kept anti condition store left_ right_ k.
Proof.
  unfold presence_join, kept.
  set (x := JoinOp.join_field store (left_field condition) k).
  pose proof (λ Hx, rows_join_right condition store k Hx right_) as Hjoin. fold x in Hjoin.
  pose proof (witnessed_missing condition store right_ k) as Hno. fold x in Hno.
  pose proof (missing_row_field store (left_field condition) k) as Hrow. fold x in Hrow.
  assert (∀ z : ZSet, bool_decide (z = ∅) = true → weight z k = 0) as Hempty.
  { intros z ->%bool_decide_eq_true_1. apply weight_empty. }
  destruct anti.
  - unfold AntiJoinOp.anti_join. destruct (bool_decide (left_ = ∅)) eqn:El.
    { right. rewrite (Hempty _ El). split; [done|]. lia. }
    rewrite lookup_for_each_entry, lookup_empty. unfold weight.
    destruct (left_ !! k) as [w|]; simpl; [|right; split; [done|]; lia].
    fold (JoinOp.join_field store (left_field condition) k). fold x.
    destruct (Z.leb_spec w 0) as [Hw|Hw]; [right; split; [done|]; lia|].
    destruct (ValueRef.is_missing (Store.get_row_by_key store k)); [right; naive_solver|].
    destruct (ValueRef.is_missing x); [left; naive_solver|].
    destruct (has_match _ x); simpl; naive_solver.
  - unfold SemiJoinOp.semi_join. destruct (bool_decide (left_ = ∅)) eqn:El.
    { right. rewrite (Hempty _ El). split; [done|]. lia. }
    destruct (bool_decide (right_present _ _ _ = ∅)) eqn:Er.
    { right. split; [done|]. intros (_ & Hm & Hw). apply bool_decide_eq_true_1 in Er.
      rewrite Er in Hjoin. destruct (ValueRef.is_missing x) eqn:Ex; [naive_solver|].
      by apply (Hjoin eq_refl) in Hw. }
    rewrite lookup_for_each_entry, lookup_empty. unfold weight.
    destruct (left_ !! k) as [w|]; simpl; [|right; split; [done|]; lia].
    fold x. destruct (Z.leb_spec w 0) as [Hw|Hw]; [right; split; [done|]; lia|].
    destruct (ValueRef.is_missing x) eqn:Ex; [right; naive_solver|].
    destruct (ValueRef.is_missing (Store.get_row_by_key store k)); [naive_solver|].
    destruct (has_match _ x); simpl; naive_solver.
Qed.

Lemma presence_join_wf anti left_ right_ condition store :
  zset_wf (presence_join anti left_ right_ condition store).
Proof.
  intros k w Hk. destruct (presence_join_spec anti left_ right_ condition store k) as [[H1 _]|[H1 _]];
    rewrite Hk in H1; [|done]. injection H1 as ->. split; [width_lia|done].
Qed.

(** The state, its output and the snapshots, together. *)
Lemma witness_step_snapshot st condition anti store store' left_ right_ d0 d1 :
  ws_inv st condition anti store left_ right_ → zset_wf left_ → zset_wf right_ →
  witness_stable st condition store store' left_ right_ d0 d1 →
  let '(out, st') := WitnessState.step st [d0; d1] store' condition anti in
  zset_wf out ∧
  presence_join anti (ZSet.add left_ d0) (ZSet.add right_ d1) condition store' =
    ZSet.add (presence_join anti left_ right_ condition store) out ∧
  ws_inv st' condition anti store' (ZSet.add left_ d0) (ZSet.add right_ d1).
Proof.
  intros Hinv Hl Hr Hst.
  pose proof (witness_step st condition anti store store' left_ right_ d0 d1 Hinv Hl Hr Hst) as HS.
  destruct (WitnessState.step _ _ _ _ _) as [out st']. destruct HS as [Hinv' Hout].
  assert (zset_wf out) as Hwf.
  { intros k w. rewrite Hout. destruct (bool_decide _), (bool_decide _); intros [= <-];
      (split; [width_lia|done]). }
  split_and!; [done| |done].
  apply zset_ext; [apply presence_join_wf|apply add_wf, presence_join_wf|]. intros k.
  rewrite weight_add by apply presence_join_wf. unfold weight. rewrite Hout.
  pose proof (wi_output _ _ _ _ _ _ Hinv k) as Ho. pose proof (wi_output _ _ _ _ _ _ Hinv' k) as Ho'.
  destruct (presence_join_spec anti left_ right_ condition store k) as [[-> Hk]|[-> Hk]];
  destruct (presence_join_spec anti (ZSet.add left_ d0) (ZSet.add right_ d1) condition store' k)
    as [[-> Hk']|[-> Hk']]; rewrite <- Ho in Hk; rewrite <- Ho' in Hk';
    repeat first [rewrite (bool_decide_eq_true_2 _ Hk) | rewrite (bool_decide_eq_true_2 _ Hk')
      | rewrite (bool_decide_eq_false_2 _ Hk) | rewrite (bool_decide_eq_false_2 _ Hk')]; done.
Qed.

Lemma ws_inv_empty condition anti store : ws_inv WitnessState.empty condition anti store ∅ ∅.
Proof.
  split; cbn; try done.
  - intros h v. rewrite lookup_empty. simpl. rewrite lookup_empty. unfold count.
    rewrite msum_empty. by destruct (bool_decide _).
  - intros i Hi. unfold count. rewrite msum_empty. do 7 (destruct i; [done|]). lia.
  - intros k. unfold kept. rewrite weight_empty. split; [set_solver|intros [? _]; lia].
Qed.

Lemma ws_inv_note st condition anti store left_ right_ keys :
  ws_inv st condition anti store left_ right_ →
  ws_inv (WitnessState.note_content_updates st keys) condition anti store left_ right_.
Proof. intros [????????]. by split. Qed.

(** ** The contract of the two operators *)

#[global] Program Instance semi_join_incremental : Incremental SemiJoin := {|
  op_tracks := λ op store _ inputs,
    ws_inv (semi_state op) (semi_on op) false store (input inputs 0) (input inputs 1);
  op_stable := λ op store store' _ inputs deltas,
    witness_stable (semi_state op) (semi_on op) store store' (input inputs 0) (input inputs 1)
      (input deltas 0) (input deltas 1);
|}.
Next Obligation.
  split_inputs. destruct op as [on st]. unfold SemiJoinOp.step, SemiJoinOp.snapshot, input. simpl in *.
  match goal with Hi : ws_inv _ _ _ _ ?a ?b, Hs : witness_stable _ _ _ _ _ _ _ _ |- _ =>
    pose proof (witness_step_snapshot _ _ _ _ _ _ _ _ _ Hi ltac:(done) ltac:(done) Hs) as HS end.
  destruct (WitnessState.step _ _ _ _ _) as [out st']. by cbn.
Qed.

#[global] Program Instance anti_join_incremental : Incremental AntiJoin := {|
  op_tracks := λ op store _ inputs,
    ws_inv (anti_state op) (anti_on op) true store (input inputs 0) (input inputs 1);
  op_stable := λ op store store' _ inputs deltas,
    witness_stable (anti_state op) (anti_on op) store store' (input inputs 0) (input inputs 1)
      (input deltas 0) (input deltas 1);
|}.
Next Obligation.
  split_inputs. destruct op as [on st]. unfold AntiJoinOp.step, AntiJoinOp.snapshot, input. simpl in *.
  match goal with Hi : ws_inv _ _ _ _ ?a ?b, Hs : witness_stable _ _ _ _ _ _ _ _ |- _ =>
    pose proof (witness_step_snapshot _ _ _ _ _ _ _ _ _ Hi ltac:(done) ltac:(done) Hs) as HS end.
  destruct (WitnessState.step _ _ _ _ _) as [out st']. by cbn.
Qed.
End facts.
