(* ===== verification/Presence.v ===== *)
(** * What the presence joins guarantee

    The theorems about the semi-join and the anti-join as a client sees them:
    runs of any length from the empty state, and the point lookup. *)

From S2P Require Import Prelude Platform Float64 Value ValueRef ZSet SortKey Index Store StoreFacts Operator Plan LinearOps Join Witness WitnessFacts.
Local Open Scope Z_scope.

Section runs.
Context `{Hashing} `{OrdSet}.

(** The states a join reaches: from empty, any sequence of batches, each
    with the store as it is after the batch, the keys announced as updated
    in place, and the two deltas. [total] adds up what came out. *)
Inductive witness_run (condition : JoinCondition) (anti : bool)
    : WitnessState → Store → ZSet → ZSet → ZSet → Prop :=
  | run_start store : witness_run condition anti WitnessState.empty store ∅ ∅ ∅
  | run_batch st store left_ right_ total keys store' d0 d1 out st' :
      witness_run condition anti st store left_ right_ total →
      zset_wf d0 → zset_wf d1 →
      witness_stable (WitnessState.note_content_updates st keys) condition store store'
        left_ right_ d0 d1 →
      WitnessState.step (WitnessState.note_content_updates st keys) [d0; d1] store' condition anti
        = (out, st') →
      witness_run condition anti st' store' (ZSet.add left_ d0) (ZSet.add right_ d1)
        (ZSet.add total out).

Lemma witness_run_inv condition anti st store left_ right_ total :
  witness_run condition anti st store left_ right_ total →
  ws_inv st condition anti store left_ right_ ∧ zset_wf left_ ∧ zset_wf right_ ∧
  total = presence_join anti left_ right_ condition store.
Proof.
  induction 1 as [store|st store l r total keys store' d0 d1 out st' _ (Hi & Hl & Hr & ->) H0' H1' Hs Hstep].
  - split_and!; [apply ws_inv_empty|apply zset_empty_wf|apply zset_empty_wf|].
    apply zset_ext; [apply zset_empty_wf|apply presence_join_wf|]. intros k.
    destruct (presence_join_spec anti ∅ ∅ condition store k) as [[_ [Hk _]]|[Hk _]].
    + by rewrite weight_empty in Hk.
    + by rewrite (weight_lookup_None _ _ Hk).
  - pose proof (witness_step_snapshot _ _ _ _ _ _ _ _ _ (ws_inv_note _ _ _ _ _ _ keys Hi) Hl Hr Hs) as HS.
    rewrite Hstep in HS. destruct HS as (_ & Hsnap & Hi').
    split_and!; [done|by apply add_wf|by apply add_wf|]. by rewrite Hsnap.
Qed.

(** C8: Over any run, what the incremental semi-join (anti-join) has emitted in
    total is exactly the snapshot of the join over the inputs it was fed, at
    the current store: each left key that is there with a match (without
    one), with weight one. This holds whatever the store did to rows in
    between, as long as every row whose join value changed was in a delta or
    announced. *)
Theorem presence_join_incremental condition anti st store left_ right_ total :
  witness_run condition anti st store left_ right_ total →
  total = presence_join anti left_ right_ condition store ∧
  ∀ k, (total !! k = Some 1 ∧ kept anti condition store left_ right_ k) ∨
       (total !! k = None ∧ ¬ kept anti condition store left_ right_ k).
Proof.
  intros Hrun. destruct (witness_run_inv _ _ _ _ _ _ _ Hrun) as (_ & _ & _ & ->).
  split; [done|]. intros k. apply presence_join_spec.
Qed.

(** ** The point lookup *)

(** Floats as a Rust [f64] has them: 64 bits. *)
Definition ref_ok (x : ValueRef) : Prop :=
  match x with RInt i => in_i64 i | RFloat f => in_u64 (f64_bits f) | _ => True end.

(** Numbers that compare equal have equal bits, unless one is NaN or they are zero. *)
Definition num_bits (x : ValueRef) : option f64 :=
  match x with RInt i => Some (F64.of_i64 i) | RFloat f => Some f | _ => None end.

Lemma num_bits_ok x f : ref_ok x → num_bits x = Some f → in_u64 (f64_bits f).
Proof.
  destruct x; intros Hx [= <-]; [by apply F64.of_i64_facts|done].
Qed.

Lemma compare_num_eq x y a b : ref_ok x → ref_ok y →
  num_bits x = Some a → num_bits y = Some b → compare_values x y = Eq →
  F64.is_nan a = true ∨ F64.is_nan b = true ∨ (F64.key a = 0 ∧ F64.key b = 0) ∨
  hash_value x = hash_value y.
Proof.
  intros Hx Hy Ha Hb Hc.
  pose proof (num_bits_ok _ _ Hx Ha) as Ra. pose proof (num_bits_ok _ _ Hy Hb) as Rb.
  assert (F64.partial_cmp a b = None ∨ F64.partial_cmp a b = Some Eq ∨ hash_value x = hash_value y) as Hp.
  { destruct x; try discriminate Ha; injection Ha as <-;
      (destruct y; try discriminate Hb; injection Hb as <-); cbn in Hc.
    - apply Z.compare_eq_iff in Hc as ->. auto.
    - destruct (F64.partial_cmp _ _) as [[]|]; auto; done.
    - destruct (F64.partial_cmp _ _) as [[]|]; auto; done.
    - destruct (F64.partial_cmp _ _) as [[]|]; auto; done. }
  assert (a = b → hash_value x = hash_value y) as Hsame.
  { intros <-. destruct x; try discriminate Ha; injection Ha as <-;
      (destruct y; try discriminate Hb; injection Hb as Hb); unfold hash_value; by rewrite Hb. }
  destruct Hp as [Hp|[Hp|Hp]]; [| |by auto].
  - unfold F64.partial_cmp in Hp. destruct (F64.is_nan a), (F64.is_nan b); auto; done.
  - unfold F64.partial_cmp in Hp. destruct (_ || _); [done|]. injection Hp as Hp%Z.compare_eq_iff.
    destruct (Z.eq_dec (F64.key a) 0) as [Hz|Hz]; [right; right; left; lia|].
    right; right; right. apply Hsame. by apply F64.key_inj.
Qed.

Lemma msum_plus {A} (g g' : string → A → Z) (m : gmap string A) :
  msum g m + msum g' m = msum (λ k a, g k a + g' k a) m.
Proof.
  induction m as [|k a m Hk IH] using map_ind; [by rewrite !msum_empty|].
  rewrite !msum_insert by done. lia.
Qed.

Lemma kind_lt (v : WitnessValue) : (WitnessValue.kind v < 7)%nat.
Proof. destruct v; simpl; lia. Qed.

(** The counters, named, for one right side. *)
Lemma kind_count_pos right_ i :
  0 < count (λ v, bool_decide (WitnessValue.kind v = i)) right_ ↔
  ∃ v, 0 < count (is_value v) right_ ∧ WitnessValue.kind v = i.
Proof.
  rewrite count_pos. setoid_rewrite count_value_pos. split.
  - intros (k & row & v & Hk & Hv & Hi%bool_decide_eq_true_1). eauto 8.
  - intros (v & (k & row & Hk & Hv) & Hi). exists k, row, v.
    by rewrite bool_decide_eq_true_2.
Qed.

Lemma nan_count_pos right_ :
  0 < count WitnessValue.is_nan right_ ↔
  ∃ f, 0 < count (is_value (WFloat f)) right_ ∧ F64.is_nan f = true.
Proof.
  rewrite count_pos. setoid_rewrite count_value_pos. split.
  - intros (k & row & v & Hk & Hv & Hn). destruct v as [| | |f| | |]; try done. eauto 8.
  - intros (f & (k & row & Hk & Hv) & Hn). eauto 8.
Qed.

Lemma kind_counts_bound right_ :
  let c i := count (λ v, bool_decide (WitnessValue.kind v = i)) right_ in
  c 1%nat + (c 2%nat + (c 3%nat + (c 4%nat + (c 5%nat + c 6%nat)))) <= Z.of_nat (size right_).
Proof.
  simpl. unfold count. rewrite !msum_plus. apply msum_le_size. intros k row _. unfold ind.
  destruct (ir_value row) as [[]|]; simpl; lia.
Qed.

Section point.
Context (st : WitnessState) (condition : JoinCondition) (anti : bool) (store : Store) (left_ right_ : ZSet).
Context (Hinv : ws_inv st condition anti store left_ right_).
Context (Hsize : Z.of_nat (size right_) < two63).

Let held (v : WitnessValue) : Prop := 0 < count (is_value v) (ws_right st).
Let c (i : nat) : Z := count (λ v, bool_decide (WitnessValue.kind v = i)) (ws_right st).

Lemma point_sums :
  wrap_u64 (foldr Z.add 0 (drop 1 (right_kind_counts st))) =
    c 1%nat + (c 2%nat + (c 3%nat + (c 4%nat + (c 5%nat + c 6%nat)))) ∧
  wrap_u64 (nth 2 (right_kind_counts st) 0 + nth 3 (right_kind_counts st) 0) = c 2%nat + c 3%nat ∧
  ∀ i, 0 <= c i.
Proof using Hinv Hsize.
  pose proof (kind_counts_bound (ws_right st)) as Hb. simpl in Hb.
  pose proof (row_at_size _ _ _ _ (wi_right _ _ _ _ _ _ Hinv)) as Hz.
  assert (∀ i, 0 <= c i) as Hc by (intros i; apply count_range).
  pose proof (wi_len _ _ _ _ _ _ Hinv) as Hlen. pose proof (wi_kinds _ _ _ _ _ _ Hinv) as Hk.
  pose proof (Hc 1%nat). pose proof (Hc 2%nat). pose proof (Hc 3%nat). pose proof (Hc 4%nat).
  pose proof (Hc 5%nat). pose proof (Hc 6%nat).
  split_and!; [| |done].
  - pose proof (Hk 1%nat ltac:(lia)). pose proof (Hk 2%nat ltac:(lia)).
    pose proof (Hk 3%nat ltac:(lia)). pose proof (Hk 4%nat ltac:(lia)).
    pose proof (Hk 5%nat ltac:(lia)). pose proof (Hk 6%nat ltac:(lia)).
    destruct (right_kind_counts st) as [|? [|? [|? [|? [|? [|? [|? [|]]]]]]]]; try done.
    simpl in *. subst. fold (c 1%nat) (c 2%nat) (c 3%nat) (c 4%nat) (c 5%nat) (c 6%nat).
    fold (c 1%nat) (c 2%nat) (c 3%nat) (c 4%nat) (c 5%nat) (c 6%nat) in Hb.
    rewrite Z.add_0_r. apply wrap_u64_id. width_lia.
  - rewrite !Hk by lia. apply wrap_u64_id. unfold c in *. width_lia.
Qed.

Lemma has_witness_spec x : WitnessState.has_witness st x = true ↔
  ValueRef.is_missing x = false ∧ ∃ v, held v ∧
    hash_value x = hash_value (WitnessValue.as_ref v) ∧
    compare_values x (WitnessValue.as_ref v) = Eq.
Proof using Hinv. apply bucket_has_spec, (wi_hash _ _ _ _ _ _ Hinv). Qed.

Lemma held_kind i : 0 < c i ↔ ∃ v, held v ∧ WitnessValue.kind v = i.
Proof. apply kind_count_pos. Qed.

(** A counted kind whose values all compare equal to [x] gives a witness. *)
Ltac try_kind Hi i :=
  let Hlt := fresh in
  destruct (Z.lt_decidable 0 (c i)) as [Hlt|Hlt];
  [solve [apply (Hi i Hlt); intros [] Hkind; done]|].

(** Comparing a number with another kind, or through their keys. *)
Lemma compare_num x a v : num_bits x = Some a → ref_ok x → ref_ok (WitnessValue.as_ref v) →
  match num_bits (WitnessValue.as_ref v) with
  | Some b => F64.is_nan a = true ∨ F64.is_nan b = true → compare_values x (WitnessValue.as_ref v) = Eq
  | None => (v = WNull ∧ compare_values x (WitnessValue.as_ref v) ≠ Eq) ∨
            compare_values x (WitnessValue.as_ref v) = Eq
  end.
Proof using Type.
  intros Ha Hx Hv. destruct x as [| | |n|f| | |]; try done; injection Ha as <-;
    destruct v as [| |m|g| | |]; simpl; auto; intros Hn; cbn; unfold F64.partial_cmp.
  - destruct (F64.of_i64_facts n Hx) as (_ & Hnn & _), (F64.of_i64_facts m Hv) as (_ & Hmm & _).
    destruct Hn; congruence.
  - destruct Hn as [->| ->]; by rewrite ?orb_true_r.
  - destruct Hn as [->| ->]; by rewrite ?orb_true_r.
  - destruct Hn as [->| ->]; by rewrite ?orb_true_r.
Qed.

Lemma compare_zero x a z v : num_bits x = Some a → ref_ok x → ref_ok (WitnessValue.as_ref v) →
  F64.is_nan a = false → F64.key a = 0 → F64.is_nan z = false → F64.key z = 0 →
  compare_values (RFloat z) (WitnessValue.as_ref v) = Eq →
  compare_values x (WitnessValue.as_ref v) = Eq.
Proof using Type.
  intros Ha Hx Hv Hna Hka Hnz Hkz. destruct x as [| | |n|f| | |]; try done; injection Ha as <-;
    destruct v as [| |m|g| | |]; cbn; try done; unfold F64.partial_cmp; rewrite Hnz, Hkz, ?Hna, ?Hka; try done.
  destruct (F64.of_i64_facts m Hv) as (_ & -> & Hm), (F64.of_i64_facts n Hx) as (_ & _ & Hn).
  apply Hn in Hka. destruct (F64.key (F64.of_i64 m)) eqn:E; try done. intros _.
  rewrite (proj1 Hm eq_refl), Hka. done.
Qed.

Lemma point_search_num x a (zero : bool) : ref_ok x → num_bits x = Some a →
  (zero = true ↔ F64.is_nan a = false ∧ F64.key a = 0) →
  (∀ v, held v → ref_ok (WitnessValue.as_ref v)) →
  ((c 2%nat + c 3%nat <? c 1%nat + (c 2%nat + (c 3%nat + (c 4%nat + (c 5%nat + c 6%nat)))))
   || (0 <? count WitnessValue.is_nan (ws_right st))
   || F64.is_nan a && (0 <? c 2%nat + c 3%nat)
   || WitnessState.has_witness st x
   || zero && (WitnessState.has_witness st (RFloat F64.pos_zero) ||
               WitnessState.has_witness st (RFloat F64.neg_zero))) = true ↔
  ∃ v, held v ∧ compare_values x (WitnessValue.as_ref v) = Eq.
Proof using Hinv Hsize.
  intros Hx Ha Hzero Hok. destruct point_sums as (_ & _ & Hc).
  pose proof (Hc 1%nat). pose proof (Hc 2%nat). pose proof (Hc 3%nat). pose proof (Hc 4%nat).
  pose proof (Hc 5%nat). pose proof (Hc 6%nat).
  rewrite !orb_true_iff, !andb_true_iff, orb_true_iff, !Z.ltb_lt, !has_witness_spec, nan_count_pos, Hzero.
  assert (∀ v, held v → 0 < c (WitnessValue.kind v)) as Hheld by (intros v Hv; apply held_kind; eauto).
  split.
  - assert (∀ i, 0 < c i → (∀ v, WitnessValue.kind v = i → ref_ok (WitnessValue.as_ref v) →
        compare_values x (WitnessValue.as_ref v) = Eq) →
      ∃ v, held v ∧ compare_values x (WitnessValue.as_ref v) = Eq) as Hi.
    { intros i (v & Hv & Hkv)%held_kind Hcmp. eauto. }
    assert (∀ i, 0 < c i → (i = 1 ∨ i = 4 ∨ i = 5 ∨ i = 6)%nat →
      ∃ v, held v ∧ compare_values x (WitnessValue.as_ref v) = Eq) as Hother.
    { intros i Hp Hi'. apply (Hi i Hp). intros v Hv Hvok. pose proof (compare_num x a v Ha Hx Hvok) as Hcn.
      destruct v; simpl in *; try lia; destruct Hcn as [[? _]|]; done. }
    intros [[[[Hp|(f & Hf & Hn)]|[Hn Hp]]|(_ & v & Hv & _ & Hcmp)]|[[Hna Hka] Hz]].
    + destruct (Z.lt_decidable 0 (c 1%nat)); [by apply (Hother 1%nat); auto|].
      destruct (Z.lt_decidable 0 (c 4%nat)); [by apply (Hother 4%nat); auto|].
      destruct (Z.lt_decidable 0 (c 5%nat)); [by apply (Hother 5%nat); auto|].
      apply (Hother 6%nat); [lia|auto].
    + exists (WFloat f). split; [done|].
      apply (compare_num x a (WFloat f) Ha Hx (Hok _ Hf)). by right.
    + assert (0 < c 2%nat ∨ 0 < c 3%nat) as [Hp'|Hp'] by lia; apply (Hi _ Hp'); intros v Hv Hvok;
        pose proof (compare_num x a v Ha Hx Hvok) as Hcn; destruct v; try done; apply Hcn; by left.
    + eauto.
    + destruct Hz as [(_ & v & Hv & _ & Hcmp)|(_ & v & Hv & _ & Hcmp)]; exists v; (split; [done|]).
      * by apply (compare_zero x a F64.pos_zero v Ha Hx (Hok v Hv)).
      * by apply (compare_zero x a F64.neg_zero v Ha Hx (Hok v Hv)).
  - intros (v & Hv & Hcmp). pose proof (Hheld v Hv) as Hpos. pose proof (Hok v Hv) as Hvok.
    destruct (num_bits (WitnessValue.as_ref v)) as [b|] eqn:Eb.
    + assert (0 < c 2%nat + c 3%nat) by (destruct v; simpl in *; try done; lia).
      assert (ValueRef.is_missing x = false) as Hm by (by destruct x).
      destruct (compare_num_eq x (WitnessValue.as_ref v) a b Hx Hvok Ha Eb Hcmp) as [Hn|[Hn|[[Hza Hzb]|Hh]]].
      * left. left. right. done.
      * left. left. left. right. destruct v as [| |m|g| | |]; try done.
        { injection Eb as <-. by rewrite (proj1 (proj2 (F64.of_i64_facts m Hvok))) in Hn. }
        injection Eb as <-. eauto.
      * destruct (F64.is_nan a) eqn:Ena; [left; left; right; done|]. right. split; [done|].
        pose proof (num_bits_ok _ _ Hvok Eb) as Hrb.
        destruct v as [| |m|g| | |]; try done; injection Eb as <-.
        { apply (F64.of_i64_facts m Hvok) in Hzb as ->. left. split; [done|]. by exists (WInt 0). }
        destruct (F64.key_zero g Hrb Hzb) as [-> | ->]; [left|right]; (split; [done|]).
        { by exists (WFloat F64.pos_zero). }
        by exists (WFloat F64.neg_zero).
      * left. right. split; [done|]. eauto.
    + left. left. left. left. destruct v; simpl in *; try done; try lia.
      by destruct x.
Qed.

Lemma point_search x : ref_ok x → (∀ v, held v → ref_ok (WitnessValue.as_ref v)) →
  WitnessState.has_point_witness st x = true ↔
  ValueRef.is_missing x = false ∧ ∃ v, held v ∧ compare_values x (WitnessValue.as_ref v) = Eq.
Proof using Hinv Hsize.
  intros Hx Hok. unfold WitnessState.has_point_witness.
  destruct point_sums as (-> & -> & Hc).
  pose proof (wi_kinds _ _ _ _ _ _ Hinv) as Hk. rewrite !Hk by lia.
  fold (c 0%nat) (c 1%nat) (c 4%nat). rewrite (wi_nan _ _ _ _ _ _ Hinv).
  pose proof (Hc 1%nat). pose proof (Hc 2%nat). pose proof (Hc 3%nat). pose proof (Hc 4%nat).
  pose proof (Hc 5%nat). pose proof (Hc 6%nat).
  assert (∀ v, held v → 0 < c (WitnessValue.kind v)) as Hheld by (intros v Hv; apply held_kind; eauto).
  assert (WitnessState.has_witness st x = true →
    ∃ v, held v ∧ compare_values x (WitnessValue.as_ref v) = Eq) as Hw.
  { intros (_ & v & Hv & _ & Hcmp)%has_witness_spec. eauto. }
  assert (∀ i, 0 < c i → (∀ v, WitnessValue.kind v = i → compare_values x (WitnessValue.as_ref v) = Eq) →
    ∃ v, held v ∧ compare_values x (WitnessValue.as_ref v) = Eq) as Hi.
  { intros i (v & Hv & Hkv)%held_kind Hcmp. eauto. }
  assert (∀ v, held v → hash_value x = hash_value (WitnessValue.as_ref v) →
    compare_values x (WitnessValue.as_ref v) = Eq → ValueRef.is_missing x = false →
    WitnessState.has_witness st x = true) as Hw'.
  { intros v Hv Hh Hcmp Hm. apply has_witness_spec. eauto. }
  destruct x as [| |b|n|f|t|sq|ob]; [naive_solver| | | | | | |].
  3: { rewrite <- (point_search_num (RInt n) (F64.of_i64 n) (n =? 0) Hx eq_refl); [|clear Hw'|done].
    - destruct (F64.of_i64_facts n Hx) as (_ & -> & _). naive_solver.
    - destruct (F64.of_i64_facts n Hx) as (_ & -> & ->). rewrite Z.eqb_eq. naive_solver. }
  3: { rewrite <- (point_search_num (RFloat f) f (F64.eqb f F64.pos_zero) Hx eq_refl); [|clear Hw'|done].
    - naive_solver.
    - unfold F64.eqb, F64.partial_cmp. destruct (F64.is_nan f); simpl; [naive_solver|].
      change (F64.key F64.pos_zero) with 0. destruct (Z.compare_spec (F64.key f) 0); naive_solver lia. }
  all: (split; [intros Hp; split; [done|]|intros [_ (v & Hv & Hcmp)]; pose proof (Hheld v Hv)]).
  - apply Z.ltb_lt in Hp. by try_kind Hi 0%nat.
  - apply Z.ltb_lt. by destruct v.
  - apply orb_prop in Hp as [Hp%Z.ltb_lt|Hp]; [|by apply Hw].
    try_kind Hi 2%nat. try_kind Hi 3%nat. try_kind Hi 4%nat. try_kind Hi 5%nat. try_kind Hi 6%nat. lia.
  - apply orb_true_iff. rewrite Z.ltb_lt. destruct v as [|b'| | | | |]; simpl in *; try (left; lia); [done|].
    right. apply (Hw' (WBool b')); try done. by destruct b, b'.
  - apply orb_prop in Hp as [Hp%Z.ltb_lt|Hp]; [|by apply Hw].
    try_kind Hi 1%nat. try_kind Hi 2%nat. try_kind Hi 3%nat. try_kind Hi 5%nat. try_kind Hi 6%nat. lia.
  - apply orb_true_iff. rewrite Z.ltb_lt. destruct v as [| | | |t'| |]; simpl in *; try (left; lia); [done|].
    right. apply (Hw' (WStr t')); try done. by apply string_cmp_eq in Hcmp as ->.
  - apply Z.ltb_lt in Hp. try_kind Hi 1%nat. try_kind Hi 2%nat. try_kind Hi 3%nat. try_kind Hi 4%nat.
    try_kind Hi 5%nat. try_kind Hi 6%nat. lia.
  - apply Z.ltb_lt. destruct v; simpl in *; try lia; done.
  - apply Z.ltb_lt in Hp. try_kind Hi 1%nat. try_kind Hi 2%nat. try_kind Hi 3%nat. try_kind Hi 4%nat.
    try_kind Hi 5%nat. try_kind Hi 6%nat. lia.
  - apply Z.ltb_lt. destruct v; simpl in *; try lia; done.
Qed.
End point.

Lemma of_ref_compare_r x y w : WitnessValue.of_ref y = Some w →
  compare_values x y = compare_values x (WitnessValue.as_ref w).
Proof. destruct y; intros [= <-]; destruct x; done. Qed.

(** C26: The constant-time point lookup (type counters, a NaN counter and hashed
    number and string lookups) answers exactly the question of a full
    search: does some live right row have a join value that compares equal,
    with mixed types, NaN and both zeros compared as [compare_values] does. *)
Theorem point_witness_exact condition anti st store left_ right_ total x :
  witness_run condition anti st store left_ right_ total →
  Z.of_nat (size right_) < two63 → ref_ok x →
  (∀ r, 0 < weight right_ r → ref_ok (JoinOp.join_field store (right_field condition) r)) →
  WitnessState.has_point_witness st x = true ↔
  ValueRef.is_missing x = false ∧ ∃ r, 0 < weight right_ r ∧
    let y := JoinOp.join_field store (right_field condition) r in
    ValueRef.is_missing y = false ∧ compare_values x y = Eq.
Proof.
  intros Hrun Hsize Hx Hok. destruct (witness_run_inv _ _ _ _ _ _ _ Hrun) as (Hinv & _).
  assert (∀ v, 0 < count (is_value v) (ws_right st) ↔ ∃ r, 0 < weight right_ r ∧
    WitnessValue.of_ref (JoinOp.join_field store (right_field condition) r) = Some v) as Hheld.
  { intros v. rewrite count_value_pos. setoid_rewrite (wi_right _ _ _ _ _ _ Hinv).
    by setoid_rewrite row_at_value. }
  rewrite (point_search st condition anti store left_ right_ Hinv Hsize x Hx).
  2: { intros v (r & Hp & Hr)%Hheld. specialize (Hok r Hp).
       by destruct (JoinOp.join_field _ _ _); try discriminate Hr; injection Hr as <-. }
  split; (intros [Hm Hex]; split; [done|]).
  - destruct Hex as (v & (r & Hr & Hv)%Hheld & Hc). exists r. split; [done|]. simpl.
    by rewrite of_ref_missing, (of_ref_compare_r _ _ _ Hv), Hv.
  - destruct Hex as (r & Hr & Hmy & Hc). rewrite of_ref_missing in Hmy.
    destruct (WitnessValue.of_ref _) as [v|] eqn:Hv; [|done].
    exists v. rewrite Hheld. split; [eauto|]. by rewrite <- (of_ref_compare_r _ _ _ Hv).
Qed.
End runs.

(** ** Witnesses: posts and members, a member renamed in place *)

Definition on_owner : JoinCondition := MkJoinCondition (Path_new "owner") (Path_new "user").

Definition sample_store (user : string) : Store :=
  let put t id f v s := (Store.apply_change (Change.update t id (Object [(f, Str v)])) s).2 in
  put "m" "1" "user" user (put "p" "1" "owner" "bo" (put "p" "2" "owner" "al" Store.new)).

Definition sample_batch1 : ZSet * WitnessState :=
  WitnessState.step (WitnessState.note_content_updates WitnessState.empty [])
    [{["p:1" := 1; "p:2" := 1]}; {["m:1" := 1]}] (sample_store "al") on_owner false.
Definition sample_batch2 : ZSet * WitnessState :=
  WitnessState.step (WitnessState.note_content_updates sample_batch1.2 ["m:1"])
    [∅; ∅] (sample_store "bo") on_owner false.

Definition sample_left : ZSet := {["p:1" := 1; "p:2" := 1]}.
Definition sample_right : ZSet := {["m:1" := 1]}.

Lemma sample_run : witness_run on_owner false sample_batch2.2 (sample_store "bo")
  (ZSet.add (ZSet.add ∅ sample_left) ∅) (ZSet.add (ZSet.add ∅ sample_right) ∅)
  (ZSet.add (ZSet.add ∅ sample_batch1.1) sample_batch2.1).
Proof.
  apply (run_batch on_owner false sample_batch1.2 (sample_store "al") _ _ _ ["m:1"]);
    [|apply zset_empty_wf|apply zset_empty_wf| |exact (surjective_pairing sample_batch2)].
  - apply (run_batch on_owner false WitnessState.empty (sample_store "al") _ _ _ []);
      [apply run_start| | | |exact (surjective_pairing sample_batch1)].
    + by repeat apply zset_insert_wf.
    + by repeat apply zset_insert_wf.
    + split_and!; [|done..|vm_compute; done]; intros k Hk; by rewrite weight_empty in Hk.
  - split_and!; [| |vm_compute; done|vm_compute; done].
    + intros k Hk _ _. destruct (decide (k = "p:1")) as [->|]; [vm_compute; done|].
      destruct (decide (k = "p:2")) as [->|]; [vm_compute; done|].
      destruct Hk. unfold weight. change (ZSet.add ∅ sample_left) with sample_left.
      unfold sample_left. by rewrite lookup_insert_ne, lookup_singleton_ne by done.
    + intros k Hk _ Hu. destruct (decide (k = "m:1")) as [->|]; [set_solver|].
      destruct Hk. unfold weight. change (ZSet.add ∅ sample_right) with sample_right.
      unfold sample_right. by rewrite lookup_singleton_ne by done.
Qed.

Lemma presence_join_incremental_witness :
  sample_batch1.1 = {["p:2" := 1]} ∧ sample_batch2.1 = {["p:1" := 1; "p:2" := -1]} ∧
  ZSet.add (ZSet.add ∅ sample_batch1.1) sample_batch2.1 =
    presence_join false (ZSet.add (ZSet.add ∅ sample_left) ∅) (ZSet.add (ZSet.add ∅ sample_right) ∅)
      on_owner (sample_store "bo").
Proof.
  split; [vm_compute; reflexivity|]. split; [vm_compute; reflexivity|].
  exact (proj1 (presence_join_incremental _ _ _ _ _ _ _ sample_run)).
Defined.

Lemma point_witness_exact_witness :
  WitnessState.has_point_witness sample_batch2.2 (RStr "bo") = true ∧
  ∃ r, 0 < weight (ZSet.add (ZSet.add ∅ sample_right) ∅) r.
Proof.
  assert (∀ r, 0 < weight (ZSet.add (ZSet.add ∅ sample_right) ∅) r →
    ref_ok (JoinOp.join_field (sample_store "bo") (right_field on_owner) r)) as Hok.
  { intros r Hr. destruct (decide (r = "m:1")) as [->|H1]; [vm_compute; done|].
    unfold weight in Hr. change (ZSet.add (ZSet.add ∅ sample_right) ∅) with sample_right in Hr.
    unfold sample_right in Hr. by rewrite lookup_singleton_ne in Hr by done. }
  assert (WitnessState.has_point_witness sample_batch2.2 (RStr "bo") = true) as Hp by (vm_compute; reflexivity).
  split; [exact Hp|].
  destruct (proj1 (point_witness_exact _ _ _ _ _ _ _ (RStr "bo") sample_run eq_refl I Hok) Hp)
    as (_ & r & Hr & _). by exists r.
Defined.
