(* ===== verification/TopK.v ===== *)
(** * LIMIT / START: the bounded sorted buffer

    Models [packages/ssp/src/operator/top_k.rs] (the scalar and sort-key
    orders are in [SortKey]). The operator keeps only the smallest records, up
    to a capacity, and the smallest record it ever dropped (the boundary). *)

From S2P Require Import Prelude Platform Float64 Value ValueRef ZSet SortKey Index Store Operator Plan.
Local Open Scope Z_scope.

Definition MIN_SLACK : Z := 16.

(** [usize::next_power_of_two]: 0 on overflow in a release build. *)
Definition next_power_of_two (n : Z) : Z := wrap_u64 (if n <=? 1 then 1 else 2 ^ Z.log2_up n).

Definition node_size (capacity : Z) : Z :=
  Z.min (next_power_of_two (saturating_add capacity 1)) 1024.

Abbreviation Entry := (SortKey * string)%type.

Record TopK `{OrdSet} := MkTopK {
  tk_limit : Z;
  tk_offset : Z;
  tk_order_by : option (list OrderSpec);
  tk_buffer : oset Entry;
  tk_key_index : gmap string SortKey;
  tk_capacity : Z;
  tk_boundary : option Entry;
}.

Module TopKOp.
Section operations.
Context `{Hashing} `{OrdSet}.

Definition new (limit offset : Z) (order_by : option (list OrderSpec)) : TopK :=
  let slack := Z.max limit MIN_SLACK in
  let capacity := saturating_add (saturating_add offset limit) slack in
  MkTopK _ limit offset order_by (os_with_node_size (node_size capacity)) ∅ capacity None.

(** The fields a step changes. *)
Definition with_state (self : TopK) (buffer : oset Entry) (key_index : gmap string SortKey)
    (boundary : option Entry) : TopK :=
  MkTopK _ (tk_limit self) (tk_offset self) (tk_order_by self) buffer key_index
    (tk_capacity self) boundary.

Definition lower_boundary (boundary : option Entry) (entry : Entry) : option Entry :=
  match boundary with
  | None => Some entry
  | Some b => if bool_decide (entry_cmp entry b = Lt) then Some entry else Some b
  end.

Definition compute_sort_key (order_by : option (list OrderSpec)) (key : RowKey) (store : Store)
    : SortKey :=
  let row := Store.get_row_by_key store key in
  match order_by with
  | Some orders =>
      map (λ ord,
        SortableValue.from_value (resolve_field row (os_field ord))
          (eq_ignore_ascii_case (os_direction ord) "DESC")) orders
  | None => [MkSortable (SStr key) false]
  end.

Definition current_window (self : TopK) : list RowKey :=
  let n := os_len (tk_buffer self) in
  if n <=? tk_offset self then []
  else
    let end_ := Z.min (wrap_u64 (tk_offset self + tk_limit self)) n in
    omap (λ i, snd <$> os_get_index (tk_buffer self) i)
      (seqZ (tk_offset self) (end_ - tk_offset self)).

Definition snapshot (self : TopK) (inputs : list ZSet) (store : Store) (_ : option Sp00kyValue) : ZSet :=
  let items := map (λ e, (compute_sort_key (tk_order_by self) e.1 store, e.1))
    (List.filter (λ e : string * Z, 0 <? e.2) (map_to_list (input inputs 0))) in
  let items := sort_by entry_cmp items in
  foldl (λ (out : ZSet) (e : Entry), <[e.2 := 1]> out) ∅
    (ztake (tk_limit self) (zdrop (tk_offset self) items)).

(** The loop body for one key of the delta. *)
Definition visit (store : Store) (self : TopK) (e : RowKey * Z) : TopK :=
  let '(key, w) := e in
  if 0 <? w then
    let '(buffer, key_index) :=
      match tk_key_index self !! key with
      | Some stale => ((os_remove entry_cmp (stale, key) (tk_buffer self)).2,
                       delete key (tk_key_index self))
      | None => (tk_buffer self, tk_key_index self)
      end in
    let entry := (compute_sort_key (tk_order_by self) key store, key) in
    let full_and_larger := (tk_capacity self <=? os_len buffer) &&
      match os_last buffer with
      | Some last => bool_decide (entry_cmp entry last = Gt)
      | None => false
      end in
    if full_and_larger ||
       match tk_boundary self with
       | Some b => negb (bool_decide (entry_cmp entry b = Lt))
       | None => false
       end
    then with_state self buffer key_index (lower_boundary (tk_boundary self) entry)
    else
      let key_index := <[key := entry.1]> key_index in
      let buffer := (os_insert entry_cmp entry buffer).2 in
      if tk_capacity self <? os_len buffer then
        let '(popped, buffer) := os_pop_last buffer in
        match popped with
        | Some evicted =>
            with_state self buffer (delete evicted.2 key_index)
              (lower_boundary (tk_boundary self) evicted)
        | None => with_state self buffer key_index (tk_boundary self)
        end
      else with_state self buffer key_index (tk_boundary self)
  else if w <? 0 then
    match tk_key_index self !! key with
    | Some sort_key =>
        with_state self (os_remove entry_cmp (sort_key, key) (tk_buffer self)).2
          (delete key (tk_key_index self)) (tk_boundary self)
    | None => self
    end
  else self.

(** [*out.entry(key).or_insert(0) += w]. *)
Definition bump (w : Z) (out : ZSet) (key : RowKey) : ZSet :=
  <[key := i64_add (default 0 (out !! key)) w]> out.

(** What entered the window and what left it. *)
Definition displacement (old_top_k new_top_k : list RowKey) : ZSet :=
  let out := foldl (bump 1) ∅ (List.filter (λ k, negb (bool_decide (k ∈ old_top_k))) new_top_k) in
  let out := foldl (bump (-1)) out (List.filter (λ k, negb (bool_decide (k ∈ new_top_k))) old_top_k) in
  filter (λ e, e.2 ≠ 0) out.

Definition step (self : TopK) (input_deltas : list ZSet) (store : Store) (_ : option Sp00kyValue)
    : ZSet * TopK :=
  let old_top_k := current_window self in
  let self := foldl (visit store) self (map_to_list (input input_deltas 0)) in
  (displacement old_top_k (current_window self), self).

Definition reset (self : TopK) : TopK :=
  with_state self (os_clear (tk_buffer self)) ∅ None.

Definition needs_rebuild (self : TopK) : bool :=
  match tk_boundary self with
  | Some _ => os_len (tk_buffer self) <? saturating_add (tk_offset self) (tk_limit self)
  | None => false
  end.

Definition evaluate_key (self : TopK) (key : RowKey) (input_evals : list bool) (_ : Store)
    (_ : option Sp00kyValue) : bool :=
  input_eval input_evals 0 && bool_decide (key ∈ current_window self).

(** [fold]: adds a delta up without dropping zeros. *)
Definition fold_delta (out delta : ZSet) : ZSet :=
  for_each_entry (λ _ entry w, Some (i64_add (default 0 entry) w)) out delta.

Definition reorder_key (self : TopK) (key : RowKey) (upstream_now : bool) (store : Store)
    (ctx : option Sp00kyValue) : option (ZSet * TopK) :=
  let '(out, self) :=
    match tk_key_index self !! key with
    | Some _ =>
        let '(delta, self) := step self [{[key := -1]}] store ctx in (fold_delta ∅ delta, self)
    | None => (∅, self)
    end in
  let '(out, self) :=
    if upstream_now then
      let '(delta, self) := step self [{[key := 1]}] store ctx in (fold_delta out delta, self)
    else (out, self) in
  Some (filter (λ e, e.2 ≠ 0) out, self).

#[global] Instance top_k_operator : Operator TopK := {|
  Operator.snapshot := snapshot;
  Operator.step := step;
  note_content_updates := default_note_content_updates;
  integrated_input_weight := default_integrated_input_weight;
  arity := λ _, 1%nat;
  Operator.reset := reset;
  Operator.needs_rebuild := needs_rebuild;
  op_collections := default_collections;
  initial_input := default_initial_input;
  index_uses := default_index_uses;
  Operator.evaluate_key := evaluate_key;
  Operator.reorder_key := reorder_key;
|}.
End operations.
End TopKOp.
