(* ===== verification/Window.v ===== *)
(** * The bounded buffer yields the window

    Proves that the bounded buffer always holds exactly the records below its
    boundary, so that while it holds enough of them the window it shows is the
    window of a full sort; the second part follows it through steps. *)

From S2P Require Import Prelude Platform Float64 Value ValueRef ZSet SortKey Index Store Plan Operator LinearOps TopK.
Local Open Scope Z_scope.

(** ** Windows of a sorted list *)

Section lists.
Context {A : Type}.

Lemma omap_seqZ_lookup (l : list A) (from len : Z) : 0 <= from → from + len <= zlength l →
  omap (λ i, zlookup l i) (seqZ from len) = take (Z.to_nat len) (drop (Z.to_nat from) l).
Proof.
  intros Hf Hl. destruct (Z.le_gt_cases len 0) as [Hn|Hn].
  { rewrite seqZ_nil by done. by replace (Z.to_nat len) with 0%nat by lia. }
  rewrite <- (Z2Nat.id len) in Hl |- * by lia. generalize (Z.to_nat len) Hl. clear Hl Hn len.
  intros n. revert from Hf. induction n as [|n IH]; intros from Hf Hl; [done|].
  rewrite seqZ_cons by lia. cbn [omap list_omap].
  rewrite zlookup_spec by done. unfold zlength in Hl.
  destruct (lookup_lt_is_Some_2 l (Z.to_nat from)) as [x Hx]; [lia|]. rewrite Hx.
  rewrite Nat2Z.id, (drop_S _ _ _ Hx). simpl. f_equal.
  replace (Z.pred (Z.of_nat (S n))) with (Z.of_nat n) by lia.
  rewrite IH by (unfold zlength; lia). rewrite Nat2Z.id. f_equal. f_equal. lia.
Qed.
End lists.

Lemma last_removelast {A} (l : list A) x : last l = Some x → l = removelast l ++ [x].
Proof.
  intros [l' ->]%last_Some. by rewrite removelast_last.
Qed.

Section facts.
Context `{Hashing} `{OrdSetLaws}.

(** The directions an [ORDER BY] asks for. *)
Definition dirs_of (order_by : option (list OrderSpec)) : list bool :=
  match order_by with
  | Some orders => map (λ o, eq_ignore_ascii_case (os_direction o) "DESC") orders
  | None => [false]
  end.

Definition entry_ok (order_by : option (list OrderSpec)) (e : Entry) : Prop :=
  sort_key_ok (dirs_of order_by) e.1.

Definition L (order_by : option (list OrderSpec)) : cmp_lawful (entry_ok order_by) entry_cmp :=
  entry_cmp_lawful (dirs_of order_by).

(** ** The invariant

    [held] maps every record of the input to the sort key it was placed by. *)
Record topk_inv (tk : TopK) (held : gmap string SortKey) : Prop := {
  ti_ok : map_Forall (λ k s, entry_ok (tk_order_by tk) (s, k)) held;
  ti_sorted : sl_sorted entry_cmp (os_iter (tk_buffer tk));
  ti_index : ∀ k s, tk_key_index tk !! k = Some s ↔ (s, k) ∈ os_iter (tk_buffer tk);
  ti_held : ∀ k s, (s, k) ∈ os_iter (tk_buffer tk) → held !! k = Some s;
  ti_below :
    match tk_boundary tk with
    | None => ∀ k s, held !! k = Some s → (s, k) ∈ os_iter (tk_buffer tk)
    | Some b => entry_ok (tk_order_by tk) b ∧
        ∀ k s, held !! k = Some s → ((s, k) ∈ os_iter (tk_buffer tk) ↔ entry_cmp (s, k) b = Lt)
    end;
}.

Lemma topk_inv_buffer_ok tk held : topk_inv tk held →
  Forall (entry_ok (tk_order_by tk)) (os_iter (tk_buffer tk)).
Proof.
  intros Hi. apply Forall_forall. intros [s k] Hin.
  apply (ti_ok _ _ Hi k s). by apply (ti_held _ _ Hi).
Qed.

(** Taking a key out, whether it is buffered or not. *)
Definition removed (tk : TopK) (key : RowKey) : TopK :=
  match tk_key_index tk !! key with
  | Some s => TopKOp.with_state tk (os_remove entry_cmp (s, key) (tk_buffer tk)).2
      (delete key (tk_key_index tk)) (tk_boundary tk)
  | None => tk
  end.

Lemma removed_order tk key : tk_order_by (removed tk key) = tk_order_by tk.
Proof. unfold removed. by destruct (_ !! _). Qed.

Lemma removed_boundary tk key : tk_boundary (removed tk key) = tk_boundary tk.
Proof. unfold removed. by destruct (_ !! _). Qed.

Lemma removed_iter tk held key : topk_inv tk held → ∀ k s,
  (s, k) ∈ os_iter (tk_buffer (removed tk key)) ↔ (s, k) ∈ os_iter (tk_buffer tk) ∧ k ≠ key.
Proof.
  intros Hi k s. unfold removed. destruct (tk_key_index tk !! key) as [s0|] eqn:E; simpl.
  - pose proof (proj1 (ti_index _ _ Hi key s0) E) as Hin.
    pose proof (topk_inv_buffer_ok _ _ Hi) as Hok.
    assert (entry_ok (tk_order_by tk) (s0, key)) as Hok0 by (rewrite Forall_forall in Hok; auto).
    destruct (os_remove_iter _ _ (L (tk_order_by tk)) (s0, key) (tk_buffer tk) Hok0 Hok (ti_sorted _ _ Hi))
      as [-> _].
    rewrite elem_of_sl_remove. split.
    + intros [Hk Hne]. split; [done|]. intros ->. apply Hne.
      apply (ti_held _ _ Hi) in Hk. apply (ti_held _ _ Hi) in Hin. rewrite Hk in Hin.
      injection Hin as ->. by apply (cmp_refl _ _ (L (tk_order_by tk))).
    + intros [Hk Hne]. split; [done|]. intros Heq%entry_cmp_eq_key. simpl in Heq. congruence.
  - split; [|by intros [? _]]. intros Hk. split; [done|]. intros ->.
    apply (ti_index _ _ Hi) in Hk. congruence.
Qed.

Lemma removed_inv tk held key : topk_inv tk held → topk_inv (removed tk key) (delete key held).
Proof.
  intros Hi. pose proof (removed_iter tk held key Hi) as Hit. split.
  - rewrite removed_order. intros k s [_ Hk]%lookup_delete_Some. by apply (ti_ok _ _ Hi).
  - unfold removed. destruct (tk_key_index tk !! key) as [s0|] eqn:E; simpl; [|apply Hi].
    pose proof (proj1 (ti_index _ _ Hi key s0) E) as Hin.
    pose proof (topk_inv_buffer_ok _ _ Hi) as Hok.
    assert (entry_ok (tk_order_by tk) (s0, key)) as Hok0 by (rewrite Forall_forall in Hok; auto).
    destruct (os_remove_iter _ _ (L (tk_order_by tk)) (s0, key) (tk_buffer tk) Hok0 Hok (ti_sorted _ _ Hi))
      as [-> _].
    apply sl_sorted_remove, Hi.
  - intros k s. rewrite Hit. unfold removed. destruct (tk_key_index tk !! key) as [s0|] eqn:E; simpl.
    + rewrite lookup_delete_Some, (ti_index _ _ Hi). naive_solver.
    + rewrite <- (ti_index _ _ Hi). split; [|naive_solver]. intros Hk. split; [done|]. congruence.
  - intros k s [Hk Hne]%Hit. rewrite lookup_delete_ne by done. by apply (ti_held _ _ Hi).
  - rewrite removed_boundary, removed_order. pose proof (ti_below _ _ Hi) as Hb.
    destruct (tk_boundary tk) as [b|].
    + destruct Hb as [Hbok Hb]. split; [done|]. intros k s [Hne Hk]%lookup_delete_Some.
      rewrite Hit, <- Hb by done. naive_solver.
    + intros k s [Hne Hk]%lookup_delete_Some. rewrite Hit. split; [by apply Hb|done].
Qed.

(** The rest of the loop body for a positive weight. *)
Definition place (entry : Entry) (tk : TopK) : TopK :=
  let full_and_larger := (tk_capacity tk <=? os_len (tk_buffer tk)) &&
    match os_last (tk_buffer tk) with
    | Some last => bool_decide (entry_cmp entry last = Gt)
    | None => false
    end in
  if full_and_larger ||
     match tk_boundary tk with
     | Some b => negb (bool_decide (entry_cmp entry b = Lt))
     | None => false
     end
  then TopKOp.with_state tk (tk_buffer tk) (tk_key_index tk)
         (TopKOp.lower_boundary (tk_boundary tk) entry)
  else
    let key_index := <[entry.2 := entry.1]> (tk_key_index tk) in
    let buffer := (os_insert entry_cmp entry (tk_buffer tk)).2 in
    if tk_capacity tk <? os_len buffer then
      let '(popped, buffer) := os_pop_last buffer in
      match popped with
      | Some evicted =>
          TopKOp.with_state tk buffer (delete evicted.2 key_index)
            (TopKOp.lower_boundary (tk_boundary tk) evicted)
      | None => TopKOp.with_state tk buffer key_index (tk_boundary tk)
      end
    else TopKOp.with_state tk buffer key_index (tk_boundary tk).

Lemma visit_spec store tk key w :
  TopKOp.visit store tk (key, w) =
    if 0 <? w then place (TopKOp.compute_sort_key (tk_order_by tk) key store, key) (removed tk key)
    else if w <? 0 then removed tk key else tk.
Proof.
  unfold TopKOp.visit, place, removed. destruct (0 <? w), (w <? 0), (tk_key_index tk !! key); done.
Qed.

(** What placing does to the records held. *)
Definition placed (store : Store) (order_by : option (list OrderSpec))
    (held : gmap string SortKey) (e : RowKey * Z) : gmap string SortKey :=
  if 0 <? e.2 then <[e.1 := TopKOp.compute_sort_key order_by e.1 store]> held
  else if e.2 <? 0 then delete e.1 held else held.

Lemma place_params entry tk :
  tk_order_by (place entry tk) = tk_order_by tk ∧ tk_limit (place entry tk) = tk_limit tk ∧
  tk_offset (place entry tk) = tk_offset tk ∧ tk_capacity (place entry tk) = tk_capacity tk.
Proof.
  unfold place. destruct (_ || _); [done|]. destruct (_ <? _); [|done].
  destruct (os_pop_last _) as [[e|] b]; done.
Qed.

(** Dropping a record: it is at or above the boundary, or above everything kept. *)
Lemma place_dropped tk held s k :
  topk_inv tk held → held !! k = None → entry_ok (tk_order_by tk) (s, k) →
  (∀ b, tk_boundary tk = Some b → entry_cmp (s, k) b = Lt → ∀ e, e ∈ os_iter (tk_buffer tk) → entry_cmp e (s, k) = Lt) →
  (tk_boundary tk = None → ∀ e, e ∈ os_iter (tk_buffer tk) → entry_cmp e (s, k) = Lt) →
  topk_inv (TopKOp.with_state tk (tk_buffer tk) (tk_key_index tk)
    (TopKOp.lower_boundary (tk_boundary tk) (s, k))) (<[k := s]> held).
Proof.
  intros Hi Hk Hok Hlow Hnone. pose proof (L (tk_order_by tk)) as HL. split; simpl.
  - by apply map_Forall_insert_2; [|apply Hi].
  - apply Hi.
  - apply Hi.
  - intros k' s' Hin. apply (ti_held _ _ Hi) in Hin. rewrite lookup_insert_ne; [done|congruence].
  - pose proof (ti_below _ _ Hi) as Hb.
    assert ((s, k) ∉ os_iter (tk_buffer tk)) as Hnew.
    { intros Hin%(ti_held _ _ Hi). congruence. }
    assert (entry_cmp (s, k) (s, k) = Eq) as Hrefl by (by apply (cmp_refl _ _ HL)).
    destruct (tk_boundary tk) as [b|]; simpl.
    + destruct Hb as [Hbok Hb]. case_bool_decide as Hlt; (split; [done|]).
      * intros k' s' Hk'. destruct (decide (k' = k)) as [->|Hne].
        { rewrite lookup_insert_eq in Hk'. injection Hk' as <-. rewrite Hrefl. naive_solver. }
        rewrite lookup_insert_ne in Hk' by done. split; [by apply (Hlow b)|]. intros Hlt'.
        apply Hb; [done|]. eapply (cmp_lt_trans _ _ HL _ (s, k) b); try done.
        by apply (ti_ok _ _ Hi k' s').
      * intros k' s' Hk'. destruct (decide (k' = k)) as [->|Hne].
        { rewrite lookup_insert_eq in Hk'. injection Hk' as <-. naive_solver. }
        rewrite lookup_insert_ne in Hk' by done. by apply Hb.
    + split; [done|]. intros k' s' Hk'. destruct (decide (k' = k)) as [->|Hne].
      { rewrite lookup_insert_eq in Hk'. injection Hk' as <-. rewrite Hrefl. naive_solver. }
      rewrite lookup_insert_ne in Hk' by done. split; [by apply Hnone|]. intros _. by apply Hb.
Qed.

(** Keeping a record: it is below the boundary. *)
Lemma place_kept tk held s k :
  topk_inv tk held → held !! k = None → entry_ok (tk_order_by tk) (s, k) →
  (∀ b, tk_boundary tk = Some b → entry_cmp (s, k) b = Lt) →
  topk_inv (TopKOp.with_state tk (os_insert entry_cmp (s, k) (tk_buffer tk)).2
    (<[k := s]> (tk_key_index tk)) (tk_boundary tk)) (<[k := s]> held).
Proof.
  intros Hi Hk Hok Hlow. pose proof (L (tk_order_by tk)) as HL.
  pose proof (topk_inv_buffer_ok _ _ Hi) as Hbok.
  destruct (os_insert_iter _ _ HL (s, k) (tk_buffer tk) Hok Hbok (ti_sorted _ _ Hi)) as [Hit _].
  assert (∀ k' s', (s', k') ∈ sl_insert entry_cmp (s, k) (os_iter (tk_buffer tk)) ↔
    (s', k') = (s, k) ∨ (s', k') ∈ os_iter (tk_buffer tk)) as Hel.
  { intros k' s'. split; [apply elem_of_sl_insert|]. intros [->|Hin].
    - apply elem_of_sl_insert_new. unfold sl_mem. apply not_true_is_false.
      rewrite existsb_exists. intros ([s0 k0] & Hin%list_elem_of_In & Hc).
      destruct (entry_cmp (s, k) (s0, k0)) eqn:E; try done.
      apply entry_cmp_eq_key in E. simpl in E. subst k0.
      apply (ti_held _ _ Hi) in Hin. congruence.
    - by apply elem_of_sl_insert_old. }
  split; simpl; rewrite ?Hit.
  - by apply map_Forall_insert_2; [|apply Hi].
  - by apply (sl_sorted_insert _ _ HL); [..|apply Hi].
  - intros k' s'. rewrite Hel. destruct (decide (k' = k)) as [->|Hne].
    + rewrite lookup_insert_eq. split; [intros [= ->]; by left|].
      intros [[= ->]|Hin]; [done|]. apply (ti_held _ _ Hi) in Hin. congruence.
    + rewrite lookup_insert_ne, (ti_index _ _ Hi) by done. naive_solver.
  - intros k' s'. rewrite Hel. intros [[= -> ->]|Hin]; [apply lookup_insert_eq|].
    apply (ti_held _ _ Hi) in Hin. rewrite lookup_insert_ne; [done|congruence].
  - pose proof (ti_below _ _ Hi) as Hb. destruct (tk_boundary tk) as [b|].
    + destruct Hb as [Hb0 Hb]. split; [done|]. intros k' s' Hk'. rewrite Hel.
      destruct (decide (k' = k)) as [->|Hne].
      { rewrite lookup_insert_eq in Hk'. injection Hk' as <-. naive_solver. }
      rewrite lookup_insert_ne in Hk' by done. rewrite <- Hb by done. naive_solver.
    + intros k' s' Hk'. rewrite Hel. destruct (decide (k' = k)) as [->|Hne].
      { rewrite lookup_insert_eq in Hk'. injection Hk' as <-. by left. }
      rewrite lookup_insert_ne in Hk' by done. right. by apply Hb.
Qed.

(** Evicting the last record: it becomes the boundary. *)
Lemma evict_inv tk held evicted buffer :
  topk_inv tk held → os_pop_last (tk_buffer tk) = (Some evicted, buffer) →
  topk_inv (TopKOp.with_state tk buffer (delete evicted.2 (tk_key_index tk))
    (TopKOp.lower_boundary (tk_boundary tk) evicted)) held.
Proof.
  intros Hi Hpop. pose proof (L (tk_order_by tk)) as HL.
  pose proof (topk_inv_buffer_ok _ _ Hi) as Hbok. pose proof (ti_sorted _ _ Hi) as Hs.
  destruct (os_pop_last_iter (tk_buffer tk)) as [Hlast Hrest]. rewrite Hpop in Hlast, Hrest.
  simpl in Hlast, Hrest. symmetry in Hlast. apply last_removelast in Hlast.
  rewrite <- Hrest in Hlast. destruct evicted as [s k].
  set (l := os_iter (tk_buffer tk)) in *. set (l' := os_iter buffer) in *.
  assert (∀ e, e ∈ l' → entry_cmp e (s, k) = Lt) as Hbelow.
  { intros e [i Hi']%list_elem_of_lookup_1. rewrite Hlast in Hs.
    eapply (StronglySorted_lookup_lt _ _ i (length l') e (s, k) Hs).
    - by rewrite lookup_app_l by (by eapply lookup_lt_Some).
    - by rewrite list_lookup_middle.
    - by eapply lookup_lt_Some. }
  assert ((s, k) ∈ l) as Hin by (rewrite Hlast; set_solver).
  assert (entry_ok (tk_order_by tk) (s, k)) as Hok by (rewrite Forall_forall in Hbok; auto).
  assert (∀ e, e ∈ l ↔ e ∈ l' ∨ e = (s, k)) as Hel by (intros e; rewrite Hlast; set_solver).
  assert (entry_cmp (s, k) (s, k) = Eq) as Hrefl by (by apply (cmp_refl _ _ HL)).
  assert (∀ k' s', (s', k') ∈ l' ↔ (s', k') ∈ l ∧ k' ≠ k) as Hel'.
  { intros k' s'. split.
    - intros Hin'. split; [apply Hel; auto|]. intros ->.
      assert (s' = s) as ->.
      { apply (ti_held _ _ Hi) in Hin. assert ((s', k) ∈ l) as Hx by (apply Hel; auto).
        apply (ti_held _ _ Hi) in Hx. congruence. }
      apply Hbelow in Hin'. congruence.
    - intros [[?|[= -> ->]]%Hel Hne]; done. }
  split; simpl; fold l'.
  - apply Hi.
  - rewrite Hlast in Hs. clear -Hs. induction l' as [|x l IH]; [constructor|].
    simpl in Hs. apply StronglySorted_inv in Hs as [Hs Hx]. constructor; [by apply IH|].
    by apply Forall_app in Hx as [? _].
  - intros k' s'. rewrite lookup_delete_Some, (ti_index _ _ Hi), Hel'. fold l. naive_solver.
  - intros k' s' [Hl _]%Hel'. by apply (ti_held _ _ Hi).
  - pose proof (ti_below _ _ Hi) as Hb. pose proof (ti_held _ _ Hi k s Hin) as Hks.
    assert (∀ k' s', held !! k' = Some s' → (s', k') ∈ l →
      ((s', k') ∈ l' ↔ entry_cmp (s', k') (s, k) = Lt)) as Hcmp.
    { intros k' s' Hk' Hl. split; [apply Hbelow|]. intros Hlt.
      apply Hel in Hl as [?|Heq]; [done|]. rewrite Heq in Hlt. congruence. }
    destruct (tk_boundary tk) as [b|]; simpl.
    + destruct Hb as [Hb0 Hb]. assert (entry_cmp (s, k) b = Lt) as Hlt by (by apply Hb).
      rewrite bool_decide_eq_true_2 by done. split; [done|]. intros k' s' Hk'.
      destruct (decide ((s', k') ∈ l)) as [Hl|Hl]; [by apply Hcmp|].
      split; [intros [? _]%Hel'; done|]. intros Hlt'. exfalso. apply Hl, Hb; [done|].
      eapply (cmp_lt_trans _ _ HL _ (s, k) b); try done. by apply (ti_ok _ _ Hi k' s').
    + split; [done|]. intros k' s' Hk'. by apply Hcmp, Hb.
Qed.

Lemma place_inv tk held s k :
  topk_inv tk held → held !! k = None → entry_ok (tk_order_by tk) (s, k) →
  topk_inv (place (s, k) tk) (<[k := s]> held).
Proof.
  intros Hi Hk Hok. pose proof (L (tk_order_by tk)) as HL. unfold place.
  destruct (_ || _) eqn:Ed.
  - assert (∀ last, os_last (tk_buffer tk) = Some last → entry_cmp (s, k) last = Gt →
      ∀ e, e ∈ os_iter (tk_buffer tk) → entry_cmp e (s, k) = Lt) as Hlast.
    { intros x Hx Hgt e He. unfold os_last in Hx.
      pose proof (topk_inv_buffer_ok _ _ Hi) as Hbok. rewrite Forall_forall in Hbok.
      assert (x ∈ os_iter (tk_buffer tk)) as Hxin by (by apply last_Some_elem_of).
      assert (entry_cmp x (s, k) = Lt) as Hxlt by (by apply (cmp_gt_lt _ _ HL); auto).
      pose proof (last_removelast _ _ Hx) as Hl. rewrite Hl in He.
      apply elem_of_app in He as [He|He]; [|by apply list_elem_of_singleton in He as ->].
      eapply (cmp_lt_trans _ _ HL e x (s, k)); try done.
      + apply Hbok. rewrite Hl. set_solver.
      + by apply Hbok.
      + pose proof (ti_sorted _ _ Hi) as Hs. rewrite Hl in Hs.
        apply list_elem_of_lookup_1 in He as [i He].
        eapply (StronglySorted_lookup_lt _ _ i (length (removelast (os_iter (tk_buffer tk)))) e x Hs).
        * by rewrite lookup_app_l by (by eapply lookup_lt_Some).
        * by rewrite list_lookup_middle.
        * by eapply lookup_lt_Some. }
    apply orb_prop in Ed as [Ed|Ed].
    + apply andb_prop in Ed as [_ Ed]. destruct (os_last (tk_buffer tk)) as [x|] eqn:Ex; [|done].
      apply bool_decide_eq_true_1 in Ed. apply place_dropped; eauto.
    + destruct (tk_boundary tk) as [b|] eqn:Eb; [|done]. apply negb_true_iff, bool_decide_eq_false_1 in Ed.
      rewrite <- Eb. apply place_dropped; try done; rewrite Eb; [|done]. intros b' [= <-]. done.
  - apply orb_false_elim in Ed as [_ Ed].
    assert (∀ b, tk_boundary tk = Some b → entry_cmp (s, k) b = Lt) as Hlow.
    { intros b Hb. rewrite Hb in Ed. apply negb_false_iff in Ed. by apply bool_decide_eq_true_1 in Ed. }
    pose proof (place_kept tk held s k Hi Hk Hok Hlow) as Hkept. cbn [fst snd].
    destruct (_ <? _); [|done].
    destruct (os_pop_last _) as [[evicted|] buffer] eqn:Ep.
    + by apply (evict_inv _ _ _ _ Hkept).
    + exfalso. destruct (os_pop_last_iter (os_insert entry_cmp (s, k) (tk_buffer tk)).2) as [Hl _].
      rewrite Ep in Hl. simpl in Hl. symmetry in Hl. apply last_None in Hl.
      pose proof (ti_index _ _ Hkept k s) as Hx. simpl in Hx. rewrite lookup_insert_eq, Hl in Hx.
      set_solver.
Qed.

Lemma visit_params store tk e :
  tk_order_by (TopKOp.visit store tk e) = tk_order_by tk ∧
  tk_limit (TopKOp.visit store tk e) = tk_limit tk ∧
  tk_offset (TopKOp.visit store tk e) = tk_offset tk.
Proof.
  destruct e as [key w]. rewrite visit_spec. unfold removed.
  destruct (0 <? w).
  - set (entry := (_, key)). destruct (tk_key_index tk !! key) as [s|].
    + by destruct (place_params entry (TopKOp.with_state tk (os_remove entry_cmp (s, key) (tk_buffer tk)).2
        (delete key (tk_key_index tk)) (tk_boundary tk))) as (? & ? & ? & ?).
    + by destruct (place_params entry tk) as (? & ? & ? & ?).
  - destruct (w <? 0), (tk_key_index tk !! key); done.
Qed.

(** The keys a batch places have sort keys the order is total on. *)
Definition batch_ok (order_by : option (list OrderSpec)) (store : Store) (l : list (RowKey * Z)) : Prop :=
  ∀ k w, (k, w) ∈ l → 0 < w → entry_ok order_by (TopKOp.compute_sort_key order_by k store, k).

Lemma visit_inv store tk held e :
  topk_inv tk held → batch_ok (tk_order_by tk) store [e] →
  topk_inv (TopKOp.visit store tk e) (placed store (tk_order_by tk) held e).
Proof.
  intros Hi Hb. destruct e as [key w]. rewrite visit_spec. unfold placed. simpl.
  pose proof (removed_inv tk held key Hi) as Hr.
  destruct (Z.ltb_spec 0 w).
  - rewrite <- insert_delete_eq. apply place_inv; [done|apply lookup_delete_eq|].
    rewrite removed_order. eapply Hb; [by apply list_elem_of_singleton|done].
  - by destruct (w <? 0).
Qed.

Lemma loop_inv store l tk held :
  topk_inv tk held → batch_ok (tk_order_by tk) store l →
  let tk' := foldl (TopKOp.visit store) tk l in
  topk_inv tk' (foldl (placed store (tk_order_by tk)) held l) ∧
  tk_order_by tk' = tk_order_by tk ∧ tk_limit tk' = tk_limit tk ∧ tk_offset tk' = tk_offset tk.
Proof.
  revert tk held. induction l as [|e l IH]; intros tk held Hi Hb; cbn [foldl]; [done|].
  destruct (visit_params store tk e) as (Ho & Hl & Hf).
  assert (batch_ok (tk_order_by tk) store [e]) as Hb1.
  { intros k w Hin. apply Hb. set_solver. }
  destruct (IH (TopKOp.visit store tk e) (placed store (tk_order_by tk) held e)) as (Hi' & Ho' & Hl' & Hf').
  - by apply visit_inv.
  - rewrite Ho. intros k w Hin. apply Hb. set_solver.
  - rewrite Ho in Hi'. split_and!; [done|congruence..].
Qed.

(** ** The window *)

(** All records, sorted. *)
Definition sorted_entries (held : gmap string SortKey) : list Entry :=
  sort_by entry_cmp (map (λ e, (e.2, e.1)) (map_to_list held)).

(** The reference: sort everything, skip [offset], take [limit]. *)
Definition reference_window (limit offset : Z) (held : gmap string SortKey) : list RowKey :=
  (ztake limit (zdrop offset (sorted_entries held))).*2.

Lemma elem_of_entries (held : gmap string SortKey) s k :
  (s, k) ∈ map (λ e, (e.2, e.1)) (map_to_list held) ↔ held !! k = Some s.
Proof.
  change (map ?f ?l) with (f <$> l). rewrite list_elem_of_fmap. split.
  - intros ([k' s'] & [= -> ->] & Hin). by apply elem_of_map_to_list.
  - intros Hk. exists (k, s). split; [done|]. by apply elem_of_map_to_list.
Qed.

Lemma sorted_entries_spec order_by (held : gmap string SortKey) :
  map_Forall (λ k s, entry_ok order_by (s, k)) held →
  sl_sorted entry_cmp (sorted_entries held) ∧
  Forall (entry_ok order_by) (sorted_entries held) ∧
  ∀ s k, (s, k) ∈ sorted_entries held ↔ held !! k = Some s.
Proof.
  intros Hok. unfold sorted_entries. set (l := map _ _).
  assert (Forall (entry_ok order_by) l) as Hl.
  { apply Forall_forall. intros [s k] Hin%elem_of_entries. by apply (Hok k s). }
  split_and!.
  - apply (sort_by_sorted _ _ (L order_by)); [done| |].
    + unfold l. change (map ?f ?l) with (f <$> l). apply NoDup_fmap_2; [|apply NoDup_map_to_list].
      by intros [] [] [= -> ->].
    + intros [s k] [s' k'] H1%elem_of_entries H2%elem_of_entries Heq%entry_cmp_eq_key.
      simpl in Heq. subst. congruence.
  - by rewrite sort_by_perm.
  - intros s k. rewrite sort_by_perm. apply elem_of_entries.
Qed.

(** The buffer is a prefix of the sorted input, all of it when nothing was dropped. *)
Lemma buffer_prefix tk held : topk_inv tk held →
  ∃ rest, sorted_entries held = os_iter (tk_buffer tk) ++ rest ∧
    (tk_boundary tk = None → rest = []).
Proof.
  intros Hi. pose proof (L (tk_order_by tk)) as HL.
  destruct (sorted_entries_spec (tk_order_by tk) held (ti_ok _ _ Hi)) as (Hs & Hok & Hel).
  pose proof (topk_inv_buffer_ok _ _ Hi) as Hbok.
  set (l := os_iter (tk_buffer tk)) in *.
  set (rest := List.filter (λ e, negb (bool_decide (e ∈ l))) (sorted_entries held)).
  assert (∀ e, e ∈ rest ↔ e ∈ sorted_entries held ∧ e ∉ l) as Hrest.
  { intros e. unfold rest. rewrite list_elem_of_In, filter_In, <- list_elem_of_In.
    rewrite negb_true_iff, bool_decide_eq_false. done. }
  assert (∀ a b, a ∈ l → b ∈ rest → entry_cmp a b = Lt) as Hcross.
  { intros [sa ka] [sb kb] Ha Hb%Hrest. destruct Hb as [Hb Hnb].
    apply Hel in Hb. pose proof (ti_below _ _ Hi) as Hbelow.
    destruct (tk_boundary tk) as [b|]; [|by destruct Hnb; apply Hbelow].
    destruct Hbelow as [Hb0 Hbelow].
    pose proof (ti_held _ _ Hi ka sa Ha) as Hka.
    apply (Hbelow ka sa Hka) in Ha. fold l in Hbelow. rewrite (Hbelow kb sb Hb) in Hnb.
    pose proof (ti_ok _ _ Hi ka sa Hka) as Oka. pose proof (ti_ok _ _ Hi kb sb Hb) as Okb.
    destruct (entry_cmp (sa, ka) (sb, kb)) eqn:E; [|done|].
    - exfalso. apply Hnb. by rewrite <- (cmp_trans_eq _ _ HL (sa, ka) (sb, kb) b Oka Okb Hb0 E).
    - exfalso. apply Hnb. apply (cmp_gt_lt _ _ HL) in E; [|done|done].
      by apply (cmp_lt_trans _ _ HL _ (sa, ka) b). }
  exists rest. split.
  - apply (sl_sorted_ext _ _ HL); [done| |done| |].
    + apply Forall_app. split; [done|]. apply Forall_forall. intros e [He _]%Hrest.
      rewrite Forall_forall in Hok. auto.
    + apply sl_sorted_app; [apply Hi|by apply sl_sorted_filter|done].
    + intros [s k]. rewrite elem_of_app, Hrest. split.
      * intros Hin. destruct (decide ((s, k) ∈ l)); auto.
      * intros [Hin|[? _]]; [|done]. apply Hel. by apply (ti_held _ _ Hi).
  - intros Hnone. pose proof (ti_below _ _ Hi) as Hbelow. rewrite Hnone in Hbelow.
    destruct rest as [|[s k] rest']; [done|]. exfalso.
    destruct (proj1 (Hrest (s, k))) as [Hin Hnin]; [set_solver|]. apply Hel in Hin. by apply Hnin, Hbelow.
Qed.

(** The part of the buffer a window reads. *)
Lemma window_slice (l : list Entry) (offset limit : Z) :
  0 <= offset < zlength l → 0 <= limit →
  omap (λ i, snd <$> zlookup l i) (seqZ offset (Z.min (offset + limit) (zlength l) - offset)) =
  (take (Z.to_nat limit) (drop (Z.to_nat offset) l)).*2.
Proof.
  intros Ho Hl. unfold zlength in Ho.
  transitivity (omap (λ i, zlookup (l.*2) i) (seqZ offset
    (Z.min (offset + limit) (zlength l) - offset))).
  { apply list_omap_ext, Forall_Forall2_diag, Forall_forall. intros i Hin%elem_of_seqZ.
    rewrite !zlookup_spec by lia. by rewrite list_lookup_fmap. }
  unfold zlength. rewrite omap_seqZ_lookup; [|lia|unfold zlength; rewrite length_fmap; lia].
  rewrite fmap_take, fmap_drop.
  destruct (Z.le_gt_cases (offset + limit) (Z.of_nat (length l))).
  - f_equal. lia.
  - rewrite !take_ge; [done|rewrite length_drop, length_fmap; lia..].
Qed.

Lemma wrap_sum a b : 0 <= a → 0 <= b → a + b < two64 → wrap_u64 (a + b) = a + b.
Proof. intros. unfold wrap_u64. apply Z.mod_small. lia. Qed.

Lemma saturating_le o l n : o + l < two64 → saturating_add o l <= n → o + l <= n.
Proof. unfold saturating_add, usize_max. lia. Qed.

(** While no rebuild is due, the window shown is the reference window. *)
Lemma window_exact tk held : topk_inv tk held →
  0 <= tk_offset tk → 0 <= tk_limit tk → tk_offset tk + tk_limit tk < two64 →
  TopKOp.needs_rebuild tk = false →
  TopKOp.current_window tk = reference_window (tk_limit tk) (tk_offset tk) held.
Proof.
  intros Hi Ho Hl Hsum Hnr. destruct (buffer_prefix tk held Hi) as (rest & Hrest & Hnone).
  unfold reference_window. rewrite Hrest. unfold TopKOp.current_window, os_len, os_get_index.
  unfold TopKOp.needs_rebuild, os_len in Hnr. set (l := os_iter (tk_buffer tk)) in *.
  rewrite wrap_sum, ztake_spec, zdrop_spec by done.
  assert (rest = [] ∨ tk_offset tk + tk_limit tk <= zlength l) as Hcase.
  { destruct (tk_boundary tk); [right|left; auto]. apply Z.ltb_ge in Hnr. by apply saturating_le. }
  destruct (Z.leb_spec (zlength l) (tk_offset tk)) as [Hle|Hgt].
  - unfold zlength in *. destruct Hcase as [->|?].
    + rewrite app_nil_r, drop_ge by lia. by rewrite take_nil.
    + assert (tk_limit tk = 0) as -> by lia. reflexivity.
  - rewrite window_slice by done. unfold zlength in *. rewrite drop_app_le by lia.
    destruct Hcase as [->|Hge]; [by rewrite app_nil_r|].
    by rewrite take_app_le by (rewrite length_drop; lia).
Qed.

(** ** What enters and what leaves *)

(** A window as a Z-set: each key once. *)
Definition window_zset (ks : list RowKey) : ZSet := foldl (λ out k, <[k := 1]> out) ∅ ks.

Lemma lookup_window_zset_acc ks (acc : ZSet) k :
  foldl (λ out k, <[k := 1]> out) acc ks !! k = if bool_decide (k ∈ ks) then Some 1 else acc !! k.
Proof.
  revert acc. induction ks as [|k' ks IH]; intros acc; cbn [foldl]; [done|]. rewrite IH.
  destruct (decide (k ∈ ks)) as [Hin|Hin].
  - rewrite (bool_decide_eq_true_2 (k ∈ ks)), (bool_decide_eq_true_2 (k ∈ k' :: ks)) by set_solver. done.
  - rewrite (bool_decide_eq_false_2 (k ∈ ks)) by done. destruct (decide (k = k')) as [->|Hne].
    + rewrite lookup_insert_eq, (bool_decide_eq_true_2 (k' ∈ k' :: ks)) by set_solver. done.
    + rewrite lookup_insert_ne, (bool_decide_eq_false_2 (k ∈ k' :: ks)) by set_solver. done.
Qed.

Lemma lookup_window_zset ks k : window_zset ks !! k = if bool_decide (k ∈ ks) then Some 1 else None.
Proof. unfold window_zset. by rewrite lookup_window_zset_acc, lookup_empty. Qed.

Lemma window_zset_wf ks : zset_wf (window_zset ks).
Proof.
  intros k w. rewrite lookup_window_zset. case_bool_decide; intros [= <-]. split; [width_lia|done].
Qed.

Lemma lookup_bump_loop w ks (out : ZSet) k : NoDup ks →
  foldl (TopKOp.bump w) out ks !! k =
    if bool_decide (k ∈ ks) then Some (i64_add (default 0 (out !! k)) w) else out !! k.
Proof.
  intros Hnd. revert out. induction Hnd as [|k' ks Hk Hnd IH]; intros out; cbn [foldl]; [done|].
  rewrite IH. unfold TopKOp.bump. destruct (decide (k = k')) as [->|Hne].
  - rewrite (bool_decide_eq_false_2 (k' ∈ ks)), (bool_decide_eq_true_2 (k' ∈ k' :: ks)) by set_solver.
    apply lookup_insert_eq.
  - rewrite lookup_insert_ne by done. by rewrite (bool_decide_ext (k ∈ ks) (k ∈ k' :: ks)) by set_solver.
Qed.

Lemma displacement_spec old new k : NoDup old → NoDup new →
  TopKOp.displacement old new !! k =
    if bool_decide (k ∈ new) then (if bool_decide (k ∈ old) then None else Some 1)
    else (if bool_decide (k ∈ old) then Some (-1) else None).
Proof.
  intros Ho Hn. unfold TopKOp.displacement. rewrite map_lookup_filter.
  assert (∀ p (l : list RowKey) (x : RowKey), x ∈ List.filter p l ↔ x ∈ l ∧ p x = true) as Hf.
  { intros p l x. by rewrite !list_elem_of_In, filter_In. }
  assert (∀ p (l : list RowKey), NoDup l → NoDup (List.filter p l)) as Hnd.
  { intros p l Hl. apply NoDup_ListNoDup, List.NoDup_filter. by apply NoDup_ListNoDup. }
  rewrite !lookup_bump_loop, lookup_empty by auto.
  rewrite (bool_decide_ext (k ∈ List.filter _ old) (k ∈ old ∧ k ∉ new)).
  2: { rewrite Hf, negb_true_iff, bool_decide_eq_false. done. }
  rewrite (bool_decide_ext (k ∈ List.filter _ new) (k ∈ new ∧ k ∉ old)).
  2: { rewrite Hf, negb_true_iff, bool_decide_eq_false. done. }
  destruct (decide (k ∈ old)) as [H1|H1], (decide (k ∈ new)) as [H2|H2];
    repeat (first [rewrite (bool_decide_eq_true_2 (k ∈ old ∧ k ∉ new)) by done
      |rewrite (bool_decide_eq_false_2 (k ∈ old ∧ k ∉ new)) by naive_solver
      |rewrite (bool_decide_eq_true_2 (k ∈ new ∧ k ∉ old)) by done
      |rewrite (bool_decide_eq_false_2 (k ∈ new ∧ k ∉ old)) by naive_solver
      |rewrite (bool_decide_eq_true_2 (k ∈ new)) by done
      |rewrite (bool_decide_eq_false_2 (k ∈ new)) by done
      |rewrite (bool_decide_eq_true_2 (k ∈ old)) by done
      |rewrite (bool_decide_eq_false_2 (k ∈ old)) by done]); reflexivity.
Qed.

Lemma displacement_wf old new : NoDup old → NoDup new → zset_wf (TopKOp.displacement old new).
Proof.
  intros Ho Hn k w. rewrite displacement_spec by done.
  destruct (bool_decide _), (bool_decide _); intros [= <-]; (split; [width_lia|done]).
Qed.

Lemma displacement_add old new : NoDup old → NoDup new →
  ZSet.add (window_zset old) (TopKOp.displacement old new) = window_zset new.
Proof.
  intros Ho Hn. apply zset_ext; [apply add_wf, window_zset_wf|apply window_zset_wf|]. intros k.
  rewrite weight_add by apply window_zset_wf. unfold weight.
  rewrite displacement_spec, !lookup_window_zset by done.
  destruct (bool_decide (k ∈ old)), (bool_decide (k ∈ new)); reflexivity.
Qed.

Lemma buffer_keys_NoDup tk held : topk_inv tk held → NoDup (os_iter (tk_buffer tk)).*2.
Proof.
  intros Hi. apply NoDup_fmap_2_strong.
  - intros [s k] [s' k'] H1 H2 Heq. simpl in Heq. subst k'.
    apply (ti_held _ _ Hi) in H1. apply (ti_held _ _ Hi) in H2. congruence.
  - apply (sl_sorted_NoDup _ _ (L (tk_order_by tk))); [by apply (topk_inv_buffer_ok _ held)|apply Hi].
Qed.

Lemma current_window_NoDup tk held : topk_inv tk held → 0 <= tk_offset tk →
  NoDup (TopKOp.current_window tk).
Proof.
  intros Hi Ho. unfold TopKOp.current_window, os_len, os_get_index.
  pose proof (buffer_keys_NoDup tk held Hi) as Hnd. set (l := os_iter (tk_buffer tk)) in *.
  destruct (Z.leb_spec (zlength l) (tk_offset tk)); [constructor|].
  set (e := Z.min _ _).
  assert (omap (λ i, snd <$> zlookup l i) (seqZ (tk_offset tk) (e - tk_offset tk)) =
    omap (λ i, zlookup l.*2 i) (seqZ (tk_offset tk) (e - tk_offset tk))) as ->.
  { apply list_omap_ext, Forall_Forall2_diag, Forall_forall. intros i Hin%elem_of_seqZ.
    rewrite !zlookup_spec by lia. by rewrite list_lookup_fmap. }
  rewrite omap_seqZ_lookup; [|done|].
  - eapply (sublist_NoDup _ (l.*2)); [exact Hnd|]. etrans; [apply sublist_take|apply sublist_drop].
  - unfold zlength. rewrite length_fmap. unfold e, zlength. lia.
Qed.
End facts.

(** * What LIMIT / START guarantees

    Runs of the bounded window operator, its snapshot, and its contract. *)

Local Open Scope Z_scope.

Section window.
Context `{Hashing} `{OrdSetLaws}.

Lemma topk_new_inv limit offset order_by : topk_inv (TopKOp.new limit offset order_by) ∅.
Proof.
  split; simpl; rewrite ?os_new_iter; try done.
  - constructor.
  - intros k s. rewrite lookup_empty. set_solver.
  - intros k s Hin. set_solver.
Qed.

Lemma step_inv tk held delta store ctx out tk' :
  topk_inv tk held → 0 <= tk_offset tk → batch_ok (tk_order_by tk) store (map_to_list delta) →
  TopKOp.step tk [delta] store ctx = (out, tk') →
  topk_inv tk' (foldl (placed store (tk_order_by tk)) held (map_to_list delta)) ∧
  tk_order_by tk' = tk_order_by tk ∧ tk_limit tk' = tk_limit tk ∧ tk_offset tk' = tk_offset tk ∧
  zset_wf out ∧
  ZSet.add (window_zset (TopKOp.current_window tk)) out = window_zset (TopKOp.current_window tk').
Proof.
  intros Hi Ho Hb Hstep. unfold TopKOp.step, input in Hstep. simpl in Hstep.
  destruct (loop_inv store (map_to_list delta) tk held Hi Hb) as (Hi' & Hob & Hl & Hf).
  set (tk1 := foldl (TopKOp.visit store) tk (map_to_list delta)) in *.
  injection Hstep as <- <-.
  assert (NoDup (TopKOp.current_window tk)) as H1 by (by eapply current_window_NoDup).
  assert (NoDup (TopKOp.current_window tk1)) as H2.
  { eapply current_window_NoDup; [exact Hi'|]. by rewrite Hf. }
  split_and!; try done; [by apply displacement_wf|by apply displacement_add].
Qed.

(** A batch of one key. *)
Lemma map_to_list_one (k : RowKey) (w : Z) : map_to_list ({[k := w]} : ZSet) = [(k, w)].
Proof. apply map_to_list_singleton. Qed.

Lemma weight_fold_delta out delta k :
  weight (TopKOp.fold_delta out delta) k =
    match delta !! k with Some w => i64_add (weight out k) w | None => weight out k end.
Proof.
  unfold TopKOp.fold_delta, weight. rewrite lookup_for_each_entry. by destruct (delta !! k).
Qed.

Lemma retain_weight (z : ZSet) k : weight (filter (λ e, e.2 ≠ 0) z) k = weight z k.
Proof.
  unfold weight. rewrite map_lookup_filter.
  destruct (z !! k) as [w|]; simpl; [|done]. case_guard; simpl; lia.
Qed.

Lemma retain_wf (z : ZSet) : (∀ k, in_i64 (weight z k)) → zset_wf (filter (λ e, e.2 ≠ 0) z).
Proof.
  intros Hz k w [Hk Hne]%map_lookup_filter_Some. specialize (Hz k).
  rewrite (weight_lookup _ _ _ Hk) in Hz. done.
Qed.

Lemma reorder_inv tk held key upstream_now store ctx out tk' :
  topk_inv tk held → 0 <= tk_offset tk →
  (upstream_now = true → batch_ok (tk_order_by tk) store [(key, 1)]) →
  TopKOp.reorder_key tk key upstream_now store ctx = Some (out, tk') →
  topk_inv tk' (if upstream_now
    then <[key := TopKOp.compute_sort_key (tk_order_by tk) key store]> held else delete key held) ∧
  tk_order_by tk' = tk_order_by tk ∧ tk_limit tk' = tk_limit tk ∧ tk_offset tk' = tk_offset tk ∧
  zset_wf out ∧
  ZSet.add (window_zset (TopKOp.current_window tk)) out = window_zset (TopKOp.current_window tk').
Proof.
  intros Hi Ho Hb Hr. unfold TopKOp.reorder_key in Hr.
  (* the retraction *)
  assert (∃ out1 tk1, match tk_key_index tk !! key with
      | Some _ => let '(delta, self) := TopKOp.step tk [{[key := -1]}] store ctx in
          (TopKOp.fold_delta ∅ delta, self)
      | None => (∅, tk) end = (out1, tk1) ∧
    topk_inv tk1 (delete key held) ∧ tk_order_by tk1 = tk_order_by tk ∧
    tk_limit tk1 = tk_limit tk ∧ tk_offset tk1 = tk_offset tk ∧ (∀ k, in_i64 (weight out1 k)) ∧
    ∀ k, i64_add (weight (window_zset (TopKOp.current_window tk)) k) (weight out1 k) =
      weight (window_zset (TopKOp.current_window tk1)) k) as (out1 & tk1 & E1 & Hi1 & Ho1 & Hl1 & Hf1 & Hr1 & Hw1).
  { destruct (tk_key_index tk !! key) as [s|] eqn:Ek.
    - destruct (TopKOp.step tk [{[key := -1]}] store ctx) as [d1 tk1] eqn:Es.
      destruct (step_inv tk held {[key := -1]} store ctx d1 tk1 Hi Ho) as (H1 & H2 & H3 & H4 & H5 & H6); [|done|].
      { rewrite map_to_list_one. intros k w [= -> ->]%list_elem_of_singleton. done. }
      rewrite map_to_list_one in H1. exists (TopKOp.fold_delta ∅ d1), tk1.
      assert (∀ k, weight (TopKOp.fold_delta ∅ d1) k = weight d1 k) as Hd.
      { intros k. rewrite weight_fold_delta, weight_empty. destruct (d1 !! k) as [w|] eqn:E.
        - rewrite (weight_lookup _ _ _ E). apply wrap_i64_id. by apply (H5 k w).
        - by rewrite (weight_lookup_None _ _ E). }
      split_and!; try done; intros k; rewrite Hd.
      + by apply weight_range.
      + rewrite <- H6. by rewrite weight_add by apply window_zset_wf.
    - exists ∅, tk. pose proof (removed_inv tk held key Hi) as Hrm. unfold removed in Hrm.
      rewrite Ek in Hrm. split_and!; try done. intros k. rewrite weight_empty.
      unfold i64_add. rewrite Z.add_0_r. apply wrap_i64_id, weight_range, window_zset_wf. }
  rewrite E1 in Hr. clear E1. destruct upstream_now; cbv beta iota in Hr.
  - destruct (TopKOp.step tk1 [{[key := 1]}] store ctx) as [d2 tk2] eqn:Es. injection Hr as <- <-.
    destruct (step_inv tk1 (delete key held) {[key := 1]} store ctx d2 tk2 Hi1) as (H1 & H2 & H3 & H4 & H5 & H6);
      [lia| |done|].
    { rewrite map_to_list_one, Ho1. by apply Hb. }
    rewrite map_to_list_one in H1. unfold placed in H1. simpl in H1.
    rewrite insert_delete_eq, Ho1 in H1.
    assert (∀ k, weight (TopKOp.fold_delta out1 d2) k = i64_add (weight out1 k) (weight d2 k)) as Hd.
    { intros k. rewrite weight_fold_delta. destruct (d2 !! k) as [w|] eqn:E.
      - by rewrite (weight_lookup _ _ _ E).
      - rewrite (weight_lookup_None _ _ E). unfold i64_add. rewrite Z.add_0_r.
        symmetry. by apply wrap_i64_id. }
    assert (zset_wf (filter (λ e, e.2 ≠ 0) (TopKOp.fold_delta out1 d2))) as Hwf.
    { apply retain_wf. intros k. rewrite Hd. apply wrap_i64_range. }
    split_and!; try congruence; try done.
    apply zset_ext; [apply add_wf, window_zset_wf|apply window_zset_wf|]. intros k.
    rewrite weight_add, retain_weight, Hd by apply window_zset_wf.
    rewrite <- H6, weight_add, <- Hw1 by apply window_zset_wf. wrap_solve.
  - injection Hr as <- <-.
    split_and!; try done; [by apply retain_wf|].
    apply zset_ext; [apply add_wf, window_zset_wf|apply window_zset_wf|]. intros k.
    by rewrite weight_add, retain_weight, Hw1 by apply window_zset_wf.
Qed.

(** ** Runs *)

(** The states of an operator [LIMIT limit START offset ORDER BY order_by]
    from empty: batches of deltas, and rows re-placed after a content
    update. [held] is every record it was told of and not told to forget,
    with the sort key it had then; [total] adds up the deltas emitted. *)
Inductive topk_run (limit offset : Z) (order_by : option (list OrderSpec))
    : TopK → gmap string SortKey → ZSet → Prop :=
  | topk_start : topk_run limit offset order_by (TopKOp.new limit offset order_by) ∅ ∅
  | topk_batch tk held total delta store ctx out tk' :
      topk_run limit offset order_by tk held total →
      batch_ok order_by store (map_to_list delta) →
      TopKOp.step tk [delta] store ctx = (out, tk') →
      topk_run limit offset order_by tk' (foldl (placed store order_by) held (map_to_list delta))
        (ZSet.add total out)
  | topk_reorder tk held total key upstream_now store ctx out tk' :
      topk_run limit offset order_by tk held total →
      (upstream_now = true → batch_ok order_by store [(key, 1)]) →
      TopKOp.reorder_key tk key upstream_now store ctx = Some (out, tk') →
      topk_run limit offset order_by tk'
        (if upstream_now then <[key := TopKOp.compute_sort_key order_by key store]> held
         else delete key held)
        (ZSet.add total out).

Lemma topk_run_inv limit offset order_by tk held total : 0 <= offset →
  topk_run limit offset order_by tk held total →
  topk_inv tk held ∧ tk_order_by tk = order_by ∧ tk_limit tk = limit ∧ tk_offset tk = offset ∧
  total = window_zset (TopKOp.current_window tk).
Proof.
  intros Ho. induction 1 as [|tk held total delta store ctx out tk' _ (Hi & <- & <- & <- & ->) Hb Hs
    |tk held total key up store ctx out tk' _ (Hi & <- & <- & <- & ->) Hb Hs].
  - split_and!; try done; [apply topk_new_inv|]. unfold TopKOp.current_window, os_len. simpl.
    rewrite os_new_iter. unfold zlength. simpl.
    by rewrite (proj2 (Z.leb_le _ _)).
  - destruct (step_inv tk held delta store ctx out tk' Hi Ho Hb Hs) as (H1 & H2 & H3 & H4 & H5 & H6).
    by split_and!.
  - destruct (reorder_inv tk held key up store ctx out tk' Hi Ho Hb Hs) as (H1 & H2 & H3 & H4 & H5 & H6).
    by split_and!.
Qed.

(** C9: Over any run of deltas and re-placed rows, what the operator has emitted in
    total is exactly its current window, each key once; and unless it asks
    for a rebuild, that window is what sorting every record it was told of,
    skipping [offset] and taking [limit] would give, although the buffer is
    bounded and records were dropped. *)
Theorem topk_window_exact limit offset order_by tk held total :
  topk_run limit offset order_by tk held total →
  0 <= offset → 0 <= limit → offset + limit < two64 →
  total = window_zset (TopKOp.current_window tk) ∧
  (TopKOp.needs_rebuild tk = false →
   TopKOp.current_window tk = reference_window limit offset held).
Proof.
  intros Hrun Ho Hl Hsum.
  destruct (topk_run_inv limit offset order_by tk held total Ho Hrun) as (Hi & Hob & <- & <- & Ht).
  split; [done|]. intros Hnr. by apply window_exact.
Qed.

(** ** The snapshot, and the contract *)

(** The records of an input Z-set with their sort keys in a store. *)
Definition held_of (order_by : option (list OrderSpec)) (store : Store) (z : ZSet) : gmap string SortKey :=
  map_imap (λ k w, if 0 <? w then Some (TopKOp.compute_sort_key order_by k store) else None) z.

Lemma lookup_held_of order_by store z k : held_of order_by store z !! k =
  if 0 <? weight z k then Some (TopKOp.compute_sort_key order_by k store) else None.
Proof. unfold held_of, weight. rewrite map_lookup_imap. by destruct (z !! k). Qed.

Lemma snapshot_reference tk z store ctx :
  map_Forall (λ k s, entry_ok (tk_order_by tk) (s, k)) (held_of (tk_order_by tk) store z) →
  TopKOp.snapshot tk [z] store ctx =
    window_zset (reference_window (tk_limit tk) (tk_offset tk) (held_of (tk_order_by tk) store z)).
Proof.
  intros Hok. unfold TopKOp.snapshot, input, reference_window, window_zset. simpl.
  set (items := map _ (List.filter _ _)).
  destruct (sorted_entries_spec _ _ Hok) as (Hs & Hfok & Hel).
  assert (∀ s k, (s, k) ∈ items ↔ held_of (tk_order_by tk) store z !! k = Some s) as Hitems.
  { intros s k. unfold items. change (map ?f ?l) with (f <$> l). rewrite list_elem_of_fmap, lookup_held_of. split.
    - intros ([k' w] & [= -> ->] & Hin). rewrite list_elem_of_In, filter_In, <- list_elem_of_In in Hin.
      destruct Hin as [Hin%elem_of_map_to_list Hw]. simpl in Hw.
      by rewrite (weight_lookup _ _ _ Hin), Hw.
    - destruct (0 <? weight z k) eqn:Ew; [|done]. intros [= <-].
      unfold weight in Ew. destruct (z !! k) as [w|] eqn:Ez; [|done]. simpl in Ew.
      exists (k, w). split; [done|]. rewrite list_elem_of_In, filter_In, <- list_elem_of_In.
      split; [by apply elem_of_map_to_list|done]. }
  assert (sort_by entry_cmp items = sorted_entries (held_of (tk_order_by tk) store z)) as ->.
  { apply (sl_sorted_ext _ _ (L (tk_order_by tk))); [|done| |done|].
    - rewrite sort_by_perm. apply Forall_forall. intros [s k] Hin%Hitems. by apply (Hok k s).
    - apply (sort_by_sorted _ _ (L (tk_order_by tk))).
      + apply Forall_forall. intros [s k] Hin%Hitems. by apply (Hok k s).
      + unfold items. change (map ?f ?l) with (f <$> l). apply NoDup_fmap_2_strong.
        * intros [k w] [k' w'] H1 H2 [= _ ->].
          rewrite list_elem_of_In, filter_In, <- list_elem_of_In in H1, H2.
          destruct H1 as [H1%elem_of_map_to_list _], H2 as [H2%elem_of_map_to_list _]. congruence.
        * apply NoDup_ListNoDup, List.NoDup_filter, NoDup_ListNoDup, NoDup_map_to_list.
      + intros [s k] [s' k'] H1%Hitems H2%Hitems Heq%entry_cmp_eq_key. simpl in Heq. subst. congruence.
    - intros [s k]. by rewrite sort_by_perm, Hitems, Hel. }
  by rewrite foldl_fmap.
Qed.

(** What a batch does to the records held, key by key. *)
Lemma lookup_placed_loop store order_by (l : list (RowKey * Z)) held k : NoDup l.*1 →
  foldl (placed store order_by) held l !! k =
  match assoc_get k l with
  | Some w => if 0 <? w then Some (TopKOp.compute_sort_key order_by k store)
              else if w <? 0 then None else held !! k
  | None => held !! k
  end.
Proof.
  revert held. induction l as [|[k' w] l IH]; intros held Hnd; cbn [foldl assoc_get]; [done|].
  apply NoDup_cons in Hnd as [Hk Hnd]. rewrite IH by done. unfold placed. simpl.
  destruct (String.eqb_spec k k') as [->|Hne].
  - assert (assoc_get k' l = None) as ->.
    { clear -Hk. induction l as [|[k0 w0] l IH]; simpl in *; [done|].
      destruct (String.eqb_spec k' k0); [set_solver|apply IH; set_solver]. }
    destruct (0 <? w); [apply lookup_insert_eq|]. destruct (w <? 0); [apply lookup_delete_eq|done].
  - destruct (assoc_get k l) as [v|]; [destruct (0 <? v); [done|]; destruct (v <? 0); [done|]|];
      (destruct (0 <? w); [by rewrite lookup_insert_ne|]; destruct (w <? 0); [by rewrite lookup_delete_ne|done]).
Qed.

Lemma assoc_get_map_to_list (z : ZSet) k : assoc_get k (map_to_list z) = z !! k.
Proof.
  pose proof (NoDup_fst_map_to_list z) as Hnd.
  assert (∀ l : list (string * Z), NoDup l.*1 → ∀ w, assoc_get k l = Some w ↔ (k, w) ∈ l) as Hl.
  { clear. induction l as [|[k' v] l IH]; intros Hnd w; simpl in *; [set_solver|].
    apply NoDup_cons in Hnd as [Hk Hnd]. destruct (String.eqb_spec k k') as [->|Hne].
    - split; [intros [= ->]; set_solver|]. intros [[= ->]|Hin]%elem_of_cons; [done|].
      destruct Hk. apply list_elem_of_fmap. by exists (k', w).
    - rewrite IH by done. set_solver. }
  apply option_eq. intros w. rewrite Hl by done. apply elem_of_map_to_list.
Qed.

Definition topk_params_ok (tk : TopK) : Prop :=
  0 <= tk_offset tk ∧ 0 <= tk_limit tk ∧ tk_offset tk + tk_limit tk < two64.

(** The contract of the window, between rebuilds: rows that keep their place
    sort as they did, a key arrives only when it was away and leaves for
    good, and the step leaves enough of the buffer. *)
#[global] Program Instance topk_incremental : Incremental TopK := {|
  op_tracks := λ tk store _ inputs,
    topk_inv tk (held_of (tk_order_by tk) store (input inputs 0)) ∧ topk_params_ok tk ∧
    TopKOp.needs_rebuild tk = false;
  op_stable := λ tk store store' ctx inputs deltas,
    batch_ok (tk_order_by tk) store' (map_to_list (input deltas 0)) ∧
    (∀ k, 0 < weight (input inputs 0) k → input deltas 0 !! k = None →
      TopKOp.compute_sort_key (tk_order_by tk) k store = TopKOp.compute_sort_key (tk_order_by tk) k store') ∧
    (∀ k w, input deltas 0 !! k = Some w →
      (0 < w ↔ 0 < i64_add (weight (input inputs 0) k) w)) ∧
    TopKOp.needs_rebuild (TopKOp.step tk deltas store' ctx).2 = false;
|}.
Next Obligation.
  intros tk store store' ctx inputs deltas (Hi & Hp & Hnr) Hwi Hwd Hlen Hlen' (Hb & Hst & Hset & Hnr').
  simpl in Hlen. destruct inputs as [|z [|? ?]]; simpl in Hlen; try lia.
  destruct deltas as [|d [|? ?]]; simpl in Hlen'; try lia.
  apply Forall_cons_1 in Hwi as [Hz _], Hwd as [Hd _]. unfold input in *. cbn in Hi, Hb, Hst, Hset.
  destruct (Operator.step tk [d] store' ctx) as [out tk'] eqn:Es.
  change (TopKOp.step tk [d] store' ctx = (out, tk')) in Es. rewrite Es in Hnr'. simpl in Hnr'.
  destruct (step_inv tk _ d store' ctx out tk' Hi (proj1 Hp) Hb Es) as (Hi' & Ho & Hl & Hf & Hwf & Hadd).
  assert (foldl (placed store' (tk_order_by tk)) (held_of (tk_order_by tk) store z) (map_to_list d) =
    held_of (tk_order_by tk) store' (ZSet.add z d)) as Hheld.
  { apply map_eq. intros k. rewrite lookup_placed_loop by apply NoDup_fst_map_to_list.
    rewrite assoc_get_map_to_list, !lookup_held_of, weight_add by done.
    destruct (d !! k) as [w|] eqn:Ed.
    - rewrite (weight_lookup _ _ _ Ed). specialize (Hset k w Ed). destruct (Hd k w Ed) as [_ Hne].
      destruct (Z.ltb_spec 0 w), (Z.ltb_spec 0 (i64_add (weight z k) w)); try tauto; try lia; try done.
      by rewrite (proj2 (Z.ltb_lt w 0)) by lia.
    - rewrite (weight_lookup_None _ _ Ed). unfold i64_add.
      rewrite Z.add_0_r, wrap_i64_id by (by apply weight_range).
      destruct (Z.ltb_spec 0 (weight z k)); [|done]. by rewrite Hst. }
  rewrite Hheld in Hi'. rewrite <- Ho in Hi'.
  destruct Hp as (Hp1 & Hp2 & Hp3).
  cbn [zip_with]. split_and!; [done| |done|unfold topk_params_ok; rewrite Hl, Hf; done|done].
  change (TopKOp.snapshot tk' [ZSet.add z d] store' ctx =
    ZSet.add (TopKOp.snapshot tk [z] store ctx) out).
  rewrite !snapshot_reference; [|apply Hi|apply Hi'].
  rewrite <- (window_exact tk _ Hi), <- (window_exact tk' _ Hi'); try done; rewrite ?Hl, ?Hf; done.
Qed.
(** *** Filling an empty buffer

    Records that only arrive never leave a rebuild due: the boundary is set
    when a record is dropped, which a buffer below its capacity never does. *)

Definition full_or_unbounded (tk : TopK) : Prop :=
  match tk_boundary tk with Some _ => tk_capacity tk <= os_len (tk_buffer tk) | None => True end.

Lemma sl_insert_length {A} (cmp : A → A → comparison) a l : (length l ≤ length (sl_insert cmp a l))%nat.
Proof. induction l as [|b l IH]; simpl; [lia|]. destruct (cmp a b); simpl; lia. Qed.

Lemma length_removelast_pred {A} (l : list A) : length (removelast l) = pred (length l).
Proof.
  induction l as [|a [|b l] IH]; [done..|].
  change (removelast (a :: b :: l)) with (a :: removelast (b :: l)). cbn [length] in *. lia.
Qed.

Lemma place_full tk held s k : topk_inv tk held → entry_ok (tk_order_by tk) (s, k) →
  full_or_unbounded tk → full_or_unbounded (place (s, k) tk).
Proof.
  intros Hi Hok Hf. unfold full_or_unbounded, place in *. cbn [fst snd].
  destruct (os_insert_iter _ _ (L (tk_order_by tk)) (s, k) (tk_buffer tk) Hok (topk_inv_buffer_ok _ _ Hi)
    (ti_sorted _ _ Hi)) as [Hins _].
  pose proof (sl_insert_length entry_cmp (s, k) (os_iter (tk_buffer tk))) as Hlen. rewrite <- Hins in Hlen.
  destruct (_ || _) eqn:Ed; cbn.
  - destruct (tk_boundary tk); [by destruct (TopKOp.lower_boundary _ _)|]. cbn.
    rewrite orb_false_r in Ed. apply andb_prop in Ed as [Ed _]. by apply Z.leb_le.
  - destruct (Z.ltb_spec (tk_capacity tk) (os_len (os_insert entry_cmp (s, k) (tk_buffer tk)).2)) as [Hlt|Hge]; cbn.
    + destruct (os_pop_last_iter (os_insert entry_cmp (s, k) (tk_buffer tk)).2) as [_ Hpop].
      destruct (os_pop_last _) as [popped buffer]. cbn [snd] in Hpop. unfold os_len, zlength in *.
      destruct popped as [e|]; cbn; (destruct (TopKOp.lower_boundary _ _) || destruct (tk_boundary tk)); try done;
        rewrite Hpop, length_removelast_pred; lia.
    + destruct (tk_boundary tk); [|done]. unfold os_len, zlength in *. lia.
Qed.

Lemma place_fresh entry tk k : k ≠ entry.2 → tk_key_index tk !! k = None → tk_key_index (place entry tk) !! k = None.
Proof.
  intros Hk Hn. unfold place. destruct (_ || _); [done|]. destruct (_ <? _); [|cbn; by rewrite lookup_insert_ne].
  destruct (os_pop_last _) as [[e|] b]; cbn; [rewrite lookup_delete_None; right|]; by rewrite lookup_insert_ne.
Qed.

Lemma fill_full store l tk held : topk_inv tk held → batch_ok (tk_order_by tk) store l → NoDup l.*1 →
  (∀ k, k ∈ l.*1 → tk_key_index tk !! k = None) → full_or_unbounded tk →
  full_or_unbounded (foldl (TopKOp.visit store) tk l).
Proof.
  revert tk held. induction l as [|[k w] l IH]; intros tk held Hi Hb Hnd Hnew Hf; cbn [foldl]; [done|].
  apply NoDup_cons in Hnd as [Hk Hnd].
  assert (batch_ok (tk_order_by tk) store [(k, w)]) as Hb1.
  { intros k' w' Hin. apply Hb. set_solver. }
  pose proof (visit_inv store tk held (k, w) Hi Hb1) as Hi'.
  destruct (visit_params store tk (k, w)) as (Hob & _).
  assert (removed tk k = tk) as Hrem by (unfold removed; by rewrite (Hnew k) by set_solver).
  apply (IH _ _ Hi'); [| done | |].
  - rewrite Hob. intros k' w' Hin. apply Hb. set_solver.
  - intros k' Hk'. rewrite visit_spec, Hrem. assert (k' ≠ k) by (intros ->; done).
    assert (tk_key_index tk !! k' = None) by (apply Hnew; set_solver).
    destruct (0 <? w); [by apply place_fresh|]. by destruct (w <? 0).
  - rewrite visit_spec, Hrem. destruct (Z.ltb_spec 0 w); [|by destruct (w <? 0)].
    eapply place_full; [done| |done]. eapply Hb1; [by apply list_elem_of_singleton|done].
Qed.

(** A window primed from nothing is usable. *)
Lemma primed_no_rebuild limit offset order_by delta store ctx :
  0 <= limit → 0 <= offset → batch_ok order_by store (map_to_list delta) →
  TopKOp.needs_rebuild (TopKOp.step (TopKOp.new limit offset order_by) [delta] store ctx).2 = false.
Proof.
  intros Hl Ho Hb. set (tk := TopKOp.new limit offset order_by).
  replace ((TopKOp.step tk [delta] store ctx).2) with (foldl (TopKOp.visit store) tk (map_to_list delta)) by done.
  pose proof (fill_full store (map_to_list delta) tk ∅ (topk_new_inv limit offset order_by) Hb
    (NoDup_fst_map_to_list delta) ltac:(intros; apply lookup_empty) I) as Hf.
  unfold full_or_unbounded in Hf. unfold TopKOp.needs_rebuild.
  assert (∀ l tk, let tk' := foldl (TopKOp.visit store) tk l in
    tk_capacity tk' = tk_capacity tk ∧ tk_offset tk' = tk_offset tk ∧ tk_limit tk' = tk_limit tk) as Hpar.
  { intros l. induction l as [|e l IH]; intros t; [done|]. cbn [foldl]. cbv zeta.
    destruct (IH (TopKOp.visit store t e)) as (-> & -> & ->). destruct e as [k w].
    unfold TopKOp.visit, TopKOp.with_state. repeat case_match; done. }
  destruct (Hpar (map_to_list delta) tk) as (Hc & -> & ->). rewrite Hc in Hf.
  destruct (tk_boundary _); [|done]. apply Z.ltb_ge. etrans; [|exact Hf].
  unfold tk, TopKOp.new. cbn. unfold saturating_add, usize_max, two64, MIN_SLACK. lia.
Qed.
End window.

(** ** A witness: twenty rows, a window of two at offset one, so one row is dropped *)

Definition by_at : option (list OrderSpec) := Some [MkOrderSpec (Path_new "at") "desc"].

Definition numbered_row (i : Z) : string * Sp00kyValue :=
  (string_of_bytes [97 + i], Object [("at", Int (i * 7 mod 20))]).

Definition numbered_store (n : nat) : Store :=
  foldl (λ s i, let '(id, row) := numbered_row (Z.of_nat i) in
    (Store.apply_change (Change.create "g" id row) s).2) Store.new (seq 0 n).

Definition numbered_delta (n : nat) : ZSet :=
  list_to_map (map (λ i, (make_key "g" (numbered_row (Z.of_nat i)).1, 1)) (seq 0 n)).

Definition numbered_topk : ZSet * TopK :=
  TopKOp.step (TopKOp.new 2 1 by_at) [numbered_delta 20] (numbered_store 20) None.

Definition sort_keys_in (store : Store) (l : list (string * Z)) : list SortKey :=
  (λ e, TopKOp.compute_sort_key by_at e.1 store) <$> l.

Lemma numbered_batch_ok : batch_ok by_at (numbered_store 20) (map_to_list (numbered_delta 20)).
Proof.
  assert (Forall (sort_key_ok (dirs_of by_at))
    (sort_keys_in (numbered_store 20) (map_to_list (numbered_delta 20)))) as Hf.
  { set (l := sort_keys_in _ _). let l' := eval vm_compute in l in
      assert (l = l') as -> by (vm_compute; reflexivity).
    repeat (constructor; [repeat constructor; simpl; unfold F64.safe_int; lia|]). constructor. }
  intros k w Hin _. unfold sort_keys_in in Hf. rewrite Forall_fmap, Forall_forall in Hf. by apply (Hf (k, w)).
Qed.

Lemma topk_window_exact_witness :
  TopKOp.needs_rebuild numbered_topk.2 = false ∧ tk_boundary numbered_topk.2 ≠ None ∧
  TopKOp.current_window numbered_topk.2 = ["g:o"; "g:l"] ∧
  TopKOp.current_window numbered_topk.2 = reference_window 2 1
    (foldl (placed (numbered_store 20) by_at) ∅ (map_to_list (numbered_delta 20))).
Proof.
  assert (TopKOp.needs_rebuild numbered_topk.2 = false) as Hnr by (vm_compute; reflexivity).
  split; [exact Hnr|]. split; [vm_compute; discriminate|]. split; [vm_compute; reflexivity|].
  assert (topk_run 2 1 by_at numbered_topk.2
    (foldl (placed (numbered_store 20) by_at) ∅ (map_to_list (numbered_delta 20)))
    (ZSet.add ∅ numbered_topk.1)) as Hrun.
  { apply (topk_batch _ _ _ _ _ _ _ _ None _ _ (topk_start _ _ _) numbered_batch_ok).
    exact (surjective_pairing numbered_topk). }
  exact (proj2 (topk_window_exact 2 1 by_at _ _ _ Hrun ltac:(lia) ltac:(lia) ltac:(reflexivity)) Hnr).
Defined.

(** Past the machine word the end of the window wraps and the window is empty,
    where a saturating end would reach every row. *)
Lemma window_end_wraps :
  let tk := (TopKOp.step (TopKOp.new usize_max 1 by_at) [numbered_delta 3] (numbered_store 3) None).2 in
  TopKOp.current_window tk = [] ∧ length (reference_window usize_max 1
    (foldl (placed (numbered_store 3) by_at) ∅ (map_to_list (numbered_delta 3)))) = 2%nat.
Proof. by vm_compute. Qed.
