(* ===== verification/IndexScan.v ===== *)
(** * Sources that read an index

    Models [packages/ssp/src/operator/index_scan.rs]: the sources that may
    stand in for a scan under filters ([IndexedScan], [KeyScan]) or for a
    whole window ([IndexWindow]). A lookup builds a missing index in the
    collection's cache ([Collection.with_index]); what it reads is taken by
    value here, as the membership of a collection is. *)

From S2P Require Import Prelude Platform Float64 Value ValueRef ZSet SortKey Index Store Operator Plan Filter TopK.
Local Open Scope Z_scope.

(** Which index a source reads, the equality operands of its leading fields,
    and the predicates that read no row. *)
Record IndexBinding := MkBinding {
  ib_table : string;
  ib_def : IndexDef;
  ib_prefix : list Value;
  ib_gates : list Predicate;
}.

(** A set of keys, each of weight one. *)
Definition key_set (keys : list RowKey) : ZSet := foldl (λ (out : ZSet) k, <[k := 1]> out) ∅ keys.

(** [key] is a key of the table: its name, a colon and more. *)
Definition owned_by (table key : string) : bool :=
  match strip_prefix table key with Some rest => starts_with rest ":" | None => false end.

Module IndexBinding.
Section operations.
Context `{Hashing} `{OrdSet}.
Implicit Types (store : Store) (ctx : option Sp00kyValue).

(** One operand as an index value, when it is an orderable scalar. *)
Definition operand_scalar ctx (operand : Value) : option Scalar :=
  let? value := resolve_predicate_value operand ctx in
  let value_ref := ValueRef.from_value value in
  if SortableValue.is_orderable value_ref then Some (sv_scalar (SortableValue.from_value value_ref false)) else None.

Definition prefix_values (self : IndexBinding) store ctx : option (list Scalar) :=
  if forallb (λ gate, check_predicate_recursive gate "" store ctx) (ib_gates self)
  then mapM (operand_scalar ctx) (ib_prefix self) else None.

Definition owns (self : IndexBinding) (key : string) : bool := owned_by (ib_table self) key.

(** The finished index a lookup of the collection sees. *)
Definition index_of (self : IndexBinding) (coll : Collection) : OrderedIndex :=
  (Collection.with_index (ib_def self) coll).1.1.

Definition range_keys (self : IndexBinding) store ctx : ZSet :=
  match prefix_values self store ctx, Store.get_collection store (ib_table self) with
  | Some prefix, Some coll =>
      let index := index_of self coll in
      let '(lo, hi) := OrderedIndex.prefix_range index prefix in
      key_set (omap (OrderedIndex.row_at index) (seqZ lo (hi - lo)))
  | _, _ => ∅
  end.
End operations.
End IndexBinding.

(** ** A scan that starts from index ranges *)

Record IndexedScan := MkIndexedScan { is_bindings : list IndexBinding }.

Module IndexedScanOp.
Section operations.
Context `{Hashing} `{OrdSet}.
Implicit Types (store : Store) (ctx : option Sp00kyValue).

Definition range_keys (self : IndexedScan) store ctx : ZSet :=
  foldl (λ keys binding, map_fold (λ key _ keys, <[key := 1]> keys) keys (IndexBinding.range_keys binding store ctx))
    ∅ (is_bindings self).

Definition snapshot (self : IndexedScan) (_ : list ZSet) store ctx : ZSet := range_keys self store ctx.

Definition step (self : IndexedScan) (input_deltas : list ZSet) (_ : Store) (_ : option Sp00kyValue)
    : ZSet * IndexedScan :=
  (default ∅ (head input_deltas), self).

Definition collections (self : IndexedScan) : list string :=
  match is_bindings self with b :: _ => [ib_table b] | [] => [] end.

Definition initial_input (self : IndexedScan) store ctx : option ZSet := Some (range_keys self store ctx).

Definition index_uses (self : IndexedScan) : list (string * string) :=
  map (λ b, (ib_table b, idx_name (ib_def b))) (is_bindings self).

Definition evaluate_key (self : IndexedScan) (key : RowKey) (_ : list bool) store (_ : option Sp00kyValue) : bool :=
  match (let? b := head (is_bindings self) in Store.get_collection store (ib_table b)) with
  | Some c => Collection.has_key c key
  | None => false
  end.

#[global] Instance indexed_scan_operator : Operator IndexedScan := {|
  Operator.snapshot := snapshot;
  Operator.step := step;
  note_content_updates := default_note_content_updates;
  integrated_input_weight := default_integrated_input_weight;
  arity := λ _, 0%nat;
  reset := λ self, self;
  needs_rebuild := default_needs_rebuild;
  op_collections := collections;
  Operator.initial_input := initial_input;
  Operator.index_uses := index_uses;
  Operator.evaluate_key := evaluate_key;
  reorder_key := default_reorder_key;
|}.
End operations.
End IndexedScanOp.

(** ** A window read off an index *)

Record IndexWindow := MkIndexWindow {
  iw_binding : IndexBinding;
  iw_limit : Z;
  iw_offset : Z;
  iw_descending : list bool;
  iw_window : list RowKey;
  iw_read_at : option Z;
}.

Module IndexWindowOp.
Section operations.
Context `{Hashing} `{OrdSet}.
Implicit Types (store : Store) (ctx : option Sp00kyValue).

Definition new (binding : IndexBinding) (limit offset : Z) (descending : list bool) : IndexWindow :=
  MkIndexWindow binding limit offset descending [] None.

Definition with_window (self : IndexWindow) (window : list RowKey) (read_at : option Z) : IndexWindow :=
  MkIndexWindow (iw_binding self) (iw_limit self) (iw_offset self) (iw_descending self) window read_at.

Definition writes (self : IndexWindow) store : option Z :=
  c_writes <$> Store.get_collection store (ib_table (iw_binding self)).

(** The loop of [nth]: the group holding the [k]-th row of [[a, b)] is found
    field by field, from field [field] on. *)
Fixpoint nth_loop (index : OrderedIndex) (descending : list bool) (field a b k : Z) : option Z :=
  match descending with
  | [] => if k <? b - a then Some (a + k) else None
  | desc :: descending =>
      if b - a <=? k then None
      else
        let p := if desc : bool then b - 1 - k else a + k in
        let? (g_lo, g_hi) := OrderedIndex.group_of index p (field + 1) in
        nth_loop index descending (field + 1) g_lo g_hi (k - (if desc then b - g_hi else g_lo - a))
  end.

Definition nth (self : IndexWindow) (index : OrderedIndex) (prefix_len lo hi k : Z) : option Z :=
  nth_loop index (iw_descending self) prefix_len lo hi k.

(** The window as the index holds it now. *)
Definition read (self : IndexWindow) store ctx : list RowKey :=
  match IndexBinding.prefix_values (iw_binding self) store ctx,
        Store.get_collection store (ib_table (iw_binding self)) with
  | Some prefix, Some coll =>
      let index := IndexBinding.index_of (iw_binding self) coll in
      let '(lo, hi) := OrderedIndex.prefix_range index prefix in
      let len := hi - lo in
      if len <=? iw_offset self then []
      else
        let take := Z.min (iw_limit self) (len - iw_offset self) in
        if negb (existsb (λ d, d) (iw_descending self))
        then omap (OrderedIndex.row_at index) (seqZ (lo + iw_offset self) take)
        else omap (λ k, let? p := nth self index (zlength prefix) lo hi k in OrderedIndex.row_at index p)
               (seqZ (iw_offset self) take)
  | _, _ => []
  end.

(** Replaces the window and returns the membership change. *)
Definition swap_in (self : IndexWindow) (next : list RowKey) (read_at : option Z) : ZSet * IndexWindow :=
  let delta := foldl (TopKOp.bump 1) ∅ next in
  let delta := foldl (TopKOp.bump (-1)) delta (iw_window self) in
  (filter (λ e, e.2 ≠ 0) delta, with_window self next read_at).

Definition refresh (self : IndexWindow) store ctx : ZSet * IndexWindow :=
  let writes := writes self store in
  if bool_decide (is_Some (iw_read_at self)) && bool_decide (iw_read_at self = writes) then (∅, self)
  else swap_in self (read self store ctx) writes.

Definition snapshot (self : IndexWindow) (_ : list ZSet) store ctx : ZSet := key_set (read self store ctx).

Definition step (self : IndexWindow) (_ : list ZSet) store ctx : ZSet * IndexWindow := refresh self store ctx.

Definition reset (self : IndexWindow) : IndexWindow := with_window self [] None.

Definition evaluate_key (self : IndexWindow) (key : RowKey) (_ : list bool) (_ : Store) (_ : option Sp00kyValue) : bool :=
  existsb (String.eqb key) (iw_window self).

Definition reorder_key (self : IndexWindow) (key : RowKey) (_ : bool) store ctx : option (ZSet * IndexWindow) :=
  if negb (IndexBinding.owns (iw_binding self) key) then None else Some (refresh self store ctx).

#[global] Instance index_window_operator : Operator IndexWindow := {|
  Operator.snapshot := snapshot;
  Operator.step := step;
  note_content_updates := default_note_content_updates;
  integrated_input_weight := default_integrated_input_weight;
  arity := λ _, 0%nat;
  Operator.reset := reset;
  needs_rebuild := default_needs_rebuild;
  op_collections := λ self, [ib_table (iw_binding self)];
  initial_input := λ _ _ _, Some ∅;
  index_uses := λ self, [(ib_table (iw_binding self), idx_name (ib_def (iw_binding self)))];
  Operator.evaluate_key := evaluate_key;
  Operator.reorder_key := reorder_key;
|}.
End operations.
End IndexWindowOp.

(** ** A scan of one record *)

Record KeyScan := MkKeyScan { ks_table : string; ks_key : Value }.

Module KeyScanOp.
Section operations.
Context `{Hashing} `{OrdSet}.
Implicit Types (store : Store) (ctx : option Sp00kyValue).

Definition start (self : KeyScan) store ctx : ZSet :=
  match resolve_predicate_value (ks_key self) ctx with
  | Some (Str key) =>
      let held := owned_by (ks_table self) key &&
        match Store.get_collection store (ks_table self) with
        | Some c => Collection.has_key c key
        | None => false
        end in
      if held then {[key := 1]} else ∅
  | _ => ∅
  end.

Definition snapshot (self : KeyScan) (_ : list ZSet) store ctx : ZSet := start self store ctx.

Definition step (self : KeyScan) (input_deltas : list ZSet) (_ : Store) (_ : option Sp00kyValue) : ZSet * KeyScan :=
  (default ∅ (head input_deltas), self).

Definition initial_input (self : KeyScan) store ctx : option ZSet := Some (start self store ctx).

Definition evaluate_key (self : KeyScan) (key : RowKey) (_ : list bool) store (_ : option Sp00kyValue) : bool :=
  match Store.get_collection store (ks_table self) with
  | Some c => Collection.has_key c key
  | None => false
  end.

#[global] Instance key_scan_operator : Operator KeyScan := {|
  Operator.snapshot := snapshot;
  Operator.step := step;
  note_content_updates := default_note_content_updates;
  integrated_input_weight := default_integrated_input_weight;
  arity := λ _, 0%nat;
  reset := λ self, self;
  needs_rebuild := default_needs_rebuild;
  op_collections := λ self, [ks_table self];
  Operator.initial_input := initial_input;
  index_uses := default_index_uses;
  Operator.evaluate_key := evaluate_key;
  reorder_key := default_reorder_key;
|}.
End operations.
End KeyScanOp.
