(* ===== verification/Graph.v ===== *)
(** * The operator graph

    Models [packages/ssp/src/circuit/graph.rs]: a plan is built into a list of
    nodes wired by their positions, and executed in an order computed by
    Kahn's algorithm. The planner that may put index-backed sources in place
    of a shape is an interface ([IndexPlanner]); [NoIndexes] builds every plan
    as written. *)

From S2P Require Import Prelude Platform Float64 Value ValueRef ZSet SortKey Index Store Operator Plan Filter LinearOps Join Witness TopK IndexScan.

(** ** [Box<dyn Operator>] *)

Section any.
Context `{Hashing} `{OrdSet}.

Inductive AnyOperator :=
  | OScan (op : Scan)
  | OFilter (op : Filter)
  | OJoin (op : Join)
  | OSemiJoin (op : SemiJoin)
  | OAntiJoin (op : AntiJoin)
  | OUnion (op : Union)
  | ODistinct (op : Distinct)
  | OMap (op : Map)
  | OTopK (op : TopK)
  | OIndexedScan (op : IndexedScan)
  | OIndexWindow (op : IndexWindow)
  | OKeyScan (op : KeyScan).

(** The step of the operator behind the box, boxed again. *)
Definition box {Op} (f : Op → AnyOperator) (r : ZSet * Op) : ZSet * AnyOperator := (r.1, f r.2).

#[global] Instance any_operator : Operator AnyOperator := {|
  snapshot any := match any with
    | OScan op => snapshot op | OFilter op => snapshot op | OJoin op => snapshot op
    | OSemiJoin op => snapshot op | OAntiJoin op => snapshot op | OUnion op => snapshot op
    | ODistinct op => snapshot op | OMap op => snapshot op | OTopK op => snapshot op
    | OIndexedScan op => snapshot op | OIndexWindow op => snapshot op | OKeyScan op => snapshot op end;
  step any deltas store ctx := match any with
    | OScan op => box OScan (step op deltas store ctx)
    | OFilter op => box OFilter (step op deltas store ctx)
    | OJoin op => box OJoin (step op deltas store ctx)
    | OSemiJoin op => box OSemiJoin (step op deltas store ctx)
    | OAntiJoin op => box OAntiJoin (step op deltas store ctx)
    | OUnion op => box OUnion (step op deltas store ctx)
    | ODistinct op => box ODistinct (step op deltas store ctx)
    | OMap op => box OMap (step op deltas store ctx)
    | OTopK op => box OTopK (step op deltas store ctx)
    | OIndexedScan op => box OIndexedScan (step op deltas store ctx)
    | OIndexWindow op => box OIndexWindow (step op deltas store ctx)
    | OKeyScan op => box OKeyScan (step op deltas store ctx) end;
  note_content_updates any keys := match any with
    | OSemiJoin op => OSemiJoin (note_content_updates op keys)
    | OAntiJoin op => OAntiJoin (note_content_updates op keys)
    | op => op end;
  integrated_input_weight any := match any with
    | OSemiJoin op => integrated_input_weight op
    | OAntiJoin op => integrated_input_weight op
    | _ => λ _ _, None end;
  arity any := match any with
    | OScan op => arity op | OFilter op => arity op | OJoin op => arity op
    | OSemiJoin op => arity op | OAntiJoin op => arity op | OUnion op => arity op
    | ODistinct op => arity op | OMap op => arity op | OTopK op => arity op
    | OIndexedScan op => arity op | OIndexWindow op => arity op | OKeyScan op => arity op end;
  reset any := match any with
    | OScan op => OScan (reset op) | OFilter op => OFilter (reset op) | OJoin op => OJoin (reset op)
    | OSemiJoin op => OSemiJoin (reset op) | OAntiJoin op => OAntiJoin (reset op)
    | OUnion op => OUnion (reset op) | ODistinct op => ODistinct (reset op)
    | OMap op => OMap (reset op) | OTopK op => OTopK (reset op)
    | OIndexedScan op => OIndexedScan (reset op) | OIndexWindow op => OIndexWindow (reset op)
    | OKeyScan op => OKeyScan (reset op) end;
  needs_rebuild any := match any with OTopK op => needs_rebuild op | _ => false end;
  op_collections any := match any with
    | OScan op => op_collections op | OIndexedScan op => op_collections op
    | OIndexWindow op => op_collections op | OKeyScan op => op_collections op | _ => [] end;
  initial_input any := match any with
    | OIndexedScan op => initial_input op | OIndexWindow op => initial_input op
    | OKeyScan op => initial_input op | _ => λ _ _, None end;
  index_uses any := match any with
    | OIndexedScan op => index_uses op | OIndexWindow op => index_uses op | _ => [] end;
  evaluate_key any := match any with
    | OScan op => evaluate_key op | OFilter op => evaluate_key op | OJoin op => evaluate_key op
    | OSemiJoin op => evaluate_key op | OAntiJoin op => evaluate_key op | OUnion op => evaluate_key op
    | ODistinct op => evaluate_key op | OMap op => evaluate_key op | OTopK op => evaluate_key op
    | OIndexedScan op => evaluate_key op | OIndexWindow op => evaluate_key op
    | OKeyScan op => evaluate_key op end;
  reorder_key any key up store ctx := match any with
    | OTopK op => let? (delta, op) := reorder_key op key up store ctx in Some (delta, OTopK op)
    | OIndexWindow op => let? (delta, op) := reorder_key op key up store ctx in Some (delta, OIndexWindow op)
    | _ => None end;
|}.
End any.

(** ** Nodes and graphs *)

Abbreviation NodeId := nat.

Record Node `{OrdSet} := MkNode {
  node_id : NodeId;
  node_operator : AnyOperator;
  node_inputs : list NodeId;
}.

Abbreviation ScanIndex := (gmap string (list nat)).

Record Graph `{OrdSet} := MkGraph {
  g_nodes : list Node;
  g_topo_order : list NodeId;
  g_scan_index : ScanIndex;
  g_output_node : NodeId;
}.

(** The planner's two questions, each answered with a source or [None]. *)
Class IndexPlanner `{OrdSet} := {
  planner_window : string → list Predicate → option (list OrderSpec) → Z → Z → option AnyOperator;
  planner_scan : string → list Predicate → option AnyOperator;
}.

Definition NoIndexes `{OrdSet} : IndexPlanner := {|
  planner_window _ _ _ _ _ := None;
  planner_scan _ _ := None;
|}.

(** [Filter] predicates, outermost first, down to a [Scan]. *)
Fixpoint filter_chain (plan : OperatorPlan) : option (list Predicate * string) :=
  match plan with
  | OpFilter input predicate =>
      let? (predicates, table) := filter_chain input in Some (predicate :: predicates, table)
  | OpScan table => Some ([], table)
  | _ => None
  end.

(** [Project]s, outermost first, over a filter chain. *)
Fixpoint window_shape (plan : OperatorPlan)
    : option (list (list Projection) * list Predicate * string) :=
  match plan with
  | OpProject input projections =>
      let? (projs, predicates, table) := window_shape input in
      Some (projections :: projs, predicates, table)
  | _ => let? (predicates, table) := filter_chain plan in Some ([], predicates, table)
  end.

Module Graph.
Section build.
Context `{OS : OrdSet}.

(** Appends a node; its id is its position. *)
Definition push (operator : AnyOperator) (inputs : list NodeId) (nodes : list Node)
    : NodeId * list Node :=
  (length nodes, nodes ++ [MkNode _ (length nodes) operator inputs]).

Definition index_source (table : string) (id : NodeId) (scan_index : ScanIndex) : ScanIndex :=
  <[table := default [] (scan_index !! table) ++ [id]]> scan_index.

Definition push_source (operator : AnyOperator) (table : string) (nodes : list Node)
    (scan_index : ScanIndex) : NodeId * list Node * ScanIndex :=
  let '(id, nodes) := push operator [] nodes in (id, nodes, index_source table id scan_index).

(** A chain of unary operators, the first in the list nearest to the input. *)
Definition push_chain (operators : list AnyOperator) (start : NodeId * list Node)
    : NodeId * list Node :=
  foldl (λ '(id, nodes) op, push op [id] nodes) start operators.

Context {IP : @IndexPlanner OS}.

Fixpoint build_node (plan : OperatorPlan) (nodes : list Node) (scan_index : ScanIndex)
    : NodeId * list Node * ScanIndex :=
  let unary input op :=
    let '(input_id, nodes, scan_index) := build_node input nodes scan_index in
    let '(id, nodes) := push op [input_id] nodes in (id, nodes, scan_index) in
  let binary l r op :=
    let '(left_id, nodes, scan_index) := build_node l nodes scan_index in
    let '(right_id, nodes, scan_index) := build_node r nodes scan_index in
    let '(id, nodes) := push op [left_id; right_id] nodes in (id, nodes, scan_index) in
  match plan with
  | OpScan table => push_source (OScan (MkScan table)) table nodes scan_index
  | OpFilter input predicate =>
      match (let? (predicates, table) := filter_chain plan in
             let? source := planner_scan table predicates in
             Some (predicates, table, source)) with
      | Some (predicates, table, source) =>
          let '(id, nodes, scan_index) := push_source source table nodes scan_index in
          let '(id, nodes) := push_chain (map (λ p, OFilter (MkFilter p)) (rev predicates)) (id, nodes) in
          (id, nodes, scan_index)
      | None => unary input (OFilter (MkFilter predicate))
      end
  | OpJoin l r on => binary l r (OJoin (JoinOp.new on))
  | OpSemiJoin l r on => binary l r (OSemiJoin (SemiJoinOp.new on))
  | OpAntiJoin l r on => binary l r (OAntiJoin (AntiJoinOp.new on))
  | OpUnion l r => binary l r (OUnion MkUnion)
  | OpDistinct input => unary input (ODistinct DistinctOp.new)
  | OpProject input projections => unary input (OMap (MkMap projections))
  | OpLimit input limit start order_by =>
      match (let? (projections, predicates, table) := window_shape input in
             let? source := planner_window table predicates order_by limit start in
             Some (projections, table, source)) with
      | Some (projections, table, source) =>
          let '(id, nodes, scan_index) := push_source source table nodes scan_index in
          let '(id, nodes) := push_chain (map (λ p, OMap (MkMap p)) (rev projections)) (id, nodes) in
          (id, nodes, scan_index)
      | None => unary input (OTopK (TopKOp.new limit start order_by))
      end
  end.

(** *** Kahn's algorithm *)

(** The edge loop: successors of each node, and how many inputs each has. *)
Definition add_edges (acc : list (list NodeId) * list nat) (node : Node)
    : list (list NodeId) * list nat :=
  foldl (λ '(adj, in_degree) input_id,
    (alter (λ next, next ++ [node_id node]) input_id adj, alter S (node_id node) in_degree))
    acc (node_inputs node).

Definition edges (nodes : list Node) : list (list NodeId) * list nat :=
  foldl add_edges (replicate (length nodes) [], replicate (length nodes) 0) nodes.

(** One successor of a popped node loses an input, and is queued when it has none left. *)
Definition relax (acc : list nat * list NodeId) (next : NodeId) : list nat * list NodeId :=
  let '(in_degree, queue) := acc in
  let in_degree := alter pred next in_degree in
  (in_degree, if bool_decide (in_degree !! next = Some 0) then queue ++ [next] else queue).

(** The queue loop. Each node is popped at most once, so as many rounds as
    there are nodes empty the queue ([kahn_complete]). *)
Fixpoint kahn (fuel : nat) (adj : list (list NodeId)) (in_degree : list nat) (queue order : list NodeId)
    : list NodeId :=
  match fuel, queue with
  | S fuel, id :: queue =>
      let '(in_degree, queue) := foldl relax (in_degree, queue) (default [] (adj !! id)) in
      kahn fuel adj in_degree queue (order ++ [id])
  | _, _ => order
  end.

Definition compute_topo_order (nodes : list Node) : list NodeId :=
  let '(adj, in_degree) := edges nodes in
  let queue := List.filter (λ i, bool_decide (in_degree !! i = Some 0)) (seq 0 (length nodes)) in
  kahn (length nodes) adj in_degree queue [].

Definition from_plan_with (plan : OperatorPlan) : Graph :=
  let '(output_node, nodes, scan_index) := build_node plan [] ∅ in
  MkGraph _ nodes (compute_topo_order nodes) scan_index output_node.

Definition scan_nodes_for_table (g : Graph) (table : string) : list NodeId :=
  default [] (g_scan_index g !! table).
Definition node_count (g : Graph) : nat := length (g_nodes g).
End build.

Section questions.
Context `{Hashing} `{OrdSet}.
Definition from_plan (plan : OperatorPlan) : Graph := @from_plan_with _ NoIndexes plan.
Definition needs_rebuild (g : Graph) : bool :=
  existsb (λ node, Operator.needs_rebuild (node_operator node)) (g_nodes g).
Definition index_uses (g : Graph) : list (string * string) :=
  flat_map (λ node, Operator.index_uses (node_operator node)) (g_nodes g).
End questions.
End Graph.
