(* ===== verification/IndexPlan.v ===== *)
(** * Planning over secondary indexes

    Models [IndexChoice] of [packages/ssp/src/circuit/index.rs]: which
    index-backed source, if any, stands in for the scan under a chain of
    filters or for a whole window. It is an [IndexPlanner] of the graph. *)

From S2P Require Import Prelude Platform Float64 Value ValueRef ZSet SortKey Index Store Operator Plan Filter IndexScan Graph.
Local Open Scope Z_scope.

(** A filter chain split the way the planner reads it. *)
Record Conjuncts := MkConjuncts {
  cj_eqs : list (string * Value);
  cj_gates : list Predicate;
  cj_id : option Value;
  cj_ors : list (list Predicate);
  cj_residual : bool;
}.

Definition no_conjuncts : Conjuncts := MkConjuncts [] [] None [] false.

Definition push_eq (e : string * Value) (out : Conjuncts) : Conjuncts :=
  MkConjuncts (cj_eqs out ++ [e]) (cj_gates out) (cj_id out) (cj_ors out) (cj_residual out).
Definition push_gate (gate : Predicate) (out : Conjuncts) : Conjuncts :=
  MkConjuncts (cj_eqs out) (cj_gates out ++ [gate]) (cj_id out) (cj_ors out) (cj_residual out).
Definition offer_id (value : Value) (out : Conjuncts) : Conjuncts :=
  MkConjuncts (cj_eqs out) (cj_gates out) (match cj_id out with Some v => Some v | None => Some value end)
    (cj_ors out) true.
Definition push_or (branches : list Predicate) (out : Conjuncts) : Conjuncts :=
  MkConjuncts (cj_eqs out) (cj_gates out) (cj_id out) (cj_ors out ++ [branches]) true.
Definition leave_residual (out : Conjuncts) : Conjuncts :=
  MkConjuncts (cj_eqs out) (cj_gates out) (cj_id out) (cj_ors out) true.
Definition with_eqs (eqs : list (string * Value)) (out : Conjuncts) : Conjuncts :=
  MkConjuncts eqs (cj_gates out) (cj_id out) (cj_ors out) (cj_residual out).

(** The derived order of index definitions. *)
Definition index_def_cmp (a b : IndexDef) : comparison :=
  cmp_then (string_cmp (idx_name a) (idx_name b)) (list_cmp string_cmp (idx_fields a) (idx_fields b)).

(** [Iterator::max_by]: the last of the greatest. *)
Definition max_by {A} (cmp : A → A → comparison) (l : list A) : option A :=
  match l with
  | [] => None
  | x :: l => Some (foldl (λ x y, match cmp x y with Gt => x | _ => y end) x l)
  end.

Definition nat_cmp (a b : nat) : comparison := Nat.compare a b.

(** [take_while(p).count()]. *)
Fixpoint count_while {A} (p : A → bool) (l : list A) : nat :=
  match l with
  | x :: l => if p x then S (count_while p l) else O
  | [] => O
  end.

Module IndexChoice.
Section planner.
Context `{Hashing} `{OrdSet}.
Context (defs : gmap string (list IndexDef)) (params : option Sp00kyValue).

Definition resolve (operand : Value) : option Sp00kyValue := resolve_predicate_value operand params.

Definition orderable (operand : Value) : bool :=
  match resolve operand with
  | Some v => SortableValue.is_orderable (ValueRef.from_value v)
  | None => false
  end.

Definition same_operand (a b : Value) : bool :=
  match resolve a, resolve b with
  | Some a, Some b => bool_decide (compare_values (ValueRef.from_value a) (ValueRef.from_value b) = Eq)
  | _, _ => false
  end.

(** The arms below the equalities: gates, disjunctions, anything else. *)
Definition split_other (predicate : Predicate) (out : Conjuncts) : Conjuncts :=
  if bool_decide (field_roots predicate = []) then push_gate predicate out
  else match predicate with
       | POr predicates => push_or predicates out
       | _ => leave_residual out
       end.

Fixpoint split (predicate : Predicate) (out : Conjuncts) : Conjuncts :=
  match predicate with
  | PTrue => out
  | PAnd predicates => foldl (λ out p, split p out) out predicates
  | PEq field value =>
      if is_id_field field then offer_id value out
      else if match segments field with f :: _ => negb (String.eqb f "id") | [] => false end && orderable value
      then push_eq (Path_as_str field, value) out
      else split_other predicate out
  | _ => split_other predicate out
  end.

(** Some field held equal to two operands that differ. *)
Fixpoint clashing (eqs : list (string * Value)) : bool :=
  match eqs with
  | [] => false
  | (field, value) :: eqs =>
      existsb (λ e, String.eqb field e.1 && negb (same_operand value e.2)) eqs || clashing eqs
  end.

(** Each field once, with its first operand. *)
Fixpoint first_of_each (seen : list string) (eqs : list (string * Value)) : list (string * Value) :=
  match eqs with
  | [] => []
  | (field, value) :: eqs =>
      if bool_decide (field ∈ seen) then first_of_each seen eqs
      else (field, value) :: first_of_each (field :: seen) eqs
  end.

Definition conjuncts (predicates : list Predicate) : option Conjuncts :=
  let out := foldl (λ out p, split p out) no_conjuncts predicates in
  if clashing (cj_eqs out) then None else Some (with_eqs (first_of_each [] (cj_eqs out)) out).

Definition held_equal (eqs : list (string * Value)) (field : string) : bool :=
  existsb (λ e, String.eqb e.1 field) eqs.

(** The table's indexes in a fixed order. *)
Definition candidates (table : string) : list IndexDef :=
  sort_by index_def_cmp (List.filter (λ d, negb (existsb (String.eqb "id") (idx_fields d)))
    (default [] (defs !! table))).

(** Every prefix field is held equal ([binding_prefix]), so the [expect] of
    the code does not fire and the default is not used. *)
Definition binding (table : string) (def : IndexDef) (eqs : list (string * Value)) (gates : list Predicate)
    (prefix_len : nat) : IndexBinding :=
  MkBinding table def (map (λ field, default VNull (assoc_get field eqs)) (take prefix_len (idx_fields def))) gates.

Definition window (table : string) (predicates : list Predicate) (order_by : option (list OrderSpec))
    (limit start : Z) : option AnyOperator :=
  let? chain := conjuncts predicates in
  if cj_residual chain then None
  else
    let order := map (λ spec, (Path_as_str (os_field spec), eq_ignore_ascii_case (os_direction spec) "DESC"))
      (default [] order_by) in
    let order := match last order with
      | Some (field, desc) => if String.eqb field "id" && negb desc then removelast order else order
      | None => order
      end in
    if existsb (λ e : string * bool, String.eqb e.1 "id" || held_equal (cj_eqs chain) e.1) order then None
    else
      let k := length (cj_eqs chain) in
      let? def := List.find (λ def,
        Nat.eqb (length (idx_fields def)) (k + length order) &&
        forallb (held_equal (cj_eqs chain)) (take k (idx_fields def)) &&
        forallb (λ e : string * (string * bool), String.eqb e.1 e.2.1) (combine (drop k (idx_fields def)) order))
        (candidates table) in
      Some (OIndexWindow (IndexWindowOp.new (binding table def (cj_eqs chain) (cj_gates chain) k) limit start
        (map snd order))).

(** The index with the longest prefix of [eqs]: the index, the length, and
    whether it leads with a field of [local]. *)
Definition best_prefix (table : string) (eqs : list (string * Value)) (local : list string)
    : option (IndexDef * nat * bool) :=
  max_by (λ a b : IndexDef * nat * bool,
      cmp_then (nat_cmp a.1.2 b.1.2) (cmp_then (bool_cmp a.2 b.2) (index_def_cmp b.1.1 a.1.1)))
    (List.filter (λ c : IndexDef * nat * bool, Nat.ltb 0 c.1.2)
      (map (λ def, (def, count_while (held_equal eqs) (idx_fields def),
        match idx_fields def with f :: _ => existsb (String.eqb f) local | [] => false end))
        (candidates table))).

Definition union_branch (table : string) (outer : list (string * Value)) (single : option (IndexDef * nat))
    (branch : Predicate) : option IndexBinding :=
  let? chain := conjuncts [branch] in
  match cj_id chain with
  | Some _ => None
  | None =>
      let local := map fst (cj_eqs chain) in
      let eqs := foldl (λ eqs e, if held_equal eqs e.1 then eqs else eqs ++ [e]) (cj_eqs chain) outer in
      let? (def, k, leads_local) := best_prefix table eqs local in
      let narrower := match single with
        | None => true
        | Some (held, held_k) => Nat.leb held_k k && negb (bool_decide (def = held))
        end in
      if negb leads_local || negb narrower then None else Some (binding table def eqs [] k)
  end.

(** One binding per branch of a disjunction. *)
Definition union (table : string) (outer : list (string * Value)) (branches : list Predicate)
    (single : option (IndexDef * nat)) : option (list IndexBinding) :=
  let? bindings := mapM (union_branch table outer single) branches in
  match bindings with [] => None | _ => Some bindings end.

(** The first disjunction that can be read range by range. *)
Fixpoint first_union (table : string) (outer : list (string * Value)) (ors : list (list Predicate))
    (single : option (IndexDef * nat)) : option (list IndexBinding) :=
  match ors with
  | [] => None
  | branches :: ors =>
      match union table outer branches single with
      | Some bindings => Some bindings
      | None => first_union table outer ors single
      end
  end.

Definition scan (table : string) (predicates : list Predicate) : option AnyOperator :=
  let? chain := conjuncts predicates in
  match cj_id chain with
  | Some key => Some (OKeyScan (MkKeyScan table key))
  | None =>
      let single := best_prefix table (cj_eqs chain) [] in
      match first_union table (cj_eqs chain) (cj_ors chain) (fst <$> single) with
      | Some bindings => Some (OIndexedScan (MkIndexedScan bindings))
      | None =>
          let? (def, k, _) := single in
          Some (OIndexedScan (MkIndexedScan [binding table def (cj_eqs chain) [] k]))
      end
  end.

Definition index_choice : IndexPlanner := {|
  planner_window := window;
  planner_scan := scan;
|}.
End planner.
End IndexChoice.
