(* ===== verification/IndexOrder.v ===== *)
(** * The k-th row of a window, by rank lookups

    An index is ascending throughout; a window may sort some fields the other
    way. [IndexWindowOp.nth] finds the k-th row of the window's order by
    narrowing, field by field, to the group of rows that holds it. It finds
    the row a full sort would put there. *)

From S2P Require Import Prelude Platform Float64 Value ValueRef ZSet SortKey Index Store StoreFacts Operator Plan.
From S2P Require Import Filter TopK Window IndexScan.
Local Open Scope Z_scope.

Abbreviation IndexEntry := (IndexKey * string)%type.

(** ** Stretches of a list *)

Section stretch.
Context {A : Type}.
Implicit Types l : list A.

(** The elements at the positions [[a, b)]. *)
Definition stretch l (a b : Z) : list A := take (Z.to_nat (b - a)) (drop (Z.to_nat a) l).

Lemma elem_of_stretch l a b x : 0 <= a →
  x ∈ stretch l a b ↔ ∃ p, a <= p < b ∧ zlookup l p = Some x.
Proof.
  intros Ha. unfold stretch. rewrite elem_of_take. split.
  - intros (i & Hi & Hlt). rewrite lookup_drop in Hi. exists (a + Z.of_nat i). split; [lia|].
    rewrite zlookup_spec by lia. rewrite <- Hi. f_equal. lia.
  - intros (p & Hp & Hl). rewrite zlookup_spec in Hl by lia. exists (Z.to_nat (p - a)). split; [|lia].
    rewrite lookup_drop, <- Hl. f_equal. lia.
Qed.

Lemma stretch_split l a b c : 0 <= a → a <= b → b <= c → stretch l a c = stretch l a b ++ stretch l b c.
Proof.
  intros Ha Hab Hbc. unfold stretch.
  replace (Z.to_nat (c - a)) with (Z.to_nat (b - a) + Z.to_nat (c - b))%nat by lia.
  rewrite <- take_take_drop, drop_drop. do 3 f_equal. lia.
Qed.

Lemma length_stretch l a b : 0 <= a → a <= b → b <= zlength l → Z.of_nat (length (stretch l a b)) = b - a.
Proof. unfold stretch, zlength. intros. rewrite length_take, length_drop. lia. Qed.

End stretch.

(** ** Ranks *)

Section ranks.
Context {A : Type} (cmp : A → A → comparison).
Implicit Types l : list A.

Lemma sl_rank_app e l k : sl_rank cmp e (l ++ k) = sl_rank cmp e l + sl_rank cmp e k.
Proof. unfold sl_rank, zlength. rewrite List.filter_app, length_app. lia. Qed.

Lemma sl_rank_all e l : (∀ x, x ∈ l → cmp x e = Lt) → sl_rank cmp e l = zlength l.
Proof.
  unfold sl_rank, zlength. induction l as [|x l IH]; intros Hx; [done|]. cbn [List.filter].
  rewrite Hx by set_solver. cbn [length]. specialize (IH ltac:(set_solver)). lia.
Qed.

Lemma sl_rank_none e l : (∀ x, x ∈ l → cmp x e ≠ Lt) → sl_rank cmp e l = 0.
Proof.
  unfold sl_rank, zlength. induction l as [|x l IH]; intros Hx; [done|]. cbn [List.filter].
  pose proof (Hx x ltac:(set_solver)). destruct (cmp x e); try done; apply IH; set_solver.
Qed.

Lemma sl_rank_perm e l k : l ≡ₚ k → sl_rank cmp e l = sl_rank cmp e k.
Proof. intros Hp. unfold sl_rank, zlength. f_equal. by apply Permutation_length, perm_filter_bool. Qed.

Lemma sl_rank_ext (cmp' : A → A → comparison) e l : (∀ x, x ∈ l → cmp x e = cmp' x e) → sl_rank cmp e l = sl_rank cmp' e l.
Proof.
  unfold sl_rank, zlength. induction l as [|x l IH]; intros Hx; [done|]. cbn [List.filter].
  rewrite <- Hx by set_solver. specialize (IH ltac:(set_solver)). destruct (cmp x e); cbn [length]; lia.
Qed.

(** In a sorted list an element's rank is its position. *)
Lemma sl_rank_position l j e : (∀ x, x ∈ l → cmp x x ≠ Lt) → (∀ x y, x ∈ l → y ∈ l → cmp x y = Lt → cmp y x ≠ Lt) →
  sl_sorted cmp l → l !! j = Some e → sl_rank cmp e l = Z.of_nat j.
Proof.
  intros Hirr Hasym Hs Hj. rewrite <- (take_drop_middle l j e Hj), sl_rank_app.
  assert (e ∈ l) as He by by eapply list_elem_of_lookup_2.
  pose proof (λ i j x y Hi Hj Hij, StronglySorted_lookup_lt _ l i j x y Hs Hi Hj Hij) as Hlt.
  rewrite sl_rank_all, sl_rank_none.
  - unfold zlength. rewrite length_take. apply lookup_lt_Some in Hj. lia.
  - intros x [->|Hx]%elem_of_cons; [by apply Hirr|].
    apply list_elem_of_lookup in Hx as [i Hi]. rewrite lookup_drop in Hi.
    pose proof (Hlt j (S j + i)%nat e x Hj Hi ltac:(lia)). apply Hasym; [done| |done]. by eapply list_elem_of_lookup_2.
  - intros x (i & Hi & Hij)%elem_of_take. by apply (Hlt i j).
Qed.
End ranks.

(** ** The order of a window *)

(** Field by field, each in its own direction. *)
Fixpoint directed_cmp (descending : list bool) (v w : list Scalar) : comparison :=
  match descending, v, w with
  | d :: descending, x :: v, y :: w =>
      cmp_then (if d then cmp_reverse (Scalar.cmp x y) else Scalar.cmp x y) (directed_cmp descending v w)
  | _, _, _ => Eq
  end.

(** Entries by the fields from [field] on, ties by row key. *)
Definition window_cmp (descending : list bool) (field : nat) (e e' : IndexEntry) : comparison :=
  cmp_then (directed_cmp descending (drop field e.1) (drop field e'.1)) (string_cmp e.2 e'.2).

Lemma list_cmp_take {A} (cmp : A → A → comparison) l k n :
  list_cmp cmp l k = Eq → list_cmp cmp (take n l) (take n k) = Eq.
Proof.
  revert k n. induction l as [|x l IH]; intros [|y k] [|n]; try done. cbn.
  destruct (cmp x y); cbn; try done. apply IH.
Qed.

Lemma list_cmp_drop {A} (cmp : A → A → comparison) l k n :
  list_cmp cmp l k = Eq → list_cmp cmp (drop n l) (drop n k) = Eq.
Proof.
  revert k n. induction l as [|x l IH]; intros [|y k] [|n]; try done. cbn.
  destruct (cmp x y); cbn; try done. apply IH.
Qed.

Lemma get_index_elem_list {A} (l : list A) p x : zlookup l p = Some x → x ∈ l.
Proof. unfold zlookup. repeat case_match; try done. apply list_elem_of_lookup_2. Qed.

Section select.
Context `{OrdSetLaws} (index : OrderedIndex) (Hwf : index_wf index).

Abbreviation entries := (os_iter (oi_entries index)).
Abbreviation width := (length (oi_paths index)).

Lemma entry_safe e : e ∈ entries → Forall scalar_safe e.1 ∧ length e.1 = width.
Proof.
  intros He. pose proof (iw_keys _ Hwf) as Hk. rewrite Forall_forall in Hk. destruct (Hk e He) as [Hok Hl].
  split; [by apply key_ok_safe|done].
Qed.

Lemma entries_ordered p q e e' : zlookup entries p = Some e → zlookup entries q = Some e' → p < q →
  index_entry_cmp e e' = Lt.
Proof.
  intros Hp Hq Hpq. unfold zlookup in *.
  destruct (Z.ltb_spec p 0); [done|]. destruct (zlength _ <=? p); [done|].
  destruct (Z.ltb_spec q 0); [done|]. destruct (zlength _ <=? q); [done|].
  apply (StronglySorted_lookup_lt _ _ _ _ _ _ (iw_sorted _ Hwf) Hp Hq). lia.
Qed.

(** A group: the positions of all entries that start with [lead]. *)
Record group (lead : list Scalar) (a b : Z) : Prop := {
  gp_safe : Forall scalar_safe lead;
  gp_bounds : 0 <= a <= b ∧ b <= zlength entries;
  gp_width : (length lead <= width)%nat;
  gp_exact : ∀ p e, zlookup entries p = Some e → a <= p < b ↔ lead_cmp lead e.1 = Eq;
}.

Lemma rank_bound cmp (e : IndexEntry) (l : list IndexEntry) : 0 <= sl_rank cmp e l <= zlength l.
Proof.
  unfold sl_rank, zlength. split; [lia|]. apply inj_le. induction l as [|x l IH]; [done|]. cbn [List.filter].
  destruct (cmp x e); cbn [length]; lia.
Qed.

(** [prefix_range] finds a group. *)
Lemma prefix_group lead : Forall scalar_safe lead → (length lead <= width)%nat →
  let '(a, b) := OrderedIndex.prefix_range index lead in group lead a b.
Proof.
  intros Hs Hl.
  pose proof (λ p key row, prefix_range_spec index lead p key row Hwf Hs Hl) as Hspec.
  unfold OrderedIndex.prefix_range in *.
  rewrite !(os_rank_iter _ _ index_entry_cmp_lawful) in *; try done; try apply Hwf; try (by apply index_wf_safe);
    try (cbn; apply Forall_app; split; [done|by repeat constructor]).
  pose proof (rank_bound index_entry_cmp (lead, ""%string) entries).
  pose proof (rank_bound index_entry_cmp (lead ++ [STop], ""%string) entries).
  split; [done|lia|done|]. intros p [key row] Hp. apply (Hspec p key row Hp).
Qed.

Lemma group_of_spec p e n : zlookup entries p = Some e → (n <= width)%nat →
  ∃ a b, OrderedIndex.group_of index p (Z.of_nat n) = Some (a, b) ∧ group (take n e.1) a b.
Proof.
  intros Hp Hn. unfold OrderedIndex.group_of, os_get_index. rewrite Hp. destruct e as [v r]. cbn [fst].
  rewrite ztake_spec, Nat2Z.id by lia.
  assert ((v, r) ∈ entries) as Hin by (unfold zlookup in Hp; repeat case_match; try done; by eapply list_elem_of_lookup_2).
  destruct (entry_safe _ Hin) as [Hs Hl]. cbn in Hs, Hl.
  pose proof (prefix_group (take n v) (Forall_take _ _ _ Hs) ltac:(rewrite length_take; lia)) as Hg.
  destruct (OrderedIndex.prefix_range index (take n v)) as [a b]. by exists a, b.
Qed.

Lemma lookup_entry p : 0 <= p < zlength entries → ∃ e, zlookup entries p = Some e ∧ e ∈ entries.
Proof.
  intros Hp. rewrite zlookup_spec by lia. unfold zlength in Hp.
  destruct (lookup_lt_is_Some_2 entries (Z.to_nat p)) as [e He]; [lia|]. exists e. split; [done|]. by eapply list_elem_of_lookup_2.
Qed.

Lemma list_cmp_app v v' w w' : length v = length w → list_cmp Scalar.cmp v w = Eq →
  list_cmp Scalar.cmp (v ++ v') (w ++ w') = list_cmp Scalar.cmp v' w'.
Proof.
  revert w. induction v as [|x v IH]; intros [|y w] Hl Hc; try done. cbn in *.
  destruct (Scalar.cmp x y); try done. cbn in *. apply IH; [lia|done].
Qed.

(** Members of a group agree on its leading values. *)
Lemma group_agree lead a b p q x y : group lead a b → zlookup entries p = Some x → zlookup entries q = Some y →
  a <= p < b → a <= q < b → list_cmp Scalar.cmp (take (length lead) x.1) (take (length lead) y.1) = Eq.
Proof.
  intros Hg Hp Hq Hpr Hqr. apply (gp_exact _ _ _ Hg p x Hp) in Hpr. apply (gp_exact _ _ _ Hg q y Hq) in Hqr. unfold lead_cmp in *.
  assert (∀ p x, zlookup entries p = Some x → Forall scalar_safe (take (length lead) x.1)) as Hsafe.
  { intros p' x' Hx. apply Forall_take, (proj1 (entry_safe x' (get_index_elem_list _ _ _ Hx))). }
  pose proof (lawful_list_any _ _ scalar_cmp_lawful) as L. pose proof (gp_safe _ _ _ Hg).
  rewrite (cmp_trans_eq _ _ L _ lead); [|by eauto..]. rewrite (cmp_flip _ _ L), Hqr by eauto. done.
Qed.

Lemma split_field (v : list Scalar) n : length v = width → (n < width)%nat → ∃ s, v !! n = Some s ∧ v = take n v ++ s :: drop (S n) v.
Proof.
  intros Hl Hn. destruct (lookup_lt_is_Some_2 v n) as [s Hs]; [lia|]. exists s. split; [done|]. by rewrite take_drop_middle.
Qed.

(** How two members of a group compare, by the next field. *)
Lemma group_next lead a b p q x y : group lead a b → zlookup entries p = Some x → zlookup entries q = Some y →
  a <= p < b → a <= q < b → (length lead < width)%nat →
  ∃ s t, drop (length lead) x.1 = s :: drop (S (length lead)) x.1 ∧ drop (length lead) y.1 = t :: drop (S (length lead)) y.1 ∧
    scalar_safe s ∧ scalar_safe t ∧
    index_entry_cmp x y = cmp_then (Scalar.cmp s t) (cmp_then (list_cmp Scalar.cmp (drop (S (length lead)) x.1) (drop (S (length lead)) y.1))
      (string_cmp x.2 y.2)) ∧
    lead_cmp (take (S (length lead)) x.1) y.1 = Scalar.cmp t s.
Proof.
  intros Hg Hp Hq Hpr Hqr Hlt. set (n := length lead) in *.
  destruct (entry_safe x) as [Hsx Hlx]; [by eapply get_index_elem_list|].
  destruct (entry_safe y) as [Hsy Hly]; [by eapply get_index_elem_list|].
  pose proof (group_agree lead a b p q x y Hg Hp Hq Hpr Hqr) as Hagree. fold n in Hagree.
  pose proof (group_agree lead a b q p y x Hg Hq Hp Hqr Hpr) as Hagree'. fold n in Hagree'.
  destruct (split_field x.1 n Hlx Hlt) as (s & Hs & Hx), (split_field y.1 n Hly Hlt) as (t & Ht & Hy).
  exists s, t. rewrite (drop_S _ _ _ Hs), (drop_S _ _ _ Ht). split_and!; [done..| | | |].
  - rewrite Forall_lookup in Hsx. by eapply Hsx.
  - rewrite Forall_lookup in Hsy. by eapply Hsy.
  - unfold index_entry_cmp. rewrite Hx, Hy at 1. rewrite list_cmp_app; [|rewrite !length_take; lia|done].
    cbn. by destruct (Scalar.cmp s t).
  - unfold lead_cmp. rewrite length_take, Hlx, Nat.min_l by lia.
    rewrite (take_S_r _ _ _ Hs), (take_S_r _ _ _ Ht), list_cmp_app; [|rewrite !length_take; lia|done]. cbn.
    by destruct (Scalar.cmp t s).
Qed.

(** The rows of a group that share the next field's value form a group inside it. *)
Lemma subgroup lead a b g h p e : group lead a b → zlookup entries p = Some e → a <= p < b → (length lead < width)%nat →
  group (take (S (length lead)) e.1) g h → a <= g ∧ g <= p < h ∧ h <= b.
Proof.
  intros Hg He Hp Hlt Hg'. destruct (entry_safe e) as [Hs Hl]; [by eapply get_index_elem_list|].
  set (lead' := take (S (length lead)) e.1) in *. pose proof (lawful_list_any _ _ scalar_cmp_lawful) as L.
  assert (length lead' = S (length lead)) as Hlead' by (unfold lead'; rewrite length_take; lia).
  assert (∀ q y, zlookup entries q = Some y → g <= q < h → a <= q < b) as Hsub.
  { intros q y Hy Hq. apply (gp_exact _ _ _ Hg' q y Hy) in Hq. apply (gp_exact _ _ _ Hg q y Hy).
    destruct (entry_safe y) as [Hsy _]; [by eapply get_index_elem_list|].
    apply (gp_exact _ _ _ Hg p e He) in Hp. unfold lead_cmp in *. rewrite Hlead' in Hq.
    apply (list_cmp_take _ _ _ (length lead)) in Hq. unfold lead' in Hq. rewrite !take_take, !Nat.min_l in Hq by lia.
    rewrite (cmp_trans_eq _ _ L _ (take (length lead) e.1)); [done|by apply Forall_take..|apply Hg|done]. }
  assert (g <= p < h) as Hp'.
  { apply (gp_exact _ _ _ Hg' p e He). unfold lead_cmp. rewrite Hlead'. apply (cmp_refl _ _ L). by apply Forall_take. }
  destruct (gp_bounds _ _ _ Hg') as [Hb1' Hb2'].
  destruct (lookup_entry g) as (eg & Heg & _); [lia|]. destruct (lookup_entry (h - 1)) as (eh & Heh & _); [lia|].
  pose proof (Hsub g eg Heg ltac:(lia)). pose proof (Hsub (h - 1) eh Heh ltac:(lia)). lia.
Qed.

(** How the next field of a group's rows compares to that of one of its rows:
    equal exactly in the subgroup, and ordered as the positions are. *)
Lemma subgroup_next lead a b g h p (e e0 : IndexEntry) : group lead a b → group (take (S (length lead)) e0.1) g h →
  length e0.1 = width → zlookup entries p = Some e → a <= g → h <= b → g <= p < h → (length lead < width)%nat →
  ∀ q (x : IndexEntry), zlookup entries q = Some x → a <= q < b →
  ∃ s t, drop (length lead) x.1 = s :: drop (S (length lead)) x.1 ∧ drop (length lead) e.1 = t :: drop (S (length lead)) e.1 ∧
    Scalar.cmp s t = (if q <? g then Lt else if q <? h then Eq else Gt).
Proof.
  intros Hg Hg' Hl0 He Hag Hhb Hp Hlt q x Hx Hq. pose proof (lawful_list_any _ _ scalar_cmp_lawful) as L.
  destruct (entry_safe e) as [Hse Hle]; [by eapply get_index_elem_list|].
  destruct (entry_safe x) as [Hsx Hlx]; [by eapply get_index_elem_list|].
  destruct (group_next lead a b q p x e Hg Hx He Hq ltac:(lia) Hlt) as (s & t & Hds & Hdt & Hss & Hst & Hcmp & _).
  destruct (group_next lead a b p q e x Hg He Hx ltac:(lia) Hq Hlt) as (t' & s' & Hdt' & Hds' & _ & _ & _ & Hlc).
  rewrite Hdt in Hdt'. rewrite Hds in Hds'. injection Hdt' as <-. injection Hds' as <-.
  exists s, t. split; [done|]. split; [done|].
  assert (g <= q < h ↔ Scalar.cmp s t = Eq) as Hin.
  { rewrite (gp_exact _ _ _ Hg' q x Hx), <- Hlc. pose proof (proj1 (gp_exact _ _ _ Hg' p e He) ltac:(lia)) as Hle'.
    unfold lead_cmp in *. rewrite !length_take, Hl0, Hle, !Nat.min_l in * by lia.
    by rewrite (cmp_eq_r _ _ (take (S (length lead)) x.1) (take (S (length lead)) e.1) (take (S (length lead)) e0.1) L)
      by first [done|by apply Forall_take|apply Hg']. }
  destruct (Z.ltb_spec q g) as [Hqg|Hqg].
  - pose proof (entries_ordered q p x e Hx He ltac:(lia)) as Ho. rewrite Hcmp in Ho.
    destruct (Scalar.cmp s t); [|done|done]. pose proof (proj2 Hin eq_refl); lia.
  - destruct (Z.ltb_spec q h) as [Hqh|Hqh]; [apply Hin; lia|].
    pose proof (entries_ordered p q e x He Hx ltac:(lia)) as Ho.
    destruct (Scalar.cmp s t); [pose proof (proj2 Hin eq_refl); lia| |done].
    rewrite (cmp_flip _ _ index_entry_cmp_lawful x e), Hcmp in Ho by done. done.
Qed.

(** The rank of a row of the subgroup within the whole group. *)
Lemma rank_step d descending lead a b g h p (e e0 : IndexEntry) : group lead a b → group (take (S (length lead)) e0.1) g h →
  length e0.1 = width → zlookup entries p = Some e → a <= g → h <= b → g <= p < h → (length lead < width)%nat →
  sl_rank (window_cmp (d :: descending) (length lead)) e (stretch entries a b) =
    sl_rank (window_cmp descending (S (length lead))) e (stretch entries g h) + (if d : bool then b - h else g - a).
Proof.
  intros Hg Hg' Hl0 He Hag Hhb Hp Hlt. destruct (gp_bounds _ _ _ Hg) as [Hb1 Hb2].
  pose proof (subgroup_next lead a b g h p e e0 Hg Hg' Hl0 He Hag Hhb Hp Hlt) as Hnext.
  assert (∀ q (x : IndexEntry), zlookup entries q = Some x → a <= q < b → window_cmp (d :: descending) (length lead) x e =
    if q <? g then (if d then Gt else Lt) else if q <? h then window_cmp descending (S (length lead)) x e else (if d then Lt else Gt)) as Hw.
  { intros q x Hx Hq. destruct (Hnext q x Hx Hq) as (s & t & Hds & Hdt & Hc). unfold window_cmp. rewrite Hds, Hdt. cbn.
    rewrite Hc. destruct (q <? g), (q <? h), d; done. }
  rewrite (stretch_split _ a g b), (stretch_split _ g h b), !sl_rank_app by lia.
  rewrite (sl_rank_ext _ (window_cmp descending (S (length lead))) e (stretch entries g h)).
  2:{ intros x (q & Hq & Hx)%elem_of_stretch; [|lia]. rewrite (Hw q x Hx) by lia.
      by rewrite (proj2 (Z.ltb_ge _ _)), (proj2 (Z.ltb_lt _ _)) by lia. }
  assert (∀ x, x ∈ stretch entries a g → window_cmp (d :: descending) (length lead) x e = if d then Gt else Lt) as Hbelow.
  { intros x (q & Hq & Hx)%elem_of_stretch; [|lia]. rewrite (Hw q x Hx) by lia. by rewrite (proj2 (Z.ltb_lt _ _)) by lia. }
  assert (∀ x, x ∈ stretch entries h b → window_cmp (d :: descending) (length lead) x e = if d then Lt else Gt) as Habove.
  { intros x (q & Hq & Hx)%elem_of_stretch; [|lia]. rewrite (Hw q x Hx) by lia. by rewrite !(proj2 (Z.ltb_ge _ _)) by lia. }
  destruct d.
  - rewrite (sl_rank_none _ _ (stretch entries a g)), (sl_rank_all _ _ (stretch entries h b)) by first [done|intros x Hx; by rewrite (Hbelow x Hx)].
    unfold zlength. rewrite length_stretch by lia. lia.
  - rewrite (sl_rank_all _ _ (stretch entries a g)), (sl_rank_none _ _ (stretch entries h b)) by first [done|intros x Hx; by rewrite (Habove x Hx)].
    unfold zlength. rewrite length_stretch by lia. lia.
Qed.

(** Ascending throughout, the window's order is the index's. *)
Lemma directed_asc (descending : list bool) (v w : list Scalar) : existsb (λ d, d) descending = false →
  length v = length descending → length w = length descending →
  directed_cmp descending v w = list_cmp Scalar.cmp v w.
Proof.
  revert v w. induction descending as [|[] ds IH]; intros [|x v] [|y w] Hd Hv Hw; try done. cbn in *.
  by rewrite IH by lia || done.
Qed.

Lemma rank_ascending descending lead a b p e : existsb (λ d, d) descending = false → group lead a b →
  (length lead + length descending = width)%nat → a <= p < b → zlookup entries p = Some e →
  sl_rank (window_cmp descending (length lead)) e (stretch entries a b) = p - a.
Proof.
  intros Hasc Hg Hw Hp He. destruct (gp_bounds _ _ _ Hg) as [Hb1 Hb2].
  assert (∀ q (x : IndexEntry) r (y : IndexEntry), zlookup entries q = Some x → zlookup entries r = Some y → a <= q < b → a <= r < b →
    window_cmp descending (length lead) x y = index_entry_cmp x y) as Hsame.
  { intros q x r y Hx Hy Hq Hr. pose proof (group_agree lead a b q r x y Hg Hx Hy Hq Hr) as Hag.
    destruct (entry_safe x) as [_ Hl]; [by eapply get_index_elem_list|].
    destruct (entry_safe y) as [_ Hl']; [by eapply get_index_elem_list|].
    unfold window_cmp, index_entry_cmp. rewrite directed_asc by (rewrite ?length_drop; first [done|lia]).
    destruct x as [x rx], y as [y ry]. cbn [fst snd] in *.
    rewrite <- (list_cmp_app (take (length lead) x) (drop (length lead) x) (take (length lead) y) (drop (length lead) y))
      by (done || rewrite !length_take; lia).
    by rewrite !take_drop. }
  rewrite (stretch_split _ a p) by lia. rewrite sl_rank_app, sl_rank_all, sl_rank_none.
  - unfold zlength. rewrite length_stretch by lia. lia.
  - intros x (q & Hq & Hx)%elem_of_stretch; [|lia]. rewrite (Hsame q x p e) by (done || lia).
    destruct (Z.eq_dec q p) as [->|].
    + rewrite He in Hx. injection Hx as ->. rewrite (cmp_refl _ _ index_entry_cmp_lawful); [done|].
      by apply entry_safe, (get_index_elem_list _ p).
    + rewrite (cmp_flip _ _ index_entry_cmp_lawful e x), (entries_ordered p q e x He Hx) by
        first [lia|apply entry_safe; by eapply get_index_elem_list]. done.
  - intros x (q & Hq & Hx)%elem_of_stretch; [|lia]. rewrite (Hsame q x p e) by (done || lia).
    apply (entries_ordered q p); [done..|lia].
Qed.

(** The selection: in every group the loop finds the row of rank [k]. *)
Lemma nth_loop_spec descending lead a b k : group lead a b → (length lead + length descending = width)%nat →
  0 <= k < b - a →
  ∃ p e, IndexWindowOp.nth_loop index descending (Z.of_nat (length lead)) a b k = Some p ∧ a <= p < b ∧
    zlookup entries p = Some e ∧ sl_rank (window_cmp descending (length lead)) e (stretch entries a b) = k.
Proof.
  revert lead a b k. induction descending as [|d descending IH]; intros lead a b k Hg Hw Hk; cbn [IndexWindowOp.nth_loop];
    destruct (gp_bounds _ _ _ Hg) as [Hb1 Hb2].
  - rewrite (proj2 (Z.ltb_lt _ _)) by lia.
    destruct (lookup_entry (a + k)) as (e & He & _); [lia|]. exists (a + k), e. split; [done|]. split; [lia|]. split; [done|].
    rewrite (rank_ascending [] lead a b (a + k) e eq_refl Hg Hw ltac:(lia) He). lia.
  - rewrite (proj2 (Z.leb_gt _ _)) by lia. cbn in Hw.
    set (p0 := if d : bool then b - 1 - k else a + k).
    assert (a <= p0 < b) as Hp0 by (unfold p0; destruct d; lia).
    destruct (lookup_entry p0) as (e0 & He0 & Hin0); [lia|]. destruct (entry_safe e0 Hin0) as [Hs0 Hl0].
    replace (Z.of_nat (length lead) + 1) with (Z.of_nat (S (length lead))) by lia.
    destruct (group_of_spec p0 e0 (S (length lead)) He0 ltac:(lia)) as (g & h & -> & Hg').
    destruct (subgroup lead a b g h p0 e0 Hg He0 Hp0 ltac:(lia) Hg') as (Hag & Hpgh & Hhb).
    assert (length (take (S (length lead)) e0.1) = S (length lead)) as Hlead' by (rewrite length_take; lia).
    destruct (IH _ g h (k - (if d then b - h else g - a)) Hg' ltac:(lia)) as (p & e & Hnth & Hp & He & Hrank).
    { unfold p0 in *. destruct d; lia. }
    exists p, e. rewrite Hlead' in Hnth, Hrank. split; [done|]. split; [lia|]. split; [done|].
    rewrite (rank_step d descending lead a b g h p e e0 Hg Hg' Hl0 He) by lia. rewrite Hrank. lia.
Qed.
End select.
