(* ===== verification/GraphFacts.v ===== *)
(** * Facts of the operator graph

    The graph a plan is built into is well formed (a node's id is its
    position, its inputs are earlier nodes), and Kahn's algorithm orders the
    nodes of a well-formed graph: every node once, its inputs before it. *)

From S2P Require Import Prelude Platform Float64 Value ValueRef ZSet SortKey Index Store Operator Plan Filter LinearOps Join Witness TopK Graph.

(** ** Occurrences *)

Abbreviation occ v l := (count_occ Nat.eq_dec l v).

Lemma occ_pos v l : 0 < occ v l ↔ v ∈ l.
Proof. rewrite list_elem_of_In, (count_occ_In Nat.eq_dec). lia. Qed.

(** Inputs still outside [done]. *)
Definition pending (done inputs : list nat) : nat := length (filter (λ u, u ∉ done) inputs).

Lemma pending_nil inputs : pending [] inputs = length inputs.
Proof.
  unfold pending. induction inputs as [|u inputs IH]; first done.
  rewrite filter_cons_True by apply not_elem_of_nil. cbn. by rewrite IH.
Qed.

Lemma pending_zero done inputs : pending done inputs = 0 ↔ Forall (.∈ done) inputs.
Proof.
  unfold pending. induction inputs as [|u inputs IH]; first by split.
  rewrite Forall_cons, filter_cons. case_decide as Hu; cbn; [naive_solver lia|].
  rewrite IH. destruct (decide (u ∈ done)); naive_solver.
Qed.

Lemma pending_snoc done id inputs :
  id ∉ done → pending (done ++ [id]) inputs + occ id inputs = pending done inputs.
Proof.
  intros Hid. unfold pending. induction inputs as [|u inputs IH]; first done.
  rewrite !filter_cons. cbn [count_occ]. destruct (Nat.eq_dec u id) as [->|Hne].
  - rewrite decide_False, decide_True by set_solver. cbn. lia.
  - destruct (decide (u ∈ done)) as [Hu|Hu].
    + rewrite !decide_False by set_solver. done.
    + rewrite !decide_True by set_solver. cbn. lia.
Qed.

Section kahn.
Context `{OS : OrdSet}.
Implicit Types (nodes : list Node).

Definition inputs_of nodes (v : nat) : list nat := default [] (node_inputs <$> nodes !! v).

(** A node's id is its position and its inputs are earlier. *)
Definition nodes_wf nodes : Prop :=
  ∀ i node, nodes !! i = Some node → node_id node = i ∧ Forall (λ u, u < i) (node_inputs node).

Lemma inputs_of_lt nodes v u : nodes_wf nodes → u ∈ inputs_of nodes v → u < v ∧ v < length nodes.
Proof.
  intros Hwf Hu. unfold inputs_of in Hu. destruct (nodes !! v) as [node|] eqn:Hv; cbn in Hu; [|set_solver].
  destruct (Hwf v node Hv) as [_ Hall]. rewrite Forall_forall in Hall.
  split; [by apply Hall|by eapply lookup_lt_Some].
Qed.

Lemma nodes_wf_snoc nodes op inputs :
  nodes_wf nodes → Forall (λ u, u < length nodes) inputs →
  nodes_wf (nodes ++ [MkNode _ (length nodes) op inputs]).
Proof.
  intros Hwf Hin i node Hi. apply lookup_app_Some in Hi as [Hi|[Hle Hi]]; first by apply Hwf.
  apply list_lookup_singleton_Some in Hi as [? <-]. cbn. assert (i = length nodes) as -> by lia. done.
Qed.

(** *** The edges *)

Definition succ (adj : list (list nat)) (u : nat) : list nat := default [] (adj !! u).
Definition deg (in_degree : list nat) (v : nat) : nat := default 0 (in_degree !! v).

Lemma deg_alter f in_degree v x :
  x < length in_degree → deg (alter f x in_degree) v = if decide (v = x) then f (deg in_degree v) else deg in_degree v.
Proof.
  intros Hx. unfold deg. rewrite list_lookup_alter. case_decide; case_decide; try congruence; subst.
  by destruct (lookup_lt_is_Some_2 _ _ Hx) as [y ->].
Qed.

Lemma succ_alter f adj u x :
  x < length adj → succ (alter f x adj) u = if decide (u = x) then f (succ adj u) else succ adj u.
Proof.
  intros Hx. unfold succ. rewrite list_lookup_alter. case_decide; case_decide; try congruence; subst.
  by destruct (lookup_lt_is_Some_2 _ _ Hx) as [y ->].
Qed.

Lemma add_edges_spec node adj in_degree n :
  length adj = n → length in_degree = n → node_id node < n → Forall (λ u, u < n) (node_inputs node) →
  let '(adj', in_degree') := Graph.add_edges (adj, in_degree) node in
  length adj' = n ∧ length in_degree' = n ∧
  (∀ u v, occ v (succ adj' u) = occ v (succ adj u) + (if decide (v = node_id node) then occ u (node_inputs node) else 0)) ∧
  (∀ v, deg in_degree' v = deg in_degree v + (if decide (v = node_id node) then length (node_inputs node) else 0)).
Proof.
  unfold Graph.add_edges. intros Hadj Hdeg Hid. revert adj in_degree Hadj Hdeg.
  induction (node_inputs node) as [|x inputs IH]; intros adj in_degree Hadj Hdeg Hall; cbn [foldl].
  { split_and!; [done..| |]; intros; case_decide; cbn; lia. }
  apply Forall_cons in Hall as [Hx Hall].
  specialize (IH (alter (λ next, next ++ [node_id node]) x adj) (alter S (node_id node) in_degree)).
  rewrite !length_alter in IH. specialize (IH Hadj Hdeg Hall).
  destruct (foldl _ _ inputs) as [adj' in_degree']. destruct IH as (H1 & H2 & H3 & H4).
  split_and!; [done..| |].
  - intros u v. rewrite H3, succ_alter by lia. cbn [count_occ].
    destruct (decide (u = x)); destruct (Nat.eq_dec x u); try congruence.
    rewrite count_occ_app. cbn [count_occ].
    destruct (Nat.eq_dec (node_id node) v); case_decide; try congruence; lia.
  - intros v. rewrite H4, deg_alter by lia. case_decide; cbn; lia.
Qed.

Lemma edges_spec nodes :
  nodes_wf nodes →
  let '(adj, in_degree) := Graph.edges nodes in
  length in_degree = length nodes ∧
  (∀ u v, occ v (succ adj u) = occ u (inputs_of nodes v)) ∧
  (∀ v, deg in_degree v = length (inputs_of nodes v)).
Proof.
  intros Hwf. unfold Graph.edges. set (n := length nodes).
  assert (∀ k, k ≤ n → let '(adj, in_degree) := foldl Graph.add_edges (replicate n [], replicate n 0) (take k nodes) in
    length adj = n ∧ length in_degree = n ∧
    (∀ u v, occ v (succ adj u) = if decide (v < k) then occ u (inputs_of nodes v) else 0) ∧
    (∀ v, deg in_degree v = if decide (v < k) then length (inputs_of nodes v) else 0)) as Hk.
  { induction k as [|k IH]; intros Hle.
    - rewrite take_0. cbn [foldl]. rewrite !length_replicate. split_and!; [done..| |].
      + intros u v. rewrite decide_False by lia. unfold succ.
        destruct (_ !! u) as [l|] eqn:Hu; [|done]. by apply lookup_replicate in Hu as [-> _].
      + intros v. rewrite decide_False by lia. unfold deg.
        destruct (_ !! v) as [l|] eqn:Hu; [|done]. by apply lookup_replicate in Hu as [-> _].
    - destruct (lookup_lt_is_Some_2 nodes k ltac:(lia)) as [node Hnode].
      rewrite (take_S_r _ _ _ Hnode), foldl_app. cbn [foldl].
      destruct (foldl _ _ (take k nodes)) as [adj in_degree]. destruct (IH ltac:(lia)) as (H1 & H2 & H3 & H4).
      destruct (Hwf _ _ Hnode) as [Hid Hin].
      pose proof (add_edges_spec node adj in_degree n H1 H2 ltac:(lia)
        ltac:(eapply Forall_impl; [done|cbn; lia])) as Hadd.
      destruct (Graph.add_edges _ _) as [adj' in_degree']. destruct Hadd as (A1 & A2 & A3 & A4).
      rewrite Hid in *.
      assert (inputs_of nodes k = node_inputs node) as Hk by (unfold inputs_of; by rewrite Hnode).
      split_and!; [done..| |].
      + intros u v. rewrite A3, H3. destruct (decide (v = k)) as [->|].
        * rewrite decide_False, decide_True, Hk by lia. lia.
        * destruct (decide (v < k)); [rewrite decide_True by lia|rewrite decide_False by lia]; lia.
      + intros v. rewrite A4, H4. destruct (decide (v = k)) as [->|].
        * rewrite decide_False, decide_True, Hk by lia. lia.
        * destruct (decide (v < k)); [rewrite decide_True by lia|rewrite decide_False by lia]; lia. }
  specialize (Hk n ltac:(lia)). unfold n in Hk at 3. rewrite firstn_all in Hk.
  destruct (foldl _ _ nodes) as [adj in_degree]. destruct Hk as (_ & H2 & H3 & H4).
  assert (∀ v, ¬ v < n → inputs_of nodes v = []) as Hout.
  { intros v Hv. unfold inputs_of. by rewrite lookup_ge_None_2 by lia. }
  split_and!; [done| |].
  - intros u v. rewrite H3. case_decide; [done|]. by rewrite Hout.
  - intros v. rewrite H4. case_decide; [done|]. by rewrite Hout.
Qed.

(** *** The queue loop *)

(** Relaxing a node's successors takes each occurrence off a degree and
    queues exactly the nodes whose last input it was. *)
Lemma relax_all_spec next in_degree queue :
  (∀ v, occ v next ≤ deg in_degree v) →
  let '(in_degree', queue') := foldl Graph.relax (in_degree, queue) next in
  length in_degree' = length in_degree ∧
  (∀ v, deg in_degree' v = deg in_degree v - occ v next) ∧
  ∃ freed, queue' = queue ++ freed ∧ NoDup freed ∧
    ∀ v, v ∈ freed ↔ 0 < deg in_degree v ∧ deg in_degree v = occ v next.
Proof.
  revert in_degree queue. induction next as [|x next IH]; intros in_degree queue Hle; cbn [foldl].
  { split_and!; [done|cbn; lia|]. exists []. split_and!; [by rewrite app_nil_r|constructor|].
    intros v. rewrite elem_of_nil. cbn. lia. }
  assert (∀ v, occ v (x :: next) = if decide (v = x) then S (occ v next) else occ v next) as Hocc.
  { intros v. cbn [count_occ]. destruct (Nat.eq_dec x v), (decide (v = x)); congruence. }
  assert (0 < deg in_degree x) as Hx.
  { specialize (Hle x). rewrite Hocc, decide_True in Hle by done. lia. }
  assert (x < length in_degree) as Hlt.
  { unfold deg in Hx. destruct (in_degree !! x) eqn:E; cbn in Hx; [by eapply lookup_lt_Some|lia]. }
  cbn [Graph.relax].
  set (d := alter pred x in_degree). set (q := if bool_decide _ then _ else _).
  assert (∀ v, deg d v = if decide (v = x) then pred (deg in_degree v) else deg in_degree v) as Hd
    by (intros v; by apply deg_alter).
  specialize (IH d q). destruct (foldl _ _ next) as [in_degree' queue'].
  destruct IH as (H1 & H2 & freed & -> & Hnd & Hfreed).
  { intros v. specialize (Hle v). rewrite Hocc in Hle. rewrite Hd. case_decide; lia. }
  assert (bool_decide (d !! x = Some 0) = true ↔ deg d x = 0) as Hq.
  { rewrite bool_decide_eq_true. unfold deg.
    assert (x < length d) as Hld by (unfold d; by rewrite length_alter).
    destruct (lookup_lt_is_Some_2 _ _ Hld) as [y Hy]. rewrite Hy. cbn. naive_solver. }
  split_and!; [unfold d in H1; by rewrite length_alter in H1|..].
  { intros v. rewrite H2, Hd, Hocc. destruct (decide (v = x)); lia. }
  unfold q. destruct (bool_decide _) eqn:Hb.
  - pose proof (proj1 Hq eq_refl) as Hzero. exists (x :: freed). split_and!.
    + by rewrite <- app_assoc.
    + constructor; [|done]. rewrite Hfreed. lia.
    + intros v. rewrite elem_of_cons, Hfreed, Hd, Hocc. specialize (Hle v). rewrite Hocc in Hle.
      rewrite Hd, decide_True in Hzero by done. destruct (decide (v = x)) as [->|]; naive_solver lia.
  - exists freed. split_and!; [done..|]. intros v. rewrite Hfreed, Hd, Hocc.
    destruct (decide (v = x)) as [->|]; [|done].
    assert (deg d x ≠ 0) as Hnz by (intros E; apply Hq in E; congruence).
    rewrite Hd, decide_True in Hnz by done. lia.
Qed.

(** The inputs of every node of [order] come before it. *)
Definition ordered nodes (order : list nat) : Prop :=
  ∀ k v, order !! k = Some v → Forall (.∈ take k order) (inputs_of nodes v).

Lemma ordered_snoc nodes order id :
  ordered nodes order → Forall (.∈ order) (inputs_of nodes id) → ordered nodes (order ++ [id]).
Proof.
  intros Ho Hid k v Hk. apply lookup_app_Some in Hk as [Hk|[Hle Hk]].
  - rewrite take_app_le by (apply lookup_lt_Some in Hk; lia). by apply Ho.
  - apply list_lookup_singleton_Some in Hk as [? <-].
    rewrite take_app_ge by lia. eapply Forall_impl; [done|]. set_solver.
Qed.

(** The invariant of the queue loop. *)
Record kahn_inv nodes (in_degree queue order : list nat) : Prop := {
  ki_length : length in_degree = length nodes;
  ki_degree : ∀ v, deg in_degree v = pending order (inputs_of nodes v);
  ki_nodup : NoDup (order ++ queue);
  ki_ready : ∀ v, v ∈ order ++ queue ↔ v < length nodes ∧ deg in_degree v = 0;
  ki_ordered : ordered nodes order;
}.

Lemma kahn_inv_step nodes adj in_degree id queue order :
  (∀ u v, occ v (succ adj u) = occ u (inputs_of nodes v)) →
  kahn_inv nodes in_degree (id :: queue) order →
  let '(in_degree', queue') := foldl Graph.relax (in_degree, queue) (default [] (adj !! id)) in
  kahn_inv nodes in_degree' queue' (order ++ [id]).
Proof.
  intros Hadj [Hlen Hdeg Hnd Hready Hord].
  assert (id ∉ order) as Hid by (apply NoDup_app in Hnd as (_ & Hdis & _); intros ?; by eapply Hdis; [|left]).
  assert (pending order (inputs_of nodes id) = 0) as Hzero.
  { rewrite <- Hdeg. apply Hready. set_solver. }
  assert (∀ v, pending (order ++ [id]) (inputs_of nodes v) = deg in_degree v - occ v (succ adj id)) as Hpend.
  { intros v. pose proof (pending_snoc order id (inputs_of nodes v) Hid). rewrite Hdeg, Hadj. lia. }
  pose proof (relax_all_spec (succ adj id) in_degree queue) as Hrelax. unfold succ at 2 in Hrelax.
  destruct (foldl _ _ _) as [in_degree' queue']. destruct Hrelax as (H1 & H2 & freed & -> & Hndf & Hfreed).
  { intros v. rewrite Hadj, Hdeg. pose proof (pending_snoc order id (inputs_of nodes v) Hid). lia. }
  assert ((order ++ [id]) ++ queue ++ freed = (order ++ id :: queue) ++ freed) as Happ
    by (rewrite <- !app_assoc; done).
  split.
  - congruence.
  - intros v. by rewrite H2, Hpend.
  - rewrite Happ. apply NoDup_app. split_and!; [done| |done].
    intros v Hv. rewrite Hfreed. apply Hready in Hv. lia.
  - intros v. rewrite Happ, elem_of_app, Hready, Hfreed, H2. split; [|].
    + intros [[??]|[Hpos ?]]; split; try lia. rewrite <- Hlen.
      unfold deg in Hpos. destruct (in_degree !! v) eqn:E; cbn in Hpos; [by eapply lookup_lt_Some|lia].
    + pose proof (pending_snoc order id (inputs_of nodes v) Hid) as Hs. rewrite <- Hdeg, <- Hadj in Hs.
      destruct (decide (deg in_degree v = 0)); [left|right]; lia.
  - apply ordered_snoc; [done|]. by apply pending_zero.
Qed.

Lemma kahn_inv_bound nodes in_degree queue order :
  kahn_inv nodes in_degree queue order → length order + length queue ≤ length nodes.
Proof.
  intros [_ _ Hnd Hready _]. rewrite <- length_app, <- (length_seq (length nodes) 0).
  apply submseteq_length, NoDup_submseteq; [done|].
  intros v Hv. apply elem_of_seq. apply Hready in Hv. lia.
Qed.

(** Every round pops one node, so the fuel of the call empties the queue. *)
Lemma kahn_run nodes adj fuel in_degree queue order :
  (∀ u v, occ v (succ adj u) = occ u (inputs_of nodes v)) →
  length nodes ≤ length order + fuel →
  kahn_inv nodes in_degree queue order →
  ∃ in_degree', kahn_inv nodes in_degree' [] (Graph.kahn fuel adj in_degree queue order).
Proof.
  intros Hadj. revert in_degree queue order.
  induction fuel as [|fuel IH]; intros in_degree queue order Hfuel Hinv; destruct queue as [|id queue];
    try by (exists in_degree).
  { apply kahn_inv_bound in Hinv. cbn in Hinv. lia. }
  cbn [Graph.kahn]. pose proof (kahn_inv_step _ _ _ _ _ _ Hadj Hinv) as Hstep.
  destruct (foldl _ _ _) as [in_degree' queue']. apply IH; [|done]. rewrite length_app. cbn. lia.
Qed.

(** With an empty queue every node has been ordered: the least one missing
    would have all its inputs ordered. *)
Lemma kahn_inv_complete nodes in_degree order :
  nodes_wf nodes → kahn_inv nodes in_degree [] order → ∀ v, v < length nodes → v ∈ order.
Proof.
  intros Hwf [_ Hdeg _ Hready _] v. rewrite app_nil_r in Hready.
  induction v as [v IH] using lt_wf_ind. intros Hv. apply Hready. split; [done|].
  rewrite Hdeg. apply pending_zero, Forall_forall. intros u Hu.
  apply inputs_of_lt in Hu as [? ?]; [|done]. apply IH; lia.
Qed.

(** Kahn's algorithm on a well-formed graph: every node exactly once, and
    its inputs before it. *)
Lemma compute_topo_order_spec nodes :
  nodes_wf nodes →
  Graph.compute_topo_order nodes ≡ₚ seq 0 (length nodes) ∧ ordered nodes (Graph.compute_topo_order nodes).
Proof.
  intros Hwf. unfold Graph.compute_topo_order. pose proof (edges_spec nodes Hwf) as Hedges.
  destruct (Graph.edges nodes) as [adj in_degree]. destruct Hedges as (Hlen & Hadj & Hdeg).
  set (queue := List.filter _ _).
  assert (queue = filter (λ i, in_degree !! i = Some 0) (seq 0 (length nodes))) as Hqueue.
  { unfold queue. induction (seq 0 (length nodes)) as [|i l IHl]; [done|].
    rewrite filter_cons. cbn. rewrite IHl. case_bool_decide; by case_decide. }
  assert (kahn_inv nodes in_degree queue []) as Hinv.
  { split; [done|intros v; by rewrite pending_nil|rewrite Hqueue; apply NoDup_filter, NoDup_seq| |].
    - intros v. cbn [app]. rewrite Hqueue, list_elem_of_filter, elem_of_seq.
      assert (v < length nodes → in_degree !! v = Some 0 ↔ deg in_degree v = 0) as Hz.
      { rewrite <- Hlen. intros Hv. unfold deg. destruct (lookup_lt_is_Some_2 _ _ Hv) as [y ->].
        cbn. naive_solver. }
      naive_solver lia.
    - intros k v Hk. done. }
  destruct (kahn_run nodes adj (length nodes) in_degree queue [] Hadj) as [in_degree' Hfin]; [cbn; lia|done|].
  split; [|by eapply ki_ordered].
  pose proof (ki_nodup _ _ _ _ Hfin) as Hnd. pose proof (ki_ready _ _ _ _ Hfin) as Hready.
  rewrite app_nil_r in Hnd, Hready.
  apply NoDup_Permutation; [done|apply NoDup_seq|].
  intros v. rewrite elem_of_seq. split; [|].
  - intros Hv. apply Hready in Hv. lia.
  - intros Hv. eapply kahn_inv_complete; [done..|lia].
Qed.
End kahn.

(** ** The graph of a plan *)

(** What [build_node] hands on: a well-formed extension of the nodes it was
    given, with the built node among them. *)
Section built.
Context `{OS : OrdSet}.
Implicit Types (nodes : list Node).

Record extends nodes (id : nat) nodes' : Prop := {
  ex_prefix : nodes `prefix_of` nodes';
  ex_wf : nodes_wf nodes';
  ex_id : id < length nodes';
}.

Lemma push_extends op inputs nodes :
  nodes_wf nodes → Forall (λ u, u < length nodes) inputs →
  extends nodes (Graph.push op inputs nodes).1 (Graph.push op inputs nodes).2.
Proof.
  intros Hwf Hin. split; cbn; [by eexists|by apply nodes_wf_snoc|rewrite length_app; cbn; lia].
Qed.

Lemma extends_trans nodes id nodes' id' nodes'' :
  extends nodes id nodes' → extends nodes' id' nodes'' → extends nodes id' nodes''.
Proof. intros [? _ _] [? ? ?]. split; [by etrans|done..]. Qed.

Lemma extends_push op inputs nodes id nodes' :
  extends nodes id nodes' → Forall (λ u, u < length nodes') inputs →
  extends nodes (Graph.push op inputs nodes').1 (Graph.push op inputs nodes').2.
Proof. intros He Hin. eapply extends_trans; [done|]. apply push_extends; [apply He|done]. Qed.

Lemma push_chain_extends ops nodes id nodes' :
  extends nodes id nodes' →
  extends nodes (Graph.push_chain ops (id, nodes')).1 (Graph.push_chain ops (id, nodes')).2.
Proof.
  unfold Graph.push_chain. revert id nodes'. induction ops as [|op ops IH]; intros id nodes' He; [done|].
  cbn [foldl]. pose proof (extends_push op [id] _ _ _ He) as He'.
  destruct (Graph.push op [id] nodes') as [id' nodes'']. apply IH, He'. constructor; [apply He|constructor].
Qed.

Context {IP : @IndexPlanner OS}.

Lemma build_node_extends plan nodes scan_index :
  nodes_wf nodes →
  extends nodes (Graph.build_node plan nodes scan_index).1.1 (Graph.build_node plan nodes scan_index).1.2.
Proof.
  assert (∀ op (r : nat * list Node * ScanIndex) base, extends base r.1.1 r.1.2 →
    let x := (let '(input_id, nodes, scan_index) := r in
      let '(id, nodes) := Graph.push op [input_id] nodes in (id, nodes, scan_index)) in
    extends base x.1.1 x.1.2) as Hunary.
  { intros op [[i ns] si] base He. apply (extends_push op [i] _ _ _ He). constructor; [apply He|constructor]. }
  assert (∀ op base (r : nat * list Node * ScanIndex) (f : list Node → ScanIndex → nat * list Node * ScanIndex),
    extends base r.1.1 r.1.2 → (∀ ns si, nodes_wf ns → extends ns (f ns si).1.1 (f ns si).1.2) →
    let x := (let '(l, nodes, scan_index) := r in
      let '(r, nodes, scan_index) := f nodes scan_index in
      let '(id, nodes) := Graph.push op [l; r] nodes in (id, nodes, scan_index)) in
    extends base x.1.1 x.1.2) as Hbinary.
  { intros op base [[l ns] si] f He Hf. specialize (Hf ns si (ex_wf _ _ _ He)).
    cbn [fst snd] in *. destruct (f ns si) as [[r ns'] si']. cbn [fst snd] in *.
    pose proof (prefix_length _ _ (ex_prefix _ _ _ Hf)). pose proof (ex_id _ _ _ He). pose proof (ex_id _ _ _ Hf).
    apply (extends_push op [l; r] _ r _ (extends_trans _ _ _ _ _ He Hf)).
    repeat constructor; lia. }
  assert (∀ source table (ops : list AnyOperator) base si, nodes_wf base →
    let x := (let '(id, nodes, scan_index) := Graph.push_source source table base si in
      let '(id, nodes) := Graph.push_chain ops (id, nodes) in (id, nodes, scan_index)) in
    extends base x.1.1 x.1.2) as Hchain.
  { intros source table ops base si Hwf. unfold Graph.push_source.
    pose proof (push_extends source [] base Hwf ltac:(constructor)) as He.
    destruct (Graph.push source [] base) as [id ns]. apply (push_chain_extends ops) in He.
    cbn [fst snd] in *. by destruct (Graph.push_chain ops (id, ns)). }
  revert nodes scan_index.
  induction plan; intros nodes scan_index Hwf; cbn [Graph.build_node]; cbv zeta;
    try (apply Hunary, IHplan, Hwf); try (apply (Hbinary _ _ _ (Graph.build_node plan2)); [by apply IHplan1|done]).
  - by apply (push_extends (OScan (MkScan table)) [] nodes Hwf).
  - destruct (filter_chain _) as [[ps t]|]; [|by apply Hunary, IHplan].
    destruct (planner_scan _ _); [by apply Hchain|by apply Hunary, IHplan].
  - destruct (window_shape _) as [[[projs ps] t]|]; [|by apply Hunary, IHplan].
    destruct (planner_window _ _ _ _ _); [by apply Hchain|by apply Hunary, IHplan].
Qed.

Lemma from_plan_with_wf plan :
  nodes_wf (g_nodes (Graph.from_plan_with plan)) ∧
  g_output_node (Graph.from_plan_with plan) < length (g_nodes (Graph.from_plan_with plan)) ∧
  g_topo_order (Graph.from_plan_with plan) = Graph.compute_topo_order (g_nodes (Graph.from_plan_with plan)).
Proof.
  unfold Graph.from_plan_with.
  pose proof (build_node_extends plan [] ∅ ltac:(intros i node [=])) as He.
  destruct (Graph.build_node plan [] ∅) as [[out nodes] si]. cbn in *. by destruct He.
Qed.

(** C13: Whatever the plan and whatever sources the planner puts in, the
    graph's execution order holds every node exactly once, every node comes
    after all of its inputs, and the output is one of the nodes. *)
Theorem topo_order_correct plan :
  let g := Graph.from_plan_with plan in
  g_topo_order g ≡ₚ seq 0 (Graph.node_count g) ∧
  ordered (g_nodes g) (g_topo_order g) ∧
  g_output_node g ∈ g_topo_order g.
Proof.
  intros g. destruct (from_plan_with_wf plan) as (Hwf & Hout & Htopo). fold g in Hwf, Hout, Htopo.
  rewrite Htopo. destruct (compute_topo_order_spec _ Hwf) as [Hperm Hord]. split_and!; [done..|].
  rewrite Hperm, elem_of_seq. lia.
Qed.
End built.
