(* ===== verification/Exec.v ===== *)
(** * Executing a graph

    Models the loops of [packages/ssp/src/circuit/circuit.rs] that run the
    nodes of a graph in topological order: [prime_graph], and the two passes
    of [step_query] that come before the view is touched (the injection of
    join-input differences for content updates, and the delta pass).

    [None] is a panic of the code (an index out of range, an input that has
    not been computed). The membership of a collection is a cache that
    [Collection::membership] fills on first use; it is read here by value. The
    second part proves what the loop computes. *)

From S2P Require Import Prelude Platform Float64 Value ValueRef ZSet SortKey Index Store Plan Operator Filter.
From S2P Require Import LinearOps Join Witness TopK Graph GraphFacts.
Local Open Scope Z_scope.

Abbreviation Outputs := (list (option ZSet)).

Section exec.
Context `{Hashing} `{OrdSet}.
Implicit Types (store : Store) (params : option Sp00kyValue).

Definition with_operator (node : Node) (op : AnyOperator) : Node :=
  MkNode _ (node_id node) op (node_inputs node).
Definition with_nodes (g : Graph) (nodes : list Node) : Graph :=
  MkGraph _ nodes (g_topo_order g) (g_scan_index g) (g_output_node g).

(** [input_ids.iter().map(|&i| node_outputs[i].as_ref().unwrap()).collect()]. *)
Definition gather (outputs : Outputs) (ids : list NodeId) : option (list ZSet) :=
  mapM (λ id, mjoin (outputs !! id)) ids.

(** One round of the loop over the topological order: [feed] says what the
    operator is stepped with. *)
Definition run_node (feed : Node → Outputs → option (list ZSet)) store params
    (state : list Node * Outputs) (id : NodeId) : option (list Node * Outputs) :=
  let '(nodes, outputs) := state in
  let? node := nodes !! id in
  let? inputs := feed node outputs in
  let '(output, op) := step (node_operator node) inputs store params in
  Some (<[id := with_operator node op]> nodes, <[id := Some output]> outputs).

Definition run_nodes (feed : Node → Outputs → option (list ZSet)) store params
    (order : list NodeId) (state : list Node * Outputs) : option (list Node * Outputs) :=
  try_fold (run_node feed store params) state order.

(** A source starts from what it reads, any other node from its inputs. *)
Definition prime_feed store params (node : Node) (outputs : Outputs) : option (list ZSet) :=
  if bool_decide (arity (node_operator node) = 0%nat) then
    match initial_input (node_operator node) store params with
    | Some start => Some [start]
    | None => Some [match head (op_collections (node_operator node)) with
                    | Some t => ScanOp.table_membership store t
                    | None => ∅
                    end]
    end
  else gather outputs (node_inputs node).

Definition prime_graph (g : Graph) store params : option (option ZSet * Graph) :=
  let? (nodes, outputs) := run_nodes (prime_feed store params) store params (g_topo_order g)
    (g_nodes g, replicate (Graph.node_count g) None) in
  let? output := outputs !! g_output_node g in
  Some (output, with_nodes g nodes).

(** *** The delta pass of a step *)

Abbreviation Injected := (gmap nat (list ZSet)).

(** A source is fed its table's delta, a join with injected differences its
    inputs extended by them, any other node its inputs. *)
Definition step_feed (table_deltas : gmap string ZSet) (injected : Injected)
    (node : Node) (outputs : Outputs) : option (list ZSet) :=
  if bool_decide (arity (node_operator node) = 0%nat) then
    let? table_name := head (op_collections (node_operator node)) in
    Some [default ∅ (table_deltas !! table_name)]
  else
    match injected !! node_id node with
    | Some extra =>
        Some (zip_with (λ input_id extra, default ∅ (mjoin (outputs !! input_id)) ∪ extra)
          (node_inputs node) extra)
    | None => gather outputs (node_inputs node)
    end.

Definition step_nodes (g : Graph) (table_deltas : gmap string ZSet) (injected : Injected)
    store params : option (list Node * Outputs) :=
  run_nodes (step_feed table_deltas injected) store params (g_topo_order g)
    (g_nodes g, replicate (Graph.node_count g) None).

(** *** Content updates *)

(** [content_updates.values().flatten()], in the map's order. *)
Definition updated_keys (content_updates : gmap string (list RowKey)) : list RowKey :=
  (map_to_list content_updates).*2 ≫= id.

Definition note_all (keys : list RowKey) (g : Graph) : Graph :=
  with_nodes g (map (λ node, with_operator node (note_content_updates (node_operator node) keys)) (g_nodes g)).

Definition input_evals (evals : list bool) (node : Node) : list bool :=
  map (λ i, default false (evals !! i)) (node_inputs node).

(** Whether the row of a key passes a node, from whether it passes its inputs. *)
Definition eval_node (g : Graph) store params (key : RowKey) (evals : list bool) (id : NodeId)
    : option (list bool) :=
  let? node := g_nodes g !! id in
  Some (<[id := evaluate_key (node_operator node) key (input_evals evals node) store params]> evals).

(** One port of a node: the difference between what passes now and what the join holds. *)
Definition inject_port (node : Node) (key : RowKey) (ports_count : nat) (injected : Injected)
    (p : nat * bool) : Injected :=
  let '(port, now) := p in
  match integrated_input_weight (node_operator node) port key with
  | None => injected
  | Some held =>
      if eqb now (0 <? held) then injected
      else
        let ports := default (replicate ports_count ∅) (injected !! node_id node) in
        <[node_id node := alter (λ z : ZSet, <[key := if now then 1 else i64_neg held]> z) port ports]> injected
  end.

Definition inject_node (g : Graph) store params (key : RowKey) (state : list bool * Injected)
    (id : NodeId) : option (list bool * Injected) :=
  let '(evals, injected) := state in
  let? node := g_nodes g !! id in
  let nows := input_evals evals node in
  let injected := foldl (inject_port node key (length nows)) injected
    (imap (λ port now, (port, now)) nows) in
  let? evals := eval_node g store params key evals id in
  Some (evals, injected).

Definition inject_key (g : Graph) store params (injected : Injected) (key : RowKey) : option Injected :=
  let? (_, injected) := try_fold (inject_node g store params key)
    (replicate (Graph.node_count g) false, injected) (g_topo_order g) in
  Some injected.

Definition inject (g : Graph) store params (content_updates : gmap string (list RowKey)) : option Injected :=
  try_fold (inject_key g store params) ∅ (updated_keys content_updates).
End exec.

(** * The loop over the nodes, run in topological order

    A run never panics, visits every node once, and feeds each node the final
    outputs of its inputs: its result is a solution of the nodes' equations
    ([run_nodes_spec]), whatever order the topological sort chose. *)

Local Open Scope nat_scope.

Section run.
Context `{Hashing} `{OrdSet}.
Implicit Types (nodes : list Node) (outputs : Outputs) (store : Store) (params : option Sp00kyValue).

(** [feed] reads the outputs at the node's inputs only, and needs no more than they be there. *)
Definition feed_local (feed : Node → Outputs → option (list ZSet)) nodes : Prop :=
  ∀ i node outputs outputs', nodes !! i = Some node →
    (∀ u, u ∈ node_inputs node → outputs !! u = outputs' !! u) →
    feed node outputs = feed node outputs'.

Definition feed_total (feed : Node → Outputs → option (list ZSet)) nodes : Prop :=
  ∀ i node outputs, nodes !! i = Some node →
    (∀ u, u ∈ node_inputs node → is_Some (mjoin (outputs !! u))) →
    is_Some (feed node outputs).

(** What a node's entry is when the loop has passed it. *)
Definition solved (feed : Node → Outputs → option (list ZSet)) store params nodes
    (state : list Node * Outputs) (i : nat) : Prop :=
  ∀ node, nodes !! i = Some node → ∃ inputs,
    feed node state.2 = Some inputs ∧
    state.1 !! i = Some (with_operator node (step (node_operator node) inputs store params).2) ∧
    state.2 !! i = Some (Some (step (node_operator node) inputs store params).1).

Lemma inputs_of_node nodes i node : nodes !! i = Some node → inputs_of nodes i = node_inputs node.
Proof. intros Hi. unfold inputs_of. by rewrite Hi. Qed.

(** The state after the nodes of [done]: these are solved, the others untouched. *)
Record run_inv feed store params nodes (done : list nat) (state : list Node * Outputs) : Prop := {
  ri_length : length state.2 = length nodes;
  ri_done : ∀ i, i ∈ done → solved feed store params nodes state i;
  ri_todo : ∀ i, i ∉ done → state.1 !! i = nodes !! i;
}.

Lemma run_node_inv feed store params nodes done state id :
  nodes_wf nodes → feed_local feed nodes → feed_total feed nodes →
  (∀ i, i ∈ done → i < length nodes ∧ Forall (.∈ done) (inputs_of nodes i)) →
  run_inv feed store params nodes done state →
  id < length nodes → id ∉ done → Forall (.∈ done) (inputs_of nodes id) →
  ∃ state', run_node feed store params state id = Some state' ∧
    run_inv feed store params nodes (done ++ [id]) state'.
Proof.
  intros Hwf Hlocal Htotal Hclosed [Hlen Hdone Htodo] Hid Hnew Hin.
  destruct state as [cur outputs]. cbn [fst snd] in *.
  destruct (lookup_lt_is_Some_2 nodes id Hid) as [node Hnode].
  pose proof (inputs_of_node _ _ _ Hnode) as Hinp. rewrite Hinp in Hin. rewrite Forall_forall in Hin.
  assert (is_Some (feed node outputs)) as [inputs Hfeed].
  { eapply Htotal; [done|]. intros u Hu. specialize (Hin u Hu).
    destruct (Hclosed u Hin) as [Hult _]. destruct (lookup_lt_is_Some_2 nodes u Hult) as [nu Hnu].
    destruct (Hdone u Hin nu Hnu) as (? & _ & _ & Hout). cbn in Hout. rewrite Hout. eauto. }
  assert (cur !! id = Some node) as Hcur by (rewrite Htodo; done).
  unfold run_node. rewrite Hcur, Hfeed. destruct (step _ _ _ _) as [out op] eqn:Estep.
  eexists. split; [done|].
  assert (∀ u, u ≠ id → <[id := Some out]> outputs !! u = outputs !! u) as Hother
    by (intros u Hu; by rewrite list_lookup_insert_ne).
  split; cbn [fst snd].
  - by rewrite length_insert.
  - intros i Hi n Hn. cbn [fst snd]. apply elem_of_app in Hi as [Hi|Hi%list_elem_of_singleton].
    + destruct (Hdone i Hi n Hn) as (ins & Hf & Hop & Hout). cbn [fst snd] in *.
      assert (i ≠ id) by congruence. exists ins.
      rewrite !list_lookup_insert_ne by done. split_and!; [|done..].
      rewrite <- Hf. eapply Hlocal; [done|]. intros u Hu. apply Hother.
      destruct (Hclosed i Hi) as [_ Hc]. rewrite (inputs_of_node _ _ _ Hn), Forall_forall in Hc.
      intros ->. by apply Hnew, Hc.
    + subst i. rewrite Hnode in Hn. injection Hn as <-. exists inputs. rewrite Estep. cbn [fst snd].
      rewrite !list_lookup_insert_eq by (rewrite ?Hlen; try done; by eapply lookup_lt_Some).
      split_and!; [|done..].
      rewrite <- Hfeed. eapply Hlocal; [done|]. intros u Hu. apply Hother. intros ->. by apply Hnew, Hin.
  - intros i Hi. rewrite not_elem_of_app, not_elem_of_cons in Hi.
    rewrite list_lookup_insert_ne by (intros <-; tauto). apply Htodo. tauto.
Qed.

Lemma run_nodes_inv feed store params nodes order rest done state :
  nodes_wf nodes → feed_local feed nodes → feed_total feed nodes →
  order = done ++ rest → NoDup order → (∀ i, i ∈ order → i < length nodes) → ordered nodes order →
  run_inv feed store params nodes done state →
  ∃ state', run_nodes feed store params rest state = Some state' ∧
    run_inv feed store params nodes order state'.
Proof.
  intros Hwf Hlocal Htotal Horder Hnd Hlt Hord. revert done state Horder.
  induction rest as [|id rest IH]; intros done state Horder Hinv.
  { rewrite app_nil_r in Horder. subst. by exists state. }
  assert (∀ k v, done !! k = Some v → Forall (.∈ done) (inputs_of nodes v)) as Hclosed.
  { intros k v Hk. specialize (Hord k v). rewrite Horder, lookup_app_l in Hord
      by (by eapply lookup_lt_Some). specialize (Hord Hk).
    rewrite take_app_le in Hord by (apply lookup_lt_Some in Hk; lia).
    eapply Forall_impl; [done|]. intros u Hu. by eapply elem_of_take in Hu as (? & ?%list_elem_of_lookup_2 & _). }
  destruct (run_node_inv feed store params nodes done state id) as (state' & Hrun & Hinv'); try done.
  - intros i Hi. split; [apply Hlt; set_solver|]. apply list_elem_of_lookup in Hi as [k Hk]. eauto.
  - apply Hlt. set_solver.
  - subst. apply NoDup_app in Hnd as (_ & Hd & _). intros ?. eapply Hd; [done|left].
  - specialize (Hord (length done) id). rewrite Horder, lookup_app_r, Nat.sub_diag in Hord by lia.
    rewrite take_app_length in Hord. by apply Hord.
  - unfold run_nodes. cbn [try_fold]. rewrite Hrun. apply (IH (done ++ [id])); [|done].
    by rewrite <- app_assoc.
Qed.

(** A source names the table it reads: [collections()[0]] is there. *)
Definition named (op : AnyOperator) : Prop := arity op = 0 → op_collections op ≠ [].

Definition nodes_all (P : AnyOperator → Prop) nodes : Prop := ∀ i node, nodes !! i = Some node → P (node_operator node).

Lemma named_step op inputs store params : named op → named (step op inputs store params).2.
Proof.
  unfold named. by destruct op.
Qed.

(** Nodes that [order] can run: numbered by position, inputs first. *)
Record runnable nodes (order : list nat) : Prop := {
  rn_wf : nodes_wf nodes;
  rn_perm : order ≡ₚ seq 0 (length nodes);
  rn_ordered : ordered nodes order;
  rn_named : nodes_all named nodes;
}.

Lemma compute_topo_order_runnable nodes : nodes_wf nodes → nodes_all named nodes →
  runnable nodes (Graph.compute_topo_order nodes).
Proof. intros Hwf Hn. destruct (compute_topo_order_spec nodes Hwf). by split. Qed.

(** A run changes the operators' states only. *)
Lemma solved_runnable feed store params nodes nodes' outputs order :
  runnable nodes order → length nodes' = length nodes →
  (∀ i, i < length nodes → solved feed store params nodes (nodes', outputs) i) → runnable nodes' order.
Proof.
  intros [Hwf Hperm Hord Hnamed] Hlen Hsolved.
  assert (∀ i node', nodes' !! i = Some node' → ∃ node, nodes !! i = Some node ∧ node_id node' = node_id node ∧
    node_inputs node' = node_inputs node ∧ named (node_operator node')) as Hnode.
  { intros i node' Hi. destruct (lookup_lt_is_Some_2 nodes i) as [n Hn]; [rewrite <- Hlen; by eapply lookup_lt_Some|].
    destruct (Hsolved i ltac:(by eapply lookup_lt_Some) n Hn) as (inputs & _ & Hop & _). cbn in Hop.
    rewrite Hi in Hop. injection Hop as ->. exists n. split_and!; [done..|]. by eapply named_step, Hnamed. }
  split; [|by rewrite Hlen| |by intros i node' (_ & _ & _ & _ & ?)%Hnode].
  - intros i node' Hi. destruct (Hnode i node' Hi) as (n & Hn & -> & -> & _). by apply Hwf.
  - intros k v Hk. specialize (Hord k v Hk). unfold inputs_of in *.
    destruct (nodes' !! v) as [node'|] eqn:Hv; cbn; [|constructor].
    destruct (Hnode v node' Hv) as (n & Hn & _ & Hi & _). rewrite Hn in Hord. cbn in Hord. by rewrite Hi.
Qed.

(** The whole run. *)
Lemma run_nodes_spec feed store params nodes order :
  runnable nodes order → feed_local feed nodes → feed_total feed nodes →
  ∃ nodes' outputs,
    run_nodes feed store params order (nodes, replicate (length nodes) None) = Some (nodes', outputs) ∧
    length nodes' = length nodes ∧ length outputs = length nodes ∧ runnable nodes' order ∧
    ∀ i, i < length nodes → solved feed store params nodes (nodes', outputs) i.
Proof.
  intros Hrn Hlocal Htotal. pose proof Hrn as [Hwf Hperm Hord _].
  destruct (run_nodes_inv feed store params nodes order order [] (nodes, replicate (length nodes) None))
    as ([nodes' outputs] & Hrun & Hinv); try done.
  - rewrite Hperm. apply NoDup_seq.
  - intros i Hi. rewrite Hperm, elem_of_seq in Hi. lia.
  - split; cbn [fst snd]; [by rewrite length_replicate|set_solver|done].
  - exists nodes', outputs. split; [done|]. destruct Hinv as [Hlen Hdone Htodo]. cbn [fst snd] in *.
    assert (∀ i, i < length nodes → i ∈ order) as Hall.
    { intros i Hi. rewrite Hperm, elem_of_seq. lia. }
    assert (∀ i, i < length nodes → solved feed store params nodes (nodes', outputs) i) as Hsolved
      by (intros i Hi; apply Hdone, Hall, Hi).
    assert (length nodes' = length nodes) as Hlen'.
    { apply (anti_symm (≤)); apply Nat.nlt_ge; intros Hlt.
      - destruct (lookup_lt_is_Some_2 nodes' _ Hlt) as [n Hn].
        rewrite Htodo in Hn by (rewrite Hperm, elem_of_seq; lia). apply lookup_lt_Some in Hn. lia.
      - destruct (lookup_lt_is_Some_2 nodes _ Hlt) as [n Hn].
        destruct (Hsolved _ Hlt n Hn) as (? & _ & Hs & _). cbn in Hs. apply lookup_lt_Some in Hs. lia. }
    split_and!; [done..| |done]. by eapply solved_runnable.
Qed.
End run.
