(* ===== verification/Denote.v ===== *)
(** * What a plan means

    [denote] evaluates a plan over a store, operator by operator, with each
    operator's snapshot: the query's answer with no incremental state at all.
    The graph a plan is built into has one node per sub-plan ([built]), and a
    node keeps its sub-plan's operator whatever it is stepped with. *)

From S2P Require Import Prelude Platform Float64 Value ValueRef ZSet SortKey Index Store Operator Plan Filter LinearOps Join Witness TopK Graph GraphFacts.
Local Open Scope Z_scope.

Section denote.
Context `{Hashing} `{OrdSet}.
Implicit Types (store : Store) (params : option Sp00kyValue) (plan : OperatorPlan).

(** The operator of a plan's root, as it is built. *)
Definition fresh plan : AnyOperator :=
  match plan with
  | OpScan table => OScan (MkScan table)
  | OpFilter _ predicate => OFilter (MkFilter predicate)
  | OpJoin _ _ on => OJoin (JoinOp.new on)
  | OpSemiJoin _ _ on => OSemiJoin (SemiJoinOp.new on)
  | OpAntiJoin _ _ on => OAntiJoin (AntiJoinOp.new on)
  | OpUnion _ _ => OUnion MkUnion
  | OpDistinct _ => ODistinct DistinctOp.new
  | OpProject _ projections => OMap (MkMap projections)
  | OpLimit _ limit start order_by => OTopK (TopKOp.new limit start order_by)
  end.

Definition children plan : list OperatorPlan :=
  match plan with
  | OpScan _ => []
  | OpFilter i _ | OpDistinct i | OpProject i _ | OpLimit i _ _ _ => [i]
  | OpJoin l r _ | OpSemiJoin l r _ | OpAntiJoin l r _ | OpUnion l r => [l; r]
  end.

Fixpoint denote plan store params : ZSet :=
  match plan with
  | OpScan _ => snapshot (fresh plan) [] store params
  | OpFilter i _ | OpDistinct i | OpProject i _ | OpLimit i _ _ _ =>
      snapshot (fresh plan) [denote i store params] store params
  | OpJoin l r _ | OpSemiJoin l r _ | OpAntiJoin l r _ | OpUnion l r =>
      snapshot (fresh plan) [denote l store params; denote r store params] store params
  end.

Lemma denote_eq plan store params :
  denote plan store params =
    snapshot (fresh plan) (map (λ p, denote p store params) (children plan)) store params.
Proof. by destruct plan. Qed.

(** The operator [op] is the one of [plan]'s root, in some state. *)
Definition implements plan (op : AnyOperator) : Prop :=
  match plan, op with
  | OpScan table, OScan op => scan_table op = table
  | OpFilter _ predicate, OFilter op => op = MkFilter predicate
  | OpJoin _ _ on, OJoin op => join_on op = on
  | OpSemiJoin _ _ on, OSemiJoin op => semi_on op = on
  | OpAntiJoin _ _ on, OAntiJoin op => anti_on op = on
  | OpUnion _ _, OUnion _ => True
  | OpDistinct _, ODistinct _ => True
  | OpProject _ projections, OMap op => op = MkMap projections
  | OpLimit _ limit start order_by, OTopK op =>
      tk_limit op = limit ∧ tk_offset op = start ∧ tk_order_by op = order_by ∧
      tk_capacity op = tk_capacity (TopKOp.new limit start order_by)
  | _, _ => False
  end.

Lemma implements_fresh plan : implements plan (fresh plan).
Proof. by destruct plan. Qed.

Lemma visit_loop_params store l tk :
  let tk' := foldl (TopKOp.visit store) tk l in
  tk_limit tk' = tk_limit tk ∧ tk_offset tk' = tk_offset tk ∧ tk_order_by tk' = tk_order_by tk ∧
  tk_capacity tk' = tk_capacity tk.
Proof.
  revert tk. induction l as [|[k w] l IH]; intros tk; [done|]. cbn [foldl]. cbv zeta.
  destruct (IH (TopKOp.visit store tk (k, w))) as (-> & -> & -> & ->).
  unfold TopKOp.visit, TopKOp.with_state. repeat case_match; done.
Qed.

Lemma implements_step plan op inputs store params :
  implements plan op → implements plan (step op inputs store params).2.
Proof.
  destruct plan, op; try done; cbn -[TopKOp.step].
  - unfold SemiJoinOp.step. by destruct (WitnessState.step _ _ _ _ _).
  - unfold AntiJoinOp.step. by destruct (WitnessState.step _ _ _ _ _).
  - unfold TopKOp.step. cbn [snd].
    pose proof (visit_loop_params store (map_to_list (input inputs 0)) op) as (-> & -> & -> & ->). done.
Qed.

(** A snapshot does not look at the state. *)
Lemma implements_snapshot plan op inputs store params :
  implements plan op → snapshot op inputs store params = snapshot (fresh plan) inputs store params.
Proof.
  destruct plan, op; try done; cbn; unfold ScanOp.snapshot, JoinOp.snapshot, SemiJoinOp.snapshot,
    AntiJoinOp.snapshot, TopKOp.snapshot; cbn; try congruence.
  intros (-> & -> & -> & _). done.
Qed.

Lemma implements_arity plan op : implements plan op → arity op = length (children plan).
Proof. by destruct plan, op. Qed.

(** *** One node per sub-plan *)

Inductive built (P : OperatorPlan → AnyOperator → Prop) (nodes : list Node) : OperatorPlan → nat → Prop :=
  | built_leaf plan id op : children plan = [] →
      nodes !! id = Some (MkNode _ id op []) → P plan op → built P nodes plan id
  | built_unary plan id op c i : children plan = [c] →
      nodes !! id = Some (MkNode _ id op [i]) → P plan op →
      built P nodes c i → built P nodes plan id
  | built_binary plan id op c d i j : children plan = [c; d] →
      nodes !! id = Some (MkNode _ id op [i; j]) → P plan op →
      built P nodes c i → built P nodes d j → built P nodes plan id.

Lemma built_prefix P nodes nodes' plan id :
  nodes `prefix_of` nodes' → built P nodes plan id → built P nodes' plan id.
Proof.
  intros Hp. induction 1;
    [eapply built_leaf|eapply built_unary|eapply built_binary]; try done; by eapply prefix_lookup_Some.
Qed.

(** The graph as [build_node] leaves it: every operator fresh. *)
Definition as_built : list Node → OperatorPlan → nat → Prop := built (λ plan op, op = fresh plan).

Lemma build_node_built plan nodes scan_index :
  let r := @Graph.build_node _ NoIndexes plan nodes scan_index in
  nodes `prefix_of` r.1.2 ∧ as_built r.1.2 plan r.1.1.
Proof.
  assert (∀ plan c (r : nat * list Node * ScanIndex) base, children plan = [c] →
    base `prefix_of` r.1.2 ∧ as_built r.1.2 c r.1.1 →
    let x := (let '(input_id, nodes, scan_index) := r in
      let '(id, nodes) := Graph.push (fresh plan) [input_id] nodes in (id, nodes, scan_index)) in
    base `prefix_of` x.1.2 ∧ as_built x.1.2 plan x.1.1) as Hunary.
  { intros p c [[i ns] si] base Hc [Hpre Hb]. cbn in *. split; [by apply prefix_app_r|].
    eapply built_unary; [done|by apply list_lookup_middle|done|].
    eapply built_prefix; [|done]. by eexists. }
  assert (∀ plan c d (r : nat * list Node * ScanIndex) base
      (f : list Node → ScanIndex → nat * list Node * ScanIndex), children plan = [c; d] →
    base `prefix_of` r.1.2 ∧ as_built r.1.2 c r.1.1 →
    (∀ ns si, ns `prefix_of` (f ns si).1.2 ∧ as_built (f ns si).1.2 d (f ns si).1.1) →
    let x := (let '(l, nodes, scan_index) := r in
      let '(r, nodes, scan_index) := f nodes scan_index in
      let '(id, nodes) := Graph.push (fresh plan) [l; r] nodes in (id, nodes, scan_index)) in
    base `prefix_of` x.1.2 ∧ as_built x.1.2 plan x.1.1) as Hbinary.
  { intros p c d [[l ns] si] base f Hc [Hpre Hb] Hf. specialize (Hf ns si). cbn [fst snd] in *.
    destruct (f ns si) as [[r ns'] si']. cbn in *. destruct Hf as [Hpre' Hb'].
    split; [apply prefix_app_r; by etrans|].
    eapply built_binary; [done|by apply list_lookup_middle|done|..].
    - eapply built_prefix; [|done]. by apply prefix_app_r.
    - eapply built_prefix; [|done]. by eexists. }
  revert nodes scan_index. induction plan; intros nodes scan_index; cbn [Graph.build_node]; cbv zeta;
    try (by eapply (Hunary (OpDistinct plan))); try (by eapply (Hunary (OpProject plan projections)));
    try (by eapply (Hbinary (OpJoin plan1 plan2 on) plan1 plan2 _ _ (@Graph.build_node _ NoIndexes plan2)));
    try (by eapply (Hbinary (OpSemiJoin plan1 plan2 on) plan1 plan2 _ _ (@Graph.build_node _ NoIndexes plan2)));
    try (by eapply (Hbinary (OpAntiJoin plan1 plan2 on) plan1 plan2 _ _ (@Graph.build_node _ NoIndexes plan2)));
    try (by eapply (Hbinary (OpUnion plan1 plan2) plan1 plan2 _ _ (@Graph.build_node _ NoIndexes plan2))).
  - cbn. split; [by eexists|]. eapply built_leaf; [done|by apply list_lookup_middle|done].
  - replace (let? (predicates, table) := filter_chain (OpFilter plan predicate) in _) with
      (@None (list Predicate * string * AnyOperator)) by (by destruct (filter_chain _) as [[]|]).
    by eapply (Hunary (OpFilter plan predicate)).
  - replace (let? (projections, predicates, table) := window_shape plan in _) with
      (@None (list (list Projection) * string * AnyOperator)) by (by destruct (window_shape _) as [[[]]|]).
    by eapply (Hunary (OpLimit plan limit start order_by)).
Qed.

Lemma from_plan_built plan :
  as_built (g_nodes (Graph.from_plan plan)) plan (g_output_node (Graph.from_plan plan)).
Proof.
  unfold Graph.from_plan, Graph.from_plan_with. pose proof (build_node_built plan [] ∅) as [_ Hb].
  destruct (Graph.build_node plan [] ∅) as [[out nodes] si]. exact Hb.
Qed.
End denote.
