(* ===== verification/Support.v ===== *)
(** * Where a plan's answer can have weight

    For the plans the engine maintains incrementally, every record of every
    intermediate answer is a live row of the store, weights stay well formed,
    and the inputs a window reads hold each record at most once. *)

From S2P Require Import Prelude Platform Float64 Value ValueRef ZSet SortKey Index Store StoreFacts Operator Plan.
From S2P Require Import Filter LinearOps Join Witness WitnessFacts TopK Window Graph GraphFacts Denote.
Local Open Scope Z_scope.

(** Plans whose answers are sets: no record weighs more than one. *)
Fixpoint presence_plan (plan : OperatorPlan) : bool :=
  match plan with
  | OpScan _ | OpSemiJoin _ _ _ | OpAntiJoin _ _ _ | OpDistinct _ | OpLimit _ _ _ _ => true
  | OpFilter i _ | OpProject i _ => presence_plan i
  | OpJoin _ _ _ | OpUnion _ _ => false
  end.

(** The plans covered: everything but [Join]; windows over sets of rows, with
    an end inside the machine word. *)
Fixpoint maintainable (plan : OperatorPlan) : bool :=
  match plan with
  | OpScan _ => true
  | OpFilter i _ | OpDistinct i | OpProject i _ => maintainable i
  | OpUnion l r | OpSemiJoin l r _ | OpAntiJoin l r _ => maintainable l && maintainable r
  | OpLimit i limit start _ =>
      maintainable i && presence_plan i && (0 <=? limit) && (0 <=? start) && (start + limit <? two64)
  | OpJoin _ _ _ => false
  end.

(** Names that row keys can be split by: tables hold no colon, ids do not
    start with their own table's name and a colon. *)
Definition plain_table (t : string) : Prop := contains_char colon t = false.
Definition plain_id (t id : string) : Prop := strip_prefix (t +:+ ":") id = None.

Section support.
Context `{HashingLaws} `{OrdSetLaws}.
Implicit Types (store : Store) (params : option Sp00kyValue) (plan : OperatorPlan) (z : ZSet).

(** The key of a stored row. *)
Definition live store (k : RowKey) : Prop :=
  ∃ t c id, collections store !! t = Some c ∧ k = row_key t id ∧ is_Some (c_rows c !! id).

Definition supported store z : Prop := ∀ k, weight z k ≠ 0 → live store k.

Definition at_most_one z : Prop := ∀ k, weight z k = 0 ∨ weight z k = 1.

Record table_ok (t : string) (c : Collection) : Prop := {
  to_plain : plain_table t;
  to_name : c_name c = t;
  to_inv : coll_inv c;
  to_ids : ∀ id, is_Some (c_rows c !! id) → plain_id t id;
}.

(** The keys of all rows. *)
Definition row_keys store : gset string :=
  ⋃ ((λ e : string * Collection, (set_map (row_key e.1) (dom (c_rows e.2)) : gset string)) <$> map_to_list (collections store)).

(** Collections in order, and fewer rows than a signed machine word counts. *)
Record store_ok store : Prop := {
  so_tables : map_Forall table_ok (collections store);
  so_small : Z.of_nat (size (row_keys store)) < two63;
}.

Lemma elem_of_row_keys store k : k ∈ row_keys store ↔ live store k.
Proof.
  unfold row_keys. rewrite elem_of_union_list. split.
  - intros (s & (e & -> & He)%list_elem_of_fmap & Hk). destruct e as [t c]. apply elem_of_map_to_list in He.
    apply elem_of_map in Hk as (id & -> & Hid%elem_of_dom). by exists t, c, id.
  - intros (t & c & id & Hc & -> & Hid). exists (set_map (row_key t) (dom (c_rows c))). split.
    + apply list_elem_of_fmap. exists (t, c). split; [done|]. by apply elem_of_map_to_list.
    + apply elem_of_map. exists id. split; [done|]. by apply elem_of_dom.
Qed.

Lemma supported_size store z : store_ok store → zset_wf z → supported store z → Z.of_nat (size z) < two63.
Proof.
  intros [_ Hsize] Hz Hs. eapply Z.le_lt_trans; [|exact Hsize].
  rewrite <- (size_dom (D := gset string)). apply inj_le, subseteq_size.
  intros k [w Hk]%elem_of_dom. apply elem_of_row_keys, Hs. rewrite (weight_lookup _ _ _ Hk). by apply (Hz k w).
Qed.

Lemma parse_row_key t id : plain_table t → parse_key (row_key t id) = Some (t, id).
Proof. intros Ht. unfold parse_key, row_key. by apply (split_once_app colon). Qed.

Lemma strip_row_key t id : strip_prefix (t +:+ ":") (row_key t id) = Some id.
Proof.
  assert (row_key t id = ((t +:+ ":") +:+ id)%string) as ->; [|apply strip_prefix_app].
  unfold row_key. induction t as [|a t IH]; [done|]. exact (f_equal (String a) IH).
Qed.

(** A row key reads its row, and nothing when there is none. *)
Lemma get_row_key store t c id : map_Forall table_ok (collections store) → collections store !! t = Some c →
  Store.get_row_by_key store (row_key t id) = rows_get (c_rows c) id.
Proof.
  intros Hs Hc. destruct (Hs t c Hc) as [Ht _ _ Hids]. unfold Store.get_row_by_key.
  rewrite parse_row_key, Hc by done. unfold rows_get at 1 3 4.
  destruct (c_rows c !! id) as [r|] eqn:Er; cbn; [by destruct (sr_value r)|].
  unfold rows_get. destruct (c_rows c !! row_key t id) as [r|] eqn:E; [|done].
  specialize (Hids (row_key t id) ltac:(by eexists)). unfold plain_id in Hids. by rewrite strip_row_key in Hids.
Qed.

Lemma live_present store k : map_Forall table_ok (collections store) → live store k →
  ValueRef.is_missing (Store.get_row_by_key store k) = false.
Proof.
  intros Hs (t & c & id & Hc & -> & r & Hr). rewrite (get_row_key store t c) by done.
  unfold rows_get. rewrite Hr. cbn. by destruct (sr_value r).
Qed.

Lemma live_or_deleted store k : map_Forall table_ok (collections store) → live store k →
  Store.get_row_by_key_or_deleted store k = Store.get_row_by_key store k.
Proof. intros Hs Hl. unfold Store.get_row_by_key_or_deleted. by rewrite live_present. Qed.

Lemma membership_value store t : map_Forall table_ok (collections store) →
  ScanOp.table_membership store t = match collections store !! t with
    | Some c => Collection.build_membership t (c_rows c) | None => ∅ end.
Proof.
  intros Hc. unfold ScanOp.table_membership, Store.get_collection, Collection.membership.
  destruct (collections store !! t) as [c|] eqn:Ec; [|done].
  destruct (Hc t c Ec) as [_ <- Hinv _].
  destruct (c_membership c) as [z|] eqn:Em; [|done]. by apply (ci_membership _ Hinv).
Qed.

Lemma lookup_membership store t k w : map_Forall table_ok (collections store) →
  ScanOp.table_membership store t !! k = Some w ↔
    w = 1 ∧ ∃ c id, collections store !! t = Some c ∧ k = row_key t id ∧ is_Some (c_rows c !! id).
Proof.
  intros Hs. rewrite membership_value by done. destruct (collections store !! t) as [c|].
  - rewrite elem_of_membership. naive_solver.
  - rewrite lookup_empty. naive_solver.
Qed.

(** What every intermediate answer satisfies. *)
Record good store plan z : Prop := {
  gd_wf : zset_wf z;
  gd_support : supported store z;
  gd_set : presence_plan plan = true → at_most_one z;
}.

Lemma good_lookup store plan z :
  (∀ k w, z !! k = Some w → w = 1 ∧ live store k) → good store plan z.
Proof.
  intros Hz. split.
  - intros k w [-> _]%Hz. split; [width_lia|done].
  - intros k Hk. unfold weight in Hk. destruct (z !! k) as [w|] eqn:E; [|done]. by apply (Hz k w).
  - intros _ k. unfold weight. destruct (z !! k) as [w|] eqn:E; [|by left]. apply Hz in E. naive_solver.
Qed.

(** Sort keys of rows can be compared. *)
Lemma row_safe store k : store_ok store → ref_safe (Store.get_row_by_key store k).
Proof.
  intros [Hc _]. unfold Store.get_row_by_key. destruct (parse_key k) as [[t id]|]; [|done].
  destruct (collections store !! t) as [c|] eqn:Ec; [|done]. pose proof (to_inv _ _ (Hc t c Ec)) as Hinv.
  assert (∀ i, ref_safe (rows_get (c_rows c) i)) as Hi.
  { intros i. unfold rows_get. destruct (c_rows c !! i) as [r|] eqn:Er; [|done].
    apply ref_safe_value. by apply (ci_safe _ Hinv i r). }
  by destruct (ValueRef.is_missing _).
Qed.

Lemma sort_key_safe store order_by k : store_ok store →
  entry_ok order_by (TopKOp.compute_sort_key order_by k store, k).
Proof.
  intros Hs. pose proof (row_safe store k Hs) as Hr. unfold entry_ok, TopKOp.compute_sort_key. cbn [fst].
  destruct order_by as [orders|]; cbn [dirs_of].
  - unfold sort_key_ok. induction orders as [|o orders IH]; cbn [map]; [constructor|].
    constructor; [|done]. pose proof (sort_value_ok (resolve_field (Store.get_row_by_key store k) (os_field o))
      (eq_ignore_ascii_case (os_direction o) "DESC") (ref_safe_resolve _ _ Hr)) as [??].
    split; [|done]. by destruct (resolve_field _ _).
  - unfold sort_key_ok. by repeat constructor.
Qed.

(** *** The operators, one by one *)

Lemma good_scan store t : store_ok store → good store (OpScan t) (ScanOp.table_membership store t).
Proof.
  intros [Hs _]. apply good_lookup. intros k w. rewrite lookup_membership by done.
  intros (-> & c & id & Hc & -> & Hid). split; [done|]. by exists t, c, id.
Qed.

Lemma good_filter store plan predicate params z :
  good store plan z → good store (OpFilter plan predicate) (snapshot (MkFilter predicate) [z] store params).
Proof.
  intros [Hwf Hsup Hset]. cbn. unfold FilterOp.snapshot, input. cbn.
  split; [by apply filter_key_wf|..].
  - intros k. rewrite weight_filter_key. destruct (check_predicate_recursive _ _ _ _); [exact (Hsup k)|done].
  - intros Hp k. rewrite weight_filter_key.
    destruct (check_predicate_recursive _ _ _ _); [by apply Hset|by left].
Qed.

Lemma good_union store (l r : OperatorPlan) zl zr params :
  good store l zl → good store r zr → good store (OpUnion l r) (snapshot MkUnion [zl; zr] store params).
Proof.
  intros [Hwl Hsl _] [Hwr Hsr _]. cbn. unfold UnionOp.snapshot, input. cbn.
  assert (zset_wf (ZSet.add ∅ zl)) by (apply add_wf, zset_empty_wf).
  split; [by apply add_wf| |done].
  intros k. rewrite weight_add, weight_add, weight_empty by (done || apply zset_empty_wf). intros Hk.
  destruct (decide (weight zl k = 0)) as [El|El]; [|by apply Hsl].
  destruct (decide (weight zr k = 0)) as [Er|Er]; [|by apply Hsr]. by rewrite El, Er in Hk.
Qed.

Lemma good_distinct store plan op z params :
  good store plan z → good store (OpDistinct plan) (snapshot (Op := Distinct) op [z] store params).
Proof.
  intros [Hwf Hsup _]. cbn. unfold DistinctOp.snapshot, input. cbn. apply good_lookup.
  intros k w Hk. unfold DistinctOp.threshold in Hk. apply lookup_fmap_Some in Hk as (x & <- & Hx).
  apply map_lookup_filter_Some in Hx as [Hx Hpos]. split; [done|]. apply Hsup.
  rewrite (weight_lookup _ _ _ Hx). by apply (Hwf k x).
Qed.

Lemma good_presence_join store (anti : bool) (l r : OperatorPlan) on zl zr :
  good store l zl → good store (if anti then OpAntiJoin l r on else OpSemiJoin l r on)
    (presence_join anti zl zr on store).
Proof.
  intros [Hwl Hsl _].
  assert (∀ k w, presence_join anti zl zr on store !! k = Some w → w = 1 ∧ live store k) as Hk.
  { intros k w Hk. destruct (presence_join_spec anti zl zr on store k) as [[E Hkept]|[E _]];
      rewrite Hk in E; [|done]. injection E as ->. split; [done|]. apply Hsl.
    destruct Hkept as [? _]. lia. }
  destruct anti; by apply good_lookup.
Qed.

Lemma held_ok store order_by z : store_ok store →
  map_Forall (λ k s, entry_ok order_by (s, k)) (held_of order_by store z).
Proof.
  intros Hs k s. rewrite lookup_held_of. destruct (0 <? weight z k); [|done].
  intros [= <-]. by apply sort_key_safe.
Qed.

Lemma elem_of_reference_window limit offset order_by store z k : store_ok store →
  0 <= limit → 0 <= offset →
  k ∈ reference_window limit offset (held_of order_by store z) → 0 < weight z k.
Proof.
  intros Hs Hl Ho Hk. unfold reference_window in Hk. rewrite ztake_spec, zdrop_spec in Hk by done.
  apply list_elem_of_fmap in Hk as ([s k'] & -> & Hin).
  apply elem_of_take in Hin as (i & Hi & _). rewrite lookup_drop in Hi. apply list_elem_of_lookup_2 in Hi.
  destruct (sorted_entries_spec _ _ (held_ok store order_by z Hs)) as (_ & _ & Hel).
  apply Hel in Hi. rewrite lookup_held_of in Hi. cbn. destruct (Z.ltb_spec 0 (weight z k')); done.
Qed.

Lemma good_limit store plan tk z params : store_ok store → 0 <= tk_limit tk → 0 <= tk_offset tk →
  good store plan z →
  good store (OpLimit plan (tk_limit tk) (tk_offset tk) (tk_order_by tk)) (snapshot tk [z] store params).
Proof.
  intros Hs Hl Ho [Hwf Hsup _]. cbn -[TopKOp.snapshot]. rewrite snapshot_reference by by apply held_ok.
  apply good_lookup. intros k w. rewrite lookup_window_zset.
  case_bool_decide as Hk; [|done]. intros [= <-]. split; [done|].
  apply Hsup. apply elem_of_reference_window in Hk; [lia|done..].
Qed.

Lemma denote_good store plan params : store_ok store → maintainable plan = true →
  good store plan (denote plan store params).
Proof.
  intros Hs. induction plan; cbn [maintainable]; intros Hm; split_andb; try done; rewrite denote_eq; cbn [map children fresh].
  - by apply good_scan.
  - by apply good_filter, IHplan.
  - apply (good_presence_join store false); auto.
  - apply (good_presence_join store true); auto.
  - apply good_union; auto.
  - apply good_distinct; auto.
  - specialize (IHplan Hm). destruct IHplan. by split.
  - apply (good_limit store plan (TopKOp.new limit start order_by)); cbn; auto with lia.
Qed.
End support.
