(* ===== verification/IndexRead.v ===== *)
(** * What an index-backed source reads

    Comparing through an index and comparing through a filter agree on
    ordinary numbers; so a binding reads exactly the rows whose leading fields
    equal its operands as a filter would say. Negative zero is not ordinary:
    the two disagree on it. The second part reads windows by rank. *)

From S2P Require Import Prelude Platform Float64 Value ValueRef ZSet SortKey Index Store StoreFacts Plan Operator.
From S2P Require Import Filter LinearOps Join Witness TopK Window IndexScan Graph IndexOrder Denote Support.
Local Open Scope Z_scope.

(** ** The two equalities *)

(** Neither NaN nor negative zero. *)
Definition ordinary (f : f64) : Prop := F64.is_nan f = false ∧ (F64.sign f = true → F64.mag f ≠ 0).

Definition ordinaryb (f : f64) : bool := negb (F64.is_nan f) && negb (F64.sign f && (F64.mag f =? 0)).

Lemma ordinaryb_spec f : ordinaryb f = true → ordinary f.
Proof.
  unfold ordinaryb, ordinary. intros [Hn Hz]%andb_prop. split; [by destruct (F64.is_nan f)|].
  intros Hs. rewrite Hs in Hz. cbn in Hz. destruct (Z.eqb_spec (F64.mag f) 0); done.
Qed.

Lemma ordinary_key f : ordinary f → F64.total_key f = F64.key f - (if F64.sign f then 1 else 0) ∧
  (F64.sign f = true ↔ F64.key f < 0).
Proof.
  intros [_ Hz]. unfold F64.total_key, F64.key. pose proof (F64.mag_bound f) as Hb.
  destruct (F64.sign f); [|split; [lia|split; [done|lia]]]. specialize (Hz eq_refl). split; [lia|split; [lia|done]].
Qed.

Lemma ordinary_of_i64 n : F64.safe_int n → ordinary (F64.of_i64 n).
Proof.
  intros Hn. destruct (F64.mag_of_i64 n Hn) as [Hm Hs]. split.
  - apply F64.of_i64_facts. unfold F64.safe_int, in_i64 in *. width_lia.
  - rewrite Hs, Hm. intros Hneg%Z.ltb_lt. destruct (Z.eqb_spec n 0); [lia|].
    pose proof (F64.of_pos_bits_range (Z.abs n)). unfold F64.safe_int in Hn. lia.
Qed.

(** On ordinary numbers the total order is the partial order. *)
Lemma ordinary_compare a b : ordinary a → ordinary b → or_eq (F64.partial_cmp a b) = F64.total_cmp a b.
Proof.
  intros Ha Hb. unfold F64.partial_cmp, F64.total_cmp. rewrite (proj1 Ha), (proj1 Hb). cbn.
  destruct (ordinary_key a Ha) as [-> Sa], (ordinary_key b Hb) as [-> Sb].
  destruct (F64.sign a), (F64.sign b), (Z.compare_spec (F64.key a) (F64.key b)) as [E|E|E];
    symmetry; rewrite ?Z.compare_eq_iff, ?Z.compare_lt_iff, ?Z.compare_gt_iff; try lia;
    naive_solver lia.
Qed.

(** A value the two comparisons read alike. *)
Definition plain_ref (r : ValueRef) : Prop :=
  match r with RInt i => F64.safe_int i | RFloat f => ordinary f | _ => True end.

Definition scalar_of (r : ValueRef) : Scalar := sv_scalar (SortableValue.from_value r false).

Definition eq_test (actual target : ValueRef) : bool :=
  negb (ValueRef.is_missing actual) && (cmp_is Eq (compare_values actual target) && same_kind actual target).

Lemma scalar_of_direction r d : sv_scalar (SortableValue.from_value r d) = scalar_of r.
Proof. by destruct r. Qed.

Lemma scalar_of_safe r : plain_ref r → scalar_safe (scalar_of r).
Proof. by destruct r. Qed.

(** A row's field equals an orderable operand as a filter says if and only if
    it does as an index says. *)
Lemma eq_test_scalar actual target : plain_ref actual → plain_ref target → SortableValue.is_orderable target = true →
  eq_test actual target = true ↔ Scalar.cmp (scalar_of actual) (scalar_of target) = Eq.
Proof.
  intros Ha Ht Ho. unfold eq_test, cmp_is.
  destruct target as [| |b|n|f|s|?|?]; try done; destruct actual as [| |b'|n'|f'|s'|?|?]; cbn in *; try done;
    rewrite ?andb_true_r, ?andb_false_r, ?bool_decide_eq_true; try done; unfold compare_values; cbn;
    rewrite ?ordinary_compare by (done || by apply ordinary_of_i64); try done.
Qed.

(** Every number inside a value is ordinary. *)
Fixpoint numbers_plain (v : Sp00kyValue) : bool :=
  match v with
  | Int i => safe_intb i
  | Float f => ordinaryb f
  | Object m => forallb (λ e, numbers_plain e.2) m
  | _ => true
  end.

Definition ref_plain (r : ValueRef) : Prop :=
  plain_ref r ∧ match r with
    | RObj (OMem m) => numbers_plain (Object m) = true
    | RObj (OFlat _) => False
    | _ => True
    end.

Lemma ref_plain_value v : numbers_plain v = true → ref_plain (ValueRef.from_value v).
Proof.
  destruct v; cbn; try done; intros Hv; (split; [|done]); [by apply safe_intb_spec|by apply ordinaryb_spec].
Qed.

Lemma ref_plain_get r k : ref_plain r → ref_plain (ValueRef.get r k).
Proof.
  destruct r as [| | | | | |?|[m|f]]; try done; intros [_ Hm]; [|done]. cbn.
  destruct (assoc_get k m) as [x|] eqn:E; [|done]. apply assoc_get_Some in E. cbn.
  apply ref_plain_value. cbn in Hm. rewrite forallb_forall in Hm.
  apply (Hm (k, x)). by apply list_elem_of_In.
Qed.

Lemma ref_plain_resolve r p : ref_plain r → ref_plain (resolve_field r p).
Proof.
  unfold resolve_field. destruct (ValueRef.is_missing r); [done|].
  revert r. induction (segments p) as [|s segs IH]; intros r Hr; simpl; [done|].
  destruct (_ && _); [done|]. pose proof (ref_plain_get r s Hr).
  destruct (ValueRef.is_missing _); [done|auto].
Qed.

(** ** The range of a prefix *)

Section read.
Context `{HashingLaws} `{OrdSetLaws}.
Implicit Types (store : Store) (ctx : option Sp00kyValue) (b : IndexBinding).

(** Ids still to be read fit a machine word, as the length of any vector does. *)
Definition caches_small (c : Collection) : Prop :=
  ∀ n i p, c_indexes c !! n = Some i → oi_pending i = Some p → zlength p <= usize_max.

(** The rows of a table hold ordinary numbers only. *)
Definition rows_plain (c : Collection) : Prop := map_Forall (λ _ r, numbers_plain (sr_value r) = true) (c_rows c).

Definition row_ref (r : StoredRow) : ValueRef := ValueRef.from_value (sr_value r).

(** What a row is filed under. *)
Definition filed_under (def : IndexDef) (r : ValueRef) : IndexKey :=
  map (λ path, scalar_of (resolve_field r path)) (IndexDef_paths def).

(** The finished index of a table. *)
Record index_of_table (t : string) (rows : Rows) (def : IndexDef) (i : OrderedIndex) : Prop := {
  it_wf : index_wf i;
  it_width : length (oi_paths i) = length (idx_fields def);
  it_sound : ∀ k rk, (k, rk) ∈ os_iter (oi_entries i) → ∃ id r, rows !! id = Some r ∧ rk = row_key t id ∧
    list_cmp Scalar.cmp (filed_under def (row_ref r)) k = Eq;
  it_complete : ∀ id r, rows !! id = Some r → ∃ k, (k, row_key t id) ∈ os_iter (oi_entries i);
  it_once : NoDup (os_iter (oi_entries i)).*2;
}.

Lemma index_of_spec t coll b : table_ok t coll → caches_small coll →
  index_of_table t (c_rows coll) (ib_def b) (IndexBinding.index_of b coll).
Proof.
  intros [_ Hname Hinv _] Hsmall. unfold IndexBinding.index_of.
  pose proof (with_index_spec (ib_def b) coll Hinv (λ i p, Hsmall _ i p)) as Hw.
  destruct (Collection.with_index (ib_def b) coll) as [[i stats] c']. cbn [fst].
  destruct Hw as (_ & _ & _ & Hdef & _ & [Hwf Hs _] & Hnd & Hmem). rewrite Hname in *.
  assert (∀ r, OrderedIndex.key_of i r = filed_under (ib_def b) r) as Hkey.
  { intros r. unfold OrderedIndex.key_of, filed_under. rewrite (iw_paths _ Hwf), Hdef. done. }
  split; [done| | | |done].
  - rewrite (iw_paths _ Hwf), Hdef. apply length_map.
  - intros k rk Hin. destruct (Hs k rk Hin) as (id & r & Hr & -> & Hk). rewrite Hkey in Hk. by exists id, r.
  - intros id r Hr.
    pose proof (proj2 (Hmem (row_key t id)) ltac:(by exists id)) as Hrk. apply list_elem_of_fmap in Hrk as ([k rk] & Hrk & Hin).
    cbn in Hrk. exists k. by rewrite Hrk.
Qed.

Lemma elem_of_key_set ks k : key_set ks !! k = if bool_decide (k ∈ ks) then Some 1 else None.
Proof. apply lookup_window_zset. Qed.

(** Positions and entries. *)
Lemma elem_of_positions (i : OrderedIndex) lo len rk : 0 <= lo →
  rk ∈ omap (OrderedIndex.row_at i) (seqZ lo len) ↔
  ∃ p k, lo <= p < lo + len ∧ os_get_index (oi_entries i) p = Some (k, rk).
Proof.
  intros Hlo. rewrite list_elem_of_omap. unfold OrderedIndex.row_at. split.
  - intros (p & Hp%elem_of_seqZ & Hr). destruct (os_get_index _ p) as [[k r]|] eqn:E; [|done].
    injection Hr as <-. exists p, k. split; [lia|done].
  - intros (p & k & Hp & Hg). exists p. split; [apply elem_of_seqZ; lia|]. by rewrite Hg.
Qed.

Lemma get_index_entry (i : OrderedIndex) e : e ∈ os_iter (oi_entries i) →
  ∃ p, os_get_index (oi_entries i) p = Some e.
Proof.
  intros [n Hn]%list_elem_of_lookup. exists (Z.of_nat n). unfold os_get_index. rewrite zlookup_spec by lia.
  by rewrite Nat2Z.id.
Qed.

Lemma get_index_elem (i : OrderedIndex) p e : os_get_index (oi_entries i) p = Some e → e ∈ os_iter (oi_entries i) ∧ 0 <= p.
Proof.
  unfold os_get_index, zlookup. destruct (Z.ltb_spec p 0); [done|]. destruct (_ <=? p); [done|].
  intros He%list_elem_of_lookup_2. done.
Qed.

Lemma filed_under_safe def v : numbers_plain v = true → Forall scalar_safe (filed_under def (ValueRef.from_value v)).
Proof.
  intros Hv. unfold filed_under. rewrite Forall_map. apply Forall_true. intros p.
  apply scalar_of_safe. by apply ref_plain_resolve, ref_plain_value.
Qed.

(** The leading values an entry has are those of its row. *)
Lemma lead_entry t coll def i ps k rk id r : index_of_table t (c_rows coll) def i → rows_plain coll → Forall scalar_safe ps →
  (k, rk) ∈ os_iter (oi_entries i) → c_rows coll !! id = Some r → rk = row_key t id →
  list_cmp Scalar.cmp (filed_under def (row_ref r)) k = Eq →
  lead_cmp ps k = lead_cmp ps (filed_under def (row_ref r)).
Proof.
  intros Hi Hplain Hps Hin Hr _ Hk. unfold lead_cmp. symmetry.
  apply (cmp_trans_eq _ _ (lawful_list_any _ _ scalar_cmp_lawful)); [|..|done|by apply list_cmp_take].
  - apply Forall_take, filed_under_safe. by apply (Hplain id).
  - apply Forall_take. pose proof (index_wf_safe i (it_wf _ _ _ _ Hi)) as Hf. rewrite Forall_forall in Hf. by apply (Hf _ Hin).
Qed.

(** A binding reads the rows whose leading values are its operands. *)
Lemma range_keys_spec store ctx b coll ps k : table_ok (ib_table b) coll → caches_small coll → rows_plain coll →
  Store.get_collection store (ib_table b) = Some coll →
  IndexBinding.prefix_values b store ctx = Some ps → Forall scalar_safe ps →
  (length ps <= length (idx_fields (ib_def b)))%nat →
  IndexBinding.range_keys b store ctx !! k = Some 1 ↔
    ∃ id r, c_rows coll !! id = Some r ∧ k = row_key (ib_table b) id ∧
      lead_cmp ps (filed_under (ib_def b) (row_ref r)) = Eq.
Proof.
  intros Ht Hsmall Hplain Hc Hp Hps Hlen. unfold IndexBinding.range_keys. rewrite Hp, Hc.
  pose proof (index_of_spec _ coll b Ht Hsmall) as Hi. set (i := IndexBinding.index_of b coll) in *.
  assert (∀ p key rk, os_get_index (oi_entries i) p = Some (key, rk) →
    let '(lo, hi) := OrderedIndex.prefix_range i ps in (lo <= p < hi ↔ lead_cmp ps key = Eq) ∧ 0 <= lo <= hi) as Hrange.
  { intros p key rk. apply prefix_range_spec; [apply Hi|done|]. by rewrite (it_width _ _ _ _ Hi). }
  assert (let '(lo, hi) := OrderedIndex.prefix_range i ps in 0 <= lo <= hi) as Hlh.
  { unfold OrderedIndex.prefix_range. rewrite !(os_rank_iter _ _ index_entry_cmp_lawful);
      try done; try apply Hi; try (apply index_wf_safe, Hi); [unfold sl_rank; pose proof (zlength_nonneg
      (List.filter (λ b : IndexKey * string, match index_entry_cmp b (ps, ""%string) with Lt => true | _ => false end)
        (os_iter (oi_entries i)))); lia|].
    cbn. apply Forall_app. split; [done|]. by repeat constructor. }
  destruct (OrderedIndex.prefix_range i ps) as [lo hi]. rewrite elem_of_key_set.
  trans (k ∈ omap (OrderedIndex.row_at i) (seqZ lo (hi - lo))); [by case_bool_decide|].
  rewrite elem_of_positions by lia. split.
  - intros (p & key & Hr & Hg). destruct (get_index_elem _ _ _ Hg) as [Hin _].
    destruct (it_sound _ _ _ _ Hi _ _ Hin) as (id & r & Hrow & -> & Hk).
    exists id, r. split_and!; [done..|].
    rewrite <- (lead_entry _ coll _ i ps key (row_key (ib_table b) id) id r) by done.
    apply (Hrange _ _ _ Hg). lia.
  - intros (id & r & Hrow & -> & Hlead). destruct (it_complete _ _ _ _ Hi id r Hrow) as [key Hin].
    destruct (get_index_entry _ _ Hin) as [p Hg]. exists p, key. split; [|done].
    destruct (it_sound _ _ _ _ Hi _ _ Hin) as (id' & r' & Hrow' & Hid & Hk).
    apply (inj (row_key (ib_table b))) in Hid as <-. rewrite Hrow in Hrow'. injection Hrow' as <-.
    rewrite <- (lead_entry _ coll _ i ps key (row_key (ib_table b) id) id r) in Hlead by done.
    apply (Hrange _ _ _ Hg) in Hlead. lia.
Qed.
End read.

(** * The window an index reads is the window a sort would give

    [IndexWindow] reads its rows by position. This is the window that sorting
    every row of the binding's range by the remaining fields, in their
    directions and with ties by row key, would give. *)

Local Open Scope Z_scope.

Lemma sl_rank_map {A B} (cmp : A → A → comparison) (cmp' : B → B → comparison) (f : A → B) e l :
  (∀ x, x ∈ l → cmp' (f x) (f e) = cmp x e) → sl_rank cmp' (f e) (map f l) = sl_rank cmp e l.
Proof.
  unfold sl_rank, zlength. induction l as [|x l IH]; intros Hx; [done|]. cbn [map List.filter].
  rewrite Hx by set_solver. specialize (IH ltac:(set_solver)). destruct (cmp x e); cbn [length]; lia.
Qed.

Lemma omap_seqZ_shift {B} (f : Z → option B) a b len : omap f (seqZ (a + b) len) = omap (λ k, f (a + k)) (seqZ b len).
Proof. rewrite <- fmap_add_seqZ. induction (seqZ b len) as [|k l IH]; [done|]. cbn. by rewrite IH. Qed.

(** The [ORDER BY] a window stands for: the index's fields after the prefix. *)
Definition window_order (self : IndexWindow) : option (list OrderSpec) :=
  Some (zip_with (λ f (d : bool), MkOrderSpec (Path_new f) (if d then "DESC" else "ASC")%string)
    (drop (length (ib_prefix (iw_binding self))) (idx_fields (ib_def (iw_binding self)))) (iw_descending self)).

Section window.
Context `{HashingLaws} `{OrdSetLaws}.
Implicit Types (store : Store) (ctx : option Sp00kyValue) (self : IndexWindow).

Lemma prefix_values_length b store ctx ps : IndexBinding.prefix_values b store ctx = Some ps →
  length ps = length (ib_prefix b).
Proof.
  unfold IndexBinding.prefix_values. destruct (forallb _ _); [|done]. intros Hm.
  symmetry. by apply (length_mapM _ _ _ Hm).
Qed.

(** Sort keys compare as index keys do. *)
Lemma directed_sortable (fields : list string) descending r r' (k k' : list Scalar) :
  numbers_plain r = true → numbers_plain r' = true → Forall scalar_safe k → Forall scalar_safe k' →
  let scalars v := map (λ f, scalar_of (resolve_field (ValueRef.from_value v) (Path_new f))) fields in
  let key v := map (λ o, SortableValue.from_value (resolve_field (ValueRef.from_value v) (os_field o))
    (eq_ignore_ascii_case (os_direction o) "DESC"))
    (zip_with (λ f (d : bool), MkOrderSpec (Path_new f) (if d then "DESC" else "ASC")%string) fields descending) in
  length descending = length fields →
  list_cmp Scalar.cmp (scalars r) k = Eq → list_cmp Scalar.cmp (scalars r') k' = Eq →
  directed_cmp descending k k' = list_cmp SortableValue.cmp (key r) (key r').
Proof.
  intros Hr Hr' Hk Hk'. cbn zeta. revert descending k k' Hk Hk'.
  induction fields as [|f fields IH]; intros [|d descending] k k' Hk Hk' Hl E E'; try done.
  cbn [map] in E, E'. destruct Hk as [|x k Hx Hk]; [done|]. destruct Hk' as [|x' k' Hx' Hk']; [done|].
  cbn [list_cmp] in E, E'.
  destruct (Scalar.cmp (scalar_of _) x) eqn:Ex; try done. destruct (Scalar.cmp (scalar_of _) x') eqn:Ex'; try done.
  cbn [cmp_then] in E, E'. cbn [directed_cmp zip_with map list_cmp]. f_equal; [|by apply IH; [..|cbn in Hl; lia| |]].
  set (v := resolve_field (ValueRef.from_value r) (Path_new f)) in *.
  set (v' := resolve_field (ValueRef.from_value r') (Path_new f)) in *.
  assert (scalar_safe (scalar_of v)) as Hv by by apply scalar_of_safe, ref_plain_resolve, ref_plain_value.
  assert (scalar_safe (scalar_of v')) as Hv' by by apply scalar_of_safe, ref_plain_resolve, ref_plain_value.
  assert (Scalar.cmp x x' = Scalar.cmp (scalar_of v) (scalar_of v')) as ->.
  { rewrite (cmp_trans_eq _ _ scalar_cmp_lawful (scalar_of v) x (scalar_of v')) by done.
    symmetry. apply (cmp_eq_r _ _ _ _ _ scalar_cmp_lawful); done. }
  unfold SortableValue.cmp. cbn [os_field os_direction]. fold v v'.
  rewrite !scalar_of_direction. by destruct d, v.
Qed.

Section read.
Variables (store : Store) (ctx : option Sp00kyValue) (self : IndexWindow) (coll : Collection) (ps : list Scalar).
Abbreviation binding := (iw_binding self).
Abbreviation table := (ib_table binding).
Abbreviation n := (length ps).
Hypothesis Htables : map_Forall table_ok (collections store).
Hypothesis Hsmall : caches_small coll.
Hypothesis Hplain : rows_plain coll.
Hypothesis Hcoll : Store.get_collection store table = Some coll.
Hypothesis Hprefix : IndexBinding.prefix_values binding store ctx = Some ps.
Hypothesis Hsafe : Forall scalar_safe ps.
Hypothesis Hwidth : (n + length (iw_descending self) = length (idx_fields (ib_def binding)))%nat.

Abbreviation i := (IndexBinding.index_of binding coll).
Abbreviation range := (OrderedIndex.prefix_range i ps).
Abbreviation members := (stretch (os_iter (oi_entries i)) range.1 range.2).
Abbreviation held := (held_of (window_order self) store (IndexBinding.range_keys binding store ctx)).
Definition keyed (e : IndexEntry) : SortKey * string :=
  (TopKOp.compute_sort_key (window_order self) e.2 store, e.2).

Lemma window_index : index_of_table table (c_rows coll) (ib_def binding) i.
Proof. apply index_of_spec; [by apply (Htables table)|done]. Qed.

Lemma window_group : group i ps range.1 range.2.
Proof.
  pose proof window_index as Hi. pose proof (prefix_group i (it_wf _ _ _ _ Hi) ps Hsafe) as Hg.
  rewrite (it_width _ _ _ _ Hi) in Hg. specialize (Hg ltac:(lia)). by destruct range.
Qed.

(** An entry's sort key is that of its row. *)
Lemma entry_row e : e ∈ os_iter (oi_entries i) → ∃ r, numbers_plain (sr_value r) = true ∧
  Forall scalar_safe e.1 ∧ list_cmp Scalar.cmp (filed_under (ib_def binding) (row_ref r)) e.1 = Eq ∧
  Store.get_row_by_key store e.2 = row_ref r.
Proof.
  pose proof window_index as Hi. intros He. destruct e as [k rk].
  destruct (it_sound _ _ _ _ Hi k rk He) as (id & r & Hr & -> & Hk). exists r. split; [by apply (Hplain id)|].
  split; [|split; [done|]].
  - pose proof (index_wf_safe _ (it_wf _ _ _ _ Hi)) as Hf. rewrite Forall_forall in Hf. by apply (Hf _ He).
  - cbn. rewrite (get_row_key store table coll) by done. unfold rows_get. by rewrite Hr.
Qed.

Lemma keyed_cmp x e : x ∈ os_iter (oi_entries i) → e ∈ os_iter (oi_entries i) →
  entry_cmp (keyed x) (keyed e) = window_cmp (iw_descending self) n x e.
Proof.
  intros Hx He. unfold entry_cmp, window_cmp, keyed. cbn [fst snd]. f_equal.
  destruct (entry_row x Hx) as (r & Hr & Hxs & Hxc & Hxr), (entry_row e He) as (r' & Hr' & Hes & Hec & Her).
  unfold TopKOp.compute_sort_key. rewrite Hxr, Her. unfold window_order.
  rewrite <- (prefix_values_length _ _ _ _ Hprefix). symmetry.
  apply directed_sortable; [done|done|by apply Forall_drop..|rewrite length_drop; lia| |].
  - apply (list_cmp_drop _ _ _ n) in Hxc. unfold filed_under, IndexDef_paths in Hxc. by rewrite map_map, List.skipn_map in Hxc.
  - apply (list_cmp_drop _ _ _ n) in Hec. unfold filed_under, IndexDef_paths in Hec. by rewrite map_map, List.skipn_map in Hec.
Qed.

Lemma members_entries e : e ∈ members → e ∈ os_iter (oi_entries i).
Proof.
  intros Hin. eapply elem_of_submseteq; [exact Hin|]. apply sublist_submseteq. unfold stretch.
  etransitivity; [apply sublist_take|apply sublist_drop].
Qed.

(** The rows of the range, sorted. *)
Lemma held_members s k : held !! k = Some s ↔ (s, k) ∈ map keyed members.
Proof.
  change (map keyed members) with (keyed <$> members). rewrite list_elem_of_fmap, lookup_held_of.
  pose proof window_group as Hg. destruct (gp_bounds _ _ _ _ Hg) as [Hb1 Hb2].
  assert (IndexBinding.range_keys binding store ctx = key_set (omap (OrderedIndex.row_at i) (seqZ range.1 (range.2 - range.1)))) as ->.
  { unfold IndexBinding.range_keys. rewrite Hprefix, Hcoll. by destruct range. }
  assert (weight (key_set (omap (OrderedIndex.row_at i) (seqZ range.1 (range.2 - range.1)))) k =
    if bool_decide (k ∈ omap (OrderedIndex.row_at i) (seqZ range.1 (range.2 - range.1))) then 1 else 0) as ->.
  { unfold weight. rewrite elem_of_key_set. by case_bool_decide. }
  pose proof (elem_of_positions i range.1 (range.2 - range.1) k ltac:(lia)) as Hpos. split.
  - case_bool_decide as Hin; [|done]. intros [= <-]. apply Hpos in Hin as (p & key & Hp & Hget).
    exists (key, k). split; [done|]. apply elem_of_stretch; [lia|]. exists p. split; [lia|done].
  - intros ([key k'] & [= -> ->] & (p & Hp & Hget)%elem_of_stretch); [|lia].
    rewrite bool_decide_eq_true_2; [done|]. apply Hpos. exists p, key. split; [lia|done].
Qed.

Lemma keyed_NoDup : NoDup (map keyed members).
Proof.
  apply (NoDup_fmap_1 snd). change (map keyed members) with (keyed <$> members). rewrite <- list_fmap_compose.
  change (snd ∘ keyed) with (snd : IndexEntry → string).
  pose proof (it_once _ _ _ _ window_index) as Hnd. unfold stretch. rewrite fmap_take, fmap_drop.
  eapply sublist_NoDup; [apply Hnd|]. etransitivity; [apply sublist_take|apply sublist_drop].
Qed.

Lemma range_held_ok : map_Forall (λ k s, entry_ok (window_order self) (s, k)) held.
Proof.
  intros k s (e & He & Hin)%held_members%list_elem_of_fmap. injection He as -> ->.
  pose proof (members_entries e Hin) as Hel.
  destruct (entry_row e Hel) as (r & Hr & _ & _ & Hrow).
  unfold entry_ok, sort_key_ok, dirs_of, TopKOp.compute_sort_key, window_order. cbn [fst]. rewrite Hrow.
  induction (zip_with _ _ _) as [|o os IH]; cbn; constructor; [|done]. split; [by destruct (resolve_field _ _)|].
  rewrite scalar_of_direction. by apply scalar_of_safe, ref_plain_resolve, ref_plain_value.
Qed.
(** All rows of the range, in the order of their sort keys. *)
Lemma sorted_members : sl_sorted entry_cmp (sorted_entries held) ∧ Forall (entry_ok (window_order self)) (sorted_entries held) ∧
  sorted_entries held ≡ₚ map keyed members.
Proof.
  destruct (sorted_entries_spec _ _ range_held_ok) as (Hs & Hok & Hel). split; [done|]. split; [done|].
  apply NoDup_Permutation; [by apply (sl_sorted_NoDup _ _ (L (window_order self)))|apply keyed_NoDup|].
  intros [s k]. by rewrite Hel, held_members.
Qed.

(** The row whose rank in the range is [k] is the [k]-th of the sorted rows. *)
Lemma ranked_row p e k : zlookup (os_iter (oi_entries i)) p = Some e → range.1 <= p < range.2 →
  sl_rank (window_cmp (iw_descending self) n) e members = k →
  OrderedIndex.row_at i p = snd <$> zlookup (sorted_entries held) k.
Proof.
  intros He Hp Hrank. pose proof window_group as Hg. destruct (gp_bounds _ _ _ _ Hg) as [Hb1 Hb2].
  assert (e ∈ members) as Hem by (apply elem_of_stretch; [lia|eauto]).
  destruct sorted_members as (Hs & Hok & Hperm).
  assert (keyed e ∈ sorted_entries held) as Hin by (rewrite Hperm; apply list_elem_of_In, in_map, list_elem_of_In, Hem).
  apply list_elem_of_lookup in Hin as [j Hj].
  pose proof (L (window_order self)) as HL. rewrite Forall_forall in Hok.
  assert (k = Z.of_nat j) as ->.
  { rewrite <- Hrank. rewrite <- (sl_rank_map (window_cmp (iw_descending self) n) entry_cmp keyed).
    2:{ intros x Hx. apply keyed_cmp; by apply members_entries. }
    rewrite <- (sl_rank_perm _ _ _ _ Hperm). apply sl_rank_position; [| |done|done].
    - intros x Hx. by rewrite (cmp_refl _ _ HL) by auto.
    - intros x y Hx Hy Hxy. by rewrite (cmp_flip _ _ HL), Hxy by auto. }
  rewrite zlookup_spec, Nat2Z.id, Hj by lia. unfold OrderedIndex.row_at, os_get_index. rewrite He. by destruct e.
Qed.

Lemma range_length : zlength (sorted_entries held) = range.2 - range.1.
Proof.
  destruct sorted_members as (_ & _ & Hperm). pose proof window_group as Hg. destruct (gp_bounds _ _ _ _ Hg) as [Hb1 Hb2].
  unfold zlength. rewrite Hperm, length_map. apply length_stretch; lia.
Qed.

Lemma read_sorted : 0 <= iw_limit self → 0 <= iw_offset self →
  IndexWindowOp.read self store ctx = reference_window (iw_limit self) (iw_offset self) held.
Proof.
  intros Hl Ho. unfold IndexWindowOp.read, reference_window. rewrite Hprefix, Hcoll.
  pose proof window_group as Hg. destruct (gp_bounds _ _ _ _ Hg) as [Hb1 Hb2]. pose proof range_length as Hlen.
  pose proof (ranked_row) as Hrow. destruct range as [lo hi]. cbn [fst snd] in *.
  rewrite ztake_spec, zdrop_spec by lia.
  destruct (Z.leb_spec (hi - lo) (iw_offset self)) as [Hle|Hlt].
  { rewrite drop_ge by (unfold zlength in Hlen; lia). by rewrite take_nil. }
  rewrite <- (window_slice (sorted_entries held) (iw_offset self) (iw_limit self)) by lia. rewrite Hlen.
  replace (Z.min (iw_offset self + iw_limit self) (hi - lo) - iw_offset self) with
    (Z.min (iw_limit self) (hi - lo - iw_offset self)) by lia.
  set (take := Z.min _ _).
  destruct (existsb _ _) eqn:Easc; cbn [negb].
  - apply list_omap_ext, Forall_Forall2_diag, Forall_forall. intros k Hk%elem_of_seqZ.
    destruct (nth_loop_spec i (it_wf _ _ _ _ window_index) (iw_descending self) ps lo hi k Hg)
      as (p & e & Hnth & Hp & He & Hrank); [rewrite (it_width _ _ _ _ window_index); lia|lia|].
    unfold IndexWindowOp.nth, zlength. rewrite Hnth. by apply (Hrow p e k).
  - rewrite omap_seqZ_shift. apply list_omap_ext, Forall_Forall2_diag, Forall_forall. intros k Hk%elem_of_seqZ.
    destruct (lookup_entry i (lo + k)) as (e & He & _); [lia|]. apply (Hrow (lo + k) e k); [done|lia|].
    rewrite (rank_ascending i (it_wf _ _ _ _ window_index) _ ps lo hi (lo + k) e Easc Hg) by
      first [done|lia|rewrite (it_width _ _ _ _ window_index); lia]. lia.
Qed.
End read.
End window.
