(* ===== verification/PlanSound.v ===== *)
(** * What the index planner may read in place of a scan

    The planner splits a filter chain into equalities, gates, a record key and
    disjunctions ([IndexChoice.split]). The split loses nothing: a row that
    passes the filters passes every part; and with nothing left over a row
    that passes every part passes the filters. So a source the planner puts
    in place of a scan yields every row the filters keep, and only rows. The
    second part proves the answers of whole plans. *)

From S2P Require Import Prelude Platform Float64 Value ValueRef ZSet SortKey Index Store StoreFacts Plan Operator.
From S2P Require Import Filter LinearOps Join Witness TopK Window IndexScan Graph IndexPlan IndexOrder Denote Support.
From S2P Require Import IndexRead.
Local Open Scope Z_scope.

(** A path written as the string it was read from. *)
Definition path_ok (p : Path) : Prop := Path_new (Path_as_str p) = p ∧ segments p ≠ [].

Section choice.
Context `{HashingLaws} `{OrdSetLaws}.
Context (defs : gmap string (list IndexDef)) (params : option Sp00kyValue).
Implicit Types (store : Store) (p : Predicate) (out : Conjuncts).

(** An operand holds ordinary numbers, when it resolves. *)
Definition operand_plain (v : Value) : Prop :=
  ∀ x, resolve_predicate_value v params = Some x → numbers_plain x = true.

(** Paths as written and operands plain, throughout. *)
Fixpoint predicate_fits p : Prop :=
  match p with
  | PEq f v | PNeq f v | PGt f v | PGte f v | PLt f v | PLte f v => path_ok f ∧ operand_plain v
  | PPrefix f _ => path_ok f
  | PAnd ps | POr ps => foldr (λ p acc, predicate_fits p ∧ acc) True ps
  | _ => True
  end.

Lemma foldr_and {A} (P : A → Prop) l : foldr (λ x acc, P x ∧ acc) True l ↔ Forall P l.
Proof. induction l as [|x l IH]; cbn; [by split|]. rewrite Forall_cons. by rewrite IH. Qed.

(** Induction over predicates and the predicates inside them. *)
Lemma predicate_ind' (P : Predicate → Prop) :
  (∀ p, match p with PAnd _ | POr _ => False | _ => True end → P p) →
  (∀ ps, Forall P ps → P (PAnd ps)) → (∀ ps, Forall P ps → P (POr ps)) → ∀ p, P p.
Proof.
  intros Hleaf Hand Hor. fix IH 1.
  intros [| | | | | | | | | | | | | | |ps|ps]; try (by apply Hleaf); [apply Hand|apply Hor];
    (induction ps as [|p ps IHps]; constructor; [apply IH|apply IHps]).
Qed.

Section row.
Context (store : Store) (key : RowKey).

Abbreviation ok p := (check_predicate_recursive p key store params).

Definition eq_holds (e : string * Value) : bool := ok (PEq (Path_new e.1) e.2).

(** A row passes every part of a split. *)
Record chain_holds out : Prop := {
  ch_eqs : Forall (λ e, eq_holds e = true) (cj_eqs out);
  ch_gates : Forall (λ g, ok g = true) (cj_gates out);
  ch_id : ∀ v, cj_id out = Some v → ok (PEq (MkPath ["id"]) v) = true;
  ch_ors : Forall (λ ps, existsb (λ p, ok p) ps = true) (cj_ors out);
}.

Lemma no_conjuncts_hold : chain_holds no_conjuncts.
Proof. by split; try constructor. Qed.

Lemma is_id_field_path f : is_id_field f = true → f = MkPath ["id"].
Proof. destruct f as [[|s [|]]]; try done. cbn. by intros ->%String.eqb_eq. Qed.

Lemma split_other_holds p out : chain_holds out → ok p = true → chain_holds (IndexChoice.split_other p out).
Proof.
  intros [He Hg Hi Ho] Hp. unfold IndexChoice.split_other. case_bool_decide.
  - split; cbn; [done| |done|done]. apply Forall_app. split; [done|by constructor].
  - destruct p; try (by split). split; cbn; [done..|]. apply Forall_app. split; [done|by constructor].
Qed.

Lemma foldl_holds (f : Conjuncts → Predicate → Conjuncts) ps out :
  Forall (λ p, ∀ out, chain_holds out → ok p = true → chain_holds (f out p)) ps →
  chain_holds out → forallb (λ p, ok p) ps = true → chain_holds (foldl f out ps).
Proof.
  intros Hps. revert out. induction Hps as [|p ps Hp _ IH]; intros out Hout; cbn; [done|].
  intros [Hok Hoks]%andb_prop. apply IH; [by apply Hp|done].
Qed.

(** A row that passes the filters passes every part. *)
Lemma split_holds p out : predicate_fits p → chain_holds out → ok p = true → chain_holds (IndexChoice.split params p out).
Proof.
  revert out. induction p as [p Hleaf|ps IH|ps IH] using predicate_ind'; intros out Hfit Hout Hp.
  - destruct p; try done; try (by apply split_other_holds). cbn.
    destruct (is_id_field field) eqn:Eid.
    { apply is_id_field_path in Eid as ->. destruct Hout as [He Hg Hi Ho]. split; cbn; [done..| |done].
      intros v'. destruct (cj_id out); [by apply Hi|]. by intros [= <-]. }
    destruct (_ && _); [|by apply split_other_holds].
    destruct Hout as [He Hg Hi Ho]. split; cbn; [|done..]. apply Forall_app. split; [done|].
    constructor; [|done]. unfold eq_holds. cbn [fst snd]. destruct Hfit as [[-> _] _]. done.
  - cbn in *. apply foldr_and in Hfit. apply foldl_holds; [|done|done].
    rewrite Forall_forall in IH, Hfit |- *. auto.
  - by apply split_other_holds.
Qed.

(** With nothing left over, the parts are the filter. *)
Definition exact_part (f : Conjuncts → Conjuncts) p : Prop := ∀ out, cj_residual (f out) = false →
  cj_residual out = false ∧ (chain_holds (f out) → chain_holds out ∧ ok p = true).

Lemma split_other_exact p : exact_part (IndexChoice.split_other p) p.
Proof.
  intros out. unfold IndexChoice.split_other. case_bool_decide.
  - cbn. intros Hr. split; [done|]. intros [He Hg Hi Ho]. cbn in *. apply Forall_app in Hg as [Hg Hp].
    apply Forall_cons_1 in Hp as [Hp _]. by split.
  - by destruct p.
Qed.

Lemma foldl_exact (f : Predicate → Conjuncts → Conjuncts) ps : Forall (λ p, exact_part (f p) p) ps →
  ∀ out, cj_residual (foldl (λ out p, f p out) out ps) = false →
  cj_residual out = false ∧ (chain_holds (foldl (λ out p, f p out) out ps) → chain_holds out ∧ forallb (λ p, ok p) ps = true).
Proof.
  induction 1 as [|p ps Hp _ IH]; intros out; cbn; [done|]. intros Hr.
  destruct (IH _ Hr) as [Hr' Hback]. destruct (Hp _ Hr') as [Hr'' Hback']. split; [done|].
  intros [Hout Hps]%Hback. apply Hback' in Hout as [Hout Hok]. by rewrite Hok.
Qed.

Lemma split_exact p : predicate_fits p → exact_part (IndexChoice.split params p) p.
Proof.
  induction p as [p Hleaf|ps IH|ps IH] using predicate_ind'; intros Hfit.
  - destruct p; try done; try (by apply split_other_exact). intros out. cbn.
    destruct (is_id_field field); [done|].
    destruct (_ && _); [|by apply split_other_exact].
    cbn. intros Hr. split; [done|]. intros [He Hg Hi Ho]. cbn in *. apply Forall_app in He as [He Hp].
    apply Forall_cons_1 in Hp as [Hp _]. unfold eq_holds in Hp. cbn [fst snd] in Hp.
    destruct Hfit as [[Hf _] _]. rewrite Hf in Hp. by split.
  - cbn in *. apply foldr_and in Hfit.
    refine (foldl_exact (IndexChoice.split params) ps _). rewrite Forall_forall in IH, Hfit |- *. auto.
  - by apply split_other_exact.
Qed.
End row.

(** The equalities of a split hold a field to an operand an index can look up. *)
Definition eq_ok (e : string * Value) : Prop :=
  is_id_field (Path_new e.1) = false ∧ IndexChoice.orderable params e.2 = true ∧ operand_plain e.2.

(** A part that reads no row at all. *)
Fixpoint row_free p : Prop :=
  match p with
  | PTrue | PFalse | PParamEq _ _ | PParamNeq _ _ | PParamGt _ _ | PParamGte _ _ | PParamLt _ _ | PParamLte _ _ => True
  | PAnd ps | POr ps => foldr (λ p acc, row_free p ∧ acc) True ps
  | _ => False
  end.

Lemma gate_row_free p : predicate_fits p → field_roots p = [] → row_free p.
Proof.
  induction p as [p Hleaf|ps IH|ps IH] using predicate_ind'.
  - destruct p; try done; cbn; unfold path_root, path_ok; intros Hf; destruct (segments field); try done;
      by destruct Hf as [[_ ?] _] || by destruct Hf.
  - cbn. rewrite !foldr_and. intros Hfit Hr. rewrite Forall_forall in IH, Hfit |- *. intros p Hp. apply IH; auto.
    clear IH Hfit. induction ps as [|q ps IHps]; [set_solver|]. cbn in Hr. apply app_eq_nil in Hr as [Hq Hr].
    apply elem_of_cons in Hp as [->|Hp]; auto.
  - cbn. rewrite !foldr_and. intros Hfit Hr. rewrite Forall_forall in IH, Hfit |- *. intros p Hp. apply IH; auto.
    clear IH Hfit. induction ps as [|q ps IHps]; [set_solver|]. cbn in Hr. apply app_eq_nil in Hr as [Hq Hr].
    apply elem_of_cons in Hp as [->|Hp]; auto.
Qed.

Lemma row_free_check p : row_free p → ∀ store key store' key',
  check_predicate_recursive p key store params = check_predicate_recursive p key' store' params.
Proof.
  induction p as [p Hleaf|ps IH|ps IH] using predicate_ind'; [by destruct p| |];
    cbn; rewrite foldr_and; intros Hf store key store' key';
    induction IH as [|p ps Hp _ IHps]; cbn; try done; apply Forall_cons_1 in Hf as [Hf Hfs];
    rewrite (Hp Hf store key store' key'); f_equal; by apply IHps.
Qed.

Record chain_fits out : Prop := {
  cf_eqs : Forall eq_ok (cj_eqs out);
  cf_gates : Forall row_free (cj_gates out);
  cf_ors : Forall (Forall predicate_fits) (cj_ors out);
}.

Lemma split_other_fits p out : predicate_fits p → chain_fits out → chain_fits (IndexChoice.split_other p out).
Proof.
  intros Hp [He Hg Ho]. unfold IndexChoice.split_other. case_bool_decide.
  - split; cbn; [done| |done]. apply Forall_app. split; [done|]. constructor; [by apply gate_row_free|done].
  - destruct p; try (by split). split; cbn; [done..|]. apply Forall_app. split; [done|].
    constructor; [|done]. by apply foldr_and in Hp.
Qed.

Lemma split_fits p out : predicate_fits p → chain_fits out → chain_fits (IndexChoice.split params p out).
Proof.
  revert out. induction p as [p Hleaf|ps IH|ps IH] using predicate_ind'; intros out Hfit Hout.
  - destruct p; try done; try (by apply split_other_fits). cbn.
    destruct (is_id_field field) eqn:Eid; [by destruct Hout; split|].
    destruct (_ && _) eqn:E; [|by apply split_other_fits]. apply andb_prop in E as [_ Eo].
    destruct Hout as [He Hg Ho]. split; cbn; [|done..]. apply Forall_app. split; [done|].
    constructor; [|done]. destruct Hfit as [[Hf _] Hv]. unfold eq_ok. cbn [fst snd]. by rewrite Hf.
  - cbn in *. apply foldr_and in Hfit. revert out Hout. induction IH as [|p ps Hp _ IHps]; intros out Hout; cbn; [done|].
    apply Forall_cons_1 in Hfit as [Hfp Hfps]. apply IHps; [done|]. by apply Hp.
  - by apply split_other_fits.
Qed.
(** ** Equalities on the row of a key *)

Definition operand_scalar_of (v : Value) : Scalar :=
  match resolve_predicate_value v params with Some x => scalar_of (ValueRef.from_value x) | None => SNull end.

Lemma eq_ok_operand e : eq_ok e → IndexBinding.operand_scalar params e.2 = Some (operand_scalar_of e.2) ∧
  scalar_safe (operand_scalar_of e.2).
Proof.
  intros (_ & Ho & Hp). unfold IndexBinding.operand_scalar, operand_scalar_of, IndexChoice.orderable, IndexChoice.resolve in *.
  unfold operand_plain in Hp. destruct (resolve_predicate_value e.2 params) as [x|]; [|done]. rewrite Ho.
  split; [done|]. by apply scalar_of_safe, ref_plain_value, Hp.
Qed.

(** Operands of one kind that compare equal are one to an index. (Of different
    kinds they may not be: [compare_values] calls a boolean and a number equal.) *)
Definition one_kind (e e' : string * Value) : Prop := ∀ x y,
  resolve_predicate_value e.2 params = Some x → resolve_predicate_value e'.2 params = Some y →
  same_kind (ValueRef.from_value x) (ValueRef.from_value y) = true.

Lemma same_operand_scalars e e' : eq_ok e → eq_ok e' → one_kind e e' → IndexChoice.same_operand params e.2 e'.2 = true →
  Scalar.cmp (operand_scalar_of e.2) (operand_scalar_of e'.2) = Eq.
Proof.
  intros (_ & Ho & Hp) (_ & Ho' & Hp') Hk. unfold IndexChoice.same_operand, operand_scalar_of, IndexChoice.orderable, IndexChoice.resolve in *.
  unfold operand_plain in Hp, Hp'. unfold one_kind in Hk.
  destruct (resolve_predicate_value e.2 params) as [x|]; [|done].
  destruct (resolve_predicate_value e'.2 params) as [y|]; [|done]. rewrite bool_decide_eq_true. intros Hc.
  apply eq_test_scalar; [by apply ref_plain_value, Hp|by apply ref_plain_value, Hp'|done|].
  unfold eq_test, cmp_is. rewrite Hc, (Hk x y) by done. by destruct x.
Qed.

(** ** The split, deduplicated *)

Lemma elem_of_first_of_each seen eqs e : e ∈ IndexChoice.first_of_each seen eqs → e ∈ eqs ∧ e.1 ∉ seen.
Proof.
  revert seen. induction eqs as [|[f v] eqs IH]; intros seen; cbn; [set_solver|]. case_bool_decide.
  - intros [? ?]%IH. set_solver.
  - intros [->|[? ?]%IH]%elem_of_cons; set_solver.
Qed.

Lemma first_of_each_NoDup seen eqs : NoDup (IndexChoice.first_of_each seen eqs).*1.
Proof.
  revert seen. induction eqs as [|[f v] eqs IH]; intros seen; cbn; [constructor|]. case_bool_decide; [done|].
  cbn. constructor; [|done]. intros ([f' v'] & Hf & He)%list_elem_of_fmap. cbn in Hf. subst f'.
  apply elem_of_first_of_each in He as [_ He]. set_solver.
Qed.

(** Every equality is kept or follows one on the same field that is. *)
Lemma first_of_each_kept seen eqs e : IndexChoice.clashing params eqs = false → e ∈ eqs → e.1 ∉ seen →
  ∃ e', e' ∈ IndexChoice.first_of_each seen eqs ∧ e'.1 = e.1 ∧ (e' = e ∨ IndexChoice.same_operand params e'.2 e.2 = true).
Proof.
  revert seen. induction eqs as [|[f v] eqs IH]; intros seen; cbn; [set_solver|].
  intros [Hx Hc]%orb_false_elim He Hs.
  destruct (decide (f ∈ seen)) as [Hin|Hin]; [rewrite bool_decide_eq_true_2 by done|rewrite bool_decide_eq_false_2 by done].
  - apply elem_of_cons in He as [->|He]; [done|]. by apply IH.
  - destruct (decide (e.1 = f)) as [Hf|Hf].
    + exists (f, v). split; [set_solver|]. split; [done|]. apply elem_of_cons in He as [->|He]; [by left|]. right. cbn.
      destruct (IndexChoice.same_operand params v e.2) eqn:Es; [done|]. exfalso.
      apply not_true_iff_false in Hx. apply Hx. apply existsb_exists. exists e. split; [by apply list_elem_of_In|].
      rewrite Hf, String.eqb_refl, Es. done.
    + apply elem_of_cons in He as [->|He]; [done|]. destruct (IH (f :: seen) Hc He ltac:(set_solver)) as (e' & He' & Hrest).
      exists e'. split; [set_solver|done].
Qed.

Lemma with_first_holds store k out : chain_holds store k out →
  chain_holds store k (with_eqs (IndexChoice.first_of_each [] (cj_eqs out)) out).
Proof.
  intros [He Hg Hi Ho]. split; cbn; [|done..]. rewrite Forall_forall in He |- *.
  intros e [Hin _]%elem_of_first_of_each. by apply He.
Qed.

Lemma fold_split_fits preds : Forall predicate_fits preds →
  ∀ out, chain_fits out → chain_fits (foldl (λ out p, IndexChoice.split params p out) out preds).
Proof.
  induction 1 as [|p preds Hp _ IH]; intros out Hout; cbn; [done|]. by apply IH, split_fits.
Qed.

Lemma no_conjuncts_fits : chain_fits no_conjuncts.
Proof. by split; constructor. Qed.

Lemma conjuncts_fit preds chain : Forall predicate_fits preds → IndexChoice.conjuncts params preds = Some chain →
  chain_fits chain ∧ NoDup (cj_eqs chain).*1.
Proof.
  intros Hfit. unfold IndexChoice.conjuncts. destruct (IndexChoice.clashing _ _); [done|]. intros [= <-].
  destruct (fold_split_fits preds Hfit no_conjuncts no_conjuncts_fits) as [He Hg Ho]. split.
  - split; cbn; [|done..]. rewrite Forall_forall in He |- *. intros e [Hin _]%elem_of_first_of_each. by apply He.
  - apply first_of_each_NoDup.
Qed.

(** A row that passes the filters passes every conjunct. *)
Lemma conjuncts_hold store k preds chain : Forall predicate_fits preds → IndexChoice.conjuncts params preds = Some chain →
  forallb (λ p, check_predicate_recursive p k store params) preds = true → chain_holds store k chain.
Proof.
  intros Hfit. unfold IndexChoice.conjuncts. destruct (IndexChoice.clashing _ _); [done|]. intros [= <-] Hok.
  apply with_first_holds. refine (foldl_holds store k (λ out p, IndexChoice.split params p out) preds _ _ (no_conjuncts_hold _ _) Hok).
  rewrite Forall_forall in Hfit |- *. intros p Hp out. apply split_holds. auto.
Qed.

Lemma assoc_get_field f (eqs : list (string * Value)) : IndexChoice.held_equal eqs f = true →
  ∃ v, assoc_get f eqs = Some v ∧ (f, v) ∈ eqs.
Proof.
  unfold IndexChoice.held_equal. induction eqs as [|[g v] eqs IH]; cbn; [done|]. rewrite String.eqb_sym.
  destruct (String.eqb_spec f g) as [->|]; cbn; [intros _; exists v; set_solver|].
  intros (v' & Hv & Hin)%IH. exists v'. set_solver.
Qed.

(** A field with the operand it is held to. *)
Definition held_to (eqs : list (string * Value)) (f : string) : string * Value := (f, default VNull (assoc_get f eqs)).

(** Every prefix field is held equal to an operand. *)
Lemma binding_prefix eqs fields : forallb (IndexChoice.held_equal eqs) fields = true →
  Forall (λ e, e ∈ eqs) (map (held_to eqs) fields).
Proof.
  induction fields as [|f fields IH]; cbn; [constructor|]. intros [Hf Hheld]%andb_prop. constructor; [|auto].
  destruct (assoc_get_field f eqs Hf) as (v & Hv & Hin). unfold held_to. by rewrite Hv.
Qed.

Lemma operands_scalars es : Forall (λ e, eq_ok e) es →
  mapM (IndexBinding.operand_scalar params) es.*2 = Some (map (λ e, operand_scalar_of e.2) es) ∧
  Forall scalar_safe (map (λ e, operand_scalar_of e.2) es).
Proof.
  induction 1 as [|e es He _ [IH1 IH2]]; [done|]. destruct (eq_ok_operand e He) as [H1' H2']. cbn. rewrite H1', IH1. cbn.
  split; [done|by constructor].
Qed.

Section table.
Context (store : Store) (t : string) (coll : Collection).
Hypothesis Htables : map_Forall table_ok (collections store).
Hypothesis Hcoll : Store.get_collection store t = Some coll.
Hypothesis Hplain : rows_plain coll.

Lemma row_of_key id r : c_rows coll !! id = Some r → Store.get_row_by_key_or_deleted store (row_key t id) = row_ref r.
Proof.
  intros Hr. rewrite live_or_deleted; [|done|exists t, coll, id; naive_solver].
  rewrite (get_row_key store t coll) by done. unfold rows_get. by rewrite Hr.
Qed.

(** An equality holds of a row when the index values do. *)
Lemma eq_holds_row id r e : c_rows coll !! id = Some r → eq_ok e →
  eq_holds store (row_key t id) e = true ↔
    Scalar.cmp (scalar_of (resolve_field (row_ref r) (Path_new e.1))) (operand_scalar_of e.2) = Eq.
Proof.
  intros Hr (Hid & Ho & Hp). unfold eq_holds, operand_scalar_of, IndexChoice.orderable, IndexChoice.resolve in *.
  unfold operand_plain in Hp. cbn [check_predicate_recursive]. unfold check_field. rewrite Hid, (row_of_key id r Hr).
  destruct (resolve_predicate_value e.2 params) as [x|]; [|done].
  rewrite <- eq_test_scalar; [|apply ref_plain_resolve, ref_plain_value; by apply (Hplain id)|by apply ref_plain_value, Hp|done].
  unfold eq_test. by destruct (ValueRef.is_missing _).
Qed.

Lemma eq_holds_same id r e e' : c_rows coll !! id = Some r → eq_ok e → eq_ok e' → e.1 = e'.1 →
  one_kind e e' → IndexChoice.same_operand params e.2 e'.2 = true →
  eq_holds store (row_key t id) e = true → eq_holds store (row_key t id) e' = true.
Proof.
  intros Hr He He' Hf Hk Hs%same_operand_scalars; [|done..]. rewrite !(eq_holds_row id r) by done. rewrite <- Hf.
  intros Hc. rewrite <- (cmp_eq_r _ _ _ (operand_scalar_of e.2) (operand_scalar_of e'.2) scalar_cmp_lawful);
    first [done|by apply eq_ok_operand|apply scalar_of_safe, ref_plain_resolve, ref_plain_value; by apply (Hplain id)].
Qed.

(** ** The split, backwards *)

(** A field held equal twice is held to operands of one kind. *)
Definition kinds_agree (preds : list Predicate) : Prop :=
  let eqs := cj_eqs (foldl (λ out p, IndexChoice.split params p out) no_conjuncts preds) in
  ∀ e e', e ∈ eqs → e' ∈ eqs → e.1 = e'.1 → one_kind e e'.

(** With nothing left over, a row passing every conjunct passes the filters. *)
Lemma conjuncts_exact id r preds chain : Forall predicate_fits preds → kinds_agree preds → c_rows coll !! id = Some r →
  IndexChoice.conjuncts params preds = Some chain → cj_residual chain = false → chain_holds store (row_key t id) chain →
  forallb (λ p, check_predicate_recursive p (row_key t id) store params) preds = true.
Proof.
  intros Hfit Hkinds Hr. unfold kinds_agree in Hkinds. unfold IndexChoice.conjuncts. set (out := foldl _ no_conjuncts preds).
  destruct (IndexChoice.clashing _ _) eqn:Ec; [done|]. intros [= <-] Hres [He Hg Hi Ho]. cbn in *.
  pose proof (fold_split_fits preds Hfit no_conjuncts no_conjuncts_fits) as [Hef _ _]. fold out in Hef.
  assert (Forall (λ p, exact_part store (row_key t id) (IndexChoice.split params p) p) preds) as Hexact.
  { rewrite Forall_forall in Hfit |- *. intros p Hp. by apply split_exact, Hfit. }
  refine (proj2 (proj2 (foldl_exact store (row_key t id) (IndexChoice.split params) preds Hexact no_conjuncts Hres) _)). fold out.
  split; [|done..]. rewrite Forall_forall in He, Hef |- *. intros e Hin.
  destruct (first_of_each_kept [] (cj_eqs out) e Ec Hin ltac:(set_solver)) as (e' & He' & Hf & [->|Hs]); [by apply He|].
  pose proof (proj1 (elem_of_first_of_each _ _ _ He')) as Hin'.
  apply (eq_holds_same id r e' e); try by auto. by apply He.
Qed.

(** ** What a binding reads *)

Lemma lead_cmp_fields es fields r id : c_rows coll !! id = Some r → Forall eq_ok es → es.*1 = take (length es) fields →
  lead_cmp (map (λ e, operand_scalar_of e.2) es) (map (λ f, scalar_of (resolve_field (row_ref r) (Path_new f))) fields) = Eq ↔
  Forall (λ e, eq_holds store (row_key t id) e = true) es.
Proof.
  intros Hr. unfold lead_cmp. rewrite length_map. revert fields.
  induction es as [|e es IH]; intros fields Hok Hf; [cbn; by split|].
  destruct fields as [|f fields]; [done|]. cbn in Hf. injection Hf as <- Hf. apply Forall_cons_1 in Hok as [He Hok].
  cbn [map length take list_cmp]. rewrite Forall_cons, (eq_holds_row id r) by done. rewrite <- IH by done.
  destruct (Scalar.cmp _ _); cbn; naive_solver.
Qed.

(** A planned binding reads the rows its equalities hold of. *)
Lemma binding_range def eqs gates n k : caches_small coll → Forall eq_ok eqs → Forall row_free gates →
  forallb (IndexChoice.held_equal eqs) (take n (idx_fields def)) = true →
  IndexBinding.range_keys (IndexChoice.binding t def eqs gates n) store params !! k = Some 1 ↔
    Forall (λ g, check_predicate_recursive g k store params = true) gates ∧
    (∃ id r, c_rows coll !! id = Some r ∧ k = row_key t id) ∧
    Forall (λ e, eq_holds store k e = true) (map (held_to eqs) (take n (idx_fields def))).
Proof.
  intros Hsmall Hok Hgates Hheld. set (b := IndexChoice.binding t def eqs gates n).
  set (es := map (held_to eqs) (take n (idx_fields def))).
  assert (Forall eq_ok es) as Hes.
  { pose proof (binding_prefix eqs _ Hheld) as Hin. rewrite Forall_forall in Hin, Hok |- *. auto. }
  destruct (operands_scalars es Hes) as [Hm Hsafe].
  assert (length es = length (take n (idx_fields def))) as Hlen by apply length_map.
  assert (es.*1 = take (length es) (idx_fields def)) as Htake.
  { unfold es at 1. change (map ?f ?l) with (f <$> l). rewrite <- list_fmap_compose. rewrite Hlen, length_take.
    change (fst ∘ held_to eqs) with (@id string). rewrite list_fmap_id.
    destruct (Nat.min_spec n (length (idx_fields def))) as [[? ->]|[? ->]]; [done|]. by rewrite !take_ge. }
  assert (forallb (λ g, check_predicate_recursive g "" store params) gates = true ↔
    Forall (λ g, check_predicate_recursive g k store params = true) gates) as Hg.
  { rewrite forallb_forall, Forall_forall. rewrite Forall_forall in Hgates. setoid_rewrite <- list_elem_of_In.
    split; intros Hg g Hin; [rewrite <- (row_free_check g (Hgates g Hin) store "" store k)|
      rewrite (row_free_check g (Hgates g Hin) store "" store k)]; auto. }
  destruct (forallb _ gates) eqn:Egates.
  2:{ split; [|intros [Hx _]; by apply Hg in Hx]. unfold IndexBinding.range_keys, IndexBinding.prefix_values, b.
      cbn [IndexChoice.binding ib_gates]. by rewrite Egates. }
  rewrite (range_keys_spec store params b coll (map (λ e, operand_scalar_of e.2) es)); [|by apply (Htables t)|done..| |done|].
  2:{ unfold IndexBinding.prefix_values, b. cbn [IndexChoice.binding ib_gates ib_prefix]. rewrite Egates, <- Hm.
      f_equal. unfold es. change (map ?f ?l) with (f <$> l). by rewrite <- list_fmap_compose. }
  2:{ rewrite length_map, Hlen, length_take. cbn. lia. }
  assert (∀ v, filed_under (ib_def b) v = map (λ f, scalar_of (resolve_field v (Path_new f))) (idx_fields def)) as Hfiled
    by (intros v; unfold filed_under, IndexDef_paths; by rewrite map_map).
  setoid_rewrite Hfiled. change (ib_table b) with t. split.
  - intros (id & r & Hr & -> & Hlead). split; [by apply Hg|]. split; [by exists id, r|].
    by apply (lead_cmp_fields es _ r id) in Hlead.
  - intros (_ & (id & r & Hr & ->) & Hall). exists id, r. split; [done|]. split; [done|].
    by apply (lead_cmp_fields es _ r id).
Qed.
End table.
End choice.

(** * Index-backed plans answer as scans do

    Two facts about [IndexChoice]. A source put in place of a scan under
    filters yields, once filtered, what the scan yields. A window read off an
    index is the window [TopK] would keep over the filtered scan. *)

Local Open Scope Z_scope.

(** Every predicate of a chain. *)
Definition passes `{Hashing} `{OrdSet} (preds : list Predicate) (store : Store) (params : option Sp00kyValue)
    (k : RowKey) : bool :=
  forallb (λ p, check_predicate_recursive p k store params) preds.

Lemma max_by_elem {A} (cmp : A → A → comparison) l x : max_by cmp l = Some x → x ∈ l.
Proof.
  destruct l as [|a l]; [done|]. cbn. intros [= <-]. revert a. induction l as [|b l IH]; intros a; cbn; [set_solver|].
  pose proof (IH a). pose proof (IH b). destruct (cmp a b); set_solver.
Qed.

Lemma count_while_all {A} (p : A → bool) l : forallb p (take (count_while p l) l) = true.
Proof. induction l as [|x l IH]; cbn; [done|]. destruct (p x) eqn:E; cbn; [by rewrite E|done]. Qed.

(** ** Windows *)

Lemma sl_sorted_map {A B} (cmp : A → A → comparison) (cmp' : B → B → comparison) (f : A → B) l :
  (∀ x y, x ∈ l → y ∈ l → cmp x y = Lt → cmp' (f x) (f y) = Lt) → sl_sorted cmp l → sl_sorted cmp' (map f l).
Proof.
  intros Hf Hs. induction Hs as [|x l Hs IH Hx]; cbn; constructor.
  - apply IH. intros y z Hy Hz. apply Hf; set_solver.
  - rewrite Forall_map. rewrite Forall_forall in Hx |- *. intros y Hy. apply Hf; [set_solver..|auto].
Qed.

(** Sort keys that order the rows alike give the same window. *)
Lemma reference_window_ext `{OrdSetLaws} limit offset order order' (held held' : gmap string SortKey) :
  0 <= limit → 0 <= offset → dom held = dom held' →
  map_Forall (λ k s, entry_ok order (s, k)) held → map_Forall (λ k s, entry_ok order' (s, k)) held' →
  (∀ k k' s s' u u', held !! k = Some s → held !! k' = Some s' → held' !! k = Some u → held' !! k' = Some u' →
    entry_cmp (s, k) (s', k') = entry_cmp (u, k) (u', k')) →
  reference_window limit offset held = reference_window limit offset held'.
Proof.
  intros Hl Ho Hdom Hok Hok' Hcmp.
  destruct (sorted_entries_spec _ _ Hok) as (Hs & _ & Hel), (sorted_entries_spec _ _ Hok') as (Hs' & Hf' & Hel').
  set (f := λ e : SortKey * string, (default [] (held' !! e.2), e.2)).
  assert (∀ s k, held !! k = Some s → ∃ u, held' !! k = Some u ∧ f (s, k) = (u, k)) as Hin.
  { intros s k Hk. assert (is_Some (held' !! k)) as [u Hu] by (apply elem_of_dom; rewrite <- Hdom; by apply elem_of_dom_2 in Hk).
    exists u. split; [done|]. unfold f. cbn. by rewrite Hu. }
  assert (map f (sorted_entries held) = sorted_entries held') as Heq.
  { apply (sl_sorted_ext _ _ (L order')); [| done| |done|].
    - rewrite Forall_map. apply Forall_forall. intros [s k] Hk%Hel. destruct (Hin s k Hk) as (u & Hu & ->). by apply (Hok' k u).
    - apply (sl_sorted_map entry_cmp); [|done]. intros [s k] [s' k'] Hk%Hel Hk'%Hel Hlt.
      destruct (Hin s k Hk) as (u & Hu & ->), (Hin s' k' Hk') as (u' & Hu' & ->). by rewrite <- (Hcmp k k' s s').
    - intros [u k]. rewrite Hel'. change (map f ?l) with (f <$> l). rewrite list_elem_of_fmap. split.
      + intros ([s k'] & He & Hk'%Hel). destruct (Hin s k' Hk') as (u' & Hu' & Hfe). rewrite Hfe in He. by injection He as -> ->.
      + intros Hu. assert (is_Some (held !! k)) as [s Hk] by (apply elem_of_dom; rewrite Hdom; by apply elem_of_dom_2 in Hu).
        exists (s, k). destruct (Hin s k Hk) as (u' & Hu' & ->). split; [congruence|by apply Hel]. }
  unfold reference_window. rewrite !ztake_spec, !zdrop_spec, !fmap_take, !fmap_drop by done. do 2 f_equal.
  rewrite <- Heq. change (map f ?l) with (f <$> l). rewrite <- list_fmap_compose. done.
Qed.

(** Every equality of a split is a prefix field when the prefix has as many. *)
Lemma prefix_covers (eqs : list (string * Value)) fields : NoDup eqs.*1 → NoDup fields → length fields = length eqs →
  forallb (IndexChoice.held_equal eqs) fields = true → Forall (λ e, e ∈ map (held_to eqs) fields) eqs.
Proof.
  intros Hnd Hndf Hl Hheld.
  assert (fields ≡ₚ eqs.*1) as Hperm.
  { apply submseteq_length_Permutation; [|rewrite length_fmap; lia]. apply NoDup_submseteq; [done|].
    intros f Hf. rewrite forallb_forall in Hheld. specialize (Hheld f ltac:(by apply list_elem_of_In)).
    destruct (assoc_get_field f eqs Hheld) as (v & _ & Hin). apply list_elem_of_fmap. by exists (f, v). }
  apply Forall_forall. intros [f v] Hin. change (map ?g ?l) with (g <$> l). apply list_elem_of_fmap. exists f.
  split; [|rewrite Hperm; apply list_elem_of_fmap; by exists (f, v)]. unfold held_to. f_equal. clear Hperm Hheld Hl Hndf.
  induction eqs as [|[g w] eqs IH]; [set_solver|]. cbn in Hnd |- *. apply NoDup_cons in Hnd as [Hg Hnd].
  apply elem_of_cons in Hin as [[= -> ->]|Hin]; [by rewrite String.eqb_refl|].
  destruct (String.eqb_spec f g) as [->|]; [|by apply IH]. exfalso. apply Hg. apply list_elem_of_fmap. by exists (g, v).
Qed.

Section scan.
Context `{HashingLaws} `{OrdSetLaws}.
Context (defs : gmap string (list IndexDef)) (params : option Sp00kyValue) (store : Store) (t : string).
Hypothesis Hstore : store_ok store.

Lemma best_prefix_held eqs local def k b : IndexChoice.best_prefix defs t eqs local = Some (def, k, b) →
  forallb (IndexChoice.held_equal eqs) (take k (idx_fields def)) = true.
Proof.
  unfold IndexChoice.best_prefix. intros Hin%max_by_elem%list_elem_of_In%filter_In. destruct Hin as [Hin _].
  apply in_map_iff in Hin as (d & [= <- <- _] & _). apply count_while_all.
Qed.

(** The filtered scan, key by key. *)
Lemma filtered_scan preds k w :
  filter_keys (passes preds store params) (ScanOp.table_membership store t) !! k = Some w ↔
    w = 1 ∧ passes preds store params k = true ∧
    ∃ c id, collections store !! t = Some c ∧ k = row_key t id ∧ is_Some (c_rows c !! id).
Proof.
  unfold filter_keys. rewrite map_lookup_filter_Some, lookup_membership by apply Hstore. cbn. naive_solver.
Qed.

(** What the planner keeps of an [ORDER BY]: all of it, or all but a trailing [id]. *)
Definition order_pair (spec : OrderSpec) : string * bool :=
  (Path_as_str (os_field spec), eq_ignore_ascii_case (os_direction spec) "DESC").

Lemma kept_order (specs : list OrderSpec) :
  let order := map order_pair specs in
  let kept := match last order with
    | Some (field, desc) => if String.eqb field "id" && negb desc then removelast order else order
    | None => order
    end in
  ∃ front, kept = map order_pair front ∧ (specs = front ∨
    ∃ spec, specs = front ++ [spec] ∧ Path_as_str (os_field spec) = "id"%string ∧
      eq_ignore_ascii_case (os_direction spec) "DESC" = false).
Proof.
  destruct specs as [|spec specs _] using rev_ind; [by exists []; split; [|left]|]. cbn zeta.
  rewrite map_app. cbn [map]. rewrite last_snoc. unfold order_pair at 1.
  destruct (String.eqb_spec (Path_as_str (os_field spec)) "id") as [Ef|]; cbn [andb];
    [destruct (eq_ignore_ascii_case _ _) eqn:Ed; cbn [negb]|].
  - exists (specs ++ [spec]). rewrite map_app. split; [done|by left].
  - exists specs. rewrite removelast_last. split; [done|]. right. by exists spec.
  - exists (specs ++ [spec]). rewrite map_app. split; [done|by left].
Qed.

(** The index's own fields give the sort keys of the kept order. *)
Lemma window_sort_key (front : list OrderSpec) fields k : Forall (λ o, path_ok (os_field o)) front →
  length fields = length front →
  forallb (λ e : string * (string * bool), String.eqb e.1 e.2.1) (combine fields (map order_pair front)) = true →
  TopKOp.compute_sort_key (Some (zip_with (λ f (d : bool), MkOrderSpec (Path_new f) (if d then "DESC" else "ASC")%string) fields
    (map snd (map order_pair front)))) k store = TopKOp.compute_sort_key (Some front) k store.
Proof.
  intros Hok. unfold TopKOp.compute_sort_key. generalize (Store.get_row_by_key store k). intros v. revert fields.
  induction Hok as [|o front [Ho _] _ IH]; intros [|f fields] Hl; try done. cbn [map combine forallb fst snd].
  intros [Hf%String.eqb_eq Hfs]%andb_prop. cbn [zip_with map os_field os_direction order_pair fst snd] in *.
  rewrite Hf, Ho. f_equal; [|by apply IH; [cbn in Hl; lia|]]. f_equal. by destruct (eq_ignore_ascii_case (os_direction o) "DESC").
Qed.
(** The operands of a planned binding are ordinary. *)
Lemma binding_operands eqs def gates n ps : Forall (eq_ok params) eqs →
  forallb (IndexChoice.held_equal eqs) (take n (idx_fields def)) = true →
  IndexBinding.prefix_values (IndexChoice.binding t def eqs gates n) store params = Some ps → Forall scalar_safe ps.
Proof.
  intros Hok Hheld. pose proof (binding_prefix eqs _ Hheld) as Hin.
  unfold IndexBinding.prefix_values. destruct (forallb _ (ib_gates _)); [|done]. set (es := map (held_to eqs) (take n (idx_fields def))) in *.
  assert (Forall (eq_ok params) es) as Hes by (rewrite Forall_forall in Hin, Hok |- *; auto).
  destruct (operands_scalars params es Hes) as [Hm Hsafe].
  assert (ib_prefix (IndexChoice.binding t def eqs gates n) = es.*2) as ->; [|rewrite Hm; by intros [= <-]].
  unfold es. change (map ?f ?l) with (f <$> l). by rewrite <- list_fmap_compose.
Qed.

Section table.
Context (coll : Collection).
Hypothesis Hcoll : Store.get_collection store t = Some coll.
Hypothesis Hplain : rows_plain coll.
Hypothesis Hsmall : caches_small coll.

(** Z-sets of rows of the table. *)
Definition rows_of (z : ZSet) : Prop := ∀ k w, z !! k = Some w → w = 1 ∧ ∃ id r, c_rows coll !! id = Some r ∧ k = row_key t id.

(** A binding over equalities a row passes holds the row. *)
Lemma binding_holds eqs def n id r : Forall (eq_ok params) eqs →
  forallb (IndexChoice.held_equal eqs) (take n (idx_fields def)) = true →
  Forall (λ e, eq_holds params store (row_key t id) e = true) eqs → c_rows coll !! id = Some r →
  IndexBinding.range_keys (IndexChoice.binding t def eqs [] n) store params !! row_key t id = Some 1.
Proof.
  intros Hok Hheld Hall Hr. apply (binding_range params store t coll (so_tables _ Hstore) Hcoll Hplain); [done..|].
  split; [done|]. split; [by exists id, r|]. pose proof (binding_prefix _ _ Hheld) as Hin.
  rewrite Forall_forall in Hin, Hall |- *. auto.
Qed.

Lemma binding_rows b : ib_table b = t → rows_of (IndexBinding.range_keys b store params).
Proof.
  intros Hb k w. unfold IndexBinding.range_keys. destruct (IndexBinding.prefix_values _ _ _); [|done]. rewrite Hb, Hcoll.
  pose proof (index_of_spec t coll b (so_tables _ Hstore _ _ Hcoll) Hsmall) as Hi.
  destruct (OrderedIndex.prefix_range _ _) as [lo hi]. rewrite elem_of_key_set. case_bool_decide as Hin; [|done].
  intros [= <-]. split; [done|]. apply list_elem_of_omap in Hin as (p & _ & Hp). unfold OrderedIndex.row_at in Hp.
  destruct (os_get_index _ p) as [[key rk]|] eqn:E; [|done]. injection Hp as <-.
  destruct (it_sound _ _ _ _ Hi key rk (proj1 (get_index_elem _ _ _ E))) as (id & r & Hr & -> & _). by exists id, r.
Qed.

(** The union of ranges. *)
Lemma lookup_range_union bindings k (acc : ZSet) :
  foldl (λ (keys : ZSet) b, map_fold (λ key (_ : Z) (keys : ZSet), <[key := 1]> keys) keys (IndexBinding.range_keys b store params)) acc bindings !! k =
  if existsb (λ b, bool_decide (is_Some (IndexBinding.range_keys b store params !! k))) bindings then Some 1 else acc !! k.
Proof.
  revert acc. induction bindings as [|b bindings IH]; intros acc; cbn [foldl existsb]; [done|]. rewrite IH.
  assert (∀ z : ZSet, map_fold (λ key (_ : Z) (keys : ZSet), <[key := 1]> keys) acc z !! k =
    if bool_decide (is_Some (z !! k)) then Some 1 else acc !! k) as ->.
  { clear. apply (map_fold_weak_ind (λ (out : ZSet) z, out !! k = if bool_decide (is_Some (z !! k)) then Some 1 else acc !! k));
      [by rewrite lookup_empty|].
    intros k' w' z' out Hk' IH. destruct (decide (k' = k)) as [->|]; [by rewrite !lookup_insert_eq|].
    by rewrite !lookup_insert_ne. }
  destruct (existsb _ bindings); [by rewrite orb_true_r|]. by rewrite orb_false_r.
Qed.

Lemma outer_eqs_hold k outer eqs : Forall (λ e, eq_holds params store k e = true ∧ eq_ok params e) outer →
  Forall (λ e, eq_holds params store k e = true ∧ eq_ok params e) eqs →
  Forall (λ e, eq_holds params store k e = true ∧ eq_ok params e)
    (foldl (λ eqs e, if IndexChoice.held_equal eqs e.1 then eqs else eqs ++ [e]) eqs outer).
Proof.
  intros Ho. revert eqs. induction Ho as [|e outer He _ IH]; intros eqs Heqs; cbn; [done|].
  apply IH. destruct (IndexChoice.held_equal eqs e.1); [done|]. apply Forall_app. split; [done|by constructor].
Qed.
(** ** Sources in place of a scan *)

Lemma chain_eqs k chain : chain_fits params chain → chain_holds params store k chain →
  Forall (λ e, eq_holds params store k e = true ∧ eq_ok params e) (cj_eqs chain).
Proof. intros [Hf _ _] [He _ _ _]. rewrite Forall_forall in Hf, He |- *. auto. Qed.

(** A binding of a disjunction holds the rows its branch keeps. *)
Lemma union_branch_holds outer single branch b id r : predicate_fits params branch →
  IndexChoice.union_branch defs params t outer single branch = Some b → c_rows coll !! id = Some r →
  Forall (λ e, eq_holds params store (row_key t id) e = true ∧ eq_ok params e) outer →
  check_predicate_recursive branch (row_key t id) store params = true →
  IndexBinding.range_keys b store params !! row_key t id = Some 1.
Proof.
  intros Hfit Hb Hr Houter Hok. unfold IndexChoice.union_branch in Hb.
  destruct (IndexChoice.conjuncts params [branch]) as [chain|] eqn:Ec; [|done]. cbn in Hb.
  destruct (cj_id chain); [done|].
  destruct (IndexChoice.best_prefix defs t _ _) as [[[def k] lead]|] eqn:Ebest; [|done]. cbn in Hb.
  destruct (_ || _); [done|]. injection Hb as <-.
  pose proof (conjuncts_fit params [branch] chain ltac:(by constructor) Ec) as [Hfits _].
  pose proof (conjuncts_hold params store (row_key t id) [branch] chain ltac:(by constructor) Ec ltac:(cbn; by rewrite Hok)) as Hholds.
  pose proof (outer_eqs_hold (row_key t id) outer (cj_eqs chain) Houter (chain_eqs _ _ Hfits Hholds)) as Heqs.
  apply binding_holds with r; [|by eapply best_prefix_held| |done];
    (eapply Forall_impl; [exact Heqs|]; naive_solver).
Qed.

Lemma union_holds outer single branches bindings id r : Forall (predicate_fits params) branches →
  IndexChoice.union defs params t outer branches single = Some bindings → c_rows coll !! id = Some r →
  Forall (λ e, eq_holds params store (row_key t id) e = true ∧ eq_ok params e) outer →
  existsb (λ p, check_predicate_recursive p (row_key t id) store params) branches = true →
  ∃ b, b ∈ bindings ∧ IndexBinding.range_keys b store params !! row_key t id = Some 1.
Proof.
  unfold IndexChoice.union. intros Hfit Hu Hr Houter (p & Hp & Hok)%existsb_exists. apply list_elem_of_In in Hp.
  destruct (mapM _ branches) as [bs|] eqn:Em; [|done]. cbn in Hu.
  assert (bindings = bs) as -> by (destruct bs; congruence). apply mapM_Some in Em.
  apply list_elem_of_lookup in Hp as [j Hj]. destruct (Forall2_lookup_l _ _ _ _ _ Em Hj) as (b & Hb & Hbranch).
  exists b. split; [by eapply list_elem_of_lookup_2|].
  apply (union_branch_holds outer single p b id r); [|done..]. rewrite Forall_lookup in Hfit. by eapply Hfit.
Qed.

Lemma first_union_elem outer ors single bindings : IndexChoice.first_union defs params t outer ors single = Some bindings →
  ∃ branches, branches ∈ ors ∧ IndexChoice.union defs params t outer branches single = Some bindings.
Proof.
  induction ors as [|bs ors IH]; cbn; [done|]. destruct (IndexChoice.union _ _ _ _ _ _) as [bs'|] eqn:E.
  - intros [= <-]. exists bs. split; [set_solver|done].
  - intros (bs' & ? & ?)%IH. exists bs'. split; [set_solver|done].
Qed.

Lemma union_tables outer single branches bindings : IndexChoice.union defs params t outer branches single = Some bindings →
  Forall (λ b, ib_table b = t) bindings.
Proof.
  unfold IndexChoice.union. destruct (mapM _ branches) as [bs|] eqn:Em; [|done]. cbn.
  intros Hu. assert (bindings = bs) as -> by (destruct bs; congruence). apply mapM_Some in Em.
  clear Hu. induction Em as [|p b ps bs Hb _ IH]; constructor; [|done].
  unfold IndexChoice.union_branch in Hb. destruct (IndexChoice.conjuncts params [p]); [|done]. cbn in Hb.
  destruct (cj_id _); [done|]. destruct (IndexChoice.best_prefix defs t _ _) as [[[def k] lead]|]; [|done]. cbn in Hb.
  destruct (_ || _); [done|]. by injection Hb as <-.
Qed.

(** The ranges of an indexed scan: rows of the table only. *)
Lemma ranges_rows bindings : Forall (λ b, ib_table b = t) bindings →
  rows_of (IndexedScanOp.range_keys (MkIndexedScan bindings) store params).
Proof.
  intros Hb k w. unfold IndexedScanOp.range_keys. cbn [is_bindings]. rewrite lookup_range_union.
  destruct (existsb _ bindings) eqn:E; [|done]. intros [= <-]. split; [done|].
  apply existsb_exists in E as (b & Hin & Hk). apply bool_decide_eq_true in Hk as [w Hk].
  rewrite Forall_forall in Hb. by destruct (binding_rows b (Hb b (proj2 (list_elem_of_In _ _) Hin)) k w Hk).
Qed.

Lemma ranges_hold bindings b k : b ∈ bindings → IndexBinding.range_keys b store params !! k = Some 1 →
  IndexedScanOp.range_keys (MkIndexedScan bindings) store params !! k = Some 1.
Proof.
  intros Hin Hk. unfold IndexedScanOp.range_keys. cbn [is_bindings]. rewrite lookup_range_union.
  replace (existsb _ bindings) with true; [done|]. symmetry. apply existsb_exists. exists b.
  split; [by apply list_elem_of_In|]. rewrite Hk. by apply bool_decide_eq_true.
Qed.
(** The scan of one record holds it when the filter on [id] does. *)
Lemma key_scan_holds v id r : c_rows coll !! id = Some r →
  check_predicate_recursive (PEq (MkPath ["id"]) v) (row_key t id) store params = true →
  KeyScanOp.start (MkKeyScan t v) store params !! row_key t id = Some 1.
Proof.
  intros Hr. cbn. unfold check_field. cbn [is_id_field segments String.eqb].
  unfold KeyScanOp.start. cbn [ks_key ks_table]. destruct (resolve_predicate_value v params) as [x|]; [|done].
  cbn. intros [Hc Hk]%andb_prop. destruct x; try done. unfold cmp_is in Hc. apply bool_decide_eq_true in Hc.
  cbn in Hc. apply string_cmp_eq in Hc as <-. rewrite Hcoll.
  assert (owned_by t (row_key t id) = true) as ->.
  { unfold owned_by, row_key. by rewrite strip_prefix_app. }
  assert (Collection.has_key coll (row_key t id) = true) as ->.
  { unfold Collection.has_key. rewrite rows_contains_spec. unfold raw_id, row_key.
    destruct (so_tables _ Hstore t coll Hcoll) as [Ht _ _ _]. rewrite (split_once_app colon _ _ Ht : split_once colon (t +:+ ":" +:+ id) = Some (t, id)). by exists r. }
  cbn. apply lookup_singleton_eq.
Qed.

Lemma key_scan_rows v : rows_of (KeyScanOp.start (MkKeyScan t v) store params).
Proof.
  intros k w. unfold KeyScanOp.start. cbn [ks_key ks_table]. destruct (resolve_predicate_value v params) as [x|]; [|done].
  destruct x as [| | | |key| |]; try done. rewrite Hcoll. destruct (_ && _) eqn:E; [|done]. intros [<- <-]%lookup_singleton_Some.
  split; [done|]. apply andb_prop in E as [Ho Hk]. unfold owned_by in Ho. destruct (strip_prefix t key) as [rest|] eqn:Es; [|done].
  apply strip_prefix_Some in Es as ->. unfold starts_with in Ho. destruct (strip_prefix ":" rest) as [id|] eqn:Ec; [|done].
  apply strip_prefix_Some in Ec as ->. unfold Collection.has_key in Hk. apply rows_contains_spec in Hk as [r Hr].
  exists id, r. split; [|done]. unfold raw_id in Hr. destruct (so_tables _ Hstore t coll Hcoll) as [Ht _ _ _].
  by rewrite (split_once_app colon _ _ Ht : split_once colon (t +:+ ":" +:+ id) = Some (t, id)) in Hr.
Qed.

(** A source in place of a scan: rows of the table, and every row the filters keep. *)
Lemma scan_source preds source : Forall (predicate_fits params) preds →
  IndexChoice.scan defs params t preds = Some source →
  ∃ z, initial_input source store params = Some z ∧ rows_of z ∧
    ∀ id r, c_rows coll !! id = Some r → passes preds store params (row_key t id) = true → z !! row_key t id = Some 1.
Proof.
  intros Hfit. unfold IndexChoice.scan. destruct (IndexChoice.conjuncts params preds) as [chain|] eqn:Ec; [|done]. cbn.
  destruct (conjuncts_fit params preds chain Hfit Ec) as [Hfits _].
  assert (∀ k, passes preds store params k = true → chain_holds params store k chain) as Hholds
    by (intros k; by apply conjuncts_hold).
  destruct (cj_id chain) as [key|] eqn:Eid.
  { intros [= <-]. eexists. split; [reflexivity|]. split; [apply key_scan_rows|].
    intros id r Hr Hp. apply (key_scan_holds key id r Hr). by apply (Hholds _ Hp). }
  set (single := IndexChoice.best_prefix defs t (cj_eqs chain) []).
  destruct (IndexChoice.first_union _ _ _ _ _ _) as [bindings|] eqn:Eu.
  - intros [= <-]. eexists. split; [reflexivity|]. apply first_union_elem in Eu as (branches & Hin & Hu).
    split; [apply ranges_rows; by eapply union_tables|]. intros id r Hr Hp. pose proof (Hholds _ Hp) as Hh.
    destruct (union_holds (cj_eqs chain) (fst <$> single) branches bindings id r) as (b & Hb & Hk); [|done|done|by apply chain_eqs| |].
    + pose proof (cf_ors _ _ Hfits) as Ho. rewrite Forall_forall in Ho. by apply Ho.
    + pose proof (ch_ors _ _ _ _ Hh) as Ho. rewrite Forall_forall in Ho. by apply Ho.
    + by eapply ranges_hold.
  - unfold single. destruct (IndexChoice.best_prefix _ _ _ _) as [[[def k] lead]|] eqn:Ebest; [|done]. cbn. intros [= <-].
    eexists. split; [reflexivity|]. split; [apply ranges_rows; by repeat constructor|]. intros id r Hr Hp.
    eapply ranges_hold; [apply list_elem_of_here|]. apply binding_holds with r; [apply Hfits|by eapply best_prefix_held| |done].
    apply (Hholds _ Hp).
Qed.
(** ** Windows in place of TopK over filters over a scan *)

Lemma split_other_quiet p out : (cj_residual out = false → cj_id out = None ∧ cj_ors out = []) →
  cj_residual (IndexChoice.split_other p out) = false →
  cj_id (IndexChoice.split_other p out) = None ∧ cj_ors (IndexChoice.split_other p out) = [].
Proof. unfold IndexChoice.split_other. case_bool_decide; [done|]. by destruct p. Qed.

(** A record key or a disjunction always leaves something over. *)
Lemma split_quiet p out : (cj_residual out = false → cj_id out = None ∧ cj_ors out = []) →
  cj_residual (IndexChoice.split params p out) = false →
  cj_id (IndexChoice.split params p out) = None ∧ cj_ors (IndexChoice.split params p out) = [].
Proof.
  revert out. induction p as [p Hleaf|ps IH|ps IH] using predicate_ind'; intros out Hq.
  - destruct p; try done; try (by apply split_other_quiet). cbn.
    destruct (is_id_field field); [done|]. destruct (_ && _); [done|]. by apply split_other_quiet.
  - cbn. revert out Hq. induction IH as [|p ps Hp _ IHps]; intros out Hq; cbn; [done|]. apply IHps, Hp, Hq.
  - by apply split_other_quiet.
Qed.

Lemma conjuncts_quiet preds chain : IndexChoice.conjuncts params preds = Some chain → cj_residual chain = false →
  cj_id chain = None ∧ cj_ors chain = [].
Proof.
  unfold IndexChoice.conjuncts. destruct (IndexChoice.clashing _ _); [done|]. intros [= <-]. cbn.
  assert (∀ out, (cj_residual out = false → cj_id out = None ∧ cj_ors out = []) →
    cj_residual (foldl (λ out p, IndexChoice.split params p out) out preds) = false →
    cj_id (foldl (λ out p, IndexChoice.split params p out) out preds) = None ∧
    cj_ors (foldl (λ out p, IndexChoice.split params p out) out preds) = []) as Hf; [|by apply Hf].
  induction preds as [|p preds IH]; intros out Hq; cbn; [done|]. apply IH. by apply split_quiet.
Qed.

(** The range of a window is the filtered scan. *)
Lemma window_range preds chain def : Forall (predicate_fits params) preds → kinds_agree params preds →
  IndexChoice.conjuncts params preds = Some chain → cj_residual chain = false → NoDup (idx_fields def) →
  (length (cj_eqs chain) <= length (idx_fields def))%nat →
  forallb (IndexChoice.held_equal (cj_eqs chain)) (take (length (cj_eqs chain)) (idx_fields def)) = true →
  IndexBinding.range_keys (IndexChoice.binding t def (cj_eqs chain) (cj_gates chain) (length (cj_eqs chain))) store params =
    filter_keys (passes preds store params) (ScanOp.table_membership store t).
Proof.
  intros Hfit Hkinds Hc Hres Hnd Hlen Hheld. set (n := length (cj_eqs chain)) in *. set (b := IndexChoice.binding _ _ _ _ _).
  destruct (conjuncts_fit params preds chain Hfit Hc) as [Hfits Hnde].
  pose proof (conjuncts_quiet preds chain Hc Hres) as [Hid Hors].
  pose proof (prefix_covers (cj_eqs chain) (take n (idx_fields def)) Hnde (sublist_NoDup _ _ Hnd (sublist_take _ _))
    ltac:(rewrite length_take; lia) Hheld) as Hcover.
  pose proof (λ k, binding_range params store t coll (so_tables _ Hstore) Hcoll Hplain def (cj_eqs chain) (cj_gates chain) n k
    Hsmall (cf_eqs _ _ Hfits) (cf_gates _ _ Hfits) Hheld) as Hspec. fold b in Hspec.
  apply map_eq. intros k. apply option_eq. intros w. rewrite filtered_scan. split.
  - intros Hk. destruct (binding_rows b eq_refl k w Hk) as [-> (id & r & Hr & ->)]. split; [done|].
    split; [|exists coll, id; naive_solver]. apply Hspec in Hk as (Hg & _ & He).
    apply (conjuncts_exact params store t coll (so_tables _ Hstore) Hcoll Hplain id r preds chain); [done..|].
    split; [|done|by rewrite Hid|by rewrite Hors]. rewrite Forall_forall in Hcover, He |- *. auto.
  - intros (-> & Hp & c & id & Hc' & -> & [r Hr]).
    assert (c = coll) as -> by (unfold Store.get_collection in Hcoll; congruence).
    destruct (conjuncts_hold params store _ preds chain Hfit Hc Hp) as [He Hg _ _]. apply Hspec. split; [done|].
    split; [by exists id, r|]. pose proof (binding_prefix _ _ Hheld) as Hin. rewrite Forall_forall in Hin, He |- *. auto.
Qed.

(** Bodies name their record key, or none does. *)
Definition ids_uniform : Prop :=
  (∀ id r, c_rows coll !! id = Some r → scalar_of (resolve_field (row_ref r) (MkPath ["id"])) = SNull) ∨
  (∀ id r, c_rows coll !! id = Some r → scalar_of (resolve_field (row_ref r) (MkPath ["id"])) = SStr (row_key t id)).

(** A trailing [id] ascending orders as the tie-break does. *)
Lemma trailing_id specs spec id id' : ids_uniform → is_Some (c_rows coll !! id) → is_Some (c_rows coll !! id') →
  os_field spec = MkPath ["id"] → eq_ignore_ascii_case (os_direction spec) "DESC" = false →
  let sk o k := TopKOp.compute_sort_key (Some o) k store in
  entry_cmp (sk (specs ++ [spec]) (row_key t id), row_key t id) (sk (specs ++ [spec]) (row_key t id'), row_key t id') =
  entry_cmp (sk specs (row_key t id), row_key t id) (sk specs (row_key t id'), row_key t id').
Proof.
  intros Hu [r Hr] [r' Hr'] Hf Hd. cbn zeta. unfold entry_cmp, TopKOp.compute_sort_key. cbn [fst snd].
  rewrite !(get_row_key store t coll) by (apply Hstore || exact Hcoll). unfold rows_get. rewrite Hr, Hr'.
  change (ValueRef.from_opt (sr_value <$> Some r)) with (row_ref r).
  change (ValueRef.from_opt (sr_value <$> Some r')) with (row_ref r').
  set (sv := λ (v : ValueRef) (o : OrderSpec), SortableValue.from_value (resolve_field v (os_field o))
    (eq_ignore_ascii_case (os_direction o) "DESC")).
  change (λ ord, SortableValue.from_value (resolve_field (row_ref r) (os_field ord))
    (eq_ignore_ascii_case (os_direction ord) "DESC")) with (sv (row_ref r)).
  change (λ ord, SortableValue.from_value (resolve_field (row_ref r') (os_field ord))
    (eq_ignore_ascii_case (os_direction ord) "DESC")) with (sv (row_ref r')).
  assert (SortableValue.cmp (sv (row_ref r) spec) (sv (row_ref r') spec) = Eq ∨
    SortableValue.cmp (sv (row_ref r) spec) (sv (row_ref r') spec) = string_cmp (row_key t id) (row_key t id')) as Hx.
  { unfold SortableValue.cmp, sv. rewrite Hf, Hd, !scalar_of_direction. cbn [sv_descending SortableValue.from_value].
    destruct Hu as [Hu|Hu]; rewrite (Hu id r Hr), (Hu id' r' Hr'); [by left|by right]. }
  clearbody sv. rewrite !map_app. cbn [map].
  assert (∀ a b x y, length a = length b → list_cmp SortableValue.cmp (a ++ [x]) (b ++ [y]) =
    cmp_then (list_cmp SortableValue.cmp a b) (SortableValue.cmp x y)) as Happ.
  { clear. induction a as [|a0 a IH]; intros [|b0 b] x y Hl; try done; cbn; [by destruct (SortableValue.cmp x y)|].
    rewrite IH by (cbn in Hl; lia). by destruct (SortableValue.cmp a0 b0). }
  rewrite Happ by by rewrite !length_map.
  destruct (list_cmp _ _ _); cbn [cmp_then]; [|done..]. destruct Hx as [-> | ->]; cbn [cmp_then]; [done|].
  by destruct (string_cmp _ _).
Qed.
Abbreviation filtered preds := (filter_keys (passes preds store params) (ScanOp.table_membership store t)).

Lemma dom_held order z : dom (held_of order store z) = dom (held_of None store z).
Proof. apply set_eq. intros k. rewrite !elem_of_dom, !lookup_held_of. destruct (0 <? weight z k); split; naive_solver. Qed.

(** The window of the kept order is the window of the [ORDER BY]. *)
Lemma window_reference limit start order_by front preds : 0 <= limit → 0 <= start → ids_uniform →
  Forall (λ o, path_ok (os_field o)) (default [] order_by) →
  (default [] order_by = front ∨ ∃ spec, default [] order_by = front ++ [spec] ∧
    Path_as_str (os_field spec) = "id"%string ∧ eq_ignore_ascii_case (os_direction spec) "DESC" = false) →
  reference_window limit start (held_of (Some front) store (filtered preds)) =
  reference_window limit start (held_of order_by store (filtered preds)).
Proof.
  intros Hl Ho Hids Hpaths Hfront.
  apply (reference_window_ext _ _ (Some front) order_by); [done|done|by rewrite (dom_held (Some front)), (dom_held order_by)|by apply Support.held_ok..|].
  assert (∀ k s, held_of (Some front) store (filtered preds) !! k = Some s →
    s = TopKOp.compute_sort_key (Some front) k store ∧
    held_of order_by store (filtered preds) !! k = Some (TopKOp.compute_sort_key order_by k store) ∧
    ∃ id, k = row_key t id ∧ is_Some (c_rows coll !! id)) as Hheld.
  { intros k s. rewrite !lookup_held_of. unfold weight. destruct (filtered preds !! k) as [w|] eqn:E; [|done].
    destruct (0 <? default 0 (Some w)); [|done]. intros [= <-]. split; [done|]. split; [done|].
    apply filtered_scan in E as (_ & _ & c & id & Hc & -> & Hid). exists id.
    assert (c = coll) as -> by (unfold Store.get_collection in Hcoll; congruence). done. }
  intros k k' s s' u u' Hk Hk' Hu Hu'.
  destruct (Hheld k s Hk) as (-> & Hu2 & id & -> & Hid). destruct (Hheld k' s' Hk') as (-> & Hu2' & id' & -> & Hid').
  rewrite Hu in Hu2. rewrite Hu' in Hu2'. injection Hu2 as ->. injection Hu2' as ->.
  destruct order_by as [specs|].
  - change (default [] (Some specs)) with specs in *. destruct Hfront as [->|(spec & -> & Hf & Hd)]; [done|]. symmetry. apply trailing_id; [done..| |done].
    apply Forall_app in Hpaths as [_ Hp]. apply Forall_cons_1 in Hp as [[Hp _] _]. rewrite <- Hp, Hf. done.
  - destruct Hfront as [<-|(spec & Hx & _)]; [|by destruct front]. unfold entry_cmp, TopKOp.compute_sort_key. cbn.
    unfold SortableValue.cmp. cbn. by destruct (string_cmp _ _).
Qed.

(** The planned window is that of [TopK] over the filtered scan. *)
Lemma window_source preds order_by limit start source : Forall (predicate_fits params) preds → kinds_agree params preds →
  ids_uniform → Forall (λ o, path_ok (os_field o)) (default [] order_by) →
  Forall (λ d, NoDup (idx_fields d)) (default [] (defs !! t)) → 0 <= limit → 0 <= start →
  IndexChoice.window defs params t preds order_by limit start = Some source →
  snapshot source [] store params = TopKOp.snapshot (TopKOp.new limit start order_by) [filtered preds] store params.
Proof.
  intros Hfit Hkinds Hids Hpaths Hdefs Hl Ho. unfold IndexChoice.window.
  destruct (IndexChoice.conjuncts params preds) as [chain|] eqn:Ec; [|done]. cbn [option_bind mbind]. cbn zeta.
  destruct (cj_residual chain) eqn:Eres; [done|]. 
  change (map (λ spec, (Path_as_str (os_field spec), eq_ignore_ascii_case (os_direction spec) "DESC")) (default [] order_by))
    with (map order_pair (default [] order_by)).
  destruct (kept_order (default [] order_by)) as (front & Hkept & Hfront). cbn zeta in Hkept. rewrite Hkept. clear Hkept.
  destruct (existsb _ _); [done|]. destruct (List.find _ _) as [def|] eqn:Efind; [|done]. intros [= <-].
  apply find_some in Efind as [Hdef Hcond]. apply andb_prop in Hcond as [[Hlen Hheld]%andb_prop Hrest].
  apply Nat.eqb_eq in Hlen. rewrite length_map in Hlen.
  set (n := length (cj_eqs chain)) in *. set (b := IndexChoice.binding t def (cj_eqs chain) (cj_gates chain) n).
  assert (NoDup (idx_fields def)) as Hnd.
  { rewrite Forall_forall in Hdefs. apply Hdefs. apply list_elem_of_In in Hdef. unfold IndexChoice.candidates in Hdef.
    rewrite sort_by_perm in Hdef. apply list_elem_of_In, filter_In in Hdef as [Hdef _]. by apply list_elem_of_In. }
  pose proof (window_range preds chain def Hfit Hkinds Ec Eres Hnd ltac:(lia) Hheld) as Hrange. fold n b in Hrange.
  set (self := IndexWindowOp.new b limit start (map snd (map order_pair front))).
  change (snapshot (OIndexWindow self) [] store params) with (key_set (IndexWindowOp.read self store params)).
  rewrite snapshot_reference by by apply Support.held_ok. cbn [tk_limit tk_offset tk_order_by TopKOp.new].
  rewrite <- (window_reference limit start order_by front preds); [|done..].
  change (key_set ?l) with (window_zset l). f_equal. rewrite <- Hrange.
  assert (length (ib_prefix b) = n) as Hpre by (unfold b; cbn; rewrite length_map, length_take; lia).
  assert (∀ z, held_of (Some front) store z = held_of (window_order self) store z) as ->.
  { intros z. apply map_eq. intros k. rewrite !lookup_held_of. destruct (0 <? weight z k); [|done]. f_equal.
    unfold window_order. cbn [iw_binding iw_descending IndexWindowOp.new self]. rewrite Hpre. symmetry.
    apply window_sort_key; [|rewrite length_drop; unfold b; cbn; lia|done].
    destruct Hfront as [Hf|(spec & Hf & _)]; rewrite Hf in Hpaths; [done|]. by apply Forall_app in Hpaths as [? _]. }
  destruct (IndexBinding.prefix_values b store params) as [ps|] eqn:Eps.
  - apply (read_sorted store params self coll ps); try done; [apply Hstore| |].
    + by apply (binding_operands (cj_eqs chain) def (cj_gates chain) n); [apply (conjuncts_fit params preds chain Hfit Ec)|done|].
    + cbn. rewrite (prefix_values_length _ _ _ _ Eps), Hpre. rewrite !length_map. lia.
  - unfold IndexWindowOp.read, IndexBinding.range_keys. cbn [iw_binding IndexWindowOp.new self]. rewrite Eps.
    unfold reference_window, sorted_entries, held_of. rewrite map_imap_empty, map_to_list_empty, ztake_spec, zdrop_spec by done.
    by destruct (Z.to_nat start), (Z.to_nat limit).
Qed.
End table.
End scan.

(** ** The claims *)

Section claims.
Context `{HashingLaws} `{OrdSetLaws}.

(** C30: The source [IndexChoice::scan] puts in place of a full scan
    under a chain of filters - one record by key, one index range, or one
    range per branch of an [OR] - starts from Z-set that, filtered by the
    same predicates, is exactly the filtered full scan: no row the filters
    keep is missed and nothing else enters. For rows and operands whose
    numbers are ordinary (no NaN, no negative zero, integers within 2^53) and
    an index build that fits a machine word. *)
Theorem index_scan_answers defs params store t coll preds source :
  store_ok store → Store.get_collection store t = Some coll → rows_plain coll → caches_small coll →
  Forall (predicate_fits params) preds → IndexChoice.scan defs params t preds = Some source →
  ∃ z, initial_input source store params = Some z ∧
    filter_keys (passes preds store params) z = filter_keys (passes preds store params) (ScanOp.table_membership store t).
Proof.
  intros Hs Hc Hp Hsm Hfit Hscan.
  destruct (scan_source defs params store t Hs coll Hc Hp Hsm preds source Hfit Hscan) as (z & Hz & Hrows & Hall).
  exists z. split; [done|]. apply map_eq. intros k. apply option_eq. intros w. rewrite (filtered_scan params store t Hs).
  unfold filter_keys. rewrite map_lookup_filter_Some. cbn. split.
  - intros [Hk Hpass]. destruct (Hrows k w Hk) as [-> (id & r & Hr & ->)]. split; [done|]. split; [done|].
    exists coll, id. naive_solver.
  - intros (-> & Hpass & c & id & Hc' & -> & [r Hr]). split; [|done].
    assert (c = coll) as -> by (unfold Store.get_collection in Hc; congruence). by apply (Hall id r).
Qed.

(** C31: The window [IndexChoice::window] plans, read off the index
    by position ([IndexWindow]), is the window [TopK] computes over the
    filtered full scan for the same [LIMIT], [START] and [ORDER BY], mixed
    directions and the dropped trailing [id] included. Besides ordinary
    numbers this needs: definitions that list no field twice, operands of
    one kind when a field is held equal twice, and bodies that either all
    carry their record key as [id] or all carry none. *)
Theorem index_window_answers defs params store t coll preds order_by limit start source :
  store_ok store → Store.get_collection store t = Some coll → rows_plain coll → caches_small coll →
  Forall (predicate_fits params) preds → kinds_agree params preds → ids_uniform t coll →
  Forall (λ o, path_ok (os_field o)) (default [] order_by) → Forall (λ d, NoDup (idx_fields d)) (default [] (defs !! t)) →
  0 <= limit → 0 <= start →
  IndexChoice.window defs params t preds order_by limit start = Some source →
  snapshot source [] store params = TopKOp.snapshot (TopKOp.new limit start order_by)
    [filter_keys (passes preds store params) (ScanOp.table_membership store t)] store params.
Proof. intros. by apply (window_source defs params store t ltac:(done) coll). Qed.
End claims.

(** ** Witnesses: games of two owners *)

Definition game (owner : string) (at_ : Z) : Sp00kyValue := Object [("owner", Str owner); ("at", Int at_)].

Definition games : Collection :=
  foldl (λ c e, (Collection.apply Create e.1 e.2 c).2) (Collection.new "g")
    [("1", game "a" 5); ("2", game "b" 1); ("3", game "a" 9); ("4", game "a" 5); ("5", game "a" 2)].

Definition games_store : Store := set_collections {["g" := games]} Store.new.

Definition by_owner : gmap string (list IndexDef) := {["g" := [MkIndexDef "by_owner" ["owner"; "at"]]]}.

Definition owned_by_a : Predicate := PEq (Path_new "owner") (VString "a").

Definition latest_first : option (list OrderSpec) := Some [MkOrderSpec (Path_new "at") "desc"; MkOrderSpec (Path_new "id") "asc"].

Lemma games_ok : store_ok games_store.
Proof.
  split; [|by vm_compute]. apply map_Forall_singleton. split; [done|done| |].
  - unfold games. repeat apply apply_inv; done.
  - intros id [r Hr]. assert (map_Forall (λ id _, bool_decide (plain_id "g" id) = true) (c_rows games)) as Hp.
    { apply (bool_decide_unpack (map_Forall _ _)). vm_compute. exact I. }
    exact (bool_decide_eq_true_1 _ (Hp id r Hr)).
Qed.

Lemma games_plain : rows_plain games.
Proof. apply (bool_decide_unpack (map_Forall _ _)). vm_compute. exact I. Qed.

Lemma games_small : caches_small games.
Proof. intros n i p Hi. vm_compute in Hi. discriminate. Qed.

Lemma path_okb p : bool_decide (Path_new (Path_as_str p) = p) && negb (Path_is_empty p) = true → path_ok p.
Proof. intros [Hp%bool_decide_eq_true He]%andb_prop. split; [done|]. unfold Path_is_empty in He. by destruct (segments p). Qed.

Lemma owned_by_a_fits params : predicate_fits params owned_by_a.
Proof. split; [by apply path_okb; vm_compute|]. intros x [= <-]. done. Qed.

Lemma index_scan_answers_witness :
  IndexChoice.scan by_owner None "g" [owned_by_a; PGt (Path_new "at") (VNumber (PosInt 4))] ≠ None ∧
  ∃ z, filter_keys (passes [owned_by_a; PGt (Path_new "at") (VNumber (PosInt 4))] games_store None) z =
    {["g:1" := 1; "g:3" := 1; "g:4" := 1]} ∧ z = {["g:1" := 1; "g:3" := 1; "g:4" := 1; "g:5" := 1]}.
Proof.
  set (preds := [owned_by_a; PGt (Path_new "at") (VNumber (PosInt 4))]).
  destruct (IndexChoice.scan by_owner None "g" preds) as [source|] eqn:Es; [|exfalso; vm_compute in Es; discriminate].
  split; [done|].
  assert (Forall (predicate_fits None) preds) as Hfit.
  { constructor; [apply owned_by_a_fits|]. constructor; [|constructor].
    split; [by apply path_okb; vm_compute|]. intros x Hx. vm_compute in Hx. injection Hx as <-. reflexivity. }
  destruct (index_scan_answers by_owner None games_store "g" games preds source games_ok eq_refl games_plain games_small Hfit Es)
    as (z & Hz & Heq).
  exists z. rewrite Heq. split; [vm_compute; reflexivity|].
  vm_compute in Es. injection Es as <-. vm_compute in Hz. injection Hz as <-. vm_compute. reflexivity.
Defined.

Lemma index_window_answers_witness :
  ∃ source, IndexChoice.window by_owner None "g" [owned_by_a] latest_first 2 1 = Some source ∧
    snapshot source [] games_store None = {["g:1" := 1; "g:4" := 1]} ∧
    snapshot source [] games_store None = TopKOp.snapshot (TopKOp.new 2 1 latest_first)
      [filter_keys (passes [owned_by_a] games_store None) (ScanOp.table_membership games_store "g")] games_store None.
Proof.
  destruct (IndexChoice.window by_owner None "g" [owned_by_a] latest_first 2 1) as [source|] eqn:Es;
    [|exfalso; vm_compute in Es; discriminate].
  exists source. split; [reflexivity|]. split; [vm_compute in Es; injection Es as <-; vm_compute; reflexivity|].
  apply (index_window_answers by_owner None games_store "g" games [owned_by_a] latest_first 2 1 source games_ok eq_refl
    games_plain games_small); [constructor; [apply owned_by_a_fits|constructor]| | | | |lia|lia|exact Es].
  - intros e e' He He' _ x y Hx Hy. vm_compute in He, He'.
    apply list_elem_of_singleton in He, He'. subst. vm_compute in Hx, Hy. injection Hx as <-. injection Hy as <-. reflexivity.
  - left. intros id r Hr. assert (map_Forall (λ _ r, scalar_of (resolve_field (row_ref r) (MkPath ["id"])) = SNull) (c_rows games)) as Hn.
    { apply (bool_decide_unpack (map_Forall _ _)). vm_compute. exact I. }
    exact (Hn id r Hr).
  - repeat constructor; by apply path_okb; vm_compute.
  - change (default [] (by_owner !! "g")) with [MkIndexDef "by_owner" ["owner"; "at"]]. repeat constructor; set_solver.
Defined.

(** ** Where an index and a filter disagree *)

(** A table of one row, its only field [n]. *)
Definition one_row (v : Sp00kyValue) : Store :=
  set_collections {["t" := (Collection.apply Create "1" (Object [("n", v)]) (Collection.new "t")).2]} Store.new.

Definition by_n : gmap string (list IndexDef) := {["t" := [MkIndexDef "by_n" ["n"]]]}.

(** [compare_values] calls values of different kinds equal, so the planner takes
    [n = true AND n = 1] for one equality held twice, and its window shows a
    row the filters reject. *)
Lemma window_mixes_kinds :
  let preds := [PEq (Path_new "n") (VBool true); PEq (Path_new "n") (VNumber (PosInt 1))] in
  let store := one_row (Bool true) in
  (match IndexChoice.window by_n None "t" preds None 10 0 with
   | Some source => snapshot source [] store None
   | None => ∅ end) = {["t:1" := 1]} ∧
  filter_keys (passes preds store None) (ScanOp.table_membership store "t") = ∅.
Proof. split; vm_compute; reflexivity. Qed.

(** The index orders [-0.0] below [0]; the filter calls them equal. *)
Lemma index_misses_negative_zero :
  let preds := [PEq (Path_new "n") (VNumber (PosInt 0))] in
  let store := one_row (Float (F64.of_i64 0)) in
  let negative := one_row (Float (F64 two63)) in
  let scanned store := match IndexChoice.scan by_n None "t" preds with
    | Some source => default ∅ (initial_input source store None)
    | None => ∅ end in
  scanned store = {["t:1" := 1]} ∧ scanned negative = ∅ ∧
  filter_keys (passes preds negative None) (ScanOp.table_membership negative "t") = {["t:1" := 1]}.
Proof. split; [|split]; vm_compute; reflexivity. Qed.
