(* ===== verification/Dag.v ===== *)
(** * Workflow graphs

    Models [packages/schedule-core/src/dag.rs] and the definitions it reads
    from [spec.rs]: validation of a workflow's steps, their execution order,
    and which steps may run or can never run given the statuses of all steps. *)

From S2P Require Import Prelude Platform Value.

(** ** Definitions: spec.rs *)

Record StepDef := MkStepDef {
  sd_name : string;
  sd_path : string;
  sd_table : option string;
  sd_payload : option Value;
  sd_depends_on : list string;
  sd_max_retries : option Z;
  sd_retry_strategy : option string;
  sd_timeout : option Z;
}.

Inductive OnFailure := Halt | ContinueIndependent.

Record WorkflowDef := MkWorkflowDef { wd_steps : list StepDef; wd_on_failure : OnFailure }.

Inductive DagError :=
  | Empty
  | DuplicateStep (name : string)
  | UnknownDependency (step dep : string)
  | SelfDependency (name : string)
  | Cycle (names : list string).

Inductive StepStatus := Blocked | Ready | Dispatched | Success | Failed | Skipped.

#[global] Instance step_status_eq_dec : EqDecision StepStatus.
Proof. solve_decision. Defined.

Module StepStatus.
Definition as_str (s : StepStatus) : string :=
  match s with
  | Blocked => "blocked" | Ready => "ready" | Dispatched => "dispatched"
  | Success => "success" | Failed => "failed" | Skipped => "skipped"
  end.

Definition parse (s : string) : option StepStatus :=
  if String.eqb s "blocked" then Some Blocked
  else if String.eqb s "ready" then Some Ready
  else if String.eqb s "dispatched" then Some Dispatched
  else if String.eqb s "success" then Some Success
  else if String.eqb s "failed" then Some Failed
  else if String.eqb s "skipped" then Some Skipped
  else None.

Definition is_terminal (s : StepStatus) : bool :=
  match s with Success | Failed | Skipped => true | _ => false end.
End StepStatus.

(** A [BTreeMap] with string keys is read in key order. *)
Definition btree_list {A} (m : gmap string A) : list (string * A) :=
  sort_by (λ a b, string_cmp a.1 b.1) (map_to_list m).

(** A validated graph. *)
Record WorkflowDag := MkDag { wg_steps : gmap string StepDef; wg_order : list string }.

(** ** Execution order: Kahn's algorithm by name *)

Section topo.
Context (steps : gmap string StepDef).

(** The edge loop. *)
Definition add_dep (name : string) (acc : gmap string nat * gmap string (list string)) (dep : string)
    : gmap string nat * gmap string (list string) :=
  let '(indegree, dependents) := acc in
  (alter S name indegree, <[dep := default [] (dependents !! dep) ++ [name]]> dependents).

Definition dep_edges : gmap string nat * gmap string (list string) :=
  foldl (λ acc e, foldl (add_dep (sd_name e.2)) acc (sd_depends_on e.2)) ((λ _, 0%nat) <$> steps, ∅) (btree_list steps).

(** One dependent of a popped step. *)
Definition release (acc : gmap string nat * list string) (dependent : string) : gmap string nat * list string :=
  let '(indegree, queue) := acc in
  let indegree := alter pred dependent indegree in
  (indegree, if bool_decide (indegree !! dependent = Some 0%nat) then queue ++ [dependent] else queue).

(** The queue loop. A step is popped once, so as many rounds as there are steps
    empty the queue ([sort_run]). *)
Fixpoint sort_steps (fuel : nat) (dependents : gmap string (list string)) (indegree : gmap string nat)
    (queue order : list string) : list string * gmap string nat :=
  match fuel, queue with
  | S fuel, name :: queue =>
      let '(indegree, queue) := foldl release (indegree, queue) (default [] (dependents !! name)) in
      sort_steps fuel dependents indegree queue (order ++ [name])
  | _, _ => (order, indegree)
  end.

Definition topo_order : DagError + list string :=
  let '(indegree, dependents) := dep_edges in
  let queue := (List.filter (λ e : string * nat, Nat.eqb e.2 0) (btree_list indegree)).*1 in
  let '(order, indegree) := sort_steps (size steps) dependents indegree queue [] in
  if negb (Nat.eqb (length order) (size steps))
  then inl (Cycle (List.filter (λ e : string * nat, Nat.ltb 0 e.2) (btree_list indegree)).*1)
  else inr order.
End topo.

Module WorkflowDag.
(** The loop that collects the steps by name. *)
Fixpoint collect_steps (l : list StepDef) (steps : gmap string StepDef) : DagError + gmap string StepDef :=
  match l with
  | [] => inr steps
  | step :: l =>
      match steps !! sd_name step with
      | Some _ => inl (DuplicateStep (sd_name step))
      | None => collect_steps l (<[sd_name step := step]> steps)
      end
  end.

(** What is wrong with a dependency of a step, if anything. *)
Definition dep_error (steps : gmap string StepDef) (step : StepDef) (dep : string) : option DagError :=
  if String.eqb dep (sd_name step) then Some (SelfDependency (sd_name step))
  else match steps !! dep with
       | None => Some (UnknownDependency (sd_name step) dep)
       | Some _ => None
       end.

(** The first error among the dependencies, steps in name order. *)
Definition first_dep_error (steps : gmap string StepDef) : option DagError :=
  head (flat_map (λ e : string * StepDef, omap (dep_error steps e.2) (sd_depends_on e.2)) (btree_list steps)).

Definition validate (def : WorkflowDef) : DagError + WorkflowDag :=
  match wd_steps def with
  | [] => inl Empty
  | l =>
      match collect_steps l ∅ with
      | inl e => inl e
      | inr steps =>
          match first_dep_error steps with
          | Some e => inl e
          | None =>
              match topo_order steps with
              | inl e => inl e
              | inr order => inr (MkDag steps order)
              end
          end
      end
  end.

Definition steps (self : WorkflowDag) : list StepDef := omap (λ name, wg_steps self !! name) (wg_order self).
Definition step (self : WorkflowDag) (name : string) : option StepDef := wg_steps self !! name.
Definition len (self : WorkflowDag) : nat := size (wg_steps self).
Definition is_empty (self : WorkflowDag) : bool := Nat.eqb (size (wg_steps self)) 0.
Definition roots (self : WorkflowDag) : list StepDef :=
  List.filter (λ s, match sd_depends_on s with [] => true | _ => false end) (steps self).

(** One step of [layers]: [self.steps[name]] is there for every ordered name. *)
Definition add_layer (self : WorkflowDag) (layers : gmap string nat) (name : string) : gmap string nat :=
  match wg_steps self !! name with
  | Some s =>
      let below := omap (λ dep, layers !! dep) (sd_depends_on s) in
      <[name := match below with [] => 0%nat | _ => S (list_max below) end]> layers
  | None => layers
  end.

Definition layers (self : WorkflowDag) : gmap string nat := foldl (add_layer self) ∅ (wg_order self).

(** [deps.iter().all(|dep| statuses.get(dep) == Some(Success))]. *)
Definition deps_succeeded (statuses : gmap string StepStatus) (s : StepDef) : bool :=
  forallb (λ dep, bool_decide (statuses !! dep = Some Success)) (sd_depends_on s).

Definition ready_steps (self : WorkflowDag) (statuses : gmap string StepStatus) : list StepDef :=
  List.filter (λ s, bool_decide (statuses !! sd_name s = Some Blocked) && deps_succeeded statuses s) (steps self).

(** A step that broke: what dooms the steps after it. *)
Definition broken (status : option StepStatus) : bool :=
  match status with Some Failed | Some Skipped => true | _ => false end.

Definition unstarted (status : option StepStatus) : bool :=
  match status with Some Blocked | Some Ready => true | _ => false end.

(** One name of the forward pass. *)
Definition doom_one (self : WorkflowDag) (statuses : gmap string StepStatus) (doomed : gmap string string) (name : string)
    : gmap string string :=
  match wg_steps self !! name with
  | Some s =>
      if negb (unstarted (statuses !! name)) then doomed
      else match List.find (λ dep, bool_decide (is_Some (doomed !! dep)) || broken (statuses !! dep)) (sd_depends_on s) with
           | Some blocker => <[name := blocker]> doomed
           | None => doomed
           end
  | None => doomed
  end.

Definition doomed_steps (self : WorkflowDag) (statuses : gmap string StepStatus) : list (StepDef * string) :=
  let doomed := foldl (doom_one self statuses) ∅ (wg_order self) in
  omap (λ e : string * string, let? s := wg_steps self !! e.1 in Some (s, e.2)) (btree_list doomed).
End WorkflowDag.
