(* ===== verification/DagFacts.v ===== *)
(** * Facts of workflow graphs

    Validation accepts exactly the graphs a workflow can run: named steps,
    known dependencies and no cycle; and it orders every step after the steps
    it waits for. *)

From S2P Require Import Prelude Platform Value Dag.

(** ** Counting occurrences *)

Definition occ (n : string) (l : list string) : nat := length (List.filter (String.eqb n) l).

Lemma occ_app n l k : occ n (l ++ k) = (occ n l + occ n k)%nat.
Proof. unfold occ. by rewrite List.filter_app, length_app. Qed.

Lemma occ_cons n a l : occ n (a :: l) = ((if String.eqb n a then 1 else 0) + occ n l)%nat.
Proof. unfold occ. cbn. by destruct (String.eqb n a). Qed.

Lemma btree_list_perm {A} (m : gmap string A) : btree_list m ≡ₚ map_to_list m.
Proof. apply sort_by_perm. Qed.

Lemma elem_of_btree_list {A} (m : gmap string A) k a : (k, a) ∈ btree_list m ↔ m !! k = Some a.
Proof. rewrite btree_list_perm. apply elem_of_map_to_list. Qed.

Lemma btree_list_NoDup {A} (m : gmap string A) : NoDup (btree_list m).*1.
Proof. rewrite btree_list_perm. apply NoDup_fst_map_to_list. Qed.

Section order.
Context (steps : gmap string StepDef).
Hypothesis Hnames : map_Forall (λ n s, sd_name s = n) steps.

(** Unfinished dependencies of a step. *)
Definition waiting (order : list string) (s : StepDef) : nat :=
  length (List.filter (λ d, negb (bool_decide (d ∈ order))) (sd_depends_on s)).

(** ** The edges *)

Lemma add_deps_spec name deps ind dts :
  let '(ind', dts') := foldl (add_dep name) (ind, dts) deps in
  (∀ n, ind' !! n = if String.eqb n name then (λ k, (k + length deps)%nat) <$> ind !! n else ind !! n) ∧
  (∀ d n, occ n (default [] (dts' !! d)) = (occ n (default [] (dts !! d)) + if String.eqb n name then occ d deps else 0)%nat).
Proof.
  revert ind dts. induction deps as [|dep deps IH]; intros ind dts; cbn [foldl].
  - split.
    + intros n. destruct (String.eqb n name); [|done]. destruct (ind !! n); cbn; [f_equal; lia|done].
    + intros d n. destruct (String.eqb n name); unfold occ; cbn; lia.
  - cbn [add_dep]. specialize (IH (alter S name ind) (<[dep := default [] (dts !! dep) ++ [name]]> dts)).
    destruct (foldl _ _ deps) as [ind' dts']. destruct IH as [H1 H2]. split.
    + intros n. rewrite H1. destruct (String.eqb_spec n name) as [->|Hne].
      * rewrite lookup_alter_eq. destruct (ind !! name); cbn; [f_equal; lia|done].
      * by rewrite lookup_alter_ne.
    + intros d n. rewrite H2, occ_cons. destruct (String.eqb_spec d dep) as [->|Hne].
      * rewrite lookup_insert_eq. cbn [default from_option id]. rewrite occ_app, occ_cons. cbn.
        destruct (String.eqb n name); lia.
      * by rewrite lookup_insert_ne.
Qed.

Lemma dep_edges_spec : let '(ind, dts) := dep_edges steps in
  (∀ n, ind !! n = (λ s, length (sd_depends_on s)) <$> steps !! n) ∧
  (∀ d n, occ n (default [] (dts !! d)) = match steps !! n with Some s => occ d (sd_depends_on s) | None => 0%nat end).
Proof.
  unfold dep_edges.
  assert (∀ l ind dts, NoDup l.*1 → (∀ e, e ∈ l → steps !! e.1 = Some e.2) →
    (∀ n, n ∈ l.*1 → ind !! n = Some 0%nat ∧ ∀ d, occ n (default [] (dts !! d)) = 0%nat) →
    let '(ind', dts') := foldl (λ acc e, foldl (add_dep (sd_name e.2)) acc (sd_depends_on e.2)) (ind, dts) l in
    (∀ n, n ∉ l.*1 → ind' !! n = ind !! n ∧ ∀ d, occ n (default [] (dts' !! d)) = occ n (default [] (dts !! d))) ∧
    (∀ n s, (n, s) ∈ l → ind' !! n = Some (length (sd_depends_on s)) ∧
      ∀ d, occ n (default [] (dts' !! d)) = occ d (sd_depends_on s))) as Hfold.
  { induction l as [|[n0 s0] l IH]; intros ind dts Hnd Hin Hzero; cbn [foldl].
    { split; [done|]. intros n s Hx. by apply elem_of_nil in Hx. }
    apply NoDup_cons in Hnd as [Hn0 Hnd]. cbn [fst snd] in *.
    assert (sd_name s0 = n0) as Hs0 by (apply Hnames, (Hin (n0, s0)); set_solver). rewrite Hs0.
    pose proof (add_deps_spec n0 (sd_depends_on s0) ind dts) as Hadd.
    destruct (foldl (add_dep n0) (ind, dts) (sd_depends_on s0)) as [ind1 dts1]. destruct Hadd as [A1 A2].
    assert (∀ n, n ≠ n0 → ind1 !! n = ind !! n ∧ ∀ d, occ n (default [] (dts1 !! d)) = occ n (default [] (dts !! d))) as Hother.
    { intros n Hne. split; [rewrite A1|intros d; rewrite A2]; destruct (String.eqb_spec n n0); try done; lia. }
    specialize (IH ind1 dts1 Hnd ltac:(set_solver)).
    destruct (foldl _ (ind1, dts1) l) as [ind' dts']. destruct IH as [I1 I2].
    { intros n Hn. assert (n ≠ n0) as Hne by set_solver. destruct (Hother n Hne) as [O1 O2]. rewrite O1.
      destruct (Hzero n) as [Z1 Z2]; [set_solver|]. split; [done|]. intros d. by rewrite O2. }
    split.
    - intros n Hn. assert (n ≠ n0 ∧ n ∉ l.*1) as [Hne Hnl] by set_solver. destruct (I1 n Hnl) as [J1 J2], (Hother n Hne) as [O1 O2].
      split; [by rewrite J1|]. intros d. by rewrite J2.
    - intros n s [[= -> ->]|Hns]%elem_of_cons; [|by apply I2].
      destruct (I1 n0 Hn0) as [J1 J2]. destruct (Hzero n0) as [Z1 Z2]; [set_solver|].
      split; [rewrite J1, A1, String.eqb_refl, Z1; done|]. intros d. rewrite J2, A2, String.eqb_refl, Z2. done. }
  specialize (Hfold (btree_list steps) ((λ _, 0%nat) <$> steps) ∅ (btree_list_NoDup steps)).
  destruct (foldl _ _ (btree_list steps)) as [ind dts]. destruct Hfold as [F1 F2].
  { intros [n s] Hx. by apply elem_of_btree_list. }
  { intros n ([n' s] & -> & Hx%elem_of_btree_list)%list_elem_of_fmap. cbn. rewrite lookup_fmap, Hx. split; [done|].
    intros d. by rewrite lookup_empty. }
  assert (∀ n, steps !! n = None → n ∉ (btree_list steps).*1) as Hnone.
  { intros n Hn ([n' s] & -> & Hx%elem_of_btree_list)%list_elem_of_fmap. cbn in Hn. congruence. }
  split.
  - intros n. destruct (steps !! n) as [s|] eqn:E; cbn.
    + apply F2. by apply elem_of_btree_list.
    + rewrite (proj1 (F1 n (Hnone n E))), lookup_fmap, E. done.
  - intros d n. destruct (steps !! n) as [s|] eqn:E.
    + apply F2. by apply elem_of_btree_list.
    + rewrite (proj2 (F1 n (Hnone n E))), lookup_empty. done.
Qed.

(** ** The queue loop *)

(** The counters count what each step still waits for, plus the dependents
    [pending] of the step just popped that are still to be told. *)
Record sort_inv (pending : list string) (ind : gmap string nat) (queue order : list string) : Prop := {
  si_nodup : NoDup (order ++ queue);
  si_dom : ∀ n, n ∈ order ++ queue → is_Some (steps !! n);
  si_count : ∀ n, ind !! n = (λ s, (waiting order s + occ n pending)%nat) <$> steps !! n;
  si_free : ∀ n, is_Some (steps !! n) → n ∈ order ++ queue ↔ ind !! n = Some 0%nat;
  si_topo : ∀ i n s, order !! i = Some n → steps !! n = Some s → Forall (λ d, d ∈ take i order) (sd_depends_on s);
}.

Lemma release_spec pending ind queue order n : is_Some (steps !! n) → sort_inv (n :: pending) ind queue order →
  let '(ind', queue') := release (ind, queue) n in sort_inv pending ind' queue' order.
Proof.
  intros [s Hs] [Hnd Hdom Hcount Hfree Htopo]. unfold release.
  assert (ind !! n = Some (S (waiting order s + occ n pending))) as Hn.
  { rewrite Hcount, Hs. cbn [fmap option_fmap option_map]. f_equal. rewrite occ_cons, String.eqb_refl. lia. }
  assert (n ∉ order ++ queue) as Hout by (rewrite Hfree, Hn by eauto; done).
  assert (∀ m, alter pred n ind !! m = (λ s, (waiting order s + occ m pending)%nat) <$> steps !! m) as Hcount'.
  { intros m. destruct (String.eqb_spec m n) as [->|Hne].
    - rewrite lookup_alter_eq, Hn, Hs. done.
    - rewrite lookup_alter_ne, Hcount by done. destruct (steps !! m); cbn [fmap option_fmap option_map]; [|done]. f_equal. rewrite occ_cons.
      destruct (String.eqb_spec m n); [done|lia]. }
  rewrite Hcount', Hs. cbn [fmap option_fmap option_map]. case_bool_decide as Hz.
  - split; [| |done| |done].
    + rewrite (assoc_L (++)). apply NoDup_app. split; [done|]. split; [set_solver|]. apply NoDup_singleton.
    + intros m. rewrite (assoc_L (++)), elem_of_app, list_elem_of_singleton. intros [Hm| ->]; [by apply Hdom|eauto].
    + intros m Hm. rewrite (assoc_L (++)), elem_of_app, list_elem_of_singleton.
      destruct (String.eqb_spec m n) as [->|Hne]; [rewrite lookup_alter_eq, Hn; cbn; split; [intros _; congruence|by right]|].
      rewrite lookup_alter_ne, <- Hfree by done. naive_solver.
  - split; [done|done|done| |done]. intros m Hm. rewrite Hfree by done. destruct (String.eqb_spec m n) as [->|Hne].
    + rewrite lookup_alter_eq, Hn. cbn. split; [done|]. intros Hx. congruence.
    + by rewrite lookup_alter_ne.
Qed.

Lemma release_all ind queue order pending : (∀ n, n ∈ pending → is_Some (steps !! n)) →
  sort_inv pending ind queue order →
  let '(ind', queue') := foldl release (ind, queue) pending in sort_inv [] ind' queue' order.
Proof.
  revert ind queue. induction pending as [|n pending IH]; intros ind queue Hin Hinv; cbn [foldl]; [done|].
  pose proof (release_spec pending ind queue order n (Hin n ltac:(set_solver)) Hinv) as Hr.
  destruct (release (ind, queue) n) as [ind' queue']. apply IH; [set_solver|done].
Qed.

Lemma waiting_pop order name s : name ∉ order →
  waiting order s = (waiting (order ++ [name]) s + occ name (sd_depends_on s))%nat.
Proof.
  intros Hn. unfold waiting, occ. induction (sd_depends_on s) as [|d deps IH]; [done|]. cbn [List.filter].
  destruct (String.eqb_spec name d) as [->|Hne].
  - rewrite (bool_decide_eq_false_2 (d ∈ order)) by done. rewrite (bool_decide_eq_true_2 (d ∈ order ++ [d])) by set_solver.
    cbn. lia.
  - destruct (decide (d ∈ order)).
    + rewrite (bool_decide_eq_true_2 (d ∈ order)), (bool_decide_eq_true_2 (d ∈ order ++ [name])) by set_solver. done.
    + rewrite (bool_decide_eq_false_2 (d ∈ order)), (bool_decide_eq_false_2 (d ∈ order ++ [name])) by set_solver. cbn. lia.
Qed.

Lemma waiting_zero order s : waiting order s = 0%nat ↔ Forall (λ d, d ∈ order) (sd_depends_on s).
Proof.
  unfold waiting. induction (sd_depends_on s) as [|d deps IH]; cbn; [by split|]. rewrite Forall_cons.
  case_bool_decide; cbn; [rewrite IH; naive_solver|]. split; [done|naive_solver].
Qed.

Section run.
Context (dts : gmap string (list string)).
Hypothesis Hdts : ∀ d n, occ n (default [] (dts !! d)) = match steps !! n with Some s => occ d (sd_depends_on s) | None => 0%nat end.

Lemma dependents_known d n : n ∈ default [] (dts !! d) → is_Some (steps !! n).
Proof.
  intros Hn. pose proof (Hdts d n) as Hocc. destruct (steps !! n); [by eexists|]. exfalso.
  unfold occ in Hocc. apply length_zero_iff_nil in Hocc. apply list_elem_of_In in Hn.
  assert (In n (List.filter (String.eqb n) (default [] (dts !! d)))) as Hx by (apply filter_In; by rewrite String.eqb_refl).
  by rewrite Hocc in Hx.
Qed.

(** Popping a step keeps the invariant. *)
Lemma pop_spec ind queue order name : sort_inv [] ind (name :: queue) order →
  let '(ind', queue') := foldl release (ind, queue) (default [] (dts !! name)) in sort_inv [] ind' queue' (order ++ [name]).
Proof.
  intros [Hnd Hdom Hcount Hfree Htopo]. apply release_all; [apply dependents_known|].
  assert (name ∉ order) as Hout.
  { apply NoDup_app in Hnd as (_ & Hx & _). intros Hin. apply (Hx name Hin). set_solver. }
  assert (order ++ name :: queue = (order ++ [name]) ++ queue) as Hassoc by by rewrite <- (assoc_L (++)).
  assert (∀ n, ind !! n = (λ s, (waiting (order ++ [name]) s + occ n (default [] (dts !! name)))%nat) <$> steps !! n) as Hcount'.
  { intros n. rewrite Hcount, Hdts. destruct (steps !! n) as [s|]; cbn [fmap option_fmap option_map]; [|done]. f_equal.
    rewrite (waiting_pop order name s Hout). change (occ n []) with 0%nat. lia. }
  split; [by rewrite <- Hassoc|by rewrite <- Hassoc|done|by rewrite <- Hassoc|].
  intros i n s Hi Hs. apply lookup_app_Some in Hi as [Hi|[Hlen Hi]].
  - specialize (Htopo i n s Hi Hs). apply lookup_lt_Some in Hi. rewrite take_app_le by lia. done.
  - apply list_lookup_singleton_Some in Hi as [Hi ->]. assert (i = length order) as -> by lia.
    rewrite take_app_length. apply waiting_zero.
    destruct (Hfree n ltac:(eauto)) as [Hz _]. specialize (Hz ltac:(set_solver)). rewrite Hcount, Hs in Hz. cbn [fmap option_fmap option_map] in Hz.
    injection Hz as Hz. lia.
Qed.

(** Every round pops one step, so the fuel of the call empties the queue. *)
Lemma sort_run fuel ind queue order : (size steps <= length order + fuel)%nat → sort_inv [] ind queue order →
  let '(order', ind') := sort_steps fuel dts ind queue order in sort_inv [] ind' [] order'.
Proof.
  revert ind queue order. induction fuel as [|fuel IH]; intros ind queue order Hfuel Hinv.
  - cbn. assert (queue = []) as ->; [|done].
    destruct Hinv as [Hnd Hdom _ _ _]. assert (length (order ++ queue) <= size steps)%nat as Hle.
    { rewrite <- (length_map_to_list steps), <- (length_fmap fst). apply submseteq_length, NoDup_submseteq; [done|].
      intros n [s Hs]%Hdom. apply list_elem_of_fmap. exists (n, s). by rewrite elem_of_map_to_list. }
    rewrite length_app in Hle. destruct queue; [done|cbn in Hle; lia].
  - destruct queue as [|name queue]; [done|]. cbn [sort_steps].
    pose proof (pop_spec ind queue order name Hinv) as Hpop.
    destruct (foldl release _ _) as [ind' queue']. apply IH; [|done]. rewrite length_app. cbn. lia.
Qed.
End run.

(** ** The order *)

(** Positions in a list without repetitions rank what comes before. *)
Lemma placed_rank (order : list string) : NoDup order →
  ∃ rank : string → nat, ∀ i n d, order !! i = Some n → d ∈ take i order → (rank d < rank n)%nat.
Proof.
  intros Hnd.
  exists (λ n, match list_find (λ m, m = n) order with Some (i, _) => i | None => 0%nat end). intros i n d Hi Hd.
  assert (∀ i m, order !! i = Some m → list_find (λ x, x = m) order = Some (i, m)) as Hfind.
  { intros i' m Hi'. apply list_find_Some. split; [done|]. split; [done|]. intros j y Hj Hlt ->.
    assert (j = i') by (by eapply NoDup_lookup). lia. }
  apply elem_of_take in Hd as (j & Hj & Hlt). rewrite (Hfind j d Hj), (Hfind i n Hi). done.
Qed.

Lemma elem_of_counted (ind : gmap string nat) (p : nat → bool) n :
  n ∈ (List.filter (λ e : string * nat, p e.2) (btree_list ind)).*1 ↔ ∃ k, ind !! n = Some k ∧ p k = true.
Proof.
  rewrite list_elem_of_fmap. split.
  - intros ([n' k] & -> & Hin). rewrite list_elem_of_In, filter_In, <- list_elem_of_In in Hin.
    destruct Hin as [Hin%elem_of_btree_list Hp]. by exists k.
  - intros (k & Hk & Hp). exists (n, k). split; [done|]. rewrite list_elem_of_In, filter_In, <- list_elem_of_In.
    split; [by apply elem_of_btree_list|done].
Qed.

(** Every step once, after all it depends on. *)
Record ordered_steps (order : list string) : Prop := {
  os_once : NoDup order;
  os_all : ∀ n, n ∈ order ↔ is_Some (steps !! n);
  os_after : ∀ i n s, order !! i = Some n → steps !! n = Some s → Forall (λ d, d ∈ take i order) (sd_depends_on s);
}.

Lemma topo_order_spec : (∀ n s d, steps !! n = Some s → d ∈ sd_depends_on s → is_Some (steps !! d)) →
  match topo_order steps with
  | inr order => ordered_steps order
  | inl e => ∃ c, e = Cycle c ∧ c ≠ [] ∧ (∀ n, n ∈ c → ∃ s d, steps !! n = Some s ∧ d ∈ sd_depends_on s ∧ d ∈ c) ∧
      ∃ rank : string → nat, ∀ n s d, steps !! n = Some s → n ∉ c → d ∈ sd_depends_on s → d ∉ c ∧ (rank d < rank n)%nat
  end.
Proof.
  intros Hknown. unfold topo_order. pose proof dep_edges_spec as Hedges. destruct (dep_edges steps) as [ind dts].
  destruct Hedges as [E1 E2]. set (queue := (List.filter _ (btree_list ind)).*1).
  assert (sort_inv [] ind queue []) as Hinit.
  { assert (∀ n, n ∈ queue ↔ ind !! n = Some 0%nat) as Hq.
    { intros n. unfold queue. rewrite (elem_of_counted ind (λ k, Nat.eqb k 0)). split.
      - intros (k & Hk & ->%Nat.eqb_eq). done.
      - intros Hk. by exists 0%nat. }
    split; cbn [app]; [| | |by intros n _; apply Hq|done].
    - unfold queue. pose proof (btree_list_NoDup ind) as Hnd. revert Hnd. generalize (btree_list ind). clear.
      intros l Hnd. induction l as [|e l IH]; [constructor|].
      cbn in Hnd |- *. apply NoDup_cons in Hnd as [He Hnd]. destruct (Nat.eqb e.2 0); [|by apply IH]. cbn. constructor; [|by apply IH].
      intros (e' & He' & Hin)%list_elem_of_fmap. apply He. rewrite He'. apply list_elem_of_fmap. exists e'. split; [done|].
      apply list_elem_of_In, filter_In in Hin as [Hin _]. by apply list_elem_of_In.
    - intros n Hn%Hq. rewrite E1 in Hn. destruct (steps !! n); [by eexists|done].
    - intros n. rewrite E1. destruct (steps !! n) as [s|]; [|done]. cbn [fmap option_fmap option_map]. f_equal.
      change (occ n []) with 0%nat. unfold waiting. rewrite Nat.add_0_r. f_equal. symmetry.
      induction (sd_depends_on s) as [|d deps IH]; [done|]. cbn. by rewrite IH. }
  pose proof (sort_run dts E2 (size steps) ind queue [] ltac:(cbn; lia) Hinit) as Hrun.
  destruct (sort_steps _ dts ind queue []) as [order ind'].
  destruct Hrun as [Hnd Hdom Hcount Hfree Htopo]. rewrite app_nil_r in *.
  assert (order ⊆+ (map_to_list steps).*1) as Hsub.
  { apply NoDup_submseteq; [done|]. intros n [s Hs]%Hdom. apply list_elem_of_fmap. exists (n, s). by rewrite elem_of_map_to_list. }
  assert (length (map_to_list steps).*1 = size steps) as Hsize by by rewrite length_fmap, length_map_to_list.
  destruct (Nat.eqb_spec (length order) (size steps)) as [Heq|Hne]; cbn [negb].
  - split; [done| |done]. intros n. split; [apply Hdom|]. intros [s Hs].
    rewrite (submseteq_length_Permutation _ _ Hsub) by lia. apply list_elem_of_fmap. exists (n, s). by rewrite elem_of_map_to_list.
  - eexists. split; [reflexivity|].
    assert (∀ n, n ∈ (List.filter (λ e : string * nat, Nat.ltb 0 e.2) (btree_list ind')).*1 ↔ is_Some (steps !! n) ∧ n ∉ order) as Hc.
    { intros n. rewrite (elem_of_counted ind' (λ k, Nat.ltb 0 k)). split.
      - intros (k & Hk & Hpos%Nat.ltb_lt). assert (is_Some (steps !! n)) as Hn by (rewrite Hcount in Hk; destruct (steps !! n); [by eexists|done]).
        split; [done|]. rewrite (Hfree n) by done. intros Hz. rewrite Hk in Hz. injection Hz. lia.
      - intros [[s Hs] Hout]. rewrite Hcount, Hs. cbn [fmap option_fmap option_map]. eexists. split; [reflexivity|]. apply Nat.ltb_lt.
        rewrite (Hfree n), Hcount, Hs in Hout by eauto. cbn [fmap option_fmap option_map] in Hout.
        assert (waiting order s + occ n [] ≠ 0)%nat by congruence. lia. }
    split.
    + intros Hnil. assert (∀ n, is_Some (steps !! n) → n ∈ order) as Hall.
      { intros n Hn. destruct (decide (n ∈ order)); [done|]. assert (n ∈ @nil string) as Hx by (rewrite <- Hnil; by apply Hc).
        by apply elem_of_nil in Hx. }
      apply Hne. rewrite <- Hsize. apply Nat.le_antisymm; [by apply submseteq_length|]. apply submseteq_length, NoDup_submseteq;
        [apply NoDup_fst_map_to_list|]. intros n ([n' s] & -> & Hs%elem_of_map_to_list)%list_elem_of_fmap. apply Hall. by eexists.
    + split; [intros n [[s Hs] Hout]%Hc; exists s|].
      assert (waiting order s ≠ 0%nat) as Hw.
      { rewrite (Hfree n), Hcount, Hs in Hout by eauto. intros Hz. apply Hout. cbn [fmap option_fmap option_map]. rewrite Hz. done. }
      rewrite waiting_zero in Hw. apply not_Forall_Exists in Hw; [|apply _]. apply Exists_exists in Hw as (d & Hd & Hdout).
      exists d. split; [done|]. split; [done|]. apply Hc. split; [by eapply Hknown|done].
      destruct (placed_rank order Hnd) as [rank Hrank]. exists rank. intros n s d Hs Hn Hd.
      assert (n ∈ order) as [i Hi]%list_elem_of_lookup.
      { destruct (decide (n ∈ order)); [done|]. destruct Hn. apply Hc. by eauto. }
      specialize (Htopo i n s Hi Hs). rewrite Forall_forall in Htopo. specialize (Htopo d Hd).
      split; [|by apply (Hrank i)]. intros [_ Hout]%Hc. apply Hout. apply elem_of_take in Htopo as (j & Hj & _).
      by apply list_elem_of_lookup_2 in Hj.
Qed.
End order.

(** ** Validation *)

Lemma collect_spec l acc : match WorkflowDag.collect_steps l acc with
  | inr m => NoDup (map sd_name l) ∧ (∀ n, n ∈ map sd_name l → acc !! n = None) ∧
      ∀ n s, m !! n = Some s ↔ acc !! n = Some s ∨ (s ∈ l ∧ sd_name s = n)
  | inl e => ∃ n, e = DuplicateStep n ∧ ((∃ s, acc !! n = Some s ∧ n ∈ map sd_name l) ∨ ¬ NoDup (map sd_name l))
  end.
Proof.
  revert acc. induction l as [|s l IH]; intros acc; cbn [WorkflowDag.collect_steps map].
  - split; [constructor|]. split; [set_solver|]. set_solver.
  - destruct (acc !! sd_name s) as [s'|] eqn:E.
    + exists (sd_name s). split; [done|]. left. exists s'. set_solver.
    + specialize (IH (<[sd_name s := s]> acc)). destruct (WorkflowDag.collect_steps l _) as [e|m].
      * destruct IH as (n & -> & [(s' & Hs' & Hin)|Hdup]); exists n; (split; [done|]).
        -- destruct (decide (n = sd_name s)) as [->|]; [right; rewrite NoDup_cons; naive_solver|].
           rewrite lookup_insert_ne in Hs' by done. left. exists s'. set_solver.
        -- right. rewrite NoDup_cons. naive_solver.
      * destruct IH as (Hnd & Hnone & Hm). assert (sd_name s ∉ map sd_name l) as Hout.
        { intros Hin. specialize (Hnone _ Hin). by rewrite lookup_insert_eq in Hnone. }
        split; [by constructor|]. split.
        -- intros n [->|Hin]%elem_of_cons; [done|]. specialize (Hnone n Hin). apply lookup_insert_None in Hnone. naive_solver.
        -- intros n s'. rewrite Hm, lookup_insert_Some, elem_of_cons. naive_solver.
Qed.

(** What a workflow needs to run: steps with names of their own, known
    dependencies, and a ranking that puts every dependency below its step. *)
Record well_formed (def : WorkflowDef) : Prop := {
  wf_some : wd_steps def ≠ [];
  wf_names : NoDup (map sd_name (wd_steps def));
  wf_known : ∀ s d, s ∈ wd_steps def → d ∈ sd_depends_on s → d ∈ map sd_name (wd_steps def);
  wf_acyclic : ∃ rank : string → nat, ∀ s d, s ∈ wd_steps def → d ∈ sd_depends_on s → (rank d < rank (sd_name s))%nat;
}.

(** A validated graph of a definition. *)
Record dag_of (def : WorkflowDef) (dag : WorkflowDag) : Prop := {
  do_steps : ∀ n s, wg_steps dag !! n = Some s ↔ s ∈ wd_steps def ∧ sd_name s = n;
  do_order : ordered_steps (wg_steps dag) (wg_order dag);
  do_wf : well_formed def;
}.

Lemma dep_error_spec steps : match WorkflowDag.first_dep_error steps with
  | None => ∀ n s d, steps !! n = Some s → d ∈ sd_depends_on s → d ≠ sd_name s ∧ is_Some (steps !! d)
  | Some e => ∃ n s d, steps !! n = Some s ∧ d ∈ sd_depends_on s ∧ WorkflowDag.dep_error steps s d = Some e
  end.
Proof.
  unfold WorkflowDag.first_dep_error.
  assert (∀ e, e ∈ flat_map (λ e : string * StepDef, omap (WorkflowDag.dep_error steps e.2) (sd_depends_on e.2)) (btree_list steps) ↔
    ∃ n s d, steps !! n = Some s ∧ d ∈ sd_depends_on s ∧ WorkflowDag.dep_error steps s d = Some e) as Hel.
  { intros e. rewrite list_elem_of_In, in_flat_map. split.
    - intros ([n s] & Hin & He). apply list_elem_of_In, elem_of_btree_list in Hin.
      apply list_elem_of_In, list_elem_of_omap in He as (d & Hd & He). by exists n, s, d.
    - intros (n & s & d & Hs & Hd & He). exists (n, s). split; [by apply list_elem_of_In, elem_of_btree_list|].
      apply list_elem_of_In, list_elem_of_omap. by exists d. }
  destruct (flat_map _ _) as [|e l] eqn:E; cbn [head].
  - intros n s d Hs Hd. destruct (WorkflowDag.dep_error steps s d) as [e|] eqn:Ee.
    { assert (e ∈ @nil DagError) as Hx by (apply Hel; by exists n, s, d). by apply elem_of_nil in Hx. }
    unfold WorkflowDag.dep_error in Ee. destruct (String.eqb_spec d (sd_name s)); [done|].
    destruct (steps !! d); [|done]. split; [done|by eexists].
  - apply Hel. apply list_elem_of_here.
Qed.

(** An execution order ranks every dependency below its step. *)
Lemma order_rank steps order : ordered_steps steps order →
  ∃ rank : string → nat, ∀ n s d, steps !! n = Some s → d ∈ sd_depends_on s → (rank d < rank n)%nat.
Proof.
  intros [Hnd Hall Hafter]. destruct (placed_rank order Hnd) as [rank Hrank]. exists rank. intros n s d Hs Hd.
  pose proof (proj2 (Hall n) ltac:(eauto)) as [i Hi]%list_elem_of_lookup.
  pose proof (Hafter i n s Hi Hs) as Hf. rewrite Forall_forall in Hf. by apply (Hrank i), Hf.
Qed.

Lemma validate_sound def dag : WorkflowDag.validate def = inr dag → dag_of def dag.
Proof.
  unfold WorkflowDag.validate. destruct (wd_steps def) as [|s0 l] eqn:El; [done|]. rewrite <- El.
  pose proof (collect_spec (wd_steps def) ∅) as Hc. destruct (WorkflowDag.collect_steps _ _) as [e|m]; [done|].
  destruct Hc as (Hnd & _ & Hm). pose proof (dep_error_spec m) as Hd. destruct (WorkflowDag.first_dep_error m); [done|].
  assert (∀ n s, m !! n = Some s ↔ s ∈ wd_steps def ∧ sd_name s = n) as Hm'.
  { intros n s. rewrite Hm, lookup_empty. naive_solver. }
  assert (map_Forall (λ n s, sd_name s = n) m) as Hnames by (intros n s [_ ?]%Hm'; done).
  pose proof (topo_order_spec m Hnames (λ n s d Hs Hin, proj2 (Hd n s d Hs Hin))) as Ht.
  destruct (topo_order m) as [e|order]; [done|]. intros [= <-]. split; [done|done|].
  destruct (order_rank m order Ht) as [rank Hrank].
  split; [by rewrite El|done| |].
  - intros s d Hs Hin. destruct (Hd (sd_name s) s d ltac:(by apply Hm') Hin) as [_ [s' Hs']].
    apply Hm' in Hs' as [Hs' <-]. by apply list_elem_of_In, in_map, list_elem_of_In.
  - exists rank. intros s d Hs Hin. apply (Hrank (sd_name s) s d); [by apply Hm'|done].
Qed.

Lemma validate_complete def : well_formed def → ∃ dag, WorkflowDag.validate def = inr dag.
Proof.
  intros [Hsome Hnames Hknown [rank Hrank]]. unfold WorkflowDag.validate.
  destruct (wd_steps def) as [|s0 l] eqn:El; [done|]. rewrite <- El in *.
  pose proof (collect_spec (wd_steps def) ∅) as Hc. destruct (WorkflowDag.collect_steps _ _) as [e|m].
  { destruct Hc as (n & -> & [(s & Hs & _)|Hdup]); [by rewrite lookup_empty in Hs|done]. }
  destruct Hc as (_ & _ & Hm).
  assert (∀ n s, m !! n = Some s ↔ s ∈ wd_steps def ∧ sd_name s = n) as Hm'.
  { intros n s. rewrite Hm, lookup_empty. naive_solver. }
  assert (∀ n s d, m !! n = Some s → d ∈ sd_depends_on s → is_Some (m !! d) ∧ (rank d < rank n)%nat) as Hdeps.
  { intros n s d [Hs <-]%Hm' Hin. split; [|by apply Hrank]. specialize (Hknown s d Hs Hin).
    apply list_elem_of_In, in_map_iff in Hknown as (s' & <- & Hs'%list_elem_of_In). exists s'. by apply Hm'. }
  pose proof (dep_error_spec m) as Hd. destruct (WorkflowDag.first_dep_error m) as [e|].
  { exfalso. destruct Hd as (n & s & d & Hs & Hin & He). destruct (Hdeps n s d Hs Hin) as [[s' Hs'] Hlt].
    unfold WorkflowDag.dep_error in He. apply Hm' in Hs as [_ <-]. destruct (String.eqb_spec d (sd_name s)) as [->|]; [lia|].
    by rewrite Hs' in He. }
  pose proof (topo_order_spec m ltac:(intros n s [_ ?]%Hm'; done) (λ n s d Hs Hin, proj1 (Hdeps n s d Hs Hin))) as Ht.
  destruct (topo_order m) as [e|order]; [|by eexists]. exfalso. destruct Ht as (c & -> & Hc & Hdown & _).
  assert (∀ k n, (rank n < k)%nat → n ∉ c) as Hno.
  { induction k as [|k IH]; [lia|]. intros n Hlt Hin. destruct (Hdown n Hin) as (s & d & Hs & Hd' & Hdc).
    destruct (Hdeps n s d Hs Hd') as [_ Hrd]. apply (IH d); [lia|done]. }
  destruct c as [|n c]; [done|]. apply (Hno (S (rank n)) n); [lia|set_solver].
Qed.

(** ** Steps that wait for a cycle *)

(** A step of the definition names another as a dependency. *)
Definition waits (def : WorkflowDef) (n d : string) : Prop :=
  ∃ s, s ∈ wd_steps def ∧ sd_name s = n ∧ d ∈ sd_depends_on s.

(** A step on a cycle of dependencies, or that waits, directly or through
    other steps, for one that is. *)
Definition stuck (def : WorkflowDef) (n : string) : Prop := ∃ m, rtc (waits def) n m ∧ tc (waits def) m m.

(** From a finite set whose members all have a successor inside it, every
    member leads into a cycle. *)
Lemma closed_leads_to_cycle (R : relation string) (c : list string) :
  (∀ n, n ∈ c → ∃ d, R n d ∧ d ∈ c) → ∀ n, n ∈ c → ∃ m, rtc R n m ∧ tc R m m.
Proof.
  intros Hnext.
  (* A walk: either it has closed up, or it visits [k] different members. *)
  assert (∀ k n, n ∈ c → (∃ m, rtc R n m ∧ tc R m m) ∨
    ∃ seen cur, NoDup seen ∧ length seen = k ∧ (∀ x, x ∈ seen → x ∈ c ∧ tc R x cur) ∧ cur ∈ c ∧ rtc R n cur ∧
      ∀ x, x ∈ seen → rtc R n x) as Hwalk.
  { intros k n Hn. induction k as [|k [|(seen & cur & Hnd & Hlen & Hseen & Hcur & Hrtc & Hfrom)]]; [|by left|].
    - right. exists [], n. split_and!; [constructor|done|set_solver|done|done|set_solver].
    - destruct (decide (cur ∈ seen)) as [Hin|Hout]; [left; exists cur; split; [done|by apply Hseen]|].
      destruct (Hnext cur Hcur) as (d & HR & Hd). right. exists (cur :: seen), d.
      split_and!; [by constructor|cbn; lia| |done|by eapply rtc_r|].
      + intros x [->|Hx]%elem_of_cons; [split; [done|by constructor]|]. destruct (Hseen x Hx). split; [done|by eapply tc_r].
      + intros x [->|Hx]%elem_of_cons; [done|by apply Hfrom]. }
  intros n Hn. destruct (Hwalk (S (length c)) n Hn) as [|(seen & cur & Hnd & Hlen & Hseen & _)]; [done|].
  assert (length seen <= length c)%nat; [|lia]. apply submseteq_length, NoDup_submseteq; [done|].
  intros x Hx. by apply Hseen.
Qed.

(** Outside a set that takes no step in and ranks every step out of it, no
    walk closes up. *)
Lemma ranked_not_stuck (R : relation string) (c : list string) (rank : string → nat) :
  (∀ n d, n ∉ c → R n d → d ∉ c ∧ (rank d < rank n)%nat) → ∀ n m, rtc R n m → tc R m m → n ∈ c.
Proof.
  intros Hout n m Hn Hm. destruct (decide (n ∈ c)) as [|Hnc]; [done|]. exfalso.
  assert (m ∉ c) as Hmc by (induction Hn as [|x y z Hxy _ IH]; [done|]; by apply IH, (Hout x y Hnc Hxy)).
  assert (∀ x y, tc R x y → x ∉ c → (rank y < rank x)%nat) as Hlt; [|specialize (Hlt m m Hm Hmc); lia].
  intros x y Hxy. induction Hxy as [x y Hxy|x y z Hxy _ IH]; intros Hx; destruct (Hout x y Hx Hxy) as [Hy ?]; [done|].
  specialize (IH Hy). lia.
Qed.

(** C32: Validation accepts a workflow exactly when it has steps, their
    names differ, every dependency names a step, and no dependencies form a
    cycle; and an accepted graph holds exactly the given steps and an
    execution order with every step once, after all steps it depends on. A
    workflow refused for a cycle does have one, and the list of the refusal
    holds exactly the steps that can never run: those on a cycle, and those
    that wait, directly or through other steps, for one on a cycle. *)
Theorem dag_validate_exact def :
  (well_formed def ↔ ∃ dag, WorkflowDag.validate def = inr dag) ∧
  (∀ dag, WorkflowDag.validate def = inr dag →
    (∀ n s, wg_steps dag !! n = Some s ↔ s ∈ wd_steps def ∧ sd_name s = n) ∧ ordered_steps (wg_steps dag) (wg_order dag)) ∧
  (∀ c, WorkflowDag.validate def = inl (Cycle c) → (∃ n, tc (waits def) n n) ∧ ∀ n, n ∈ c ↔ stuck def n).
Proof.
  split; [|split].
  - split; [apply validate_complete|]. intros [dag Hdag]. apply (do_wf _ _ (validate_sound def dag Hdag)).
  - intros dag Hdag. destruct (validate_sound def dag Hdag) as [Hs Ho _]. done.
  - intros c. unfold WorkflowDag.validate. destruct (wd_steps def) as [|s0 l] eqn:El; [done|]. rewrite <- El.
    pose proof (collect_spec (wd_steps def) ∅) as Hc.
    destruct (WorkflowDag.collect_steps _ _) as [e|m]; [destruct Hc as (n & -> & _); done|].
    destruct Hc as (_ & _ & Hm). pose proof (dep_error_spec m) as Hd.
    destruct (WorkflowDag.first_dep_error m) as [e|].
    { destruct Hd as (n & s & d & _ & _ & He). intros [= ->]. unfold WorkflowDag.dep_error in He.
      destruct (String.eqb d (sd_name s)); [done|]. by destruct (m !! d). }
    assert (∀ n s, m !! n = Some s ↔ s ∈ wd_steps def ∧ sd_name s = n) as Hm'.
    { intros n s. rewrite Hm, lookup_empty. naive_solver. }
    pose proof (topo_order_spec m ltac:(intros n s [_ ?]%Hm'; done) (λ n s d Hs Hin, proj2 (Hd n s d Hs Hin))) as Ht.
    destruct (topo_order m) as [e|order]; [|done]. intros [= ->]. destruct Ht as (c' & [= <-] & Hne & Hdown & rank & Hrank).
    assert (∀ n, n ∈ c → stuck def n) as Hstuck.
    { apply closed_leads_to_cycle. intros n Hn. destruct (Hdown n Hn) as (s & d & Hs & ? & ?).
      apply Hm' in Hs as [? ?]. exists d. split; [by exists s|done]. }
    split.
    + destruct c as [|n c]; [done|]. destruct (Hstuck n ltac:(set_solver)) as (x & _ & Hx). by exists x.
    + intros n. split; [apply Hstuck|]. intros (x & Hnx & Hx). revert Hnx Hx. apply (ranked_not_stuck _ c rank).
      intros y d Hy (s & Hs & Hsy & Hd'). apply (Hrank y s d); [by apply Hm'|done|done].
Qed.

(** ** Steps that can never run *)

(** A step that has not started and waits, directly or through steps that have
    not started either, for one that broke. *)
Inductive dooms (dag : WorkflowDag) (statuses : gmap string StepStatus) : string → Prop :=
  | dooms_step n s d : wg_steps dag !! n = Some s → WorkflowDag.unstarted (statuses !! n) = true →
      d ∈ sd_depends_on s → WorkflowDag.broken (statuses !! d) = true ∨ dooms dag statuses d → dooms dag statuses n.

Section doomed.
Context (dag : WorkflowDag) (statuses : gmap string StepStatus).
Hypothesis Horder : ordered_steps (wg_steps dag) (wg_order dag).

(** The pass over a prefix of the order has found its doomed steps. *)
Lemma doom_prefix i : (i <= length (wg_order dag))%nat →
  ∀ n, let doomed := foldl (WorkflowDag.doom_one dag statuses) ∅ (take i (wg_order dag)) in
    (is_Some (doomed !! n) ↔ n ∈ take i (wg_order dag) ∧ dooms dag statuses n) ∧
    (∀ b s, doomed !! n = Some b → wg_steps dag !! n = Some s →
      b ∈ sd_depends_on s ∧ (WorkflowDag.broken (statuses !! b) = true ∨ dooms dag statuses b)).
Proof.
  induction i as [|i IH]; intros Hi n; cbn zeta.
  { rewrite take_0. cbn [foldl]. rewrite lookup_empty. split; [|done]. split; [by intros [? ?]|]. set_solver. }
  destruct (lookup_lt_is_Some_2 (wg_order dag) i) as [m Hm]; [lia|].
  rewrite (take_S_r _ _ _ Hm), foldl_app. cbn [foldl].
  set (doomed := foldl (WorkflowDag.doom_one dag statuses) ∅ (take i (wg_order dag))) in *.
  assert (∀ n, (is_Some (doomed !! n) ↔ n ∈ take i (wg_order dag) ∧ dooms dag statuses n)) as IH1 by (intros; apply IH; lia).
  assert (∀ n b s, doomed !! n = Some b → wg_steps dag !! n = Some s →
      b ∈ sd_depends_on s ∧ (WorkflowDag.broken (statuses !! b) = true ∨ dooms dag statuses b)) as IH2 by (intros; eapply IH; eauto; lia).
  assert (m ∈ wg_order dag) as Hmo by (by eapply list_elem_of_lookup_2).
  destruct (proj1 (os_all _ _ Horder m) Hmo) as [s Hs].
  assert (m ∉ take i (wg_order dag)) as Hfresh.
  { intros (j & Hj & Hlt)%elem_of_take. assert (j = i) by (eapply NoDup_lookup; [apply (os_once _ _ Horder)|done|done]). lia. }
  pose proof (os_after _ _ Horder i m s Hm Hs) as Hdeps. rewrite Forall_forall in Hdeps.
  assert (∀ d, d ∈ sd_depends_on s → bool_decide (is_Some (doomed !! d)) || WorkflowDag.broken (statuses !! d) = true ↔
    WorkflowDag.broken (statuses !! d) = true ∨ dooms dag statuses d) as Hdep.
  { intros d Hd. rewrite orb_true_iff, bool_decide_eq_true, IH1. specialize (Hdeps d Hd). naive_solver. }
  assert (∀ n, n ≠ m → n ∈ take i (wg_order dag) ++ [m] ↔ n ∈ take i (wg_order dag)) as Hother by set_solver.
  unfold WorkflowDag.doom_one. rewrite Hs.
  destruct (WorkflowDag.unstarted (statuses !! m)) eqn:Eu; cbn [negb].
  2:{ split; [|apply IH2]. rewrite IH1. destruct (decide (n = m)) as [->|Hne]; [|by rewrite Hother].
      split; [by intros [? _]|]. intros [_ Hd]. exfalso. destruct Hd as [n s' d Hs' Hun _ _]. congruence. }
  destruct (List.find _ (sd_depends_on s)) as [b|] eqn:Ef.
  - apply find_some in Ef as [Hin%list_elem_of_In Hb]. apply (Hdep b Hin) in Hb.
    assert (dooms dag statuses m) as Hdm by (by eapply dooms_step).
    destruct (decide (n = m)) as [->|Hne].
    + rewrite lookup_insert_eq. split; [split; [set_solver|by eexists]|]. intros b' s' [= <-] Hs'.
      rewrite Hs in Hs'. injection Hs' as <-. done.
    + rewrite lookup_insert_ne by done. rewrite Hother by done. split; [apply IH1|apply IH2].
  - split; [|apply IH2]. rewrite IH1. destruct (decide (n = m)) as [->|Hne]; [|by rewrite Hother].
    split; [by intros [? _]|]. intros [_ Hd]. exfalso. destruct Hd as [n s' d Hs' _ Hin Hd].
    rewrite Hs in Hs'. injection Hs' as <-. apply (Hdep d Hin) in Hd.
    pose proof (find_none _ _ Ef d ltac:(by apply list_elem_of_In)) as Hn. cbn in Hn. congruence.
Qed.

Lemma doomed_spec s b : (s, b) ∈ WorkflowDag.doomed_steps dag statuses →
  ∃ n, wg_steps dag !! n = Some s ∧ dooms dag statuses n ∧ b ∈ sd_depends_on s ∧
    (WorkflowDag.broken (statuses !! b) = true ∨ dooms dag statuses b).
Proof.
  unfold WorkflowDag.doomed_steps. intros ([n b'] & Hin%elem_of_btree_list & He)%list_elem_of_omap. cbn [fst snd] in He.
  destruct (wg_steps dag !! n) as [s'|] eqn:Es; [|done]. injection He as -> ->. exists n. split; [done|].
  rewrite <- (take_ge (wg_order dag) (length (wg_order dag))) in Hin by lia.
  destruct (doom_prefix (length (wg_order dag)) ltac:(lia) n) as [D1 D2].
  split; [by apply D1; eexists|]. by apply D2.
Qed.

Lemma doomed_complete n s : wg_steps dag !! n = Some s → dooms dag statuses n →
  ∃ b, (s, b) ∈ WorkflowDag.doomed_steps dag statuses.
Proof.
  intros Hs Hd. destruct (doom_prefix (length (wg_order dag)) ltac:(lia) n) as [D1 _].
  rewrite take_ge in D1 by lia. destruct (proj2 D1) as [b Hb]; [split; [apply (os_all _ _ Horder); by eexists|done]|].
  exists b. apply list_elem_of_omap. exists (n, b). split; [by apply elem_of_btree_list|]. cbn. by rewrite Hs.
Qed.
End doomed.

(** C33: In a validated workflow, the steps reported as doomed are
    exactly the unstarted ones that wait, directly or through other unstarted
    steps, for a step that failed or was skipped; each comes with a dependency
    that dooms it; and a doomed step is never one of the ready ones. *)
Theorem doomed_exact def dag statuses (Hdag : WorkflowDag.validate def = inr dag) s :
  ((∃ b, (s, b) ∈ WorkflowDag.doomed_steps dag statuses) ↔
    s ∈ wd_steps def ∧ dooms dag statuses (sd_name s)) ∧
  (∀ b, (s, b) ∈ WorkflowDag.doomed_steps dag statuses →
    b ∈ sd_depends_on s ∧ (WorkflowDag.broken (statuses !! b) = true ∨ dooms dag statuses b) ∧
    s ∉ WorkflowDag.ready_steps dag statuses).
Proof.
  pose proof (validate_sound def dag Hdag) as [Hs Ho _].
  assert (∀ b, (s, b) ∈ WorkflowDag.doomed_steps dag statuses →
    wg_steps dag !! sd_name s = Some s ∧ dooms dag statuses (sd_name s) ∧ b ∈ sd_depends_on s ∧
    (WorkflowDag.broken (statuses !! b) = true ∨ dooms dag statuses b)) as Hsound.
  { intros b (n & Hn & Hd & Hb)%(doomed_spec dag statuses Ho). assert (sd_name s = n) as -> by (by apply Hs in Hn as [_ ?]). done. }
  split.
  - split; [|intros [Hin Hd]; by apply (doomed_complete dag statuses Ho (sd_name s)); [apply Hs|]].
    intros [b (Hn & Hd & _)%Hsound]. by apply Hs in Hn as [? _].
  - intros b Hb. destruct (Hsound b Hb) as (_ & _ & Hin & Hwhy). split; [done|split; [done|]].
    intros Hr%list_elem_of_In. unfold WorkflowDag.ready_steps in Hr. apply filter_In in Hr as [_ [_ Hok]%andb_true_iff].
    unfold WorkflowDag.deps_succeeded in Hok. rewrite forallb_forall in Hok. specialize (Hok b ltac:(by apply list_elem_of_In)).
    apply bool_decide_eq_true in Hok. destruct Hwhy as [Hbr|Hd]; [by rewrite Hok in Hbr|].
    destruct Hd as [n s' d _ Hun _ _]. by rewrite Hok in Hun.
Qed.

Definition witness_step (name : string) (deps : list string) : StepDef :=
  MkStepDef name "/run" None None deps None None None.

Lemma doomed_exact_witness :
  ∃ dag, WorkflowDag.validate
      (MkWorkflowDef [witness_step "load" ["transform"]; witness_step "extract" []; witness_step "transform" ["extract"]] Halt) = inr dag ∧
    ∃ b, (witness_step "load" ["transform"], b) ∈
      WorkflowDag.doomed_steps dag {["extract" := Failed; "transform" := Blocked; "load" := Blocked]}.
Proof.
  eexists. split; [vm_compute; reflexivity|].
  eapply (doomed_exact (MkWorkflowDef
    [witness_step "load" ["transform"]; witness_step "extract" []; witness_step "transform" ["extract"]] Halt) _ _ eq_refl).
  split; [apply list_elem_of_here|].
  eapply dooms_step; [vm_compute; reflexivity|vm_compute; reflexivity|apply list_elem_of_here|right].
  eapply dooms_step; [vm_compute; reflexivity|vm_compute; reflexivity|apply list_elem_of_here|left; vm_compute; reflexivity].
Defined.
