(* ===== verification/Ids.v ===== *)
(** * Deterministic record ids

    Models [packages/schedule-core/src/ids.rs]: references to records, the
    reduction of names to safe key fragments, and the keys of every row the
    scheduler creates. Strings are UTF-8 bytes. SHA-256 is the [sha2] crate's
    and a parameter. *)

From stdpp Require Import pretty.
From S2P Require Import Prelude Platform Value SnapshotHash.

Class Sha256 := sha256 : list Z → list Z.
Class Sha256Laws `{S : Sha256} := {
  sha256_length : ∀ bs, length (sha256 bs) = 32%nat;
  sha256_bytes : ∀ bs, Forall (λ b, 0 <= b < 256)%Z (sha256 bs);
}.

(** ** Definitions *)

Definition SCHEDULE : string := "_00_schedule".
Definition SCHEDULE_RUN : string := "_00_schedule_run".
Definition WORKFLOW_RUN : string := "_00_workflow_run".
Definition STEP_RUN : string := "_00_step_run".
Definition RUN_ROLLUP : string := "_00_run_rollup".
Definition SCHEDULE_KEY : string := "_00_schedule_key".
Definition MAX_FRAGMENT : nat := 48.

Record Ref := MkRef { ref_table : string; ref_key : string }.

#[global] Instance ref_eq_dec : EqDecision Ref.
Proof. solve_decision. Defined.
#[global] Instance ref_countable : Countable Ref.
Proof.
  refine (inj_countable' (λ r, (ref_table r, ref_key r)) (λ p, MkRef p.1 p.2) _). by intros [].
Defined.

(** [str::trim_start_matches] and [trim_matches] with a one-character pattern,
    given by its bytes. Each round removes a character, so the length is fuel
    enough. *)
Fixpoint trim_start (fuel : nat) (p s : list Z) : list Z :=
  match fuel with
  | O => s
  | S fuel => if bool_decide (take (length p) s = p) then trim_start fuel p (drop (length p) s) else s
  end.
Definition trim_matches (p s : list Z) : list Z :=
  let s := trim_start (length s) p s in
  rev (trim_start (length s) (rev p) (rev s)).

Definition backtick : list Z := [96]%Z.
Definition left_angle : list Z := [226; 159; 168]%Z.
Definition right_angle : list Z := [226; 159; 169]%Z.

Module Ref.
Definition parse (record_id : string) : option Ref :=
  match split_once colon record_id with
  | None => None
  | Some (table, key) =>
      let key := string_of_bytes (trim_matches right_angle (trim_matches left_angle (trim_matches backtick (bytes_of key)))) in
      if String.eqb table "" || String.eqb key "" then None else Some (MkRef table key)
  end.

Definition as_string (self : Ref) : string := (ref_table self +:+ ":" +:+ ref_key self)%string.
End Ref.

(** One character of a fragment: what is pushed, and whether it was rewritten.
    The first byte of a character beyond ASCII stands for the character. *)
Definition sanitize_byte (allow_hyphen : bool) (c : Z) : list Z * bool :=
  if between 97 c 122 || between 48 c 57 || (c =? 95)%Z then ([c], false)
  else if (c =? 45)%Z then ([if allow_hyphen then 45 else 95]%Z, false)
  else if between 65 c 90 then ([c + 32]%Z, true)
  else if utf8_cont c then ([], true)
  else ([95]%Z, true).

Section hashed.
Context `{Sha256}.

Definition short_hash (input : string) : string := to_hex (take 6 (sha256 (bytes_of input))).

Definition sanitize_inner (fragment : string) (allow_hyphen : bool) : string :=
  let cs := sanitize_byte allow_hyphen <$> bytes_of fragment in
  let out := concat cs.*1 in
  let rewritten := existsb snd cs in
  let '(out, rewritten) :=
    if Nat.ltb MAX_FRAGMENT (length out) then (take MAX_FRAGMENT out, true) else (out, rewritten) in
  let out := if rewritten then out ++ [95]%Z ++ bytes_of (short_hash fragment) else out in
  match out with
  | [] => short_hash fragment
  | _ => string_of_bytes out
  end.

Definition sanitize (fragment : string) : string := sanitize_inner fragment true.
Definition sanitize_job (fragment : string) : string := sanitize_inner fragment false.

Definition run_key (schedule_name : string) (fire_at_ms : Z) (fan_out_key : string) : string :=
  (sanitize schedule_name +:+ "_" +:+ pretty fire_at_ms +:+ "_" +:+ short_hash fan_out_key)%string.

Definition schedule (name : string) : Ref := MkRef SCHEDULE (sanitize name).
Definition schedule_key (schedule_name fan_out_key : string) : Ref :=
  MkRef SCHEDULE_KEY (sanitize schedule_name +:+ "_" +:+ short_hash fan_out_key)%string.
Definition schedule_run (run_key : string) : Ref := MkRef SCHEDULE_RUN run_key.
Definition workflow_run (run_key : string) : Ref := MkRef WORKFLOW_RUN run_key.
Definition step_run (run_key step : string) : Ref := MkRef STEP_RUN (run_key +:+ "_" +:+ sanitize step)%string.
Definition job (table run_key : string) : Ref := MkRef table ("sch_" +:+ sanitize_job run_key)%string.
Definition step_job (table run_key step : string) : Ref :=
  MkRef table ("wf_" +:+ sanitize_job run_key +:+ "_" +:+ sanitize_job step)%string.
Definition step_job_attempt (table run_key step : string) (attempt : Z) : Ref :=
  let base := step_job table run_key step in
  if (attempt <=? 0)%Z then base else MkRef table (ref_key base +:+ "_r" +:+ pretty attempt)%string.
Definition rerun_key (workflow_name : string) (fire_at_ms : Z) (source_run_key : string) : string :=
  run_key workflow_name fire_at_ms ("rerun:" +:+ source_run_key)%string.
Definition rollup (scope name bucket : string) : Ref :=
  let stamp := string_of_bytes (List.filter (λ c, between 97 c 122 || between 65 c 90 || between 48 c 57) (bytes_of bucket)) in
  MkRef RUN_ROLLUP (sanitize scope +:+ "_" +:+ sanitize name +:+ "_" +:+ stamp)%string.
Definition run_key_of (record_id : string) : string :=
  match Ref.parse record_id with Some r => ref_key r | None => record_id end.
End hashed.

(** ** What a key is made of *)

(** The bytes a fragment may hold. *)
Definition safe_byte (allow_hyphen : bool) (c : Z) : bool :=
  between 97 c 122 || between 48 c 57 || (c =? 95)%Z || (allow_hyphen && (c =? 45)%Z).

Definition safe_string (allow_hyphen : bool) (s : string) : Prop := Forall (λ c, safe_byte allow_hyphen c = true) (bytes_of s).

(** The names that are kept as they are. *)
Definition verbatim (s : string) : Prop :=
  s ≠ ""%string ∧ safe_string true s ∧ (String.length s <= MAX_FRAGMENT)%nat.

Ltac byte_cases :=
  unfold safe_byte, sanitize_byte, between, utf8_cont in *;
  repeat match goal with
         | |- context [(?a <=? ?b)%Z] => destruct (Z.leb_spec a b)
         | |- context [(?a =? ?b)%Z] => destruct (Z.eqb_spec a b)
         | H : context [(?a <=? ?b)%Z] |- _ => destruct (Z.leb_spec a b)
         | H : context [(?a =? ?b)%Z] |- _ => destruct (Z.eqb_spec a b)
         end; cbn in *; intros; try done; try lia.

Lemma safe_byte_weaken h c : safe_byte h c = true → safe_byte true c = true.
Proof. destruct h; [done|]. unfold safe_byte. rewrite !orb_true_iff, !andb_true_iff. naive_solver. Qed.

Lemma safe_byte_range h c : safe_byte h c = true → (0 <= c < 256)%Z.
Proof. destruct h; byte_cases. Qed.

Lemma sanitize_byte_safe h c : Forall (λ c, safe_byte h c = true) (sanitize_byte h c).1.
Proof. destruct h; byte_cases; repeat constructor; byte_cases. Qed.

Lemma sanitize_byte_kept h c : (sanitize_byte h c).2 = false →
  safe_byte true c = true ∧ ∃ d, (sanitize_byte h c).1 = [d] ∧ (h = true → d = c).
Proof. destruct h; byte_cases; (split; [done|]); eexists; by split. Qed.

Lemma sanitize_byte_verbatim c : safe_byte true c = true → sanitize_byte true c = ([c], false).
Proof. byte_cases; by subst. Qed.

Lemma bytes_of_string_of_bytes bs : Forall (λ b, (0 <= b < 256)%Z) bs → bytes_of (string_of_bytes bs) = bs.
Proof.
  unfold bytes_of, string_of_bytes. intros H. rewrite String.list_ascii_of_string_of_list_ascii.
  rewrite <- list_fmap_compose. rewrite <- (list_fmap_id bs) at 2. apply list_fmap_ext. intros i b Hb.
  apply (Forall_lookup_1 _ _ _ _ H) in Hb. unfold compose, byte_of_ascii. rewrite Ascii.N_ascii_embedding by lia. cbn. lia.
Qed.

Lemma sanitize_bytes_safe h bs : Forall (λ c, safe_byte h c = true) (concat (sanitize_byte h <$> bs).*1).
Proof. induction bs; [constructor|]. apply Forall_app. split; [apply sanitize_byte_safe|done]. Qed.

Lemma sanitize_bytes_kept h bs : existsb snd (sanitize_byte h <$> bs) = false →
  length (concat (sanitize_byte h <$> bs).*1) = length bs ∧ Forall (λ c, safe_byte true c = true) bs ∧
  (h = true → concat (sanitize_byte h <$> bs).*1 = bs).
Proof.
  induction bs as [|b bs IH]; [done|]. cbn [fmap list_fmap existsb]. intros [Hb Hbs]%orb_false_iff.
  destruct (IH Hbs) as (Hl & Hs & He). destruct (sanitize_byte_kept h b Hb) as (Hsb & d & Hd & Hdb).
  cbn [fmap list_fmap concat]. rewrite Hd. cbn. split; [by rewrite <- Hl|]. split; [by constructor|].
  intros ->. rewrite (Hdb eq_refl). f_equal. by apply He.
Qed.

Lemma sanitize_byte_rewritten h c : (sanitize_byte h c).2 = true → safe_byte true c = false.
Proof. destruct h; byte_cases. Qed.

Lemma sanitize_bytes_rewritten h bs : existsb snd (sanitize_byte h <$> bs) = true →
  ¬ Forall (λ c, safe_byte true c = true) bs.
Proof.
  intros (x & Hx%list_elem_of_In & E)%existsb_exists. apply list_elem_of_fmap in Hx as (c & -> & Hc).
  intros Hs. rewrite Forall_forall in Hs. specialize (Hs c Hc). apply sanitize_byte_rewritten in E. congruence.
Qed.

Lemma sanitize_bytes_length h bs : (length (concat (sanitize_byte h <$> bs).*1) <= length bs)%nat.
Proof.
  induction bs as [|b bs IH]; [done|]. cbn [fmap list_fmap concat length]. rewrite length_app.
  assert (length (sanitize_byte h b).1 <= 1)%nat by (destruct h; byte_cases). unfold fmap in *. lia.
Qed.

Section distinct.
Context `{Sha256Laws}.

Lemma hex_code_safe n : (0 <= n < 16)%Z → safe_byte false (hex_code n) = true.
Proof. unfold hex_code. intros Hn. destruct (Z.ltb_spec n 10); byte_cases. Qed.

Lemma short_hash_bytes s : length (bytes_of (short_hash s)) = 12%nat ∧ safe_string false (short_hash s).
Proof.
  unfold safe_string, short_hash. pose proof (sha256_length (bytes_of s)) as Hl. pose proof (sha256_bytes (bytes_of s)) as Hb.
  assert (length (take 6 (sha256 (bytes_of s))) = 6%nat) as H6 by (rewrite length_take; lia).
  apply (Forall_take _ 6) in Hb. rewrite bytes_of_to_hex by done. revert H6 Hb.
  generalize (take 6 (sha256 (bytes_of s))). intros l H6 Hb. clear Hl. split.
  - do 6 (destruct l as [|? l]; [done|]). by destruct l.
  - clear H6. induction Hb as [|b l Hb _ IH]; [constructor|]. cbn [map concat].
    repeat constructor; [apply hex_code_safe..|exact IH].
    + split; [apply Z.div_pos; lia|apply Z.div_lt_upper_bound; lia].
    + apply Z.mod_pos_bound; lia.
Qed.

(** What [sanitize_inner] makes of a fragment: a name it keeps byte for byte,
    or up to 48 safe bytes, an underscore and the hash. *)
Lemma sanitize_shape f h :
  (f = ""%string ∧ sanitize_inner f h = short_hash f) ∨
  (verbatim f ∧ bytes_of (sanitize_inner f h) = concat (sanitize_byte h <$> bytes_of f).*1) ∨
  (¬ verbatim f ∧ ∃ p : list Z, (length p <= MAX_FRAGMENT)%nat ∧ Forall (λ c, safe_byte h c = true) p ∧
     bytes_of (sanitize_inner f h) = p ++ [95]%Z ++ bytes_of (short_hash f)).
Proof.
  set (cs := sanitize_byte h <$> bytes_of f). pose proof (sanitize_bytes_safe h (bytes_of f)) as Hs. fold cs in Hs.
  assert (∀ l, Forall (λ c, safe_byte h c = true) l → Forall (λ b, (0 <= b < 256)%Z) l) as Hrange.
  { intros l Hl. eapply Forall_impl; [exact Hl|]. intros c. apply safe_byte_range. }
  assert (∀ p : list Z, (length p <= MAX_FRAGMENT)%nat → Forall (λ c, safe_byte h c = true) p → 
    bytes_of match (p ++ [95]%Z ++ bytes_of (short_hash f))%list with [] => short_hash f | _ => string_of_bytes (p ++ [95]%Z ++ bytes_of (short_hash f))%list end =
    p ++ [95]%Z ++ bytes_of (short_hash f)) as Hlong.
  { intros p _ Hp. assert (∃ x l, p ++ [95]%Z ++ bytes_of (short_hash f) = x :: l) as (x & l & E).
    { destruct p; cbn; eauto. }
    rewrite E, <- E. apply bytes_of_string_of_bytes. apply Forall_app. split; [by apply Hrange|].
    constructor; [lia|]. eapply Forall_impl; [apply (proj2 (short_hash_bytes f))|]. intros c. apply safe_byte_range. }
  unfold sanitize_inner. fold cs. destruct (Nat.ltb_spec MAX_FRAGMENT (length (concat cs.*1))) as [Hlen|Hlen].
  { right; right. split.
    { intros (_ & _ & Hf). rewrite <- length_bytes_of in Hf. pose proof (sanitize_bytes_length h (bytes_of f)). unfold cs in *. lia. }
    exists (take MAX_FRAGMENT (concat cs.*1)). rewrite length_take. split; [lia|].
    split; [by apply Forall_take|]. apply Hlong; [rewrite length_take; lia|by apply Forall_take]. }
  destruct (existsb snd cs) eqn:Er.
  { right; right. split; [intros (_ & Hf & _); by apply (sanitize_bytes_rewritten h _ Er)|]. exists (concat cs.*1). split; [done|]. split; [done|]. by apply Hlong. }
  destruct (sanitize_bytes_kept h (bytes_of f) Er) as (Hl & Hsf & _). fold cs in Hl.
  destruct (concat cs.*1) as [|x l] eqn:El.
  - left. split; [|done]. apply bytes_of_inj. by destruct (bytes_of f).
  - right; left. split.
    + split; [intros ->; done|]. split; [done|]. rewrite <- length_bytes_of, <- Hl. done.
    + apply bytes_of_string_of_bytes. by apply Hrange.
Qed.

Lemma sanitize_verbatim f : verbatim f → sanitize f = f.
Proof.
  intros Hv. destruct (sanitize_shape f true) as [[-> _]|[[_ E]|(? & _)]]; [by destruct Hv|apply bytes_of_inj|done].
  unfold sanitize. rewrite E. destruct Hv as (_ & Hs & _). clear E. induction Hs as [|c bs Hc _ IH]; [done|].
  cbn [fmap list_fmap]. rewrite (sanitize_byte_verbatim c Hc). cbn. by f_equal.
Qed.

(** The hash at the end of a rewritten name. *)
Lemma hash_suffix p q s t : p ++ [95]%Z ++ bytes_of (short_hash s) = q ++ [95]%Z ++ bytes_of (short_hash t) →
  p = q ∧ short_hash s = short_hash t.
Proof.
  pose proof (proj1 (short_hash_bytes s)). pose proof (proj1 (short_hash_bytes t)). intros E.
  apply app_inj_2 in E as [-> E]; [|cbn; lia]. injection E as E. split; [done|by apply bytes_of_inj].
Qed.

Lemma sanitize_distinct a b : sanitize a = sanitize b →
  a = b ∨ short_hash a = short_hash b ∨ (a = sanitize b ∧ verbatim a) ∨ (b = sanitize a ∧ verbatim b).
Proof.
  intros E. pose proof (proj1 (short_hash_bytes a)) as La. pose proof (proj1 (short_hash_bytes b)) as Lb.
  destruct (sanitize_shape a true) as [[-> Ea]|[[Va _]|(_ & p & _ & _ & Ea)]];
    [|right; right; left; split; [|done]; rewrite <- E; symmetry; by apply sanitize_verbatim|].
  all: destruct (sanitize_shape b true) as [[-> Eb]|[[Vb _]|(_ & q & _ & _ & Eb)]];
    [|right; right; right; split; [|done]; rewrite E; symmetry; by apply sanitize_verbatim|].
  all: unfold sanitize in E.
  - by left.
  - right; left. rewrite <- E, Ea in Eb. apply (f_equal length) in Eb. rewrite !length_app in Eb. cbn in Eb. lia.
  - right; left. rewrite E, Eb in Ea. apply (f_equal length) in Ea. rewrite !length_app in Ea. cbn in Ea. lia.
  - right; left. rewrite E, Eb in Ea. by apply hash_suffix in Ea as [_ ?].
Qed.

Lemma sanitize_safe f h : safe_string h (sanitize_inner f h) ∧ sanitize_inner f h ≠ ""%string ∧
  (String.length (sanitize_inner f h) <= MAX_FRAGMENT + 13)%nat.
Proof.
  pose proof (short_hash_bytes f) as [Lf Sf]. rewrite <- length_bytes_of. unfold safe_string in *.
  assert (Forall (λ c, safe_byte h c = true) (bytes_of (short_hash f))) as Sh.
  { destruct h; [|done]. eapply Forall_impl; [exact Sf|]. apply safe_byte_weaken. }
  destruct (sanitize_shape f h) as [[_ ->]|[[V E]|(_ & p & Hp & Sp & E)]].
  - split; [done|]. split; [intros E; by rewrite E in Lf|]. rewrite Lf. unfold MAX_FRAGMENT. lia.
  - rewrite E. split; [apply sanitize_bytes_safe|]. destruct V as (Hne & Hs & Hlen). rewrite <- length_bytes_of in Hlen.
    pose proof (sanitize_bytes_length h (bytes_of f)). split; [|unfold fmap in *; lia].
    intros E'. rewrite E' in E. symmetry in E. destruct (sanitize_bytes_kept h (bytes_of f)) as [Hl _].
    + apply not_true_is_false. intros Hr%sanitize_bytes_rewritten. done.
    + rewrite E in Hl. by destruct f.
  - rewrite E. split; [apply Forall_app; split; [done|constructor; [by destruct h|done]]|].
    split; [intros E'; rewrite E' in E; by destruct p|]. rewrite !length_app, Lf. cbn [length]. lia.
Qed.

(** ** Keys *)

Lemma safe_app h s t : safe_string h (s +:+ t) ↔ safe_string h s ∧ safe_string h t.
Proof. unfold safe_string. by rewrite bytes_of_app, Forall_app. Qed.

Lemma safe_weaken h s : safe_string h s → safe_string true s.
Proof. intros Hs. eapply Forall_impl; [exact Hs|]. apply safe_byte_weaken. Qed.

Definition digit_byte (c : Z) : Prop := (48 <= c <= 57)%Z.

Lemma pretty_digits z : (0 <= z)%Z → Forall digit_byte (bytes_of (pretty z)).
Proof using Type.
  assert (∀ n s, Forall digit_byte (bytes_of s) → Forall digit_byte (bytes_of (pretty_N_go n s))) as Hgo.
  { intros n. induction (N.lt_wf_0 n) as [n _ IH]. intros s Hs. destruct (decide (n = 0)%N) as [->|Hn]; [done|].
    rewrite pretty_N_go_step by lia. apply IH; [by apply N.div_lt; lia|]. constructor; [|done].
    pose proof (N.mod_lt n 10 ltac:(lia)) as Hm. revert Hm. generalize (n `mod` 10)%N. intros m Hm.
    destruct m as [|p]; [done|]. do 4 (destruct p as [p|p|]; try lia; try done). }
  destruct z as [|p|p]; [by repeat constructor| |lia]. intros _. apply Hgo. constructor.
Qed.

Lemma pretty_safe h z : (0 <= z)%Z → safe_string h (pretty z).
Proof using Type.
  intros Hz. eapply Forall_impl; [by apply pretty_digits|]. unfold digit_byte. intros c Hc. destruct h; byte_cases.
Qed.

(** A number at the end of a text, behind what is no digit. *)
Lemma number_suffix p q (c : Z) l l' : ¬ digit_byte c → Forall digit_byte l → Forall digit_byte l' →
  p ++ [c] ++ l = q ++ [c] ++ l' → p = q ∧ l = l'.
Proof using Type.
  intros Hc Hl Hl' E. rewrite !(assoc_L (++)) in E.
  assert (∀ (x y : list Z) k m m', Forall digit_byte m' → x ++ [c] = (y ++ [c]) ++ k → m' = k ++ m → k = []) as Hno.
  { intros x y k m m' Hm' E1 ->. destruct k as [|d k] using rev_ind; [done|]. exfalso. rewrite !(assoc_L (++)) in E1.
    apply app_inj_tail in E1 as [_ ->]. rewrite !Forall_app in Hm'. destruct Hm' as [[_ Hd] _]. by inversion Hd. }
  apply app_eq_inv in E as [(k & E1 & E2)|(k & E1 & E2)].
  - assert (k = []) as -> by exact (Hno p q k l l' Hl' E1 E2). cbn in E2. rewrite app_nil_r in E1. apply app_inj_tail in E1 as [-> _]. done.
  - assert (k = []) as -> by exact (Hno q p k l' l Hl E1 E2). cbn in E2. rewrite app_nil_r in E1. apply app_inj_tail in E1 as [-> _]. done.
Qed.

Lemma trim_start_safe p s x q : p = x :: q → safe_byte true x = false →
  Forall (λ c, safe_byte true c = true) s → trim_start (length s) p s = s.
Proof using Type.
  intros -> Hx Hs. destruct s as [|c s]; [done|]. cbn [length trim_start].
  rewrite bool_decide_false; [done|]. cbn. intros [= -> _]. apply Forall_cons_1 in Hs as [Hs _]. congruence.
Qed.

Lemma trim_matches_safe p s : safe_byte true (default 0%Z (head p)) = false → safe_byte true (default 0%Z (last p)) = false →
  p ≠ [] → Forall (λ c, safe_byte true c = true) s → trim_matches p s = s.
Proof using Type.
  intros Hh Hl Hne Hs. unfold trim_matches. destruct p as [|x q]; [done|]. rewrite (trim_start_safe _ s x q) by done.
  destruct (exists_last Hne) as (q' & y & E). rewrite E in *. rewrite last_snoc in Hl. rewrite rev_app_distr. cbn [rev app].
  rewrite <- (length_rev s). rewrite (trim_start_safe _ (rev s) y (rev q')); [apply rev_involutive|done|done|].
  apply Forall_forall. intros c Hc%list_elem_of_In%in_rev%list_elem_of_In. rewrite Forall_forall in Hs. by apply Hs.
Qed.

Lemma parse_as_string r : contains_char colon (ref_table r) = false → ref_table r ≠ ""%string →
  safe_string true (ref_key r) → ref_key r ≠ ""%string → Ref.parse (Ref.as_string r) = Some r.
Proof using Type.
  destruct r as [tb key]. cbn. intros Hc Ht Hs Hk. unfold Ref.parse, Ref.as_string. cbn [ref_table ref_key].
  change (":" +:+ key)%string with (String colon key). rewrite split_once_app by done.
  rewrite !(trim_matches_safe _ (bytes_of key)) by done. rewrite string_of_bytes_of.
  destruct (String.eqb_spec tb ""), (String.eqb_spec key ""); done.
Qed.

Lemma step_job_attempt_key table key step attempt :
  ref_table (step_job_attempt table key step attempt) = table ∧
  safe_string false (ref_key (step_job_attempt table key step attempt)) ∧
  ref_key (step_job_attempt table key step attempt) ≠ ""%string.
Proof.
  assert (safe_string false (ref_key (step_job table key step))) as Hs.
  { apply safe_app. split; [by repeat constructor|]. apply safe_app. split; [apply sanitize_safe|].
    apply safe_app. split; [by repeat constructor|apply sanitize_safe]. }
  unfold step_job_attempt. destruct (Z.leb_spec attempt 0); [by split|]. split; [done|]. split; [|done].
  cbn [ref_key]. apply safe_app. split; [done|]. apply safe_app. split; [by repeat constructor|]. apply pretty_safe. lia.
Qed.

(** A name with its hyphens spelt as underscores. *)
Definition unhyphened (s : string) : list Z := map (λ c, if (c =? 45)%Z then 95%Z else c) (bytes_of s).

Lemma sanitize_job_verbatim f : verbatim f → concat (sanitize_byte false <$> bytes_of f).*1 = unhyphened f.
Proof using Type.
  intros (_ & Hs & _). unfold unhyphened. induction Hs as [|c bs Hc _ IH]; [done|]. cbn [fmap list_fmap concat map].
  rewrite <- IH. clear IH. assert ((sanitize_byte false c).1 = [if (c =? 45)%Z then 95%Z else c]) as ->; [|done].
  revert Hc. byte_cases.
Qed.

(** When two names have one fragment in the keys of jobs. *)
Lemma sanitize_job_distinct a b : sanitize_job a = sanitize_job b →
  unhyphened a = unhyphened b ∨ short_hash a = short_hash b ∨ unhyphened a = bytes_of (sanitize_job b) ∨
  unhyphened b = bytes_of (sanitize_job a).
Proof.
  intros E. pose proof (proj1 (short_hash_bytes a)) as La. pose proof (proj1 (short_hash_bytes b)) as Lb. unfold sanitize_job in *.
  destruct (sanitize_shape a false) as [[-> Ea]|[[Va Ea]|(_ & p & _ & _ & Ea)]];
    [|right; right; left; rewrite <- E, Ea; symmetry; by apply sanitize_job_verbatim|].
  all: destruct (sanitize_shape b false) as [[-> Eb]|[[Vb Eb]|(_ & q & _ & _ & Eb)]];
    [|right; right; right; rewrite E, Eb; symmetry; by apply sanitize_job_verbatim|].
  - by left.
  - right; left. rewrite <- E, Ea in Eb. apply (f_equal length) in Eb. rewrite !length_app in Eb. cbn in Eb. lia.
  - right; left. rewrite E, Eb in Ea. apply (f_equal length) in Ea. rewrite !length_app in Ea. cbn in Ea. lia.
  - right; left. rewrite E, Eb in Ea. by apply hash_suffix in Ea as [_ ?].
Qed.

(** What an attempt adds to the key of a step's job. *)
Definition attempt_suffix (attempt : Z) : string := if (attempt <=? 0)%Z then "" else "_r" +:+ pretty attempt.

Lemma step_job_key table key step attempt :
  ref_key (step_job_attempt table key step attempt) =
    ("wf_" +:+ sanitize_job key +:+ "_" +:+ (sanitize_job step +:+ attempt_suffix attempt))%string.
Proof using Type.
  unfold step_job_attempt, step_job, attempt_suffix. apply bytes_of_inj.
  destruct (attempt <=? 0)%Z; cbn [ref_key]; rewrite !bytes_of_app; [by rewrite app_nil_r|by rewrite <- !(assoc_L (++))].
Qed.

Lemma suffix_distinct s t n n' : (0 <= n)%Z → (0 <= n')%Z → (s +:+ attempt_suffix n = t +:+ attempt_suffix n')%string →
  n = n' ∧ s = t ∨ n = 0%Z ∧ s = (t +:+ attempt_suffix n')%string ∨ n' = 0%Z ∧ t = (s +:+ attempt_suffix n)%string.
Proof using Type.
  assert (∀ s, (s +:+ "")%string = s) as Hnil by (intros u; apply bytes_of_inj; by rewrite bytes_of_app, app_nil_r).
  intros Hn Hn' E. destruct (Z.eq_dec n 0) as [->|Hne]; [right; left; by rewrite Hnil in E|].
  destruct (Z.eq_dec n' 0) as [->|Hne']; [right; right; by rewrite Hnil in E|]. left. unfold attempt_suffix in E.
  rewrite !(proj2 (Z.leb_gt _ _)) in E by lia. apply (f_equal bytes_of) in E. rewrite !bytes_of_app in E.
  change (bytes_of "_r") with ([95; 114]%Z) in E.
  assert ((bytes_of s ++ [95]%Z) ++ [114]%Z ++ bytes_of (pretty n) = (bytes_of t ++ [95]%Z) ++ [114]%Z ++ bytes_of (pretty n')) as E'
    by (rewrite <- !(assoc_L (++)); exact E).
  apply number_suffix in E' as [E1 E2]; [|unfold digit_byte; lia|by apply pretty_digits..].
  apply app_inj_tail in E1 as [E1 _]. apply bytes_of_inj in E1, E2. by apply pretty_Z_inj in E2.
Qed.

(** C34: The rows of a run's steps differ unless two names or their
    hashes are equal, or one name is spelt like the other's reduced form; two
    fires of a schedule share a run key only for the same instant and hash.
    Attempts at two steps of a run have one job only when they have the same
    number and the names agree but for hyphens, share a hash or one is spelt
    like the other's reduced form; or when one is a first attempt at a step
    whose name, reduced, ends in the other's retry suffix. So all attempts at
    one step have jobs of their own. The keys of jobs are never empty and hold
    only [a-z], [0-9] and [_]; and the reference of a job is what its text
    parses back to. *)
Theorem ids_distinct table key a b (Htable : table ≠ ""%string ∧ contains_char colon table = false) :
  (step_run key a = step_run key b → a = b ∨ short_hash a = short_hash b ∨ a = sanitize b ∨ b = sanitize a) ∧
  (∀ ms ms' k k', run_key a ms k = run_key a ms' k' → ms = ms' ∧ short_hash k = short_hash k') ∧
  (∀ n n', (0 <= n)%Z → (0 <= n')%Z → step_job_attempt table key a n = step_job_attempt table key b n' →
     n = n' ∧ (unhyphened a = unhyphened b ∨ short_hash a = short_hash b ∨ unhyphened a = bytes_of (sanitize_job b) ∨
       unhyphened b = bytes_of (sanitize_job a)) ∨
     n = 0%Z ∧ sanitize_job a = (sanitize_job b +:+ attempt_suffix n')%string ∨
     n' = 0%Z ∧ sanitize_job b = (sanitize_job a +:+ attempt_suffix n)%string) ∧
  (∀ n n', (0 <= n)%Z → (0 <= n')%Z → step_job_attempt table key a n = step_job_attempt table key a n' → n = n') ∧
  (∀ n, let r := step_job_attempt table key a n in
     safe_string false (ref_key r) ∧ Ref.parse (Ref.as_string r) = Some r).
Proof.
  destruct Htable as [Hne Hcolon]. split; [|split; [|split; [|split]]].
  - unfold step_run. intros [= E]. apply string_app_inj_l, string_app_inj_l in E.
    destruct (sanitize_distinct a b E) as [?|[?|[[? _]|[? _]]]]; tauto.
  - intros ms ms' k k' E. unfold run_key in E. apply string_app_inj_l, string_app_inj_l in E.
    apply (f_equal bytes_of) in E. rewrite !bytes_of_app in E. apply hash_suffix in E as [E ?].
    split; [|done]. apply bytes_of_inj in E. by apply pretty_Z_inj in E.
  - intros n n' Hn Hn' E. apply (f_equal ref_key) in E. rewrite !step_job_key in E. do 3 apply string_app_inj_l in E.
    destruct (suffix_distinct _ _ n n' Hn Hn' E) as [[-> Hs]|[?|?]]; [left|by right; left|by right; right].
    split; [done|]. by apply sanitize_job_distinct.
  - intros n n' Hn Hn' E. apply (f_equal ref_key) in E. rewrite !step_job_key in E. do 4 apply string_app_inj_l in E.
    destruct (suffix_distinct "" "" n n' Hn Hn') as [[? _]|[[-> Hs]|[-> Hs]]]; [done|done| |].
    + unfold attempt_suffix in Hs. destruct (Z.leb_spec n' 0); [lia|done].
    + unfold attempt_suffix in Hs. destruct (Z.leb_spec n 0); [lia|done].
  - intros n r. destruct (step_job_attempt_key table key a n) as (Ht & Hs & Hk). split; [done|].
    unfold r. apply parse_as_string; rewrite ?Ht; [done|done|by eapply safe_weaken|done].
Qed.

(** *** Findings *)

(** Two steps whose names differ in a hyphen share one job. *)
Lemma hyphen_shares_job table key : step_job table key "send-mail" = step_job table key "send_mail".
Proof. done. Qed.

(** A retried step may get the job of another step. *)
Lemma retry_shares_job table key : step_job_attempt table key "load" 1 = step_job_attempt table key "load_r1" 0.
Proof.
  unfold step_job_attempt, step_job. cbn [Z.leb Z.compare ref_key]. f_equal. apply bytes_of_inj.
  rewrite !bytes_of_app, <- !app_assoc. done.
Qed.
End distinct.

(** A digest for the witnesses: the bytes themselves, padded. *)
Definition toy_sha : Sha256 := λ bs, ((λ b, b mod 256)%Z <$> take 32 bs) ++ repeat 0%Z (32 - length bs).

#[local] Existing Instance toy_sha.

#[local] Instance toy_sha_laws : Sha256Laws.
Proof.
  split; intros bs; unfold sha256, toy_sha.
  - rewrite length_app, length_fmap, length_take, repeat_length. lia.
  - apply Forall_app. split; [apply Forall_fmap, Forall_true; intros b; cbn; apply Z.mod_pos_bound; lia|].
    apply Forall_forall. intros b ->%list_elem_of_In%repeat_spec. lia.
Qed.

Lemma ids_distinct_witness : Ref.parse "job:wf_report_1_load_r2" = Some (step_job_attempt "job" "report_1" "load" 2) ∧
  step_job_attempt "job" "report_1" "load" 1 ≠ step_job_attempt "job" "report_1" "load" 2 ∧
  step_job_attempt "job" "report_1" "load" 1 ≠ step_job_attempt "job" "report_1" "send" 1.
Proof.
  assert ("job"%string ≠ "" ∧ contains_char colon "job" = false) as Hplain by (split; [discriminate|reflexivity]).
  destruct (ids_distinct "job" "report_1" "load" "send" Hplain) as (_ & _ & Hother & Hattempt & Hparse).
  split; [|split].
  - assert (Ref.as_string (step_job_attempt "job" "report_1" "load" 2) = "job:wf_report_1_load_r2"%string) as Etext.
    { vm_compute. reflexivity. }
    rewrite <- Etext. exact (proj2 (Hparse 2%Z)).
  - intros E. specialize (Hattempt 1%Z 2%Z ltac:(lia) ltac:(lia) E). lia.
  - intros E. destruct (Hother 1%Z 1%Z ltac:(lia) ltac:(lia) E) as [[_ Hn]|[[Hn _]|[Hn _]]]; [|lia..].
    vm_compute in Hn. destruct Hn as [Hn|[Hn|[Hn|Hn]]]; discriminate.
Defined.
