(* ===== verification/RunStore.v ===== *)
(** * The database rows of a workflow run

    Models the rows of one workflow run and the statements of
    [packages/schedule-core/src/sql.rs] that the run's operations execute, each
    with the guard its [WHERE] clause has; and programs that execute them one
    at a time. The columns that only carry times and error texts are left out. *)

From S2P Require Import Prelude Platform Value Dag Ids.

(** ** Rows *)

Inductive RunStatus := RunRunning | RunSuccess | RunFailed | RunKilled.
#[global] Instance run_status_eq_dec : EqDecision RunStatus.
Proof. solve_decision. Defined.

Inductive JobStatus := JobPending | JobProcessing | JobSuccess | JobFailed.
#[global] Instance job_status_eq_dec : EqDecision JobStatus.
Proof. solve_decision. Defined.

(** [_00_workflow_run]. [wr_dag] is the frozen definition; [None] when the
    column is missing or does not deserialize. *)
Record WorkflowRun := MkRun {
  wr_status : RunStatus;
  wr_dag : option WorkflowDef;
  wr_kill_requested : bool;
  wr_retry_count : Z;
  wr_target_table : option string;
  wr_input : option Value;
  wr_schedule_name : option string;
  wr_history_mode : option string;
}.

(** [_00_step_run]. *)
Record StepRow := MkStepRow {
  sr_step : string;
  sr_status : StepStatus;
  sr_job_id : option string;
  sr_output : option Value;
  sr_dispatch_attempts : Z;
}.

(** A row of an outbox table. [jr_content] is what it was created with. *)
Record JobRow := MkJobRow { jr_status : JobStatus; jr_result : option Value; jr_content : Value }.

(** [_00_schedule_run], of kind workflow. *)
Record ScheduleRun := MkScheduleRun {
  sc_status : RunStatus;
  sc_schedule_name : option string;
  sc_history_mode : option string;
}.

(** The rows one run is about: its own, its steps' by key, the outbox's and the
    schedule run that spawned it. *)
Record Db := MkDb {
  db_run : option WorkflowRun;
  db_steps : gmap string StepRow;
  db_jobs : gmap Ref JobRow;
  db_schedule : option ScheduleRun;
}.

Section setters.
Definition set_run (f : WorkflowRun → WorkflowRun) (db : Db) : Db :=
  MkDb (f <$> db_run db) (db_steps db) (db_jobs db) (db_schedule db).
Definition set_steps (f : gmap string StepRow → gmap string StepRow) (db : Db) : Db :=
  MkDb (db_run db) (f (db_steps db)) (db_jobs db) (db_schedule db).
Definition set_jobs (f : gmap Ref JobRow → gmap Ref JobRow) (db : Db) : Db :=
  MkDb (db_run db) (db_steps db) (f (db_jobs db)) (db_schedule db).
Definition set_schedule (f : option ScheduleRun → option ScheduleRun) (db : Db) : Db :=
  MkDb (db_run db) (db_steps db) (db_jobs db) (f (db_schedule db)).

Definition with_status (st : StepStatus) (r : StepRow) : StepRow :=
  MkStepRow (sr_step r) st (sr_job_id r) (sr_output r) (sr_dispatch_attempts r).
Definition with_job (job_id : string) (r : StepRow) : StepRow :=
  MkStepRow (sr_step r) Dispatched (Some job_id) (sr_output r) (sr_dispatch_attempts r).
Definition with_attempts (n : Z) (r : StepRow) : StepRow :=
  MkStepRow (sr_step r) (sr_status r) (sr_job_id r) (sr_output r) n.
Definition reset_row (r : StepRow) : StepRow := MkStepRow (sr_step r) Blocked None None 0.
(** [MERGE] with a patch: an absent output leaves the column. *)
Definition finalized (st : StepStatus) (output : option Value) (r : StepRow) : StepRow :=
  MkStepRow (sr_step r) st (sr_job_id r) (match output with Some _ => output | None => sr_output r end)
    (sr_dispatch_attempts r).

Definition run_with_status (st : RunStatus) (r : WorkflowRun) : WorkflowRun :=
  MkRun st (wr_dag r) (wr_kill_requested r) (wr_retry_count r) (wr_target_table r) (wr_input r)
    (wr_schedule_name r) (wr_history_mode r).
Definition run_with_kill (r : WorkflowRun) : WorkflowRun :=
  MkRun (wr_status r) (wr_dag r) true (wr_retry_count r) (wr_target_table r) (wr_input r)
    (wr_schedule_name r) (wr_history_mode r).
Definition reopened (r : WorkflowRun) : WorkflowRun :=
  MkRun RunRunning (wr_dag r) false (wr_retry_count r + 1) (wr_target_table r) (wr_input r)
    (wr_schedule_name r) (wr_history_mode r).
End setters.

Definition has_status (l : list StepStatus) (r : StepRow) : bool := bool_decide (sr_status r ∈ l).
Definition no_job (r : StepRow) : bool := match sr_job_id r with None => true | Some _ => false end.

(** [SELECT ... FROM _00_step_run WHERE workflow_run = ...]: the rows, in an
    order the database chooses. *)
Class ScanOrder := scan_steps : gmap string StepRow → list (string * StepRow).
Class ScanOrderLaws `{S : ScanOrder} := { scan_steps_perm : ∀ m, scan_steps m ≡ₚ map_to_list m }.

(** ** Statements *)

Inductive DbError := AlreadyExistsError | QueryError.

(** The statements, by their names in [sql.rs], with the type of what they
    return. [KILL_JOB] is the job-kill port; what it does to the job's row, its
    runner does. *)
Inductive Stmt : Type → Type :=
  | SELECT_WORKFLOW_RUN : Stmt (option WorkflowRun)
  | SELECT_STEP_RUNS : Stmt (list (string * StepRow))
  | SELECT_JOB (job : Ref) : Stmt (option JobRow)
  | CREATE_JOB (job : Ref) (content : Value) : Stmt unit
  | CREATE_SCHEDULE_RUN (row : ScheduleRun) : Stmt unit
  | CREATE_WORKFLOW_RUN (row : WorkflowRun) : Stmt unit
  | CREATE_STEP_RUN (id step : string) : Stmt unit
  | LINK_WORKFLOW_RUN : Stmt unit
  | CLAIM_STEP_READY (id : string) : Stmt (option StepRow)
  | BUMP_STEP_DISPATCH_ATTEMPT (id : string) : Stmt (option StepRow)
  | SKIP_STEP (id : string) : Stmt (option StepRow)
  | SKIP_UNDISPATCHED_STEP (id : string) : Stmt (option StepRow)
  | FAIL_UNDISPATCHED_STEP (id : string) : Stmt (option StepRow)
  | FAIL_UNDISPATCHABLE_STEP (id : string) : Stmt (option StepRow)
  | MARK_STEP_DISPATCHED (id job_id : string) : Stmt (option StepRow)
  | STAMP_STEP_STARTED (id : string) : Stmt unit
  | FINALIZE_STEP (id : string) (status : StepStatus) (output : option Value) : Stmt (option StepRow)
  | RESET_STEP_FOR_RETRY (id : string) : Stmt (option StepRow)
  | RESET_DISPATCHED_STEP_FOR_RETRY (id job_id : string) : Stmt (option StepRow)
  | REOPEN_WORKFLOW_RUN : Stmt (option WorkflowRun)
  | REOPEN_SCHEDULE_RUN : Stmt unit
  | REQUEST_WORKFLOW_KILL : Stmt unit
  | FINALIZE_WORKFLOW_RUN (status : RunStatus) : Stmt (option WorkflowRun)
  | FINALIZE_SCHEDULE_RUN (status : RunStatus) : Stmt (option ScheduleRun)
  | DELETE_SCHEDULE_RUN : Stmt unit
  | delete_records (jobs : list Ref) : Stmt unit
  | DELETE_WORKFLOW_RUN_CASCADE : Stmt unit
  | KILL_JOB (job_id : string) : Stmt unit.

(** [UPDATE record SET ... WHERE guard RETURN AFTER]. *)
Definition update_step (id : string) (guard : StepRow → bool) (f : StepRow → StepRow) (db : Db) : option StepRow * Db :=
  match db_steps db !! id with
  | Some r => if guard r then (Some (f r), set_steps <[id := f r]> db) else (None, db)
  | None => (None, db)
  end.

Definition update_run (guard : WorkflowRun → bool) (f : WorkflowRun → WorkflowRun) (db : Db) : option WorkflowRun * Db :=
  match db_run db with
  | Some r => if guard r then (Some (f r), set_run f db) else (None, db)
  | None => (None, db)
  end.

Definition update_schedule (guard : ScheduleRun → bool) (f : ScheduleRun → ScheduleRun) (db : Db) : option ScheduleRun * Db :=
  match db_schedule db with
  | Some r => if guard r then (Some (f r), set_schedule (λ _, Some (f r)) db) else (None, db)
  | None => (None, db)
  end.

Definition schedule_with_status (st : RunStatus) (r : ScheduleRun) : ScheduleRun :=
  MkScheduleRun st (sc_schedule_name r) (sc_history_mode r).

Section exec.
Context `{ScanOrder}.

(** What a statement answers and leaves; a [CREATE] of an existing id fails. *)
Definition exec {A} (q : Stmt A) (db : Db) : DbError + A * Db :=
  match q in Stmt A return DbError + A * Db with
  | SELECT_WORKFLOW_RUN => inr (db_run db, db)
  | SELECT_STEP_RUNS => inr (scan_steps (db_steps db), db)
  | SELECT_JOB job => inr (db_jobs db !! job, db)
  | CREATE_JOB job content =>
      match db_jobs db !! job with
      | Some _ => inl AlreadyExistsError
      | None => inr (tt, set_jobs <[job := MkJobRow JobPending None content]> db)
      end
  | CREATE_SCHEDULE_RUN row =>
      match db_schedule db with
      | Some _ => inl AlreadyExistsError
      | None => inr (tt, set_schedule (λ _, Some row) db)
      end
  | CREATE_WORKFLOW_RUN row =>
      match db_run db with
      | Some _ => inl AlreadyExistsError
      | None => inr (tt, MkDb (Some row) (db_steps db) (db_jobs db) (db_schedule db))
      end
  | CREATE_STEP_RUN id step =>
      match db_steps db !! id with
      | Some _ => inl AlreadyExistsError
      | None => inr (tt, set_steps <[id := MkStepRow step Blocked None None 0]> db)
      end
  | LINK_WORKFLOW_RUN => inr (tt, db)
  | CLAIM_STEP_READY id => inr (update_step id (has_status [Blocked]) (with_status Ready) db)
  | BUMP_STEP_DISPATCH_ATTEMPT id =>
      inr (update_step id (has_status [Ready; Dispatched]) (λ r, with_attempts (sr_dispatch_attempts r + 1) r) db)
  | SKIP_STEP id => inr (update_step id (has_status [Blocked; Ready]) (with_status Skipped) db)
  | SKIP_UNDISPATCHED_STEP id =>
      inr (update_step id (λ r, has_status [Dispatched] r && no_job r) (with_status Skipped) db)
  | FAIL_UNDISPATCHED_STEP id =>
      inr (update_step id (λ r, has_status [Dispatched] r && no_job r) (with_status Failed) db)
  | FAIL_UNDISPATCHABLE_STEP id => inr (update_step id (has_status [Ready]) (with_status Failed) db)
  | MARK_STEP_DISPATCHED id job_id => inr (update_step id (has_status [Ready; Dispatched]) (with_job job_id) db)
  | STAMP_STEP_STARTED _ => inr (tt, db)
  | FINALIZE_STEP id status output => inr (update_step id (has_status [Dispatched]) (finalized status output) db)
  | RESET_STEP_FOR_RETRY id => inr (update_step id (has_status [Failed; Skipped]) reset_row db)
  | RESET_DISPATCHED_STEP_FOR_RETRY id job_id =>
      inr (update_step id (λ r, has_status [Dispatched] r && bool_decide (sr_job_id r = Some job_id)) reset_row db)
  | REOPEN_WORKFLOW_RUN => inr (update_run (λ r, bool_decide (wr_status r ∈ [RunFailed; RunKilled])) reopened db)
  | REOPEN_SCHEDULE_RUN =>
      inr (tt, (update_schedule (λ r, bool_decide (sc_status r ∈ [RunFailed; RunKilled]))
                  (schedule_with_status RunRunning) db).2)
  | REQUEST_WORKFLOW_KILL => inr (tt, (update_run (λ r, bool_decide (wr_status r = RunRunning)) run_with_kill db).2)
  | FINALIZE_WORKFLOW_RUN status =>
      inr (update_run (λ r, bool_decide (wr_status r = RunRunning)) (run_with_status status) db)
  | FINALIZE_SCHEDULE_RUN status =>
      inr (update_schedule (λ r, bool_decide (sc_status r = RunRunning)) (schedule_with_status status) db)
  | DELETE_SCHEDULE_RUN => inr (tt, set_schedule (λ _, None) db)
  | delete_records jobs => inr (tt, set_jobs (λ m, foldr delete m jobs) db)
  | DELETE_WORKFLOW_RUN_CASCADE => inr (tt, MkDb None ∅ (db_jobs db) (db_schedule db))
  | KILL_JOB _ => inr (tt, db)
  end.
End exec.

(** ** Programs *)

(** A computation that executes statements: each may fail, and the rest of the
    program depends on its outcome. [Throw] is an error that reaches the caller. *)
Inductive Prog (A : Type) : Type :=
  | Ret (a : A)
  | Throw (e : DbError)
  | Query {B} (q : Stmt B) (k : DbError + B → Prog A).
Arguments Ret {A} _.
Arguments Throw {A} _.
Arguments Query {A B} _ _.

Fixpoint bind {A B} (p : Prog A) (f : A → Prog B) : Prog B :=
  match p with
  | Ret a => f a
  | Throw e => Throw e
  | Query q k => Query q (λ r, bind (k r) f)
  end.

(** [self.db.query(..).await?], and without the [?]. *)
Definition query {A} (q : Stmt A) : Prog A :=
  Query q (λ r, match r with inl e => Throw e | inr a => Ret a end).
Definition attempt {A} (q : Stmt A) : Prog (DbError + A) := Query q Ret.

(** [match self.f().await]: the error is the caller's to handle. *)
Fixpoint catch {A} (p : Prog A) : Prog (DbError + A) :=
  match p with
  | Ret a => Ret (inr a)
  | Throw e => Ret (inl e)
  | Query q k => Query q (λ r, catch (k r))
  end.

Declare Scope prog_scope.
Delimit Scope prog_scope with prog.
Notation "x ← p ; k" := (bind p (λ x, k)) (at level 20, p at level 100, k at level 200) : prog_scope.
Notation "p ;; k" := (bind p (λ _, k)) (at level 100, k at level 200, right associativity) : prog_scope.

(** A loop that may change the elements it visits. *)
Fixpoint for_each {A B} (f : A → Prog B) (l : list A) : Prog (list B) :=
  match l with
  | [] => Ret []
  | a :: l => bind (f a) (λ b, bind (for_each f l) (λ l, Ret (b :: l)))
  end.

Section run.
Context `{ScanOrder}.

(** A program run alone on a database that answers every statement. *)
Fixpoint run_prog {A} (p : Prog A) (db : Db) : (DbError + A) * Db :=
  match p with
  | Ret a => (inr a, db)
  | Throw e => (inl e, db)
  | Query q k =>
      match exec q db with
      | inl e => run_prog (k (inl e)) db
      | inr (a, db) => run_prog (k (inr a)) db
      end
  end.
End run.
