(* ===== verification/Workflow.v ===== *)
(** * Workflow runs

    Models [packages/schedule-core/src/workflow.rs]: spawning a run, advancing
    it, killing, cancelling, reaping and retrying it, as programs over the
    statements of [RunStore]; and the payload and content a step's job is
    created with ([engine.rs]). Recorded error texts, log lines, times and the
    history rollups are left out. *)

From S2P Require Import Prelude Platform Value Dag Ids RunStore.
Open Scope prog_scope.

Definition HISTORY_FAILURES_ONLY : string := "failures-only".
Definition MAX_DISPATCH_ATTEMPTS : Z := 3.

Inductive WorkflowOpError :=
  | NotFound
  | NotTerminal (status : RunStatus)
  | NotRunning (status : RunStatus)
  | Settling (step : string) (job_status : JobStatus)
  | NothingToRetry
  | BadDag
  | AlreadyExists
  | Conflict.

Record RetryOutcome := MkRetryOutcome { ro_retry_count : Z; ro_reset : list string; ro_kept : list string }.

(** What [spawn_workflow] reads of a schedule. *)
Record ScheduleSpec := MkScheduleSpec {
  ss_name : string;
  ss_workflow : option WorkflowDef;
  ss_target_table : option string;
  ss_history_mode : option string;
}.

(** A step row as it is read back: its key and columns. *)
Abbreviation Step := (string * StepRow)%type.

(** ** Job contents: engine.rs *)

Definition as_map (v : option Value) : list (string * Value) :=
  match v with Some (VObject m) => m | _ => [] end.

Definition build_payload (base row : option Value) (step_outputs : option (gmap string Value)) : Value :=
  let payload := as_map base in
  let payload := match row with Some row => assoc_insert "row" row payload | None => payload end in
  let payload :=
    match step_outputs with
    | Some outputs => if bool_decide (outputs = ∅) then payload
                      else assoc_insert "steps" (VObject (btree_list outputs)) payload
    | None => payload
    end in
  VObject payload.

Definition insert_some (k : string) (v : option Value) (m : list (string * Value)) : list (string * Value) :=
  match v with Some v => assoc_insert k v m | None => m end.

Definition number (n : Z) : Value := VNumber (if (0 <=? n)%Z then PosInt n else NegInt n).

Definition build_job_content (path : string) (payload : Value) (max_retries : option Z)
    (retry_strategy : option string) (timeout : option Z) : Value :=
  let content := assoc_insert "payload" payload (assoc_insert "path" (VString path) []) in
  let content := insert_some "max_retries" (number <$> max_retries) content in
  let content := insert_some "retry_strategy" (VString <$> retry_strategy) content in
  let content := insert_some "timeout" (number <$> timeout) content in
  VObject content.

(** ** Reading a run *)

Definition frozen_dag (run : WorkflowRun) : option WorkflowDag :=
  let? def := wr_dag run in
  match WorkflowDag.validate def with inr dag => Some dag | inl _ => None end.

(** An unreadable policy is the default one. *)
Definition on_failure (run : WorkflowRun) : OnFailure :=
  match wr_dag run with Some def => wd_on_failure def | None => Halt end.

(** [collect] into a [BTreeMap]: the last of equal names wins. *)
Definition statuses_of (steps : list Step) : gmap string StepStatus :=
  foldl (λ m s, <[sr_step s.2 := sr_status s.2]> m) ∅ steps.

Definition outputs_of (steps : list Step) : gmap string Value :=
  foldl (λ m s, match sr_status s.2, sr_output s.2 with
                | Success, Some o => <[sr_step s.2 := o]> m
                | _, _ => m
                end) ∅ steps.

Definition non_null (v : option Value) : option Value :=
  match v with Some VNull => None | _ => v end.

Definition mark (st : StepStatus) (s : Step) : Step := (s.1, with_status st s.2).

Definition is_plain_identifier (name : string) : bool :=
  let alpha c := between 97 c 122 || between 65 c 90 || (c =? 95)%Z in
  match bytes_of name with
  | [] => false
  | c :: _ => alpha c && forallb (λ c, alpha c || between 48 c 57) (bytes_of name)
  end.

Section workflow.
Context `{Sha256} `{ScanOrder} (run_key : string).

Definition load_workflow_run : Prog (option WorkflowRun) := query SELECT_WORKFLOW_RUN.
Definition load_step_rows : Prog (list Step) := query SELECT_STEP_RUNS.
Definition load_job (job_id : string) : Prog (option JobRow) :=
  match Ref.parse job_id with
  | None => Ret None
  | Some job => query (SELECT_JOB job)
  end.

Definition finalize_step (id : string) (status : StepStatus) (output : option Value) : Prog unit :=
  query (FINALIZE_STEP id status (non_null output));; Ret tt.

(** [CREATE] that takes a duplicate id for success. *)
Definition create_if_absent (q : Stmt unit) : Prog bool :=
  Query q (λ r, match r with
                | inr _ => Ret true
                | inl AlreadyExistsError => Ret false
                | inl e => Throw e
                end).

(** ** Finishing a run *)

(** [discard_if_failures_only] of engine.rs, for a run of kind workflow. *)
Definition discard_schedule_run (row : ScheduleRun) (status : RunStatus) : Prog unit :=
  if negb (bool_decide (sc_history_mode row = Some HISTORY_FAILURES_ONLY)) then Ret tt
  else if negb (bool_decide (status = RunSuccess)) then Ret tt
  else match sc_schedule_name row with
       | None => Ret tt
       | Some _ => attempt DELETE_SCHEDULE_RUN;; Ret tt
       end.

Definition finalize_schedule_run (status : RunStatus) : Prog unit :=
  row ← query (FINALIZE_SCHEDULE_RUN status);
  match row with
  | Some row => discard_schedule_run row status
  | None => Ret tt
  end.

Definition finalize_owning_schedule_run (run : WorkflowRun) (status : RunStatus) : Prog unit :=
  match wr_schedule_name run with
  | None => Ret tt
  | Some _ => finalize_schedule_run status
  end.

(** The step jobs that are deleted with a successful run. *)
Definition discardable_jobs (steps : list Step) : list Ref :=
  List.filter (λ j, is_plain_identifier (ref_table j) && is_plain_identifier (ref_key j))
    (omap (λ s : Step, let? job_id := sr_job_id s.2 in Ref.parse job_id) steps).

Definition discard_workflow_if_failures_only (run : WorkflowRun) : Prog unit :=
  if negb (bool_decide (wr_history_mode run = Some HISTORY_FAILURES_ONLY)) then Ret tt
  else
    steps ← attempt SELECT_STEP_RUNS;
    let jobs := discardable_jobs (match steps with inr steps => steps | inl _ => [] end) in
    (match jobs with [] => Ret tt | _ => attempt (delete_records jobs);; Ret tt end);;
    attempt DELETE_WORKFLOW_RUN_CASCADE;; Ret tt.

Definition complete_workflow_run : Prog unit :=
  finalized ← query (FINALIZE_WORKFLOW_RUN RunSuccess);
  match finalized with
  | None => Ret tt
  | Some run =>
      finalize_owning_schedule_run run RunSuccess;;
      discard_workflow_if_failures_only run
  end.

Definition fail_workflow_run : Prog unit :=
  finalized ← query (FINALIZE_WORKFLOW_RUN RunFailed);
  match finalized with
  | None => Ret tt
  | Some run => finalize_owning_schedule_run run RunFailed
  end.

(** ** Stopping a run *)

Definition stop_step (s : Step) : Prog unit :=
  match sr_status s.2 with
  | Blocked | Ready => query (SKIP_STEP s.1);; Ret tt
  | Dispatched =>
      match sr_job_id s.2 with
      | Some job_id => attempt (KILL_JOB job_id);; Ret tt
      | None => query (SKIP_UNDISPATCHED_STEP s.1);; Ret tt
      end
  | _ => Ret tt
  end.

Definition stop_workflow_run (run : WorkflowRun) (status : RunStatus) : Prog unit :=
  steps ← load_step_rows;
  for_each stop_step steps;;
  query (FINALIZE_WORKFLOW_RUN status);;
  finalize_owning_schedule_run run status.

Definition kill_workflow_run (run : WorkflowRun) : Prog unit := stop_workflow_run run RunKilled.

Definition is_running (run : WorkflowRun) : bool := bool_decide (wr_status run = RunRunning).

Definition request_workflow_kill : Prog unit :=
  query REQUEST_WORKFLOW_KILL;;
  run ← load_workflow_run;
  match run with
  | Some run => if is_running run then kill_workflow_run run else Ret tt
  | None => Ret tt
  end.

(** [true] for [killed], [false] for [kill_requested]. *)
Definition cancel_workflow : Prog (WorkflowOpError + bool) :=
  run ← load_workflow_run;
  match run with
  | None => Ret (inl NotFound)
  | Some run =>
      if negb (is_running run) then Ret (inl (NotRunning (wr_status run)))
      else
        request_workflow_kill;;
        after ← load_workflow_run;
        Ret (inr (bool_decide (wr_status <$> after = Some RunKilled)))
  end.

(** One expired run of [reap_pass]. *)
Definition reap_workflow : Prog unit :=
  loaded ← load_workflow_run;
  match loaded with
  | None => Ret tt
  | Some loaded => if negb (is_running loaded) then Ret tt else stop_workflow_run loaded RunFailed
  end.

(** One run of the first loop of [heal_workflow_runs]. *)
Definition heal_killed : Prog unit :=
  run ← load_workflow_run;
  match run with
  | None => Ret tt
  | Some run => kill_workflow_run run
  end.

(** ** Dispatching a step *)

(** The outputs of the direct dependencies. *)
Definition dependency_outputs (step : StepDef) (outputs : gmap string Value) : gmap string Value :=
  foldl (λ m dep, match outputs !! dep with Some out => <[dep := out]> m | None => m end) ∅ (sd_depends_on step).

Definition step_payload (run : WorkflowRun) (step : StepDef) (outputs : gmap string Value) : Value :=
  let payload := build_payload (sd_payload step) None (Some (dependency_outputs step outputs)) in
  match wr_input run, payload with
  | Some input, VObject map => VObject (assoc_insert "input" input map)
  | _, _ => payload
  end.

Definition step_content (run : WorkflowRun) (step : StepDef) (outputs : gmap string Value) : Value :=
  build_job_content (sd_path step) (step_payload run step outputs) (sd_max_retries step) (sd_retry_strategy step)
    (sd_timeout step).

Definition step_table (run : WorkflowRun) (step : StepDef) : option string :=
  match sd_table step with Some table => Some table | None => wr_target_table run end.

Definition dispatch_step (run : WorkflowRun) (step : StepDef) (id : string) (outputs : gmap string Value) : Prog unit :=
  match step_table run step with
  | None => query (FAIL_UNDISPATCHABLE_STEP id);; Ret tt
  | Some table =>
      let job := step_job_attempt table run_key (sd_name step) (wr_retry_count run) in
      create_if_absent (CREATE_JOB job (step_content run step outputs));;
      query (MARK_STEP_DISPATCHED id (Ref.as_string job));;
      attempt (STAMP_STEP_STARTED id);; Ret tt
  end.

(** ** Advancing a run *)

(** 1. Land the terminal state of a step whose job has finished. *)
Definition land_step (s : Step) : Prog Step :=
  if negb (bool_decide (sr_status s.2 = Dispatched)) then Ret s
  else match sr_job_id s.2 with
  | None => Ret s
  | Some job_id =>
      job ← load_job job_id;
      match job with
      | None => finalize_step s.1 Failed None;; Ret (mark Failed s)
      | Some job =>
          match jr_status job with
          | JobSuccess =>
              finalize_step s.1 Success (jr_result job);;
              Ret (s.1, MkStepRow (sr_step s.2) Success (sr_job_id s.2) (jr_result job) (sr_dispatch_attempts s.2))
          | JobFailed => finalize_step s.1 Failed None;; Ret (mark Failed s)
          | _ => Ret s
          end
      end
  end.

(** The keys of the steps a failure stops. *)
Definition steps_to_skip (policy : OnFailure) (dag : WorkflowDag) (steps : list Step) : list string :=
  match policy with
  | Halt => (List.filter (λ s : Step, has_status [Blocked; Ready] s.2) steps).*1
  | ContinueIndependent =>
      let doomed := WorkflowDag.doomed_steps dag (statuses_of steps) in
      omap (λ s : Step, if existsb (λ d : StepDef * string, String.eqb (sd_name d.1) (sr_step s.2)) doomed
                        then Some s.1 else None) steps
  end.

Definition skip_undispatched (s : Step) : Prog Step :=
  if negb (bool_decide (sr_status s.2 = Dispatched)) || negb (no_job s.2) then Ret s
  else
    skipped ← query (SKIP_UNDISPATCHED_STEP s.1);
    Ret (match skipped with Some _ => mark Skipped s | None => s end).

(** 2. Propagate failure. *)
Definition propagate_failure (policy : OnFailure) (dag : WorkflowDag) (steps : list Step) : Prog (list Step) :=
  let to_skip := steps_to_skip policy dag steps in
  for_each (λ id, query (SKIP_STEP id)) to_skip;;
  let steps := (λ s : Step, if bool_decide (s.1 ∈ to_skip) then mark Skipped s else s) <$> steps in
  for_each skip_undispatched steps.

(** 3a. Recover a step that is past [blocked] but holds no job. *)
Definition stranded (r : StepRow) : bool :=
  match sr_status r with
  | Ready => true
  | Dispatched => no_job r
  | _ => false
  end.

Definition recover_step (run : WorkflowRun) (dag : WorkflowDag) (statuses : gmap string StepStatus)
    (outputs : gmap string Value) (s : Step) : Prog Step :=
  if negb (stranded s.2) then Ret s
  else match WorkflowDag.step dag (sr_step s.2) with
  | None => Ret s
  | Some step_def =>
      if negb (WorkflowDag.deps_succeeded statuses step_def) then Ret s
      else if (MAX_DISPATCH_ATTEMPTS <=? sr_dispatch_attempts s.2)%Z then
        query (match sr_status s.2 with
               | Ready => FAIL_UNDISPATCHABLE_STEP s.1
               | _ => FAIL_UNDISPATCHED_STEP s.1
               end);;
        Ret (mark Failed s)
      else
        charged ← query (BUMP_STEP_DISPATCH_ATTEMPT s.1);
        match charged with
        | None => Ret s
        | Some charged =>
            dispatch_step run step_def s.1 outputs;;
            Ret (s.1, MkStepRow (sr_step s.2) Dispatched (sr_job_id s.2) (sr_output s.2) (sr_dispatch_attempts charged))
        end
  end.

(** Claim a ready step, and dispatch it if the claim was won. *)
Definition claim_step (run : WorkflowRun) (steps : list Step) (outputs : gmap string Value) (step_def : StepDef) : Prog unit :=
  match List.find (λ s : Step, String.eqb (sr_step s.2) (sd_name step_def)) steps with
  | None => Ret tt
  | Some row =>
      claimed ← query (CLAIM_STEP_READY row.1);
      match claimed with
      | None => Ret tt
      | Some _ => dispatch_step run step_def row.1 outputs
      end
  end.

(** 3. Dispatch whatever is ready now. *)
Definition dispatch_ready (run : WorkflowRun) (dag : WorkflowDag) (steps : list Step) : Prog unit :=
  let statuses := statuses_of steps in
  let outputs := outputs_of steps in
  steps ← for_each (recover_step run dag statuses outputs) steps;
  for_each (claim_step run steps outputs) (WorkflowDag.ready_steps dag statuses);;
  Ret tt.

(** 4. Finalize when nothing can move any more. *)
Definition settle_run : Prog unit :=
  steps ← load_step_rows;
  let all_terminal := negb (bool_decide (steps = [])) && forallb (λ s : Step, StepStatus.is_terminal (sr_status s.2)) steps in
  if negb all_terminal then Ret tt
  else match List.find (λ s : Step, bool_decide (sr_status s.2 = Failed)) steps with
       | Some _ => fail_workflow_run
       | None => complete_workflow_run
       end.

Definition any_failed (steps : list Step) : bool := existsb (λ s : Step, bool_decide (sr_status s.2 = Failed)) steps.

Definition advance_running (run : WorkflowRun) (dag : WorkflowDag) : Prog unit :=
  steps ← load_step_rows;
  steps ← for_each land_step steps;
  let failed := any_failed steps in
  steps ← (if failed : bool then propagate_failure (on_failure run) dag steps else Ret steps);
  (match on_failure run, failed with
   | Halt, true => Ret tt
   | _, _ => dispatch_ready run dag steps
   end);;
  settle_run.

Definition advance_workflow : Prog unit :=
  run ← load_workflow_run;
  match run with
  | None => Ret tt
  | Some run =>
      if negb (is_running run) then Ret tt
      else if wr_kill_requested run then kill_workflow_run run
      else match frozen_dag run with
           | None => fail_workflow_run
           | Some dag => advance_running run dag
           end
  end.

(** ** Retrying a run *)

(** Pass A: the status of every dispatched step's job, unless one still runs. *)
Fixpoint settled_jobs (steps : list Step) (dispatched_jobs : gmap string (option JobStatus))
    : Prog (WorkflowOpError + gmap string (option JobStatus)) :=
  match steps with
  | [] => Ret (inr dispatched_jobs)
  | s :: steps =>
      if negb (bool_decide (sr_status s.2 = Dispatched)) then settled_jobs steps dispatched_jobs
      else match sr_job_id s.2 with
      | None => settled_jobs steps (<[sr_step s.2 := None]> dispatched_jobs)
      | Some job_id =>
          job ← load_job job_id;
          match jr_status <$> job with
          | Some JobPending => Ret (inl (Settling (sr_step s.2) JobPending))
          | Some JobProcessing => Ret (inl (Settling (sr_step s.2) JobProcessing))
          | job_status => settled_jobs steps (<[sr_step s.2 := job_status]> dispatched_jobs)
          end
      end
  end.

(** The job of a dispatched step was seen to have succeeded. *)
Definition job_succeeded (dispatched_jobs : gmap string (option JobStatus)) (s : Step) : bool :=
  bool_decide (dispatched_jobs !! sr_step s.2 = Some (Some JobSuccess)).

(** Pass B, one step: [true] with its name when it was reset, [false] when kept. *)
Definition reset_step (dispatched_jobs : gmap string (option JobStatus)) (s : Step) : Prog (option (bool * string)) :=
  let done (r : option StepRow) := Ret (match r with Some _ => Some (true, sr_step s.2) | None => None end) in
  match sr_status s.2 with
  | Failed | Skipped => r ← query (RESET_STEP_FOR_RETRY s.1); done r
  | Dispatched =>
      if job_succeeded dispatched_jobs s then Ret (Some (false, sr_step s.2))
      else r ← query (RESET_DISPATCHED_STEP_FOR_RETRY s.1 (default "" (sr_job_id s.2))); done r
  | Success => Ret (Some (false, sr_step s.2))
  | Blocked | Ready => Ret None
  end.

Definition retryable (run : WorkflowRun) : bool := bool_decide (wr_status run ∈ [RunFailed; RunKilled]).

Definition reopen_run (run : WorkflowRun) (reset kept : list string) : Prog (WorkflowOpError + RetryOutcome) :=
  reopened ← query REOPEN_WORKFLOW_RUN;
  match reopened with
  | None => Ret (inl Conflict)
  | Some reopened =>
      (match wr_schedule_name run with
       | Some _ => attempt REOPEN_SCHEDULE_RUN;; Ret tt
       | None => Ret tt
       end);;
      advance_workflow;;
      Ret (inr (MkRetryOutcome (wr_retry_count reopened) reset kept))
  end.

Definition retry_workflow : Prog (WorkflowOpError + RetryOutcome) :=
  run ← load_workflow_run;
  match run with
  | None => Ret (inl NotFound)
  | Some run =>
      if negb (retryable run) then Ret (inl (NotTerminal (wr_status run)))
      else match frozen_dag run with
      | None => Ret (inl BadDag)
      | Some _ =>
          steps ← load_step_rows;
          settled ← settled_jobs steps ∅;
          match settled with
          | inl e => Ret (inl e)
          | inr jobs =>
              outcomes ← for_each (reset_step jobs) steps;
              let names b := omap (λ o, match o with Some (b', n) => if Bool.eqb b b' then Some n else None | None => None end) outcomes in
              let landable := existsb (λ s : Step, bool_decide (sr_status s.2 = Dispatched) && job_succeeded jobs s) steps in
              match names true, landable with
              | [], false => Ret (inl NothingToRetry)
              | reset, _ => reopen_run run reset (names false)
              end
          end
      end
  end.

(** ** Spawning a run *)

Definition create_step_rows (dag : WorkflowDag) : Prog unit :=
  for_each (λ step : StepDef, create_if_absent (CREATE_STEP_RUN (ref_key (step_run run_key (sd_name step))) (sd_name step)))
    (WorkflowDag.steps dag);;
  Ret tt.

(** Both writes of the skeleton are terminalized on failure. *)
Definition fail_unspawnable_run : Prog unit :=
  catch fail_workflow_run;;
  catch (finalize_schedule_run RunFailed);;
  Ret tt.

(** [create_schedule_run] for a run born [running]. *)
Definition create_schedule_run (spec : ScheduleSpec) : Prog bool :=
  let failures_only := bool_decide (ss_history_mode spec = Some HISTORY_FAILURES_ONLY) in
  create_if_absent (CREATE_SCHEDULE_RUN
    (MkScheduleRun RunRunning (Some (ss_name spec)) (if failures_only then Some HISTORY_FAILURES_ONLY else None))).

Definition workflow_content (spec : ScheduleSpec) (def : WorkflowDef) (item : option Value) : WorkflowRun :=
  MkRun RunRunning (Some def) false 0 (ss_target_table spec) item (Some (ss_name spec)) (ss_history_mode spec).

Definition spawn_workflow (spec : ScheduleSpec) (item : option Value) : Prog (DagError + bool) :=
  match ss_workflow spec with
  | None => Throw QueryError
  | Some def =>
      match WorkflowDag.validate def with
      | inl e => Ret (inl e)
      | inr dag =>
          created ← create_schedule_run spec;
          if negb created then Ret (inr false)
          else
            skeleton ← catch (create_if_absent (CREATE_WORKFLOW_RUN (workflow_content spec def item));;
                              create_step_rows dag);
            match skeleton with
            | inl e => fail_unspawnable_run;; Throw e
            | inr _ =>
                query LINK_WORKFLOW_RUN;;
                advance_workflow;;
                Ret (inr true)
            end
      end
  end.

(** ** Rerunning a run *)

(** The row of a rerun: what the source ran, and no schedule. *)
Definition rerun_content (source : WorkflowRun) : WorkflowRun :=
  MkRun RunRunning (wr_dag source) false 0 (wr_target_table source) (non_null (wr_input source)) None (wr_history_mode source).

(** [run_key] is the key of the new run, [source] the row of the old one. *)
Definition rerun_workflow (source : option WorkflowRun) : Prog (WorkflowOpError + unit) :=
  match source with
  | None => Ret (inl NotFound)
  | Some run =>
      match frozen_dag run with
      | None => Ret (inl BadDag)
      | Some dag =>
          created ← create_if_absent (CREATE_WORKFLOW_RUN (rerun_content run));
          if negb created then Ret (inl AlreadyExists)
          else
            create_step_rows dag;;
            advance_workflow;;
            Ret (inr tt)
      end
  end.
End workflow.
