(* ===== verification/WorkflowLogic.v ===== *)
(** * Reasoning about interleaved passes

    Any number of passes over a run execute their statements one at a time and
    in any order, each statement may fail with or without having taken effect,
    a pass may die between two statements, and jobs finish in between. A pass
    is verified alone, against an invariant and a relation that every other
    step keeps to ([wp]); [wp_sound] puts the passes together. *)

From S2P Require Import Prelude Platform Value Dag Ids RunStore Workflow.

(** ** Interleavings *)

(** The passes an engine, an operator or the reaper starts. *)
Inductive Op := OpAdvance | OpHealKilled | OpKill | OpCancel | OpReap.

(** Whether it may stop a run before its steps have. *)
Definition stopping (op : Op) : bool := match op with OpAdvance => false | _ => true end.

(** A job that has not ended may take any status and result. *)
Definition job_moves (j j' : JobRow) : Prop :=
  jr_status j ∈ [JobPending; JobProcessing] ∧ jr_content j' = jr_content j.

Section interleaving.
Context `{Sha256} `{ScanOrder} (run_key : string).

Definition op_program (op : Op) : Prog unit :=
  match op with
  | OpAdvance => advance_workflow run_key
  | OpHealKilled => heal_killed
  | OpKill => request_workflow_kill
  | OpCancel => bind cancel_workflow (λ _, Ret tt)
  | OpReap => reap_workflow
  end.

(** What may become of a statement: it is refused, it takes effect, it fails,
    or it takes effect and its answer is lost. *)
Inductive outcome {A} (q : Stmt A) (db : Db) : DbError + A → Db → Prop :=
  | outcome_refused e : exec q db = inl e → outcome q db (inl e) db
  | outcome_done a db' : exec q db = inr (a, db') → outcome q db (inr a) db'
  | outcome_failed : outcome q db (inl QueryError) db
  | outcome_lost a db' : exec q db = inr (a, db') → outcome q db (inl QueryError) db'.

(** One step of the database and the passes in flight. *)
Inductive cstep (allowed : Op → bool) : Db * list (Prog unit) → Db * list (Prog unit) → Prop :=
  | cs_start db ps op : allowed op = true → cstep allowed (db, ps) (db, op_program op :: ps)
  | cs_statement db db' ps ps' A (q : Stmt A) k r : outcome q db r db' →
      cstep allowed (db, ps ++ Query q k :: ps') (db', ps ++ k r :: ps')
  | cs_gone db ps ps' p : cstep allowed (db, ps ++ p :: ps') (db, ps ++ ps')
  | cs_job db ps r j j' : db_jobs db !! r = Some j → job_moves j j' →
      cstep allowed (db, ps) (set_jobs <[r := j']> db, ps).
End interleaving.

(** ** Passes under interference *)

Section logic.
Context `{ScanOrder} (I : Db → Prop) (R : relation Db) `{!PreOrder R} (pre : ∀ A, Stmt A → Db → Prop).

(** Every statement has its precondition whatever the others did before it,
    and the answer is [Q] in the end. *)
Fixpoint wp {A} (p : Prog A) (Q : A → Db → Prop) (db : Db) : Prop :=
  match p with
  | Ret a => Q a db
  | Throw _ => True
  | Query q k => ∀ db1, R db db1 → I db1 → pre _ q db1 ∧ ∀ r db2, outcome q db1 r db2 → wp (k r) Q db2
  end.

Context (Hexec : ∀ A (q : Stmt A) db r db', I db → pre _ q db → outcome q db r db' → I db' ∧ R db db').

Lemma wp_mono {A} (p : Prog A) (Q Q' : A → Db → Prop) db :
  (∀ a db', Q a db' → Q' a db') → wp p Q db → wp p Q' db.
Proof using Type.
  intros HQ. revert db. induction p as [a|e|B q k IH]; cbn; [auto|done|]. intros db Hw db1 HR HI.
  destruct (Hw db1 HR HI) as [Hpre Hk]. split; [done|]. intros r db2 Ho. by apply IH, Hk.
Qed.

Lemma wp_bind {A B} (p : Prog A) (f : A → Prog B) Q db : wp p (λ a, wp (f a) Q) db → wp (bind p f) Q db.
Proof using Type.
  revert db. induction p as [a|e|C q k IH]; cbn; [done|done|]. intros db Hw db1 HR HI.
  destruct (Hw db1 HR HI) as [Hpre Hk]. split; [done|]. intros r db2 Ho. by apply IH, Hk.
Qed.

(** A pass keeps the invariant and the relation itself. *)
Lemma wp_frame {A} (p : Prog A) Q db : I db → wp p Q db → wp p (λ a db', Q a db' ∧ I db' ∧ R db db') db.
Proof using Hexec PreOrder0.
  assert (∀ db0, R db0 db → I db → wp p Q db → wp p (λ a db', Q a db' ∧ I db' ∧ R db0 db') db) as Hgen; [|intros; by apply Hgen].
  revert db. induction p as [a|e|B q k IH]; cbn; [done|done|]. intros db db0 H0 HI Hw db1 HR HI1.
  destruct (Hw db1 HR HI1) as [Hpre Hk]. split; [done|]. intros r db2 Ho.
  destruct (Hexec _ q db1 r db2 HI1 Hpre Ho) as [HI2 HR2]. apply IH; [|done|by apply Hk].
  etrans; [exact H0|]. by etrans.
Qed.

(** What others do before a pass goes on does not matter. *)
Lemma wp_later {A} (p : Prog A) Q db db' : (∀ a db db', R db db' → Q a db → Q a db') → R db db' → wp p Q db → wp p Q db'.
Proof using PreOrder0.
  intros HQ HR. destruct p as [a|e|B q k]; cbn; [by apply HQ|done|]. intros Hw db1 HR1 HI. apply Hw; [by etrans|done].
Qed.

Lemma wp_query {A} (q : Stmt A) Q db :
  (∀ db1, R db db1 → I db1 → pre _ q db1 ∧ ∀ a db2, I db2 → R db1 db2 → exec q db1 = inr (a, db2) → Q a db2) →
  wp (query q) Q db.
Proof using Hexec.
  intros Hw db1 HR HI. destruct (Hw db1 HR HI) as [Hpre Hk]. split; [done|]. intros r db2 Ho.
  destruct (Hexec _ q db1 r db2 HI Hpre Ho) as [HI2 HR2]. destruct Ho as [e E|a db2 E| |a db2 E]; cbn; [done|by apply Hk|done|done].
Qed.

Lemma wp_attempt {A} (q : Stmt A) Q db :
  (∀ db1, R db db1 → I db1 → pre _ q db1 ∧ ∀ r db2, I db2 → R db1 db2 → outcome q db1 r db2 → Q r db2) →
  wp (attempt q) Q db.
Proof using Hexec.
  intros Hw db1 HR HI. destruct (Hw db1 HR HI) as [Hpre Hk]. split; [done|]. intros r db2 Ho.
  destruct (Hexec _ q db1 r db2 HI Hpre Ho) as [HI2 HR2]. by apply Hk.
Qed.

Lemma wp_create (q : Stmt unit) Q db :
  (∀ db1, R db db1 → I db1 → pre _ q db1 ∧ ∀ b db2, I db2 → R db1 db2 →
    exec q db1 = inr (tt, db2) ∨ (exec q db1 = inl AlreadyExistsError ∧ db2 = db1) → Q b db2) →
  wp (create_if_absent q) Q db.
Proof using Hexec.
  intros Hw db1 HR HI. destruct (Hw db1 HR HI) as [Hpre Hk]. split; [done|]. intros r db2 Ho.
  destruct (Hexec _ q db1 r db2 HI Hpre Ho) as [HI2 HR2].
  destruct Ho as [[] E|[] db2 E| |[] db2 E]; cbn; auto.
Qed.

(** A loop: [P] holds of each element's result from its round on. *)
Lemma wp_for_each {A B} (f : A → Prog B) (l : list A) (K : Db → Prop) (P : A → B → Db → Prop) db :
  (∀ db db', R db db' → I db' → K db → K db') →
  (∀ a b db db', R db db' → I db' → P a b db → P a b db') →
  (∀ a db, a ∈ l → I db → K db → wp (f a) (λ b db', P a b db') db) →
  I db → K db → wp (for_each f l) (λ bs db', Forall2 (λ a b, P a b db') l bs) db.
Proof using Hexec PreOrder0.
  intros HK HP Hf. revert db. induction l as [|a l IH]; intros db HI Hdb; [by constructor|]. cbn [for_each].
  apply wp_bind. eapply wp_mono; [|apply wp_frame; [done|by apply Hf; [left| |]]].
  intros b db1 (Hb & HI1 & HR1). apply wp_bind.
  eapply wp_mono; [|apply wp_frame; [done|apply IH; [|done|by eapply HK]]].
  - intros bs db2 (Hbs & HI2 & HR2). constructor; [by eapply HP|done].
  - intros a' db' Ha'. apply Hf. by right.
Qed.

(** All passes together. *)
Definition cluster_ok (c : Db * list (Prog unit)) : Prop := I c.1 ∧ Forall (λ p : Prog unit, wp p (λ _ _, True) c.1) c.2.

Lemma wp_sound `{Sha256} run_key allowed c c' :
  (∀ op db, allowed op = true → I db → wp (op_program run_key op) (λ _ _, True) db) →
  (∀ db r j j', I db → db_jobs db !! r = Some j → job_moves j j' →
    I (set_jobs <[r := j']> db) ∧ R db (set_jobs <[r := j']> db)) →
  cluster_ok c → cstep run_key allowed c c' → cluster_ok c' ∧ R c.1 c'.1.
Proof using Hexec PreOrder0.
  intros Hops Hjobs [HI Hps] Hstep.
  assert (∀ ps db db', R db db' → Forall (λ p : Prog unit, wp p (λ _ _, True) db) ps → Forall (λ p : Prog unit, wp p (λ _ _, True) db') ps) as Hlater.
  { intros ps db db' HR Hps0. eapply Forall_impl; [exact Hps0|]. intros p. by apply wp_later. }
  destruct Hstep as [db ps op Hop|db db' ps ps' A q k r Ho|db ps ps' p|db ps r j j' Hj Hmv]; cbn [fst snd] in *.
  - split; [split; [done|constructor; [by apply Hops|done]]|reflexivity].
  - apply Forall_app in Hps as [Hps [Hp Hps']%Forall_cons_1]. cbn in Hp.
    destruct (Hp db ltac:(reflexivity) HI) as [Hpre Hk]. destruct (Hexec _ q db r db' HI Hpre Ho) as [HI' HR].
    split; [split; [done|]|done]. apply Forall_app. split; [by eapply Hlater|]. constructor; [by apply Hk|by eapply Hlater].
  - split; [split; [done|]|reflexivity]. apply Forall_app in Hps as [Hps [_ Hps']%Forall_cons_1]. apply Forall_app. by split.
  - destruct (Hjobs db r j j' HI Hj Hmv) as [HI' HR]. split; [split; [done|by eapply Hlater]|done].
Qed.
End logic.
