(* ===== verification/WorkflowInv.v ===== *)
(** * What holds of a run's rows at any time

    The invariant of a workflow run under interleaved passes ([inv]), how its
    rows may change from one moment to a later one ([rely]), what each
    statement needs ([needs]), and that every statement keeps both. *)

From S2P Require Import Prelude Platform Value Dag DagFacts Ids RunStore Workflow WorkflowLogic.

(** ** The run under consideration *)

(** Its key, its row when it starts, its definition, and whether passes that
    stop a run may be among those in flight. *)
Class Setting := MkSetting {
  the_key : string;
  first_run : WorkflowRun;
  the_def : WorkflowDef;
  may_stop : bool;
}.

Section defs.
Context `{Sha256} `{Setting}.

Definition is_step (s : StepDef) : Prop := s ∈ wd_steps the_def.

(** The job a step is dispatched to, if it has an outbox table. *)
Definition job_of (s : StepDef) : option Ref :=
  (λ table, step_job_attempt table the_key (sd_name s) (wr_retry_count first_run)) <$> step_table first_run s.

Class SettingLaws := {
  frozen_def : wr_dag first_run = Some the_def;
  names_distinct : NoDup (map sd_name (wd_steps the_def));
(** No two steps get one job. *)
jobs_distinct : ∀ s s' j, is_step s → is_step s' → job_of s = Some j → job_of s' = Some j → s = s';
  jobs_parse : ∀ s j, is_step s → job_of s = Some j → Ref.parse (Ref.as_string j) = Some j;
}.

Definition row_key (name : string) : string := ref_key (step_run the_key name).

(** ** The invariant *)

(** The run ended in success, and its rows may be deleted. *)
Definition done (db : Db) : Prop := ∀ run, db_run db = Some run → wr_status run = RunSuccess.

(** The step of that name succeeded with that output. *)
Definition succeeded_with (db : Db) (name : string) (output : option Value) : Prop :=
  ∃ id r, db_steps db !! id = Some r ∧ sr_step r = name ∧ sr_status r = Success ∧ sr_output r = output.

Definition dep_done (db : Db) (name : string) : Prop := db_run db = None ∨ ∃ output, succeeded_with db name output.
Definition deps_done (db : Db) (s : StepDef) : Prop := ∀ d, d ∈ sd_depends_on s → dep_done db d.

(** Outputs a job is created with: those of the dependencies' rows. *)
Definition outputs_ok (db : Db) (s : StepDef) (outputs : gmap string Value) : Prop :=
  ∀ d, d ∈ sd_depends_on s → succeeded_with db d (non_null (outputs !! d)).

Definition content_ok (db : Db) (s : StepDef) (content : Value) : Prop :=
  ∃ outputs, content = step_content first_run s outputs ∧ outputs_ok db s outputs.

Definition started (st : StepStatus) : bool :=
  match st with Blocked | Skipped => false | _ => true end.

Definition has_job (s : StepDef) (r : StepRow) (j : Ref) : Prop :=
  job_of s = Some j ∧ sr_job_id r = Some (Ref.as_string j).

(** What a row's status says about its other columns and its job. *)
Definition row_state (db : Db) (s : StepDef) (r : StepRow) : Prop :=
  match sr_status r with
  | Blocked | Ready | Skipped => sr_output r = None ∧ sr_job_id r = None
  | Dispatched => sr_output r = None ∧ ∃ j, has_job s r j ∧ (done db ∨ is_Some (db_jobs db !! j))
  | Success => ∃ j, has_job s r j ∧ (done db ∨ ∃ job, db_jobs db !! j = Some job ∧ jr_status job = JobSuccess ∧
      sr_output r = non_null (jr_result job))
  | Failed => sr_output r = None ∧ (sr_job_id r = None ∨ ∃ j, has_job s r j ∧
      (done db ∨ ∃ job, db_jobs db !! j = Some job ∧ jr_status job = JobFailed))
  end.

Definition row_ok (db : Db) (id : string) (r : StepRow) : Prop :=
  id = row_key (sr_step r) ∧ ∃ s, is_step s ∧ sd_name s = sr_step r ∧
    (started (sr_status r) = true → deps_done db s) ∧ row_state db s r.

Definition same_run (run : WorkflowRun) : Prop :=
  wr_dag run = wr_dag first_run ∧ wr_retry_count run = wr_retry_count first_run ∧
  wr_target_table run = wr_target_table first_run ∧ wr_input run = wr_input first_run.

Definition has_status_row (db : Db) (st : StepStatus) : Prop := ∃ id r, db_steps db !! id = Some r ∧ sr_status r = st.

(** Every step succeeded, or was skipped by a pass that stopped the run. *)
Definition all_success (db : Db) : Prop :=
  ∀ id r, db_steps db !! id = Some r → sr_status r = Success ∨ (may_stop = true ∧ sr_status r = Skipped).


Record inv (db : Db) : Prop := {
  inv_run : ∀ run, db_run db = Some run → same_run run ∧ (may_stop = false → wr_kill_requested run = false);
  inv_rows : map_Forall (row_ok db) (db_steps db);
  inv_jobs : ∀ s j job, is_step s → job_of s = Some j → db_jobs db !! j = Some job →
    deps_done db s ∧ (done db ∨ content_ok db s (jr_content job));
  inv_gone : db_run db = None → db_steps db = ∅;
  inv_success : done db → all_success db;
  inv_skipped : may_stop = false → has_status_row db Skipped → has_status_row db Failed;
}.

(** ** Later *)

Definition status_le (st st' : StepStatus) : bool :=
  match st, st' with
  | Blocked, _ => true
  | Ready, Blocked => false
  | Ready, _ => true
  | Dispatched, (Dispatched | Success | Failed) => true
  | Dispatched, _ => false
  | _, _ => bool_decide (st = st')
  end.

Definition row_next (r r' : StepRow) : Prop :=
  sr_step r' = sr_step r ∧ status_le (sr_status r) (sr_status r') = true ∧
  (∀ x, sr_job_id r = Some x → sr_job_id r' = Some x) ∧ (StepStatus.is_terminal (sr_status r) = true → r' = r).

Definition rows_next (m m' : gmap string StepRow) : Prop :=
  ∀ id, match m !! id, m' !! id with
        | Some r, Some r' => row_next r r'
        | None, None => True
        | _, _ => False
        end.

Definition run_next (run run' : option WorkflowRun) : Prop :=
  match run, run' with
  | Some run, Some run' => wr_status run = RunRunning ∨ wr_status run' = wr_status run
  | None, Some _ => False
  | _, None => True
  end.

Definition job_next (j j' : JobRow) : Prop :=
  jr_content j' = jr_content j ∧ (jr_status j ∉ [JobPending; JobProcessing] → j' = j).

Record rely (db db' : Db) : Prop := {
  rely_run : run_next (db_run db) (db_run db');
  rely_rows : db_run db' = None ∨ rows_next (db_steps db) (db_steps db');
  rely_jobs : done db' ∨ ∀ j job, db_jobs db !! j = Some job → ∃ job', db_jobs db' !! j = Some job' ∧ job_next job job';
}.

(** ** What a statement needs *)

Definition needs {A} (q : Stmt A) (db : Db) : Prop :=
  match q with
  | CREATE_JOB j content => ∀ s, is_step s → job_of s = Some j → deps_done db s ∧ (done db ∨ content_ok db s content)
  | CLAIM_STEP_READY id => ∀ r s, db_steps db !! id = Some r → is_step s → sd_name s = sr_step r → deps_done db s
  | MARK_STEP_DISPATCHED id job_id => ∀ r s, db_steps db !! id = Some r → is_step s → sd_name s = sr_step r →
      ∃ j, job_of s = Some j ∧ job_id = Ref.as_string j ∧ (done db ∨ is_Some (db_jobs db !! j))
  | FINALIZE_STEP id st output => ∀ r s j, db_steps db !! id = Some r → is_step s → sd_name s = sr_step r → has_job s r j →
      (st = Success ∧ (done db ∨ ∃ job, db_jobs db !! j = Some job ∧ jr_status job = JobSuccess ∧ output = non_null (jr_result job))) ∨
      (st = Failed ∧ output = None ∧ (done db ∨ ∃ job, db_jobs db !! j = Some job ∧ jr_status job = JobFailed))
  | SKIP_STEP id => may_stop = true ∨ done db ∨ has_status_row db Failed
  | FINALIZE_WORKFLOW_RUN st => st = RunSuccess → all_success db
  | REQUEST_WORKFLOW_KILL => may_stop = true
  | delete_records _ | DELETE_WORKFLOW_RUN_CASCADE => done db
  | CREATE_SCHEDULE_RUN _ | CREATE_WORKFLOW_RUN _ | CREATE_STEP_RUN _ _ => False
  | RESET_STEP_FOR_RETRY _ | RESET_DISPATCHED_STEP_FOR_RETRY _ _ | REOPEN_WORKFLOW_RUN | REOPEN_SCHEDULE_RUN => False
  | _ => True
  end.
End defs.

(** ** The relation is a preorder, and knowledge survives it *)

Section rely.
Context `{Sha256} `{Setting}.

Lemma gone_done db : db_run db = None → done db.
Proof using Type. intros E run Hr. congruence. Qed.

Lemma status_le_refl st : status_le st st = true.
Proof using Type. by destruct st. Qed.

Lemma status_le_trans st1 st2 st3 : status_le st1 st2 = true → status_le st2 st3 = true → status_le st1 st3 = true.
Proof using Type. by destruct st1, st2, st3. Qed.

Lemma row_next_refl r : row_next r r.
Proof using Type. repeat split; auto using status_le_refl. Qed.

Lemma row_next_trans r1 r2 r3 : row_next r1 r2 → row_next r2 r3 → row_next r1 r3.
Proof using Type.
  intros (N1 & S1 & J1 & T1) (N2 & S2 & J2 & T2). split; [congruence|]. split; [by eapply status_le_trans|].
  split; [auto|]. intros Ht. specialize (T1 Ht) as ->. auto.
Qed.

Lemma rows_next_refl m : rows_next m m.
Proof using Type. intros id. destruct (m !! id); [apply row_next_refl|done]. Qed.

Lemma rows_next_trans m1 m2 m3 : rows_next m1 m2 → rows_next m2 m3 → rows_next m1 m3.
Proof using Type.
  intros H12 H23 id. specialize (H12 id). specialize (H23 id).
  destruct (m1 !! id), (m2 !! id), (m3 !! id); try done. by eapply row_next_trans.
Qed.

Lemma job_next_trans j1 j2 j3 : job_next j1 j2 → job_next j2 j3 → job_next j1 j3.
Proof using Type.
  intros [C1 T1] [C2 T2]. split; [congruence|]. intros Ht. specialize (T1 Ht) as ->. auto.
Qed.

Lemma rely_gone db db' : rely db db' → db_run db = None → db_run db' = None.
Proof using Type. intros HR E. pose proof (rely_run _ _ HR) as Hr. rewrite E in Hr. by destruct (db_run db'). Qed.

Lemma rely_done db db' : rely db db' → done db → done db'.
Proof using Type.
  intros HR Hd run' E'. pose proof (rely_run _ _ HR) as Hr. rewrite E' in Hr.
  destruct (db_run db) as [run|] eqn:E; [|done]. specialize (Hd run E). destruct Hr as [Hr|Hr]; congruence.
Qed.

#[global] Instance rely_preorder : PreOrder rely.
Proof using Type.
  split.
  - intros db. split.
    + destruct (db_run db); cbn; auto.
    + right. apply rows_next_refl.
    + right. intros j job Hj. exists job. split; [done|]. by split.
  - intros db1 db2 db3 H12 H23. split.
    + pose proof (rely_run _ _ H12) as R1. pose proof (rely_run _ _ H23) as R2.
      destruct (db_run db1), (db_run db2), (db_run db3); cbn in *; try done. intuition congruence.
    + destruct (rely_rows _ _ H23) as [?|R2]; [by left|]. destruct (rely_rows _ _ H12) as [E|R1].
      * left. by apply (rely_gone db2 db3).
      * right. by eapply rows_next_trans.
    + destruct (rely_jobs _ _ H23) as [?|R2]; [by left|]. destruct (rely_jobs _ _ H12) as [E|R1].
      * left. by apply (rely_done db2 db3).
      * right. intros j job Hj. destruct (R1 j job Hj) as (job2 & Hj2 & N1). destruct (R2 j job2 Hj2) as (job3 & Hj3 & N2).
        exists job3. split; [done|]. by eapply job_next_trans.
Qed.

Lemma rows_next_lookup m m' id r : rows_next m m' → m !! id = Some r → ∃ r', m' !! id = Some r' ∧ row_next r r'.
Proof using Type. intros Hn E. specialize (Hn id). rewrite E in Hn. destruct (m' !! id); [by eexists|done]. Qed.

Lemma succeeded_rely db db' name o : rely db db' → succeeded_with db name o → db_run db' = None ∨ succeeded_with db' name o.
Proof using Type.
  intros HR (id & r & E & Hn & Hs & Ho). destruct (rely_rows _ _ HR) as [?|Hrows]; [by left|]. right.
  destruct (rows_next_lookup _ _ _ _ Hrows E) as (r' & E' & (_ & _ & _ & Ht)). rewrite Hs in Ht. specialize (Ht eq_refl) as ->.
  by exists id, r.
Qed.

Lemma dep_done_rely db db' d : rely db db' → dep_done db d → dep_done db' d.
Proof using Type.
  intros HR [E|[o Ho]]; [left; by eapply rely_gone|]. destruct (succeeded_rely _ _ _ _ HR Ho); [by left|right; by eexists].
Qed.

Lemma deps_done_rely db db' s : rely db db' → deps_done db s → deps_done db' s.
Proof using Type. intros HR Hd d Hin. eapply dep_done_rely; [done|by apply Hd]. Qed.

Lemma outputs_ok_rely db db' s outputs : rely db db' → outputs_ok db s outputs → done db' ∨ outputs_ok db' s outputs.
Proof using Type.
  intros HR Ho. destruct (decide (db_run db' = None)) as [E|E]; [left; by apply gone_done|]. right.
  intros d Hd. destruct (succeeded_rely _ _ _ _ HR (Ho d Hd)); [done|done].
Qed.

Lemma outputs_known_rely db db' s outputs : rely db db' → done db ∨ outputs_ok db s outputs → done db' ∨ outputs_ok db' s outputs.
Proof using Type. intros HR [Hd|Ho]; [left; by eapply rely_done|by eapply outputs_ok_rely]. Qed.

Lemma content_ok_rely db db' s c : rely db db' → done db ∨ content_ok db s c → done db' ∨ content_ok db' s c.
Proof using Type.
  intros HR [Hd|(o & E & Ho)]; [left; by eapply rely_done|].
  destruct (outputs_ok_rely _ _ _ _ HR Ho); [by left|right; by exists o].
Qed.

(** What is known of a job that ended stays true. *)
Lemma ended_job_rely db db' j (P : JobRow → Prop) :
  rely db db' → (∀ job, P job → jr_status job ∉ [JobPending; JobProcessing]) →
  done db ∨ (∃ job, db_jobs db !! j = Some job ∧ P job) → done db' ∨ (∃ job, db_jobs db' !! j = Some job ∧ P job).
Proof using Type.
  intros HR HP [Hd|(job & Hj & Hp)]; [left; by eapply rely_done|]. destruct (rely_jobs _ _ HR) as [?|Hjobs]; [by left|]. right.
  destruct (Hjobs j job Hj) as (job' & Hj' & _ & Ht). rewrite (Ht (HP job Hp)) in Hj'. by exists job.
Qed.

Lemma job_exists_rely db db' j : rely db db' → done db ∨ is_Some (db_jobs db !! j) → done db' ∨ is_Some (db_jobs db' !! j).
Proof using Type.
  intros HR [Hd|[job Hj]]; [left; by eapply rely_done|]. destruct (rely_jobs _ _ HR) as [?|Hjobs]; [by left|]. right.
  destruct (Hjobs j job Hj) as (job' & Hj' & _). by eexists.
Qed.

Lemma row_state_rely db db' s r : rely db db' → row_state db s r → row_state db' s r.
Proof using Type.
  intros HR. unfold row_state. destruct (sr_status r); try done.
  - intros (? & j & ? & Hj). split; [done|]. exists j. split; [done|]. by eapply job_exists_rely.
  - intros (j & ? & Hj). exists j. split; [done|].
    eapply (ended_job_rely db db' j (λ job, jr_status job = JobSuccess ∧ sr_output r = non_null (jr_result job)));
      [done|intros job [-> _]; set_solver|done].
  - intros (? & [?|(j & ? & Hj)]); (split; [done|]); [by left|right]. exists j. split; [done|].
    eapply (ended_job_rely db db' j (λ job, jr_status job = JobFailed)); [done|intros job ->; set_solver|done].
Qed.

Lemma row_ok_rely db db' id r : rely db db' → row_ok db id r → row_ok db' id r.
Proof using Type.
  intros HR (Hid & s & Hs & Hn & Hdeps & Hst). split; [done|]. exists s. split; [done|]. split; [done|].
  split; [intros Hstart; eapply deps_done_rely; eauto|by eapply row_state_rely].
Qed.
End rely.

(** ** Every statement keeps the invariant *)

Section statements.
Context `{Sha256} `{Setting} {L : SettingLaws} `{ScanOrder}.

Lemma step_unique s s' : is_step s → is_step s' → sd_name s = sd_name s' → s = s'.
Proof using L.
  intros [i Hi]%list_elem_of_lookup [j Hj]%list_elem_of_lookup E. assert (i = j) as ->; [|congruence].
  eapply (NoDup_lookup (map sd_name (wd_steps the_def))); [apply names_distinct|..].
  - change (map sd_name (wd_steps the_def)) with (sd_name <$> wd_steps the_def). rewrite list_lookup_fmap, Hi. done.
  - change (map sd_name (wd_steps the_def)) with (sd_name <$> wd_steps the_def). rewrite list_lookup_fmap, Hj, E. done.
Qed.

(** Only a part of the rows changed, to allowed ones. *)
Lemma inv_change db db' : inv db → rely db db' →
  (∀ run, db_run db' = Some run → same_run run ∧ (may_stop = false → wr_kill_requested run = false)) →
  (∀ id r, db_steps db' !! id = Some r → db_steps db !! id = Some r ∨ row_ok db' id r) →
  (∀ s j job, is_step s → job_of s = Some j → db_jobs db' !! j = Some job →
    (∃ job0, db_jobs db !! j = Some job0 ∧ jr_content job = jr_content job0) ∨
    deps_done db' s ∧ (done db' ∨ content_ok db' s (jr_content job))) →
  (db_run db' = None → db_steps db' = ∅) →
  (done db' → all_success db') →
  (may_stop = false → has_status_row db' Skipped → has_status_row db' Failed) → inv db'.
Proof using Type.
  intros HI HR Hrun Hrows Hjobs Hgone Hsucc Hskip. split; auto.
  - intros id r E. destruct (Hrows id r E) as [E0|?]; [|done]. eapply row_ok_rely; [done|]. by apply (inv_rows _ HI).
  - intros s j job Hs Hj E. destruct (Hjobs s j job Hs Hj E) as [(job0 & E0 & ->)|?]; [|done].
    destruct (inv_jobs _ HI s j job0 Hs Hj E0) as [Hd Hc].
    split; [by eapply deps_done_rely|by eapply content_ok_rely].
Qed.

Lemma all_success_insert db id r r' : all_success db → db_steps db !! id = Some r → row_next r r' → r' = r.
Proof using Type. intros Ha E (_ & _ & _ & Ht). apply Ht. by destruct (Ha id r E) as [->|[_ ->]]. Qed.

Lemma change_row db id r r' : inv db → db_steps db !! id = Some r → row_next r r' → row_ok db id r' →
  (may_stop = false → sr_status r' = Skipped → done db ∨ has_status_row db Failed) →
  inv (set_steps <[id := r']> db) ∧ rely db (set_steps <[id := r']> db).
Proof using Type.
  intros HI E Hn Hok Hskip. set (db' := set_steps <[id := r']> db).
  assert (rely db db') as HR.
  { split.
    - cbn. destruct (db_run db); cbn; auto.
    - right. intros id'. cbn. destruct (decide (id' = id)) as [->|]; [by rewrite E, lookup_insert_eq|].
      rewrite lookup_insert_ne by done. apply rows_next_refl.
    - right. intros j job Hj. exists job. split; [done|by split]. }
  split; [|done]. apply (inv_change db db'); try done.
  - apply (inv_run _ HI).
  - intros id' r0. cbn. destruct (decide (id' = id)) as [->|]; [|rewrite lookup_insert_ne by done; by left].
    rewrite lookup_insert_eq. intros [= <-]. right. by eapply row_ok_rely.
  - intros s j job _ _ Hj. left. by exists job.
  - intros Hg. exfalso. apply (inv_gone _ HI) in Hg. rewrite Hg in E. done.
  - intros Hd id' r0. pose proof (inv_success _ HI Hd) as Ha. cbn.
    rewrite (all_success_insert db id r r' Ha E Hn), insert_id by done. apply Ha.
  - intros Hs (id' & r0 & E0 & Hst).
    assert (has_status_row db Failed → has_status_row db' Failed) as Hf.
    { intros (i & x & Ex & Hx). exists i. cbn. destruct (decide (i = id)) as [->|].
      - exists r'. rewrite lookup_insert_eq. split; [done|]. replace x with r in * by congruence.
        destruct Hn as (_ & _ & _ & Ht). by rewrite (Ht ltac:(by rewrite Hx)).
      - exists x. by rewrite lookup_insert_ne. }
    cbn in E0. destruct (decide (id' = id)) as [->|Hne].
    + rewrite lookup_insert_eq in E0. injection E0 as ->. apply Hf. destruct (Hskip Hs Hst) as [Hd|?]; [|done].
      pose proof (inv_success _ HI Hd) as Ha. pose proof (all_success_insert db id r _ Ha E Hn) as ->.
      destruct (Ha id r E) as [?|[? _]]; congruence.
    + rewrite lookup_insert_ne in E0 by done. apply Hf, (inv_skipped _ HI Hs). by exists id', r0.
Qed.

Lemma update_step_ok db id guard f : inv db →
  (∀ r, db_steps db !! id = Some r → row_ok db id r → guard r = true →
    row_next r (f r) ∧ row_ok db id (f r) ∧ (may_stop = false → sr_status (f r) = Skipped → done db ∨ has_status_row db Failed)) →
  inv (update_step id guard f db).2 ∧ rely db (update_step id guard f db).2.
Proof using Type.
  intros HI Hf. unfold update_step. destruct (db_steps db !! id) as [r|] eqn:E; [|by split].
  destruct (guard r) eqn:Eg; [|by split]. cbn.
  destruct (Hf r eq_refl (inv_rows _ HI id r E) Eg) as (Hn & Hok & Hskip). by apply (change_row db id r).
Qed.

Lemma change_run db run run' : inv db → db_run db = Some run → wr_status run = RunRunning →
  same_run run' → (may_stop = false → wr_kill_requested run' = false) →
  (wr_status run' = RunSuccess → all_success db) →
  inv (set_run (λ _, run') db) ∧ rely db (set_run (λ _, run') db).
Proof using Type.
  intros HI E Hr Hsame Hkill Hsucc. set (db' := set_run (λ _, run') db).
  assert (db_run db' = Some run') as E' by (cbn; by rewrite E).
  assert (rely db db') as HR.
  { split; [rewrite E, E'; cbn; by left|right; apply rows_next_refl|].
    right. intros j job Hj. exists job. split; [done|by split]. }
  split; [|done]. apply (inv_change db db'); try done.
  - intros run0. rewrite E'. by intros [= <-].
  - intros id r Hid. by left.
  - intros s j job _ _ Hj. left. by exists job.
  - congruence.
  - intros Hd. exact (Hsucc (Hd run' E')).
  - apply (inv_skipped _ HI).
Qed.

Lemma update_run_ok db f : inv db → (∀ run, same_run run → same_run (f run)) →
  (∀ run, may_stop = false → wr_kill_requested run = false → wr_kill_requested (f run) = false) →
  (∀ run, wr_status run = RunRunning → wr_status (f run) = RunSuccess → all_success db) →
  let db' := (update_run (λ r, bool_decide (wr_status r = RunRunning)) f db).2 in inv db' ∧ rely db db'.
Proof using Type.
  intros HI Hsame Hkill Hsucc. unfold update_run. destruct (db_run db) as [run|] eqn:E; [|by split].
  case_bool_decide as Hr; [|by split]. cbn. destruct (inv_run _ HI run E) as [Hs Hk].
  replace (set_run f db) with (set_run (λ _, f run) db) by (unfold set_run; by rewrite E). 
  apply (change_run db run); eauto.
Qed.

Lemma set_schedule_ok db f : inv db → inv (set_schedule f db) ∧ rely db (set_schedule f db).
Proof using Type.
  intros HI. split.
  - by destruct HI.
  - split; [cbn; destruct (db_run db); cbn; auto|right; apply rows_next_refl|].
    right. intros j job Hj. exists job. split; [done|by split].
Qed.

Lemma update_schedule_ok db guard f : inv db → inv (update_schedule guard f db).2 ∧ rely db (update_schedule guard f db).2.
Proof using Type.
  intros HI. unfold update_schedule. destruct (db_schedule db); [|by split]. destruct (guard _); [|by split].
  by apply set_schedule_ok.
Qed.

Lemma delete_records_ok db jobs : inv db → done db →
  inv (set_jobs (λ m, foldr delete m jobs) db) ∧ rely db (set_jobs (λ m, foldr delete m jobs) db).
Proof using Type.
  intros HI Hd. assert (rely db (set_jobs (λ m, foldr delete m jobs) db)) as HR.
  { split; [cbn; destruct (db_run db); cbn; auto|right; apply rows_next_refl|by left]. }
  split; [|done]. apply (inv_change db); try done; try apply HI.
  - intros id r E. by left.
  - intros s j job _ _ Hj. left. exists job. split; [|done]. revert Hj. cbn. clear.
    induction jobs as [|x jobs IH]; cbn; [done|]. intros [_ Hj]%lookup_delete_Some. auto.
Qed.

Lemma cascade_ok db : inv db → done db →
  inv (MkDb None ∅ (db_jobs db) (db_schedule db)) ∧ rely db (MkDb None ∅ (db_jobs db) (db_schedule db)).
Proof using Type.
  intros HI Hd. assert (rely db (MkDb None ∅ (db_jobs db) (db_schedule db))) as HR.
  { split; [cbn; by destruct (db_run db)|by left|left; by apply gone_done]. }
  split; [|done]. apply (inv_change db); try done.
  - intros s j job _ _ Hj. left. by exists job.
  - intros _ (id & r & E & _). cbn in E. by rewrite lookup_empty in E.
Qed.

Lemma has_status_In l r : has_status l r = true ↔ sr_status r ∈ l.
Proof using Type. apply bool_decide_eq_true. Qed.

Ltac status_cases r :=
  let E := fresh "Est" in
  destruct (sr_status r) eqn:E;
  try (exfalso; match goal with H : _ ∈ _ |- _ => repeat (apply elem_of_cons in H as [H|H]; [done|]); by apply elem_of_nil in H end).

(** The rows a guarded update may change, and to what. *)
Lemma move_unstarted db id r st : row_ok db id r → sr_status r ∈ [Blocked; Ready] → st = Skipped ∨ (st = Failed ∧ sr_status r = Ready) →
  row_next r (with_status st r) ∧ row_ok db id (with_status st r).
Proof using Type.
  intros (Hid & s & Hs & Hn & Hdeps & Hst) Hin Hto. unfold row_state in Hst.
  assert (sr_output r = None ∧ sr_job_id r = None) as [Ho Hj] by (by status_cases r). split.
  - split; [done|]. cbn. rewrite Hj. split; [status_cases r; by destruct Hto as [->|[-> ?]]|]. split; [done|]. status_cases r; done.
  - split; [done|]. exists s. split; [done|]. split; [done|]. cbn. split.
    + intros Hstart. apply Hdeps. destruct Hto as [->|[-> Er]]; [done|by rewrite Er].
    + unfold row_state. cbn. destruct Hto as [->|[-> _]]; [done|]. split; [done|by left].
Qed.

Lemma move_undispatched db id r st : row_ok db id r → sr_status r ∈ [Dispatched] → no_job r = true →
  row_next r (with_status st r) ∧ row_ok db id (with_status st r).
Proof using Type.
  intros (_ & s & _ & _ & _ & Hst) Hin Hno. unfold row_state, no_job in *. status_cases r.
  destruct Hst as (_ & j & (_ & E) & _). by rewrite E in Hno.
Qed.

Lemma move_claim db id r : row_ok db id r → sr_status r ∈ [Blocked] →
  (∀ s, is_step s → sd_name s = sr_step r → deps_done db s) →
  row_next r (with_status Ready r) ∧ row_ok db id (with_status Ready r).
Proof using Type.
  intros (Hid & s & Hs & Hn & Hdeps & Hst) Hin Hall. unfold row_state in Hst. status_cases r. split.
  - split; [done|]. cbn. rewrite Est. destruct Hst as [_ ->]. done.
  - split; [done|]. exists s. split; [done|]. split; [done|]. split; [intros _; by apply Hall|]. done.
Qed.

Lemma move_bump db id r n : row_ok db id r → sr_status r ∈ [Ready; Dispatched] →
  row_next r (with_attempts n r) ∧ row_ok db id (with_attempts n r).
Proof using Type.
  intros (Hid & s & Hs & Hn & Hdeps & Hst) Hin. split.
  - split; [done|]. cbn. split; [apply status_le_refl|]. split; [done|]. status_cases r; done.
  - split; [done|]. exists s. split; [done|]. split; [done|]. split; [done|].
    unfold row_state in *. cbn. status_cases r; try done.
Qed.

Lemma move_mark db id r job_id : row_ok db id r → sr_status r ∈ [Ready; Dispatched] →
  (∀ s, is_step s → sd_name s = sr_step r → ∃ j, job_of s = Some j ∧ job_id = Ref.as_string j ∧ (done db ∨ is_Some (db_jobs db !! j))) →
  row_next r (with_job job_id r) ∧ row_ok db id (with_job job_id r).
Proof using Type.
  intros (Hid & s & Hs & Hn & Hdeps & Hst) Hin Hall. destruct (Hall s Hs Hn) as (j & Hj & -> & Hex).
  assert (sr_output r = None ∧ ∀ x, sr_job_id r = Some x → x = Ref.as_string j) as [Ho Hsame].
  { unfold row_state in Hst. status_cases r; destruct Hst as [? Hst]; (split; [done|]); [by rewrite Hst|].
    destruct Hst as (j' & (Hj' & ->) & _). intros x [= <-]. congruence. }
  split.
  - split; [done|]. cbn. split; [status_cases r; done|]. split; [|status_cases r; done].
    intros x Hx. by rewrite (Hsame x Hx).
  - split; [done|]. exists s. split; [done|]. split; [done|]. split.
    + intros _. apply Hdeps. status_cases r; done.
    + unfold row_state. cbn. split; [done|]. by exists j.
Qed.

Lemma move_finalize db id r st output : row_ok db id r → sr_status r ∈ [Dispatched] →
  (∀ s j, is_step s → sd_name s = sr_step r → has_job s r j →
    (st = Success ∧ (done db ∨ ∃ job, db_jobs db !! j = Some job ∧ jr_status job = JobSuccess ∧ output = non_null (jr_result job))) ∨
    (st = Failed ∧ output = None ∧ (done db ∨ ∃ job, db_jobs db !! j = Some job ∧ jr_status job = JobFailed))) →
  row_next r (finalized st output r) ∧ row_ok db id (finalized st output r) ∧ st ≠ Skipped.
Proof using Type.
  intros (Hid & s & Hs & Hn & Hdeps & Hst) Hin Hall. unfold row_state in Hst. status_cases r.
  destruct Hst as (Ho & j & Hj & _). specialize (Hall s j Hs Hn Hj).
  assert (st ≠ Skipped ∧ status_le Dispatched st = true) as [Hne Hle] by (by destruct Hall as [[-> _]|[-> _]]).
  assert (match output with Some _ => output | None => sr_output r end = output) as Hout by (rewrite Ho; by destruct output).
  split; [|split; [|done]].
  - split; [done|]. cbn. rewrite Est. done.
  - split; [done|]. exists s. split; [done|]. split; [done|]. split; [intros _; by apply Hdeps|].
    unfold row_state. cbn. rewrite Hout. destruct Hall as [[-> Hjob]|(-> & -> & Hjob)].
    + exists j. split; [done|]. destruct Hjob as [?|(job & ? & ? & ?)]; [by left|right; by exists job].
    + split; [done|]. right. by exists j.
Qed.

Lemma inr_snd {A} (p : A * Db) a db' : @inr DbError _ p = inr (a, db') → db' = p.2.
Proof using Type. by intros [= ->]. Qed.

Lemma exec_ok {A} (q : Stmt A) db a db' : inv db → needs q db → exec q db = inr (a, db') → inv db' ∧ rely db db'.
Proof using L.
  intros HI Hpre. destruct q; cbn in Hpre; cbn [exec]; try done; try (intros [= <- <-]; by split).
  - (* CREATE_JOB *)
    destruct (db_jobs db !! job) as [|] eqn:E; [done|]. intros [= <- <-].
    assert (rely db (set_jobs <[job := MkJobRow JobPending None content]> db)) as HR.
    { split; [cbn; destruct (db_run db); cbn; auto|right; apply rows_next_refl|].
      right. intros j x Hj. exists x. cbn. rewrite lookup_insert_ne by congruence. split; [done|by split]. }
    split; [|done]. apply (inv_change db); try done; try apply HI.
    + intros id r ?. by left.
    + intros s j x Hs Hj. cbn. destruct (decide (j = job)) as [->|Hne].
      * rewrite lookup_insert_eq. intros [= <-]. right. destruct (Hpre s Hs Hj) as [Hd Hc].
        split; [by eapply deps_done_rely|by eapply content_ok_rely].
      * rewrite lookup_insert_ne by done. intros Hx. left. by exists x.
  - (* CLAIM *)
    intros ->%inr_snd. apply update_step_ok; [done|]. intros r Hr Hok Hg%has_status_In.
    destruct (move_claim db id r Hok Hg ltac:(eauto)) as [? ?]. done.
  - intros ->%inr_snd. apply update_step_ok; [done|]. intros r Hr Hok Hg%has_status_In.
    destruct (move_bump db id r (sr_dispatch_attempts r + 1) Hok Hg) as [? ?]. split; [done|]. split; [done|].
    cbn. intros _ Hsk. rewrite Hsk in Hg. set_solver.
  - intros ->%inr_snd. apply update_step_ok; [done|]. intros r Hr Hok Hg%has_status_In.
    destruct (move_unstarted db id r Skipped Hok Hg ltac:(by left)) as [? ?]. split; [done|]. split; [done|].
    intros Hs _. destruct Hpre as [Hp|?]; [congruence|done].
  - intros ->%inr_snd. apply update_step_ok; [done|]. intros r Hr Hok [Hg%has_status_In Hno]%andb_true_iff.
    destruct (move_undispatched db id r Skipped Hok Hg Hno) as [? ?]. split; [done|]. split; [done|].
    exfalso. destruct Hok as (_ & s & _ & _ & _ & Hst). unfold row_state, no_job in *. status_cases r.
    destruct Hst as (_ & j & (_ & Ej) & _). by rewrite Ej in Hno.
  - intros ->%inr_snd. apply update_step_ok; [done|]. intros r Hr Hok [Hg%has_status_In Hno]%andb_true_iff.
    destruct (move_undispatched db id r Failed Hok Hg Hno) as [? ?]. done.
  - intros ->%inr_snd. apply update_step_ok; [done|]. intros r Hr Hok Hg%has_status_In.
    assert (sr_status r = Ready) as Er by set_solver.
    destruct (move_unstarted db id r Failed Hok ltac:(set_solver) ltac:(by right)) as [? ?]. done.
  - intros ->%inr_snd. apply update_step_ok; [done|]. intros r Hr Hok Hg%has_status_In.
    destruct (move_mark db id r job_id Hok Hg ltac:(eauto)) as [? ?]. done.
  - intros ->%inr_snd. apply update_step_ok; [done|]. intros r Hr Hok Hg%has_status_In.
    destruct (move_finalize db id r status output Hok Hg ltac:(eauto)) as (? & ? & ?). done.
  - intros [= <- <-]. apply update_run_ok; [done|done| |].
    + intros run Hs _. congruence.
    + intros run Hr Hsu. cbn in Hsu. congruence.
  - intros ->%inr_snd. apply update_run_ok; [done|done|done|].
    intros run Hr Hsu. cbn in Hsu. auto.
  - intros ->%inr_snd. by apply update_schedule_ok.
  - intros [= <- <-]. by apply set_schedule_ok.
  - intros [= <- <-]. by apply delete_records_ok.
  - intros [= <- <-]. by apply cascade_ok.
Qed.

Lemma statement_ok {A} (q : Stmt A) db r db' : inv db → needs q db → outcome q db r db' → inv db' ∧ rely db db'.
Proof using L.
  intros HI Hpre Ho. destruct Ho as [e E|a db' E| |a db' E]; try by split.
  - by eapply exec_ok.
  - by eapply exec_ok.
Qed.

(** A job that moves on its own. *)
Lemma job_step_ok db r j j' : inv db → db_jobs db !! r = Some j → job_moves j j' →
  inv (set_jobs <[r := j']> db) ∧ rely db (set_jobs <[r := j']> db).
Proof using Type.
  intros HI E [Hrun Hc]. assert (rely db (set_jobs <[r := j']> db)) as HR.
  { split; [cbn; destruct (db_run db); cbn; auto|right; apply rows_next_refl|]. right. intros x job Hx. cbn.
    destruct (decide (x = r)) as [->|Hne].
    - exists j'. rewrite lookup_insert_eq. split; [done|]. replace job with j by congruence. split; [done|]. intros Hn. by destruct Hn.
    - exists job. rewrite lookup_insert_ne by done. split; [done|by split]. }
  split; [|done]. apply (inv_change db); try done; try apply HI.
  - intros id x Hx. by left.
  - intros s x job _ _. cbn. destruct (decide (x = r)) as [->|Hne].
    + rewrite lookup_insert_eq. intros [= <-]. left. by exists j.
    + rewrite lookup_insert_ne by done. intros Hx. left. by exists job.
Qed.
End statements.
