(* ===== verification/WorkflowSafe.v ===== *)
(** * Interleaved passes are safe

    Every pass over a workflow run keeps the invariant of [WorkflowInv] under
    interference; so any interleaving of passes, failures, crashes and job
    completions does. *)

From S2P Require Import Prelude Platform Value Dag DagFacts Ids RunStore Workflow WorkflowLogic WorkflowInv.

Section passes.
Context `{Sha256} `{Setting} {L : SettingLaws} `{ScanOrderLaws}.

Abbreviation WP := (wp inv rely (@needs _ _)).

Lemma wq {A} (q : Stmt A) Q db :
  (∀ db1, rely db db1 → inv db1 → needs q db1 ∧ ∀ a db2, inv db2 → rely db1 db2 → exec q db1 = inr (a, db2) → Q a db2) →
  WP (query q) Q db.
Proof. apply wp_query. intros. by eapply statement_ok. Qed.

Lemma wa {A} (q : Stmt A) Q db :
  (∀ db1, rely db db1 → inv db1 → needs q db1 ∧ ∀ r db2, inv db2 → rely db1 db2 → Q r db2) → WP (attempt q) Q db.
Proof.
  intros Hw. apply wp_attempt; [intros; by eapply statement_ok|]. intros db1 HR HI. destruct (Hw db1 HR HI). split; auto.
Qed.

(** One part of a pass after the other. *)
Lemma ws {A B} (p : Prog A) (f : A → Prog B) Q1 Q db : inv db → WP p Q1 db →
  (∀ a db', Q1 a db' → inv db' → rely db db' → WP (f a) Q db') → WP (bind p f) Q db.
Proof.
  intros HI Hp Hf. apply wp_bind. eapply wp_mono; [|apply wp_frame; [apply _|intros; by eapply statement_ok|done|exact Hp]].
  intros a db' (Ha & HI' & HR). by apply Hf.
Qed.

Lemma wloop {A B} (f : A → Prog B) l (K : Db → Prop) (P : A → B → Db → Prop) db :
  (∀ db db', rely db db' → inv db' → K db → K db') →
  (∀ a b db db', rely db db' → inv db' → P a b db → P a b db') →
  (∀ a db, a ∈ l → inv db → K db → WP (f a) (P a) db) →
  inv db → K db → WP (for_each f l) (λ bs db', Forall2 (λ a b, P a b db') l bs) db.
Proof. intros. apply (wp_for_each inv rely (@needs _ _)) with (K := K); eauto. intros. by eapply statement_ok. Qed.

Definition finished {A} : A → Db → Prop := λ _ _, True.

(** A loop of which only the effects matter. *)
Lemma wloop_any {A B} (f : A → Prog B) l (K : Db → Prop) db :
  (∀ db db', rely db db' → inv db' → K db → K db') →
  (∀ a db, a ∈ l → inv db → K db → WP (f a) finished db) → inv db → K db → WP (for_each f l) finished db.
Proof.
  intros HK Hf HI Hdb. eapply wp_mono; [|apply (wloop f l K (λ _ _ _, True)); [done|done|done|done|done]]. done.
Qed.

(** ** Finishing and stopping a run *)

Lemma wp_finalize_schedule_run status db : inv db → WP (finalize_schedule_run status) finished db.
Proof.
  intros HI. unfold finalize_schedule_run. eapply ws; [done|apply (wq _ finished); by split|]. intros [row|] db1 _ HI1 _; [|done].
  unfold discard_schedule_run. destruct (negb _); [done|]. destruct (negb _); [done|]. destruct (sc_schedule_name row); [|done].
  eapply ws; [done|apply (wa _ finished); by split|]. done.
Qed.

Lemma wp_finalize_owning run status db : inv db → WP (finalize_owning_schedule_run run status) finished db.
Proof. intros HI. unfold finalize_owning_schedule_run. destruct (wr_schedule_name run); [by apply wp_finalize_schedule_run|done]. Qed.

Lemma wp_fail_workflow_run db : inv db → WP fail_workflow_run finished db.
Proof.
  intros HI. unfold fail_workflow_run. eapply ws; [done|apply (wq _ finished); intros db1 _ _; by split|].
  intros [run|] db1 _ HI1 _; [by apply wp_finalize_owning|done].
Qed.

Lemma wp_discard run db : inv db → done db → WP (discard_workflow_if_failures_only run) finished db.
Proof.
  intros HI Hd. unfold discard_workflow_if_failures_only. destruct (negb _); [done|].
  eapply ws; [done|apply (wa _ finished); by split|]. intros steps db1 _ HI1 HR1. apply (rely_done _ _ HR1) in Hd.
  eapply (ws _ _ finished); [done| |].
  - destruct (discardable_jobs _); [done|]. eapply ws; [done|apply (wa _ finished)|done].
    intros db2 HR2 _. split; [by apply (rely_done _ _ HR2)|done].
  - intros _ db2 _ HI2 HR2. eapply ws; [done|apply (wa _ finished)|done].
    intros db3 HR3 _. split; [by apply (rely_done _ _ HR3), (rely_done _ _ HR2)|done].
Qed.

Lemma all_success_rely db db' : inv db' → rely db db' → all_success db → all_success db'.
Proof.
  intros HI' HR Ha id r E. destruct (rely_rows _ _ HR) as [Eg|Hrows].
  { rewrite (inv_gone _ HI' Eg), lookup_empty in E. done. }
  specialize (Hrows id). rewrite E in Hrows. destruct (db_steps db !! id) as [r0|] eqn:E0; [|done].
  destruct Hrows as (_ & _ & _ & Ht). pose proof (Ha id r0 E0) as Hs.
  rewrite Ht; [done|]. by destruct Hs as [->|[_ ->]].
Qed.

Lemma wp_complete db : inv db → all_success db → WP complete_workflow_run finished db.
Proof.
  intros HI Hok. unfold complete_workflow_run.
  eapply (ws _ _ (λ run db', match run with Some _ => done db' | None => True end)); [done| |].
  - apply wq. intros db1 HR1 HI1. split.
    + intros _. by eapply all_success_rely.
    + intros run db2 _ _. cbn [exec]. unfold update_run. destruct (db_run db1) as [r|] eqn:E; [|by intros [= <- <-]].
      destruct (bool_decide _); intros [= <- <-]; [|done]. intros r' E'. cbn in E'. rewrite E in E'. by injection E' as <-.
  - intros [run|] db1 Hd HI1 HR1; [|done].
    eapply (ws _ _ finished); [done|by apply wp_finalize_owning|]. intros _ db2 _ HI2 HR2.
    apply wp_discard; [done|by apply (rely_done _ _ HR2)].
Qed.

Lemma elem_of_scan m s : s ∈ scan_steps m ↔ m !! s.1 = Some s.2.
Proof.
  rewrite (scan_steps_perm m). destruct s as [id r]. apply elem_of_map_to_list.
Qed.

Lemma wp_load Q db : (∀ db1, rely db db1 → inv db1 → Q (scan_steps (db_steps db1)) db1) → WP load_step_rows Q db.
Proof. intros HQ. apply wq. intros db1 HR1 HI1. split; [done|]. intros a db2 _ _ [= <- <-]. auto. Qed.

Lemma wp_settle db : inv db → WP settle_run finished db.
Proof.
  intros HI. unfold settle_run.
  eapply (ws _ _ (λ steps db', ∃ db1, rely db1 db' ∧ inv db1 ∧ steps = scan_steps (db_steps db1))); [done| |].
  { apply wp_load. intros db1 HR1 HI1. by exists db1. }
  intros steps db1 (db0 & HR0 & HI0 & ->) HI1 _. destruct (_ && _) eqn:Et; [|done]. cbn [negb].
  apply andb_true_iff in Et as [_ Hterm]. rewrite forallb_forall in Hterm.
  destruct (List.find _ _) eqn:Ef; [by apply wp_fail_workflow_run|]. apply wp_complete; [done|].
  eapply all_success_rely; [done|done|].
  assert (¬ has_status_row db0 Failed) as Hnf.
  { intros (id & r & E & Hr). pose proof (find_none _ _ Ef (id, r)) as Hn. rewrite <- list_elem_of_In, elem_of_scan in Hn.
    specialize (Hn E). cbn in Hn. by rewrite bool_decide_eq_false in Hn. }
  intros id r E. specialize (Hterm (id, r)). rewrite <- list_elem_of_In, elem_of_scan in Hterm. specialize (Hterm E). cbn in Hterm.
  destruct (sr_status r) eqn:Est; try done; [by left|exfalso; apply Hnf; by exists id, r|].
  destruct may_stop eqn:Es; [by right|exfalso]. apply Hnf, (inv_skipped _ HI0 Es). by exists id, r.
Qed.

Lemma wp_stop run status db : inv db → may_stop = true → status ≠ RunSuccess → WP (stop_workflow_run run status) finished db.
Proof.
  intros HI Hstop Hne. unfold stop_workflow_run. eapply (ws _ _ finished); [done|by apply wp_load|]. intros steps db1 _ HI1 _.
  eapply (ws _ _ finished); [done|apply (wloop_any _ _ (λ _, True)); [done| |done|done]|].
  - intros s db2 _ HI2 _. unfold stop_step. destruct (sr_status s.2); try done.
    1,2: (eapply (ws _ _ finished); [done|apply wq; intros db3 _ _; split; [by left|done]|done]).
    destruct (sr_job_id s.2).
    + eapply (ws _ _ finished); [done|by apply wa|done].
    + eapply (ws _ _ finished); [done|by apply wq|done].
  - intros _ db2 _ HI2 _. eapply (ws _ _ finished); [done|apply wq; intros db3 _ _; split; [by intros ?|done]|].
    intros _ db3 _ HI3 _. by apply wp_finalize_owning.
Qed.

(** ** What a pass knows of the rows it read *)

(** The row is as it was read, or further. *)
Definition loaded (s : Step) (db : Db) : Prop :=
  db_run db = None ∨ ∃ r, db_steps db !! s.1 = Some r ∧ row_next s.2 r.

(** A success or failure in memory is one in the database. *)
Definition known (s : Step) (db : Db) : Prop :=
  db_run db = None ∨ ∃ r, db_steps db !! s.1 = Some r ∧ sr_step r = sr_step s.2 ∧
    (sr_status s.2 = Success → sr_status r = Success ∧ (done db ∨ sr_output r = non_null (sr_output s.2))) ∧
    (sr_status s.2 = Failed → done db ∨ sr_status r = Failed).

Lemma loaded_rely db db' s : rely db db' → loaded s db → loaded s db'.
Proof.
  intros HR [E|(r & E & Hn)]; [left; by eapply rely_gone|]. destruct (rely_rows _ _ HR) as [?|Hrows]; [by left|right].
  destruct (rows_next_lookup _ _ _ _ Hrows E) as (r' & E' & Hn'). exists r'. split; [done|]. by eapply row_next_trans.
Qed.

Lemma known_rely db db' s : rely db db' → known s db → known s db'.
Proof.
  intros HR [E|(r & E & Hn & Hsu & Hfa)]; [left; by eapply rely_gone|]. destruct (rely_rows _ _ HR) as [?|Hrows]; [by left|right].
  destruct (rows_next_lookup _ _ _ _ Hrows E) as (r' & E' & (Hn' & _ & _ & Ht)). exists r'. split; [done|]. split; [congruence|].
  split; intros Hs.
  - destruct (Hsu Hs) as [Hr Ho]. rewrite Hr in Ht. rewrite (Ht eq_refl). split; [done|].
    destruct Ho; [left; by eapply rely_done|by right].
  - destruct (Hfa Hs) as [Hd|Hr]; [left; by eapply rely_done|right]. rewrite Hr in Ht. by rewrite (Ht eq_refl).
Qed.

Lemma known_all_rely db db' l : rely db db' → Forall (λ s, known s db) l → Forall (λ s, known s db') l.
Proof. intros HR Hl. eapply Forall_impl; [exact Hl|]. intros s. by apply known_rely. Qed.

Lemma non_null_idemp v : non_null (non_null v) = non_null v.
Proof. by destruct v as [[]|]. Qed.

Lemma scan_loaded db s : inv db → s ∈ scan_steps (db_steps db) → loaded s db ∧ row_ok db s.1 s.2.
Proof.
  intros HI Hs%elem_of_scan. split; [right; exists s.2; split; [done|apply row_next_refl]|]. by apply (inv_rows _ HI).
Qed.

(** What has been read and did not end in [Dispatched] with a job is known. *)
Lemma loaded_known db s db' : inv db → row_ok db s.1 s.2 → rely db db' → loaded s db' → known s db'.
Proof.
  intros HI (_ & sd & _ & _ & _ & Hst) HR [E|(r & E & (Hn & _ & _ & Ht))]; [by left|right]. exists r. split; [done|]. split; [done|].
  split; intros Hs; rewrite Hs in Ht; rewrite (Ht eq_refl); [|by right]. split; [done|].
  unfold row_state in Hst. rewrite Hs in Hst. destruct Hst as (j & _ & [Hd|(job & _ & _ & ->)]).
  - left. by eapply rely_done.
  - right. by rewrite non_null_idemp.
Qed.

Definition landed (s s' : Step) (db : Db) : Prop := s'.1 = s.1 ∧ sr_step s'.2 = sr_step s.2 ∧ known s' db.

Lemma landed_rely s s' db db' : rely db db' → landed s s' db → landed s s' db'.
Proof. intros HR (? & ? & ?). split; [done|]. split; [done|]. by eapply known_rely. Qed.

(** The row a [FINALIZE_STEP] leaves. *)
Lemma finalize_leaves db db' id r st output a : inv db → db_steps db !! id = Some r → status_le Dispatched (sr_status r) = true →
  exec (FINALIZE_STEP id st output) db = inr (a, db') →
  ∃ r', db_steps db' !! id = Some r' ∧ sr_step r' = sr_step r ∧
    (r' = finalized st output r ∧ sr_status r = Dispatched ∨ r' = r ∧ StepStatus.is_terminal (sr_status r) = true).
Proof.
  intros HI E Hle Hex. cbn in Hex. apply inr_snd in Hex as ->. unfold update_step. rewrite E.
  unfold has_status. case_bool_decide as Hd.
  - cbn. exists (finalized st output r). rewrite lookup_insert_eq. split; [done|]. split; [done|]. left. split; [done|]. set_solver.
  - exists r. split; [done|]. split; [done|]. right. split; [done|]. destruct (sr_status r); set_solver.
Qed.

Lemma wp_land_ended s id r0 j st output output' db : inv db → row_ok db id r0 → sr_status r0 = Dispatched → has_job s r0 j → is_step s →
  sd_name s = sr_step r0 → loaded (id, r0) db →
  (st = Success ∧ output' = output ∧
     (done db ∨ ∃ job, db_jobs db !! j = Some job ∧ jr_status job = JobSuccess ∧ non_null output = non_null (jr_result job)) ∨
   st = Failed ∧ output = None ∧ output' = sr_output r0 ∧
     (done db ∨ ∃ job, db_jobs db !! j = Some job ∧ jr_status job = JobFailed)) →
  WP (finalize_step id st output)
    (λ _, known (id, MkStepRow (sr_step r0) st (sr_job_id r0) output' (sr_dispatch_attempts r0))) db.
Proof.
  intros HI Hok Hdisp Hjob Hs Hname Hl Hcase. unfold finalize_step.
  eapply ws; [done| |intros a db' Hk _ _; exact Hk].
  apply (wq _ (λ _ : option StepRow, known (id, MkStepRow (sr_step r0) st (sr_job_id r0) output' (sr_dispatch_attempts r0)))).
  intros db1 HR1 HI1.
  assert (st = Success ∧ output' = output ∧
     (done db1 ∨ ∃ job, db_jobs db1 !! j = Some job ∧ jr_status job = JobSuccess ∧ non_null output = non_null (jr_result job)) ∨
   st = Failed ∧ output = None ∧ output' = sr_output r0 ∧
     (done db1 ∨ ∃ job, db_jobs db1 !! j = Some job ∧ jr_status job = JobFailed)) as Hcase1.
  { destruct Hcase as [(? & ? & Hj)|(? & ? & ? & Hj)]; [left|right]; split_and!; try done.
    - eapply (ended_job_rely db db1 j (λ job, jr_status job = JobSuccess ∧ non_null output = non_null (jr_result job)));
        [done|intros job [-> _]; set_solver|done].
    - eapply (ended_job_rely db db1 j (λ job, jr_status job = JobFailed)); [done|intros job ->; set_solver|done]. }
  split.
  - intros r s' j' E Hs' Hn' Hj'. destruct (loaded_rely _ _ _ HR1 Hl) as [Eg|(r1 & E1 & (N1 & _))].
    { rewrite (inv_gone _ HI1 Eg), lookup_empty in E. done. }
    cbn [fst snd] in *. assert (s' = s) as -> by (apply step_unique; congruence).
    assert (j' = j) as -> by (destruct Hj', Hjob; congruence).
    destruct Hcase1 as [(-> & _ & Hj)|(-> & -> & _ & Hj)]; [left|right]; auto.
  - intros a db2 HI2 HR2 Hex. destruct (loaded_rely _ _ _ HR1 Hl) as [Eg|(r1 & E1 & (N1 & S1 & J1 & _))].
    { left. by eapply rely_gone. }
    cbn [fst snd] in *. rewrite Hdisp in S1.
    destruct (finalize_leaves db1 db2 id r1 st (non_null output) a HI1 E1 S1 Hex) as (r2 & E2 & N2 & Hr2).
    right. exists r2. cbn [fst snd sr_step sr_status sr_output]. split; [done|]. split; [congruence|].
    destruct (inv_rows _ HI1 id r1 E1) as (_ & s1 & Hs1 & Hn1 & _ & Hst1). assert (s1 = s) as -> by (apply step_unique; congruence).
    pose proof (J1 _ (proj2 Hjob)) as Hj1. unfold row_state in Hst1.
    destruct Hcase1 as [(-> & -> & Hj)|(-> & -> & -> & Hj)]; (split; [intros Hx|intros Hx]); try done.
    + destruct Hr2 as [[-> Ed]|[-> Et]].
      * split; [done|]. right. cbn. rewrite Ed in Hst1. destruct Hst1 as [Ho _]. rewrite Ho. by destruct (non_null output).
      * destruct (sr_status r1) eqn:Es1; try done.
        -- split; [done|]. destruct Hst1 as (j1 & [Hj1' _] & [Hd|(job1 & Ejob1 & _ & Ho1)]); [left; by apply (rely_done _ _ HR2)|].
           destruct Hj as [Hd|(job & Ejob & _ & Ho)]; [left; by apply (rely_done _ _ HR2)|right].
           assert (j1 = j) as -> by (destruct Hjob; congruence). congruence.
        -- exfalso. destruct Hst1 as [_ [Ej|(j1 & [Hj1' _] & Hf)]]; [congruence|].
           assert (j1 = j) as -> by (destruct Hjob; congruence).
           assert (done db1) as Hd.
           { destruct Hf as [?|(x & Ex & Hxf)]; [done|]. destruct Hj as [?|(y & Ey & Hy & _)]; [done|]. congruence. }
           destruct (inv_success _ HI1 Hd id r1 E1) as [?|[_ ?]]; congruence.
    + destruct Hr2 as [[-> Ed]|[-> Et]]; [by right|]. destruct (sr_status r1); try done; [left|by right].
      apply (rely_done _ _ HR2). destruct Hst1 as (j1 & [Hj1' _] & [Hd|(job1 & Ejob1 & Hst & _)]); [done|].
      destruct Hj as [Hd|(job & Ejob & Hst')]; [done|]. assert (j1 = j) as -> by (destruct Hjob; congruence). congruence.
Qed.

Lemma wp_land_step db0 s db : inv db0 → row_ok db0 s.1 s.2 → rely db0 db → inv db → loaded s db →
  WP (land_step s) (landed s) db.
Proof.
  intros HI0 Hok HR HI Hl. unfold land_step. case_bool_decide as Hd; cbn [negb].
  2:{ split; [done|]. split; [done|]. by apply (loaded_known db0). }
  destruct (proj2 Hok) as (sd & Hs & Hname & _ & Hst). unfold row_state in Hst. rewrite Hd in Hst.
  destruct Hst as (_ & j & Hjob & Hex). rewrite (proj2 Hjob). unfold load_job.
  rewrite (jobs_parse sd j Hs (proj1 Hjob)).
  eapply (ws _ _ (λ a db', ∃ db1, rely db db1 ∧ rely db1 db' ∧ a = db_jobs db1 !! j)); [done| |].
  { apply wq. intros db1 HR1 HI1. split; [done|]. intros a db2 _ HR2 [= <- <-]. by exists db1. }
  intros job db2 (db1 & HR1 & HR2 & ->) HI2 _.
  assert (rely db db2) as HRa by (by etrans). assert (rely db0 db1) as HRb by (by etrans).
  assert (loaded s db2) as Hl2 by (by eapply loaded_rely).
  assert (∀ st output output', 
    (st = Success ∧ output' = output ∧
     (done db2 ∨ ∃ job, db_jobs db2 !! j = Some job ∧ jr_status job = JobSuccess ∧ non_null output = non_null (jr_result job)) ∨
     st = Failed ∧ output = None ∧ output' = sr_output s.2 ∧
     (done db2 ∨ ∃ job, db_jobs db2 !! j = Some job ∧ jr_status job = JobFailed)) →
    WP (bind (finalize_step s.1 st output)
          (λ _, Ret (s.1, MkStepRow (sr_step s.2) st (sr_job_id s.2) output' (sr_dispatch_attempts s.2)))) (landed s) db2) as Hend.
  { intros st output output' Hc. eapply ws; [done|apply (wp_land_ended sd s.1 s.2 j st output output'); try done|].
    - eapply row_ok_rely; [|done]. by etrans.
    - intros u db3 Hk _ _. split; [done|by split]. }
  pose proof (Hend Success) as Hsuccess. rewrite (proj2 Hjob) in Hsuccess.
  destruct (db_jobs db1 !! j) as [job|] eqn:Ej.
  - destruct (jr_status job) eqn:Est.
    + split; [done|]. split; [done|]. apply (loaded_known db0); [done|done| |done]. by etrans.
    + split; [done|]. split; [done|]. apply (loaded_known db0); [done|done| |done]. by etrans.
    + apply Hsuccess. left. split_and!; try done.
      eapply (ended_job_rely db1 db2 j (λ x, jr_status x = JobSuccess ∧ non_null (jr_result job) = non_null (jr_result x)));
        [done|intros x [-> _]; set_solver|right; by exists job].
    + apply (Hend Failed None (sr_output s.2)). right. split_and!; try done.
      eapply (ended_job_rely db1 db2 j (λ x, jr_status x = JobFailed)); [done|intros x Hx; cbn in Hx; rewrite Hx; set_solver|right; by exists job].
  - apply (Hend Failed None (sr_output s.2)). right. split_and!; try done. left.
    destruct (job_exists_rely db0 db1 j HRb Hex) as [?|[x Ex]]; [by apply (rely_done db1 db2)|congruence].
Qed.

Lemma wp_land_all db0 db : inv db0 → rely db0 db → inv db →
  WP (for_each land_step (scan_steps (db_steps db0))) (λ steps db', Forall2 (λ s s', landed s s' db') (scan_steps (db_steps db0)) steps) db.
Proof.
  intros HI0 HR HI.
  apply (wloop _ _ (λ db, rely db0 db ∧ ∀ s, s ∈ scan_steps (db_steps db0) → loaded s db)); try done.
  - intros db1 db2 HR12 _ [HR1 Hl]. split; [by etrans|]. intros s Hs. eapply loaded_rely; [done|by apply Hl].
  - intros s s' db1 db2 HR12 _. by apply landed_rely.
  - intros s db1 Hs HI1 [HR1 Hl]. apply (wp_land_step db0); [done| |done|done|by apply Hl]. by apply scan_loaded.
  - split; [done|]. intros s Hs. eapply loaded_rely; [done|]. by apply scan_loaded.
Qed.

(** ** The steps in memory *)

Abbreviation names l := (map (λ s : Step, sr_step s.2) l).

Lemma elem_of_names n l : n ∈ names l ↔ ∃ s, s ∈ l ∧ sr_step s.2 = n.
Proof.
  rewrite list_elem_of_In, in_map_iff. split; intros (s & Hs1 & Hs2); exists s.
  - split; [by apply list_elem_of_In|done].
  - split; [done|by apply list_elem_of_In].
Qed.

Lemma landed_names db steps steps' : Forall2 (λ s s', landed s s' db) steps steps' →
  names steps' = names steps ∧ Forall (λ s, known s db) steps'.
Proof.
  induction 1 as [|s s' l l' (_ & Hn & Hk) _ [IH1 IH2]]; [done|]. cbn. split; [by rewrite Hn, IH1|by constructor].
Qed.

Lemma scan_names db : inv db → NoDup (names (scan_steps (db_steps db))).
Proof.
  intros HI. pose proof (scan_steps_perm (db_steps db)) as Hp.
  assert (NoDup (scan_steps (db_steps db)).*1) as Hnd by (rewrite Hp; apply NoDup_fst_map_to_list).
  assert (∀ s, s ∈ scan_steps (db_steps db) → s.1 = row_key (sr_step s.2)) as Hkey.
  { intros s Hs. by destruct (scan_loaded db s HI Hs) as [_ [? _]]. }
  clear Hp. induction (scan_steps (db_steps db)) as [|s l IH]; [constructor|]. cbn. apply NoDup_cons in Hnd as [Hni Hnd].
  constructor; [|apply IH; [done|intros; apply Hkey; by right]]. intros Hin. apply Hni.
  apply elem_of_names in Hin as (s' & Hs' & E). apply list_elem_of_fmap. exists s'. split; [|done].
  rewrite (Hkey s), (Hkey s'), E; [done|by right|by left].
Qed.

Lemma statuses_lookup l n st : statuses_of l !! n = Some st → ∃ s, s ∈ l ∧ sr_step s.2 = n ∧ sr_status s.2 = st.
Proof.
  unfold statuses_of. induction l as [|s l IH] using rev_ind; [cbn; by rewrite lookup_empty|]. rewrite foldl_app. cbn.
  destruct (decide (n = sr_step s.2)) as [->|Hne].
  - rewrite lookup_insert_eq. intros [= <-]. exists s. split; [set_solver|done].
  - rewrite lookup_insert_ne by done. intros E. destruct (IH E) as (s' & Hs' & ?). exists s'. split; [set_solver|done].
Qed.

Lemma outputs_absent l n : n ∉ names l → outputs_of l !! n = None.
Proof.
  unfold outputs_of. induction l as [|y l IH] using rev_ind; [intros _; apply lookup_empty|]. rewrite map_app, foldl_app. cbn.
  intros Hn. assert (n ∉ names l ∧ n ≠ sr_step y.2) as [? ?] by set_solver.
  destruct (sr_status y.2), (sr_output y.2); rewrite ?lookup_insert_ne by done; auto.
Qed.

Lemma outputs_lookup l s : NoDup (names l) → s ∈ l → sr_status s.2 = Success → outputs_of l !! sr_step s.2 = sr_output s.2.
Proof.
  unfold outputs_of. induction l as [|x l IH] using rev_ind; [by intros _ Hs%elem_of_nil|].
  rewrite map_app, foldl_app. cbn [map foldl]. intros (Hnd & Hdis & _)%NoDup_app Hs Hst.
  apply elem_of_app in Hs as [Hs|Hs%list_elem_of_singleton].
  - assert (sr_step s.2 ≠ sr_step x.2) as Hne.
    { intros E. apply (Hdis (sr_step s.2)); [apply elem_of_names; by exists s|]. rewrite E. by left. }
    destruct (sr_status x.2), (sr_output x.2); rewrite ?lookup_insert_ne by done; by apply IH.
  - subst s. rewrite Hst. destruct (sr_output x.2); [by rewrite lookup_insert_eq|]. apply outputs_absent.
    intros Hin. apply (Hdis _ Hin). by left.
Qed.

(** ** Propagating a failure *)

Definition broken (db : Db) : Prop := done db ∨ has_status_row db Failed.

Lemma broken_rely db db' : rely db db' → broken db → broken db'.
Proof.
  intros HR [Hd|(id & r & E & Hr)]; [left; by eapply rely_done|].
  destruct (rely_rows _ _ HR) as [?|Hrows]; [left; by apply gone_done|right].
  destruct (rows_next_lookup _ _ _ _ Hrows E) as (r' & E' & (_ & _ & _ & Ht)). rewrite Hr in Ht. rewrite (Ht eq_refl) in E'.
  by exists id, r.
Qed.

Lemma any_failed_broken db l : any_failed l = true → Forall (λ s, known s db) l → broken db.
Proof.
  intros (s & Hs%list_elem_of_In & Hf)%existsb_exists Hk. apply bool_decide_eq_true in Hf. rewrite Forall_forall in Hk.
  destruct (Hk s Hs) as [Hg|(r & E & _ & _ & Hr)]; [left; by apply gone_done|].
  destruct (Hr Hf) as [?|?]; [by left|right]. by exists s.1, r.
Qed.

Lemma known_mark st s db : st ≠ Success → st ≠ Failed → known s db → known (mark st s) db.
Proof.
  intros H1' H2' [?|(r & E & Hn & _)]; [by left|right]. exists r. split; [done|]. split; [done|]. by split; intros Hst; cbn in Hst.
Qed.

Definition same_names (l : list Step) : list Step → Db → Prop := λ l' db, names l' = names l ∧ Forall (λ s, known s db) l'.

Lemma wp_propagate policy dag l db : inv db → Forall (λ s, known s db) l → broken db →
  WP (propagate_failure policy dag l) (same_names l) db.
Proof.
  intros HI Hk Hb. unfold propagate_failure. eapply (ws _ _ finished); [done| |].
  { apply (wloop_any _ _ broken); [intros ? ? HR _; by apply broken_rely| |done|done].
    intros id db1 _ HI1 Hb1. apply wq. intros db2 HR2 HI2. split; [|done]. right. by apply (broken_rely _ _ HR2). }
  intros _ db1 _ HI1 HR1. set (to_skip := steps_to_skip policy dag l).
  set (l1 := (λ s : Step, if bool_decide (s.1 ∈ to_skip) then mark Skipped s else s) <$> l).
  assert (names l1 = names l ∧ Forall (λ s, known s db1) l1) as [Hn1 Hk1].
  { split.
    - unfold l1. generalize to_skip. clear. intros to_skip. induction l as [|s l IH]; [done|]. rewrite fmap_cons. cbn [map]. rewrite IH. f_equal. by case_bool_decide.
    - unfold l1. apply Forall_fmap, Forall_forall. intros s Hs. rewrite Forall_forall in Hk. cbn.
      pose proof (known_rely _ _ s HR1 (Hk s Hs)). case_bool_decide; [by apply known_mark|done]. }
  eapply wp_mono; [|apply (wloop skip_undispatched l1 (λ db, Forall (λ s, known s db) l1) landed)]; try done.
  - intros l2 db2 Hl2%landed_names. unfold same_names. by rewrite <- Hn1.
  - intros db2 db3 HR23 _. by apply known_all_rely.
  - intros s s' db2 db3 HR23 _. by apply landed_rely.
  - intros s db2 Hs HI2 Hk2. rewrite Forall_forall in Hk2. unfold skip_undispatched.
    destruct (negb _ || _); [split; [done|split; [done|by apply Hk2]]|].
    eapply (ws _ _ finished); [done|by apply wq|]. intros [r|] db3 _ _ HR3; (split; [done|split; [done|]]).
    + apply known_mark; [done|done|]. eapply known_rely; [done|by apply Hk2].
    + eapply known_rely; [done|by apply Hk2].
Qed.

(** ** Dispatching *)

Lemma step_table_same run s : same_run run → step_table run s = step_table first_run s.
Proof. intros (_ & _ & Ht & _). unfold step_table. by rewrite Ht. Qed.

Lemma step_content_same run s o : same_run run → step_content run s o = step_content first_run s o.
Proof. intros (_ & _ & _ & Hi). unfold step_content, step_payload. by rewrite Hi. Qed.

(** The row, while there is one, is that step's. *)
Definition names_row (id name : string) (db : Db) : Prop := ∀ r, db_steps db !! id = Some r → sr_step r = name.

Lemma names_row_rely id name db db' : inv db' → rely db db' → names_row id name db → names_row id name db'.
Proof.
  intros HI' HR Hn r E. destruct (rely_rows _ _ HR) as [Hg|Hrows].
  { rewrite (inv_gone _ HI' Hg), lookup_empty in E. done. }
  specialize (Hrows id). rewrite E in Hrows. destruct (db_steps db !! id) as [r0|] eqn:E0; [|done].
  destruct Hrows as (-> & _). by apply Hn.
Qed.

Lemma known_names_row s db : inv db → known s db → names_row s.1 (sr_step s.2) db.
Proof.
  intros HI [Hg|(r & E & Hn & _)] r' E'; [|congruence]. by rewrite (inv_gone _ HI Hg), lookup_empty in E'.
Qed.

Definition may_dispatch (s : StepDef) (outputs : gmap string Value) (db : Db) : Prop :=
  deps_done db s ∧ (done db ∨ outputs_ok db s outputs).

Lemma may_dispatch_rely s outputs db db' : rely db db' → may_dispatch s outputs db → may_dispatch s outputs db'.
Proof. intros HR [Hd Ho]. split; [by eapply deps_done_rely|by eapply outputs_known_rely]. Qed.

Lemma wp_dispatch run s id outputs db : inv db → same_run run → is_step s → names_row id (sd_name s) db →
  may_dispatch s outputs db → WP (dispatch_step the_key run s id outputs) finished db.
Proof.
  intros HI Hrun Hs Hid Hmay. unfold dispatch_step. rewrite (step_table_same run s Hrun).
  destruct (step_table first_run s) as [table|] eqn:Et.
  2:{ eapply (ws _ _ finished); [done|by apply wq|done]. }
  rewrite (step_content_same run s outputs Hrun). destruct Hrun as (_ & -> & _).
  set (j := step_job_attempt table the_key (sd_name s) (wr_retry_count first_run)).
  assert (job_of s = Some j) as Hj by (unfold job_of; by rewrite Et).
  eapply (ws _ _ (λ _ db', done db' ∨ is_Some (db_jobs db' !! j))); [done| |].
  { apply wp_create; [intros; by eapply statement_ok|]. intros db1 HR1 HI1. split.
    - intros s' Hs' Hj'. assert (s' = s) as -> by (by eapply jobs_distinct). 
      destruct (may_dispatch_rely _ _ _ _ HR1 Hmay) as [Hd [?|Ho]]; (split; [done|]); [by left|right]. by exists outputs.
    - intros b db2 HI2 HR2 [E|[E ->]]; right; cbn [exec] in E; destruct (db_jobs db1 !! j) eqn:Ej; try done.
      injection E as <-. cbn. rewrite lookup_insert_eq. by eexists. }
  intros _ db1 Hex HI1 HR1. eapply (ws _ _ finished); [done| |].
  - apply wq. intros db2 HR2 HI2. split; [|done]. intros r s' E Hs' Hn'.
    assert (sr_step r = sd_name s) as Hr.
    { revert E. apply (names_row_rely id (sd_name s) db); [done|by etrans|done]. }
    assert (s' = s) as -> by (apply step_unique; congruence). exists j. split; [done|]. split; [done|].
    by eapply job_exists_rely.
  - intros _ db2 _ HI2 _. eapply (ws _ _ finished); [done|by apply wa|done].
Qed.

#[local] Instance done_dec db : Decision (done db).
Proof.
  unfold done. destruct (db_run db) as [run|].
  - destruct (decide (wr_status run = RunSuccess)) as [E|E]; [left; by intros ? [= <-]|right; intros Hd; by apply E, Hd].
  - left. done.
Defined.

(** A step whose dependencies succeeded in memory may be dispatched. *)
Lemma succeeded_may_dispatch l s db : NoDup (names l) → Forall (λ s, known s db) l →
  WorkflowDag.deps_succeeded (statuses_of l) s = true → may_dispatch s (outputs_of l) db.
Proof.
  intros Hnd Hk Hdeps. unfold WorkflowDag.deps_succeeded in Hdeps. rewrite forallb_forall in Hdeps. rewrite Forall_forall in Hk.
  assert (∀ d, d ∈ sd_depends_on s → db_run db = None ∨ ∃ o, succeeded_with db d o ∧ (done db ∨ o = non_null (outputs_of l !! d))) as Hd.
  { intros d Hd%list_elem_of_In. specialize (Hdeps d Hd). apply bool_decide_eq_true in Hdeps.
    destruct (statuses_lookup l d Success Hdeps) as (x & Hx & Hxn & Hxs).
    destruct (Hk x Hx) as [?|(r & E & Hn & Hsu & _)]; [by left|right]. destruct (Hsu Hxs) as [Hr Ho].
    exists (sr_output r). split; [exists x.1, r; split_and!; congruence|]. destruct Ho as [?|Ho]; [by left|right].
    rewrite <- Hxn, (outputs_lookup l x); done. }
  split.
  - intros d Hin. destruct (Hd d Hin) as [?|(o & ? & _)]; [by left|right; by exists o].
  - destruct (decide (done db)) as [?|Hnd']; [by left|right]. intros d Hin.
    destruct (Hd d Hin) as [Hg|(o & Ho & [?| ->])]; [by destruct Hnd'; apply gone_done|done|done].
Qed.

Section advance.
Context (run : WorkflowRun) (dag : WorkflowDag).
Hypothesis Hrun : same_run run.
Hypothesis Hdag : dag_of the_def dag.

Lemma dag_step name s : WorkflowDag.step dag name = Some s → is_step s ∧ sd_name s = name.
Proof. intros E. by apply (do_steps _ _ Hdag). Qed.

Definition place (s s' : Step) (_ : Db) : Prop := s'.1 = s.1 ∧ sr_step s'.2 = sr_step s.2.

Lemma wp_recover l s db : NoDup (names l) → s ∈ l → inv db → Forall (λ s, known s db) l →
  WP (recover_step the_key run dag (statuses_of l) (outputs_of l) s) (place s) db.
Proof.
  intros Hnd Hs HI Hk. unfold recover_step. destruct (negb (stranded s.2)); [done|].
  destruct (WorkflowDag.step dag (sr_step s.2)) as [sd|] eqn:Esd; [|done]. apply dag_step in Esd as [Hsd Hname].
  destruct (WorkflowDag.deps_succeeded _ sd) eqn:Edeps; [|done]. cbn [negb].
  destruct (MAX_DISPATCH_ATTEMPTS <=? _)%Z.
  - eapply (ws _ _ finished); [done|apply wq; intros db1 _ _; split; [by destruct (sr_status s.2)|done]|done].
  - eapply (ws _ _ finished); [done|by apply wq|]. intros [charged|] db1 _ HI1 HR1; [|done].
    pose proof (known_all_rely _ _ _ HR1 Hk) as Hk1.
    eapply (ws _ _ finished); [done|apply wp_dispatch; try done|done].
    + rewrite Hname. apply known_names_row; [done|]. rewrite Forall_forall in Hk1. by apply Hk1.
    + by apply succeeded_may_dispatch.
Qed.

Lemma wp_claim l l' sd db : NoDup (names l) → (∀ s', s' ∈ l' → ∃ s, s ∈ l ∧ s'.1 = s.1 ∧ sr_step s'.2 = sr_step s.2) →
  is_step sd → WorkflowDag.deps_succeeded (statuses_of l) sd = true → inv db → Forall (λ s, known s db) l →
  WP (claim_step the_key run l' (outputs_of l) sd) finished db.
Proof.
  intros Hnd Hplace Hsd Hdeps HI Hk. unfold claim_step. destruct (List.find _ _) as [row|] eqn:Ef; [|done].
  apply find_some in Ef as [Hin%list_elem_of_In En%String.eqb_eq].
  destruct (Hplace row Hin) as (s & Hs & E1 & E2).
  assert (∀ db', inv db' → Forall (λ s, known s db') l → names_row row.1 (sd_name sd) db') as Hrow.
  { intros db' HI' Hk'. rewrite E1, <- En, E2. apply known_names_row; [done|]. rewrite Forall_forall in Hk'. by apply Hk'. }
  eapply (ws _ _ finished); [done| |].
  - apply wq. intros db1 HR1 HI1. pose proof (known_all_rely _ _ _ HR1 Hk) as Hk1. split; [|done].
    intros r s' E Hs' Hn'. pose proof (Hrow db1 HI1 Hk1 r E) as Hr.
    assert (s' = sd) as -> by (apply step_unique; congruence). by apply (succeeded_may_dispatch l sd db1).
  - intros [claimed|] db1 _ HI1 HR1; [|done]. pose proof (known_all_rely _ _ _ HR1 Hk) as Hk1.
    apply wp_dispatch; try done; [by apply Hrow|by apply succeeded_may_dispatch].
Qed.

Lemma wp_dispatch_ready l db : NoDup (names l) → inv db → Forall (λ s, known s db) l →
  WP (dispatch_ready the_key run dag l) finished db.
Proof.
  intros Hnd HI Hk. unfold dispatch_ready.
  eapply (ws _ _ (λ l' _, ∀ s', s' ∈ l' → ∃ s, s ∈ l ∧ s'.1 = s.1 ∧ sr_step s'.2 = sr_step s.2)); [done| |].
  { eapply wp_mono; [|apply (wloop _ l (λ db, Forall (λ s, known s db) l) place)]; try done.
    - intros l' db' Hl s' Hs'. apply list_elem_of_lookup in Hs' as [i Hi].
      destruct (Forall2_lookup_r _ _ _ _ _ Hl Hi) as (s & Hsi & Hp). exists s. split; [by eapply list_elem_of_lookup_2|done].
    - intros db1 db2 HR _. by apply known_all_rely.
    - intros s db1 Hs HI1 Hk1. by apply wp_recover. }
  intros l' db1 Hplace HI1 HR1. eapply (ws _ _ finished); [done| |done].
  apply (wloop_any _ _ (λ db, Forall (λ s, known s db) l)); [intros ? ? HR _; by apply known_all_rely| |done|by eapply known_all_rely].
  intros sd db2 Hsd HI2 Hk2. apply list_elem_of_In in Hsd. unfold WorkflowDag.ready_steps in Hsd.
  apply filter_In in Hsd as [Hin [_ Hdeps]%andb_true_iff].
  unfold WorkflowDag.steps in Hin. apply list_elem_of_In, list_elem_of_omap in Hin as (n & _ & En). apply dag_step in En as [Hsd _].
  by apply (wp_claim l l').
Qed.

Lemma wp_advance_running db : inv db → WP (advance_running the_key run dag) finished db.
Proof.
  intros HI. unfold advance_running.
  eapply (ws _ _ (λ l db', ∃ db0, inv db0 ∧ rely db0 db' ∧ l = scan_steps (db_steps db0))); [done| |].
  { apply wp_load. intros db1 _ HI1. by exists db1. }
  intros l0 db1 (db0 & HI0 & HR0 & ->) HI1 _.
  eapply ws; [done|by apply wp_land_all|]. intros l db2 [Hn Hk]%landed_names HI2 _.
  assert (NoDup (names l)) as Hnd by (rewrite Hn; by apply scan_names).
  eapply (ws _ _ (same_names l)); [done| |].
  { destruct (any_failed l) eqn:Ef; [|done]. apply wp_propagate; [done|done|]. by eapply any_failed_broken. }
  intros l' db3 [Hn' Hk'] HI3 _. eapply (ws _ _ finished); [done| |intros _ db4 _ HI4 _; by apply wp_settle].
  destruct (on_failure run), (any_failed l); try done; (apply wp_dispatch_ready; [by rewrite Hn'|done|done]).
Qed.
End advance.

Lemma frozen_dag_same run dag : same_run run → frozen_dag run = Some dag → dag_of the_def dag.
Proof.
  intros (Hd & _) E. unfold frozen_dag in E. rewrite Hd, frozen_def in E.
  destruct (WorkflowDag.validate the_def) eqn:Ev; [done|]. injection E as <-. by apply validate_sound.
Qed.

Lemma wp_advance db : inv db → WP (advance_workflow the_key) finished db.
Proof.
  intros HI. unfold advance_workflow.
  eapply (ws _ _ (λ run db', ∀ r, run = Some r → same_run r ∧ (may_stop = false → wr_kill_requested r = false))); [done| |].
  { apply wq. intros db1 _ HI1. split; [done|]. intros a db2 _ _ [= <- <-]. apply (inv_run _ HI1). }
  intros [run|] db1 Hr HI1 _; [|done]. destruct (Hr run eq_refl) as [Hsame Hkill]. destruct (negb _); [done|].
  destruct (wr_kill_requested run) eqn:Ek.
  { apply wp_stop; [done| |done]. by destruct may_stop; [|specialize (Hkill eq_refl)]. }
  destruct (frozen_dag run) as [dag|] eqn:Ed; [|by apply wp_fail_workflow_run].
  apply wp_advance_running; [done|by eapply frozen_dag_same|done].
Qed.

Lemma wp_request_kill db : inv db → may_stop = true → WP request_workflow_kill finished db.
Proof.
  intros HI Hs. unfold request_workflow_kill. eapply (ws _ _ finished); [done|by apply wq|]. intros _ db1 _ HI1 _.
  eapply (ws _ _ finished); [done|by apply wq|]. intros [run|] db2 _ HI2 _; [|done].
  destruct (is_running run); [by apply wp_stop|done].
Qed.

(** Every pass an engine may start is safe. *)
Lemma wp_op op db : inv db → (stopping op = true → may_stop = true) → WP (op_program the_key op) finished db.
Proof.
  intros HI Hop. destruct op; cbn [op_program stopping] in *.
  - by apply wp_advance.
  - specialize (Hop eq_refl). unfold heal_killed. eapply (ws _ _ finished); [done|by apply wq|].
    intros [run|] db1 _ HI1 _; [by apply wp_stop|done].
  - auto using wp_request_kill.
  - specialize (Hop eq_refl). eapply (ws _ _ finished); [done| |done]. unfold cancel_workflow.
    eapply (ws _ _ finished); [done|by apply wq|]. intros [run|] db1 _ HI1 _; [|done]. destruct (negb _); [done|].
    eapply (ws _ _ finished); [done|by apply wp_request_kill|]. intros _ db2 _ HI2 _.
    eapply (ws _ _ finished); [done|by apply wq|done].
  - specialize (Hop eq_refl). unfold reap_workflow. eapply (ws _ _ finished); [done|by apply wq|].
    intros [run|] db1 _ HI1 _; [|done]. destruct (negb _); [done|]. by apply wp_stop.
Qed.
End passes.
