(* ===== verification/WorkflowRuns.v ===== *)
(** * Workflow runs under any interleaving

    What holds of a workflow run however the passes over it, failing
    statements, crashes and job completions interleave; and two interleavings
    in which the code does not do what it means to. *)

From S2P Require Import Prelude Platform Value Dag DagFacts Ids RunStore Workflow WorkflowLogic WorkflowInv WorkflowSafe.

(** ** A spawned run *)

Section spawned.
Context `{Sha256} `{Setting}.

Definition blocked_row (name : string) : StepRow := MkStepRow name Blocked None None 0.

(** The skeleton is written and nothing else happened: one blocked row per
    step, and no job of the run yet. *)
Record spawned (db : Db) : Prop := {
  sp_run : db_run db = Some first_run;
  sp_running : wr_status first_run = RunRunning ∧ wr_kill_requested first_run = false;
  sp_rows : ∀ id r, db_steps db !! id = Some r ↔ ∃ s, is_step s ∧ id = row_key (sd_name s) ∧ r = blocked_row (sd_name s);
  sp_jobs : ∀ s j, is_step s → job_of s = Some j → db_jobs db !! j = None;
}.

Lemma spawned_inv db : spawned db → inv db.
Proof.
  intros Hsp. destruct (sp_running _ Hsp) as [Hr Hk]. split.
  - intros run. rewrite (sp_run _ Hsp). intros [= <-]. done.
  - intros id r (s & Hs & -> & ->)%(sp_rows _ Hsp). split; [done|]. by exists s.
  - intros s j job Hs Hj E. by rewrite (sp_jobs _ Hsp s j Hs Hj) in E.
  - by rewrite (sp_run _ Hsp).
  - intros Hd. specialize (Hd first_run (sp_run _ Hsp)). congruence.
  - intros _ (id & r & (s & _ & _ & ->)%(sp_rows _ Hsp) & E). done.
Qed.

(** The passes that may be started. *)
Definition allowed (op : Op) : bool := may_stop || negb (stopping op).

(** What the database may have become, with the passes still in flight. *)
Definition reachable `{ScanOrder} (db0 : Db) (c : Db * list (Prog unit)) : Prop := rtc (cstep the_key allowed) (db0, []) c.
End spawned.

Section reachable.
Context `{Sha256} `{Setting} {L : SettingLaws} `{ScanOrderLaws}.

Lemma step_sound c c' : cluster_ok inv rely (@needs _ _) c → cstep the_key allowed c c' →
  cluster_ok inv rely (@needs _ _) c' ∧ rely c.1 c'.1.
Proof.
  intros Hc Hst. eapply wp_sound; [apply _|intros; by eapply statement_ok| | |exact Hc|exact Hst].
  - intros op db Hop HI. apply wp_op; [done|]. intros Hs. unfold allowed in Hop. rewrite Hs in Hop. by destruct may_stop.
  - intros. by eapply job_step_ok.
Qed.

Lemma steps_sound c c' : rtc (cstep the_key allowed) c c' → cluster_ok inv rely (@needs _ _) c →
  cluster_ok inv rely (@needs _ _) c' ∧ rely c.1 c'.1.
Proof.
  induction 1 as [c|c c1 c2 Hst _ IH]; intros Hc; [by split|]. destruct (step_sound c c1 Hc Hst) as [Hc1 HR1].
  destruct (IH Hc1) as [Hc2 HR2]. split; [done|]. by etrans.
Qed.

Lemma run_reachable_ok db0 c : spawned db0 → reachable db0 c → cluster_ok inv rely (@needs _ _) c.
Proof. intros Hsp Hr. apply (steps_sound _ _ Hr). split; [by apply spawned_inv|constructor]. Qed.

(** C35: However passes that advance or stop a workflow run
    interleave, fail and die: a step that is past [blocked] and not skipped has
    all its dependencies in [success]; a job of a step exists only once they
    are, and was created with exactly the step's content and their outputs; and
    a successful step's job succeeded and its output is what the job returned.
    (The job parts are claimed until the run ends in success, when its rows
    may be deleted.) *)
Theorem steps_in_order db0 db ps (Hspawned : spawned db0) (Hreach : reachable db0 (db, ps)) :
  (∀ id r s d, db_steps db !! id = Some r → is_step s → sd_name s = sr_step r → started (sr_status r) = true →
     d ∈ sd_depends_on s → ∃ output, succeeded_with db d output) ∧
  (∀ s j job, is_step s → job_of s = Some j → db_jobs db !! j = Some job → ¬ done db →
     (∀ d, d ∈ sd_depends_on s → ∃ output, succeeded_with db d output) ∧
     ∃ outputs, jr_content job = step_content first_run s outputs ∧ outputs_ok db s outputs) ∧
  (∀ id r, db_steps db !! id = Some r → sr_status r = Success → ¬ done db →
     ∃ s j job, is_step s ∧ sd_name s = sr_step r ∧ job_of s = Some j ∧ db_jobs db !! j = Some job ∧
       jr_status job = JobSuccess ∧ sr_output r = non_null (jr_result job)).
Proof.
  destruct (run_reachable_ok db0 (db, ps) Hspawned Hreach) as [HI _]. cbn in HI.
  assert (∀ d, db_run db ≠ None → dep_done db d → ∃ output, succeeded_with db d output) as Hdep by (intros d Hne [?|?]; done).
  split; [|split].
  - intros id r s d E Hs Hn Hst Hd. apply Hdep; [intros Hg; by rewrite (inv_gone _ HI Hg), lookup_empty in E|].
    destruct (inv_rows _ HI id r E) as (_ & s' & Hs' & Hn' & Hdeps & _).
    assert (s' = s) as -> by (apply step_unique; congruence). by apply Hdeps.
  - intros s j job Hs Hj E Hnd. destruct (inv_jobs _ HI s j job Hs Hj E) as [Hdeps [?|Hc]]; [done|]. split; [|done].
    intros d Hd. apply Hdep; [intros Hg; by apply Hnd, gone_done|by apply Hdeps].
  - intros id r E Hst Hnd. destruct (inv_rows _ HI id r E) as (_ & s & Hs & Hn & _ & Hrow). unfold row_state in Hrow. rewrite Hst in Hrow.
    destruct Hrow as (j & [Hj _] & [?|(job & ? & ? & ?)]); [done|]. by exists s, j, job.
Qed.

(** C37: When only passes that advance it are started, a
    run that ended in [success] has every one of its steps in [success] (until
    they are deleted), and a step is skipped only in a run one of whose steps
    failed. *)
Theorem success_means_success db0 db ps (Hstop : may_stop = false) (Hspawned : spawned db0) (Hreach : reachable db0 (db, ps)) :
  (∀ run id r, db_run db = Some run → wr_status run = RunSuccess → db_steps db !! id = Some r → sr_status r = Success) ∧
  (∀ id r, db_steps db !! id = Some r → sr_status r = Skipped → ∃ id' r', db_steps db !! id' = Some r' ∧ sr_status r' = Failed).
Proof.
  destruct (run_reachable_ok db0 (db, ps) Hspawned Hreach) as [HI _]. cbn in HI. split.
  - intros run id r Er Hr E. assert (done db) as Hd by (intros x Ex; congruence).
    destruct (inv_success _ HI Hd id r E) as [?|[? _]]; [done|congruence].
  - intros id r E Hs. apply (inv_skipped _ HI Hstop). by exists id, r.
Qed.

(** C38: What has ended stays as it is under all further passes,
    failures and crashes: the row of a step that succeeded, failed or was
    skipped never changes, and a run that ended keeps its status, until they
    are deleted; a deleted run stays deleted; no step row appears. *)
Theorem outcomes_final db0 db ps db' ps' (Hspawned : spawned db0) (Hreach : reachable db0 (db, ps))
    (Hlater : rtc (cstep the_key allowed) (db, ps) (db', ps')) :
  (∀ id r, db_steps db !! id = Some r → StepStatus.is_terminal (sr_status r) = true →
     db_run db' = None ∨ db_steps db' !! id = Some r) ∧
  (∀ run, db_run db = Some run → wr_status run ≠ RunRunning →
     db_run db' = None ∨ ∃ run', db_run db' = Some run' ∧ wr_status run' = wr_status run) ∧
  (db_run db = None → db_run db' = None ∧ db_steps db' = ∅) ∧
  (∀ id, db_steps db !! id = None → db_steps db' !! id = None).
Proof.
  pose proof (run_reachable_ok db0 (db, ps) Hspawned Hreach) as Hok. destruct (steps_sound _ _ Hlater Hok) as [[HI' _] HR].
  cbn [fst snd] in *. split_and!.
  - intros id r E Ht. destruct (rely_rows _ _ HR) as [?|Hrows]; [by left|right].
    destruct (rows_next_lookup _ _ _ _ Hrows E) as (r' & E' & (_ & _ & _ & Hr)). by rewrite (Hr Ht) in E'.
  - intros run E Hne. pose proof (rely_run _ _ HR) as Hn. rewrite E in Hn. destruct (db_run db') as [run'|]; [right|by left].
    exists run'. split; [done|]. by destruct Hn.
  - intros E. pose proof (rely_gone _ _ HR E) as E'. split; [done|]. by apply (inv_gone _ HI').
  - intros id E. destruct (rely_rows _ _ HR) as [Hg|Hrows]; [by rewrite (inv_gone _ HI' Hg), lookup_empty|].
    specialize (Hrows id). rewrite E in Hrows. by destruct (db_steps db' !! id).
Qed.
End reachable.

(** ** Concrete interleavings *)

(** One event: a pass is started, a pass executes some statements, a job ends. *)
Inductive Event :=
  | EvStart (op : Op)
  | EvRun (pass statements : nat)
  | EvJob (job : Ref) (status : JobStatus) (result : option Value).

Section events.
Context `{Sha256} `{Setting} `{ScanOrder}.

Definition exec_at (i : nat) (c : Db * list (Prog unit)) : Db * list (Prog unit) :=
  match c.2 !! i with
  | Some (Query q k) =>
      match exec q c.1 with
      | inr (a, db) => (db, <[i := k (inr a)]> c.2)
      | inl e => (c.1, <[i := k (inl e)]> c.2)
      end
  | _ => c
  end.

Definition run_event (c : Db * list (Prog unit)) (e : Event) : Db * list (Prog unit) :=
  match e with
  | EvStart op => if allowed op then (c.1, op_program the_key op :: c.2) else c
  | EvRun i n => Nat.iter n (exec_at i) c
  | EvJob r st res =>
      match db_jobs c.1 !! r with
      | Some j => if bool_decide (jr_status j ∈ [JobPending; JobProcessing])
                  then (set_jobs <[r := MkJobRow st res (jr_content j)]> c.1, c.2) else c
      | None => c
      end
  end.

Lemma exec_at_steps i c : rtc (cstep the_key allowed) c (exec_at i c).
Proof.
  destruct c as [db ps]. unfold exec_at. cbn [fst snd]. destruct (ps !! i) as [p|] eqn:E; [|done].
  destruct p as [a|e|B q k]; [done|done|]. pose proof (list_elem_of_split_length ps i _ E) as (l1 & l2 & -> & ->).
  assert (∀ r db', outcome q db r db' → rtc (cstep the_key allowed) (db, l1 ++ Query q k :: l2) (db', <[length l1 := k r]> (l1 ++ Query q k :: l2))) as Hst.
  { intros r db' Ho. apply rtc_once. rewrite insert_app_r_alt, Nat.sub_diag by lia. cbn.
    by apply cs_statement. }
  destruct (exec q db) as [e|[a db']] eqn:Ex; apply Hst; [by constructor|by constructor].
Qed.

Lemma run_event_steps c e : rtc (cstep the_key allowed) c (run_event c e).
Proof.
  destruct e as [op|i n|r st res]; cbn.
  - destruct (allowed op) eqn:E; [|done]. destruct c. apply rtc_once. by apply cs_start.
  - induction n as [|n IH]; [done|]. cbn. etrans; [exact IH|apply exec_at_steps].
  - destruct (db_jobs c.1 !! r) as [j|] eqn:E; [|done]. case_bool_decide; [|done]. destruct c as [db ps]. apply rtc_once.
    by eapply cs_job.
Qed.

Definition run_events (db : Db) (l : list Event) : Db * list (Prog unit) := foldl run_event (db, []) l.

Lemma run_events_reachable db l : reachable db (run_events db l).
Proof.
  unfold reachable, run_events. generalize (db, @nil (Prog unit)). induction l as [|e l IH]; intros c; [done|]. cbn.
  etrans; [apply run_event_steps|apply IH].
Qed.
End events.

(** *** A workflow of two steps *)

Definition two_steps (on_failure : OnFailure) : WorkflowDef :=
  MkWorkflowDef [witness_step "load" ["extract"]; witness_step "extract" []] on_failure.

Definition sample_run : WorkflowRun :=
  MkRun RunRunning (Some (two_steps Halt)) false 0 (Some "job") None (Some "report") None.

Definition sample (stops : bool) : Setting := MkSetting "report_1" sample_run (two_steps Halt) stops.

#[local] Existing Instance toy_sha.
#[local] Instance sample_scan : ScanOrder := map_to_list.
#[local] Instance sample_scan_laws : ScanOrderLaws.
Proof. split. done. Qed.

Definition sample_db : Db :=
  MkDb (Some sample_run) {["report_1_extract" := blocked_row "extract"; "report_1_load" := blocked_row "load"]} ∅
    (Some (MkScheduleRun RunRunning (Some "report") None)).

Definition extract_job : Ref := MkRef "job" "wf_report_1_extract".
Definition load_job_ref : Ref := MkRef "job" "wf_report_1_load".

Lemma sample_steps stops s : @is_step (sample stops) s → s = witness_step "load" ["extract"] ∨ s = witness_step "extract" [].
Proof. unfold is_step. cbn. intros Hs. set_solver. Qed.

Lemma sample_jobs stops s j : @is_step (sample stops) s → @job_of _ (sample stops) s = Some j →
  s = witness_step "load" ["extract"] ∧ j = load_job_ref ∨ s = witness_step "extract" [] ∧ j = extract_job.
Proof.
  intros [-> | ->]%sample_steps Hj; [left|right]; (split; [done|]);
    vm_compute in Hj; injection Hj as <-; reflexivity.
Qed.

Lemma sample_laws stops : @SettingLaws _ (sample stops).
Proof.
  split.
  - done.
  - apply (bool_decide_unpack _). vm_compute. done.
  - intros s s' j Hs Hs' Hj Hj'. destruct (sample_jobs stops s j Hs Hj) as [[-> ->]|[-> ->]];
      destruct (sample_jobs stops s' _ Hs' Hj') as [[-> E]|[-> E]]; done.
  - intros s j Hs Hj. destruct (sample_jobs stops s j Hs Hj) as [[_ ->]|[_ ->]]; vm_compute; reflexivity.
Qed.

Lemma sample_spawned stops : @spawned _ (sample stops) sample_db.
Proof.
  split; [done|done| |].
  - intros id r. split.
    + cbn. intros [[<- <-]|[_ E]]%lookup_insert_Some.
      { exists (witness_step "extract" []). split; [unfold is_step; cbn; set_solver|by vm_compute]. }
      apply lookup_singleton_Some in E as [<- <-]. exists (witness_step "load" ["extract"]).
      split; [unfold is_step; cbn; set_solver|by vm_compute].
    + intros (s & [-> | ->]%sample_steps & -> & ->); vm_compute; reflexivity.
  - intros s j _ _. apply lookup_empty.
Qed.

(** Two passes; the second lands the first step and dispatches the other. *)
Definition sample_events : list Event :=
  [EvStart OpAdvance; EvRun 0 20; EvJob extract_job JobSuccess (Some (VString "rows")); EvStart OpAdvance; EvRun 0 20].

Lemma steps_in_order_witness : ∃ output,
  @succeeded_with (@run_events _ (sample true) _ sample_db sample_events).1 "extract" output.
Proof.
  pose proof (run_events_reachable (H0 := sample true) sample_db sample_events) as Hr.
  destruct (run_events sample_db sample_events) as [db ps] eqn:E. apply (f_equal fst) in E as Edb. cbn [fst] in Edb.
  apply (proj1 (@steps_in_order _ (sample true) (sample_laws true) _ _ sample_db db ps (sample_spawned true) Hr)
    "report_1_load" (MkStepRow "load" Dispatched (Some "job:wf_report_1_load") None 0) (witness_step "load" ["extract"]) "extract").
  - rewrite <- Edb. vm_compute. reflexivity.
  - apply list_elem_of_here.
  - reflexivity.
  - reflexivity.
  - apply list_elem_of_here.
Defined.

Lemma success_means_success_witness :
  let db := (@run_events _ (sample false) _ sample_db
    (sample_events ++ [EvJob load_job_ref JobSuccess None; EvStart OpAdvance; EvRun 0 20])).1 in
  (∃ run, db_run db = Some run ∧ wr_status run = RunSuccess) ∧
  ∀ r, db_steps db !! "report_1_load" = Some r → sr_status r = Success.
Proof.
  set (events := sample_events ++ _).
  pose proof (run_events_reachable (H0 := sample false) sample_db events) as Hr.
  destruct (run_events sample_db events) as [db ps] eqn:E. apply (f_equal fst) in E as Edb. cbn zeta. cbn [fst] in *.
  assert (∃ run, db_run db = Some run ∧ wr_status run = RunSuccess) as (run & Er & Hs).
  { rewrite <- Edb. eexists. vm_compute. split; reflexivity. }
  clear E Edb. split; [by exists run|]. intros r.
  exact (proj1 (@success_means_success _ (sample false) (sample_laws false) _ _ sample_db db ps eq_refl (sample_spawned false) Hr)
    run _ r Er Hs).
Defined.

(** A further pass leaves the finished step as it is. *)
Lemma outcomes_final_witness :
  let c := @run_events _ (sample true) _ sample_db sample_events in
  let c' := @run_event _ (sample true) _ (@run_event _ (sample true) _ c (EvStart OpAdvance)) (EvRun 0 20) in
  db_run c'.1 = None ∨ ∃ r, db_steps c'.1 !! "report_1_extract" = Some r ∧ sr_status r = Success.
Proof.
  intros c c'. pose proof (run_events_reachable (H0 := sample true) sample_db sample_events) as Hr. fold c in Hr.
  assert (rtc (@cstep _ _ "report_1" (@allowed (sample true))) c c') as Hlater.
  { unfold c'. etrans; [apply (run_event_steps (H0 := sample true))|apply (run_event_steps (H0 := sample true))]. }
  assert (∃ r, db_steps c.1 !! "report_1_extract" = Some r ∧ sr_status r = Success) as (r & Hrow & Hs).
  { eexists. vm_compute. split; reflexivity. }
  clearbody c'. clearbody c. destruct c as [db ps], c' as [db' ps'].
  destruct (proj1 (@outcomes_final _ (sample true) (sample_laws true) _ _ sample_db db ps db' ps' (sample_spawned true) Hr Hlater)
    "report_1_extract" r Hrow ltac:(by rewrite Hs)) as [?|?]; [by left|right; by exists r].
Defined.

(** *** Findings *)

Definition status_in (db : Db) (id : string) : option StepStatus := sr_status <$> db_steps db !! id.

(** An advancing pass that began before a kill ends the run in [success],
    although the kill had skipped a step. *)
Lemma kill_race_succeeds : ∃ c, @reachable _ (sample true) _ sample_db c ∧
  (wr_status <$> db_run c.1) = Some RunSuccess ∧ status_in c.1 "report_1_load" = Some Skipped.
Proof.
  exists (@run_events _ (sample true) _ sample_db
    [EvStart OpAdvance; EvRun 0 20; EvJob extract_job JobSuccess (Some (VString "rows")); EvStart OpAdvance; EvRun 0 4;
     EvStart OpKill; EvRun 0 4; EvRun 1 20; EvRun 0 20]).
  split; [apply run_events_reachable|]. vm_compute. done.
Qed.

(** A kill between a pass's claim and its [CREATE] skips the step; the job is
    created nevertheless, and nothing will ever stop it. *)
Lemma kill_race_orphans : ∃ c, @reachable _ (sample true) _ sample_db c ∧
  (wr_status <$> db_run c.1) = Some RunKilled ∧ status_in c.1 "report_1_extract" = Some Skipped ∧
  (jr_status <$> db_jobs c.1 !! extract_job) = Some JobPending.
Proof.
  exists (@run_events _ (sample true) _ sample_db
    [EvStart OpAdvance; EvRun 0 3; EvStart OpKill; EvRun 0 20; EvRun 1 20]).
  split; [apply run_events_reachable|]. vm_compute. done.
Qed.
