(* ===== verification/WorkflowLive.v ===== *)
(** * Passes that run alone

    Rules for what holds after a pass to which every statement is answered
    ([post]) and for that it returns ([returns]); and that every pass over a
    workflow run returns. The second part: runs come to an end. *)

From S2P Require Import Prelude Platform Value Dag DagFacts Ids RunStore Workflow WorkflowLogic WorkflowInv.
From S2P Require Import WorkflowSafe WorkflowRuns.
(** ** Passes that run alone *)

Section alone.
Context `{ScanOrder}.

(** What holds when a program returns. *)
Definition post {A} (p : Prog A) (db : Db) (Q : A → Db → Prop) : Prop :=
  ∀ a db', run_prog p db = (inr a, db') → Q a db'.

(** It returns. *)
Definition returns {A} (p : Prog A) : Prop := ∀ db, ∃ a db', run_prog p db = (inr a, db').

Lemma run_bind {A B} (p : Prog A) (f : A → Prog B) db :
  run_prog (bind p f) db = match run_prog p db with (inr a, db') => run_prog (f a) db' | (inl e, db') => (inl e, db') end.
Proof.
  revert db. induction p as [a|e|C q k IH]; intros db; [done|done|]. cbn. destruct (exec q db) as [e|[c db']]; apply IH.
Qed.

Lemma post_bind {A B} (p : Prog A) (f : A → Prog B) db Q : post p db (λ a db', post (f a) db' Q) → post (bind p f) db Q.
Proof.
  intros Hp b db2. rewrite run_bind. destruct (run_prog p db) as [[e|a] db1] eqn:E; [done|]. intros E2. by eapply Hp.
Qed.

Lemma post_mono {A} (p : Prog A) db (Q Q' : A → Db → Prop) : (∀ a db', Q a db' → Q' a db') → post p db Q → post p db Q'.
Proof. intros HQ Hp a db' E. by apply HQ, Hp. Qed.

Lemma post_ret {A} (a : A) db (Q : A → Db → Prop) : Q a db → post (Ret a) db Q.
Proof. by intros HQ b db' [= <- <-]. Qed.

Lemma post_query {A} (q : Stmt A) db Q : (∀ a db', exec q db = inr (a, db') → Q a db') → post (query q) db Q.
Proof.
  intros HQ a db'. unfold query. cbn [run_prog]. destruct (exec q db) as [e|[x db1]]; [done|]. intros [= <- <-]. by apply HQ.
Qed.

Lemma returns_bind {A B} (p : Prog A) (f : A → Prog B) : returns p → (∀ a, returns (f a)) → returns (bind p f).
Proof. intros Hp Hf db. rewrite run_bind. destruct (Hp db) as (a & db1 & ->). apply Hf. Qed.

Lemma returns_ret {A} (a : A) : returns (Ret a).
Proof. intros db. by exists a, db. Qed.

Lemma returns_query {A} (q : Stmt A) : (∀ db, ∃ x, exec q db = inr x) → returns (query q).
Proof. intros Hq db. destruct (Hq db) as [[a db'] E]. exists a, db'. unfold query. cbn [run_prog]. by rewrite E. Qed.

Lemma returns_attempt {A} (q : Stmt A) : returns (attempt q).
Proof. intros db. unfold attempt. cbn [run_prog]. destruct (exec q db) as [e|[a db']]; by eexists _, _. Qed.

Lemma returns_create j content : returns (create_if_absent (CREATE_JOB j content)).
Proof.
  intros db. unfold create_if_absent. cbn [run_prog exec]. destruct (db_jobs db !! j); by eexists _, _.
Qed.

Lemma returns_loop {A B} (f : A → Prog B) l : (∀ a, returns (f a)) → returns (for_each f l).
Proof.
  intros Hf. induction l as [|a l IH]; [apply returns_ret|]. cbn. apply returns_bind; [done|]. intros b.
  apply returns_bind; [done|]. intros bs. apply returns_ret.
Qed.

(** Loops whose rounds each touch a row of their own. [C] is kept by a round,
    [P0] is what a round needs of its row, [P] what it makes of it. *)
Lemma post_loop {A B} (f : A → Prog B) (key : A → string) (C : Db → Prop) (P0 : A → option StepRow → Prop)
    (P : A → B → StepRow → Prop) l db :
  (∀ a db, a ∈ l → C db → P0 a (db_steps db !! key a) → post (f a) db (λ b db', C db' ∧ db_run db' = db_run db ∧
     ∃ r', db_steps db' = <[key a := r']> (db_steps db) ∧ P a b r')) →
  NoDup (map key l) → C db → (∀ a, a ∈ l → P0 a (db_steps db !! key a)) →
  post (for_each f l) db (λ bs db', C db' ∧ db_run db' = db_run db ∧
    Forall2 (λ a b, ∃ r', db_steps db' !! key a = Some r' ∧ P a b r') l bs ∧
    ∀ id, id ∉ map key l → db_steps db' !! id = db_steps db !! id).
Proof.
  intros Hf. revert db. induction l as [|a l IH]; intros db Hnd HC H0; [apply post_ret; split_and!; try done; constructor|].
  cbn [for_each map] in *. apply NoDup_cons in Hnd as [Ha Hnd].
  apply post_bind. eapply post_mono; [|apply (Hf a db); [by left|done|apply H0; by left]].
  intros b db1 (HC1 & Hr1 & r' & Es & HP). apply post_bind. eapply post_mono; [|apply (IH ltac:(intros; apply Hf; [by right|done|done]) db1 Hnd HC1)].
  - intros bs db2 (HC2 & Hr2 & Hall & Hother). apply post_ret. split; [done|]. split; [congruence|]. split.
    + constructor; [|done]. exists r'. rewrite Hother by done. rewrite Es, lookup_insert_eq. done.
    + intros id Hid. apply not_elem_of_cons in Hid as [Hne Hid]. rewrite Hother by done. by rewrite Es, lookup_insert_ne.
  - intros a' Ha'. rewrite Es, lookup_insert_ne; [apply H0; by right|]. intros E. apply Ha. rewrite E.
    by apply list_elem_of_In, in_map, list_elem_of_In.
Qed.

Lemma loop_idle {A} (f : A → Prog A) l : (∀ a, a ∈ l → f a = Ret a) → for_each f l = Ret l.
Proof.
  induction l as [|a l IH]; intros Hf; [done|]. cbn. rewrite Hf by (by left). cbn. rewrite IH; [done|]. intros; apply Hf. by right.
Qed.
End alone.

(** ** Every pass returns *)

Create HintDb returns.
#[local] Hint Resolve returns_ret returns_attempt returns_create : returns.

Section returns.
Context `{Sha256} `{ScanOrder} (key : string).


Ltac returns :=
  repeat first
    [ assumption
    | solve [auto 1 with returns nocore]
    | progress intros
    | apply returns_bind | apply returns_loop
    | match goal with |- returns (query (match ?x with _ => _ end)) => destruct x end
    | apply returns_query; intros; cbn [exec]; eexists; reflexivity
    | match goal with
      | |- returns (if ?b then _ else _) => destruct b
      | |- returns (match ?x with _ => _ end) => destruct x
      end ].

Lemma returns_finalize_schedule st : returns (finalize_schedule_run st).
Proof. unfold finalize_schedule_run, discard_schedule_run. returns. Qed.
#[local] Hint Resolve returns_finalize_schedule : returns.

Lemma returns_finalize_owning run st : returns (finalize_owning_schedule_run run st).
Proof. unfold finalize_owning_schedule_run. returns. Qed.
#[local] Hint Resolve returns_finalize_owning : returns.

Lemma returns_fail : returns fail_workflow_run.
Proof. unfold fail_workflow_run. returns. Qed.
#[local] Hint Resolve returns_fail : returns.

Lemma returns_complete : returns complete_workflow_run.
Proof. unfold complete_workflow_run, discard_workflow_if_failures_only. returns. Qed.
#[local] Hint Resolve returns_complete : returns.

Lemma returns_stop run st : returns (stop_workflow_run run st).
Proof. unfold stop_workflow_run, load_step_rows, stop_step. returns. Qed.
#[local] Hint Resolve returns_stop : returns.

Lemma returns_dispatch run s id o : returns (dispatch_step key run s id o).
Proof. unfold dispatch_step. returns. Qed.
#[local] Hint Resolve returns_dispatch : returns.

Lemma returns_land s : returns (land_step s).
Proof. unfold land_step, load_job, finalize_step. returns. Qed.
#[local] Hint Resolve returns_land : returns.

Lemma returns_propagate policy dag l : returns (propagate_failure policy dag l).
Proof. unfold propagate_failure, skip_undispatched. returns. Qed.
#[local] Hint Resolve returns_propagate : returns.

Lemma returns_dispatch_ready run dag l : returns (dispatch_ready key run dag l).
Proof.
  unfold dispatch_ready, recover_step, claim_step. returns.
Qed.
#[local] Hint Resolve returns_dispatch_ready : returns.

Lemma returns_settle : returns settle_run.
Proof. unfold settle_run, load_step_rows. returns. Qed.
#[local] Hint Resolve returns_settle : returns.

Lemma returns_advance : returns (advance_workflow key).
Proof.
  unfold advance_workflow, kill_workflow_run, advance_running, load_workflow_run, load_step_rows.
  returns.
Qed.
End returns.

(** * Workflow runs come to an end

    When every statement is answered and every job ends, passes that advance a
    run finish it: after one more pass than the workflow has steps, the run is
    no longer running. *)

(** ** One pass after all jobs ended *)

Section rounds.
Context `{Sha256} `{Setting} {L : SettingLaws} `{ScanOrderLaws}.
Context (dag : WorkflowDag).
Hypothesis Hstop : may_stop = false.
Hypothesis Hdag : WorkflowDag.validate the_def = inr dag.

(** A verified pass run alone keeps what it keeps under interference. *)
Lemma run_wp {A} (p : Prog A) Q db : inv db → wp inv rely (@needs _ _) p Q db →
  post p db (λ a db', Q a db' ∧ inv db' ∧ rely db db').
Proof.
  intros HI Hw. assert (∀ db0, rely db0 db → post p db (λ a db', Q a db' ∧ inv db' ∧ rely db0 db')) as Hgen; [|by apply Hgen].
  revert db HI Hw. induction p as [a|e|B q k IH]; intros db HI Hw db0 HR; [by apply post_ret|done|].
  destruct (Hw db ltac:(reflexivity) HI) as [Hpre Hk]. intros a db' Hrun. cbn [run_prog] in Hrun.
  destruct (exec q db) as [e|[b db1]] eqn:E.
  - assert (outcome q db (inl e) db) as Ho by (by constructor).
    exact (IH (inl e) db HI (Hk _ _ Ho) db0 HR a db' Hrun).
  - assert (outcome q db (inr b) db1) as Ho by (by constructor).
    destruct (statement_ok q db (inr b) db1 HI Hpre Ho) as [HI1 HR1].
    refine (IH (inr b) db1 HI1 (Hk _ _ Ho) db0 _ a db' Hrun). by etrans.
Qed.

Lemma dag_known : dag_of the_def dag.
Proof. by apply validate_sound. Qed.

(** The run is still going, every step has a row and none is between a claim
    and its dispatch. *)
Record calm (db : Db) : Prop := {
  calm_inv : inv db;
  calm_run : ∃ run, db_run db = Some run ∧ wr_status run = RunRunning;
  calm_rows : ∀ s, is_step s → ∃ r, db_steps db !! row_key (sd_name s) = Some r ∧ sr_step r = sd_name s;
  calm_ready : ∀ id r, db_steps db !! id = Some r → sr_status r ≠ Ready;
}.

Definition over (db : Db) : Prop := ∀ run, db_run db = Some run → wr_status run ≠ RunRunning.

Definition ended (db : Db) : Prop := ∀ j job, db_jobs db !! j = Some job → jr_status job ∈ [JobSuccess; JobFailed].

(** The steps in memory are the rows of the database. *)
Record tracks (l : list Step) (db : Db) : Prop := {
  tr_once : NoDup (map fst l);
  tr_row : ∀ s, s ∈ l → ∃ r, db_steps db !! s.1 = Some r ∧ sr_step r = sr_step s.2 ∧ sr_status r = sr_status s.2;
  tr_all : ∀ id r, db_steps db !! id = Some r → ∃ s, s ∈ l ∧ s.1 = id;
}.

Definition landable (s : Step) (s' : Step) (r' : StepRow) : Prop :=
  s'.1 = s.1 ∧ sr_step s'.2 = sr_step s.2 ∧ sr_step r' = sr_step s.2 ∧ sr_status r' = sr_status s'.2 ∧
  (if bool_decide (sr_status s.2 = Dispatched) then StepStatus.is_terminal (sr_status s'.2) = true else sr_status s'.2 = sr_status s.2).

(** What landing needs of the database: the jobs as they are now. *)
Definition same_jobs (db0 db : Db) : Prop := db_jobs db = db_jobs db0.

Lemma not_done db : calm db → ¬ done db.
Proof. intros [_ (run & E & Hr) _ _] Hd. specialize (Hd run E). congruence. Qed.

Lemma insert_same (db : Db) id r : db_steps db !! id = Some r → ∃ r', db_steps db = <[id := r']> (db_steps db) ∧ r' = r.
Proof. intros E. exists r. by rewrite insert_id. Qed.

Lemma post_land_step db0 s db : calm db0 → ended db0 → db_steps db0 !! s.1 = Some s.2 → same_jobs db0 db →
  db_steps db !! s.1 = Some s.2 → post (land_step s) db (λ s' db', same_jobs db0 db' ∧ db_run db' = db_run db ∧
    ∃ r', db_steps db' = <[s.1 := r']> (db_steps db) ∧ landable s s' r').
Proof.
  intros Hc He E0 Hj E. unfold land_step. destruct (decide (sr_status s.2 = Dispatched)) as [Hd|Hd].
  2:{ rewrite bool_decide_false by done. apply post_ret. split; [done|]. split; [done|]. exists s.2. rewrite insert_id by done.
      split; [done|]. unfold landable. by rewrite bool_decide_false. }
  rewrite bool_decide_true by done. cbn [negb].
  destruct (inv_rows _ (calm_inv _ Hc) s.1 s.2 E0) as (_ & sd & Hsd & _ & _ & Hst). unfold row_state in Hst. rewrite Hd in Hst.
  destruct Hst as (_ & j & Hjob & [Hdone|[job Ejob]]); [by destruct (not_done _ Hc)|].
  rewrite (proj2 Hjob). unfold load_job. rewrite (jobs_parse sd j Hsd (proj1 Hjob)).
  apply post_bind, post_query. intros a db1 [= <- <-]. rewrite Hj, Ejob.
  assert (∀ st output (s' : Step), st ∈ [Success; Failed] → s'.1 = s.1 → sr_step s'.2 = sr_step s.2 → sr_status s'.2 = st →
    post (bind (finalize_step s.1 st output) (λ _, Ret s')) db (λ s' db', same_jobs db0 db' ∧ db_run db' = db_run db ∧
    ∃ r', db_steps db' = <[s.1 := r']> (db_steps db) ∧ landable s s' r')) as Hfin.
  { intros st output s' Hst H1' H2' H3'. unfold finalize_step. apply post_bind, post_bind, post_query. intros a db1 Hex.
    apply post_ret, post_ret. cbn in Hex. apply inr_snd in Hex as ->. unfold update_step. rewrite E.
    replace (has_status [Dispatched] s.2) with true by (symmetry; apply has_status_In; rewrite Hd; by left).
    split; [done|]. split; [done|]. eexists. split; [reflexivity|]. unfold landable. rewrite bool_decide_true by done. cbn.
    rewrite H3'. split_and!; try done. by apply elem_of_cons in Hst as [-> | ->%list_elem_of_singleton]. }
  specialize (He j job Ejob). apply elem_of_cons in He as [-> | ->%list_elem_of_singleton]; by apply Hfin; [set_solver|..].
Qed.

(** Nothing is in flight: every step waits or has ended. *)
Definition settled (l : list Step) : Prop :=
  ∀ s, s ∈ l → sr_status s.2 = Blocked ∨ StepStatus.is_terminal (sr_status s.2) = true.

Abbreviation names l := (map (λ s : Step, sr_step s.2) l).

Lemma scan_once (m : gmap string StepRow) : NoDup (map fst (scan_steps m)).
Proof.
  change (map fst (scan_steps m)) with (scan_steps m).*1. rewrite (scan_steps_perm m). apply NoDup_fst_map_to_list.
Qed.

Lemma post_land_all db : calm db → ended db →
  post (for_each land_step (scan_steps (db_steps db))) db
    (λ l db', tracks l db' ∧ settled l ∧ names l = names (scan_steps (db_steps db)) ∧ db_run db' = db_run db).
Proof.
  intros Hc He. set (l0 := scan_steps (db_steps db)).
  assert (∀ s, s ∈ l0 → db_steps db !! s.1 = Some s.2) as Hl0 by (intros s; apply elem_of_scan).
  eapply post_mono; [|apply (post_loop land_step fst (same_jobs db) (λ s o, o = Some s.2) landable)].
  - intros l db' (_ & Hrun & Hall & Hother).
    assert (map fst l = map fst l0 ∧ names l = names l0) as [Hfst Hnames].
    { clear -Hall. induction Hall as [|s s' l0 l (r' & _ & E1 & E2 & _) _ [IH1 IH2]]; [done|]. cbn. split; congruence. }
    split; [split|split; [|done]].
    + rewrite Hfst. apply scan_once.
    + intros s' [i Hi]%list_elem_of_lookup. destruct (Forall2_lookup_r _ _ _ _ _ Hall Hi) as (s & _ & r' & Hr & E1 & E2 & E3 & E4 & _).
      exists r'. split; [by rewrite E1|]. split; congruence.
    + intros id r Hid. destruct (decide (id ∈ map fst l0)) as [Hin|Hin].
      * rewrite <- Hfst in Hin. apply list_elem_of_In, in_map_iff in Hin as (s & <- & Hs%list_elem_of_In). by exists s.
      * rewrite Hother in Hid by done. destruct Hin. apply list_elem_of_In, in_map_iff. exists (id, r). split; [done|].
        apply list_elem_of_In. by apply elem_of_scan.
    + intros s' [i Hi]%list_elem_of_lookup. destruct (Forall2_lookup_r _ _ _ _ _ Hall Hi) as (s & Hsi & r' & _ & _ & _ & _ & _ & Hst).
      pose proof (calm_ready _ Hc s.1 s.2 (Hl0 s ltac:(by eapply list_elem_of_lookup_2))) as Hnr.
      case_bool_decide; [by right|]. rewrite Hst. destruct (sr_status s.2); auto; done.
  - intros s db' Hs Hj Es. apply post_land_step; auto.
  - apply scan_once.
  - done.
  - auto.
Qed.

Lemma statuses_exact l s : NoDup (names l) → s ∈ l → statuses_of l !! sr_step s.2 = Some (sr_status s.2).
Proof.
  unfold statuses_of. induction l as [|x l IH] using rev_ind; [by intros _ Hs%elem_of_nil|].
  rewrite map_app, foldl_app. cbn [map foldl]. intros (Hnd & Hdis & _)%NoDup_app [Hs|Hs%list_elem_of_singleton]%elem_of_app.
  - rewrite lookup_insert_ne; [by apply IH|]. intros E. apply (Hdis (sr_step s.2)); [apply elem_of_names; by exists s|].
    rewrite <- E. by left.
  - subst. apply lookup_insert_eq.
Qed.

(** ** Skipping *)

Lemma NoDup_filter_fst (p : Step → bool) l : NoDup (map fst l) → NoDup (map fst (List.filter p l)).
Proof.
  induction l as [|s l IH]; [done|]. cbn. intros [Hni Hnd]%NoDup_cons. destruct (p s); [|auto]. cbn. constructor; [|auto].
  intros Hin. apply Hni. apply list_elem_of_In, in_map_iff in Hin as (x & <- & [Hx _]%filter_In). apply list_elem_of_In. by apply in_map.
Qed.

Lemma omap_filter (b : Step → bool) l : omap (λ s : Step, if b s then Some s.1 else None) l = map fst (List.filter b l).
Proof.
  induction l as [|s l IH]; [done|]. cbn [List.filter]. change (s :: l) with ([s] ++ l). rewrite omap_app, IH.
  cbn. by destruct (b s).
Qed.

Lemma steps_to_skip_filter policy l : ∃ p, steps_to_skip policy dag l = map fst (List.filter p l).
Proof. destruct policy; [by eexists|]. eexists. apply omap_filter. Qed.

(** The steps a failure stops have not started. *)
Lemma steps_to_skip_blocked policy l s : NoDup (names l) → NoDup (map fst l) → settled l →
  s ∈ l → s.1 ∈ steps_to_skip policy dag l → sr_status s.2 = Blocked.
Proof.
  intros Hnn Hnd Hset Hs Hin.
  assert (∀ x, x ∈ l → x.1 = s.1 → x = s) as Huniq.
  { intros x [i Hi]%list_elem_of_lookup E. apply list_elem_of_lookup in Hs as [j Hj].
    assert (i = j) as ->; [|congruence]. eapply (NoDup_lookup _ i j x.1 Hnd).
    - change (map fst l) with (l.*1). rewrite list_lookup_fmap, Hi. done.
    - change (map fst l) with (l.*1). rewrite list_lookup_fmap, Hj, E. done. }
  assert (WorkflowDag.unstarted (Some (sr_status s.2)) = true → sr_status s.2 = Blocked) as Hun.
  { destruct (Hset s Hs) as [?|Ht]; [done|]. intros Hu. by destruct (sr_status s.2). }
  destruct policy; unfold steps_to_skip in Hin.
  - apply list_elem_of_fmap in Hin as (x & E & Hx%list_elem_of_In). apply filter_In in Hx as [Hx%list_elem_of_In Hst].
    symmetry in E. rewrite (Huniq x Hx E) in Hst. apply Hun. apply has_status_In in Hst.
    by apply elem_of_cons in Hst as [-> | ->%list_elem_of_singleton].
  - apply list_elem_of_omap in Hin as (x & Hx & E). destruct (existsb _ _) eqn:Ed; [|done]. injection E as E.
    rewrite (Huniq x Hx E) in Ed. apply existsb_exists in Ed as ([d b] & Hd%list_elem_of_In & En%String.eqb_eq). cbn in En.
    destruct (doomed_spec dag (statuses_of l) (do_order _ _ dag_known) d b Hd) as (n & Hn & Hdoom & _).
    assert (sd_name d = n) as <- by (by apply (do_steps _ _ dag_known) in Hn as [_ ?]).
    destruct Hdoom as [n s' d' _ Hu _ _]. rewrite En, (statuses_exact l s) in Hu by done. auto.
Qed.

Definition skip_in (ids : list string) (l : list Step) : list Step :=
  (λ s : Step, if bool_decide (s.1 ∈ ids) then mark Skipped s else s) <$> l.

Lemma elem_of_skip_in ids l s' : s' ∈ skip_in ids l ↔ ∃ s, s ∈ l ∧ s' = (if bool_decide (s.1 ∈ ids) then mark Skipped s else s).
Proof. unfold skip_in. rewrite list_elem_of_fmap. naive_solver. Qed.

Lemma skip_in_names ids l : names (skip_in ids l) = names l ∧ map fst (skip_in ids l) = map fst l.
Proof. induction l as [|s l [IH1 IH2]]; [done|]. cbn. unfold skip_in, fmap in *. rewrite IH1, IH2. by case_bool_decide. Qed.

Lemma post_propagate policy l db : tracks l db → settled l → NoDup (names l) →
  post (propagate_failure policy dag l) db (λ l' db', l' = skip_in (steps_to_skip policy dag l) l ∧ tracks l' db' ∧ settled l' ∧
    db_run db' = db_run db).
Proof.
  intros Htr Hset Hnn. set (ids := steps_to_skip policy dag l).
  assert (∀ s, s ∈ l → s.1 ∈ ids → sr_status s.2 = Blocked) as Hblk by (intros s; apply steps_to_skip_blocked; [done|apply Htr|done]).
  assert (∀ id, id ∈ ids → ∃ s, s ∈ l ∧ s.1 = id) as Hids.
  { intros id. unfold ids. destruct (steps_to_skip_filter policy l) as [p ->]. intros Hin.
    apply list_elem_of_fmap in Hin as (s & -> & Hs%list_elem_of_In). apply filter_In in Hs as [Hs%list_elem_of_In _]. by exists s. }
  assert (settled (skip_in ids l)) as Hset'.
  { intros s' (s & Hs & ->)%elem_of_skip_in. case_bool_decide; [by right|by apply Hset]. }
  unfold propagate_failure. fold ids. apply post_bind.
  eapply post_mono; [|apply (post_loop (λ id, query (SKIP_STEP id)) (λ id, id) (λ _, True) (λ id o, ∃ r, o = Some r ∧ sr_status r = Blocked ∧
    ∀ s, s ∈ l → s.1 = id → sr_step r = sr_step s.2) (λ id _ r', sr_status r' = Skipped ∧ ∀ s, s ∈ l → s.1 = id → sr_step r' = sr_step s.2))].
  - intros u db' (_ & Hrun & Hall & Hother). fold (skip_in ids l).
    rewrite loop_idle.
    2:{ intros s Hs. unfold skip_undispatched. destruct (Hset' s Hs) as [Hst|Hst]; [by rewrite Hst|]. by destruct (sr_status s.2). }
    apply post_ret. split; [done|]. split; [|done]. split.
    + rewrite (proj2 (skip_in_names ids l)). apply Htr.
    + intros s' (s & Hs & ->)%elem_of_skip_in. case_bool_decide as Hin.
      * apply list_elem_of_lookup in Hin as [i Hi]. destruct (Forall2_lookup_l _ _ _ _ _ Hall Hi) as (b & _ & r' & Hr & Hst & Hn).
        exists r'. cbn. split; [done|]. split; [by apply Hn|done].
      * rewrite Hother by (by rewrite map_id). by apply (tr_row _ _ Htr).
    + intros id r Hr. assert (∃ s, s ∈ l ∧ s.1 = id) as (s & Hs & Es).
      { destruct (decide (id ∈ ids)) as [?|?]; [by apply Hids|]. rewrite Hother in Hr by (by rewrite map_id). by apply (tr_all _ _ Htr id r). }
      exists (if bool_decide (s.1 ∈ ids) then mark Skipped s else s). split; [apply elem_of_skip_in; by exists s|].
      by case_bool_decide.
  - intros id db1 Hid _ (r & E & Hr & Hn). apply post_query. intros a db2 Hex. cbn in Hex. apply inr_snd in Hex as ->.
    unfold update_step. rewrite E. unfold has_status. rewrite Hr. cbn. split; [done|]. split; [done|]. eexists. split; [done|].
    by split.
  - rewrite map_id. unfold ids. destruct (steps_to_skip_filter policy l) as [p ->]. apply NoDup_filter_fst, Htr.
  - done.
  - intros id Hid. destruct (Hids id Hid) as (s & Hs & <-). destruct (tr_row _ _ Htr s Hs) as (r & E & _ & Hst).
    exists r. split; [done|]. split; [rewrite Hst; by apply Hblk|]. intros s' Hs' E'.
    destruct (tr_row _ _ Htr s' Hs') as (r' & Er' & <- & _). congruence.
Qed.

(** ** Dispatching *)

Lemma find_by_name l n s : NoDup (names l) → s ∈ l → sr_step s.2 = n →
  List.find (λ s : Step, String.eqb (sr_step s.2) n) l = Some s.
Proof.
  intros Hnd Hs <-. induction l as [|x l IH]; [by apply elem_of_nil in Hs|]. cbn in *. apply NoDup_cons in Hnd as [Hni Hnd].
  destruct (String.eqb_spec (sr_step x.2) (sr_step s.2)) as [E|E].
  - apply elem_of_cons in Hs as [->|Hs]; [done|]. destruct Hni. rewrite E. apply elem_of_names. by exists s.
  - apply elem_of_cons in Hs as [->|Hs]; [done|]. by apply IH.
Qed.

(** Dispatching a claimed step leaves it dispatched, or failed for want of an
    outbox table. *)
Lemma post_dispatch run s id outputs r db : db_steps db !! id = Some r → sr_status r = Ready →
  post (dispatch_step the_key run s id outputs) db (λ _ db', db_run db' = db_run db ∧
    ∃ r', db_steps db' = <[id := r']> (db_steps db) ∧ sr_status r' ∈ [Dispatched; Failed]).
Proof.
  intros E Hr. unfold dispatch_step. destruct (step_table run s) as [table|].
  - apply post_bind. set (j := step_job_attempt _ _ _ _).
    apply (post_mono _ _ (λ _ db1, db_run db1 = db_run db ∧ db_steps db1 = db_steps db)).
    2:{ intros b db1. unfold create_if_absent. cbn [run_prog exec]. destruct (db_jobs db !! j); cbn; by intros [= <- <-]. }
    intros _ db1 [Er Es]. apply post_bind, post_query. intros a db2 Hex. cbn in Hex. apply inr_snd in Hex as ->.
    unfold update_step. rewrite Es, E. unfold has_status. rewrite Hr. intros x db3 Hx. cbn in Hx. injection Hx as _ <-. cbn.
    rewrite Er, Es. split; [done|]. eexists. split; [done|]. by left.
  - apply post_bind, post_query. intros a db2 Hex. cbn in Hex. apply inr_snd in Hex as ->.
    unfold update_step. rewrite E. unfold has_status. rewrite Hr. cbn. apply post_ret. split; [done|]. eexists.
    split; [done|]. by right; left.
Qed.

Lemma post_claim run l outputs sd s db : NoDup (names l) → s ∈ l → sr_step s.2 = sd_name sd →
  (∃ r, db_steps db !! s.1 = Some r ∧ sr_status r = Blocked) →
  post (claim_step the_key run l outputs sd) db (λ _ db', db_run db' = db_run db ∧
    ∃ r', db_steps db' = <[s.1 := r']> (db_steps db) ∧ sr_status r' ∈ [Dispatched; Failed]).
Proof.
  intros Hnd Hs Hn (r & E & Hr). unfold claim_step. rewrite (find_by_name l (sd_name sd) s) by done.
  apply post_bind, post_query. intros a db1 Hex. cbn in Hex. injection Hex as Hex. unfold update_step in Hex. rewrite E in Hex.
  unfold has_status in Hex. rewrite Hr in Hex. cbn in Hex. injection Hex as <- <-.
  eapply post_mono; [|apply (post_dispatch run sd s.1 outputs (with_status Ready r)); [cbn; by rewrite lookup_insert_eq|done]].
  intros _ db2 (Hrun & r' & Es & Hst). split; [done|]. exists r'. rewrite Es. cbn. by rewrite insert_insert_eq.
Qed.

Lemma ready_names statuses : NoDup (map sd_name (WorkflowDag.ready_steps dag statuses)).
Proof.
  unfold WorkflowDag.ready_steps, WorkflowDag.steps.
  assert (map sd_name (omap (λ name, wg_steps dag !! name) (wg_order dag)) = wg_order dag) as Hmap.
  { pose proof (os_all _ _ (do_order _ _ dag_known)) as Hall. assert (∀ n, n ∈ wg_order dag → is_Some (wg_steps dag !! n)) as Hall' by (intros n ?; by apply Hall).
    clear Hall. induction (wg_order dag) as [|n o IH]; [done|]. destruct (Hall' n ltac:(by left)) as [s Hs].
    change (n :: o) with ([n] ++ o). rewrite omap_app, map_app, IH by (intros; apply Hall'; by right). cbn. rewrite Hs. cbn. f_equal.
    by apply (do_steps _ _ dag_known) in Hs as [_ ?]. }
  pose proof (os_once _ _ (do_order _ _ dag_known)) as Hnd. rewrite <- Hmap in Hnd. revert Hnd. clear.
  generalize (omap (λ name, wg_steps dag !! name) (wg_order dag)). intros l. induction l as [|s l IH]; [done|]. cbn.
  intros [Hni Hnd]%NoDup_cons. destruct (_ && _); [|auto]. cbn. constructor; [|auto]. intros Hin. apply Hni.
  apply list_elem_of_In, in_map_iff in Hin as (x & <- & [Hx _]%filter_In). apply list_elem_of_In. by apply in_map.
Qed.

Lemma NoDup_map_weaken {A B C} (f : A → B) (g : A → C) l : (∀ x y, x ∈ l → y ∈ l → f x = f y → g x = g y) →
  NoDup (map g l) → NoDup (map f l).
Proof.
  induction l as [|x l IH]; [constructor|]. cbn. intros Hfg [Hni Hnd]%NoDup_cons. constructor.
  - intros Hin. apply Hni. apply list_elem_of_In, in_map_iff in Hin as (y & E & Hy%list_elem_of_In). apply list_elem_of_In, in_map_iff.
    exists y. split; [|by apply list_elem_of_In]. apply Hfg; [by right|by left|done].
  - apply IH; [|done]. intros. apply Hfg; [by right|by right|done].
Qed.

Lemma tracks_key l db s : inv db → tracks l db → s ∈ l → s.1 = row_key (sr_step s.2) ∧
  ∃ sd, is_step sd ∧ sd_name sd = sr_step s.2 ∧ wg_steps dag !! sr_step s.2 = Some sd.
Proof.
  intros HI Htr Hs. destruct (tr_row _ _ Htr s Hs) as (r & E & Hn & _).
  destruct (inv_rows _ HI s.1 r E) as (Hk & sd & Hsd & Hsn & _). rewrite Hn in *. split; [done|]. exists sd.
  split; [done|]. split; [done|]. by apply (do_steps _ _ dag_known).
Qed.

Lemma ready_tracked l db sd : inv db → tracks l db → sd ∈ WorkflowDag.ready_steps dag (statuses_of l) →
  ∃ s, s ∈ l ∧ sr_step s.2 = sd_name sd ∧ sr_status s.2 = Blocked ∧ s.1 = row_key (sd_name sd).
Proof.
  intros HI Htr Hin%list_elem_of_In. apply filter_In in Hin as [_ [Hb _]%andb_true_iff]. apply bool_decide_eq_true in Hb.
  destruct (statuses_lookup _ _ _ Hb) as (s & Hs & Hn & Hst). exists s. split_and!; try done.
  rewrite <- Hn. by apply (tracks_key l db).
Qed.

Lemma post_ready run l db : inv db → tracks l db → settled l → NoDup (names l) →
  post (dispatch_ready the_key run dag l) db (λ _ db', db_run db' = db_run db ∧
    (∀ sd, sd ∈ WorkflowDag.ready_steps dag (statuses_of l) → ∃ r', db_steps db' !! row_key (sd_name sd) = Some r' ∧
       sr_status r' ∈ [Dispatched; Failed]) ∧
    (∀ id, (∀ sd, sd ∈ WorkflowDag.ready_steps dag (statuses_of l) → row_key (sd_name sd) ≠ id) →
       db_steps db' !! id = db_steps db !! id) ∧
    ∀ id r', db_steps db' !! id = Some r' → sr_status r' ≠ Ready).
Proof.
  intros HI Htr Hset Hnn. unfold dispatch_ready. rewrite loop_idle.
  2:{ intros s Hs. unfold recover_step, stranded. destruct (Hset s Hs) as [Hst|Hst]; [by rewrite Hst|]. by destruct (sr_status s.2). }
  set (ready := WorkflowDag.ready_steps dag (statuses_of l)). cbn [bind].
  assert (∀ sd, sd ∈ ready → ∃ s, s ∈ l ∧ sr_step s.2 = sd_name sd ∧ sr_status s.2 = Blocked ∧ s.1 = row_key (sd_name sd)) as Hrd.
  { intros sd. by apply (ready_tracked l db). }
  apply post_bind. eapply post_mono; [|apply (post_loop _ (λ sd, row_key (sd_name sd)) (λ _, True)
    (λ _ o, ∃ r, o = Some r ∧ sr_status r = Blocked) (λ _ _ r', sr_status r' ∈ [Dispatched; Failed]))].
  - intros u db' (_ & Hrun & Hall & Hother). apply post_ret. split; [done|].
    assert (∀ sd, sd ∈ ready → ∃ r', db_steps db' !! row_key (sd_name sd) = Some r' ∧ sr_status r' ∈ [Dispatched; Failed]) as Hnew.
    { intros sd [i Hi]%list_elem_of_lookup. destruct (Forall2_lookup_l _ _ _ _ _ Hall Hi) as (b & _ & r' & ? & ?). by exists r'. }
    assert (∀ id, (∀ sd, sd ∈ ready → row_key (sd_name sd) ≠ id) → db_steps db' !! id = db_steps db !! id) as Hold.
    { intros id Hid. apply Hother. intros Hin. apply list_elem_of_In, in_map_iff in Hin as (sd & E & Hsd%list_elem_of_In). by apply (Hid sd). }
    split; [done|]. split; [done|]. intros id r' E.
    destruct (decide (id ∈ map (λ sd, row_key (sd_name sd)) ready)) as [Hin|Hin].
    + apply list_elem_of_In, in_map_iff in Hin as (sd & <- & Hsd%list_elem_of_In). destruct (Hnew sd Hsd) as (r & E' & Hst).
      replace r' with r by congruence. intros Hr. rewrite Hr in Hst. set_solver.
    + rewrite Hother in E by done. destruct (tr_all _ _ Htr id r' E) as (s & Hs & <-). destruct (tr_row _ _ Htr s Hs) as (r & E' & _ & Hst).
      replace r' with r by congruence. rewrite Hst. destruct (Hset s Hs) as [->|Ht]; [done|]. by destruct (sr_status s.2).
  - intros sd db1 Hsd _ Hrow. destruct (Hrd sd Hsd) as (s & Hs & Hn & _ & Hk). rewrite <- Hk in *.
    eapply post_mono; [|by apply (post_claim run l (outputs_of l) sd s)]. intros _ db2 (Hrun & r' & ? & ?). split; [done|]. split; [done|]. by exists r'.
  - apply (NoDup_map_weaken _ sd_name); [|apply ready_names]. intros x y Hx Hy E.
    destruct (Hrd x Hx) as (s1 & Hs1 & N1 & _ & K1). destruct (Hrd y Hy) as (s2 & Hs2 & N2 & _ & K2).
    destruct (tr_row _ _ Htr s1 Hs1) as (r1 & E1 & M1 & _). destruct (tr_row _ _ Htr s2 Hs2) as (r2 & E2 & M2 & _). congruence.
  - done.
  - intros sd Hsd. destruct (Hrd sd Hsd) as (s & Hs & _ & Hst & <-). destruct (tr_row _ _ Htr s Hs) as (r & E & _ & Hr).
    exists r. split; [done|]. congruence.
Qed.

(** ** Finishing *)

Lemma over_rely db db' : rely db db' → over db → over db'.
Proof.
  intros HR Ho run' E'. pose proof (rely_run _ _ HR) as Hn. rewrite E' in Hn. destruct (db_run db) as [run|] eqn:E; [|done].
  specialize (Ho run E). destruct Hn as [?| ->]; done.
Qed.

Lemma finalize_over st db a db' : st ≠ RunRunning → exec (FINALIZE_WORKFLOW_RUN st) db = inr (a, db') → over db'.
Proof.
  intros Hst Hex. cbn in Hex. apply inr_snd in Hex as ->. unfold update_run. destruct (db_run db) as [run|] eqn:E.
  - case_bool_decide as Hr; cbn; intros run' E'; [|congruence]. cbn in E'. rewrite E in E'. by injection E' as <-.
  - intros run' E'. cbn in E'. congruence.
Qed.

Lemma post_rest {A} (p : Prog A) db : inv db → over db → wp inv rely (@needs _ _) p finished db → post p db (λ _ db', over db').
Proof. intros HI Ho Hw. eapply post_mono; [|by apply run_wp]. intros a db' (_ & _ & HR). by eapply over_rely. Qed.

Lemma post_fail db : inv db → post fail_workflow_run db (λ _ db', over db').
Proof.
  intros HI. apply post_bind, post_query. intros a db1 Hex. pose proof (finalize_over RunFailed db a db1 ltac:(done) Hex) as Ho.
  destruct (exec_ok (FINALIZE_WORKFLOW_RUN RunFailed) db a db1 HI ltac:(by intros ?) Hex) as [HI1 _]. destruct a as [run|]; [|by apply post_ret].
  apply post_rest; [done|done|by apply wp_finalize_owning].
Qed.

Lemma post_complete db : inv db → all_success db → post complete_workflow_run db (λ _ db', over db').
Proof.
  intros HI Ha. apply post_bind, post_query. intros a db1 Hex. pose proof (finalize_over RunSuccess db a db1 ltac:(done) Hex) as Ho.
  destruct (exec_ok (FINALIZE_WORKFLOW_RUN RunSuccess) db a db1 HI (λ _, Ha) Hex) as [HI1 _]. destruct a as [run|]; [|by apply post_ret].
  assert (done db1) as Hd.
  { cbn in Hex. unfold update_run in Hex. destruct (db_run db) as [r|] eqn:E; [|done]. destruct (bool_decide _); [|done].
    injection Hex as _ <-. intros x Ex. cbn in Ex. rewrite E in Ex. by injection Ex as <-. }
  apply post_rest; [done|done|]. eapply ws; [done|by apply wp_finalize_owning|].
  intros _ db2 _ HI2 HR2. apply wp_discard; [done|by apply (rely_done _ _ HR2)].
Qed.

Lemma post_settle db : inv db →
  post settle_run db (λ _ db', (db' = db ∨ over db') ∧
    ((∀ id r, db_steps db !! id = Some r → StepStatus.is_terminal (sr_status r) = true) → db_steps db ≠ ∅ → over db')).
Proof.
  intros HI. unfold settle_run. apply post_bind, post_query. intros l db1 [= <- <-].
  assert (∀ s, s ∈ scan_steps (db_steps db) ↔ db_steps db !! s.1 = Some s.2) as Hscan by (intros; apply elem_of_scan).
  destruct (_ && _) eqn:Et; cbn [negb].
  - apply andb_true_iff in Et as [_ Ht]. rewrite forallb_forall in Ht.
    apply (post_mono _ _ (λ _ db', over db')); [by auto|]. destruct (List.find _ _) eqn:Ef; [by apply post_fail|].
    apply post_complete; [done|]. assert (¬ has_status_row db Failed) as Hnf.
    { intros (id & r & E & Hr). pose proof (find_none _ _ Ef (id, r)) as Hn. rewrite <- list_elem_of_In, Hscan in Hn.
      specialize (Hn E). cbn in Hn. by rewrite bool_decide_eq_false in Hn. }
    intros id r E. left. specialize (Ht (id, r)). rewrite <- list_elem_of_In, Hscan in Ht. specialize (Ht E). cbn in Ht.
    destruct (sr_status r) eqn:Est; try done; exfalso; apply Hnf; [by exists id, r|].
    apply (inv_skipped _ HI Hstop). by exists id, r.
  - apply post_ret. split; [by left|]. intros Hall Hne. exfalso. apply andb_false_iff in Et as [Et|Et].
    + apply Hne. apply negb_false_iff, bool_decide_eq_true in Et. apply map_eq. intros id. rewrite lookup_empty.
      destruct (db_steps db !! id) as [r|] eqn:E; [|done]. pose proof (proj2 (Hscan (id, r)) E) as Hin. rewrite Et in Hin. by apply elem_of_nil in Hin.
    + apply not_true_iff_false in Et. apply Et, forallb_forall. intros s Hs%list_elem_of_In. apply Hscan in Hs. by apply (Hall s.1).
Qed.

(** ** Progress *)

(** A waiting step whose dependencies do not wait. *)
Lemma minimal_blocked (statuses : gmap string StepStatus) s0 : is_step s0 → statuses !! sd_name s0 = Some Blocked →
  ∃ s, is_step s ∧ statuses !! sd_name s = Some Blocked ∧ ∀ d, d ∈ sd_depends_on s → statuses !! d ≠ Some Blocked.
Proof.
  pose proof (do_wf _ _ dag_known) as [_ _ Hknown [rank Hrank]]. remember (rank (sd_name s0)) as k eqn:Ek. revert s0 Ek.
  induction (lt_wf k) as [k _ IH]. intros s0 -> Hs0 Hb.
  destruct (decide (Exists (λ d, statuses !! d = Some Blocked) (sd_depends_on s0))) as [Hex|Hno].
  - apply Exists_exists in Hex as (d & Hd & Hbd). pose proof (Hknown s0 d Hs0 Hd) as Hin.
    apply list_elem_of_In, in_map_iff in Hin as (s1 & <- & Hs1%list_elem_of_In).
    apply (IH (rank (sd_name s1)) ltac:(by apply Hrank) s1); done.
  - exists s0. split; [done|]. split; [done|]. intros d Hd Hbd. apply Hno, Exists_exists. by exists d.
Qed.

Lemma ready_member statuses s : is_step s → statuses !! sd_name s = Some Blocked →
  (∀ d, d ∈ sd_depends_on s → statuses !! d = Some Success) → s ∈ WorkflowDag.ready_steps dag statuses.
Proof.
  intros Hs Hb Hdeps. pose proof dag_known as Hk. assert (wg_steps dag !! sd_name s = Some s) as Hw by (by apply (do_steps _ _ Hk)).
  apply list_elem_of_In, filter_In. split.
  - apply list_elem_of_In, list_elem_of_omap. exists (sd_name s). split; [|done]. apply (os_all _ _ (do_order _ _ Hk)). by eexists.
  - rewrite bool_decide_true by done. apply forallb_forall. intros d Hd%list_elem_of_In. by rewrite bool_decide_true by auto.
Qed.

(** What a pass has in memory after landing, with a step that can move. *)
Section moving.
Context (l : list Step) (db : Db).
Hypothesis HI : inv db.
Hypothesis Htr : tracks l db.
Hypothesis Hset : settled l.
Hypothesis Hnn : NoDup (names l).
Hypothesis Hall : ∀ s, is_step s → ∃ x, x ∈ l ∧ sr_step x.2 = sd_name s.

Lemma tracked_status s : is_step s → ∃ x, x ∈ l ∧ sr_step x.2 = sd_name s ∧ statuses_of l !! sd_name s = Some (sr_status x.2) ∧
  x.1 = row_key (sd_name s).
Proof.
  intros Hs. destruct (Hall s Hs) as (x & Hx & Hn). exists x. split; [done|]. split; [done|]. rewrite <- Hn.
  split; [by apply statuses_exact|]. by apply (tracks_key l db).
Qed.

Lemma dep_tracked s d : is_step s → d ∈ sd_depends_on s → ∃ x, x ∈ l ∧ sr_step x.2 = d ∧ statuses_of l !! d = Some (sr_status x.2) ∧
  (statuses_of l !! d ≠ Some Blocked → StepStatus.is_terminal (sr_status x.2) = true).
Proof.
  intros Hs Hd. pose proof (do_wf _ _ dag_known) as [_ _ Hknown _]. pose proof (Hknown s d Hs Hd) as Hin.
  apply list_elem_of_In, in_map_iff in Hin as (s1 & <- & Hs1%list_elem_of_In).
  destruct (tracked_status s1 Hs1) as (x & Hx & Hn & Hst & _). exists x. split_and!; try done.
  intros Hne. destruct (Hset x Hx) as [E|?]; [congruence|done].
Qed.

(** A skipped step in memory means a failed one: nobody stopped the run. *)
Lemma no_failure_no_skip x : any_failed l = false → x ∈ l → sr_status x.2 ≠ Failed ∧ sr_status x.2 ≠ Skipped.
Proof.
  intros Hf. assert (∀ x, x ∈ l → sr_status x.2 ≠ Failed) as Hnf.
  { intros y Hy Hst. apply not_true_iff_false in Hf. apply Hf. apply existsb_exists. exists y. split; [by apply list_elem_of_In|].
    by apply bool_decide_eq_true. }
  intros Hx. split; [by apply Hnf|]. intros Hst. destruct (tr_row _ _ Htr x Hx) as (r & E & _ & Hr).
  destruct (inv_skipped _ HI Hstop) as (id & r' & E' & Hr'); [exists x.1, r; split; [done|congruence]|].
  destruct (tr_all _ _ Htr id r' E') as (y & Hy & <-). destruct (tr_row _ _ Htr y Hy) as (r2 & E2 & _ & Hr2).
  apply (Hnf y Hy). congruence.
Qed.

(** The waiting step [s] is skipped, or it is ready in what is left. *)
Lemma moves s policy : is_step s → statuses_of l !! sd_name s = Some Blocked →
  (∀ d, d ∈ sd_depends_on s → statuses_of l !! d ≠ Some Blocked) →
  let ids := steps_to_skip policy dag l in
  if any_failed l then row_key (sd_name s) ∈ ids ∨ (policy = ContinueIndependent ∧ s ∈ WorkflowDag.ready_steps dag (statuses_of (skip_in ids l)))
  else s ∈ WorkflowDag.ready_steps dag (statuses_of l).
Proof.
  intros Hs Hb Hdeps ids. destruct (tracked_status s Hs) as (x & Hx & Hxn & Hst & Hk). rewrite Hst in Hb. injection Hb as Hb.
  destruct (any_failed l) eqn:Ef.
  2:{ apply ready_member; [done|congruence|]. intros d Hd. destruct (dep_tracked s d Hs Hd) as (y & Hy & _ & Hsty & Hterm).
      specialize (Hterm (Hdeps d Hd)). destruct (no_failure_no_skip y Ef Hy). rewrite Hsty. by destruct (sr_status y.2). }
  destruct (decide (x.1 ∈ ids)) as [Hin|Hin]; [left; by rewrite <- Hk|right].
  destruct policy.
  { destruct Hin. unfold ids. cbn. apply list_elem_of_fmap. exists x. split; [done|]. apply list_elem_of_In, filter_In.
    split; [by apply list_elem_of_In|]. apply has_status_In. rewrite Hb. by left. }
  split; [done|]. assert (NoDup (names (skip_in ids l))) as Hnn' by (by rewrite (proj1 (skip_in_names ids l))).
  assert (∀ y, y ∈ l → y.1 ∉ ids → statuses_of (skip_in ids l) !! sr_step y.2 = Some (sr_status y.2)) as Hkeep.
  { intros y Hy Hni. apply (statuses_exact (skip_in ids l) y); [done|]. apply elem_of_skip_in. exists y. split; [done|].
    by rewrite bool_decide_false. }
  apply ready_member; [done|rewrite <- Hxn, Hkeep by done; by rewrite Hb|]. intros d Hd.
  destruct (dep_tracked s d Hs Hd) as (y & Hy & Hyn & Hsty & Hterm). specialize (Hterm (Hdeps d Hd)).
  assert (y.1 ∉ ids) as Hni.
  { intros Hyi. rewrite (steps_to_skip_blocked ContinueIndependent l y Hnn (tr_once _ _ Htr) Hset Hy Hyi) in Hterm. done. }
  rewrite <- Hyn, Hkeep by done. destruct (WorkflowDag.broken (Some (sr_status y.2))) eqn:Ebr; [|by destruct (sr_status y.2)].
  exfalso. apply Hin. assert (dooms dag (statuses_of l) (sd_name s)) as Hdoom.
  { apply (dooms_step dag (statuses_of l) (sd_name s) s d); [by apply (do_steps _ _ dag_known)| |done|left; by rewrite Hsty].
    by rewrite Hst, Hb. }
  destruct (doomed_complete dag (statuses_of l) (do_order _ _ dag_known) (sd_name s) s) as [b Hd']; [by apply (do_steps _ _ dag_known)|done|].
  unfold ids, steps_to_skip. apply list_elem_of_omap. exists x. split; [done|].
  replace (existsb _ _) with true; [done|]. symmetry. apply existsb_exists. exists (s, b). split; [by apply list_elem_of_In|].
  apply String.eqb_eq. by rewrite Hxn.
Qed.
End moving.

Lemma post_and {A} (p : Prog A) db Q1 Q2 : post p db Q1 → post p db Q2 → post p db (λ a db', Q1 a db' ∧ Q2 a db').
Proof. intros H1' H2' a db' E. split; auto. Qed.

(** A step that waited no longer does. *)
Definition stirred (db db' : Db) : Prop :=
  ∃ id r r', db_steps db !! id = Some r ∧ sr_status r = Blocked ∧ db_steps db' !! id = Some r' ∧ sr_status r' ≠ Blocked.

Lemma row_later db db' id r : rely db db' → is_Some (db_run db') → db_steps db !! id = Some r →
  ∃ r', db_steps db' !! id = Some r' ∧ row_next r r'.
Proof.
  intros HR [run E] Er. destruct (rely_rows _ _ HR) as [?|Hrows]; [congruence|]. by eapply rows_next_lookup.
Qed.

Lemma row_earlier db db' id r' : rely db db' → is_Some (db_run db') → db_steps db' !! id = Some r' →
  ∃ r, db_steps db !! id = Some r ∧ row_next r r'.
Proof.
  intros HR [run E] Er. destruct (rely_rows _ _ HR) as [?|Hrows]; [congruence|]. specialize (Hrows id). rewrite Er in Hrows.
  destruct (db_steps db !! id) as [r|]; [by exists r|done].
Qed.

Lemma row_next_blocked r r' : row_next r r' → sr_status r' = Blocked → sr_status r = Blocked.
Proof. intros (_ & Hle & _) E. rewrite E in Hle. by destruct (sr_status r). Qed.

Lemma none_blocked (l : list Step) : existsb (λ x : Step, bool_decide (sr_status x.2 = Blocked)) l = false →
  ∀ x, x ∈ l → sr_status x.2 ≠ Blocked.
Proof.
  intros Eb x Hx Hb. apply not_true_iff_false in Eb. apply Eb, existsb_exists. exists x. split; [by apply list_elem_of_In|].
  by apply bool_decide_eq_true.
Qed.

Section one_pass.
Context (run : WorkflowRun).
Hypothesis Hrun : same_run run.

(** Steps 2 and 3 of a pass, from what it landed. *)
Definition middle (l : list Step) : Prog unit :=
  steps ← (if any_failed l then propagate_failure (on_failure run) dag l else Ret l);
  match on_failure run, any_failed l with
  | Halt, true => Ret tt
  | _, _ => dispatch_ready the_key run dag steps
  end.

(** What holds after them. *)
Definition advanced (l : list Step) (db db' : Db) : Prop :=
  inv db' ∧ rely db db' ∧ db_run db' = db_run db ∧ (∀ id r, db_steps db' !! id = Some r → sr_status r ≠ Ready) ∧
  (if existsb (λ x : Step, bool_decide (sr_status x.2 = Blocked)) l then stirred db db'
   else ∀ id r, db_steps db' !! id = Some r → StepStatus.is_terminal (sr_status r) = true).

Section landed.
Context (l : list Step) (db : Db).
Hypothesis HI : inv db.
Hypothesis Htr : tracks l db.
Hypothesis Hset : settled l.
Hypothesis Hnn : NoDup (names l).
Hypothesis Hall : ∀ s, is_step s → ∃ x, x ∈ l ∧ sr_step x.2 = sd_name s.
Hypothesis Hknown : Forall (λ s, known s db) l.
Hypothesis Hgoing : is_Some (db_run db).

Lemma tracked_not_ready l' db' : tracks l' db' → settled l' → ∀ id r, db_steps db' !! id = Some r → sr_status r ≠ Ready.
Proof.
  intros Htr' Hset' id r E. destruct (tr_all _ _ Htr' id r E) as (x & Hx & <-). destruct (tr_row _ _ Htr' x Hx) as (r' & E' & _ & Hr).
  replace r with r' by congruence. rewrite Hr. destruct (Hset' x Hx) as [-> |Ht]; [done|]. by destruct (sr_status x.2).
Qed.

Lemma tracked_terminal l' db' : tracks l' db' → settled l' → (∀ x, x ∈ l' → sr_status x.2 ≠ Blocked) →
  ∀ id r, db_steps db' !! id = Some r → StepStatus.is_terminal (sr_status r) = true.
Proof.
  intros Htr' Hset' Hnb id r E. destruct (tr_all _ _ Htr' id r E) as (x & Hx & <-). destruct (tr_row _ _ Htr' x Hx) as (r' & E' & _ & Hr).
  replace r with r' by congruence. rewrite Hr. destruct (Hset' x Hx) as [?|Ht]; [by destruct (Hnb x Hx)|done].
Qed.

(** Some step in memory that waits moves, if there is one. *)
Lemma some_move policy : existsb (λ x : Step, bool_decide (sr_status x.2 = Blocked)) l = true →
  ∃ s r, is_step s ∧ db_steps db !! row_key (sd_name s) = Some r ∧ sr_status r = Blocked ∧
    (let ids := steps_to_skip policy dag l in
     if any_failed l then row_key (sd_name s) ∈ ids ∨ (policy = ContinueIndependent ∧ s ∈ WorkflowDag.ready_steps dag (statuses_of (skip_in ids l)))
     else s ∈ WorkflowDag.ready_steps dag (statuses_of l)).
Proof.
  intros (x & Hx%list_elem_of_In & Hb)%existsb_exists. apply bool_decide_eq_true in Hb.
  destruct (tracks_key l db x HI Htr Hx) as (Hk & sx & Hsx & Hnx & _).
  destruct (minimal_blocked (statuses_of l) sx Hsx) as (s & Hs & Hbs & Hdeps).
  { rewrite Hnx, (statuses_exact l x) by done. by rewrite Hb. }
  destruct (tracked_status l db HI Htr Hnn Hall s Hs) as (y & Hy & Hny & Hsy & Hky).
  destruct (tr_row _ _ Htr y Hy) as (r & E & _ & Hr). exists s, r. rewrite <- Hky. split_and!; [done|done|congruence|].
  rewrite Hky. by apply (moves l db).
Qed.

Lemma skipped_row policy s r l' db' : l' = skip_in (steps_to_skip policy dag l) l → tracks l' db' →
  row_key (sd_name s) ∈ steps_to_skip policy dag l → db_steps db' !! row_key (sd_name s) = Some r → sr_status r = Skipped.
Proof.
  intros -> Htr' Hin E. destruct (tr_all _ _ Htr' _ r E) as (x & Hx & Ex). destruct (tr_row _ _ Htr' x Hx) as (r' & E' & _ & Hr).
  replace r with r' by congruence. rewrite Hr. apply elem_of_skip_in in Hx as (y & Hy & ->).
  assert (y.1 = row_key (sd_name s)) as Ey by (revert Ex; by case_bool_decide). rewrite Ey, bool_decide_true by done. done.
Qed.

(** When a failure was propagated: what is left to show of the dispatch. *)
Lemma advanced_after_skip l' db1 db' : let policy := on_failure run in
  any_failed l = true → l' = skip_in (steps_to_skip policy dag l) l → tracks l' db1 → settled l' → rely db db1 → db_run db1 = db_run db →
  inv db' → rely db1 db' → db_run db' = db_run db1 → (∀ id r, db_steps db' !! id = Some r → sr_status r ≠ Ready) →
  (∀ s, is_step s → policy = ContinueIndependent → s ∈ WorkflowDag.ready_steps dag (statuses_of l') →
     ∃ r, db_steps db' !! row_key (sd_name s) = Some r ∧ sr_status r ≠ Blocked) →
  ((∀ x, x ∈ l → sr_status x.2 ≠ Blocked) → db_steps db' = db_steps db1) → advanced l db db'.
Proof.
  intros policy Ef El Htr1 Hset1 HR1 Hr1 HI' HR' Hr' Hready Hmoved Hsame. split; [done|]. split; [by etrans|]. split; [congruence|]. split; [done|].
  assert (is_Some (db_run db')) as Hg by (by rewrite Hr', Hr1).
  destruct (existsb _ l) eqn:Eb.
  - destruct (some_move policy Eb) as (s & r & Hs & E & Hbr & Hmv). rewrite Ef in Hmv.
    destruct (row_later db db' _ r ltac:(by etrans) Hg E) as (r' & E' & _). exists (row_key (sd_name s)), r, r'.
    split_and!; try done. destruct Hmv as [Hin|[Hp Hin]].
    + destruct (row_later db db1 _ r HR1 ltac:(by rewrite Hr1) E) as (r1 & E1 & _).
      pose proof (skipped_row policy s r1 l' db1 El Htr1 Hin E1) as Hs1.
      destruct (row_later db1 db' _ r1 HR' Hg E1) as (r2 & E2 & Hn2). replace r' with r2 by congruence.
      intros Hb. apply (row_next_blocked _ _ Hn2) in Hb. congruence.
    + rewrite <- El in Hin. destruct (Hmoved s Hs Hp Hin) as (r2 & E2 & Hst2). congruence.
  - pose proof (none_blocked l Eb) as Hnb.
    rewrite (Hsame Hnb). apply (tracked_terminal l' db1); [done|done|].
    rewrite El. intros x' (x & Hx & ->)%elem_of_skip_in. case_bool_decide; [done|by apply Hnb].
Qed.

Lemma post_middle : post (middle l) db (λ _ db', advanced l db db').
Proof.
  unfold middle. destruct (any_failed l) eqn:Ef.
  - apply post_bind. eapply post_mono; [|apply post_and; [by apply (post_propagate (on_failure run) l db)|]].
    2:{ apply run_wp; [done|]. apply wp_propagate; [done|done|]. by eapply any_failed_broken. }
    intros l' db1 ((El & Htr1 & Hset1 & Hr1) & ([Hn1 Hk1] & HI1 & HR1)).
    destruct (on_failure run) eqn:Ep.
    + apply post_ret, (advanced_after_skip l' db1); rewrite ?Ep; try done. by apply (tracked_not_ready l' db1).
    + eapply post_mono; [|apply post_and; [apply (post_ready run l' db1); [done|done|done|by rewrite Hn1]|]].
      2:{ apply run_wp; [done|]. apply wp_dispatch_ready; [done|apply dag_known|by rewrite Hn1|done|done]. }
      intros u db2 ((Hr2 & Hnew & Hold & Hnr) & (_ & HI2 & HR2)). apply (advanced_after_skip l' db1); rewrite ?Ep; try done.
      * intros s Hs _ Hin. destruct (Hnew s Hin) as (r & E & Hst). exists r. split; [done|]. intros Hb. rewrite Hb in Hst. set_solver.
      * intros Hnb. apply map_eq. intros id. apply Hold. intros sd Hsd _. destruct (ready_tracked l' db1 sd HI1 Htr1 Hsd) as (x' & Hx' & _ & Hb & _).
        rewrite El in Hx'. apply elem_of_skip_in in Hx' as (x & Hx & ->). apply (Hnb x Hx). revert Hb. by case_bool_decide.
  - cbn [bind]. assert (post (dispatch_ready the_key run dag l) db (λ _ db', advanced l db db')) as Hd.
    { eapply post_mono; [|apply post_and; [by apply (post_ready run l db)|]].
      2:{ apply run_wp; [done|]. apply wp_dispatch_ready; [done|apply dag_known|done|done|done]. }
      intros u db2 ((Hr2 & Hnew & Hold & Hnr) & (_ & HI2 & HR2)). split; [done|]. split; [done|]. split; [done|]. split; [done|].
      destruct (existsb _ l) eqn:Eb.
      - destruct (some_move Halt Eb) as (s & r & Hs & E & Hbr & Hmv). rewrite Ef in Hmv.
        destruct (Hnew s Hmv) as (r' & E' & Hst). exists (row_key (sd_name s)), r, r'. split_and!; try done.
        intros Hb. rewrite Hb in Hst. set_solver.
      - pose proof (none_blocked l Eb) as Hnb.
        intros id r E. rewrite Hold in E; [by apply (tracked_terminal l db Htr Hset Hnb id r)|].
        intros sd Hsd _. destruct (ready_tracked l db sd HI Htr Hsd) as (x & Hx & _ & Hb & _). by apply (Hnb x Hx). }
    by destruct (on_failure run).
Qed.
End landed.
End one_pass.

Lemma post_assoc {A B C} (p : Prog A) (f : A → Prog B) (g : B → Prog C) db Q :
  post (bind (bind p f) g) db Q → post (bind p (λ a, bind (f a) g)) db Q.
Proof.
  intros Hp c db'. specialize (Hp c db'). rewrite !run_bind in *. destruct (run_prog p db) as [[e|a] db1]; [done|]. by rewrite run_bind.
Qed.

(** After a pass on a calm database whose jobs have ended, the run is over, or
    the database is calm again and a waiting step moved; it is over if no step
    waited. *)
Lemma post_advance db : calm db → ended db →
  post (advance_workflow the_key) db (λ _ db', over db' ∨ (calm db' ∧ stirred db db')).
Proof.
  intros Hc He. pose proof (calm_inv _ Hc) as HI. destruct (calm_run _ Hc) as (run & Er & Hr).
  destruct (inv_run _ HI run Er) as [Hsame Hkill]. unfold advance_workflow. apply post_bind, post_query. intros a db1 [= <- <-].
  rewrite Er. unfold is_running. rewrite bool_decide_true by done. rewrite (Hkill Hstop). cbn [negb].
  replace (frozen_dag run) with (Some dag) by (unfold frozen_dag; by rewrite (proj1 Hsame), frozen_def, Hdag).
  unfold advance_running. apply post_bind, post_query. intros l0 db1 [= <- <-].
  apply post_bind. eapply post_mono; [|apply post_and; [by apply post_land_all|apply run_wp; [done|by apply (wp_land_all db)]]].
  intros l db1 ((Htr & Hset & Hnames & Hrun1) & Hland & HI1 & HR1). apply landed_names in Hland as [_ Hknown].
  assert (NoDup (names l)) as Hnn by (rewrite Hnames; by apply scan_names).
  assert (is_Some (db_run db1)) as Hg1 by (rewrite Hrun1; by eexists).
  assert (∀ s, is_step s → ∃ x, x ∈ l ∧ sr_step x.2 = sd_name s) as Hall.
  { intros s Hs. destruct (calm_rows _ Hc s Hs) as (r & E & Hn). destruct (row_later db db1 _ r HR1 Hg1 E) as (r1 & E1 & (Hn1 & _)).
    destruct (tr_all _ _ Htr _ r1 E1) as (x & Hx & Ex). exists x. split; [done|]. destruct (tr_row _ _ Htr x Hx) as (r2 & E2 & <- & _).
    rewrite Ex in E2. congruence. }
  cbv zeta. apply post_assoc, post_bind. eapply post_mono; [|by apply (post_middle run Hsame l db1)].
  intros u db2 (HI2 & HR2 & Hrun2 & Hnr & Hmv). eapply post_mono; [|by apply post_settle].
  intros v db3 [[-> |Ho] Hover]; [|by left].
  assert (is_Some (db_run db2)) as Hg2 by (by rewrite Hrun2). assert (rely db db2) as HR by (by etrans).
  destruct (existsb _ l) eqn:Eb.
  - right. split; [split; [done| |intros s Hs|done]|].
    + exists run. split; [congruence|done].
    + destruct (calm_rows _ Hc s Hs) as (r & E & Hn). destruct (row_later db db2 _ r HR Hg2 E) as (r2 & E2 & (Hn2 & _)).
      exists r2. split; [done|congruence].
    + destruct Hmv as (id & r1 & r2 & E1 & Hb1 & E2 & Hb2). destruct (row_earlier db db1 id r1 HR1 Hg1 E1) as (r & E & Hn).
      exists id, r, r2. split; [done|]. split; [by eapply row_next_blocked|done].
  - left. apply Hover; [done|]. pose proof (do_wf _ _ dag_known) as [Hne _ _ _]. destruct (wd_steps the_def) as [|s ss] eqn:Esteps; [done|].
    assert (is_step s) as Hs by (unfold is_step; rewrite Esteps; by left).
    destruct (calm_rows _ Hc s Hs) as (r & E & _). destruct (row_later db db2 _ r HR Hg2 E) as (r2 & E2 & _).
    intros Hem. by rewrite Hem, lookup_empty in E2.
Qed.

(** ** Rounds *)

(** Every job that is under way ends, somehow. *)
Definition jobs_end (db db' : Db) : Prop :=
  db_run db' = db_run db ∧ db_steps db' = db_steps db ∧ db_schedule db' = db_schedule db ∧
  ∀ j, match db_jobs db !! j, db_jobs db' !! j with
       | Some a, Some b => job_next a b ∧ jr_status b ∈ [JobSuccess; JobFailed]
       | None, None => True
       | _, _ => False
       end.

Definition round (db db' : Db) : Prop :=
  ∃ db1, jobs_end db db1 ∧ run_prog (advance_workflow the_key) db1 = (inr tt, db').

Lemma jobs_end_rely db db' : jobs_end db db' → rely db db' ∧ (inv db → inv db').
Proof.
  intros (Er & Es & _ & Hj). assert (rely db db') as HR.
  { split; [rewrite Er; destruct (db_run db); cbn; auto|right; rewrite Es; apply rows_next_refl|right].
    intros j job Ej. specialize (Hj j). rewrite Ej in Hj. destruct (db_jobs db' !! j) as [b|]; [|done]. exists b. by destruct Hj. }
  split; [done|]. intros HI. apply (inv_change db db'); try done.
  - rewrite Er. apply HI.
  - intros id r. rewrite Es. by left.
  - intros s j job _ _ E. left. specialize (Hj j). rewrite E in Hj. destruct (db_jobs db !! j) as [a|]; [|done]. exists a.
    split; [done|]. by destruct Hj as [[? _] _].
  - rewrite Er, Es. apply HI.
  - intros Hd id r. rewrite Es. apply (inv_success _ HI). intros run E. apply Hd. by rewrite Er.
  - unfold has_status_row. rewrite Es. apply HI.
Qed.

Lemma jobs_end_calm db db' : jobs_end db db' → calm db → calm db' ∧ ended db'.
Proof.
  intros Hj [HI Hr Hrows Hnr]. destruct (jobs_end_rely _ _ Hj) as [_ HI']. destruct Hj as (Er & Es & _ & Hj). split.
  - split; [auto|by rewrite Er|intros s Hs; rewrite Es; by apply Hrows|rewrite Es; done].
  - intros j job E. specialize (Hj j). rewrite E in Hj. destruct (db_jobs db !! j); [|done]. by destruct Hj.
Qed.

(** How many steps wait. *)
Definition waiting (db : Db) : nat := size (filter (λ e : string * StepRow, sr_status e.2 = Blocked) (db_steps db)).

Lemma stirred_waiting db db' : rely db db' → is_Some (db_run db') → stirred db db' → (waiting db' < waiting db)%nat.
Proof.
  intros HR Hg (id & r & r' & E & Hb & E' & Hb'). unfold waiting. rewrite <- !size_dom. apply subset_size.
  split.
  - intros x (y & [Ey Hy]%map_lookup_filter_Some)%elem_of_dom. destruct (row_earlier db db' x y HR Hg Ey) as (z & Ez & Hn).
    apply elem_of_dom. exists z. apply map_lookup_filter_Some. split; [done|]. by eapply row_next_blocked.
  - intros Hsub. assert (id ∈ dom (filter (λ e : string * StepRow, sr_status e.2 = Blocked) (db_steps db))) as Hin.
    { apply elem_of_dom. exists r. by apply map_lookup_filter_Some. }
    apply Hsub, elem_of_dom in Hin as [y [Ey Hy]%map_lookup_filter_Some]. cbn in Hy. congruence.
Qed.

Lemma round_step db db' : calm db → round db db' → over db' ∨ (calm db' ∧ (waiting db' < waiting db)%nat).
Proof.
  intros Hc (db1 & Hj & Hrun). destruct (jobs_end_calm _ _ Hj Hc) as [Hc1 He1]. destruct (jobs_end_rely _ _ Hj) as [HR1 _].
  destruct (post_advance db1 Hc1 He1 tt db' Hrun) as [?|[Hc' Hst]]; [by left|right]. split; [done|].
  destruct (run_wp (advance_workflow the_key) finished db1 (calm_inv _ Hc1) (wp_advance db1 (calm_inv _ Hc1)) tt db' Hrun) as (_ & _ & HR).
  destruct (calm_run _ Hc') as (run & E & _). assert (waiting db = waiting db1) as ->.
  { unfold waiting. destruct Hj as (_ & Es & _). by rewrite Es. }
  apply stirred_waiting; [done|by exists run|done].
Qed.

Lemma round_over db db' : over db → round db db' → over db'.
Proof.
  intros Ho (db1 & Hj & Hrun). destruct (jobs_end_rely _ _ Hj) as [HR1 _]. pose proof (over_rely _ _ HR1 Ho) as Ho1.
  revert Hrun. unfold advance_workflow, load_workflow_run, query. cbn [bind run_prog exec].
  destruct (db_run db1) as [run|] eqn:E; [|by intros [= <-]]. unfold is_running. rewrite bool_decide_false by (by apply Ho1).
  cbn. by intros [= <-].
Qed.

Lemma rounds_over n db db' : (calm db ∧ (waiting db < n)%nat) ∨ over db → nsteps round n db db' → over db'.
Proof.
  intros Hdb Hn. revert Hdb. induction Hn as [db|n db1 db2 db3 Hround _ IH]; intros [[Hc Hlt]|Ho]; [lia|done|..]; apply IH.
  - destruct (round_step _ _ Hc Hround) as [?|[? ?]]; [by right|left]. split; [done|]. lia.
  - right. by eapply round_over.
Qed.

Lemma spawned_calm db : spawned db → calm db ∧ (waiting db <= length (wd_steps the_def))%nat.
Proof.
  intros Hsp. split.
  - split; [by apply spawned_inv|exists first_run; split; [apply (sp_run _ Hsp)|apply (sp_running _ Hsp)]| |].
    + intros s Hs. exists (blocked_row (sd_name s)). split; [|done]. apply (sp_rows _ Hsp). by exists s.
    + intros id r (s & _ & _ & ->)%(sp_rows _ Hsp). done.
  - unfold waiting. set (m := filter _ _).
    rewrite <- length_map_to_list, <- (length_fmap fst (map_to_list m)), <- (length_map (λ s, row_key (sd_name s)) (wd_steps the_def)).
    apply submseteq_length, NoDup_submseteq; [apply NoDup_fst_map_to_list|]. intros id ([x r] & -> & Hin)%list_elem_of_fmap.
    apply elem_of_map_to_list in Hin. apply map_lookup_filter_Some in Hin as [E _]. cbn.
    apply (sp_rows _ Hsp) in E as (s & Hs & -> & _). by apply list_elem_of_In, (in_map (λ s, row_key (sd_name s))), list_elem_of_In.
Qed.

(** One way jobs may end: all that are under way fail. *)
Definition end_job (j : JobRow) : JobRow :=
  if bool_decide (jr_status j ∈ [JobPending; JobProcessing]) then MkJobRow JobFailed None (jr_content j) else j.

Lemma jobs_can_end db : jobs_end db (set_jobs (fmap end_job) db).
Proof.
  split_and!; try done. intros j. cbn. rewrite lookup_fmap. destruct (db_jobs db !! j) as [a|]; cbn; [|done].
  unfold end_job. case_bool_decide as E.
  - split; [split; [done|]|set_solver]. intros Hn. by destruct Hn.
  - split; [done|]. destruct (jr_status a); set_solver.
Qed.

Lemma round_exists db : ∃ db', round db db'.
Proof.
  destruct (returns_advance the_key (set_jobs (fmap end_job) db)) as ([] & db' & E). exists db', (set_jobs (fmap end_job) db).
  split; [apply jobs_can_end|done].
Qed.

(** C36: A valid workflow run comes to an end. A pass that advances
    it always returns; and when every job ends between two passes (in success
    or in failure) and none of the statements fails, then after one more pass
    than the workflow has steps the run is no longer running. *)
Theorem workflow_ends db0 (Hspawned : spawned db0) :
  (∀ db, ∃ db', run_prog (advance_workflow the_key) db = (inr tt, db')) ∧
  (∀ db, ∃ db', round db db') ∧
  ∀ db, nsteps round (S (length (wd_steps the_def))) db0 db →
    db_run db = None ∨ ∃ run, db_run db = Some run ∧ wr_status run ≠ RunRunning.
Proof.
  split; [intros db; destruct (returns_advance the_key db) as ([] & db' & E); by exists db'|].
  split; [apply round_exists|]. intros db Hn. destruct (spawned_calm _ Hspawned) as [Hc Hw]. assert (over db) as Ho.
  { eapply rounds_over; [|exact Hn]. left. split; [done|]. lia. }
  destruct (db_run db) as [run|] eqn:E; [right|by left]. exists run. split; [done|]. by apply Ho.
Qed.
End rounds.

#[local] Existing Instance toy_sha.
#[local] Existing Instance sample_scan.
#[local] Existing Instance sample_scan_laws.

Lemma workflow_ends_witness : ∃ db, nsteps (@round _ (sample false) _) 3 sample_db db ∧
  (db_run db = None ∨ ∃ run, db_run db = Some run ∧ wr_status run ≠ RunRunning).
Proof.
  destruct (WorkflowDag.validate (two_steps Halt)) as [e|dag] eqn:Hdag; [by vm_compute in Hdag|].
  destruct (@workflow_ends _ (sample false) (sample_laws false) _ _ dag eq_refl Hdag sample_db (sample_spawned false)) as (_ & Hround & Hends).
  destruct (Hround sample_db) as [db1 H1]. destruct (Hround db1) as [db2 H2]. destruct (Hround db2) as [db3 H3].
  assert (nsteps (@round _ (sample false) _) 3 sample_db db3) as Hn.
  { eapply nsteps_l; [exact H1|]. eapply nsteps_l; [exact H2|]. eapply nsteps_l; [exact H3|constructor]. }
  exists db3. split; [exact Hn|]. exact (Hends db3 Hn).
Defined.
