(* ===== verification/WorkflowRetry.v ===== *)
(** * Retrying a run

    What [retry_workflow] answers and what it does to the rows, compared with
    a description of both that makes no statement: which runs are refused, and
    what the rows are when the run is advanced again. *)

From S2P Require Import Prelude Platform Value Dag Ids RunStore Workflow WorkflowLogic WorkflowInv WorkflowRuns.
From S2P Require Import WorkflowLive.
#[local] Open Scope prog_scope.

(** ** The description *)

Section retry_spec.
Context `{ScanOrder}.

(** The status of the job a step row points at. *)
Definition job_status_of (db : Db) (r : StepRow) : option JobStatus :=
  let? job_id := sr_job_id r in
  let? job := Ref.parse job_id in
  jr_status <$> db_jobs db !! job.

(** The step is dispatched and its job has succeeded: it is landed, not run again. *)
Definition landable (db : Db) (r : StepRow) : bool :=
  bool_decide (sr_status r = Dispatched) && bool_decide (job_status_of db r = Some JobSuccess).

(** The step runs again: it failed, was skipped, or its job failed or is gone. *)
Definition runs_again (db : Db) (r : StepRow) : bool :=
  match sr_status r with
  | Failed | Skipped => true
  | Dispatched => negb (no_job r) && negb (landable db r)
  | _ => false
  end.

Definition kept_step (db : Db) (r : StepRow) : bool := bool_decide (sr_status r = Success) || landable db r.

(** The step is dispatched and its job still runs. *)
Definition still_running (db : Db) (r : StepRow) : option WorkflowOpError :=
  match sr_status r, job_status_of db r with
  | Dispatched, Some JobPending => Some (Settling (sr_step r) JobPending)
  | Dispatched, Some JobProcessing => Some (Settling (sr_step r) JobProcessing)
  | _, _ => None
  end.

(** Why a retry is refused. *)
Definition refusal (db : Db) : option WorkflowOpError :=
  match db_run db with
  | None => Some NotFound
  | Some run =>
      if negb (retryable run) then Some (NotTerminal (wr_status run))
      else match frozen_dag run with
      | None => Some BadDag
      | Some _ =>
          let rows := (scan_steps (db_steps db)).*2 in
          match head (omap (still_running db) rows) with
          | Some e => Some e
          | None => if existsb (λ r, runs_again db r || landable db r) rows then None else Some NothingToRetry
          end
      end
  end.

(** The rows when the run is advanced again. *)
Definition retried_steps (db : Db) : gmap string StepRow :=
  (λ r, if runs_again db r then reset_row r else r) <$> db_steps db.

Definition reopened_schedule (run : WorkflowRun) (schedule : option ScheduleRun) : option ScheduleRun :=
  match wr_schedule_name run with
  | None => schedule
  | Some _ => (λ r, if bool_decide (sc_status r ∈ [RunFailed; RunKilled]) then schedule_with_status RunRunning r else r) <$> schedule
  end.

Definition retried (run : WorkflowRun) (db : Db) : Db :=
  MkDb (Some (reopened run)) (retried_steps db) (db_jobs db) (reopened_schedule run (db_schedule db)).

Definition retry_outcome (run : WorkflowRun) (db : Db) : RetryOutcome :=
  let rows := (scan_steps (db_steps db)).*2 in
  MkRetryOutcome (wr_retry_count run + 1) (sr_step <$> List.filter (runs_again db) rows)
    (sr_step <$> List.filter (kept_step db) rows).
End retry_spec.

(** ** The two passes over the steps *)

Definition with_steps (m : gmap string StepRow) (db : Db) : Db := set_steps (λ _, m) db.

Lemma with_steps_same db : with_steps (db_steps db) db = db.
Proof. by destruct db. Qed.

Section passes.
Context `{Sha256} `{ScanOrder} (run_key : string).

Lemma run_load_job db job_id : run_prog (load_job job_id) db = (inr (let? job := Ref.parse job_id in db_jobs db !! job), db).
Proof. unfold load_job. by destruct (Ref.parse job_id). Qed.

Definition see_job (db : Db) (m : gmap string (option JobStatus)) (s : Step) : gmap string (option JobStatus) :=
  if bool_decide (sr_status s.2 = Dispatched) then <[sr_step s.2 := job_status_of db s.2]> m else m.

Lemma run_settled_jobs db l m :
  run_prog (settled_jobs l m) db =
  (inr (match head (omap (still_running db) l.*2) with Some e => inl e | None => inr (foldl (see_job db) m l) end), db).
Proof.
  revert m. induction l as [|s l IH]; intros m; [done|]. cbn [settled_jobs foldl fmap list_fmap omap list_omap].
  unfold still_running at 1, see_job at 2. destruct (sr_status s.2) eqn:Est; cbn; try apply IH.
  unfold job_status_of. change (negb (bool_decide (Dispatched = Dispatched))) with false. cbn iota.
  destruct (sr_job_id s.2) as [job_id|]; [|apply IH]. rewrite run_bind, run_load_job.
  destruct (Ref.parse job_id) as [j|]; cbn; [|apply IH].
  destruct (db_jobs db !! j) as [job|]; cbn; [|apply IH]. destruct (jr_status job); cbn; first [done|apply IH].
Qed.

Lemma see_job_other db l m name : (∀ s, s ∈ l → sr_step s.2 ≠ name) → foldl (see_job db) m l !! name = m !! name.
Proof.
  revert m. induction l as [|s l IH]; intros m Hl; [done|]. cbn. rewrite IH by (intros; apply Hl; by right).
  unfold see_job. case_bool_decide; [|done]. apply lookup_insert_ne, Hl. by left.
Qed.

(** Step names are unique, so pass A keeps the status of every step's own job. *)
Lemma see_job_own db l s : NoDup ((λ s : Step, sr_step s.2) <$> l) → s ∈ l → sr_status s.2 = Dispatched →
  foldl (see_job db) ∅ l !! sr_step s.2 = Some (job_status_of db s.2).
Proof.
  intros Hnd Hs Hst. generalize (∅ : gmap string (option JobStatus)). induction l as [|s' l IH]; intros m; [by apply not_elem_of_nil in Hs|].
  cbn in Hnd |- *. apply NoDup_cons in Hnd as [Hs' Hnd]. apply elem_of_cons in Hs as [->|Hs]; [|by apply IH].
  rewrite see_job_other; [|intros x Hx E; apply Hs'; apply list_elem_of_fmap; by exists x].
  unfold see_job. rewrite bool_decide_true by done. apply lookup_insert_eq.
Qed.

(** What pass B answers for a step. *)
Definition reset_answer (db : Db) (s : Step) : option (bool * string) :=
  if runs_again db s.2 then Some (true, sr_step s.2)
  else if kept_step db s.2 then Some (false, sr_step s.2) else None.

Definition reset_in (db : Db) (m : gmap string StepRow) (s : Step) : gmap string StepRow :=
  if runs_again db s.2 then <[s.1 := reset_row s.2]> m else m.

Lemma run_reset_step jobs db m s : m !! s.1 = Some s.2 →
  (sr_status s.2 = Dispatched → jobs !! sr_step s.2 = Some (job_status_of db s.2)) →
  run_prog (reset_step jobs s) (with_steps m db) = (inr (reset_answer db s), with_steps (reset_in db m s) db).
Proof.
  intros E Hj. unfold reset_step, reset_answer, reset_in, runs_again, kept_step, landable, job_succeeded.
  destruct (sr_status s.2) eqn:Est; cbn [run_prog bind query]; try done.
  2, 3: cbn; unfold update_step; change (db_steps (with_steps m db)) with m; rewrite E; unfold has_status; rewrite Est; done.
  rewrite Hj by done. destruct (decide (job_status_of db s.2 = Some JobSuccess)) as [Hs|Hs].
  - rewrite Hs. cbn. by rewrite andb_false_r.
  - rewrite !(bool_decide_false (job_status_of db s.2 = _)), bool_decide_false by congruence. cbn.
    unfold update_step. change (db_steps (with_steps m db)) with m. rewrite E. unfold has_status. rewrite Est. unfold no_job.
    destruct (sr_job_id s.2) as [job_id|]; cbn; rewrite ?andb_false_r; [|done].
    by rewrite (bool_decide_true (Some job_id = _)).
Qed.

Lemma reset_in_other db l m id : id ∉ l.*1 → foldl (reset_in db) m l !! id = m !! id.
Proof.
  revert m. induction l as [|s l IH]; intros m Hid; [done|]. cbn in *. apply not_elem_of_cons in Hid as [Hne Hid].
  rewrite IH by done. unfold reset_in. destruct (runs_again db s.2); [|done]. by apply lookup_insert_ne.
Qed.

Lemma run_reset_steps jobs db l m : NoDup l.*1 → (∀ s, s ∈ l → m !! s.1 = Some s.2) →
  (∀ s, s ∈ l → sr_status s.2 = Dispatched → jobs !! sr_step s.2 = Some (job_status_of db s.2)) →
  run_prog (for_each (reset_step jobs) l) (with_steps m db) =
    (inr (reset_answer db <$> l), with_steps (foldl (reset_in db) m l) db).
Proof.
  revert m. induction l as [|s l IH]; intros m Hnd Hm Hj; [done|]. cbn [for_each]. cbn in Hnd. apply NoDup_cons in Hnd as [Hs Hnd].
  rewrite run_bind, run_reset_step; [|by apply Hm; left|by apply Hj; left]. rewrite run_bind, IH; [done|done| |intros; apply Hj; [by right|done]].
  intros s' Hs'. unfold reset_in. destruct (runs_again db s.2); [|apply Hm; by right]. rewrite lookup_insert_ne; [apply Hm; by right|].
  intros E. apply Hs. rewrite E. by apply list_elem_of_fmap_2.
Qed.

Lemma reset_in_lookup db l m id r : NoDup l.*1 → (id, r) ∈ l → m !! id = Some r →
  foldl (reset_in db) m l !! id = Some (if runs_again db r then reset_row r else r).
Proof.
  revert m. induction l as [|s l IH]; intros m Hnd Hs E; [by apply not_elem_of_nil in Hs|].
  cbn in Hnd |- *. apply NoDup_cons in Hnd as [Hs' Hnd]. apply elem_of_cons in Hs as [<-|Hs].
  - rewrite reset_in_other by done. unfold reset_in. cbn. destruct (runs_again db r); [apply lookup_insert_eq|done].
  - apply IH; [done|done|]. unfold reset_in. destruct (runs_again db s.2); [|done]. rewrite lookup_insert_ne; [done|].
    intros E'. apply Hs'. rewrite E'. by apply (list_elem_of_fmap_2 fst) in Hs.
Qed.

Lemma scan_steps_rows `{!ScanOrderLaws} m : NoDup (scan_steps m).*1 ∧ ∀ s : Step, s ∈ scan_steps m ↔ m !! s.1 = Some s.2.
Proof.
  pose proof (scan_steps_perm m) as Hp. split; [rewrite Hp; apply NoDup_fst_map_to_list|].
  intros [i r]. rewrite Hp. apply elem_of_map_to_list.
Qed.

(** Over all rows of the database, whatever their order. *)
Lemma reset_in_all `{!ScanOrderLaws} db : foldl (reset_in db) (db_steps db) (scan_steps (db_steps db)) = retried_steps db.
Proof.
  destruct (scan_steps_rows (db_steps db)) as [Hnd Hin]. apply map_eq. intros id. unfold retried_steps. rewrite lookup_fmap.
  destruct (db_steps db !! id) as [r|] eqn:E; cbn.
  - apply reset_in_lookup; [done|by apply Hin|done].
  - rewrite reset_in_other; [done|]. intros Hid. apply list_elem_of_fmap in Hid as ([i r] & -> & Hs). apply Hin in Hs. cbn in *. congruence.
Qed.

Lemma answered_names db (b : bool) l :
  omap (λ o : option (bool * string), match o with Some (b', n) => if Bool.eqb b b' then Some n else None | None => None end)
    (reset_answer db <$> l) =
  sr_step <$> List.filter (if b then runs_again db else kept_step db) (l.*2).
Proof.
  induction l as [|s l IH]; [done|].
  assert (runs_again db s.2 = true → kept_step db s.2 = false) as Hx.
  { unfold runs_again, kept_step, landable. destruct (sr_status s.2); cbn; try done. destruct (no_job s.2); cbn; [done|]. by destruct (bool_decide (job_status_of db s.2 = _)). }
  destruct b; cbn; unfold reset_answer at 1; destruct (runs_again db s.2), (kept_step db s.2); cbn;
    first [exact IH | f_equal; exact IH | by specialize (Hx eq_refl)].
Qed.
End passes.

(** ** The operation *)

Section retry.
Context `{Sha256} `{ScanOrder} `{!ScanOrderLaws} (run_key : string).

(** No two step rows are of the same step. *)
Definition names_unique (db : Db) : Prop :=
  ∀ id1 id2 r1 r2, db_steps db !! id1 = Some r1 → db_steps db !! id2 = Some r2 → sr_step r1 = sr_step r2 → id1 = id2.

Lemma names_unique_nodup db : names_unique db → NoDup ((λ s : Step, sr_step s.2) <$> scan_steps (db_steps db)).
Proof.
  intros Hu. destruct (scan_steps_rows (db_steps db)) as [Hnd Hin]. apply NoDup_fmap_2_strong; [|exact (NoDup_fmap_1 fst _ Hnd)].
  intros [i1 r1] [i2 r2] E1 E2 E. apply Hin in E1, E2. cbn in *. pose proof (Hu _ _ _ _ E1 E2 E) as ->. congruence.
Qed.

(** Passes A and B leave the rows of [retried_steps]. *)
Lemma run_passes db : names_unique db →
  run_prog (for_each (reset_step (foldl (see_job db) ∅ (scan_steps (db_steps db)))) (scan_steps (db_steps db))) db =
    (inr (reset_answer db <$> scan_steps (db_steps db)), with_steps (retried_steps db) db).
Proof.
  intros Hu. destruct (scan_steps_rows (db_steps db)) as [Hnd Hin]. rewrite <- reset_in_all.
  pose proof (run_reset_steps (foldl (see_job db) ∅ (scan_steps (db_steps db))) db (scan_steps (db_steps db)) (db_steps db)) as Hr.
  rewrite with_steps_same in Hr. apply Hr; [done|intros s; apply Hin|].
  intros s Hs Hst. by apply see_job_own; [apply names_unique_nodup| |].
Qed.

Lemma landable_seen db : names_unique db →
  existsb (λ s : Step, bool_decide (sr_status s.2 = Dispatched) &&
    job_succeeded (foldl (see_job db) ∅ (scan_steps (db_steps db))) s) (scan_steps (db_steps db)) =
  existsb (landable db) (scan_steps (db_steps db)).*2.
Proof.
  intros Hu. pose proof (names_unique_nodup _ Hu) as Hn.
  assert (∀ s, s ∈ scan_steps (db_steps db) → sr_status s.2 = Dispatched →
    foldl (see_job db) ∅ (scan_steps (db_steps db)) !! sr_step s.2 = Some (job_status_of db s.2)) as Hown.
  { intros s Hs Hst. by apply see_job_own. }
  revert Hown. generalize (foldl (see_job db) ∅ (scan_steps (db_steps db))). intros jobs. clear Hn.
  induction (scan_steps (db_steps db)) as [|s l IH]; intros Hown; [done|]. cbn.
  rewrite IH by (intros; apply Hown; [by right|done]). f_equal. unfold landable, job_succeeded.
  destruct (decide (sr_status s.2 = Dispatched)) as [Hst|Hst]; [|by rewrite bool_decide_false].
  rewrite (Hown s ltac:(by left) Hst). f_equal. apply bool_decide_ext. split; [by intros [= ->]|by intros ->].
Qed.

Lemma run_reopen run db reset kept : db_run db = Some run → retryable run = true →
  run_prog (reopen_run run_key run reset kept) db =
    (inr (inr (MkRetryOutcome (wr_retry_count run + 1) reset kept)),
     (run_prog (advance_workflow run_key)
        (MkDb (Some (reopened run)) (db_steps db) (db_jobs db) (reopened_schedule run (db_schedule db)))).2).
Proof.
  intros E Hr. unfold reopen_run, query. cbn [bind run_prog]. cbn [exec]. unfold update_run. rewrite E.
  unfold retryable in Hr. rewrite Hr. cbn [run_prog bind]. rewrite run_bind.
  match goal with |- context [run_prog _ ?d] => set (db1 := d) end.
  assert (db1 = MkDb (Some (reopened run)) (db_steps db) (db_jobs db) (db_schedule db)) as E1.
  { unfold db1, set_run. by rewrite E. }
  set (db2 := MkDb (Some (reopened run)) (db_steps db) (db_jobs db) (reopened_schedule run (db_schedule db))).
  assert (run_prog (match wr_schedule_name run with Some _ => attempt REOPEN_SCHEDULE_RUN;; Ret tt | None => Ret tt end) db1
    = (inr tt, db2)) as ->.
  { rewrite E1. unfold db2, reopened_schedule. destruct (wr_schedule_name run) as [name|]; [|done]. cbn. unfold update_schedule. cbn.
    destruct (db_schedule db) as [row|]; cbn; [|done]. by do 2 case_bool_decide. }
  rewrite run_bind. destruct (returns_advance run_key db2) as ([] & db3 & ->). done.
Qed.

(** What becomes of a step row when its run is retried. *)
Lemma retried_row db run id r : db_steps db !! id = Some r → still_running db r = None →
  (db_steps (retried run db) !! id = Some (reset_row r) ∧
     (sr_status r = Failed ∨ sr_status r = Skipped ∨
      sr_status r = Dispatched ∧ sr_job_id r ≠ None ∧ (job_status_of db r = None ∨ job_status_of db r = Some JobFailed))) ∨
  (db_steps (retried run db) !! id = Some r ∧
     (sr_status r ∈ [Success; Blocked; Ready] ∨
      sr_status r = Dispatched ∧ (sr_job_id r = None ∨ job_status_of db r = Some JobSuccess))).
Proof.
  intros E Hr. cbn. unfold retried_steps. rewrite lookup_fmap, E. cbn. unfold runs_again, still_running, landable, no_job in *.
  destruct (sr_status r) eqn:Est; try (right; split; [done|left; set_solver]); try (left; split; [done|auto]).
  destruct (sr_job_id r) as [job_id|]; cbn; [|by right; auto]. rewrite (bool_decide_true (Dispatched = _)) by done. cbn.
  destruct (job_status_of db r) as [[]|] eqn:Ej; cbn; try done; [right|left|left]; (split; [done|]); auto 8.
Qed.

Lemma not_running db : refusal db = None → ∀ id r, db_steps db !! id = Some r → still_running db r = None.
Proof.
  unfold refusal. destruct (db_run db) as [run|]; [|done]. destruct (negb _); [done|]. destruct (frozen_dag run); [|done].
  destruct (omap (still_running db) _) as [|e l] eqn:Eo; [|done]. intros _ id r E.
  destruct (scan_steps_rows (db_steps db)) as [_ Hin]. destruct (still_running db r) as [e|] eqn:Er; [|done].
  assert (e ∈ omap (still_running db) (scan_steps (db_steps db)).*2) as He.
  { apply list_elem_of_omap. exists r. split; [|done]. apply list_elem_of_fmap. exists (id, r). split; [done|by apply Hin]. }
  rewrite Eo in He. by apply not_elem_of_nil in He.
Qed.

Lemma no_work l db : existsb (λ r, runs_again db r || landable db r) l = 
  match sr_step <$> List.filter (runs_again db) l with [] => existsb (landable db) l | _ => true end.
Proof.
  induction l as [|r l IH]; [done|]. cbn. destruct (runs_again db r); [done|]. cbn. rewrite IH.
  destruct (List.filter (runs_again db) l); [done|]. cbn. by rewrite orb_true_r.
Qed.

Lemma nothing_reset db : existsb (λ r, runs_again db r || landable db r) (scan_steps (db_steps db)).*2 = false →
  with_steps (retried_steps db) db = db.
Proof.
  assert (∀ l m, existsb (λ r, runs_again db r || landable db r) l.*2 = false → foldl (reset_in db) m l = m) as Hl.
  { induction l as [|s l IH]; intros m Hn; [done|]. cbn in *. apply orb_false_iff in Hn as [[Hs _]%orb_false_iff Hn].
    unfold reset_in at 2. rewrite Hs. by apply IH. }
  intros Hn. rewrite <- reset_in_all, Hl by done. apply with_steps_same.
Qed.

(** The whole operation. *)
Lemma run_retry db : names_unique db →
  run_prog (retry_workflow run_key) db =
  match refusal db, db_run db with
  | None, Some run => (inr (inr (retry_outcome run db)), (run_prog (advance_workflow run_key) (retried run db)).2)
  | Some e, _ => (inr (inl e), db)
  | None, None => (inr (inl NotFound), db)
  end.
Proof.
  intros Hu. unfold retry_workflow, load_workflow_run, load_step_rows, refusal. rewrite run_bind. cbn [run_prog query exec].
  destruct (db_run db) as [run|] eqn:Erun; [|done]. destruct (retryable run) eqn:Ert; cbn [negb]; [|done].
  destruct (frozen_dag run) as [dag|]; [|done]. rewrite run_bind. cbn [run_prog query exec].
  rewrite run_bind, run_settled_jobs. destruct (head (omap _ _)) as [e|]; [done|].
  rewrite run_bind, run_passes by done. cbn beta zeta. rewrite !answered_names, landable_seen by done.
  rewrite no_work. destruct (sr_step <$> List.filter (runs_again db) _) as [|n reset] eqn:Ereset.
  - destruct (existsb (landable db) _) eqn:El.
    + rewrite (run_reopen run) by done. unfold retry_outcome. by rewrite Ereset.
    + cbn. rewrite nothing_reset; [done|]. by rewrite no_work, Ereset.
  - rewrite (run_reopen run) by done. unfold retry_outcome. by rewrite Ereset.
Qed.

(** C39: A retry is refused for exactly the reasons described and
    then changes nothing; otherwise it returns, and leaves what advancing the
    reopened run leaves. In that run a step is back at the start exactly when
    it failed, was skipped, or its job failed or is gone; every other row is
    as it was, and no step's job is still running. *)
Theorem retry_exact db (Hu : names_unique db) :
  (∀ e, refusal db = Some e → run_prog (retry_workflow run_key) db = (inr (inl e), db)) ∧
  (refusal db = None → ∃ run, db_run db = Some run ∧
     run_prog (retry_workflow run_key) db =
       (inr (inr (retry_outcome run db)), (run_prog (advance_workflow run_key) (retried run db)).2) ∧
     ∀ id r, db_steps db !! id = Some r →
       (db_steps (retried run db) !! id = Some (reset_row r) ∧
          (sr_status r = Failed ∨ sr_status r = Skipped ∨
           sr_status r = Dispatched ∧ sr_job_id r ≠ None ∧ (job_status_of db r = None ∨ job_status_of db r = Some JobFailed))) ∨
       (db_steps (retried run db) !! id = Some r ∧
          (sr_status r ∈ [Success; Blocked; Ready] ∨
           sr_status r = Dispatched ∧ (sr_job_id r = None ∨ job_status_of db r = Some JobSuccess)))).
Proof.
  rewrite run_retry by done. split; [by intros e ->|]. intros Hn. rewrite Hn.
  destruct (db_run db) as [run|] eqn:Erun; [|unfold refusal in Hn; by rewrite Erun in Hn].
  exists run. split; [done|]. split; [done|]. intros id r E. eapply retried_row; [done|by eapply not_running].
Qed.
End retry.

(** ** A failed run of two steps *)

#[local] Existing Instance toy_sha.
#[local] Existing Instance sample_scan.
#[local] Existing Instance sample_scan_laws.

Definition failed_row : StepRow := MkStepRow "load" Failed (Some "job:wf_report_1_load") None 1.
Definition success_row : StepRow := MkStepRow "extract" Success (Some "job:wf_report_1_extract") (Some (VString "rows")) 0.
Definition failed_run : WorkflowRun := run_with_status RunFailed sample_run.

Definition failed_db : Db :=
  MkDb (Some failed_run) {["report_1_extract" := success_row; "report_1_load" := failed_row]}
    {[extract_job := MkJobRow JobSuccess (Some (VString "rows")) VNull; load_job_ref := MkJobRow JobFailed None VNull]}
    (Some (MkScheduleRun RunFailed (Some "report") None)).

Lemma failed_db_names : names_unique failed_db.
Proof.
  assert (∀ id r, db_steps failed_db !! id = Some r → id = String.append "report_1_" (sr_step r)) as Hid.
  { intros id r. cbn. intros [[<- <-]|[_ [<- <-]%lookup_singleton_Some]]%lookup_insert_Some; reflexivity. }
  intros id1 id2 r1 r2 E1%Hid E2%Hid E. congruence.
Qed.

Lemma retry_exact_witness : refusal failed_db = None ∧ ∃ db',
  run_prog (retry_workflow "report_1") failed_db = (inr (inr (MkRetryOutcome 1 ["load"] ["extract"])), db') ∧
  db_steps (retried failed_run failed_db) !! "report_1_extract" = Some success_row.
Proof.
  assert (refusal failed_db = None) as Hn by (vm_compute; reflexivity). split; [exact Hn|].
  destruct (proj2 (retry_exact "report_1" failed_db failed_db_names) Hn) as (run & Erun & Eretry & Hrows).
  assert (run = failed_run) as -> by (vm_compute in Erun; vm_compute; congruence).
  assert (retry_outcome failed_run failed_db = MkRetryOutcome 1 ["load"] ["extract"]) as Eo by (vm_compute; reflexivity).
  rewrite Eo in Eretry. eexists. split; [exact Eretry|].
  destruct (Hrows "report_1_extract" success_row ltac:(vm_compute; reflexivity)) as [(_ & Hs)|[E _]]; [|exact E].
  exfalso. vm_compute in Hs. destruct Hs as [?|[?|[? _]]]; congruence.
Defined.
