(* ===== verification/WorkflowSpawn.v ===== *)
(** * Spawning a run

    [spawn_workflow] and [rerun_workflow] write exactly the rows from which
    the theorems on interleaved passes start; and what becomes of a run whose
    rows were not all written. *)

From S2P Require Import Prelude Platform Value Dag DagFacts Ids RunStore Workflow WorkflowLogic WorkflowInv.
From S2P Require Import WorkflowRuns WorkflowLive WorkflowRetry.
#[local] Open Scope prog_scope.

(** ** The step rows *)

Section rows.
Context `{Sha256} `{ScanOrder} (key : string).

Definition key_of (s : StepDef) : string := ref_key (step_run key (sd_name s)).

#[local] Arguments key_of : simpl never.

Definition add_row (m : gmap string StepRow) (s : StepDef) : gmap string StepRow := <[key_of s := blocked_row (sd_name s)]> m.

Lemma add_rows_lookup l m id r : NoDup (key_of <$> l) → (∀ s, s ∈ l → m !! key_of s = None) →
  foldl add_row m l !! id = Some r ↔ m !! id = Some r ∨ ∃ s, s ∈ l ∧ id = key_of s ∧ r = blocked_row (sd_name s).
Proof.
  revert m. induction l as [|s l IH]; intros m Hnd Hm; cbn.
  { split; [by left|]. intros [?|(s & Hs & _)]; [done|by apply not_elem_of_nil in Hs]. }
  rewrite fmap_cons in Hnd. apply NoDup_cons in Hnd as [Hs Hnd].
  assert (∀ s', s' ∈ l → key_of s ≠ key_of s') as Hne by (intros s' Hs' E; apply Hs; rewrite E; by apply list_elem_of_fmap_2).
  rewrite IH; [|done|intros s' Hs'; unfold add_row; rewrite lookup_insert_ne by (by apply Hne); apply Hm; by right].
  unfold add_row. rewrite lookup_insert_Some. split.
  - intros [[[<- <-]|[_ E]]|(s' & Hs' & -> & ->)]; [right; exists s; split; [by left|done]|by left|right; exists s'; split; [by right|done]].
  - intros [E|(s' & [-> |Hs']%elem_of_cons & -> & ->)]; [left; right|left; by left|right; by exists s'].
    split; [|done]. intros E'. by rewrite <- E', Hm in E by (by left).
Qed.

Lemma run_create_step_rows dag db : NoDup (key_of <$> WorkflowDag.steps dag) →
  (∀ s, s ∈ WorkflowDag.steps dag → db_steps db !! key_of s = None) →
  run_prog (create_step_rows key dag) db = (inr tt, with_steps (foldl add_row (db_steps db) (WorkflowDag.steps dag)) db).
Proof.
  intros Hnd Hm. unfold create_step_rows. rewrite run_bind. rewrite <- (with_steps_same db) at 1. revert Hnd Hm.
  generalize (db_steps db). induction (WorkflowDag.steps dag) as [|s l IH]; intros m Hnd Hm; [done|].
  rewrite fmap_cons in Hnd. apply NoDup_cons in Hnd as [Hs Hnd]. cbn [for_each foldl]. rewrite run_bind.
  assert (run_prog (create_if_absent (CREATE_STEP_RUN (ref_key (step_run key (sd_name s))) (sd_name s))) (with_steps m db)
    = (inr true, with_steps (add_row m s) db)) as ->.
  { unfold create_if_absent. cbn [run_prog exec]. change (db_steps (with_steps m db)) with m. fold (key_of s). by rewrite Hm by (by left). }
  rewrite run_bind. specialize (IH (add_row m s) Hnd).
  destruct (run_prog (for_each _ l) (with_steps (add_row m s) db)) as [[e|bs] db'] eqn:E; apply IH;
    (intros s' Hs'; unfold add_row; rewrite lookup_insert_ne; [apply Hm; by right|]; intros E'; apply Hs; rewrite E'; by apply list_elem_of_fmap_2).
Qed.
End rows.

(** ** Spawning and rerunning *)

Lemma run_catch `{ScanOrder} {A} (p : Prog A) db a db' : run_prog p db = (inr a, db') → run_prog (catch p) db = (inr (inr a), db').
Proof.
  revert db. induction p as [x|e|B q k IH]; intros db; cbn; [by intros [= <- <-]|done|].
  destruct (exec q db) as [e|[c db1]]; apply IH.
Qed.

Section spawn.
Context `{Sha256} `{ScanOrder} (key : string) (def : WorkflowDef) (dag : WorkflowDag).
Context (Hdag : WorkflowDag.validate def = inr dag).
Context (Hkeys : ∀ s s', s ∈ wd_steps def → s' ∈ wd_steps def → key_of key s = key_of key s' → s = s').

Lemma dag_step_iff s : s ∈ WorkflowDag.steps dag ↔ s ∈ wd_steps def.
Proof.
  destruct (validate_sound def dag Hdag) as [Hs Ho _]. unfold WorkflowDag.steps. rewrite list_elem_of_omap. split.
  - by intros (n & _ & [? _]%Hs).
  - intros Hin. assert (wg_steps dag !! sd_name s = Some s) as E by (by apply Hs). exists (sd_name s). split; [|done].
    apply (os_all _ _ Ho). by eexists.
Qed.

Lemma dag_keys_once : NoDup (key_of key <$> WorkflowDag.steps dag).
Proof.
  destruct (validate_sound def dag Hdag) as [Hs [Hnd _ _] _]. pose proof dag_step_iff as Hin.
  apply NoDup_fmap_2_strong; [intros s s' ?%Hin ?%Hin; by apply Hkeys|].
  unfold WorkflowDag.steps in *. clear Hin. induction Hnd as [|n l Hn Hnd IH]; [constructor|]. cbn.
  destruct (wg_steps dag !! n) as [s|] eqn:E; [|done]. constructor; [|done]. apply Hs in E as [_ <-].
  intros (n' & Hn' & [_ E]%Hs)%list_elem_of_omap. apply Hn. by rewrite E.
Qed.

(** The rows that are there when the run is first advanced. *)
Definition skeleton (run : WorkflowRun) (jobs : gmap Ref JobRow) (schedule : option ScheduleRun) : Db :=
  MkDb (Some run) (foldl (add_row key) ∅ (WorkflowDag.steps dag)) jobs schedule.

(** They are those the theorems on interleaved passes start from. *)
Lemma skeleton_spawned run jobs schedule stop (S := MkSetting key run def stop) :
  wr_status run = RunRunning → wr_kill_requested run = false → (∀ s j, is_step s → job_of s = Some j → jobs !! j = None) →
  spawned (skeleton run jobs schedule).
Proof.
  intros Hr Hk Hj. split; [done|done| |done]. intros id r. cbn. rewrite add_rows_lookup; [|apply dag_keys_once|intros; apply lookup_empty].
  rewrite lookup_empty. split.
  - intros [?|(s & Hs & -> & ->)]; [done|]. exists s. split; [by apply dag_step_iff|done].
  - intros (s & Hs & -> & ->). right. exists s. split; [by apply dag_step_iff|done].
Qed.

Lemma run_skeleton db run schedule : db_steps db = ∅ →
  run_prog (create_step_rows key dag) (MkDb (Some run) (db_steps db) (db_jobs db) schedule) = (inr tt, skeleton run (db_jobs db) schedule).
Proof.
  intros Es. rewrite run_create_step_rows; [|apply dag_keys_once|intros; cbn; rewrite Es; apply lookup_empty].
  unfold skeleton, with_steps, set_steps. cbn. by rewrite Es.
Qed.

Lemma then_advance {A} (a : A) db :
  run_prog (advance_workflow key;; Ret a) db = (inr a, (run_prog (advance_workflow key) db).2).
Proof. rewrite run_bind. by destruct (returns_advance key db) as ([] & db' & ->). Qed.

(** The schedule run of a fire. *)
Definition fired (spec : ScheduleSpec) : ScheduleRun :=
  MkScheduleRun RunRunning (Some (ss_name spec))
    (if bool_decide (ss_history_mode spec = Some HISTORY_FAILURES_ONLY) then Some HISTORY_FAILURES_ONLY else None).

(** A fire that produced nothing yet: the rows are written, and the run is advanced. *)
Lemma run_spawn spec item db : ss_workflow spec = Some def → db_schedule db = None → db_run db = None → db_steps db = ∅ →
  run_prog (spawn_workflow key spec item) db =
    (inr (inr true), (run_prog (advance_workflow key) (skeleton (workflow_content spec def item) (db_jobs db) (Some (fired spec)))).2).
Proof.
  intros Ew Esc Er Es. unfold spawn_workflow. rewrite Ew, Hdag. rewrite run_bind.
  unfold create_schedule_run at 1, create_if_absent at 1. cbn [run_prog exec]. rewrite Esc. cbn [run_prog negb].
  rewrite run_bind. erewrite run_catch; cycle 1.
  { rewrite run_bind. unfold create_if_absent. cbn [run_prog exec set_schedule db_run]. rewrite Er. cbn [run_prog].
    exact (run_skeleton db (workflow_content spec def item) _ Es). }
  rewrite run_bind. cbn [run_prog query exec]. apply (then_advance (inr true)).
Qed.

(** A fire that was already recorded produces nothing. *)
Lemma run_spawn_again spec item db row : ss_workflow spec = Some def → db_schedule db = Some row →
  run_prog (spawn_workflow key spec item) db = (inr (inr false), db).
Proof.
  intros Ew Esc. unfold spawn_workflow. rewrite Ew, Hdag. rewrite run_bind.
  unfold create_schedule_run at 1, create_if_absent at 1. cbn [run_prog exec]. by rewrite Esc.
Qed.

Lemma run_rerun source db : wr_dag source = Some def → db_run db = None → db_steps db = ∅ →
  run_prog (rerun_workflow key (Some source)) db =
    (inr (inr tt), (run_prog (advance_workflow key) (skeleton (rerun_content source) (db_jobs db) (db_schedule db))).2).
Proof.
  intros Ed Er Es. unfold rerun_workflow.
  assert (frozen_dag source = Some dag) as -> by (unfold frozen_dag; rewrite Ed; cbn; by rewrite Hdag). rewrite run_bind.
  unfold create_if_absent at 1. cbn [run_prog exec]. rewrite Er. cbn [run_prog negb].
  rewrite run_bind, run_skeleton by done. apply (then_advance (inr tt)).
Qed.
End spawn.

(** ** A run whose rows were not all written *)

#[local] Existing Instance toy_sha.
#[local] Existing Instance sample_scan.

Definition empty_db : Db := MkDb None ∅ ∅ None.

Definition sample_spec : ScheduleSpec := MkScheduleSpec "report" (Some (two_steps Halt)) (Some "job") None.

(** The pass that spawns it stops after three statements: nothing has failed,
    no row says so, and the second step has no row. *)
Definition cut_short : Db * list (Prog unit) :=
  exec_at 0 (exec_at 0 (exec_at 0 (empty_db, [spawn_workflow "report_1" sample_spec None;; Ret tt]))).

Definition advance_to_end (c : Db * list (Prog unit)) : Db * list (Prog unit) :=
  foldl (@run_event _ (sample false) _) c
    [EvStart OpAdvance; EvRun 0 20; EvJob extract_job JobSuccess (Some (VString "rows")); EvStart OpAdvance; EvRun 0 20].

(** Advancing what there is ends the run in [success], and its schedule run
    too, although one of its steps never ran. *)
Lemma cut_short_succeeds :
  rtc (cstep "report_1" (@allowed (sample false))) (empty_db, [spawn_workflow "report_1" sample_spec None;; Ret tt]) (advance_to_end cut_short) ∧
  (wr_status <$> db_run (advance_to_end cut_short).1) = Some RunSuccess ∧
  (sc_status <$> db_schedule (advance_to_end cut_short).1) = Some RunSuccess ∧
  status_in (advance_to_end cut_short).1 "report_1_extract" = Some Success ∧
  status_in (advance_to_end cut_short).1 "report_1_load" = None.
Proof.
  split; [|vm_compute; done].
  do 3 (etrans; [exact (@exec_at_steps _ (sample false) _ 0 _)|]).
  unfold advance_to_end. fold cut_short. generalize cut_short.
  match goal with |- context [foldl _ _ ?l] => generalize l end. intros l.
  induction l as [|e l IH]; intros c; [done|]. cbn. etrans; [exact (@run_event_steps _ (sample false) _ c e)|apply IH].
Qed.
