(* ===== verification/Maintain.v ===== *)
(** * One step of a maintained graph

    The contract of the nine operators, taken together; what a change of the
    store must satisfy for them; and the two loops of the circuit over a whole
    graph: priming computes the plan's answer, a delta pass computes exactly
    the difference between the answers before and after. *)

From S2P Require Import Prelude Platform Float64 Value ValueRef ZSet SortKey Index Store StoreFacts Operator Plan.
From S2P Require Import Filter LinearOps Join Witness WitnessFacts TopK Window Graph GraphFacts Exec Denote Support.
Local Open Scope Z_scope.

Section contract.
Context `{HashingLaws} `{OrdSetLaws}.

(** The contract behind the box; a scan has none of its own, its delta comes
    from the store. *)
Definition any_tracks (any : AnyOperator) (store : Store) (ctx : option Sp00kyValue) (inputs : list ZSet) : Prop :=
  match any with
  | OScan _ | OIndexedScan _ | OIndexWindow _ | OKeyScan _ => False
  | OFilter op => op_tracks op store ctx inputs
  | OJoin op => op_tracks op store ctx inputs
  | OSemiJoin op => op_tracks op store ctx inputs
  | OAntiJoin op => op_tracks op store ctx inputs
  | OUnion op => op_tracks op store ctx inputs
  | ODistinct op => op_tracks op store ctx inputs
  | OMap op => op_tracks op store ctx inputs
  | OTopK op => op_tracks op store ctx inputs
  end.

Definition any_stable (any : AnyOperator) (store store' : Store) (ctx : option Sp00kyValue)
    (inputs deltas : list ZSet) : Prop :=
  match any with
  | OScan _ | OIndexedScan _ | OIndexWindow _ | OKeyScan _ => False
  | OFilter op => op_stable op store store' ctx inputs deltas
  | OJoin op => op_stable op store store' ctx inputs deltas
  | OSemiJoin op => op_stable op store store' ctx inputs deltas
  | OAntiJoin op => op_stable op store store' ctx inputs deltas
  | OUnion op => op_stable op store store' ctx inputs deltas
  | ODistinct op => op_stable op store store' ctx inputs deltas
  | OMap op => op_stable op store store' ctx inputs deltas
  | OTopK op => op_stable op store store' ctx inputs deltas
  end.

(** The law of one constructor from the law of its operator. *)
Lemma lift_step {Op : Type} {OO : Operator Op} {OI : Incremental Op} (f : Op → AnyOperator) op store store' ctx inputs deltas :
  (∀ x, snapshot (f x) = snapshot x) → (∀ x, any_tracks (f x) = op_tracks x) →
  step (f op) deltas store' ctx = box f (step op deltas store' ctx) →
  any_stable (f op) = op_stable op →
  any_tracks (f op) store ctx inputs →
  Forall zset_wf inputs → Forall zset_wf deltas → length inputs = arity op → length deltas = length inputs →
  any_stable (f op) store store' ctx inputs deltas →
  let '(out, op') := step (f op) deltas store' ctx in
  let inputs' := zip_with ZSet.add inputs deltas in
  zset_wf out ∧ snapshot op' inputs' store' ctx = ZSet.add (snapshot (f op) inputs store ctx) out ∧
  any_tracks op' store' ctx inputs'.
Proof.
  intros Hsnap Htracks Hstep Hstable Ht Hi Hd Hl Hl' Hs. rewrite Htracks in Ht. rewrite Hstable in Hs.
  pose proof (incremental_step op store store' ctx inputs deltas Ht Hi Hd Hl Hl' Hs) as HS.
  rewrite Hstep, Hsnap. unfold box. destruct (step op deltas store' ctx) as [out op']. cbn [fst snd].
  by rewrite Hsnap, Htracks.
Qed.

#[global] Program Instance any_incremental : Incremental AnyOperator := {|
  op_tracks := any_tracks;
  op_stable := any_stable;
|}.
Next Obligation.
  intros any store store' ctx inputs deltas Ht Hi Hd Hl Hl' Hs.
  destruct any as [op|op|op|op|op|op|op|op|op|op|op|op]; [done| | | | | | | | |done|done|done].
  - by apply (lift_step OFilter).
  - by apply (lift_step OJoin).
  - by apply (lift_step OSemiJoin).
  - by apply (lift_step OAntiJoin).
  - by apply (lift_step OUnion).
  - by apply (lift_step ODistinct).
  - by apply (lift_step OMap).
  - by apply (lift_step OTopK).
Qed.
End contract.

(** ** Priming *)

Section maintain.
Context `{HashingLaws} `{OrdSetLaws}.
Implicit Types (store : Store) (params : option Sp00kyValue) (plan : OperatorPlan) (nodes : list Node).

Definition answers plan store params : list ZSet := map (λ p, denote p store params) (children plan).

(** No content update is announced and not yet read. *)
Definition quiet (op : AnyOperator) : Prop :=
  match op with
  | OSemiJoin op => content_updates (semi_state op) = ∅
  | OAntiJoin op => content_updates (anti_state op) = ∅
  | _ => True
  end.

Lemma quiet_fresh plan : quiet (fresh plan).
Proof. by destruct plan. Qed.

Lemma quiet_witness st deltas store on anti : content_updates (WitnessState.step st deltas store on anti).2 = ∅.
Proof. unfold WitnessState.step. repeat (case_match; try done). Qed.

Lemma quiet_step op deltas store params : quiet op → quiet (step op deltas store params).2.
Proof.
  destruct op as [| | |op|op| | | | | | |]; try done; intros _; cbn.
  - unfold SemiJoinOp.step. pose proof (quiet_witness (semi_state op) deltas store (semi_on op) false) as Hw.
    by destruct (WitnessState.step _ _ _ _ _).
  - unfold AntiJoinOp.step. pose proof (quiet_witness (anti_state op) deltas store (anti_on op) true) as Hw.
    by destruct (WitnessState.step _ _ _ _ _).
Qed.

(** An operator of [plan]'s root whose state is that of [store]. *)
Definition tracked store params plan (op : AnyOperator) : Prop :=
  implements plan op ∧ quiet op ∧
  match plan with OpScan _ => True | _ => any_tracks op store params (answers plan store params) end.

Lemma maintainable_children plan c : maintainable plan = true → c ∈ children plan → maintainable c = true.
Proof. destruct plan; cbn; intros Hm Hc; split_andb; set_solver. Qed.

Lemma answers_wf store params plan : store_ok store → maintainable plan = true →
  Forall zset_wf (answers plan store params).
Proof.
  intros Hs Hm. apply Forall_forall. intros z (c & -> & Hc)%list_elem_of_fmap.
  apply (gd_wf store c). apply denote_good; [done|]. by eapply maintainable_children.
Qed.

Lemma add_empty_l z : zset_wf z → ZSet.add ∅ z = z.
Proof.
  intros Hz. apply zset_ext; [apply add_wf, zset_empty_wf|done|]. intros k.
  rewrite weight_add, weight_empty by apply zset_empty_wf. apply wrap_i64_id, weight_range, Hz.
Qed.

Lemma semi_nothing on store right_ : SemiJoinOp.semi_join ∅ right_ on store = ∅.
Proof. done. Qed.

Lemma anti_nothing on store right_ : AntiJoinOp.anti_join ∅ right_ on store = ∅.
Proof. done. Qed.

Abbreviation nothing plan := (map (λ _, ∅ : ZSet) (children plan)).

Lemma fresh_tracks store params plan : maintainable plan = true → children plan ≠ [] →
  any_tracks (fresh plan) store params (nothing plan).
Proof.
  destruct plan; try done; intros Hm _; cbn.
  - apply ws_inv_empty.
  - apply ws_inv_empty.
  - cbn [maintainable] in Hm. split_andb. unfold input, TopKOp.needs_rebuild, topk_params_ok. cbn.
    split_and!; [apply topk_new_inv|lia..|done].
Qed.

Lemma fresh_nothing store params plan : maintainable plan = true → children plan ≠ [] →
  snapshot (fresh plan) (nothing plan) store params = ∅.
Proof.
  destruct plan; try done; intros Hm _; cbn -[TopKOp.snapshot].
  cbn [maintainable] in Hm. split_andb. unfold TopKOp.snapshot, input. cbn. rewrite map_to_list_empty. cbn.
  rewrite ztake_spec, zdrop_spec by lia. by rewrite drop_nil, take_nil.
Qed.

Lemma fresh_stable store params plan : store_ok store → maintainable plan = true → children plan ≠ [] →
  any_stable (fresh plan) store store params (nothing plan) (answers plan store params).
Proof.
  intros Hs Hm Hc. pose proof (answers_wf store params plan Hs Hm) as Hwf.
  assert (∀ c, c ∈ children plan → Z.of_nat (size (ZSet.add ∅ (denote c store params))) < two63) as Hsize.
  { intros c Hin. destruct (denote_good store c params Hs) as [Hw Hsup _]; [by eapply maintainable_children|].
    rewrite add_empty_l by done. by apply (supported_size store). }
  destruct plan; try done; cbn.
  - by split_and!; [..|apply Hsize; set_solver].
  - by split_and!; [..|apply Hsize; set_solver].
  - apply Forall_cons_1 in Hwf as [Hwf _].
    split_and!; [by intros k w _ _; apply sort_key_safe|done| |].
    + intros k w Hk. unfold input in *. cbn in *. rewrite weight_empty. unfold i64_add.
      rewrite Z.add_0_l, wrap_i64_id; [done|]. by apply (Hwf k w).
    + cbn [maintainable] in Hm. split_andb. apply (primed_no_rebuild limit start order_by _ store params); [lia..|].
      intros k w _ _. by apply sort_key_safe.
Qed.

(** A fresh operator stepped by its whole input answers its plan. *)
Lemma prime_node store params plan : store_ok store → maintainable plan = true → children plan ≠ [] →
  (step (fresh plan) (answers plan store params) store params).1 = denote plan store params ∧
  tracked store params plan (step (fresh plan) (answers plan store params) store params).2.
Proof.
  intros Hs Hm Hc.
  pose proof (answers_wf store params plan Hs Hm) as Hwf.
  assert (zip_with ZSet.add (nothing plan) (answers plan store params) = answers plan store params) as Hzip.
  { unfold answers in *. clear -Hwf. induction (children plan) as [|c l IH]; cbn in *; [done|].
    apply Forall_cons in Hwf as [Hw Hwf]. by rewrite add_empty_l, IH. }
  pose proof (incremental_step (fresh plan) store store params (nothing plan) (answers plan store params)
    (fresh_tracks store params plan Hm Hc)) as Hstep.
  rewrite Hzip, fresh_nothing in Hstep by done.
  pose proof (implements_step plan (fresh plan) (answers plan store params) store params (implements_fresh plan)) as Himp.
  pose proof (quiet_step (fresh plan) (answers plan store params) store params (quiet_fresh plan)) as Hq.
  destruct (step (fresh plan) (answers plan store params) store params) as [out op]. cbn [fst snd] in *.
  destruct Hstep as (Hout & Hsnap & Htracks).
  - apply Forall_forall. intros z (? & -> & _)%list_elem_of_fmap. apply zset_empty_wf.
  - done.
  - rewrite length_map. by destruct plan.
  - unfold answers. by rewrite !length_map.
  - by apply fresh_stable.
  - rewrite add_empty_l in Hsnap by done. rewrite <- Hsnap, (implements_snapshot plan) by done.
    rewrite denote_eq. split; [done|]. split_and!; [done..|]. by destruct plan.
Qed.

Lemma gather_ext (outputs outputs' : Outputs) ids :
  (∀ u, u ∈ ids → outputs !! u = outputs' !! u) → gather outputs ids = gather outputs' ids.
Proof.
  unfold gather. induction ids as [|u ids IH]; intros Hin; [done|]. cbn.
  by rewrite Hin, IH by set_solver.
Qed.

(** The nodes of a run, seen through what they were. *)
Lemma prime_feed_local store params nodes : feed_local (prime_feed store params) nodes.
Proof.
  intros i node outputs outputs' _ Hin. unfold prime_feed. case_bool_decide; [done|].
  by apply gather_ext.
Qed.

Lemma step_feed_local deltas nodes : feed_local (step_feed deltas ∅) nodes.
Proof.
  intros i node outputs outputs' _ Hin. unfold step_feed. case_bool_decide; [done|].
  rewrite lookup_empty. by apply gather_ext.
Qed.

Lemma gather_total (outputs : Outputs) ids :
  (∀ u, u ∈ ids → is_Some (mjoin (outputs !! u))) → is_Some (gather outputs ids).
Proof. intros Hin. apply mapM_is_Some_2. by apply Forall_forall. Qed.

Lemma prime_feed_total store params nodes : feed_total (prime_feed store params) nodes.
Proof.
  intros i node outputs _ Hin. unfold prime_feed. case_bool_decide; [by case_match|]. by apply gather_total.
Qed.

(** Every source names its table. *)
Lemma step_feed_total deltas nodes : nodes_all named nodes → feed_total (step_feed deltas ∅) nodes.
Proof.
  intros Hnamed i node outputs Hi Hin. unfold step_feed. case_bool_decide as Ha.
  - pose proof (Hnamed i node Hi Ha) as Hne. by destruct (op_collections (node_operator node)).
  - rewrite lookup_empty. by apply gather_total.
Qed.

Lemma gather_one (outputs : Outputs) i z : outputs !! i = Some (Some z) → gather outputs [i] = Some [z].
Proof. intros Hi. unfold gather. cbn. by rewrite Hi. Qed.

Lemma gather_two (outputs : Outputs) i j z z' : outputs !! i = Some (Some z) → outputs !! j = Some (Some z') →
  gather outputs [i; j] = Some [z; z'].
Proof. intros Hi Hj. unfold gather. cbn. by rewrite Hi, Hj. Qed.

(** A node with inputs is fed their outputs. *)
Lemma feed_inputs store params deltas plan node outputs :
  implements plan (node_operator node) → children plan ≠ [] →
  prime_feed store params node outputs = gather outputs (node_inputs node) ∧
  step_feed deltas ∅ node outputs = gather outputs (node_inputs node).
Proof.
  intros Hi Hc. unfold prime_feed, step_feed.
  rewrite bool_decide_eq_false_2, lookup_empty; [done|].
  rewrite (implements_arity plan) by done. by destruct (children plan).
Qed.

(** Priming a graph from the store. *)
Lemma prime_built store params nodes nodes' outputs plan id : store_ok store → maintainable plan = true →
  as_built nodes plan id →
  (∀ i, (i < length nodes)%nat → solved (prime_feed store params) store params nodes (nodes', outputs) i) →
  built (tracked store params) nodes' plan id ∧ outputs !! id = Some (Some (denote plan store params)).
Proof.
  intros Hs Hm Hb Hsolved. revert Hm. unfold as_built in Hb.
  induction Hb as [plan id op Hc Hn ->|plan id op c i Hc Hn -> Hb IH|plan id op c d i j Hc Hn -> Hbc IHc Hbd IHd];
    intros Hm;
    destruct (Hsolved id (lookup_lt_Some _ _ _ Hn) _ Hn) as (inputs & Hfeed & Hop & Hout);
    cbn [fst snd] in *; unfold with_operator in Hop; cbn [node_id node_operator node_inputs] in *.
  - destruct plan; try done. unfold prime_feed in Hfeed. cbn in Hfeed. injection Hfeed as <-.
    split; [|done]. by eapply built_leaf.
  - destruct IH as [Hbuilt Ho]; [eapply maintainable_children; [done|]; rewrite Hc; set_solver|].
    destruct (prime_node store params plan Hs Hm ltac:(by rewrite Hc)) as [Hval Htr].
    rewrite (proj1 (feed_inputs store params ∅ plan (MkNode _ id (fresh plan) [i]) outputs
      (implements_fresh plan) ltac:(by rewrite Hc))) in Hfeed.
    cbn [node_inputs] in Hfeed. rewrite (gather_one _ _ _ Ho) in Hfeed. injection Hfeed as <-.
    unfold answers in *. rewrite Hc in Hval, Htr. cbn [map] in *. rewrite Hval in Hout.
    split; [by eapply built_unary|done].
  - destruct IHc as [Hbuiltc Hoc]; [eapply maintainable_children; [done|]; rewrite Hc; set_solver|].
    destruct IHd as [Hbuiltd Hod]; [eapply maintainable_children; [done|]; rewrite Hc; set_solver|].
    destruct (prime_node store params plan Hs Hm ltac:(by rewrite Hc)) as [Hval Htr].
    rewrite (proj1 (feed_inputs store params ∅ plan (MkNode _ id (fresh plan) [i; j]) outputs
      (implements_fresh plan) ltac:(by rewrite Hc))) in Hfeed.
    cbn [node_inputs] in Hfeed. rewrite (gather_two _ _ _ _ _ Hoc Hod) in Hfeed. injection Hfeed as <-.
    unfold answers in *. rewrite Hc in Hval, Htr. cbn [map] in *. rewrite Hval in Hout.
    split; [by eapply built_binary|done].
Qed.

(** Plans whose operators keep no state: a table, filtered and projected. *)
Fixpoint linear plan : bool :=
  match plan with
  | OpScan _ => true
  | OpFilter i _ | OpProject i _ => linear i
  | _ => false
  end.

Definition stateless (op : AnyOperator) : bool :=
  match op with OScan _ | OFilter _ | OMap _ => true | _ => false end.

Definition all_stateless nodes : Prop := nodes_all (λ op, stateless op = true) nodes.

Lemma nodes_all_snoc (P : AnyOperator → Prop) nodes id op ids : nodes_all P nodes → P op → nodes_all P (nodes ++ [MkNode _ id op ids]).
Proof.
  intros Hn Hop i node [Hi|[_ Hi]]%lookup_app_Some; [by eapply Hn|]. by apply list_lookup_singleton_Some in Hi as [_ <-].
Qed.

(** What holds of every operator as it is built holds of every node. *)
Lemma build_node_all (P : AnyOperator → Prop) plan nodes scan_index : (∀ p, P (fresh p)) → nodes_all P nodes →
  nodes_all P (@Graph.build_node _ NoIndexes plan nodes scan_index).1.2.
Proof.
  intros HP. revert nodes scan_index. induction plan; intros nodes scan_index Hn; cbn.
  - apply nodes_all_snoc; [done|]. by apply (HP (OpScan table)).
  - specialize (IHplan nodes scan_index Hn). destruct (Graph.build_node plan nodes scan_index) as [[j ns] si]. cbn in *.
    destruct (filter_chain plan) as [[? ?]|]; by apply nodes_all_snoc, (HP (OpFilter plan predicate)).
  - specialize (IHplan1 nodes scan_index Hn). destruct (Graph.build_node plan1 nodes scan_index) as [[j ns] si]. cbn in *.
    specialize (IHplan2 ns si IHplan1). destruct (Graph.build_node plan2 ns si) as [[j' ns'] si']. cbn in *.
    by apply nodes_all_snoc, (HP (OpJoin plan1 plan2 on)).
  - specialize (IHplan1 nodes scan_index Hn). destruct (Graph.build_node plan1 nodes scan_index) as [[j ns] si]. cbn in *.
    specialize (IHplan2 ns si IHplan1). destruct (Graph.build_node plan2 ns si) as [[j' ns'] si']. cbn in *.
    by apply nodes_all_snoc, (HP (OpSemiJoin plan1 plan2 on)).
  - specialize (IHplan1 nodes scan_index Hn). destruct (Graph.build_node plan1 nodes scan_index) as [[j ns] si]. cbn in *.
    specialize (IHplan2 ns si IHplan1). destruct (Graph.build_node plan2 ns si) as [[j' ns'] si']. cbn in *.
    by apply nodes_all_snoc, (HP (OpAntiJoin plan1 plan2 on)).
  - specialize (IHplan1 nodes scan_index Hn). destruct (Graph.build_node plan1 nodes scan_index) as [[j ns] si]. cbn in *.
    specialize (IHplan2 ns si IHplan1). destruct (Graph.build_node plan2 ns si) as [[j' ns'] si']. cbn in *.
    by apply nodes_all_snoc, (HP (OpUnion plan1 plan2)).
  - specialize (IHplan nodes scan_index Hn). destruct (Graph.build_node plan nodes scan_index) as [[j ns] si]. cbn in *.
    by apply nodes_all_snoc, (HP (OpDistinct plan)).
  - specialize (IHplan nodes scan_index Hn). destruct (Graph.build_node plan nodes scan_index) as [[j ns] si]. cbn in *.
    by apply nodes_all_snoc, (HP (OpProject plan projections)).
  - specialize (IHplan nodes scan_index Hn). destruct (Graph.build_node plan nodes scan_index) as [[j ns] si]. cbn in *.
    destruct (window_shape plan) as [[[? ?] ?]|]; by apply nodes_all_snoc, (HP (OpLimit plan limit start order_by)).
Qed.

Lemma from_plan_named plan : nodes_all named (g_nodes (Graph.from_plan plan)).
Proof.
  unfold Graph.from_plan, Graph.from_plan_with.
  pose proof (build_node_all named plan [] ∅ ltac:(by intros []) ltac:(intros i node [=])) as Hs.
  by destruct (Graph.build_node plan [] ∅) as [[out nodes] si].
Qed.

Lemma build_node_stateless plan nodes scan_index : linear plan = true → all_stateless nodes →
  all_stateless (@Graph.build_node _ NoIndexes plan nodes scan_index).1.2.
Proof.
  revert nodes scan_index. induction plan; intros nodes scan_index Hl Hn; try done; cbn in Hl |- *.
  - unfold Graph.push_source. cbn. intros i node Hi.
    apply lookup_app_Some in Hi as [Hi|[_ Hi]]; [by eapply Hn|]. by apply list_lookup_singleton_Some in Hi as [_ <-].
  - specialize (IHplan nodes scan_index Hl Hn). destruct (Graph.build_node plan nodes scan_index) as [[j ns] si]. cbn in *.
    intros i node Hi. assert ((ns ++ [MkNode _ (length ns) (OFilter (MkFilter predicate)) [j]]) !! i = Some node) as Hi'
      by (by destruct (filter_chain plan) as [[? ?]|]).
    apply lookup_app_Some in Hi' as [Hi'|[_ Hi']]; [by eapply IHplan|]. by apply list_lookup_singleton_Some in Hi' as [_ <-].
  - specialize (IHplan nodes scan_index Hl Hn). destruct (Graph.build_node plan nodes scan_index) as [[j ns] si]. cbn in *.
    intros i node Hi. apply lookup_app_Some in Hi as [Hi|[_ Hi]]; [by eapply IHplan|]. by apply list_lookup_singleton_Some in Hi as [_ <-].
Qed.

Lemma from_plan_stateless plan : linear plan = true → all_stateless (g_nodes (Graph.from_plan plan)).
Proof.
  intros Hl. unfold Graph.from_plan, Graph.from_plan_with.
  pose proof (build_node_stateless plan [] ∅ Hl ltac:(intros i node [=])) as Hs.
  by destruct (Graph.build_node plan [] ∅) as [[out nodes] si].
Qed.

Lemma solved_stateless feed store params nodes nodes' outputs : length nodes' = length nodes →
  (∀ i, (i < length nodes)%nat → solved feed store params nodes (nodes', outputs) i) →
  all_stateless nodes → all_stateless nodes'.
Proof.
  intros Hlen Hsolved Hs i node' Hi.
  destruct (lookup_lt_is_Some_2 nodes i) as [n Hn]; [rewrite <- Hlen; by eapply lookup_lt_Some|].
  destruct (Hsolved i ltac:(by eapply lookup_lt_Some) n Hn) as (inputs & _ & Hop & _). cbn in Hop.
  rewrite Hi in Hop. injection Hop as ->. cbn. specialize (Hs i n Hn). by destruct (node_operator n).
Qed.

(** A graph of [plan] whose operators have the state of [store]. *)
Definition primed store params plan (g : Graph) : Prop :=
  ∃ nodes, g = with_nodes (Graph.from_plan plan) nodes ∧ runnable nodes (g_topo_order (Graph.from_plan plan)) ∧
    built (tracked store params) nodes plan (g_output_node (Graph.from_plan plan)) ∧
    (linear plan = true → all_stateless nodes).

Lemma from_plan_runnable plan : runnable (g_nodes (Graph.from_plan plan)) (g_topo_order (Graph.from_plan plan)).
Proof.
  destruct (from_plan_with_wf (IP := NoIndexes) plan) as (Hwf & _ & Htopo).
  change (Graph.from_plan_with plan) with (Graph.from_plan plan) in *. rewrite Htopo.
  apply compute_topo_order_runnable; [done|]. apply from_plan_named.
Qed.

Lemma prime_graph_spec store params plan : store_ok store → maintainable plan = true →
  ∃ g, prime_graph (Graph.from_plan plan) store params = Some (Some (denote plan store params), g) ∧
    primed store params plan g.
Proof.
  intros Hs Hm. unfold prime_graph.
  destruct (run_nodes_spec (prime_feed store params) store params _ _ (from_plan_runnable plan)
    (prime_feed_local _ _ _) (prime_feed_total _ _ _)) as (nodes' & outputs & Hrun & Hlen & Hleno & Hrn & Hsolved).
  unfold Graph.node_count in *. rewrite Hrun.
  destruct (prime_built store params _ nodes' outputs plan _ Hs Hm (from_plan_built plan) Hsolved) as [Hb Ho].
  rewrite Ho. eexists. split; [done|]. exists nodes'. split_and!; [done..|].
  intros Hl. by eapply solved_stateless, from_plan_stateless.
Qed.

(** ** The delta pass *)

(** How the store may differ between the answers before and after: rows that
    were live are read as they were, through the overlay of deleted rows when
    they are gone; every table's membership changed by its delta. *)
Record store_change store store' (deltas : gmap string ZSet) : Prop := {
  sc_rows : ∀ k, live store k → Store.get_row_by_key_or_deleted store' k = Store.get_row_by_key store k;
  sc_membership : ∀ t, ScanOp.table_membership store' t =
    ZSet.add (ScanOp.table_membership store t) (default ∅ (deltas !! t));
  sc_wf : map_Forall (λ _ d, zset_wf d) deltas;
}.

Lemma both_live store store' deltas k : store_ok store' → store_change store store' deltas → live store k → live store' k →
  Store.get_row_by_key store' k = Store.get_row_by_key store k.
Proof. intros Hs' Hc Hl Hl'. rewrite <- (live_or_deleted store' k (so_tables _ Hs') Hl'). by apply (sc_rows _ _ _ Hc). Qed.

(** A record with weight before, and none in the delta, is live on both sides. *)
Lemma kept_live store store' z z' d k : supported store z → supported store' z' → zset_wf z →
  z' = ZSet.add z d → weight z k ≠ 0 → d !! k = None → live store k ∧ live store' k.
Proof.
  intros Hs Hs' Hz -> Hk Hd. split; [by apply Hs|]. apply Hs'.
  rewrite weight_add, (weight_lookup_None d k Hd) by done. unfold i64_add.
  by rewrite Z.add_0_r, wrap_i64_id by by apply weight_range.
Qed.

(** The records of a set change weight by one step at most. *)
Lemma set_step old w : old = 0 ∨ old = 1 → in_i64 w → w ≠ 0 →
  i64_add old w = 0 ∨ i64_add old w = 1 → (0 < w ↔ 0 < i64_add old w).
Proof.
  intros Hold Hw Hne Hnew. unfold i64_add in *.
  assert (wrap_i64 (old + w) = old + w ∨ (old = 1 ∧ w = two63 - 1)) as [Heq|[-> ->]].
  { unfold in_i64 in Hw. destruct Hold as [->| ->]; [left|destruct (decide (w = two63 - 1)); [by right|left]];
      apply wrap_i64_id; unfold in_i64; lia. }
  - rewrite Heq in *. lia.
  - exfalso. revert Hnew. vm_compute. intros [|]; discriminate.
Qed.

Lemma witness_change store store' params deltas c c' on st d d' :
  store_ok store → store_ok store' → store_change store store' deltas →
  good store c (denote c store params) → good store' c (denote c store' params) →
  good store c' (denote c' store params) → good store' c' (denote c' store' params) →
  denote c store' params = ZSet.add (denote c store params) d →
  denote c' store' params = ZSet.add (denote c' store params) d' →
  witness_stable st on store store' (denote c store params) (denote c' store params) d d'.
Proof.
  intros Hs Hs' Hc [G1 G2 _] [G1' G2' _] [E1 E2 _] [E1' E2' _] Hd Hd'. split_and!.
  - intros k Hk Hn _. destruct (kept_live store store' _ _ d k G2 G2' G1 Hd Hk Hn).
    unfold WitnessState.read. by rewrite (both_live store store' deltas k Hs' Hc).
  - intros k Hk Hn _. destruct (kept_live store store' _ _ d' k E2 E2' E1 Hd' Hk Hn).
    unfold WitnessState.read. by rewrite (both_live store store' deltas k Hs' Hc).
  - by apply (supported_size store).
  - rewrite <- Hd'. by apply (supported_size store').
Qed.

Lemma stable_of_change store store' params plan op deltas ds :
  store_ok store → store_ok store' → store_change store store' deltas → maintainable plan = true →
  children plan ≠ [] → tracked store params plan op →
  Forall zset_wf ds →
  answers plan store' params = zip_with ZSet.add (answers plan store params) ds →
  length ds = length (children plan) →
  Operator.needs_rebuild (step op ds store' params).2 = false →
  any_stable op store store' params (answers plan store params) ds.
Proof.
  intros Hs Hs' Hc Hm Hch (Himp & Hq & Htr) Hwf Hans Hlen Hnr.
  assert (∀ c, c ∈ children plan → good store c (denote c store params) ∧ good store' c (denote c store' params)) as Hgood.
  { intros c Hin. split; apply denote_good; try done; by eapply maintainable_children. }
  destruct plan, op; try done; cbn [any_stable] in *; unfold answers in *; cbn [children map length] in *.
  - intros k Hk. destruct (Hgood plan ltac:(set_solver)) as [[_ Hsup _] _]. cbn in Hk.
    rewrite (live_or_deleted store k (so_tables _ Hs)) by by apply Hsup. symmetry. by apply (sc_rows _ _ _ Hc), Hsup.
  - destruct ds as [|d [|d' [|]]]; try done. cbn [zip_with] in Hans. injection Hans as Hd Hd'.
    destruct (Hgood plan1 ltac:(set_solver)), (Hgood plan2 ltac:(set_solver)).
    by apply (witness_change store store' params deltas).
  - destruct ds as [|d [|d' [|]]]; try done. cbn [zip_with] in Hans. injection Hans as Hd Hd'.
    destruct (Hgood plan1 ltac:(set_solver)), (Hgood plan2 ltac:(set_solver)).
    by apply (witness_change store store' params deltas).
  - destruct ds as [|d [|]]; try done. cbn [zip_with] in Hans. injection Hans as Hd.
    destruct (Hgood plan ltac:(set_solver)) as [[G1 G2 G3] [G1' G2' G3']].
    apply Forall_cons_1 in Hwf as [Hwf _]. cbn [maintainable] in Hm. split_andb. cbn.
    split_and!; [by intros k w _ _; apply sort_key_safe| | |exact Hnr].
    + intros k Hk Hn. destruct (kept_live store store' _ _ d k G2 G2' G1 Hd ltac:(cbn in Hk; lia) Hn).
      unfold TopKOp.compute_sort_key. by rewrite (both_live store store' deltas k Hs' Hc).
    + intros k w Hk. destruct (Hwf k w Hk). apply set_step; try done; [by apply G3|].
      unfold at_most_one in G3'. specialize (G3' ltac:(done) k).
      by rewrite Hd, weight_add, (weight_lookup _ _ _ Hk) in G3' by done.
Qed.

Lemma step_node store store' params plan op deltas ds :
  store_ok store → store_ok store' → store_change store store' deltas → maintainable plan = true →
  children plan ≠ [] → tracked store params plan op →
  Forall zset_wf ds →
  answers plan store' params = zip_with ZSet.add (answers plan store params) ds →
  length ds = length (children plan) →
  Operator.needs_rebuild (step op ds store' params).2 = false →
  let '(out, op') := step op ds store' params in
  zset_wf out ∧ denote plan store' params = ZSet.add (denote plan store params) out ∧
  tracked store' params plan op'.
Proof.
  intros Hs Hs' Hc Hm Hch Htr Hwf Hans Hlen Hnr.
  pose proof (stable_of_change store store' params plan op deltas ds Hs Hs' Hc Hm Hch Htr Hwf Hans Hlen Hnr) as Hst.
  destruct Htr as (Himp & Hq & Htr).
  assert (any_tracks op store params (answers plan store params)) as Ht by by destruct plan.
  pose proof (incremental_step op store store' params (answers plan store params) ds Ht
    (answers_wf store params plan Hs Hm) Hwf) as Hstep.
  pose proof (implements_step plan op ds store' params Himp) as Himp'.
  pose proof (quiet_step op ds store' params Hq) as Hq'.
  destruct (step op ds store' params) as [out op']. cbn [snd] in Himp', Hq'.
  destruct Hstep as (Hout & Hsnap & Ht').
  - unfold answers. rewrite length_map. symmetry. by apply implements_arity.
  - unfold answers. by rewrite length_map.
  - exact Hst.
  - rewrite <- Hans in Hsnap, Ht'. rewrite (implements_snapshot plan op'), (implements_snapshot plan op) in Hsnap by done.
    split_and!; [done| |by destruct plan].
    by rewrite (denote_eq plan store'), (denote_eq plan store).
Qed.

(** What the pass leaves at a sub-plan's node. *)
Definition stepped store store' params (outputs : Outputs) plan (id : nat) : Prop :=
  ∃ d, outputs !! id = Some (Some d) ∧ zset_wf d ∧ denote plan store' params = ZSet.add (denote plan store params) d.

Lemma step_built store store' params deltas nodes nodes' outputs plan id :
  store_ok store → store_ok store' → store_change store store' deltas → maintainable plan = true →
  built (tracked store params) nodes plan id →
  (∀ i, (i < length nodes)%nat → solved (step_feed deltas ∅) store' params nodes (nodes', outputs) i) →
  (∀ i node, nodes' !! i = Some node → Operator.needs_rebuild (node_operator node) = false) →
  built (tracked store' params) nodes' plan id ∧ stepped store store' params outputs plan id.
Proof.
  intros Hs Hs' Hch Hm Hb Hsolved Hnr. revert Hm.
  induction Hb as [plan id op Hc Hn Htr|plan id op c i Hc Hn Htr Hb IH|plan id op c d i j Hc Hn Htr Hbc IHc Hbd IHd];
    intros Hm;
    destruct (Hsolved id (lookup_lt_Some _ _ _ Hn) _ Hn) as (inputs & Hfeed & Hop & Hout);
    cbn [fst snd] in *; unfold with_operator in Hop; cbn [node_id node_operator node_inputs] in *;
    pose proof (Hnr id _ Hop) as Hnr1; cbn [node_operator] in Hnr1.
  - destruct plan, op; try done; try (by destruct Htr). destruct Htr as (Himp & _ & _). cbn in Himp.
    unfold step_feed in Hfeed. cbn in Hfeed. injection Hfeed as <-. subst. cbn in Hop, Hout.
    split; [by eapply built_leaf|]. eexists. split_and!; [done| |].
    + destruct (deltas !! scan_table op) as [z|] eqn:E; [exact (sc_wf _ _ _ Hch _ _ E)|apply zset_empty_wf].
    + apply (sc_membership _ _ _ Hch).
  - destruct IH as [Hbuilt (d & Ho & Hwf & Hd)]; [eapply maintainable_children; [done|]; rewrite Hc; set_solver|].
    rewrite (proj2 (feed_inputs store params deltas plan (MkNode _ id op [i]) outputs
      (proj1 Htr) ltac:(by rewrite Hc))) in Hfeed.
    cbn [node_inputs] in Hfeed. rewrite (gather_one _ _ _ Ho) in Hfeed. injection Hfeed as <-.
    pose proof (step_node store store' params plan op deltas [d] Hs Hs' Hch Hm ltac:(by rewrite Hc) Htr
      ltac:(by apply Forall_singleton) ltac:(unfold answers; by rewrite Hc; cbn; rewrite Hd)
      ltac:(by rewrite Hc) Hnr1) as Hstep.
    destruct (step op [d] store' params) as [out op'] eqn:E. cbn [fst snd] in *.
    destruct Hstep as (? & ? & ?). split; [by eapply built_unary|by exists out].
  - destruct IHc as [Hbuiltc (dc & Hoc & Hwfc & Hdc)];
      [eapply maintainable_children; [done|]; rewrite Hc; set_solver|].
    destruct IHd as [Hbuiltd (dd & Hod & Hwfd & Hdd)];
      [eapply maintainable_children; [done|]; rewrite Hc; set_solver|].
    rewrite (proj2 (feed_inputs store params deltas plan (MkNode _ id op [i; j]) outputs
      (proj1 Htr) ltac:(by rewrite Hc))) in Hfeed.
    cbn [node_inputs] in Hfeed. rewrite (gather_two _ _ _ _ _ Hoc Hod) in Hfeed. injection Hfeed as <-.
    pose proof (step_node store store' params plan op deltas [dc; dd] Hs Hs' Hch Hm ltac:(by rewrite Hc) Htr
      ltac:(apply Forall_cons; split; [done|by apply Forall_singleton]) ltac:(unfold answers; by rewrite Hc; cbn; rewrite Hdc, Hdd)
      ltac:(by rewrite Hc) Hnr1) as Hstep.
    destruct (step op [dc; dd] store' params) as [out op'] eqn:E. cbn [fst snd] in *.
    destruct Hstep as (? & ? & ?). split; [by eapply built_binary|by exists out].
Qed.

(** *** Clearing the overlay of deleted rows *)

Lemma clear_live store k : live (Store.clear_pending_deleted_rows store) k ↔ live store k.
Proof. done. Qed.

Lemma clear_ok store : store_ok store → store_ok (Store.clear_pending_deleted_rows store).
Proof. intros [? ?]. by split. Qed.

Lemma denote_clear store params plan : store_ok store → maintainable plan = true →
  denote plan (Store.clear_pending_deleted_rows store) params = denote plan store params.
Proof.
  intros Hs. induction plan; cbn [maintainable]; intros Hm; split_andb; try done;
    rewrite !denote_eq; cbn [map children]; try (rewrite IHplan by done); try (rewrite IHplan1, IHplan2 by done); try done.
  cbn. unfold FilterOp.snapshot, input. cbn.
  destruct (denote_good store plan params Hs Hm) as [Hwf Hsup _].
  apply zset_ext; [by apply filter_key_wf..|]. intros k. rewrite !weight_filter_key.
  destruct (decide (weight (denote plan store params) k = 0)) as [E|E]; [rewrite E; by do 2 destruct (check_predicate_recursive _ _ _ _)|].
  erewrite check_predicate_row; [done|].
  pose proof (so_tables _ Hs). rewrite !live_or_deleted; [done|done|by apply Hsup|done|]. apply clear_live. by apply Hsup.
Qed.

Lemma tracked_clear store params plan op : store_ok store → maintainable plan = true →
  tracked store params plan op → tracked (Store.clear_pending_deleted_rows store) params plan op.
Proof.
  intros Hs Hm (Himp & Hq & Htr). split_and!; [done..|].
  assert (answers plan (Store.clear_pending_deleted_rows store) params = answers plan store params) as Hans.
  { unfold answers. apply map_ext_in. intros c Hc. apply denote_clear; [done|].
    eapply maintainable_children; [done|]. by apply list_elem_of_In. }
  rewrite Hans. destruct plan, op; try done.
  - destruct Htr as [????????]. by split.
  - destruct Htr as [????????]. by split.
Qed.

Lemma built_impl (P Q : OperatorPlan → AnyOperator → Prop) nodes plan id : maintainable plan = true →
  (∀ p op, maintainable p = true → P p op → Q p op) → built P nodes plan id → built Q nodes plan id.
Proof.
  intros Hm HPQ Hb. induction Hb as [plan id op Hc Hn Hp|plan id op c i Hc Hn Hp Hb IH|plan id op c d i j Hc Hn Hp Hbc IHc Hbd IHd].
  - eapply built_leaf; eauto.
  - eapply built_unary; eauto. apply IH. eapply maintainable_children; [done|]. rewrite Hc. set_solver.
  - eapply built_binary; eauto; [apply IHc|apply IHd]; (eapply maintainable_children; [done|]; rewrite Hc; set_solver).
Qed.
End maintain.
