(* ===== verification/View.v ===== *)
(** * Materialized views

    Models [packages/ssp/src/circuit/view.rs] and the view-level parts of
    [packages/ssp/src/circuit/circuit.rs]: the cache of a query's records, its
    hash, and the records its subquery projections show. *)

From S2P Require Import Prelude Platform Float64 Value RowCodec ValueRef ZSet SnapshotHash SortKey Index Store Operator Plan.
Local Open Scope Z_scope.

Inductive OutputFormat := FlatFormat | TreeFormat | StreamingFormat.

(** Child key to its parent's key and the projection's alias. *)
Abbreviation SubquerySet := (gmap string (string * string)).

Record View := MkView {
  v_query_id : string;
  v_plan : QueryPlan;
  v_cache : ZSet;
  v_last_hash : string;
  v_format : OutputFormat;
  v_params : option Sp00kyValue;
  v_referenced_tables : list string;
  v_subquery_tables : list string;
  v_content_generation : Z;
  v_subquery_cache : SubquerySet;
  v_auth_id : string;
}.

Definition set_cache (cache : ZSet) (v : View) : View :=
  MkView (v_query_id v) (v_plan v) cache (v_last_hash v) (v_format v) (v_params v) (v_referenced_tables v)
    (v_subquery_tables v) (v_content_generation v) (v_subquery_cache v) (v_auth_id v).
Definition set_last_hash (hash : string) (v : View) : View :=
  MkView (v_query_id v) (v_plan v) (v_cache v) hash (v_format v) (v_params v) (v_referenced_tables v)
    (v_subquery_tables v) (v_content_generation v) (v_subquery_cache v) (v_auth_id v).
Definition set_content_generation (n : Z) (v : View) : View :=
  MkView (v_query_id v) (v_plan v) (v_cache v) (v_last_hash v) (v_format v) (v_params v) (v_referenced_tables v)
    (v_subquery_tables v) n (v_subquery_cache v) (v_auth_id v).
Definition set_subquery_cache (cache : SubquerySet) (v : View) : View :=
  MkView (v_query_id v) (v_plan v) (v_cache v) (v_last_hash v) (v_format v) (v_params v) (v_referenced_tables v)
    (v_subquery_tables v) (v_content_generation v) cache (v_auth_id v).

Definition string_le (a b : string) : Prop := string_cmp a b ≠ Gt.
#[global] Instance string_le_dec a b : Decision (string_le a b).
Proof. unfold string_le. apply _. Defined.

(** [keys.sort()]. *)
Definition sort_strings (l : list string) : list string := merge_sort string_le l.

Module View.
Section operations.
Context `{Hashing}.

Definition new (query_id : string) (plan : QueryPlan) (format : OutputFormat) (params : option Sp00kyValue)
    (tables : list string) (auth_id : string) : View :=
  MkView query_id plan ∅ "" format params tables (subquery_tables (qp_root plan)) 0 ∅ auth_id.

(** Membership, not weight: present records weigh one. *)
Definition apply_delta (delta : ZSet) (self : View) : View :=
  set_cache (for_each_entry (λ _ entry weight_delta,
    let new_weight := i64_add (default 0 entry) weight_delta in
    if 0 <? new_weight then Some 1 else None) (v_cache self) delta) self.

Definition compute_hash (self : View) : string :=
  let keys := sort_strings (keys_of (v_cache self)) in
  let fed := flat_map (λ k, bytes_of k ++ [255]) keys ++ to_le_u64 (v_content_generation self) in
  to_hex (rev (to_le_u64 (default_hash fed))).

Definition bump_content_generation (self : View) : View :=
  set_content_generation (wrap_u64 (v_content_generation self + 1)) self.
End operations.
End View.

(** ** Subquery records *)

Inductive SubqueryOp := SubAdd | SubUpdate | SubRemove.
#[global] Instance subquery_op_eq_dec : EqDecision SubqueryOp.
Proof. solve_decision. Defined.

Record SubqueryDeltaItem := MkItem {
  item_id : string;
  item_parent_key : string;
  item_alias : string;
  item_op : SubqueryOp;
}.

Section subqueries.
Context `{OrdSet}.

(** The parents in the view point at the child by id. *)
Definition reverse_children (store : Store) (rows : Rows) (table parent_field alias : string) (cache : ZSet)
    (result : SubquerySet) : SubquerySet :=
  foldl (λ result parent_full_key,
    match ValueRef.as_str (ValueRef.get (Store.get_row_by_key store parent_full_key) parent_field) with
    | None => result
    | Some child_full_key =>
        let child_raw := raw_id child_full_key in
        if rows_contains rows child_raw
        then <[make_key table child_raw := (parent_full_key, alias)]> result else result
    end) result (keys_of cache).

(** The children point at a parent that [owner_of] finds. *)
Definition forward_children (rows : Rows) (table child_field alias : string)
    (owner_of : string → option string) (result : SubquerySet) : SubquerySet :=
  foldl (λ result child_raw_id,
    match ValueRef.as_str (ValueRef.get (rows_get rows child_raw_id) child_field) with
    | None => result
    | Some value =>
        match owner_of value with
        | Some parent => <[make_key table child_raw_id := (parent, alias)]> result
        | None => result
        end
    end) result (keys_of rows).

(** Pass 1: the parent is a record of the view. *)
Definition root_subquery (store : Store) (cache : ZSet) (result : SubquerySet) (info : SubqueryInfo)
    : SubquerySet :=
  let 'MkSubqueryInfo alias table parent_key_opt parent_table := info in
  match parent_table, parent_key_opt, Store.get_collection store table with
  | None, Some parent_key, Some collection =>
      if String.eqb (child_field parent_key) "id" then
        reverse_children store (c_rows collection) table (parent_field parent_key) alias cache result
      else
        forward_children (c_rows collection) table (child_field parent_key) alias
          (λ fk, if bool_decide (is_Some (cache !! fk)) then Some fk else None) result
  | _, _, _ => result
  end.

(** The index of a nested projection: parent field value to parent key, for
    the parents shown so far. *)
Definition parent_index (rows : Rows) (table field : string) (result : SubquerySet) : gmap string string :=
  foldl (λ index parent_raw_id,
    let parent_full_key := make_key table parent_raw_id in
    if bool_decide (is_Some (result !! parent_full_key)) then
      match ValueRef.as_str (ValueRef.get (rows_get rows parent_raw_id) field) with
      | Some val => <[val := parent_full_key]> index
      | None => index
      end
    else index) ∅ (keys_of rows).

(** Pass 2: the parent is itself a subquery record. *)
Definition nested_subquery (store : Store) (result : SubquerySet) (info : SubqueryInfo) : SubquerySet :=
  let 'MkSubqueryInfo alias table parent_key_opt parent_table := info in
  match parent_table, parent_key_opt, Store.get_collection store table with
  | Some pt, Some parent_key, Some collection =>
      match Store.get_collection store pt with
      | Some parent_coll =>
          let index := parent_index (c_rows parent_coll) pt (parent_field parent_key) result in
          forward_children (c_rows collection) table (child_field parent_key) alias (λ v, index !! v) result
      | None => result
      end
  | _, _, _ => result
  end.

Definition compute_current_subquery_set (store : Store) (view : View) : SubquerySet :=
  let infos := subquery_projection_info (qp_root (v_plan view)) in
  let result := foldl (root_subquery store (v_cache view)) ∅ infos in
  foldl (nested_subquery store) result infos.
End subqueries.

(** *** Which children's parents can be told exactly *)

Fixpoint correlated (p : Predicate) (key : SubqueryParentKey) : bool :=
  match p with
  | PEq field value =>
      bool_decide (segments field = [child_field key]) &&
      bool_decide (Value.get value "$param" ≫= Value.as_str = Some ("parent." +:+ parent_field key)%string)
  | PAnd predicates => existsb (λ p, correlated p key) predicates
  | _ => false
  end.

Definition is_subquery (p : Projection) : bool := match p with PSubquery _ _ _ => true | _ => false end.

(** [child]: whether the correlation was met on the way to the scan. *)
Fixpoint precise_child (plan : OperatorPlan) (key : SubqueryParentKey) : option bool :=
  match plan with
  | OpScan _ => Some false
  | OpFilter input predicate => let? c := precise_child input key in Some (c || correlated predicate key)
  | OpLimit input _ _ _ => let? c := precise_child input key in if c then Some true else None
  | OpDistinct input => precise_child input key
  | OpProject input projections => if existsb is_subquery projections then None else precise_child input key
  | _ => None
  end.

Fixpoint has_precise_subqueries (plan : OperatorPlan) : bool :=
  match plan with
  | OpScan _ => true
  | OpFilter input _ | OpLimit input _ _ _ | OpDistinct input => has_precise_subqueries input
  | OpProject input projections =>
      has_precise_subqueries input && forallb (λ p, match p with
        | PSubquery _ plan (Some key) =>
            (String.eqb (child_field key) "id" || String.eqb (parent_field key) "id") &&
            bool_decide (precise_child plan key = Some true)
        | PSubquery _ _ None => false
        | _ => true
        end) projections
  | _ => false
  end.

(** *** The difference of two sets *)

Definition diff_subquery_sets (old new : SubquerySet) (changed : option (gset string))
    : list SubqueryDeltaItem :=
  let removed := omap (λ e : string * (string * string),
    let '(key, (parent_key, alias)) := e in
    if bool_decide (new !! key = old !! key) then None
    else Some (MkItem key parent_key alias SubRemove)) (map_to_list old) in
  let added := omap (λ e : string * (string * string),
    let '(key, (parent_key, alias)) := e in
    let same_membership := bool_decide (old !! key = new !! key) in
    if negb same_membership || match changed with None => true | Some keys => bool_decide (key ∈ keys) end
    then Some (MkItem key parent_key alias (if same_membership then SubUpdate else SubAdd))
    else None) (map_to_list new) in
  removed ++ added.
