(* ===== verification/Circuit.v ===== *)
(** * The circuit: its state, row versions, projection, schema

    Models [packages/ssp/src/circuit/circuit.rs]: the struct and the operations
    that do not run a graph. The circuit modelled has no mirrored index
    definitions ([index_defs] empty): its graphs are built as the plans are
    written, and no index is ever prewarmed or released by it. Timings are not
    modelled. *)

From S2P Require Import Prelude Platform Float64 Value RowCodecSpec ValueRef ZSet SnapshotHash SortKey Index Store Operator Plan.
From S2P Require Import Filter LinearOps Join Witness TopK Graph Exec View.
Local Open Scope Z_scope.

Record Subscriber := MkSubscriber { sub_query_id : string; sub_auth_id : string }.
#[global] Instance subscriber_eq_dec : EqDecision Subscriber.
Proof. solve_decision. Defined.

(** The schema maps and the switches. *)
Record Schema := MkSchema {
  permissions : gmap string string;
  link_targets : gmap string (gmap string string);
  opaque_fields : gmap string (gset string);
  columns : gmap string (gset string);
}.

Record Versions := MkVersions {
  monotonic_row_versions : bool;
  rv_floor : Z;
  synthesized_row_versions : Z;
  synthesized_row_versions_missing : Z;
}.

Record Circuit `{OrdSet} := MkCircuit {
  ct_store : Store;
  ct_graphs : gmap string Graph;
  ct_views : gmap string View;
  ct_dependency_map : gmap string (list string);
  ct_merge_index : gmap string string;
  ct_subscribers : gmap string (list Subscriber);
  ct_detached_owners : gset string;
  ct_merge_views : bool;
  ct_versions : Versions;
  ct_schema : Schema;
  ct_projection : bool;
  ct_missing_fields : gmap string (gset string);
}.

(** Updates of one field. *)
Section setters.
Context `{OrdSet}.
Implicit Types c : Circuit.

Definition set_store (x : Store) c : Circuit :=
  MkCircuit _ x (ct_graphs c) (ct_views c) (ct_dependency_map c) (ct_merge_index c) (ct_subscribers c)
    (ct_detached_owners c) (ct_merge_views c) (ct_versions c) (ct_schema c) (ct_projection c) (ct_missing_fields c).
Definition set_graphs (x : gmap string Graph) c : Circuit :=
  MkCircuit _ (ct_store c) x (ct_views c) (ct_dependency_map c) (ct_merge_index c) (ct_subscribers c)
    (ct_detached_owners c) (ct_merge_views c) (ct_versions c) (ct_schema c) (ct_projection c) (ct_missing_fields c).
Definition set_views (x : gmap string View) c : Circuit :=
  MkCircuit _ (ct_store c) (ct_graphs c) x (ct_dependency_map c) (ct_merge_index c) (ct_subscribers c)
    (ct_detached_owners c) (ct_merge_views c) (ct_versions c) (ct_schema c) (ct_projection c) (ct_missing_fields c).
Definition set_dependency_map (x : gmap string (list string)) c : Circuit :=
  MkCircuit _ (ct_store c) (ct_graphs c) (ct_views c) x (ct_merge_index c) (ct_subscribers c)
    (ct_detached_owners c) (ct_merge_views c) (ct_versions c) (ct_schema c) (ct_projection c) (ct_missing_fields c).
Definition set_merge_index (x : gmap string string) c : Circuit :=
  MkCircuit _ (ct_store c) (ct_graphs c) (ct_views c) (ct_dependency_map c) x (ct_subscribers c)
    (ct_detached_owners c) (ct_merge_views c) (ct_versions c) (ct_schema c) (ct_projection c) (ct_missing_fields c).
Definition set_subscribers (x : gmap string (list Subscriber)) c : Circuit :=
  MkCircuit _ (ct_store c) (ct_graphs c) (ct_views c) (ct_dependency_map c) (ct_merge_index c) x
    (ct_detached_owners c) (ct_merge_views c) (ct_versions c) (ct_schema c) (ct_projection c) (ct_missing_fields c).
Definition set_detached_owners (x : gset string) c : Circuit :=
  MkCircuit _ (ct_store c) (ct_graphs c) (ct_views c) (ct_dependency_map c) (ct_merge_index c) (ct_subscribers c)
    x (ct_merge_views c) (ct_versions c) (ct_schema c) (ct_projection c) (ct_missing_fields c).
Definition set_versions (x : Versions) c : Circuit :=
  MkCircuit _ (ct_store c) (ct_graphs c) (ct_views c) (ct_dependency_map c) (ct_merge_index c) (ct_subscribers c)
    (ct_detached_owners c) (ct_merge_views c) x (ct_schema c) (ct_projection c) (ct_missing_fields c).
Definition set_schema (x : Schema) c : Circuit :=
  MkCircuit _ (ct_store c) (ct_graphs c) (ct_views c) (ct_dependency_map c) (ct_merge_index c) (ct_subscribers c)
    (ct_detached_owners c) (ct_merge_views c) (ct_versions c) x (ct_projection c) (ct_missing_fields c).
Definition set_projecting (x : bool) c : Circuit :=
  MkCircuit _ (ct_store c) (ct_graphs c) (ct_views c) (ct_dependency_map c) (ct_merge_index c) (ct_subscribers c)
    (ct_detached_owners c) (ct_merge_views c) (ct_versions c) (ct_schema c) x (ct_missing_fields c).
Definition set_missing_fields (x : gmap string (gset string)) c : Circuit :=
  MkCircuit _ (ct_store c) (ct_graphs c) (ct_views c) (ct_dependency_map c) (ct_merge_index c) (ct_subscribers c)
    (ct_detached_owners c) (ct_merge_views c) (ct_versions c) (ct_schema c) (ct_projection c) x.
End setters.

(** [strip_opaque]: drops dotted paths from a row body. *)
Fixpoint strip_path (value : Sp00kyValue) (path : list string) : Sp00kyValue :=
  match value, path with
  | Object m, [leaf] => Object (assoc_remove leaf m)
  | Object m, head :: rest =>
      match assoc_get head m with
      | Some next => Object (assoc_insert head (strip_path next rest) m)
      | None => value
      end
  | _, _ => value
  end.

Definition strip_opaque (row : Sp00kyValue) (fields : gset string) : Sp00kyValue :=
  foldl (λ row field, strip_path row (split dot field)) row (elements fields).

Section circuit.
Context `{Hashing} `{OrdSet}.
Implicit Types c : Circuit.

Definition new : Circuit :=
  MkCircuit _ Store.new ∅ ∅ ∅ ∅ ∅ ∅ false (MkVersions false 0 0 0) (MkSchema ∅ ∅ ∅ ∅) false ∅.

Definition set_merge_views (enabled : bool) c : Circuit :=
  MkCircuit _ (ct_store c) (ct_graphs c) (ct_views c) (ct_dependency_map c) (ct_merge_index c) (ct_subscribers c)
    (ct_detached_owners c) enabled (ct_versions c) (ct_schema c) (ct_projection c) (ct_missing_fields c).

Definition set_monotonic_row_versions (enabled : bool) c : Circuit :=
  let v := ct_versions c in
  set_versions (MkVersions enabled (rv_floor v) (synthesized_row_versions v) (synthesized_row_versions_missing v)) c.

(** *** Schema *)

Definition set_permission (table where_text : string) c : Circuit :=
  let s := ct_schema c in
  set_schema (MkSchema (<[table := where_text]> (permissions s)) (link_targets s) (opaque_fields s) (columns s)) c.

Definition set_link_target (table field target : string) c : Circuit :=
  let s := ct_schema c in
  let links := <[field := target]> (default ∅ (link_targets s !! table)) in
  set_schema (MkSchema (permissions s) (<[table := links]> (link_targets s)) (opaque_fields s) (columns s)) c.

Definition set_opaque_fields (table : string) (fields : gset string) c : Circuit :=
  let s := ct_schema c in
  set_schema (MkSchema (permissions s) (link_targets s) (<[table := fields]> (opaque_fields s)) (columns s)) c.

Definition set_columns (table : string) (cols : gset string) c : Circuit :=
  let s := ct_schema c in
  set_schema (MkSchema (permissions s) (link_targets s) (opaque_fields s) (<[table := cols]> (columns s))) c.

(** [TableMeta], less its indexes. *)
Record TableMeta := MkTableMeta {
  tm_permission : string;
  tm_link_targets : gmap string string;
  tm_opaque : gset string;
  tm_columns : gset string;
}.

Definition set_table_meta (table : string) (meta : TableMeta) c : Circuit :=
  let s := ct_schema c in
  set_schema (MkSchema (<[table := tm_permission meta]> (permissions s))
    (if bool_decide (tm_link_targets meta = ∅) then delete table (link_targets s)
     else <[table := tm_link_targets meta]> (link_targets s))
    (if bool_decide (tm_opaque meta = ∅) then delete table (opaque_fields s)
     else <[table := tm_opaque meta]> (opaque_fields s))
    (<[table := tm_columns meta]> (columns s))) c.

Definition table_meta (table : string) c : option TableMeta :=
  let s := ct_schema c in
  let? permission := permissions s !! table in
  Some (MkTableMeta permission (default ∅ (link_targets s !! table)) (default ∅ (opaque_fields s !! table))
    (default ∅ (columns s !! table))).

(** *** Row versions *)

(** [RowTable::max_rv]. *)
Definition max_rv (rows : Rows) : option Z :=
  map_fold (λ _ r best,
    match lifted_rv (sr_value r) with
    | Some v => Some (match best with Some b => Z.max b v | None => v end)
    | None => best
    end) None rows.

Definition max_row_versions c : gmap string Z :=
  (λ coll, default (-1) (max_rv (c_rows coll))) <$> collections (ct_store c).

(** [.into_values().max().unwrap_or(0)]. *)
Definition max_of (m : gmap string Z) : Z :=
  default 0 (map_fold (λ _ v best, Some (match best with Some b => Z.max b v | None => v end)) None m).

(** The version a body carries, when it is one. *)
Definition incoming_version (data : Sp00kyValue) : option Z :=
  match Sp00kyValue.get data "_00_rv" with
  | Some (Int v) => if 0 <? v then Some v else None
  | _ => None
  end.

Definition floor_row_version (table id : string) (data : Sp00kyValue) c : Sp00kyValue * Circuit :=
  let incoming := incoming_version data in
  let v := ct_versions c in
  let raised := match incoming with Some i => Z.max (rv_floor v) i | None => rv_floor v end in
  let c := set_versions (MkVersions (monotonic_row_versions v) raised (synthesized_row_versions v)
    (synthesized_row_versions_missing v)) c in
  let raw := raw_id id in
  match collections (ct_store c) !! table with
  | Some coll =>
      if rows_contains (c_rows coll) raw then
        let stored := rows_rv_of (c_rows coll) raw in
        if match incoming, stored with
           | Some i, Some s => s <? i
           | Some _, None => true
           | None, _ => false
           end
        then (data, c)
        else
          let floor := if raised =? 0 then Z.max (max_of (max_row_versions c)) 0 else raised in
          let next := i64_add (Z.max floor (default 0 stored)) 1 in
          let c := set_versions (MkVersions (monotonic_row_versions v) next
            (wrap_u64 (synthesized_row_versions v + 1))
            (if bool_decide (is_Some incoming) then synthesized_row_versions_missing v
             else wrap_u64 (synthesized_row_versions_missing v + 1))) c in
          (match data with
           | Object m => Object (assoc_insert "_00_rv" (Int next) m)
           | _ => data
           end, c)
      else (data, c)
  | None => (data, c)
  end.

(** *** Projection *)

(** Root fields per table that the registered plans evaluate. *)
Definition evaluated_fields c : gmap string (gset string) :=
  map_fold (λ _ view out,
    foldl (λ (out : gmap string (gset string)) (e : string * string),
      <[e.1 := default ∅ (out !! e.1) ∪ {[e.2]}]> out) out
      (evaluated_field_refs (qp_root (v_plan view)))) ∅ (ct_views c).

Definition refresh_retained_fields c : Circuit :=
  if negb (ct_projection c) then c
  else
    let wanted := evaluated_fields c in
    let store := foldl (λ s table, set_collections (<[table := Store.ensured table s]> (collections s)) s)
      (ct_store c) (keys_of wanted) in
    set_store (set_collections (map_imap (λ name coll,
      Some (set_retained (Some (default ∅ (wanted !! name))) coll)) (collections store)) store) c.

Definition set_projection (enabled : bool) c : Circuit :=
  let c := set_projecting enabled c in
  if enabled then refresh_retained_fields c
  else set_store (set_collections (set_retained None <$> collections (ct_store c)) (ct_store c)) c.

Definition note_missing_field (c : Circuit) (e : string * string) : Circuit :=
  let '(table, field) := e in
  match Store.get_collection (ct_store c) table with
  | None => c
  | Some coll =>
      if bool_decide (c_rows coll = ∅) then c
      else if match c_retained coll with Some kept => Collection.keeps kept field | None => true end then c
      else set_missing_fields
        (<[table := default ∅ (ct_missing_fields c !! table) ∪ {[field]}]> (ct_missing_fields c)) c
  end.

Definition note_missing_fields (root : OperatorPlan) c : Circuit :=
  if negb (ct_projection c) then c
  else foldl note_missing_field c (evaluated_field_refs root).

Definition take_missing_fields c : gmap string (gset string) * Circuit :=
  (ct_missing_fields c, set_missing_fields ∅ c).

(** *** Bulk load, catch-up hashes *)

Definition load (records : list BulkRecord) c : Circuit :=
  foldl (λ c r, set_store (Store.apply_owned (br_table r) Create (br_id r) (br_data r) (ct_store c)).2 c) c records.

Definition reseed_catchup_hashes c : Circuit :=
  set_store (set_collections (Collection.reseed_catchup_xor <$> collections (ct_store c)) (ct_store c)) c.

Definition compute_catchup_hashes c : gmap string string :=
  (λ coll, xor_acc_to_hex (c_catchup_xor coll)) <$> collections (ct_store c).

Definition compute_table_hashes c : gmap string string :=
  (λ coll, TableHasher.finish (foldl (λ h id,
    TableHasher.add h id (to_json (ValueRef.to_owned_value (rows_get (c_rows coll) id))))
    TableHasher.new (keys_of (c_rows coll)))) <$> collections (ct_store c).

Definition record (table id : string) c : option Value :=
  let? coll := collections (ct_store c) !! table in
  if Collection.has_row coll id
  then Some (to_json (ValueRef.to_owned_value (Collection.get_row coll id))) else None.

Definition stored_rv (table id : string) c : option Z :=
  let? coll := collections (ct_store c) !! table in rows_rv_of (c_rows coll) (raw_id id).

Definition contains (table id : string) c : bool :=
  match collections (ct_store c) !! table with
  | Some coll => Collection.has_row coll id
  | None => false
  end.

(** Rows in the order of their ids, at most [limit], and whether there are more. *)
Definition dump_table_rows (table : string) (limit : Z) c : list (string * Value) * bool :=
  match collections (ct_store c) !! table with
  | None => ([], false)
  | Some coll =>
      let ids := sort_strings (keys_of (c_rows coll)) in
      (map (λ id, (id, to_json (ValueRef.to_owned_value (rows_get (c_rows coll) id)))) (ztake limit ids),
       limit <? zlength ids)
  end.
End circuit.
