(* ===== verification/Step.v ===== *)
(** * One step of the circuit

    Models [step_query], [run_initial_snapshot], [reprime_view], [step_timed],
    [replace_store] and [reconcile] of
    [packages/ssp/src/circuit/circuit.rs]. [None] is a panic of the code. Hash
    maps are visited in the order [map_to_list] gives. *)

From S2P Require Import Prelude Platform Float64 Value ValueRef ZSet SnapshotHash SortKey Index Store Operator Plan.
From S2P Require Import Filter LinearOps Join Witness TopK Graph Exec View Circuit.
Local Open Scope Z_scope.

Record ViewDelta := MkViewDelta {
  vd_query_id : string;
  vd_additions : list string;
  vd_removals : list string;
  vd_updates : list string;
  vd_row_count : Z;
  vd_result_hash : string;
  vd_subquery_items : list SubqueryDeltaItem;
  vd_auth_id : string;
  vd_initial : bool;
}.

(** Every present record of a full publish is an addition. *)
Definition subquery_adds (set : SubquerySet) : list SubqueryDeltaItem :=
  map (λ e : string * (string * string), MkItem e.1 e.2.1 e.2.2 SubAdd) (map_to_list set).

Section step.
Context `{Hashing} `{OrdSet}.
Implicit Types (c : Circuit) (store : Store) (params : option Sp00kyValue).

(** ** Registration and repair: the first evaluation *)

Definition run_initial_snapshot (query_id : string) c : option (option ViewDelta * Circuit) :=
  match ct_graphs c !! query_id, ct_views c !! query_id with
  | Some graph, Some view =>
      let? (output, graph) := prime_graph graph (ct_store c) (v_params view) in
      let c := set_graphs (<[query_id := graph]> (ct_graphs c)) c in
      match output with
      | None => Some (None, c)
      | Some view_output =>
          if bool_decide (view_output = ∅) then Some (None, c)
          else
            let additions := (List.filter (λ e : string * Z, 0 <? e.2) (map_to_list view_output)).*1 in
            let view := View.apply_delta view_output view in
            let view := set_last_hash (View.compute_hash view) view in
            let set := compute_current_subquery_set (ct_store c) view in
            let view := set_subquery_cache set view in
            Some (Some (MkViewDelta query_id additions [] [] (Z.of_nat (size (v_cache view)))
                    (v_last_hash view) (subquery_adds set) (v_auth_id view) true),
                  set_views (<[query_id := view]> (ct_views c)) c)
      end
  | _, _ => Some (None, c)
  end.

(** One delta per subscriber, the owner's own unless it has left. *)
Definition fan_out c (delta : ViewDelta) : list ViewDelta :=
  let detached := bool_decide (vd_query_id delta ∈ ct_detached_owners c) in
  match ct_subscribers c !! vd_query_id delta with
  | Some ((_ :: _) as subs) =>
      map (λ s, MkViewDelta (sub_query_id s) (vd_additions delta) (vd_removals delta) (vd_updates delta)
        (vd_row_count delta) (vd_result_hash delta) (vd_subquery_items delta) (sub_auth_id s) (vd_initial delta)) subs
      ++ (if detached then [] else [delta])
  | _ => if detached then [] else [delta]
  end.

Definition reprime_view (id : string) c : option (list ViewDelta * Circuit) :=
  match ct_views c !! id with
  | None => Some ([], c)
  | Some view =>
      let previous := keys_of (v_cache view) in
      let view := set_last_hash "" (set_subquery_cache ∅ (set_cache ∅ view)) in
      let c := set_views (<[id := view]> (ct_views c)) c in
      let c := set_graphs (<[id := Graph.from_plan (qp_root (v_plan view))]> (ct_graphs c)) c in
      let? (delta, c) := run_initial_snapshot id c in
      match delta with
      | Some delta => Some (fan_out c delta, c)
      | None =>
          let? view := ct_views c !! id in
          let view := set_last_hash (View.compute_hash view) view in
          let c := set_views (<[id := view]> (ct_views c)) c in
          Some (fan_out c (MkViewDelta id [] previous [] 0 (v_last_hash view) [] (v_auth_id view) true), c)
      end
  end.

(** ** Content updates, after the delta pass *)

(** The walk of one key: what passes each node now, and the first node that
    re-places the key itself, with its delta. *)
Record Walk := MkWalk {
  wk_nodes : list Node;
  wk_evals : list bool;
  wk_reordered : option (NodeId * ZSet);
}.

Definition walk_node store params (key : RowKey) (w : Walk) (id : NodeId) : option Walk :=
  let? node := wk_nodes w !! id in
  let evals := input_evals (wk_evals w) node in
  let '(nodes, reordered) :=
    match wk_reordered w with
    | Some r => (wk_nodes w, Some r)
    | None =>
        match reorder_key (node_operator node) key (default true (head evals)) store params with
        | Some (delta, op) => (<[id := with_operator node op]> (wk_nodes w), Some (id, delta))
        | None => (wk_nodes w, None)
        end
    end in
  let? node := nodes !! id in
  Some (MkWalk nodes (<[id := evaluate_key (node_operator node) key evals store params]> (wk_evals w)) reordered).

(** Pushes a re-placement through what sits downstream of its node. *)
Definition push_node store params (state : list Node * Outputs) (id : NodeId) : option (list Node * Outputs) :=
  let '(nodes, outputs) := state in
  let? node := nodes !! id in
  if existsb (λ i, bool_decide (is_Some (mjoin (outputs !! i)))) (node_inputs node) then
    let inputs := map (λ i, default ∅ (mjoin (outputs !! i))) (node_inputs node) in
    let '(out, op) := step (node_operator node) inputs store params in
    Some (<[id := with_operator node op]> nodes, <[id := Some out]> outputs)
  else Some (nodes, outputs).

Definition push_downstream store params (order : list NodeId) (from : NodeId) (delta : ZSet)
    (nodes : list Node) : option (list Node * Outputs) :=
  let after := default 0%nat (position (Nat.eqb from) order) in
  try_fold (push_node store params) (nodes, <[from := Some delta]> (replicate (length nodes) None))
    (drop (S after) order).

(** [*view_delta.entry(k).or_insert(0) += w] for every entry, zeros dropped. *)
Definition merge_delta (view_delta out : ZSet) : ZSet := filter (λ e, e.2 ≠ 0) (TopKOp.fold_delta view_delta out).

Definition reevaluate_key (g : Graph) store (view : View) (state : ZSet * list Node) (key : RowKey)
    : option (ZSet * list Node) :=
  let '(view_delta, nodes) := state in
  let params := v_params view in
  let? w := try_fold (walk_node store params key) (MkWalk nodes (replicate (length nodes) false) None)
    (g_topo_order g) in
  match wk_reordered w with
  | Some (from, delta) =>
      let? (nodes, outputs) := push_downstream store params (g_topo_order g) from delta (wk_nodes w) in
      let? out := outputs !! g_output_node g in
      Some (match out with Some out => merge_delta view_delta out | None => view_delta end, nodes)
  | None =>
      let? now_matches := wk_evals w !! g_output_node g in
      let prev_cached := weight (v_cache view) key in
      let in_cache := 0 <? prev_cached in
      Some (match view_delta !! key with
            | Some _ => view_delta
            | None =>
                if now_matches && negb in_cache then <[key := 1]> view_delta
                else if negb now_matches && in_cache then <[key := i64_neg prev_cached]> view_delta
                else view_delta
            end, wk_nodes w)
  end.

(** ** What the delta does to the view *)

Definition delta_additions (cache view_delta : ZSet) : list string :=
  (List.filter (λ e : string * Z, (0 <? e.2) && bool_decide (cache !! e.1 = None)) (map_to_list view_delta)).*1.

Definition delta_removals (cache view_delta : ZSet) : list string :=
  (List.filter (λ e : string * Z, (e.2 <? 0) &&
    match cache !! e.1 with Some old => i64_add old e.2 <=? 0 | None => false end) (map_to_list view_delta)).*1.

(** Parents in the view whose reverse key points at a changed child. *)
Definition reverse_affected store (changed : gset string) (view : View) : list RowKey :=
  flat_map (λ info,
    match si_parent_key info with
    | Some key =>
        if String.eqb (child_field key) "id" then
          List.filter (λ parent,
            match ValueRef.as_str (ValueRef.get (Store.get_row_by_key store parent) (parent_field key)) with
            | Some fk => bool_decide (make_key (si_table info) (raw_id fk) ∈ changed)
            | None => false
            end) (keys_of (v_cache view))
        else []
    | None => []
    end) (subquery_projection_info (qp_root (v_plan view))).

(** The subquery records after the delta, the difference to publish, and the
    parents to refresh. *)
Definition subquery_step store (view : View) (changed : gset string) (tables_changed : bool)
    : list SubqueryDeltaItem * list RowKey * View :=
  let precise := has_precise_subqueries (qp_root (v_plan view)) in
  let new_set := compute_current_subquery_set store view in
  let items := diff_subquery_sets (v_subquery_cache view) new_set (if precise then Some changed else None) in
  let more :=
    if tables_changed then
      if precise then
        List.filter (λ k, bool_decide (is_Some (v_cache view !! k)))
          (elements (list_to_set (map item_parent_key items) ∪ list_to_set (reverse_affected store changed view) : gset string))
      else keys_of (v_cache view)
    else [] in
  (items, more, set_subquery_cache new_set view).

(** The part of [step_query] after the graph has run: the view is brought up
    to date and the delta is put together, [None] when there is nothing to say. *)
Definition publish (query_id : string) store (table_deltas : gmap string ZSet)
    (content_updates : gmap string (list RowKey)) (view_delta : ZSet) (view : View)
    : option ViewDelta * View :=
  let updates := List.filter (λ key, bool_decide (is_Some (v_cache view !! key)) && bool_decide (view_delta !! key = None))
    (updated_keys content_updates) in
  let has_membership_changes := negb (bool_decide (view_delta = ∅)) in
  let tables_changed := existsb (λ t, bool_decide (is_Some (table_deltas !! t)) || bool_decide (is_Some (content_updates !! t)))
    (v_subquery_tables view) in
  let changed : gset string := ⋃ ((λ e : string * ZSet, dom e.2) <$> map_to_list table_deltas)
    ∪ list_to_set (updated_keys content_updates) in
  let additions := delta_additions (v_cache view) view_delta in
  let removals := delta_removals (v_cache view) view_delta in
  let view := View.apply_delta view_delta view in
  let '(items, more, view) :=
    if has_membership_changes || tables_changed || negb (bool_decide (updates = []))
    then subquery_step store view changed tables_changed
    else ([], [], view) in
  let updates := List.filter (λ key, negb (bool_decide (key ∈ additions)) && negb (bool_decide (key ∈ removals)))
    (sort_strings (remove_dups (updates ++ more))) in
  let has_content_updates := negb (bool_decide (updates = [])) || negb (bool_decide (items = [])) in
  if negb has_membership_changes && negb has_content_updates then (None, view)
  else
    let view := if tables_changed && has_content_updates then View.bump_content_generation view else view in
    let new_hash := View.compute_hash view in
    if String.eqb new_hash (v_last_hash view) && negb has_content_updates then (None, view)
    else
      let view := set_last_hash new_hash view in
      (Some (MkViewDelta query_id additions removals updates (Z.of_nat (size (v_cache view))) (v_last_hash view)
        items (v_auth_id view) false), view).

(** The graph part: content updates announced and injected, the delta pass,
    then each content update evaluated again. *)
Definition step_graph (g : Graph) store (view : View) (table_deltas : gmap string ZSet)
    (content_updates : gmap string (list RowKey)) : option (option ZSet * Graph) :=
  let keys := updated_keys content_updates in
  let g := if bool_decide (content_updates = ∅) then g else note_all keys g in
  let? injected := inject g store (v_params view) content_updates in
  let? (nodes, outputs) := step_nodes g table_deltas injected store (v_params view) in
  let? output := outputs !! g_output_node g in
  match output with
  | None => Some (None, with_nodes g nodes)
  | Some view_delta =>
      let? (view_delta, nodes) := try_fold (reevaluate_key g store view) (view_delta, nodes) keys in
      Some (Some view_delta, with_nodes g nodes)
  end.

Definition step_query (query_id : string) (table_deltas : gmap string ZSet)
    (content_updates : gmap string (list RowKey)) c : option (option ViewDelta * Circuit) :=
  match ct_graphs c !! query_id, ct_views c !! query_id with
  | Some graph, Some view =>
      let? (view_delta, graph) := step_graph graph (ct_store c) view table_deltas content_updates in
      let c := set_graphs (<[query_id := graph]> (ct_graphs c)) c in
      match view_delta with
      | None => Some (None, c)
      | Some view_delta =>
          let '(delta, view) := publish query_id (ct_store c) table_deltas content_updates view_delta view in
          Some (delta, set_views (<[query_id := view]> (ct_views c)) c)
      end
  | _, _ => Some (None, c)
  end.

(** ** The step *)

(** What phase 1 accumulates. *)
Record Batch := MkBatch {
  bt_circuit : Circuit;
  bt_deltas : gmap string ZSet;
  bt_changed_tables : list string;
  bt_updates : gmap string (list RowKey);
}.

Definition push_update (table : string) (key : RowKey) (updates : gmap string (list RowKey)) : gmap string (list RowKey) :=
  <[table := default [] (updates !! table) ++ [key]]> updates.

Definition bump_delta (table : string) (key : RowKey) (w : Z) (deltas : gmap string ZSet) : gmap string ZSet :=
  let delta := default ∅ (deltas !! table) in
  <[table := <[key := i64_add (default 0 (delta !! key)) w]> delta]> deltas.

Definition apply_one (b : Batch) (change : Change) : Batch :=
  let 'MkChange table op id data := change in
  let c := bt_circuit b in
  let c := if bool_decide (op = Delete) then set_store (Store.stage_deleted_row table id (ct_store c)) c else c in
  let data := match opaque_fields (ct_schema c) !! table with
    | Some fields => strip_opaque data fields
    | None => data
    end in
  let '(data, c) :=
    if monotonic_row_versions (ct_versions c) && (bool_decide (op = Create) || bool_decide (op = Update))
    then floor_row_version table id data c else (data, c) in
  let '(applied, store) := Store.apply_owned table op id data (ct_store c) in
  let c := set_store store c in
  if negb (ap_content_changed applied) then MkBatch c (bt_deltas b) (bt_changed_tables b) (bt_updates b)
  else
    let '(deltas, updates) :=
      if negb (ap_weight applied =? 0)
      then (bump_delta table (ap_key applied) (ap_weight applied) (bt_deltas b), bt_updates b)
      else (bt_deltas b, push_update table (ap_key applied) (bt_updates b)) in
    let changed := if bool_decide (table ∈ bt_changed_tables b) then bt_changed_tables b
                   else bt_changed_tables b ++ [table] in
    MkBatch c deltas changed updates.

(** A key that nets to zero and is held was deleted and written again: a
    content update. Zeros go. *)
Definition settle_deltas store (deltas : gmap string ZSet) (updates : gmap string (list RowKey))
    : gmap string ZSet * gmap string (list RowKey) :=
  let rewritten (table : string) (delta : ZSet) : list RowKey :=
    match Store.get_collection store table with
    | Some coll => (List.filter (λ e : string * Z, (e.2 =? 0) && Collection.has_key coll e.1) (map_to_list delta)).*1
    | None => []
    end in
  (filter (λ e, e.2 ≠ 0) <$> deltas,
   foldl (λ updates (e : string * ZSet),
     foldl (λ updates key, push_update e.1 key updates) updates (rewritten e.1 e.2)) updates (map_to_list deltas)).

(** Every view over a changed table, once, in the order they are found. *)
Definition affected_queries (dependency_map : gmap string (list string)) (changed_tables : list string) : list string :=
  dedup_first (flat_map (λ table, default [] (dependency_map !! table)) changed_tables).

Definition step_affected (table_deltas : gmap string ZSet) (content_updates : gmap string (list RowKey))
    (state : list ViewDelta * Circuit) (query_id : string) : option (list ViewDelta * Circuit) :=
  let '(results, c) := state in
  let? (delta, c) := step_query query_id table_deltas content_updates c in
  if match ct_graphs c !! query_id with Some g => Graph.needs_rebuild g | None => false end then
    let? (deltas, c) := reprime_view query_id c in Some (results ++ deltas, c)
  else
    match delta with
    | Some delta => Some (results ++ fan_out c delta, c)
    | None => Some (results, c)
    end.

Definition step_timed (cs : ChangeSet) c : option (list ViewDelta * Circuit) :=
  match changes cs with
  | [] => Some ([], c)
  | changes =>
      let b := foldl apply_one (MkBatch c ∅ [] ∅) changes in
      let c := bt_circuit b in
      let '(deltas, updates) := settle_deltas (ct_store c) (bt_deltas b) (bt_updates b) in
      let? (results, c) := try_fold (step_affected deltas updates) ([], c)
        (affected_queries (ct_dependency_map c) (bt_changed_tables b)) in
      Some (results, set_store (Store.clear_pending_deleted_rows (ct_store c)) c)
  end.

(** ** Whole-store operations *)

Definition reprime_all (state : list ViewDelta * Circuit) (id : string) : option (list ViewDelta * Circuit) :=
  let '(out, c) := state in
  let? (deltas, c) := reprime_view id c in Some (out ++ deltas, c).

Definition replace_store store c : option (list ViewDelta * Circuit) :=
  let c := set_store (Store.clear_pending_deleted_rows store) c in
  let c := refresh_retained_fields c in
  try_fold reprime_all ([], c) (keys_of (ct_views c)).

Record Reconciled := MkReconciled {
  rc_fetch : list string;
  rc_deleted : Z;
  rc_deltas : list ViewDelta;
}.

(** What a caller's list asks for: rows to fetch, rows to delete. *)
Definition reconcile_plan (store : Store) (table : string) (entries : list (string * Z)) : list string * list string :=
  let listed := map (λ e, raw_id e.1) entries in
  match Store.get_collection store table with
  | Some coll =>
      ((List.filter (λ e : string * Z,
          match rows_rv_of (c_rows coll) (raw_id e.1) with Some stored => stored <? e.2 | None => true end) entries).*1,
       List.filter (λ id, negb (bool_decide (id ∈ listed))) (keys_of (c_rows coll)))
  | None => (entries.*1, [])
  end.

Definition reconcile (table : string) (entries : list (string * Z)) c : option (Reconciled * Circuit) :=
  let '(fetch, stale) := reconcile_plan (ct_store c) table entries in
  let deleted := zlength stale in
  match stale with
  | [] => Some (MkReconciled fetch deleted [], c)
  | _ =>
      let? (deltas, c) := step_timed (MkChangeSet (map (Change.delete table) stale)) c in
      Some (MkReconciled fetch deleted deltas, c)
  end.
End step.
