(* ===== verification/Register.v ===== *)
(** * Registrations

    Models the registration half of [packages/ssp/src/circuit/circuit.rs]:
    adding and removing queries, sharing one graph between registrations that
    compute the same thing, and the digests a handover compares. *)

From S2P Require Import Prelude Platform Float64 Value RowCodec ValueRef ZSet SnapshotHash SortKey Index Store Operator Plan.
From S2P Require Import Filter LinearOps Join Witness TopK Graph Exec View Circuit Step.
Local Open Scope Z_scope.

Section register.
Context `{Hashing} `{OrdSet}.
Implicit Types c : Circuit.

(** Tables of a plan to the query, once per table. *)
Definition route (tables : list string) (query_id : string) (dependency_map : gmap string (list string))
    : gmap string (list string) :=
  foldl (λ m table, <[table := default [] (m !! table) ++ [query_id]]> m) dependency_map tables.

Definition add_query_with_auth (plan : QueryPlan) (params : option Value) (format : option OutputFormat)
    (auth_id : string) c : option (option ViewDelta * Circuit) :=
  let query_id := canonical_query_id (qp_id plan) in
  let plan := MkQueryPlan query_id (qp_root plan) in
  let tables := referenced_tables (qp_root plan) in
  let params := from_json <$> params in
  let graph := Graph.from_plan (qp_root plan) in
  let view := View.new query_id plan (default FlatFormat format) params tables auth_id in
  let c := note_missing_fields (qp_root plan) c in
  let c := set_graphs (<[query_id := graph]> (ct_graphs c)) c in
  let c := set_views (<[query_id := view]> (ct_views c)) c in
  let c := set_dependency_map (route tables query_id (ct_dependency_map c)) c in
  let c := refresh_retained_fields c in
  run_initial_snapshot query_id c.

(** A table no view scans any more drops its membership. *)
Definition remove_query (query_id : string) c : Circuit :=
  let query_id := canonical_query_id query_id in
  let c := set_views (delete query_id (ct_views c)) (set_graphs (delete query_id (ct_graphs c)) c) in
  let kept := (λ ids, List.filter (λ id, negb (String.eqb id query_id)) ids) <$> ct_dependency_map c in
  let orphaned := keys_of (filter (λ e : string * list string, e.2 = []) kept) in
  let c := set_dependency_map (filter (λ e : string * list string, e.2 ≠ []) kept) c in
  set_store (set_collections (foldl (λ colls table, alter Collection.release_membership table colls)
    (collections (ct_store c)) orphaned) (ct_store c)) c.

Definition get_view (query_id : string) c : option View :=
  match ct_views c !! query_id with
  | Some view => Some view
  | None => ct_views c !! canonical_query_id query_id
  end.

Definition view_keys (query_id : string) c : list string :=
  match get_view query_id c with Some view => keys_of (v_cache view) | None => [] end.

(** *** Shared graphs *)

Definition owner_for_merge_key (merge_key : string) c : option string := ct_merge_index c !! merge_key.

Definition claim_merge_key (merge_key query_id : string) c : Circuit :=
  set_merge_index (<[merge_key := canonical_query_id query_id]> (ct_merge_index c)) c.

(** What the view holds, as a full publish for [query_id]. *)
Definition snapshot_delta_from (source query_id auth_id : string) c : option ViewDelta :=
  let? view := get_view source c in
  let additions := keys_of (v_cache view) in
  Some (MkViewDelta (canonical_query_id query_id) additions [] [] (zlength additions) (v_last_hash view)
    (subquery_adds (v_subquery_cache view)) auth_id true).

Definition snapshot_delta (query_id auth_id : string) c : option ViewDelta :=
  snapshot_delta_from query_id query_id auth_id c.

Definition snapshot_deltas_for_view (query_id : string) c : list ViewDelta :=
  match get_view query_id c with
  | None => []
  | Some view =>
      match snapshot_delta query_id (v_auth_id view) c with
      | Some delta => fan_out c delta
      | None => []
      end
  end.

Definition subscribers_of (owner : string) c : list Subscriber := default [] (ct_subscribers c !! owner).

Definition subscribes (query_id : string) (subs : list Subscriber) : bool :=
  existsb (λ s, String.eqb (sub_query_id s) query_id) subs.

Definition attach_subscriber (owner query_id auth_id : string) c : option (ViewDelta * Circuit) :=
  let owner := canonical_query_id owner in
  let query_id := canonical_query_id query_id in
  let? delta := snapshot_delta_from owner query_id auth_id c in
  let subs := subscribers_of owner c in
  let subs := if subscribes query_id subs then subs else subs ++ [MkSubscriber query_id auth_id] in
  Some (delta, set_subscribers (<[owner := subs]> (ct_subscribers c)) c).

(** The owner a registration is attached to, the first the map yields. *)
Definition owner_of (query_id : string) c : option string :=
  head (map fst (List.filter (λ e : string * list Subscriber, subscribes query_id e.2)
    (map_to_list (ct_subscribers c)))).

Definition registration (query_id : string) c : option (string * string) :=
  let key := canonical_query_id query_id in
  match ct_views c !! key with
  | Some view => Some (key, v_auth_id view)
  | None =>
      let? owner := owner_of key c in
      let? s := head (List.filter (λ s, String.eqb (sub_query_id s) key) (subscribers_of owner c)) in
      Some (owner, sub_auth_id s)
  end.

Definition is_registered (query_id : string) c : bool :=
  let key := canonical_query_id query_id in
  (bool_decide (is_Some (ct_views c !! key)) && negb (bool_decide (key ∈ ct_detached_owners c)))
  || bool_decide (is_Some (owner_of key c)).

Definition drop_graph_if_unused (owner : string) c : bool * Circuit :=
  let has_subscribers := negb (bool_decide (subscribers_of owner c = [])) in
  if has_subscribers || negb (bool_decide (owner ∈ ct_detached_owners c)) then (false, c)
  else
    let c := remove_query owner c in
    let c := set_subscribers (delete owner (ct_subscribers c)) c in
    let c := set_detached_owners (ct_detached_owners c ∖ {[owner]}) c in
    (true, set_merge_index (filter (λ e : string * string, e.2 ≠ owner) (ct_merge_index c)) c).

Definition detach_subscriber (query_id : string) c : bool * Circuit :=
  let query_id := canonical_query_id query_id in
  match owner_of query_id c with
  | Some owner =>
      let c := set_subscribers
        (alter (List.filter (λ s, negb (String.eqb (sub_query_id s) query_id))) owner (ct_subscribers c)) c in
      drop_graph_if_unused owner c
  | None =>
      if bool_decide (is_Some (ct_views c !! query_id)) then
        drop_graph_if_unused query_id (set_detached_owners (ct_detached_owners c ∪ {[query_id]}) c)
      else (false, c)
  end.

Definition graph_count c : Z := Z.of_nat (size (ct_graphs c)).
Definition subscriber_count c : Z := map_fold (λ _ subs n, n + zlength subs) 0 (ct_subscribers c).
Definition view_count c : Z := Z.of_nat (size (ct_views c)).
Definition view_ids c : list string := keys_of (ct_views c).

(** Every registration that is published to. *)
Definition registration_ids c : list string :=
  List.filter (λ id, negb (bool_decide (id ∈ ct_detached_owners c))) (keys_of (ct_views c)) ++
  flat_map (λ e : string * list Subscriber, map sub_query_id e.2) (map_to_list (ct_subscribers c)).

(** *** Membership digests *)

(** A length-prefixed field. *)
Definition digest_field (s : string) : list Z := to_le_u64 (Z.of_nat (String.length s)) ++ bytes_of s.

Definition row_version (c : Circuit) (key : string) : Z := default 1 (Store.get_record_version_by_key (ct_store c) key).

(** Lexicographic comparisons of the derived tuple orders. *)
Definition row_line_cmp (a b : string * Z) : comparison :=
  cmp_then (string_cmp a.1 b.1) (Z.compare a.2 b.2).
Definition child_line_cmp (a b : string * (string * (string * Z))) : comparison :=
  cmp_then (string_cmp a.1 b.1) (cmp_then (string_cmp a.2.1 b.2.1)
    (cmp_then (string_cmp a.2.2.1 b.2.2.1) (Z.compare a.2.2.2 b.2.2.2))).

Definition membership_bytes (rows : list (string * Z)) (children : list (string * (string * (string * Z)))) : list Z :=
  to_le_u64 (zlength rows) ++ flat_map (λ r : string * Z, digest_field r.1 ++ to_le_i64 r.2) rows ++
  to_le_u64 (zlength children) ++
  flat_map (λ r : string * (string * (string * Z)),
    digest_field r.1 ++ digest_field r.2.1 ++ digest_field r.2.2.1 ++ to_le_i64 r.2.2.2) children.

Definition membership_lines (c : Circuit) (view : View) : list (string * Z) * list (string * (string * (string * Z))) :=
  (sort_by row_line_cmp (map (λ k, (k, row_version c k)) (keys_of (v_cache view))),
   sort_by child_line_cmp (map (λ e : string * (string * string), (e.1, (e.2.1, (e.2.2, row_version c e.1))))
     (map_to_list (v_subquery_cache view)))).

Definition membership_hash (c : Circuit) (view : View) : list Z :=
  let '(rows, children) := membership_lines c view in blake3 (membership_bytes rows children).

Definition registration_digest (membership : list Z) (auth_id : string) : string :=
  ("m1:" +:+ to_hex (blake3 (membership ++ digest_field auth_id)))%string.

Definition membership_digests (c : Circuit) : gmap string string :=
  map_fold (λ owner view out,
    let membership := membership_hash c view in
    let out := if bool_decide (owner ∈ ct_detached_owners c) then out
               else <[owner := registration_digest membership (v_auth_id view)]> out in
    foldl (λ out s, <[sub_query_id s := registration_digest membership (sub_auth_id s)]> out) out
      (subscribers_of owner c)) ∅ (ct_views c).
End register.
