(* ===== verification/Batch.v ===== *)
(** * Phase 1 of a step: a batch of changes becomes deltas

    Whatever a batch does to the store, the per-table deltas of [step_timed]
    are exactly the change in membership, and every row that was there before
    and is not reported as a content update still reads as it did: in the
    store, or in the overlay of deleted rows. *)

From S2P Require Import Prelude Platform Float64 Value ValueRef ZSet SnapshotHash SortKey Index Store StoreFacts Operator Plan.
From S2P Require Import Filter LinearOps Join Witness TopK Graph Exec View Circuit Step Support Maintain.
Local Open Scope Z_scope.

(** ** Updated keys *)

Lemma elem_of_updated_keys updates k : k ∈ updated_keys updates ↔ ∃ t ks, updates !! t = Some ks ∧ k ∈ ks.
Proof.
  unfold updated_keys. rewrite list_elem_of_bind. split.
  - intros (ks & Hk & ([t ks'] & -> & Hin)%list_elem_of_fmap). apply elem_of_map_to_list in Hin. by exists t, ks'.
  - intros (t & ks & Ht & Hk). exists ks. split; [done|]. apply list_elem_of_fmap. exists (t, ks).
    split; [done|]. by apply elem_of_map_to_list.
Qed.

Lemma elem_of_push_update table key updates k :
  k ∈ updated_keys (push_update table key updates) ↔ k = key ∨ k ∈ updated_keys updates.
Proof.
  rewrite !elem_of_updated_keys. unfold push_update. split.
  - intros (t & ks & Ht & Hk). destruct (decide (t = table)) as [->|Hne].
    + rewrite lookup_insert_eq in Ht. injection Ht as <-. apply elem_of_app in Hk as [Hk|Hk%list_elem_of_singleton]; [|by left].
      right. destruct (updates !! table) as [ks|] eqn:E; cbn in Hk; [by exists table, ks|set_solver].
    + rewrite lookup_insert_ne in Ht by done. right. by exists t, ks.
  - intros [->|(t & ks & Ht & Hk)].
    + exists table. eexists. rewrite lookup_insert_eq. split; [done|]. set_solver.
    + destruct (decide (t = table)) as [->|Hne].
      * exists table. eexists. rewrite lookup_insert_eq. split; [done|]. rewrite Ht. set_solver.
      * exists t, ks. by rewrite lookup_insert_ne.
Qed.

Lemma elem_of_push_all table keys updates k :
  k ∈ updated_keys (foldl (λ updates key, push_update table key updates) updates keys) ↔
    k ∈ keys ∨ k ∈ updated_keys updates.
Proof.
  revert updates. induction keys as [|key keys IH]; intros updates; cbn [foldl]; [set_solver|].
  rewrite IH, elem_of_push_update. set_solver.
Qed.

(** ** Rows by key *)

Lemma to_owned_from_value v : ValueRef.to_owned_value (ValueRef.from_value v) = v.
Proof. by destruct v. Qed.

Section batch.
Context `{HashingLaws} `{OrdSetLaws}.
Implicit Types (store s : Store) (b : Batch).

Lemma row_key_inj_plain t t' id id' : plain_table t → plain_table t' →
  row_key t id = row_key t' id' → t = t' ∧ id = id'.
Proof.
  intros Ht Ht' Heq. pose proof (parse_row_key t id Ht) as Hp. rewrite Heq, parse_row_key in Hp by done.
  by injection Hp.
Qed.

Definition present s (t : string) (k : RowKey) : Z := weight (ScanOp.table_membership s t) k.

Lemma present_key s t id : map_Forall table_ok (collections s) → plain_table t →
  present s t (row_key t id) = match collections s !! t with
    | Some c => present_weight (c_rows c) id | None => 0 end.
Proof.
  intros Hs Ht. unfold present. rewrite membership_value by done.
  destruct (collections s !! t) as [c|]; [|done].
  unfold weight. rewrite lookup_build_membership. unfold present_weight, rows_contains. by destruct (c_rows c !! id).
Qed.

Lemma present_cases s t k : map_Forall table_ok (collections s) →
  present s t k = 0 ∨ present s t k = 1 ∧ ∃ c id, collections s !! t = Some c ∧ k = row_key t id ∧ is_Some (c_rows c !! id).
Proof.
  intros Hs. unfold present, weight. destruct (_ !! k) as [w|] eqn:E; cbn; [|by left].
  apply lookup_membership in E as [-> E]; [|done]. by right.
Qed.

Lemma present_live s t id : map_Forall table_ok (collections s) → plain_table t →
  present s t (row_key t id) = 1 ↔ live s (row_key t id).
Proof.
  intros Hs Ht. rewrite present_key by done. split.
  - destruct (collections s !! t) as [c|] eqn:Ec; [|done]. unfold present_weight, rows_contains.
    destruct (c_rows c !! id) as [r|] eqn:Er; [|done]. intros _. exists t, c, id. by rewrite Er.
  - intros (t' & c & id' & Hc & Heq & Hid). pose proof (to_plain _ _ (Hs _ _ Hc)) as Ht'.
    apply row_key_inj_plain in Heq as [-> ->]; [|done..]. rewrite Hc.
    unfold present_weight, rows_contains. by destruct Hid as [r ->].
Qed.

Lemma live_key s k : map_Forall table_ok (collections s) → live s k →
  ∃ t id, plain_table t ∧ k = row_key t id ∧ present s t k = 1.
Proof.
  intros Hs Hl. pose proof Hl as (t & c & id & Hc & -> & Hid). pose proof (to_plain _ _ (Hs _ _ Hc)).
  exists t, id. split_and!; [done..|]. by apply present_live.
Qed.

Lemma get_row_dead s t id : map_Forall table_ok (collections s) → plain_table t →
  ¬ live s (row_key t id) → Store.get_row_by_key s (row_key t id) = Missing.
Proof.
  intros Hs Ht Hn. destruct (collections s !! t) as [c|] eqn:Ec.
  - rewrite (get_row_key s t c) by done. unfold rows_get. destruct (c_rows c !! id) as [r|] eqn:Er; [|done].
    destruct Hn. exists t, c, id. by rewrite Er.
  - unfold Store.get_row_by_key. by rewrite parse_row_key, Ec.
Qed.

Lemma get_row_owned s k : map_Forall table_ok (collections s) → live s k →
  ValueRef.from_value (ValueRef.to_owned_value (Store.get_row_by_key s k)) = Store.get_row_by_key s k.
Proof.
  intros Hs (t & c & id & Hc & -> & r & Hr). rewrite (get_row_key s t c) by done.
  unfold rows_get. rewrite Hr. cbn. by rewrite to_owned_from_value.
Qed.
(** ** One mutation of the store *)

Record mutation_ok (t id : string) (data : Sp00kyValue) : Prop := {
  mo_table : plain_table t;
  mo_id : plain_id t (raw_id id);
  mo_data : ints_safe data = true;
}.

Lemma ensured_ok s t : map_Forall table_ok (collections s) → plain_table t → table_ok t (Store.ensured t s).
Proof.
  intros Hs Ht. unfold Store.ensured. destruct (collections s !! t) as [c|] eqn:Ec; [by apply Hs|].
  split; [done|done|apply new_inv|]. intros id [r Hr]. done.
Qed.

Lemma present_ensured s t id : map_Forall table_ok (collections s) → plain_table t →
  present s t (row_key t id) = present_weight (c_rows (Store.ensured t s)) id.
Proof.
  intros Hs Ht. rewrite present_key by done. unfold Store.ensured. by destruct (collections s !! t).
Qed.

(** What [apply_owned] does, seen through membership and through row keys. *)
Record mutation s s' (t : string) (op : Operation) (key : RowKey) (a : Applied) : Prop := {
  mu_tables : map_Forall table_ok (collections s');
  mu_key : ap_key a = key;
  mu_weight : ap_weight a = present s' t key - present s t key;
  mu_present : ∀ t' k, t' ≠ t ∨ k ≠ key → present s' t' k = present s t' k;
  mu_rows : ∀ k, k ≠ key ∨ ap_content_changed a = false → live s k →
    live s' k ∧ Store.get_row_by_key s' k = Store.get_row_by_key s k;
  mu_unchanged : ap_content_changed a = false → ap_weight a = 0;
  mu_live : live s' key ↔ op ≠ Delete;
}.

Lemma row_after_some op norm data c : op ≠ Delete → is_Some (row_after op norm data c).
Proof.
  intros Hop. unfold row_after. destruct op; try done;
    (case_bool_decide as E; [destruct (c_rows c !! norm); [eauto|done]|eauto]).
Qed.

Lemma apply_owned_mutation s t op id data : map_Forall table_ok (collections s) → mutation_ok t id data →
  let '(a, s') := Store.apply_owned t op id data s in
  mutation s s' t op (row_key t (raw_id id)) a ∧ pending_deleted_rows s' = pending_deleted_rows s.
Proof.
  intros Hs [Ht Hid Hdata]. pose proof (ensured_ok s t Hs Ht) as [_ Hname Hinv Hids].
  unfold Store.apply_owned. pose proof (apply_cases op id data (Store.ensured t s) Hinv Hdata) as Ha.
  destruct (Collection.apply op id data (Store.ensured t s)) as [a c'].
  destruct Ha as (Hinv' & Hname' & _ & Hkey & Hw & Hrow & Hother & Hch).
  set (s' := set_collections _ s). set (key := row_key t (raw_id id)).
  assert (map_Forall table_ok (collections s')) as Hs'.
  { cbn. apply map_Forall_insert_2; [|done]. split; [done|by rewrite Hname'|done|].
    intros id' Hid'. destruct (decide (id' = raw_id id)) as [->|Hne]; [done|]. apply Hids. by rewrite <- Hother. }
  assert (∀ id', present s' t (row_key t id') = present_weight (c_rows c') id') as Hp'.
  { intros id'. rewrite present_key by done. cbn. by rewrite lookup_insert_eq. }
  assert (live s' key ↔ op ≠ Delete) as Hlive.
  { unfold key. rewrite <- (present_live s' t (raw_id id) Hs' Ht), Hp'.
    unfold present_weight, rows_contains. rewrite Hrow. split.
    - intros Hone ->. cbn in Hone. lia.
    - intros Hop. destruct (row_after_some op (raw_id id) data (Store.ensured t s) Hop) as [r ->]. done. }
  split; [|done]. split.
  - done.
  - by rewrite Hkey, make_key_row_key, Hname.
  - unfold key. rewrite Hp', present_ensured by done. done.
  - intros t' k Hne. unfold present, weight. f_equal. destruct (decide (t' = t)) as [->|Ht'].
    + destruct Hne as [?|Hne]; [done|]. apply option_eq. intros w. rewrite !lookup_membership by done. cbn.
      rewrite lookup_insert_eq. unfold Store.ensured in Hother.
      assert (∀ id', k = row_key t id' → c_rows c' !! id' = c_rows (Store.ensured t s) !! id') as Hsame.
      { intros id' ->. apply Hother. intros ->. done. }
      unfold Store.ensured in Hsame. split.
      * intros (-> & c & id' & [= <-] & -> & Hr). split; [done|]. rewrite Hsame in Hr by done.
        destruct (collections s !! t) as [c|]; [by exists c, id'|]. by destruct Hr.
      * intros (-> & c & id' & Hc & -> & Hr). rewrite Hc in Hsame. cbn in Hsame.
        split; [done|]. exists c', id'. by rewrite Hsame.
    + f_equal. unfold ScanOp.table_membership, Store.get_collection. cbn. by rewrite lookup_insert_ne.
  - intros k Hk Hl. pose proof Hl as (t0 & c0 & id0 & Hc0 & -> & Hr0).
    pose proof (to_plain _ _ (Hs _ _ Hc0)) as Ht0.
    assert (∃ c1, collections s' !! t0 = Some c1 ∧ c_rows c1 !! id0 = c_rows c0 !! id0) as (c1 & Hc1 & Hr1).
    { cbn. destruct (decide (t0 = t)) as [->|]; [|exists c0; by rewrite lookup_insert_ne].
      exists c'. rewrite lookup_insert_eq. split; [done|]. unfold Store.ensured in Hother, Hch. rewrite Hc0 in Hother, Hch.
      cbn in Hother, Hch. destruct Hk as [Hk|Hk]; [|rewrite Hk in Hch; by subst].
      apply Hother. intros ->. done. }
    split; [exists t0, c1, id0; by rewrite Hr1|].
    rewrite (get_row_key s t0 c0), (get_row_key s' t0 c1) by done. unfold rows_get. by rewrite Hr1.
  - intros Hf. rewrite Hf in Hch. rewrite Hw, Hch. lia.
  - exact Hlive.
Qed.
(** ** A whole batch *)

(** What a batch may hold: splittable names and integers a double represents.
    (Opaque fields only shrink a body; row versions are not floored here.) *)
Definition change_key (ch : Change) : RowKey := row_key (ch_table ch) (raw_id (ch_id ch)).

Definition change_ok (ch : Change) : Prop := mutation_ok (ch_table ch) (ch_id ch) (ch_data ch).

Definition deleted_keys (l : list Change) : list RowKey :=
  map change_key (List.filter (λ ch, bool_decide (ch_op ch = Delete)) l).

Definition delta_entry (deltas : gmap string ZSet) (t : string) (k : RowKey) : option Z :=
  default ∅ (deltas !! t) !! k.

(** A key of table [t]. *)
Definition keyed (t : string) (k : RowKey) : Prop := ∃ id, k = row_key t id ∧ plain_table t.

Definition keyed_updates (updates : gmap string (list RowKey)) : Prop :=
  ∀ t ks k, updates !! t = Some ks → k ∈ ks → keyed t k.

Lemma keyed_push t k updates : keyed t k → keyed_updates updates → keyed_updates (push_update t k updates).
Proof.
  intros Hk Hu t' ks k' Ht Hin. unfold push_update in Ht. destruct (decide (t' = t)) as [->|Hne].
  - rewrite lookup_insert_eq in Ht. injection Ht as <-. apply elem_of_app in Hin as [Hin| ->%list_elem_of_singleton]; [|done].
    destruct (updates !! t) as [ks|] eqn:E; cbn in Hin; [by apply (Hu t ks)|by apply elem_of_nil in Hin].
  - rewrite lookup_insert_ne in Ht by done. by apply (Hu t' ks).
Qed.

(** The batch so far, against the store [s0] it started from. *)
Record batch_inv s0 (done_ : list Change) b : Prop := {
  bi_tables : map_Forall table_ok (collections (ct_store (bt_circuit b)));
  bi_versions : monotonic_row_versions (ct_versions (bt_circuit b)) = false;
  bi_deltas : ∀ t k, default 0 (delta_entry (bt_deltas b) t k) =
    present (ct_store (bt_circuit b)) t k - present s0 t k;
  bi_delta_keys : ∀ t k, is_Some (delta_entry (bt_deltas b) t k) → keyed t k;
  bi_update_keys : keyed_updates (bt_updates b);
  bi_rows : ∀ k, live s0 k → k ∉ updated_keys (bt_updates b) →
    (live (ct_store (bt_circuit b)) k ∧
     Store.get_row_by_key (ct_store (bt_circuit b)) k = Store.get_row_by_key s0 k) ∨
    (pending_deleted_rows (ct_store (bt_circuit b)) !! k = Some (ValueRef.to_owned_value (Store.get_row_by_key s0 k)) ∧
     k ∈ deleted_keys done_ ∧ ∃ t id, plain_table t ∧ k = row_key t id ∧ is_Some (delta_entry (bt_deltas b) t k));
}.

Lemma delta_entry_bump deltas t k w t' k' :
  delta_entry (bump_delta t k w deltas) t' k' =
    if bool_decide (t' = t ∧ k' = k) then Some (i64_add (default 0 (delta_entry deltas t k)) w)
    else delta_entry deltas t' k'.
Proof.
  unfold delta_entry, bump_delta. destruct (decide (t' = t)) as [->|Ht].
  - rewrite lookup_insert_eq. cbn. destruct (decide (k' = k)) as [->|Hk].
    + by rewrite lookup_insert_eq, bool_decide_eq_true_2.
    + by rewrite lookup_insert_ne, bool_decide_eq_false_2 by naive_solver.
  - by rewrite lookup_insert_ne, bool_decide_eq_false_2 by naive_solver.
Qed.

Lemma strip_opaque_safe data fields : ints_safe data = true → ints_safe (strip_opaque data fields) = true.
Proof.
  assert (∀ path v, ints_safe v = true → ints_safe (strip_path v path) = true) as Hpath.
  { induction path as [|h path IH]; intros v Hv; [by destruct v|].
    destruct v as [| | | | | |m]; try done. cbn [strip_path]. destruct path as [|h' path].
    - apply ints_safe_object. intros k x Hin. apply (proj1 (ints_safe_object m) Hv k).
      unfold assoc_remove in Hin. by apply list_elem_of_In, filter_In in Hin as [Hin%list_elem_of_In _].
    - destruct (assoc_get h m) as [next|] eqn:E; [|done]. apply assoc_get_Some in E.
      apply ints_safe_object. intros k x Hin. apply elem_of_assoc_insert in Hin as [->|Hin].
      + apply IH. by apply (proj1 (ints_safe_object m) Hv h).
      + by apply (proj1 (ints_safe_object m) Hv k). }
  intros Hd. unfold strip_opaque. revert data Hd.
  induction (elements fields) as [|f l IH]; intros data Hd; cbn [foldl]; [done|]. apply IH, Hpath, Hd.
Qed.

Lemma stage_deleted s t id k : map_Forall table_ok (collections s) → plain_table t →
  pending_deleted_rows (Store.stage_deleted_row t id s) !! k =
    if bool_decide (k = row_key t (raw_id id) ∧ ValueRef.is_missing (Store.get_row_by_key s k) = false)
    then Some (ValueRef.to_owned_value (Store.get_row_by_key s k)) else pending_deleted_rows s !! k.
Proof.
  intros Hs Ht. unfold Store.stage_deleted_row. rewrite make_key_row_key.
  destruct (ValueRef.is_missing (Store.get_row_by_key s (row_key t (raw_id id)))) eqn:E.
  - rewrite bool_decide_eq_false_2; [done|]. intros [-> Hm]. congruence.
  - cbn. destruct (decide (k = row_key t (raw_id id))) as [->|Hk].
    + by rewrite lookup_insert_eq, bool_decide_eq_true_2.
    + by rewrite lookup_insert_ne, bool_decide_eq_false_2 by naive_solver.
Qed.

Lemma stage_collections s t id : collections (Store.stage_deleted_row t id s) = collections s.
Proof. unfold Store.stage_deleted_row. by destruct (ValueRef.is_missing _). Qed.

Lemma get_row_collections s s' k : collections s' = collections s → Store.get_row_by_key s' k = Store.get_row_by_key s k.
Proof. intros Heq. unfold Store.get_row_by_key. by rewrite Heq. Qed.

Lemma live_collections s s' k : collections s' = collections s → live s' k ↔ live s k.
Proof. intros Heq. unfold live. by rewrite Heq. Qed.

Lemma present_collections s s' t k : collections s' = collections s → present s' t k = present s t k.
Proof. intros Heq. unfold present, ScanOp.table_membership, Store.get_collection. by rewrite Heq. Qed.

Lemma raw_row_key t id : plain_table t → raw_id (row_key t id) = id.
Proof.
  intros Ht. pose proof (parse_row_key t id Ht) as Hp. unfold parse_key in Hp. unfold raw_id. by rewrite Hp.
Qed.

Lemma deleted_keys_app l ch :
  deleted_keys (l ++ [ch]) = deleted_keys l ++ (if bool_decide (ch_op ch = Delete) then [change_key ch] else []).
Proof.
  unfold deleted_keys. rewrite List.filter_app, map_app. cbn. by destruct (bool_decide (ch_op ch = Delete)).
Qed.

(** The store a change meets: the row it deletes is staged first. *)
Definition staged (ch : Change) store : Store :=
  if bool_decide (ch_op ch = Delete) then Store.stage_deleted_row (ch_table ch) (ch_id ch) store else store.

Lemma staged_collections ch store : collections (staged ch store) = collections store.
Proof. unfold staged. destruct (bool_decide _); [apply stage_collections|done]. Qed.

(** With the row versions off, a change is its mutation and its bookkeeping. *)
Lemma apply_one_eq b ch : monotonic_row_versions (ct_versions (bt_circuit b)) = false → change_ok ch →
  ∃ data, mutation_ok (ch_table ch) (ch_id ch) data ∧
    let '(a, store') := Store.apply_owned (ch_table ch) (ch_op ch) (ch_id ch) data (staged ch (ct_store (bt_circuit b))) in
    ct_store (bt_circuit (apply_one b ch)) = store' ∧
    ct_versions (bt_circuit (apply_one b ch)) = ct_versions (bt_circuit b) ∧
    bt_deltas (apply_one b ch) =
      (if ap_content_changed a && negb (ap_weight a =? 0)
       then bump_delta (ch_table ch) (ap_key a) (ap_weight a) (bt_deltas b) else bt_deltas b) ∧
    bt_updates (apply_one b ch) =
      (if ap_content_changed a && (ap_weight a =? 0)
       then push_update (ch_table ch) (ap_key a) (bt_updates b) else bt_updates b).
Proof.
  intros Hv [Ht Hid Hd]. destruct ch as [t op id data]. cbn [ch_table ch_op ch_id ch_data] in *.
  set (schema := ct_schema (if bool_decide (op = Delete)
    then set_store (Store.stage_deleted_row t id (ct_store (bt_circuit b))) (bt_circuit b) else bt_circuit b)).
  exists (match opaque_fields schema !! t with Some fields => strip_opaque data fields | None => data end).
  split. { split; [done..|]. destruct (opaque_fields schema !! t); [by apply strip_opaque_safe|done]. }
  unfold staged. cbn [apply_one ch_op ch_table ch_id]. fold schema.
  assert (monotonic_row_versions (ct_versions (if bool_decide (op = Delete)
    then set_store (Store.stage_deleted_row t id (ct_store (bt_circuit b))) (bt_circuit b) else bt_circuit b)) = false) as Hv'.
  { by destruct (bool_decide _). }
  rewrite Hv'. cbn [andb].
  assert (ct_store (if bool_decide (op = Delete)
    then set_store (Store.stage_deleted_row t id (ct_store (bt_circuit b))) (bt_circuit b) else bt_circuit b)
    = (if bool_decide (op = Delete) then Store.stage_deleted_row t id (ct_store (bt_circuit b)) else ct_store (bt_circuit b))) as ->.
  { by destruct (bool_decide _). }
  destruct (Store.apply_owned _ _ _ _ _) as [a store'].
  destruct (ap_content_changed a), (ap_weight a =? 0); cbn; by destruct (bool_decide (op = Delete)).
Qed.

(** The deltas follow the membership through one mutation. *)
Lemma mutation_deltas s0 s s' deltas t op key a :
  map_Forall table_ok (collections s0) → map_Forall table_ok (collections s) → mutation s s' t op key a →
  (∀ t k, default 0 (delta_entry deltas t k) = present s t k - present s0 t k) →
  ∀ t' k, default 0 (delta_entry
      (if ap_content_changed a && negb (ap_weight a =? 0) then bump_delta t (ap_key a) (ap_weight a) deltas else deltas) t' k)
    = present s' t' k - present s0 t' k.
Proof.
  intros Hstart Hs [Hs' Hkey Hw Hp _ Hun _] Hd t' k.
  assert (∀ s t k, map_Forall table_ok (collections s) → present s t k = 0 ∨ present s t k = 1) as Hbit.
  { intros s2 t2 k2 Hs2. destruct (present_cases s2 t2 k2 Hs2) as [?|[? _]]; auto. }
  assert (t' ≠ t ∨ k ≠ key ∨ t' = t ∧ k = key) as Hcases.
  { destruct (decide (t' = t)) as [->|]; [|by left]. destruct (decide (k = key)) as [->|]; auto. }
  destruct (ap_content_changed a && negb (ap_weight a =? 0)) eqn:E.
  - rewrite delta_entry_bump, Hkey. case_bool_decide as Hk.
    + destruct Hk as [-> ->]. cbn. rewrite Hd, Hw.
      pose proof (Hbit s t key Hs). pose proof (Hbit s0 t key Hstart). pose proof (Hbit s' t key Hs').
      unfold i64_add. rewrite wrap_i64_id; width_lia.
    + rewrite Hd, Hp; [done|]. tauto.
  - rewrite Hd. f_equal. destruct Hcases as [Hc|[Hc|[-> ->]]]; [symmetry; apply Hp; tauto..|].
    apply andb_false_iff in E as [E|E]; [rewrite Hun in Hw by done; lia|].
    apply negb_false_iff, Z.eqb_eq in E. lia.
Qed.

Lemma apply_one_inv s0 l b ch : map_Forall table_ok (collections s0) →
  batch_inv s0 l b → change_ok ch → NoDup (deleted_keys (l ++ [ch])) → batch_inv s0 (l ++ [ch]) (apply_one b ch).
Proof.
  intros Hstart [Hts Hv Hd Hdk Huk Hr] Hch Hnd. destruct (apply_one_eq b ch Hv Hch) as (data & Hm & Heq).
  set (s := ct_store (bt_circuit b)) in *. set (s1 := staged ch s) in *.
  assert (map_Forall table_ok (collections s1)) as Hts1 by (unfold s1; by rewrite staged_collections).
  pose proof (apply_owned_mutation s1 _ (ch_op ch) _ _ Hts1 Hm) as Ha.
  destruct (Store.apply_owned _ _ _ _ _) as [a s']. destruct Ha as [Hmut Hpend]. pose proof Hmut as [Hts' Hkey Hw _ Hrows _ Hlive].
  destruct Heq as (Hs' & Hv' & Hd' & Hu'). fold (change_key ch) in *. set (key := change_key ch) in *.
  assert (∀ t k, present s1 t k = present s t k) as Hp1 by (intros; apply present_collections, staged_collections).
  split; rewrite ?Hs', ?Hv', ?Hd', ?Hu'.
  - done.
  - done.
  - apply (mutation_deltas s0 s1 s' _ _ (ch_op ch) key a); [done..|]. intros t k. by rewrite Hp1.
  - intros t k. destruct (_ && negb _); [|by apply Hdk]. rewrite delta_entry_bump, Hkey. case_bool_decide as Hk; [|by apply Hdk].
    intros _. destruct Hk as [-> ->]. exists (raw_id (ch_id ch)). split; [done|apply Hm].
  - destruct (_ && (ap_weight a =? 0)); [|done]. apply keyed_push; [|done]. rewrite Hkey. exists (raw_id (ch_id ch)). split; [done|apply Hm].
  - intros k Hl Hu. rewrite deleted_keys_app.
    assert (k ∉ updated_keys (bt_updates b)) as Hub.
    { destruct (_ && (ap_weight a =? 0)); [|done]. rewrite elem_of_push_update in Hu. tauto. }
    assert (∀ t, is_Some (delta_entry (bt_deltas b) t k) → is_Some (delta_entry (bt_deltas (apply_one b ch)) t k)) as Hkeep.
    { intros t Hi. rewrite Hd'. destruct (_ && negb _); [|done]. rewrite delta_entry_bump. case_bool_decide; eauto. }
    rewrite Hd' in Hkeep.
    destruct (Hr k Hl Hub) as [[Hls Hrs]|(Ho & Hin & t & id & Ht & Hk & Hde)].
    + (* still there *)
      assert (live s1 k) as Hl1 by by apply (live_collections s); [apply staged_collections|].
      destruct (decide (k ≠ key ∨ ap_content_changed a = false)) as [Hk|Hk].
      { left. destruct (Hrows k Hk Hl1) as [? Heq]. split; [done|].
        rewrite Heq, (get_row_collections s); [done|apply staged_collections]. }
      right. assert (k = key) as -> by (destruct (decide (k = key)); tauto).
      assert (ap_content_changed a = true) as Hc by (destruct (ap_content_changed a); tauto).
      rewrite Hc in Hu, Hu', Hd' |- *. cbn [andb] in *.
      assert (present s (ch_table ch) key = 1) as Hpres by by apply present_live; [..|apply Hm|].
      destruct (decide (ch_op ch = Delete)) as [Hdel|Hdel].
      * rewrite Hdel. rewrite bool_decide_eq_true_2 by done. split_and!; [|set_solver|].
        -- rewrite Hpend. unfold s1, staged. rewrite bool_decide_eq_true_2 by done.
           rewrite stage_deleted by (done || apply Hm). rewrite bool_decide_eq_true_2 by (split; [done|by apply live_present]).
           by rewrite Hrs.
        -- exists (ch_table ch), (raw_id (ch_id ch)). split_and!; [apply Hm|done|].
           assert ((ap_weight a =? 0) = false) as Hw0.
           { apply Z.eqb_neq. rewrite Hw, Hp1, Hpres. intros Hz.
             assert (present s' (ch_table ch) key = 1) as Hp' by lia.
             apply present_live in Hp'; [|done|apply Hm]. by apply Hlive in Hp'. }
           rewrite Hw0. cbn. rewrite delta_entry_bump, Hkey, bool_decide_eq_true_2 by done. eauto.
      * exfalso. assert ((ap_weight a =? 0) = true) as Hw0.
        { apply Z.eqb_eq. rewrite Hw, Hp1, Hpres. apply Hlive in Hdel.
          apply (present_live s') in Hdel; [|done|apply Hm]. fold (change_key ch) in Hdel. fold key in Hdel. lia. }
        rewrite Hw0, Hkey, elem_of_push_update in Hu. tauto.
    + (* deleted before *)
      right. split_and!; [|set_solver|by eauto 6]. rewrite Hpend. unfold s1, staged.
      case_bool_decide as Hdel; [|done]. rewrite stage_deleted by (done || apply Hm).
      rewrite bool_decide_eq_false_2; [done|]. intros [-> _].
      rewrite deleted_keys_app, bool_decide_eq_true_2 in Hnd by done.
      apply NoDup_app in Hnd as (_ & Hnd & _). apply (Hnd _ Hin). set_solver.
Qed.

Lemma batch_inv_fold s0 changes : map_Forall table_ok (collections s0) → Forall change_ok changes →
  ∀ l b, batch_inv s0 l b → NoDup (deleted_keys (l ++ changes)) → batch_inv s0 (l ++ changes) (foldl apply_one b changes).
Proof.
  intros Hs Hok. induction Hok as [|ch changes Hch _ IH]; intros l b Hb Hnd; [by rewrite app_nil_r|].
  cbn [foldl]. rewrite cons_middle, app_assoc in Hnd |- *. apply IH; [|done]. apply apply_one_inv; try done.
  unfold deleted_keys in Hnd |- *. rewrite List.filter_app, map_app in Hnd. by apply NoDup_app in Hnd as [? _].
Qed.

Lemma batch_inv_start c : map_Forall table_ok (collections (ct_store c)) →
  monotonic_row_versions (ct_versions c) = false → batch_inv (ct_store c) [] (MkBatch c ∅ [] ∅).
Proof.
  intros Hs Hv. split; cbn; [done|done| | | |].
  - intros t k. unfold delta_entry. rewrite lookup_empty. cbn. rewrite lookup_empty. cbn. lia.
  - intros t k [w Hw]. unfold delta_entry in Hw. rewrite lookup_empty in Hw. cbn in Hw. by rewrite lookup_empty in Hw.
  - intros t ks k Ht. by rewrite lookup_empty in Ht.
  - intros k Hk _. by left.
Qed.

Lemma weight_settled deltas t k :
  weight (default ∅ (((λ d : ZSet, filter (λ e : RowKey * Z, e.2 ≠ 0) d) <$> deltas) !! t)) k
  = default 0 (delta_entry deltas t k).
Proof.
  rewrite lookup_fmap. unfold delta_entry, weight. destruct (deltas !! t) as [d|]; cbn; [|done].
  rewrite map_lookup_filter. destruct (d !! k) as [w|]; cbn; [|done].
  destruct (decide (w = 0)) as [->|Hw]; [by rewrite option_guard_False by naive_solver|by rewrite option_guard_True].
Qed.

Lemma elem_of_settled store deltas updates k : map_Forall table_ok (collections store) →
  k ∈ updated_keys (settle_deltas store deltas updates).2 ↔
    k ∈ updated_keys updates ∨
    ∃ t c, delta_entry deltas t k = Some 0 ∧ collections store !! t = Some c ∧ Collection.has_key c k = true.
Proof.
  intros Hs. unfold settle_deltas. cbn zeta. cbn [snd].
  set (rw := λ (table : string) (delta : ZSet), match Store.get_collection store table with
    | Some coll => (List.filter (λ e : string * Z, (e.2 =? 0) && Collection.has_key coll e.1) (map_to_list delta)).*1
    | None => [] end).
  assert (∀ l updates, k ∈ updated_keys (foldl (λ updates (e : string * ZSet),
       foldl (λ updates key, push_update e.1 key updates) updates (rw e.1 e.2)) updates l)
     ↔ k ∈ updated_keys updates ∨ ∃ t d, (t, d) ∈ l ∧ k ∈ rw t d) as Hfold.
  { induction l as [|[t d] l IH]; intros us; cbn [foldl].
    - split; [by left|]. intros [?|(? & ? & Hin & _)]; [done|]. by apply elem_of_nil in Hin.
    - rewrite IH, elem_of_push_all. cbn. split.
      + intros [[Hk|?]|(t' & d' & Hin & Hk)]; [right; exists t, d; set_solver|by left|right; exists t', d'; set_solver].
      + intros [?|(t' & d' & [[= -> ->]|Hin]%elem_of_cons & Hk)]; [tauto|tauto|]. right. eauto. }
  etransitivity; [apply Hfold|]. f_equiv. split.
  - intros (t & d & Hd%elem_of_map_to_list & Hk). unfold rw, Store.get_collection in Hk.
    destruct (collections store !! t) as [c|] eqn:Ec; [|set_solver].
    apply list_elem_of_fmap in Hk as ([k' w] & -> & Hin). apply list_elem_of_In, filter_In in Hin as [Hin He].
    apply list_elem_of_In, elem_of_map_to_list in Hin. cbn [fst snd] in He. apply andb_true_iff in He as [Hw%Z.eqb_eq Hc]. subst w.
    exists t, c. split_and!; [|done..]. unfold delta_entry. rewrite Hd. by apply Hin.
  - intros (t & c & He & Hc & Hk). unfold delta_entry in He.
    destruct (deltas !! t) as [d|] eqn:Ed; cbn in He; [|by rewrite lookup_empty in He].
    exists t, d. split; [by apply elem_of_map_to_list|]. unfold rw, Store.get_collection. rewrite Hc.
    apply list_elem_of_fmap. exists (k, 0). split; [done|]. apply list_elem_of_In, filter_In.
    split; [by apply list_elem_of_In, elem_of_map_to_list|]. cbn [fst snd]. by rewrite Hk.
Qed.

(** The keys the settling adds are keys of their table's delta. *)
Lemma settled_updates store deltas updates t ks k :
  (settle_deltas store deltas updates).2 !! t = Some ks → k ∈ ks →
  (∃ ks', updates !! t = Some ks' ∧ k ∈ ks') ∨ is_Some (delta_entry deltas t k).
Proof.
  unfold settle_deltas. cbn zeta. cbn [snd].
  set (rw := λ (table : string) (delta : ZSet), match Store.get_collection store table with
    | Some coll => (List.filter (λ e : string * Z, (e.2 =? 0) && Collection.has_key coll e.1) (map_to_list delta)).*1
    | None => [] end).
  assert (∀ t d k, k ∈ rw t d → is_Some (d !! k)) as Hrw.
  { intros t0 d k0 Hk. unfold rw in Hk. destruct (Store.get_collection store t0); [|by apply elem_of_nil in Hk].
    apply list_elem_of_fmap in Hk as ([k1 w] & -> & Hin). apply list_elem_of_In, filter_In in Hin as [Hin _].
    apply list_elem_of_In, elem_of_map_to_list in Hin. eauto. }
  assert (∀ keys table updates ks, (foldl (λ updates key, push_update table key updates) updates keys) !! t = Some ks → k ∈ ks →
    (∃ ks', updates !! t = Some ks' ∧ k ∈ ks') ∨ t = table ∧ k ∈ keys) as Hpush.
  { induction keys as [|key keys IH]; intros table us ks0 Ht Hk; [left; eauto|]. cbn [foldl] in Ht.
    destruct (IH _ _ _ Ht Hk) as [(ks' & Hks & Hin)|[-> Hin]]; [|right; set_solver].
    unfold push_update in Hks. destruct (decide (t = table)) as [->|Hne].
    - rewrite lookup_insert_eq in Hks. injection Hks as <-. apply elem_of_app in Hin as [Hin| ->%list_elem_of_singleton]; [|right; set_solver].
      destruct (us !! table) as [us'|] eqn:E; cbn in Hin; [left; eauto|by apply elem_of_nil in Hin].
    - rewrite lookup_insert_ne in Hks by done. left; eauto. }
  assert (∀ l us ks, (foldl (λ us (e : string * ZSet), foldl (λ us key, push_update e.1 key us) us (rw e.1 e.2)) us l) !! t = Some ks →
    k ∈ ks → (∃ ks', us !! t = Some ks' ∧ k ∈ ks') ∨ ∃ d, (t, d) ∈ l ∧ k ∈ rw t d) as Hfold.
  { induction l as [|[t0 d] l IH]; intros us ks0 Ht Hk; [left; eauto|]. cbn [foldl] in Ht.
    destruct (IH _ _ Ht Hk) as [(ks' & Hks & Hin)|(d' & Hin & Hk')]; [|right; exists d'; set_solver].
    destruct (Hpush _ _ _ _ Hks Hin) as [?|[-> Hk']]; [by left|]. right. exists d. set_solver. }
  intros Ht Hk. destruct (Hfold _ _ _ Ht Hk) as [?|(d & Hd%elem_of_map_to_list & Hk')]; [by left|right].
  unfold delta_entry. rewrite Hd. by eapply Hrw.
Qed.

Lemma settled_wf deltas store updates s s0 : map_Forall table_ok (collections s) → map_Forall table_ok (collections s0) →
  (∀ t k, default 0 (delta_entry deltas t k) = present s t k - present s0 t k) →
  map_Forall (λ _ d, zset_wf d) (settle_deltas store deltas updates).1.
Proof.
  intros Hs Hs0 Hd t d Ht. unfold settle_deltas in Ht. cbn [fst] in Ht. rewrite lookup_fmap in Ht.
  destruct (deltas !! t) as [d0|] eqn:E; cbn in Ht; [|done]. injection Ht as <-.
  intros k w [Hk Hw]%map_lookup_filter_Some. cbn in Hw. split; [|done].
  specialize (Hd t k). unfold delta_entry in Hd. rewrite E in Hd. cbn in Hd. rewrite Hk in Hd. cbn in Hd.
  destruct (present_cases s t k Hs) as [Hx|[Hx _]], (present_cases s0 t k Hs0) as [Hy|[Hy _]];
    rewrite Hd, Hx, Hy; width_lia.
Qed.

Lemma membership_wf s t : map_Forall table_ok (collections s) → zset_wf (ScanOp.table_membership s t).
Proof. intros Hs k w Hk. apply lookup_membership in Hk as [-> _]; [|done]. width_lia. Qed.

(** Phase 1 of [step_timed] over a whole batch. *)
Definition batch_of (changes : list Change) c : Batch := foldl apply_one (MkBatch c ∅ [] ∅) changes.

Record batch_ok c (changes : list Change) : Prop := {
  bo_tables : map_Forall table_ok (collections (ct_store c));
  bo_versions : monotonic_row_versions (ct_versions c) = false;
  bo_changes : Forall change_ok changes;
  bo_deleted_once : NoDup (deleted_keys changes);
}.

(** For every batch of changes that deletes no row twice, the settled deltas
    are exactly the change in the membership of each table, and every row that
    was there, unless reported as a content update, still reads the same. *)
Lemma batch_spec c changes : batch_ok c changes →
  let b := batch_of changes c in
  let store' := ct_store (bt_circuit b) in
  let '(deltas, updates) := settle_deltas store' (bt_deltas b) (bt_updates b) in
  map_Forall table_ok (collections store') ∧
  map_Forall (λ _ d, zset_wf d) deltas ∧
  (∀ t, ScanOp.table_membership store' t = ZSet.add (ScanOp.table_membership (ct_store c) t) (default ∅ (deltas !! t))) ∧
  (∀ k, live (ct_store c) k → k ∉ updated_keys updates →
     Store.get_row_by_key_or_deleted store' k = Store.get_row_by_key (ct_store c) k).
Proof.
  intros [Hs Hv Hok Hnd].
  pose proof (batch_inv_fold _ _ Hs Hok [] _ (batch_inv_start c Hs Hv) Hnd) as [Hs' _ Hd _ _ Hr].
  fold (batch_of changes c) in *. set (b := batch_of changes c) in *.
  set (store' := ct_store (bt_circuit b)) in *. cbn zeta.
  pose proof (settled_wf (bt_deltas b) store' (bt_updates b) store' (ct_store c) Hs' Hs Hd) as Hwf.
  pose proof (elem_of_settled store' (bt_deltas b) (bt_updates b)) as Helem.
  assert (∀ t k, weight (default ∅ ((settle_deltas store' (bt_deltas b) (bt_updates b)).1 !! t)) k
    = default 0 (delta_entry (bt_deltas b) t k)) as Hweight by (intros; apply weight_settled).
  destruct (settle_deltas _ _ _) as [deltas updates]. cbn [fst snd] in *.
  split_and!; [done|done| |].
  - intros t. apply zset_ext; [by apply membership_wf|by apply add_wf, membership_wf|]. intros k.
    rewrite weight_add, Hweight, Hd by by apply membership_wf. fold (present (ct_store c) t k). fold (present store' t k).
    unfold i64_add. destruct (present_cases store' t k Hs') as [Hx|[Hx _]], (present_cases (ct_store c) t k Hs) as [Hy|[Hy _]];
      rewrite Hx, Hy; done.
  - intros k Hl Hu. rewrite Helem in Hu by done.
    destruct (Hr k Hl) as [[Hl' Heq]|(Ho & _ & t & id & Ht & -> & w & He)]; [tauto|by rewrite live_or_deleted|].
    unfold Store.get_row_by_key_or_deleted. rewrite get_row_dead; [|done..|].
    { etransitivity; [exact (f_equal ValueRef.from_opt Ho)|]. by apply get_row_owned. }
    intros Hl'. destruct Hu. right. pose proof (Hd t (row_key t id)) as Hz.
    rewrite (proj2 (present_live store' t id Hs' Ht) Hl'), (proj2 (present_live (ct_store c) t id Hs Ht) Hl), He in Hz. cbn in Hz.
    pose proof Hl' as (t' & c' & id' & Hc' & Heq & Hid'). pose proof (to_plain _ _ (Hs' _ _ Hc')) as Ht'.
    apply row_key_inj_plain in Heq as [-> ->]; [|done..].
    exists t', c'. split_and!; [rewrite He; by f_equal|done|].
    unfold Collection.has_key, rows_contains. rewrite raw_row_key by done. by destruct Hid' as [? ->].
Qed.
End batch.
