(* ===== verification/Safeguards.v ===== *)
(** * What a step guarantees about row bodies

    Opaque fields never enter the store, and row versions only go up, within
    the machine word. *)

From S2P Require Import Prelude Platform RowCodec RowCodecSpec Float64 Value ValueRef ZSet SnapshotHash SortKey Index Store StoreFacts Operator Plan.
From S2P Require Import Filter LinearOps Join Witness TopK Graph Exec View Circuit Step Support Maintain Batch.
Local Open Scope Z_scope.

(** ** Opaque fields *)

(** What a dotted path leads to, through objects. *)
Fixpoint at_path (v : Sp00kyValue) (path : list string) : option Sp00kyValue :=
  match path with
  | [] => Some v
  | head :: rest =>
      match v with
      | Object m => match assoc_get head m with Some next => at_path next rest | None => None end
      | _ => None
      end
  end.

Definition hidden (fields : gset string) (v : Sp00kyValue) : Prop :=
  ∀ f, f ∈ fields → at_path v (split dot f) = None.

Lemma strip_path_gone v path : path ≠ [] → at_path (strip_path v path) path = None.
Proof.
  revert v. induction path as [|h rest IH]; intros v Hp; [done|].
  destruct v as [| | | | | |m]; try done. cbn [strip_path]. destruct rest as [|h' rest].
  - cbn. by rewrite assoc_get_remove, String.eqb_refl.
  - destruct (assoc_get h m) as [next|] eqn:E; cbn [at_path]; [|by rewrite E].
    rewrite assoc_get_insert, String.eqb_refl. by apply IH.
Qed.

(** Stripping one path never makes another appear. *)
Lemma strip_path_none v path q : at_path v q = None → at_path (strip_path v path) q = None.
Proof.
  revert v path. induction q as [|h rest IH]; intros v path Hq; [done|].
  destruct v as [| | | | | |m]; try (by destruct path). destruct path as [|p path]; [done|].
  cbn [strip_path]. destruct path as [|p' path].
  - cbn in Hq |- *. rewrite assoc_get_remove. by destruct (String.eqb h p).
  - destruct (assoc_get p m) as [next|] eqn:E; [|done]. cbn in Hq |- *. rewrite assoc_get_insert.
    destruct (String.eqb_spec h p) as [->|]; [|done]. rewrite E in Hq. exact (IH next (p' :: path) Hq).
Qed.

Lemma strip_opaque_keeps l v q : at_path v q = None →
  at_path (foldl (λ row field, strip_path row (split dot field)) v l) q = None.
Proof. revert v. induction l as [|f l IH]; intros v Hq; [done|]. apply IH, strip_path_none, Hq. Qed.

Lemma strip_opaque_hidden v fields : hidden fields (strip_opaque v fields).
Proof.
  intros f Hf. apply elem_of_elements in Hf. unfold strip_opaque. revert v Hf.
  induction (elements fields) as [|f' l IH]; intros v Hf; [by apply elem_of_nil in Hf|].
  cbn [foldl]. apply elem_of_cons in Hf as [->|Hf]; [|by apply IH].
  apply strip_opaque_keeps, strip_path_gone, split_nonempty.
Qed.

(** A field no opaque path starts with is as it was. *)
Lemma strip_path_other v path k : (∀ h rest, path = h :: rest → h ≠ k) → Sp00kyValue.get (strip_path v path) k = Sp00kyValue.get v k.
Proof.
  intros Hk. destruct path as [|h rest]; [by destruct v|]. specialize (Hk h rest eq_refl).
  destruct v as [| | | | | |m]; try done. cbn [strip_path]. destruct rest as [|h' rest].
  - cbn. rewrite assoc_get_remove. by destruct (String.eqb_spec k h).
  - destruct (assoc_get h m); [|done]. cbn. rewrite assoc_get_insert. by destruct (String.eqb_spec k h).
Qed.

(** Stripping removes every opaque path from a body, however the
    paths nest, and leaves every field none of them starts with as it was. *)
Theorem strip_opaque_exact v fields :
  hidden fields (strip_opaque v fields) ∧
  ∀ k, (∀ f h rest, f ∈ fields → split dot f = h :: rest → h ≠ k) →
    Sp00kyValue.get (strip_opaque v fields) k = Sp00kyValue.get v k.
Proof.
  split; [apply strip_opaque_hidden|]. intros k Hk. unfold strip_opaque.
  assert (∀ f h rest, f ∈ elements fields → split dot f = h :: rest → h ≠ k) as Hk'.
  { intros f h rest Hf. apply Hk. by apply elem_of_elements. }
  revert v Hk'. induction (elements fields) as [|f l IH]; intros v Hk'; [done|]. cbn [foldl].
  rewrite IH by (intros f' h rest Hf; apply (Hk' f'); by right).
  apply strip_path_other. intros h rest Hsplit. apply (Hk' f h rest); [left|done].
Qed.

Definition flat_keys (v : Sp00kyValue) : Prop := match v with Object m => NoDup m.*1 | _ => True end.

Lemma strip_path_keys v path : flat_keys v → flat_keys (strip_path v path).
Proof.
  destruct v as [| | | | | |m]; try (by destruct path). destruct path as [|h rest]; [done|]. cbn [strip_path flat_keys].
  intros Hm. destruct rest; cbn.
  - unfold assoc_remove. induction m as [|e m IH]; [done|]. cbn in Hm |- *. apply NoDup_cons in Hm as [Hn Hm].
    destruct (negb _); [|by apply IH]. cbn. apply NoDup_cons. split; [|by apply IH].
    intros Hin. apply Hn. apply list_elem_of_fmap in Hin as (e' & -> & Hin). apply list_elem_of_fmap. exists e'.
    split; [done|]. apply list_elem_of_In, filter_In in Hin as [Hin _]. by apply list_elem_of_In.
  - destruct (assoc_get h m); [|done]. cbn. by apply assoc_insert_NoDup.
Qed.

Lemma strip_opaque_keys v fields : flat_keys v → flat_keys (strip_opaque v fields).
Proof.
  unfold strip_opaque. revert v. induction (elements fields) as [|f l IH]; intros v Hv; [done|]. by apply IH, strip_path_keys.
Qed.

Lemma hidden_get fields m : hidden fields (Object m) ↔
  ∀ f h rest, f ∈ fields → split dot f = h :: rest → match assoc_get h m with Some next => at_path next rest = None | None => True end.
Proof.
  split.
  - intros Hh f h rest Hf Hs. specialize (Hh f Hf). rewrite Hs in Hh. cbn in Hh. by destruct (assoc_get h m).
  - intros Hh f Hf. pose proof (split_nonempty dot f) as Hne. destruct (split dot f) as [|h rest] eqn:E; [done|].
    specialize (Hh f h rest Hf E). cbn. by destruct (assoc_get h m).
Qed.

Lemma hidden_merged fields op stored data : flat_keys data →
  hidden fields data → (∀ r, stored = Some r → hidden fields (sr_value r)) → hidden fields (Collection.merged op stored data).
Proof.
  intros Hk Hd Hr. unfold Collection.merged. destruct op; try done. destruct stored as [r|]; [|done]. specialize (Hr r eq_refl).
  destruct (sr_value r) as [| | | | | |base], data as [| | | | | |incoming]; try done.
  rewrite hidden_get in *. intros f h rest Hf Hs. rewrite assoc_get_extend by done.
  destruct (assoc_get h incoming) eqn:E; [|by apply (Hr f h rest)]. specialize (Hd f h rest Hf Hs). by rewrite E in Hd.
Qed.

Section opaque.
Context `{HashingLaws} `{OrdSetLaws}.
Implicit Types (c : Circuit) (b : Batch).

Lemma hidden_project fields (c : Collection) v : hidden fields v → hidden fields (Collection.project c v).
Proof.
  intros Hv. unfold Collection.project. destruct (c_retained c) as [keep|]; [|done]. destruct v as [| | | | | |m]; try done.
  rewrite hidden_get in *. intros f h rest Hf Hs. rewrite (assoc_get_filter (Collection.keeps keep)).
  destruct (Collection.keeps keep h); [by apply (Hv f h rest)|done].
Qed.

Definition rows_hidden (fields : gset string) (rows : Rows) : Prop :=
  map_Forall (λ _ r, hidden fields (sr_value r)) rows.

Lemma apply_hidden fields op id data coll : coll_inv coll → ints_safe data = true → flat_keys data →
  (op ≠ Delete → hidden fields data) → rows_hidden fields (c_rows coll) → rows_hidden fields (c_rows (Collection.apply op id data coll).2).
Proof.
  intros Hinv Hsafe Hk Hd Hr. pose proof (apply_cases op id data coll Hinv Hsafe) as Ha.
  destruct (Collection.apply op id data coll) as [a coll']. cbn [snd].
  destruct Ha as (_ & _ & _ & _ & _ & Hrow & Hother & _). intros id' r Hid.
  destruct (decide (id' = raw_id id)) as [->|Hne]; [|rewrite Hother in Hid by done; by apply (Hr id')].
  rewrite Hrow in Hid. unfold row_after in Hid.
  assert (op ≠ Delete → hidden fields (Collection.project coll (Collection.merged op (c_rows coll !! raw_id id) data))) as Hnew.
  { intros Hop. apply hidden_project, hidden_merged; [done|by apply Hd|]. intros r0 Hr0. exact (Hr (raw_id id) r0 Hr0). }
  destruct op; try done; (case_bool_decide; [exact (Hr (raw_id id) r Hid)|injection Hid as <-; by apply Hnew]).
Qed.

(** No stored row shows a field its table declares opaque. *)
Definition opaque_hidden c : Prop := ∀ t fields coll, opaque_fields (ct_schema c) !! t = Some fields →
  collections (ct_store c) !! t = Some coll → rows_hidden fields (c_rows coll).

Lemma apply_one_hidden b ch : map_Forall table_ok (collections (ct_store (bt_circuit b))) →
  monotonic_row_versions (ct_versions (bt_circuit b)) = false → change_ok ch → flat_keys (ch_data ch) →
  opaque_hidden (bt_circuit b) → opaque_hidden (bt_circuit (apply_one b ch)).
Proof.
  intros Hts Hv [Ht Hid Hd] Hk Hh. destruct ch as [table op id data]. cbn [ch_table ch_id ch_data ch_op] in *.
  cbn [apply_one].
  set (c1 := if bool_decide (op = Delete) then _ else bt_circuit b).
  assert (ct_schema c1 = ct_schema (bt_circuit b) ∧ ct_versions c1 = ct_versions (bt_circuit b) ∧
    collections (ct_store c1) = collections (ct_store (bt_circuit b))) as (Hschema & Hver & Hcol).
  { unfold c1. destruct (bool_decide _); split_and!; try done. apply stage_collections. }
  rewrite Hver, Hv. cbn [andb]. set (data' := match opaque_fields (ct_schema c1) !! table with Some fields => _ | None => data end).
  unfold Store.apply_owned. pose proof (ensured_ok (ct_store c1) table ltac:(by rewrite Hcol) Ht) as [_ _ Hinv _].
  assert (ints_safe data' = true ∧ flat_keys data') as [Hsafe Hk'].
  { unfold data'. destruct (opaque_fields _ !! table); [|done]. split; [by apply strip_opaque_safe|by apply strip_opaque_keys]. }
  assert (∀ fields, opaque_fields (ct_schema c1) !! table = Some fields →
    rows_hidden fields (c_rows (Collection.apply op id data' (Store.ensured table (ct_store c1))).2)) as Hnew.
  { intros fields Hf. apply apply_hidden; [done..| |].
    - intros _. unfold data'. rewrite Hf. apply strip_opaque_hidden.
    - unfold Store.ensured. destruct (collections (ct_store c1) !! table) as [coll|] eqn:E; [|apply map_Forall_empty].
      rewrite Hcol in E. rewrite Hschema in Hf. by apply (Hh table fields coll). }
  destruct (Collection.apply op id data' _) as [a coll']. cbn [snd] in Hnew.
  assert (opaque_hidden (set_store (Store.set_collections (<[table := coll']> (collections (ct_store c1))) (ct_store c1)) c1)) as Hgoal.
  { intros t fields coll Hf Hc. cbn in Hf, Hc. destruct (decide (t = table)) as [->|Hne].
    - rewrite lookup_insert_eq in Hc. injection Hc as <-. by apply Hnew.
    - rewrite lookup_insert_ne, Hcol in Hc by done. rewrite Hschema in Hf. by apply (Hh t fields coll). }
  destruct (negb (ap_content_changed a)), (negb (ap_weight a =? 0)); exact Hgoal.
Qed.

Lemma apply_one_tables b ch : map_Forall table_ok (collections (ct_store (bt_circuit b))) →
  monotonic_row_versions (ct_versions (bt_circuit b)) = false → change_ok ch →
  map_Forall table_ok (collections (ct_store (bt_circuit (apply_one b ch)))) ∧
  monotonic_row_versions (ct_versions (bt_circuit (apply_one b ch))) = false.
Proof.
  intros Hts Hv Hok. destruct (apply_one_eq b ch Hv Hok) as (data & Hm & Heq).
  assert (map_Forall table_ok (collections (staged ch (ct_store (bt_circuit b))))) as Hts1 by by rewrite staged_collections.
  pose proof (apply_owned_mutation _ _ (ch_op ch) _ _ Hts1 Hm) as Ha.
  destruct (Store.apply_owned _ _ _ _ _) as [a s']. destruct Ha as [Hmu _], Heq as (-> & -> & _). split; [apply Hmu|done].
Qed.

(** C25: Whatever a batch carries, no row of the store shows a field its
    table declares opaque: what a step stores is stripped first, and a merge
    brings nothing back. *)
Theorem opaque_never_stored c changes :
  map_Forall table_ok (collections (ct_store c)) → monotonic_row_versions (ct_versions c) = false →
  Forall (λ ch, change_ok ch ∧ flat_keys (ch_data ch)) changes →
  opaque_hidden c → opaque_hidden (bt_circuit (batch_of changes c)).
Proof.
  intros Hs Hv Hok Hh. unfold batch_of.
  enough (∀ b, map_Forall table_ok (collections (ct_store (bt_circuit b))) →
    monotonic_row_versions (ct_versions (bt_circuit b)) = false → opaque_hidden (bt_circuit b) →
    opaque_hidden (bt_circuit (foldl apply_one b changes))) as Hgo by by apply Hgo.
  induction Hok as [|ch changes [Hch Hk] _ IH]; intros b Hts Hvb Hhb; [done|]. cbn [foldl].
  destruct (apply_one_tables b ch Hts Hvb Hch). apply IH; [done..|]. by apply apply_one_hidden.
Qed.
End opaque.

Definition secret_circuit : Circuit := set_opaque_fields "user" (list_to_set ["pass"; "keys.private"]) Circuit.new.
Definition secret_batch : list Change :=
  [MkChange "user" Create "user:a" (Object [("pass", Str "x"); ("keys", Object [("private", Int 1); ("public", Int 2)])]);
   MkChange "user" Merge "user:a" (Object [("name", Str "al"); ("pass", Str "y")])].

Lemma opaque_never_stored_witness :
  opaque_hidden (bt_circuit (batch_of secret_batch secret_circuit)) ∧
  record "user" "user:a" (bt_circuit (batch_of secret_batch secret_circuit)) =
    Some (VObject [("keys", VObject [("public", VNumber (PosInt 2))]); ("name", VString "al")]).
Proof.
  split; [|vm_compute; reflexivity].
  apply (opaque_never_stored secret_circuit secret_batch).
  - apply map_Forall_empty.
  - reflexivity.
  - repeat (constructor; [split; [split; reflexivity|apply (bool_decide_unpack (NoDup _)); vm_compute; exact I]|]). constructor.
  - intros t fields coll _ Hc. cbn in Hc. rewrite lookup_empty in Hc. discriminate.
Defined.

(** ** Row versions *)

Section versions.
Context `{Hashing} `{OrdSet}.
Implicit Types (c : Circuit).

(** The version a stored row carries; [None] inside when it has none. *)
Definition stored_version (table id : string) c : option (option Z) :=
  let? coll := collections (ct_store c) !! table in
  if rows_contains (c_rows coll) (raw_id id) then Some (rows_rv_of (c_rows coll) (raw_id id)) else None.

(** The version of a row by its id in the table. *)
Definition held_version (table id : string) c : option Z :=
  let? coll := collections (ct_store c) !! table in rows_rv_of (c_rows coll) id.

Lemma stored_held t id c s : stored_version t id c = Some (Some s) → held_version t (raw_id id) c = Some s.
Proof.
  unfold stored_version, held_version. destruct (_ !! t); [|done]. destruct (rows_contains _ _); [|done]. by intros [= ->].
Qed.

(** The versions are signed words, as their types say, and the floor counts up
    from zero. *)
Record versions_typed (data : Sp00kyValue) c : Prop := {
  vt_floor : 0 <= rv_floor (ct_versions c) < two63;
  vt_incoming : ∀ i, incoming_version data = Some i → i < two63;
  vt_held : ∀ t id s, held_version t id c = Some s → s < two63;
}.

Lemma incoming_insert m n : 0 < n → incoming_version (Object (assoc_insert "_00_rv" (Int n) m)) = Some n.
Proof.
  intros Hn. unfold incoming_version.
  change (Sp00kyValue.get (Object (assoc_insert "_00_rv" (Int n) m)) "_00_rv") with (assoc_get "_00_rv" (assoc_insert "_00_rv" (Int n) m)).
  rewrite assoc_get_insert, String.eqb_refl. by rewrite (proj2 (Z.ltb_lt 0 n)).
Qed.

Lemma incoming_positive data i : incoming_version data = Some i → 0 < i.
Proof.
  unfold incoming_version. destruct (Sp00kyValue.get data "_00_rv") as [[| |v| | | |]|]; try done.
  destruct (0 <? v) eqn:E; [|done]. intros [= <-]. by apply Z.ltb_lt.
Qed.

(** *** The largest version *)

(** A loop that keeps the largest of what [f] finds. *)
Lemma fold_max {A} (f : A → option Z) (m : gmap string A) :
  let top := map_fold (λ _ x best,
    match f x with Some v => Some (match best with Some b => Z.max b v | None => v end) | None => best end) None m in
  (∀ k x v, m !! k = Some x → f x = Some v → ∃ b, top = Some b ∧ v <= b) ∧
  (∀ b, top = Some b → ∃ k x, m !! k = Some x ∧ f x = Some b).
Proof.
  cbn zeta. induction m as [|k x m Hk Hfst IH] using map_first_key_ind.
  - rewrite map_fold_empty. split; [intros k x v Hx; by rewrite lookup_empty in Hx|done].
  - rewrite map_fold_insert_first_key by done. destruct IH as [Hup Hin].
    set (top := map_fold _ None m) in *. split.
    + intros k' x' v [[<- <-]|[Hne Hx]]%lookup_insert_Some Hv.
      * rewrite Hv. eexists. split; [done|]. destruct top; lia.
      * destruct (Hup k' x' v Hx Hv) as (b & -> & Hle). destruct (f x); eexists; (split; [done|]); lia.
    + assert (∀ b, top = Some b → ∃ k' x', <[k:=x]> m !! k' = Some x' ∧ f x' = Some b) as Hold.
      { intros b Hb. destruct (Hin b Hb) as (k' & x' & Hx & Hf). exists k', x'. split; [|done].
        rewrite lookup_insert_ne; [done|]. intros ->. congruence. }
      intros b. destruct (f x) as [v|] eqn:Hv; [|apply Hold]. destruct top as [b0|]; intros [= <-].
      * destruct (Z.max_spec b0 v) as [[_ ->]|[_ ->]]; [exists k, x; by rewrite lookup_insert_eq|by apply Hold].
      * exists k, x. by rewrite lookup_insert_eq.
Qed.

(** What the floor is seeded with is no lower than any stored version, and is
    one of them if it is not negative. *)
Lemma seen_versions c : let seen := max_of (max_row_versions c) in
  (∀ t id s, held_version t id c = Some s → s <= Z.max seen 0) ∧ (0 < seen → ∃ t id, held_version t id c = Some seen).
Proof.
  cbn zeta. unfold max_of, max_row_versions, held_version, rows_rv_of.
  destruct (fold_max Some ((λ coll, default (-1) (max_rv (c_rows coll))) <$> collections (ct_store c))) as [Hup Hin].
  set (top := map_fold _ None _) in *. split.
  - intros t id s Hs. destruct (collections (ct_store c) !! t) as [coll|] eqn:Hc; [|done].
    destruct (c_rows coll !! id) as [r|] eqn:Hr; [|done].
    destruct (fold_max (λ r, lifted_rv (sr_value r)) (c_rows coll)) as [Hrows _].
    destruct (Hrows _ r s Hr Hs) as (b & Hb & Hle). fold (max_rv (c_rows coll)) in Hb.
    destruct (Hup t b b) as (b' & -> & Hle'); [by rewrite lookup_fmap, Hc; cbn; rewrite Hb|done|]. cbn. lia.
  - destruct top as [b|]; cbn; [|lia]. intros Hpos. destruct (Hin b eq_refl) as (t & x & Hx & [= ->]).
    rewrite lookup_fmap in Hx. destruct (collections (ct_store c) !! t) as [coll|] eqn:Hc; [|done]. cbn in Hx. injection Hx as Hx.
    destruct (max_rv (c_rows coll)) as [v|] eqn:Hv; cbn in Hx; [|lia]. subst v.
    destruct (fold_max (λ r, lifted_rv (sr_value r)) (c_rows coll)) as [_ Hrows].
    destruct (Hrows b Hv) as (id & r & Hr & Hrv). exists t, id. by rewrite Hc, Hr.
Qed.

(** C24: What a write does to versions. A row that is not stored, and a stored
    one whose body carries a higher version than it has, keep the body, and the
    floor rises to the body's version. Any other body is issued a version,
    which becomes the floor: it is above the stored version, the body's, the
    floor before and, when neither the floor nor the body says anything yet,
    above every version in the store. Unless one of these is the largest signed
    word: then the version issued is the smallest one. Nothing but the versions
    changes. *)
Theorem floor_row_version_advances table id m c : versions_typed (Object m) c →
  let floor := rv_floor (ct_versions c) in
  let incoming := incoming_version (Object m) in
  let unseeded := floor = 0 ∧ incoming = None in
  let '(data', c') := floor_row_version table id (Object m) c in
  ct_store c' = ct_store c ∧
  ((stored_version table id c = None ∨
      (∃ i stored, incoming = Some i ∧ stored_version table id c = Some stored ∧ ∀ s, stored = Some s → s < i)) ∧
    data' = Object m ∧ rv_floor (ct_versions c') = Z.max floor (default 0 incoming) ∨
   ∃ stored n, stored_version table id c = Some stored ∧ (∀ i, incoming = Some i → ∃ s, stored = Some s ∧ i <= s) ∧
    data' = Object (assoc_insert "_00_rv" (Int n) m) ∧ rv_floor (ct_versions c') = n ∧
    ((0 < n < two63 ∧ floor < n ∧ (∀ s, stored = Some s → s < n) ∧ (∀ i, incoming = Some i → i < n) ∧
        (unseeded → ∀ t id' s, held_version t id' c = Some s → s < n)) ∨
     n = - two63 ∧ (floor = two63 - 1 ∨ stored = Some (two63 - 1) ∨
        unseeded ∧ ∃ t id', held_version t id' c = Some (two63 - 1)))).
Proof.
  intros [Hfloor Hin Hheld]. cbn zeta. pose proof (incoming_positive (Object m)) as Hpos.
  pose proof (stored_held table id c) as Hsh. destruct (seen_versions c) as [Hseen Hone].
  unfold floor_row_version, stored_version in *. cbn zeta.
  set (incoming := incoming_version (Object m)) in *. set (floor := rv_floor (ct_versions c)) in *.
  assert (match incoming with Some i => Z.max floor i | None => floor end = Z.max floor (default 0 incoming)) as ->
    by (destruct incoming; cbn; lia).
  set (raised := Z.max floor (default 0 incoming)).
  assert (floor <= raised < two63 ∧ ∀ i, incoming = Some i → i <= raised) as [Hraised Hir].
  { unfold raised. destruct incoming as [i|]; cbn; [specialize (Hin i eq_refl)|]; (split; [lia|]); naive_solver lia. }
  cbn [ct_store set_versions]. destruct (collections (ct_store c) !! table) as [coll|] eqn:Hc; [|cbn; auto].
  destruct (rows_contains (c_rows coll) (raw_id id)) eqn:Hr; [|cbn; auto].
  set (stored := rows_rv_of (c_rows coll) (raw_id id)) in *.
  assert (∀ s, stored = Some s → s < two63) as Hst by (intros s Hs; apply (Hheld table (raw_id id)), Hsh; by rewrite Hs).
  destruct (match incoming, stored with Some i, Some s => s <? i | Some _, None => true | None, _ => false end) eqn:Hadv.
  { cbn. split; [done|]. left. split; [|done]. right. destruct incoming as [i|]; [|done]. exists i, stored. split_and!; [done..|].
    intros s Hs. rewrite Hs in Hadv. by apply Z.ltb_lt. }
  cbn. split; [done|]. right. change (max_row_versions (set_versions _ c)) with (max_row_versions c).
  set (seen := max_of (max_row_versions c)) in *.
  set (base := if raised =? 0 then Z.max seen 0 else raised).
  set (top := Z.max base (default 0 stored)).
  assert (raised <= base) as Hbase by (unfold base; destruct (Z.eqb_spec raised 0); lia).
  assert (floor = 0 ∧ incoming = None → base = Z.max seen 0) as Hun.
  { intros [Hf Hi]. unfold base, raised. rewrite Hi, Hf. done. }
  assert (0 <= top < two63) as Htop.
  { unfold top, base. assert (seen < two63).
    { destruct (Z.ltb_spec 0 seen) as [Hs|]; [|unfold two63; lia]. destruct (Hone Hs) as (t & id' & Hh). apply (Hheld t id' seen Hh). }
    assert (default 0 stored < two63) as Hs by (destruct stored as [s|]; [apply (Hst s eq_refl)|done]).
    destruct (raised =? 0); lia. }
  exists stored, (i64_add top 1). split; [done|]. split.
  { intros i Hi. rewrite Hi in Hadv. destruct stored as [s|]; [|done]. exists s. split; [done|]. by apply Z.ltb_ge. }
  split; [done|]. split; [done|]. destruct (Z.eq_dec top (two63 - 1)) as [Heq|Hne].
  - right. rewrite Heq. split; [by vm_compute|]. unfold top in Heq.
    destruct (Z.max_spec base (default 0 stored)) as [[_ Hm]|[_ Hm]]; rewrite Hm in Heq.
    + right; left. destruct stored as [s|]; cbn in Heq; [by rewrite Heq|unfold two63 in *; lia].
    + unfold base in Heq. destruct (Z.eqb_spec raised 0) as [Hz|Hz].
      * right; right. split.
        { split; [lia|]. destruct incoming as [i|]; [|done]. specialize (Hpos i eq_refl). specialize (Hir i eq_refl). lia. }
        assert (seen = two63 - 1) as Hs by (unfold two63 in *; lia). rewrite <- Hs. apply Hone. unfold two63 in *. lia.
      * unfold raised in Heq. destruct (Z.max_spec floor (default 0 incoming)) as [[_ Hm']|[_ Hm']]; rewrite Hm' in Heq; [|by left].
        right; left. destruct incoming as [i|]; cbn in Heq; [|unfold two63 in *; lia].
        destruct stored as [s|]; [|done]. apply Z.ltb_ge in Hadv. specialize (Hst s eq_refl). f_equal. lia.
  - left. assert (i64_add top 1 = top + 1) as -> by (unfold i64_add; apply wrap_i64_id; unfold in_i64; lia).
    assert (base <= top) by (unfold top; lia). split_and!; [lia|lia|lia| | |].
    + intros s Hs. unfold top. rewrite Hs. cbn. lia.
    + intros i Hi. specialize (Hir i Hi). lia.
    + intros Hu t id' s Hs. apply Hun in Hu. specialize (Hseen t id' s Hs). lia.
Qed.
End versions.

Definition versioned : Circuit := set_monotonic_row_versions true
  (load [MkBulkRecord "user" "user:a" (Object [("_00_rv", Int 5)])] Circuit.new).

Lemma versioned_typed data : (∀ i, incoming_version data = Some i → i < two63) → versions_typed data versioned.
Proof.
  intros Hi. split; [vm_compute; split; [discriminate|reflexivity]|done|]. intros t id s Hs.
  destruct (seen_versions versioned) as [Hseen _]. specialize (Hseen t id s Hs).
  replace (max_of (max_row_versions versioned)) with 5 in Hseen by (vm_compute; reflexivity). unfold two63. lia.
Qed.

Lemma floor_row_version_advances_witness :
  (floor_row_version "user" "user:a" (Object [("name", Str "al")]) versioned).1 = Object [("name", Str "al"); ("_00_rv", Int 6)] ∧
  (∀ t id s, held_version t id versioned = Some s → s < 6).
Proof.
  assert (versions_typed (Object [("name", Str "al")]) versioned) as Hok.
  { apply versioned_typed. intros i Hi. vm_compute in Hi. discriminate. }
  pose proof (floor_row_version_advances "user" "user:a" [("name", Str "al")] versioned Hok) as Hf.
  assert (stored_version "user" "user:a" versioned = Some (Some 5)) as Hs by (vm_compute; reflexivity).
  assert ((floor_row_version "user" "user:a" (Object [("name", Str "al")]) versioned).1 =
    Object [("name", Str "al"); ("_00_rv", Int 6)]) as Hd by (vm_compute; reflexivity).
  assert (rv_floor (ct_versions (floor_row_version "user" "user:a" (Object [("name", Str "al")]) versioned).2) = 6) as Hv
    by (vm_compute; reflexivity).
  split; [exact Hd|]. cbn zeta in Hf. destruct (floor_row_version _ _ _ _) as [data' c']. cbn [fst snd] in Hd, Hv.
  destruct Hf as (_ & [[Hx _]|(stored & n & _ & _ & _ & Hn & [(_ & _ & _ & _ & Hall)|[Hn' _]])]).
  - destruct Hx as [Hx|(i & stored & Hi & _)]; [congruence|vm_compute in Hi; discriminate].
  - intros t id s Hh. assert (n = 6) as <- by congruence. apply (Hall ltac:(split; vm_compute; reflexivity) t id s Hh).
  - assert (n = 6) as Hc by congruence. rewrite Hc in Hn'. discriminate.
Defined.

(** A body with a version takes the place of the seeding: with versions up to
    9 in the store, one that carries 2 raises the floor from nothing to 2, and
    the row it does not advance is issued 6. *)
Lemma floor_unseeded :
  let c := set_monotonic_row_versions true
    (load [MkBulkRecord "user" "user:a" (Object [("_00_rv", Int 5)]); MkBulkRecord "user" "user:b" (Object [("_00_rv", Int 9)])] Circuit.new) in
  max_of (max_row_versions c) = 9 ∧
  (floor_row_version "user" "user:a" (Object [("_00_rv", Int 2)]) c).1 = Object [("_00_rv", Int 6)] ∧
  (floor_row_version "user" "user:a" (Object []) c).1 = Object [("_00_rv", Int 10)].
Proof. vm_compute. split_and!; reflexivity. Qed.

(** A body with the largest version makes the next issued one the smallest. *)
Lemma floor_row_version_wraps :
  let '(first, c) := floor_row_version "user" "user:a" (Object [("_00_rv", Int (two63 - 1))]) versioned in
  let '(second, _) := floor_row_version "user" "user:a" (Object []) c in
  first = Object [("_00_rv", Int (two63 - 1))] ∧ second = Object [("_00_rv", Int (- two63))].
Proof. vm_compute. split; reflexivity. Qed.
