(* ===== verification/Viewed.v ===== *)
(** * A step keeps one view right, and a loop keeps them all

    What it means for a registered view to be right over a store ([view_ok]);
    [step_query] and [reprime_view] keep it so for any change of the store the
    view [handles]; the loop over the affected queries, and the queries that
    nothing touches. *)

From S2P Require Import Prelude Platform Float64 Value ValueRef ZSet SnapshotHash SortKey Index Store StoreFacts.
From S2P Require Import Operator Plan Filter LinearOps Join Witness WitnessFacts TopK Window Graph GraphFacts Exec.
From S2P Require Import Denote Support Maintain View Circuit Step Register Batch.
Local Open Scope Z_scope.

Section views.
Context `{HashingLaws} `{OrdSetLaws}.
Implicit Types (store : Store) (params : option Sp00kyValue) (plan : OperatorPlan) (g : Graph) (c : Circuit).

(** ** One graph *)

Lemma rebuild_free g nodes : g = with_nodes g nodes → Graph.needs_rebuild g = false →
  ∀ i node, nodes !! i = Some node → Operator.needs_rebuild (node_operator node) = false.
Proof.
  intros Hg Hnr i node Hi. rewrite Hg in Hnr. unfold Graph.needs_rebuild in Hnr. cbn in Hnr.
  destruct (Operator.needs_rebuild (node_operator node)) eqn:E; [|done]. rewrite <- Hnr. symmetry.
  apply existsb_exists. exists node. split; [|done]. apply list_elem_of_In. by eapply list_elem_of_lookup_2.
Qed.

Lemma built_node P nodes plan id : built P nodes plan id → ∃ node, nodes !! id = Some node.
Proof. destruct 1; eauto. Qed.

Lemma step_graph_spec g store store' deltas view plan params :
  store_ok store → store_ok store' → store_change store store' deltas → maintainable plan = true →
  v_params view = params → primed store params plan g →
  ∃ d g', step_graph g store' view deltas ∅ = Some (Some d, g') ∧
    (Graph.needs_rebuild g' = false →
       primed store' params plan g' ∧ zset_wf d ∧ denote plan store' params = ZSet.add (denote plan store params) d).
Proof.
  intros Hs Hs' Hch Hm <- (nodes & -> & Hrn & Hb & Hsl). unfold step_graph. rewrite bool_decide_eq_true_2 by done.
  change (updated_keys ∅) with (@nil RowKey). unfold inject. change (updated_keys ∅) with (@nil RowKey). cbn [try_fold].
  unfold step_nodes, Graph.node_count. cbn [g_topo_order g_nodes with_nodes].
  destruct (run_nodes_spec (step_feed deltas ∅) store' (v_params view) _ _ Hrn
    (step_feed_local _ _) (step_feed_total _ _ (rn_named _ _ Hrn))) as (nodes' & outputs & -> & Hlen & Hleno & Hrn' & Hsolved).
  cbn [g_output_node with_nodes].
  destruct (built_node _ _ _ _ Hb) as [node Hnode].
  destruct (Hsolved _ (lookup_lt_Some _ _ _ Hnode) _ Hnode) as (inputs & _ & _ & Hout). cbn [snd] in Hout.
  rewrite Hout. cbn [try_fold]. eexists _, _. split; [done|]. intros Hnr.
  destruct (step_built store store' (v_params view) deltas nodes nodes' outputs plan _ Hs Hs' Hch Hm Hb Hsolved
    ltac:(by apply (rebuild_free (with_nodes (with_nodes (Graph.from_plan plan) nodes) nodes')))) as [Hb' (d & Ho & Hwf & Hd)].
  rewrite Hout in Ho. injection Ho as <-. split; [|done]. exists nodes'. split_and!; [done..|].
  intros Hl. by eapply solved_stateless, Hsl.
Qed.

(** ** One view *)

Definition root (v : View) : OperatorPlan := qp_root (v_plan v).

(** What a registered view promises over [store]: a plan the engine maintains
    whose answer is a set, a graph primed for it, and the answer in the cache. *)
Record view_ok store g (v : View) : Prop := {
  vo_maintainable : maintainable (root v) = true;
  vo_presence : presence_plan (root v) = true;
  vo_graph : primed store (v_params v) (root v) g;
  vo_cache : v_cache v = denote (root v) store (v_params v);
}.

Lemma apply_delta_cache d v z : zset_wf (v_cache v) → zset_wf z → at_most_one z →
  z = ZSet.add (v_cache v) d → v_cache (View.apply_delta d v) = z.
Proof.
  intros Hc Hz Hone Heq. assert (∀ k, z !! k = ZSet.add (v_cache v) d !! k) as Hl by by rewrite Heq.
  apply map_eq. intros k. specialize (Hl k). specialize (Hone k).
  unfold View.apply_delta. cbn [set_cache v_cache]. unfold ZSet.add in Hl. rewrite lookup_for_each_entry in Hl |- *.
  destruct (d !! k) as [w|]; [|done]. rewrite Hl. unfold weight in Hone. rewrite Hl in Hone.
  clear Hl Hz Heq. destruct (i64_add (default 0 (v_cache v !! k)) w =? 0) eqn:E; cbn in Hone.
  - apply Z.eqb_eq in E. by rewrite E.
  - destruct Hone as [Hw|Hw]; by rewrite Hw in E |- *.
Qed.

(** Everything [publish] does to a view besides its cache is bookkeeping. *)
Definition same_query (v v' : View) : Prop := v_plan v' = v_plan v ∧ v_params v' = v_params v.

Lemma publish_view query_id store deltas updates d v :
  let v' := (publish query_id store deltas updates d v).2 in
  same_query v v' ∧ v_cache v' = v_cache (View.apply_delta d v).
Proof.
  unfold publish. cbn zeta. set (b := _ || _ || negb (bool_decide (_ = []))).
  destruct b; unfold subquery_step; cbn zeta; repeat case_match; done.
Qed.

Lemma run_initial_snapshot_spec id c v : ct_views c !! id = Some v →
  ct_graphs c !! id = Some (Graph.from_plan (root v)) → store_ok (ct_store c) →
  maintainable (root v) = true → presence_plan (root v) = true → v_cache v = ∅ →
  ∃ delta g v', run_initial_snapshot id c =
      Some (delta, set_views (<[id := v']> (ct_views c)) (set_graphs (<[id := g]> (ct_graphs c)) c)) ∧
    same_query v v' ∧ view_ok (ct_store c) g v'.
Proof.
  intros Hv Hg Hs Hm Hp Hc. unfold run_initial_snapshot. rewrite Hg, Hv.
  destruct (prime_graph_spec (ct_store c) (v_params v) (root v) Hs Hm) as (g & -> & Hprimed).
  destruct (denote_good (ct_store c) (root v) (v_params v) Hs Hm) as [Hwf _ Hone].
  case_bool_decide as He.
  - exists None, g, v. split; [rewrite (insert_id (ct_views c)) by done; by destruct c|]. split; [done|]. split; [done..|]. by rewrite Hc, He.
  - eexists _, g, _. split; [done|]. split; [done|]. split; [done..|].
    cbn [v_cache set_subquery_cache set_last_hash v_plan v_params root].
    apply (apply_delta_cache _ v); rewrite ?Hc; [apply zset_empty_wf|done|by apply Hone|]. by rewrite add_empty_l.
Qed.


(** ** One query of a circuit *)

(** [c'] is [c] but for the graph and the view of [id]. *)
Definition only_query (id : string) c c' : Prop :=
  ∃ graphs views, c' = set_graphs graphs (set_views views c) ∧
    ∀ id', id' ≠ id → graphs !! id' = ct_graphs c !! id' ∧ views !! id' = ct_views c !! id'.

Lemma only_query_refl id c : only_query id c c.
Proof. exists (ct_graphs c), (ct_views c). split; [by destruct c|done]. Qed.

Lemma only_query_trans id c c' c'' : only_query id c c' → only_query id c' c'' → only_query id c c''.
Proof.
  intros (g & v & -> & Hgv) (g' & v' & -> & Hgv'). exists g', v'. split; [done|]. intros id' Hid.
  destruct (Hgv id' Hid) as [<- <-]. apply Hgv'. done.
Qed.

Lemma only_query_views id views c : (∀ id', id' ≠ id → views !! id' = ct_views c !! id') → only_query id c (set_views views c).
Proof. intros Hv. exists (ct_graphs c), views. split; [by destruct c|auto]. Qed.

Lemma only_query_graphs id graphs c : (∀ id', id' ≠ id → graphs !! id' = ct_graphs c !! id') → only_query id c (set_graphs graphs c).
Proof. intros Hg. exists graphs, (ct_views c). split; [by destruct c|auto]. Qed.

Lemma lookup_elsewhere {A} (m : gmap string A) (id id' : string) (x : A) : id' ≠ id → <[id := x]> m !! id' = m !! id'.
Proof. intros Hne. by apply lookup_insert_ne. Qed.

Hint Resolve only_query_refl only_query_views only_query_graphs lookup_elsewhere : core.

(** The view of [id] is in order, and asks what it asked before. *)
Definition query_ok store (id : string) (v0 : View) c : Prop :=
  ∃ g v, ct_graphs c !! id = Some g ∧ ct_views c !! id = Some v ∧ same_query v0 v ∧ view_ok store g v.

Lemma reprime_view_spec id c v : ct_views c !! id = Some v → store_ok (ct_store c) →
  maintainable (root v) = true → presence_plan (root v) = true →
  ∃ out c', reprime_view id c = Some (out, c') ∧ only_query id c c' ∧ query_ok (ct_store c) id v c'.
Proof.
  intros Hv Hs Hm Hp. unfold reprime_view. rewrite Hv.
  set (v1 := set_last_hash "" _). set (c1 := set_views (<[id := v1]> (ct_views c)) c).
  set (c2 := set_graphs (<[id := Graph.from_plan (qp_root (v_plan v1))]> (ct_graphs c1)) c1).
  assert (only_query id c c2) as H02.
  { eapply only_query_trans; [apply only_query_views|apply only_query_graphs]; auto. }
  destruct (run_initial_snapshot_spec id c2 v1) as (delta & g & v' & -> & [Hplan Hpar] & Hok);
    [cbn; by rewrite lookup_insert_eq|cbn; by rewrite lookup_insert_eq|done..|].
  set (c3 := set_views _ (set_graphs _ c2)).
  assert (only_query id c c3) as H03.
  { eapply only_query_trans; [exact H02|]. eapply only_query_trans; [apply only_query_graphs|apply only_query_views]; auto. }
  assert (ct_graphs c3 !! id = Some g ∧ ct_views c3 !! id = Some v') as [Hg3 Hv3]
    by (cbn; by rewrite !lookup_insert_eq).
  destruct delta as [delta|].
  - eexists _, c3. split_and!; [done..|]. by exists g, v'.
  - rewrite Hv3. eexists _, _. split_and!; [done| |].
    + eapply only_query_trans; [exact H03|]. apply only_query_views; auto.
    + exists g, (set_last_hash (View.compute_hash v') v'). split_and!; [done|cbn; by rewrite lookup_insert_eq|done|].
      by destruct Hok.
Qed.

(** The tables of a plan's scans. *)
Fixpoint scanned plan : list string :=
  match plan with
  | OpScan table => [table]
  | OpFilter i _ | OpDistinct i | OpProject i _ | OpLimit i _ _ _ => scanned i
  | OpJoin l r _ | OpSemiJoin l r _ | OpAntiJoin l r _ | OpUnion l r => scanned l ++ scanned r
  end.

Lemma scanned_referenced plan t : t ∈ scanned plan → t ∈ referenced_tables plan.
Proof. rewrite elem_of_referenced_tables. induction plan; cbn; rewrite ?elem_of_app; naive_solver. Qed.

Lemma scanned_children plan d t : d ∈ children plan → t ∈ scanned d → t ∈ scanned plan.
Proof. destruct plan; cbn; intros Hc Ht; set_solver. Qed.

(** What the loop needs to know of one view, for a given change of the store:
    the graph's pass runs and its delta brings the cache up to date, unless a
    rebuild is due; and nothing is needed when no table it scans changed. *)
Record handles store store' deltas (updates : gmap string (list RowKey)) (v : View) : Prop := {
  ha_step : ∀ g, view_ok store g v → ∃ d g', step_graph g store' v deltas updates = Some (Some d, g') ∧
    (Graph.needs_rebuild g' = false →
       primed store' (v_params v) (root v) g' ∧
       v_cache (View.apply_delta d v) = denote (root v) store' (v_params v));
  ha_idle : ∀ g, (∀ t, t ∈ scanned (root v) → default ∅ (deltas !! t) = ∅ ∧ default [] (updates !! t) = []) →
    view_ok store g v → view_ok store' g v;
}.

Lemma step_query_spec id c v g store deltas updates : ct_views c !! id = Some v → ct_graphs c !! id = Some g →
  handles store (ct_store c) deltas updates v → view_ok store g v →
  ∃ out c' g' v', step_query id deltas updates c = Some (out, c') ∧ only_query id c c' ∧
    ct_graphs c' !! id = Some g' ∧ ct_views c' !! id = Some v' ∧ same_query v v' ∧
    (Graph.needs_rebuild g' = false → view_ok (ct_store c) g' v').
Proof.
  intros Hv Hg Hh Hok. pose proof Hok as [Hm Hp _ _]. unfold step_query. rewrite Hv, Hg.
  destruct (ha_step _ _ _ _ _ Hh g Hok) as (d & g' & -> & Hspec).
  pose proof (publish_view id (ct_store c) deltas updates d v) as [[Hplan Hpar] Hcache].
  cbn [ct_store set_graphs].
  destruct (publish id (ct_store c) deltas updates d v) as [delta v']. cbn [snd] in *.
  eexists delta, _, g', v'. split; [done|]. split_and!.
  - eapply only_query_trans; [apply only_query_graphs|apply only_query_views]; auto.
  - cbn. by rewrite lookup_insert_eq.
  - cbn. by rewrite lookup_insert_eq.
  - done.
  - intros Hnr. destruct (Hspec Hnr) as (Hpr' & Hd). unfold root in *.
    split; unfold root; rewrite ?Hplan, ?Hpar; [done..|]. by rewrite Hcache.
Qed.

Lemma step_affected_spec id c v g store deltas updates results : ct_views c !! id = Some v → ct_graphs c !! id = Some g →
  store_ok (ct_store c) → handles store (ct_store c) deltas updates v → view_ok store g v →
  ∃ results' c', step_affected deltas updates (results, c) id = Some (results', c') ∧ only_query id c c' ∧
    query_ok (ct_store c) id v c'.
Proof.
  intros Hv Hg Hs' Hh Hok. unfold step_affected. cbn zeta beta.
  destruct (step_query_spec id c v g store deltas updates Hv Hg Hh Hok)
    as (out & c1 & g1 & v1 & -> & H01 & Hg1 & Hv1 & Hsame & Hok1).
  rewrite Hg1. destruct (Graph.needs_rebuild g1) eqn:Hnr.
  - pose proof H01 as (gs & vs & -> & _). destruct Hok as [Hm Hp _ _]. destruct Hsame as [Hplan Hpar].
    destruct (reprime_view_spec id (set_graphs gs (set_views vs c)) v1) as (out' & c' & -> & H1' & g' & v' & Hg' & Hv' & [Hplan' Hpar'] & Hok');
      [done..|unfold root in *; by rewrite Hplan|unfold root in *; by rewrite Hplan|].
    eexists _, _. split_and!; [done|by eapply only_query_trans|]. exists g', v'.
    split_and!; [done|done|split; congruence|done].
  - exists (match out with Some delta => results ++ fan_out c1 delta | None => results end), c1.
    split_and!; [by destruct out|done|]. exists g1, v1. auto.
Qed.

(** ** Queries a batch does not touch *)

Lemma witness_idle st store on anti : content_updates st = ∅ →
  WitnessState.step st [∅; ∅] store on anti = (∅, st).
Proof.
  intros Hc. unfold WitnessState.step. change (input [∅; ∅] 0) with (∅ : ZSet). change (input [∅; ∅] 1) with (∅ : ZSet).
  assert (∀ rows : gmap string InputRow, dom (∅ : ZSet) ∪ filter (λ key, is_Some (rows !! key)) (content_updates st) = ∅) as Hno
    by (intros rows; rewrite Hc; set_solver).
  cbn zeta. rewrite !Hno, elements_empty. cbn [foldl]. rewrite map_to_list_empty. cbn [foldl WitnessState.nt_changed].
  rewrite elements_empty. cbn [fmap list_fmap]. rewrite union_list_nil, union_empty_r_L, elements_empty. cbn [foldl].
  cbn [WitnessState.nt_by_hash WitnessState.nt_kinds WitnessState.nt_nan]. destruct st; cbn in Hc |- *. by subst.
Qed.

Lemma displacement_idle window : TopKOp.displacement window window = ∅.
Proof.
  unfold TopKOp.displacement. assert (List.filter (λ k, negb (bool_decide (k ∈ window))) window = []) as ->; [|done].
  assert (∀ l, l ⊆ window → List.filter (λ k, negb (bool_decide (k ∈ window))) l = []) as Hl; [|by apply Hl].
  induction l as [|k l IH]; intros Hin; [done|]. cbn. rewrite bool_decide_eq_true_2 by set_solver. apply IH. set_solver.
Qed.

(** An operator that is fed nothing keeps its state and says nothing. *)
Lemma step_idle plan op store params : maintainable plan = true → children plan ≠ [] → implements plan op → quiet op →
  step op (map (λ _, ∅ : ZSet) (children plan)) store params = (∅, op).
Proof.
  intros Hm Hc Hi Hq. destruct plan, op; try done; cbn -[TopKOp.step].
  - unfold SemiJoinOp.step. cbn in Hq. rewrite witness_idle by done. by destruct op.
  - unfold AntiJoinOp.step. cbn in Hq. rewrite witness_idle by done. by destruct op.
  - by destruct op.
  - unfold TopKOp.step. cbn. rewrite displacement_idle. done.
Qed.

Lemma tracked_no_rebuild store params plan op : tracked store params plan op → Operator.needs_rebuild op = false.
Proof. intros (Hi & _ & Ht). destruct plan, op; try done. cbn in Ht. by destruct Ht as (_ & _ & ?). Qed.

Lemma add_empty_r z : zset_wf z → ZSet.add z ∅ = z.
Proof.
  intros Hz. apply zset_ext; [by apply add_wf|done|]. intros k.
  rewrite weight_add, weight_empty by done. unfold i64_add. rewrite Z.add_0_r. apply wrap_i64_id, weight_range, Hz.
Qed.

Lemma idle_node store store' params plan op deltas :
  store_ok store → store_ok store' → store_change store store' deltas → maintainable plan = true →
  children plan ≠ [] → tracked store params plan op → answers plan store' params = answers plan store params →
  denote plan store' params = denote plan store params ∧ tracked store' params plan op.
Proof.
  intros Hs Hs' Hch Hm Hc Htr Hans. pose proof Htr as (Hi & Hq & _).
  pose proof (step_idle plan op store' params Hm Hc Hi Hq) as Hidle.
  set (ds := map (λ _, ∅ : ZSet) (children plan)) in *.
  pose proof (step_node store store' params plan op deltas ds Hs Hs' Hch Hm Hc Htr) as Hstep.
  rewrite Hidle in Hstep. destruct Hstep as (_ & Hd & Htr').
  - apply Forall_forall. intros z (? & -> & _)%list_elem_of_fmap. apply zset_empty_wf.
  - rewrite Hans. pose proof (answers_wf store params plan Hs Hm) as Hwf. unfold ds, answers in *. clear -Hwf.
    induction (children plan) as [|c l IH]; cbn in *; [done|].
    apply Forall_cons in Hwf as [Hw Hwf]. by rewrite add_empty_r, <- IH.
  - unfold ds. apply length_map.
  - by eapply tracked_no_rebuild.
  - split; [|done]. rewrite Hd. apply add_empty_r. by apply (gd_wf store plan), denote_good.
Qed.

Lemma built_idle store store' params deltas nodes plan id :
  store_ok store → store_ok store' → store_change store store' deltas → maintainable plan = true →
  (∀ t, t ∈ scanned plan → default ∅ (deltas !! t) = ∅) → built (tracked store params) nodes plan id →
  built (tracked store' params) nodes plan id ∧ denote plan store' params = denote plan store params.
Proof.
  intros Hs Hs' Hch Hm Hno Hb. revert Hm Hno.
  induction Hb as [plan id op Hc Hn Htr|plan id op c i Hc Hn Htr Hb IH|plan id op c d i j Hc Hn Htr Hbc IHc Hbd IHd];
    intros Hm Hno.
  - destruct plan, op; try done; try (by destruct Htr).
    split; [by eapply built_leaf|]. cbn. etransitivity; [apply (sc_membership _ _ _ Hch)|].
    rewrite Hno by set_solver. apply add_empty_r. apply (good_scan store table Hs).
  - assert (maintainable c = true) as Hmc by (eapply maintainable_children; [done|]; rewrite Hc; set_solver).
    destruct IH as [Hbuilt Hd]; [done|intros t Ht; apply Hno; eapply scanned_children; [|done]; rewrite Hc; set_solver|].
    destruct (idle_node store store' params plan op deltas Hs Hs' Hch Hm ltac:(by rewrite Hc) Htr) as [Hden Htr'].
    { unfold answers. rewrite Hc. cbn. by rewrite Hd. }
    split; [by eapply built_unary|done].
  - destruct IHc as [Hbuiltc Hdc];
      [eapply maintainable_children; [done|]; rewrite Hc; set_solver
      |intros t Ht; apply Hno; eapply scanned_children; [|done]; rewrite Hc; set_solver|].
    destruct IHd as [Hbuiltd Hdd];
      [eapply maintainable_children; [done|]; rewrite Hc; set_solver
      |intros t Ht; apply Hno; eapply scanned_children; [|done]; rewrite Hc; set_solver|].
    destruct (idle_node store store' params plan op deltas Hs Hs' Hch Hm ltac:(by rewrite Hc) Htr) as [Hden Htr'].
    { unfold answers. rewrite Hc. cbn. by rewrite Hdc, Hdd. }
    split; [by eapply built_binary|done].
Qed.

Lemma view_idle store store' deltas g v :
  store_ok store → store_ok store' → store_change store store' deltas →
  (∀ t, t ∈ scanned (root v) → default ∅ (deltas !! t) = ∅) → view_ok store g v → view_ok store' g v.
Proof.
  intros Hs Hs' Hch Hno [Hm Hp (nodes & -> & Hrn & Hb & Hsl) Hc].
  destruct (built_idle store store' (v_params v) deltas nodes (root v) _ Hs Hs' Hch Hm Hno Hb) as [Hb' Hd].
  split; [done|done|by exists nodes|by rewrite Hd].
Qed.

Lemma handles_plain store store' deltas v :
  store_ok store → store_ok store' → store_change store store' deltas → handles store store' deltas ∅ v.
Proof.
  intros Hs Hs' Hch. split.
  - intros g [Hm Hp Hpr Hc].
    destruct (step_graph_spec g store store' deltas v (root v) (v_params v)) as (d & g' & Hstep & Hspec); [done..|].
    exists d, g'. split; [done|]. intros Hnr. destruct (Hspec Hnr) as (Hpr' & Hwf & Hd). split; [done|].
    destruct (denote_good store' (root v) (v_params v) Hs' Hm) as [Hwf' _ Hone'].
    destruct (denote_good store (root v) (v_params v) Hs Hm) as [Hwf0 _ _].
    apply apply_delta_cache; [by rewrite Hc|done|by apply Hone'|by rewrite Hc].
  - intros g Hno Hok. apply (view_idle store store' deltas); [done..| |done]. intros t Ht. by apply Hno.
Qed.

Lemma view_clear store g v : store_ok store → view_ok store g v → view_ok (Store.clear_pending_deleted_rows store) g v.
Proof.
  intros Hs [Hm Hp (nodes & -> & Hrn & Hb & Hsl) Hc]. split; [done|done| |by rewrite denote_clear].
  exists nodes. split_and!; [done|done| |done]. eapply built_impl; [done| |done]. intros p op Hp' Ht. by apply tracked_clear.
Qed.

(** ** The loop over the affected queries *)

(** The queries of [done_] are in order over the circuit's store, the others
    as [c0] has them. *)
Record walk_inv (c0 : Circuit) (done_ : list string) c : Prop := {
  wv_frame : ∃ graphs views, c = set_graphs graphs (set_views views c0);
  wv_done : ∀ id v, ct_views c0 !! id = Some v → id ∈ done_ → query_ok (ct_store c0) id v c;
  wv_todo : ∀ id, id ∉ done_ → ct_graphs c !! id = ct_graphs c0 !! id ∧ ct_views c !! id = ct_views c0 !! id;
  wv_none : ∀ id, ct_views c0 !! id = None → ct_views c !! id = None;
}.

Lemma step_affected_none deltas updates results c id : ct_views c !! id = None →
  step_affected deltas updates (results, c) id = Some (results, c).
Proof.
  intros Hv. unfold step_affected, step_query. rewrite Hv.
  assert (∀ T (o : option T) (x : option ViewDelta * Circuit), match o with Some _ => x | None => x end = x) as Hm by (by intros T []).
  destruct (ct_graphs c !! id) as [g|] eqn:Hg; rewrite ?Hg; [|done].
  destruct (Graph.needs_rebuild g); [|done]. unfold reprime_view. rewrite Hv. by rewrite app_nil_r.
Qed.

(** A circuit whose store has moved on from [store] by [deltas] and [updates],
    and whose views have not. *)
Record pending store (c0 : Circuit) (deltas : gmap string ZSet) (updates : gmap string (list RowKey)) : Prop := {
  pe_store : store_ok (ct_store c0);
  pe_views : ∀ id v, ct_views c0 !! id = Some v → ∃ g, ct_graphs c0 !! id = Some g ∧ view_ok store g v;
  pe_handles : ∀ id v, ct_views c0 !! id = Some v → handles store (ct_store c0) deltas updates v;
}.

Lemma step_affected_walk c0 done_ c store deltas updates results id :
  pending store c0 deltas updates → walk_inv c0 done_ c → id ∉ done_ →
  ∃ results' c', step_affected deltas updates (results, c) id = Some (results', c') ∧ walk_inv c0 (done_ ++ [id]) c'.
Proof.
  intros [Hs' Hviews Hh] Hinv Hid. pose proof Hinv as [(gs & vs & ->) Hdone Htodo Hnone].
  destruct (Htodo id Hid) as [Hgid Hvid]. destruct (ct_views c0 !! id) as [v|] eqn:Hv.
  - destruct (Hviews id v Hv) as (g & Hg & Hok). rewrite Hg in Hgid.
    destruct (step_affected_spec id (set_graphs gs (set_views vs c0)) v g store deltas updates results Hvid Hgid Hs' (Hh id v Hv) Hok)
      as (results' & c' & Hstep & (gs' & vs' & -> & Hother) & Hq).
    exists results', (set_graphs gs' (set_views vs' (set_graphs gs (set_views vs c0)))). split; [done|].
    cbn in Hother. split.
    + by exists gs', vs'.
    + intros id' v' Hv' [Hin|Hin%list_elem_of_singleton]%elem_of_app.
      * destruct (decide (id' = id)) as [->|Hne]; [done|]. destruct (Hother id' Hne) as [Hg' Hw'].
        destruct (Hdone id' v' Hv' Hin) as (g2 & v2 & Hg2 & Hv2 & ? & ?). exists g2, v2. cbn in *. split_and!; congruence || done.
      * subst. rewrite Hv in Hv'. injection Hv' as <-. done.
    + intros id' Hin. rewrite elem_of_app, list_elem_of_singleton in Hin.
      destruct (Hother id' ltac:(tauto)) as [Hg' Hw']. cbn. rewrite Hg', Hw'. apply Htodo. tauto.
    + intros id' Hv'. destruct (decide (id' = id)) as [->|Hne]; [congruence|].
      cbn. rewrite (proj2 (Hother id' Hne)). by apply Hnone.
  - rewrite step_affected_none by done. eexists _, _. split; [done|]. split; [by exists gs, vs| | |done].
    + intros id' v' Hv' [Hin|Hin%list_elem_of_singleton]%elem_of_app; [by apply Hdone|congruence].
    + intros id' Hin. apply Htodo. rewrite elem_of_app in Hin. tauto.
Qed.

Lemma affected_walk c0 store deltas updates ids done_ c results :
  pending store c0 deltas updates → walk_inv c0 done_ c → NoDup (done_ ++ ids) →
  ∃ results' c', try_fold (step_affected deltas updates) (results, c) ids = Some (results', c') ∧ walk_inv c0 (done_ ++ ids) c'.
Proof.
  intros Hpe. revert done_ c results. induction ids as [|id ids IH]; intros done_ c results Hinv Hnd.
  - exists results, c. by rewrite app_nil_r.
  - destruct (step_affected_walk c0 done_ c store deltas updates results id Hpe Hinv) as (r1 & c1 & Hstep & Hinv1).
    { apply NoDup_app in Hnd as (_ & Hd & _). intros Hin. apply (Hd id Hin). left. }
    cbn [try_fold]. rewrite Hstep. rewrite cons_middle, app_assoc in Hnd |- *. by apply IH.
Qed.
End views.
