(* ===== verification/Correct.v ===== *)
(** * Content updates of filtered tables

    A view over one table, filtered and projected, follows content updates as
    well: after the delta pass each updated key is walked through the graph
    again, and joins or leaves the view by what its row says now. The second
    part: a circuit keeps all of its views right. *)

From S2P Require Import Prelude Platform Float64 Value ValueRef ZSet SnapshotHash SortKey Index Store StoreFacts Plan.
From S2P Require Import Operator Filter LinearOps Join Witness WitnessFacts TopK Window Graph GraphFacts Exec Denote.
From S2P Require Import Support Maintain View Circuit Step Register Batch Viewed.
Local Open Scope Z_scope.

(** ** Loops in topological order *)

Section topo.
Context `{Hashing} `{OrdSet}.

(** A fold over an order that can run meets every node after its inputs. *)
Lemma topo_fold {S : Type} (f : S → nat → option S) (Inv : list nat → S → Prop) (nodes : list Node) order s :
  runnable nodes order → Inv [] s →
  (∀ done_ s id node, Inv done_ s → nodes !! id = Some node → (∀ u, u ∈ node_inputs node → u ∈ done_) →
     ∃ s', f s id = Some s' ∧ Inv (done_ ++ [id]) s') →
  ∃ s', try_fold f s order = Some s' ∧ Inv order s'.
Proof.
  intros [Hwf Hperm Hord] Hstart Hstep.
  assert (∀ rest done_ s, order = done_ ++ rest → Inv done_ s → ∃ s', try_fold f s rest = Some s' ∧ Inv order s') as Hgo;
    [|by apply (Hgo order [])].
  induction rest as [|id rest IH]; intros done_ s0 Heq Hinv; [exists s0; by rewrite Heq, app_nil_r|].
  assert (order !! length done_ = Some id) as Hat by (rewrite Heq; by apply list_lookup_middle).
  assert ((id < length nodes)%nat) as Hlt.
  { apply list_elem_of_lookup_2 in Hat. rewrite Hperm, elem_of_seq in Hat. lia. }
  destruct (lookup_lt_is_Some_2 nodes id Hlt) as [node Hn].
  destruct (Hstep done_ s0 id node Hinv Hn) as (s1 & Hf & Hinv1).
  { specialize (Hord _ _ Hat). rewrite Heq, take_app_length in Hord. unfold inputs_of in Hord. rewrite Hn in Hord.
    cbn in Hord. by rewrite Forall_forall in Hord. }
  cbn [try_fold]. rewrite Hf. apply (IH (done_ ++ [id])); [by rewrite <- app_assoc|done].
Qed.
End topo.

Section linear.
Context `{HashingLaws} `{OrdSetLaws}.
Implicit Types (store : Store) (params : option Sp00kyValue) (plan : OperatorPlan) (g : Graph) (nodes : list Node).

(** ** What a linear plan asks of a row *)

Fixpoint source_table plan : string :=
  match plan with
  | OpScan table => table
  | OpFilter i _ | OpDistinct i | OpProject i _ | OpLimit i _ _ _ => source_table i
  | OpJoin l _ _ | OpSemiJoin l _ _ | OpAntiJoin l _ _ | OpUnion l _ => source_table l
  end.

Fixpoint keep plan (k : RowKey) store params : bool :=
  match plan with
  | OpFilter i predicate => FilterOp.check_predicate (MkFilter predicate) k store params && keep i k store params
  | OpProject i _ => keep i k store params
  | _ => true
  end.

Lemma linear_scanned plan : linear plan = true → scanned plan = [source_table plan].
Proof. induction plan; intros Hl; try done; cbn in *; auto. Qed.

Lemma weight_linear plan store params k : linear plan = true →
  weight (denote plan store params) k =
    if keep plan k store params then weight (ScanOp.table_membership store (source_table plan)) k else 0.
Proof.
  induction plan; intros Hl; try done; cbn in Hl.
  - cbn [keep source_table].
    change (denote (OpFilter plan predicate) store params) with
      (filter_keys (λ key, FilterOp.check_predicate (MkFilter predicate) key store params) (denote plan store params)).
    rewrite weight_filter_key, IHplan by done. by destruct (FilterOp.check_predicate _ _ _ _), (keep _ _ _ _).
  - by apply IHplan.
Qed.

Lemma keep_row plan k store store' params :
  Store.get_row_by_key_or_deleted store k = Store.get_row_by_key_or_deleted store' k →
  keep plan k store params = keep plan k store' params.
Proof.
  intros Hrow. induction plan; cbn; try done. rewrite IHplan. unfold FilterOp.check_predicate.
  by rewrite (check_predicate_row _ k store store').
Qed.

(** ** The delta pass of a linear graph *)

Lemma linear_pass store params deltas nodes nodes' outputs plan id : linear plan = true →
  built implements nodes plan id →
  (∀ i, (i < length nodes)%nat → solved (step_feed deltas ∅) store params nodes (nodes', outputs) i) →
  outputs !! id = Some (Some (filter_keys (λ k, keep plan k store params) (default ∅ (deltas !! source_table plan)))).
Proof.
  intros Hl Hb Hsolved. revert Hl.
  induction Hb as [plan id op Hc Hn Hi|plan id op c i Hc Hn Hi Hb IH|plan id op c d i j Hc Hn Hi Hbc IHc Hbd IHd];
    intros Hl; destruct (Hsolved id (lookup_lt_Some _ _ _ Hn) _ Hn) as (inputs & Hfeed & _ & Hout); cbn [fst snd node_operator] in *.
  - destruct plan, op; try done. cbn in Hi. subst table. unfold step_feed in Hfeed. cbn in Hfeed. injection Hfeed as <-.
    rewrite Hout. cbn. do 2 f_equal. apply map_eq. intros k. unfold filter_keys. rewrite map_lookup_filter.
    by destruct (_ !! k).
  - assert (linear c = true) as Hlc by (destruct plan; try done; cbn in Hc; by injection Hc as <-).
    specialize (IH Hlc). rewrite (proj2 (feed_inputs store params deltas plan (MkNode _ id op [i]) outputs Hi ltac:(by rewrite Hc))) in Hfeed.
    cbn [node_inputs] in Hfeed. rewrite (gather_one _ _ _ IH) in Hfeed. injection Hfeed as <-.
    rewrite Hout. destruct plan, op; try done; cbn in Hc, Hi; injection Hc as <-; subst.
    + set (d := default ∅ (deltas !! _)).
      change (Some (Some (filter_keys (λ key, FilterOp.check_predicate (MkFilter predicate) key store params)
        (filter_keys (λ k, keep plan k store params) d))) = Some (Some (filter_keys (λ k, keep (OpFilter plan predicate) k store params) d))).
      do 2 f_equal. apply map_eq. intros k. unfold filter_keys. rewrite !map_lookup_filter. cbn [keep fst].
      generalize (FilterOp.check_predicate (MkFilter predicate) k store params), (keep plan k store params).
      intros b b'. by destruct (d !! k) as [w|], b, b'.
    + done.
  - by destruct plan.
Qed.

(** ** A stateless graph takes content updates in one walk *)

Lemma note_stateless keys nodes : all_stateless nodes →
  map (λ node, with_operator node (note_content_updates (node_operator node) keys)) nodes = nodes.
Proof.
  intros Hs. apply list_eq. intros i. rewrite list_lookup_fmap. destruct (nodes !! i) as [node|] eqn:Hn; [|done]. cbn.
  specialize (Hs i node Hn). destruct node as [nid op ins]. by destruct op.
Qed.

Lemma inject_port_stateless (node : Node) key n injected p : stateless (node_operator node) = true →
  inject_port node key n injected p = injected.
Proof. intros Hs. destruct node as [nid op ins], p as [port now]. by destruct op. Qed.

Lemma inject_ports_stateless (node : Node) key n injected ports : stateless (node_operator node) = true →
  foldl (inject_port node key n) injected ports = injected.
Proof. intros Hs. induction ports as [|p ports IH]; [done|]. cbn [foldl]. by rewrite inject_port_stateless. Qed.

Lemma inject_stateless g store params updates : runnable (g_nodes g) (g_topo_order g) → all_stateless (g_nodes g) →
  inject g store params updates = Some ∅.
Proof.
  intros Hrn Hs. unfold inject. induction (updated_keys updates) as [|key keys IH]; [done|]. cbn [try_fold].
  enough (inject_key g store params ∅ key = Some ∅) as -> by done. unfold inject_key.
  destruct (topo_fold (inject_node g store params key) (λ _ state, state.2 = (∅ : gmap nat (list ZSet))) (g_nodes g) (g_topo_order g)
    (replicate (Graph.node_count g) false, ∅) Hrn eq_refl) as ([evals injected] & -> & Heq); [|by cbn in Heq; subst].
  intros done_ [evals injected] id node Heq Hn _. cbn in Heq. subst injected. unfold inject_node, eval_node.
  rewrite Hn, inject_ports_stateless by by apply (Hs id). by eexists.
Qed.

Definition holds store (t : string) (k : RowKey) : bool :=
  match Store.get_collection store t with Some c => Collection.has_key c k | None => false end.

(** What the walk finds at a sub-plan's node. *)
Definition passes plan (k : RowKey) store params : bool := holds store (source_table plan) k && keep plan k store params.

Record walked nodes store params (k : RowKey) (done_ : list nat) (w : Walk) : Prop := {
  wd_nodes : wk_nodes w = nodes;
  wd_reordered : wk_reordered w = None;
  wd_length : length (wk_evals w) = length nodes;
  wd_evals : ∀ p i, i ∈ done_ → linear p = true → built implements nodes p i → wk_evals w !! i = Some (passes p k store params);
}.

Lemma evaluate_linear nodes store params k plan id evals : linear plan = true → built implements nodes plan id →
  (∀ node, nodes !! id = Some node →
     ∀ p i, i ∈ node_inputs node → linear p = true → built implements nodes p i → evals !! i = Some (passes p k store params)) →
  ∀ node, nodes !! id = Some node →
    evaluate_key (node_operator node) k (input_evals evals node) store params = passes plan k store params.
Proof.
  intros Hl Hb Hin node Hnode. specialize (Hin node Hnode).
  inversion Hb as [p i op Hc Hn Hi|p i op c j Hc Hn Hi Hbc|p i op c d j l Hc Hn Hi Hbc Hbd]; subst p i;
    rewrite Hnode in Hn; injection Hn as ->; cbn [node_operator node_inputs] in *.
  - destruct plan, op; try done. cbn in Hi. subst table. unfold passes, holds. cbn. by rewrite andb_true_r.
  - assert (linear c = true) as Hlc by (destruct plan; try done; cbn in Hc; by injection Hc as <-).
    specialize (Hin c j ltac:(left) Hlc Hbc). unfold input_evals. cbn [node_inputs map]. rewrite Hin. cbn [default].
    destruct plan, op; try done; cbn in Hc, Hi; injection Hc as <-; subst.
    + change (passes plan k store params && FilterOp.check_predicate (MkFilter predicate) k store params =
        passes (OpFilter plan predicate) k store params).
      unfold passes. cbn [source_table keep]. by rewrite (andb_comm (FilterOp.check_predicate _ _ _ _)), andb_assoc.
    + done.
  - by destruct plan.
Qed.

Lemma walk_linear nodes order store params k plan id : runnable nodes order → all_stateless nodes →
  linear plan = true → built implements nodes plan id →
  ∃ evals, try_fold (walk_node store params k) (MkWalk nodes (replicate (length nodes) false) None) order =
      Some (MkWalk nodes evals None) ∧ evals !! id = Some (passes plan k store params).
Proof.
  intros Hrn Hs Hl Hb.
  destruct (topo_fold (walk_node store params k) (walked nodes store params k) nodes order
    (MkWalk nodes (replicate (length nodes) false) None) Hrn) as (w & -> & [Hnodes Hre _ Hev]).
  - split; cbn; [done|done|apply length_replicate|intros ? ? []%elem_of_nil].
  - intros done_ [ns evals r] i node [Hnodes Hre Hlen Hev] Hn Hin. cbn in *. subst ns r. unfold walk_node. cbn [wk_nodes wk_reordered wk_evals].
    rewrite Hn. assert (∀ up, reorder_key (node_operator node) k up store params = None) as Hnone.
    { intros up. specialize (Hs i node Hn). by destruct (node_operator node). }
    rewrite Hnone, Hn. eexists. split; [done|]. split; cbn; [done|done|by rewrite length_insert|].
    intros p j Hj Hlp Hbp. destruct (decide (j = i)) as [->|Hne].
    + rewrite list_lookup_insert_eq by (rewrite Hlen; by eapply lookup_lt_Some). f_equal.
      apply (evaluate_linear nodes store params k p i evals Hlp Hbp); [|done].
      intros node' Hn' q u Hu Hlq Hbq. rewrite Hn in Hn'. injection Hn' as <-. apply Hev; [by apply Hin|done..].
    + rewrite list_lookup_insert_ne by done. apply Hev; [set_solver|done..].
  - destruct w as [ns evals r]. cbn in *. subst ns r. exists evals. split; [done|]. apply Hev; [|done..].
    destruct (built_node _ _ _ _ Hb) as [node Hn]. rewrite (rn_perm _ _ Hrn), elem_of_seq.
    apply lookup_lt_Some in Hn. lia.
Qed.

Lemma built_solved feed store params nodes nodes' outputs plan id : built implements nodes plan id →
  (∀ i, (i < length nodes)%nat → solved feed store params nodes (nodes', outputs) i) →
  built implements nodes' plan id.
Proof.
  intros Hb Hsolved.
  induction Hb as [plan id op Hc Hn Hi|plan id op c i Hc Hn Hi Hb IH|plan id op c d i j Hc Hn Hi Hbc IHc Hbd IHd];
    destruct (Hsolved id (lookup_lt_Some _ _ _ Hn) _ Hn) as (inputs & _ & Hop & _); cbn in Hop.
  - eapply built_leaf; [done|exact Hop|by apply implements_step].
  - eapply built_unary; [done|exact Hop|by apply implements_step|done].
  - eapply built_binary; [done|exact Hop|by apply implements_step|done..].
Qed.

(** A linear graph has no state to keep: it is primed for any store. *)
Lemma linear_tracked nodes store params plan id : linear plan = true → built implements nodes plan id →
  built (tracked store params) nodes plan id.
Proof.
  intros Hl Hb. revert Hl.
  induction Hb as [plan id op Hc Hn Hi|plan id op c i Hc Hn Hi Hb IH|plan id op c d i j Hc Hn Hi Hbc IHc Hbd IHd]; intros Hl.
  - eapply built_leaf; [done..|]. by destruct plan, op.
  - eapply built_unary; [done..| |].
    + by destruct plan, op.
    + apply IH. destruct plan; try done; cbn in Hc; by injection Hc as <-.
  - by destruct plan.
Qed.

Lemma tracked_implements nodes store params plan id : built (tracked store params) nodes plan id → built implements nodes plan id.
Proof.
  induction 1 as [plan id op Hc Hn [Hi _]|plan id op c i Hc Hn [Hi _] Hb IH|plan id op c d i j Hc Hn [Hi _] Hbc IHc Hbd IHd];
    [by eapply built_leaf|by eapply built_unary|by eapply built_binary].
Qed.

(** ** The correction of the delta *)

(** What the walk of a key adds to a delta without an entry for it. *)
Definition correction (now : bool) (held : Z) : option Z :=
  if now then if 0 <? held then None else Some 1 else if 0 <? held then Some (i64_neg held) else None.

Lemma reevaluate_linear g store v nodes d keys : runnable nodes (g_topo_order g) → all_stateless nodes →
  linear (root v) = true → built implements nodes (root v) (g_output_node g) →
  ∃ vd, try_fold (reevaluate_key g store v) (d, nodes) keys = Some (vd, nodes) ∧
    ∀ k, vd !! k = match d !! k with
      | Some w => Some w
      | None => if bool_decide (k ∈ keys)
                then correction (passes (root v) k store (v_params v)) (weight (v_cache v) k) else None
      end.
Proof.
  intros Hrn Hs Hl Hb. revert d. induction keys as [|key keys IH]; intros d.
  { exists d. split; [done|]. intros k. destruct (d !! k); [done|]. by rewrite bool_decide_eq_false_2 by set_solver. }
  set (fix1 := match d !! key with Some _ => d
    | None => match correction (passes (root v) key store (v_params v)) (weight (v_cache v) key) with
              | Some w => <[key := w]> d | None => d end end).
  assert (reevaluate_key g store v (d, nodes) key = Some (fix1, nodes)) as Hstep.
  { unfold reevaluate_key.
    destruct (walk_linear nodes (g_topo_order g) store (v_params v) key (root v) _ Hrn Hs Hl Hb) as (evals & -> & Hout).
    cbn [wk_reordered wk_evals wk_nodes]. rewrite Hout. unfold fix1, correction. destruct (d !! key); [done|].
    by destruct (passes _ _ _ _), (0 <? weight (v_cache v) key). }
  cbn [try_fold]. rewrite Hstep. destruct (IH fix1) as (vd & -> & Hvd). exists vd. split; [done|]. intros k. rewrite Hvd.
  unfold fix1. destruct (decide (k = key)) as [->|Hne].
  - rewrite (bool_decide_eq_true_2 (key ∈ key :: keys)) by set_solver.
    destruct (d !! key) as [w|] eqn:Hd; [by rewrite Hd|].
    destruct (correction _ _) as [w|] eqn:Hc; [by rewrite lookup_insert_eq|]. rewrite Hd. by case_bool_decide.
  - assert (match d !! key with Some _ => d | None => match correction (passes (root v) key store (v_params v)) (weight (v_cache v) key) with
      | Some w => <[key := w]> d | None => d end end !! k = d !! k) as ->.
    { destruct (d !! key); [done|]. destruct (correction _ _); [by rewrite lookup_insert_ne|done]. }
    destruct (d !! k); [done|]. by rewrite (bool_decide_ext (k ∈ key :: keys) (k ∈ keys)) by set_solver.
Qed.

(** ** A batch with content updates *)

(** [store_change], but for the rows whose content changed. *)
Record store_update store store' (deltas : gmap string ZSet) (updates : gmap string (list RowKey)) : Prop := {
  su_rows : ∀ k, live store k → k ∉ updated_keys updates →
    Store.get_row_by_key_or_deleted store' k = Store.get_row_by_key store k;
  su_membership : ∀ t k, weight (default ∅ (deltas !! t)) k = present store' t k - present store t k;
  su_wf : map_Forall (λ _ d, zset_wf d) deltas;
  su_keys : ∀ t ks k, updates !! t = Some ks → k ∈ ks → ∃ id, k = row_key t id ∧ plain_table t;
}.

(** No updated key of another table is spelled like a row of [t]: the engine
    looks a key up by its id alone. *)
Definition unclashed store (updates : gmap string (list RowKey)) (t : string) : Prop :=
  ∀ k, k ∈ updated_keys updates → holds store t k = true → ∃ id, k = row_key t id.

Lemma holds_present store t id : map_Forall table_ok (collections store) → plain_table t →
  holds store t (row_key t id) = (present store t (row_key t id) =? 1).
Proof.
  intros Hs Ht. unfold holds, Store.get_collection. rewrite present_key by done.
  destruct (collections store !! t) as [c|]; [|done]. unfold Collection.has_key. rewrite raw_row_key by done.
  unfold present_weight. by destruct (rows_contains _ _).
Qed.

Lemma holds_exact store updates t k : map_Forall table_ok (collections store) → unclashed store updates t →
  k ∈ updated_keys updates → holds store t k = (present store t k =? 1).
Proof.
  intros Hs Hu Hk. destruct (holds store t k) eqn:E.
  - destruct (Hu k Hk E) as [id ->]. unfold holds, Store.get_collection in E. destruct (collections store !! t) as [c|] eqn:Hc; [|done].
    rewrite <- (holds_present store t id Hs); [|by apply (to_plain t c), Hs]. unfold holds, Store.get_collection. by rewrite Hc, E.
  - destruct (present_cases store t k Hs) as [->|[Hp (c & id & Hc & -> & Hid)]]; [done|].
    rewrite holds_present, Hp in E; [done|done|by apply (to_plain t c), Hs].
Qed.

Lemma present_bit store t k : map_Forall table_ok (collections store) → present store t k = 0 ∨ present store t k = 1.
Proof. intros Hs. destruct (present_cases store t k Hs) as [?|[? _]]; auto. Qed.

(** The correction of one record: it was there [p] times and kept by [kp], it
    is there [p'] times and kept by [kp']. *)
Lemma correction_exact (p p' : Z) (kp kp' now updated : bool) (delta : option Z) :
  (p = 0 ∨ p = 1) → (p' = 0 ∨ p' = 1) →
  (∀ w, delta = Some w → w ≠ 0 ∧ w = p' - p) → (delta = None → p' = p) →
  (updated = false → p = 1 → kp = kp') → (updated = true → now = (p' =? 1) && kp') →
  let old := if kp then p else 0 in
  match (match (if kp' then delta else None) with Some w => Some w
         | None => if updated then correction now old else None end) with
  | Some w => if 0 <? i64_add old w then 1 else 0
  | None => old
  end = if kp' then p' else 0.
Proof.
  intros Hp Hp' Hw Hnone Hkeep Hnow.
  destruct delta as [w|]; [destruct (Hw w eq_refl) as [Hw0 ->]|specialize (Hnone eq_refl)]; clear Hw;
    destruct updated; try (rewrite (Hnow eq_refl)); try specialize (Hkeep eq_refl);
    destruct Hp as [-> | ->], Hp' as [-> | ->]; try done; try specialize (Hkeep eq_refl); subst;
    by try destruct kp; try destruct kp'.
Qed.

(** One record of the view, through the pass and the correction. *)
Lemma linear_record store store' deltas updates plan params k vd : 
  store_ok store → store_ok store' → store_update store store' deltas updates →
  linear plan = true → unclashed store' updates (source_table plan) →
  let d := filter_keys (λ k, keep plan k store' params) (default ∅ (deltas !! source_table plan)) in
  let old := weight (denote plan store params) k in
  vd = match d !! k with
    | Some w => Some w
    | None => if bool_decide (k ∈ updated_keys updates) then correction (passes plan k store' params) old else None
    end →
  match vd with Some w => if 0 <? i64_add old w then 1 else 0 | None => old end = weight (denote plan store' params) k.
Proof.
  intros Hs Hs' [Hrows Hmem Hwf _] Hl Hu d old ->. set (t := source_table plan) in *.
  pose proof (so_tables _ Hs) as Ht. pose proof (so_tables _ Hs') as Ht'.
  assert (old = if keep plan k store params then present store t k else 0) as Hold by apply (weight_linear plan store params k Hl).
  rewrite (weight_linear plan store' params k Hl). fold t. fold (present store' t k).
  assert (d !! k = if keep plan k store' params then default ∅ (deltas !! t) !! k else None) as Hd.
  { unfold d, filter_keys. rewrite map_lookup_filter. cbn [fst]. generalize (keep plan k store' params). intros b.
    by destruct (default ∅ (deltas !! t) !! k) as [w|], b. }
  pose proof (Hmem t k) as Hm. pose proof (present_bit store t k Ht) as Hp. pose proof (present_bit store' t k Ht') as Hp'.
  assert (∀ w, default ∅ (deltas !! t) !! k = Some w → w ≠ 0 ∧ w = present store' t k - present store t k) as Hw.
  { intros w Hw. rewrite (weight_lookup _ _ _ Hw) in Hm. split; [|done]. destruct (deltas !! t) as [z|] eqn:E; cbn in Hw; [|by rewrite lookup_empty in Hw].
    by apply (Hwf t z E k w). }
  assert (k ∉ updated_keys updates → present store t k = 1 → keep plan k store params = keep plan k store' params) as Hkeep.
  { intros Hk Hone. apply keep_row. assert (live store k) as Hlive.
    { destruct (present_cases store t k Ht) as [E|[_ (c & id & Hc & Heq & Hid)]]; [lia|]. by exists t, c, id. }
    rewrite (Hrows k Hlive Hk). by apply live_or_deleted. }
  assert (default ∅ (deltas !! t) !! k = None → present store' t k = present store t k) as Hnone.
  { intros E. rewrite (weight_lookup_None _ _ E) in Hm. lia. }
  assert (bool_decide (k ∈ updated_keys updates) = true → passes plan k store' params = (present store' t k =? 1) && keep plan k store' params) as Hpass.
  { intros Hk%bool_decide_eq_true. unfold passes. fold t. by rewrite (holds_exact store' updates t k Ht' Hu Hk). }
  rewrite Hd, Hold. apply correction_exact; try done. intros Hk%bool_decide_eq_false. by apply Hkeep.
Qed.

Lemma apply_delta_weight d v k : weight (v_cache (View.apply_delta d v)) k =
  match d !! k with
  | Some w => if 0 <? i64_add (weight (v_cache v) k) w then 1 else 0
  | None => weight (v_cache v) k
  end.
Proof.
  unfold View.apply_delta, weight. cbn [set_cache v_cache]. rewrite lookup_for_each_entry.
  destruct (d !! k) as [w|]; [|done]. by destruct (0 <? _).
Qed.

Lemma apply_delta_wf d v : zset_wf (v_cache v) → zset_wf (v_cache (View.apply_delta d v)).
Proof.
  intros Hc k x Hx. unfold View.apply_delta in Hx. cbn [set_cache v_cache] in Hx. rewrite lookup_for_each_entry in Hx.
  destruct (d !! k) as [w|]; [|by apply (Hc k)]. destruct (0 <? _); [|done]. injection Hx as <-. width_lia.
Qed.

Lemma linear_step g store store' deltas updates v :
  store_ok store → store_ok store' → store_update store store' deltas updates →
  linear (root v) = true → unclashed store' updates (source_table (root v)) → view_ok store g v →
  ∃ d g', step_graph g store' v deltas updates = Some (Some d, g') ∧
    primed store' (v_params v) (root v) g' ∧ v_cache (View.apply_delta d v) = denote (root v) store' (v_params v).
Proof.
  intros Hs Hs' Hch Hl Hu [Hm _ (nodes & -> & Hrn & Hb & Hsl) Hc]. specialize (Hsl Hl). apply tracked_implements in Hb.
  set (g := with_nodes (Graph.from_plan (root v)) nodes).
  assert (note_all (updated_keys updates) g = g) as Hnote.
  { unfold note_all, g. cbn [g_nodes with_nodes]. by rewrite note_stateless. }
  unfold step_graph. assert ((if bool_decide (updates = ∅) then g else note_all (updated_keys updates) g) = g) as -> by (by case_bool_decide).
  rewrite (inject_stateless g) by done. unfold step_nodes, Graph.node_count.
  destruct (run_nodes_spec (step_feed deltas ∅) store' (v_params v) (g_nodes g) (g_topo_order g) Hrn
    (step_feed_local _ _) (step_feed_total _ _ (rn_named _ _ Hrn))) as (nodes' & outputs & -> & Hlen & Hleno & Hrn' & Hsolved).
  pose proof (linear_pass store' (v_params v) deltas nodes nodes' outputs (root v) _ Hl Hb Hsolved) as Hout.
  pose proof (built_solved _ _ _ _ _ _ _ _ Hb Hsolved) as Hb'.
  pose proof (solved_stateless _ _ _ _ _ _ Hlen Hsolved Hsl) as Hsl'.
  change (g_output_node g) with (g_output_node (Graph.from_plan (root v))). rewrite Hout.
  destruct (reevaluate_linear g store' v nodes' (filter_keys (λ k, keep (root v) k store' (v_params v)) (default ∅ (deltas !! source_table (root v))))
    (updated_keys updates) Hrn' Hsl' Hl Hb') as (vd & -> & Hvd).
  exists vd, (with_nodes g nodes'). split; [done|]. split.
  - exists nodes'. split_and!; [done..| |done]. by apply linear_tracked.
  - apply zset_ext; [apply apply_delta_wf; rewrite Hc; by apply (gd_wf store (root v)), denote_good
      |by apply (gd_wf store' (root v)), denote_good|]. intros k.
    rewrite apply_delta_weight. rewrite Hc in Hvd |- *.
    by apply (linear_record store store' deltas updates (root v) (v_params v) k (vd !! k)).
Qed.

Lemma linear_idle g store store' deltas updates v :
  store_ok store → store_ok store' → store_update store store' deltas updates → linear (root v) = true →
  default ∅ (deltas !! source_table (root v)) = ∅ → default [] (updates !! source_table (root v)) = [] →
  view_ok store g v → view_ok store' g v.
Proof.
  intros Hs Hs' [Hrows Hmem _ Hkeys] Hl Hd Hno [Hm Hp (nodes & -> & Hrn & Hb & Hsl) Hc].
  pose proof (so_tables _ Hs) as Ht. set (t := source_table (root v)) in *.
  split; [done|done| |].
  - exists nodes. split_and!; [done..| |done]. by eapply linear_tracked, tracked_implements.
  - rewrite Hc. apply zset_ext; [by apply (gd_wf store (root v)), denote_good|by apply (gd_wf store' (root v)), denote_good|].
    intros k. rewrite !weight_linear by done. fold t. specialize (Hmem t k). rewrite Hd, weight_empty in Hmem.
    fold (present store t k). fold (present store' t k). assert (present store' t k = present store t k) as -> by lia.
    destruct (present_cases store t k Ht) as [->|[Hone (c & id & Hcol & -> & Hid)]]; [by destruct (keep _ _ _ _), (keep _ _ _ _)|].
    rewrite (keep_row (root v) _ store store'); [done|].
    assert (live store (row_key t id)) as Hlive by by exists t, c, id.
    rewrite live_or_deleted by done. symmetry. apply Hrows; [done|]. rewrite elem_of_updated_keys.
    intros (t' & ks & Hks & Hin). destruct (Hkeys t' ks _ Hks Hin) as (id' & Heq & Hpl).
    apply row_key_inj_plain in Heq as [-> _]; [|by apply (to_plain t c), Ht|done].
      rewrite Hks in Hno. cbn in Hno. rewrite Hno in Hin. by apply elem_of_nil in Hin.
Qed.

Lemma handles_linear store store' deltas updates v :
  store_ok store → store_ok store' → store_update store store' deltas updates →
  linear (root v) = true → unclashed store' updates (source_table (root v)) → handles store store' deltas updates v.
Proof.
  intros Hs Hs' Hch Hl Hu. split.
  - intros g Hok. destruct (linear_step g store store' deltas updates v Hs Hs' Hch Hl Hu Hok) as (d & g' & ? & ? & ?).
    by exists d, g'.
  - intros g Hno Hok. destruct (Hno (source_table (root v))) as [Hd Hup]; [rewrite linear_scanned by done; set_solver|].
    by apply (linear_idle g store store' deltas updates v).
Qed.
End linear.

(** * A circuit keeps its views

    The theorem a user of the engine relies on: while steps are taken, the
    cache of every registered view is what its plan evaluates to over the
    store. The parts are put together here: phase 1 of a step is a change of
    the store the views handle, and the loop over the affected views does the
    rest. *)

Local Open Scope Z_scope.

Section correct.
Context `{HashingLaws} `{OrdSetLaws}.
Implicit Types (store : Store) (params : option Sp00kyValue) (plan : OperatorPlan) (g : Graph) (c : Circuit).

(** ** The circuit *)

(** A circuit in order: every view is right over the store, and the tables its
    plan scans route to it. *)
Record circuit_ok c : Prop := {
  co_store : store_ok (ct_store c);
  co_versions : monotonic_row_versions (ct_versions c) = false;
  co_projection : ct_projection c = false;
  co_views : ∀ id v, ct_views c !! id = Some v → ∃ g, ct_graphs c !! id = Some g ∧ view_ok (ct_store c) g v;
  co_routes : ∀ id v t, ct_views c !! id = Some v → t ∈ scanned (root v) →
    id ∈ default [] (ct_dependency_map c !! t);
}.

(** Phase 1 changes the store and the row versions only. *)
Definition only_store c c' : Prop := ∃ store versions, c' = set_store store (set_versions versions c).

Lemma only_store_refl c : only_store c c.
Proof. exists (ct_store c), (ct_versions c). by destruct c. Qed.

Lemma only_store_trans c c' c'' : only_store c c' → only_store c' c'' → only_store c c''.
Proof. intros (s & v & ->) (s' & v' & ->). by exists s', v'. Qed.

Lemma only_store_set c store : only_store c (set_store store c).
Proof. exists store, (ct_versions c). by destruct c. Qed.

Lemma only_store_versions c versions : only_store c (set_versions versions c).
Proof. exists (ct_store c), versions. by destruct c. Qed.

Hint Resolve only_store_refl only_store_set only_store_versions : core.

Lemma floor_only_store table id data c : only_store c (floor_row_version table id data c).2.
Proof.
  unfold floor_row_version. cbn zeta. repeat case_match; cbn [snd]; auto;
    by (eapply only_store_trans; [apply only_store_versions|apply only_store_versions]).
Qed.

Lemma apply_one_frame b ch : only_store (bt_circuit b) (bt_circuit (apply_one b ch)).
Proof.
  destruct ch as [table op id data]. cbn [apply_one].
  set (c1 := if bool_decide (op = Delete) then _ else bt_circuit b).
  assert (only_store (bt_circuit b) c1) as Hfirst by (unfold c1; destruct (bool_decide _); auto).
  set (data1 := match opaque_fields _ !! table with Some fields => _ | None => data end). clearbody data1.
  set (r := if _ && _ then floor_row_version table id data1 c1 else (data1, c1)).
  assert (only_store (bt_circuit b) r.2) as Hsecond.
  { eapply only_store_trans; [exact Hfirst|]. unfold r. destruct (_ && _); [apply floor_only_store|auto]. }
  clearbody r. destruct r as [data2 c2]. cbn [snd] in Hsecond. destruct (Store.apply_owned _ _ _ _ _) as [a store'].
  destruct (negb (ap_content_changed a)), (negb (ap_weight a =? 0)); cbn; by eapply only_store_trans.
Qed.

Lemma batch_frame changes b : only_store (bt_circuit b) (bt_circuit (foldl apply_one b changes)).
Proof.
  revert b. induction changes as [|ch changes IH]; intros b; [auto|].
  eapply only_store_trans; [apply apply_one_frame|apply IH].
Qed.

(** Every table with a delta or an update is among the changed ones. *)
Definition tables_noted b : Prop :=
  ∀ t, is_Some (bt_deltas b !! t) ∨ is_Some (bt_updates b !! t) → t ∈ bt_changed_tables b.

Lemma changed_tables_inv changes b : tables_noted b → tables_noted (foldl apply_one b changes).
Proof.
  revert b. induction changes as [|ch changes IH]; intros b Hb; [done|]. cbn [foldl]. apply IH. clear IH.
  destruct ch as [table op id data]. cbn [apply_one].
  destruct (if _ && _ then _ else _) as [data2 c2]. destruct (Store.apply_owned _ _ _ _ _) as [a store'].
  destruct (negb (ap_content_changed a)); [done|].
  assert (∀ t, t = table ∨ t ∈ bt_changed_tables b →
    t ∈ (if bool_decide (table ∈ bt_changed_tables b) then bt_changed_tables b else bt_changed_tables b ++ [table])) as Hin.
  { intros t Ht. case_bool_decide; set_solver. }
  destruct (negb (ap_weight a =? 0)); intros t Ht; cbn in Ht |- *; apply Hin;
    destruct (decide (t = table)) as [->|Hne]; [by left| |by left|]; right; apply Hb;
    unfold bump_delta, push_update in Ht; by rewrite lookup_insert_ne in Ht.
Qed.

Lemma settled_tables store b : tables_noted b →
  let settled := settle_deltas store (bt_deltas b) (bt_updates b) in
  ∀ t, default ∅ (settled.1 !! t) ≠ ∅ ∨ default [] (settled.2 !! t) ≠ [] → t ∈ bt_changed_tables b.
Proof.
  intros Hb settled t [Ht|Ht]; apply Hb.
  - left. unfold settled, settle_deltas in Ht. cbn [fst] in Ht. rewrite lookup_fmap in Ht. by destruct (bt_deltas b !! t).
  - destruct (settled.2 !! t) as [[|k ks]|] eqn:E; try done.
    destruct (settled_updates store (bt_deltas b) (bt_updates b) t (k :: ks) k E) as [(ks' & -> & _)|[w Hw]]; [left|right; eauto|left].
    unfold delta_entry in Hw. destruct (bt_deltas b !! t) eqn:Ed; [eauto|]. cbn in Hw. by rewrite lookup_empty in Hw.
Qed.

Lemma affected_routed dependency_map changed t id :
  t ∈ changed → id ∈ default [] (dependency_map !! t) → id ∈ affected_queries dependency_map changed.
Proof.
  intros Ht Hid. unfold affected_queries. apply elem_of_dedup_first. apply list_elem_of_In, in_flat_map.
  exists t. split; by apply list_elem_of_In.
Qed.

(** After the loop every query is in order: the affected ones were stepped, the
    others scan no changed table. *)
Lemma walk_finish c0 store deltas updates ids c : pending store c0 deltas updates →
  (∀ id v t, ct_views c0 !! id = Some v → t ∈ scanned (root v) →
     default ∅ (deltas !! t) ≠ ∅ ∨ default [] (updates !! t) ≠ [] → id ∈ ids) →
  walk_inv c0 ids c → ∀ id v, ct_views c0 !! id = Some v → query_ok (ct_store c0) id v c.
Proof.
  intros [Hs' Hviews Hh] Hroutes [_ Hdone Htodo _] id v Hv.
  destruct (decide (id ∈ ids)) as [Hin|Hout]; [by apply Hdone|].
  destruct (Hviews id v Hv) as (g & Hg & Hok). destruct (Htodo id Hout) as [Hg' Hv'].
  exists g, v. rewrite Hg', Hv'. split_and!; [done..|].
  apply (ha_idle _ _ _ _ _ (Hh id v Hv)); [|done]. intros t Ht. split.
  - destruct (decide (default ∅ (deltas !! t) = ∅)) as [|Hne]; [done|]. destruct Hout. apply (Hroutes id v t); auto.
  - destruct (decide (default [] (updates !! t) = [])) as [|Hne]; [done|]. destruct Hout. apply (Hroutes id v t); auto.
Qed.

Lemma batch_update c changes : circuit_ok c → batch_ok c changes →
  let b := batch_of changes c in
  let store' := ct_store (bt_circuit b) in
  let settled := settle_deltas store' (bt_deltas b) (bt_updates b) in
  store_update (ct_store c) store' settled.1 settled.2 ∧
  (settled.2 = ∅ → store_change (ct_store c) store' settled.1).
Proof.
  intros Hok Hb b store' settled. pose proof (batch_spec c changes Hb) as Hspec. cbn zeta in Hspec.
  pose proof Hb as [Hs Hv Hch Hnd].
  pose proof (batch_inv_fold _ _ Hs Hch [] _ (batch_inv_start c Hs Hv) Hnd) as [_ _ Hd Hdk Huk _].
  fold (batch_of changes c) b store' in Hd, Hdk, Huk. fold b store' in Hspec.
  pose proof (settled_updates store' (bt_deltas b) (bt_updates b)) as Hsu.
  assert (∀ t k, weight (default ∅ (settled.1 !! t)) k = default 0 (delta_entry (bt_deltas b) t k)) as Hw
    by (intros; apply weight_settled).
  fold settled in Hspec, Hsu. destruct settled as [deltas updates]. cbn [fst snd] in *.
  destruct Hspec as (_ & Hwf & Hmem & Hrows). split.
  - split; [done| |done|].
    + intros t k. by rewrite Hw, Hd.
    + intros t ks k Ht Hk. destruct (Hsu t ks k Ht Hk) as [(ks' & Hks & Hin)|He]; [by apply (Huk t ks')|by apply Hdk].
  - intros ->. split; [|done..]. intros k Hk. apply Hrows; [done|]. rewrite elem_of_updated_keys.
    intros (t & ks & Ht & _). by rewrite lookup_empty in Ht.
Qed.

(** The queries of [c], in order in [c']: same plan and parameters, the cache
    what the plan evaluates to over [c']'s store. *)
Definition answers_right c c' : Prop := ∀ id v, ct_views c !! id = Some v →
  ∃ v', ct_views c' !! id = Some v' ∧ same_query v v' ∧ v_cache v' = denote (root v) (ct_store c') (v_params v).

(** Once the batch is in the store, the loop and the clearing of the overlay
    put every view right. *)
Lemma loop_maintains c store deltas updates changed : pending store c deltas updates →
  monotonic_row_versions (ct_versions c) = false → ct_projection c = false →
  (∀ id v t, ct_views c !! id = Some v → t ∈ scanned (root v) → id ∈ default [] (ct_dependency_map c !! t)) →
  (∀ t, default ∅ (deltas !! t) ≠ ∅ ∨ default [] (updates !! t) ≠ [] → t ∈ changed) →
  ∃ results c', try_fold (step_affected deltas updates) ([], c) (affected_queries (ct_dependency_map c) changed) = Some (results, c') ∧
    ct_store c' = ct_store c ∧
    let c' := set_store (Store.clear_pending_deleted_rows (ct_store c')) c' in
    circuit_ok c' ∧ answers_right c c'.
Proof.
  intros Hpe Hver Hproj Hroutes Hchanged. pose proof (pe_store _ _ _ _ Hpe) as Hs'.
  destruct (affected_walk c store deltas updates (affected_queries (ct_dependency_map c) changed) [] c [] Hpe)
    as (results & c' & Hfold & Hinv).
  { split; [exists (ct_graphs c), (ct_views c); by destruct c|intros ? ? _ []%elem_of_nil|done|done]. }
  { apply NoDup_dedup_first. }
  exists results, c'. split; [done|]. pose proof Hinv as [(gs & vs & ->) _ _ Hnone].
  assert (∀ id v, ct_views c !! id = Some v → query_ok (ct_store c) id v (set_graphs gs (set_views vs c))) as Hall.
  { refine (walk_finish c store deltas updates _ _ Hpe _ Hinv).
    intros id v t Hv Ht Hne. eapply affected_routed; [by apply Hchanged|by eapply Hroutes]. }
  split; [done|]. cbn. split.
  - split; cbn; [by apply clear_ok|done|done| |].
    + intros id v' Hv'. destruct (ct_views c !! id) as [v|] eqn:Hv; [|specialize (Hnone id Hv); cbn in Hnone; congruence].
      destruct (Hall id v Hv) as (g & v2 & Hg & Hv2 & _ & Hok). cbn in Hg, Hv2. exists g. split; [done|].
      apply view_clear; [done|]. congruence.
    + intros id v' t Hv' Ht. destruct (ct_views c !! id) as [v|] eqn:Hv; [|specialize (Hnone id Hv); cbn in Hnone; congruence].
      destruct (Hall id v Hv) as (g & v2 & _ & Hv2 & [Hplan _] & _). cbn in Hv2.
      apply (Hroutes id v); [done|]. unfold root in *. congruence.
  - intros id v Hv. destruct (Hall id v Hv) as (g & v2 & _ & Hv2 & Hsame & Hok). cbn in Hv2.
    exists v2. split_and!; [done..|]. destruct (view_clear _ _ _ Hs' Hok) as [_ _ _ Hcache]. cbn.
    destruct Hsame as [Hplan Hpar]. unfold root in *. by rewrite Hcache, Hplan, Hpar.
Qed.

Lemma step_timed_eq c changes : changes ≠ [] → step_timed (MkChangeSet changes) c =
  let b := batch_of changes c in
  let settled := settle_deltas (ct_store (bt_circuit b)) (bt_deltas b) (bt_updates b) in
  let? (results, c') := try_fold (step_affected settled.1 settled.2) ([], bt_circuit b)
    (affected_queries (ct_dependency_map (bt_circuit b)) (bt_changed_tables b)) in
  Some (results, set_store (Store.clear_pending_deleted_rows (ct_store c')) c').
Proof. by destruct changes. Qed.

(** The settled deltas and content updates of a batch. *)
Definition settled_of c (changes : list Change) : gmap string ZSet * gmap string (list RowKey) :=
  let b := batch_of changes c in settle_deltas (ct_store (bt_circuit b)) (bt_deltas b) (bt_updates b).

(** A batch the maintenance covers: no row is deleted twice, the store stays
    small, and each view follows the batch's content updates: there are none,
    or the view is a filtered table whose keys they cannot be mistaken for. *)
Record covered_batch c (changes : list Change) : Prop := {
  pb_changes : Forall change_ok changes;
  pb_deleted_once : NoDup (deleted_keys changes);
  pb_small : Z.of_nat (size (row_keys (ct_store (bt_circuit (batch_of changes c))))) < two63;
  pb_updates : (settled_of c changes).2 = ∅ ∨ ∀ id v, ct_views c !! id = Some v → linear (root v) = true ∧
    unclashed (ct_store (bt_circuit (batch_of changes c))) (settled_of c changes).2 (source_table (root v));
}.

Lemma covered_batch_ok c changes : circuit_ok c → covered_batch c changes →
  batch_ok c changes ∧ batch_inv (ct_store c) changes (batch_of changes c) ∧
  store_ok (ct_store (bt_circuit (batch_of changes c))).
Proof.
  intros [Hs Hv _ _ _] [Hch Hnd Hsmall _]. pose proof (so_tables _ Hs) as Ht.
  pose proof (batch_inv_fold _ _ Ht Hch [] _ (batch_inv_start c Ht Hv) Hnd) as Hinv.
  split_and!; [done|exact Hinv|]. split; [apply Hinv|done].
Qed.

Lemma covered_handles c changes : circuit_ok c → covered_batch c changes → ∀ id v, ct_views c !! id = Some v →
  handles (ct_store c) (ct_store (bt_circuit (batch_of changes c))) (settled_of c changes).1 (settled_of c changes).2 v.
Proof.
  intros Hok Hcov id v Hv. destruct (covered_batch_ok c changes Hok Hcov) as (Hb & _ & Hs').
  destruct (batch_update c changes Hok Hb) as [Hup Hch].
  fold (settled_of c changes) in Hup, Hch. pose proof (co_store c Hok) as Hs.
  destruct (pb_updates c changes Hcov) as [Hnone|Hl].
  - rewrite Hnone. apply handles_plain; [done..|by apply Hch].
  - destruct (Hl id v Hv) as [Hlin Hun]. by apply handles_linear.
Qed.

(** From a circuit whose views are right, a step returns, and leaves every view
    right over the new store. *)
Lemma step_timed_spec c changes : circuit_ok c → covered_batch c changes →
  ∃ results c', step_timed (MkChangeSet changes) c = Some (results, c') ∧ circuit_ok c' ∧
    collections (ct_store c') = collections (ct_store (bt_circuit (batch_of changes c))) ∧ answers_right c c'.
Proof.
  intros Hok Hcov. destruct (covered_batch_ok c changes Hok Hcov) as (_ & Hinv & Hs').
  pose proof (bi_versions _ _ _ Hinv) as Hver. clear Hinv.
  pose proof (covered_handles c changes Hok Hcov) as Hh. unfold settled_of in Hh. cbn zeta in Hh.
  set (b := batch_of changes c) in *. set (store' := ct_store (bt_circuit b)) in *.
  pose proof Hok as [Hs Hv Hproj Hviews Hroutes].
  destruct (decide (changes = [])) as [->|Hne].
  { exists [], c. split_and!; [done..|]. intros id v Hid. exists v. split_and!; [done..|].
    destruct (Hviews id v Hid) as (g & _ & [_ _ _ Hcache]). done. }
  destruct (batch_frame changes (MkBatch c ∅ [] ∅)) as (store0 & versions & Hc). fold (batch_of changes c) b in Hc. cbn in Hc.
  assert (tables_noted b) as Htables.
  { apply changed_tables_inv. intros t [[x Hx]|[x Hx]]; cbn in Hx; by rewrite lookup_empty in Hx. }
  destruct (loop_maintains (bt_circuit b) (ct_store c) (settle_deltas store' (bt_deltas b) (bt_updates b)).1
    (settle_deltas store' (bt_deltas b) (bt_updates b)).2 (bt_changed_tables b))
    as (results & c' & Hfold & Hst & Hok' & Hright).
  - split; [done|by rewrite Hc|]. intros id v Hid. apply (Hh id). by rewrite Hc in Hid.
  - done.
  - by rewrite Hc.
  - rewrite Hc. exact Hroutes.
  - by apply settled_tables.
  - exists results, (set_store (Store.clear_pending_deleted_rows (ct_store c')) c'). split_and!; [|done| |].
    + rewrite step_timed_eq by done. cbn zeta. fold b. fold store'. by rewrite Hfold.
    + cbn. by rewrite Hst.
    + intros id v Hid. apply (Hright id v). by rewrite Hc.
Qed.
End correct.
