(* ===== verification/Reach.v ===== *)
(** * Every reachable circuit is in order

    Registration, removal, sharing and whole-store replacement keep the
    circuit in order, as steps do; so in every circuit that can be reached
    from the empty one, every view's cache is its query's answer. *)

From S2P Require Import Prelude Platform Float64 Value ValueRef ZSet SnapshotHash SortKey Index Store StoreFacts.
From S2P Require Import Operator Plan Filter LinearOps Join Witness WitnessFacts TopK Window Graph GraphFacts Exec.
From S2P Require Import Denote Support Maintain View Circuit Step Register Batch Viewed Correct.
Local Open Scope Z_scope.

Section reach.
Context `{HashingLaws} `{OrdSetLaws}.
Implicit Types (store : Store) (id : string).

(** ** Adding a query *)

Lemma elem_of_route tables id m t id' :
  id' ∈ default [] (route tables id m !! t) ↔ id' ∈ default [] (m !! t) ∨ id' = id ∧ t ∈ tables.
Proof.
  unfold route. revert m. induction tables as [|table tables IH]; intros m; cbn [foldl]; [set_solver|].
  rewrite IH. destruct (decide (t = table)) as [->|Hne].
  - rewrite lookup_insert_eq. cbn. set_solver.
  - rewrite lookup_insert_ne by done. set_solver.
Qed.

Lemma note_missing_idle root_ c : ct_projection c = false → note_missing_fields root_ c = c.
Proof. intros Hp. unfold note_missing_fields. by rewrite Hp. Qed.

Lemma refresh_idle c : ct_projection c = false → refresh_retained_fields c = c.
Proof. intros Hp. unfold refresh_retained_fields. by rewrite Hp. Qed.

(** Registering a query returns, keeps the circuit in order, and leaves the
    query's view holding the plan's answer. *)
Lemma add_query_spec plan params format auth_id c :
  circuit_ok c → maintainable (qp_root plan) = true → presence_plan (qp_root plan) = true →
  ∃ delta c', add_query_with_auth plan params format auth_id c = Some (delta, c') ∧ circuit_ok c' ∧
    ct_store c' = ct_store c ∧
    ∃ v, ct_views c' !! canonical_query_id (qp_id plan) = Some v ∧ root v = qp_root plan ∧
      v_cache v = denote (qp_root plan) (ct_store c) (from_json <$> params).
Proof.
  intros [Hs Hver Hproj Hviews Hroutes] Hm Hp. unfold add_query_with_auth. cbn zeta.
  set (id := canonical_query_id (qp_id plan)).
  set (v := View.new id (MkQueryPlan id (qp_root plan)) _ _ _ _).
  rewrite note_missing_idle, refresh_idle by done.
  set (c1 := set_dependency_map _ _).
  destruct (run_initial_snapshot_spec id c1 v) as (delta & g & v' & -> & Hsame & Hok);
    [cbn; by rewrite lookup_insert_eq..|done|done|done|done|].
  destruct Hsame as [Hplan Hpar].
  eexists delta, _. split; [done|]. split_and!; [|done|].
  - split; cbn; [done|done|done| |].
    + intros id' w Hw. destruct (decide (id' = id)) as [->|Hne].
      * rewrite lookup_insert_eq in Hw. injection Hw as <-. exists g. by rewrite lookup_insert_eq.
      * rewrite !lookup_insert_ne in Hw by done. rewrite !lookup_insert_ne by done. by apply Hviews.
    + intros id' w t Hw Ht. apply elem_of_route. destruct (decide (id' = id)) as [->|Hne].
      * right. split; [done|]. rewrite lookup_insert_eq in Hw. injection Hw as <-.
        apply scanned_referenced. unfold root in Ht. by rewrite Hplan in Ht.
      * rewrite !lookup_insert_ne in Hw by done. left. by apply (Hroutes id' w).
  - exists v'. cbn. rewrite lookup_insert_eq. destruct Hok as [_ _ _ Hcache]. unfold root in *.
    rewrite Hplan in Hcache |- *. rewrite Hpar in Hcache. done.
Qed.

(** ** Removing a query *)

(** A store that differs in cached memberships only is no change at all. *)
Lemma same_rows_change store store' : store_ok store → store_ok store' →
  (∀ t, c_rows <$> collections store' !! t = c_rows <$> collections store !! t) → store_change store store' ∅.
Proof.
  intros Hs Hs' Hrows. pose proof (so_tables _ Hs). pose proof (so_tables _ Hs').
  assert (∀ t c, collections store !! t = Some c → ∃ c', collections store' !! t = Some c' ∧ c_rows c' = c_rows c) as Hfwd.
  { intros t c Hc. specialize (Hrows t). rewrite Hc in Hrows. apply fmap_Some in Hrows as (c' & ? & ?). by exists c'. }
  split; [| |done].
  - intros k (t & c & i & Hc & -> & Hi). destruct (Hfwd t c Hc) as (c' & Hc' & Heq).
    rewrite live_or_deleted; [|done|by exists t, c', i; rewrite Heq].
    rewrite (get_row_key store' t c'), (get_row_key store t c) by done. unfold rows_get. by rewrite Heq.
  - intros t. rewrite lookup_empty. cbn. rewrite add_empty_r by by apply membership_wf.
    rewrite !membership_value by done. specialize (Hrows t).
    destruct (collections store' !! t) as [c'|], (collections store !! t) as [c|]; cbn in Hrows; try done.
    by injection Hrows as ->.
Qed.

Lemma row_keys_same store store' :
  (∀ t, c_rows <$> collections store' !! t = c_rows <$> collections store !! t) → row_keys store' = row_keys store.
Proof.
  intros Hrows. apply set_eq. intros k. unfold row_keys. rewrite !elem_of_union_list.
  assert (∀ s s' : Store, (∀ t, c_rows <$> collections s' !! t = c_rows <$> collections s !! t) →
    (∃ X, X ∈ (λ e : string * Collection, set_map (row_key e.1) (dom (c_rows e.2)) : gset string) <$> map_to_list (collections s) ∧ k ∈ X) →
    (∃ X, X ∈ (λ e : string * Collection, set_map (row_key e.1) (dom (c_rows e.2)) : gset string) <$> map_to_list (collections s') ∧ k ∈ X)) as Hdir.
  { intros s s' Hss (X & ([t c] & -> & Hin%elem_of_map_to_list)%list_elem_of_fmap & Hk).
    specialize (Hss t). rewrite Hin in Hss. apply fmap_Some in Hss as (c' & Hc' & Heq). cbn in Heq.
    eexists. split; [apply list_elem_of_fmap; exists (t, c'); split; [done|by apply elem_of_map_to_list]|]. cbn in *. by rewrite <- Heq. }
  split; by apply Hdir.
Qed.

Lemma release_rows tables (colls : gmap string Collection) t :
  foldl (λ colls table, alter Collection.release_membership table colls) colls tables !! t =
    (if bool_decide (t ∈ tables) then Collection.release_membership <$> colls !! t else colls !! t).
Proof.
  revert colls. induction tables as [|table tables IH]; intros colls; cbn [foldl]; [done|]. rewrite IH.
  destruct (decide (t = table)) as [->|Hne].
  - rewrite lookup_alter_eq, (bool_decide_eq_true_2 (table ∈ table :: tables)) by set_solver.
    case_bool_decide; [|done]. by destruct (colls !! table).
  - rewrite lookup_alter_ne by done. do 2 case_bool_decide; set_solver.
Qed.

Lemma released_ok t c : table_ok t c → table_ok t (Collection.release_membership c).
Proof. intros [Ht Hn [] Hi]. by split. Qed.

Lemma lookup_kept (m : gmap string (list string)) (q t i : string) :
  i ≠ q → i ∈ default [] (m !! t) →
  i ∈ default [] (filter (λ e : string * list string, e.2 ≠ [])
    ((λ ids, List.filter (λ i, negb (String.eqb i q)) ids) <$> m) !! t).
Proof.
  intros Hne Hi. assert (i ∈ List.filter (λ i, negb (String.eqb i q)) (default [] (m !! t))) as Hin.
  { apply list_elem_of_In, filter_In. split; [by apply list_elem_of_In|]. by destruct (String.eqb_spec i q). }
  destruct (m !! t) as [ids|] eqn:Hm; cbn in Hin; [|by apply elem_of_nil in Hin].
  rewrite (map_lookup_filter_Some_2 _ _ t (List.filter (λ i, negb (String.eqb i q)) ids)); [done| |].
  - by rewrite lookup_fmap, Hm.
  - cbn. intros Hnil. rewrite Hnil in Hin. by apply elem_of_nil in Hin.
Qed.

Lemma remove_query_ok q c : circuit_ok c → circuit_ok (remove_query q c).
Proof.
  intros [Hs Hver Hproj Hviews Hroutes]. unfold remove_query. cbn zeta. set (id := canonical_query_id q).
  set (orphaned := keys_of _).
  set (store' := set_collections (foldl _ _ orphaned) _).
  assert (∀ t, c_rows <$> collections store' !! t = c_rows <$> collections (ct_store c) !! t) as Hrows.
  { intros t. cbn. rewrite release_rows. case_bool_decide; [|done]. by destruct (collections (ct_store c) !! t). }
  assert (store_ok store') as Hs'.
  { split; [|rewrite (row_keys_same (ct_store c)) by done; apply Hs]. intros t x Hx. cbn in Hx.
    rewrite release_rows in Hx. case_bool_decide; [|by apply (so_tables _ Hs)].
    apply fmap_Some in Hx as (y & Hy & ->). by apply released_ok, (so_tables _ Hs). }
  split; [done|done|done| |].
  - intros id' v Hv. change (delete id (ct_views c) !! id' = Some v) in Hv.
    change (∃ g, delete id (ct_graphs c) !! id' = Some g ∧ view_ok store' g v). destruct (decide (id' = id)) as [->|Hne]; [by rewrite lookup_delete_eq in Hv|].
    rewrite lookup_delete_ne in Hv by done. destruct (Hviews id' v Hv) as (g & Hg & Hok). exists g.
    split; [by rewrite lookup_delete_ne|].
    eapply view_idle; [exact Hs|done|by apply (same_rows_change (ct_store c))| |done]. intros t _. by rewrite lookup_empty.
  - intros id' v t Hv Ht. change (delete id (ct_views c) !! id' = Some v) in Hv. destruct (decide (id' = id)) as [->|Hne]; [by rewrite lookup_delete_eq in Hv|].
    rewrite lookup_delete_ne in Hv by done. apply lookup_kept; [done|]. by apply (Hroutes id' v).
Qed.

(** ** Sharing a graph *)

(** [c'] computes what [c] does: only the bookkeeping of registrations differs. *)
Definition same_engine c c' : Prop :=
  ct_store c' = ct_store c ∧ ct_versions c' = ct_versions c ∧ ct_projection c' = ct_projection c ∧
  ct_views c' = ct_views c ∧ ct_graphs c' = ct_graphs c ∧ ct_dependency_map c' = ct_dependency_map c.

Lemma same_engine_ok c c' : same_engine c c' → circuit_ok c → circuit_ok c'.
Proof.
  intros (Hst & Hver & Hproj & Hv & Hg & Hd) [? ? ? Hviews Hroutes].
  split; rewrite ?Hst, ?Hver, ?Hproj, ?Hv, ?Hg, ?Hd; done.
Qed.

Lemma attach_subscriber_ok owner q auth c delta c' :
  circuit_ok c → attach_subscriber owner q auth c = Some (delta, c') → circuit_ok c'.
Proof.
  intros Hok Ha. unfold attach_subscriber in Ha. destruct (snapshot_delta_from _ _ _ _); [|done]. injection Ha as _ <-.
  by apply (same_engine_ok c).
Qed.

Lemma drop_graph_ok owner c : circuit_ok c → circuit_ok (drop_graph_if_unused owner c).2.
Proof.
  intros Hok. unfold drop_graph_if_unused. case_match; [done|].
  apply (same_engine_ok (remove_query owner c)); [done|by apply remove_query_ok].
Qed.

Lemma detach_subscriber_ok q c : circuit_ok c → circuit_ok (detach_subscriber q c).2.
Proof.
  intros Hok. unfold detach_subscriber. cbn zeta. destruct (owner_of _ c); [|case_bool_decide; [|done]];
    apply drop_graph_ok; by apply (same_engine_ok c).
Qed.

(** ** Replacing the whole store *)

Lemma reprime_all_ok store ids c out :
  ct_store c = store → store_ok store → monotonic_row_versions (ct_versions c) = false → ct_projection c = false →
  (∀ id v, ct_views c !! id = Some v → maintainable (root v) = true ∧ presence_plan (root v) = true) →
  (∀ id v, ct_views c !! id = Some v → id ∉ ids → ∃ g, ct_graphs c !! id = Some g ∧ view_ok store g v) →
  (∀ id v t, ct_views c !! id = Some v → t ∈ scanned (root v) → id ∈ default [] (ct_dependency_map c !! t)) →
  ∃ out' c', try_fold reprime_all (out, c) ids = Some (out', c') ∧ circuit_ok c' ∧ ct_store c' = store.
Proof.
  revert c out. induction ids as [|id ids IH]; intros c out Hst Hs Hver Hproj Hplans Hdone Hroutes.
  - exists out, c. split_and!; [done| |done]. split; rewrite ?Hst; [done|done|done| |done]. intros id v Hv. apply (Hdone id v Hv). set_solver.
  - cbn [try_fold reprime_all]. destruct (ct_views c !! id) as [v|] eqn:Hv.
    + destruct (Hplans id v Hv) as [Hm Hp]. rewrite <- Hst in Hs.
      destruct (reprime_view_spec id c v Hv Hs Hm Hp) as (o & c' & -> & (gs & vs & -> & Hother) & g & v' & Hg & Hv' & [Hplan Hpar] & Hok).
      cbn in Hg, Hv'. rewrite Hst in Hs, Hok.
      assert (∀ id' w, vs !! id' = Some w → ∃ w0, ct_views c !! id' = Some w0 ∧ root w = root w0) as Hroot.
      { intros id' w Hw. destruct (decide (id' = id)) as [->|Hne].
        - exists v. split; [done|]. unfold root. congruence.
        - exists w. by rewrite <- (proj2 (Hother id' Hne)). }
      apply IH; cbn; [done..| | |].
      * intros id' w Hw. destruct (Hroot id' w Hw) as (w0 & Hw0 & ->). by eapply Hplans.
      * intros id' w Hw Hin. destruct (decide (id' = id)) as [->|Hne]; [exists g; naive_solver congruence|].
        destruct (Hother id' Hne) as [-> Hvs]. rewrite Hvs in Hw. apply Hdone; [done|set_solver].
      * intros id' w t Hw Ht. destruct (Hroot id' w Hw) as (w0 & Hw0 & Hr). rewrite Hr in Ht. by eapply Hroutes.
    + unfold reprime_view. rewrite Hv. apply IH; [done..| |done]. intros id' w Hw Hin. apply Hdone; [done|].
      rewrite not_elem_of_cons. split; [congruence|done].
Qed.

(** Replacing the whole store puts every view right over the new rows,
    whatever the views held before. *)
Lemma replace_store_spec store c :
  circuit_ok c → store_ok store →
  ∃ out c', replace_store store c = Some (out, c') ∧ circuit_ok c' ∧
    ct_store c' = Store.clear_pending_deleted_rows store.
Proof.
  intros [Hs0 Hver Hproj Hviews Hroutes] Hs. unfold replace_store. cbn zeta. rewrite refresh_idle by done.
  apply reprime_all_ok; cbn; [done|by apply clear_ok|done|done| | |done].
  - intros id v Hv. by destruct (Hviews id v Hv) as (g & _ & [Hm Hp _ _]).
  - intros id v Hv Hin. destruct Hin. apply elem_of_keys_of. eauto.
Qed.

(** ** Reachable circuits *)

(** The circuits a server can have: queries of maintained plans are registered,
    shared, detached and removed; batches are stepped; the store is replaced. *)
Inductive reachable : Circuit → Prop :=
  | reach_new : reachable Circuit.new
  | reach_add c plan params format auth_id delta c' :
      reachable c → maintainable (qp_root plan) = true → presence_plan (qp_root plan) = true →
      add_query_with_auth plan params format auth_id c = Some (delta, c') → reachable c'
  | reach_remove c query_id : reachable c → reachable (remove_query query_id c)
  | reach_claim c merge_key query_id : reachable c → reachable (claim_merge_key merge_key query_id c)
  | reach_attach c owner query_id auth_id delta c' :
      reachable c → attach_subscriber owner query_id auth_id c = Some (delta, c') → reachable c'
  | reach_detach c query_id : reachable c → reachable (detach_subscriber query_id c).2
  | reach_step c changes results c' : reachable c → covered_batch c changes →
      step_timed (MkChangeSet changes) c = Some (results, c') → reachable c'
  | reach_replace c store out c' : reachable c → store_ok store →
      replace_store store c = Some (out, c') → reachable c'.

Lemma new_ok : circuit_ok Circuit.new.
Proof. split; [|done|done|intros id v Hv; cbn in Hv; by rewrite lookup_empty in Hv|intros id v t Hv; cbn in Hv; by rewrite lookup_empty in Hv].
  split; [apply map_Forall_empty|]. unfold row_keys. cbn. rewrite map_to_list_empty. cbn. by rewrite size_empty.
Qed.

Lemma reachable_ok c : reachable c → circuit_ok c.
Proof.
  induction 1 as [|c plan params format auth_id delta c' _ IH Hm Hp Ha|c q _ IH|c mk q _ IH|c o q a delta c' _ IH Ha
    |c q _ IH|c changes results c' _ IH Hb Hstep|c store out c' _ IH Hs Hr].
  - exact new_ok.
  - destruct (add_query_spec plan params format auth_id c IH Hm Hp) as (? & ? & Heq & Hok & _). congruence.
  - by apply remove_query_ok.
  - by apply (same_engine_ok c).
  - by eapply attach_subscriber_ok.
  - by apply detach_subscriber_ok.
  - destruct (step_timed_spec c changes IH Hb) as (? & ? & Heq & Hok & _). congruence.
  - destruct (replace_store_spec store c IH Hs) as (? & ? & Heq & Hok & _). congruence.
Qed.



(** C10: From a reachable circuit, registering a query whose plan the
    engine maintains returns, changes no row, and leaves the query's view
    holding exactly the plan's answer over the store. *)
Theorem register_right plan params format auth_id c :
  reachable c → maintainable (qp_root plan) = true → presence_plan (qp_root plan) = true →
  ∃ delta c', add_query_with_auth plan params format auth_id c = Some (delta, c') ∧ reachable c' ∧
    ct_store c' = ct_store c ∧
    ∃ v, ct_views c' !! canonical_query_id (qp_id plan) = Some v ∧ root v = qp_root plan ∧
      v_cache v = denote (qp_root plan) (ct_store c) (from_json <$> params).
Proof.
  intros Hr Hm Hp. destruct (add_query_spec plan params format auth_id c (reachable_ok c Hr) Hm Hp)
    as (delta & c' & Ha & _ & Hst & Hv).
  exists delta, c'. split_and!; [done|by eapply reach_add|done..].
Qed.

(** C11: From a reachable circuit, for any batch that deletes no row twice,
    content updates included, the settled deltas the step propagates are, table
    by table, exactly the difference between the rows the table holds before
    and after; and every row that was there and is not reported as a content
    update still reads as it did, from the store or from the overlay of deleted
    rows. *)
Theorem batch_deltas_exact c changes : reachable c → Forall change_ok changes → NoDup (deleted_keys changes) →
  let b := batch_of changes c in
  let store' := ct_store (bt_circuit b) in
  let settled := settle_deltas store' (bt_deltas b) (bt_updates b) in
  (∀ t k, weight (default ∅ (settled.1 !! t)) k = present store' t k - present (ct_store c) t k) ∧
  (∀ k, live (ct_store c) k → k ∉ updated_keys settled.2 →
     Store.get_row_by_key_or_deleted store' k = Store.get_row_by_key (ct_store c) k).
Proof.
  intros Hr Hch Hnd b store' settled. destruct (reachable_ok c Hr) as [[Hs _] Hv _ _ _].
  split.
  - intros t k. unfold settled, settle_deltas. cbn [fst]. rewrite weight_settled.
    apply (batch_inv_fold _ _ Hs Hch [] _ (batch_inv_start c Hs Hv) Hnd).
  - pose proof (batch_spec c changes (Build_batch_ok c changes Hs Hv Hch Hnd)) as Hspec. cbn zeta in Hspec.
    fold b store' in Hspec. unfold settled. destruct (settle_deltas _ _ _) as [deltas updates].
    apply Hspec.
Qed.
End reach.

(** ** A small server

    The newest two users of an open team; three users and two teams, then a
    batch that deletes a user and a team. *)

Definition demo_root : OperatorPlan :=
  OpLimit (OpSemiJoin (OpScan "user") (OpFilter (OpScan "team") (PEq (Path_new "open") (VBool true)))
    (MkJoinCondition (Path_new "team") (Path_new "id")))
    2 0 (Some [MkOrderSpec (Path_new "age") "DESC"]).

Definition demo_plan : QueryPlan := MkQueryPlan "q:newest" demo_root.

Definition demo_user (id : string) (team : string) (age : Z) : Change :=
  MkChange "user" Create id (Object [("team", Str team); ("age", Int age)]).

Definition demo_batch1 : list Change :=
  [demo_user "user:a" "team:x" 3; demo_user "user:b" "team:y" 5; demo_user "user:c" "team:x" 9;
   MkChange "team" Create "team:x" (Object [("id", Str "team:x"); ("open", Bool true)]);
   MkChange "team" Create "team:y" (Object [("id", Str "team:y"); ("open", Bool true)])].

Definition demo_batch2 : list Change :=
  [Change.delete "user" "user:c"; Change.delete "team" "team:y"].

(** A batch with an update, a delete and a row deleted and written again. *)
Definition demo_batch3 : list Change :=
  [MkChange "user" Update "user:a" (Object [("age", Int 8)]); Change.delete "user" "user:c";
   Change.delete "user" "user:b"; demo_user "user:b" "team:x" 2].

(** The grown-ups: a filtered table, which follows content updates. *)
Definition adult_plan : QueryPlan :=
  MkQueryPlan "adults" (OpFilter (OpScan "user") (PGte (Path_new "age") (VNumber (PosInt 5)))).

Definition demo_stepped (changes : list Change) (c : Circuit) : Circuit :=
  match step_timed (MkChangeSet changes) c with Some (_, c) => c | None => c end.

Definition demo0 : Circuit :=
  match add_query_with_auth demo_plan None None "" Circuit.new with Some (_, c) => c | None => Circuit.new end.
Definition demo1 : Circuit := demo_stepped demo_batch1 demo0.
Definition demo2 : Circuit := demo_stepped demo_batch2 demo1.

Definition adults0 : Circuit :=
  match add_query_with_auth adult_plan None None "" Circuit.new with Some (_, c) => c | None => Circuit.new end.
Definition adults1 : Circuit := demo_stepped demo_batch1 adults0.
Definition adults2 : Circuit := demo_stepped demo_batch3 adults1.

Definition adults (c : Circuit) : option ZSet := v_cache <$> ct_views c !! "adults".

Example adults1_answer : adults adults1 = Some {["user:b" := 1; "user:c" := 1]}.
Proof. vm_compute. reflexivity. Qed.
Example adults2_answer : adults adults2 = Some {["user:a" := 1]}.
Proof. vm_compute. reflexivity. Qed.

Definition demo_answer (c : Circuit) : option ZSet := v_cache <$> ct_views c !! "newest".

Example demo1_answer : demo_answer demo1 = Some {["user:c" := 1; "user:b" := 1]}.
Proof. vm_compute. reflexivity. Qed.
Example demo2_answer : demo_answer demo2 = Some {["user:a" := 1]}.
Proof. vm_compute. reflexivity. Qed.

(** Each obligation of a concrete batch by evaluation. *)
Ltac eval_batch :=
  split; [repeat (constructor; [split; reflexivity|]); constructor
         |apply (bool_decide_unpack (NoDup _)); vm_compute; exact I
         |vm_compute; reflexivity
         |left; vm_compute; reflexivity].

Lemma demo_batch1_plain : covered_batch demo0 demo_batch1.
Proof. eval_batch. Qed.

Lemma demo_batch2_plain : covered_batch demo1 demo_batch2.
Proof. eval_batch. Qed.

Lemma demo0_reachable : reachable demo0.
Proof.
  unfold demo0. destruct (add_query_with_auth demo_plan None None "" Circuit.new) as [[delta c]|] eqn:E; [|exact reach_new].
  exact (reach_add _ demo_plan _ _ _ _ _ reach_new eq_refl eq_refl E).
Qed.

Lemma demo_stepped_reachable changes c : reachable c → covered_batch c changes → reachable (demo_stepped changes c).
Proof.
  intros Hc Hb. unfold demo_stepped. destruct (step_timed (MkChangeSet changes) c) as [[out c']|] eqn:E; [|done].
  exact (reach_step _ _ _ _ Hc Hb E).
Qed.

Lemma demo1_reachable : reachable demo1.
Proof. apply demo_stepped_reachable; [exact demo0_reachable|exact demo_batch1_plain]. Qed.

Lemma demo2_reachable : reachable demo2.
Proof. apply demo_stepped_reachable; [exact demo1_reachable|exact demo_batch2_plain]. Qed.


Lemma adults1_reachable : reachable adults1.
Proof.
  apply demo_stepped_reachable; [|eval_batch].
  unfold adults0. destruct (add_query_with_auth adult_plan None None "" Circuit.new) as [[delta c]|] eqn:E; [|exact reach_new].
  exact (reach_add _ adult_plan _ _ _ _ _ reach_new eq_refl eq_refl E).
Qed.

Lemma demo_batch3_covered : covered_batch adults1 demo_batch3.
Proof.
  split; [repeat (constructor; [split; reflexivity|]); constructor
         |apply (bool_decide_unpack (NoDup _)); vm_compute; exact I
         |vm_compute; reflexivity|].
  right. intros id v Hv.
  assert (id = "adults" ∧ root v = qp_root adult_plan) as [-> Hr].
  { assert (ct_views adults1 = {["adults" := default (View.new "" demo_plan FlatFormat None [] "") (ct_views adults1 !! "adults")]}) as Hviews
      by (vm_compute; reflexivity).
    rewrite Hviews in Hv. apply lookup_singleton_Some in Hv as [<- <-]. split; [reflexivity|vm_compute; reflexivity]. }
  rewrite Hr. split; [reflexivity|].
  assert (updated_keys (settled_of adults1 demo_batch3).2 = ["user:a"; "user:b"]) as Hk by (vm_compute; reflexivity).
  intros k Hin _. rewrite Hk in Hin. apply elem_of_cons in Hin as [-> | ->%list_elem_of_singleton]; [by exists "a"|by exists "b"].
Qed.


Lemma register_right_witness :
  ∃ delta c' v, add_query_with_auth demo_plan None None "" Circuit.new = Some (delta, c') ∧
    ct_views c' !! "newest" = Some v ∧ v_cache v = denote demo_root Store.new None.
Proof.
  destruct (register_right demo_plan None None "" Circuit.new reach_new eq_refl eq_refl)
    as (delta & c' & Ha & _ & _ & v & Hv & _ & Hc).
  exists delta, c', v. split; [exact Ha|]. split; [exact Hv|exact Hc].
Defined.

Lemma batch_deltas_exact_witness :
  (settle_deltas (ct_store (bt_circuit (batch_of demo_batch3 demo1))) (bt_deltas (batch_of demo_batch3 demo1))
     (bt_updates (batch_of demo_batch3 demo1))) =
    ({["user" := {["user:c" := -1]}]}, {["user" := ["user:a"; "user:b"]]}) ∧
  Store.get_row_by_key_or_deleted (ct_store (bt_circuit (batch_of demo_batch3 demo1))) "user:c" =
    Store.get_row_by_key (ct_store demo1) "user:c".
Proof.
  assert (Forall change_ok demo_batch3) as Hch by (repeat (constructor; [split; reflexivity|]); constructor).
  assert (NoDup (deleted_keys demo_batch3)) as Hnd by (apply (bool_decide_unpack (NoDup _)); vm_compute; exact I).
  split; [vm_compute; reflexivity|].
  apply (proj2 (batch_deltas_exact demo1 demo_batch3 demo1_reachable Hch Hnd)).
  - apply (present_live _ "user" "c"); [exact (so_tables _ (co_store _ (reachable_ok _ demo1_reachable)))|reflexivity|].
    vm_compute. reflexivity.
  - apply (bool_decide_unpack (_ ∉ _)). vm_compute. exact I.
Defined.

(** ** A record of another table

    A scan decides whether it holds an updated key by the key's id alone, and
    a step walks every updated key of the batch, whatever its table. *)

Definition users_plan : QueryPlan := MkQueryPlan "users" (OpScan "user").

Definition phantom0 : Circuit :=
  match add_query_with_auth users_plan None None "" Circuit.new with Some (_, c) => c | None => Circuit.new end.
Definition phantom1 : Circuit :=
  demo_stepped [demo_user "user:x" "team:x" 3; MkChange "team" Create "team:x" (Object [("open", Bool true)])] phantom0.
Definition phantom_batch : list Change :=
  [demo_user "user:y" "team:x" 5; MkChange "team" Update "team:x" (Object [("open", Bool false)])].

Lemma phantom1_reachable : reachable phantom1.
Proof.
  apply demo_stepped_reachable; [|eval_batch].
  unfold phantom0. destruct (add_query_with_auth users_plan None None "" Circuit.new) as [[delta c]|] eqn:E; [|exact reach_new].
  exact (reach_add _ users_plan _ _ _ _ _ reach_new eq_refl eq_refl E).
Qed.

(** The condition on keys of other tables cannot be dropped: from a
    reachable circuit with one view, a scan of the table user, a batch that
    inserts a user and updates the row team:x puts the key team:x into the
    view when there is a user whose id is x, although no plan of the circuit
    reads the table team. *)
Theorem foreign_key_enters_view :
  reachable phantom1 ∧ Forall change_ok phantom_batch ∧ NoDup (deleted_keys phantom_batch) ∧
  ∃ results c' v, step_timed (MkChangeSet phantom_batch) phantom1 = Some (results, c') ∧
    ct_views c' !! "users" = Some v ∧ root v = OpScan "user" ∧
    weight (v_cache v) "team:x" = 1 ∧ weight (denote (root v) (ct_store c') (v_params v)) "team:x" = 0.
Proof.
  split; [exact phantom1_reachable|].
  split; [repeat (constructor; [split; reflexivity|]); constructor|].
  split; [apply (bool_decide_unpack (NoDup _)); vm_compute; exact I|].
  destruct (step_timed (MkChangeSet phantom_batch) phantom1) as [[results c']|] eqn:E; [|vm_compute in E; discriminate].
  exists results, c', (default (View.new "" demo_plan FlatFormat None [] "") (ct_views c' !! "users")).
  split; [reflexivity|]. assert (c' = demo_stepped phantom_batch phantom1) as -> by (unfold demo_stepped; by rewrite E).
  clear E. split_and!; vm_compute; reflexivity.
Qed.
