(* ===== verification/Lowered.v ===== *)
(** * What a lowered condition means

    [holds] says when a row satisfies a condition: a path through a record
    link is followed to the linked row, [IN (SELECT ...)] asks for a row of
    the subquery. The plan a condition is lowered to answers exactly the rows
    of the table it holds for. *)

From S2P Require Import Prelude Platform Value ValueRef ZSet SortKey Index Store StoreFacts Operator Plan Filter.
From S2P Require Import LinearOps Join Witness WitnessFacts TopK Graph Denote Support Combinators Convert ConvertLaws.
Local Open Scope Z_scope.

Section holds.
Context `{Hashing} `{OrdSet}.
Context (links : LinkMap) (store : Store) (params : option Sp00kyValue).

Definition rows_of (table : string) : list RowKey := keys_of (ScanOp.table_membership store table).

(** The table a filter stands right above, when links are followed. *)
Definition linked (table : option string) (link : string) : option string :=
  let? t := table in link_target links t link.

Definition flat_eq (segs : list string) (value : Value) (k : RowKey) : bool :=
  check_predicate_recursive (PEq (Path_new (join "." segs)) value) k store params.

(** [field = value], following the links of the path. *)
Fixpoint path_holds (table : option string) (segs : list string) (value : Value) (k : RowKey) : bool :=
  match segs with
  | link :: tl =>
      match tl, linked table link with
      | rest :: more, Some target =>
          if bool_decide (more = []) && String.eqb rest "id" then flat_eq segs value k
          else existsb (λ r, path_holds (Some target) tl value r && rows_join (read_on link "id") store k r)
                 (rows_of target)
      | _, _ => flat_eq segs value k
      end
  | [] => flat_eq segs value k
  end.

(** Some row of [table] that [p] holds for joins [k]. *)
Definition some_row (table : string) (p : RowKey → bool) (left_field right_field : string) (k : RowKey) : bool :=
  existsb (λ r, p r && rows_join (read_on left_field right_field) store k r) (rows_of table).

Fixpoint holds (table : option string) (c : Cond) (k : RowKey) : bool :=
  match c with
  | CAnd l => forallb (λ c, holds table c k) l
  | COr l => existsb (λ c, holds table c k) l
  | InSubquery left_ proj t where_ =>
      let inner r := match where_ with Some w => holds (Some t) w r | None => true end in
      match split_once dot proj with
      | Some (link, field) => some_row link (some_row t inner "id" link) left_ field k
      | None => some_row t inner left_ proj k
      end
  | CmpField TEq field value => path_holds table (split dot field) value k
  | _ => match read_predicate c with
         | Some p => check_predicate_recursive p k store params
         | None => false
         end
  end.

(** *** The meaning of a plan *)

Fixpoint meaning (p : JPlan) : ZSet :=
  match p with
  | JScan t => ScanOp.table_membership store t
  | JFilter c i => filter_keys (holds (scanned_table i) c) (meaning i)
  | JJoin l r lf rf => JoinOp.hash_join (meaning l) (meaning r) (read_on lf rf) store
  | JSemiJoin l r lf rf => SemiJoinOp.semi_join (meaning l) (meaning r) (read_on lf rf) store
  | JUnion l r => ZSet.add (ZSet.add ∅ (meaning l)) (meaning r)
  | JDistinct i => DistinctOp.threshold (meaning i)
  | JProject _ i => meaning i
  | JLimit n s o i => TopKOp.snapshot (TopKOp.new n s (map read_order <$> o)) [meaning i] store params
  end.

(** The rows of a table that satisfy a test, each once. *)
Definition selects (t : string) (g : RowKey → bool) (z : ZSet) : Prop := z = filter_keys g (ScanOp.table_membership store t).

Lemma filter_keys_true z : filter_keys (λ _, true) z = z.
Proof. unfold filter_keys. apply map_filter_id. done. Qed.

Lemma selects_scan t : selects t (λ _, true) (ScanOp.table_membership store t).
Proof. unfold selects. by rewrite filter_keys_true. Qed.

Lemma selects_ext t g g' z : (∀ k, g k = g' k) → selects t g z → selects t g' z.
Proof. intros Hg ->. by apply filter_keys_ext. Qed.

Lemma selects_filter t g p z : selects t g z → selects t (λ k, p k && g k) (filter_keys p z).
Proof.
  intros ->. unfold selects, filter_keys. rewrite map_filter_filter. apply map_filter_ext. intros k w _. cbn.
  by rewrite andb_true_iff.
Qed.
End holds.

Section selections.
Context `{HashingLaws} `{OrdSetLaws}.
Context (store : Store) (tables_ok : map_Forall table_ok (collections store)).

Lemma membership_one t k w : ScanOp.table_membership store t !! k = Some w → w = 1.
Proof. intros Hk. by apply (lookup_membership store t k w tables_ok) in Hk as [-> _]. Qed.

Lemma selects_lookup t g z k : selects store t g z →
  z !! k = if bool_decide (is_Some (ScanOp.table_membership store t !! k)) && g k then Some 1 else None.
Proof.
  intros ->. unfold filter_keys. rewrite map_lookup_filter. case_bool_decide as Hm; cbn.
  - destruct Hm as [w Hw]. rewrite Hw. apply membership_one in Hw as ->. cbn.
    destruct (g k); cbn; [done|done].
  - destruct (ScanOp.table_membership store t !! k) eqn:E; [|done]. exfalso. by apply Hm.
Qed.

Lemma selects_of_lookup t g z :
  (∀ k, z !! k = if bool_decide (is_Some (ScanOp.table_membership store t !! k)) && g k then Some 1 else None) →
  selects store t g z.
Proof. intros Hz. apply map_eq. intros k. rewrite Hz. symmetry. by apply selects_lookup. Qed.

Lemma selects_weight t g z k : selects store t g z →
  0 < weight z k ↔ is_Some (ScanOp.table_membership store t !! k) ∧ g k = true.
Proof.
  intros Hz. unfold weight. rewrite (selects_lookup t g z k Hz). case_bool_decide as Hm; cbn; [|by split; [|intros []]].
  destruct (g k); cbn; [split; [done|lia]|split; [done|by intros []]].
Qed.

(** A semi-join keeps the rows that some row of the other side joins. *)
Lemma selects_semi t t' g g' L R lf rf : selects store t g L → selects store t' g' R →
  selects store t (λ k, g k && some_row store t' g' lf rf k) (SemiJoinOp.semi_join L R (read_on lf rf) store).
Proof.
  intros HL HR. apply selects_of_lookup. intros k.
  change (SemiJoinOp.semi_join L R (read_on lf rf) store) with (presence_join false L R (read_on lf rf) store).
  assert (some_row store t' g' lf rf k = true ↔ witnessed (read_on lf rf) store R k) as Hw.
  { unfold some_row, witnessed. rewrite existsb_exists. split.
    - intros (r & Hr & [Hg Hj]%andb_true_iff). exists r. split; [|done]. apply (selects_weight t' g' R r HR). split; [|done].
      apply list_elem_of_In in Hr. by apply elem_of_keys_of.
    - intros (r & [Hr Hg]%(selects_weight t' g' R r HR) & Hj). exists r. split; [|by rewrite Hg, Hj].
      apply list_elem_of_In. by apply elem_of_keys_of. }
  assert (kept false (read_on lf rf) store L R k ↔
    bool_decide (is_Some (ScanOp.table_membership store t !! k)) && (g k && some_row store t' g' lf rf k) = true) as Hk.
  { unfold kept. rewrite (selects_weight t g L k HL), <- Hw, !andb_true_iff, bool_decide_eq_true. split; [naive_solver|].
    intros (Hm & Hg & Hs). split; [done|]. split; [|done]. apply live_present; [done|].
    destruct Hm as [w Hm]. apply (lookup_membership store t k w tables_ok) in Hm as (_ & c & id & Hc & -> & Hid). by exists t, c, id. }
  destruct (presence_join_spec false L R (read_on lf rf) store k) as [[-> Hkept]|[-> Hkept]].
  - apply Hk in Hkept. by rewrite Hkept.
  - destruct (_ && _) eqn:E; [|done]. exfalso. by apply Hkept, Hk.
Qed.

(** *** Unions *)

(** Each row as often as it was added, up to [m] times. *)
Definition counts (t : string) (g : RowKey → bool) (m : Z) (z : ZSet) : Prop :=
  ∀ k, if bool_decide (is_Some (ScanOp.table_membership store t !! k)) && g k
       then ∃ w, z !! k = Some w ∧ 1 <= w <= m else z !! k = None.

Lemma selects_counts t g z : selects store t g z → counts t g 1 z.
Proof. intros Hz k. rewrite (selects_lookup t g z k Hz). case_match; [|done]. exists 1. split; [done|lia]. Qed.

Lemma counts_add t g g' m z z' : 1 <= m → m + 1 < two63 → counts t g m z → selects store t g' z' →
  counts t (λ k, g k || g' k) (m + 1) (ZSet.add (ZSet.add ∅ z) z').
Proof.
  intros Hm1 Hm Hz Hz' k. specialize (Hz k). unfold ZSet.add. rewrite !lookup_for_each_entry, lookup_empty.
  rewrite (selects_lookup t g' z' k Hz'). case_bool_decide as Hk; cbn in *.
  - destruct (g k); cbn in *; [destruct Hz as (w & -> & Hw)|rewrite Hz].
    + assert (i64_add 0 w = w) as Hw0 by (unfold i64_add; rewrite wrap_i64_id by (unfold in_i64; lia); lia).
      destruct (g' k); cbn; rewrite ?Hw0; [|destruct (Z.eqb_spec w 0); [lia|exists w; split; [done|lia]]].
      assert (i64_add w 1 = w + 1) as Hw1 by (unfold i64_add; rewrite wrap_i64_id by (unfold in_i64; lia); lia).
      destruct (Z.eqb_spec w 0); [lia|]. cbn. rewrite Hw1. destruct (Z.eqb_spec (w + 1) 0); [lia|]. exists (w + 1). split; [done|lia].
    + destruct (g' k); cbn; [|done]. exists 1. split; [done|lia].
  - by rewrite Hz.
Qed.

Lemma threshold_selects t g m z : counts t g m z → selects store t g (DistinctOp.threshold z).
Proof.
  intros Hz. apply selects_of_lookup. intros k. specialize (Hz k). unfold DistinctOp.threshold.
  rewrite lookup_fmap, map_lookup_filter. destruct (_ && _).
  - destruct Hz as (w & -> & Hw). cbn. rewrite option_guard_True by lia. done.
  - by rewrite Hz.
Qed.
End selections.

(** ** Conditions above a scan *)

(** Disjunctions have disjuncts, as the parser writes them. *)
Fixpoint cond_ok (c : Cond) : bool :=
  match c with
  | CAnd l => forallb cond_ok l
  | COr l => negb (bool_decide (length l = 0%nat)) && forallb cond_ok l
  | InSubquery _ _ _ (Some w) => cond_ok w
  | _ => true
  end.

(** A plan over [t] that a condition is put on. *)
Definition over_table (t : string) (B : JPlan) : Prop := B = JScan t ∨ scanned_table B = None.

Section lowering.
Context `{HashingLaws} `{OrdSetLaws}.
Context (links : LinkMap) (store : Store) (params : option Sp00kyValue).
Context (tables_ok : map_Forall table_ok (collections store)).
#[local] Abbreviation meaning := (meaning links store params).
#[local] Abbreviation holds := (holds links store params).
#[local] Abbreviation selects := (selects store).

Lemma path_unlinked t f v k : is_link_leaf links (CmpField TEq f v) t = false →
  path_holds links store params (Some t) (split dot f) v k = flat_eq store params (split dot f) v k.
Proof.
  cbn [is_link_leaf]. destruct (split dot f) as [|link [|rest more]]; [done..|]. cbn [path_holds linked].
  destruct (link_target links t link) as [target|]; [|done].
  rewrite bool_decide_true by by eexists. cbn. destruct (bool_decide (more = []) && String.eqb rest "id"); done.
Qed.

Lemma path_none segs v k : path_holds links store params None segs v k = flat_eq store params segs v k.
Proof. by destruct segs as [|? [|]]. Qed.

(** Without markers, it does not matter whether links are followed. *)
Lemma holds_unlinked t c k : contains_marker links c t = false → holds (Some t) c k = holds None c k.
Proof.
  induction c as [ty f v|f p|ty p v|l r|l p tb w _|l IH|l IH] using cond_ind'; intros Hc; try done.
  - destruct ty; try done. cbn [Lowered.holds]. rewrite path_none. apply path_unlinked.
    cbn [contains_marker] in Hc. unfold is_marker_leaf in Hc. cbn [is_subquery_marker] in Hc.
    by rewrite orb_false_l, orb_false_r in Hc.
  - change (existsb (λ p, contains_marker links p t) l = false) in Hc. cbn [Lowered.holds].
    induction IH as [|c l Hcl _ IHl]; [done|]. cbn in Hc |- *. apply orb_false_iff in Hc as [Hc1 Hc2]. by rewrite Hcl, IHl.
  - change (existsb (λ p, contains_marker links p t) l = false) in Hc. cbn [Lowered.holds].
    induction IH as [|c l Hcl _ IHl]; [done|]. cbn in Hc |- *. apply orb_false_iff in Hc as [Hc1 Hc2]. by rewrite Hcl, IHl.
Qed.

(** A filter without markers on a plan over [t]. *)
Lemma selects_jfilter t g B c : over_table t B → B = JScan t ∨ contains_marker links c t = false →
  selects t g (meaning B) → selects t (λ k, holds (Some t) c k && g k) (meaning (JFilter c B)).
Proof.
  intros Ht Hc HB. cbn [Lowered.meaning].
  eapply selects_ext; [|by apply (selects_filter store t g (holds (scanned_table B) c))].
  intros k. cbn. destruct Ht as [-> | Hs]; [done|]. destruct Hc as [-> | Hc]; [done|]. by rewrite Hs, holds_unlinked.
Qed.

Lemma selects_inner t w : selects t (λ r, match w with Some w => holds (Some t) w r | None => true end)
  (meaning (match w with Some w => JFilter w (JScan t) | None => JScan t end)).
Proof.
  destruct w as [w|]; [|apply selects_scan]. eapply selects_ext; [|apply (selects_jfilter t (λ _, true))].
  - intros k. cbn. by rewrite andb_true_r.
  - by left.
  - by left.
  - apply selects_scan.
Qed.

Lemma selects_subquery t g B l p tb w : selects t g (meaning B) →
  selects t (λ k, holds (Some t) (InSubquery l p tb w) k && g k) (meaning (semijoin_for_subquery B l p tb w)).
Proof.
  intros HB. unfold semijoin_for_subquery. cbn [Lowered.holds].
  destruct (split_once dot p) as [[link f]|]; cbn [Lowered.meaning].
  - pose proof (selects_semi store tables_ok link tb _ _ _ _ "id" link (selects_scan store link) (selects_inner tb w)) as Hin.
    pose proof (selects_semi store tables_ok t link _ _ _ _ l f HB Hin) as Hout.
    eapply selects_ext; [|exact Hout]. intros k. apply andb_comm.
  - pose proof (selects_semi store tables_ok t tb _ _ _ _ l p HB (selects_inner tb w)) as Hout.
    eapply selects_ext; [|exact Hout]. intros k. apply andb_comm.
Qed.

Lemma split_once_split f x y : split_once dot f = Some (x, y) → split dot f = x :: split dot y.
Proof.
  revert x. induction f as [|a f IH]; intros x; cbn [split_once split]; [done|].
  destruct (Ascii.eqb a dot); [by intros [= <- <-]|]. destruct (split_once dot f) as [[x' y']|]; [|done].
  intros [= <- ->]. by rewrite (IH x' eq_refl).
Qed.

Lemma split_once_none f : split_once dot f = None → split dot f = [f].
Proof.
  induction f as [|a f IH]; cbn [split_once split]; [done|]. destruct (Ascii.eqb a dot); [done|].
  destruct (split_once dot f) as [[]|]; [done|]. intros _. by rewrite IH.
Qed.

(** A link is followed by a semi-join. *)
Lemma selects_link t g B c : selects t g (meaning B) → is_link_leaf links c t = true →
  selects t (λ k, holds (Some t) c k && g k) (meaning (semijoin_for_marker B (link_leaf_to_marker links c t))).
Proof.
  intros HB Hl. destruct c as [ty f v| | | | | |]; try done. destruct ty; try done. cbn [link_leaf_to_marker].
  destruct (split_once dot f) as [[link rest]|] eqn:Hf; [|cbn in Hl; by rewrite (split_once_none f Hf) in Hl].
  change (default (f, "id"%string) (Some (link, rest))) with (link, rest). cbn [semijoin_for_marker].
  eapply selects_ext; [|by apply selects_subquery]. intros k. cbn. f_equal.
  cbn [is_link_leaf] in Hl. rewrite (split_once_split f link rest Hf) in Hl |- *.
  destruct (split dot rest) as [|r more] eqn:Hr; [by apply split_nonempty in Hr|].
  cbn [path_holds linked]. apply andb_true_iff in Hl as [[target Ht]%bool_decide_eq_true_1 Hid].
  rewrite Ht. cbn. destruct (bool_decide (more = []) && String.eqb r "id"); [done|]. reflexivity.
Qed.

(** *** Disjunctions and conjunctions *)

Lemma selects_union_all t scan plans (gs : list (RowKey → bool)) : (0 < length plans)%nat →
  Z.of_nat (length plans) < two63 → Forall2 (λ p g, selects t g (meaning p)) plans gs →
  selects t (λ k, existsb (λ g, g k) gs) (meaning (union_all scan plans)).
Proof.
  intros Hpos Hlen Hps. destruct Hps as [|p g plans gs Hp Hps]; [cbn in Hpos; lia|]. clear Hpos. cbn [union_all Lowered.meaning].
  assert (∀ m first g, 1 <= m → m + Z.of_nat (length plans) < two63 → counts store t g m (meaning first) →
    ∃ m', counts store t (λ k, g k || existsb (λ g, g k) gs) m' (meaning (foldl JUnion first plans))) as Hfold.
  { clear p g Hp Hlen. induction Hps as [|p g plans gs Hp _ IH]; intros m first g0 Hm Hlen Hc; cbn [foldl existsb].
    - exists m. intros k. specialize (Hc k). by rewrite orb_false_r.
    - cbn [length] in Hlen. destruct (IH (m + 1) (JUnion first p) (λ k, g0 k || g k)) as [m' Hm']; [lia|lia| |].
      + cbn [Lowered.meaning]. apply counts_add; [done|done|lia|done|done].
      + exists m'. intros k. specialize (Hm' k). by rewrite orb_assoc. }
  cbn [length] in Hlen. destruct (Hfold 1 p g) as [m Hm]; [lia|lia|by apply selects_counts|].
  eapply selects_ext; [|by eapply threshold_selects]. done.
Qed.

(** A condition is put on [B] by [lower]. *)
Definition lowers (t : string) (lower : JPlan → JPlan) (c : Cond) : Prop := ∀ B g,
  over_table t B → selects t g (meaning B) →
  over_table t (lower B) ∧ selects t (λ k, holds (Some t) c k && g k) (meaning (lower B)).

(** A fold that puts one plan over the other for each chosen conjunct. *)
Lemma selects_fold t (chosen : Cond → bool) (f : JPlan → Cond → JPlan) l :
  Forall (λ p, chosen p = true → lowers t (λ B, f B p) p) l → ∀ B g,
  over_table t B → selects t g (meaning B) →
  let B' := foldl (λ B p, if chosen p then f B p else B) B l in
  over_table t B' ∧ selects t (λ k, forallb (λ p, if chosen p then holds (Some t) p k else true) l && g k) (meaning B').
Proof.
  intros Hl. induction Hl as [|p l Hp _ IH]; intros B g Ht HB; cbn [foldl forallb]; [done|].
  destruct (chosen p) eqn:Hc.
  - destruct (Hp eq_refl B g Ht HB) as [Ht' HB']. destruct (IH _ _ Ht' HB') as [Ht'' HB'']. split; [done|].
    eapply selects_ext; [|exact HB'']. intros k. cbn. rewrite andb_assoc. f_equal. apply andb_comm.
  - by apply IH.
Qed.

Lemma over_semijoin t B l p tb w : over_table t (semijoin_for_subquery B l p tb w).
Proof. right. unfold semijoin_for_subquery. by destruct (split_once dot p) as [[]|]. Qed.

Lemma holds_conjunction tb preds k : holds tb (conjunction preds) k = forallb (λ p, holds tb p k) preds.
Proof. destruct preds as [|p [|q preds]]; cbn; [done|by rewrite andb_true_r|done]. Qed.

(** The plain conjuncts, in one filter. *)
Lemma selects_filtered t g B preds : over_table t B →
  B = JScan t ∨ Forall (λ p, contains_marker links p t = false) preds →
  selects t g (meaning B) →
  over_table t (filtered preds B) ∧
  selects t (λ k, forallb (λ p, holds (Some t) p k) preds && g k) (meaning (filtered preds B)).
Proof.
  intros Ht Hm HB. destruct preds as [|p preds]; [done|]. split; [by right|]. cbn [filtered].
  eapply selects_ext; [|apply (selects_jfilter t g B (conjunction (p :: preds))); [done| |done]].
  { intros k. cbn beta. by rewrite holds_conjunction. }
  destruct Hm as [-> | Hm]; [by left|right]. destruct preds as [|q preds]; [by inversion Hm|].
  change (existsb (λ p, contains_marker links p t) (p :: q :: preds) = false).
  induction Hm as [|x l Hx _ IH]; cbn; [done|by rewrite Hx].
Qed.

Lemma forallb_partition (f h : Cond → bool) l :
  forallb h l = forallb (λ p, if f p then h p else true) l && forallb h (List.filter (λ p, negb (f p)) l).
Proof.
  induction l as [|p l IH]; cbn; [done|]. destruct (f p); cbn; rewrite IH; [by rewrite andb_assoc|].
  destruct (h p); cbn; [done|by rewrite andb_false_r].
Qed.

Lemma forallb_both (f f' h : Cond → bool) l : (∀ p, f' p = true → f p = true) →
  forallb (λ p, if f p then h p else true) l =
    forallb (λ p, if f p && negb (f' p) then h p else true) l && forallb (λ p, if f' p then h p else true) l.
Proof.
  intros Hf. induction l as [|p l IH]; cbn; [done|]. rewrite IH. specialize (Hf p).
  destruct (f p), (f' p); cbn; try (by specialize (Hf eq_refl)); destruct (h p); cbn; rewrite ?andb_false_r; done.
Qed.

Definition small (c : Cond) : Prop := cond_ok c = true ∧ Z.of_nat (cond_weight c) < two63.

Lemma small_child (l : list Cond) c : c ∈ l → forallb cond_ok l = true → Z.of_nat (2 + weights l) < two63 → small c.
Proof.
  intros Hc Hok Hw. split.
  - rewrite forallb_forall in Hok. apply Hok. by apply list_elem_of_In.
  - pose proof (cond_weight_in c l Hc). lia.
Qed.

Lemma selects_or t l (lower : JPlan → Cond → JPlan) B g : small (COr l) →
  Forall (λ c, small c → selects t (λ k, holds (Some t) c k && g k) (meaning (lower B c))) l →
  over_table t (union_all B (map (lower B) l)) ∧
  selects t (λ k, holds (Some t) (COr l) k && g k) (meaning (union_all B (map (lower B) l))).
Proof.
  intros [Hok Hw] Hl. cbn [cond_ok cond_weight] in Hok, Hw. change (sum_list_with _ l) with (weights l) in Hw.
  apply andb_true_iff in Hok as [Hne Hok]. apply negb_true_iff, bool_decide_eq_false_1 in Hne.
  split; [right; by destruct l|].
  eapply selects_ext; [|apply (selects_union_all t B (map (lower B) l) (map (λ c k, holds (Some t) c k && g k) l))].
  - intros k. cbn [Lowered.holds]. clear. induction l as [|c l IH]; cbn; [done|]. rewrite IH.
    destruct (holds (Some t) c k), (g k); cbn; rewrite ?andb_false_r, ?orb_false_r; done.
  - rewrite length_map. lia.
  - rewrite length_map. pose proof (weights_length l). lia.
  - rewrite Forall2_fmap. apply Forall_Forall2_diag, Forall_forall. intros c Hc.
    by apply (proj1 (Forall_forall _ _) Hl c Hc (small_child l c Hc Hok Hw)).
Qed.

Lemma marker_lowers t p : is_marker_leaf links p t = true → lowers t (λ B, semijoin_for_marker B (to_marker links p t)) p.
Proof.
  intros Hp B g Ht HB. unfold is_marker_leaf, to_marker in *. destruct (is_subquery_marker p) eqn:Hm.
  - destruct p as [| | | |l pr tb w| |]; try done. cbn [semijoin_for_marker]. split; [apply over_semijoin|by apply selects_subquery].
  - cbn in Hp. split; [|by apply selects_link]. destruct p as [ty f v| | | | | |]; try done. cbn [link_leaf_to_marker].
    case_match. apply over_semijoin.
Qed.

Lemma lower_predicate_lowers t c : small c → lowers t (λ B, lower_predicate_to_plan links B c t) c.
Proof.
  induction c as [ty f v|f p|ty p v|l r|l p tb w _|l IH|l IH] using cond_ind'; intros Hs B g Ht HB.
  - cbn [lower_predicate_to_plan]. destruct (is_link_leaf links (CmpField ty f v) t) eqn:Hl.
    + split; [|by apply selects_link]. cbn [link_leaf_to_marker]. case_match. apply over_semijoin.
    + split; [by right|]. apply selects_jfilter; [done|right|done]. cbn [contains_marker]. unfold is_marker_leaf. by rewrite Hl.
  - split; [by right|]. apply selects_jfilter; [done|by right|done].
  - split; [by right|]. apply selects_jfilter; [done|by right|done].
  - split; [by right|]. apply selects_jfilter; [done|by right|done].
  - split; [apply over_semijoin|by apply selects_subquery].
  - destruct Hs as [Hok Hw]. cbn [cond_ok cond_weight] in Hok, Hw. change (sum_list_with _ l) with (weights l) in Hw.
    cbn [lower_predicate_to_plan].
    set (preds := List.filter _ l).
    destruct (selects_filtered t g B preds Ht) as [Ht0 H0']; [|done|].
    { right. apply Forall_forall. intros p Hp%list_elem_of_In. apply filter_In in Hp as [_ Hp]. by apply negb_true_iff. }
    assert (Forall (λ p, is_marker_leaf links p t = true → lowers t (λ B, semijoin_for_marker B (to_marker links p t)) p) l) as Hm.
    { apply Forall_forall. intros p _ Hp B' g' Ht' HB'. by apply marker_lowers. }
    destruct (selects_fold t _ _ l Hm _ _ Ht0 H0') as [Ht1 H1'].
    assert (Forall (λ p, contains_marker links p t && negb (is_marker_leaf links p t) = true →
      lowers t (λ B, lower_predicate_to_plan links B p t) p) l) as Hn.
    { apply Forall_forall. intros p Hp _. apply (proj1 (Forall_forall _ _) IH p Hp). by apply (small_child l). }
    destruct (selects_fold t _ _ l Hn _ _ Ht1 H1') as [Ht2 H2'].
    split; [exact Ht2|]. eapply selects_ext; [|exact H2']. intros k. cbn beta. cbn [Lowered.holds].
    rewrite (forallb_partition (λ p, contains_marker links p t) (λ p, holds (Some t) p k) l),
      (forallb_both (λ p, contains_marker links p t) (λ p, is_marker_leaf links p t) (λ p, holds (Some t) p k) l
        (λ p, marker_contains links p t)). fold preds.
    by rewrite !andb_assoc.
  - apply (selects_or t l (λ B c, lower_predicate_to_plan links B c t)); [done|].
    eapply Forall_impl; [exact IH|]. cbn. intros d Hd Hsd. by apply Hd.
Qed.

(** *** Conditions with subqueries *)

Lemma no_subquery_no_marker t c : where_contains_subquery c = false → predicate_contains_link_leaf links c t = false →
  contains_marker links c t = false.
Proof.
  assert (∀ l, Forall (λ c, where_contains_subquery c = false → predicate_contains_link_leaf links c t = false →
      contains_marker links c t = false) l →
    existsb where_contains_subquery l = false → existsb (λ p, predicate_contains_link_leaf links p t) l = false →
    existsb (λ p, contains_marker links p t) l = false) as Hl.
  { intros l. induction 1 as [|d l Hd _ IH]; cbn; [done|]. intros [H2 H3]%orb_false_iff [H4 H5]%orb_false_iff.
    by rewrite Hd, IH. }
  induction c as [ty f v|f p|ty p v|l r|l p tb w _|l IH|l IH] using cond_ind'; intros Hw Hp; try done.
  - cbn [contains_marker predicate_contains_link_leaf] in *. unfold is_marker_leaf. by rewrite Hp.
  - by apply Hl.
  - by apply Hl.
Qed.

(** The links of a condition with subqueries that are followed: those in a
    filter right above the scan. [top] says that the condition is put there. *)
Fixpoint links_in_reach (t : string) (top : bool) (c : Cond) : bool :=
  match c with
  | CAnd l =>
      forallb (λ p,
        if where_contains_subquery p then match p with InSubquery _ _ _ _ => true | _ => links_in_reach t false p end
        else top || negb (predicate_contains_link_leaf links p t)) l
  | COr l => forallb (links_in_reach t top) l
  | InSubquery _ _ _ _ => true
  | _ => top || negb (is_link_leaf links c t)
  end.

Lemma leaf_in_reach t top c B g : where_contains_subquery c = false → (top = true → B = JScan t) →
  top || negb (predicate_contains_link_leaf links c t) = true → over_table t B → selects t g (meaning B) →
  selects t (λ k, holds (Some t) c k && g k) (meaning (JFilter c B)).
Proof.
  intros Hc Htop Hr Ht HB. apply selects_jfilter; [done| |done]. apply orb_true_iff in Hr as [Hr|Hr]; [left; auto|right].
  apply no_subquery_no_marker; [done|]. by apply negb_true_iff.
Qed.

Lemma lower_where_selects t c : small c → ∀ top B g, links_in_reach t top c = true → (top = true → B = JScan t) →
  over_table t B → selects t g (meaning B) →
  over_table t (lower_where_to_plan B c) ∧ selects t (λ k, holds (Some t) c k && g k) (meaning (lower_where_to_plan B c)).
Proof.
  induction c as [ty f v|f p|ty p v|l r|l p tb w _|l IH|l IH] using cond_ind'; intros Hs top B g Hr Htop Ht HB.
  - split; [by right|by apply (leaf_in_reach t top)].
  - split; [by right|by apply (leaf_in_reach t top)].
  - split; [by right|by apply (leaf_in_reach t top)].
  - split; [by right|by apply (leaf_in_reach t top)].
  - split; [apply over_semijoin|by apply selects_subquery].
  - destruct Hs as [Hok Hw]. cbn [cond_ok cond_weight] in Hok, Hw. change (sum_list_with _ l) with (weights l) in Hw.
    cbn [lower_where_to_plan links_in_reach] in *. rewrite forallb_forall in Hr. set (preds := List.filter _ l).
    destruct (selects_filtered t g B preds Ht) as [Ht0 H0']; [|done|].
    { destruct top; [left; auto|right]. apply Forall_forall. intros p Hp%list_elem_of_In.
      apply filter_In in Hp as [Hin Hp]. apply negb_true_iff in Hp. specialize (Hr p Hin). rewrite Hp in Hr.
      apply no_subquery_no_marker; [done|]. by apply negb_true_iff. }
    assert (Forall (λ p, where_contains_subquery p = true → lowers t (λ B, match p with
      | InSubquery left_ proj table where_ => semijoin_for_subquery B left_ proj table where_
      | _ => lower_where_to_plan B p end) p) l) as Hn.
    { apply Forall_forall. intros p Hp Hsub B' g' Ht' HB'. assert (Hin := Hp). apply list_elem_of_In in Hin.
      specialize (Hr p Hin). rewrite Hsub in Hr.
      pose proof (proj1 (Forall_forall _ _) IH p Hp (small_child l p Hp Hok Hw) false B' g') as Hlow.
      by destruct p; apply Hlow. }
    destruct (selects_fold t _ _ l Hn _ _ Ht0 H0') as [Ht2 H2'].
    split; [exact Ht2|]. eapply selects_ext; [|exact H2']. intros k. cbn beta. cbn [Lowered.holds].
    rewrite (forallb_partition where_contains_subquery (λ p, holds (Some t) p k) l). fold preds. by rewrite !andb_assoc.
  - apply (selects_or t l lower_where_to_plan); [done|]. cbn [links_in_reach] in Hr. rewrite forallb_forall in Hr.
    apply Forall_forall. intros d Hd Hsd. apply (proj1 (Forall_forall _ _) IH d Hd Hsd top); try done.
    apply Hr. by apply list_elem_of_In.
Qed.
End lowering.
