(* ===== verification/QueryMeaning.v ===== *)
(** * What a converted query answers

    Rewriting record links keeps the meaning of a plan and leaves none that
    the filters would have to follow; what is read from it evaluates to its
    meaning. So a query answers the rows its condition holds for, cut to its
    window. *)

From S2P Require Import Prelude Platform Value ValueRef ZSet SortKey Index Store StoreFacts Operator Plan Filter.
From S2P Require Import LinearOps Join Witness WitnessFacts TopK Graph Denote Support Combinators Convert ConvertLaws.
From S2P Require Import View Circuit Step Register Batch Viewed Correct Reach.
From S2P Require Import Lowered.
Local Open Scope Z_scope.

Fixpoint plan_ok (p : JPlan) : bool :=
  match p with
  | JScan _ => true
  | JFilter c i => cond_ok c && plan_ok i
  | JJoin l r _ _ | JSemiJoin l r _ _ | JUnion l r => plan_ok l && plan_ok r
  | JDistinct i | JProject _ i | JLimit _ _ _ i => plan_ok i
  end.

Section rewriting.
Context (links : LinkMap).

Lemma plan_ok_semijoin B l p t w : plan_ok B = true → (match w with Some w => cond_ok w | None => true end) = true →
  plan_ok (semijoin_for_subquery B l p t w) = true.
Proof.
  intros HB Hw. unfold semijoin_for_subquery.
  destruct (split_once dot p) as [[]|], w; cbn; by rewrite ?HB, ?Hw.
Qed.

Lemma plan_ok_filtered preds B : plan_ok B = true → forallb cond_ok preds = true → plan_ok (filtered preds B) = true.
Proof.
  intros HB Hp. destruct preds as [|p preds]; [done|]. cbn [filtered plan_ok]. rewrite HB, andb_true_r.
  destruct preds; cbn in *; [by rewrite andb_true_r in Hp|done].
Qed.

Lemma plan_ok_fold (chosen : Cond → bool) (f : JPlan → Cond → JPlan) l B :
  Forall (λ p, ∀ B, plan_ok B = true → plan_ok (f B p) = true) l → plan_ok B = true →
  plan_ok (foldl (λ B p, if chosen p then f B p else B) B l) = true.
Proof. intros Hl. revert B. induction Hl as [|p l Hp _ IH]; intros B HB; cbn; [done|]. apply IH. destruct (chosen p); auto. Qed.

Lemma plan_ok_union scan plans : plan_ok scan = true → forallb plan_ok plans = true → plan_ok (union_all scan plans) = true.
Proof.
  intros Hs Hp. destruct plans as [|p plans]; cbn in *; [done|]. apply andb_true_iff in Hp as [Hp Hps].
  revert p Hp. induction plans as [|q plans IH]; intros p Hp; cbn in *; [done|].
  apply andb_true_iff in Hps as [Hq Hps]. apply IH; [done|]. cbn. by rewrite Hp, Hq.
Qed.

Lemma forallb_filter {A} (g f : A → bool) l : forallb g l = true → forallb g (List.filter f l) = true.
Proof. rewrite !forallb_forall. intros Hg x [Hx _]%filter_In. auto. Qed.

Lemma plan_ok_where c : cond_ok c = true → ∀ B, plan_ok B = true → plan_ok (lower_where_to_plan B c) = true.
Proof.
  induction c as [ty f v|f p|ty p v|l r|l p tb w _|l IH|l IH] using cond_ind'; intros Hc B HB; try done.
  - by apply plan_ok_semijoin.
  - cbn [lower_where_to_plan cond_ok] in *. pose proof (proj1 (forallb_forall _ _) Hc) as Hin.
    apply (plan_ok_fold where_contains_subquery (λ B p, match p with
      | InSubquery left_ proj table where_ => semijoin_for_subquery B left_ proj table where_
      | _ => lower_where_to_plan B p end)).
    { apply Forall_forall. intros p Hp B' HB'. pose proof (proj1 (Forall_forall _ _) IH p Hp) as Hlow.
      apply list_elem_of_In, Hin in Hp. specialize (Hlow Hp B' HB'). by destruct p. }
    apply plan_ok_filtered; [done|]. by apply forallb_filter.
  - cbn [lower_where_to_plan cond_ok] in *. apply andb_true_iff in Hc as [_ Hc]. rewrite forallb_forall in Hc.
    apply plan_ok_union; [done|]. apply forallb_forall. intros p (b & <- & Hb)%in_map_iff.
    apply (proj1 (Forall_forall _ _) IH b); [by apply list_elem_of_In|by apply Hc|done].
Qed.

Lemma plan_ok_marker B p t : plan_ok B = true → cond_ok p = true →
  plan_ok (semijoin_for_marker B (to_marker links p t)) = true.
Proof.
  intros HB Hp. unfold to_marker. destruct p as [ty f v| | | |l pr tb w| |]; try done; cbn [is_subquery_marker link_leaf_to_marker semijoin_for_marker].
  - case_match. by apply plan_ok_semijoin.
  - by apply plan_ok_semijoin.
Qed.

Lemma plan_ok_lower t c : cond_ok c = true → ∀ B, plan_ok B = true → plan_ok (lower_predicate_to_plan links B c t) = true.
Proof.
  induction c as [ty f v|f p|ty p v|l r|l p tb w _|l IH|l IH] using cond_ind'; intros Hc B HB.
  - cbn [lower_predicate_to_plan]. destruct (is_link_leaf links (CmpField ty f v) t) eqn:Hl; [|done].
    apply (plan_ok_marker B (CmpField ty f v) t HB Hc).
  - done.
  - done.
  - done.
  - by apply plan_ok_semijoin.
  - cbn [lower_predicate_to_plan cond_ok] in *. pose proof (proj1 (forallb_forall _ _) Hc) as Hin.
    apply (plan_ok_fold _ (λ B p, lower_predicate_to_plan links B p t)).
    { apply Forall_forall. intros p Hp B' HB'. apply (proj1 (Forall_forall _ _) IH p Hp); [|done].
      apply Hin. by apply list_elem_of_In. }
    apply (plan_ok_fold _ (λ B p, semijoin_for_marker B (to_marker links p t))).
    { apply Forall_forall. intros p Hp B' HB'. apply plan_ok_marker; [done|]. apply Hin. by apply list_elem_of_In. }
    apply plan_ok_filtered; [done|]. by apply forallb_filter.
  - cbn [lower_predicate_to_plan cond_ok] in *. apply andb_true_iff in Hc as [_ Hc]. rewrite forallb_forall in Hc.
    apply plan_ok_union; [done|]. apply forallb_forall. intros p (b & <- & Hb)%in_map_iff.
    apply (proj1 (Forall_forall _ _) IH b); [by apply list_elem_of_In|by apply Hc|done].
Qed.

(** A plan with a join put on it is no scan any more. *)
Lemma scanned_semijoin B l p t w : scanned_table (semijoin_for_subquery B l p t w) = None.
Proof. unfold semijoin_for_subquery. by destruct (split_once dot p) as [[]|]. Qed.

Lemma scanned_fold (chosen : Cond → bool) (f : JPlan → Cond → JPlan) l B :
  Forall (λ p, chosen p = true → ∀ B, scanned_table (f B p) = None) l →
  scanned_table B = None ∨ existsb chosen l = true →
  scanned_table (foldl (λ B p, if chosen p then f B p else B) B l) = None.
Proof.
  intros Hl. revert B. induction Hl as [|p l Hp _ IH]; intros B [HB|HB]; cbn in *; try done.
  - apply IH. left. destruct (chosen p); auto.
  - apply IH. destruct (chosen p); cbn in HB; auto.
Qed.

Lemma scanned_marker B p t : is_marker_leaf links p t = true →
  scanned_table (semijoin_for_marker B (to_marker links p t)) = None.
Proof.
  unfold is_marker_leaf, to_marker. destruct p as [ty f v| | | |l pr tb w| |]; try done; intros _;
    cbn [is_subquery_marker link_leaf_to_marker semijoin_for_marker]; [case_match|]; apply scanned_semijoin.
Qed.

Lemma scanned_lower t c B : contains_marker links c t = true → scanned_table (lower_predicate_to_plan links B c t) = None.
Proof.
  revert B. induction c as [ty f v|f p|ty p v|l r|l p tb w _|l IH|l IH] using cond_ind'; intros B Hc; try done.
  - cbn [lower_predicate_to_plan]. destruct (is_link_leaf links (CmpField ty f v) t) eqn:Hl; [|done].
    apply (scanned_marker B (CmpField ty f v) t). unfold is_marker_leaf. by rewrite Hl.
  - apply scanned_semijoin.
  - change (existsb (λ p, contains_marker links p t) l = true) in Hc. cbn [lower_predicate_to_plan].
    apply (scanned_fold _ (λ B p, lower_predicate_to_plan links B p t)).
    { apply Forall_forall. intros p Hp [Hcp _]%andb_true_iff B'. by apply (proj1 (Forall_forall _ _) IH p Hp). }
    destruct (existsb (λ p, is_marker_leaf links p t) l) eqn:Hm.
    + left. apply (scanned_fold _ (λ B p, semijoin_for_marker B (to_marker links p t))); [|by right].
      apply Forall_forall. intros p _ Hp B'. by apply scanned_marker.
    + right. apply existsb_exists in Hc as (p & Hin & Hp). apply existsb_exists. exists p. split; [done|].
      rewrite Hp. cbn. apply negb_true_iff. rewrite <- not_true_iff_false. intros Hpm.
      rewrite <- not_true_iff_false, existsb_exists in Hm. by apply Hm; exists p.
  - cbn [lower_predicate_to_plan]. unfold union_all. by case_match.
Qed.
End rewriting.

(** No filter right above a scan follows a link. *)
Fixpoint settled (links : LinkMap) (p : JPlan) : bool :=
  match p with
  | JScan _ => true
  | JFilter c i =>
      match scanned_table i with Some t => negb (predicate_contains_link_leaf links c t) | None => true end && settled links i
  | JJoin l r _ _ | JSemiJoin l r _ _ | JUnion l r => settled links l && settled links r
  | JDistinct i | JProject _ i | JLimit _ _ _ i => settled links i
  end.

Lemma no_links_no_leaf c t : predicate_contains_link_leaf ∅ c t = false.
Proof.
  induction c as [ty f v|f p|ty p v|l r|l p tb w _|l IH|l IH] using cond_ind'; try done.
  - destruct ty; try done. cbn. by destruct (split dot f) as [|? [|]].
  - cbn. induction IH as [|c l Hc _ IHl]; cbn; [done|by rewrite Hc].
  - cbn. induction IH as [|c l Hc _ IHl]; cbn; [done|by rewrite Hc].
Qed.

Lemma no_links_settled p : settled ∅ p = true.
Proof.
  induction p; cbn; rewrite ?IHp, ?IHp1, ?IHp2; try done.
  destruct (scanned_table p); [by rewrite no_links_no_leaf|done].
Qed.

Section meaning.
Context `{HashingLaws} `{OrdSetLaws}.
Context (links : LinkMap) (store : Store) (params : option Sp00kyValue).
Context (tables_ok : map_Forall table_ok (collections store)).
#[local] Abbreviation meaning := (meaning links store params).
#[local] Abbreviation holds := (holds links store params).

Lemma lower_links_meaning f p : (plan_depth p ≤ f)%nat → Z.of_nat f < two63 → plan_ok p = true →
  meaning (lower_link_traversals links f p) = meaning p ∧
  scanned_table (lower_link_traversals links f p) = scanned_table p ∧
  settled links (lower_link_traversals links f p) = true.
Proof.
  revert p. induction f as [|f IH]; intros p Hf Hsmall Hok; [pose proof (plan_depth_pos p); lia|].
  cbn [lower_link_traversals]. case_bool_decide as Hlinks.
  { split; [done|]. split; [done|]. rewrite Hlinks. apply no_links_settled. }
  assert (∀ q, (plan_depth q ≤ f)%nat → plan_ok q = true →
    meaning (lower_link_traversals links f q) = meaning q ∧
    scanned_table (lower_link_traversals links f q) = scanned_table q ∧
    settled links (lower_link_traversals links f q) = true) as IH' by (intros; apply IH; [done|lia|done]).
  destruct p as [t|c i|l r lf rf|l r lf rf|l r|i|ps i|n s o i]; cbn [plan_depth plan_ok] in Hf, Hok;
    try (apply andb_true_iff in Hok as [Hok1 Hok2]).
  - done.
  - destruct (IH' i) as (Hm & Hsc & Hse); [lia|done|]. rewrite Hsc. destruct (scanned_table i) as [t|] eqn:Hi; cbn [scanned_table].
    + destruct i as [t'| | | | | | |]; try done. injection Hi as ->.
      destruct (predicate_contains_link_leaf links c t) eqn:Hc.
      * assert (lower_link_traversals links f (JScan t) = JScan t) as -> by (destruct f; cbn; [done|by case_bool_decide]).
        pose proof (lower_predicate_depth links t c (JScan t)) as [_ Hd]. specialize (Hd (link_contains links c t Hc)).
        cbn [plan_depth] in Hd, Hf.
        destruct (IH' (lower_predicate_to_plan links (JScan t) c t)) as (Hm' & Hsc' & Hse').
        { lia. }
        { by apply plan_ok_lower. }
        split; [|split; [|done]].
        -- rewrite Hm'. destruct (lower_predicate_lowers links store params tables_ok t c) with (B := JScan t) (g := λ _ : RowKey, true) as [_ Hsel].
           { split; [done|lia]. }
           { by left. }
           { apply selects_scan. }
           rewrite Hsel. cbn [Lowered.meaning scanned_table]. apply filter_keys_ext. intros k. apply andb_true_r.
        -- rewrite Hsc'. by apply scanned_lower, link_contains.
      * split; [|split; [done|]]; cbn [Lowered.meaning settled scanned_table]; [by rewrite Hsc, Hm|]. by rewrite Hsc, Hc, Hse.
    + split; [|split; [done|]]; cbn [Lowered.meaning settled]; [by rewrite Hsc, Hi, Hm|]. by rewrite Hsc, Hse.
  - destruct (IH' l) as (Hm & _ & Hse); [lia|done|]. destruct (IH' r) as (Hm' & _ & Hse'); [lia|done|].
    cbn [Lowered.meaning settled]. by rewrite Hm, Hm', Hse, Hse'.
  - destruct (IH' l) as (Hm & _ & Hse); [lia|done|]. destruct (IH' r) as (Hm' & _ & Hse'); [lia|done|].
    cbn [Lowered.meaning settled]. by rewrite Hm, Hm', Hse, Hse'.
  - destruct (IH' l) as (Hm & _ & Hse); [lia|done|]. destruct (IH' r) as (Hm' & _ & Hse'); [lia|done|].
    cbn [Lowered.meaning settled]. by rewrite Hm, Hm', Hse, Hse'.
  - destruct (IH' i) as (Hm & _ & Hse); [lia|done|]. cbn [Lowered.meaning settled]. by rewrite Hm, Hse.
  - destruct (IH' i) as (Hm & _ & Hse); [lia|done|]. cbn [Lowered.meaning settled]. by rewrite Hm, Hse.
  - destruct (IH' i) as (Hm & _ & Hse); [lia|done|]. cbn [Lowered.meaning settled]. by rewrite Hm, Hse.
Qed.

(** *** Reading *)

(** [read_predicate] on a list. *)
Definition read_all (l : list Cond) : option (list Predicate) := mapM read_predicate l.

Lemma read_predicate_and l : read_predicate (CAnd l) = PAnd <$> read_all l.
Proof.
  unfold read_all. cbn [read_predicate].
  match goal with |- context [?f l] => assert (∀ k, f k = mapM read_predicate k) as Hf end.
  { induction k as [|c k IH]; cbn; [done|]. rewrite IH. by destruct (read_predicate c), (mapM read_predicate k). }
  rewrite Hf. by destruct (mapM read_predicate l).
Qed.
Lemma read_predicate_or l : read_predicate (COr l) = POr <$> read_all l.
Proof.
  unfold read_all. cbn [read_predicate].
  match goal with |- context [?f l] => assert (∀ k, f k = mapM read_predicate k) as Hf end.
  { induction k as [|c k IH]; cbn; [done|]. rewrite IH. by destruct (read_predicate c), (mapM read_predicate k). }
  rewrite Hf. by destruct (mapM read_predicate l).
Qed.

Lemma join_split f : join "." (split dot f) = f.
Proof.
  induction f as [|a f IH]; cbn [split]; [done|]. unfold join in *. destruct (Ascii.eqb_spec a dot) as [->|].
  - cbn. destruct (split dot f) as [|x l] eqn:E; [by apply split_nonempty in E|]. cbn in *. by rewrite IH.
  - destruct (split dot f) as [|x [|y l]]; [by rewrite <- IH|by rewrite <- IH|].
    change (String a (String.concat "." (x :: y :: l)) = String a f). by rewrite IH.
Qed.

(** A flat condition that can be read says what its predicate says. *)
Lemma holds_read c p k : read_predicate c = Some p → holds None c k = check_predicate_recursive p k store params.
Proof.
  revert p. induction c as [ty f v|f pr|ty pa v|l r|l pr tb w _|l IH|l IH] using cond_ind'; intros p Hp.
  - destruct ty; injection Hp as <-; cbn [Lowered.holds read_predicate]; try done. rewrite path_none. unfold flat_eq. cbn.
    by rewrite join_split.
  - by injection Hp as <-.
  - destruct ty; by injection Hp as <-.
  - done.
  - done.
  - rewrite read_predicate_and in Hp. apply fmap_Some in Hp as (ps & Hps & ->). cbn [Lowered.holds check_predicate_recursive].
    apply mapM_Some in Hps. induction Hps as [|c p l ps Hc _ IHps]; [done|]. inversion IH; subst. cbn. f_equal; [|by apply IHps].
    match goal with H : ∀ p, _ |- _ => by apply H end.
  - rewrite read_predicate_or in Hp. apply fmap_Some in Hp as (ps & Hps & ->). cbn [Lowered.holds check_predicate_recursive].
    apply mapM_Some in Hps. induction Hps as [|c p l ps Hc _ IHps]; [done|]. inversion IH; subst. cbn. f_equal; [|by apply IHps].
    match goal with H : ∀ p, _ |- _ => by apply H end.
Qed.

Lemma read_no_subquery c p : read_predicate c = Some p → where_contains_subquery c = false.
Proof.
  revert p. induction c as [ty f v|f pr|ty pa v|l r|l pr tb w _|l IH|l IH] using cond_ind'; intros p Hp; try done.
  - rewrite read_predicate_and in Hp. apply fmap_Some in Hp as (ps & Hps & ->). cbn [where_contains_subquery].
    apply mapM_Some in Hps. induction Hps as [|c p l ps Hc _ IHps]; [done|]. inversion IH; subst. cbn.
    apply orb_false_iff. split; [|by apply IHps]. match goal with H : ∀ p, _ |- _ => by eapply H end.
  - rewrite read_predicate_or in Hp. apply fmap_Some in Hp as (ps & Hps & ->). cbn [where_contains_subquery].
    apply mapM_Some in Hps. induction Hps as [|c p l ps Hc _ IHps]; [done|]. inversion IH; subst. cbn.
    apply orb_false_iff. split; [|by apply IHps]. match goal with H : ∀ p, _ |- _ => by eapply H end.
Qed.

Ltac read_step H :=
  match type of H with
  | match ?e with Some _ => _ | None => None end = Some _ => let E := fresh "E" in destruct e eqn:E; [|discriminate H]
  end.

(** What is read from a settled plan evaluates to its meaning. *)
Lemma read_plan_denote p q : read_plan p = Some q → settled links p = true → denote q store params = meaning p.
Proof.
  revert q. induction p as [t|c i IH|l IHl r IHr lf rf|l IHl r IHr lf rf|l IHl r IHr|i IH|ps i IH|n s o i IH];
    intros q Hq Hs; cbn [read_plan settled] in Hq, Hs; repeat read_step Hq; injection Hq as <-;
    try (apply andb_true_iff in Hs as [Hs1 Hs2]); cbn -[TopKOp.snapshot]; try done.
  - rewrite IH by done. unfold FilterOp.snapshot, FilterOp.check_predicate, input. cbn. apply filter_keys_ext. intros k.
    match goal with H : read_predicate c = Some _ |- _ => rename H into Hc end.
    rewrite <- (holds_read c _ k Hc). destruct (scanned_table i) as [t|]; [|done]. symmetry. apply holds_unlinked.
    apply no_subquery_no_marker; [by eapply read_no_subquery|]. by apply negb_true_iff.
  - by rewrite (IHl _ eq_refl), (IHr _ eq_refl).
  - by rewrite (IHl _ eq_refl), (IHr _ eq_refl).
  - unfold UnionOp.snapshot, input. cbn. by rewrite (IHl _ eq_refl), (IHr _ eq_refl).
  - unfold DistinctOp.snapshot, input. cbn. by rewrite (IH _ eq_refl).
  - unfold MapOp.snapshot, input. cbn. by rewrite (IH _ eq_refl).
  - by rewrite (IH _ eq_refl).
Qed.

(** *** A query *)

(** The conjuncts of a condition. *)
Definition conjuncts (c : Cond) : list Cond := match c with CAnd l => l | c => [c] end.

(** The conditions the theorem is about: no comparison of two fields, and
    links only where they are followed. *)
Definition answerable (table : string) (c : Cond) : bool :=
  cond_ok c && negb (existsb is_join (conjuncts c)) &&
  (negb (where_contains_subquery c) || links_in_reach links table true c).

Lemma holds_conjuncts tb c k : holds tb c k = forallb (λ p, holds tb p k) (conjuncts c).
Proof. destruct c; cbn [conjuncts forallb]; rewrite ?andb_true_r; done. Qed.

Lemma wrap_no_joins B c : existsb is_join (conjuncts c) = false → wrap_conditions B c = filtered (conjuncts c) B.
Proof.
  intros Hj. unfold wrap_conditions. change (match c with CAnd l => l | p => [p] end) with (conjuncts c).
  assert (List.filter is_join (conjuncts c) = [] ∧ List.filter (λ p, negb (is_join p)) (conjuncts c) = conjuncts c) as [-> ->]; [|done].
  induction (conjuncts c) as [|p l IH]; [done|]. cbn in *. apply orb_false_iff in Hj as [Hp Hj].
  destruct (IH Hj) as [IH1 IH2]. rewrite Hp. cbn. by rewrite IH1, IH2.
Qed.

(** The part of a query's tree that its condition makes. *)
Definition condition_plan (table : string) (c : option Cond) : JPlan :=
  match c with
  | Some c => if where_contains_subquery c then lower_where_to_plan (JScan table) c else wrap_conditions (JScan table) c
  | None => JScan table
  end.

Lemma condition_plan_selects table c : answerable table c = true → Z.of_nat (cond_weight c) < two63 →
  plan_ok (condition_plan table (Some c)) = true ∧
  selects store table (holds (Some table) c) (meaning (condition_plan table (Some c))).
Proof.
  intros [[Hok Hj]%andb_true_iff Hr]%andb_true_iff Hw. apply negb_true_iff in Hj. cbn [condition_plan].
  destruct (where_contains_subquery c) eqn:Hsub; cbn in Hr.
  - split; [by apply plan_ok_where|].
    destruct (lower_where_selects links store params tables_ok table c (conj Hok Hw) true (JScan table) (λ _, true)) as [_ Hsel];
      [done|done|by left|apply selects_scan|].
    eapply selects_ext; [|exact Hsel]. intros k. apply andb_true_r.
  - rewrite wrap_no_joins by done. split.
    + apply plan_ok_filtered; [done|]. destruct c; cbn in *; rewrite ?andb_true_r; done.
    + destruct (selects_filtered links store params table (λ _, true) (JScan table) (conjuncts c)) as [_ Hsel];
        [by left|by left|apply selects_scan|].
      eapply selects_ext; [|exact Hsel]. intros k. cbn beta. rewrite andb_true_r. symmetry. apply holds_conjuncts.
Qed.

(** The rows of [START] and [LIMIT], in the order asked for. *)
Definition window (order_by : option (list (string * string))) (limit start : option Z) (z : ZSet) : ZSet :=
  match limit with
  | Some n => TopKOp.snapshot (TopKOp.new n (default 0 start) (map read_order <$> order_by)) [z] store params
  | None => z
  end.

(** C6: A query over a table answers, in any store, the rows of the table
    that its condition holds for, cut to its window, where paths through record
    links are followed from row to row and [IN (SELECT ...)] asks for a row of
    the subquery: the joins, unions and filters its condition is lowered to, and
    the rewriting of links after it, change nothing. *)
Theorem query_answers fields table c order_by limit start q :
  let plan := query_tree fields table c order_by limit start in
  match c with Some c => answerable table c = true ∧ Z.of_nat (cond_weight c) < two63 | None => True end →
  Z.of_nat (plan_depth plan) < two63 →
  read_plan (lower_link_traversals links (plan_depth plan) plan) = Some q →
  denote q store params =
    window order_by limit start
      (filter_keys (λ k, match c with Some c => holds (Some table) c k | None => true end) (ScanOp.table_membership store table)).
Proof.
  intros plan Hc Hsmall Hq.
  assert (plan_ok (condition_plan table c) = true ∧ meaning (condition_plan table c) = filter_keys (λ k,
    match c with Some c => holds (Some table) c k | None => true end) (ScanOp.table_membership store table)) as [Hok Hm].
  { destruct c as [c|]; [destruct Hc as [Ha Hw]; exact (condition_plan_selects table c Ha Hw)|]. split; [done|]. cbn. by rewrite filter_keys_true. }
  assert (plan_ok plan = true ∧ meaning plan = window order_by limit start (meaning (condition_plan table c))) as [Hok' Hm'].
  { unfold plan, query_tree. fold (condition_plan table c).
    destruct (_ || _), limit; cbn [plan_ok Lowered.meaning window]; done. }
  destruct (lower_links_meaning (plan_depth plan) plan) as (Hl & _ & Hs); [done|done|done|].
  by rewrite (read_plan_denote _ _ Hq Hs), Hl, Hm', Hm.
Qed.
End meaning.

(** ** A concrete query *)

(** The users of the open teams: the first by name, over [demo1]. *)
Definition demo_links : LinkMap := {["user" := {["team" := "team"]}]}.
Definition open_team : Cond := CmpField TEq "team.open" (VBool true).
Definition open_query : JPlan := query_tree [JAll] "user" (Some open_team) (Some [("age", "ASC")]) (Some 1) None.

Definition open_read : OperatorPlan :=
  default (OpScan "") (read_plan (lower_link_traversals demo_links (plan_depth open_query) open_query)).

Lemma query_answers_witness :
  denote open_read (ct_store demo1) None =
    window (ct_store demo1) None (Some [("age", "ASC")]) (Some 1) None
      (filter_keys (λ k, holds demo_links (ct_store demo1) None (Some "user") open_team k)
        (ScanOp.table_membership (ct_store demo1) "user")).
Proof.
  apply (query_answers demo_links (ct_store demo1) None (so_tables _ (co_store demo1 (reachable_ok demo1 demo1_reachable))) [JAll] "user" (Some open_team)
    (Some [("age", "ASC")]) (Some 1) None); [split|..]; vm_compute; reflexivity.
Defined.

(** ** Queries that are not answered *)

(** A link in a disjunct above a semi-join: its filter is not right above the
    scan, so the path stays as it is and no row has it. *)
Lemma nested_link_flat :
  converted "SELECT * FROM user WHERE age IN (SELECT VALUE age FROM t) AND (team.open = true OR name IN (SELECT VALUE name FROM u))"
      demo_links =
    let aged := OpSemiJoin (OpScan "user") (OpScan "t") (read_on "age" "age") in
    Some (OpDistinct (OpUnion (OpFilter aged (PEq (Path_new "team.open") (VBool true)))
      (OpSemiJoin aged (OpScan "u") (read_on "name" "name")))).
Proof. vm_compute. reflexivity. Qed.

(** A comparison of two fields becomes an equi-join. *)
Definition authored : OperatorPlan := OpJoin (OpScan "thread") (OpScan "user") (read_on "author" "id").
Example authored_converted : converted "SELECT * FROM thread WHERE author = user.id" ∅ = Some authored.
Proof. vm_compute. reflexivity. Qed.

Definition authored0 : Circuit :=
  match add_query_with_auth (MkQueryPlan "authored" authored) None None "" Circuit.new with Some (_, c) => c | None => Circuit.new end.
Definition authored1 : Circuit :=
  demo_stepped [MkChange "user" Create "user:a" (Object [("id", Str "user:a")]);
    MkChange "thread" Create "thread:t" (Object [("id", Str "thread:t"); ("author", Str "user:a")])] authored0.

(** The join reads the field of a deleted row from the store, where it is no
    longer: the row stays in the view. *)
Lemma deleted_row_stays_joined :
  let shown c := v_cache <$> ct_views c !! "authored" in
  shown authored1 = Some {["thread:t" := 1]} ∧
  shown (demo_stepped [Change.delete "thread" "thread:t"] authored1) = Some {["thread:t" := 1]} ∧
  shown (demo_stepped [Change.delete "user" "user:a"] authored1) = Some {["thread:t" := 1]}.
Proof. split; [|split]; vm_compute; reflexivity. Qed.
