(* ===== verification/Sharing.v ===== *)
(** * Sharing one graph between registrations

    Who a delta goes to, what a registration that joins is told, and when a
    graph is torn down: as long as somebody holds it, and no longer. *)

From S2P Require Import Prelude Platform Float64 Value ValueRef ZSet SortKey Index Store Operator Plan.
From S2P Require Import Filter LinearOps Join Witness TopK Graph Exec View Circuit Step Register.
Local Open Scope Z_scope.

Section sharing.
Context `{Hashing} `{OrdSet}.
Implicit Types (c : Circuit) (owner q : string).

(** A delta of the owner's computation, addressed to a subscriber. *)
Definition addressed (delta : ViewDelta) (s : Subscriber) : ViewDelta :=
  MkViewDelta (sub_query_id s) (vd_additions delta) (vd_removals delta) (vd_updates delta)
    (vd_row_count delta) (vd_result_hash delta) (vd_subquery_items delta) (sub_auth_id s) (vd_initial delta).

(** A computed delta goes, once each and in order, to every
    subscriber of its graph under the subscriber's own id and identity, and to
    the owner unless it has left; nothing else in it changes. *)
Theorem fan_out_exact c delta :
  fan_out c delta = map (addressed delta) (subscribers_of (vd_query_id delta) c) ++
    (if bool_decide (vd_query_id delta ∈ ct_detached_owners c) then [] else [delta]).
Proof.
  unfold fan_out, subscribers_of. destruct (ct_subscribers c !! vd_query_id delta) as [[|s l]|]; cbn [default];
    by case_bool_decide.
Qed.

(** Everyone a graph is kept for. *)
Definition holders owner c : list string :=
  map sub_query_id (subscribers_of owner c) ++ (if bool_decide (owner ∈ ct_detached_owners c) then [] else [owner]).

(** No part of the circuit knows [owner] any more. *)
Record gone owner c : Prop := {
  gn_view : ct_views c !! owner = None;
  gn_graph : ct_graphs c !! owner = None;
  gn_routes : ∀ t, owner ∉ default [] (ct_dependency_map c !! t);
  gn_subscribers : subscribers_of owner c = [];
  gn_claims : ∀ key, ct_merge_index c !! key ≠ Some owner;
  gn_detached : owner ∉ ct_detached_owners c;
}.

Lemma drop_unused owner c : canonical_query_id owner = owner →
  subscribers_of owner c = [] → owner ∈ ct_detached_owners c →
  drop_graph_if_unused owner c = (true, (drop_graph_if_unused owner c).2) ∧ gone owner (drop_graph_if_unused owner c).2.
Proof.
  intros Hcan Hsubs Hdet. unfold drop_graph_if_unused. rewrite Hsubs, !bool_decide_eq_true_2 by done. cbn [negb orb snd].
  split; [done|]. unfold remove_query. cbn zeta. rewrite Hcan. split.
  - apply lookup_delete_eq.
  - apply lookup_delete_eq.
  - intros t. cbn. intros Hin. destruct (filter _ _ !! t) as [ids|] eqn:E; cbn in Hin; [|by apply elem_of_nil in Hin].
    apply map_lookup_filter_Some in E as [E _]. rewrite lookup_fmap in E. apply fmap_Some in E as (ids0 & _ & ->).
    apply list_elem_of_In, filter_In in Hin as [_ Hne]. by rewrite String.eqb_refl in Hne.
  - unfold subscribers_of. cbn. by rewrite lookup_delete_eq.
  - intros key Hk. cbn in Hk. apply map_lookup_filter_Some in Hk as [_ Hk]. by cbn in Hk.
  - cbn. set_solver.
Qed.

Lemma drop_held owner c : holders owner c ≠ [] → drop_graph_if_unused owner c = (false, c).
Proof.
  intros Hh. unfold drop_graph_if_unused, holders in *.
  destruct (subscribers_of owner c) as [|s l]; [|by rewrite bool_decide_eq_false_2].
  rewrite bool_decide_eq_true_2 by done. case_bool_decide as Hd; [|done]. by destruct Hh.
Qed.

Lemma holders_nil owner c : holders owner c = [] ↔ subscribers_of owner c = [] ∧ owner ∈ ct_detached_owners c.
Proof.
  unfold holders. destruct (subscribers_of owner c); cbn; [|naive_solver]. case_bool_decide; naive_solver.
Qed.

(** A drop, seen through who holds the graph. *)
Lemma drop_spec owner c : canonical_query_id owner = owner →
  let '(dropped, c') := drop_graph_if_unused owner c in
  dropped = bool_decide (holders owner c = []) ∧
  (dropped = false → c' = c) ∧ (dropped = true → gone owner c').
Proof.
  intros Hcan. destruct (decide (holders owner c = [])) as [Hnil|Hne].
  - apply holders_nil in Hnil as Hx. destruct Hx as [Hs Hd]. destruct (drop_unused owner c Hcan Hs Hd) as [-> Hg].
    by rewrite bool_decide_eq_true_2.
  - rewrite drop_held by done. by rewrite bool_decide_eq_false_2.
Qed.

(** The graph a registration holds: the owner's it is attached to, or its own. *)
Definition held_graph q c : option string :=
  match owner_of q c with
  | Some owner => Some owner
  | None => if bool_decide (is_Some (ct_views c !! q)) then Some q else None
  end.

Lemma owner_of_None q c owner : owner_of q c = None → q ∉ map sub_query_id (subscribers_of owner c).
Proof.
  unfold owner_of, subscribers_of. intros Hnone Hin. destruct (ct_subscribers c !! owner) as [subs|] eqn:Hs; cbn in Hin; [|by apply elem_of_nil in Hin].
  assert ((owner, subs) ∈ List.filter (λ e : string * list Subscriber, subscribes q e.2) (map_to_list (ct_subscribers c))) as Hf.
  { apply list_elem_of_In, filter_In. split; [by apply list_elem_of_In, elem_of_map_to_list|]. cbn.
    apply list_elem_of_fmap in Hin as (s & -> & Hin). unfold subscribes. apply existsb_exists. exists s.
    split; [by apply list_elem_of_In|]. apply String.eqb_refl. }
  destruct (List.filter _ _); [by apply elem_of_nil in Hf|done].
Qed.

Lemma holders_without q c owner : owner ≠ q →
  holders owner (set_subscribers (alter (List.filter (λ s, negb (String.eqb (sub_query_id s) q))) owner (ct_subscribers c)) c) =
    List.filter (λ h, negb (String.eqb h q)) (holders owner c).
Proof.
  intros Hne. unfold holders, subscribers_of. cbn [ct_subscribers set_subscribers ct_detached_owners].
  rewrite lookup_alter_eq, List.filter_app. f_equal.
  - destruct (ct_subscribers c !! owner) as [subs|]; [|done].
    change (map sub_query_id (List.filter (λ s, negb (String.eqb (sub_query_id s) q)) subs) =
      List.filter (λ h, negb (String.eqb h q)) (map sub_query_id subs)).
    induction subs as [|s subs IH]; [done|]. cbn. destruct (negb (String.eqb (sub_query_id s) q)); cbn; by rewrite IH.
  - case_bool_decide; [done|]. cbn. by destruct (String.eqb_spec owner q).
Qed.

Lemma filter_others q (l : list string) : q ∉ l → List.filter (λ h, negb (String.eqb h q)) l = l.
Proof.
  induction l as [|h l IH]; intros Hin; [done|]. cbn. rewrite not_elem_of_cons in Hin.
  destruct (String.eqb_spec h q) as [->|]; [tauto|]. cbn. by rewrite IH by tauto.
Qed.

(** C12: When a registration leaves, the graph it holds is torn down if
    and only if nobody else holds it: the others keep it, with its view and
    its graph as they were, and when there are none no trace of it is left,
    not in the routing, not in the merge keys. An id that holds nothing
    changes nothing. *)
Theorem detach_releases q c :
  canonical_query_id q = q → (∀ owner, owner_of q c = Some owner → owner ≠ q ∧ canonical_query_id owner = owner) →
  let '(dropped, c') := detach_subscriber q c in
  match held_graph q c with
  | None => dropped = false ∧ c' = c
  | Some owner =>
      let rest := List.filter (λ h, negb (String.eqb h q)) (holders owner c) in
      dropped = bool_decide (rest = []) ∧
      (dropped = false → holders owner c' = rest ∧ ct_views c' = ct_views c ∧ ct_graphs c' = ct_graphs c) ∧
      (dropped = true → gone owner c')
  end.
Proof.
  intros Hq Ho. unfold detach_subscriber, held_graph. cbn zeta. rewrite Hq.
  destruct (owner_of q c) as [owner|] eqn:Hown.
  - destruct (Ho owner eq_refl) as [Hne Hcan].
    pose proof (drop_spec owner (set_subscribers (alter (List.filter (λ s, negb (String.eqb (sub_query_id s) q))) owner (ct_subscribers c)) c) Hcan) as Hd.
    rewrite holders_without in Hd by done. destruct (drop_graph_if_unused _ _) as [dropped c'].
    destruct Hd as (-> & Hkeep & Hgone). split_and!; [done| |done].
    intros Hf. rewrite (Hkeep Hf), holders_without by done. by split_and!.
  - case_bool_decide as Hv; [|done].
    set (c1 := set_detached_owners _ c). pose proof (drop_spec q c1 Hq) as Hd.
    assert (holders q c1 = List.filter (λ h, negb (String.eqb h q)) (holders q c)) as Hh.
    { unfold holders. rewrite List.filter_app. rewrite filter_others by by apply owner_of_None.
      change (subscribers_of q c1) with (subscribers_of q c). f_equal. unfold c1. cbn [ct_detached_owners set_detached_owners].
      rewrite bool_decide_eq_true_2 by set_solver. clear Hd. case_bool_decide; [done|]. cbn. by rewrite String.eqb_refl. }
    rewrite Hh in Hd. destruct (drop_graph_if_unused _ _) as [dropped c'].
    destruct Hd as (-> & Hkeep & Hgone). split_and!; [done| |done].
    intros Hf. rewrite (Hkeep Hf), Hh. by split_and!.
Qed.

(** A registration that joins a graph is sent everything the view
    holds now, under its own id and identity, with the view's own hash; it is
    a holder from then on, the others stay, and joining again adds nothing. *)
Theorem attach_joins owner q auth c : canonical_query_id owner = owner → canonical_query_id q = q →
  match ct_views c !! owner with
  | None => attach_subscriber owner q auth c = None
  | Some view => ∃ delta c', attach_subscriber owner q auth c = Some (delta, c') ∧
      vd_query_id delta = q ∧ vd_auth_id delta = auth ∧ vd_initial delta = true ∧
      vd_additions delta = keys_of (v_cache view) ∧ vd_removals delta = [] ∧ vd_result_hash delta = v_last_hash view ∧
      q ∈ holders owner c' ∧ (∀ h, h ∈ holders owner c' ↔ h = q ∨ h ∈ holders owner c) ∧
      (∃ d, attach_subscriber owner q auth c' = Some (d, c'))
  end.
Proof.
  intros Ho Hq. unfold attach_subscriber. cbn zeta. rewrite Ho, Hq. unfold snapshot_delta_from, get_view. rewrite Ho.
  destruct (ct_views c !! owner) as [view|] eqn:Hv; [|done].
  set (subs := if subscribes q (subscribers_of owner c) then _ else _).
  assert (subscribes q subs = true) as Hin.
  { unfold subs. destruct (subscribes q (subscribers_of owner c)) eqn:E; [done|]. unfold subscribes.
    rewrite existsb_app. cbn. by rewrite String.eqb_refl, orb_true_r. }
  assert (∀ h, h ∈ map sub_query_id subs ↔ h = q ∨ h ∈ map sub_query_id (subscribers_of owner c)) as Hids.
  { intros h. unfold subs. destruct (subscribes q (subscribers_of owner c)) eqn:E.
    - split; [by right|]. intros [->|]; [|done]. unfold subscribes in E. apply existsb_exists in E as (s & Hs & <-%String.eqb_eq).
      apply list_elem_of_fmap. exists s. split; [done|by apply list_elem_of_In].
    - rewrite map_app, elem_of_app. cbn. rewrite list_elem_of_singleton. tauto. }
  eexists _, _. split; [done|]. cbn [vd_query_id vd_auth_id vd_initial vd_additions vd_removals vd_result_hash]. rewrite Hq.
  assert (∀ c', subscribers_of owner (set_subscribers (<[owner := subs]> (ct_subscribers c)) c') = subs) as Hsubs.
  { intros c'. unfold subscribers_of. cbn. by rewrite lookup_insert_eq. }
  split_and!; [done..| | |].
  - unfold holders. rewrite Hsubs, elem_of_app, Hids. auto.
  - intros h. unfold holders. rewrite Hsubs, !elem_of_app, Hids. cbn [ct_detached_owners set_subscribers]. tauto.
  - cbn [ct_views set_subscribers]. rewrite Hv, Hsubs, Hin. eexists. f_equal. f_equal. cbn [ct_subscribers set_subscribers].
    rewrite insert_insert_eq. by destruct c.
Qed.
End sharing.

(** ** An instance: two registrations on one graph *)

Definition shared0 : Circuit :=
  match add_query_with_auth (MkQueryPlan "a" (OpScan "user")) None None "alice" Circuit.new with
  | Some (_, c) => c | None => Circuit.new end.
Definition shared1 : Circuit :=
  match attach_subscriber "a" "b" "bob" shared0 with Some (_, c) => c | None => shared0 end.

Lemma attach_joins_witness : ∃ delta c', attach_subscriber "a" "b" "bob" shared0 = Some (delta, c') ∧ "b" ∈ holders "a" c'.
Proof.
  pose proof (attach_joins "a" "b" "bob" shared0 eq_refl eq_refl) as Ha.
  destruct (ct_views shared0 !! "a") as [view|] eqn:Hv; [|vm_compute in Hv; discriminate].
  destruct Ha as (delta & c' & Hat & _ & _ & _ & _ & _ & _ & Hin & _). exists delta, c'. split; [exact Hat|exact Hin].
Defined.

(** The owner leaves, and the graph stays for the other. *)
Lemma detach_releases_witness :
  (detach_subscriber "a" shared1).1 = false ∧ holders "a" (detach_subscriber "a" shared1).2 = ["b"].
Proof.
  assert (owner_of "a" shared1 = None) as Hown by (vm_compute; reflexivity).
  pose proof (detach_releases "a" shared1 eq_refl ltac:(intros o Ho; rewrite Hown in Ho; discriminate)) as Hd.
  assert (held_graph "a" shared1 = Some "a") as Hheld by (vm_compute; reflexivity).
  destruct (detach_subscriber "a" shared1) as [dropped c'] eqn:E. rewrite Hheld in Hd. destruct Hd as (Hdrop & Hkeep & _).
  assert (dropped = false) as -> by (rewrite Hdrop; vm_compute; reflexivity).
  split; [reflexivity|]. cbn [snd]. rewrite (proj1 (Hkeep eq_refl)). vm_compute. reflexivity.
Defined.
