(* ===== verification/Reconcile.v ===== *)
(** * Reconciling a table with a caller's list

    [Circuit::reconcile] deletes, through a step, every row the list lacks and
    names the rows to fetch. Rows whose ids hold a colon are out of its reach:
    it passes their stored ids to [Change::delete], which strips a prefix. *)

From S2P Require Import Prelude Platform Float64 Value ValueRef ZSet SnapshotHash SortKey Index Store StoreFacts.
From S2P Require Import Operator Plan Filter LinearOps Join Witness WitnessFacts TopK Window Graph GraphFacts Exec.
From S2P Require Import Denote Support Maintain View Circuit Step Register Batch Viewed Correct Reach.
Local Open Scope Z_scope.

Section reconcile.
Context `{HashingLaws} `{OrdSetLaws}.
Implicit Types (store : Store).

(** ** A batch of deletes *)

(** Ids that are their own raw ids. *)
Definition plain_ids (table : string) (ids : list string) : Prop :=
  plain_table table ∧ Forall (λ id, raw_id id = id ∧ plain_id table id) ids.

Lemma delete_ok table id : plain_table table → raw_id id = id → plain_id table id → change_ok (Change.delete table id).
Proof. intros Ht Hr Hp. split; cbn; [done|by rewrite Hr|done]. Qed.

Lemma deletes_ok table ids : plain_ids table ids → Forall change_ok (map (Change.delete table) ids).
Proof. intros [Ht Hids]. apply Forall_map. eapply Forall_impl; [exact Hids|]. intros id [Hr Hp]. by apply delete_ok. Qed.

Lemma deletes_keys table ids : plain_ids table ids → deleted_keys (map (Change.delete table) ids) = map (row_key table) ids.
Proof.
  intros [_ Hids]. induction Hids as [|id ids [Hr _] _ IH]; [done|].
  change (map (Change.delete table) (id :: ids)) with ([Change.delete table id] ++ map (Change.delete table) ids).
  unfold deleted_keys in *. rewrite List.filter_app, map_app, IH.
  change ([row_key table (raw_id id)] ++ map (row_key table) ids = row_key table id :: map (row_key table) ids). by rewrite Hr.
Qed.

(** Deletes of rows that are there: no content update, no entry that nets to zero. *)
Record deleting (s0 : Store) (table : string) (done_ : list string) (b : Batch) : Prop := {
  dl_updates : bt_updates b = ∅;
  dl_entries : ∀ t k, delta_entry (bt_deltas b) t k ≠ Some 0;
  dl_gone : ∀ id, id ∈ done_ → present (ct_store (bt_circuit b)) table (row_key table id) = 0;
  dl_kept : ∀ t k, t ≠ table ∨ k ∉ map (row_key table) done_ →
    present (ct_store (bt_circuit b)) t k = present s0 t k;
}.

Lemma delete_step s0 table l done_ b id : map_Forall table_ok (collections s0) →
  batch_inv s0 l b → deleting s0 table done_ b → change_ok (Change.delete table id) → raw_id id = id →
  id ∉ done_ → present s0 table (row_key table id) = 1 →
  deleting s0 table (done_ ++ [id]) (apply_one b (Change.delete table id)).
Proof.
  intros Hs0 [Hts Hv Hd _ _ _] [Hu He Hgone Hkept] Hok Hraw Hnew Hone.
  destruct (apply_one_eq b (Change.delete table id) Hv Hok) as (data & Hm & Heq).
  set (s := ct_store (bt_circuit b)) in *. set (s1 := staged (Change.delete table id) s) in *.
  assert (map_Forall table_ok (collections s1)) as Hts1 by (unfold s1; by rewrite staged_collections).
  pose proof (apply_owned_mutation s1 _ Delete _ _ Hts1 Hm) as Ha.
  cbn [Change.delete ch_table ch_op ch_id] in Ha, Heq. rewrite Hraw in Ha. destruct (Store.apply_owned _ _ _ _ _) as [a s'].
  destruct Ha as [[Hts' Hkey Hw Hp _ Hun Hlive] _]. destruct Heq as (Hs' & _ & Hd' & Hu').
  assert (∀ t k, present s1 t k = present s t k) as Hp1 by (intros; apply present_collections, staged_collections).
  assert (present s table (row_key table id) = 1) as Hbefore.
  { rewrite Hkept; [done|]. right. intros Hin. apply list_elem_of_fmap in Hin as (id' & Heq & Hin). apply (inj _) in Heq. by subst. }
  assert (present s' table (row_key table id) = 0) as Hafter.
  { destruct (present_bit s' table (row_key table id) Hts') as [|Hx]; [done|]. apply present_live in Hx; [|done|apply Hok].
    by apply Hlive in Hx. }
  rewrite Hp1, Hbefore, Hafter in Hw.
  assert (ap_content_changed a = true) as Hcc by (destruct (ap_content_changed a); [done|by rewrite Hun in Hw]).
  rewrite Hcc, Hw in Hd', Hu'. change (true && negb (0 - 1 =? 0)) with true in Hd'.
  change (true && (0 - 1 =? 0)) with false in Hu'. split; rewrite ?Hs', ?Hd', ?Hu'.
  - by rewrite Hu.
  - intros t k. rewrite Hkey, delta_entry_bump. case_bool_decide as Hk; [|done]. destruct Hk as [-> ->].
    rewrite Hd. fold s. rewrite Hbefore, Hone. done.
  - intros id' [Hin|Hin%list_elem_of_singleton]%elem_of_app; [|by subst].
    rewrite Hp, Hp1; [by apply Hgone|]. right. intros Heq. apply (inj _) in Heq. by subst.
  - intros t k Hk. rewrite Hp, Hp1; [apply Hkept|]; destruct Hk as [Hk|Hk]; auto; right; intros Hin;
      apply Hk; rewrite map_app, elem_of_app; [by left|right; cbn; rewrite Hin; left].
Qed.

Lemma deletes_fold s0 table : map_Forall table_ok (collections s0) → plain_table table →
  ∀ ids l done_ b, plain_ids table ids → NoDup (done_ ++ ids) →
  (∀ id, id ∈ ids → present s0 table (row_key table id) = 1) →
  deleted_keys l = map (row_key table) done_ → batch_inv s0 l b → deleting s0 table done_ b →
  deleting s0 table (done_ ++ ids) (foldl apply_one b (map (Change.delete table) ids)).
Proof.
  intros Hs0 Ht. induction ids as [|id ids IH]; intros l done_ b [_ Hids] Hnd Hone Hl Hinv Hd; [by rewrite app_nil_r|].
  apply Forall_cons in Hids as [[Hr Hp] Hids]. cbn [map foldl].
  assert (change_ok (Change.delete table id)) as Hok by by apply delete_ok.
  assert (id ∉ done_) as Hnew by (apply NoDup_app in Hnd as (_ & Hx & _); intros Hin; apply (Hx id Hin); left).
  assert (deleted_keys (l ++ [Change.delete table id]) = map (row_key table) (done_ ++ [id])) as Hl'.
  { rewrite deleted_keys_app, Hl, map_app. f_equal. change ([row_key table (raw_id id)] = [row_key table id]). by rewrite Hr. }
  rewrite cons_middle, app_assoc in Hnd |- *. apply (IH (l ++ [Change.delete table id])).
  - by split.
  - done.
  - intros id' Hin. apply Hone. by right.
  - done.
  - apply apply_one_inv; [done..|]. rewrite Hl'. apply NoDup_fmap_2; [apply _|]. by apply NoDup_app in Hnd as [? _].
  - apply (delete_step s0 table l); [done..|]. apply Hone. left.
Qed.

(** With no entry that nets to zero, settling adds no update. *)
Lemma settle_idle store deltas updates : (∀ t k, delta_entry deltas t k ≠ Some 0) →
  (settle_deltas store deltas updates).2 = updates.
Proof.
  intros Hne. unfold settle_deltas. cbn zeta. cbn [snd].
  assert (∀ e, e ∈ map_to_list deltas → ∀ p, List.filter (λ e : string * Z, (e.2 =? 0) && p e.1) (map_to_list e.2) = []) as Hnil.
  { intros [t d] Hd%elem_of_map_to_list p. cbn [snd].
    destruct (List.filter _ (map_to_list d)) as [|[k w] l] eqn:E; [done|].
    assert ((k, w) ∈ List.filter (λ e : string * Z, (e.2 =? 0) && p e.1) (map_to_list d)) as Hin by (rewrite E; left).
    apply list_elem_of_In, filter_In in Hin as [Hin Hw]. apply list_elem_of_In, elem_of_map_to_list in Hin. cbn in Hw.
    apply andb_true_iff in Hw as [->%Z.eqb_eq _]. destruct (Hne t k). unfold delta_entry. rewrite Hd. by apply Hin. }
  revert Hnil. generalize updates. induction (map_to_list deltas) as [|e l IH]; intros us Hnil; [done|]. cbn [foldl].
  rewrite IH by (intros e' He'; apply Hnil; by right).
  destruct (Store.get_collection store e.1) as [coll|]; [|done]. by rewrite (Hnil e ltac:(left) (Collection.has_key coll)).
Qed.

(** A step over deletes of plain ids that are stored is covered. *)
Lemma deletes_covered c table ids : circuit_ok c → plain_ids table ids → NoDup ids →
  (∀ id, id ∈ ids → present (ct_store c) table (row_key table id) = 1) →
  covered_batch c (map (Change.delete table) ids) ∧
  deleting (ct_store c) table ids (batch_of (map (Change.delete table) ids) c).
Proof.
  intros Hok Hids Hnd Hone. pose proof Hok as [[Hs Hsmall] Hv _ _ _]. pose proof (proj1 Hids) as Ht.
  pose proof (batch_inv_start c Hs Hv) as Hstart.
  assert (deleting (ct_store c) table ids (batch_of (map (Change.delete table) ids) c)) as Hd.
  { apply (deletes_fold (ct_store c) table Hs Ht ids [] [] (MkBatch c ∅ [] ∅)); [done..|].
    split; cbn; [done| | |done].
    - intros t k. unfold delta_entry. by rewrite lookup_empty.
    - intros id Hid. by apply elem_of_nil in Hid. }
  split; [|done].
  assert (NoDup (deleted_keys (map (Change.delete table) ids))) as Hnd'.
  { rewrite deletes_keys by done. by apply NoDup_fmap_2; [apply _|]. }
  pose proof (batch_inv_fold _ _ Hs (deletes_ok table ids Hids) [] _ Hstart Hnd') as Hinv.
  fold (batch_of (map (Change.delete table) ids) c) in Hinv.
  split; [by apply deletes_ok|done| |left].
  - eapply Z.le_lt_trans; [|exact Hsmall]. apply Nat2Z.inj_le, subseteq_size. intros k Hk.
    apply elem_of_row_keys. apply elem_of_row_keys in Hk.
    destruct (live_key _ k (bi_tables _ _ _ Hinv) Hk) as (t & id & Hpl & -> & Hp).
    apply present_live; [done..|]. destruct (decide (row_key t id ∈ map (row_key table) ids ∧ t = table)) as [[Hin ->]|Hno].
    + apply list_elem_of_fmap in Hin as (id' & Heq & Hin). apply (inj _) in Heq as <-.
      rewrite (dl_gone _ _ _ _ Hd id Hin) in Hp. lia.
    + rewrite <- (dl_kept _ _ _ _ Hd t); [done|]. destruct (decide (t = table)); [right; tauto|by left].
  - unfold settled_of. cbn zeta. rewrite settle_idle; [apply (dl_updates _ _ _ _ Hd)|apply (dl_entries _ _ _ _ Hd)].
Qed.

(** ** Reconciling *)

(** The stored ids of a table hold no colon. *)
Definition colon_free store (table : string) : Prop :=
  ∀ c id, collections store !! table = Some c → is_Some (c_rows c !! id) → raw_id id = id.

Lemma stale_spec store table entries c : collections store !! table = Some c →
  ∀ id, id ∈ (reconcile_plan store table entries).2 ↔ is_Some (c_rows c !! id) ∧ id ∉ map (λ e : string * Z, raw_id e.1) entries.
Proof.
  intros Hc id. unfold reconcile_plan, Store.get_collection. rewrite Hc. cbn [snd].
  rewrite list_elem_of_In, filter_In, <- list_elem_of_In, elem_of_keys_of, negb_true_iff, bool_decide_eq_false. done.
Qed.

Lemma fetch_spec c table entries id : id ∈ (reconcile_plan (ct_store c) table entries).1 ↔
  ∃ rv, (id, rv) ∈ entries ∧ match stored_rv table id c with Some stored => stored < rv | None => True end.
Proof.
  unfold reconcile_plan, Store.get_collection, stored_rv. destruct (collections (ct_store c) !! table) as [coll|]; cbn [fst].
  - rewrite list_elem_of_fmap. split.
    + intros ([id' rv] & -> & Hin). apply list_elem_of_In, filter_In in Hin as [Hin Hrv]. exists rv.
      split; [by apply list_elem_of_In|]. cbn in *. destruct (rows_rv_of _ _); [by apply Z.ltb_lt|done].
    + intros (rv & Hin & Hrv). exists (id, rv). split; [done|]. apply list_elem_of_In, filter_In.
      split; [by apply list_elem_of_In|]. cbn in *. destruct (rows_rv_of _ _); [by apply Z.ltb_lt|done].
  - rewrite list_elem_of_fmap. split; [intros ([id' rv] & -> & Hin); eauto|intros (rv & Hin & _); by exists (id, rv)].
Qed.

Lemma stale_ok c table entries : circuit_ok c → colon_free (ct_store c) table →
  let stale := (reconcile_plan (ct_store c) table entries).2 in
  stale = [] ∨ plain_ids table stale ∧ NoDup stale ∧
  ∀ id, id ∈ stale → present (ct_store c) table (row_key table id) = 1.
Proof.
  intros Hok Hfree stale. pose proof (so_tables _ (co_store c Hok)) as Hs.
  destruct (collections (ct_store c) !! table) as [coll|] eqn:Hc.
  2:{ left. unfold stale, reconcile_plan, Store.get_collection. by rewrite Hc. }
  right. pose proof (stale_spec (ct_store c) table entries coll Hc) as Hst. fold stale in Hst.
  pose proof (Hs _ _ Hc) as [Ht _ _ Hids]. split_and!.
  - split; [done|]. apply Forall_forall. intros id [Hid _]%Hst. split; [by eapply Hfree|by apply Hids].
  - unfold stale, reconcile_plan, Store.get_collection. rewrite Hc. cbn [snd]. apply NoDup_ListNoDup, List.NoDup_filter.
    apply NoDup_ListNoDup, NoDup_keys_of.
  - intros id [Hid _]%Hst. rewrite present_key, Hc by done. unfold present_weight, rows_contains. by destruct Hid as [r ->].
Qed.

(** Every stored row is stale or listed, and not both. *)
Lemma stale_or_listed c table entries id : map_Forall table_ok (collections (ct_store c)) → plain_table table →
  live (ct_store c) (row_key table id) →
  id ∈ (reconcile_plan (ct_store c) table entries).2 ↔ id ∉ map (λ e : string * Z, raw_id e.1) entries.
Proof.
  intros Hs Ht (t & coll & id' & Hc & Heq & Hid).
  apply row_key_inj_plain in Heq as [<- <-]; [|done|by apply (to_plain _ _ (Hs _ _ Hc))].
  rewrite (stale_spec _ _ _ _ Hc). tauto.
Qed.

(** What a step over the stale rows leaves. *)
Lemma deletes_rows c table ids c' : circuit_ok c → plain_table table →
  covered_batch c (map (Change.delete table) ids) → plain_ids table ids →
  deleting (ct_store c) table ids (batch_of (map (Change.delete table) ids) c) →
  collections (ct_store c') = collections (ct_store (bt_circuit (batch_of (map (Change.delete table) ids) c))) →
  ∀ id, (live (ct_store c') (row_key table id) ↔ live (ct_store c) (row_key table id) ∧ id ∉ ids) ∧
    (live (ct_store c') (row_key table id) →
       Store.get_row_by_key (ct_store c') (row_key table id) = Store.get_row_by_key (ct_store c) (row_key table id)).
Proof.
  intros Hok Ht Hcov Hids Hd Hcol id. pose proof (so_tables _ (co_store c Hok)) as Hs.
  destruct (covered_batch_ok c _ Hok Hcov) as (_ & Hinv & [Hs' _]).
  rewrite (live_collections _ _ _ Hcol), (get_row_collections _ _ _ Hcol).
  set (store' := ct_store (bt_circuit (batch_of (map (Change.delete table) ids) c))) in *.
  assert (live store' (row_key table id) ↔ live (ct_store c) (row_key table id) ∧ id ∉ ids) as Hlive.
  { rewrite <- !present_live by done. destruct (decide (id ∈ ids)) as [Hin|Hout].
    - pose proof (dl_gone _ _ _ _ Hd id Hin) as Hz. fold store' in Hz. rewrite Hz. split; [done|tauto].
    - pose proof (dl_kept _ _ _ _ Hd table (row_key table id)) as Hk. fold store' in Hk. rewrite Hk; [tauto|].
      right. intros (id' & Heq & Hin)%list_elem_of_fmap. apply (inj _) in Heq. by subst. }
  split; [done|]. intros Hl. apply Hlive in Hl as [Hl Hout].
  destruct (bi_rows _ _ _ Hinv (row_key table id) Hl) as [[_ Heq]|(_ & Hdel & _)]; [|done|].
  - rewrite (dl_updates _ _ _ _ Hd). intros Hin. by apply elem_of_nil in Hin.
  - rewrite deletes_keys in Hdel by done. apply list_elem_of_fmap in Hdel as (id' & Heq & Hin). apply (inj _) in Heq. by subst.
Qed.

End reconcile.

(** ** Instances *)

Lemma colon_free_eval store table :
  match collections store !! table with
  | Some c => forallb (λ id, String.eqb (raw_id id) id) (keys_of (c_rows c))
  | None => true
  end = true → colon_free store table.
Proof.
  intros Hall c id Hc Hid. rewrite Hc in Hall. rewrite forallb_forall in Hall.
  apply String.eqb_eq, Hall, list_elem_of_In, elem_of_keys_of, Hid.
Qed.

(** Two of three users are listed; one listed user is not there. *)
Definition demo_list : list (string * Z) := [("user:a", 1); ("b", 2); ("user:z", 1)].


Definition log_rows : list Change :=
  [MkChange "log" Create "log:01" (Object [("n", Int 1)]); MkChange "log" Create "log:2024:01" (Object [("n", Int 2)])].

Definition logs : Circuit := demo_stepped log_rows Circuit.new.

Lemma logs_reachable : reachable logs.
Proof. apply demo_stepped_reachable; [exact reach_new|eval_batch]. Qed.

(** Without the condition on ids, reconciling deletes the wrong row:
    with the rows 01 and 2024:01 in a table and only 01 in the list, the row
    01 is deleted and 2024:01 stays. *)
Theorem reconcile_deletes_listed_row :
  reachable logs ∧ live (ct_store logs) "log:01" ∧ live (ct_store logs) "log:2024:01" ∧
  ∃ r c', reconcile "log" [("log:01", 0)] logs = Some (r, c') ∧
    ¬ live (ct_store c') "log:01" ∧ live (ct_store c') "log:2024:01".
Proof.
  split; [exact logs_reachable|].
  pose proof (so_tables _ (co_store _ (reachable_ok _ logs_reachable))) as Hs.
  split; [apply (present_live _ "log" "01"); [exact Hs|reflexivity|vm_compute; reflexivity]|].
  split; [apply (present_live _ "log" "2024:01"); [exact Hs|reflexivity|vm_compute; reflexivity]|].
  set (c1 := match reconcile "log" [("log:01", 0)] logs with Some (_, c) => c | None => logs end).
  set (r1 := match reconcile "log" [("log:01", 0)] logs with Some (r, _) => r | None => MkReconciled [] 0 [] end).
  assert (reconcile "log" [("log:01", 0)] logs = Some (r1, c1)) as Hrec by (vm_compute; reflexivity).
  exists r1, c1. split; [exact Hrec|].
  assert (collections (ct_store c1) = collections (ct_store (demo_stepped [Change.delete "log" "01"] logs))) as Hcol
    by (vm_compute; reflexivity).
  assert (reachable (demo_stepped [Change.delete "log" "01"] logs)) as Hreach
    by (apply demo_stepped_reachable; [exact logs_reachable|eval_batch]).
  pose proof (so_tables _ (co_store _ (reachable_ok _ Hreach))) as Hs1.
  rewrite !(live_collections _ _ _ Hcol). split.
  - intros Hl. apply (present_live _ "log" "01") in Hl; [|exact Hs1|reflexivity]. vm_compute in Hl. discriminate.
  - apply (present_live _ "log" "2024:01"); [exact Hs1|reflexivity|vm_compute; reflexivity].
Qed.
