(* ===== verification/MergeKey.v ===== *)
(** * Merge keys

    Models [packages/ssp/src/merge_key.rs] and the JSON form of a plan (the
    serde attributes of plan.rs, predicate.rs and path.rs): the key under which
    registrations share one operator graph. Proves what two registrations with
    one key have in common. *)

From S2P Require Import Prelude Platform Value SnapshotHash JsonText Plan.
Local Open Scope Z_scope.

(** ** The JSON form of a plan *)

Definition path_to_json (p : Path) : Value := VString (Path_as_str p).

Fixpoint predicate_to_json (p : Predicate) : Value :=
  let field tag f (v : Value) := VObject [("type", VString tag); ("field", path_to_json f); ("value", v)] in
  let param tag p (v : Value) := VObject [("type", VString tag); ("param", VString p); ("value", v)] in
  match p with
  | PTrue => VObject [("type", VString "true")]
  | PFalse => VObject [("type", VString "false")]
  | PEq f v => field "eq" f v
  | PNeq f v => field "neq" f v
  | PGt f v => field "gt" f v
  | PGte f v => field "gte" f v
  | PLt f v => field "lt" f v
  | PLte f v => field "lte" f v
  | PPrefix f pre => VObject [("type", VString "prefix"); ("field", path_to_json f); ("prefix", VString pre)]
  | PParamEq p v => param "parameq" p v
  | PParamNeq p v => param "paramneq" p v
  | PParamGt p v => param "paramgt" p v
  | PParamGte p v => param "paramgte" p v
  | PParamLt p v => param "paramlt" p v
  | PParamLte p v => param "paramlte" p v
  | PAnd ps => VObject [("type", VString "and"); ("predicates", VArray (map predicate_to_json ps))]
  | POr ps => VObject [("type", VString "or"); ("predicates", VArray (map predicate_to_json ps))]
  end.

Definition option_to_json {A} (f : A → Value) (o : option A) : Value := match o with Some a => f a | None => VNull end.

Definition join_condition_to_json (on : JoinCondition) : Value :=
  VObject [("left_field", path_to_json (left_field on)); ("right_field", path_to_json (right_field on))].

Definition order_spec_to_json (spec : OrderSpec) : Value :=
  VObject [("field", path_to_json (os_field spec)); ("direction", VString (os_direction spec))].

Definition parent_key_to_json (k : SubqueryParentKey) : Value :=
  VObject [("child_field", VString (child_field k)); ("parent_field", VString (parent_field k))].

Fixpoint plan_to_json (p : OperatorPlan) : Value :=
  let binary tag l r on := VObject [("op", VString tag); ("left", plan_to_json l); ("right", plan_to_json r); ("on", join_condition_to_json on)] in
  match p with
  | OpScan table => VObject [("op", VString "scan"); ("table", VString table)]
  | OpFilter input predicate =>
      VObject [("op", VString "filter"); ("input", plan_to_json input); ("predicate", predicate_to_json predicate)]
  | OpJoin l r on => binary "join" l r on
  | OpSemiJoin l r on => binary "semijoin" l r on
  | OpAntiJoin l r on => binary "antijoin" l r on
  | OpUnion l r => VObject [("op", VString "union"); ("left", plan_to_json l); ("right", plan_to_json r)]
  | OpDistinct input => VObject [("op", VString "distinct"); ("input", plan_to_json input)]
  | OpProject input projections =>
      VObject [("op", VString "project"); ("input", plan_to_json input);
        ("projections", VArray (map (λ proj, match proj with
          | PAll => VObject [("type", VString "all")]
          | PField f alias => VObject [("type", VString "field"); ("field", path_to_json f); ("alias", option_to_json VString alias)]
          | PSubquery alias plan parent_key =>
              VObject [("type", VString "subquery"); ("alias", VString alias); ("plan", plan_to_json plan);
                ("parent_key", option_to_json parent_key_to_json parent_key)]
          end) projections))]
  | OpLimit input limit start order_by =>
      VObject [("op", VString "limit"); ("input", plan_to_json input); ("limit", VNumber (PosInt limit));
        ("start", VNumber (PosInt start));
        ("order_by", option_to_json (λ specs, VArray (map order_spec_to_json specs)) order_by)]
  end.

(** ** The parameters a plan refers to *)

Definition push_path (path : string) : list string :=
  if starts_with path "parent." || String.eqb path "" then [] else [path].

Definition push_value_ref (value : Value) : list string :=
  match (let? p := Value.get value "$param" in Value.as_str p) with
  | Some p => push_path p
  | None => []
  end.

(** The paths pushed, in order. *)
Fixpoint walk_predicate (pred : Predicate) : list string :=
  match pred with
  | PEq _ v | PNeq _ v | PGt _ v | PGte _ v | PLt _ v | PLte _ v => push_value_ref v
  | PParamEq p v | PParamNeq p v | PParamGt p v | PParamGte p v | PParamLt p v | PParamLte p v =>
      push_path p ++ push_value_ref v
  | PAnd ps | POr ps => flat_map walk_predicate ps
  | PPrefix _ _ | PTrue | PFalse => []
  end.

Fixpoint walk_plan (plan : OperatorPlan) : list string :=
  match plan with
  | OpScan _ => []
  | OpFilter input predicate => walk_predicate predicate ++ walk_plan input
  | OpJoin l r _ | OpSemiJoin l r _ | OpAntiJoin l r _ | OpUnion l r => walk_plan l ++ walk_plan r
  | OpDistinct input | OpLimit input _ _ _ => walk_plan input
  | OpProject input projections =>
      walk_plan input ++
      flat_map (λ proj, match proj with
        | PAll | PField _ _ => []
        | PSubquery _ plan _ => walk_plan plan
        end) projections
  end.

Definition collect_param_refs (plan : OperatorPlan) : gset string := list_to_set (walk_plan plan).

(** A [BTreeSet] is visited in order. *)
Definition in_order (s : gset string) : list string := sort_by string_cmp (elements s).

Fixpoint resolve_segments_in (cur : Value) (segs : list string) : option Value :=
  match segs with
  | [] => Some cur
  | seg :: segs => let? cur := Value.get cur seg in resolve_segments_in cur segs
  end.

Definition resolve (params : option Value) (path : string) : option Value :=
  let? cur := params in resolve_segments_in cur (split dot path).

(** ** The key *)

Definition KEY_PREFIX : string := "mk1:".

Section key.
Context `{Hashing}.

(** What is hashed for one reference, without the NUL it starts with. *)
Definition bind_bytes (params : option Value) (path : string) : option (list Z) :=
  (λ v, bytes_of "bind:" ++ bytes_of path ++ 61 :: canonical_json v) <$> resolve params path.

Definition key_bytes (plan : OperatorPlan) (params : option Value) : list Z :=
  let refs := in_order (collect_param_refs plan) in
  let unresolved := existsb (λ path, match resolve params path with Some _ => false | None => true end) refs in
  bytes_of "plan:" ++ canonical_json (plan_to_json plan) ++
  concat (map (cons 0) (omap (bind_bytes params) refs)) ++
  (if unresolved then 0 :: bytes_of "fallback:" ++ canonical_json (default VNull params) else []).

Definition compute (plan : OperatorPlan) (params : option Value) : string :=
  (KEY_PREFIX +:+ to_hex (blake3 (key_bytes plan params)))%string.
End key.

(** ** Plans as they are deserialized *)

(** A path read back from its text. *)
Definition path_wf (p : Path) : Prop := Path_new (Path_as_str p) = p.

Fixpoint predicate_wf (p : Predicate) : Prop :=
  match p with
  | PEq f v | PNeq f v | PGt f v | PGte f v | PLt f v | PLte f v => path_wf f ∧ json_wf v
  | PPrefix f _ => path_wf f
  | PParamEq _ v | PParamNeq _ v | PParamGt _ v | PParamGte _ v | PParamLt _ v | PParamLte _ v => json_wf v
  | PAnd ps | POr ps => foldr (λ p wf, predicate_wf p ∧ wf) True ps
  | PTrue | PFalse => True
  end.

Fixpoint plan_wf (p : OperatorPlan) : Prop :=
  match p with
  | OpScan _ => True
  | OpFilter input predicate => predicate_wf predicate ∧ plan_wf input
  | OpJoin l r on | OpSemiJoin l r on | OpAntiJoin l r on =>
      path_wf (left_field on) ∧ path_wf (right_field on) ∧ plan_wf l ∧ plan_wf r
  | OpUnion l r => plan_wf l ∧ plan_wf r
  | OpDistinct input => plan_wf input
  | OpProject input projections =>
      plan_wf input ∧
      foldr (λ proj wf, match proj with
        | PAll => True
        | PField f _ => path_wf f
        | PSubquery _ plan _ => plan_wf plan
        end ∧ wf) True projections
  | OpLimit input limit start order_by =>
      plan_wf input ∧ 0 <= limit ∧ 0 <= start ∧ Forall (λ spec, path_wf (os_field spec)) (default [] order_by)
  end.

Lemma wf_all {A} (P : A → Prop) l : foldr (λ a wf, P a ∧ wf) True l ↔ Forall P l.
Proof. induction l as [|a l IH]; cbn; [by split|]. by rewrite Forall_cons, IH. Qed.

(** The plan with the keys of every JSON operand sorted. *)
Fixpoint predicate_norm (p : Predicate) : Predicate :=
  match p with
  | PTrue => PTrue
  | PFalse => PFalse
  | PEq f v => PEq f (norm v)
  | PNeq f v => PNeq f (norm v)
  | PGt f v => PGt f (norm v)
  | PGte f v => PGte f (norm v)
  | PLt f v => PLt f (norm v)
  | PLte f v => PLte f (norm v)
  | PPrefix f pre => PPrefix f pre
  | PParamEq p v => PParamEq p (norm v)
  | PParamNeq p v => PParamNeq p (norm v)
  | PParamGt p v => PParamGt p (norm v)
  | PParamGte p v => PParamGte p (norm v)
  | PParamLt p v => PParamLt p (norm v)
  | PParamLte p v => PParamLte p (norm v)
  | PAnd ps => PAnd (map predicate_norm ps)
  | POr ps => POr (map predicate_norm ps)
  end.

Fixpoint plan_norm (p : OperatorPlan) : OperatorPlan :=
  match p with
  | OpScan table => OpScan table
  | OpFilter input predicate => OpFilter (plan_norm input) (predicate_norm predicate)
  | OpJoin l r on => OpJoin (plan_norm l) (plan_norm r) on
  | OpSemiJoin l r on => OpSemiJoin (plan_norm l) (plan_norm r) on
  | OpAntiJoin l r on => OpAntiJoin (plan_norm l) (plan_norm r) on
  | OpUnion l r => OpUnion (plan_norm l) (plan_norm r)
  | OpDistinct input => OpDistinct (plan_norm input)
  | OpProject input projections =>
      OpProject (plan_norm input) (map (λ proj, match proj with
        | PAll => PAll
        | PField f alias => PField f alias
        | PSubquery alias plan parent_key => PSubquery alias (plan_norm plan) parent_key
        end) projections)
  | OpLimit input limit start order_by => OpLimit (plan_norm input) limit start order_by
  end.

(** ** Induction *)

Section predicate_ind'.
Context (P : Predicate → Prop).
Context (Hleaf : ∀ p, match p with PAnd _ | POr _ => False | _ => True end → P p).
Context (Hand : ∀ ps, Forall P ps → P (PAnd ps)) (Hor : ∀ ps, Forall P ps → P (POr ps)).

Definition predicate_ind' : ∀ p, P p :=
  fix go p :=
    let all := fix all ps : Forall P ps := match ps with [] => Forall_nil_2 P | p :: ps => Forall_cons_2 P p ps (go p) (all ps) end in
    match p with PAnd ps => Hand ps (all ps) | POr ps => Hor ps (all ps) | p => Hleaf p I end.
End predicate_ind'.

Definition projection_all (P : OperatorPlan → Prop) (proj : Projection) : Prop :=
  match proj with PSubquery _ plan _ => P plan | _ => True end.

Section plan_ind'.
Context (P : OperatorPlan → Prop).
Context (Hscan : ∀ table, P (OpScan table)) (Hfilter : ∀ i p, P i → P (OpFilter i p)).
Context (Hjoin : ∀ l r on, P l → P r → P (OpJoin l r on)) (Hsemi : ∀ l r on, P l → P r → P (OpSemiJoin l r on)).
Context (Hanti : ∀ l r on, P l → P r → P (OpAntiJoin l r on)) (Hunion : ∀ l r, P l → P r → P (OpUnion l r)).
Context (Hdistinct : ∀ i, P i → P (OpDistinct i)) (Hlimit : ∀ i limit start order_by, P i → P (OpLimit i limit start order_by)).
Context (Hproject : ∀ i projs, P i → Forall (projection_all P) projs → P (OpProject i projs)).

Definition plan_ind' : ∀ p, P p :=
  fix go p := match p with
  | OpScan table => Hscan table
  | OpFilter i p => Hfilter i p (go i)
  | OpJoin l r on => Hjoin l r on (go l) (go r)
  | OpSemiJoin l r on => Hsemi l r on (go l) (go r)
  | OpAntiJoin l r on => Hanti l r on (go l) (go r)
  | OpUnion l r => Hunion l r (go l) (go r)
  | OpDistinct i => Hdistinct i (go i)
  | OpLimit i limit start order_by => Hlimit i limit start order_by (go i)
  | OpProject i projs => Hproject i projs (go i)
      ((fix all projs : Forall (projection_all P) projs := match projs with
        | [] => Forall_nil_2 _
        | proj :: projs => Forall_cons_2 (projection_all P) proj projs
            (match proj return projection_all P proj with PSubquery _ plan _ => go plan | PAll => I | PField _ _ => I end) (all projs)
        end) projs)
  end.
End plan_ind'.

(** ** The JSON form determines the plan *)

Lemma object_wf (m : list (string * Value)) : bool_decide (NoDup m.*1) = true → Forall (λ e, json_wf e.2) m → json_wf (VObject m).
Proof. intros Hn%bool_decide_eq_true Hm. by constructor. Qed.

Ltac object_wf := apply object_wf; [reflexivity|]; repeat (apply Forall_cons; split); cbn [snd]; [..|apply Forall_nil; exact I]; auto with sp00ky.

Lemma predicate_json_wf p : predicate_wf p → json_wf (predicate_to_json p).
Proof.
  induction p as [p Hp|ps IH|ps IH] using predicate_ind'.
  - destruct p; try done; cbn; intros; destruct_and?; object_wf; constructor.
  - cbn. rewrite wf_all. intros Hps. object_wf. constructor. rewrite Forall_map. rewrite Forall_forall in *. auto.
  - cbn. rewrite wf_all. intros Hps. object_wf. constructor. rewrite Forall_map. rewrite Forall_forall in *. auto.
Qed.

Lemma path_json_wf p : json_wf (path_to_json p).
Proof. constructor. Qed.

Lemma option_json_wf {A} (f : A → Value) o : (∀ a, json_wf (f a)) → json_wf (option_to_json f o).
Proof. intros Hf. destruct o; cbn; [done|constructor]. Qed.

Lemma join_condition_json_wf on : json_wf (join_condition_to_json on).
Proof. unfold join_condition_to_json. object_wf; apply path_json_wf. Qed.

Lemma order_spec_json_wf spec : json_wf (order_spec_to_json spec).
Proof. unfold order_spec_to_json. object_wf. apply path_json_wf. Qed.

Lemma parent_key_json_wf k : json_wf (parent_key_to_json k).
Proof. unfold parent_key_to_json. object_wf. Qed.

#[local] Hint Resolve path_json_wf join_condition_json_wf order_spec_json_wf parent_key_json_wf predicate_json_wf : sp00ky.

Lemma plan_json_wf p : plan_wf p → json_wf (plan_to_json p).
Proof.
  induction p using plan_ind'; cbn; intros; destruct_and?; try (object_wf; fail).
  - object_wf. apply option_json_wf. intros specs. constructor. rewrite Forall_map.
    apply Forall_forall. intros spec _. apply order_spec_json_wf.
  - object_wf. constructor. rewrite Forall_map. rewrite wf_all in *. rewrite Forall_forall in *. intros proj Hin.
    match goal with H : ∀ x, x ∈ projs → projection_all _ x, H' : ∀ x, x ∈ projs → match x with PAll => _ | _ => _ end |- _ =>
      specialize (H proj Hin); specialize (H' proj Hin) end.
    destruct proj; cbn in *; object_wf; apply option_json_wf; auto with sp00ky.
Qed.

(** Equal JSON has equal fields. *)
Definition same_fields (v v' : Value) : Prop := ∀ k, norm <$> Value.get v k = norm <$> Value.get v' k.

Lemma norm_fields v v' : json_wf v → json_wf v' → norm v = norm v' → same_fields v v'.
Proof. intros Hw Hw' E k. by rewrite <- !get_norm, E. Qed.

Lemma norm_string s s' : norm (VString s) = norm (VString s') → s = s'.
Proof. by intros [= ->]. Qed.

Lemma path_json_inj p p' : path_wf p → path_wf p' → norm (path_to_json p) = norm (path_to_json p') → p = p'.
Proof. unfold path_wf. intros Hp Hp' [= E]. by rewrite <- Hp, E. Qed.

Lemma array_inj {A} (f : A → Value) (g : A → A) l : Forall (λ a, ∀ a', norm (f a) = norm (f a') → g a = g a') l →
  ∀ l', norm (VArray (map f l)) = norm (VArray (map f l')) → map g l = map g l'.
Proof.
  intros Hl l' [= E]. revert l' E. induction Hl as [|a l Ha _ IH]; intros [|a' l'] E; try done. cbn in *.
  injection E as E1 E2. f_equal; [by apply Ha|by apply IH].
Qed.

Lemma array_inj_wf {A} (f : A → Value) (g : A → A) (P : A → Prop) l :
  Forall (λ a, ∀ a', P a → P a' → norm (f a) = norm (f a') → g a = g a') l → Forall P l →
  ∀ l', Forall P l' → norm (VArray (map f l)) = norm (VArray (map f l')) → map g l = map g l'.
Proof.
  intros Hl HP l' HP' [= E]. revert l' HP' E.
  induction Hl as [|a l Ha _ IH]; intros [|a' l'] HP' E; try done. cbn in *. apply Forall_cons in HP as [? ?], HP' as [? ?].
  injection E as E1 E2. f_equal; [by apply Ha|by apply IH].
Qed.

Lemma predicate_json_inj p : ∀ p', predicate_wf p → predicate_wf p' →
  norm (predicate_to_json p) = norm (predicate_to_json p') → predicate_norm p = predicate_norm p'.
Proof.
  induction p as [p Hp|ps IH|ps IH] using predicate_ind'; intros p' Hw Hw' E;
    pose proof (norm_fields _ _ (predicate_json_wf _ Hw) (predicate_json_wf _ Hw') E) as Hf; clear E;
    pose proof (Hf "type") as Htag.
  - destruct p; try done; destruct p'; cbn in Htag; try discriminate Htag; cbn in Hw, Hw' |- *; try done;
      try (pose proof (Hf "field") as Hfield; cbn in Hfield; injection Hfield as Hfield);
      try (pose proof (Hf "param") as Hparam; cbn in Hparam; injection Hparam as ->);
      try (pose proof (Hf "value") as Hvalue; cbn in Hvalue; injection Hvalue as ->);
      try (pose proof (Hf "prefix") as Hprefix; cbn in Hprefix; injection Hprefix as ->);
      try done; destruct_and?;
      match goal with H1 : path_wf ?f, H2 : path_wf ?g, H3 : Path_as_str ?f = Path_as_str ?g |- _ =>
        unfold path_wf in H1, H2; rewrite <- H1, H3, H2; reflexivity end.
  - destruct p'; cbn in Htag; try discriminate Htag. cbn in *. rewrite wf_all in Hw, Hw'.
    pose proof (Hf "predicates") as Hps. f_equal. eapply array_inj_wf; [|exact Hw|exact Hw'|].
    + eapply Forall_impl; [exact IH|]. intros p Hp p' H1 H2 E. by apply Hp.
    + cbn in Hps |- *. by injection Hps as ->.
  - destruct p'; cbn in Htag; try discriminate Htag. cbn in *. rewrite wf_all in Hw, Hw'.
    pose proof (Hf "predicates") as Hps. f_equal. eapply array_inj_wf; [|exact Hw|exact Hw'|].
    + eapply Forall_impl; [exact IH|]. intros p Hp p' H1 H2 E. by apply Hp.
    + cbn in Hps |- *. by injection Hps as ->.
Qed.

Lemma join_condition_json_inj on on' : path_wf (left_field on) → path_wf (right_field on) →
  path_wf (left_field on') → path_wf (right_field on') →
  norm (join_condition_to_json on) = norm (join_condition_to_json on') → on = on'.
Proof.
  intros H1 H2 H3 H4 E. pose proof (norm_fields _ _ (join_condition_json_wf _) (join_condition_json_wf _) E) as Hf.
  destruct on as [a b], on' as [a' b']. cbn in *. pose proof (Hf "left_field") as Ea. pose proof (Hf "right_field") as Eb.
  cbn in Ea, Eb. injection Ea as Ea. injection Eb as Eb. f_equal; apply path_json_inj; [done|done| |done|done|]; cbn; by f_equal.
Qed.

Lemma order_spec_json_inj spec spec' : path_wf (os_field spec) → path_wf (os_field spec') →
  norm (order_spec_to_json spec) = norm (order_spec_to_json spec') → spec = spec'.
Proof.
  intros H1 H2 E. pose proof (norm_fields _ _ (order_spec_json_wf _) (order_spec_json_wf _) E) as Hf.
  destruct spec as [f d], spec' as [f' d']. cbn in *. pose proof (Hf "field") as Ef. pose proof (Hf "direction") as Ed.
  cbn in Ef, Ed. injection Ef as Ef. injection Ed as ->. f_equal. apply path_json_inj; [done|done|]. cbn. by f_equal.
Qed.

Lemma order_by_json_inj o o' : Forall (λ spec, path_wf (os_field spec)) (default [] o) →
  Forall (λ spec, path_wf (os_field spec)) (default [] o') →
  norm (option_to_json (λ specs, VArray (map order_spec_to_json specs)) o) =
    norm (option_to_json (λ specs, VArray (map order_spec_to_json specs)) o') → o = o'.
Proof.
  destruct o as [specs|], o' as [specs'|]; cbn [option_to_json default]; try done. intros H1 H2 E. f_equal.
  rewrite <- (map_id specs), <- (map_id specs'). eapply (array_inj_wf order_spec_to_json id); [|exact H1|exact H2|exact E].
  apply Forall_forall. intros spec _ spec'. apply order_spec_json_inj.
Qed.

Lemma parent_key_json_inj o o' : norm (option_to_json parent_key_to_json o) = norm (option_to_json parent_key_to_json o') → o = o'.
Proof.
  destruct o as [k|], o' as [k'|]; cbn [option_to_json]; try done. intros E.
  pose proof (norm_fields _ _ (parent_key_json_wf _) (parent_key_json_wf _) E) as Hf. destruct k as [a b], k' as [a' b'].
  pose proof (Hf "child_field") as Ea. pose proof (Hf "parent_field") as Eb. cbn in Ea, Eb. congruence.
Qed.

Lemma alias_json_inj o o' : norm (option_to_json VString o) = norm (option_to_json VString o') → o = o'.
Proof. destruct o, o'; cbn; congruence. Qed.

(** One projection, as [plan_to_json] writes it. *)
Definition projection_to_json (proj : Projection) : Value :=
  match proj with
  | PAll => VObject [("type", VString "all")]
  | PField f alias => VObject [("type", VString "field"); ("field", path_to_json f); ("alias", option_to_json VString alias)]
  | PSubquery alias plan parent_key =>
      VObject [("type", VString "subquery"); ("alias", VString alias); ("plan", plan_to_json plan);
        ("parent_key", option_to_json parent_key_to_json parent_key)]
  end.

Definition projection_norm (proj : Projection) : Projection :=
  match proj with
  | PAll => PAll
  | PField f alias => PField f alias
  | PSubquery alias plan parent_key => PSubquery alias (plan_norm plan) parent_key
  end.

Definition projection_wf (proj : Projection) : Prop :=
  match proj with PAll => True | PField f _ => path_wf f | PSubquery _ plan _ => plan_wf plan end.

Lemma projection_json_wf proj : projection_wf proj → json_wf (projection_to_json proj).
Proof.
  destruct proj; cbn; intros; object_wf; try (apply option_json_wf; auto with sp00ky). by apply plan_json_wf.
Qed.

Lemma projection_json_inj proj proj' :
  projection_all (λ p, ∀ p', plan_wf p → plan_wf p' → norm (plan_to_json p) = norm (plan_to_json p') → plan_norm p = plan_norm p') proj →
  projection_wf proj → projection_wf proj' → norm (projection_to_json proj) = norm (projection_to_json proj') →
  projection_norm proj = projection_norm proj'.
Proof.
  intros IH Hw Hw' E. pose proof (norm_fields _ _ (projection_json_wf _ Hw) (projection_json_wf _ Hw') E) as Hf. clear E.
  pose proof (Hf "type") as Htag. destruct proj, proj'; cbn in Htag; try discriminate Htag; cbn in Hw, Hw', IH |- *; [done|..].
  - pose proof (Hf "field") as Ef. pose proof (Hf "alias") as Ea. cbn in Ef, Ea. injection Ef as Ef. injection Ea as Ea.
    f_equal; [apply path_json_inj; [done|done|]; cbn; by f_equal|by apply alias_json_inj].
  - pose proof (Hf "alias") as Ea. pose proof (Hf "plan") as Ep. pose proof (Hf "parent_key") as Ek. cbn in Ea, Ep, Ek.
    injection Ea as ->. injection Ep as Ep. injection Ek as Ek. f_equal; [by apply IH|by apply parent_key_json_inj].
Qed.

Lemma plan_json_inj p : ∀ p', plan_wf p → plan_wf p' → norm (plan_to_json p) = norm (plan_to_json p') → plan_norm p = plan_norm p'.
Proof.
  induction p using plan_ind'; intros p' Hw Hw' E;
    pose proof (norm_fields _ _ (plan_json_wf _ Hw) (plan_json_wf _ Hw') E) as Hf; clear E;
    pose proof (Hf "op") as Htag; destruct p'; cbn in Htag; try discriminate Htag; clear Htag; cbn in Hw, Hw' |- *; destruct_and?;
    try (pose proof (Hf "input") as Ei; cbn in Ei; injection Ei as Ei);
    try (pose proof (Hf "left") as El; cbn in El; injection El as El);
    try (pose proof (Hf "right") as Er; cbn in Er; injection Er as Er).
  - pose proof (Hf "table") as Et. cbn in Et. by injection Et as ->.
  - pose proof (Hf "predicate") as Ep. cbn in Ep. injection Ep as Ep. f_equal; [by auto|by apply predicate_json_inj].
  - f_equal; [by auto|by auto|]. apply join_condition_json_inj; [done..|]. exact (inj Some _ _ (Hf "on")).
  - f_equal; [by auto|by auto|]. apply join_condition_json_inj; [done..|]. exact (inj Some _ _ (Hf "on")).
  - f_equal; [by auto|by auto|]. apply join_condition_json_inj; [done..|]. exact (inj Some _ _ (Hf "on")).
  - f_equal; by auto.
  - f_equal. by auto.
  - pose proof (Hf "limit") as E1. pose proof (Hf "start") as E2. pose proof (Hf "order_by") as E3. cbn in E1, E2, E3.
    injection E1 as ->. injection E2 as ->. injection E3 as E3. f_equal; [by auto|by apply order_by_json_inj].
  - pose proof (Hf "projections") as E1. rewrite wf_all in *. f_equal; [by auto|].
    apply (array_inj_wf projection_to_json projection_norm projection_wf); [|done|done|by injection E1 as E1; cbn; f_equal].
    match goal with H : Forall (projection_all _) _ |- _ => eapply Forall_impl; [exact H|] end.
    intros proj Hp proj' ? ? ?. by apply projection_json_inj.
Qed.

(** ** References do not depend on the order of keys *)

Lemma push_value_ref_norm v : json_wf v → push_value_ref (norm v) = push_value_ref v.
Proof. intros Hw. unfold push_value_ref. rewrite get_norm by done. destruct (Value.get v "$param") as [[]|]; done. Qed.

Lemma flat_map_norm {A B} (f : A → list B) (g : A → A) l : Forall (λ a, f (g a) = f a) l → flat_map f (map g l) = flat_map f l.
Proof. induction 1 as [|a l Ha _ IH]; [done|]. cbn. by rewrite Ha, IH. Qed.

Lemma walk_predicate_norm p : predicate_wf p → walk_predicate (predicate_norm p) = walk_predicate p.
Proof.
  induction p as [p Hp|ps IH|ps IH] using predicate_ind'; cbn.
  - destruct p; try done; cbn; intros; destruct_and?; by rewrite push_value_ref_norm.
  - rewrite wf_all. intros Hw. apply flat_map_norm. rewrite Forall_forall in *. auto.
  - rewrite wf_all. intros Hw. apply flat_map_norm. rewrite Forall_forall in *. auto.
Qed.

Lemma walk_plan_norm p : plan_wf p → walk_plan (plan_norm p) = walk_plan p.
Proof.
  induction p using plan_ind'; cbn; intros; destruct_and?; rewrite ?walk_predicate_norm by done; try (f_equal; auto; fail); auto.
  f_equal; [auto|]. rewrite wf_all in *. apply flat_map_norm. rewrite Forall_forall in *. intros proj Hin.
  match goal with H : ∀ x, x ∈ projs → projection_all _ x, H' : ∀ x, x ∈ projs → match x with PAll => _ | _ => _ end |- _ =>
    specialize (H proj Hin); specialize (H' proj Hin) end.
  destruct proj; cbn in *; auto.
Qed.

(** ** What is hashed determines what it was made from *)

Definition nul_free (z : list Z) : Prop := Forall (λ b, b ≠ 0) z.

Lemma nul_free_app a a' : nul_free a → nul_free a' → nul_free (a ++ a').
Proof. intros. by apply Forall_app. Qed.

Lemma nul_split a a' r r' : nul_free a → nul_free a' → (∀ b t, r = b :: t → b = 0) → (∀ b t, r' = b :: t → b = 0) →
  a ++ r = a' ++ r' → a = a' ∧ r = r'.
Proof.
  intros Ha. revert a'. induction Ha as [|b a Hb Ha IH]; intros a' Ha' Hr Hr' E; destruct Ha' as [|b' a' Hb' Ha']; cbn in E; [done| | |].
  - by destruct (Hb' (Hr _ _ E)).
  - by destruct (Hb (Hr' _ _ (eq_sym E))).
  - injection E as -> E. by destruct (IH a' Ha' Hr Hr' E) as [-> ->].
Qed.

Lemma chunks_inj h h' cs cs' : nul_free h → nul_free h' → Forall nul_free cs → Forall nul_free cs' →
  h ++ concat (map (cons 0) cs) = h' ++ concat (map (cons 0) cs') → h = h' ∧ cs = cs'.
Proof.
  assert (∀ (cs : list (list Z)) b t, concat (map (cons 0) cs) = b :: t → b = 0) as Hnul by (intros [|c0 cs0] b t H0; [discriminate|by injection H0 as <- _]).
  intros Hh Hh' Hcs. revert h h' cs' Hh Hh'. induction Hcs as [|c cs Hc Hcs IH]; intros h h' cs' Hh Hh' Hcs' E;
    destruct (nul_split _ _ _ _ Hh Hh' (Hnul _) (Hnul _) E) as [-> E2]; (split; [done|]); destruct Hcs' as [|c' cs' Hc' Hcs']; [done..|].
  cbn in E2. injection E2 as E2. by destruct (IH c c' cs' Hc Hc' Hcs' E2) as [-> ->].
Qed.

Section injective.
Context `{JsonLaws}.

(** The pieces that are hashed after the plan. *)
Definition fallback_bytes (params : option Value) : list Z := bytes_of "fallback:" ++ canonical_json (default VNull params).

Definition unresolved (params : option Value) (refs : list string) : bool :=
  existsb (λ path, match resolve params path with Some _ => false | None => true end) refs.

Definition chunks (params : option Value) (refs : list string) : list (list Z) :=
  omap (bind_bytes params) refs ++ (if unresolved params refs then [fallback_bytes params] else []).

Lemma key_bytes_chunks plan params : key_bytes plan params =
  (bytes_of "plan:" ++ canonical_json (plan_to_json plan)) ++ concat (map (cons 0) (chunks params (in_order (collect_param_refs plan)))).
Proof.
  unfold key_bytes, chunks, fallback_bytes, unresolved. rewrite map_app, concat_app, <- app_assoc. do 3 f_equal.
  destruct (existsb _ _); cbn; by rewrite ?app_nil_r.
Qed.

Lemma printable_nul_free z : Forall (λ b, 32 <= b) z → nul_free z.
Proof. intros Hz. eapply Forall_impl; [exact Hz|]. intros b Hb ->. lia. Qed.

Definition params_wf (params : option Value) : Prop := json_wf (default VNull params).

Lemma resolve_segments_wf v segs w : json_wf v → resolve_segments_in v segs = Some w → json_wf w.
Proof.
  revert v. induction segs as [|seg segs IH]; intros v Hw; cbn; [by intros [= <-]|].
  destruct (Value.get v seg) as [x|] eqn:E; [|done]. apply IH.
  destruct Hw as [| | | | |m Hn Hm]; try done. unfold Value.get in E. cbn in E. apply assoc_get_Some in E.
  rewrite Forall_forall in Hm. by apply (Hm (seg, x)).
Qed.

Lemma resolve_wf params path w : params_wf params → resolve params path = Some w → json_wf w.
Proof. destruct params as [v|]; [|done]. apply resolve_segments_wf. Qed.

Lemma chunks_nul_free params refs : params_wf params → Forall (λ path, nul_free (bytes_of path)) refs →
  Forall nul_free (chunks params refs).
Proof.
  intros Hp Hr. unfold chunks. apply Forall_app. split.
  - apply Forall_forall. intros c (path & Hin & E)%list_elem_of_omap. unfold bind_bytes in E.
    destruct (resolve params path) as [w|] eqn:Ew; [|done]. injection E as <-. rewrite Forall_forall in Hr.
    apply (nul_free_app (bytes_of "bind:")); [by repeat constructor|]. apply nul_free_app; [by apply Hr|]. constructor; [done|].
    by eapply printable_nul_free, canonical_printable, resolve_wf.
  - destruct (unresolved params refs); constructor; [|done]. apply (nul_free_app (bytes_of "fallback:")); [by repeat constructor|].
    by apply printable_nul_free, canonical_printable.
Qed.

(** The parameters agree on a path: it resolves to the same in both, or all of
    the parameters are the same. *)
Definition agree_on (params params' : option Value) (path : string) : Prop :=
  (∃ w w', resolve params path = Some w ∧ resolve params' path = Some w' ∧ norm w = norm w') ∨
  norm (default VNull params) = norm (default VNull params').

Lemma omap_all_some {A B} (f : A → option B) l : (∀ a, a ∈ l → is_Some (f a)) → Forall2 (λ a b, f a = Some b) l (omap f l).
Proof.
  induction l as [|a l IH]; intros Hl; [constructor|]. cbn. destruct (Hl a ltac:(by left)) as [b Eb]. rewrite Eb.
  constructor; [done|]. apply IH. intros; apply Hl. by right.
Qed.

Lemma resolved_all params refs : unresolved params refs = false → ∀ path, path ∈ refs → is_Some (resolve params path).
Proof.
  unfold unresolved. intros Hu path Hin. destruct (resolve params path) as [w|] eqn:E; [by exists w|].
  exfalso. assert (existsb (λ path, match resolve params path with Some _ => false | None => true end) refs = true) as Ht; [|congruence].
  apply existsb_exists. exists path. split; [by apply list_elem_of_In|by rewrite E].
Qed.

(** A binding and the fallback start differently. *)
Lemma bind_not_fallback params params' refs : unresolved params refs = false → fallback_bytes params' ∉ chunks params refs.
Proof.
  intros Hu. unfold chunks. rewrite Hu, app_nil_r. intros (path & _ & E)%list_elem_of_omap. unfold bind_bytes in E.
  destruct (resolve params path); [|done]. injection E as E. discriminate E.
Qed.

Lemma chunks_agree params params' refs : params_wf params → params_wf params' → chunks params refs = chunks params' refs →
  ∀ path, path ∈ refs → agree_on params params' path.
Proof.
  intros Hw Hw' E path Hin. destruct (unresolved params refs) eqn:Hu, (unresolved params' refs) eqn:Hu'.
  - right. unfold chunks in E. rewrite Hu, Hu' in E. apply app_inj_tail in E as [_ E]. unfold fallback_bytes in E.
    apply app_inv_head in E. by apply canonical_inj.
  - exfalso. apply (bind_not_fallback params' params refs Hu'). rewrite <- E. unfold chunks. rewrite Hu. apply elem_of_app. right. by left.
  - exfalso. apply (bind_not_fallback params params' refs Hu). rewrite E. unfold chunks. rewrite Hu'. apply elem_of_app. right. by left.
  - left. pose proof (resolved_all _ _ Hu path Hin) as [w Ew]. pose proof (resolved_all _ _ Hu' path Hin) as [w' Ew'].
    exists w, w'. split; [done|]. split; [done|]. unfold chunks in E. rewrite Hu, Hu', !app_nil_r in E.
    assert (∀ ps, Forall2 (λ path b, bind_bytes ps path = Some b) refs (omap (bind_bytes ps) refs) ∨ unresolved ps refs = true) as Hall.
    { intros ps. destruct (unresolved ps refs) eqn:Hups; [by right|left]. apply omap_all_some. intros p Hp.
      unfold bind_bytes. destruct (resolved_all _ _ Hups p Hp) as [x ->]. by eexists. }
    destruct (Hall params) as [H1|]; [|congruence]. destruct (Hall params') as [H2|]; [|congruence]. rewrite <- E in H2.
    apply list_elem_of_lookup in Hin as [i Hi]. destruct (Forall2_lookup_l _ _ _ _ _ H1 Hi) as (b & Hb & E1).
    destruct (Forall2_lookup_l _ _ _ _ _ H2 Hi) as (b' & Hb' & E2). assert (b' = b) as -> by congruence.
    unfold bind_bytes in E1, E2. rewrite Ew in E1. rewrite Ew' in E2. cbn in E1, E2.
    rewrite <- E2 in E1. injection E1 as E1. apply app_inv_head in E1. injection E1 as E1.
    apply canonical_inj; [exact (resolve_wf params path w Hw Ew)|exact (resolve_wf params' path w' Hw' Ew')|done].
Qed.

(** References hold no NUL: SurrealQL names cannot. *)
Definition refs_plain (plan : OperatorPlan) : Prop := Forall (λ path, nul_free (bytes_of path)) (walk_plan plan).

Lemma in_order_elem s path : path ∈ in_order s ↔ path ∈ s.
Proof. unfold in_order. rewrite <- (elem_of_elements s). by rewrite (sort_by_perm string_cmp). Qed.

Lemma key_bytes_inj plan plan' params params' : plan_wf plan → plan_wf plan' → params_wf params → params_wf params' →
  refs_plain plan → refs_plain plan' → key_bytes plan params = key_bytes plan' params' →
  plan_norm plan = plan_norm plan' ∧ ∀ path, path ∈ walk_plan plan → agree_on params params' path.
Proof.
  intros Hp Hp' Hw Hw' Hr Hr' E. rewrite !key_bytes_chunks in E.
  assert (∀ plan, refs_plain plan → Forall (λ path, nul_free (bytes_of path)) (in_order (collect_param_refs plan))) as Hrefs.
  { intros pl Hpl. apply Forall_forall. intros path Hin. rewrite in_order_elem in Hin; unfold collect_param_refs in Hin; rewrite elem_of_list_to_set in Hin. unfold refs_plain in Hpl.
    rewrite Forall_forall in Hpl. by apply Hpl. }
  assert (∀ plan, plan_wf plan → nul_free (bytes_of "plan:" ++ canonical_json (plan_to_json plan))) as Hhead.
  { intros pl Hpl. apply (nul_free_app (bytes_of "plan:")); [by repeat constructor|]. by apply printable_nul_free, canonical_printable, plan_json_wf. }
  apply chunks_inj in E as [Eplan Echunks]; [|by apply Hhead|by apply Hhead|by apply chunks_nul_free; [|apply Hrefs]..].
  apply app_inv_head in Eplan. assert (plan_norm plan = plan_norm plan') as En.
  { apply plan_json_inj; [done|done|]. by apply canonical_inj; [apply plan_json_wf..|]. }
  split; [done|]. intros path Hin.
  assert (collect_param_refs plan = collect_param_refs plan') as Ec.
  { unfold collect_param_refs. by rewrite <- (walk_plan_norm plan), <- (walk_plan_norm plan'), En. }
  rewrite <- Ec in Echunks. eapply chunks_agree; [done|done|exact Echunks|]. by apply in_order_elem, elem_of_list_to_set.
Qed.
End injective.
