(* ===== verification/MergeSafe.v ===== *)
(** * Registrations with one merge key have one answer

    The consequence of [MergeKey.key_bytes_inj] for sharing: parameters enter a
    plan's answer only through the references the key binds
    ([operator/filter.rs]), so two registrations with one key have one answer
    over every store, and a subscriber may read its owner's view. *)

From S2P Require Import Prelude Platform Float64 Value ValueRef SnapshotHash JsonText ZSet SortKey Index Store Operator Plan Filter.
From S2P Require Import LinearOps Join Witness TopK Graph Denote View Circuit Step Register Batch Viewed Correct Reach MergeKey.
Local Open Scope Z_scope.

(** ** What a comparison sees of a value *)

Definition shape (v : ValueRef) : ValueRef :=
  match v with
  | RArr _ => RArr (SMem [])
  | RObj _ => RObj (OMem [])
  | v => v
  end.

Lemma compare_values_shape a t t' : shape t = shape t' → compare_values a t = compare_values a t'.
Proof. intros E. destruct t, t'; try discriminate E; try (by injection E as ->); unfold compare_values; by destruct a. Qed.

Lemma compare_values_shape_l a a' t : shape a = shape a' → compare_values a t = compare_values a' t.
Proof. intros E. destruct a, a'; try discriminate E; try (by injection E as ->); unfold compare_values; by destruct t. Qed.

Lemma same_kind_shape a t t' : shape t = shape t' → same_kind a t = same_kind a t'.
Proof. intros E. destruct t, t'; try discriminate E; by destruct a. Qed.

Lemma missing_shape v v' : shape v = shape v' → ValueRef.is_missing v = ValueRef.is_missing v'.
Proof. by destruct v, v'. Qed.

Lemma record_ref_shape v v' : shape v = shape v' → ValueRef.is_record_ref v = ValueRef.is_record_ref v'.
Proof. destruct v, v'; try done. by intros [= ->]. Qed.

(** Two operands no comparison tells apart. *)
Definition alike (o o' : option Sp00kyValue) : Prop :=
  shape ∘ ValueRef.from_value <$> o = shape ∘ ValueRef.from_value <$> o'.

Lemma norm_shape v : shape (ValueRef.from_value (from_json (norm v))) = shape (ValueRef.from_value (from_json v)).
Proof. by destruct v. Qed.

Lemma same_norm_shape v v' : norm v = norm v' → shape (ValueRef.from_value (from_json v)) = shape (ValueRef.from_value (from_json v')).
Proof. intros E. by rewrite <- norm_shape, E, norm_shape. Qed.

(** ** Parameters read back from JSON *)

Lemma from_json_get v k : json_wf v → ValueRef.get (ValueRef.from_value (from_json v)) k = ValueRef.from_opt (from_json <$> Value.get v k).
Proof.
  intros Hw. destruct Hw as [| |n| | |m Hn _]; try done; [cbn; by destruct (Value.as_i64 n)|]. cbn.
  rewrite assoc_collect_NoDup by (by rewrite from_json_pairs_keys). f_equal. unfold Value.get. cbn.
  induction m as [|[k' x] m IH]; [done|]. cbn in *. apply NoDup_cons in Hn as [_ Hn].
  destruct (String.eqb k k'); [done|]. by apply IH.
Qed.

Lemma resolve_segments_mem a segs : ∃ o, resolve_segments (ValueRef.from_value a) segs = ValueRef.from_opt o.
Proof.
  revert a. induction segs as [|seg segs IH]; intros a; [by exists (Some a)|]. cbn.
  destruct (_ && _); [by exists (Some a)|].
  assert (∃ o, ValueRef.get (ValueRef.from_value a) seg = ValueRef.from_opt o) as [[b|] ->]
    by (destruct a; try (by exists None); by eexists).
  - cbn [ValueRef.from_opt]. destruct (ValueRef.is_missing (ValueRef.from_value b)); [by exists None|apply IH].
  - by exists None.
Qed.

Lemma json_get_wf v k w : json_wf v → Value.get v k = Some w → json_wf w.
Proof. intros Hw E. apply (resolve_segments_wf v [k] w Hw). cbn. by rewrite E. Qed.

(** A path [resolve] follows, the filter follows to the same value. *)
Lemma resolve_followed v segs w : json_wf v → resolve_segments_in v segs = Some w →
  resolve_segments (ValueRef.from_value (from_json v)) segs = ValueRef.from_value (from_json w).
Proof.
  revert v. induction segs as [|seg segs IH]; intros v Hw; cbn; [by intros [= <-]|].
  destruct (Value.get v seg) as [x|] eqn:E; [|done]. intros Hx. rewrite from_json_get, E by done. cbn.
  destruct v as [| | | | |m]; try done. cbn. rewrite andb_false_r.
  assert (ValueRef.is_missing (ValueRef.from_value (from_json x)) = false) as ->
    by (destruct x as [| |n| | |]; try done; cbn; by destruct (Value.as_i64 n)).
  apply IH; [|done]. exact (json_get_wf _ _ _ Hw E).
Qed.

(** Equal parameters lead every path to values that look alike. *)
Lemma resolve_same_norm v v' segs : json_wf v → json_wf v' → norm v = norm v' →
  shape (resolve_segments (ValueRef.from_value (from_json v)) segs) =
    shape (resolve_segments (ValueRef.from_value (from_json v')) segs).
Proof.
  revert v v'. induction segs as [|seg segs IH]; intros v v' Hw Hw' E; cbn [resolve_segments]; [by apply same_norm_shape|].
  rewrite (record_ref_shape _ _ (same_norm_shape v v' E)).
  destruct (_ && _); [by apply same_norm_shape|]. rewrite !from_json_get by done.
  pose proof (norm_fields v v' Hw Hw' E seg) as Hf.
  destruct (Value.get v seg) as [x|] eqn:Ex, (Value.get v' seg) as [x'|] eqn:Ex'; try discriminate Hf; [|done].
  injection Hf as Hf. cbn [fmap option_fmap option_map ValueRef.from_opt]. rewrite (missing_shape _ _ (same_norm_shape x x' Hf)). destruct (ValueRef.is_missing _); [done|].
  apply IH; [exact (json_get_wf _ _ _ Hw Ex)|exact (json_get_wf _ _ _ Hw' Ex')|done].
Qed.

(** ** The references of a plan *)

(** What the key binds: not correlated to a parent row, and not empty. *)
Definition bound_path (path : string) : bool := negb (starts_with path "parent." || String.eqb path "").

Definition ref_bound (v : Value) : bool :=
  match Value.get v "$param" with
  | Some p => match Value.as_str p with Some s => bound_path s | None => false end
  | None => true
  end.

Fixpoint predicate_bound (p : Predicate) : bool :=
  match p with
  | PEq _ v | PNeq _ v | PGt _ v | PGte _ v | PLt _ v | PLte _ v => ref_bound v
  | PParamEq p v | PParamNeq p v | PParamGt p v | PParamGte p v | PParamLt p v | PParamLte p v => bound_path p && ref_bound v
  | PAnd ps | POr ps => forallb predicate_bound ps
  | PPrefix _ _ | PTrue | PFalse => true
  end.

(** The plans whose answer the key determines: every reference that selects
    rows is one the key binds. Subqueries select no rows of their own here. *)
Fixpoint refs_bound (plan : OperatorPlan) : bool :=
  match plan with
  | OpScan _ => true
  | OpFilter i p => refs_bound i && predicate_bound p
  | OpJoin l r _ | OpSemiJoin l r _ | OpAntiJoin l r _ | OpUnion l r => refs_bound l && refs_bound r
  | OpDistinct i | OpProject i _ | OpLimit i _ _ _ => refs_bound i
  end.

Lemma bound_path_pushed path : bound_path path = true → push_path path = [path].
Proof. unfold bound_path, push_path. by destruct (_ || _). Qed.

Lemma bound_path_plain path : bound_path path = true → strip_parent path = path ∧ Path_new path = MkPath (split dot path).
Proof.
  unfold bound_path, starts_with, strip_parent, Path_new. destruct (strip_prefix _ _); [done|]. by destruct (String.eqb path "").
Qed.

(** ** Bound references read alike *)

Section agree.
Implicit Types params : option Value.

Lemma or_missing_alike a a' segs segs' :
  shape (resolve_segments (ValueRef.from_value a) segs) = shape (resolve_segments (ValueRef.from_value a') segs') →
  alike (or_missing (resolve_segments (ValueRef.from_value a) segs)) (or_missing (resolve_segments (ValueRef.from_value a') segs')).
Proof.
  destruct (resolve_segments_mem a segs) as [o ->], (resolve_segments_mem a' segs') as [o' ->]. intros E.
  destruct o as [v|], o' as [v'|]; [|by destruct v|by destruct v'|done].
  unfold alike. destruct v, v'; try discriminate E; try done; cbn in E |- *; congruence.
Qed.

Lemma resolve_field_plain a path : bound_path path = true →
  resolve_field (ValueRef.from_value a) (Path_new (strip_parent path)) = resolve_segments (ValueRef.from_value a) (split dot path).
Proof.
  intros Hp. destruct (bound_path_plain path Hp) as [-> ->]. unfold resolve_field. cbn. by destruct a.
Qed.

Lemma lookup_null path : resolve_segments (ValueRef.from_value (from_json VNull)) (split dot path) = Missing.
Proof. pose proof (split_nonempty dot path). destruct (split dot path); [done|]. cbn. by rewrite andb_false_r. Qed.

Lemma param_lookup_alike params params' path : params_wf params → params_wf params' → bound_path path = true →
  agree_on params params' path →
  alike (resolve_param_lookup path (from_json <$> params)) (resolve_param_lookup path (from_json <$> params')).
Proof.
  intros Hw Hw' Hp [(w & w' & E & E' & En)|En].
  - destruct params as [v|]; [|done]. destruct params' as [v'|]; [|done]. cbn in E, E', Hw, Hw'.
    unfold resolve_param_lookup. cbn [fmap option_fmap option_map]. rewrite !resolve_field_plain by done. apply or_missing_alike.
    rewrite (resolve_followed v _ w), (resolve_followed v' _ w') by done. by apply same_norm_shape.
  - assert (∀ params, params_wf params → resolve_param_lookup path (from_json <$> params) =
      or_missing (resolve_segments (ValueRef.from_value (from_json (default VNull params))) (split dot path))) as Hr.
    { intros [v|] _; unfold resolve_param_lookup; cbn [fmap option_fmap option_map default];
        [by rewrite resolve_field_plain|by rewrite lookup_null]. }
    rewrite !Hr by done. apply or_missing_alike. by apply resolve_same_norm.
Qed.

Lemma from_json_alike v : alike (Some (from_json v)) (Some (from_json (norm v))).
Proof. unfold alike. cbn [fmap option_fmap option_map compose]. by rewrite norm_shape. Qed.

Lemma predicate_value_alike params params' v : params_wf params → params_wf params' → json_wf v → ref_bound v = true →
  (∀ path, path ∈ push_value_ref v → agree_on params params' path) →
  alike (resolve_predicate_value v (from_json <$> params)) (resolve_predicate_value (norm v) (from_json <$> params')).
Proof.
  intros Hw Hw' Hv Hb Ha. pose proof (get_norm v "$param" Hv) as Hn. unfold ref_bound, push_value_ref, resolve_predicate_value in *.
  destruct v as [| | | | |m]; try (apply from_json_alike). unfold Value.get in *. cbn [norm Value.as_object] in *.
  rewrite Hn. destruct (assoc_get "$param" m) as [p|]; cbn [fmap option_fmap option_map]; [|apply from_json_alike].
  cbn in Hb. destruct p as [| | |path| |]; try discriminate Hb. cbn in Ha. rewrite bound_path_pushed in Ha by done.
  apply (param_lookup_alike params params' path); [done..|]. apply Ha. by left.
Qed.
End agree.

(** ** Bound plans answer alike *)

Section answers.
Context `{Hashing} `{OrdSet}.
Implicit Types params : option Value.

Lemma check_field_alike f field v v' key store ctx ctx' :
  (∀ a t t', shape t = shape t' → f a t (compare_values a t) = f a t' (compare_values a t')) →
  alike (resolve_predicate_value v ctx) (resolve_predicate_value v' ctx') →
  check_field f field v key store ctx = check_field f field v' key store ctx'.
Proof.
  unfold alike, check_field. intros Hf E.
  destruct (resolve_predicate_value v ctx), (resolve_predicate_value v' ctx'); try discriminate E; [|done].
  injection E as E. destruct (ValueRef.is_missing _); [done|]. by apply Hf.
Qed.

Lemma check_param_alike f param v v' ctx ctx' :
  alike (resolve_param_lookup param ctx) (resolve_param_lookup param ctx') →
  alike (resolve_predicate_value v ctx) (resolve_predicate_value v' ctx') →
  check_param f param v ctx = check_param f param v' ctx'.
Proof.
  unfold alike, check_param. intros El Er.
  destruct (resolve_param_lookup param ctx), (resolve_param_lookup param ctx'); try discriminate El; [|done].
  destruct (resolve_predicate_value v ctx), (resolve_predicate_value v' ctx'); try discriminate Er; [|done].
  injection El as El. injection Er as Er. f_equal. etrans; [by apply compare_values_shape_l|by apply compare_values_shape].
Qed.

Lemma forallb_map {A B} (f : A → bool) (g : B → bool) (h : A → B) l :
  Forall (λ a, f a = g (h a)) l → forallb f l = forallb g (map h l).
Proof. induction 1 as [|a l Ha _ IH]; [done|]. cbn. by rewrite Ha, IH. Qed.

Lemma existsb_map {A B} (f : A → bool) (g : B → bool) (h : A → B) l :
  Forall (λ a, f a = g (h a)) l → existsb f l = existsb g (map h l).
Proof. induction 1 as [|a l Ha _ IH]; [done|]. cbn. by rewrite Ha, IH. Qed.

Lemma each_agrees (Q : Predicate → Prop) (R : string → Prop) ps :
  Forall (λ p, predicate_wf p → predicate_bound p = true → (∀ path, path ∈ walk_predicate p → R path) → Q p) ps →
  Forall predicate_wf ps → forallb predicate_bound ps = true → (∀ path, path ∈ flat_map walk_predicate ps → R path) → Forall Q ps.
Proof.
  intros Hps Hw Hb Ha. rewrite Forall_forall in Hps, Hw |- *. rewrite forallb_forall in Hb. intros p Hp.
  apply (Hps p Hp); [by apply Hw|by apply Hb, list_elem_of_In|]. intros path Hpath. apply Ha.
  apply list_elem_of_In, in_flat_map. exists p. by rewrite <- !list_elem_of_In.
Qed.

Lemma check_predicate_agrees params params' key store p : params_wf params → params_wf params' →
  predicate_wf p → predicate_bound p = true → (∀ path, path ∈ walk_predicate p → agree_on params params' path) →
  check_predicate_recursive p key store (from_json <$> params) =
    check_predicate_recursive (predicate_norm p) key store (from_json <$> params').
Proof.
  intros Hw Hw'. induction p as [p Hp|ps IH|ps IH] using predicate_ind'; intros Hpw Hb Ha.
  - assert (∀ v, json_wf v → ref_bound v = true → (∀ path, path ∈ push_value_ref v → path ∈ walk_predicate p) →
      alike (resolve_predicate_value v (from_json <$> params)) (resolve_predicate_value (norm v) (from_json <$> params'))) as Hv.
    { intros v Hv Hvb Hin. apply predicate_value_alike; auto. }
    destruct p; try done; cbn in Hpw, Hb |- *; rewrite ?andb_true_iff in Hb; destruct_and?;
      (* a field against an operand *)
      try (apply check_field_alike; [intros a t t' Ht; by rewrite ?(compare_values_shape a t t' Ht), ?(same_kind_shape a t t' Ht)|by apply Hv]; fail);
      (* a parameter against an operand *)
      match goal with |- check_param _ ?path _ _ = _ => apply check_param_alike; [apply param_lookup_alike; [done..|]|apply Hv; [done..|]] end;
      try (intros; apply elem_of_app; by right); apply Ha; cbn; rewrite bound_path_pushed by done; by left.
  - cbn in Hpw, Hb, Ha |- *. rewrite wf_all in Hpw. apply forallb_map. by eapply each_agrees.
  - cbn in Hpw, Hb, Ha |- *. rewrite wf_all in Hpw. apply existsb_map. by eapply each_agrees.
Qed.

Lemma agree_left (R : string → Prop) l l' : (∀ path, path ∈ l ++ l' → R path) → ∀ path, path ∈ l → R path.
Proof. intros Hl path Hin. apply Hl, elem_of_app. by left. Qed.

Lemma agree_right (R : string → Prop) l l' : (∀ path, path ∈ l ++ l' → R path) → ∀ path, path ∈ l' → R path.
Proof. intros Hl path Hin. apply Hl, elem_of_app. by right. Qed.

(** Parameters that agree on the references of a plan give it one answer. *)
Lemma denote_agrees params params' store plan : params_wf params → params_wf params' →
  plan_wf plan → refs_bound plan = true → (∀ path, path ∈ walk_plan plan → agree_on params params' path) →
  denote plan store (from_json <$> params) = denote (plan_norm plan) store (from_json <$> params').
Proof.
  intros Hw Hw'.
  induction plan using plan_ind'; cbn [plan_wf refs_bound walk_plan]; intros Hp Hb Ha; rewrite ?andb_true_iff in Hb; destruct_and?.
  - done.
  - cbn [denote plan_norm]. rewrite <- IHplan; [|done|done|by eapply agree_right]. cbn. apply filter_keys_ext. intros k.
    unfold FilterOp.check_predicate. cbn. apply check_predicate_agrees; try done. by eapply agree_left.
  - cbn [denote plan_norm]. by rewrite <- (IHplan1 ltac:(done) ltac:(done) (agree_left _ _ _ Ha)), <- (IHplan2 ltac:(done) ltac:(done) (agree_right _ _ _ Ha)).
  - cbn [denote plan_norm]. by rewrite <- (IHplan1 ltac:(done) ltac:(done) (agree_left _ _ _ Ha)), <- (IHplan2 ltac:(done) ltac:(done) (agree_right _ _ _ Ha)).
  - cbn [denote plan_norm]. by rewrite <- (IHplan1 ltac:(done) ltac:(done) (agree_left _ _ _ Ha)), <- (IHplan2 ltac:(done) ltac:(done) (agree_right _ _ _ Ha)).
  - cbn [denote plan_norm]. by rewrite <- (IHplan1 ltac:(done) ltac:(done) (agree_left _ _ _ Ha)), <- (IHplan2 ltac:(done) ltac:(done) (agree_right _ _ _ Ha)).
  - cbn [denote plan_norm]. by rewrite <- IHplan.
  - cbn [denote plan_norm]. by rewrite <- IHplan.
  - cbn [denote plan_norm]. rewrite <- IHplan; [done|done|done|by eapply agree_left].
Qed.
End answers.

(** ** The key *)

Section key.
Context `{JsonLaws} `{!HashingLaws} `{OrdSetLaws}.

(** A plan and parameters as they are deserialized, every reference of which
    the key binds. *)
Record mergeable (plan : OperatorPlan) (params : option Value) : Prop := {
  mg_plan : plan_wf plan;
  mg_params : params_wf params;
  mg_plain : refs_plain plan;
  mg_bound : refs_bound plan = true;
}.

(** What is used of the hash function: it tells these two inputs apart. *)
Definition no_collision (z z' : list Z) : Prop := blake3 z = blake3 z' → z = z'.

Lemma to_hex_blake3_inj z z' : to_hex (blake3 z) = to_hex (blake3 z') → blake3 z = blake3 z'.
Proof.
  intros E. pose proof (xor_acc_hex_roundtrip _ (blake3_acc_wf z)) as R. pose proof (xor_acc_hex_roundtrip _ (blake3_acc_wf z')) as R'.
  unfold xor_acc_to_hex in R, R'. rewrite E, R' in R. by injection R.
Qed.

Lemma compute_key_bytes plan plan' params params' : no_collision (key_bytes plan params) (key_bytes plan' params') →
  compute plan params = compute plan' params' → key_bytes plan params = key_bytes plan' params'.
Proof. unfold compute. intros Hc E%string_app_inj_l. by apply Hc, to_hex_blake3_inj. Qed.

Lemma agree_refl params path : agree_on params params path.
Proof. by right. Qed.

(** One key, one answer. *)
Lemma key_answer plan plan' params params' store : mergeable plan params → mergeable plan' params' →
  key_bytes plan params = key_bytes plan' params' →
  denote plan store (from_json <$> params) = denote plan' store (from_json <$> params').
Proof.
  intros [Hp Hw Hr Hb] [Hp' Hw' Hr' Hb'] E. destruct (key_bytes_inj _ _ _ _ Hp Hp' Hw Hw' Hr Hr' E) as [En Ha].
  rewrite (denote_agrees params params' store plan Hw Hw' Hp Hb Ha), En. symmetry.
  apply denote_agrees; [done..|]. intros. apply agree_refl.
Qed.

(** Conversely, parameters that give every reference one value, whatever else
    they hold, give the plan one key: a query that refers to no parameter is
    shared by everyone. *)
Lemma same_bindings_same_key plan params params' : params_wf params → params_wf params' →
  (∀ path, path ∈ walk_plan plan → ∃ w w', resolve params path = Some w ∧ resolve params' path = Some w' ∧ norm w = norm w') →
  compute plan params = compute plan params'.
Proof.
  intros Hw Hw' Hrefs. unfold compute. do 3 f_equal. rewrite !key_bytes_chunks. do 3 f_equal. unfold chunks.
  assert (∀ path, path ∈ in_order (collect_param_refs plan) → ∃ w w', resolve params path = Some w ∧ resolve params' path = Some w' ∧ norm w = norm w') as Hin.
  { intros path. rewrite in_order_elem. unfold collect_param_refs. rewrite elem_of_list_to_set. apply Hrefs. }
  revert Hin. generalize (in_order (collect_param_refs plan)). intros refs Hin. unfold unresolved.
  induction refs as [|path refs IH]; [done|]. destruct (Hin path ltac:(by left)) as (w & w' & E & E' & En). cbn.
  rewrite E, E'. cbn. unfold bind_bytes. rewrite E, E'. cbn.
  rewrite (canonical_text w), (canonical_text w') by eauto using resolve_wf. rewrite En. f_equal. apply IH. intros p Hp. apply Hin. by right.
Qed.

End key.

(** ** A shared query, and a reference that escapes the key *)

Definition team_plan : OperatorPlan :=
  OpFilter (OpScan "user") (PEq (Path_new "team") (VObject [("$param", VString "auth.team")])).

Definition of_team (team : string) : option Value := Some (VObject [("auth", VObject [("team", VString team)])]).

(** The same team, in a session that says more. *)
Definition of_team_too (team : string) : option Value :=
  Some (VObject [("access", VString "account"); ("auth", VObject [("name", VString "eve"); ("team", VString team)])]).

Definition team0 : Circuit :=
  match add_query_with_auth (MkQueryPlan "mine" team_plan) (of_team "team:x") None "" Circuit.new with Some (_, c) => c | None => Circuit.new end.
Definition team1 : Circuit := demo_stepped demo_batch1 team0.

Lemma team1_reachable : reachable team1.
Proof.
  apply demo_stepped_reachable; [|eval_batch].
  unfold team0. destruct (add_query_with_auth (MkQueryPlan "mine" team_plan) (of_team "team:x") None "" Circuit.new) as [[delta c]|] eqn:E; [|exact reach_new].
  exact (reach_add _ (MkQueryPlan "mine" team_plan) _ _ _ _ _ reach_new eq_refl eq_refl E).
Qed.

Ltac eval_mergeable :=
  split; [cbn; (split; [split; [reflexivity|]|exact I]); object_wf; constructor
         |unfold params_wf; cbn; repeat (object_wf; try (constructor; fail))
         |repeat constructor; done
         |reflexivity].

Lemma team_mergeable : mergeable team_plan (of_team "team:x").
Proof. eval_mergeable. Qed.

Lemma team_too_mergeable : mergeable team_plan (of_team_too "team:x").
Proof. eval_mergeable. Qed.


Definition parent_plan : OperatorPlan :=
  OpFilter (OpScan "user") (PEq (Path_new "team") (VObject [("$param", VString "parent.auth.team")])).

(** A reference through [parent.] is left out of the key, but outside a
    subquery the filter resolves it against the registration's own parameters:
    two users have one key for it, and different answers. *)
Theorem parent_reference_escapes_key :
  compute parent_plan (of_team "team:x") = compute parent_plan (of_team "team:y") ∧
  denote parent_plan (ct_store demo1) (from_json <$> of_team "team:x") = {["user:a" := 1; "user:c" := 1]} ∧
  denote parent_plan (ct_store demo1) (from_json <$> of_team "team:y") = {["user:b" := 1]}.
Proof. split_and!; vm_compute; reflexivity. Qed.
