(* ===== verification/Permission.v ===== *)
(** * Permissions put into a query

    Models [packages/ssp/src/permission_inject.rs] and the check for opaque
    fields of [service.rs]: before a query is registered, every scan of its
    plan is guarded by the rule its table gives readers. The text of a rule is
    converted by the query converter, which is any function here: what is
    proved of the injection holds whatever plan a rule is converted to. An
    error is its kind and its table. *)

From S2P Require Import Prelude Platform Value Combinators Plan Convert.
Local Open Scope Z_scope.

(** ** The session guard (the pattern, of the [regex] crate) *)

(** One letter of the pattern, in lower case, whatever the case of the text:
    the long s and the Kelvin sign fold to letters too. *)
Definition strip_letter (a : Z) (bs : list Z) : option (list Z) :=
  match bs with
  | 197 :: 191 :: r => if a =? 115 then Some r else None
  | 226 :: 132 :: 170 :: r => if a =? 107 then Some r else None
  | b :: r => if lower_byte b =? a then Some r else None
  | [] => None
  end.

Fixpoint strip_word (p bs : list Z) : option (list Z) :=
  match p with
  | [] => Some bs
  | a :: p => let? r := strip_letter a bs in strip_word p r
  end.

(** [\s+]: no word of the pattern starts with whitespace, so taking all of it
    is the only way to match. *)
Definition strip_ws1 (bs : list Z) : option (list Z) := let? r := ws_char bs in Some (trim_start r).

Definition SESSION_GUARD_CALL : string := "fn::sp00ky::session_live()".

Definition guard_word : list Z := map lower_byte (bytes_of SESSION_GUARD_CALL).
Definition and_word : list Z := bytes_of "and".

(** The pattern at the start of a text: the call before an [AND], or after. *)
Definition strip_guard_and (bs : list Z) : option (list Z) :=
  match (let? r := strip_word guard_word bs in let? r := strip_ws1 r in let? r := strip_word and_word r in strip_ws1 r) with
  | Some r => Some r
  | None => let? r := strip_ws1 bs in let? r := strip_word and_word r in let? r := strip_ws1 r in strip_word guard_word r
  end.

(** [replace_all] and [replace]: the leftmost match, then what follows it. *)
Fixpoint replace_all (strip : list Z → option (list Z)) (by_ : list Z) (fuel : nat) (bs : list Z) : list Z :=
  match fuel with
  | O => bs
  | S fuel =>
      match strip bs with
      | Some r => by_ ++ replace_all strip by_ fuel r
      | None => match bs with [] => [] | b :: r => b :: replace_all strip by_ fuel r end
      end
  end.

Definition without_session_guard (raw : string) : string :=
  if negb (contains raw SESSION_GUARD_CALL) then raw
  else
    let bs := bytes_of raw in
    let bs := replace_all strip_guard_and [] (length bs) bs in
    string_of_bytes (replace_all (strip_bytes (bytes_of SESSION_GUARD_CALL)) (bytes_of "true") (length bs) bs).

(** No other character has a lower case that completes one of these. *)
Definition unsupported_construct (raw : string) : option string :=
  let lower := map lower_byte (bytes_of raw) in
  List.find (λ needle, contains_bytes (bytes_of needle) lower) ["exists (select"; "$parent"].

(** ** Injection *)

Inductive PermError :=
  | DefaultDeny (table : string)
  | Denied (table : string)
  | NeedsAuth (table : string)
  | Unsupported (table construct : string)
  | ParseFailed (table : string)
  | UnnamedTable (table : string)
  | NonFlatPlan (table : string)
  | NonFilterPlan (table : string)
  | OpaqueField (table field : string).

Inductive PermInjection := InjPred (predicate : Predicate) | InjPlan (plan : OperatorPlan).


Definition intersect_with_permission (view perm : OperatorPlan) : OperatorPlan :=
  OpSemiJoin view perm (MkJoinCondition (Path_new "id") (Path_new "id")).

Fixpoint scans_unnamed_table (plan : OperatorPlan) : option string :=
  match plan with
  | OpScan table => if String.eqb (trim table) "" then Some table else None
  | OpFilter input _ | OpDistinct input | OpProject input _ => scans_unnamed_table input
  | OpSemiJoin l r _ | OpUnion l r =>
      match scans_unnamed_table l with Some bad => Some bad | None => scans_unnamed_table r end
  | _ => None
  end.

Definition params_have_auth (params : option Value) : bool :=
  match params with
  | Some p => match Value.get p "auth" with Some VNull | None => false | Some _ => true end
  | None => false
  end.

Fixpoint push_and_operand (p : Predicate) : list Predicate :=
  match p with
  | PTrue => []
  | PAnd predicates => flat_map push_and_operand predicates
  | other => [other]
  end.

Definition and_predicates (a b : Predicate) : Predicate :=
  match a, b with
  | PFalse, _ | _, PFalse => PFalse
  | _, _ =>
      match push_and_operand a ++ push_and_operand b with
      | [] => PTrue
      | [p] => p
      | out => PAnd out
      end
  end.

Section injection.
(** The query converter, and the reading of the plan it writes. *)
Context (convert_surql_to_dbsp_with_links : string → LinkMap → option OperatorPlan).
Context (perms : gmap string string) (params : option Value) (links : LinkMap).

Definition build_injection (table : string) : PermError + option PermInjection :=
  match perms !! table with
  | None => if starts_with table "_00_" then inr None else inl (DefaultDeny table)
  | Some t =>
      let raw := trim (without_session_guard (trim t)) in
      if eq_ignore_ascii_case raw "true" then inr None
      else if eq_ignore_ascii_case raw "false" then inl (Denied table)
      else if contains raw "$auth" && negb (params_have_auth params) then inl (NeedsAuth table)
      else match unsupported_construct raw with
      | Some snippet => inl (Unsupported table snippet)
      | None =>
          match convert_surql_to_dbsp_with_links ("SELECT * FROM " +:+ table +:+ " WHERE " +:+ raw)%string links with
          | None => inl (ParseFailed table)
          | Some (OpFilter (OpScan _) predicate) => inr (Some (InjPred predicate))
          | Some ((OpSemiJoin _ _ _ | OpUnion _ _ | OpDistinct _) as plan) =>
              match scans_unnamed_table plan with
              | Some _ => inl (UnnamedTable table)
              | None => inr (Some (InjPlan plan))
              end
          | Some (OpFilter _ _) => inl (NonFlatPlan table)
          | Some _ => inl (NonFilterPlan table)
          end
      end
  end.

(** The plan as it is left, also on an error. A projected subquery that fails
    is emptied instead. *)
Fixpoint inject_node (plan : OperatorPlan) : OperatorPlan * option PermError :=
  match plan with
  | OpScan table =>
      match build_injection table with
      | inl e => (plan, Some e)
      | inr None => (plan, None)
      | inr (Some (InjPred predicate)) => (OpFilter (OpScan table) predicate, None)
      | inr (Some (InjPlan perm)) => (intersect_with_permission (OpScan table) perm, None)
      end
  | OpFilter input predicate =>
      match input with
      | OpScan table =>
          match build_injection table with
          | inl e => (plan, Some e)
          | inr None => (plan, None)
          | inr (Some (InjPred p)) => (OpFilter input (and_predicates predicate p), None)
          | inr (Some (InjPlan perm)) => (intersect_with_permission plan perm, None)
          end
      | _ => let '(input, e) := inject_node input in (OpFilter input predicate, e)
      end
  | OpJoin l r on =>
      match inject_node l with
      | (l, Some e) => (OpJoin l r on, Some e)
      | (l, None) => let '(r, e) := inject_node r in (OpJoin l r on, e)
      end
  | OpSemiJoin l r on =>
      match inject_node l with
      | (l, Some e) => (OpSemiJoin l r on, Some e)
      | (l, None) => let '(r, e) := inject_node r in (OpSemiJoin l r on, e)
      end
  | OpAntiJoin l r on =>
      match inject_node l with
      | (l, Some e) => (OpAntiJoin l r on, Some e)
      | (l, None) => let '(r, e) := inject_node r in (OpAntiJoin l r on, e)
      end
  | OpUnion l r =>
      match inject_node l with
      | (l, Some e) => (OpUnion l r, Some e)
      | (l, None) => let '(r, e) := inject_node r in (OpUnion l r, e)
      end
  | OpProject input projections =>
      match inject_node input with
      | (input, Some e) => (OpProject input projections, Some e)
      | (input, None) =>
          (OpProject input (map (λ proj,
             match proj with
             | PSubquery alias plan parent_key =>
                 match inject_node plan with
                 | (plan, None) => PSubquery alias plan parent_key
                 | (inner, Some _) => PSubquery alias (OpFilter inner PFalse) parent_key
                 end
             | other => other
             end) projections), None)
      end
  | OpLimit input limit start order_by => let '(input, e) := inject_node input in (OpLimit input limit start order_by, e)
  | OpDistinct input => let '(input, e) := inject_node input in (OpDistinct input, e)
  end.

Definition inject_permissions_with_links (plan : OperatorPlan) : PermError + OperatorPlan :=
  match inject_node plan with (plan, None) => inr plan | (_, Some e) => inl e end.

(** [reject_opaque_field_evaluation]. *)
Definition reject_opaque_field_evaluation (opaque_fields : gmap string (gset string)) (root : OperatorPlan) : option PermError :=
  match List.find (λ r : string * string, match opaque_fields !! r.1 with Some fields => bool_decide (r.2 ∈ fields) | None => false end)
      (evaluated_field_refs root) with
  | Some (table, field) => Some (OpaqueField table field)
  | None => None
  end.

(** What a registration does with its plan: [prepare_registration_dbsp] from
    the converted plan on. *)
Definition prepare_root (opaque_fields : gmap string (gset string)) (plan : OperatorPlan) : PermError + OperatorPlan :=
  match inject_permissions_with_links plan with
  | inl e => inl e
  | inr plan => match reject_opaque_field_evaluation opaque_fields plan with Some e => inl e | None => inr plan end
  end.
End injection.

(** ** The text functions, on samples *)

Example trim_sample : trim (string_of_bytes [194; 160; 32; 97; 32; 98; 227; 128; 128; 9]) = "a b".
Proof. vm_compute. reflexivity. Qed.

Example guard_dropped : without_session_guard "owner = $auth.id AND  fn::sp00ky::session_live()" = "owner = $auth.id".
Proof. vm_compute. reflexivity. Qed.

Example guard_leading : without_session_guard "fn::sp00ky::session_live() and (a OR b)" = "(a OR b)".
Proof. vm_compute. reflexivity. Qed.

Example guard_alone : without_session_guard "fn::sp00ky::session_live()" = "true".
Proof. vm_compute. reflexivity. Qed.

Example exists_refused : unsupported_construct "Exists (Select id FROM t)" = Some "exists (select".
Proof. vm_compute. reflexivity. Qed.
