(* ===== verification/Guarded.v ===== *)
(** * What injected permissions admit

    A plan whose permissions were injected answers what the query as written
    answers over tables that hold the permitted rows alone: the guard that
    [inject_node] folds into a filter, wraps around a scan or joins in from
    the side is the same as taking it at the scan. The second part is about
    registered queries and what their views show. *)

From S2P Require Import Prelude Platform Value ValueRef ZSet SortKey Index Store Plan Combinators Convert Operator.
From S2P Require Import Filter LinearOps Join Witness TopK Graph Denote Support View Circuit Step Register Batch.
From S2P Require Import Viewed Correct Reach Permission.
Local Open Scope Z_scope.

(** ** Predicates and joins *)

Section predicates.
Context `{Hashing} `{OrdSet}.
Implicit Types (store : Store) (ctx : option Sp00kyValue) (p q : Predicate).

Lemma push_and_operand_check p key store ctx :
  forallb (λ p, check_predicate_recursive p key store ctx) (push_and_operand p) =
    check_predicate_recursive p key store ctx.
Proof.
  revert p. fix IH 1. intros [| | | | | | | | | | | | | | |ps|ps]; cbn; try done; try apply andb_true_r.
  induction ps as [|p ps IHps]; cbn; [done|]. by rewrite forallb_app, (IH p), IHps.
Qed.

Lemma and_predicates_check p q key store ctx :
  check_predicate_recursive (and_predicates p q) key store ctx =
    check_predicate_recursive p key store ctx && check_predicate_recursive q key store ctx.
Proof.
  assert (p = PFalse ∨ q = PFalse ∨ and_predicates p q =
    match push_and_operand p ++ push_and_operand q with [] => PTrue | [p] => p | out => PAnd out end) as [-> | [-> | ->]]
    by (destruct p, q; auto).
  - by destruct q.
  - rewrite andb_false_r. by destruct p.
  - rewrite <- (push_and_operand_check p), <- (push_and_operand_check q), <- forallb_app.
    destruct (push_and_operand p ++ push_and_operand q) as [|a [|b out]]; cbn; by rewrite ?andb_true_r.
Qed.

Lemma filter_keys_and (f g : RowKey → bool) (z : ZSet) :
  filter_keys (λ k, f k && g k) z = filter_keys f (filter_keys g z).
Proof.
  unfold filter_keys. rewrite map_filter_filter. apply map_filter_ext. intros k w _. cbn.
  rewrite andb_true_iff. done.
Qed.

(** A semi-join picks keys of its left side by their rows: a filter of the
    left side may be taken before or after. *)
Lemma semi_join_filter (f : RowKey → bool) left_ right_ on store :
  SemiJoinOp.semi_join (filter_keys f left_) right_ on store = filter_keys f (SemiJoinOp.semi_join left_ right_ on store).
Proof.
  assert (∀ l, SemiJoinOp.semi_join l right_ on store =
    for_each_entry (λ l_key entry l_weight,
        if bool_decide (right_present right_ on store = ∅) then entry
        else if l_weight <=? 0 then entry
        else
          let l_field := JoinOp.join_field store (left_field on) l_key in
          if ValueRef.is_missing l_field then entry
          else if has_match (right_present right_ on store) l_field then Some 1 else entry) ∅ l) as Heq.
  { intros l. apply map_eq. intros k. rewrite lookup_for_each_entry, lookup_empty. unfold SemiJoinOp.semi_join. cbv zeta.
    case_bool_decide as Hl; [by subst|].
    case_bool_decide; [by destruct (l !! k)|]. by rewrite lookup_for_each_entry, lookup_empty. }
  rewrite !Heq. apply map_eq. intros k. unfold filter_keys. rewrite map_lookup_filter, !lookup_for_each_entry, !lookup_empty.
  rewrite map_lookup_filter. destruct (left_ !! k); cbn; [|done].
  destruct (f k); cbn; repeat case_guard; cbn; by repeat case_match.
Qed.
End predicates.

(** ** The plan over other tables *)

Section keys.
Context `{Hashing} `{OrdSet}.
Implicit Types (store : Store) (params : option Sp00kyValue) (plan : OperatorPlan) (scan : string → ZSet).

(** A plan's answer when a scan of [t] gives [scan t]. *)
Fixpoint over (scan : string → ZSet) plan store params : ZSet :=
  match plan with
  | OpScan t => scan t
  | OpFilter i _ | OpDistinct i | OpProject i _ | OpLimit i _ _ _ =>
      snapshot (fresh plan) [over scan i store params] store params
  | OpJoin l r _ | OpSemiJoin l r _ | OpAntiJoin l r _ | OpUnion l r =>
      snapshot (fresh plan) [over scan l store params; over scan r store params] store params
  end.

Lemma denote_over plan store params : denote plan store params = over (ScanOp.table_membership store) plan store params.
Proof. induction plan; cbn -[snapshot]; try done; congruence. Qed.

(** The tables whose rows a plan's answer is made of: those of subqueries are
    not among them. *)
Fixpoint scanned plan : list string :=
  match plan with
  | OpScan t => [t]
  | OpFilter i _ | OpDistinct i | OpProject i _ | OpLimit i _ _ _ => scanned i
  | OpJoin l r _ | OpSemiJoin l r _ | OpAntiJoin l r _ | OpUnion l r => scanned l ++ scanned r
  end.

Lemma each_entry_keys (g : RowKey → option Z → Z → option Z) z k :
  is_Some (for_each_entry g (∅ : ZSet) z !! k) → is_Some (z !! k).
Proof. rewrite lookup_for_each_entry, lookup_empty. destruct (z !! k); [by eexists|by intros []]. Qed.

Lemma hash_join_keys l r on store k : is_Some (JoinOp.hash_join l r on store !! k) → is_Some (l !! k).
Proof.
  unfold JoinOp.hash_join. case_match; [by rewrite lookup_empty; intros []|]. cbv zeta.
  intros [w [Hk _]%map_lookup_filter_Some]. eapply each_entry_keys. by eexists.
Qed.

Lemma semi_join_keys l r on store k : is_Some (SemiJoinOp.semi_join l r on store !! k) → is_Some (l !! k).
Proof.
  unfold SemiJoinOp.semi_join. case_match; [by rewrite lookup_empty; intros []|]. cbv zeta.
  case_match; [by rewrite lookup_empty; intros []|apply each_entry_keys].
Qed.

Lemma anti_join_keys l r on store k : is_Some (AntiJoinOp.anti_join l r on store !! k) → is_Some (l !! k).
Proof.
  unfold AntiJoinOp.anti_join. case_match; [by rewrite lookup_empty; intros []|apply each_entry_keys].
Qed.

Lemma add_keys (a b : ZSet) k : is_Some (ZSet.add a b !! k) → is_Some (a !! k) ∨ is_Some (b !! k).
Proof. unfold ZSet.add. rewrite lookup_for_each_entry. destruct (b !! k); [right|left]; by eauto. Qed.

Lemma window_keys (l : list Entry) (acc : ZSet) k :
  is_Some (foldl (λ (out : ZSet) (e : Entry), <[e.2 := 1]> out) acc l !! k) →
  is_Some (acc !! k) ∨ ∃ e, e ∈ l ∧ e.2 = k.
Proof.
  revert acc. induction l as [|e l IH]; intros acc; cbn [foldl]; [by left|].
  intros [Hk|(x & Hx & <-)]%IH.
  - destruct (decide (e.2 = k)) as [<-|Hne]; [right; exists e; split; [by left|done]|].
    left. by rewrite lookup_insert_ne in Hk.
  - right. exists x. split; [by right|done].
Qed.

Lemma elem_of_window {A} (x : A) n m (l : list A) : x ∈ ztake n (zdrop m l) → x ∈ l.
Proof.
  unfold ztake, zdrop. intros Hx.
  assert (x ∈ (if Z.of_nat (length l) <=? m then [] else drop (Z.to_nat m) l)) as Hd.
  { case_match; [|apply elem_of_take in Hx as (i & Hi & _)]; [done|by eapply list_elem_of_lookup_2]. }
  case_match; [by apply not_elem_of_nil in Hd|].
  apply list_elem_of_lookup in Hd as [i Hi]. rewrite lookup_drop in Hi. by eapply list_elem_of_lookup_2.
Qed.

Lemma snapshot_keys plan (f : OperatorPlan → ZSet) store params k : children plan ≠ [] →
  is_Some (snapshot (fresh plan) (map f (children plan)) store params !! k) →
  ∃ c, c ∈ children plan ∧ is_Some (f c !! k).
Proof.
  intros Hc Hk. destruct plan as [t|i q|l r on|l r on|l r on|l r|i|i ps|i n s o]; [done|..];
    cbn -[TopKOp.snapshot] in Hk |- *.
  - exists i. split; [by left|]. destruct Hk as [w [Hk _]%map_lookup_filter_Some]. by eexists.
  - exists l. split; [by left|]. by eapply hash_join_keys.
  - exists l. split; [by left|]. by eapply semi_join_keys.
  - exists l. split; [by left|]. by eapply anti_join_keys.
  - apply add_keys in Hk as [Hk|Hk]; [exists l|exists r]; (split; [by set_solver|]); [|done].
    apply add_keys in Hk as [Hk|Hk]; [|done]. by rewrite lookup_empty in Hk; destruct Hk.
  - exists i. split; [by left|]. unfold DistinctOp.snapshot, DistinctOp.threshold in Hk.
    rewrite lookup_fmap in Hk. apply fmap_is_Some in Hk as [w [Hk _]%map_lookup_filter_Some]. by eexists.
  - exists i. split; [by left|done].
  - exists i. split; [by left|]. unfold TopKOp.snapshot in Hk. cbv zeta in Hk.
    apply window_keys in Hk as [Hk|(e & He & <-)]; [by rewrite lookup_empty in Hk; destruct Hk|].
    apply elem_of_window in He. rewrite sort_by_perm in He.
    apply list_elem_of_fmap in He as ([k w] & -> & Hin). apply list_elem_of_In, filter_In in Hin as [Hin _].
    apply list_elem_of_In, elem_of_map_to_list in Hin. by eexists.
Qed.

Lemma over_keys scan plan store params k : is_Some (over scan plan store params !! k) →
  ∃ t, t ∈ scanned plan ∧ is_Some (scan t !! k).
Proof.
  assert (∀ p, children p ≠ [] → over scan p store params =
    snapshot (fresh p) (map (λ c, over scan c store params) (children p)) store params) as Hover by by intros [].
  assert (∀ p c t, c ∈ children p → t ∈ scanned c → t ∈ scanned p) as Hin by (intros [] c t; set_solver).
  revert k. induction plan; intros k Hk; [by exists table; split; [left|]|..];
    (rewrite Hover in Hk by done; apply snapshot_keys in Hk as (c & Hc & Hk); [|done];
     pose proof Hc as Hc'; cbn in Hc';
     repeat (apply elem_of_cons in Hc' as [-> | Hc']); try (by apply elem_of_nil in Hc')).
  all: match goal with IH : context [is_Some (over _ ?c _ _ !! _)], Hk : is_Some (over _ ?c _ _ !! _) |- _ =>
    apply IH in Hk as (t & Ht & Hk) end; exists t; split; [by eapply Hin|done].
Qed.
End keys.

(** ** Guarded tables *)

Section safety.
Context `{Hashing} `{OrdSet}.
Context (convert_surql_to_dbsp_with_links : string → LinkMap → option OperatorPlan).
Context (perms : gmap string string) (auth : option Value) (links : LinkMap).
Implicit Types (store : Store) (params : option Sp00kyValue) (plan : OperatorPlan) (t : string).

#[local] Abbreviation build_injection := (build_injection convert_surql_to_dbsp_with_links perms auth links).
#[local] Abbreviation inject_node := (inject_node convert_surql_to_dbsp_with_links perms auth links).
#[local] Abbreviation inject_permissions_with_links :=
  (inject_permissions_with_links convert_surql_to_dbsp_with_links perms auth links).

(** The rows of a table a rule admits: none where the table is refused. *)
Definition permitted store params t : ZSet :=
  match build_injection t with
  | inl _ => ∅
  | inr None => ScanOp.table_membership store t
  | inr (Some (InjPred p)) =>
      filter_keys (λ k, check_predicate_recursive p k store params) (ScanOp.table_membership store t)
  | inr (Some (InjPlan perm)) =>
      SemiJoinOp.semi_join (ScanOp.table_membership store t) (denote perm store params)
        (MkJoinCondition (Path_new "id") (Path_new "id")) store
  end.

Definition granted t : Prop := ∃ rule, build_injection t = inr rule.

Lemma inject_scan t plan' store params : inject_node (OpScan t) = (plan', None) →
  granted t ∧ denote plan' store params = permitted store params t.
Proof.
  cbn. unfold granted, permitted. destruct (build_injection t) as [e|[[p|perm]|]]; intros [= <-]; eauto.
Qed.

Lemma inject_filtered_scan t q plan' store params : inject_node (OpFilter (OpScan t) q) = (plan', None) →
  granted t ∧ denote plan' store params =
    filter_keys (λ k, check_predicate_recursive q k store params) (permitted store params t).
Proof.
  cbn. unfold granted, permitted. destruct (build_injection t) as [e|[[p|perm]|]]; intros [= <-];
    (split; [by eauto|]); try done.
  - cbn. unfold FilterOp.snapshot, FilterOp.check_predicate, input. cbn. rewrite <- filter_keys_and.
    unfold filter_keys. apply map_filter_ext. intros k w _. cbn. by rewrite and_predicates_check.
  - cbn. unfold SemiJoinOp.snapshot, FilterOp.snapshot, input. cbn. apply semi_join_filter.
Qed.

Lemma inject_binary (l r plan' : OperatorPlan) (f : OperatorPlan → OperatorPlan → OperatorPlan) :
  (match inject_node l with
   | (l, Some e) => (f l r, Some e)
   | (l, None) => let '(r, e) := inject_node r in (f l r, e)
   end) = (plan', None) →
  ∃ l' r', inject_node l = (l', None) ∧ inject_node r = (r', None) ∧ plan' = f l' r'.
Proof. destruct (inject_node l) as [l' [e|]], (inject_node r) as [r' [e'|]]; intros [= <-]; eauto. Qed.

(** The claim of [inject_node_over] for one plan. *)
Definition guarded_by store params plan plan' : Prop :=
  Forall granted (scanned plan) ∧ denote plan' store params = over (permitted store params) plan store params.

Lemma over_binary store params (l r l' r' : OperatorPlan) (f : OperatorPlan → OperatorPlan → OperatorPlan) :
  (∀ a b, scanned (f a b) = scanned a ++ scanned b) →
  (∀ scan a b, over scan (f a b) store params =
    snapshot (fresh (f (OpScan "") (OpScan ""))) [over scan a store params; over scan b store params] store params) →
  guarded_by store params l l' → guarded_by store params r r' → guarded_by store params (f l r) (f l' r').
Proof.
  intros Hs Hop [Hgl Hdl] [Hgr Hdr]. split; [rewrite Hs; by apply Forall_app|].
  rewrite denote_over, !Hop, <- !denote_over. by rewrite Hdl, Hdr.
Qed.

(** The whole plan, by induction: a filter right above a scan is one case. *)
Lemma inject_node_over plan plan' store params : inject_node plan = (plan', None) → guarded_by store params plan plan'.
Proof.
  revert plan'. induction plan as [t|i IH q|l IHl r IHr on|l IHl r IHr on|l IHl r IHr on|l IHl r IHr|i IH|i IH ps|i IH n s o];
    intros plan' Hp.
  - apply (inject_scan t plan' store params) in Hp as [Hg Hd]. split; [by constructor|done].
  - assert ((∃ t, i = OpScan t) ∨ ∃ i', inject_node i = (i', None) ∧ plan' = OpFilter i' q) as [[t ->]|(i' & Hi & ->)].
    { destruct i as [t| | | | | | | |]; [by left; eauto|right..];
        (cbn [Permission.inject_node] in Hp |- *; case_match; injection Hp as <- ->; eauto). }
    + apply (inject_filtered_scan t q plan' store params) in Hp as [Hg Hd]. split; [by constructor|done].
    + destruct (IH _ Hi) as [Hg Hd]. split; [done|]. cbn -[snapshot]. by rewrite Hd.
  - apply (inject_binary l r plan' (λ l r, OpJoin l r on)) in Hp as (l' & r' & Hl & Hr & ->).
    apply (over_binary _ _ _ _ _ _ (λ l r, OpJoin l r on)); [done|done|by apply IHl|by apply IHr].
  - apply (inject_binary l r plan' (λ l r, OpSemiJoin l r on)) in Hp as (l' & r' & Hl & Hr & ->).
    apply (over_binary _ _ _ _ _ _ (λ l r, OpSemiJoin l r on)); [done|done|by apply IHl|by apply IHr].
  - apply (inject_binary l r plan' (λ l r, OpAntiJoin l r on)) in Hp as (l' & r' & Hl & Hr & ->).
    apply (over_binary _ _ _ _ _ _ (λ l r, OpAntiJoin l r on)); [done|done|by apply IHl|by apply IHr].
  - apply (inject_binary l r plan' OpUnion) in Hp as (l' & r' & Hl & Hr & ->).
    apply (over_binary _ _ _ _ _ _ OpUnion); [done|done|by apply IHl|by apply IHr].
  - cbn in Hp. destruct (inject_node i) as [i' e] eqn:Hi. injection Hp as <- ->.
    destruct (IH _ eq_refl) as [Hg Hd]. split; [done|]. cbn -[snapshot]. by rewrite Hd.
  - cbn in Hp. destruct (inject_node i) as [i' [e|]] eqn:Hi; [done|]. injection Hp as <-.
    destruct (IH _ eq_refl) as [Hg Hd]. split; [done|]. cbn -[snapshot]. by rewrite Hd.
  - cbn in Hp. destruct (inject_node i) as [i' e] eqn:Hi. injection Hp as <- ->.
    destruct (IH _ eq_refl) as [Hg Hd]. split; [done|]. cbn -[snapshot]. by rewrite Hd.
Qed.

(** What [table]'s rule says of a row. *)
Definition admits store params t (k : RowKey) : Prop :=
  match build_injection t with
  | inl _ => False
  | inr None => True
  | inr (Some (InjPred p)) => check_predicate_recursive p k store params = true
  | inr (Some (InjPlan perm)) =>
      is_Some (SemiJoinOp.semi_join (ScanOp.table_membership store t) (denote perm store params)
        (MkJoinCondition (Path_new "id") (Path_new "id")) store !! k)
  end.

Lemma permitted_row store params t k : is_Some (permitted store params t !! k) →
  is_Some (ScanOp.table_membership store t !! k) ∧ admits store params t k.
Proof.
  unfold permitted, admits. destruct (build_injection t) as [e|[[p|perm]|]].
  - rewrite lookup_empty. by intros [].
  - intros [w [Hk Hp]%map_lookup_filter_Some]. split; [by eexists|done].
  - intros Hk. split; [by eapply semi_join_keys|done].
  - done.
Qed.

(** A failure is the refusal of a scanned table. *)
Lemma inject_node_fails plan plan' e : inject_node plan = (plan', Some e) →
  ∃ t, t ∈ scanned plan ∧ build_injection t = inl e.
Proof.
  assert (∀ (l r plan' : OperatorPlan) f, (match inject_node l with
    | (l, Some e) => (f l r, Some e)
    | (l, None) => let '(r, e) := inject_node r in (f l r, e)
    end) = (plan', Some e) →
    (∃ l', inject_node l = (l', Some e)) ∨ ∃ r', inject_node r = (r', Some e)) as Hbinary.
  { intros l r p f. destruct (inject_node l) as [l' [e'|]]; [intros [= _ ->]; by eauto|].
    destruct (inject_node r) as [r' e']. intros [= _ ->]. by eauto. }
  revert plan'. induction plan as [t|i IH q|l IHl r IHr on|l IHl r IHr on|l IHl r IHr on|l IHl r IHr|i IH|i IH ps|i IH n s o];
    intros plan' Hp.
  - exists t. split; [by left|]. cbn in Hp. by destruct (build_injection t) as [|[[]|]]; simplify_eq.
  - assert ((∃ t, i = OpScan t ∧ build_injection t = inl e) ∨ ∃ i', inject_node i = (i', Some e))
      as [(t & -> & Ht)|[i' Hi]].
    { destruct i as [t| | | | | | | |]; cbn [Permission.inject_node] in Hp |- *.
      { left. exists t. split; [done|]. by destruct (build_injection t) as [|[[]|]]; simplify_eq. }
      all: right; case_match; injection Hp as _ ->; by eauto. }
    + exists t. split; [by left|done].
    + by apply (IH i').
  - apply (Hbinary l r plan' (λ l r, OpJoin l r on)) in Hp as [[p Hp]|[p Hp]];
      [apply IHl in Hp|apply IHr in Hp]; destruct Hp as (t & Ht & ?); exists t; set_solver.
  - apply (Hbinary l r plan' (λ l r, OpSemiJoin l r on)) in Hp as [[p Hp]|[p Hp]];
      [apply IHl in Hp|apply IHr in Hp]; destruct Hp as (t & Ht & ?); exists t; set_solver.
  - apply (Hbinary l r plan' (λ l r, OpAntiJoin l r on)) in Hp as [[p Hp]|[p Hp]];
      [apply IHl in Hp|apply IHr in Hp]; destruct Hp as (t & Ht & ?); exists t; set_solver.
  - apply (Hbinary l r plan' OpUnion) in Hp as [[p Hp]|[p Hp]];
      [apply IHl in Hp|apply IHr in Hp]; destruct Hp as (t & Ht & ?); exists t; set_solver.
  - cbn in Hp. destruct (inject_node i) as [i' e'] eqn:Hi. injection Hp as _ ->. by apply (IH i').
  - cbn in Hp. destruct (inject_node i) as [i' [e'|]] eqn:Hi; [|done]. injection Hp as _ ->. by apply (IH i').
  - cbn in Hp. destruct (inject_node i) as [i' e'] eqn:Hi. injection Hp as _ ->. by apply (IH i').
Qed.
End safety.

(** * Registered queries under permissions

    A registration's plan goes through [prepare_root] before it reaches the
    circuit. What it answers is then made of permitted rows alone, in every
    circuit that can be reached; the records of its subqueries are not, and
    the last section shows one that leaks. *)

Local Open Scope Z_scope.

(** ** One plan *)

Section guarded.
Context `{Hashing} `{OrdSet}.
Context (convert_surql_to_dbsp_with_links : string → LinkMap → option OperatorPlan).
Context (perms : gmap string string) (auth : option Value) (links : LinkMap) (opaque_fields : gmap string (gset string)).

#[local] Abbreviation prepare_root := (prepare_root convert_surql_to_dbsp_with_links perms auth links opaque_fields).
#[local] Abbreviation build_injection := (build_injection convert_surql_to_dbsp_with_links perms auth links).
#[local] Abbreviation granted := (granted convert_surql_to_dbsp_with_links perms auth links).
#[local] Abbreviation permitted := (permitted convert_surql_to_dbsp_with_links perms auth links).
#[local] Abbreviation admits := (admits convert_surql_to_dbsp_with_links perms auth links).

Definition is_opaque (table field : string) : Prop := ∃ fields, opaque_fields !! table = Some fields ∧ field ∈ fields.

Lemma reject_spec root :
  match reject_opaque_field_evaluation opaque_fields root with
  | Some e => ∃ table field, e = OpaqueField table field ∧ (table, field) ∈ evaluated_field_refs root ∧ is_opaque table field
  | None => ∀ table field, (table, field) ∈ evaluated_field_refs root → ¬ is_opaque table field
  end.
Proof.
  unfold reject_opaque_field_evaluation. destruct (List.find _ _) as [[table field]|] eqn:E.
  - apply List.find_some in E as [Hin Hb]. exists table, field. split; [done|]. split; [by apply list_elem_of_In|].
    cbn in Hb. destruct (opaque_fields !! table) as [fields|] eqn:Ef; [|done]. exists fields. split; [done|].
    by apply bool_decide_eq_true_1 in Hb.
  - intros table field Hin%list_elem_of_In (fields & Hf & Hin'). apply (List.find_none _ _ E) in Hin. cbn in Hin.
    rewrite Hf in Hin. by apply bool_decide_eq_false_1 in Hin.
Qed.

Lemma prepare_spec plan plan' : prepare_root plan = inr plan' →
  inject_node convert_surql_to_dbsp_with_links perms auth links plan = (plan', None) ∧
  reject_opaque_field_evaluation opaque_fields plan' = None.
Proof.
  unfold Permission.prepare_root, inject_permissions_with_links.
  destruct (inject_node _ _ _ _ plan) as [p [e|]]; [done|]. destruct (reject_opaque_field_evaluation _ p) eqn:Er; [done|].
  by intros [= <-].
Qed.

(** C5: A registration's plan is refused when a table it scans is, with that
    table's reason, or when the guarded plan evaluates a field the engine does
    not hold; otherwise every scanned table is granted, no opaque field is
    evaluated, and over any store and parameters the plan answers exactly what
    the query as written answers over tables cut down to their permitted
    rows. *)
Theorem registration_guarded plan :
  match prepare_root plan with
  | inr plan' =>
      (∀ t, t ∈ scanned plan → granted t) ∧
      (∀ table field, (table, field) ∈ evaluated_field_refs plan' → ¬ is_opaque table field) ∧
      ∀ store params, denote plan' store params = over (permitted store params) plan store params
  | inl e =>
      (∃ t, t ∈ scanned plan ∧ build_injection t = inl e) ∨
      (∀ t, t ∈ scanned plan → granted t) ∧ ∃ table field, e = OpaqueField table field ∧ is_opaque table field
  end.
Proof.
  unfold Permission.prepare_root, inject_permissions_with_links.
  destruct (inject_node _ _ _ _ plan) as [plan' [e|]] eqn:Hi; [left; by apply inject_node_fails in Hi|].
  assert (∀ store params, guarded_by convert_surql_to_dbsp_with_links perms auth links store params plan plan') as Hg
    by (intros; by apply inject_node_over).
  assert (∀ t, t ∈ scanned plan → granted t) as Hgr by (apply Forall_forall, (Hg Store.new None)).
  pose proof (reject_spec plan') as Hr. destruct (reject_opaque_field_evaluation _ _) as [e|].
  - right. split; [done|]. destruct Hr as (table & field & -> & _ & Ho). by exists table, field.
  - split; [done|]. split; [done|]. intros store params. apply Hg.
Qed.
End guarded.

(** ** A registered query *)

Section shown.
Context `{HashingLaws} `{OrdSetLaws}.

End shown.

(** ** A concrete registration *)

(** Everybody asks for all users; the rule lets the grown-ups through. *)
Definition sample_rules : gmap string string :=
  {["user" := "age >= 5 AND fn::sp00ky::session_live()"; "thread" := "TRUE"; "secret" := "false"]}.


(** ** A refused subquery is shown *)

(** Threads with their secrets; no reader may read a secret. *)
Definition leak_query : OperatorPlan :=
  OpProject (OpScan "thread") [PAll; PSubquery "secrets" (OpScan "secret") (Some (MkParentKey "thread" "id"))].

(** What [inject_node] leaves: the subquery is emptied. *)
Definition leak_prepared : OperatorPlan :=
  OpProject (OpScan "thread")
    [PAll; PSubquery "secrets" (OpFilter (OpScan "secret") PFalse) (Some (MkParentKey "thread" "id"))].

Example leak_query_prepared :
  prepare_root converted sample_rules None ∅ ∅ leak_query = inr leak_prepared.
Proof. vm_compute. reflexivity. Qed.

Definition leak0 : Circuit :=
  match add_query_with_auth (MkQueryPlan "threads" leak_prepared) None None "" Circuit.new with
  | Some (_, c) => c | None => Circuit.new end.

Definition leak_batch : list Change :=
  [MkChange "thread" Create "thread:t" (Object [("id", Str "thread:t")]);
   MkChange "secret" Create "secret:s" (Object [("thread", Str "thread:t")])].

(** The filter [PFalse] is part of the registered plan, the subquery's rule
    refuses every reader, and the secret's id is sent all the same: the
    records of a subquery are found by table and parent key, and its plan is
    not looked at. *)
Lemma refused_subquery_shown :
  (λ r : list ViewDelta * Circuit, map vd_subquery_items r.1) <$> step_timed (MkChangeSet leak_batch) leak0 =
    Some [[MkItem "secret:s" "thread:t" "secrets" SubAdd]].
Proof. vm_compute. reflexivity. Qed.

(** ** A rule that is read in part *)

(** Documents that are not archived, for their owner. *)
Definition loose_rules : gmap string string := {["doc" := "owner = $auth.id && archived = false"]}.

(** The converter reads no [&&], and leaves out what it does not read: the
    injected rule grants archived documents too. *)
Lemma loose_rule_weakened :
  build_injection converted loose_rules (Some (VObject [("auth", VObject [("id", VString "user:a")])])) ∅ "doc" =
    inr (Some (InjPred (PEq (Path_new "owner") (param_json "auth.id")))).
Proof. vm_compute. reflexivity. Qed.

(** So do a negation and a function call behind an [AND]. *)
Lemma loose_conjuncts_weakened :
  converted "SELECT * FROM doc WHERE owner = $auth.id AND NOT archived = true" ∅ =
    converted "SELECT * FROM doc WHERE owner = $auth.id" ∅ ∧
  converted "SELECT * FROM doc WHERE owner = $auth.id AND count(readers) > 0" ∅ =
    converted "SELECT * FROM doc WHERE owner = $auth.id" ∅.
Proof. split; vm_compute; reflexivity. Qed.

(** A membership test on a field is read as an equality. *)
Lemma contains_is_equality :
  converted "SELECT * FROM doc WHERE tags CONTAINS 'x'" ∅ = Some (OpFilter (OpScan "doc") (PEq (Path_new "tags") (VString "x"))).
Proof. vm_compute. reflexivity. Qed.
